(* ===== verification/_CoqProject ===== *)
-Q . S2P
Prelude.v
Bitmap.v
Hamt.v
HamtInv.v
HamtCorrect.v
HamtSpec.v
HamtMap.v
HamtRefine.v
SparseArray.v
Codec.v
LegacyAddr.v
Value.v
Time.v
Rewards.v
Pots.v
Spending.v
Account.v
Utxo.v
Addr.v
Stake.v
Distribution.v
StakeControl.v
Key.v
Multisig.v
MultisigLedger.v
Input.v
Transaction.v
TransactionSpec.v
TxIo.v
Config.v
ConfigSpec.v
Settings.v
UpdateSpec.v
PoolCert.v
PoolCertSpec.v
DelegationCert.v
Tokens.v
Governance.v
VoteCert.v
Votes.v
VotesSpec.v
UpdateCert.v
LeaderLog.v
LedgerRanges.v
LedgerState.v
Multiverse.v
LedgerTx.v
LedgerTxSpec.v
Fragment.v
LedgerCert.v
LedgerRewardSpec.v
LedgerBlock.v
LedgerBlockSpec.v
Block0Spec.v
Recovery.v
RecoverySpec.v
RecoveryTheorems.v
Storage.v
StorageSpec.v
StorageTheorems.v
Sum.v
SumKey.v
SumSpec.v
SumRec.v
SumTheorems.v
Group.v
Lock.v
Vrf.v
Header.v
HeaderSpec.v
Leadership.v
LeadershipTheorems.v
Block.v
BlockTheorems.v
ElGamal.v
UnitVector.v
UnitComplete.v
BabyStep.v
Tally.v
TallyTheorems.v
