(* ===== verification/Prelude.v ===== *)
(** * Verification of chain-libs

    chain-libs is the set of Rust crates behind the Jormungandr node: a
    persistent hash map, byte codecs, time, addresses, the ledger, headers and
    leader election of [chain-impl-mockchain], the evolving keys and the VRF of
    [chain-crypto], and the private elections of [chain-vote].  This library
    models the parts that carry the ledger's state and value, decide who may
    extend the chain, keep its blocks and count votes, function by function, and proves them
    correct.

    ** The parts and their files

    - [imhamt/src] (the hash array mapped trie): [Bitmap] holds packed
      arrays and node bitmaps, [Hamt] the nodes, collisions, recursive
      operations and iterator as the code has them.  [HamtInv], [HamtCorrect]
      and [HamtMap] prove the invariant and the
      effect of each operation; [HamtSpec] is the abstract contract (finite
      maps with the crate's error types, the [hm_] operations) and
      [HamtRefine] the refinement theorems.  The clients below are modelled on
      [HamtSpec].  The single behaviour of the trie outside the contract is a
      panic, on keys whose full 64-bit hashes collide
      ([HamtRefine.hamt_insert_collision_panics]).
    - [sparse-array/src]: [SparseArray], with the live and dead elements of
      [FastSparseArray]; refines finite maps on the bytes.
    - [chain-ser/src] and [typed-bytes/src/builder.rs]: [Codec], the reader
      [ReadBuf], the writer [ByteBuilder], the packer's [Codec] and [Buffered],
      the self-describing encoding of [abor.rs].
    - [chain-time/src] and [date.rs]: [Time].
    - [chain-addr/src/lib.rs]: [Addr], on the codecs.
    - [value.rs], [fee.rs]: [Value], with the fee algorithm as a class.
      [rewards.rs]: [Rewards].  [ledger/pots.rs], [treasury.rs]: [Pots].
    - [accounting/account/]: [Spending] (the counters that stop replays) and
      [Account] (the ledger of accounts, on [HamtSpec]).
    - [utxo.rs]: [Utxo], a map of sparse arrays refining a map of maps.
    - [stake/]: [Stake] (arithmetic, pool registry), [Distribution] (the stake
      distribution over accounts and UTXOs) and [StakeControl].
    - [multisig/]: [Multisig] (declarations, indices, witnesses) and
      [MultisigLedger].
    - [transaction/] and [key.rs]: [Key] (keys, and what a reader reads
      and from which bytes only), [Input] (inputs, witnesses, payloads as the
      class [Payload]), [Transaction] (the structure of received bytes, the
      builder), [TransactionSpec] and [TxIo] (balances, change).
    - [config.rs], [fragment/config.rs]: [Config] and [ConfigSpec].
      [setting.rs], [update.rs]: [Settings] and [UpdateSpec].
    - [certificate/], [tokens/]: [PoolCert] and [PoolCertSpec] (stake pools and
      their owners' signatures), [DelegationCert], [Tokens], [UpdateCert],
      [VoteCert] (plans, votes, tallies; the encryption scheme is the class
      [Election]).  [LedgerRanges] gives what the structure check of transactions
      needs of each.
    - [vote/] and [ledger/governance/]: [Governance], [Votes] (managers of
      proposals and plans, the vote ledger) and [VotesSpec].
    - [ledger/leaderlog.rs], [ledger/reward_info.rs]: [LeaderLog].
    - [ledger/ledger.rs], [ledger/check.rs], [legacy.rs], [chaineval.rs]:
      [LedgerState] (the record of the whole state, errors, checks),
      [LedgerTx] (inputs, outputs, fee), [LedgerCert] (what each certificate
      does, and the distribution of an epoch's rewards),
      [LedgerBlock] (fragments, blocks, block 0).  Digests, signatures and
      legacy addresses are the class [Crypto].  [LedgerRanges] keeps what is
      read from bytes in its range, [LedgerTxSpec], [LedgerRewardSpec],
      [LedgerBlockSpec] and [Block0Spec] prove the invariant.
    - [ledger/iter.rs], [ledger/recovery.rs]: [Recovery] (the walk over the
      entries of a ledger, their packers and unpackers, the collection),
      [RecoverySpec] (packing and unpacking are inverse, entry by entry) and
      [RecoveryTheorems].
    - [multiverse.rs]: [Multiverse] (the states of all branches, shared by
      counted pointers, and their garbage collection).
    - [fragment/]: [Fragment].
    - [cardano-legacy-address/src]: [LegacyAddr] (base58, CRC32, the addresses
      in checksummed CBOR).
    - [chain-storage/src]: [Storage] (the block store: volatile trees of all
      branches, the permanent pile, the iterator), [StorageSpec] (what a store
      represents, and each operation on it) and [StorageTheorems].
    - [chain-crypto/.../sumed25519/]: [Sum] (slices of buffers, and the
      evolving keys of [sum.rs] in their buffers), [SumKey] (the tree of
      seeds, keys and paths, the layout of a key at a period),
      [SumSpec] (generation, signature, update), [SumRec] (the trees of
      [sumrec.rs]) and [SumTheorems].
    - [chain-crypto/src/ec/], [vrf/], [zkps/]: [Group] (scalars and group
      elements over the curve library, the class [Dalek] with its laws,
      and a concrete group for the witnesses), [Vrf].
    - [chain-crypto/src/asymlock.rs], [multilock.rs]: [Lock] (boxes of data for one
      and for several recipients).
    - [header/]: [Header], with the fixed layout of [cstruct.rs] and the phantom
      typed builders, and [HeaderSpec].  [leadership/]: [Leadership] (BFT
      rotation, the genesis lottery in binary64) and [LeadershipTheorems].
      [block/]: [Block] and [BlockTheorems].
    - [chain-vote/src]: [ElGamal] (encryption, commitments, polynomials), [UnitVector] (the proof that a ballot is a unit vector),
      [UnitComplete] (its completeness),
      [BabyStep] (discrete logarithms), [Tally] (committee, ballots, encrypted
      tally, shares) and [TallyTheorems].

    The ledger calls everything else: a fragment is a transaction over the
    accounts, the UTXOs, the multisig accounts and the pots, and a certificate
    for the pools, the votes, the updates or the tokens; a block is a list of
    fragments between an opening, which processes the update proposals, and a
    closing, which sets the date and the leaders' log; between two epochs the
    rewards are distributed over the stake distribution.  A block's header says
    who made it: the leadership of the epoch, built from the settings, the stake
    distribution and the pools of a ledger, elects the leaders of its slots and
    checks their headers, over the evolving keys and the VRF.  The ledger's view
    of a private election is the class [Election]; [Tally] is the scheme itself.
    The block store keeps the bytes of the blocks, whatever they are; the
    multiverse keeps the ledgers after them, for those who hold a reference.
    The ledger's view of a legacy address is in the class [Crypto], whose reader
    may panic, as that of [LegacyAddr] does.

    A definition keeps the name of its Rust function, with a prefix when two
    types have a function of that name ([hamt_], [fsa_], [utxo_], [psd_], ...).
    State is passed explicitly; [self] mutated in place is the returned state.

    ** What the theorems show

    Refinement: the trie, the sparse arrays and the UTXO ledger implement
    finite maps, errors and iteration included; the block store implements a
    tree of blocks over a chain, through writes, tags, pruning and flushes.  Conservation: accounts, UTXOs,
    pots, taxes, stake distribution and stake control neither create nor lose
    value; hence neither do transactions, reward distributions, blocks, nor
    whole chains of them ([LedgerBlockSpec.chain_conserves]), and from a block 0
    on the total stays within a [u64].  Safety: an output is not spent twice, a
    spending counter is not accepted twice, an account votes once on a
    proposal, a multisig account and a pool's owners sign with enough distinct
    keys, a state of the multiverse that somebody holds is not collected.
    Absence of panics: the accessors of a transaction that passed the structure
    check, the check itself but on the binding signature of a stake delegation
    ([stake_delegation_check]), the application of a transaction, the processing
    of proposals, the distribution of rewards.  Round trips: codecs, transactions, certificates,
    fragments, headers, blocks, configuration, dates and slots, the dump of a
    ledger (which loses what [ledger_recovered] and [settings_recovered] say), legacy addresses, base58.  Bounds:
    rewards, fees and shares stay within their limits, the search of discrete
    logarithms ends within its turns.  Exactness: which bytes are a header, and
    which headers a leadership accepts, what the ancestor queries answer.  Completeness: an elected leader's own
    header is accepted, an evolving key signs in every period of its life and
    refines the recursive reference implementation, the VRF verifies, a box opens for
    each of its recipients and for nobody else, an
    election of honest voters and members counts the votes.  Binding: a
    signature of the evolving keys carries the key of its period.
    Some theorems state where the code falls short of its intent, exactly as it
    behaves: [hamt_eq_is_inclusion],
    [hamt_insert_collision_panics], [era_slot_roundtrip],
    [multisig_witness_read_one_more], [invalid_choice_blocks_tally],
    [public_tally_repeatable], [finalize_private_drops_proposals],
    [multisig_reward_account_panics], [block0_assertions_panic],
    [malformed_kes_header_panics], [dump_with_proposals], [extra_share_forges_result],
    [shifted_ballot_accepted], [ballot_reveals_vote],
    [single_option_vote_panics], [tax_cut_loses_value],
    [address_deserialize_script_panics], [stake_ratio_by], [store_iter_blocks],
    [stale_branch_misjudged], [flushed_entries_stay], [two_lengths_panic],
    [multisig_binding_panics],
    [distance_zero_walks_on], [base58_empty], [bad_array_panics],
    [abor_nested_length], [abor_unknown_tag] and [abor_short_u32].  The theorems
    whose doc comment carries a claim number are the main ones; the others are
    as much part of the library.

    ** Conventions

    - A fallible computation is an [outcome]: [Ok], [Err], or [Panic] for an
      assertion, an [unwrap], an index out of range, a division by zero.  A
      theorem that a function returns [Ok] or [Err] excludes the panic.
    - An unsigned integer is a [Z] (a [nat] for small indices) with its range
      as [in_u w]; plain operators wrap ([wrap w]), checked and saturating ones
      are written out.
    - Loops that are not structural take fuel, and running out is a [Panic] (or
      [None]): [Hamt.FUEL] is 14, one more than the 13 levels of 5 bits of a
      64-bit hash; [SparseArray] iterates with 257, one more than its indices;
      the iterators of the trie and of the UTXOs, and the total value of the
      ledger that walks two of them, and the walk over its entries, take the fuel
      as an argument, and the theorems give an amount that is enough.  The
      readers of a dump take the number of its bytes, since every level and
      every entry takes some.  The walks over the parents of a block take more
      than its chain length, a pruning more than the number of volatile blocks,
      a collection of the multiverse more than the number of its chain lengths.
      Attributes of a legacy address are read with fuel for one more entry than
      they have, 3; base58 pushes the digits of a [u32] with 32.
    - A class stands for code outside of this model: [Crypto] (digests and the
      ledger's signatures), [Election] and [GroupEncoding] (the ledger's view of
      [chain-vote]), [Ed25519] (the signature scheme under the evolving keys),
      [Dalek] (the curve), [StreamCipher] (ChaCha20),
      [Aead] (key derivation and ChaCha20-Poly1305), [Libm] (the platform's
      [exp] and [ln]), [Sled] and [DataPile] (the databases of the block store),
      [CborEvent] and [LegacyCrypto] (the CBOR reader and writer, the digests and
      extended keys of legacy addresses).
      [Ed25519Laws], [DalekLaws], [SledLaws], [DataPileLaws], [CborLaws],
      [LegacyCryptoLaws] and [AeadLaws] state what the
      libraries document: signatures verify, encodings are inverse, scalars are
      a field that acts on a group, a tree is a finite map and a pile a list,
      a CBOR reader inverts its writer, a cipher opens what it sealed.  Each has a concrete instance in the
      witnesses.  [SledLaws] and [DataPileLaws] say that every operation of the
      databases succeeds: what the block store does when its disk fails (the
      errors it then passes on, and the permanent store a flush has extended
      before the volatile trees failed) is in the definitions, not in the theorems.
    - The builds are those without debug assertions, but where a definition says
      otherwise ([to_config_params_assertion], for the dump of a ledger).
    - The steps of those who share a multiverse ([multiverse_step]) insert states
      under any hash, but do not insert a hash at a second chain length while its
      entry is there; [two_lengths_panic] is what happens then.
    - Randomness is a stream of scalars that is passed along; floats are
      binary64 by the Standard Library's [SpecFloat].
    - What theorems on the ledger assume of fragments is that they were read
      from bytes ([fragment_received]), never that they are valid.
    - [Arc] and [Box] are invisible where the structures are persistent and no
      theorem depends on sharing; [Multiverse], which counts the owners, has a
      heap of counted cells.

    ** Not modelled

    The external libraries of the curves, hashes, ciphers and databases; the
    generic wrappers of [chain-crypto]; network and generated code
    ([chain-network]); traits without behaviour ([chain-core], [deser.rs]); the
    EVM (behind a feature: its fragments are refused); the external CBOR and
    extended keys of the legacy addresses; test generators,
    text forms and [Debug].  Threads: the parallel folds of ballots and shares
    are sequential, the operations of the block store are not interleaved.

    This file is the shared prelude: outcomes, machine integers, lemmas on
    lists and sums, tactics and the [chain] hint database. *)
From stdpp Require Export base tactics numbers list list_numbers option gmap strings.
From Stdlib Require Export ZArith Lia.

Local Open Scope Z_scope.

#[global] Arguments Z.add : simpl never.
#[global] Arguments Z.sub : simpl never.
#[global] Arguments Z.mul : simpl never.

#[export] Set Default Goal Selector "!".
#[export] Set Default Proof Using "Type".

(** ** Outcomes of a Rust computation

    [Ok] and [Err] are the two constructors of [Result]; [Panic] is an
    [assert!], an [unwrap] of an error, an index out of range, a division by
    zero or an [unreachable!]. *)
Inductive outcome (E A : Type) : Type :=
| Ok (a : A)
| Err (e : E)
| Panic.
Arguments Ok {E A} a.
Arguments Err {E A} e.
Arguments Panic {E A}.

(** The type of errors of a function that cannot fail (it may panic). *)
Abbreviation infallible := Empty_set.

#[export] Instance outcome_ret {E} : MRet (outcome E) := λ A a, Ok a.
#[export] Instance outcome_bind {E} : MBind (outcome E) := λ A B f m,
  match m with Ok a => f a | Err e => Err e | Panic => Panic end.
#[export] Instance outcome_fmap {E} : FMap (outcome E) := λ A B f m,
  match m with Ok a => Ok (f a) | Err e => Err e | Panic => Panic end.

(** [Result::map_err]. *)
Definition map_err {E F A} (f : E → F) (m : outcome E A) : outcome F A :=
  match m with Ok a => Ok a | Err e => Err (f e) | Panic => Panic end.

(** [Option::ok_or]. *)
Definition ok_or {E A} (o : option A) (e : E) : outcome E A :=
  match o with Some a => Ok a | None => Err e end.

(** [Result::unwrap] and [Option::unwrap]. *)
Definition unwrap {E F A} (m : outcome E A) : outcome F A :=
  match m with Ok a => Ok a | _ => Panic end.
Definition unwrap_opt {E A} (o : option A) : outcome E A :=
  match o with Some a => Ok a | None => Panic end.

(** [assert!(b)]. *)
Definition assert_that {E} (b : bool) : outcome E unit :=
  if b then Ok () else Panic.

(** An infallible computation used where an error of type [E] may occur. *)
Definition lift {E A} (m : outcome infallible A) : outcome E A :=
  match m with Ok a => Ok a | Err e => match e with end | Panic => Panic end.

Definition is_ok {E A} (m : outcome E A) : bool :=
  match m with Ok _ => true | _ => false end.

#[export] Instance outcome_eq_dec {E A} `{EqDecision E, EqDecision A} :
  EqDecision (outcome E A).
Proof. solve_decision. Defined.

Lemma bind_Ok {E A B} (m : outcome E A) (f : A → outcome E B) b :
  (m ≫= f) = Ok b ↔ ∃ a, m = Ok a ∧ f a = Ok b.
Proof. destruct m; cbn; naive_solver. Qed.

Lemma bind_Err {E A B} (m : outcome E A) (f : A → outcome E B) e :
  (m ≫= f) = Err e ↔ m = Err e ∨ ∃ a, m = Ok a ∧ f a = Err e.
Proof. destruct m; cbn; naive_solver. Qed.

Lemma Ok_inj {E A} (a b : A) : @Ok E A a = Ok b → a = b.
Proof. by intros [= ->]. Qed.

Lemma map_err_Ok {E F A} (f : E → F) (m : outcome E A) a :
  map_err f m = Ok a ↔ m = Ok a.
Proof. destruct m; cbn; naive_solver. Qed.

Lemma unwrap_Ok {E F A} (m : outcome E A) a :
  unwrap (F := F) m = Ok a ↔ m = Ok a.
Proof. destruct m; cbn; naive_solver. Qed.

Lemma assert_that_Ok {E} b u : assert_that (E := E) b = Ok u ↔ b = true.
Proof. destruct b, u; cbn; naive_solver. Qed.

Lemma bind_assoc {E A B C} (m : outcome E A) (f : A → outcome E B) (g : B → outcome E C) :
  ((m ≫= f) ≫= g) = (m ≫= λ a, f a ≫= g).
Proof. by destruct m. Qed.

(** A fold whose step may fail, stopping at the first failure: the shape of a
    [for] loop whose body uses [?]. *)
Fixpoint foldM {E A S} (f : S → A → outcome E S) (s : S) (l : list A) : outcome E S :=
  match l with
  | [] => Ok s
  | a :: l => s' ← f s a; foldM f s' l
  end.

Lemma foldM_app {E A S} (f : S → A → outcome E S) s l1 l2 :
  foldM f s (l1 ++ l2) = (foldM f s l1 ≫= λ s', foldM f s' l2).
Proof.
  revert s. induction l1 as [|a l1 IH]; intros s; [done|]. cbn.
  destruct (f s a); cbn; [apply IH|done|done].
Qed.

(** An invariant of the step is an invariant of the loop. *)
Lemma foldM_inv {E A S} (P : S → Prop) (f : S → A → outcome E S) l s s' :
  (∀ s a s', a ∈ l → P s → f s a = Ok s' → P s') →
  P s → foldM f s l = Ok s' → P s'.
Proof.
  revert s. induction l as [|a l IH]; cbn; intros s Hf Hs.
  - by intros [= <-].
  - intros (s1 & H1 & H2)%bind_Ok. eapply IH; [|by eapply Hf; [left| |]|done].
    intros. eapply Hf; [by right| |]; done.
Qed.

(** A loop that advances an invariant indexed by the elements it has seen. *)
Lemma foldM_prefix {E A S} (P : list A → S → Prop) (f : S → A → outcome E S) l s :
  P [] s →
  (∀ pre a post s, l = pre ++ a :: post → P pre s → ∃ s', f s a = Ok s' ∧ P (pre ++ [a]) s') →
  ∃ s', foldM f s l = Ok s' ∧ P l s'.
Proof.
  intros H0 Hf. induction l as [|a l IH] using rev_ind; [by exists s|].
  destruct IH as (s1 & H1 & HP1).
  { intros pre b post s1 -> HP. apply (Hf pre b (post ++ [a])); [by rewrite <-app_assoc|done]. }
  destruct (Hf l a [] s1 eq_refl HP1) as (s2 & H2 & HP2).
  exists s2. split; [|done]. rewrite foldM_app, H1. cbn. by rewrite H2.
Qed.

(** ** Machine integers

    An unsigned integer of width [w] is a [Z] in [0 .. 2^w - 1].  The plain
    operators [+], [-], [*] of the source wrap, as in the release profile of
    the workspace (which leaves [overflow-checks] off); the theorems give the
    ranges in which nothing wraps, where a debug build computes the same. *)
Definition in_u (w x : Z) : Prop := 0 ≤ x < 2 ^ w.
Definition wrap (w x : Z) : Z := x `mod` 2 ^ w.
Abbreviation u8_ok := (in_u 8).
Abbreviation u16_ok := (in_u 16).
Abbreviation u32_ok := (in_u 32).
Abbreviation u64_ok := (in_u 64).
Abbreviation u128_ok := (in_u 128).

Definition u8_max : Z := 2 ^ 8 - 1.
Definition u32_max : Z := 2 ^ 32 - 1.
Definition u64_max : Z := 2 ^ 64 - 1.
Definition u128_max : Z := 2 ^ 128 - 1.

#[export] Instance in_u_dec w x : Decision (in_u w x).
Proof. unfold in_u. apply _. Defined.

Lemma wrap_small w x : in_u w x → wrap w x = x.
Proof. intros. by apply Z.mod_small. Qed.

Lemma wrap_in_u w x : 0 ≤ w → in_u w (wrap w x).
Proof. intros. apply Z.mod_pos_bound, Z.pow_pos_nonneg; lia. Qed.

Lemma wrap_wrap w x : 0 ≤ w → wrap w (wrap w x) = wrap w x.
Proof. intros. by apply wrap_small, wrap_in_u. Qed.

Lemma wrap_add_l w x y : wrap w (wrap w x + y) = wrap w (x + y).
Proof. unfold wrap. by rewrite Zplus_mod_idemp_l. Qed.

Lemma wrap_add_r w x y : wrap w (x + wrap w y) = wrap w (x + y).
Proof. unfold wrap. by rewrite Zplus_mod_idemp_r. Qed.

Lemma wrap_sub_l w x y : wrap w (wrap w x - y) = wrap w (x - y).
Proof. unfold wrap. rewrite Zminus_mod_idemp_l. done. Qed.

Lemma in_u_mono w w' x : 0 ≤ w ≤ w' → in_u w x → in_u w' x.
Proof. unfold in_u. intros ? [??]. split; [lia|]. pose proof (Z.pow_le_mono_r 2 w w'). lia. Qed.

(** The standard checked and saturating operations of [u64]. *)
Definition checked_add64 (x y : Z) : option Z :=
  if decide (x + y ≤ u64_max) then Some (x + y) else None.
Definition checked_sub64 (x y : Z) : option Z :=
  if decide (y ≤ x) then Some (x - y) else None.
Definition checked_mul64 (x y : Z) : option Z :=
  if decide (x * y ≤ u64_max) then Some (x * y) else None.
Definition saturating_add64 (x y : Z) : Z := Z.min (x + y) u64_max.
Definition saturating_mul64 (x y : Z) : Z := Z.min (x * y) u64_max.

(** Division, which panics on a zero divisor. *)
Definition div_checked {E} (x y : Z) : outcome E Z :=
  if decide (y = 0) then Panic else Ok (x `div` y).
Definition mod_checked {E} (x y : Z) : outcome E Z :=
  if decide (y = 0) then Panic else Ok (x `mod` y).

(** ** Lists *)
Lemma elem_of_concat {A} (x : A) ls : x ∈ concat ls ↔ ∃ l, x ∈ l ∧ l ∈ ls.
Proof.
  rewrite list_elem_of_In, in_concat. setoid_rewrite <-list_elem_of_In. naive_solver.
Qed.

Lemma omap_none {A B} (f : A → option B) (l : list A) : (∀ x, x ∈ l → f x = None) → omap f l = [].
Proof.
  induction l as [|x l IH]; intros Hf; [done|]. cbn. rewrite Hf by left. apply IH.
  intros. apply Hf. by right.
Qed.

Lemma omap_ext_in {A B} (f g : A → option B) (l : list A) :
  (∀ x, x ∈ l → f x = g x) → omap f l = omap g l.
Proof.
  induction l as [|x l IH]; intros Hf; [done|]. cbn. rewrite Hf by left.
  rewrite IH; [done|]. intros. apply Hf. by right.
Qed.

(** ** Sums over lists and maps of integers *)
Fixpoint Zsum (l : list Z) : Z :=
  match l with [] => 0 | x :: l => x + Zsum l end.

Lemma Zsum_app l1 l2 : Zsum (l1 ++ l2) = Zsum l1 + Zsum l2.
Proof. induction l1; cbn; lia. Qed.

Lemma Zsum_perm l1 l2 : l1 ≡ₚ l2 → Zsum l1 = Zsum l2.
Proof. induction 1; cbn in *; lia. Qed.

Lemma Zsum_nonneg l : Forall (λ x, 0 ≤ x) l → 0 ≤ Zsum l.
Proof. induction 1; cbn; lia. Qed.

(** A loop whose steps succeed and add a non-negative amount to a measure as
    long as it stays below a bound. *)
Lemma foldM_measure {E A S} (P : S → Prop) (mu : S → Z) (amount : A → Z) B
    (f : S → A → outcome E S) l s :
  P s → mu s + Zsum (amount <$> l) ≤ B → (∀ a, a ∈ l → 0 ≤ amount a) →
  (∀ s a, a ∈ l → P s → mu s + amount a ≤ B →
    ∃ s', f s a = Ok s' ∧ P s' ∧ mu s' = mu s + amount a) →
  ∃ s', foldM f s l = Ok s' ∧ P s' ∧ mu s' = mu s + Zsum (amount <$> l).
Proof.
  intros HP HB Hpos Hf.
  apply (foldM_prefix (λ pre s', P s' ∧ mu s' = mu s + Zsum (amount <$> pre))).
  - split; [done|]. cbn. lia.
  - intros pre a post s1 -> [HP1 Hmu]. rewrite fmap_app, fmap_cons, Zsum_app in HB. cbn in HB.
    assert (0 ≤ Zsum (amount <$> post)).
    { apply Zsum_nonneg, Forall_fmap, Forall_forall. intros b Hb. cbn. apply Hpos.
      rewrite elem_of_app, elem_of_cons. tauto. }
    destruct (Hf s1 a) as (s2 & H2 & HP2 & Hmu2);
      [rewrite elem_of_app, elem_of_cons; tauto|done|lia|].
    exists s2. split; [done|]. split; [done|]. rewrite fmap_app, Zsum_app. cbn. lia.
Qed.

Definition map_sum `{Countable K} {A} (f : A → Z) (m : gmap K A) : Z :=
  Zsum (f <$> (map_to_list m).*2).

Section map_sum.
Context `{Countable K} {A : Type} (f : A → Z).
Implicit Types m : gmap K A.

Lemma map_sum_empty : map_sum f (∅ : gmap K A) = 0.
Proof. unfold map_sum. by rewrite map_to_list_empty. Qed.

Lemma map_sum_insert_new m k a :
  m !! k = None → map_sum f (<[k:=a]> m) = f a + map_sum f m.
Proof.
  intros Hk. unfold map_sum.
  by rewrite (Zsum_perm _ (f <$> ((k, a) :: map_to_list m).*2))
    by (by rewrite map_to_list_insert).
Qed.

Lemma map_sum_delete m k a :
  m !! k = Some a → map_sum f m = f a + map_sum f (delete k m).
Proof.
  intros Hk. rewrite <-(insert_id m k a) at 1 by done.
  rewrite <-insert_delete_eq. apply map_sum_insert_new. apply lookup_delete_eq.
Qed.

Lemma map_sum_insert m k a a' :
  m !! k = Some a → map_sum f (<[k:=a']> m) = map_sum f m - f a + f a'.
Proof.
  intros Hk. rewrite <-insert_delete_eq, map_sum_insert_new by apply lookup_delete_eq.
  rewrite (map_sum_delete m k a) by done. lia.
Qed.

Lemma map_sum_nonneg m : map_Forall (λ _ a, 0 ≤ f a) m → 0 ≤ map_sum f m.
Proof.
  intros Hm. apply Zsum_nonneg. apply Forall_fmap, Forall_fmap.
  apply Forall_forall. intros [k a] Hin. cbn.
  apply elem_of_map_to_list in Hin. by apply (Hm k).
Qed.

Lemma map_sum_lookup_le m k a :
  map_Forall (λ _ a, 0 ≤ f a) m → m !! k = Some a → f a ≤ map_sum f m.
Proof.
  intros Hm Hk. rewrite (map_sum_delete m k a) by done.
  assert (0 ≤ map_sum f (delete k m)); [|lia].
  apply map_sum_nonneg. by apply map_Forall_delete.
Qed.
End map_sum.

(** Maps with the same keys and pointwise equal measures. *)
Lemma map_sum_ext `{Countable K} {A B} (f : A → Z) (g : B → Z) (m1 : gmap K A) (m2 : gmap K B) :
  (∀ k, match m1 !! k, m2 !! k with
        | Some a, Some b => f a = g b | None, None => True | _, _ => False
        end) →
  map_sum f m1 = map_sum g m2.
Proof.
  revert m2. induction m1 as [|k a m1 Hk IH] using map_ind; intros m2 Hm.
  - assert (m2 = ∅) as ->; [|by rewrite !map_sum_empty].
    apply map_empty. intros k. specialize (Hm k). rewrite lookup_empty in Hm. by destruct (m2 !! k).
  - pose proof (Hm k) as Hmk. rewrite lookup_insert_eq in Hmk.
    destruct (m2 !! k) as [b|] eqn:Hb; [|done].
    rewrite map_sum_insert_new, (map_sum_delete g m2 k b), Hmk by done. f_equal. apply IH.
    intros k'. specialize (Hm k'). destruct (decide (k' = k)) as [->|Hne].
    + by rewrite Hk, lookup_delete_eq.
    + rewrite lookup_insert_ne in Hm by done. by rewrite lookup_delete_ne.
Qed.

(** ** Automation *)

(** Case analysis on the conditions of the goal or of a hypothesis, closing
    the branches that the context or linear arithmetic refutes. *)
Ltac split_ifs :=
  repeat (case_match || case_decide); simplify_eq/=; try done; try lia.

(** Decompose every successful bind of the context. *)
Ltac inv_ok :=
  repeat match goal with
  | H : (_ ≫= _) = Ok _ |- _ => apply bind_Ok in H as (? & ? & ?)
  | H : map_err _ _ = Ok _ |- _ => apply map_err_Ok in H
  | H : unwrap _ = Ok _ |- _ => apply unwrap_Ok in H
  | H : assert_that _ = Ok _ |- _ => apply assert_that_Ok in H
  | H : mret _ = Ok _ |- _ => cbn in H
  | H : Ok _ = Ok _ |- _ => injection H as H
  end; simplify_eq/=.

(** [lia] with Euclidean division and remainder. *)
Ltac dlia := Z.to_euclidean_division_equations; lia.

Create HintDb chain.
Create Rewrite HintDb chain.
#[export] Hint Resolve wrap_in_u : chain.
#[export] Hint Rewrite @bind_Ok @map_err_Ok @unwrap_Ok : chain.
#[export] Hint Extern 1 (_ ≤ _)%Z => lia : chain.
#[export] Hint Extern 1 (_ < _)%Z => lia : chain.
