(* ===== verification/Bitmap.v ===== *)
(** * Packed arrays: a table of optional cells stored as a bit set and an array

    Both the HAMT nodes and the sparse arrays keep a set of indices (as bits)
    and a dense array with one element per set index, in increasing order.
    [rank f n] counts the set indices below [n]; [packed f l] is the table the
    pair stands for; the lemmas give the effect of the three array updates.  The
    second part is the 32-bit bitmap of a HAMT node and the hashed keys
    ([imhamt/src/bitmap.rs], [imhamt/src/hash.rs]). *)
From S2P Require Import Prelude.
Local Open Scope nat_scope.

Fixpoint rank (f : nat → bool) (n : nat) : nat :=
  match n with O => O | S n => (if f n then 1 else 0) + rank f n end.

Section rank.
Implicit Types (f : nat → bool).

Lemma rank_S f n : rank f (S n) = (if f n then 1 else 0) + rank f n.
Proof. done. Qed.

Lemma rank_le f n : rank f n ≤ n.
Proof. induction n; cbn; [lia|]. case_match; lia. Qed.

Lemma rank_ext f g n : (∀ i, i < n → f i = g i) → rank f n = rank g n.
Proof.
  induction n as [|n IH]; intros Hfg; cbn; [done|].
  rewrite (Hfg n), IH by lia || (intros; apply Hfg; lia). done.
Qed.

Lemma rank_mono f n m : n ≤ m → rank f n ≤ rank f m.
Proof. induction 1; [done|]. cbn. lia. Qed.

Lemma rank_lt f n m : f n = true → n < m → rank f n < rank f m.
Proof.
  intros Hn Hm. pose proof (rank_mono f (S n) m ltac:(lia)) as Hle.
  rewrite rank_S, Hn in Hle. lia.
Qed.

(** The rank determines the index among the set ones. *)
Lemma rank_inj f i j : f i = true → f j = true → rank f i = rank f j → i = j.
Proof.
  intros Hi Hj Heq. destruct (Nat.lt_trichotomy i j) as [H|[H|H]]; [|done|].
  - pose proof (rank_lt f i j Hi H). lia.
  - pose proof (rank_lt f j i Hj H). lia.
Qed.

Lemma rank_insert f g i n :
  f i = false → (∀ j, j < n → g j = f j || bool_decide (j = i)) →
  rank g n = rank f n + if decide (i < n) then 1 else 0.
Proof.
  intros Hi. induction n as [|n IH]; intros Hg; [done|].
  rewrite !rank_S, IH by (intros; apply Hg; lia). rewrite Hg by lia.
  destruct (decide (n = i)) as [->|Hne].
  - rewrite bool_decide_true, orb_true_r, Hi by done. repeat case_decide; lia.
  - rewrite bool_decide_false, orb_false_r by done. repeat case_decide; lia.
Qed.
End rank.

Section packed.
Context {A : Type}.
Implicit Types (f g : nat → bool) (l : list A).

Definition packed f l (i : nat) : option A := if f i then l !! rank f i else None.

Lemma packed_is_Some f l i n :
  length l = rank f n → i < n → f i = true → is_Some (packed f l i).
Proof.
  intros Hlen Hi Hf. unfold packed. rewrite Hf. apply lookup_lt_is_Some.
  rewrite Hlen. by apply rank_lt.
Qed.

Lemma packed_Some_true f l i a : packed f l i = Some a → f i = true.
Proof. unfold packed. by destruct (f i). Qed.

Lemma packed_None_false f l i n :
  length l = rank f n → i < n → packed f l i = None → f i = false.
Proof.
  intros Hlen Hi Hp. destruct (f i) eqn:Hf; [|done].
  destruct (packed_is_Some f l i n Hlen Hi Hf). congruence.
Qed.

Lemma packed_insert f g l i a n :
  length l = rank f n → i < n → f i = false →
  (∀ j, j < n → g j = f j || bool_decide (j = i)) →
  rank f i ≤ length l ∧
  length (take (rank f i) l ++ a :: drop (rank f i) l) = rank g n ∧
  ∀ j, j < n → packed g (take (rank f i) l ++ a :: drop (rank f i) l) j =
    if decide (j = i) then Some a else packed f l j.
Proof.
  intros Hlen Hi Hf Hg.
  assert (rank f i ≤ length l) as Hle by (rewrite Hlen; apply rank_mono; lia).
  split_and!; [done| |].
  - rewrite (rank_insert f g i n Hf Hg), decide_True, <-Hlen by done.
    rewrite length_app, length_take. cbn. rewrite length_drop. lia.
  - intros j Hj. unfold packed. rewrite Hg by done.
    rewrite (rank_insert f g i j Hf) by (intros; apply Hg; lia).
    destruct (decide (j = i)) as [->|Hne].
    + rewrite bool_decide_true, orb_true_r by done.
      rewrite decide_False, Nat.add_0_r by lia.
      rewrite lookup_app_r; rewrite length_take; [|lia].
      by rewrite Nat.min_l, Nat.sub_diag by lia.
    + rewrite bool_decide_false, orb_false_r by done.
      destruct (f j) eqn:Hfj; [|done]. case_decide as Hij.
      * assert (rank f i ≤ rank f j) by (apply rank_mono; lia).
        rewrite lookup_app_r; rewrite length_take; [|lia].
        rewrite Nat.min_l by lia.
        replace (_ + 1 - _) with (S (rank f j - rank f i)) by lia.
        rewrite <-lookup_tail. cbn [tail]. rewrite lookup_drop. f_equal. lia.
      * assert (rank f j < rank f i) by (apply rank_lt; [done|lia]).
        rewrite Nat.add_0_r, lookup_app_l by (rewrite length_take; lia).
        apply lookup_take_lt. lia.
Qed.

Lemma packed_update f l i a n :
  length l = rank f n → i < n → f i = true →
  rank f i < length l ∧
  ∀ j, j < n → packed f (<[rank f i:=a]> l) j =
    if decide (j = i) then Some a else packed f l j.
Proof.
  intros Hlen Hi Hf.
  assert (rank f i < length l) as Hlt by (rewrite Hlen; by apply rank_lt).
  split; [done|]. intros j Hj. unfold packed. destruct (decide (j = i)) as [->|Hne].
  - rewrite Hf. by apply list_lookup_insert_eq.
  - destruct (f j) eqn:Hfj; [|done].
    apply list_lookup_insert_ne. intros Heq. by eapply Hne, (rank_inj f).
Qed.

Lemma packed_delete f g l i n :
  length l = rank f n → i < n → f i = true →
  (∀ j, j < n → g j = f j && negb (bool_decide (j = i))) →
  rank f i < length l ∧ length (delete (rank f i) l) = rank g n ∧
  ∀ j, j < n → packed g (delete (rank f i) l) j =
    if decide (j = i) then None else packed f l j.
Proof.
  intros Hlen Hi Hf Hg.
  assert (∀ m, m ≤ n → rank f m = rank g m + if decide (i < m) then 1 else 0) as Hr.
  { intros m Hm. apply rank_insert.
    - rewrite Hg, bool_decide_true, andb_false_r by done. done.
    - intros j Hj. rewrite Hg by lia. case_bool_decide; subst.
      + by rewrite orb_true_r.
      + by rewrite andb_true_r, orb_false_r. }
  assert (rank f i < length l) as Hlt by (rewrite Hlen; by apply rank_lt).
  split_and!; [done| |].
  - rewrite length_delete by by apply lookup_lt_is_Some.
    rewrite Hlen, (Hr n), decide_True by done. lia.
  - intros j Hj. unfold packed. rewrite Hg by done.
    destruct (decide (j = i)) as [->|Hne].
    + by rewrite bool_decide_true, andb_false_r by done.
    + rewrite bool_decide_false, andb_true_r by done.
      destruct (f j) eqn:Hfj; [|done].
      pose proof (Hr j ltac:(lia)) as Hp. case_decide as Hij.
      * assert (rank f i < rank f j) by by apply rank_lt.
        rewrite list_lookup_delete_ge by lia. f_equal. lia.
      * assert (rank f j < rank f i) by (apply rank_lt; [done|lia]).
        rewrite list_lookup_delete_lt by lia. f_equal. lia.
Qed.

(** The array lists the cells in the order of their index. *)
Lemma packed_list f l n : length l = rank f n → l = omap (packed f l) (seq 0 n).
Proof.
  intros Hlen.
  assert (∀ m, m ≤ n → take (rank f m) l = omap (packed f l) (seq 0 m)) as Hm.
  { induction m as [|m IH]; intros Hm; [done|].
    rewrite seq_S, omap_app. cbn [omap]. rewrite <-IH by lia.
    rewrite rank_S. unfold packed. cbn. destruct (f m) eqn:Hb.
    - pose proof (rank_lt f m n Hb ltac:(lia)) as Hlt. rewrite <-Hlen in Hlt.
      apply lookup_lt_is_Some in Hlt as [e He]. rewrite He. by apply take_S_r.
    - cbn. by rewrite app_nil_r. }
  specialize (Hm n ltac:(lia)). by rewrite <-Hlen, firstn_all in Hm.
Qed.
End packed.

(** * Node bitmaps and hashed keys of the HAMT ([imhamt/src/bitmap.rs],
    [imhamt/src/hash.rs], [imhamt/src/helper.rs])

    A [SmallBitmap] is a [u32]; a [LevelIndex] is a [usize] below 32 cut out of
    a 64-bit key hash, five bits per level; an [ArrayIndex] is the position of
    a child in the packed array of a node, [0xff] standing for "not found".
    The lemmas say that the packed position of an index is its rank: the
    number of smaller indices that are set. *)
Local Open Scope Z_scope.

(** ** Array helpers ([helper.rs]); a slice out of range panics. *)
Definition clone_array_and_insert_at_pos {E A} (v : list A) (a : A) (pos : nat) :
    outcome E (list A) :=
  if decide (pos ≤ length v)%nat then Ok (take pos v ++ a :: drop pos v) else Panic.

Definition clone_array_and_set_at_pos {E A} (v : list A) (a : A) (pos : nat) :
    outcome E (list A) :=
  v1 ← (if decide (0 < pos)%nat
        then if decide (pos ≤ length v)%nat then Ok (take pos v) else Panic
        else Ok []);
  Ok (v1 ++ a :: (if decide (pos + 1 < length v)%nat then drop (pos + 1) v else [])).

Definition clone_array_and_remove_at_pos {E A} (v : list A) (pos : nat) :
    outcome E (list A) :=
  if decide (pos < length v)%nat then Ok (delete pos v) else Panic.

Definition clone_array_and_extend {A} (v : list A) (end_ : A) : list A := v ++ [end_].

(** ** Bit counting ([u32::count_ones]) *)
Definition bit (x : Z) (i : nat) : bool := Z.testbit x (Z.of_nat i).
Definition popcount (n : nat) (x : Z) : nat := rank (bit x) n.

Definition count_ones (x : Z) : nat := popcount 32 x.

(** ** Hashed keys ([hash.rs]) *)
Definition SIZE : nat := 32.

(** [u64::wrapping_shr]: the shift amount is taken modulo 64. *)
Definition wrapping_shr64 (x shift : Z) : Z := Z.shiftr x (shift `mod` 64).

(** [HashedKey::level_index]; the [assert!(idx < SIZE)] can never fail
    ([level_index_lt] below), so it is not carried by the result. *)
Definition level_index (h : Z) (level : nat) : nat :=
  let shift := wrap 32 (wrap 32 (Z.of_nat level) * 5) in
  Z.to_nat (Z.land (wrapping_shr64 h shift) 31).

(** [LevelIndex::mask]: [1u32.wrapping_shl], the shift taken modulo 32. *)
Definition mask (b : nat) : Z := wrap 32 (Z.shiftl 1 (Z.of_nat b `mod` 32)).

(** ** Small bitmaps ([bitmap.rs]) *)
Definition bitmap_new : Z := 0.
Definition bitmap_is_empty (bm : Z) : bool := bm =? 0.
Definition bitmap_present (bm : Z) : nat := count_ones bm.
Definition bitmap_once (b : nat) : Z := mask b.

Definition not_found : nat := 255.
Definition is_not_found (i : nat) : bool := (i =? not_found)%nat.
Definition get_found {E} (i : nat) : outcome E nat :=
  _ ← assert_that (negb (is_not_found i)); Ok i.

Definition get_index_sparse (bm : Z) (b : nat) : nat :=
  let m := mask b in
  if Z.land bm m =? 0 then not_found
  else count_ones (Z.land bm (wrap 32 (m - 1))).

Definition get_sparse_pos (bm : Z) (b : nat) : nat :=
  count_ones (Z.land bm (wrap 32 (mask b - 1))).

Definition is_set (bm : Z) (b : nat) : bool := negb (Z.land bm (mask b) =? 0).
Definition set_index (bm : Z) (b : nat) : Z := Z.lor bm (mask b).

(** [!x] on [u32]. *)
Definition not32 (x : Z) : Z := u32_max - x.
Definition clear_index (bm : Z) (b : nat) : Z := Z.land bm (not32 (mask b)).

(** ** Rank lemmas *)
Lemma popcount_S n x : popcount (S n) x = ((if bit x n then 1 else 0) + popcount n x)%nat.
Proof. done. Qed.

Section mask.
Variable b : nat.
Hypothesis Hb : (b < 32)%nat.

Lemma mask_pow : mask b = 2 ^ Z.of_nat b.
Proof using Hb.
  unfold mask. rewrite Z.mod_small by lia. rewrite Z.shiftl_mul_pow2 by lia.
  rewrite Z.mul_1_l. apply wrap_small. split; [lia|].
  apply Z.pow_lt_mono_r; lia.
Qed.

Lemma bit_mask i : bit (mask b) i = bool_decide (i = b).
Proof using Hb.
  unfold bit. rewrite mask_pow. rewrite Z.pow2_bits_eqb by lia.
  case_bool_decide; lia.
Qed.

Lemma bit_mask_pred i : bit (wrap 32 (mask b - 1)) i = bool_decide (i < b)%nat.
Proof using Hb.
  rewrite mask_pow. rewrite wrap_small.
  - unfold bit. replace (2 ^ Z.of_nat b - 1) with (Z.ones (Z.of_nat b))
      by (rewrite Z.ones_equiv; lia).
    case_bool_decide.
    + apply Z.ones_spec_low. lia.
    + apply Z.ones_spec_high. lia.
  - pose proof (Z.pow_pos_nonneg 2 (Z.of_nat b)).
    pose proof (Z.pow_lt_mono_r 2 (Z.of_nat b) 32). unfold in_u. lia.
Qed.

Lemma land_mask_zero x : (Z.land x (mask b) =? 0) = negb (bit x b).
Proof using Hb.
  destruct (bit x b) eqn:Hx; cbn.
  - apply Z.eqb_neq. intros H0. apply (f_equal (λ z, bit z b)) in H0.
    unfold bit in H0. rewrite Z.land_spec, Z.testbit_0_l in H0.
    fold (bit x b) (bit (mask b) b) in H0.
    rewrite Hx, bit_mask, bool_decide_true in H0 by done. done.
  - apply Z.eqb_eq. apply Z.bits_inj_iff'. intros n Hn.
    rewrite Z.land_spec, Z.testbit_0_l. rewrite <-(Z2Nat.id n Hn).
    fold (bit x (Z.to_nat n)) (bit (mask b) (Z.to_nat n)). rewrite bit_mask.
    case_bool_decide; subst; [rewrite Hx; done|apply andb_false_r].
Qed.

Lemma is_set_bit x : is_set x b = bit x b.
Proof using Hb. unfold is_set. rewrite land_mask_zero. apply negb_involutive. Qed.

Lemma rank_popcount x : count_ones (Z.land x (wrap 32 (mask b - 1))) = popcount b x.
Proof using Hb.
  unfold count_ones.
  assert (∀ n, popcount n (Z.land x (wrap 32 (mask b - 1))) = popcount (min n b) x) as Hn.
  { induction n as [|n IH]; [done|]. rewrite popcount_S. unfold bit at 1.
    rewrite Z.land_spec. fold (bit x n) (bit (wrap 32 (mask b - 1)) n).
    rewrite bit_mask_pred, IH. case_bool_decide.
    - rewrite andb_true_r. replace (min (S n) b) with (S n) by lia.
      by replace (min n b) with n by lia.
    - rewrite andb_false_r. cbn [Nat.add]. f_equal. lia. }
  rewrite Hn. f_equal. lia.
Qed.

Lemma get_sparse_pos_rank x : get_sparse_pos x b = popcount b x.
Proof using Hb. apply rank_popcount. Qed.

Lemma get_index_sparse_rank x :
  get_index_sparse x b = if bit x b then popcount b x else not_found.
Proof using Hb.
  unfold get_index_sparse. rewrite land_mask_zero, rank_popcount. by destruct (bit x b).
Qed.

Lemma bit_set_index x i : bit (set_index x b) i = bit x i || bool_decide (i = b).
Proof using Hb.
  unfold set_index. unfold bit at 1. rewrite Z.lor_spec.
  fold (bit x i) (bit (mask b) i). by rewrite bit_mask.
Qed.

Lemma bit_clear_index x i :
  in_u 32 x → bit (clear_index x b) i = bit x i && negb (bool_decide (i = b)).
Proof using Hb.
  intros Hx. unfold clear_index, not32. unfold bit at 1. rewrite Z.land_spec.
  fold (bit x i). destruct (decide (i < 32)%nat) as [Hi|Hi].
  - f_equal. unfold u32_max. change (2 ^ 32 - 1) with (Z.ones 32).
    rewrite Z.sub_nocarry_ldiff.
    + rewrite Z.ldiff_spec, Z.ones_spec_low by lia.
      fold (bit (mask b) i). by rewrite bit_mask.
    + apply Z.ldiff_ones_r_low; rewrite mask_pow; [lia|].
      rewrite Z.log2_pow2; lia.
  - assert (bit x i = false) as ->; [|done]. unfold bit.
    apply Z.bits_above_log2; [apply Hx|].
    destruct (decide (x = 0)) as [->|]; [cbn; lia|].
    apply Z.log2_lt_pow2; [unfold in_u in *; lia|].
    eapply Z.lt_le_trans; [apply Hx|]. apply Z.pow_le_mono_r; lia.
Qed.

Lemma set_index_in_u x : in_u 32 x → in_u 32 (set_index x b).
Proof using Hb.
  intros Hx. unfold set_index. split; [apply Z.lor_nonneg; rewrite mask_pow; unfold in_u in *; lia|].
  destruct (decide (Z.lor x (mask b) = 0)) as [->|]; [lia|].
  apply Z.log2_lt_pow2.
  - assert (0 ≤ Z.lor x (mask b)); [|lia].
    apply Z.lor_nonneg. rewrite mask_pow. unfold in_u in *. lia.
  - rewrite Z.log2_lor by (rewrite ?mask_pow; unfold in_u in *; lia).
    apply Z.max_lub_lt.
    + destruct (decide (x = 0)) as [->|]; [cbn; lia|].
      apply Z.log2_lt_pow2; unfold in_u in *; lia.
    + rewrite mask_pow, Z.log2_pow2; lia.
Qed.

Lemma clear_index_in_u x : in_u 32 x → in_u 32 (clear_index x b).
Proof using Hb.
  intros Hx. unfold clear_index, not32.
  assert (0 ≤ u32_max - mask b) as Hm.
  { rewrite mask_pow. pose proof (Z.pow_le_mono_r 2 (Z.of_nat b) 31).
    unfold u32_max. lia. }
  split; [apply Z.land_nonneg; left; apply Hx|].
  eapply Z.le_lt_trans; [|apply Hx].
  rewrite <-(Z.land_diag x) at 2.
  apply Z.ldiff_le; [apply Z.land_nonneg; left; apply Hx|].
  apply Z.bits_inj_iff'. intros n Hn.
  rewrite Z.ldiff_spec, !Z.land_spec, Z.testbit_0_l.
  by destruct (Z.testbit x n), (Z.testbit (u32_max - mask b) n).
Qed.
End mask.

(** A bitmap is empty exactly when no index is set. *)
Lemma bitmap_empty_iff x :
  in_u 32 x → x = 0 ↔ ∀ i, (i < 32)%nat → bit x i = false.
Proof.
  intros Hx. split; [intros -> i _; apply Z.testbit_0_l|]. intros Hb.
  apply Z.bits_inj_iff'. intros n Hn. rewrite Z.testbit_0_l.
  destruct (decide (n < 32)) as [Hlt|Hge].
  - rewrite <-(Z2Nat.id n Hn). apply Hb. lia.
  - destruct (decide (x = 0)) as [->|]; [apply Z.testbit_0_l|].
    apply Z.bits_above_log2; [apply Hx|].
    apply Z.log2_lt_pow2; [unfold in_u in *; lia|].
    eapply Z.lt_le_trans; [apply Hx|]. apply Z.pow_le_mono_r; lia.
Qed.

(** ** Level indices *)
Lemma level_index_lt h lvl : (level_index h lvl < SIZE)%nat.
Proof.
  unfold level_index, SIZE. change 31 with (Z.ones 5).
  rewrite Z.land_ones by lia. pose proof (Z.mod_pos_bound
    (wrapping_shr64 h (wrap 32 (wrap 32 (Z.of_nat lvl) * 5))) (2 ^ 5)). lia.
Qed.

Lemma level_index_bit h lvl i :
  (lvl ≤ 12)%nat → (i < 5)%nat →
  bit (Z.of_nat (level_index h lvl)) i = Z.testbit h (Z.of_nat lvl * 5 + Z.of_nat i).
Proof.
  intros Hl Hi. unfold level_index, bit.
  rewrite (wrap_small 32 (Z.of_nat lvl)) by (unfold in_u; lia).
  rewrite (wrap_small 32) by (unfold in_u; lia).
  unfold wrapping_shr64. rewrite (Z.mod_small _ 64) by lia.
  change 31 with (Z.ones 5). rewrite Z2Nat.id.
  - rewrite Z.land_spec, Z.ones_spec_low, andb_true_r by lia.
    rewrite Z.shiftr_spec by lia. f_equal. lia.
  - apply Z.land_nonneg. right. done.
Qed.

(** Thirteen levels determine a 64-bit hash. *)
Lemma level_index_inj h1 h2 :
  in_u 64 h1 → in_u 64 h2 →
  (∀ l, (l ≤ 12)%nat → level_index h1 l = level_index h2 l) → h1 = h2.
Proof.
  intros H1 H2 Heq. apply Z.bits_inj_iff'. intros n Hn.
  destruct (decide (n < 64)) as [Hlt|Hge].
  - pose proof (Z.div_mod n 5 ltac:(lia)) as Hdm.
    pose proof (Z.mod_pos_bound n 5 ltac:(lia)).
    assert (n / 5 < 13) by (apply Z.div_lt_upper_bound; lia).
    assert (0 ≤ n / 5) by (apply Z.div_pos; lia).
    replace n with (Z.of_nat (Z.to_nat (n / 5)) * 5 + Z.of_nat (Z.to_nat (n mod 5))) by lia.
    rewrite <-!level_index_bit by lia. by rewrite Heq by lia.
  - assert (∀ h, in_u 64 h → Z.testbit h n = false) as Hz; [|by rewrite !Hz].
    intros h Hh. destruct (decide (h = 0)) as [->|]; [apply Z.testbit_0_l|].
    apply Z.bits_above_log2; [apply Hh|]. apply Z.log2_lt_pow2; [unfold in_u in *; lia|].
    eapply Z.lt_le_trans; [apply Hh|]. apply Z.pow_le_mono_r; lia.
Qed.

#[global] Arguments popcount : simpl never.
#[global] Arguments get_sparse_pos : simpl never.
#[global] Arguments get_index_sparse : simpl never.
#[global] Arguments is_set : simpl never.
#[global] Arguments set_index : simpl never.
#[global] Arguments clear_index : simpl never.
#[global] Arguments mask : simpl never.
#[global] Arguments level_index : simpl never.
#[global] Arguments is_not_found : simpl never.
#[global] Arguments get_found : simpl never.
