(* ===== verification/Hamt.v ===== *)
(** * The hash array mapped trie ([imhamt/src/node/reference.rs],
    [imhamt/src/hamt.rs], [imhamt/src/operation.rs])

    Nodes, collisions and entries with the operations of the crate, on an
    arbitrary key type and an arbitrary 64-bit hash function (the hasher is a
    parameter of the code, [H: Hasher + Default], and of the model).  The
    recursions are written with fuel: [FUEL] levels are one more than a trie
    over 64-bit hashes can have, and running out of fuel is a [Panic], so the
    theorems of [HamtCorrect] that exclude [Panic] also show termination. *)
From S2P Require Import Prelude Bitmap.
Local Open Scope Z_scope.

(** ** Errors ([operation.rs]) *)
Inductive InsertError := EntryExists.
Inductive RemoveError := RemoveKeyNotFound | ValueNotMatching.
Inductive UpdateError (T : Type) := UpdateKeyNotFound | ValueCallbackError (e : T).
Arguments UpdateKeyNotFound {T}.
Arguments ValueCallbackError {T} e.
Inductive ReplaceError := ReplaceKeyNotFound.

(** ** Nodes *)
Inductive node (K V : Type) : Type :=
| Node (bitmap : Z) (children : list (entry K V))
with entry (K V : Type) : Type :=
| Leaf (h : Z) (k : K) (v : V)
| LeafMany (h : Z) (col : list (K * V))
| SubNode (sub : node K V).
Arguments Node {K V} bitmap children.
Arguments Leaf {K V} h k v.
Arguments LeafMany {K V} h col.
Arguments SubNode {K V} sub.

Section structure.
Context {K V : Type}.
Implicit Types (n : node K V) (e : entry K V).

Definition bitmap n : Z := match n with Node bm _ => bm end.
Definition children n : list (entry K V) := match n with Node _ ch => ch end.

Definition node_new : node K V := Node bitmap_new [].
Definition singleton (idx : nat) e : node K V := Node (bitmap_once idx) [e].
Definition node_is_empty n : bool := bitmap_is_empty (bitmap n).
Definition number_children n : nat := bitmap_present (bitmap n).

Definition get_child {E} n (at_ : nat) : outcome E (entry K V) :=
  _ ← assert_that (negb (is_not_found at_));
  i ← get_found at_;
  unwrap_opt (children n !! i).

Definition set_at {E} n (idx : nat) e : outcome E (node K V) :=
  _ ← assert_that (negb (is_set (bitmap n) idx));
  let pos := get_sparse_pos (bitmap n) idx in
  p ← get_found pos;
  v ← clone_array_and_insert_at_pos (children n) e p;
  Ok (Node (set_index (bitmap n) idx) v).

Definition clear_at {E} n (idx : nat) : outcome E (option (node K V)) :=
  _ ← assert_that (is_set (bitmap n) idx);
  let new_bitmap := clear_index (bitmap n) idx in
  if bitmap_is_empty new_bitmap then Ok None
  else
    let pos := get_sparse_pos (bitmap n) idx in
    p ← get_found pos;
    v ← clone_array_and_remove_at_pos (children n) p;
    Ok (Some (Node new_bitmap v)).

(** [v[i] = child] panics out of range. *)
Definition replace_at {E} n (idx : nat) e : outcome E (node K V) :=
  i ← get_found idx;
  if decide (i < length (children n))%nat
  then Ok (Node (bitmap n) (<[i:=e]> (children n))) else Panic.

Definition clear_or_replace_at {E} n (idx : nat) (child : option (entry K V)) :
    outcome E (option (node K V)) :=
  _ ← assert_that (is_set (bitmap n) idx);
  match child with
  | None => clear_at n idx
  | Some v => Some <$> replace_at n (get_index_sparse (bitmap n) idx) v
  end.
End structure.

(** ** Collisions: the keys that share a full hash *)
Section collision.
Context {K V : Type} `{EqDecision K}.
Implicit Types (col : list (K * V)).

Definition collision_from_vec {E} col : outcome E (list (K * V)) :=
  _ ← assert_that (bool_decide (2 ≤ length col)%nat); Ok col.
Definition collision_from_box {E} col : outcome E (list (K * V)) :=
  _ ← assert_that (bool_decide (2 ≤ length col)%nat); Ok col.

Definition collision_insert col (k : K) (v : V) : outcome InsertError (list (K * V)) :=
  if existsb (λ kv, bool_decide (kv.1 = k)) col then Err EntryExists
  else collision_from_box (clone_array_and_extend col (k, v)).

(** The position of the first pair with key [k], and the pair. *)
Definition get_record_and_pos col (k : K) : option (nat * (K * V)) :=
  list_find (λ kv, kv.1 = k) col.

(** [if pos == 0 { &self.0[1] } else { &self.0[0] }] *)
Definition to_keep {E} col (pos : nat) : outcome E (K * V) :=
  unwrap_opt (if decide (pos = 0%nat) then col !! 1%nat else col !! 0%nat).

(** The shared tail of the removing operations: a pair goes, and a
    collision of two becomes a leaf. *)
Definition collision_drop {E} (h : Z) col (pos : nat) : outcome E (entry K V) :=
  if decide (length col = 2%nat)
  then kv ← to_keep col pos; Ok (Leaf h kv.1 kv.2)
  else v ← clone_array_and_remove_at_pos col pos;
       c ← collision_from_box v; Ok (LeafMany h c).

Definition collision_remove (h : Z) col (k : K) : outcome RemoveError (entry K V) :=
  '(pos, _) ← ok_or (get_record_and_pos col k) RemoveKeyNotFound;
  collision_drop h col pos.

Definition collision_remove_match `{EqDecision V} (h : Z) col (k : K) (v : V) :
    outcome RemoveError (entry K V) :=
  '(pos, _) ← ok_or (get_record_and_pos col k) RemoveKeyNotFound;
  kv ← unwrap_opt (col !! pos);
  if decide (kv.2 ≠ v) then Err ValueNotMatching else collision_drop h col pos.

Definition collision_update {U} (h : Z) col (k : K) (f : V → outcome U (option V)) :
    outcome (UpdateError U) (entry K V) :=
  '(pos, kv) ← ok_or (get_record_and_pos col k) UpdateKeyNotFound;
  r ← map_err ValueCallbackError (f kv.2);
  match r with
  | None => collision_drop h col pos
  | Some newv =>
      v ← clone_array_and_set_at_pos col (k, newv) pos;
      c ← collision_from_box v; Ok (LeafMany h c)
  end.

Definition collision_replace col (k : K) (v : V) :
    outcome ReplaceError (list (K * V) * V) :=
  '(pos, kv) ← ok_or (get_record_and_pos col k) ReplaceKeyNotFound;
  a ← clone_array_and_set_at_pos col (k, v) pos;
  newcol ← collision_from_box a;
  Ok (newcol, kv.2).

Definition collision_replace_with col (k : K) (f : V → V) :
    outcome ReplaceError (list (K * V)) :=
  '(pos, kv) ← ok_or (get_record_and_pos col k) ReplaceKeyNotFound;
  a ← clone_array_and_set_at_pos col (k, f kv.2) pos;
  collision_from_box a.
End collision.

(** ** The recursive operations *)
Definition FUEL : nat := 14.

Section recursion.
Context {K V : Type} `{EqDecision K}.
Implicit Types (n : node K V) (e : entry K V).

Fixpoint insert_rec (fuel : nat) n (hash : Z) (lvl : nat) (key : K) (value : V) :
    outcome InsertError (node K V) :=
  match fuel with O => Panic | S fuel =>
  let level_hash := level_index hash lvl in
  let idx := get_index_sparse (bitmap n) level_hash in
  if is_not_found idx then set_at n level_hash (Leaf hash key value)
  else
    c ← get_child n idx;
    match c with
    | Leaf lh lk lv =>
        if decide (lh = hash) then
          if decide (lk = key) then Err EntryExists
          else
            col ← collision_from_vec [(lk, lv); (key, value)];
            replace_at n idx (LeafMany lh col)
        else
          let leaf_idx := level_index lh (lvl + 1) in
          let entry_next_idx := level_index hash (lvl + 1) in
          let subnode := singleton leaf_idx c in
          if decide (entry_next_idx ≠ leaf_idx) then
            sub ← set_at subnode entry_next_idx (Leaf hash key value);
            replace_at n idx (SubNode sub)
          else
            r ← insert_rec fuel subnode hash (lvl + 1) key value;
            replace_at n idx (SubNode r)
    | LeafMany lh col =>
        _ ← assert_that (lh =? hash);
        col' ← collision_insert col key value;
        replace_at n idx (LeafMany lh col')
    | SubNode sub =>
        if decide (13 < lvl)%nat then Panic
        else
          r ← insert_rec fuel sub hash (lvl + 1) key value;
          replace_at n idx (SubNode r)
    end
  end.

Inductive LookupRet :=
| Found (v : V)
| NotFound
| ContinueIn (sub : node K V).

Definition lookup_one {E} n (h : Z) (lvl : nat) (k : K) : outcome E LookupRet :=
  let level_hash := level_index h lvl in
  let idx := get_index_sparse (bitmap n) level_hash in
  if is_not_found idx then Ok NotFound
  else
    c ← get_child n idx;
    Ok match c with
       | Leaf lh lk lv => if decide (lh = h ∧ lk = k) then Found lv else NotFound
       | LeafMany lh col =>
           if decide (lh ≠ h) then NotFound
           else match list_find (λ kv, kv.1 = k) col with
                | None => NotFound
                | Some (_, lkv) => Found lkv.2
                end
       | SubNode sub => ContinueIn sub
       end.

(** The loop of [Hamt::lookup]. *)
Fixpoint lookup_loop {E} (fuel : nat) n (h : Z) (lvl : nat) (k : K) :
    outcome E (option V) :=
  match fuel with O => Panic | S fuel =>
  r ← lookup_one n h lvl k;
  match r with
  | NotFound => Ok None
  | Found v => Ok (Some v)
  | ContinueIn sub => lookup_loop fuel sub h (lvl + 1) k
  end
  end.

Fixpoint remove_eq_rec `{EqDecision V} (fuel : nat) n (h : Z) (lvl : nat) (k : K) (v : V) :
    outcome RemoveError (option (node K V)) :=
  match fuel with O => Panic | S fuel =>
  let level_hash := level_index h lvl in
  let idx := get_index_sparse (bitmap n) level_hash in
  if is_not_found idx then Err RemoveKeyNotFound
  else
    c ← get_child n idx;
    match c with
    | Leaf lh lk lv =>
        if decide (lh = h ∧ lk = k) then
          if decide (lv = v) then clear_at n level_hash else Err ValueNotMatching
        else Err RemoveKeyNotFound
    | LeafMany lh col =>
        _ ← assert_that (lh =? h);
        replacement ← collision_remove_match h col k v;
        Some <$> replace_at n idx replacement
    | SubNode sub =>
        r ← remove_eq_rec fuel sub h (lvl + 1) k v;
        match r with
        | None => clear_at n level_hash
        | Some newsub => Some <$> replace_at n idx (SubNode newsub)
        end
    end
  end.

Fixpoint remove_rec (fuel : nat) n (h : Z) (lvl : nat) (k : K) :
    outcome RemoveError (option (node K V)) :=
  match fuel with O => Panic | S fuel =>
  let level_hash := level_index h lvl in
  let idx := get_index_sparse (bitmap n) level_hash in
  if is_not_found idx then Err RemoveKeyNotFound
  else
    c ← get_child n idx;
    match c with
    | Leaf lh lk _ =>
        if decide (lh = h ∧ lk = k) then clear_at n level_hash
        else Err RemoveKeyNotFound
    | LeafMany lh col =>
        _ ← assert_that (lh =? h);
        replacement ← collision_remove h col k;
        Some <$> replace_at n idx replacement
    | SubNode sub =>
        r ← remove_rec fuel sub h (lvl + 1) k;
        match r with
        | None => clear_at n level_hash
        | Some newsub => Some <$> replace_at n idx (SubNode newsub)
        end
    end
  end.

Fixpoint update_rec {U} (fuel : nat) n (h : Z) (lvl : nat) (k : K)
    (f : V → outcome U (option V)) : outcome (UpdateError U) (option (node K V)) :=
  match fuel with O => Panic | S fuel =>
  let level_hash := level_index h lvl in
  let idx := get_index_sparse (bitmap n) level_hash in
  if is_not_found idx then Err UpdateKeyNotFound
  else
    c ← get_child n idx;
    match c with
    | Leaf lh lk lv =>
        if decide (lh = h ∧ lk = k) then
          newv ← map_err ValueCallbackError (f lv);
          clear_or_replace_at n level_hash (Leaf lh lk <$> newv)
        else Err UpdateKeyNotFound
    | LeafMany lh col =>
        _ ← assert_that (lh =? h);
        replacement ← collision_update h col k f;
        Some <$> replace_at n idx replacement
    | SubNode sub =>
        r ← update_rec fuel sub h (lvl + 1) k f;
        match r with
        | None => clear_at n level_hash
        | Some newsub => Some <$> replace_at n idx (SubNode newsub)
        end
    end
  end.

Fixpoint replace_rec (fuel : nat) n (h : Z) (lvl : nat) (k : K) (v : V) :
    outcome ReplaceError (node K V * V) :=
  match fuel with O => Panic | S fuel =>
  let level_hash := level_index h lvl in
  let idx := get_index_sparse (bitmap n) level_hash in
  if is_not_found idx then Err ReplaceKeyNotFound
  else
    c ← get_child n idx;
    match c with
    | Leaf lh lk lv =>
        if decide (lh = h ∧ lk = k) then
          r ← replace_at n idx (Leaf lh lk v); Ok (r, lv)
        else Err ReplaceKeyNotFound
    | LeafMany lh col =>
        _ ← assert_that (lh =? h);
        '(replacement, old_value) ← collision_replace col k v;
        r ← replace_at n idx (LeafMany lh replacement); Ok (r, old_value)
    | SubNode sub =>
        '(newsub, oldv) ← replace_rec fuel sub h (lvl + 1) k v;
        r ← replace_at n idx (SubNode newsub); Ok (r, oldv)
    end
  end.

Fixpoint replace_with_rec (fuel : nat) n (h : Z) (lvl : nat) (k : K) (f : V → V) :
    outcome ReplaceError (node K V) :=
  match fuel with O => Panic | S fuel =>
  let level_hash := level_index h lvl in
  let idx := get_index_sparse (bitmap n) level_hash in
  if is_not_found idx then Err ReplaceKeyNotFound
  else
    c ← get_child n idx;
    match c with
    | Leaf lh lk lv =>
        if decide (lh = h ∧ lk = k) then replace_at n idx (Leaf lh lk (f lv))
        else Err ReplaceKeyNotFound
    | LeafMany lh col =>
        _ ← assert_that (lh =? h);
        replacement ← collision_replace_with col k f;
        replace_at n idx (LeafMany lh replacement)
    | SubNode sub =>
        newsub ← replace_with_rec fuel sub h (lvl + 1) k f;
        replace_at n idx (SubNode newsub)
    end
  end.

(** [size_rec]: structural on the tree. *)
Fixpoint size_rec n : nat :=
  match n with
  | Node _ ch =>
      (fix go ch := match ch with
       | [] => 0
       | c :: ch =>
           match c with
           | Leaf _ _ _ => 1
           | LeafMany _ col => length col
           | SubNode sub => size_rec sub
           end + go ch
       end)%nat ch
  end.
End recursion.
Arguments LookupRet : clear implicits.

(** ** The map ([hamt.rs]) *)
Record Hamt (K V : Type) := mkHamt { root : node K V }.
Arguments mkHamt {K V} root.
Arguments root {K V} h.

Section hamt.
Context {K V : Type} `{EqDecision K} (hash : K → Z).
Implicit Types (t : Hamt K V).

Definition hamt_new : Hamt K V := mkHamt node_new.
Definition hamt_is_empty t : bool := node_is_empty (root t).
Definition hamt_size t : nat := size_rec (root t).

Definition hamt_insert t (k : K) (v : V) : outcome InsertError (Hamt K V) :=
  mkHamt <$> insert_rec FUEL (root t) (hash k) 0 k v.

(** A removal that empties the root gives a new map. *)
Definition hamt_of_root (r : option (node K V)) : Hamt K V :=
  match r with None => hamt_new | Some r => mkHamt r end.

Definition hamt_remove_match `{EqDecision V} t (k : K) (v : V) :
    outcome RemoveError (Hamt K V) :=
  hamt_of_root <$> remove_eq_rec FUEL (root t) (hash k) 0 k v.

Definition hamt_remove t (k : K) : outcome RemoveError (Hamt K V) :=
  hamt_of_root <$> remove_rec FUEL (root t) (hash k) 0 k.

Definition hamt_replace t (k : K) (v : V) : outcome ReplaceError (Hamt K V * V) :=
  '(newroot, oldv) ← replace_rec FUEL (root t) (hash k) 0 k v;
  Ok (mkHamt newroot, oldv).

Definition hamt_replace_with t (k : K) (f : V → V) : outcome ReplaceError (Hamt K V) :=
  mkHamt <$> replace_with_rec FUEL (root t) (hash k) 0 k f.

Definition hamt_update {U} t (k : K) (f : V → outcome U (option V)) :
    outcome (UpdateError U) (Hamt K V) :=
  hamt_of_root <$> update_rec FUEL (root t) (hash k) 0 k f.

Definition hamt_insert_or_update {E} t (k : K) (v : V) (f : V → outcome E (option V)) :
    outcome E (Hamt K V) :=
  match hamt_update t k f with
  | Ok t' => Ok t'
  | Err UpdateKeyNotFound => unwrap (hamt_insert t k v)
  | Err (ValueCallbackError x) => Err x
  | Panic => Panic
  end.

Definition hamt_insert_or_update_simple t (k : K) (v : V) (f : V → option V) :
    outcome infallible (Hamt K V) :=
  match hamt_update (U := infallible) t k (λ x, Ok (f x)) with
  | Ok t' => Ok t'
  | Err (ValueCallbackError _) => Panic
  | Err UpdateKeyNotFound => unwrap (hamt_insert t k v)
  | Panic => Panic
  end.

Definition hamt_lookup {E} t (k : K) : outcome E (option V) :=
  lookup_loop FUEL (root t) (hash k) 0 k.

Definition hamt_contains_key {E} t (k : K) : outcome E bool :=
  o ← hamt_lookup t k; Ok (match o with Some _ => true | None => false end).

(** [HamtIter]: a stack of slices of children still to visit, and the pairs
    of the collision being read.  [iter_step] is one turn of the loop of
    [next]. *)
Record HamtIter := mkIter {
  it_stack : list (list (entry K V));
  it_content : option (list (K * V));
}.

Definition hamt_iter t : HamtIter :=
  {| it_stack := [children (root t)]; it_content := None |}.

Inductive iter_turn :=
| Yield (kv : K * V) (st : HamtIter)
| Loop (st : HamtIter)
| Done.

Definition iter_step (st : HamtIter) : iter_turn :=
  match it_content st with
  | Some [] => Loop (mkIter (it_stack st) None)
  | Some (o :: rest) => Yield o (mkIter (it_stack st) (Some rest))
  | None =>
      match it_stack st with
      | [] => Done
      | [] :: stack => Loop (mkIter stack None)
      | (next :: last) :: stack =>
          match next with
          | SubNode sub => Loop (mkIter (children sub :: last :: stack) None)
          | Leaf _ k v => Yield (k, v) (mkIter (last :: stack) None)
          | LeafMany _ col => Loop (mkIter (last :: stack) (Some col))
          end
      end
  end.

(** All the items of the iterator, by turns; [None] when the fuel runs out. *)
Fixpoint iter_collect (fuel : nat) (st : HamtIter) : option (list (K * V)) :=
  match fuel with O => None | S fuel =>
  match iter_step st with
  | Done => Some []
  | Loop st' => iter_collect fuel st'
  | Yield kv st' => cons kv <$> iter_collect fuel st'
  end
  end.

(** [FromIterator]: a pair whose key is already there is dropped. *)
Fixpoint hamt_from_list t (l : list (K * V)) : outcome infallible (Hamt K V) :=
  match l with
  | [] => Ok t
  | (k, v) :: l =>
      match hamt_insert t k v with
      | Err _ => hamt_from_list t l
      | Ok newt => hamt_from_list newt l
      | Panic => Panic
      end
  end.

(** [PartialEq::eq], on the items of [self]. *)
Fixpoint eq_items `{EqDecision V} (l : list (K * V)) (other : Hamt K V) :
    outcome infallible bool :=
  match l with
  | [] => Ok true
  | (k, v) :: l =>
      o ← hamt_lookup other k;
      match o with
      | Some v2 => if decide (v ≠ v2) then Ok false else eq_items l other
      | None => Ok false
      end
  end.

Definition hamt_eq `{EqDecision V} (fuel : nat) t (other : Hamt K V) :
    outcome infallible bool :=
  if hamt_is_empty t && hamt_is_empty other then Ok true
  else if negb (eqb (hamt_is_empty t) (hamt_is_empty other)) then Ok false
  else match iter_collect fuel (hamt_iter t) with
       | None => Panic
       | Some items => eq_items items other
       end.
End hamt.
Arguments HamtIter : clear implicits.
