(* ===== verification/HamtInv.v ===== *)
(** * The invariant of the trie, and its operations on one node

    [child n i] views a node as a 32-way table; [set_at], [clear_at] and
    [replace_at] are the table updates.  [wf_node] is the invariant of a node
    reached by a path of level indices, and [look] the content of a subtree as
    a function of the key. *)
From S2P Require Import Prelude Bitmap Hamt.
Local Open Scope nat_scope.

Section view.
Context {K V : Type}.
Implicit Types (n : node K V) (e : entry K V).

Definition child n (i : nat) : option (entry K V) :=
  packed (bit (bitmap n)) (children n) i.

Definition shape n : Prop :=
  in_u 32 (bitmap n) ∧ length (children n) = count_ones (bitmap n).

Lemma not_found_rank i bm : i < 32 → is_not_found (popcount i bm) = false.
Proof.
  intros Hi. pose proof (rank_le (bit bm) i). unfold popcount. unfold is_not_found, not_found.
  apply Nat.eqb_neq. lia.
Qed.

Lemma get_found_rank {E} i bm :
  i < 32 → get_found (E := E) (popcount i bm) = Ok (popcount i bm).
Proof. intros Hi. unfold get_found. by rewrite not_found_rank. Qed.

Lemma child_is_Some n i :
  shape n → i < 32 → bit (bitmap n) i = true → is_Some (child n i).
Proof. intros [_ Hlen]. by apply packed_is_Some. Qed.

Lemma child_bit n i : shape n → i < 32 → child n i = None → bit (bitmap n) i = false.
Proof. intros [_ Hlen]. by apply packed_None_false. Qed.

Lemma child_bit_true n i e : child n i = Some e → bit (bitmap n) i = true.
Proof. apply packed_Some_true. Qed.

Lemma index_none n i :
  shape n → i < 32 → child n i = None →
  is_not_found (get_index_sparse (bitmap n) i) = true.
Proof.
  intros Hs Hi Hc. rewrite get_index_sparse_rank by done.
  by rewrite (child_bit n i).
Qed.

Lemma index_some n i e :
  i < 32 → child n i = Some e → get_index_sparse (bitmap n) i = popcount i (bitmap n).
Proof.
  intros Hi Hc. rewrite get_index_sparse_rank by done. by rewrite (child_bit_true n i e).
Qed.

Lemma get_child_some {E} n i e :
  i < 32 → child n i = Some e → get_child (E := E) n (popcount i (bitmap n)) = Ok e.
Proof.
  intros Hi Hc. unfold get_child. rewrite not_found_rank by done. cbn.
  rewrite get_found_rank by done. cbn.
  pose proof (child_bit_true n i e Hc) as Hb. unfold child, packed in Hc.
  rewrite Hb in Hc. unfold popcount. by rewrite Hc.
Qed.

Lemma bit_nonzero bm i : bit bm i = true → bm ≠ 0%Z.
Proof. intros Hb ->. unfold bit in Hb. by rewrite Z.testbit_0_l in Hb. Qed.

Lemma set_at_spec {E} n i e :
  shape n → i < 32 → child n i = None →
  ∃ n', set_at (E := E) n i e = Ok n' ∧ shape n' ∧ bitmap n' ≠ 0%Z ∧
    ∀ j, j < 32 → child n' j = if decide (j = i) then Some e else child n j.
Proof.
  intros Hs Hi Hc. pose proof (child_bit n i Hs Hi Hc) as Hb.
  destruct Hs as [Hu Hlen].
  destruct (packed_insert (bit (bitmap n)) (bit (set_index (bitmap n) i)) (children n) i e 32)
    as (Hle & Hlen' & Hp); [done..|intros; by apply bit_set_index|].
  eexists (Node (set_index (bitmap n) i) _). split_and!.
  - unfold set_at. rewrite is_set_bit, Hb by done. cbn.
    rewrite get_sparse_pos_rank, get_found_rank by done. cbn.
    unfold clone_array_and_insert_at_pos. by rewrite decide_True.
  - split; cbn; [by apply set_index_in_u|exact Hlen'].
  - cbn. apply (bit_nonzero _ i).
    by rewrite bit_set_index, bool_decide_true, orb_true_r by done.
  - exact Hp.
Qed.

Lemma replace_at_spec {E} n i e e0 :
  shape n → i < 32 → child n i = Some e0 →
  ∃ n', replace_at (E := E) n (popcount i (bitmap n)) e = Ok n' ∧ shape n' ∧
    bitmap n' ≠ 0%Z ∧
    ∀ j, j < 32 → child n' j = if decide (j = i) then Some e else child n j.
Proof.
  intros [Hu Hlen] Hi Hc. pose proof (child_bit_true n i e0 Hc) as Hb.
  destruct (packed_update (bit (bitmap n)) (children n) i e 32 Hlen Hi Hb) as [Hlt Hp].
  eexists (Node (bitmap n) (<[popcount i (bitmap n):=e]> (children n))). split_and!.
  - unfold replace_at. rewrite get_found_rank by done. cbn. by rewrite decide_True.
  - split; cbn; [done|]. by rewrite length_insert.
  - by apply (bit_nonzero _ i).
  - exact Hp.
Qed.

Lemma clear_at_spec {E} n i e :
  shape n → i < 32 → child n i = Some e →
  (clear_at (E := E) n i = Ok None ∧ ∀ j, j < 32 → j ≠ i → child n j = None) ∨
  ∃ n', clear_at (E := E) n i = Ok (Some n') ∧ shape n' ∧ bitmap n' ≠ 0%Z ∧
    ∀ j, j < 32 → child n' j = if decide (j = i) then None else child n j.
Proof.
  intros [Hu Hlen] Hi Hc. pose proof (child_bit_true n i e Hc) as Hb.
  unfold clear_at. rewrite is_set_bit, Hb by done. cbn.
  unfold bitmap_is_empty. pose proof (clear_index_in_u i Hi (bitmap n) Hu) as Hu'.
  destruct (packed_delete (bit (bitmap n)) (bit (clear_index (bitmap n) i)) (children n) i 32)
    as (Hlt & Hlen' & Hp); [done..|intros; by apply bit_clear_index|].
  destruct (Z.eqb_spec (clear_index (bitmap n) i) 0) as [H0|H0]; [left|right].
  - split; [done|]. intros j Hj Hne. specialize (Hp j Hj).
    rewrite decide_False in Hp by done. unfold child. rewrite <-Hp.
    unfold packed. by rewrite (proj1 (bitmap_empty_iff _ Hu') H0 j Hj).
  - eexists (Node (clear_index (bitmap n) i) _). split_and!; [|split; [exact Hu'|exact Hlen']|done|exact Hp].
    rewrite get_sparse_pos_rank, get_found_rank by done. cbn.
    unfold clone_array_and_remove_at_pos. by rewrite decide_True.
Qed.

Lemma singleton_spec i e :
  i < 32 → shape (singleton i e) ∧ bitmap (singleton i e) ≠ 0%Z ∧
  ∀ j, j < 32 → child (singleton i e) j = if decide (j = i) then Some e else None.
Proof.
  intros Hi. unfold singleton, bitmap_once.
  assert (∀ m, popcount m (mask i) = if decide (i < m) then 1 else 0) as Hp.
  { induction m as [|m IH]; [done|]. rewrite popcount_S, IH, bit_mask by done.
    case_bool_decide; repeat case_decide; lia. }
  split_and!.
  - split; cbn; [unfold mask; apply wrap_in_u; lia|].
    unfold count_ones. rewrite Hp, decide_True; done.
  - cbn. rewrite mask_pow by done. lia.
  - intros j Hj. unfold child, packed. cbn [bitmap children].
    fold (popcount j (mask i)). rewrite bit_mask, Hp by done.
    destruct (decide (j = i)) as [->|Hne].
    + rewrite bool_decide_true, decide_False by (done || lia). done.
    + by rewrite bool_decide_false.
Qed.

Lemma node_new_shape : shape (@node_new K V).
Proof. split; [change (in_u 32 0); unfold in_u; lia|done]. Qed.

Lemma child_new i : child (@node_new K V) i = None.
Proof. unfold child, packed. cbn. unfold bit. by rewrite Z.testbit_0_l. Qed.

(** The packed array lists the children in the order of their index. *)
Lemma children_omap n : shape n → children n = omap (child n) (seq 0 32).
Proof. intros [_ Hlen]. by apply packed_list. Qed.
End view.

(** ** The invariant *)
Section wf.
Context {K V : Type} `{EqDecision K} (hash : K → Z).
Implicit Types (n : node K V) (e : entry K V) (path : list nat) (k : K) (v : V).

(** The hash [h] takes the branches of [path] from the root. *)
Definition agree path (h : Z) : Prop := ∀ j i, path !! j = Some i → level_index h j = i.

Inductive wf_node : list nat → node K V → Prop :=
| wf_Node path n :
    length path ≤ 12 → shape n →
    (∀ i e, i < 32 → child n i = Some e → wf_entry (path ++ [i]) e) →
    wf_node path n
with wf_entry : list nat → entry K V → Prop :=
| wf_Leaf path h k v : h = hash k → agree path h → wf_entry path (Leaf h k v)
| wf_LeafMany path h col :
    2 ≤ length col → NoDup col.*1 → (∀ kv, kv ∈ col → hash kv.1 = h) → agree path h →
    wf_entry path (LeafMany h col)
| wf_SubNode path n : wf_node path n → bitmap n ≠ 0%Z → wf_entry path (SubNode n).

Lemma agree_nil h : agree [] h.
Proof. intros j i. by rewrite lookup_nil. Qed.

Lemma agree_app path i h :
  agree (path ++ [i]) h ↔ agree path h ∧ level_index h (length path) = i.
Proof.
  unfold agree. split.
  - intros H. split.
    + intros j i' Hj. apply H. by apply lookup_app_l_Some.
    + apply H. by apply list_lookup_middle.
  - intros [H1 H2] j i' Hj. apply lookup_app_Some in Hj as [Hj|[Hlen Hj]]; [by apply H1|].
    apply list_lookup_singleton_Some in Hj as [Hj ->].
    by replace j with (length path) by lia.
Qed.

(** A full path determines the hash. *)
Lemma agree_full path h1 h2 :
  in_u 64 h1 → in_u 64 h2 → 13 ≤ length path → agree path h1 → agree path h2 → h1 = h2.
Proof.
  intros H1 H2 Hlen Ha1 Ha2. apply level_index_inj; [done..|]. intros l Hl.
  destruct (lookup_lt_is_Some_2 path l ltac:(lia)) as [i Hi].
  by rewrite (Ha1 l i Hi), (Ha2 l i Hi).
Qed.

(** ** The content of a subtree *)
Definition assoc (col : list (K * V)) k : option V :=
  (λ r, r.2.2) <$> list_find (λ kv, kv.1 = k) col.

Fixpoint look (fuel : nat) n (h : Z) (lvl : nat) k : option V :=
  match fuel with O => None | S fuel =>
  match child n (level_index h lvl) with
  | None => None
  | Some (Leaf lh lk lv) => if decide (lh = h ∧ lk = k) then Some lv else None
  | Some (LeafMany lh col) => if decide (lh ≠ h) then None else assoc col k
  | Some (SubNode sub) => look fuel sub h (lvl + 1) k
  end
  end.

Definition look_at (fuel : nat) (oe : option (entry K V)) (h : Z) (lvl : nat) k :=
  match oe with
  | None => None
  | Some (Leaf lh lk lv) => if decide (lh = h ∧ lk = k) then Some lv else None
  | Some (LeafMany lh col) => if decide (lh ≠ h) then None else assoc col k
  | Some (SubNode sub) => look fuel sub h (lvl + 1) k
  end.

Lemma look_S fuel n h lvl k :
  look (S fuel) n h lvl k = look_at fuel (child n (level_index h lvl)) h lvl k.
Proof. done. Qed.

(** What one table update does to the content, and to the invariant. *)
Lemma look_change fuel n n' i oe h lvl k :
  (∀ j, j < 32 → child n' j = if decide (j = i) then oe else child n j) →
  look (S fuel) n' h lvl k =
    if decide (level_index h lvl = i) then look_at fuel oe h lvl k
    else look (S fuel) n h lvl k.
Proof.
  intros Hc. rewrite !look_S. rewrite Hc by apply level_index_lt. by case_decide.
Qed.

Lemma wf_change path n n' i oe :
  wf_node path n → shape n' →
  (∀ j, j < 32 → child n' j = if decide (j = i) then oe else child n j) →
  (∀ e, oe = Some e → wf_entry (path ++ [i]) e) →
  wf_node path n'.
Proof.
  intros Hwf Hs' Hc He. inversion_clear Hwf as [? ? Hlen Hs Hch].
  constructor; [done|done|]. intros j e Hj Hj'. rewrite Hc in Hj' by done.
  case_decide; subst; eauto.
Qed.

Lemma wf_new : wf_node [] node_new.
Proof.
  constructor; [cbn; lia|apply node_new_shape|]. intros i e _. by rewrite child_new.
Qed.

Lemma wf_shape path n : wf_node path n → shape n.
Proof. by inversion_clear 1. Qed.
Lemma wf_len path n : wf_node path n → length path ≤ 12.
Proof. by inversion_clear 1. Qed.
Lemma wf_child path n i e :
  wf_node path n → i < 32 → child n i = Some e → wf_entry (path ++ [i]) e.
Proof. inversion_clear 1. eauto. Qed.

(** [lookup_loop] computes [look]. *)
Lemma lookup_loop_look {E} fuel path n h k :
  wf_node path n → 13 ≤ fuel + length path →
  lookup_loop (E := E) fuel n h (length path) k = Ok (look fuel n h (length path) k).
Proof.
  revert path n. induction fuel as [|fuel IH]; intros path n Hwf Hf.
  { apply wf_len in Hwf. lia. }
  pose proof (level_index_lt h (length path)) as Hi.
  cbn [lookup_loop look]. unfold lookup_one.
  destruct (child n (level_index h (length path))) as [c|] eqn:Hc.
  - rewrite (index_some n _ c) by done. rewrite not_found_rank by done.
    rewrite (get_child_some n _ c) by done. cbn.
    pose proof (wf_child _ _ _ _ Hwf Hi Hc) as Hce.
    destruct c as [lh lk lv|lh col|sub]; cbn.
    + by case_decide.
    + case_decide; [done|]. unfold assoc. by destruct (list_find _ _) as [[? [? ?]]|].
    + inversion_clear Hce as [| |? ? Hsub _].
      specialize (IH _ _ Hsub). rewrite length_app in IH. apply IH. cbn. lia.
  - rewrite index_none by (done || by eapply wf_shape). done.
Qed.
End wf.
