(* ===== verification/HamtCorrect.v ===== *)
(** * The trie operations refine the operations of a finite map

    The specifications of [insert_rec] and [update_rec] on a well-formed
    subtree; [remove_rec], [remove_eq_rec], [replace_rec] and
    [replace_with_rec] are shown to be instances of [update_rec]. *)
From S2P Require Import Prelude Bitmap Hamt HamtInv.
Local Open Scope nat_scope.

(** ** Association lists with unique keys *)
Section assoc.
Context {K V : Type} `{EqDecision K}.
Implicit Types (col : list (K * V)) (k : K) (v : V).

Lemma assoc_Some col k v : NoDup col.*1 → assoc col k = Some v ↔ (k, v) ∈ col.
Proof.
  unfold assoc. induction col as [|[k0 v0] col IH]; cbn; intros Hnd.
  { split; [done|]. by intros ?%elem_of_nil. }
  apply NoDup_cons in Hnd as [Hk0 Hnd]. rewrite elem_of_cons. case_decide as Hk; cbn.
  - subst. split; [naive_solver|]. intros [[= <-]|Hin]; [done|]. destruct Hk0.
    apply list_elem_of_fmap. by exists (k, v).
  - rewrite <-IH by done. destruct (list_find _ col) as [[? [? ?]]|]; cbn; naive_solver.
Qed.

Lemma assoc_None col k : assoc col k = None ↔ k ∉ col.*1.
Proof.
  unfold assoc. rewrite fmap_None, list_find_None. rewrite Forall_forall. split.
  - intros Hf [[k' v'] [-> Hin]]%list_elem_of_fmap. by apply (Hf _ Hin).
  - intros Hk kv Hin <-. apply Hk. by apply list_elem_of_fmap_2.
Qed.

Lemma assoc_singleton k v k' : assoc [(k, v)] k' = if decide (k = k') then Some v else None.
Proof. unfold assoc. cbn. by case_decide. Qed.

Lemma list_find_middle col k pos kv :
  list_find (λ kv, kv.1 = k) col = Some (pos, kv) →
  ∃ l1 l2 v, col = l1 ++ (k, v) :: l2 ∧ length l1 = pos ∧ kv = (k, v).
Proof.
  intros (Hl & Hk & _)%list_find_Some. destruct kv as [k' v]. cbn in Hk. subst k'.
  exists (take pos col), (drop (S pos) col), v.
  pose proof (lookup_lt_Some _ _ _ Hl).
  split_and!; [by rewrite take_drop_middle|rewrite length_take; lia|done].
Qed.

Lemma assoc_middle l1 l2 k v k' :
  NoDup (l1 ++ (k, v) :: l2).*1 →
  assoc (l1 ++ (k, v) :: l2) k' = if decide (k' = k) then Some v else assoc (l1 ++ l2) k'.
Proof.
  intros Hnd. assert (NoDup (l1 ++ l2).*1) as Hnd'.
  { eapply sublist_NoDup; [exact Hnd|]. rewrite !fmap_app. cbn.
    apply sublist_app; [done|]. by apply sublist_cons. }
  apply option_eq. intros v'. rewrite assoc_Some by done. case_decide as Hk; subst.
  - split.
    + intros Hin. rewrite <-assoc_Some in Hin by done.
      assert (assoc (l1 ++ (k, v) :: l2) k = Some v) as Hv; [|congruence].
      apply assoc_Some; [done|]. set_solver.
    + intros [= <-]. set_solver.
  - rewrite assoc_Some by done. rewrite !elem_of_app, elem_of_cons. naive_solver.
Qed.

Lemma assoc_middle_removed l1 l2 k v :
  NoDup (l1 ++ (k, v) :: l2).*1 → assoc (l1 ++ l2) k = None.
Proof.
  intros Hnd. apply assoc_None. rewrite fmap_app in *. cbn in Hnd.
  apply NoDup_app in Hnd as (_ & H1 & [H2 _]%NoDup_cons). rewrite elem_of_app.
  intros [Hin|Hin]; [|done]. apply (H1 k Hin). left.
Qed.
End assoc.

Section correct.
Context {K V : Type} `{EqDecision K} (hash : K → Z).
Implicit Types (n : node K V) (e : entry K V) (path : list nat) (k : K) (v : V).

Abbreviation wfn := (wf_node hash).
Abbreviation wfe := (wf_entry hash).

(** ** Collisions *)
Definition col_ok (path : list nat) (h : Z) (col : list (K * V)) : Prop :=
  wfe path (LeafMany h col).

Lemma col_nodup path h col : col_ok path h col → NoDup col.*1.
Proof. by inversion_clear 1. Qed.

Lemma collision_drop_spec {E} path h l1 l2 k v :
  col_ok path h (l1 ++ (k, v) :: l2) →
  ∃ e', collision_drop (E := E) h (l1 ++ (k, v) :: l2) (length l1) = Ok e' ∧
    wfe path e' ∧
    ∀ fuel lvl k', look_at fuel (Some e') (hash k') lvl k' =
      if decide (k' = k) then None
      else look_at fuel (Some (LeafMany h (l1 ++ (k, v) :: l2))) (hash k') lvl k'.
Proof.
  intros Hok. inversion_clear Hok as [|? ? ? Hlen Hnd Hh Hag|].
  unfold collision_drop. case_decide as H2.
  - assert (∃ k2 v2, l1 ++ l2 = [(k2, v2)] ∧
      to_keep (E := E) (l1 ++ (k, v) :: l2) (length l1) = Ok (k2, v2)) as (k2&v2&Heq&Hkeep).
    { rewrite length_app in H2. cbn in H2. unfold to_keep.
      destruct l1 as [|[k1 v1] l1]; cbn in *.
      - destruct l2 as [|[k2 v2] [|]]; cbn in *; [lia| |lia]. by exists k2, v2.
      - destruct l1, l2; cbn in *; try lia. by exists k1, v1. }
    rewrite Hkeep. cbn. eexists. split; [done|].
    assert ((k2, v2) ∈ l1 ++ (k, v) :: l2) as Hin2.
    { apply elem_of_app. rewrite elem_of_cons.
      assert ((k2, v2) ∈ l1 ++ l2) as [?|?]%elem_of_app by (rewrite Heq; set_solver); eauto. }
    split.
    + constructor; [|done]. symmetry. by apply (Hh _ Hin2).
    + intros fuel lvl k'. cbn. rewrite assoc_middle by done. rewrite Heq.
      pose proof (assoc_middle_removed l1 l2 k v Hnd) as Hrm. rewrite Heq in Hrm.
      apply assoc_None in Hrm. cbn in Hrm.
      rewrite assoc_singleton. repeat case_decide; subst; try done; set_solver.
  - unfold clone_array_and_remove_at_pos.
    rewrite decide_True by (rewrite length_app; cbn; lia). cbn.
    rewrite delete_middle. unfold collision_from_box.
    rewrite length_app in Hlen, H2. cbn in Hlen, H2.
    rewrite bool_decide_true by (rewrite length_app; lia). cbn.
    eexists. split; [done|]. split.
    + constructor; [rewrite length_app; lia| |set_solver|done].
      eapply sublist_NoDup; [exact Hnd|]. rewrite !fmap_app. cbn.
      apply sublist_app; [done|]. by apply sublist_cons.
    + intros fuel lvl k'. cbn. rewrite assoc_middle by done.
      pose proof (assoc_middle_removed l1 l2 k v Hnd) as Hrm.
      case_decide; case_decide; subst; done.
Qed.

Lemma collision_set_spec {E} path h l1 l2 k v v' :
  col_ok path h (l1 ++ (k, v) :: l2) →
  clone_array_and_set_at_pos (E := E) (l1 ++ (k, v) :: l2) (k, v') (length l1)
    = Ok (l1 ++ (k, v') :: l2) ∧
  collision_from_box (E := E) (l1 ++ (k, v') :: l2) = Ok (l1 ++ (k, v') :: l2) ∧
  col_ok path h (l1 ++ (k, v') :: l2) ∧
  ∀ fuel lvl k',
    look_at fuel (Some (LeafMany h (l1 ++ (k, v') :: l2))) (hash k') lvl k' =
      if decide (k' = k) then Some v'
      else look_at fuel (Some (LeafMany h (l1 ++ (k, v) :: l2))) (hash k') lvl k'.
Proof.
  intros Hok. inversion_clear Hok as [|? ? ? Hlen Hnd Hh Hag|].
  assert (NoDup (l1 ++ (k, v') :: l2).*1) as Hnd' by by rewrite fmap_app in *.
  rewrite length_app in Hlen. cbn in Hlen. split_and!.
  - unfold clone_array_and_set_at_pos. destruct (decide (0 < length l1)) as [H0|H0].
    + rewrite (decide_True (P := length l1 ≤ _)) by (rewrite length_app; lia).
      cbn. rewrite take_app_length.
      do 3 f_equal. case_decide as H1.
      * rewrite cons_middle, app_assoc. apply drop_app_length'.
        rewrite length_app. cbn. lia.
      * rewrite length_app in H1. cbn in H1. destruct l2; [done|]. cbn in H1. lia.
    + destruct l1; [|cbn in H0; lia]. cbn. do 2 f_equal. case_decide as H1; [done|].
      destruct l2; [done|]. cbn in H1. lia.
  - unfold collision_from_box. rewrite bool_decide_true; [done|].
    rewrite length_app. cbn. lia.
  - constructor; [rewrite length_app; cbn; lia|done| |done].
    intros kv. rewrite elem_of_app, elem_of_cons. intros [Hin|[->|Hin]].
    + apply Hh. set_solver.
    + apply (Hh (k, v)). set_solver.
    + apply Hh. set_solver.
  - intros fuel lvl k'. cbn. rewrite !assoc_middle by done.
    case_decide as Hd; case_decide; subst; try done.
    destruct Hd. symmetry. apply (Hh (k, v)). set_solver.
Qed.

Lemma look_at_many fuel h (col : list (K * V)) lvl k :
  h = hash k → look_at fuel (Some (LeafMany h col)) (hash k) lvl k = assoc col k.
Proof. intros ->. cbn. by rewrite decide_False by (intros Hne; by destruct Hne). Qed.

(** ** The content of an optional subtree at a path *)
Definition content (fuel : nat) path (r : option (node K V)) k : option V :=
  match r with None => None | Some n => look fuel n (hash k) (length path) k end.

Definition wf_opt path (r : option (node K V)) : Prop :=
  match r with None => True | Some n => wfn path n ∧ bitmap n ≠ 0%Z end.

(** Two keys of the subtree share a full hash that differs from [k]'s: the
    situation in which the code's [assert_eq!(lh, hash)] fires. *)
Definition collides (fuel : nat) path n k : Prop :=
  ∃ k1 k2, k1 ≠ k2 ∧ hash k1 = hash k2 ∧ hash k1 ≠ hash k ∧ agree path (hash k1) ∧
    is_Some (look fuel n (hash k1) (length path) k1) ∧
    is_Some (look fuel n (hash k2) (length path) k2).

Lemma collides_col fuel path n i h col k :
  i < 32 → wfn path n → child n i = Some (LeafMany h col) → h ≠ hash k →
  collides (S fuel) path n k.
Proof.
  intros Hi Hwf Hc Hne. pose proof (wf_child _ _ _ _ _ Hwf Hi Hc) as He.
  inversion_clear He as [|? ? ? Hlen Hnd Hh Hag|].
  apply agree_app in Hag as [Hag Hidx].
  assert (∀ k' v', (k', v') ∈ col →
    hash k' = h ∧ is_Some (look (S fuel) n (hash k') (length path) k')) as Hin.
  { intros k' v' Hin. pose proof (Hh _ Hin) as Hk'. cbn in Hk'. split; [done|].
    rewrite look_S, Hk', Hidx, Hc, <-Hk', look_at_many by done. exists v'.
    by apply assoc_Some. }
  destruct col as [|[k1 v1] [|[k2 v2] col]]; cbn in Hlen; [lia|lia|].
  destruct (Hin k1 v1) as [H1 H1']; [left|].
  destruct (Hin k2 v2) as [H2 H2']; [right; left|].
  exists k1, k2. split_and!; [|congruence|congruence|by rewrite H1|done..].
  intros ->. apply NoDup_cons in Hnd as [Hnin _]. apply Hnin. left.
Qed.

(** The content of a sub-node, seen from its parent. *)
Lemma look_sub fuel path n i sub k :
  child n i = Some (SubNode sub) → agree (path ++ [i]) (hash k) →
  look (S fuel) n (hash k) (length path) k =
  look fuel sub (hash k) (length (path ++ [i])) k.
Proof.
  intros Hc [Hag Hidx]%agree_app. rewrite look_S, Hidx, Hc, length_app. done.
Qed.

Lemma collides_sub fuel path n i sub k :
  i < 32 → wfn path n → child n i = Some (SubNode sub) →
  collides fuel (path ++ [i]) sub k → collides (S fuel) path n k.
Proof.
  intros Hi Hwf Hc (k1 & k2 & Hne & Heq & Hnk & Hag & H1 & H2).
  pose proof Hag as [Hag' _]%agree_app.
  exists k1, k2. rewrite !(look_sub fuel path n i sub) by (done || by rewrite <-Heq).
  done.
Qed.

(** ** [update_rec] *)
Definition update_post {U} (fuel : nat) path n k (f : V → outcome U (option V))
    (R : outcome (UpdateError U) (option (node K V))) : Prop :=
  match look fuel n (hash k) (length path) k with
  | None => R = Err UpdateKeyNotFound ∨ (R = Panic ∧ collides fuel path n k)
  | Some v =>
      match f v with
      | Panic => R = Panic
      | Err e => R = Err (ValueCallbackError e)
      | Ok ov => ∃ r, R = Ok r ∧ wf_opt path r ∧
          ∀ k', agree path (hash k') →
            content fuel path r k' =
              if decide (k' = k) then ov else look fuel n (hash k') (length path) k'
      end
  end.

(** Replacing or clearing the child at the index of [k], given what the new
    child does to the keys of its branch. *)
Lemma change_content fuel path n n' k i oe oe' ov :
  i = level_index (hash k) (length path) → child n i = oe →
  (∀ j, j < 32 → child n' j = if decide (j = i) then oe' else child n j) →
  (∀ k', agree (path ++ [i]) (hash k') →
     look_at fuel oe' (hash k') (length path) k' =
       if decide (k' = k) then ov else look_at fuel oe (hash k') (length path) k') →
  ∀ k', agree path (hash k') →
    look (S fuel) n' (hash k') (length path) k' =
      if decide (k' = k) then ov else look (S fuel) n (hash k') (length path) k'.
Proof.
  intros -> Hc Hc' Hl k' Hag. rewrite (look_change fuel n n' _ oe') by done.
  case_decide as Hidx.
  - rewrite Hl by by apply agree_app. case_decide; [done|].
    by rewrite look_S, Hidx, Hc.
  - rewrite decide_False; [done|]. congruence.
Qed.

Lemma clear_content {E} fuel path n k i e :
  i = level_index (hash k) (length path) → wfn path n → child n i = Some e →
  (∀ k', agree (path ++ [i]) (hash k') → k' ≠ k →
     look_at fuel (Some e) (hash k') (length path) k' = None) →
  ∃ r, clear_at (E := E) n i = Ok r ∧ wf_opt path r ∧
    ∀ k', agree path (hash k') →
      content (S fuel) path r k' =
        if decide (k' = k) then None else look (S fuel) n (hash k') (length path) k'.
Proof.
  intros Hik Hwf Hc Hl.
  assert (i < 32) as Hi by (subst i; apply level_index_lt).
  destruct (clear_at_spec (E := E) n _ e (wf_shape _ _ _ Hwf) Hi Hc)
    as [[-> Hn]|(n' & -> & Hs & Hb & Hn')].
  - exists None. split_and!; [done..|]. intros k' Hag. cbn [content].
    case_decide as Hk; [done|]. rewrite look_S.
    destruct (decide (level_index (hash k') (length path) = i)) as [Hidx|Hidx].
    + rewrite Hidx, Hc. symmetry. apply Hl; [|done]. by apply agree_app.
    + by rewrite Hn by (done || apply level_index_lt).
  - exists (Some n'). split_and!; [done| |].
    + split; [|done]. eapply wf_change; eauto. done.
    + intros k' Hag. cbn [content].
      eapply (change_content fuel path n n' k i (Some e) None None); eauto.
      intros k'' Hag''. case_decide; [done|]. by rewrite Hl.
Qed.

Lemma replace_content {E} fuel path n k i e e' ov :
  i = level_index (hash k) (length path) → wfn path n → child n i = Some e →
  wfe (path ++ [i]) e' →
  (∀ k', agree (path ++ [i]) (hash k') →
     look_at fuel (Some e') (hash k') (length path) k' =
       if decide (k' = k) then ov else look_at fuel (Some e) (hash k') (length path) k') →
  ∃ n', replace_at (E := E) n (popcount i (bitmap n)) e' = Ok n' ∧
    wfn path n' ∧ bitmap n' ≠ 0%Z ∧
    ∀ k', agree path (hash k') →
      look (S fuel) n' (hash k') (length path) k' =
        if decide (k' = k) then ov else look (S fuel) n (hash k') (length path) k'.
Proof.
  intros Hik Hwf Hc He Hl.
  assert (i < 32) as Hi by (subst i; apply level_index_lt).
  destruct (replace_at_spec (E := E) n _ e' e (wf_shape _ _ _ Hwf) Hi Hc)
    as (n' & -> & Hs & Hb & Hn').
  exists n'. split_and!; [done| |done|].
  - eapply wf_change; eauto. by intros ? [= <-].
  - eapply change_content; eauto.
Qed.

(** The three facts an operation starts from: the branch of the key is free,
    or its child is known and the code finds it. *)
Lemma find_child fuel path n k :
  wfn path n →
  let i := level_index (hash k) (length path) in
  let idx := get_index_sparse (bitmap n) i in
  (child n i = None ∧ is_not_found idx = true ∧
     look (S fuel) n (hash k) (length path) k = None) ∨
  ∃ c, child n i = Some c ∧ idx = popcount i (bitmap n) ∧ is_not_found idx = false ∧
    (∀ E, get_child (E := E) n idx = Ok c) ∧ wfe (path ++ [i]) c ∧
    look (S fuel) n (hash k) (length path) k = look_at fuel (Some c) (hash k) (length path) k.
Proof.
  intros Hwf i idx. pose proof (level_index_lt (hash k) (length path)) as Hi.
  pose proof (wf_shape _ _ _ Hwf) as Hs.
  destruct (child n i) as [c|] eqn:Hc; [right; exists c|left].
  - assert (idx = popcount i (bitmap n)) as Hidx by by eapply index_some.
    split_and!; [done|done| | |by eapply wf_child|].
    + rewrite Hidx. by apply not_found_rank.
    + intros E. rewrite Hidx. by apply get_child_some.
    + rewrite look_S. by fold i; rewrite Hc.
  - split_and!; [done|by apply index_none|]. rewrite look_S. by fold i; rewrite Hc.
Qed.

(** A key that reaches a leaf or a collision of the branch of [k], but is
    not in it. *)
Lemma look_leaf_ne fuel lvl lh lk (lv : V) k :
  lh = hash lk → k ≠ lk → look_at fuel (Some (Leaf lh lk lv)) (hash k) lvl k = None.
Proof. intros -> Hne. cbn. rewrite decide_False; [done|]. naive_solver. Qed.

Lemma look_leaf_eq fuel lvl lk (lv : V) :
  look_at fuel (Some (Leaf (hash lk) lk lv)) (hash lk) lvl lk = Some lv.
Proof. cbn. by rewrite decide_True. Qed.

Lemma look_at_sub fuel (sub : node K V) h lvl k :
  look_at fuel (Some (SubNode sub)) h lvl k = look fuel sub h (lvl + 1) k.
Proof. done. Qed.
Lemma look_at_many_ne fuel h (col : list (K * V)) h' lvl k :
  h ≠ h' → look_at fuel (Some (LeafMany h col)) h' lvl k = None.
Proof. intros Hne. cbn. by rewrite decide_True. Qed.

#[local] Arguments look_at : simpl never.

Lemma collision_update_spec {U} fuel lvl path h (col : list (K * V)) k (f : V → outcome U (option V)) :
  h = hash k → col_ok path h col →
  match assoc col k with
  | None => collision_update h col k f = Err UpdateKeyNotFound
  | Some v =>
      match f v with
      | Panic => collision_update h col k f = Panic
      | Err e => collision_update h col k f = Err (ValueCallbackError e)
      | Ok ov => ∃ e', collision_update h col k f = Ok e' ∧ wfe path e' ∧
          ∀ k', look_at fuel (Some e') (hash k') lvl k' =
            if decide (k' = k) then ov
            else look_at fuel (Some (LeafMany h col)) (hash k') lvl k'
      end
  end.
Proof.
  intros Hh Hok. unfold collision_update, get_record_and_pos, assoc.
  destruct (list_find _ col) as [[pos kv]|] eqn:Hf; cbn; [|done].
  apply list_find_middle in Hf as (l1 & l2 & v & -> & <- & ->). cbn.
  destruct (f v) as [[newv|]|e|]; cbn; [| |done|done].
  - destruct (collision_set_spec (E := UpdateError U) path h l1 l2 k v newv Hok)
      as (-> & Hb & Hok' & Hl). cbn. rewrite Hb. cbn.
    eexists. split_and!; [done|done|]. intros k'. by rewrite Hl.
  - destruct (collision_drop_spec (E := UpdateError U) path h l1 l2 k v Hok)
      as (e' & -> & He & Hl).
    exists e'. split_and!; [done|done|]. intros k'. by rewrite Hl.
Qed.

Lemma update_rec_spec {U} fuel path n k (f : V → outcome U (option V)) :
  wfn path n → 13 ≤ fuel + length path → agree path (hash k) →
  update_post fuel path n k f (update_rec fuel n (hash k) (length path) k f).
Proof.
  revert path n. induction fuel as [|fuel IH]; intros path n Hwf Hf Hag.
  { apply wf_len in Hwf. lia. }
  set (i := level_index (hash k) (length path)).
  assert (agree (path ++ [i]) (hash k)) as Hagi by by apply agree_app.
  unfold update_post. cbn [update_rec]. fold i.
  pose proof (find_child fuel path n k Hwf) as Hfind. cbv zeta in Hfind. fold i in Hfind.
  destruct Hfind as [(Hc & -> & ->)|(c & Hc & Hidx & -> & Hget & Hce & ->)]; [by left|].
  rewrite Hget. cbn.
  destruct c as [lh lk lv|lh col|sub].
  - inversion_clear Hce as [? ? ? ? Hlh Hlag| |]. subst lh.
    destruct (decide (lk = k)) as [->|Hne].
    + rewrite look_leaf_eq, (decide_True (P := _ ∧ _)) by done.
      destruct (f lv) as [ov|e|]; cbn; [|done..].
      unfold clear_or_replace_at.
      rewrite is_set_bit, (child_bit_true n i _ Hc) by apply level_index_lt. cbn.
      destruct ov as [v'|]; cbn.
      * rewrite Hidx.
        destruct (replace_content (E := UpdateError U) fuel path n k i _ (Leaf (hash k) k v')
          (Some v') eq_refl Hwf Hc) as (n' & -> & Hwf' & Hb & Hl).
        -- by constructor.
        -- intros k' _. case_decide; subst; [apply look_leaf_eq|].
           by rewrite !look_leaf_ne.
        -- by exists (Some n').
      * destruct (clear_content (E := UpdateError U) fuel path n k i _ eq_refl Hwf Hc)
          as (r & -> & Hr & Hl); [|by exists r].
        intros k' _ Hne. by apply look_leaf_ne.
    + rewrite look_leaf_ne, decide_False by naive_solver. by left.
  - destruct (decide (lh = hash k)) as [->|Hne].
    + rewrite look_at_many, Z.eqb_refl by done. cbn.
      pose proof (collision_update_spec fuel (length path) _ (hash k) col k f eq_refl Hce)
        as Hcol.
      destruct (assoc col k) as [v|]; [|left; by rewrite Hcol].
      destruct (f v) as [ov|e|]; [|by rewrite Hcol..].
      destruct Hcol as (e' & -> & He' & Hl). cbn. rewrite Hidx.
      destruct (replace_content (E := UpdateError U) fuel path n k i _ e' ov eq_refl Hwf Hc He')
        as (n' & -> & Hwf' & Hb & Hl'); [by intros; apply Hl|].
      by exists (Some n').
    + rewrite look_at_many_ne by done. right. split.
      * by rewrite (proj2 (Z.eqb_neq _ _)).
      * eapply (collides_col _ _ _ i); [apply level_index_lt|done..].
  - inversion_clear Hce as [| |? ? Hsub Hbsub]. rewrite look_at_sub. cbn.
    specialize (IH (path ++ [i]) sub Hsub). rewrite length_app in IH. cbn in IH.
    specialize (IH ltac:(lia) Hagi). unfold update_post in IH.
    rewrite length_app in IH. cbn in IH.
    destruct (look fuel sub (hash k) (length path + 1) k) as [v|].
    + destruct (f v) as [ov|e|]; [|by rewrite IH..].
      destruct IH as (r & -> & Hr & Hl). cbn. destruct r as [newsub|].
      * rewrite Hidx.
        destruct (replace_content (E := UpdateError U) fuel path n k i _ (SubNode newsub) ov
          eq_refl Hwf Hc) as (n' & -> & Hwf' & Hb & Hl').
        -- destruct Hr. by constructor.
        -- intros k' Hag'. rewrite !look_at_sub, <-Hl by done. cbn. by rewrite length_app.
        -- by exists (Some n').
      * assert (ov = None) as -> by (specialize (Hl k Hagi); by rewrite decide_True in Hl).
        destruct (clear_content (E := UpdateError U) fuel path n k i _ eq_refl Hwf Hc)
          as (r & -> & Hr' & Hl'); [|by exists r].
        intros k' Hag' Hne. rewrite look_at_sub. specialize (Hl k' Hag').
        rewrite decide_False in Hl by done. done.
    + destruct IH as [->|[-> Hcol]]; [by left|right]. split; [done|].
      eapply (collides_sub _ _ _ i); [apply level_index_lt|done..].
Qed.
End correct.

(** * Insertion in the trie, and the operations that are updates in disguise *)
Local Open Scope nat_scope.

Section insert.
Context {K V : Type} `{EqDecision K} (hash : K → Z).
Implicit Types (n : node K V) (e : entry K V) (path : list nat) (k : K) (v : V).

Abbreviation wfn := (wf_node hash).
Abbreviation wfe := (wf_entry hash).

#[local] Arguments look_at : simpl never.
#[local] Arguments look : simpl never.

(** [insert_rec] on a subtree: an error exactly when the key is there, the
    new binding otherwise, a panic only on a collision of other keys. *)
Definition insert_post (fuel : nat) path n k v (R : outcome InsertError (node K V)) : Prop :=
  match look fuel n (hash k) (length path) k with
  | Some _ => R = Err EntryExists
  | None =>
      (∃ n', R = Ok n' ∧ wfn path n' ∧ bitmap n' ≠ 0%Z ∧
        ∀ k', agree path (hash k') →
          look fuel n' (hash k') (length path) k' =
            if decide (k' = k) then Some v else look fuel n (hash k') (length path) k') ∨
      (R = Panic ∧ collides hash fuel path n k)
  end.

Lemma collision_insert_spec fuel lvl path h (col : list (K * V)) k v :
  h = hash k → col_ok hash path h col →
  match assoc col k with
  | Some _ => collision_insert col k v = Err EntryExists
  | None => ∃ col', collision_insert col k v = Ok col' ∧ wfe path (LeafMany h col') ∧
      ∀ k', look_at fuel (Some (LeafMany h col')) (hash k') lvl k' =
        if decide (k' = k) then Some v
        else look_at fuel (Some (LeafMany h col)) (hash k') lvl k'
  end.
Proof.
  intros Hh Hok. inversion_clear Hok as [|? ? ? Hlen Hnd Hhash Hag|].
  unfold collision_insert.
  assert (existsb (λ kv, bool_decide (kv.1 = k)) col = bool_decide (k ∈ col.*1)) as ->.
  { apply eq_bool_prop_intro. rewrite !Is_true_true, bool_decide_eq_true, existsb_exists.
    setoid_rewrite bool_decide_eq_true. rewrite list_elem_of_fmap.
    setoid_rewrite <-list_elem_of_In. naive_solver. }
  destruct (assoc col k) as [v0|] eqn:Ha.
  - apply assoc_Some in Ha; [|done]. rewrite bool_decide_true; [done|].
    apply list_elem_of_fmap. by exists (k, v0).
  - apply assoc_None in Ha. rewrite bool_decide_false by done.
    unfold collision_from_box, clone_array_and_extend.
    rewrite bool_decide_true by (rewrite length_app; cbn; lia). cbn.
    assert (NoDup (col ++ [(k, v)]).*1) as Hnd'.
    { rewrite fmap_app. apply NoDup_app. split_and!; [done|set_solver|].
      apply NoDup_singleton. }
    eexists. split_and!; [done| |].
    + constructor; [rewrite length_app; cbn; lia|done| |done].
      intros kv. rewrite elem_of_app, list_elem_of_singleton.
      intros [?| ->]; [by apply Hhash|done].
    + intros k'. unfold look_at. rewrite assoc_middle, app_nil_r by done.
      repeat case_decide; subst; done.
Qed.

Lemma look_singleton fuel i lvl lk (lv : V) k' :
  level_index (hash lk) lvl = i →
  look (S fuel) (singleton i (Leaf (hash lk) lk lv)) (hash k') lvl k' =
    if decide (k' = lk) then Some lv else None.
Proof.
  intros Hi. assert (i < 32) as Hi32 by (subst i; apply level_index_lt).
  destruct (singleton_spec i (Leaf (hash lk) lk lv) Hi32) as (_ & _ & Hc).
  rewrite look_S, Hc by apply level_index_lt.
  case_decide as Hidx; case_decide as Hk; subst; try done.
  - apply look_leaf_eq.
  - by apply look_leaf_ne.
Qed.

Lemma wf_singleton path i lk (lv : V) :
  length path ≤ 12 → agree (path ++ [i]) (hash lk) →
  wfn path (singleton i (Leaf (hash lk) lk lv)).
Proof.
  intros Hlen Hag. pose proof Hag as [_ Hi]%agree_app.
  assert (i < 32) as Hi32 by (subst i; apply level_index_lt).
  destruct (singleton_spec i (Leaf (hash lk) lk lv) Hi32) as (Hs & _ & Hc).
  constructor; [done|done|]. intros j e Hj. rewrite Hc by done.
  case_decide; [|done]. intros [= <-]. subst j. by constructor.
Qed.

Hypothesis hash_u64 : ∀ k, in_u 64 (hash k).

(** Two keys whose hashes part below the current level: the leaf moves down
    with the new one. *)
Lemma split_leaf fuel path lk (lv : V) k v :
  13 ≤ fuel + length path → agree path (hash k) → agree path (hash lk) → hash lk ≠ hash k →
  (∀ sub, wfn path sub → insert_post fuel path sub k v
     (insert_rec fuel sub (hash k) (length path) k v)) →
  let leaf_idx := level_index (hash lk) (length path) in
  let idx := level_index (hash k) (length path) in
  let subnode := singleton leaf_idx (Leaf (hash lk) lk lv) in
  ∃ n', (if decide (idx ≠ leaf_idx) then set_at subnode idx (Leaf (hash k) k v)
         else insert_rec fuel subnode (hash k) (length path) k v) = Ok n' ∧
    wfn path n' ∧ bitmap n' ≠ 0%Z ∧
    ∀ k', agree path (hash k') →
      look fuel n' (hash k') (length path) k' =
        if decide (k' = k) then Some v else if decide (k' = lk) then Some lv else None.
Proof using hash_u64.
  intros Hf Hag Hlag Hne IH leaf_idx idx subnode.
  assert (length path ≤ 12) as Hlen.
  { destruct (decide (length path ≤ 12)) as [?|Hgt]; [done|]. destruct Hne.
    eapply (agree_full path); [apply hash_u64|apply hash_u64|lia|done|done]. }
  assert (wfn path subnode) as Hsub.
  { apply wf_singleton; [done|]. by apply agree_app. }
  destruct fuel as [|fuel]; [lia|].
  assert (∀ k', look (S fuel) subnode (hash k') (length path) k' =
    if decide (k' = lk) then Some lv else None) as Hlook
    by (intros; by apply look_singleton).
  case_decide as Hidx.
  - destruct (singleton_spec leaf_idx (Leaf (hash lk) lk lv)) as (Hs & _ & Hc);
      [apply level_index_lt|].
    destruct (set_at_spec (E := InsertError) subnode idx (Leaf (hash k) k v) Hs)
      as (n' & Hn' & Hs' & Hb & Hc'); [apply level_index_lt| |].
    { unfold subnode. rewrite Hc by apply level_index_lt. by rewrite decide_False. }
    exists n'. split_and!; [done| |done|].
    + eapply wf_change; [exact Hsub|done|exact Hc'|]. intros ? [= <-].
      constructor; [done|]. by apply agree_app.
    + intros k' Hag'. rewrite (look_change fuel subnode n' _ _ _ _ _ Hc'), Hlook.
      destruct (decide (k' = k)) as [->|Hk'].
      * rewrite decide_True by done. apply look_leaf_eq.
      * case_decide as Hi'; [|done]. rewrite look_leaf_ne by done.
        rewrite decide_False; [done|]. intros ->. by destruct Hidx.
  - specialize (IH subnode Hsub). unfold insert_post in IH. rewrite Hlook in IH.
    rewrite decide_False in IH by congruence.
    destruct IH as [(n' & Hn' & Hwf' & Hb & Hl)|[_ Hcol]].
    + exists n'. split_and!; [done..|]. intros k' Hag'. rewrite Hl by done.
      by rewrite Hlook.
    + destruct Hcol as (k1 & k2 & Hk & _ & _ & _ & H1 & H2).
      rewrite Hlook in H1, H2. destruct H1 as [? H1], H2 as [? H2].
      repeat case_decide; congruence.
Qed.

Lemma insert_rec_spec fuel path n k v :
  wfn path n → 13 ≤ fuel + length path → agree path (hash k) →
  insert_post fuel path n k v (insert_rec fuel n (hash k) (length path) k v).
Proof using hash_u64.
  revert path n. induction fuel as [|fuel IH]; intros path n Hwf Hf Hag.
  { apply wf_len in Hwf. lia. }
  set (i := level_index (hash k) (length path)).
  assert (agree (path ++ [i]) (hash k)) as Hagi by by apply agree_app.
  assert (length (path ++ [i]) = length path + 1) as Hlen' by by rewrite length_app.
  unfold insert_post. cbn [insert_rec]. fold i.
  pose proof (find_child hash fuel path n k Hwf) as Hfind. cbv zeta in Hfind. fold i in Hfind.
  destruct Hfind as [(Hc & -> & ->)|(c & Hc & Hidx & -> & Hget & Hce & ->)].
  - left. destruct (set_at_spec (E := InsertError) n i (Leaf (hash k) k v))
      as (n' & -> & Hs & Hb & Hc'); [by eapply wf_shape|apply level_index_lt|done|].
    exists n'. split_and!; [done| |done|].
    + eapply wf_change; eauto. intros ? [= <-]. by constructor.
    + eapply change_content; eauto. intros k' _.
      case_decide; subst; [apply look_leaf_eq|]. by apply look_leaf_ne.
  - rewrite Hget, Hidx. cbn. destruct c as [lh lk lv|lh col|sub].
    + inversion_clear Hce as [? ? ? ? Hlh Hlag| |]. subst lh.
      destruct (decide (lk = k)) as [->|Hlk].
      { rewrite look_leaf_eq. by rewrite !decide_True. }
      rewrite look_leaf_ne by done. left.
      destruct (decide (hash lk = hash k)) as [Hh|Hh].
      * unfold collision_from_vec. rewrite bool_decide_true by (cbn; lia). cbn.
        edestruct (replace_content hash (E := InsertError) fuel path n k i _
          (LeafMany (hash lk) [(lk, lv); (k, v)]) (Some v) eq_refl Hwf Hc)
          as (n' & -> & ?); [| |by exists n'].
        -- constructor; [done| | |done].
           ++ cbn. apply NoDup_cons. split; [set_solver|apply NoDup_singleton].
           ++ intros kv. rewrite !elem_of_cons. intros [->|[->|?%elem_of_nil]]; done.
        -- intros k' _. unfold look_at, assoc. cbn.
           repeat (case_decide; cbn); subst; naive_solver.
      * destruct (split_leaf fuel (path ++ [i]) lk lv k v) as (r & Hr & Hwf' & Hb & Hl);
          [rewrite Hlen'; lia|done..| |].
        { intros sub Hsub. apply IH; [done|rewrite Hlen'; lia|done]. }
        rewrite Hlen' in Hr, Hl.
        edestruct (replace_content hash (E := InsertError) fuel path n k i _
          (SubNode r) (Some v) eq_refl Hwf Hc) as (n' & Hn' & Hpost).
        -- by constructor.
        -- intros k' Hag'. rewrite look_at_sub, Hl by done.
           destruct (decide (k' = k)); [done|].
           destruct (decide (k' = lk)) as [->|]; [by rewrite look_leaf_eq|].
           by rewrite look_leaf_ne.
        -- exists n'. split; [|done]. by case_decide; rewrite Hr; cbn.
    + destruct (decide (lh = hash k)) as [->|Hne].
      * rewrite look_at_many, Z.eqb_refl by done. cbn.
        pose proof (collision_insert_spec fuel (length path) _ (hash k) col k v eq_refl Hce)
          as Hcol.
        destruct (assoc col k) as [v0|]; [by rewrite Hcol|].
        destruct Hcol as (col' & -> & He' & Hl). cbn. left.
        destruct (replace_content hash (E := InsertError) fuel path n k i _ _ (Some v)
          eq_refl Hwf Hc He') as (n' & -> & ?); [by intros; apply Hl|]. by exists n'.
      * rewrite look_at_many_ne by done. right. split.
        -- by rewrite (proj2 (Z.eqb_neq _ _)).
        -- eapply (collides_col _ _ _ _ i); [apply level_index_lt|done..].
    + inversion_clear Hce as [| |? ? Hsub Hbsub]. rewrite look_at_sub.
      pose proof (wf_len _ _ _ Hwf). rewrite decide_False by lia.
      specialize (IH (path ++ [i]) sub Hsub ltac:(lia) Hagi). unfold insert_post in IH.
      rewrite Hlen' in IH.
      destruct (look fuel sub (hash k) (length path + 1) k) as [v0|]; [by rewrite IH|].
      destruct IH as [(r & -> & Hr & Hb & Hl)|[-> Hcol]]; cbn; [left|right].
      * destruct (replace_content hash (E := InsertError) fuel path n k i _ (SubNode r)
          (Some v) eq_refl Hwf Hc) as (n' & -> & ?); [by constructor| |by exists n'].
        intros k' Hag'. by rewrite !look_at_sub, Hl.
      * split; [done|]. eapply (collides_sub _ _ _ _ i); [apply level_index_lt|done..].
Qed.
End insert.
