(* ===== verification/HamtSpec.v ===== *)
(** * What the HAMT promises to its clients

    The operations of [Hamt] on a finite map.  The components of the ledger
    (accounts, UTXO, pools, votes, ...) are modelled on these; [HamtMap] proves
    that the trie implements them. *)
From S2P Require Import Prelude Hamt.
Local Open Scope Z_scope.

Section spec.
Context {K V : Type} `{Countable K}.
Implicit Types (m : gmap K V) (k : K) (v : V).

Definition hm_insert m k v : outcome InsertError (gmap K V) :=
  match m !! k with Some _ => Err EntryExists | None => Ok (<[k:=v]> m) end.

(** The effect of a new binding, or of its absence. *)
Definition hm_set m k (ov : option V) : gmap K V :=
  match ov with Some v => <[k:=v]> m | None => delete k m end.

Definition hm_update {U} m k (f : V → outcome U (option V)) :
    outcome (UpdateError U) (gmap K V) :=
  match m !! k with
  | None => Err UpdateKeyNotFound
  | Some v => hm_set m k <$> map_err ValueCallbackError (f v)
  end.

Definition hm_insert_or_update {E} m k v (f : V → outcome E (option V)) :
    outcome E (gmap K V) :=
  match m !! k with
  | None => Ok (<[k:=v]> m)
  | Some v => hm_set m k <$> f v
  end.

Definition hm_insert_or_update_simple m k v (f : V → option V) : gmap K V :=
  match m !! k with None => <[k:=v]> m | Some v => hm_set m k (f v) end.

Definition hm_remove m k : outcome RemoveError (gmap K V) :=
  match m !! k with None => Err RemoveKeyNotFound | Some _ => Ok (delete k m) end.

Definition hm_remove_match `{EqDecision V} m k v : outcome RemoveError (gmap K V) :=
  match m !! k with
  | None => Err RemoveKeyNotFound
  | Some v' => if decide (v' = v) then Ok (delete k m) else Err ValueNotMatching
  end.

Definition hm_replace m k v : outcome ReplaceError (gmap K V * V) :=
  match m !! k with
  | None => Err ReplaceKeyNotFound
  | Some old => Ok (<[k:=v]> m, old)
  end.

Definition hm_replace_with m k (f : V → V) : outcome ReplaceError (gmap K V) :=
  match m !! k with
  | None => Err ReplaceKeyNotFound
  | Some old => Ok (<[k:=f old]> m)
  end.

(** [from_iter]: the first binding of a key wins. *)
Definition hm_from_list (l : list (K * V)) : gmap K V :=
  foldl (λ m kv, match m !! kv.1 with Some _ => m | None => <[kv.1:=kv.2]> m end) ∅ l.

Lemma hm_set_lookup m k ov k' :
  hm_set m k ov !! k' = if decide (k' = k) then ov else m !! k'.
Proof.
  destruct ov; cbn; case_decide; subst;
    [apply lookup_insert_eq|by apply lookup_insert_ne
    |apply lookup_delete_eq|by apply lookup_delete_ne].
Qed.

Lemma hm_update_Ok {U} m k (f : V → outcome U (option V)) m' :
  hm_update m k f = Ok m' ↔
  ∃ v ov, m !! k = Some v ∧ f v = Ok ov ∧ m' = hm_set m k ov.
Proof.
  unfold hm_update. split.
  - destruct (m !! k) as [v|]; [|done]. destruct (f v) as [ov|e|] eqn:Hf; [|done..].
    intros [= <-]. by exists v, ov.
  - by intros (v & ov & -> & -> & ->).
Qed.

Lemma hm_insert_Ok m k v m' :
  hm_insert m k v = Ok m' ↔ m !! k = None ∧ m' = <[k:=v]> m.
Proof.
  unfold hm_insert. destruct (m !! k); split; try done; [by intros [? _]|..].
  - by intros [= <-].
  - by intros [_ ->].
Qed.
Lemma hm_insert_or_update_Ok {E} m k v (f : V → outcome E (option V)) m' :
  hm_insert_or_update m k v f = Ok m' ↔
  (m !! k = None ∧ m' = <[k:=v]> m) ∨
  ∃ a ov, m !! k = Some a ∧ f a = Ok ov ∧ m' = hm_set m k ov.
Proof.
  unfold hm_insert_or_update. split.
  - destruct (m !! k) as [a|]; [|intros [= <-]; by left].
    destruct (f a) as [ov|e|] eqn:Hf; [|done..]. intros [= <-]. right. by exists a, ov.
  - intros [[-> ->]|(a & ov & -> & Hf & ->)]; [done|]. by rewrite Hf.
Qed.

(** The effect of an operation on the sum of a measure of the values, and
    on a property of all of them. *)
Lemma hm_set_sum (g : V → Z) m k a ov :
  m !! k = Some a → map_sum g (hm_set m k ov) = map_sum g m - g a + from_option g 0 ov.
Proof.
  intros Hk. destruct ov as [b|]; cbn; [by apply map_sum_insert|].
  rewrite (map_sum_delete g m k a) by done. lia.
Qed.

Lemma hm_update_sum {U} (g : V → Z) m k (f : V → outcome U (option V)) m' :
  hm_update m k f = Ok m' →
  ∃ a ov, m !! k = Some a ∧ f a = Ok ov ∧
    map_sum g m' = map_sum g m - g a + from_option g 0 ov.
Proof.
  intros (a & ov & Hk & Hf & ->)%hm_update_Ok. exists a, ov. by rewrite (hm_set_sum g m k a).
Qed.

Lemma hm_insert_sum (g : V → Z) m k v m' :
  hm_insert m k v = Ok m' → map_sum g m' = g v + map_sum g m.
Proof. intros [Hk ->]%hm_insert_Ok. by apply map_sum_insert_new. Qed.

Lemma hm_insert_or_update_sum {E} (g : V → Z) m k v (f : V → outcome E (option V)) m' d :
  hm_insert_or_update m k v f = Ok m' → g v = d →
  (∀ a ov, m !! k = Some a → f a = Ok ov → from_option g 0 ov = g a + d) →
  map_sum g m' = map_sum g m + d.
Proof.
  intros [[Hk ->]|(a & ov & Hk & Hf & ->)]%hm_insert_or_update_Ok <- Hd.
  - rewrite map_sum_insert_new by done. lia.
  - rewrite (hm_set_sum g m k a) by done. rewrite (Hd a ov) by done. lia.
Qed.

Lemma hm_set_Forall (P : V → Prop) m k ov :
  map_Forall (λ _, P) m → from_option P True ov → map_Forall (λ _, P) (hm_set m k ov).
Proof.
  intros Hm Ho. destruct ov; cbn; [by apply map_Forall_insert_2|by apply map_Forall_delete].
Qed.

Lemma hm_update_Forall {U} (P : V → Prop) m k (f : V → outcome U (option V)) m' :
  map_Forall (λ _, P) m → (∀ a ov, P a → f a = Ok ov → from_option P True ov) →
  hm_update m k f = Ok m' → map_Forall (λ _, P) m'.
Proof.
  intros Hm Hf (a & ov & Hk & Ha & ->)%hm_update_Ok. apply hm_set_Forall; [done|].
  eapply Hf; [|done]. by eapply Hm.
Qed.

Lemma hm_insert_Forall (P : V → Prop) m k v m' :
  map_Forall (λ _, P) m → P v → hm_insert m k v = Ok m' → map_Forall (λ _, P) m'.
Proof. intros Hm Hv [Hk ->]%hm_insert_Ok. by apply map_Forall_insert_2. Qed.

Lemma hm_insert_or_update_Forall {E} (P : V → Prop) m k v (f : V → outcome E (option V)) m' :
  map_Forall (λ _, P) m → P v → (∀ a ov, P a → f a = Ok ov → from_option P True ov) →
  hm_insert_or_update m k v f = Ok m' → map_Forall (λ _, P) m'.
Proof.
  intros Hm Hv Hf [[Hk ->]|(a & ov & Hk & Ha & ->)]%hm_insert_or_update_Ok.
  - by apply map_Forall_insert_2.
  - apply hm_set_Forall; [done|]. eapply Hf; [|done]. by eapply Hm.
Qed.

(** An update touches no other key. *)
Lemma hm_update_ne {U} m k (f : V → outcome U (option V)) m' k' :
  hm_update m k f = Ok m' → k' ≠ k → m' !! k' = m !! k'.
Proof.
  intros (a & ov & Hk & Hf & ->)%hm_update_Ok Hne. by rewrite hm_set_lookup, decide_False.
Qed.
End spec.
