(* ===== verification/HamtMap.v ===== *)
(** * Enumerating a trie, and the finite map it implements

    [size_rec] and the explicit-stack iterator, then the operations on the root
    against those of a finite map. *)
From S2P Require Import Prelude Bitmap Hamt HamtInv HamtCorrect HamtSpec.
Local Open Scope nat_scope.

Section elems.
Context {K V : Type} `{EqDecision K}.
Implicit Types (n : node K V) (e : entry K V) (k : K) (v : V).

(** The pairs of a subtree, in the order of the packed arrays. *)
Fixpoint elems n : list (K * V) :=
  match n with
  | Node _ ch =>
      (fix go ch := match ch with
       | [] => []
       | c :: ch =>
           match c with
           | Leaf _ k v => [(k, v)]
           | LeafMany _ col => col
           | SubNode sub => elems sub
           end ++ go ch
       end) ch
  end.

Definition entry_elems e : list (K * V) :=
  match e with Leaf _ k v => [(k, v)] | LeafMany _ col => col | SubNode sub => elems sub end.

Lemma elems_children n : elems n = concat (entry_elems <$> children n).
Proof.
  destruct n as [bm ch]. cbn. induction ch as [|c ch IH]; [done|].
  cbn. by rewrite IH.
Qed.

Lemma size_rec_elems : ∀ n, size_rec n = length (elems n).
Proof.
  fix IH 1. intros [bm ch]. cbn. induction ch as [|c ch IHch]; [done|].
  rewrite length_app. rewrite <-IHch. destruct c; cbn; [done|done|]. by rewrite IH.
Qed.

(** ** The iterator *)

(** The turns the iterator spends on a subtree. *)
Fixpoint cost n : nat :=
  match n with
  | Node _ ch =>
      (fix go ch := match ch with
       | [] => 1
       | c :: ch =>
           match c with
           | Leaf _ _ _ => 1
           | LeafMany _ col => 2 + length col
           | SubNode sub => 1 + cost sub
           end + go ch
       end) ch
  end.

Definition entry_cost e : nat :=
  match e with Leaf _ _ _ => 1 | LeafMany _ col => 2 + length col | SubNode sub => 1 + cost sub end.
Fixpoint slice_cost (ch : list (entry K V)) : nat :=
  match ch with [] => 1 | c :: ch => entry_cost c + slice_cost ch end.
Fixpoint stack_cost (st : list (list (entry K V))) : nat :=
  match st with [] => 0 | ch :: st => slice_cost ch + stack_cost st end.
Definition content_cost (c : option (list (K * V))) : nat :=
  match c with None => 0 | Some col => S (length col) end.
Definition iter_cost (st : HamtIter K V) : nat :=
  content_cost (it_content st) + stack_cost (it_stack st).

Lemma cost_children n : cost n = slice_cost (children n).
Proof.
  destruct n as [bm ch]. cbn. induction ch as [|c ch IH]; [done|]. cbn. by rewrite IH.
Qed.

(** What the iterator has still to yield. *)
Definition iter_pending (st : HamtIter K V) : list (K * V) :=
  match it_content st with None => [] | Some col => col end ++
  concat ((λ ch, concat (entry_elems <$> ch)) <$> it_stack st).

(** One turn yields the head of what is pending, or nothing, and costs one. *)
Lemma iter_step_pending st :
  match iter_step st with
  | Done => iter_pending st = []
  | Loop st' => iter_pending st' = iter_pending st ∧ iter_cost st' < iter_cost st
  | Yield kv st' => iter_pending st = kv :: iter_pending st' ∧ iter_cost st' < iter_cost st
  end.
Proof.
  destruct st as [stack [[|o rest]|]]; unfold iter_step, iter_pending, iter_cost; cbn.
  - split; [done|lia].
  - split; [done|lia].
  - destruct stack as [|[|next last] stack]; cbn; [done|split; [done|lia]|].
    destruct next as [h k v|h col|sub]; cbn.
    + split; [done|lia].
    + split; [by rewrite app_assoc|lia].
    + rewrite <-elems_children, cost_children. split; [by rewrite app_assoc|lia].
Qed.

Lemma iter_collect_pending fuel st :
  iter_cost st < fuel → iter_collect fuel st = Some (iter_pending st).
Proof.
  revert st. induction fuel as [|fuel IH]; intros st Hf; [lia|]. cbn.
  pose proof (iter_step_pending st) as Hst. destruct (iter_step st) as [kv st'|st'|].
  - destruct Hst as [-> Hc]. by rewrite IH by lia.
  - destruct Hst as [<- Hc]. by rewrite IH by lia.
  - by rewrite Hst.
Qed.

Lemma iter_pending_start (t : Hamt K V) : iter_pending (hamt_iter t) = elems (root t).
Proof. unfold iter_pending. cbn. by rewrite app_nil_r, <-elems_children. Qed.

Lemma iter_cost_start (t : Hamt K V) : iter_cost (hamt_iter t) = cost (root t).
Proof. unfold iter_cost. cbn. rewrite cost_children. lia. Qed.
End elems.

(** ** The pairs of a well-formed subtree are its content *)
Section elems_look.
Context {K V : Type} `{EqDecision K} (hash : K → Z).
Implicit Types (n : node K V) (e : entry K V) (path : list nat) (k : K) (v : V).

Lemma elem_of_elems n k v :
  shape n →
  (k, v) ∈ elems n ↔ ∃ i c, i < 32 ∧ child n i = Some c ∧ (k, v) ∈ entry_elems c.
Proof.
  intros Hs. rewrite elems_children, (children_omap n Hs).
  rewrite elem_of_concat. setoid_rewrite list_elem_of_fmap.
  setoid_rewrite list_elem_of_omap. setoid_rewrite elem_of_seq. split.
  - intros (l & Hin & c & -> & i & Hi & Hc). exists i, c. split; [lia|done].
  - intros (i & c & Hi & Hc & Hin). exists (entry_elems c). split; [done|].
    exists c. split; [done|]. exists i. split; [lia|done].
Qed.

Lemma elems_look fuel path n :
  wf_node hash path n → 13 ≤ fuel + length path →
  (∀ k v, (k, v) ∈ elems n ↔
     agree path (hash k) ∧ look fuel n (hash k) (length path) k = Some v) ∧
  NoDup (elems n).*1.
Proof.
  revert path n. induction fuel as [|fuel IH]; intros path n Hwf Hf.
  { apply wf_len in Hwf. lia. }
  pose proof (wf_shape _ _ _ Hwf) as Hs.
  assert (∀ i c, i < 32 → child n i = Some c →
    (∀ k v, (k, v) ∈ entry_elems c ↔ agree (path ++ [i]) (hash k) ∧
       look_at fuel (Some c) (hash k) (length path) k = Some v) ∧
    NoDup (entry_elems c).*1) as Hent.
  { intros i c Hi Hc. pose proof (wf_child _ _ _ _ _ Hwf Hi Hc) as He.
    inversion He as [? h k0 v0 Hh Hag|? h col Hlen Hnd Hh Hag|? sub Hsub Hb]; subst.
    - split; [|apply NoDup_singleton]. intros k v. cbn. rewrite list_elem_of_singleton.
      split; [|case_decide; naive_solver]. intros [= -> ->]. by rewrite decide_True.
    - split; [|done]. intros k v. unfold entry_elems. split.
      + intros Hin. pose proof (Hh _ Hin) as Hk. cbn in Hk. rewrite Hk. split; [done|].
        rewrite <-Hk, look_at_many by done. by apply assoc_Some.
      + intros [_ Hl]. cbn in Hl. case_decide; [done|]. by apply assoc_Some.
    - destruct (IH _ _ Hsub) as [Hin Hnd]; [rewrite length_app; cbn; lia|].
      split; [|done]. intros k v. cbn [entry_elems]. rewrite Hin, look_at_sub.
      by rewrite length_app. }
  split.
  - intros k v. rewrite elem_of_elems by done. rewrite look_S. split.
    + intros (i & c & Hi & Hc & Hin). apply (Hent i c Hi Hc) in Hin as [Hag Hl].
      apply agree_app in Hag as [Hag ->]. by rewrite Hc.
    + intros [Hag Hl]. destruct (child n _) as [c|] eqn:Hc; [|done].
      eexists _, c. split_and!; [apply level_index_lt|done|].
      apply (Hent _ c (level_index_lt _ _) Hc). split; [|done]. by apply agree_app.
  - rewrite elems_children, (children_omap n Hs).
    assert (∀ l, (∀ i, i ∈ l → i < 32) → NoDup l →
      NoDup (concat (entry_elems <$> omap (child n) l)).*1) as Hl.
    { induction l as [|i l IHl]; intros Hl Hnd; [constructor|].
      apply NoDup_cons in Hnd as [Hi Hnd]. cbn.
      assert (∀ j, j ∈ l → j < 32) as Hl' by set_solver.
      destruct (child n i) as [c|] eqn:Hc; [|by apply IHl]. cbn.
      destruct (Hent i c) as [Hin Hndc]; [set_solver|done|].
      rewrite fmap_app. apply NoDup_app. split_and!; [done| |by apply IHl].
      intros k Hk1 Hk2. apply list_elem_of_fmap in Hk1 as ([k1 v1] & -> & H1).
      apply list_elem_of_fmap in Hk2 as ([k2 v2] & Heq & H2).
      cbn in Heq. subst k2. destruct (proj1 (Hin _ _) H1) as [[_ Hi1]%agree_app _].
      apply elem_of_concat in H2 as (l2 & H2 & Hl2).
      apply list_elem_of_fmap in Hl2 as (c2 & -> & Hc2).
      apply list_elem_of_omap in Hc2 as (j & Hj & Hcj). cbn [fst] in *.
      destruct (Hent j c2) as [Hin2 _]; [by apply Hl'|done|].
      destruct (proj1 (Hin2 _ _) H2) as [[_ Hi2]%agree_app _]. congruence. }
    apply Hl; [|apply NoDup_seq]. intros i. rewrite elem_of_seq. lia.
Qed.

(** A non-empty well-formed node holds a pair. *)
Lemma nonempty_elems fuel path n :
  wf_node hash path n → 13 ≤ fuel + length path → bitmap n ≠ 0%Z → elems n ≠ [].
Proof.
  revert path n. induction fuel as [|fuel IH]; intros path n Hwf Hf Hb.
  { apply wf_len in Hwf. lia. }
  pose proof (wf_shape _ _ _ Hwf) as Hs.
  assert (∃ i, i < 32 ∧ bit (bitmap n) i = true) as (i & Hi & Hbit).
  { destruct (decide (Forall (λ i, bit (bitmap n) i = false) (seq 0 32))) as [Hall|Hn].
    - destruct Hb. apply bitmap_empty_iff; [apply Hs|]. intros i Hi.
      rewrite Forall_forall in Hall. apply Hall. apply elem_of_seq. lia.
    - apply not_Forall_Exists in Hn; [|apply _]. apply Exists_exists in Hn as (i & Hi & Hn).
      apply elem_of_seq in Hi. exists i. split; [lia|]. by apply not_false_is_true. }
  destruct (child_is_Some n i Hs Hi Hbit) as [c Hc].
  assert (∃ kv, kv ∈ entry_elems c) as [[k v] Hkv].
  { pose proof (wf_child _ _ _ _ _ Hwf Hi Hc) as He.
    inversion He as [? h k0 v0 Hh Hag|? h col Hlen Hnd Hh Hag|? sub Hsub Hbs]; subst; cbn.
    - exists (k0, v0). left.
    - destruct col as [|kv col]; [cbn in Hlen; lia|]. exists kv. left.
    - destruct (elems sub) as [|kv l] eqn:Hel; [|exists kv; left].
      exfalso. eapply (IH _ sub Hsub); [rewrite length_app; cbn; lia|done|done]. }
  intros Hnil. assert ((k, v) ∈ elems n) as Hin; [|rewrite Hnil in Hin; by apply elem_of_nil in Hin].
  apply elem_of_elems; eauto.
Qed.
End elems_look.

(** * The trie implements the finite map *)
Local Open Scope nat_scope.

(** ** Removal and replacement are updates *)
Section equivalences.
Context {K V : Type} `{EqDecision K}.
Implicit Types (n : node K V) (k : K) (v : V).

Definition to_remove {U} (e : UpdateError U) : RemoveError :=
  match e with UpdateKeyNotFound => RemoveKeyNotFound | ValueCallbackError _ => ValueNotMatching end.
Definition to_replace {U} (e : UpdateError U) : ReplaceError := ReplaceKeyNotFound.

Lemma found_is_set bm i :
  i < 32 → is_not_found (get_index_sparse bm i) = false → is_set bm i = true.
Proof.
  intros Hi. rewrite get_index_sparse_rank, is_set_bit by done.
  by destruct (bit bm i).
Qed.

(** The callbacks that stand for each operation. *)
Definition cb_remove : V → outcome infallible (option V) := λ _, Ok None.
Definition cb_remove_match `{EqDecision V} v : V → outcome unit (option V) :=
  λ v', if decide (v' = v) then Ok None else Err ().
Definition cb_replace (f : V → V) : V → outcome infallible (option V) :=
  λ v, Ok (Some (f v)).

Lemma get_found_err {E F} i :
  get_found (E := E) i = Ok i ∧ get_found (E := F) i = Ok i ∨
  get_found (E := E) i = Panic ∧ get_found (E := F) i = Panic.
Proof. unfold get_found. destruct (is_not_found i); naive_solver. Qed.

Lemma get_child_err {E F} n i (g : E → F) :
  get_child (E := F) n i = map_err g (get_child (E := E) n i).
Proof.
  unfold get_child. destruct (is_not_found i) eqn:Hi; [done|]. unfold get_found.
  rewrite Hi. cbn. by destruct (children n !! i).
Qed.

Lemma replace_at_err {E F} n i e (g : E → F) :
  replace_at (E := F) n i e = map_err g (replace_at (E := E) n i e).
Proof. unfold replace_at, get_found. destruct (is_not_found i); [done|]. cbn. by case_decide. Qed.

Lemma clear_at_err {E F} n i (g : E → F) :
  clear_at (E := F) n i = map_err g (clear_at (E := E) n i).
Proof.
  unfold clear_at, get_found, clone_array_and_remove_at_pos.
  destruct (is_set _ _); [|done]. cbn. case_match; [done|].
  destruct (is_not_found _); [done|]. cbn. by case_decide.
Qed.

Lemma collision_drop_err {E F} h (col : list (K * V)) pos (g : E → F) :
  collision_drop (E := F) h col pos = map_err g (collision_drop (E := E) h col pos).
Proof.
  unfold collision_drop, to_keep, clone_array_and_remove_at_pos, collision_from_box.
  case_decide.
  - destruct (if decide (pos = 0) then col !! 1 else col !! 0); done.
  - case_decide; [|done]. cbn. by case_bool_decide.
Qed.

Lemma clone_set_err {E F} (col : list (K * V)) a pos (g : E → F) :
  (v ← clone_array_and_set_at_pos (E := F) col a pos; collision_from_box v) =
  map_err g (v ← clone_array_and_set_at_pos (E := E) col a pos; collision_from_box v).
Proof.
  unfold clone_array_and_set_at_pos, collision_from_box.
  repeat case_decide; cbn; try done; by case_bool_decide.
Qed.

Ltac step_node n h lvl :=
  cbn;
  destruct (is_not_found (get_index_sparse (bitmap n) (level_index h lvl))) eqn:Hidx; [done|].

Lemma remove_rec_update fuel n h lvl k :
  remove_rec fuel n h lvl k = map_err to_remove (update_rec fuel n h lvl k cb_remove).
Proof.
  revert n lvl. induction fuel as [|fuel IH]; intros n lvl; [done|]. step_node n h lvl.
  rewrite (get_child_err n _ to_remove (E := UpdateError infallible)).
  destruct (get_child n _) as [c|e|]; cbn; [|done..].
  destruct c as [lh lk lv|lh col|sub].
  - case_decide; [|done]. cbn. unfold clear_or_replace_at.
    rewrite found_is_set by (done || apply level_index_lt). cbn.
    apply (clear_at_err n _ to_remove).
  - destruct (lh =? h)%Z; [|done]. cbn. unfold collision_remove, collision_update.
    destruct (get_record_and_pos col k) as [[pos kv]|]; [|done]. cbn.
    rewrite (collision_drop_err h col pos to_remove (E := UpdateError infallible)).
    destruct (collision_drop _ _ _); cbn; [|done..].
    rewrite (replace_at_err n _ _ to_remove (E := UpdateError infallible)).
    by destruct (replace_at _ _ _).
  - rewrite IH. destruct (update_rec _ sub _ _ _ _) as [[newsub|]|e|]; cbn; [| |done..].
    + rewrite (replace_at_err n _ _ to_remove (E := UpdateError infallible)).
      by destruct (replace_at _ _ _).
    + apply (clear_at_err n _ to_remove).
Qed.

Lemma remove_eq_rec_update `{EqDecision V} fuel n h lvl k v :
  remove_eq_rec fuel n h lvl k v =
  map_err to_remove (update_rec fuel n h lvl k (cb_remove_match v)).
Proof.
  revert n lvl. induction fuel as [|fuel IH]; intros n lvl; [done|]. step_node n h lvl.
  rewrite (get_child_err n _ to_remove (E := UpdateError unit)).
  destruct (get_child n _) as [c|e|]; cbn; [|done..].
  destruct c as [lh lk lv|lh col|sub].
  - case_decide; [|done]. unfold cb_remove_match. case_decide; [|done]. cbn.
    unfold clear_or_replace_at.
    rewrite found_is_set by (done || apply level_index_lt). cbn.
    apply (clear_at_err n _ to_remove).
  - destruct (lh =? h)%Z; [|done]. cbn. unfold collision_remove_match, collision_update.
    destruct (get_record_and_pos col k) as [[pos kv]|] eqn:Hpos; [|done]. cbn.
    apply list_find_Some in Hpos as (Hl & _). rewrite Hl. cbn.
    unfold cb_remove_match. destruct (decide (kv.2 = v)) as [Hv|Hv].
    + rewrite decide_False by (intros Hn; by apply Hn). cbn.
      rewrite (collision_drop_err h col pos to_remove (E := UpdateError unit)).
      destruct (collision_drop _ _ _); cbn; [|done..].
      rewrite (replace_at_err n _ _ to_remove (E := UpdateError unit)).
      by destruct (replace_at _ _ _).
    + by rewrite decide_True.
  - rewrite IH. destruct (update_rec _ sub _ _ _ _) as [[newsub|]|e|]; cbn; [| |done..].
    + rewrite (replace_at_err n _ _ to_remove (E := UpdateError unit)).
      by destruct (replace_at _ _ _).
    + apply (clear_at_err n _ to_remove).
Qed.

Lemma replace_with_rec_update fuel n h lvl k f :
  Some <$> replace_with_rec fuel n h lvl k f =
  map_err to_replace (update_rec fuel n h lvl k (cb_replace f)).
Proof.
  revert n lvl. induction fuel as [|fuel IH]; intros n lvl; [done|]. step_node n h lvl.
  rewrite (get_child_err n _ to_replace (E := UpdateError infallible)).
  destruct (get_child n _) as [c|e|]; cbn; [|done..].
  destruct c as [lh lk lv|lh col|sub].
  - case_decide; [|done]. cbn. unfold clear_or_replace_at.
    rewrite found_is_set by (done || apply level_index_lt). cbn.
    rewrite (replace_at_err n _ _ to_replace (E := UpdateError infallible)).
    by destruct (replace_at _ _ _).
  - destruct (Z.eqb_spec lh h) as [->|]; [|done]. cbn.
    unfold collision_replace_with, collision_update.
    destruct (get_record_and_pos col k) as [[pos kv]|]; [|done]. cbn.
    rewrite (clone_set_err col _ pos to_replace (E := UpdateError infallible)).
    destruct (clone_array_and_set_at_pos _ _ _) as [a|e|]; cbn; [|done..].
    destruct (collision_from_box a) as [c|e|]; cbn; [|done..].
    rewrite (replace_at_err n _ _ to_replace (E := UpdateError infallible)).
    by destruct (replace_at _ _ _).
  - specialize (IH sub (lvl + 1)).
    destruct (replace_with_rec _ sub _ _ _ _) as [r|e|],
      (update_rec _ sub _ _ _ _) as [[newsub|]|e'|]; cbn in *; simplify_eq; try done.
    rewrite (replace_at_err n _ _ to_replace (E := UpdateError infallible)).
    by destruct (replace_at _ _ _).
Qed.

Lemma replace_rec_fst fuel n h lvl k v :
  fst <$> replace_rec fuel n h lvl k v = replace_with_rec fuel n h lvl k (λ _, v).
Proof.
  revert n lvl. induction fuel as [|fuel IH]; intros n lvl; [done|]. step_node n h lvl.
  destruct (get_child n _) as [c|e|]; cbn; [|done..].
  destruct c as [lh lk lv|lh col|sub].
  - case_decide; [|done]. cbn. by destruct (replace_at _ _ _).
  - destruct (lh =? h)%Z; [|done]. cbn. unfold collision_replace, collision_replace_with.
    destruct (get_record_and_pos col k) as [[pos kv]|]; [|done]. cbn.
    destruct (clone_array_and_set_at_pos _ _ _) as [a|e|]; cbn; [|done..].
    destruct (collision_from_box a) as [c|e|]; cbn; [|done..].
    by destruct (replace_at _ _ _).
  - rewrite <-IH. destruct (replace_rec _ sub _ _ _ _) as [[newsub oldv]|e|]; cbn; [|done..].
    by destruct (replace_at _ _ _).
Qed.
End equivalences.
