(* ===== verification/HamtRefine.v ===== *)
(** * Refinement: the persistent map of [imhamt] is a finite map

    [to_map t] is the finite map a trie stands for.  On well-formed tries every
    operation of [Hamt] computes the operation of [HamtSpec] on [to_map], and
    keeps the trie well-formed; the single exception is the [Panic] of
    [insert_rec], [update_rec] and the others when two keys with one full hash
    meet a third key ([collision]). *)
From S2P Require Import Prelude Bitmap Hamt HamtInv HamtCorrect HamtSpec HamtMap.
From S2P Require Import HamtMap.
Local Open Scope nat_scope.

Section refine.
Context {K V : Type} `{Countable K} (hash : K → Z).
Implicit Types (t : Hamt K V) (k : K) (v : V).

Definition hamt_wf t : Prop := wf_node hash [] (root t).
Definition to_map t : gmap K V := list_to_map (elems (root t)).

(** The key [k] meets two keys of [t] with one hash, different from its own. *)
Definition collision t k : Prop :=
  ∃ k1 k2, k1 ≠ k2 ∧ hash k1 = hash k2 ∧ hash k1 ≠ hash k ∧
    is_Some (to_map t !! k1) ∧ is_Some (to_map t !! k2).

(** [R] is what the specification [S] says, or the collision panic. *)
Definition refines {E} t k (R : outcome E (Hamt K V)) (S : outcome E (gmap K V)) : Prop :=
  match R with
  | Ok t' => S = Ok (to_map t') ∧ hamt_wf t'
  | Err e => S = Err e
  | Panic => S = Panic ∨ collision t k
  end.

Lemma to_map_look t k :
  hamt_wf t → to_map t !! k = look FUEL (root t) (hash k) 0 k.
Proof.
  intros Hwf. destruct (elems_look hash FUEL [] (root t) Hwf) as [Hin Hnd]; [cbn; lia|].
  apply option_eq. intros v. unfold to_map. rewrite <-elem_of_list_to_map by done.
  rewrite Hin. cbn. split; [by intros [_ ?]|]. intros Hl. split; [apply agree_nil|done].
Qed.

Lemma hamt_new_wf : hamt_wf hamt_new.
Proof. apply wf_new. Qed.
Lemma to_map_new : to_map (hamt_new (K := K) (V := V)) = ∅.
Proof. done. Qed.

Lemma look_new fuel h lvl k : look fuel (node_new (V := V)) h lvl k = None.
Proof. destruct fuel; [done|]. by rewrite look_S, child_new. Qed.

Lemma to_map_set t t' k ov :
  hamt_wf t → hamt_wf t' →
  (∀ k', look FUEL (root t') (hash k') 0 k' =
     if decide (k' = k) then ov else look FUEL (root t) (hash k') 0 k') →
  to_map t' = hm_set (to_map t) k ov.
Proof.
  intros Hwf Hwf' Hl. apply map_eq. intros k'.
  rewrite hm_set_lookup, !to_map_look by done. apply Hl.
Qed.

Lemma collides_collision t k :
  hamt_wf t → collides hash FUEL [] (root t) k → collision t k.
Proof.
  intros Hwf (k1 & k2 & ? & ? & ? & _ & H1 & H2). exists k1, k2.
  cbn [length] in H1, H2. rewrite <-(to_map_look t k1 Hwf) in H1. by rewrite <-(to_map_look t k2 Hwf) in H2.
Qed.

Lemma hamt_lookup_look {E} t k :
  hamt_wf t → hamt_lookup (E := E) hash t k = Ok (to_map t !! k).
Proof.
  intros Hwf. unfold hamt_lookup. rewrite to_map_look by done.
  apply (lookup_loop_look hash FUEL []); [done|cbn; lia].
Qed.

Lemma hamt_update_spec {U} t k (f : V → outcome U (option V)) :
  hamt_wf t → refines t k (hamt_update hash t k f) (hm_update (to_map t) k f).
Proof.
  intros Hwf. unfold hamt_update.
  pose proof (update_rec_spec hash FUEL [] (root t) k f Hwf ltac:(cbn; lia) (agree_nil _)) as Hs.
  unfold update_post in Hs. cbn [length] in Hs. unfold hm_update.
  rewrite to_map_look by done.
  destruct (look FUEL (root t) (hash k) 0 k) as [v|].
  - destruct (f v) as [ov|e|].
    + destruct Hs as (r & -> & Hr & Hl). cbn.
      assert (hamt_wf (hamt_of_root r)) as Hwf'.
      { destruct r as [n|]; cbn; [apply Hr|apply hamt_new_wf]. }
      split; [|done]. f_equal. symmetry. apply to_map_set; [done..|].
      intros k'. rewrite <-Hl by apply agree_nil.
      destruct r as [n|]; [done|]. apply look_new.
    + by rewrite Hs.
    + rewrite Hs. by left.
  - destruct Hs as [->|[-> Hc]]; cbn; [done|]. right. by apply collides_collision.
Qed.

Hypothesis hash_u64 : ∀ k, in_u 64 (hash k).

Lemma hamt_insert_spec t k v :
  hamt_wf t → refines t k (hamt_insert hash t k v) (hm_insert (to_map t) k v).
Proof using hash_u64.
  intros Hwf. unfold hamt_insert.
  pose proof (insert_rec_spec hash hash_u64 FUEL [] (root t) k v Hwf ltac:(cbn; lia)
    (agree_nil _)) as Hs.
  unfold insert_post in Hs. cbn [length] in Hs. unfold hm_insert.
  rewrite to_map_look by done.
  destruct (look FUEL (root t) (hash k) 0 k) as [v0|]; [by rewrite Hs|].
  destruct Hs as [(n' & -> & Hwf' & _ & Hl)|[-> Hc]]; cbn.
  - split; [|done]. f_equal. symmetry.
    apply (to_map_set t (mkHamt n') k (Some v)); [done..|].
    intros k'. apply Hl, agree_nil.
  - right. by apply collides_collision.
Qed.

(** Error maps commute with refinement. *)
Lemma refines_map_err {E F} t k (g : E → F) R S :
  refines t k R S → refines t k (map_err g R) (map_err g S).
Proof.
  destruct R; cbn; [by intros [-> ?]|by intros ->|intros [->|?]; by eauto].
Qed.

Lemma refines_Ok {E} t k (R : outcome E (Hamt K V)) m :
  refines t k R (Ok m) →
  (∃ t', R = Ok t' ∧ m = to_map t' ∧ hamt_wf t') ∨ R = Panic ∧ collision t k.
Proof.
  destruct R as [t'|e|]; cbn; [|done|].
  - intros [[= ->] ?]. left. by exists t'.
  - intros [[=]|?]. by right.
Qed.
Lemma refines_Err {E} t k (R : outcome E (Hamt K V)) e :
  refines t k R (Err e) → R = Err e ∨ R = Panic ∧ collision t k.
Proof.
  destruct R as [t'|e'|]; cbn.
  - by intros [[=] _].
  - intros [= ->]. by left.
  - intros [[=]|?]. by right.
Qed.
Lemma refines_Panic {E} t k (R : outcome E (Hamt K V)) : refines t k R Panic → R = Panic.
Proof. destruct R as [t'|e'|]; cbn; [by intros [[=] _]|done|done]. Qed.

Lemma refines_unwrap {E F} t k (R : outcome E (Hamt K V)) m :
  refines t k R (Ok m) → refines (E := F) t k (unwrap R) (Ok m).
Proof.
  destruct R as [t'|e|]; cbn; [|done|].
  - intros [[= ->] ?]. done.
  - intros [[=]|?]. by right.
Qed.

Lemma map_err_fmap {E F A B} (g : E → F) (h : A → B) (m : outcome E A) :
  h <$> map_err g m = map_err g (h <$> m).
Proof. by destruct m. Qed.

(** ** The refinement theorems *)

(** C8. [Hamt::insert] computes map insertion: it fails with [EntryExists]
    exactly when the key is bound, and otherwise binds it, changing no other
    key and keeping the trie well-formed; [Hamt::lookup] always returns, and
    returns the binding.  A panic is only possible on a hash collision. *)
Theorem hamt_insert_lookup_refines t k v :
  hamt_wf t →
  refines t k (hamt_insert hash t k v) (hm_insert (to_map t) k v) ∧
  (∀ k', hamt_lookup (E := InsertError) hash t k' = Ok (to_map t !! k')) ∧
  (∀ t', hamt_insert hash t k v = Ok t' →
     to_map t !! k = None ∧
     ∀ k', hamt_lookup (E := InsertError) hash t' k' =
       Ok (if decide (k' = k) then Some v else to_map t !! k')).
Proof using hash_u64.
  intros Hwf. split_and!; [by apply hamt_insert_spec|intros; by apply hamt_lookup_look|].
  intros t' Ht'. pose proof (hamt_insert_spec t k v Hwf) as Hr. rewrite Ht' in Hr.
  destruct Hr as [[Hn Hm]%hm_insert_Ok Hwf']. split; [done|]. intros k'.
  rewrite hamt_lookup_look, Hm by done. f_equal.
  apply (hm_set_lookup _ _ (Some v)).
Qed.

(** [Hamt::update], [insert_or_update] and [insert_or_update_simple]
    compute the map update through the callback: an unbound key is an error
    (or inserted), a failing callback's error is passed on, and [None] from
    the callback removes the key. *)
Theorem hamt_update_refines {U} t k v (f : V → outcome U (option V)) (g : V → option V) :
  hamt_wf t →
  refines t k (hamt_update hash t k f) (hm_update (to_map t) k f) ∧
  refines t k (hamt_insert_or_update hash t k v f)
    (hm_insert_or_update (to_map t) k v f) ∧
  refines t k (hamt_insert_or_update_simple hash t k v g)
    (Ok (hm_insert_or_update_simple (to_map t) k v g)).
Proof using hash_u64.
  intros Hwf. pose proof (hamt_insert_spec t k v Hwf) as Hi.
  unfold hm_insert in Hi. split_and!; [by apply hamt_update_spec|..].
  - pose proof (hamt_update_spec t k f Hwf) as Hu. unfold hamt_insert_or_update.
    unfold hm_update in Hu. unfold hm_insert_or_update.
    destruct (to_map t !! k) as [v0|].
    + destruct (f v0) as [ov|e'|].
      * apply refines_Ok in Hu as [(t' & -> & Hm & Hw)|[-> ?]]; [|by right].
        cbn. by rewrite Hm.
      * apply refines_Err in Hu as [-> |[-> ?]]; [done|by right].
      * rewrite (refines_Panic _ _ _ Hu). by left.
    + apply refines_Err in Hu as [-> |[-> ?]]; [by apply refines_unwrap|by right].
  - pose proof (hamt_update_spec t k (λ x, Ok (E := infallible) (g x)) Hwf) as Hu.
    unfold hamt_insert_or_update_simple. unfold hm_update in Hu.
    unfold hm_insert_or_update_simple.
    destruct (to_map t !! k) as [v0|].
    + apply refines_Ok in Hu as [(t' & -> & Hm & Hw)|[-> ?]]; [|by right].
        cbn. by rewrite Hm.
    + apply refines_Err in Hu as [-> |[-> ?]]; [by apply refines_unwrap|by right].
Qed.

(** [Hamt::remove] and [Hamt::remove_match] compute the map deletion,
    with their errors: the key must be bound, and for [remove_match] to the
    given value. *)
Theorem hamt_remove_refines `{EqDecision V} t k v :
  hamt_wf t →
  refines t k (hamt_remove hash t k) (hm_remove (to_map t) k) ∧
  refines t k (hamt_remove_match hash t k v) (hm_remove_match (to_map t) k v).
Proof.
  intros Hwf. split.
  - unfold hamt_remove. rewrite remove_rec_update, map_err_fmap.
    replace (hm_remove (to_map t) k) with
      (map_err to_remove (hm_update (to_map t) k cb_remove)).
    + apply refines_map_err. apply (hamt_update_spec t k cb_remove Hwf).
    + unfold hm_update, hm_remove. by destruct (to_map t !! k).
  - unfold hamt_remove_match. rewrite remove_eq_rec_update, map_err_fmap.
    replace (hm_remove_match (to_map t) k v) with
      (map_err to_remove (hm_update (to_map t) k (cb_remove_match v))).
    + apply refines_map_err.
      pose proof (hamt_update_spec t k (cb_remove_match v) Hwf) as Hu.
      unfold hamt_update in Hu. exact Hu.
    + unfold hm_update, hm_remove_match, cb_remove_match.
      destruct (to_map t !! k); [|done]. cbn. by case_decide.
Qed.

Lemma replace_rec_old fuel path n k v n' old :
  wf_node hash path n → 13 ≤ fuel + length path → agree path (hash k) →
  replace_rec fuel n (hash k) (length path) k v = Ok (n', old) →
  look fuel n (hash k) (length path) k = Some old.
Proof.
  revert path n n'. induction fuel as [|fuel IH]; intros path n n' Hwf Hf Hag; [done|].
  set (i := level_index (hash k) (length path)).
  cbn [replace_rec]. fold i.
  pose proof (find_child hash fuel path n k Hwf) as Hfind. cbv zeta in Hfind. fold i in Hfind.
  destruct Hfind as [(Hc & -> & ->)|(c & Hc & Hidx & -> & Hget & Hce & ->)]; [done|].
  rewrite Hget. cbn [mbind outcome_bind]. destruct c as [lh lk lv|lh col|sub].
  - cbn. case_decide; [|done]. intros (r & _ & [= _ <-])%bind_Ok. done.
  - cbn. case_decide as Hne.
    + by rewrite (proj2 (Z.eqb_neq _ _)) by done.
    + intros (_ & _ & ([col' old'] & Hrep & (r & _ & [= _ <-])%bind_Ok)%bind_Ok)%bind_Ok.
      unfold collision_replace in Hrep. unfold assoc, get_record_and_pos in *.
      destruct (list_find _ col) as [[pos kv]|]; [|done]. cbn in *.
      apply bind_Ok in Hrep as (? & _ & Hrep). apply bind_Ok in Hrep as (? & _ & Hrep).
      by injection Hrep as _ ->.
  - inversion_clear Hce as [| |? ? Hsub Hbsub].
    intros ([newsub oldv] & Hrep & (r & _ & [= _ <-])%bind_Ok)%bind_Ok.
    cbn. specialize (IH (path ++ [i]) sub newsub Hsub).
    rewrite length_app in IH. cbn in IH. apply IH; [lia|by apply agree_app|done].
Qed.

(** [Hamt::replace_with] and [Hamt::replace] change the value of a bound
    key, and only that; [replace] also returns the old value. *)
Theorem hamt_replace_refines t k v (f : V → V) :
  hamt_wf t →
  refines t k (hamt_replace_with hash t k f) (hm_replace_with (to_map t) k f) ∧
  refines t k (fst <$> hamt_replace hash t k v) (fst <$> hm_replace (to_map t) k v) ∧
  (∀ t' old, hamt_replace hash t k v = Ok (t', old) → to_map t !! k = Some old).
Proof.
  intros Hwf.
  assert (∀ g, refines t k (hamt_replace_with hash t k g) (hm_replace_with (to_map t) k g))
    as Hw.
  { intros g. pose proof (hamt_update_spec t k (cb_replace g) Hwf) as Hu.
    apply (refines_map_err _ _ to_replace) in Hu.
    unfold hamt_update in Hu. rewrite <-map_err_fmap, <-replace_with_rec_update in Hu.
    replace (map_err to_replace (hm_update (to_map t) k (cb_replace g)))
      with (hm_replace_with (to_map t) k g) in Hu
      by (unfold hm_update, hm_replace_with; by destruct (to_map t !! k)).
    unfold hamt_replace_with. by destruct (replace_with_rec _ _ _ _ _ _). }
  split_and!; [done| |].
  - specialize (Hw (λ _, v)). unfold hamt_replace_with in Hw.
    rewrite <-replace_rec_fst in Hw. unfold hamt_replace.
    replace (fst <$> hm_replace (to_map t) k v)
      with (hm_replace_with (to_map t) k (λ _, v))
      by (unfold hm_replace, hm_replace_with; by destruct (to_map t !! k)).
    by destruct (replace_rec _ _ _ _ _ _) as [[? ?]|?|].
  - intros t' old. unfold hamt_replace. intros ([n' old'] & Hr & [= _ <-])%bind_Ok.
    rewrite to_map_look by done.
    by apply (replace_rec_old FUEL [] (root t) k v n' old' Hwf ltac:(cbn; lia) (agree_nil _)).
Qed.

(** C28. The iterator of a well-formed trie terminates and enumerates the map:
    it yields every binding once, and [size] is the number of bindings. *)
Theorem hamt_iter_enumerates t fuel :
  hamt_wf t → cost (root t) < fuel →
  ∃ items, iter_collect fuel (hamt_iter t) = Some items ∧
    NoDup items.*1 ∧ list_to_map items = to_map t ∧
    length items = hamt_size t ∧ hamt_size t = size (to_map t).
Proof.
  intros Hwf Hf. exists (elems (root t)).
  destruct (elems_look hash FUEL [] (root t) Hwf) as [_ Hnd]; [cbn; lia|].
  rewrite iter_collect_pending, iter_pending_start by (rewrite iter_cost_start; lia).
  unfold hamt_size. rewrite size_rec_elems. split_and!; [done..|].
  rewrite <-length_map_to_list. unfold to_map. by rewrite (map_to_list_to_map _ Hnd).
Qed.

(** ** Equality *)
Lemma hamt_is_empty_map t : hamt_wf t → hamt_is_empty t = bool_decide (to_map t = ∅).
Proof.
  intros Hwf. destruct (elems_look hash FUEL [] (root t) Hwf) as [Hin Hnd]; [cbn; lia|].
  unfold hamt_is_empty, node_is_empty, bitmap_is_empty.
  destruct (Z.eqb_spec (bitmap (root t)) 0) as [Hb|Hb]; symmetry.
  - apply bool_decide_eq_true. apply map_eq. intros k. rewrite to_map_look, lookup_empty by done.
    change FUEL with (S 13). rewrite look_S. unfold child, packed. rewrite Hb. unfold bit.
    by rewrite Z.testbit_0_l.
  - apply bool_decide_eq_false. intros He.
    apply (nonempty_elems hash FUEL [] (root t) Hwf ltac:(cbn; lia) Hb).
    apply (f_equal (length ∘ map_to_list)) in He. cbn in He.
    unfold to_map in He. rewrite (map_to_list_to_map _ Hnd), map_to_list_empty in He.
    by apply nil_length_inv.
Qed.

Lemma eq_items_spec `{EqDecision V} l t :
  hamt_wf t →
  eq_items hash l t = Ok (bool_decide (Forall (λ kv, to_map t !! kv.1 = Some kv.2) l)).
Proof.
  intros Hwf. induction l as [|[k v] l IH].
  { rewrite bool_decide_true; [done|constructor]. }
  cbn [eq_items]. rewrite hamt_lookup_look by done. cbn [mbind outcome_bind].
  destruct (to_map t !! k) as [v2|] eqn:Hk.
  - destruct (decide (v = v2)) as [->|Hne].
    + rewrite (decide_False (P := v2 ≠ v2)) by (intros Hn; by apply Hn).
      rewrite IH. f_equal. apply bool_decide_ext. rewrite Forall_cons. cbn. naive_solver.
    + rewrite decide_True by done. rewrite bool_decide_false; [done|].
      rewrite Forall_cons. cbn. intros [[=] _]. congruence.
  - rewrite bool_decide_false; [done|]. rewrite Forall_cons. cbn. intros [[=] _].
    congruence.
Qed.

(** [PartialEq::eq] of [Hamt] decides inclusion, not equality: on two
    well-formed tries it returns [true] exactly when both or neither are
    empty and every binding of [self] is a binding of [other]. *)
Theorem hamt_eq_is_inclusion `{EqDecision V} fuel t other :
  hamt_wf t → hamt_wf other → cost (root t) < fuel →
  ∃ b, hamt_eq hash fuel t other = Ok b ∧
    (b = true ↔ to_map t ⊆ to_map other ∧ (to_map t = ∅ ↔ to_map other = ∅)).
Proof.
  intros Hwf Hwo Hf. unfold hamt_eq. rewrite !hamt_is_empty_map by done.
  destruct (elems_look hash FUEL [] (root t) Hwf) as [_ Hnd]; [cbn; lia|].
  rewrite iter_collect_pending, iter_pending_start by (rewrite iter_cost_start; lia).
  rewrite eq_items_spec by done.
  assert (Forall (λ kv, to_map other !! kv.1 = Some kv.2) (elems (root t)) ↔
    to_map t ⊆ to_map other) as Hsub.
  { rewrite map_subseteq_spec, Forall_forall. unfold to_map at 2. split.
    - intros Hall k v Hk. apply elem_of_list_to_map in Hk; [|done]. apply (Hall _ Hk).
    - intros Hall [k v] Hk. apply Hall. by apply elem_of_list_to_map. }
  destruct (decide (to_map t = ∅)) as [He|He], (decide (to_map other = ∅)) as [Ho|Ho].
  - rewrite !bool_decide_true by done. cbn. exists true. split; [done|].
    split; [|done]. intros _. by rewrite He, Ho.
  - rewrite bool_decide_true, bool_decide_false by done. cbn. exists false.
    split; [done|]. split; [done|]. intros [_ Hiff]. tauto.
  - rewrite bool_decide_false, bool_decide_true by done. cbn. exists false.
    split; [done|]. split; [done|]. intros [_ Hiff]. tauto.
  - rewrite !(bool_decide_false (_ = ∅)) by done. cbn. eexists. split; [done|].
    rewrite bool_decide_eq_true, Hsub. tauto.
Qed.
End refine.

(** One turn of [insert_rec] in the three situations of the next theorem. *)
Section insert_turn.
Context {K V : Type} `{EqDecision K}.
Implicit Types (n : node K V) (k : K) (v : V).

Lemma insert_turn_free fuel n h lvl k v :
  shape n → child n (level_index h lvl) = None →
  insert_rec (S fuel) n h lvl k v = set_at n (level_index h lvl) (Leaf h k v).
Proof.
  intros Hs Hc. cbn [insert_rec].
  by rewrite (index_none n _ Hs (level_index_lt _ _) Hc).
Qed.

Lemma insert_turn_same fuel n h lvl k v k0 v0 :
  child n (level_index h lvl) = Some (Leaf h k0 v0) → k0 ≠ k →
  insert_rec (S fuel) n h lvl k v =
  replace_at n (popcount (level_index h lvl) (bitmap n)) (LeafMany h [(k0, v0); (k, v)]).
Proof.
  intros Hc Hne. pose proof (level_index_lt h lvl) as Hi. cbn [insert_rec].
  rewrite (index_some n _ _ Hi Hc), not_found_rank, (get_child_some n _ _ Hi Hc) by done.
  cbn [mbind outcome_bind]. rewrite decide_True, decide_False by done.
  unfold collision_from_vec. by rewrite bool_decide_true by (cbn; lia).
Qed.

Lemma insert_turn_collision fuel n h lvl k v h0 col :
  child n (level_index h lvl) = Some (LeafMany h0 col) → h0 ≠ h →
  insert_rec (S fuel) n h lvl k v = Panic.
Proof.
  intros Hc Hne. pose proof (level_index_lt h lvl) as Hi. cbn [insert_rec].
  rewrite (index_some n _ _ Hi Hc), not_found_rank, (get_child_some n _ _ Hi Hc) by done.
  cbn [mbind outcome_bind]. by rewrite (proj2 (Z.eqb_neq _ _)) by done.
Qed.
End insert_turn.

(** A collision makes [insert] panic: when two keys share a full hash, a
    third key whose hash differs but takes the same branch at the root hits
    the [assert_eq!] of [insert_rec]. *)
Theorem hamt_insert_collision_panics {K V} `{Countable K} (hash : K → Z)
    (k1 k2 k3 : K) (v1 v2 v3 : V) :
  (∀ k, in_u 64 (hash k)) → k1 ≠ k2 → hash k1 = hash k2 → hash k3 ≠ hash k1 →
  level_index (hash k3) 0 = level_index (hash k1) 0 →
  (t1 ← hamt_insert hash hamt_new k1 v1;
   t2 ← hamt_insert hash t1 k2 v2;
   hamt_insert hash t2 k3 v3) = Panic.
Proof.
  intros Hu Hne Heq Hne3 Hidx. unfold hamt_insert.
  set (i := level_index (hash k1) 0) in *. cbn [root hamt_new].
  assert (i < 32) as Hi by apply level_index_lt.
  destruct (set_at_spec (E := InsertError) (node_new (K := K) (V := V)) i (Leaf (hash k1) k1 v1)
    node_new_shape Hi (child_new i)) as (n1 & Hn1 & Hs1 & _ & Hc1).
  change FUEL with (S 13).
  rewrite (insert_turn_free 13 _ (hash k1) 0 k1 v1 node_new_shape (child_new _)).
  fold i. rewrite Hn1. cbn [fmap outcome_fmap mbind outcome_bind root].
  assert (child n1 i = Some (Leaf (hash k1) k1 v1)) as Hci
    by (rewrite Hc1 by done; by rewrite decide_True).
  destruct (replace_at_spec (E := InsertError) n1 i (LeafMany (hash k1) [(k1, v1); (k2, v2)])
    _ Hs1 Hi Hci) as (n2 & Hn2 & Hs2 & _ & Hc2).
  rewrite <-Heq, (insert_turn_same 13 n1 (hash k1) 0 k2 v2 k1 v1 Hci Hne).
  fold i. rewrite Hn2. cbn [fmap outcome_fmap mbind outcome_bind root].
  rewrite (insert_turn_collision 13 n2 (hash k3) 0 k3 v3 (hash k1) [(k1, v1); (k2, v2)]).
  - done.
  - rewrite Hidx, Hc2 by done. by rewrite decide_True.
  - done.
Qed.

(** ** A concrete trie: keys 1 and 33 share the branch 1 of the root *)
Definition demo_hash (k : Z) : Z := wrap 64 k.

Definition demo : Hamt Z nat :=
  match (t1 ← hamt_insert demo_hash hamt_new 1%Z 10;
         t2 ← hamt_insert demo_hash t1 33%Z 20;
         hamt_insert demo_hash t2 7%Z 30)
  with Ok t => t | _ => hamt_new end.

Lemma demo_hash_u64 k : in_u 64 (demo_hash k).
Proof. apply wrap_in_u. lia. Qed.

Lemma insert_keeps_wf {K V} `{Countable K} (hash : K → Z) (t t' : Hamt K V) k v :
  (∀ k, in_u 64 (hash k)) → hamt_wf hash t → hamt_insert hash t k v = Ok t' → hamt_wf hash t'.
Proof.
  intros Hu Hwf Ht. pose proof (hamt_insert_spec hash Hu t k v Hwf) as Hr.
  rewrite Ht in Hr. apply Hr.
Qed.

Lemma demo_wf : hamt_wf demo_hash demo.
Proof.
  unfold demo.
  destruct (hamt_insert demo_hash hamt_new 1%Z 10) as [t1|e|] eqn:H1; cbn [mbind outcome_bind];
    [|apply hamt_new_wf..].
  assert (hamt_wf demo_hash t1) as Hw1
    by (eapply insert_keeps_wf; [apply demo_hash_u64|apply hamt_new_wf|exact H1]).
  destruct (hamt_insert demo_hash t1 33%Z 20) as [t2|e|] eqn:H2; cbn [mbind outcome_bind];
    [|apply hamt_new_wf..].
  assert (hamt_wf demo_hash t2) as Hw2
    by (eapply insert_keeps_wf; [apply demo_hash_u64|exact Hw1|exact H2]).
  destruct (hamt_insert demo_hash t2 7%Z 30) as [t3|e|] eqn:H3; [|apply hamt_new_wf..].
  eapply insert_keeps_wf; [apply demo_hash_u64|exact Hw2|exact H3].
Qed.

Example demo_lookups :
  (hamt_lookup (E := infallible) demo_hash demo 33%Z, hamt_size demo) = (Ok (Some 20), 3).
Proof. vm_compute. reflexivity. Qed.

Lemma hamt_insert_lookup_refines_witness :
  hamt_wf demo_hash demo ∧
  refines demo_hash demo 65%Z (hamt_insert demo_hash demo 65%Z 40)
    (hm_insert (to_map demo) 65%Z 40).
Proof.
  split; [exact demo_wf|].
  exact (proj1 (hamt_insert_lookup_refines demo_hash demo_hash_u64 demo 65%Z 40 demo_wf)).
Defined.

Lemma hamt_update_refines_witness :
  hamt_wf demo_hash demo ∧
  refines demo_hash demo 33%Z
    (hamt_update demo_hash demo 33%Z (λ v, Ok (E := infallible) (Some (S v))))
    (hm_update (to_map demo) 33%Z (λ v, Ok (Some (S v)))).
Proof.
  split; [exact demo_wf|].
  exact (proj1 (hamt_update_refines demo_hash demo_hash_u64 demo 33%Z 0
    (λ v, Ok (Some (S v))) (λ _, None) demo_wf)).
Defined.

Lemma hamt_remove_refines_witness :
  hamt_wf demo_hash demo ∧
  refines demo_hash demo 7%Z (hamt_remove demo_hash demo 7%Z) (hm_remove (to_map demo) 7%Z).
Proof.
  split; [exact demo_wf|].
  exact (proj1 (hamt_remove_refines demo_hash demo 7%Z 0 demo_wf)).
Defined.

Lemma hamt_replace_refines_witness :
  hamt_wf demo_hash demo ∧
  refines demo_hash demo 7%Z (hamt_replace_with demo_hash demo 7%Z S)
    (hm_replace_with (to_map demo) 7%Z S).
Proof.
  split; [exact demo_wf|].
  exact (proj1 (hamt_replace_refines demo_hash demo 7%Z 0 S demo_wf)).
Defined.

Lemma hamt_iter_enumerates_witness :
  hamt_wf demo_hash demo ∧ cost (root demo) < 20 ∧
  ∃ items, iter_collect 20 (hamt_iter demo) = Some items ∧
    NoDup items.*1 ∧ list_to_map items = to_map demo ∧
    length items = hamt_size demo ∧ hamt_size demo = size (to_map demo).
Proof.
  assert (cost (root demo) < 20) as Hc by (apply Nat.ltb_lt; vm_compute; reflexivity).
  split; [exact demo_wf|]. split; [exact Hc|].
  exact (hamt_iter_enumerates demo_hash demo 20 demo_wf Hc).
Defined.

(** The empty bindings aside, [demo] minus a key is "equal" to [demo], and not
    the other way round. *)
Lemma hamt_eq_is_inclusion_witness :
  ∃ t, hamt_remove demo_hash demo 7%Z = Ok t ∧
    hamt_eq demo_hash 20 t demo = Ok true ∧ hamt_eq demo_hash 20 demo t = Ok false ∧
    ∃ b, hamt_eq demo_hash 20 demo demo = Ok b ∧
      (b = true ↔ to_map demo ⊆ to_map demo ∧ (to_map demo = ∅ ↔ to_map demo = ∅)).
Proof.
  destruct (hamt_remove demo_hash demo 7%Z) as [t|e|] eqn:Ht;
    [exists t|vm_compute in Ht; discriminate Ht..].
  assert (cost (root demo) < 20) as Hc by (apply Nat.ltb_lt; vm_compute; reflexivity).
  split; [reflexivity|].
  split; [vm_compute in Ht; injection Ht as <-; vm_compute; reflexivity|].
  split; [vm_compute in Ht; injection Ht as <-; vm_compute; reflexivity|].
  exact (hamt_eq_is_inclusion demo_hash 20 demo demo demo_wf demo_wf Hc).
Defined.

(** A hash of two buckets that collides on 0 and 2. *)
Definition clash (k : Z) : Z := if decide (k = 1%Z) then 32%Z else 0%Z.

Lemma hamt_insert_collision_panics_witness :
  (t1 ← hamt_insert clash hamt_new 0%Z 10;
   t2 ← hamt_insert clash t1 2%Z 20;
   hamt_insert clash t2 1%Z 30) = Panic.
Proof.
  apply (hamt_insert_collision_panics clash 0%Z 2%Z 1%Z 10 20 30).
  - intros k. unfold clash, in_u. destruct (decide (k = 1%Z)); lia.
  - lia.
  - reflexivity.
  - vm_compute. discriminate.
  - vm_compute. reflexivity.
Defined.
