(* ===== verification/SparseArray.v ===== *)
(** * Sparse arrays ([sparse-array/src])

    [BitmapIndex] is a pair of [u128]; an index is a [u8], here a [nat] below
    256.  [SparseArray] stores one element per set index; [FastSparseArray]
    puts a second bitmap in front of it, so that [remove] only clears a bit.
    The theorems say that both are tables of 256 optional cells. *)
From S2P Require Import Prelude Bitmap.
Local Open Scope nat_scope.

(** ** [bitmap.rs] *)
Record BitmapIndex := mkBix { bix0 : Z; bix1 : Z }.

Definition bix_new : BitmapIndex := mkBix 0 0.

Definition get_mask_and_part (idx : nat) : Z * nat :=
  (wrap 128 (Z.shiftl 1 (Z.of_nat (idx mod 128))), idx / 128).

Definition bix_get_index (b : BitmapIndex) (idx : nat) : bool :=
  let '(m, part) := get_mask_and_part idx in
  if part =? 0 then negb (Z.land (bix0 b) m =? 0)%Z
  else negb (Z.land (bix1 b) m =? 0)%Z.

Definition bix_set_index (b : BitmapIndex) (idx : nat) : BitmapIndex :=
  let '(m, part) := get_mask_and_part idx in
  if part =? 0 then mkBix (Z.lor (bix0 b) m) (bix1 b)
  else mkBix (bix0 b) (Z.lor (bix1 b) m).

(** [!x] on [u128]. *)
Definition not128 (x : Z) : Z := (u128_max - x)%Z.

Definition bix_remove_index (b : BitmapIndex) (idx : nat) : BitmapIndex :=
  let '(m, part) := get_mask_and_part idx in
  if part =? 0 then mkBix (Z.land (bix0 b) (not128 m)) (bix1 b)
  else mkBix (bix0 b) (Z.land (bix1 b) (not128 m)).

(** [u128::count_ones]. *)
Definition count_ones128 (x : Z) : nat := popcount 128 x.

Definition bix_get_real_index (b : BitmapIndex) (idx : nat) : option nat :=
  if negb (bix_get_index b idx) then None
  else
    let '(m, part) := get_mask_and_part idx in
    let m := wrap 128 (m - 1) in
    if part =? 0 then Some (count_ones128 (Z.land (bix0 b) m) mod 256)
    else Some ((count_ones128 (bix0 b) + count_ones128 (Z.land (bix1 b) m)) mod 256).

Definition bix_is_empty (b : BitmapIndex) : bool := (bix0 b =? 0)%Z && (bix1 b =? 0)%Z.

(** [u128::trailing_zeros]: 128 on zero. *)
Definition trailing_zeros128 (x : Z) : nat :=
  match list_find (λ i, bit x i = true) (seq 0 128) with
  | Some (_, i) => i
  | None => 128
  end.

Definition bix_get_first_index (b : BitmapIndex) : option nat :=
  let trailing_zeros0 := trailing_zeros128 (bix0 b) in
  let trailing_zeros1 := trailing_zeros128 (bix1 b) in
  if decide (trailing_zeros0 < 128) then Some trailing_zeros0
  else if decide (trailing_zeros1 < 128) then Some (128 + trailing_zeros1)
  else None.

(** ** [sparse_array.rs] *)
Record SparseArray (V : Type) := mkSa { sa_index : BitmapIndex; sa_data : list V }.
Arguments mkSa {V} sa_index sa_data.
Arguments sa_index {V} s.
Arguments sa_data {V} s.

(** ** [fast.rs] *)
Record FastSparseArray (V : Type) := mkFsa { fsa_index : BitmapIndex; fsa_data : SparseArray V }.
Arguments mkFsa {V} fsa_index fsa_data.
Arguments fsa_index {V} f.
Arguments fsa_data {V} f.

Section arrays.
Context {V : Type}.
Implicit Types (s : SparseArray V) (f : FastSparseArray V) (v : V).

Definition sa_new : SparseArray V := mkSa bix_new [].

Definition sa_get {E} s (idx : nat) : outcome E (option V) :=
  match bix_get_real_index (sa_index s) idx with
  | None => Ok None
  | Some idx_real => Some <$> unwrap_opt (sa_data s !! idx_real)
  end.

(** [Vec::insert] panics beyond the length, [data[i] = v] at it. *)
Definition vec_insert {E A} (l : list A) (i : nat) (a : A) : outcome E (list A) :=
  if decide (i ≤ length l) then Ok (take i l ++ a :: drop i l) else Panic.
Definition vec_set {E A} (l : list A) (i : nat) (a : A) : outcome E (list A) :=
  if decide (i < length l) then Ok (<[i:=a]> l) else Panic.

Definition sa_set {E} s (idx : nat) v : outcome E (SparseArray V) :=
  match bix_get_real_index (sa_index s) idx with
  | Some idx_real =>
      d ← vec_set (sa_data s) idx_real v; Ok (mkSa (sa_index s) d)
  | None =>
      let index := bix_set_index (sa_index s) idx in
      idx_real ← unwrap_opt (bix_get_real_index index idx);
      data ← vec_insert (sa_data s) idx_real v;
      Ok (mkSa index data)
  end.

Definition sa_remove {E} s (idx : nat) : outcome E (SparseArray V * option V) :=
  '(data, v) ← match bix_get_real_index (sa_index s) idx with
               | None => Ok (sa_data s, None)
               | Some idx_real =>
                   x ← unwrap_opt (sa_data s !! idx_real);
                   Ok (delete idx_real (sa_data s), Some x)
               end;
  let index := bix_remove_index (sa_index s) idx in
  Ok (mkSa index data, v).

Definition sa_is_empty s : bool := bix_is_empty (sa_index s).
Definition sa_contains_key s (idx : nat) : bool := bix_get_index (sa_index s) idx.

(** [SparseArrayBuilder] has the same fields; [set] is the same insertion
    and [build] only moves them, so a builder is a [SparseArray] here. *)
Definition sab_set {E} s (idx : nat) v : outcome E (SparseArray V) :=
  match bix_get_real_index (sa_index s) idx with
  | Some idx_real => d ← vec_set (sa_data s) idx_real v; Ok (mkSa (sa_index s) d)
  | None =>
      let index := bix_set_index (sa_index s) idx in
      idx_real ← unwrap_opt (bix_get_real_index index idx);
      data ← vec_insert (sa_data s) idx_real v;
      Ok (mkSa index data)
  end.

Definition fsa_new : FastSparseArray V := mkFsa bix_new sa_new.

Definition fsa_get {E} f (idx : nat) : outcome E (option V) :=
  if negb (bix_get_index (fsa_index f) idx) then Ok None else sa_get (fsa_data f) idx.

Definition fsa_set {E} f (idx : nat) v : outcome E (FastSparseArray V) :=
  data ← sa_set (fsa_data f) idx v;
  Ok (mkFsa (bix_set_index (fsa_index f) idx) data).

Definition fsa_remove {E} f (idx : nat) : outcome E (FastSparseArray V * option V) :=
  if bix_get_index (fsa_index f) idx then
    let f' := mkFsa (bix_remove_index (fsa_index f) idx) (fsa_data f) in
    o ← sa_get (fsa_data f) idx; Ok (f', o)
  else Ok (f, None).

Definition fsa_is_empty f : bool := bix_is_empty (fsa_index f).
Definition fsa_contains_key f (idx : nat) : bool := bix_get_index (fsa_index f) idx.

(** [FastSparseArrayBuilder::set]. *)
Definition fsab_set {E} f (idx : nat) v : outcome E (FastSparseArray V) :=
  d ← sab_set (fsa_data f) idx v;
  Ok (mkFsa (bix_set_index (fsa_index f) idx) d).

(** [FastSparseArrayIter]: the bits still to visit, on an array that does
    not change. *)
Definition fsa_iter_next {E} f (bitmap : BitmapIndex) :
    outcome E (option ((nat * V) * BitmapIndex)) :=
  match bix_get_first_index bitmap with
  | Some idx =>
      let bitmap := bix_remove_index bitmap idx in
      o ← fsa_get f idx;
      match o with
      | Some item => Ok (Some ((idx, item), bitmap))
      | None => Panic
      end
  | None => Ok None
  end.

(** All the items; a [u8] bitmap holds at most 256 of them, and running out
    of fuel is a [Panic]. *)
Fixpoint fsa_collect {E} (fuel : nat) f (bitmap : BitmapIndex) : outcome E (list (nat * V)) :=
  match fuel with O => Panic | S fuel =>
  o ← fsa_iter_next f bitmap;
  match o with
  | None => Ok []
  | Some (x, bitmap) => cons x <$> fsa_collect fuel f bitmap
  end
  end.
Definition fsa_items {E} f : outcome E (list (nat * V)) := fsa_collect 257 f (fsa_index f).

Definition fsa_shrink {E} f : outcome E (FastSparseArray V) :=
  items ← fsa_items f;
  new_sparse_array ← foldM (λ s kv, sab_set s kv.1 kv.2) sa_new items;
  Ok (mkFsa (fsa_index f) new_sparse_array).
End arrays.

(** ** The bits of an index *)
Definition bix_ok (b : BitmapIndex) : Prop := in_u 128 (bix0 b) ∧ in_u 128 (bix1 b).
Definition bix_bit (b : BitmapIndex) (i : nat) : bool :=
  if decide (i < 128) then bit (bix0 b) i else bit (bix1 b) (i - 128).

Section bits.
Implicit Types (b : BitmapIndex).

Lemma mask128_pow i : i < 128 → wrap 128 (Z.shiftl 1 (Z.of_nat i)) = (2 ^ Z.of_nat i)%Z.
Proof.
  intros Hi. rewrite Z.shiftl_mul_pow2, Z.mul_1_l by lia. apply wrap_small.
  split; [lia|]. apply Z.pow_lt_mono_r; lia.
Qed.

Lemma land_pow_zero x i : (Z.land x (2 ^ Z.of_nat i) =? 0)%Z = negb (bit x i).
Proof.
  destruct (bit x i) eqn:Hx; cbn.
  - apply Z.eqb_neq. intros H0. apply (f_equal (λ z, Z.testbit z (Z.of_nat i))) in H0.
    rewrite Z.land_spec, Z.testbit_0_l, Z.pow2_bits_true in H0 by lia.
    unfold bit in Hx. by rewrite Hx in H0.
  - apply Z.eqb_eq. apply Z.bits_inj_iff'. intros n Hn.
    rewrite Z.land_spec, Z.testbit_0_l, Z.pow2_bits_eqb by lia.
    destruct (Z.eqb_spec (Z.of_nat i) n) as [<-|]; [|apply andb_false_r].
    unfold bit in Hx. by rewrite Hx.
Qed.

Lemma bit_lor_pow x i j : bit (Z.lor x (2 ^ Z.of_nat i)) j = bit x j || bool_decide (j = i).
Proof.
  unfold bit. rewrite Z.lor_spec, Z.pow2_bits_eqb by lia. f_equal.
  case_bool_decide; [apply Z.eqb_eq; lia|apply Z.eqb_neq; lia].
Qed.

Lemma bit_land_not x i j :
  i < 128 → j < 128 →
  bit (Z.land x (not128 (2 ^ Z.of_nat i))) j = bit x j && negb (bool_decide (j = i)).
Proof.
  intros Hi Hj. unfold bit, not128, u128_max. rewrite Z.land_spec. f_equal.
  change (2 ^ 128 - 1)%Z with (Z.ones 128). rewrite Z.sub_nocarry_ldiff.
  - rewrite Z.ldiff_spec, Z.ones_spec_low, Z.pow2_bits_eqb by lia. cbn. f_equal.
    case_bool_decide; [apply Z.eqb_eq; lia|apply Z.eqb_neq; lia].
  - apply Z.ldiff_ones_r_low; [lia|]. rewrite Z.log2_pow2; lia.
Qed.

Lemma lor_in_u w x y : (0 ≤ w)%Z → in_u w x → in_u w y → in_u w (Z.lor x y).
Proof.
  intros Hw Hx Hy. split; [apply Z.lor_nonneg; unfold in_u in *; lia|].
  destruct (decide (Z.lor x y = 0)%Z) as [->|]; [lia|].
  assert (∀ z, in_u w z → (Z.log2 z < w)%Z ∨ z = 0%Z) as Hl.
  { intros z Hz. destruct (decide (z = 0)%Z); [by right|left].
    apply Z.log2_lt_pow2; unfold in_u in *; lia. }
  apply Z.log2_lt_pow2.
  - assert (0 ≤ Z.lor x y)%Z; [|lia]. apply Z.lor_nonneg. unfold in_u in *. lia.
  - rewrite Z.log2_lor by (unfold in_u in *; lia).
    destruct (decide (w = 0)%Z) as [->|].
    { unfold in_u in *. assert (x = 0 ∧ y = 0)%Z as [-> ->] by lia. done. }
    destruct (Hl x Hx) as [?| ->], (Hl y Hy) as [?| ->]; cbn; lia.
Qed.

Lemma land_in_u w x y : in_u w x → in_u w (Z.land x y).
Proof.
  intros Hx. split; [apply Z.land_nonneg; left; apply Hx|].
  eapply Z.le_lt_trans; [|apply Hx].
  apply Z.ldiff_le; [apply Hx|]. apply Z.bits_inj_iff'. intros n Hn.
  rewrite Z.ldiff_spec, !Z.land_spec, Z.testbit_0_l.
  by destruct (Z.testbit x n), (Z.testbit y n).
Qed.

Lemma mask_part i :
  i < 256 → get_mask_and_part i =
    if decide (i < 128) then ((2 ^ Z.of_nat i)%Z, 0) else ((2 ^ Z.of_nat (i - 128))%Z, 1).
Proof.
  intros Hi. unfold get_mask_and_part. case_decide as Hd.
  - by rewrite Nat.mod_small, mask128_pow, Nat.div_small by done.
  - replace i with (i - 128 + 1 * 128) at 1 2 by lia.
    rewrite Nat.Div0.mod_add, Nat.mod_small, mask128_pow, Nat.div_add, Nat.div_small by lia.
    done.
Qed.

Lemma bix_get_index_bit b i : i < 256 → bix_get_index b i = bix_bit b i.
Proof.
  intros Hi. unfold bix_get_index, bix_bit. rewrite mask_part by done.
  case_decide; cbn; by rewrite land_pow_zero, negb_involutive.
Qed.

Lemma bix_bit_set b i j :
  i < 256 → j < 256 → bix_bit (bix_set_index b i) j = bix_bit b j || bool_decide (j = i).
Proof.
  intros Hi Hj. unfold bix_set_index, bix_bit. rewrite mask_part by done.
  destruct (decide (i < 128)), (decide (j < 128)); cbn; rewrite ?bit_lor_pow;
    rewrite ?(bool_decide_false (j = i)) by lia; rewrite ?orb_false_r; try done.
  f_equal. apply bool_decide_ext. lia.
Qed.

Lemma bix_bit_remove b i j :
  i < 256 → j < 256 →
  bix_bit (bix_remove_index b i) j = bix_bit b j && negb (bool_decide (j = i)).
Proof.
  intros Hi Hj. unfold bix_remove_index, bix_bit. rewrite mask_part by done.
  destruct (decide (i < 128)), (decide (j < 128)); cbn; rewrite ?bit_land_not by lia;
    rewrite ?(bool_decide_false (j = i)) by lia; cbn; rewrite ?andb_true_r; try done.
  do 2 f_equal. apply bool_decide_ext. lia.
Qed.

Lemma bix_set_ok b i : i < 256 → bix_ok b → bix_ok (bix_set_index b i).
Proof.
  intros Hi [H0 H1]. unfold bix_set_index. rewrite mask_part by done.
  assert (∀ k, k < 128 → in_u 128 (2 ^ Z.of_nat k)) as Hp.
  { intros k Hk. split; [lia|]. apply Z.pow_lt_mono_r; lia. }
  destruct (decide (i < 128)); cbn; split; cbn; try done; apply lor_in_u; try done; apply Hp; lia.
Qed.

Lemma bix_remove_ok b i : bix_ok b → bix_ok (bix_remove_index b i).
Proof.
  intros [H0 H1]. unfold bix_remove_index. destruct (get_mask_and_part i) as [m part].
  destruct (part =? 0); split; cbn; try done; by apply land_in_u.
Qed.

Lemma popcount_land_pred n i x :
  i < 128 → popcount n (Z.land x (wrap 128 (2 ^ Z.of_nat i - 1))) = popcount (min n i) x.
Proof.
  intros Hi. rewrite wrap_small.
  - replace (2 ^ Z.of_nat i - 1)%Z with (Z.ones (Z.of_nat i)) by (rewrite Z.ones_equiv; lia).
    induction n as [|n IH]; [done|]. rewrite popcount_S, IH. unfold bit.
    rewrite Z.land_spec. destruct (decide (n < i)).
    + rewrite Z.ones_spec_low, andb_true_r by lia.
      replace (min (S n) i) with (S n) by lia. by replace (min n i) with n by lia.
    + rewrite Z.ones_spec_high, andb_false_r by lia.
      replace (min (S n) i) with i by lia. by replace (min n i) with i by lia.
  - pose proof (Z.pow_pos_nonneg 2 (Z.of_nat i)).
    pose proof (Z.pow_lt_mono_r 2 (Z.of_nat i) 128). unfold in_u. lia.
Qed.

Lemma rank_low b i : i ≤ 128 → rank (bix_bit b) i = popcount i (bix0 b).
Proof.
  intros Hi. apply rank_ext. intros j Hj. unfold bix_bit. by rewrite decide_True by lia.
Qed.

Lemma rank_high b i : rank (bix_bit b) (128 + i) = popcount 128 (bix0 b) + popcount i (bix1 b).
Proof.
  induction i as [|i IH].
  - rewrite Nat.add_0_r, (rank_low b 128) by lia. by rewrite Nat.add_0_r.
  - rewrite Nat.add_succ_r, rank_S, IH, (popcount_S i). unfold bix_bit.
    rewrite decide_False by lia. replace (128 + i - 128) with i by lia.
  destruct (bit (bix1 b) i); lia.
Qed.

Lemma bix_real_index b i :
  i < 256 →
  bix_get_real_index b i = if bix_bit b i then Some (rank (bix_bit b) i) else None.
Proof.
  intros Hi. unfold bix_get_real_index. rewrite bix_get_index_bit by done.
  destruct (bix_bit b i); [|done]. cbn [negb]. rewrite mask_part by done.
  pose proof (rank_le (bix_bit b) i). unfold count_ones128.
  destruct (decide (i < 128)) as [Hd|Hd]; cbn [Nat.eqb].
  - rewrite popcount_land_pred by done.
    rewrite Nat.min_r, <-rank_low, Nat.mod_small by lia. done.
  - rewrite popcount_land_pred by lia. rewrite Nat.min_r by lia.
    rewrite <-rank_high. replace (128 + (i - 128)) with i by lia.
    by rewrite Nat.mod_small by lia.
Qed.

Lemma bix_empty b :
  bix_ok b → bix_is_empty b = true ↔ ∀ i, i < 256 → bix_bit b i = false.
Proof.
  intros [H0 H1]. unfold bix_is_empty. rewrite andb_true_iff, !Z.eqb_eq. split.
  - intros [E0 E1] i Hi. unfold bix_bit, bit. rewrite E0, E1.
    case_decide; apply Z.testbit_0_l.
  - assert (∀ x, in_u 128 x → (∀ i, i < 128 → bit x i = false) → x = 0%Z) as Hz.
    { intros x Hx Hb. apply Z.bits_inj_iff'. intros n Hn. rewrite Z.testbit_0_l.
      destruct (decide (n < 128)%Z).
      - rewrite <-(Z2Nat.id n Hn). apply Hb. lia.
      - destruct (decide (x = 0%Z)) as [->|]; [apply Z.testbit_0_l|].
        apply Z.bits_above_log2; [apply Hx|].
        apply Z.log2_lt_pow2; [unfold in_u in *; lia|].
        eapply Z.lt_le_trans; [apply Hx|]. apply Z.pow_le_mono_r; lia. }
    intros Hb. split; apply Hz; try done; intros i Hi.
    + specialize (Hb i ltac:(lia)). unfold bix_bit in Hb. by rewrite decide_True in Hb.
    + specialize (Hb (128 + i) ltac:(lia)). unfold bix_bit in Hb.
      rewrite decide_False in Hb by lia. by replace (128 + i - 128) with i in Hb by lia.
Qed.

Lemma trailing_zeros_spec x :
  (trailing_zeros128 x < 128 ∧ bit x (trailing_zeros128 x) = true ∧
    ∀ j, j < trailing_zeros128 x → bit x j = false) ∨
  (trailing_zeros128 x = 128 ∧ ∀ j, j < 128 → bit x j = false).
Proof.
  unfold trailing_zeros128. destruct (list_find _ _) as [[p i]|] eqn:Hf.
  - apply list_find_Some in Hf as (Hl & Hb & Hmin). left.
    apply lookup_seq in Hl as [-> Hp]. cbn. split_and!; [lia|done|].
    intros j Hj. apply not_true_is_false. apply (Hmin j j); [|done].
    apply lookup_seq. lia.
  - right. split; [done|]. intros j Hj. apply list_find_None in Hf.
    rewrite Forall_forall in Hf. apply not_true_is_false, Hf, elem_of_seq. lia.
Qed.

Lemma bix_first b :
  match bix_get_first_index b with
  | Some i => i < 256 ∧ bix_bit b i = true ∧ ∀ j, j < i → bix_bit b j = false
  | None => ∀ j, j < 256 → bix_bit b j = false
  end.
Proof.
  unfold bix_get_first_index. cbv zeta.
  destruct (trailing_zeros_spec (bix0 b)) as [(H0 & Hb0 & Hm0)|[-> Hm0]].
  - rewrite decide_True by done. split; [lia|]. unfold bix_bit.
    rewrite decide_True by done. split; [done|]. intros j Hj.
    rewrite decide_True by lia. by apply Hm0.
  - rewrite decide_False by lia.
    destruct (trailing_zeros_spec (bix1 b)) as [(H1 & Hb1 & Hm1)|[-> Hm1]].
    + rewrite decide_True by done. split; [lia|]. unfold bix_bit.
      rewrite decide_False by lia.
      replace (128 + trailing_zeros128 (bix1 b) - 128) with (trailing_zeros128 (bix1 b)) by lia.
      split; [done|]. intros j Hj. case_decide; [by apply Hm0|]. apply Hm1. lia.
    + rewrite decide_False by lia. intros j Hj. unfold bix_bit.
      case_decide; [by apply Hm0|]. apply Hm1. lia.
Qed.
End bits.
#[global] Arguments bix_get_real_index : simpl never.
#[global] Arguments bix_get_index : simpl never.
#[global] Arguments bix_set_index : simpl never.
#[global] Arguments bix_remove_index : simpl never.
#[global] Arguments bix_get_first_index : simpl never.


(** ** The table an array stands for *)
Definition sa_ok {V} (s : SparseArray V) : Prop :=
  bix_ok (sa_index s) ∧ length (sa_data s) = rank (bix_bit (sa_index s)) 256.
Definition sa_cell {V} (s : SparseArray V) (i : nat) : option V :=
  packed (bix_bit (sa_index s)) (sa_data s) i.

(** The outer bitmap only hides elements of the inner array. *)
Definition fsa_ok {V} (f : FastSparseArray V) : Prop :=
  bix_ok (fsa_index f) ∧ sa_ok (fsa_data f) ∧
  ∀ i, i < 256 → bix_bit (fsa_index f) i = true → bix_bit (sa_index (fsa_data f)) i = true.
Definition fsa_cell {V} (f : FastSparseArray V) (i : nat) : option V :=
  if bix_bit (fsa_index f) i then sa_cell (fsa_data f) i else None.

(** A fast sparse array represents a finite map on the bytes. *)
Definition fsa_repr {V} (f : FastSparseArray V) (m : gmap nat V) : Prop :=
  fsa_ok f ∧ ∀ i, m !! i = if decide (i < 256) then fsa_cell f i else None.

Section tables.
Context {V : Type}.
Implicit Types (s : SparseArray V) (f : FastSparseArray V) (v : V) (m : gmap nat V).

Lemma bix_bit_new i : bix_bit bix_new i = false.
Proof. unfold bix_bit, bit. cbn. case_decide; apply Z.testbit_0_l. Qed.

Lemma bix_new_ok : bix_ok bix_new.
Proof. split; split; cbn; lia. Qed.

Lemma sa_new_ok : sa_ok (V := V) sa_new.
Proof.
  split; [apply bix_new_ok|]. rewrite (rank_ext _ (λ _, false)).
  - done.
  - intros. apply bix_bit_new.
Qed.

Lemma sa_get_ok {E} s i : sa_ok s → i < 256 → sa_get (E := E) s i = Ok (sa_cell s i).
Proof.
  intros [Hb Hlen] Hi. unfold sa_get, sa_cell. rewrite bix_real_index by done.
  unfold packed. destruct (bix_bit (sa_index s) i) eqn:Hbit; [|done].
  assert (rank (bix_bit (sa_index s)) i < length (sa_data s)) as Hlt.
  { rewrite Hlen. by apply rank_lt. }
  apply lookup_lt_is_Some in Hlt as [x Hx]. by rewrite Hx.
Qed.

Lemma sa_set_spec {E} s i v :
  sa_ok s → i < 256 →
  ∃ s', sa_set (E := E) s i v = Ok s' ∧ sa_ok s' ∧
    (∀ j, j < 256 → bix_bit (sa_index s') j = bix_bit (sa_index s) j || bool_decide (j = i)) ∧
    ∀ j, j < 256 → sa_cell s' j = if decide (j = i) then Some v else sa_cell s j.
Proof.
  intros [Hb Hlen] Hi. unfold sa_set. rewrite !bix_real_index by done.
  destruct (bix_bit (sa_index s) i) eqn:Hbit.
  - destruct (packed_update _ _ i v 256 Hlen Hi Hbit) as [Hlt Hcells].
    unfold vec_set. rewrite decide_True by done. eexists. split; [done|].
    split; [split; [done|by cbn [sa_index sa_data]; rewrite length_insert]|]. split; [|apply Hcells].
    intros j Hj. case_bool_decide; subst; cbn; [by rewrite Hbit|by rewrite orb_false_r].
  - assert (∀ j, j < 256 → bix_bit (bix_set_index (sa_index s) i) j =
      bix_bit (sa_index s) j || bool_decide (j = i)) as Hset.
    { intros. by apply bix_bit_set. }
    destruct (packed_insert _ _ _ i v 256 Hlen Hi Hbit Hset) as (Hle & Hlen' & Hcells).
    rewrite Hset, Hbit, bool_decide_true by done. cbn. unfold vec_insert.
    rewrite (rank_ext _ (bix_bit (sa_index s)) i).
    2:{ intros j Hj. rewrite Hset, bool_decide_false, orb_false_r by lia. done. }
    rewrite decide_True by done. eexists. split; [done|].
    split; [split; [by apply bix_set_ok|done]|]. split; [apply Hset|apply Hcells].
Qed.

Lemma sa_remove_spec {E} s i :
  sa_ok s → i < 256 →
  ∃ s', sa_remove (E := E) s i = Ok (s', sa_cell s i) ∧ sa_ok s' ∧
    ∀ j, j < 256 → sa_cell s' j = if decide (j = i) then None else sa_cell s j.
Proof.
  intros [Hb Hlen] Hi. unfold sa_remove. rewrite bix_real_index by done.
  assert (∀ j, j < 256 → bix_bit (bix_remove_index (sa_index s) i) j =
    bix_bit (sa_index s) j && negb (bool_decide (j = i))) as Hrem.
  { intros. by apply bix_bit_remove. }
  unfold sa_cell at 1, packed. destruct (bix_bit (sa_index s) i) eqn:Hbit.
  - destruct (packed_delete _ _ _ i 256 Hlen Hi Hbit Hrem) as (Hlt & Hlen' & Hcells).
    apply lookup_lt_is_Some in Hlt as [x Hx]. rewrite Hx. cbn.
    eexists. split; [done|]. split; [split; [by apply bix_remove_ok|done]|apply Hcells].
  - cbn. assert (∀ j, j < 256 →
      bix_bit (bix_remove_index (sa_index s) i) j = bix_bit (sa_index s) j) as Hsame.
    { intros j Hj. rewrite Hrem by done. case_bool_decide; subst.
      - by rewrite Hbit.
      - by rewrite andb_true_r. }
    eexists. split; [done|]. split; [split; [by apply bix_remove_ok|]|].
    + cbn [sa_index sa_data]. rewrite Hlen. apply rank_ext. intros. by rewrite Hsame.
    + intros j Hj. unfold sa_cell, packed. cbn [sa_index sa_data]. rewrite Hsame by done.
      rewrite (rank_ext _ (bix_bit (sa_index s)) j) by (intros; apply Hsame; lia).
      case_decide; subst; [by rewrite Hbit|done].
Qed.

Lemma fsa_get_ok {E} f i : fsa_ok f → i < 256 → fsa_get (E := E) f i = Ok (fsa_cell f i).
Proof.
  intros (Hb & Hs & Hsub) Hi. unfold fsa_get, fsa_cell.
  rewrite bix_get_index_bit by done. destruct (bix_bit (fsa_index f) i); [|done].
  by apply sa_get_ok.
Qed.

Lemma fsa_set_spec {E} f i v :
  fsa_ok f → i < 256 →
  ∃ f', fsa_set (E := E) f i v = Ok f' ∧ fsa_ok f' ∧
    ∀ j, j < 256 → fsa_cell f' j = if decide (j = i) then Some v else fsa_cell f j.
Proof.
  intros (Hb & Hs & Hsub) Hi. unfold fsa_set.
  destruct (sa_set_spec (E := E) (fsa_data f) i v Hs Hi) as (s' & -> & Hs' & Hbits & Hcells).
  eexists. split; [done|]. split.
  - split; [by apply bix_set_ok|]. split; [done|]. intros j Hj. cbn.
    rewrite bix_bit_set, Hbits by done. intros [Hj'|Hj']%orb_true_iff.
    + by rewrite Hsub.
    + by rewrite Hj', orb_true_r.
  - intros j Hj. unfold fsa_cell. cbn. rewrite bix_bit_set, Hcells by done.
    case_decide; subst.
    + by rewrite bool_decide_true, orb_true_r.
    + by rewrite bool_decide_false, orb_false_r.
Qed.

Lemma fsa_remove_spec {E} f i :
  fsa_ok f → i < 256 →
  ∃ f', fsa_remove (E := E) f i = Ok (f', fsa_cell f i) ∧ fsa_ok f' ∧
    ∀ j, j < 256 → fsa_cell f' j = if decide (j = i) then None else fsa_cell f j.
Proof.
  intros (Hb & Hs & Hsub) Hi. unfold fsa_remove. rewrite bix_get_index_bit by done.
  unfold fsa_cell at 1. destruct (bix_bit (fsa_index f) i) eqn:Hbit.
  - rewrite sa_get_ok by done. eexists. split; [done|]. split.
    + split; [by apply bix_remove_ok|]. split; [done|]. intros j Hj. cbn.
      rewrite bix_bit_remove by done. intros [Hj' _]%andb_true_iff. by apply Hsub.
    + intros j Hj. unfold fsa_cell. cbn. rewrite bix_bit_remove by done.
      case_decide; subst.
      * by rewrite bool_decide_true, andb_false_r.
      * by rewrite bool_decide_false, andb_true_r.
  - eexists. split; [done|]. split; [done|]. intros j Hj. case_decide; subst; [|done].
    unfold fsa_cell. by rewrite Hbit.
Qed.
Lemma fsa_cell_is_Some f i :
  fsa_ok f → i < 256 → bix_bit (fsa_index f) i = true → is_Some (fsa_cell f i).
Proof.
  intros (Hb & [Hs Hlen] & Hsub) Hi Hbit. unfold fsa_cell. rewrite Hbit.
  eapply packed_is_Some; [done..|by apply Hsub].
Qed.

(** The iterator visits the set indices in increasing order. *)
Lemma fsa_collect_ok {E} f fuel b lo :
  fsa_ok f → bix_ok b → (∀ i, i < 256 → bix_bit b i = true → bix_bit (fsa_index f) i = true) →
  (∀ i, i < lo → bix_bit b i = false) → 257 ≤ fuel + lo → 0 < fuel →
  fsa_collect (E := E) fuel f b =
    Ok (omap (λ i, if bix_bit b i then (i,.) <$> fsa_cell f i else None) (seq lo (256 - lo))).
Proof.
  intros Hf. revert b lo. induction fuel as [|fuel IH]; intros b lo Hb Hsub Hlo Hfuel Hpos; [lia|].
  cbn [fsa_collect]. unfold fsa_iter_next. pose proof (bix_first b) as Hfirst.
  destruct (bix_get_first_index b) as [i|].
  - destruct Hfirst as (Hi & Hbit & Hmin).
    assert (lo ≤ i) as Hle.
    { destruct (decide (i < lo)) as [Hlt|]; [|lia]. rewrite Hlo in Hbit; done. }
    rewrite fsa_get_ok by done.
    destruct (fsa_cell_is_Some f i Hf Hi (Hsub i Hi Hbit)) as [v Hv].
    cbn [mbind outcome_bind]. rewrite Hv. cbn [mbind outcome_bind].
    assert (∀ j, j < 256 → bix_bit (bix_remove_index b i) j =
      bix_bit b j && negb (bool_decide (j = i))) as Hrem.
    { intros. by apply bix_bit_remove. }
    assert (∀ j, j < S i → bix_bit (bix_remove_index b i) j = false) as Hlo'.
    { intros j Hj. rewrite Hrem by lia. destruct (decide (j = i)) as [->|].
      - by rewrite bool_decide_true, andb_false_r.
      - rewrite Hmin by lia. done. }
    assert (fsa_collect (E := E) fuel f (bix_remove_index b i) =
      Ok (omap (λ j, if bix_bit b j then (j,.) <$> fsa_cell f j else None)
            (seq (S i) (256 - S i)))) as ->.
    { destruct fuel as [|fuel'].
      { lia. }
      rewrite (IH (bix_remove_index b i) (S i)); [|by apply bix_remove_ok| |done|lia|lia].
      - f_equal. apply omap_ext_in. intros j Hj%elem_of_seq. rewrite Hrem by lia.
        by rewrite bool_decide_false, andb_true_r by lia.
      - intros j Hj. rewrite Hrem by done. intros [? _]%andb_true_iff. by apply Hsub. }
    cbn. f_equal. replace (256 - lo) with ((i - lo) + S (256 - S i)) by lia.
    rewrite seq_app, omap_app. replace (lo + (i - lo)) with i by lia.
    cbn [seq omap list_omap]. rewrite Hbit, Hv. cbn [fmap option_fmap option_map].
    match goal with |- _ = ?l ++ _ => assert (l = []) as -> end; [|done].
    apply omap_none. intros j Hj%elem_of_seq. rewrite Hmin by lia. done.
  - cbn. f_equal. symmetry. apply omap_none.
    intros j Hj%elem_of_seq. by rewrite Hfirst by lia.
Qed.

Definition fsa_entries (c : nat → option V) (n : nat) : list (nat * V) :=
  omap (λ i, (i,.) <$> c i) (seq 0 n).

Lemma fsa_items_ok {E} f :
  fsa_ok f → fsa_items (E := E) f = Ok (fsa_entries (fsa_cell f) 256).
Proof.
  intros Hf. unfold fsa_items.
  rewrite (fsa_collect_ok f 257 _ 0); [|done|apply Hf|done|lia|lia|lia].
  f_equal. apply omap_ext_in. intros i Hi.
  unfold fsa_cell. by destruct (bix_bit _ _).
Qed.

Lemma sab_rebuild_ok {E} (c : nat → option V) n :
  n ≤ 256 →
  ∃ s, foldM (E := E) (λ s kv, sab_set s kv.1 kv.2) sa_new (fsa_entries c n) = Ok s ∧
    sa_ok s ∧ ∀ j, j < 256 → sa_cell s j = if decide (j < n) then c j else None.
Proof.
  induction n as [|n IH]; intros Hn.
  - exists sa_new. split; [done|]. split; [apply sa_new_ok|]. intros j Hj.
    unfold sa_cell, packed. cbn [sa_index sa_new]. by rewrite bix_bit_new, decide_False by lia.
  - destruct IH as (s & Hs & Hok & Hc); [lia|]. unfold fsa_entries.
    rewrite seq_S, omap_app, foldM_app. fold (fsa_entries c n). rewrite Hs. cbn.
    destruct (c n) as [v|] eqn:Hcn; cbn.
    + destruct (sa_set_spec (E := E) s n v Hok) as (s' & Hset & Hok' & _ & Hc'); [lia|].
      change (sab_set s n v) with (sa_set (E := E) s n v). rewrite Hset.
      exists s'. split; [done|]. split; [done|]. intros j Hj. rewrite Hc', Hc by done.
      repeat case_decide; subst; try done; lia.
    + exists s. split; [done|]. split; [done|]. intros j Hj. rewrite Hc by done.
      repeat case_decide; try done; [lia|]. by replace j with n by lia.
Qed.

Lemma fsa_shrink_eq {E} f l s :
  fsa_items (E := E) f = Ok l → foldM (E := E) (λ s kv, sab_set s kv.1 kv.2) sa_new l = Ok s →
  fsa_shrink (E := E) f = Ok (mkFsa (fsa_index f) s).
Proof. unfold fsa_shrink. intros ->. cbn. by intros ->. Qed.

Lemma fsa_shrink_spec {E} f :
  fsa_ok f →
  ∃ f', fsa_shrink (E := E) f = Ok f' ∧ fsa_ok f' ∧
    (∀ j, j < 256 → fsa_cell f' j = fsa_cell f j) ∧
    ∀ j, j < 256 → sa_cell (fsa_data f') j = fsa_cell f j.
Proof.
  intros Hf.
  destruct (sab_rebuild_ok (E := E) (fsa_cell f) 256) as (s & Hfold & Hs & Hc); [lia|].
  assert (∀ j, j < 256 → sa_cell s j = fsa_cell f j) as Hc'.
  { intros j Hj. by rewrite Hc, decide_True. }
  eexists. split; [exact (fsa_shrink_eq f _ s (fsa_items_ok f Hf) Hfold)|].
  split; [|split; [|done]].
  - split; [apply Hf|]. split; [done|]. intros i Hi Hbit. cbn [fsa_index fsa_data] in *.
    destruct (fsa_cell_is_Some f i Hf Hi Hbit) as [v Hv]. rewrite <-Hc' in Hv by done.
    by eapply packed_Some_true.
  - intros j Hj. unfold fsa_cell at 1. cbn [fsa_index fsa_data].
    destruct (bix_bit (fsa_index f) j) eqn:Hbit; [by apply Hc'|].
    unfold fsa_cell. by rewrite Hbit.
Qed.
End tables.
#[export] Hint Resolve bix_new_ok sa_new_ok : chain.
#[export] Hint Resolve bix_new_ok sa_new_ok : chain.

#[global] Arguments fsa_entries : simpl never.

(** ** Refinement of a finite map on the bytes *)
Section refinement.
Context {V : Type}.
Implicit Types (f : FastSparseArray V) (v : V) (m : gmap nat V).

Lemma fsa_repr_new : fsa_repr (V := V) fsa_new ∅.
Proof.
  split.
  - split; [apply bix_new_ok|]. split; [apply sa_new_ok|]. intros i _.
    cbn [fsa_index fsa_new]. by rewrite bix_bit_new.
  - intros i. rewrite lookup_empty. case_decide; [|done]. unfold fsa_cell.
    cbn [fsa_index fsa_new]. by rewrite bix_bit_new.
Qed.

Lemma fsa_repr_lookup f m i : fsa_repr f m → i < 256 → m !! i = fsa_cell f i.
Proof. intros [_ Hm] Hi. by rewrite Hm, decide_True. Qed.

(** An operation that changes one cell changes the map at one key. *)
Lemma fsa_repr_alter f f' m i o :
  fsa_repr f m → fsa_ok f' → i < 256 →
  (∀ j, j < 256 → fsa_cell f' j = if decide (j = i) then o else fsa_cell f j) →
  fsa_repr f' (partial_alter (λ _, o) i m).
Proof.
  intros [Hf Hm] Hf' Hi Hc. split; [done|]. intros j.
  destruct (decide (j = i)) as [->|Hne].
  - rewrite lookup_partial_alter_eq, decide_True by done. by rewrite Hc, decide_True.
  - rewrite lookup_partial_alter_ne, Hm by done. case_decide; [|done].
    by rewrite Hc, decide_False.
Qed.

Lemma fsa_bit_map f m i :
  fsa_repr f m → i < 256 → bix_bit (fsa_index f) i = bool_decide (is_Some (m !! i)).
Proof.
  intros Hr Hi. rewrite (fsa_repr_lookup f m i) by done.
  destruct (bix_bit (fsa_index f) i) eqn:Hbit.
  - symmetry. apply bool_decide_true. apply fsa_cell_is_Some; [apply Hr|done..].
  - unfold fsa_cell. rewrite Hbit. by rewrite bool_decide_false by by intros [].
Qed.

Lemma fsa_repr_set f m i v :
  fsa_repr f m → i < 256 →
  ∃ f', fsa_set (E := infallible) f i v = Ok f' ∧ fsa_repr f' (<[i:=v]> m).
Proof.
  intros Hr Hi.
  destruct (fsa_set_spec (E := infallible) f i v (proj1 Hr) Hi) as (f' & -> & Hf' & Hc).
  exists f'. split; [done|]. by apply (fsa_repr_alter f f' m i (Some v)).
Qed.

Lemma fsa_repr_remove f m i :
  fsa_repr f m → i < 256 →
  ∃ f', fsa_remove (E := infallible) f i = Ok (f', m !! i) ∧ fsa_repr f' (delete i m).
Proof.
  intros Hr Hi.
  destruct (fsa_remove_spec (E := infallible) f i (proj1 Hr) Hi) as (f' & -> & Hf' & Hc).
  exists f'. split; [by rewrite (fsa_repr_lookup f m)|].
  by apply (fsa_repr_alter f f' m i None).
Qed.

Lemma fast_sparse_array_empty f m : fsa_repr f m → fsa_is_empty f = true ↔ m = ∅.
Proof.
  intros Hr. pose proof Hr as [Hf Hm]. unfold fsa_is_empty. rewrite bix_empty by apply Hf. split.
  - intros Hb. apply map_empty. intros j. rewrite Hm. case_decide; [|done].
    unfold fsa_cell. by rewrite Hb.
  - intros -> j Hj. rewrite (fsa_bit_map f ∅), lookup_empty by done.
    by apply bool_decide_false; intros [].
Qed.

(** A [FastSparseArray] is a finite map on the bytes: from the empty
    array, [get], [contains_key], [set] and [remove] never panic (no
    [unwrap], [Vec::insert] or index is out of range) and give the lookup,
    insertion and deletion of the map, and [is_empty] decides its
    emptiness; a removed element may stay in the backing array but is never
    seen again. *)
Theorem fast_sparse_array_refines f m i v :
  fsa_repr f m → i < 256 →
  fsa_repr (V := V) fsa_new ∅ ∧
  fsa_get (E := infallible) f i = Ok (m !! i) ∧
  fsa_contains_key f i = bool_decide (is_Some (m !! i)) ∧
  (fsa_is_empty f = true ↔ m = ∅) ∧
  (∃ f', fsa_set (E := infallible) f i v = Ok f' ∧ fsa_repr f' (<[i:=v]> m)) ∧
  (∃ f', fsa_remove (E := infallible) f i = Ok (f', m !! i) ∧ fsa_repr f' (delete i m)).
Proof.
  intros Hr Hi. pose proof Hr as [Hf Hm].
  split; [apply fsa_repr_new|]. split; [|split; [|split; [|split]]].
  - by rewrite fsa_get_ok, (fsa_repr_lookup f m) by done.
  - unfold fsa_contains_key. rewrite bix_get_index_bit by done. by apply fsa_bit_map.
  - by apply fast_sparse_array_empty.
  - by apply fsa_repr_set.
  - by apply fsa_repr_remove.
Qed.

(** Iterating over a [FastSparseArray] gives every entry of the map
    once, in increasing order of the index, without reaching the [panic!]
    of the iterator; [shrink] keeps the map and leaves no dead element in
    the backing array. *)
Theorem fast_sparse_array_iter_shrink f m :
  fsa_repr f m →
  fsa_items (E := infallible) f = Ok (fsa_entries (m !!.) 256) ∧
  ∃ f', fsa_shrink (E := infallible) f = Ok f' ∧ fsa_repr f' m ∧
    ∀ i, i < 256 → sa_cell (fsa_data f') i = m !! i.
Proof.
  intros Hr. pose proof Hr as [Hf Hm]. split.
  - rewrite fsa_items_ok by done. f_equal. unfold fsa_entries. apply omap_ext_in.
    intros i Hi%elem_of_seq. by rewrite (fsa_repr_lookup f m) by (done || lia).
  - destruct (fsa_shrink_spec (E := infallible) f Hf) as (f' & -> & Hf' & Hc & Hd).
    exists f'. split; [done|]. split; [split; [done|]|].
    + intros i. rewrite Hm. case_decide; [|done]. by rewrite Hc.
    + intros i Hi. by rewrite Hd, (fsa_repr_lookup f m).
Qed.
End refinement.

(** An array with one live element, at 130, and one removed but not yet
    shrunk away, at 3. *)
Definition demo_fsa : FastSparseArray Z := mkFsa (mkBix 0 4) (mkSa (mkBix 8 4) [8; 9]%Z).
Definition demo_table : gmap nat Z := delete 3 (<[3:=8%Z]> (<[130:=9%Z]> ∅)).

Lemma demo_fsa_repr : fsa_repr demo_fsa demo_table.
Proof.
  destruct (fsa_repr_set (V := Z) fsa_new ∅ 130 9%Z fsa_repr_new) as (f1 & H1 & R1); [lia|].
  vm_compute in H1. injection H1 as <-.
  destruct (fsa_repr_set _ _ 3 8%Z R1) as (f2 & H2 & R2); [lia|].
  vm_compute in H2. injection H2 as <-.
  destruct (fsa_repr_remove _ _ 3 R2) as (f3 & H3 & R3); [lia|].
  vm_compute in H3. injection H3 as <-. exact R3.
Qed.

Lemma fast_sparse_array_refines_witness :
  fsa_get (E := infallible) demo_fsa 130 = Ok (Some 9%Z) ∧
  fsa_get (E := infallible) demo_fsa 3 = Ok None.
Proof.
  split.
  - destruct (fast_sparse_array_refines demo_fsa demo_table 130 0%Z demo_fsa_repr) as (_ & H & _);
      [lia|]. rewrite H. reflexivity.
  - destruct (fast_sparse_array_refines demo_fsa demo_table 3 0%Z demo_fsa_repr) as (_ & H & _);
      [lia|]. rewrite H. reflexivity.
Defined.

Lemma fast_sparse_array_iter_shrink_witness :
  fsa_items (E := infallible) demo_fsa = Ok [(130, 9%Z)].
Proof.
  destruct (fast_sparse_array_iter_shrink demo_fsa demo_table demo_fsa_repr) as [H _].
  rewrite H. vm_compute. reflexivity.
Defined.
