(* ===== verification/Codec.v ===== *)
(** * Byte codecs ([chain-ser/src], [typed-bytes/src/builder.rs])

    A byte is a [Z] in [0 .. 255]; buffers are lists of bytes.  [ReadBuf] is
    the cursor of [mempack.rs], a [Reader] a function that reads one value
    through it, and [ByteBuilder] the append-only writer.  [reads r a bs] says
    that [r] reads [a] from exactly the bytes [bs], whatever surrounds them;
    the class [Wire] packs a reader with the bytes it inverts, so that the
    formats of the ledger state their round trips against it. *)
From S2P Require Import Prelude.
Local Open Scope Z_scope.

(** ** Big- and little-endian integers ([to_be_bytes], [from_be_bytes]) *)
Fixpoint be_bytes (n : nat) (v : Z) : list Z :=
  match n with O => [] | S n => be_bytes n (v `div` 256) ++ [v `mod` 256] end.
Definition from_be (l : list Z) : Z := foldl (λ acc b, acc * 256 + b) 0 l.
Definition le_bytes (n : nat) (v : Z) : list Z := reverse (be_bytes n v).
Definition from_le (l : list Z) : Z := from_be (reverse l).

Definition bytes_ok (l : list Z) : Prop := Forall u8_ok l.

Lemma length_be_bytes n v : length (be_bytes n v) = n.
Proof. revert v. induction n as [|n IH]; intros v; cbn; [done|]. rewrite length_app, IH. cbn. lia. Qed.

Lemma be_bytes_ok n v : bytes_ok (be_bytes n v).
Proof.
  revert v. induction n as [|n IH]; intros v; cbn; [constructor|].
  apply Forall_app. split; [apply IH|]. constructor; [|constructor].
  unfold in_u. change (2 ^ 8) with 256. dlia.
Qed.

Lemma from_be_app l1 l2 : from_be (l1 ++ l2) = foldl (λ acc b, acc * 256 + b) (from_be l1) l2.
Proof. apply foldl_app. Qed.

Lemma pow_byte n : 2 ^ (8 * Z.of_nat (S n)) = 256 * 2 ^ (8 * Z.of_nat n).
Proof. replace (8 * Z.of_nat (S n)) with (8 + 8 * Z.of_nat n) by lia. by rewrite Z.pow_add_r by lia. Qed.

Lemma from_be_bytes n v : in_u (8 * Z.of_nat n) v → from_be (be_bytes n v) = v.
Proof.
  revert v. induction n as [|n IH]; intros v Hv.
  - unfold in_u in Hv. change (2 ^ (8 * Z.of_nat 0)) with 1 in Hv. cbn. lia.
  - cbn [be_bytes]. rewrite from_be_app. cbn [foldl]. rewrite IH; [dlia|].
    unfold in_u in *. rewrite pow_byte in Hv. dlia.
Qed.

Lemma from_be_range l : bytes_ok l → in_u (8 * Z.of_nat (length l)) (from_be l).
Proof.
  induction l as [|b l IH] using rev_ind; intros Hl; [done|].
  apply Forall_app in Hl as [Hl Hb%Forall_inv]. rewrite from_be_app. cbn [foldl].
  specialize (IH Hl). rewrite length_app, Nat.add_1_r.
  unfold in_u in *. rewrite pow_byte. change (2 ^ 8) with 256 in Hb. lia.
Qed.

Lemma be_bytes_from_be l : bytes_ok l → be_bytes (length l) (from_be l) = l.
Proof.
  induction l as [|b l IH] using rev_ind; intros Hl; [done|].
  apply Forall_app in Hl as [Hl Hb%Forall_inv]. rewrite length_app, Nat.add_1_r.
  cbn [be_bytes]. rewrite from_be_app. cbn [foldl]. change (u8_ok b) with (0 ≤ b < 256) in Hb.
  rewrite Z.div_add_l, Z.div_small, Z.add_0_r, IH by (lia || done).
  rewrite Z.add_comm, Z.mod_add, Z.mod_small by lia. done.
Qed.

Lemma from_le_bytes n v : in_u (8 * Z.of_nat n) v → from_le (le_bytes n v) = v.
Proof. intros. unfold from_le, le_bytes. rewrite reverse_involutive. by apply from_be_bytes. Qed.

(** ** [mempack.rs] *)
Inductive ReadError :=
| NotEnoughBytes (left demanded : nat)
| UnconsumedData (len : nat)
| SizeTooBig (size limit : nat)
| StructureInvalid (s : string)
| UnknownTag (tag : Z)
| InvalidData (s : string).

Record ReadBuf := mkReadBuf { rb_offset : nat; rb_data : list Z }.

Definition Reader (A : Type) : Type := ReadBuf → outcome ReadError (A * ReadBuf).
#[export] Instance reader_ret : MRet Reader := λ A a buf, Ok (a, buf).
#[export] Instance reader_bind : MBind Reader := λ A B f r buf, '(a, buf) ← r buf; f a buf.
Definition read_fun {A} (f : ReadBuf → outcome ReadError (A * ReadBuf)) : Reader A := f.
#[global] Arguments read_fun {A} f /.
Definition read_fail {A} (e : ReadError) : Reader A := λ _, Err e.

Definition rb_from (slice : list Z) : ReadBuf := mkReadBuf 0 slice.
Definition rb_position (b : ReadBuf) : nat := rb_offset b.
(** The offset never exceeds the length ([rb_ok]), so this does not wrap. *)
Definition rb_left (b : ReadBuf) : nat := (length (rb_data b) - rb_offset b)%nat.

Definition assure_size (expected : nat) : Reader unit := λ b,
  let left := rb_left b in
  if decide (expected ≤ left)%nat then Ok ((), b) else Err (NotEnoughBytes left expected).

Definition expect_end : Reader unit := λ b,
  let l := rb_left b in
  if (l =? 0)%nat then Ok ((), b) else Err (UnconsumedData l).
Definition is_end (b : ReadBuf) : bool := (rb_left b =? 0)%nat.

Definition skip_bytes (sz : nat) : Reader unit :=
  assure_size sz ;; read_fun (λ b, Ok ((), mkReadBuf (rb_offset b + sz) (rb_data b))).

(** [&data[lo..hi]] panics out of range. *)
Definition slice_range {E} (l : list Z) (lo hi : nat) : outcome E (list Z) :=
  if decide (lo ≤ hi ∧ hi ≤ length l)%nat then Ok (take (hi - lo) (drop lo l)) else Panic.

Definition get_slice (sz : nat) : Reader (list Z) :=
  assure_size sz ;; read_fun (λ b,
    s ← slice_range (rb_data b) (rb_offset b) (rb_offset b + sz);
    Ok (s, mkReadBuf (rb_offset b + sz) (rb_data b))).

Definition get_slice_end : Reader (list Z) := λ b,
  s ← slice_range (rb_data b) (rb_offset b) (length (rb_data b));
  Ok (s, mkReadBuf (length (rb_data b)) (rb_data b)).

Definition split_to (sz : nat) : Reader ReadBuf := slice ← get_slice sz; mret (rb_from slice).

Definition peek_u8 : Reader Z :=
  assure_size 1 ;; read_fun (λ b, v ← unwrap_opt (rb_data b !! rb_offset b); Ok (v, b)).
Definition get_u8 : Reader Z :=
  assure_size 1 ;; read_fun (λ b,
    v ← unwrap_opt (rb_data b !! rb_offset b);
    Ok (v, mkReadBuf (rb_offset b + 1) (rb_data b))).
Definition get_u16 : Reader Z := s ← get_slice 2; mret (from_be s).
Definition get_u32 : Reader Z := s ← get_slice 4; mret (from_be s).
Definition get_u64 : Reader Z := s ← get_slice 8; mret (from_be s).
Definition get_u128 : Reader Z := s ← get_slice 16; mret (from_be s).
Definition get_nz_u32 : Reader Z :=
  v ← get_u32;
  if v =? 0 then read_fail (StructureInvalid "received zero u32") else mret v.
Definition get_nz_u64 : Reader Z :=
  v ← get_u64;
  if v =? 0 then read_fail (StructureInvalid "received zero u64") else mret v.

(** [impl Readable for [u8; N]]. *)
Definition read_array (n : nat) : Reader (list Z) := get_slice n.

Fixpoint read_vec {A} (read : Reader A) (n : nat) : Reader (list A) :=
  match n with
  | O => mret []
  | S n => t ← read; v ← read_vec read n; mret (t :: v)
  end.

(** [read_from_raw]: the two errors of [std::io::Error] by what they wrap. *)
Inductive RawError := InvalidRaw (e : ReadError) | EndOfData (e : ReadError).
Definition read_from_raw {A} (read : Reader A) (raw : list Z) : outcome RawError A :=
  '(h, rbuf) ← map_err InvalidRaw (read (rb_from raw));
  _ ← map_err EndOfData (expect_end rbuf);
  Ok h.

(** ** [builder.rs] *)
Record ByteBuilder := mkBB { bb_buffer : list Z; bb_expected : option nat }.

Definition bb_new : ByteBuilder := mkBB [] None.
Definition bb_new_fixed (size : nat) : ByteBuilder := mkBB [] (Some size).
Definition bb_u8 (bb : ByteBuilder) (v : Z) : ByteBuilder :=
  mkBB (bb_buffer bb ++ [v]) (bb_expected bb).
Definition bb_bytes (bb : ByteBuilder) (v : list Z) : ByteBuilder :=
  mkBB (bb_buffer bb ++ v) (bb_expected bb).
Definition bb_u16 bb (v : Z) := bb_bytes bb (be_bytes 2 v).
Definition bb_u32 bb (v : Z) := bb_bytes bb (be_bytes 4 v).
Definition bb_u64 bb (v : Z) := bb_bytes bb (be_bytes 8 v).
Definition bb_u128 bb (v : Z) := bb_bytes bb (be_bytes 16 v).

Definition bb_fold {A} (bb : ByteBuilder) (l : list A) (f : ByteBuilder → A → ByteBuilder) :
  ByteBuilder := foldl f bb l.
Definition bb_iter8 {A} (bb : ByteBuilder) (l : list A) (f : ByteBuilder → A → ByteBuilder) :
    outcome infallible ByteBuilder :=
  assert_that (bool_decide (Z.of_nat (length l) ≤ 255)) ;;
  Ok (foldl f (bb_u8 bb (Z.of_nat (length l))) l).
Definition bb_iter16 {A} (bb : ByteBuilder) (l : list A) (f : ByteBuilder → A → ByteBuilder) :
    outcome infallible ByteBuilder :=
  assert_that (bool_decide (Z.of_nat (length l) ≤ 65535)) ;;
  Ok (foldl f (bb_u16 bb (Z.of_nat (length l))) l).
Definition bb_iter32 {A} (bb : ByteBuilder) (l : list A) (f : ByteBuilder → A → ByteBuilder) :
    outcome infallible ByteBuilder :=
  assert_that (bool_decide (Z.of_nat (length l) ≤ u32_max)) ;;
  Ok (foldl f (bb_u32 bb (Z.of_nat (length l))) l).

Definition bb_sub (bb : ByteBuilder) (f : ByteBuilder → ByteBuilder) : ByteBuilder :=
  let res := f (mkBB (bb_buffer bb) None) in mkBB (bb_buffer res) (bb_expected bb).
Definition bb_option_or_else {V} (bb : ByteBuilder) (value : option V)
    (default : ByteBuilder → ByteBuilder) (f : ByteBuilder → V → ByteBuilder) : ByteBuilder :=
  match value with None => default bb | Some v => f bb v end.
Definition bb_option {V} (bb : ByteBuilder) (value : option V)
    (f : ByteBuilder → V → ByteBuilder) : ByteBuilder :=
  bb_option_or_else bb value (λ bb, bb) f.

Definition bb_finalize (bb : ByteBuilder) : outcome infallible (list Z) :=
  match bb_expected bb with
  | None => Ok (bb_buffer bb)
  | Some expected_sz =>
      if (expected_sz =? length (bb_buffer bb))%nat then Ok (bb_buffer bb) else Panic
  end.
Definition bb_finalize_as_vec (bb : ByteBuilder) : list Z := bb_buffer bb.

(** ** [packer.rs]: a codec over [Vec<u8>] for writing and over [&[u8]] for
    reading ([read_exact] fails with [UnexpectedEof] on a short slice). *)
Inductive IoError := UnexpectedEof.
Definition codec_get (n : nat) (r : list Z) : outcome IoError (list Z * list Z) :=
  if decide (n ≤ length r)%nat then Ok (take n r, drop n r) else Err UnexpectedEof.
Definition codec_get_u8 (r : list Z) : outcome IoError (Z * list Z) :=
  '(b, r) ← codec_get 1 r; v ← unwrap_opt (b !! 0%nat); Ok (v, r).
Definition codec_get_be (n : nat) (r : list Z) : outcome IoError (Z * list Z) :=
  '(b, r) ← codec_get n r; Ok (from_be b, r).
Definition codec_get_le (n : nat) (r : list Z) : outcome IoError (Z * list Z) :=
  '(b, r) ← codec_get n r; Ok (from_le b, r).
Definition codec_put_u8 (w : list Z) (v : Z) : list Z := w ++ [v].
Definition codec_put_be (n : nat) (w : list Z) (v : Z) : list Z := w ++ be_bytes n v.
Definition codec_put_le (n : nat) (w : list Z) (v : Z) : list Z := w ++ le_bytes n v.
Definition codec_put_bytes (w v : list Z) : list Z := w ++ v.

(** [Buffered] keeps the inner writer and a pending buffer; a [Hole] is a
    range of the pending buffer to be filled later. *)
Record Buffered := mkBuffered { bf_inner : list Z; bf_pending : list Z }.
Record Hole := mkHole { hole_start : nat; hole_end : nat }.
Definition buffered (w : list Z) : Buffered := mkBuffered w [].
Definition bf_write (b : Buffered) (v : list Z) : Buffered :=
  mkBuffered (bf_inner b) (bf_pending b ++ v).
Definition hole (b : Buffered) (len : nat) : Hole * Buffered :=
  let start := length (bf_pending b) in
  let end_ := (start + len)%nat in
  (mkHole start end_, bf_write b (replicate len 0)).
(** [buf[start..end].copy_from_slice(v)] panics when the range is out of
    bounds or the lengths differ. *)
Definition fill_hole (b : Buffered) (h : Hole) (v : list Z) : outcome infallible Buffered :=
  _ ← slice_range (bf_pending b) (hole_start h) (hole_end h);
  assert_that (hole_end h - hole_start h =? length v)%nat ;;
  Ok (mkBuffered (bf_inner b)
        (take (hole_start h) (bf_pending b) ++ v ++ drop (hole_end h) (bf_pending b))).
Definition fill_hole_u8 b h (v : Z) := fill_hole b h [v].
Definition fill_hole_be (n : nat) b h (v : Z) := fill_hole b h (be_bytes n v).
Definition bf_into_inner (b : Buffered) : list Z := bf_inner b ++ bf_pending b.
Definition buffered_len (b : Buffered) : nat := length (bf_pending b).

(** ** What a reader consumes *)
Definition rb_ok (b : ReadBuf) : Prop := (rb_offset b ≤ length (rb_data b))%nat.
(** The next [n] bytes, and the cursor after them. *)
Definition rb_next (b : ReadBuf) (n : nat) : list Z := take n (drop (rb_offset b) (rb_data b)).
Definition rb_advance (b : ReadBuf) (n : nat) : ReadBuf := mkReadBuf (rb_offset b + n) (rb_data b).

Definition reads {A} (r : Reader A) (a : A) (bs : list Z) : Prop :=
  ∀ pre post, r (mkReadBuf (length pre) (pre ++ bs ++ post)) =
    Ok (a, mkReadBuf (length pre + length bs) (pre ++ bs ++ post)).

Lemma reader_bind_eq {A B} (r : Reader A) (k : A → Reader B) b :
  (r ≫= k) b = ('(a, b') ← r b; k a b').
Proof. done. Qed.

Lemma get_slice_eq n b :
  rb_ok b →
  get_slice n b = if decide (n ≤ rb_left b)%nat then Ok (rb_next b n, rb_advance b n)
                  else Err (NotEnoughBytes (rb_left b) n).
Proof.
  intros Hb. unfold get_slice, assure_size. rewrite reader_bind_eq.
  unfold rb_ok, rb_left in *. case_decide; [|done]. cbn. unfold slice_range. cbn.
  rewrite decide_True by lia. cbn. unfold rb_next, rb_advance. do 3 f_equal. lia.
Qed.

Lemma reads_ret {A} (a : A) : reads (mret a) a [].
Proof. intros pre post. unfold mret, reader_ret. by rewrite Nat.add_0_r. Qed.

Lemma reads_bind {A B} (r : Reader A) (k : A → Reader B) a b bs1 bs2 :
  reads r a bs1 → reads (k a) b bs2 → reads (r ≫= k) b (bs1 ++ bs2).
Proof.
  intros Hr Hk pre post. rewrite reader_bind_eq, <-app_assoc, Hr. cbn.
  specialize (Hk (pre ++ bs1) post). rewrite <-app_assoc, !length_app in Hk.
  rewrite Hk, length_app. do 3 f_equal. lia.
Qed.

Lemma reads_slice bs : reads (get_slice (length bs)) bs bs.
Proof.
  intros pre post. rewrite get_slice_eq.
  - unfold rb_left, rb_next, rb_advance. cbn. rewrite decide_True.
    + by rewrite drop_app_length, take_app_length.
    + rewrite !length_app. lia.
  - unfold rb_ok. cbn. rewrite length_app. lia.
Qed.

Lemma reads_slice_len n bs : length bs = n → reads (get_slice n) bs bs.
Proof. intros <-. apply reads_slice. Qed.

(** A reader that transforms a slice reads what the slice encodes. *)
Lemma reads_slice_map {A} n (f : list Z → A) a bs :
  length bs = n → f bs = a → reads (s ← get_slice n; mret (f s)) a bs.
Proof.
  intros Hn <-. rewrite <-(app_nil_r bs) at 2.
  eapply reads_bind; [by apply reads_slice_len|apply reads_ret].
Qed.

Lemma reads_vec {A} (read : Reader A) (enc : A → list Z) l :
  (∀ a, a ∈ l → reads read a (enc a)) →
  reads (read_vec read (length l)) l (concat (enc <$> l)).
Proof.
  induction l as [|a l IH]; intros Hl; [apply reads_ret|]. cbn [length read_vec].
  cbn [fmap list_fmap concat]. eapply reads_bind; [apply Hl; left|].
  rewrite <-(app_nil_r (concat _)).
  eapply reads_bind; [apply IH; intros; apply Hl; by right|apply reads_ret].
Qed.

(** [read_from_raw] accepts exactly the bytes of the value. *)
Lemma reads_from_raw {A} (read : Reader A) a bs :
  reads read a bs → read_from_raw read bs = Ok a.
Proof.
  intros Hr. unfold read_from_raw, rb_from. specialize (Hr [] []).
  rewrite app_nil_r in Hr. cbn in Hr. rewrite Hr. cbn. unfold expect_end, rb_left. cbn.
  by rewrite Nat.sub_diag.
Qed.
Lemma reads_u8 v : reads get_u8 v [v].
Proof.
  intros pre post. unfold get_u8, assure_size. rewrite reader_bind_eq. unfold rb_left. cbn.
  rewrite length_app. cbn. rewrite decide_True by lia. cbn. by rewrite list_lookup_middle.
Qed.
Lemma reads_be n v : in_u (8 * Z.of_nat n) v → reads (s ← get_slice n; mret (from_be s)) v (be_bytes n v).
Proof. intros. apply reads_slice_map; [apply length_be_bytes|by apply from_be_bytes]. Qed.
Lemma reads_u16 v : u16_ok v → reads get_u16 v (be_bytes 2 v).
Proof. apply (reads_be 2). Qed.
Lemma reads_u32 v : u32_ok v → reads get_u32 v (be_bytes 4 v).
Proof. apply (reads_be 4). Qed.
Lemma reads_u64 v : u64_ok v → reads get_u64 v (be_bytes 8 v).
Proof. apply (reads_be 8). Qed.
Lemma reads_u128 v : u128_ok v → reads get_u128 v (be_bytes 16 v).
Proof. apply (reads_be 16). Qed.
Lemma reads_nz (r : Reader Z) v bs e :
  v ≠ 0 → reads r v bs → reads (v ← r; if v =? 0 then read_fail e else mret v) v bs.
Proof.
  intros Hv Hr. rewrite <-(app_nil_r bs). eapply reads_bind; [done|]. cbn.
  apply Z.eqb_neq in Hv. rewrite Hv. apply reads_ret.
Qed.
Lemma reads_nz_u32 v : u32_ok v → v ≠ 0 → reads get_nz_u32 v (be_bytes 4 v).
Proof. intros. apply reads_nz; [done|]. by apply reads_u32. Qed.
Lemma reads_nz_u64 v : u64_ok v → v ≠ 0 → reads get_nz_u64 v (be_bytes 8 v).
Proof. intros. apply reads_nz; [done|]. by apply reads_u64. Qed.

#[export] Hint Resolve reads_u8 reads_u16 reads_u32 reads_u64 reads_u128 reads_nz_u32
  reads_nz_u64 reads_slice reads_ret : chain.

(** ** Round trips of whole messages *)

(** A message is a sequence of fields; [fshape] forgets their contents. *)
Inductive field := F8 (v : Z) | F16 (v : Z) | F32 (v : Z) | F64 (v : Z) | F128 (v : Z)
  | FBytes (l : list Z) | FVec8 (l : list Z) | FVec16 (l : list Z) | FVec32 (l : list Z).
Inductive fshape := S8 | S16 | S32 | S64 | S128 | SBytes (n : nat) | SVec8 | SVec16 | SVec32.
Definition shape_of (f : field) : fshape :=
  match f with
  | F8 _ => S8 | F16 _ => S16 | F32 _ => S32 | F64 _ => S64 | F128 _ => S128
  | FBytes l => SBytes (length l) | FVec8 _ => SVec8 | FVec16 _ => SVec16 | FVec32 _ => SVec32
  end.
Definition field_ok (f : field) : Prop :=
  match f with
  | F8 v => u8_ok v | F16 v => u16_ok v | F32 v => u32_ok v | F64 v => u64_ok v
  | F128 v => u128_ok v | FBytes l => bytes_ok l
  | FVec8 l => Forall u64_ok l ∧ u8_ok (Z.of_nat (length l))
  | FVec16 l => Forall u64_ok l ∧ u16_ok (Z.of_nat (length l))
  | FVec32 l => Forall u64_ok l ∧ u32_ok (Z.of_nat (length l))
  end.

(** The builder calls and the reader calls for a field. *)
Definition put_field (bb : ByteBuilder) (f : field) : outcome infallible ByteBuilder :=
  match f with
  | F8 v => Ok (bb_u8 bb v) | F16 v => Ok (bb_u16 bb v) | F32 v => Ok (bb_u32 bb v)
  | F64 v => Ok (bb_u64 bb v) | F128 v => Ok (bb_u128 bb v) | FBytes l => Ok (bb_bytes bb l)
  | FVec8 l => bb_iter8 bb l bb_u64
  | FVec16 l => bb_iter16 bb l bb_u64
  | FVec32 l => bb_iter32 bb l bb_u64
  end.
Definition get_field (s : fshape) : Reader field :=
  match s with
  | S8 => v ← get_u8; mret (F8 v) | S16 => v ← get_u16; mret (F16 v)
  | S32 => v ← get_u32; mret (F32 v) | S64 => v ← get_u64; mret (F64 v)
  | S128 => v ← get_u128; mret (F128 v) | SBytes n => l ← get_slice n; mret (FBytes l)
  | SVec8 => n ← get_u8; l ← read_vec get_u64 (Z.to_nat n); mret (FVec8 l)
  | SVec16 => n ← get_u16; l ← read_vec get_u64 (Z.to_nat n); mret (FVec16 l)
  | SVec32 => n ← get_u32; l ← read_vec get_u64 (Z.to_nat n); mret (FVec32 l)
  end.
Fixpoint get_fields (ss : list fshape) : Reader (list field) :=
  match ss with
  | [] => mret []
  | s :: ss => f ← get_field s; fs ← get_fields ss; mret (f :: fs)
  end.

Definition vec64_bytes (l : list Z) : list Z := concat (be_bytes 8 <$> l).
Definition field_bytes (f : field) : list Z :=
  match f with
  | F8 v => [v] | F16 v => be_bytes 2 v | F32 v => be_bytes 4 v | F64 v => be_bytes 8 v
  | F128 v => be_bytes 16 v | FBytes l => l
  | FVec8 l => Z.of_nat (length l) :: vec64_bytes l
  | FVec16 l => be_bytes 2 (Z.of_nat (length l)) ++ vec64_bytes l
  | FVec32 l => be_bytes 4 (Z.of_nat (length l)) ++ vec64_bytes l
  end.

Lemma foldl_u64 l bb : foldl bb_u64 bb l = bb_bytes bb (vec64_bytes l).
Proof.
  revert bb. induction l as [|v l IH]; intros bb; cbn.
  - unfold bb_bytes. rewrite app_nil_r. by destruct bb.
  - rewrite IH. unfold bb_u64, bb_bytes. cbn. by rewrite <-app_assoc.
Qed.

Lemma put_field_bytes bb f :
  field_ok f → put_field bb f = Ok (bb_bytes bb (field_bytes f)).
Proof.
  destruct f; cbn; intros Hf; try done; destruct Hf as [_ Hlen];
    unfold bb_iter8, bb_iter16, bb_iter32, in_u, u32_max in *;
    rewrite bool_decide_true by lia; cbn; rewrite foldl_u64;
    unfold bb_u8, bb_u16, bb_u32, bb_bytes; cbn; by rewrite <-app_assoc.
Qed.

Lemma put_fields_bytes fs bb :
  Forall field_ok fs →
  foldM put_field bb fs = Ok (bb_bytes bb (concat (field_bytes <$> fs))).
Proof.
  revert bb. induction fs as [|f fs IH]; intros bb Hfs.
  - unfold bb_bytes. rewrite app_nil_r. by destruct bb.
  - apply Forall_cons in Hfs as [Hf Hfs]. cbn [foldM]. rewrite put_field_bytes by done. cbn.
    rewrite IH by done. unfold bb_bytes. cbn. by rewrite <-app_assoc.
Qed.

Lemma reads_bind_ret {A B} (r : Reader A) (g : A → B) a bs :
  reads r a bs → reads (v ← r; mret (g v)) (g a) bs.
Proof.
  intros Hr. rewrite <-(app_nil_r bs). eapply reads_bind; [done|apply reads_ret].
Qed.

Lemma reads_vec64 (r : Reader Z) (g : list Z → field) l bs :
  Forall u64_ok l → reads r (Z.of_nat (length l)) bs →
  reads (n ← r; l ← read_vec get_u64 (Z.to_nat n); mret (g l)) (g l) (bs ++ vec64_bytes l).
Proof.
  intros Hl Hr. eapply reads_bind; [done|]. cbn. rewrite Nat2Z.id. apply reads_bind_ret.
  apply reads_vec. intros v Hv. apply reads_u64. by eapply (proj1 (Forall_forall _ _)).
Qed.

Lemma reads_field f : field_ok f → reads (get_field (shape_of f)) f (field_bytes f).
Proof.
  destruct f as [v|v|v|v|v|l|l|l|l]; cbn; intros Hf;
    try (apply reads_bind_ret; auto with chain; fail); destruct Hf as [Hl Hlen].
  - by apply (reads_vec64 get_u8 FVec8 l [Z.of_nat (length l)]); auto with chain.
  - by apply (reads_vec64 get_u16 FVec16 l (be_bytes 2 (Z.of_nat (length l)))); auto with chain.
  - by apply (reads_vec64 get_u32 FVec32 l (be_bytes 4 (Z.of_nat (length l)))); auto with chain.
Qed.

Lemma reads_fields fs :
  Forall field_ok fs → reads (get_fields (shape_of <$> fs)) fs (concat (field_bytes <$> fs)).
Proof.
  induction fs as [|f fs IH]; intros Hfs; [apply reads_ret|].
  apply Forall_cons in Hfs as [Hf Hfs]. cbn [fmap list_fmap get_fields concat].
  eapply reads_bind; [by apply reads_field|]. apply reads_bind_ret. by apply IH.
Qed.

(** What [ByteBuilder] writes, [ReadBuf] reads back: any sequence of
    integers, byte arrays and length-prefixed vectors within the widths of
    their types is written without tripping the assertions of [iter8],
    [iter16] and [iter32], and [read_from_raw] with the corresponding getters
    returns the same sequence and finds no byte left over. *)
Theorem builder_readbuf_roundtrip fs :
  Forall field_ok fs →
  ∃ bb, foldM put_field bb_new fs = Ok bb ∧
    read_from_raw (get_fields (shape_of <$> fs)) (bb_finalize_as_vec bb) = Ok fs.
Proof.
  intros Hfs. eexists. split; [by apply put_fields_bytes|].
  apply reads_from_raw. by apply reads_fields.
Qed.

Lemma builder_readbuf_roundtrip_witness :
  ∃ bb, foldM put_field bb_new [F16 258; FBytes [7; 8]; FVec8 [5]] = Ok bb ∧
    read_from_raw (get_fields [S16; SBytes 2; SVec8]) (bb_finalize_as_vec bb) =
      Ok [F16 258; FBytes [7; 8]; FVec8 [5]].
Proof.
  apply (builder_readbuf_roundtrip [F16 258; FBytes [7; 8]; FVec8 [5]]).
  repeat constructor; cbn; lia.
Defined.

(** The getters of [ReadBuf] never panic and never read past the end: on
    a buffer whose cursor is in range, a getter of an [n]-byte integer returns
    the next [n] bytes as a big-endian number and advances by [n], or reports
    the bytes left and demanded; [peek_u8] does not advance. *)
Theorem readbuf_getters_exact b n (g : Reader Z) :
  rb_ok b →
  (n, g) ∈ [(1%nat, get_u8); (2%nat, get_u16); (4%nat, get_u32); (8%nat, get_u64);
            (16%nat, get_u128)] →
  peek_u8 b = (if decide (1 ≤ rb_left b)%nat then Ok (from_be (rb_next b 1), b)
               else Err (NotEnoughBytes (rb_left b) 1)) ∧
  if decide (n ≤ rb_left b)%nat
  then g b = Ok (from_be (rb_next b n), rb_advance b n) ∧ rb_ok (rb_advance b n)
  else g b = Err (NotEnoughBytes (rb_left b) n).
Proof.
  intros Hb Hg.
  assert (1 ≤ rb_left b → rb_data b !! rb_offset b = Some (from_be (rb_next b 1)))%nat as Hone.
  { unfold rb_left, rb_next. intros Hl.
    destruct (lookup_lt_is_Some_2 (rb_data b) (rb_offset b)) as [x Hx]; [lia|].
    erewrite drop_S by done. cbn. by rewrite Hx. }
  assert (n ≤ rb_left b → rb_ok (rb_advance b n))%nat as Hadv.
  { unfold rb_ok, rb_left, rb_advance in *. cbn. lia. }
  split.
  { unfold peek_u8, assure_size. rewrite reader_bind_eq. case_decide; [|done].
    cbn. by rewrite Hone. }
  repeat (apply elem_of_cons in Hg as [Hg|Hg]; [|try by apply elem_of_nil in Hg]);
    injection Hg as -> ->;
    try (unfold get_u16, get_u32, get_u64, get_u128; rewrite reader_bind_eq, get_slice_eq by done;
         case_decide; [split; [done|auto]|done]).
  unfold get_u8, assure_size. rewrite reader_bind_eq. case_decide; [|done].
  cbn. rewrite Hone by done. split; [done|auto].
Qed.

Lemma readbuf_getters_exact_witness :
  get_u16 (mkReadBuf 1 [9; 1; 2; 3]) = Ok (258, mkReadBuf 3 [9; 1; 2; 3]) ∧
  get_u32 (mkReadBuf 1 [9; 1; 2; 3]) = Err (NotEnoughBytes 3 4).
Proof.
  split.
  - assert (rb_ok (mkReadBuf 1 [9; 1; 2; 3])) as H by (cbv; lia).
    destruct (readbuf_getters_exact _ 2 get_u16 H) as [_ He]; [right; left|].
    exact (proj1 He).
  - assert (rb_ok (mkReadBuf 1 [9; 1; 2; 3])) as H by (cbv; lia).
    destruct (readbuf_getters_exact _ 4 get_u32 H) as [_ He]; [do 2 right; left|].
    exact He.
Defined.

(** A [Buffered] hole filled with a value of its size keeps the bytes around
    it; any other size panics. *)
Lemma fill_hole_spec b h len (v tail : list Z) :
  hole b len = (h, mkBuffered (bf_inner b) (bf_pending b ++ replicate len 0)) →
  fill_hole (bf_write (snd (hole b len)) tail) h v =
    if decide (length v = len) then Ok (mkBuffered (bf_inner b) (bf_pending b ++ v ++ tail))
    else Panic.
Proof.
  intros [= <-]. unfold fill_hole. cbn. unfold slice_range.
  rewrite !length_app, length_replicate, decide_True by lia. cbn.
  replace (length (bf_pending b) + len - length (bf_pending b))%nat with len by lia.
  case_decide as Hv.
  - rewrite Hv, Nat.eqb_refl. cbn. do 2 f_equal. rewrite <-app_assoc, take_app_length.
    f_equal. f_equal. rewrite app_assoc, drop_app_length'; [done|].
    rewrite length_app, length_replicate. lia.
  - by rewrite (proj2 (Nat.eqb_neq _ _)) by lia.
Qed.

(** ** The self-describing encoding of [chain-ser/src/abor.rs] *)
(** The elements counted so far, and the open arrays, the innermost first: the
    count at their start and the place of their length. *)
Record AborEncoder := mkAbor { ab_data : list Z; ab_hole : list (nat * nat); ab_current_element : nat }.
Inductive AborTag := TagU8 | TagU16 | TagU32 | TagU64 | TagU128 | TagBytes | TagArray.
#[export] Instance AborTag_eq_dec : EqDecision AborTag.
Proof. solve_decision. Defined.
Definition abor_tag (t : AborTag) : Z :=
  match t with TagU8 => 1 | TagU16 => 2 | TagU32 => 3 | TagU64 => 4 | TagU128 => 5 | TagBytes => 6 | TagArray => 7 end.
Definition abor_tag_from_u8 (v : Z) : option AborTag :=
  if decide (v = 1) then Some TagU8 else if decide (v = 2) then Some TagU16 else if decide (v = 3) then Some TagU32
  else if decide (v = 4) then Some TagU64 else if decide (v = 5) then Some TagU128 else if decide (v = 6) then Some TagBytes
  else if decide (v = 7) then Some TagArray else None.

Definition abor_new : AborEncoder := mkAbor [] [] 0.
Definition ab_push_slice (e : AborEncoder) (s : list Z) : AborEncoder := mkAbor (ab_data e ++ s) (ab_hole e) (ab_current_element e).
Definition ab_push_byte (e : AborEncoder) (u : Z) : AborEncoder := ab_push_slice e [u].
Definition ab_push_tag (e : AborEncoder) (t : AborTag) : AborEncoder := ab_push_byte e (abor_tag t).
Definition ab_incr (e : AborEncoder) : AborEncoder := mkAbor (ab_data e) (ab_hole e) (S (ab_current_element e)).
Definition ab_u8 (e : AborEncoder) (u : Z) : AborEncoder := ab_incr (ab_push_byte (ab_push_tag e TagU8) u).
Definition ab_u16 (e : AborEncoder) (u : Z) : AborEncoder := ab_incr (ab_push_slice (ab_push_tag e TagU16) (le_bytes 2 u)).
Definition ab_u32 (e : AborEncoder) (u : Z) : AborEncoder := ab_incr (ab_push_slice (ab_push_tag e TagU32) (le_bytes 4 u)).
Definition ab_u64 (e : AborEncoder) (u : Z) : AborEncoder := ab_incr (ab_push_slice (ab_push_tag e TagU64) (le_bytes 8 u)).
Definition ab_u128 (e : AborEncoder) (u : Z) : AborEncoder := ab_incr (ab_push_slice (ab_push_tag e TagU128) (le_bytes 16 u)).
Definition ab_bytes (e : AborEncoder) (bs : list Z) : outcome infallible AborEncoder :=
  assert_that (length bs <? 256)%nat ;;
  Ok (ab_incr (ab_push_slice (ab_push_byte (ab_push_tag e TagBytes) (Z.of_nat (length bs))) bs)).
Definition struct_start (e : AborEncoder) : AborEncoder :=
  let d := ab_push_tag e TagArray in
  let c := S (ab_current_element d) in
  mkAbor (ab_data d ++ [0xfe]) ((c, length (ab_data d)) :: ab_hole d) c.
Definition struct_end (e : AborEncoder) : outcome infallible AborEncoder :=
  match ab_hole e with
  | [] => Panic
  | (start_element, ofs) :: h =>
      let nb_elements := (ab_current_element e - start_element)%nat in
      assert_that (nb_elements <? 256)%nat ;;
      assert_that (ofs <? length (ab_data e))%nat ;;
      Ok (mkAbor (<[ofs := Z.of_nat nb_elements]> (ab_data e)) h (ab_current_element e))
  end.
Definition abor_finalize (e : AborEncoder) : outcome infallible (list Z) :=
  assert_that (length (ab_hole e) =? 0)%nat ;; Ok (ab_data e).

(** A decoder is the rest of its slice; after an error it is not read on. *)
Inductive AborError :=
| AborEndOfStream | AborStreamTooSmall (want has : nat) | AborStreamPending (left : nat) | AborTypeUnknown (t : Z)
| AborTypeMismatch (got expected : AborTag).
Abbreviation AborReader A := (list Z → outcome AborError (A * list Z)).
Definition ab_pop : AborReader Z := λ slice, match slice with v :: slice => Ok (v, slice) | [] => Err AborEndOfStream end.
Definition ab_expect_tag (tag : AborTag) : AborReader unit := λ slice,
  '(t, slice) ← ab_pop slice;
  match abor_tag_from_u8 t with
  | None => b ← unwrap_opt (slice !! 0%nat); Err (AborTypeUnknown b)
  | Some got => if decide (got = tag) then Ok ((), slice) else Err (AborTypeMismatch got tag)
  end.
Definition ab_expect_size (nb_bytes : nat) : AborReader unit := λ slice,
  if decide (nb_bytes ≤ length slice)%nat then Ok ((), slice) else Err (AborStreamTooSmall nb_bytes (length slice)).
Definition ab_expect_tag_size (tag : AborTag) (nb_bytes : nat) : AborReader unit := λ slice,
  '(_, slice) ← ab_expect_tag tag slice; ab_expect_size nb_bytes slice.
(** The bytes [0 .. n] of the slice, which then moves past them. *)
Definition ab_take (n : nat) : AborReader (list Z) := λ slice, b ← slice_range slice 0 n; Ok (b, drop n slice).
Definition ab_get_array : AborReader nat := λ slice,
  '(_, slice) ← ab_expect_tag_size TagArray 1 slice; '(len, slice) ← ab_pop slice; Ok (Z.to_nat len, slice).
Definition ab_get_u8 : AborReader Z := λ slice, '(_, slice) ← ab_expect_tag_size TagU8 1 slice; ab_pop slice.
Definition ab_get_u16 : AborReader Z := λ slice,
  '(_, slice) ← ab_expect_tag_size TagU16 2 slice; '(b, slice) ← ab_take 2 slice; Ok (from_le b, slice).
Definition ab_get_u32 : AborReader Z := λ slice,
  '(_, slice) ← ab_expect_tag_size TagU32 2 slice; '(b, slice) ← ab_take 4 slice; Ok (from_le b, slice).
Definition ab_get_u64 : AborReader Z := λ slice,
  '(_, slice) ← ab_expect_tag_size TagU64 8 slice; '(b, slice) ← ab_take 8 slice; Ok (from_le b, slice).
Definition ab_get_u128 : AborReader Z := λ slice,
  '(_, slice) ← ab_expect_tag_size TagU128 16 slice; '(b, slice) ← ab_take 16 slice; Ok (from_le b, slice).
Definition ab_get_bytes : AborReader (list Z) := λ slice,
  '(_, slice) ← ab_expect_tag_size TagBytes 1 slice;
  '(len, slice) ← ab_pop slice;
  '(_, slice) ← ab_expect_size (Z.to_nat len) slice;
  ab_take (Z.to_nat len) slice.
Definition abor_end (slice : list Z) : outcome AborError unit :=
  match slice with [] => Ok () | _ => Err (AborStreamPending (length slice)) end.

(** *** Whole values *)
Inductive abor := AU8 (v : Z) | AU16 (v : Z) | AU32 (v : Z) | AU64 (v : Z) | AU128 (v : Z) | ABytes (l : list Z) | AStruct (l : list abor).
Fixpoint abor_put (e : AborEncoder) (v : abor) : outcome infallible AborEncoder :=
  match v with
  | AU8 v => Ok (ab_u8 e v) | AU16 v => Ok (ab_u16 e v) | AU32 v => Ok (ab_u32 e v) | AU64 v => Ok (ab_u64 e v) | AU128 v => Ok (ab_u128 e v)
  | ABytes l => ab_bytes e l
  | AStruct l => e ← foldM abor_put (struct_start e) l; struct_end e
  end.
(** The elements in an array are counted with all that they contain. *)
Fixpoint abor_weight (v : abor) : nat := match v with AStruct l => S (sum_list_with abor_weight l) | _ => 1 end.
Fixpoint abor_bytes (v : abor) : list Z :=
  match v with
  | AU8 v => [1; v] | AU16 v => 2 :: le_bytes 2 v | AU32 v => 3 :: le_bytes 4 v | AU64 v => 4 :: le_bytes 8 v | AU128 v => 5 :: le_bytes 16 v
  | ABytes l => 6 :: Z.of_nat (length l) :: l
  | AStruct l => 7 :: Z.of_nat (sum_list_with abor_weight l) :: concat (map abor_bytes l)
  end.
Fixpoint abor_ok (v : abor) : Prop :=
  match v with
  | AU8 v => u8_ok v | AU16 v => u16_ok v | AU32 v => u32_ok v | AU64 v => u64_ok v | AU128 v => u128_ok v
  | ABytes l => (length l < 256)%nat
  | AStruct l => (sum_list_with abor_weight l < 256)%nat ∧ foldr (λ v P, abor_ok v ∧ P) True l
  end.
(** The reader of a value of the shape of [v]. *)
Fixpoint abor_get (v : abor) : AborReader abor := λ slice,
  match v with
  | AU8 _ => '(x, slice) ← ab_get_u8 slice; Ok (AU8 x, slice)
  | AU16 _ => '(x, slice) ← ab_get_u16 slice; Ok (AU16 x, slice)
  | AU32 _ => '(x, slice) ← ab_get_u32 slice; Ok (AU32 x, slice)
  | AU64 _ => '(x, slice) ← ab_get_u64 slice; Ok (AU64 x, slice)
  | AU128 _ => '(x, slice) ← ab_get_u128 slice; Ok (AU128 x, slice)
  | ABytes _ => '(x, slice) ← ab_get_bytes slice; Ok (ABytes x, slice)
  | AStruct l =>
      '(_, slice) ← ab_get_array slice;
      '(xs, slice) ← foldr (λ v (k : AborReader (list abor)) slice, '(x, slice) ← abor_get v slice; '(xs, slice) ← k slice; Ok (x :: xs, slice))
                       (λ slice, Ok ([], slice)) l slice;
      Ok (AStruct xs, slice)
  end.
Lemma abor_nested_ind (P : abor → Prop) :
  (∀ v, (∀ l, v ≠ AStruct l) → P v) → (∀ l, Forall P l → P (AStruct l)) → ∀ v, P v.
Proof.
  intros Hleaf Hstruct. fix IH 1. intros [v|v|v|v|v|l|l]; try (apply Hleaf; done). apply Hstruct. induction l as [|v l IHl]; constructor; [apply IH|exact IHl].
Qed.

(** What the encoder appends. *)
Lemma abor_put_ok v e :
  abor_ok v → abor_put e v = Ok (mkAbor (ab_data e ++ abor_bytes v) (ab_hole e) (ab_current_element e + abor_weight v)).
Proof.
  revert e. induction v as [v Hleaf|l IH] using abor_nested_ind; intros e Hok.
  - destruct v as [v|v|v|v|v|bs|l]; cbn [abor_put abor_bytes abor_weight abor_ok] in *; [..|by destruct (Hleaf l)];
      unfold ab_bytes, ab_u8, ab_u16, ab_u32, ab_u64, ab_u128, ab_push_byte, ab_push_tag, ab_push_byte, ab_push_slice, ab_incr;
      cbn [ab_data ab_hole ab_current_element abor_tag];
      [..|destruct (Nat.ltb_spec (length bs) 256); [|lia]; cbn [assert_that mbind outcome_bind]];
      rewrite <-?app_assoc; do 2 f_equal; lia.
  - destruct Hok as [Hw Hok]. cbn [abor_put]. unfold struct_start. set (e0 := mkAbor _ _ _).
    assert (∀ e, foldM abor_put e l =
      Ok (mkAbor (ab_data e ++ concat (map abor_bytes l)) (ab_hole e) (ab_current_element e + sum_list_with abor_weight l))) as Hl.
    { clear Hw e0 e. induction IH as [|v l Hv _ IHl]; intros e; cbn [foldM map concat sum_list_with].
      - rewrite app_nil_r, Nat.add_0_r. by destruct e.
      - destruct Hok as [Hvok Hok]. rewrite Hv by done. cbn [mbind outcome_bind]. rewrite IHl by done.
        cbn [ab_data ab_hole ab_current_element]. do 2 f_equal; [by rewrite app_assoc|lia]. }
    rewrite Hl. unfold e0, ab_push_tag, ab_push_byte, ab_push_slice, struct_end. cbn [mbind outcome_bind ab_data ab_hole ab_current_element abor_tag].
    rewrite Nat.add_comm, Nat.add_sub. destruct (Nat.ltb_spec (sum_list_with abor_weight l) 256); [|lia].
    cbn [assert_that mbind outcome_bind]. rewrite <-!app_assoc. rewrite (length_app (ab_data e)). cbn [length].
    match goal with |- context [(?a <? ?b)%nat] => destruct (Nat.ltb_spec a b) as [|Hge]; [|rewrite !length_app in Hge; cbn [length] in Hge; lia] end.
    cbn [assert_that mbind outcome_bind]. cbn [abor_bytes abor_weight]. do 2 f_equal; [|lia].
    rewrite insert_app_r. done.
Qed.
(** What is read back. *)
Lemma ab_expect_tag_size_ok t n r : (n ≤ length r)%nat → ab_expect_tag_size t n (abor_tag t :: r) = Ok ((), r).
Proof.
  intros Hn. unfold ab_expect_tag_size, ab_expect_tag, ab_expect_size. cbn [ab_pop mbind outcome_bind].
  assert (abor_tag_from_u8 (abor_tag t) = Some t) as -> by (by destruct t). rewrite decide_True by done. cbn [mbind outcome_bind].
  by rewrite decide_True.
Qed.
Lemma ab_take_ok n bs r : length bs = n → ab_take n (bs ++ r) = Ok (bs, r).
Proof.
  intros <-. unfold ab_take, slice_range. rewrite decide_True by (rewrite length_app; lia). cbn [mbind outcome_bind].
  rewrite Nat.sub_0_r, drop_0, take_app_length, drop_app_length. done.
Qed.
Lemma abor_get_ok v r : abor_ok v → abor_get v (abor_bytes v ++ r) = Ok (v, r).
Proof.
  assert (∀ n x, length (le_bytes n x) = n) as Hlen by (intros n x; unfold le_bytes; by rewrite length_reverse, length_be_bytes).
  revert r. induction v as [v Hleaf|l IH] using abor_nested_ind; intros r Hok.
  - destruct v as [v|v|v|v|v|bs|l]; cbn [abor_get abor_bytes abor_ok app] in *; [..|by destruct (Hleaf l)].
    + unfold ab_get_u8. rewrite (ab_expect_tag_size_ok TagU8) by (cbn [length]; lia). done.
    + unfold ab_get_u16. rewrite (ab_expect_tag_size_ok TagU16) by (rewrite length_app, Hlen; lia). cbn [mbind outcome_bind].
      rewrite ab_take_ok by done. cbn [mbind outcome_bind]. by rewrite from_le_bytes.
    + unfold ab_get_u32. rewrite (ab_expect_tag_size_ok TagU32) by (rewrite length_app, Hlen; lia). cbn [mbind outcome_bind].
      rewrite ab_take_ok by done. cbn [mbind outcome_bind]. by rewrite from_le_bytes.
    + unfold ab_get_u64. rewrite (ab_expect_tag_size_ok TagU64) by (rewrite length_app, Hlen; lia). cbn [mbind outcome_bind].
      rewrite ab_take_ok by done. cbn [mbind outcome_bind]. by rewrite from_le_bytes.
    + unfold ab_get_u128. rewrite (ab_expect_tag_size_ok TagU128) by (rewrite length_app, Hlen; lia). cbn [mbind outcome_bind].
      rewrite ab_take_ok by done. cbn [mbind outcome_bind]. by rewrite from_le_bytes.
    + unfold ab_get_bytes. rewrite (ab_expect_tag_size_ok TagBytes) by (cbn [length]; lia). cbn [mbind outcome_bind ab_pop].
      rewrite Nat2Z.id. unfold ab_expect_size. rewrite decide_True by (rewrite length_app; lia). cbn [mbind outcome_bind].
      by rewrite ab_take_ok.
  - destruct Hok as [Hw Hok]. cbn [abor_get abor_bytes app]. unfold ab_get_array.
    rewrite (ab_expect_tag_size_ok TagArray) by (cbn [length]; lia). cbn [mbind outcome_bind ab_pop].
    assert (∀ r, foldr (λ v (k : AborReader (list abor)) slice, '(x, slice) ← abor_get v slice; '(xs, slice) ← k slice; Ok (x :: xs, slice))
                       (λ slice, Ok ([], slice)) l (concat (map abor_bytes l) ++ r) = Ok (l, r)) as Hl.
    { clear Hw r. induction IH as [|v l Hv _ IHl]; intros r; [done|]. destruct Hok as [Hvok Hok]. cbn [foldr map concat].
      rewrite <-app_assoc, Hv by done. cbn [mbind outcome_bind]. by rewrite IHl. }
    by rewrite Hl.
Qed.
(** Values are written and read back; the length of an array is the number of
    the elements in it and in the arrays it contains. *)
Theorem abor_roundtrip v :
  abor_ok v →
  ∃ e data, abor_put abor_new v = Ok e ∧ abor_finalize e = Ok data ∧
    (slice ← abor_get v data; abor_end slice.2;; Ok slice.1) = Ok v ∧
    ∀ l, v = AStruct l → fst <$> ab_get_array data = Ok (sum_list_with abor_weight l).
Proof.
  intros Hok. eexists _, (abor_bytes v). split; [by apply abor_put_ok|]. split; [done|]. split.
  - rewrite <-(app_nil_r (abor_bytes v)). by rewrite abor_get_ok.
  - intros l ->. cbn [abor_bytes]. unfold ab_get_array. rewrite (ab_expect_tag_size_ok TagArray) by (cbn [length]; lia).
    cbn [mbind outcome_bind ab_pop fmap outcome_fmap fst]. by rewrite Nat2Z.id.
Qed.
Example abor_nested_length :
  fst <$> ab_get_array (abor_bytes (AStruct [AU8 1; AStruct [AU8 2; AU8 3; AU8 4]])) = Ok 5%nat.
Proof. done. Qed.
(** An unknown tag is reported as the byte that follows it, and panics at the
    end; a 32-bit integer is only checked to have two bytes. *)
Example abor_unknown_tag : ab_get_u8 [9; 42; 0] = Err (AborTypeUnknown 42) ∧ ab_get_u8 [9] = Panic.
Proof. done. Qed.
Example abor_short_u32 : ab_get_u32 [3; 1; 2; 3] = Panic ∧ ab_get_u64 [4; 1; 2; 3] = Err (AborStreamTooSmall 8 3).
Proof. done. Qed.
