(* ===== verification/LegacyAddr.v ===== *)
(** * The addresses of the legacy chain ([cardano-legacy-address/src])

    [base58.rs], [crc32.rs] with its table, and the addresses of [address.rs] in
    CBOR with a checksum ([cbor.rs]).  The CBOR library is the class
    [CborEvent]; [CborLaws] states that its reader inverts its writer.  Hashes
    and extended public keys are the class [LegacyCrypto]. *)
From S2P Require Import Prelude Codec.
Local Open Scope Z_scope.

(** ** [base58.rs] *)
Definition str_bytes (s : string) : list Z := (λ a, Z.of_N (Ascii.N_of_ascii a)) <$> String.list_ascii_of_string s.
Definition BASE58_ALPHABET : list Z := str_bytes "123456789ABCDEFGHJKLMNPQRSTUVWXYZabcdefghijkmnopqrstuvwxyz".
Inductive Base58Error := UnknownSymbol (i : nat).

(** The inner loops: [carry] through the digits, then what is left of it, whose
    fuel bounds the bits of a [u32]. *)
Fixpoint encode_carry (base : Z) (digits : list Z) (carry : Z) : list Z * Z :=
  match digits with
  | [] => ([], carry)
  | digit :: digits =>
      let carry := wrap 32 (carry + wrap 32 (Z.shiftl digit 8)) in
      let '(digits, carry') := encode_carry base digits (carry / base) in
      (wrap 8 (carry mod base) :: digits, carry')
  end.
Fixpoint encode_push (fuel : nat) (base carry : Z) : list Z :=
  match fuel with
  | O => []
  | S fuel => if 0 <? carry then wrap 8 (carry mod base) :: encode_push fuel base (carry / base) else []
  end.
Definition encode_step (base : Z) (digits : list Z) (input : Z) : list Z :=
  let '(digits, carry) := encode_carry base digits input in digits ++ encode_push 32 base carry.
Fixpoint leading (x : Z) (l : list Z) : nat :=
  match l with [] => O | y :: l => if decide (y = x) then S (leading x l) else O end.
Definition base_encode {E} (alphabet input : list Z) : outcome E (list Z) :=
  let base := Z.of_nat (length alphabet) in
  let digits := foldl (encode_step base) [0] input in
  zero ← unwrap_opt (alphabet !! 0%nat);
  symbols ← mapM (λ digit, unwrap_opt (alphabet !! Z.to_nat digit)) (reverse digits);
  Ok (replicate (leading 0 input) zero ++ symbols).

Fixpoint decode_carry (base : Z) (bytes : list Z) (carry : Z) : list Z * Z :=
  match bytes with
  | [] => ([], carry)
  | byte :: bytes =>
      let carry := wrap 32 (carry + wrap 32 (byte * base)) in
      let '(bytes, carry') := decode_carry base bytes (Z.shiftr carry 8) in
      (wrap 8 carry :: bytes, carry')
  end.
Fixpoint decode_push (fuel : nat) (carry : Z) : list Z :=
  match fuel with
  | O => []
  | S fuel => if 0 <? carry then wrap 8 carry :: decode_push fuel (Z.shiftr carry 8) else []
  end.
Definition decode_step (base : Z) (bytes : list Z) (value : Z) : list Z :=
  let '(bytes, carry) := decode_carry base bytes value in bytes ++ decode_push 32 carry.
(** [position]. *)
Definition position (x : Z) (l : list Z) : option nat := fst <$> list_find (eq x) l.
Fixpoint decode_symbols (alphabet : list Z) (i : nat) (bytes input : list Z) : outcome Base58Error (list Z) :=
  match input with
  | [] => Ok bytes
  | symbol :: input =>
      value ← ok_or (position symbol alphabet) (UnknownSymbol i);
      decode_symbols alphabet (S i) (decode_step (Z.of_nat (length alphabet)) bytes (Z.of_nat value)) input
  end.
(** [Vec::resize] with zeros. *)
Definition resize (l : list Z) (n : nat) : list Z := take n l ++ replicate (n - length l) 0.
Definition base_decode (alphabet input : list Z) : outcome Base58Error (list Z) :=
  zero ← unwrap_opt (alphabet !! 0%nat);
  let zcount := leading zero input in
  bytes ← decode_symbols alphabet 0 [0] (drop zcount input);
  let leading_zeros := leading 0 (reverse bytes) in
  let bytes :=
    if (leading_zeros <? zcount)%nat then
      let unpad := if (0 <? leading_zeros)%nat then S leading_zeros else O in
      resize bytes (length bytes + zcount - unpad)
    else bytes in
  Ok (reverse bytes).
Definition base58_encode {E} (input : list Z) : outcome E (list Z) := base_encode BASE58_ALPHABET input.
Definition base58_decode (input : list Z) : outcome Base58Error (list Z) := base_decode BASE58_ALPHABET input.

Example base58_vector :
  base58_encode (E := infallible) (0 :: str_bytes "abc") = Ok (str_bytes "1ZiCa") ∧ base58_decode (str_bytes "1ZiCa") = Ok (0 :: str_bytes "abc") ∧
  base58_encode (E := infallible) [0; 0; 0; 0] = Ok (str_bytes "11111") ∧ base58_decode (str_bytes "11111") = Ok [0; 0; 0; 0].
Proof. by vm_compute. Qed.
(** The empty input is not read back, and the index of a faulty symbol does not
    count the zeros. *)
Example base58_empty : base58_encode (E := infallible) [] = Ok (str_bytes "1") ∧ base58_decode (str_bytes "1") = Ok [0].
Proof. by vm_compute. Qed.
Example base58_error_index : base58_decode (str_bytes "111Z0") = Err (UnknownSymbol 1).
Proof. by vm_compute. Qed.

(** *** Numbers by their digits, the lowest first *)
Fixpoint val (b : Z) (l : list Z) : Z := match l with [] => 0 | d :: l => d + b * val b l end.
Definition digits_ok (b : Z) (l : list Z) : Prop := Forall (λ d, 0 ≤ d < b) l.
Definition canonical (b : Z) (l : list Z) : Prop := l ≠ [] ∧ digits_ok b l ∧ (last l = Some 0 → l = [0]).

Lemma val_app b l l' : val b (l ++ l') = val b l + b ^ Z.of_nat (length l) * val b l'.
Proof.
  induction l as [|d l IH]; cbn [app val length]; [rewrite Z.pow_0_r; lia|]. rewrite IH, Nat2Z.inj_succ, Z.pow_succ_r by lia. lia.
Qed.
Lemma val_nonneg b l : 0 < b → digits_ok b l → 0 ≤ val b l.
Proof. intros Hb. induction 1 as [|d l Hd _ IH]; cbn; [done|]. nia. Qed.
Lemma last_cons_ne {A} (x : A) l : l ≠ [] → last (x :: l) = last l.
Proof. by destruct l. Qed.
Lemma val_pos b l : 0 < b → digits_ok b l → l ≠ [] → last l ≠ Some 0 → 0 < val b l.
Proof.
  intros Hb Hok. induction Hok as [|d l Hd Hl IH]; [done|]. intros _ Hlast. cbn.
  destruct l as [|e l]; [cbn in *; assert (d ≠ 0) by congruence; lia|].
  assert (0 < val b (e :: l)); [|nia]. apply IH; [done|]. by rewrite last_cons_ne in Hlast.
Qed.
Lemma val_inj b l l' :
  0 < b → digits_ok b l → digits_ok b l' → last l ≠ Some 0 → last l' ≠ Some 0 → val b l = val b l' → l = l'.
Proof.
  intros Hb Hl. revert l'. induction Hl as [|d l Hd Hl IH]; intros [|d' l'] Hl' Hlast Hlast' Heq; try done.
  - pose proof (val_pos b (d' :: l') Hb Hl' ltac:(done) Hlast'). cbn in *. lia.
  - pose proof (val_pos b (d :: l) Hb (Forall_cons_2 _ _ _ Hd Hl) ltac:(done) Hlast). cbn in *. lia.
  - apply Forall_cons in Hl' as [Hd' Hl']. cbn in Heq.
    assert (d = d' ∧ val b l = val b l') as [-> Hv].
    { pose proof (val_nonneg b l Hb Hl). pose proof (val_nonneg b l' Hb Hl'). 
      assert ((d + b * val b l) mod b = d) as H1 by (rewrite Z.mul_comm, Z_mod_plus_full; by apply Z.mod_small).
      assert ((d' + b * val b l') mod b = d') as H2 by (rewrite Z.mul_comm, Z_mod_plus_full; by apply Z.mod_small).
      rewrite Heq in H1. assert (d = d') by congruence. split; [done|]. subst. nia. }
    f_equal. apply IH; [done| | |done].
    + destruct l; [done|]. by rewrite last_cons_ne in Hlast.
    + destruct l'; [done|]. by rewrite last_cons_ne in Hlast'.
Qed.
(** The value of the digits read from the highest down. *)
Lemma foldl_val b l a : foldl (λ a d, b * a + d) a (reverse l) = val b l + b ^ Z.of_nat (length l) * a.
Proof.
  induction l as [|d l IH]; [cbn; lia|]. rewrite reverse_cons, foldl_app, IH. cbn [foldl val length].
  rewrite Nat2Z.inj_succ, Z.pow_succ_r by lia. lia.
Qed.

(** *** Multiplying and adding *)
Fixpoint carry_through (m b : Z) (ds : list Z) (c : Z) : list Z * Z :=
  match ds with
  | [] => ([], c)
  | d :: ds => let t := c + d * m in let '(ds', c') := carry_through m b ds (t / b) in (t mod b :: ds', c')
  end.
Definition mul_add (m b : Z) (ds : list Z) (c : Z) : list Z :=
  let '(ds', c') := carry_through m b ds c in ds' ++ encode_push 32 b c'.

Lemma carry_bound m b c d : 0 < b → 0 ≤ c < m → 0 ≤ d < b → 0 ≤ c + d * m < b * m ∧ 0 ≤ (c + d * m) / b < m.
Proof.
  intros Hb Hc Hd. assert (0 ≤ c + d * m < b * m) as H by nia. split; [done|]. split; [apply Z.div_pos; lia|].
  apply Z.div_lt_upper_bound; lia.
Qed.
Lemma carry_through_ok m b ds c :
  0 < b → 0 ≤ c < m → digits_ok b ds →
  ∃ ds' c', carry_through m b ds c = (ds', c') ∧ digits_ok b ds' ∧ length ds' = length ds ∧ 0 ≤ c' < m ∧
    val b ds' + b ^ Z.of_nat (length ds) * c' = m * val b ds + c.
Proof.
  intros Hb Hc Hds. revert c Hc. induction Hds as [|d ds Hd Hds IH]; intros c Hc; cbn [carry_through].
  { exists [], c. cbn. split_and!; try done; lia || constructor. }
  destruct (carry_bound m b c d Hb Hc Hd) as [_ Hq]. destruct (IH _ Hq) as (ds' & c' & -> & Hok & Hlen & Hc' & Hval).
  eexists _, c'. split; [reflexivity|]. split; [constructor; [by apply Z.mod_pos_bound|done]|]. split; [cbn; by rewrite Hlen|]. split; [done|].
  cbn [val length].
  rewrite Nat2Z.inj_succ, Z.pow_succ_r by lia. pose proof (Z.div_mod (c + d * m) b ltac:(lia)). nia.
Qed.
Lemma encode_push_ok fuel b c :
  2 ≤ b ≤ 256 → 0 ≤ c < 2 ^ Z.of_nat fuel →
  digits_ok b (encode_push fuel b c) ∧ val b (encode_push fuel b c) = c ∧ last (encode_push fuel b c) ≠ Some 0.
Proof.
  intros Hb. revert c. induction fuel as [|fuel IH]; intros c Hc; cbn [encode_push]; [cbn in *; split_and!; [constructor|lia|done]|].
  destruct (Z.ltb_spec 0 c) as [Hpos|Hz]; [|cbn; split_and!; [constructor|lia|done]].
  rewrite Nat2Z.inj_succ, Z.pow_succ_r in Hc by lia.
  pose proof (Z.mod_pos_bound c b ltac:(lia)) as Hm. pose proof (Z.div_mod c b ltac:(lia)) as Hdm.
  destruct (IH (c / b)) as (Hok & Hval & Hlast); [split; [apply Z.div_pos; lia|apply Z.div_lt_upper_bound; nia]|].
  rewrite wrap_small by (split; [lia|change (2 ^ 8) with 256; lia]). split; [by constructor|]. split.
  - cbn [val]. rewrite Hval. lia.
  - destruct (encode_push fuel b (c / b)) as [|e l] eqn:He; [|by rewrite last_cons_ne]. cbn in Hval. cbn. intros [= Heq]. lia.
Qed.
Lemma carry_through_snoc m b ds d c :
  carry_through m b (ds ++ [d]) c =
  let '(ds', c') := carry_through m b ds c in (ds' ++ [(c' + d * m) mod b], (c' + d * m) / b).
Proof.
  revert c. induction ds as [|e ds IH]; intros c; cbn [app carry_through]; [done|]. rewrite IH. by destruct (carry_through m b ds _).
Qed.
Lemma mul_add_ok m b ds c :
  2 ≤ b ≤ 256 → 0 ≤ c < m → m ≤ 256 → canonical b ds →
  canonical b (mul_add m b ds c) ∧ val b (mul_add m b ds c) = m * val b ds + c.
Proof.
  intros Hb Hc Hm (Hne & Hok & Hlast). unfold mul_add.
  destruct (carry_through_ok m b ds c ltac:(lia) Hc Hok) as (ds' & c' & Heq & Hok' & Hlen & Hc' & Hval). rewrite Heq.
  destruct (encode_push_ok 32 b c' Hb) as (Hpok & Hpval & Hplast); [change (2 ^ Z.of_nat 32) with (2 ^ 32); lia|].
  split; [|by rewrite val_app, Hpval, Hlen].
  split; [destruct ds, ds'; by cbn in *|]. split; [by apply Forall_app|]. intros Hzero.
  destruct (encode_push 32 b c') as [|e l] eqn:Hpush; [|rewrite last_app in Hzero; by destruct (last (e :: l)) eqn:He; [congruence|apply last_None in He]].
  cbn in Hpval. subst c'. rewrite app_nil_r in *.
  destruct (exists_last Hne) as (ds0 & d & ->). rewrite carry_through_snoc in Heq. destruct (carry_through m b ds0 c) as [ds1 c1] eqn:H0.
  injection Heq as <- Hc1. apply Forall_app in Hok as [Hok0 Hd]. apply Forall_singleton in Hd.
  destruct (carry_through_ok m b ds0 c ltac:(lia) Hc Hok0) as (x & y & Hxy & _ & Hl1 & Hc1' & _). rewrite H0 in Hxy. injection Hxy as <- <-.
  rewrite last_snoc in Hzero. injection Hzero as Hz. pose proof (Z.div_mod (c1 + d * m) b ltac:(lia)) as Hdm. rewrite Hc1, Hz in Hdm.
  assert (d = 0) as -> by nia. assert (ds0 = []) as ->. { specialize (Hlast ltac:(by rewrite last_snoc)). by destruct ds0 as [|? [|]]. }
  cbn in Hl1. destruct ds1; [|done]. cbn in *. by rewrite Hz.
Qed.

(** *** The loops are such multiplications *)
Lemma encode_carry_through b ds c :
  2 ≤ b ≤ 256 → 0 ≤ c < 256 → digits_ok b ds → encode_carry b ds c = carry_through 256 b ds c.
Proof.
  intros Hb Hc Hds. revert c Hc. induction Hds as [|d ds Hd _ IH]; intros c Hc; cbn [encode_carry carry_through]; [done|].
  destruct (carry_bound 256 b c d ltac:(lia) Hc Hd) as [Ht Hq]. rewrite Z.shiftl_mul_pow2 by lia. change (2 ^ 8) with 256.
  rewrite (wrap_small 32 (d * 256)) by (split; lia). rewrite wrap_small by (split; lia).
  pose proof (Z.mod_pos_bound (c + d * 256) b ltac:(lia)). rewrite wrap_small by (split; [lia|change (2 ^ 8) with 256; lia]).
  by rewrite IH.
Qed.
Lemma decode_push_through fuel c : 0 ≤ c → decode_push fuel c = encode_push fuel 256 c.
Proof.
  revert c. induction fuel as [|fuel IH]; intros c Hc; cbn [decode_push encode_push]; [done|]. destruct (0 <? c); [|done].
  rewrite Z.shiftr_div_pow2 by lia. change (2 ^ 8) with 256. rewrite IH by (apply Z.div_pos; lia). f_equal.
  rewrite (wrap_small 8 (c mod 256)); [done|]. split; [apply Z.mod_pos_bound; lia|]. pose proof (Z.mod_pos_bound c 256 ltac:(lia)). change (2 ^ 8) with 256. lia.
Qed.
Lemma decode_carry_through b ds c :
  2 ≤ b ≤ 256 → 0 ≤ c < b → digits_ok 256 ds → decode_carry b ds c = carry_through b 256 ds c.
Proof.
  intros Hb Hc Hds. revert c Hc. induction Hds as [|d ds Hd _ IH]; intros c Hc; cbn [decode_carry carry_through]; [done|].
  destruct (carry_bound b 256 c d ltac:(lia) Hc Hd) as [Ht Hq].
  rewrite (wrap_small 32 (d * b)) by (split; nia). rewrite wrap_small by (split; nia).
  rewrite Z.shiftr_div_pow2 by lia. change (2 ^ 8) with 256. by rewrite IH.
Qed.
Lemma encode_step_ok b ds x :
  2 ≤ b ≤ 256 → 0 ≤ x < 256 → canonical b ds → canonical b (encode_step b ds x) ∧ val b (encode_step b ds x) = 256 * val b ds + x.
Proof.
  intros Hb Hx Hds. unfold encode_step. rewrite encode_carry_through by (done || apply Hds). by apply (mul_add_ok 256 b ds x).
Qed.
Lemma decode_step_ok b ds x :
  2 ≤ b ≤ 256 → 0 ≤ x < b → canonical 256 ds → canonical 256 (decode_step b ds x) ∧ val 256 (decode_step b ds x) = b * val 256 ds + x.
Proof.
  intros Hb Hx Hds. unfold decode_step. rewrite decode_carry_through by (done || apply Hds).
  destruct (carry_through_ok b 256 ds x ltac:(lia) Hx ltac:(apply Hds)) as (ds' & c' & Heq & _ & _ & Hc' & _).
  pose proof (mul_add_ok b 256 ds x ltac:(lia) Hx ltac:(lia) Hds) as Hm. unfold mul_add in Hm. rewrite Heq in *.
  by rewrite decode_push_through by lia.
Qed.
Lemma canonical_zero b : 0 < b → canonical b [0].
Proof. intros Hb. split; [done|]. split; [|done]. by apply Forall_singleton. Qed.
Lemma encode_digits b ds input :
  2 ≤ b ≤ 256 → canonical b ds → digits_ok 256 input →
  canonical b (foldl (encode_step b) ds input) ∧ val b (foldl (encode_step b) ds input) = foldl (λ a d, 256 * a + d) (val b ds) input.
Proof.
  intros Hb Hds Hin. revert ds Hds. induction Hin as [|x input Hx _ IH]; intros ds Hds; cbn [foldl]; [done|].
  destruct (encode_step_ok b ds x Hb Hx Hds) as [Hc <-]. by apply IH.
Qed.
Lemma decode_digits b ds input :
  2 ≤ b ≤ 256 → canonical 256 ds → digits_ok b input →
  canonical 256 (foldl (decode_step b) ds input) ∧ val 256 (foldl (decode_step b) ds input) = foldl (λ a d, b * a + d) (val 256 ds) input.
Proof.
  intros Hb Hds Hin. revert ds Hds. induction Hin as [|x input Hx _ IH]; intros ds Hds; cbn [foldl]; [done|].
  destruct (decode_step_ok b ds x Hb Hx Hds) as [Hc <-]. by apply IH.
Qed.

(** *** The alphabet *)
Definition symbol (d : Z) : Z := default 0 (BASE58_ALPHABET !! Z.to_nat d).
Lemma symbol_ok d :
  0 ≤ d < 58 → BASE58_ALPHABET !! Z.to_nat d = Some (symbol d) ∧ position (symbol d) BASE58_ALPHABET = Some (Z.to_nat d) ∧
    (symbol d = 49 ↔ d = 0).
Proof.
  intros Hd. assert (Forall (λ n, BASE58_ALPHABET !! n = Some (symbol (Z.of_nat n)) ∧ position (symbol (Z.of_nat n)) BASE58_ALPHABET = Some n ∧
    bool_decide (symbol (Z.of_nat n) = 49) = bool_decide (n = 0%nat)) (seq 0 58)) as Hall by (apply (bool_decide_eq_true _); by vm_compute).
  rewrite Forall_forall in Hall. destruct (Hall (Z.to_nat d)) as (H1 & H2 & H3); [apply elem_of_seq; lia|].
  rewrite Z2Nat.id in * by lia. split_and!; [done|done|]. do 2 case_bool_decide; try done; split; lia || done.
Qed.
Lemma decode_symbols_ok i bytes ds :
  digits_ok 58 ds → decode_symbols BASE58_ALPHABET i bytes (symbol <$> ds) = Ok (foldl (decode_step 58) bytes ds).
Proof.
  intros Hds. revert i bytes. induction Hds as [|d ds Hd _ IH]; intros i bytes; cbn [fmap list_fmap decode_symbols foldl]; [done|].
  destruct (symbol_ok d Hd) as (_ & -> & _). cbn [ok_or mbind outcome_bind]. rewrite Z2Nat.id by lia.
  change (Z.of_nat (length BASE58_ALPHABET)) with 58. apply IH.
Qed.
Lemma encode_symbols_ok {E} ds :
  digits_ok 58 ds → mapM (λ d, unwrap_opt (BASE58_ALPHABET !! Z.to_nat d)) ds = Ok (symbol <$> ds) :> outcome E _.
Proof.
  induction 1 as [|d ds Hd _ IH]; [done|]. cbn [mapM]. destruct (symbol_ok d Hd) as (-> & _). cbn [unwrap_opt mbind outcome_bind]. by rewrite IH.
Qed.
Lemma leading_replicate x n l : head l ≠ Some x → leading x (replicate n x ++ l) = n.
Proof.
  intros Hl. induction n as [|n IH]; cbn [replicate app leading]; [|by rewrite decide_True, IH by done].
  destruct l as [|y l]; [done|]. cbn. rewrite decide_False; [done|]. cbn in Hl. congruence.
Qed.
Lemma leading_split x l : ∃ l', l = replicate (leading x l) x ++ l' ∧ head l' ≠ Some x.
Proof.
  induction l as [|y l (l' & IH & Hl')]; [by exists []|]. cbn [leading]. case_decide as Hy.
  - subst y. exists l'. split; [cbn; by f_equal|done].
  - exists (y :: l). split; [done|]. cbn. congruence.
Qed.

Lemma head_symbols l : head (symbol <$> l) = symbol <$> head l.
Proof. by destruct l. Qed.
Lemma val_zeros b n : val b (replicate n 0) = 0.
Proof. induction n as [|n IH]; cbn; lia. Qed.
Lemma canonical_last b l : canonical b l → val b l ≠ 0 → last l ≠ Some 0.
Proof. intros (_ & _ & Hlast) Hv Hl. rewrite (Hlast Hl) in Hv. cbn in Hv. lia. Qed.
Lemma encode_ok {E} input :
  digits_ok 256 input →
  let ds := foldl (encode_step 58) [0] input in
  canonical 58 ds ∧ val 58 ds = val 256 (reverse input) ∧
  base58_encode input = Ok (replicate (leading 0 input) 49 ++ (symbol <$> reverse ds)) :> outcome E _.
Proof.
  intros Hin ds. destruct (encode_digits 58 [0] input ltac:(lia) (canonical_zero 58 ltac:(lia)) Hin) as [Hc Hv]. fold ds in Hc, Hv.
  split; [done|]. split.
  - rewrite Hv. pose proof (foldl_val 256 (reverse input) 0) as Hf. rewrite reverse_involutive, Z.mul_0_r, Z.add_0_r in Hf. exact Hf.
  - unfold base58_encode, base_encode. change (Z.of_nat (length BASE58_ALPHABET)) with 58. fold ds.
    change (BASE58_ALPHABET !! 0%nat) with (Some 49). cbn [unwrap_opt mbind outcome_bind].
    rewrite encode_symbols_ok; [done|]. apply Forall_reverse, Hc.
Qed.
Lemma decode_ok z ds :
  canonical 58 ds → ds ≠ [0] →
  ∃ bytes, canonical 256 bytes ∧ val 256 bytes = val 58 ds ∧
    base58_decode (replicate z 49 ++ (symbol <$> reverse ds)) =
    Ok (reverse (if (leading 0 (reverse bytes) <? z)%nat
                 then resize bytes (length bytes + z - (if (0 <? leading 0 (reverse bytes))%nat then S (leading 0 (reverse bytes)) else O))
                 else bytes)).
Proof.
  intros (Hne & Hok & Hlast) Hnz.
  destruct (decode_digits 58 [0] (reverse ds) ltac:(lia) (canonical_zero 256 ltac:(lia)) ltac:(by apply Forall_reverse)) as [Hc Hv].
  exists (foldl (decode_step 58) [0] (reverse ds)). split; [done|]. split; [rewrite Hv, foldl_val; cbn; lia|].
  unfold base58_decode, base_decode. change (BASE58_ALPHABET !! 0%nat) with (Some 49). cbn [unwrap_opt mbind outcome_bind].
  rewrite leading_replicate; [rewrite drop_app_length' by (by rewrite length_replicate)|].
  - rewrite decode_symbols_ok by (by apply Forall_reverse). done.
  - rewrite head_symbols, head_reverse. destruct (last ds) as [d|] eqn:Hd; [|by cbn]. cbn. intros [= Hs]. apply Hnz, Hlast.
    pose proof (last_Some_elem_of ds d Hd) as Hin. pose proof (proj1 (Forall_forall _ _) Hok d Hin) as Hd0. apply symbol_ok in Hs; [|done]. by subst d.
Qed.

(** Base58 is read back: decoding what was encoded gives the bytes, leading
    zeros included, and neither direction panics or fails; the empty input
    alone is read back as one zero. *)
Theorem base58_roundtrip input :
  digits_ok 256 input →
  ∃ s, (∀ E, base58_encode input = Ok s :> outcome E _) ∧ base58_decode s = Ok (if decide (input = []) then [0] else input).
Proof.
  intros Hin. pose proof (λ E, encode_ok (E := E) input Hin) as Henc. cbn zeta in Henc. set (ds := foldl (encode_step 58) [0] input) in *.
  eexists. split; [intros E; apply Henc|]. destruct (Henc infallible) as (Hc & Hv & _).
  destruct (leading_split 0 input) as (x & Hx & Hhead). set (z := leading 0 input) in *. clearbody z ds.
  assert (val 58 ds = val 256 (reverse x)) as Hval.
  { rewrite Hv, Hx, reverse_app, val_app, reverse_replicate, val_zeros. lia. }
  destruct (decide (x = [])) as [->|Hxne].
  - assert (ds = [0]) as ->.
    { destruct Hc as (Hne & Hok & Hlast). destruct (decide (last ds = Some 0)) as [Hl|Hl]; [by apply Hlast|].
      pose proof (val_pos 58 ds ltac:(lia) Hok Hne Hl). cbn in Hval. lia. }
    rewrite app_nil_r in Hx. subst input.
    change (symbol <$> reverse [0]) with [49]. replace (replicate z 49 ++ [49]) with (replicate (S z) 49 ++ []) by (by rewrite app_nil_r, replicate_S_end).
    unfold base58_decode, base_decode. change (BASE58_ALPHABET !! 0%nat) with (Some 49). cbn [unwrap_opt mbind outcome_bind].
    rewrite leading_replicate, drop_app_length' by (done || by rewrite length_replicate). cbn [decode_symbols mbind outcome_bind].
    change (leading 0 (reverse [0])) with 1%nat. destruct z as [|z]; [done|]. rewrite decide_False by done.
    change (1 <? S (S z))%nat with true. change (0 <? 1)%nat with true. cbn iota.
    unfold resize. cbn [length]. replace (1 + S (S z) - 2)%nat with (S z) by lia. cbn [take]. rewrite take_nil, Nat.sub_succ, Nat.sub_0_r.
    change ([0] ++ replicate z 0) with (replicate (S z) 0). by rewrite reverse_replicate.
  - assert (digits_ok 256 x) as Hxok by (rewrite Hx in Hin; by apply Forall_app in Hin as [_ ?]).
    assert (0 < val 256 (reverse x)) as Hpos.
    { apply val_pos; [lia|by apply Forall_reverse| |by rewrite last_reverse]. intros Hr. apply (f_equal reverse) in Hr. by rewrite reverse_involutive in Hr. }
    destruct (decode_ok z ds Hc) as (bytes & Hbc & Hbv & ->); [intros ->; cbn in Hval; lia|].
    assert (bytes = reverse x) as ->.
    { apply (val_inj 256); [lia|apply Hbc|by apply Forall_reverse| |by rewrite last_reverse|congruence].
      apply (canonical_last 256); [done|]. rewrite Hbv, Hval. lia. }
    rewrite reverse_involutive. pose proof (leading_replicate 0 0 x Hhead) as Hlead. cbn [replicate app] in Hlead. rewrite Hlead.
    rewrite decide_False by (rewrite Hx; by destruct z). change (0 <? 0)%nat with false. cbn iota. rewrite Nat.sub_0_r.
    destruct (Nat.ltb_spec 0 z) as [Hz|Hz].
    + unfold resize. rewrite take_ge by lia. replace (length (reverse x) + z - length (reverse x))%nat with z by lia.
      by rewrite reverse_app, reverse_replicate, reverse_involutive, Hx.
    + assert (z = 0%nat) as -> by lia. by rewrite reverse_involutive, Hx.
Qed.

(** ** [crc32.rs] *)
Definition CRC_TABLE : list Z := [
  0x00000000; 0x77073096; 0xee0e612c; 0x990951ba; 0x076dc419; 0x706af48f; 0xe963a535; 0x9e6495a3;
  0x0edb8832; 0x79dcb8a4; 0xe0d5e91e; 0x97d2d988; 0x09b64c2b; 0x7eb17cbd; 0xe7b82d07; 0x90bf1d91;
  0x1db71064; 0x6ab020f2; 0xf3b97148; 0x84be41de; 0x1adad47d; 0x6ddde4eb; 0xf4d4b551; 0x83d385c7;
  0x136c9856; 0x646ba8c0; 0xfd62f97a; 0x8a65c9ec; 0x14015c4f; 0x63066cd9; 0xfa0f3d63; 0x8d080df5;
  0x3b6e20c8; 0x4c69105e; 0xd56041e4; 0xa2677172; 0x3c03e4d1; 0x4b04d447; 0xd20d85fd; 0xa50ab56b;
  0x35b5a8fa; 0x42b2986c; 0xdbbbc9d6; 0xacbcf940; 0x32d86ce3; 0x45df5c75; 0xdcd60dcf; 0xabd13d59;
  0x26d930ac; 0x51de003a; 0xc8d75180; 0xbfd06116; 0x21b4f4b5; 0x56b3c423; 0xcfba9599; 0xb8bda50f;
  0x2802b89e; 0x5f058808; 0xc60cd9b2; 0xb10be924; 0x2f6f7c87; 0x58684c11; 0xc1611dab; 0xb6662d3d;
  0x76dc4190; 0x01db7106; 0x98d220bc; 0xefd5102a; 0x71b18589; 0x06b6b51f; 0x9fbfe4a5; 0xe8b8d433;
  0x7807c9a2; 0x0f00f934; 0x9609a88e; 0xe10e9818; 0x7f6a0dbb; 0x086d3d2d; 0x91646c97; 0xe6635c01;
  0x6b6b51f4; 0x1c6c6162; 0x856530d8; 0xf262004e; 0x6c0695ed; 0x1b01a57b; 0x8208f4c1; 0xf50fc457;
  0x65b0d9c6; 0x12b7e950; 0x8bbeb8ea; 0xfcb9887c; 0x62dd1ddf; 0x15da2d49; 0x8cd37cf3; 0xfbd44c65;
  0x4db26158; 0x3ab551ce; 0xa3bc0074; 0xd4bb30e2; 0x4adfa541; 0x3dd895d7; 0xa4d1c46d; 0xd3d6f4fb;
  0x4369e96a; 0x346ed9fc; 0xad678846; 0xda60b8d0; 0x44042d73; 0x33031de5; 0xaa0a4c5f; 0xdd0d7cc9;
  0x5005713c; 0x270241aa; 0xbe0b1010; 0xc90c2086; 0x5768b525; 0x206f85b3; 0xb966d409; 0xce61e49f;
  0x5edef90e; 0x29d9c998; 0xb0d09822; 0xc7d7a8b4; 0x59b33d17; 0x2eb40d81; 0xb7bd5c3b; 0xc0ba6cad;
  0xedb88320; 0x9abfb3b6; 0x03b6e20c; 0x74b1d29a; 0xead54739; 0x9dd277af; 0x04db2615; 0x73dc1683;
  0xe3630b12; 0x94643b84; 0x0d6d6a3e; 0x7a6a5aa8; 0xe40ecf0b; 0x9309ff9d; 0x0a00ae27; 0x7d079eb1;
  0xf00f9344; 0x8708a3d2; 0x1e01f268; 0x6906c2fe; 0xf762575d; 0x806567cb; 0x196c3671; 0x6e6b06e7;
  0xfed41b76; 0x89d32be0; 0x10da7a5a; 0x67dd4acc; 0xf9b9df6f; 0x8ebeeff9; 0x17b7be43; 0x60b08ed5;
  0xd6d6a3e8; 0xa1d1937e; 0x38d8c2c4; 0x4fdff252; 0xd1bb67f1; 0xa6bc5767; 0x3fb506dd; 0x48b2364b;
  0xd80d2bda; 0xaf0a1b4c; 0x36034af6; 0x41047a60; 0xdf60efc3; 0xa867df55; 0x316e8eef; 0x4669be79;
  0xcb61b38c; 0xbc66831a; 0x256fd2a0; 0x5268e236; 0xcc0c7795; 0xbb0b4703; 0x220216b9; 0x5505262f;
  0xc5ba3bbe; 0xb2bd0b28; 0x2bb45a92; 0x5cb36a04; 0xc2d7ffa7; 0xb5d0cf31; 0x2cd99e8b; 0x5bdeae1d;
  0x9b64c2b0; 0xec63f226; 0x756aa39c; 0x026d930a; 0x9c0906a9; 0xeb0e363f; 0x72076785; 0x05005713;
  0x95bf4a82; 0xe2b87a14; 0x7bb12bae; 0x0cb61b38; 0x92d28e9b; 0xe5d5be0d; 0x7cdcefb7; 0x0bdbdf21;
  0x86d3d2d4; 0xf1d4e242; 0x68ddb3f8; 0x1fda836e; 0x81be16cd; 0xf6b9265b; 0x6fb077e1; 0x18b74777;
  0x88085ae6; 0xff0f6a70; 0x66063bca; 0x11010b5c; 0x8f659eff; 0xf862ae69; 0x616bffd3; 0x166ccf45;
  0xa00ae278; 0xd70dd2ee; 0x4e048354; 0x3903b3c2; 0xa7672661; 0xd06016f7; 0x4969474d; 0x3e6e77db;
  0xaed16a4a; 0xd9d65adc; 0x40df0b66; 0x37d83bf0; 0xa9bcae53; 0xdebb9ec5; 0x47b2cf7f; 0x30b5ffe9;
  0xbdbdf21c; 0xcabac28a; 0x53b39330; 0x24b4a3a6; 0xbad03605; 0xcdd70693; 0x54de5729; 0x23d967bf;
  0xb3667a2e; 0xc4614ab8; 0x5d681b02; 0x2a6f2b94; 0xb40bbe37; 0xc30c8ea1; 0x5a05df1b; 0x2d02ef8d].
(** A [Crc32] is a [u32]. *)
Definition crc32_new : Z := 0xFFFFFFFF.
Definition crc32_byte {E} (crc byte : Z) : outcome E Z :=
  let index := Z.land (Z.lxor crc byte) 0xFF in
  entry ← unwrap_opt (CRC_TABLE !! Z.to_nat index);
  Ok (Z.lxor (Z.shiftr crc 8) entry).
Fixpoint crc32_update {E} (crc : Z) (bytes : list Z) : outcome E Z :=
  match bytes with [] => Ok crc | byte :: bytes => crc ← crc32_byte crc byte; crc32_update crc bytes end.
Definition crc32_finalize (crc : Z) : Z := Z.lxor crc 0xFFFFFFFF.
Definition crc32 {E} (input : list Z) : outcome E Z := crc ← crc32_update crc32_new input; Ok (crc32_finalize crc).

Example crc32_vector : crc32 (E := infallible) (str_bytes "The quick brown fox jumps over the lazy dog") = Ok 0x414fa339.
Proof. by vm_compute. Qed.

(** *** The reference: bit by bit, by the reflected polynomial *)
Definition crc_bit (c : Z) : Z := Z.lxor (Z.shiftr c 1) (if Z.testbit c 0 then 0xEDB88320 else 0).
Definition crc_ref_byte (crc byte : Z) : Z := Nat.iter 8 crc_bit (Z.lxor crc byte).
Definition crc32_ref (input : list Z) : Z := Z.lxor (foldl crc_ref_byte 0xFFFFFFFF input) 0xFFFFFFFF.

Lemma crc_bit_lxor a b : crc_bit (Z.lxor a b) = Z.lxor (crc_bit a) (crc_bit b).
Proof.
  unfold crc_bit. rewrite Z.shiftr_lxor, Z.lxor_spec.
  destruct (Z.testbit a 0), (Z.testbit b 0); cbn [xorb]; rewrite ?Z.lxor_0_r.
  - rewrite (Z.lxor_comm (Z.shiftr b 1)), Z.lxor_assoc, <-(Z.lxor_assoc 0xEDB88320 0xEDB88320), Z.lxor_nilpotent, Z.lxor_0_l. done.
  - by rewrite !Z.lxor_assoc, (Z.lxor_comm (Z.shiftr b 1)).
  - by rewrite !Z.lxor_assoc.
  - done.
Qed.
Lemma crc_iter_lxor n a b : Nat.iter n crc_bit (Z.lxor a b) = Z.lxor (Nat.iter n crc_bit a) (Nat.iter n crc_bit b).
Proof. induction n as [|n IH]; [done|]. cbn [Nat.iter nat_rect]. unfold Nat.iter in IH. by rewrite IH, crc_bit_lxor. Qed.
Lemma crc_bit_double x : crc_bit (Z.shiftl x 1) = x.
Proof.
  unfold crc_bit. rewrite Z.shiftl_spec_low by lia. rewrite Z.lxor_0_r, Z.shiftr_shiftl_l, Z.sub_diag by lia. apply Z.shiftl_0_r.
Qed.
Lemma crc_iter_shift (n : nat) x : Nat.iter n crc_bit (Z.shiftl x (Z.of_nat n)) = x.
Proof.
  induction n as [|n IH]; [apply Z.shiftl_0_r|]. rewrite Nat.iter_succ_r.
  replace (Z.of_nat (S n)) with (Z.of_nat n + 1) by lia. by rewrite <-Z.shiftl_shiftl, crc_bit_double by lia.
Qed.
Lemma crc_table_ok : Forall (λ n, CRC_TABLE !! n = Some (Nat.iter 8 crc_bit (Z.of_nat n))) (seq 0 256).
Proof. apply (bool_decide_eq_true _). by vm_compute. Qed.
Lemma split_low x : x = Z.lxor (Z.shiftl (Z.shiftr x 8) 8) (Z.land x 0xFF).
Proof.
  change 0xFF with (Z.ones 8). apply Z.bits_inj'. intros n Hn. rewrite Z.lxor_spec, Z.land_spec, Z.testbit_ones_nonneg by lia.
  rewrite Z.shiftl_spec by done. destruct (Z.ltb_spec n 8) as [Hlt|Hge].
  - rewrite (Z.testbit_neg_r (Z.shiftr x 8)) by lia. by rewrite andb_true_r, xorb_false_l.
  - rewrite Z.shiftr_spec by lia. rewrite andb_false_r, xorb_false_r. f_equal. lia.
Qed.
Lemma crc32_byte_ok {E} crc byte :
  0 ≤ crc → 0 ≤ byte < 256 → crc32_byte crc byte = Ok (crc_ref_byte crc byte) :> outcome E Z.
Proof.
  intros Hc Hb. unfold crc32_byte, crc_ref_byte. set (x := Z.lxor crc byte).
  assert (Z.shiftr crc 8 = Z.shiftr x 8) as ->.
  { unfold x. rewrite Z.shiftr_lxor, (Z.shiftr_div_pow2 byte) by lia. rewrite (Z.div_small byte) by (change (2 ^ 8) with 256; lia). by rewrite Z.lxor_0_r. }
  assert (0 ≤ Z.land x 0xFF < 256) as Hl by (change 0xFF with (Z.ones 8); rewrite Z.land_ones by lia; apply Z.mod_pos_bound; lia).
  pose proof crc_table_ok as Ht. rewrite Forall_forall in Ht. rewrite (Ht (Z.to_nat (Z.land x 0xFF))) by (apply elem_of_seq; lia).
  rewrite Z2Nat.id by lia. cbn [unwrap_opt mbind outcome_bind]. f_equal.
  pose proof (crc_iter_shift 8 (Z.shiftr x 8)) as Hs. change (Z.of_nat 8) with 8 in Hs.
  transitivity (Nat.iter 8 crc_bit (Z.lxor (Z.shiftl (Z.shiftr x 8) 8) (Z.land x 0xFF))); [by rewrite crc_iter_lxor, Hs|].
  by rewrite <-split_low.
Qed.
Lemma crc_ref_nonneg crc byte : 0 ≤ crc → 0 ≤ byte → 0 ≤ crc_ref_byte crc byte.
Proof.
  intros Hc Hb. unfold crc_ref_byte. assert (∀ n x, 0 ≤ x → 0 ≤ Nat.iter n crc_bit x) as Hn.
  { induction n as [|n IH]; intros x Hx; [done|]. cbn [Nat.iter nat_rect]. unfold crc_bit. apply Z.lxor_nonneg.
    rewrite Z.shiftr_nonneg. specialize (IH x Hx). unfold Nat.iter in IH. split; intros _; [by case_match|done]. }
  apply Hn, Z.lxor_nonneg. tauto.
Qed.
(** The table computes the reference. *)
Lemma crc32_ok {E} input : digits_ok 256 input → crc32 input = Ok (crc32_ref input) :> outcome E Z.
Proof.
  intros Hin. unfold crc32, crc32_ref, crc32_finalize, crc32_new.
  assert (∀ crc, 0 ≤ crc → crc32_update crc input = Ok (foldl crc_ref_byte crc input) :> outcome E Z) as Hu; [|by rewrite Hu].
  induction Hin as [|x input Hx _ IH]; intros crc Hc; cbn [crc32_update foldl]; [done|].
  rewrite crc32_byte_ok by done. cbn [mbind outcome_bind]. apply IH, crc_ref_nonneg; lia.
Qed.

(** ** CBOR *)
Inductive CborLen := Indefinite | Len (n : Z).
Class CborEvent := {
  CborError : Type;
  custom_error : CborError;
  wrong_len : Z → CborError;
  (* reading *)
  Deserializer : Type;
  cbor_from : list Z → Deserializer;
  cbor_map : Deserializer → outcome CborError (CborLen * Deserializer);
  cbor_array : Deserializer → outcome CborError (CborLen * Deserializer);
  cbor_unsigned : Deserializer → outcome CborError (Z * Deserializer);
  cbor_u32 : Deserializer → outcome CborError (Z * Deserializer);
  cbor_bytes : Deserializer → outcome CborError (list Z * Deserializer);
  cbor_tag : Deserializer → outcome CborError (Z * Deserializer);
  cbor_tuple : Deserializer → Z → outcome CborError Deserializer;
  (* writing, to a vector *)
  write_map : Z → outcome CborError (list Z);
  write_array : Z → outcome CborError (list Z);
  write_unsigned : Z → outcome CborError (list Z);
  write_u32 : Z → outcome CborError (list Z);
  write_bytes : list Z → outcome CborError (list Z);
  write_tag : Z → outcome CborError (list Z);
  write_tuple_header : Z → outcome CborError (list Z);
  cbor_in_cbor : list Z → outcome CborError (list Z) }.
Class LegacyCrypto := {
  sha3_256 : list Z → list Z;
  blake2b_224 : list Z → list Z;
  XPub : Type;
  xpub_bytes : XPub → list Z;
  xpub_from_bytes : list Z → XPub;
  xpub_from_slice : list Z → option XPub }.

(** ** [cbor.rs] *)
Section legacy.
Context `{CborEvent} `{LegacyCrypto}.
Abbreviation Cbor A := (outcome CborError A).
(** A serializer appends what it writes. *)
Definition encode_with_crc32 (bytes : list Z) : Cbor (list Z) :=
  crc32 ← crc32 bytes;
  header ← write_array 2;
  tag ← write_tag 24;
  content ← write_bytes bytes;
  checksum ← write_unsigned crc32;
  Ok (header ++ tag ++ content ++ checksum).
Definition raw_with_crc32 (raw : Deserializer) : Cbor (list Z * Deserializer) :=
  '(len, raw) ← cbor_array raw;
  (match len with Len n => assert_that (n =? 2) | Indefinite => Panic end) ;;
  '(tag, raw) ← cbor_tag raw;
  if decide (tag ≠ 24) then Err custom_error
  else
    '(bytes, raw) ← cbor_bytes raw;
    '(crc, raw) ← cbor_unsigned raw;
    found_crc ← crc32 bytes;
    if decide (crc ≠ found_crc) then Err custom_error else Ok (bytes, raw).

(** ** [address.rs] *)
Definition pubkey_tag_serialize : Cbor (list Z) := write_unsigned 0.
Definition pubkey_tag_deserialize (reader : Deserializer) : Cbor Deserializer :=
  '(n, reader) ← cbor_unsigned reader; if decide (n = 0) then Ok reader else Err custom_error.
Record Attributes := mkAttributes { derivation_path : option (list Z); network_magic : option Z }.
Definition new_bootstrap_era (hdap : option (list Z)) (magic : option Z) : Attributes := mkAttributes hdap magic.
Definition ATTRIBUTE_NAME_TAG_DERIVATION : Z := 1.
Definition ATTRIBUTE_NAME_TAG_NETWORK_MAGIC : Z := 2.
Definition path_serialize (dp : list Z) : Cbor (list Z) :=
  key ← write_unsigned ATTRIBUTE_NAME_TAG_DERIVATION; inner ← cbor_in_cbor dp; Ok (key ++ inner).
Definition magic_serialize (magic : Z) : Cbor (list Z) :=
  key ← write_unsigned ATTRIBUTE_NAME_TAG_NETWORK_MAGIC;
  inner ← write_u32 magic;
  content ← write_bytes inner;
  Ok (key ++ content).
Definition attributes_serialize (a : Attributes) : Cbor (list Z) :=
  let len := (if derivation_path a is Some _ then 1 else 0) + (if network_magic a is Some _ then 1 else 0) in
  header ← write_map len;
  path ← match derivation_path a with None => Ok [] | Some dp => path_serialize dp end;
  magic ← match network_magic a with None => Ok [] | Some magic => magic_serialize magic end;
  Ok (header ++ path ++ magic).
(** The entries of the map; the fuel bounds their number. *)
Fixpoint attributes_entries (fuel : nat) (len : Z) (a : Attributes) (reader : Deserializer) : Cbor (Attributes * Deserializer) :=
  match fuel with
  | O => Panic
  | S fuel =>
      if 0 <? len then
        '(key, reader) ← cbor_unsigned reader;
        if decide (key = ATTRIBUTE_NAME_TAG_DERIVATION) then
          '(inner_cbor, reader) ← cbor_bytes reader;
          '(path, _) ← cbor_bytes (cbor_from inner_cbor);
          attributes_entries fuel (len - 1) (mkAttributes (Some path) (network_magic a)) reader
        else if decide (key = ATTRIBUTE_NAME_TAG_NETWORK_MAGIC) then
          '(bytes, reader) ← cbor_bytes reader;
          '(n, _) ← cbor_u32 (cbor_from bytes);
          attributes_entries fuel (len - 1) (mkAttributes (derivation_path a) (Some n)) reader
        else Err custom_error
      else Ok (a, reader)
  end.
Definition attributes_deserialize (fuel : nat) (reader : Deserializer) : Cbor (Attributes * Deserializer) :=
  '(len, reader) ← cbor_map reader;
  match len with
  | Indefinite => Err custom_error
  | Len len => attributes_entries fuel len (mkAttributes None None) reader
  end.

Definition sha3_then_blake2b224 (data : list Z) : list Z := blake2b_224 (sha3_256 data).
Definition SPENDING_DATA_TAG_PUBKEY : Z := 0.
Definition spending_data_serialize (xpub : XPub) : Cbor (list Z) :=
  header ← write_array 2;
  tag ← write_unsigned SPENDING_DATA_TAG_PUBKEY;
  key ← write_bytes (xpub_bytes xpub);
  Ok (header ++ tag ++ key).
(** [expect] and [unwrap]. *)
Definition expected {A} (m : Cbor A) : outcome infallible A := match m with Ok a => Ok a | _ => Panic end.
Definition hash_spending_data (xpub : XPub) (attrs : Attributes) : outcome infallible (list Z) :=
  buf ← expected (
    header ← write_tuple_header 3;
    tag ← pubkey_tag_serialize;
    data ← spending_data_serialize xpub;
    attributes ← attributes_serialize attrs;
    Ok (header ++ tag ++ data ++ attributes));
  Ok (sha3_then_blake2b224 buf).

Definition EXTENDED_ADDR_LEN : Z := 28.
Record ExtendedAddr := mkExtended { ea_addr : list Z; ea_attributes : Attributes }.
(** An [Addr] is its bytes. *)
Definition LegacyAddr : Type := list Z.
Definition extended_serialize (ea : ExtendedAddr) : Cbor (list Z) :=
  bytes ← (
    header ← write_tuple_header 3;
    addr ← write_bytes (ea_addr ea);
    attributes ← attributes_serialize (ea_attributes ea);
    tag ← pubkey_tag_serialize;
    Ok (header ++ addr ++ attributes ++ tag));
  encode_with_crc32 bytes.
Definition extended_deserialize (fuel : nat) (reader : Deserializer) : Cbor (ExtendedAddr * Deserializer) :=
  '(bytes, reader) ← raw_with_crc32 reader;
  raw ← cbor_tuple (cbor_from bytes) 3;
  '(addr_bytes, raw) ← cbor_bytes raw;
  addr ← if decide (Z.of_nat (length addr_bytes) = EXTENDED_ADDR_LEN) then Ok addr_bytes
         else Err (wrong_len (Z.of_nat (length addr_bytes)));
  '(attributes, raw) ← attributes_deserialize fuel raw;
  pubkey_tag_deserialize raw ;;
  Ok (mkExtended addr attributes, reader).
Definition to_address (ea : ExtendedAddr) : outcome infallible LegacyAddr := expected (extended_serialize ea).
Definition extended_new (xpub : XPub) (attrs : Attributes) : outcome infallible ExtendedAddr :=
  addr ← hash_spending_data xpub attrs; Ok (mkExtended addr attrs).
Definition extended_new_simple (xpub : XPub) (magic : option Z) : outcome infallible ExtendedAddr :=
  extended_new xpub (new_bootstrap_era None magic).
Definition extended_try_from (fuel : nat) (slice : list Z) : Cbor ExtendedAddr :=
  fst <$> extended_deserialize fuel (cbor_from slice).
Definition addr_try_from (fuel : nat) (slice : list Z) : Cbor LegacyAddr :=
  extended_deserialize fuel (cbor_from slice) ;; Ok slice.
Definition addr_deserialize (fuel : nat) (reader : Deserializer) : Cbor (LegacyAddr * Deserializer) :=
  '(ea, reader) ← extended_deserialize fuel reader;
  match to_address ea with Ok addr => Ok (addr, reader) | _ => Panic end.
Definition deconstruct (fuel : nat) (addr : LegacyAddr) : outcome infallible ExtendedAddr :=
  fst <$> expected (extended_deserialize fuel (cbor_from addr)).
(** [AddressMatchXPub] as a boolean. *)
Definition identical_with_xpub (fuel : nat) (addr : LegacyAddr) (xpub : XPub) : outcome infallible bool :=
  ea ← deconstruct fuel addr;
  newea ← extended_new xpub (ea_attributes ea);
  newaddr ← to_address newea;
  Ok (bool_decide (addr = newaddr)).
Definition legacy_identical_with_pubkey_raw (fuel : nat) (addr : LegacyAddr) (pk chain_code : list Z) : outcome infallible bool :=
  identical_with_xpub fuel addr (xpub_from_bytes (pk ++ chain_code)).
Definition identical_with_xpub_raw (fuel : nat) (addr : LegacyAddr) (xpub : list Z) : outcome infallible bool :=
  match xpub_from_slice xpub with Some xpub => identical_with_xpub fuel addr xpub | None => Ok false end.
Inductive ParseExtendedAddrError := EncodingError (e : CborError) | Base58ParseError (e : Base58Error).
Definition addr_from_str (fuel : nat) (s : list Z) : outcome ParseExtendedAddrError LegacyAddr :=
  bytes ← map_err Base58ParseError (base58_decode s);
  map_err EncodingError (addr_try_from fuel bytes).
Definition extended_from_str (fuel : nat) (s : list Z) : outcome ParseExtendedAddrError ExtendedAddr :=
  bytes ← map_err Base58ParseError (base58_decode s);
  map_err EncodingError (extended_try_from fuel bytes).
Definition addr_display (addr : LegacyAddr) : outcome infallible (list Z) := base58_encode addr.
End legacy.

(** ** What the CBOR library promises: its reader inverts its writer *)
Definition writes `{CborEvent} {A} (m : outcome CborError (list Z)) (bound : Z) (read : Deserializer → outcome CborError (A * Deserializer)) (a : A) : Prop :=
  ∃ bs, m = Ok bs ∧ digits_ok 256 bs ∧ 0 < Z.of_nat (length bs) ≤ bound ∧ ∀ r, read (cbor_from (bs ++ r)) = Ok (a, cbor_from r).
Class CborLaws `{CborEvent} := {
  write_map_ok n : in_u 64 n → writes (write_map n) 9 cbor_map (Len n);
  write_array_ok n : in_u 64 n → writes (write_array n) 9 cbor_array (Len n);
  write_unsigned_ok n : in_u 64 n → writes (write_unsigned n) 9 cbor_unsigned n;
  write_u32_ok n : in_u 32 n → writes (write_u32 n) 9 cbor_u32 n;
  write_tag_ok n : in_u 64 n → writes (write_tag n) 9 cbor_tag n;
  write_bytes_ok xs :
    digits_ok 256 xs → in_u 64 (Z.of_nat (length xs)) → writes (write_bytes xs) (Z.of_nat (length xs) + 9) cbor_bytes xs;
  write_tuple_ok n :
    in_u 64 n → writes (write_tuple_header n) 9 (λ raw, raw ← cbor_tuple raw n; Ok ((), raw)) ();
  cbor_in_cbor_ok dp : cbor_in_cbor dp = (inner ← write_bytes dp; write_bytes inner) }.
Class LegacyCryptoLaws `{LegacyCrypto} := {
  blake2b_224_ok data : length (blake2b_224 data) = 28%nat ∧ digits_ok 256 (blake2b_224 data);
  xpub_bytes_ok x : length (xpub_bytes x) = 64%nat ∧ digits_ok 256 (xpub_bytes x) }.

Section laws.
Context `{CborLaws} `{LegacyCryptoLaws}.
Set Default Proof Using "Type*".

Lemma lxor_bound n a b : 0 ≤ n → 0 ≤ a < 2 ^ n → 0 ≤ b < 2 ^ n → 0 ≤ Z.lxor a b < 2 ^ n.
Proof.
  intros Hn Ha Hb. split; [apply Z.lxor_nonneg; lia|]. destruct (decide (Z.lxor a b = 0)) as [->|Hne]; [apply Z.pow_pos_nonneg; lia|].
  assert (0 ≤ Z.lxor a b) by (apply Z.lxor_nonneg; lia). apply Z.log2_lt_pow2; [lia|].
  pose proof (Z.log2_lxor a b ltac:(lia) ltac:(lia)) as Hl. pose proof (Z.log2_nonneg a). pose proof (Z.log2_nonneg b).
  assert (∀ x, 0 ≤ x < 2 ^ n → x ≠ 0 → Z.log2 x < n) as Hlog by (intros x Hx Hx0; apply Z.log2_lt_pow2; lia).
  destruct (decide (a = 0)) as [->|Ha0], (decide (b = 0)) as [->|Hb0].
  - done.
  - rewrite Z.lxor_0_l. by apply Hlog.
  - rewrite Z.lxor_0_r. by apply Hlog.
  - specialize (Hlog a Ha Ha0) as Hla. specialize (Hlog b Hb Hb0) as Hlb. lia.
Qed.
Lemma crc32_range input : digits_ok 256 input → in_u 32 (crc32_ref input).
Proof.
  intros Hin. unfold crc32_ref. apply (lxor_bound 32); [lia| |by vm_compute].
  assert (∀ c, 0 ≤ c < 2 ^ 32 → 0 ≤ crc_bit c < 2 ^ 32) as Hbit.
  { intros c Hc. unfold crc_bit. apply lxor_bound; [lia| |case_match; by vm_compute].
    rewrite Z.shiftr_div_pow2 by lia. split; [apply Z.div_pos; lia|]. apply Z.div_lt_upper_bound; lia. }
  assert (∀ crc, 0 ≤ crc < 2 ^ 32 → 0 ≤ foldl crc_ref_byte crc input < 2 ^ 32) as Hf; [|apply Hf; by vm_compute].
  induction Hin as [|x input Hx _ IH]; intros crc Hc; cbn [foldl]; [done|]. apply IH. unfold crc_ref_byte.
  assert (∀ n c, 0 ≤ c < 2 ^ 32 → 0 ≤ Nat.iter n crc_bit c < 2 ^ 32) as Hi.
  { induction n as [|n IHn]; intros c Hcc; [done|]. cbn [Nat.iter nat_rect]. by apply Hbit, IHn. }
  apply Hi, lxor_bound; lia.
Qed.
Definition attributes_ok (a : Attributes) : Prop :=
  (∀ dp, derivation_path a = Some dp → digits_ok 256 dp ∧ Z.of_nat (length dp) < 2 ^ 32) ∧
  (∀ magic, network_magic a = Some magic → in_u 32 magic).
Definition extended_ok (ea : ExtendedAddr) : Prop :=
  length (ea_addr ea) = 28%nat ∧ digits_ok 256 (ea_addr ea) ∧ attributes_ok (ea_attributes ea).

(** The entry of a key. *)
Lemma path_entry dp :
  digits_ok 256 dp → Z.of_nat (length dp) < 2 ^ 32 →
  ∃ bs, path_serialize dp = Ok bs ∧
    digits_ok 256 bs ∧ Z.of_nat (length bs) ≤ 2 ^ 32 + 27 ∧
    ∀ fuel len a r, attributes_entries (S fuel) len a (cbor_from (bs ++ r)) =
      if 0 <? len then attributes_entries fuel (len - 1) (mkAttributes (Some dp) (network_magic a)) (cbor_from r)
      else Ok (a, cbor_from (bs ++ r)).
Proof.
  intros Hok Hlen. unfold path_serialize. destruct (write_unsigned_ok ATTRIBUTE_NAME_TAG_DERIVATION) as (k & -> & Hk & Hkl & Hkr); [done|].
  destruct (write_bytes_ok dp Hok) as (i & Hi & Hib & Hil & Hir); [split; lia|].
  destruct (write_bytes_ok i Hib) as (j & Hj & Hjb & Hjl & Hjr); [split; lia|].
  rewrite cbor_in_cbor_ok, Hi. cbn [mbind outcome_bind]. rewrite Hj. cbn [mbind outcome_bind]. exists (k ++ j).
  split; [done|]. split; [by apply Forall_app|]. split; [rewrite length_app; lia|]. intros fuel len a r. cbn [attributes_entries].
  destruct (0 <? len); [|done]. rewrite <-app_assoc, Hkr. cbn [mbind outcome_bind]. rewrite decide_True by done. rewrite Hjr. cbn [mbind outcome_bind].
  specialize (Hir []). rewrite app_nil_r in Hir. by rewrite Hir.
Qed.
Lemma magic_entry magic :
  in_u 32 magic →
  ∃ bs, magic_serialize magic = Ok bs ∧
    digits_ok 256 bs ∧ Z.of_nat (length bs) ≤ 27 ∧
    ∀ fuel len a r, attributes_entries (S fuel) len a (cbor_from (bs ++ r)) =
      if 0 <? len then attributes_entries fuel (len - 1) (mkAttributes (derivation_path a) (Some magic)) (cbor_from r)
      else Ok (a, cbor_from (bs ++ r)).
Proof.
  intros Hm. unfold magic_serialize. destruct (write_unsigned_ok ATTRIBUTE_NAME_TAG_NETWORK_MAGIC) as (k & -> & Hk & Hkl & Hkr); [done|].
  destruct (write_u32_ok magic Hm) as (i & Hi & Hib & Hil & Hir).
  destruct (write_bytes_ok i Hib) as (j & Hj & Hjb & Hjl & Hjr); [split; lia|].
  cbn [mbind outcome_bind]. rewrite Hi. cbn [mbind outcome_bind]. rewrite Hj. cbn [mbind outcome_bind]. exists (k ++ j).
  split; [done|]. split; [by apply Forall_app|]. split; [rewrite length_app; lia|]. intros fuel len a r. cbn [attributes_entries].
  destruct (0 <? len); [|done]. rewrite <-app_assoc, Hkr. cbn [mbind outcome_bind]. rewrite decide_False, decide_True by done.
  rewrite Hjr. cbn [mbind outcome_bind]. specialize (Hir []). rewrite app_nil_r in Hir. by rewrite Hir.
Qed.
(** An entry that may be absent. *)
Lemma attributes_written a :
  attributes_ok a →
  ∃ bs, attributes_serialize a = Ok bs ∧ digits_ok 256 bs ∧ Z.of_nat (length bs) ≤ 2 ^ 32 + 63 ∧
    ∀ fuel r, (3 ≤ fuel)%nat → attributes_deserialize fuel (cbor_from (bs ++ r)) = Ok (a, cbor_from r).
Proof.
  destruct a as [path magic]. intros [Hpath Hmagic]. cbn [derivation_path network_magic] in *. unfold attributes_serialize, attributes_deserialize.
  cbn [derivation_path network_magic].
  destruct (write_map_ok ((if path is Some _ then 1 else 0) + (if magic is Some _ then 1 else 0))) as (h & -> & Hh & Hhl & Hhr);
    [destruct path, magic; by split|]. cbn [mbind outcome_bind].
  assert (∀ fuel b r, attributes_entries (S fuel) 0 b r = Ok (b, r)) as Hend by done.
  destruct path as [dp|]; [destruct (path_entry dp) as (p & -> & Hp & Hpl & Hpr); [by apply Hpath..|]|]; cbn [mbind outcome_bind];
    (destruct magic as [m|]; [destruct (magic_entry m) as (q & -> & Hqb & Hql & Hqr); [by apply Hmagic|]|]);
    cbn [mbind outcome_bind]; eexists; (split; [reflexivity|]); rewrite ?app_nil_l, ?app_nil_r;
    (split; [unfold digits_ok in *; rewrite ?Forall_app; auto using Forall_nil_2|]); (split; [rewrite ?length_app; cbn [length]; lia|]);
    intros fuel r Hf; (destruct fuel as [|[|[|fuel]]]; [lia..|]); rewrite <-?app_assoc, Hhr; cbn [mbind outcome_bind];
    rewrite ?Hpr; cbn [Z.add Z.ltb Z.compare Z.sub Pos.compare network_magic]; rewrite ?Hqr; cbn [derivation_path network_magic]; done.
Qed.
Lemma extended_written ea :
  extended_ok ea →
  ∃ bs, to_address ea = Ok bs ∧ digits_ok 256 bs ∧ bs ≠ [] ∧
    ∀ fuel r, (3 ≤ fuel)%nat → extended_deserialize fuel (cbor_from (bs ++ r)) = Ok (ea, cbor_from r).
Proof.
  intros (Hlen & Haddr & Hattrs). unfold to_address, extended_serialize, extended_deserialize, pubkey_tag_serialize.
  destruct (write_tuple_ok 3) as (h & -> & Hh & Hhl & Hhr); [done|]. cbn [mbind outcome_bind].
  destruct (write_bytes_ok (ea_addr ea) Haddr) as (a & -> & Ha & Hal & Har); [rewrite Hlen; by split|]. cbn [mbind outcome_bind].
  destruct (attributes_written _ Hattrs) as (b & -> & Hb & Hbl & Hbr). cbn [mbind outcome_bind].
  destruct (write_unsigned_ok 0) as (c & -> & Hc & Hcl & Hcr); [done|]. cbn [mbind outcome_bind].
  set (bytes := h ++ a ++ b ++ c).
  assert (digits_ok 256 bytes) as Hbytes by (unfold bytes; repeat (apply Forall_app; split); assumption).
  assert (Z.of_nat (length bytes) < 2 ^ 33) as Hbl' by (unfold bytes; rewrite !length_app; lia).
  unfold encode_with_crc32. rewrite crc32_ok by done. cbn [mbind outcome_bind].
  destruct (write_array_ok 2) as (k & -> & Hk & Hkl & Hkr); [done|]. cbn [mbind outcome_bind].
  destruct (write_tag_ok 24) as (t & -> & Ht & Htl & Htr); [done|]. cbn [mbind outcome_bind].
  destruct (write_bytes_ok bytes Hbytes) as (d & -> & Hd & Hdl & Hdr); [split; lia|]. cbn [mbind outcome_bind].
  destruct (write_unsigned_ok (crc32_ref bytes)) as (e & -> & He & Hel & Her); [by apply (in_u_mono 32), crc32_range|]. cbn [mbind outcome_bind expected].
  assert (∀ fuel r, (3 ≤ fuel)%nat → extended_deserialize fuel (cbor_from ((k ++ t ++ d ++ e) ++ r)) = Ok (ea, cbor_from r)) as Hread.
  { intros fuel r Hf. unfold extended_deserialize, raw_with_crc32. rewrite <-!app_assoc, Hkr. cbn [mbind outcome_bind]. change (2 =? 2) with true.
    cbn [assert_that mbind outcome_bind]. rewrite Htr. cbn [mbind outcome_bind]. rewrite decide_False by (by intros Hn; apply Hn).
    rewrite Hdr. cbn [mbind outcome_bind]. rewrite Her. cbn [mbind outcome_bind]. rewrite crc32_ok by done. cbn [mbind outcome_bind].
    rewrite decide_False by (by intros Hn; apply Hn). cbn [mbind outcome_bind]. unfold bytes.
    specialize (Hhr (a ++ b ++ c)). destruct (cbor_tuple (cbor_from (h ++ a ++ b ++ c)) 3) as [raw| |]; [|done..]. cbn in Hhr. injection Hhr as ->.
    cbn [mbind outcome_bind]. rewrite Har. cbn [mbind outcome_bind]. rewrite decide_True by (unfold EXTENDED_ADDR_LEN; lia). cbn [mbind outcome_bind].
    rewrite Hbr by done. cbn [mbind outcome_bind]. specialize (Hcr []). rewrite app_nil_r in Hcr. unfold pubkey_tag_deserialize. rewrite Hcr.
    cbn [mbind outcome_bind]. rewrite decide_True by done. cbn [mbind outcome_bind]. by destruct ea. }
  exists (k ++ t ++ d ++ e). split; [done|]. split; [repeat (apply Forall_app; split); assumption|]. split; [|exact Hread].
  destruct k; [cbn in Hkl; lia|done].
Qed.

(** *** The hash of the spending data *)
Lemma hash_written xpub attrs :
  attributes_ok attrs → ∃ h, hash_spending_data xpub attrs = Ok h ∧ length h = 28%nat ∧ digits_ok 256 h.
Proof.
  intros Hattrs. unfold hash_spending_data, pubkey_tag_serialize, spending_data_serialize.
  destruct (write_tuple_ok 3) as (? & -> & _); [done|]. destruct (write_unsigned_ok 0) as (tag & Htag & _); [done|].
  destruct (write_array_ok 2) as (? & -> & _); [done|]. rewrite Htag. cbn [mbind outcome_bind].
  unfold SPENDING_DATA_TAG_PUBKEY. rewrite Htag. cbn [mbind outcome_bind].
  destruct (xpub_bytes_ok xpub) as [Hl Hb]. destruct (write_bytes_ok _ Hb) as (? & -> & _); [rewrite Hl; by split|].
  destruct (attributes_written attrs Hattrs) as (? & -> & _). cbn [mbind outcome_bind expected].
  eexists. split; [reflexivity|]. apply blake2b_224_ok.
Qed.
Lemma extended_new_ok xpub attrs :
  attributes_ok attrs → ∃ ea, extended_new xpub attrs = Ok ea ∧ ea_attributes ea = attrs ∧ extended_ok ea ∧
    hash_spending_data xpub attrs = Ok (ea_addr ea).
Proof.
  intros Hattrs. destruct (hash_written xpub attrs Hattrs) as (h & Hh & Hl & Hb). unfold extended_new. rewrite Hh. cbn [mbind outcome_bind].
  by exists (mkExtended h attrs).
Qed.
(** The writer is injective: its reader inverts it. *)
Lemma extended_bytes_inj ea ea' : extended_ok ea → extended_ok ea' → to_address ea = to_address ea' → ea = ea'.
Proof.
  intros Hok Hok' Heq. destruct (extended_written ea Hok) as (bs & Hbs & _ & _ & Hr).
  destruct (extended_written ea' Hok') as (bs' & Hbs' & _ & _ & Hr'). rewrite Hbs, Hbs' in Heq. injection Heq as <-.
  specialize (Hr 3%nat [] ltac:(lia)). specialize (Hr' 3%nat [] ltac:(lia)). congruence.
Qed.
End laws.

(** ** The theorems *)
Section theorems.
Context `{CborLaws} `{LegacyCryptoLaws}.
Set Default Proof Using "Type*".

(** An address is read back from its bytes, also at the front of a longer
    stream, and from its base58 text. *)
Lemma address_back ea fuel :
  extended_ok ea → (3 ≤ fuel)%nat →
  ∃ addr, to_address ea = Ok addr ∧ extended_try_from fuel addr = Ok ea ∧ addr_try_from fuel addr = Ok addr ∧
    deconstruct fuel addr = Ok ea ∧ (∀ r, addr_deserialize fuel (cbor_from (addr ++ r)) = Ok (addr, cbor_from r)) ∧
    ∃ s, addr_display addr = Ok s ∧ addr_from_str fuel s = Ok addr ∧ extended_from_str fuel s = Ok ea.
Proof.
  intros Hok Hf. destruct (extended_written ea Hok) as (addr & Ha & Hb & Hne & Hr). exists addr. split; [done|].
  assert (extended_deserialize fuel (cbor_from addr) = Ok (ea, cbor_from [])) as Hread by (rewrite <-(app_nil_r addr) at 1; by apply Hr).
  assert (extended_try_from fuel addr = Ok ea) as Hext by (unfold extended_try_from; by rewrite Hread).
  assert (addr_try_from fuel addr = Ok addr) as Haddr by (unfold addr_try_from; by rewrite Hread).
  split; [done|]. split; [done|]. split; [unfold deconstruct; by rewrite Hread|]. split.
  - intros r. unfold addr_deserialize. rewrite Hr by done. cbn [mbind outcome_bind]. by rewrite Ha.
  - destruct (base58_roundtrip addr Hb) as (s & Hs & Hd). rewrite decide_False in Hd by done. exists s. split; [apply Hs|].
    unfold addr_from_str, extended_from_str. rewrite Hd. cbn [map_err mbind outcome_bind]. by rewrite Hext, Haddr.
Qed.
(** The check of a key against an address compares the hashes. *)
Lemma address_match ea xpub fuel :
  extended_ok ea → (3 ≤ fuel)%nat →
  ∃ addr hash, to_address ea = Ok addr ∧ hash_spending_data xpub (ea_attributes ea) = Ok hash ∧
    identical_with_xpub fuel addr xpub = Ok (bool_decide (hash = ea_addr ea)).
Proof.
  intros Hok Hf. destruct (address_back ea fuel Hok Hf) as (addr & Ha & _ & _ & Hd & _).
  destruct (extended_new_ok xpub (ea_attributes ea) (proj2 (proj2 Hok))) as (ea' & Hnew & Hattrs & Hok' & Hh).
  exists addr, (ea_addr ea'). split; [done|]. split; [done|]. unfold identical_with_xpub. rewrite Hd. cbn [mbind outcome_bind].
  rewrite Hnew. cbn [mbind outcome_bind]. destruct (address_back ea' fuel Hok' Hf) as (addr' & Ha' & _). rewrite Ha'. cbn [mbind outcome_bind].
  f_equal. apply bool_decide_ext. split.
  - intros ->. by rewrite (extended_bytes_inj ea' ea) by congruence.
  - intros Heq. assert (ea' = ea) as -> by (destruct ea, ea'; cbn in *; by subst). congruence.
Qed.

(** C35. A legacy address of 28 bytes with its attributes is serialized without
    panic, its checksummed CBOR is read back as it was (as an address, as an
    extended address, at the front of a stream, and from its base58 text), and
    a key is said to match it exactly when the hash of the key and the
    attributes is the hash in the address. *)
Theorem legacy_address_roundtrip ea fuel :
  extended_ok ea → (3 ≤ fuel)%nat →
  ∃ addr, to_address ea = Ok addr ∧ extended_try_from fuel addr = Ok ea ∧ addr_try_from fuel addr = Ok addr ∧
    (∀ r, addr_deserialize fuel (cbor_from (addr ++ r)) = Ok (addr, cbor_from r)) ∧
    (∃ s, addr_display addr = Ok s ∧ addr_from_str fuel s = Ok addr ∧ extended_from_str fuel s = Ok ea) ∧
    ∀ xpub, ∃ hash, hash_spending_data xpub (ea_attributes ea) = Ok hash ∧
      identical_with_xpub fuel addr xpub = Ok (bool_decide (hash = ea_addr ea)).
Proof.
  intros Hok Hf. destruct (address_back ea fuel Hok Hf) as (addr & Ha & Hx1 & Hx2 & _ & Hx3 & Hx4). exists addr. split_and!; try done.
  intros xpub. destruct (address_match ea xpub fuel Hok Hf) as (addr' & hash & Ha' & Hh & Hm). exists hash. assert (addr' = addr) as -> by congruence. done.
Qed.
End theorems.

(** The length of the outer array is asserted, not checked: bytes with another
    one, a definite or an indefinite, panic the reader. *)
Lemma bad_array_panics `{CborEvent} fuel slice len raw :
  cbor_array (cbor_from slice) = Ok (len, raw) → len ≠ Len 2 → addr_try_from fuel slice = Panic.
Proof.
  intros Ha Hne. unfold addr_try_from, extended_deserialize, raw_with_crc32. rewrite Ha. cbn [mbind outcome_bind]. destruct len as [|n]; [done|].
  destruct (Z.eqb_spec n 2) as [->|]; [done|]. done.
Qed.

(** ** A CBOR library and hashes for the witnesses *)
(** A header is a major type and an argument, in the byte or in the eight that
    follow. *)
Definition toy_header (major n : Z) : list Z := if n <? 24 then [major * 32 + n] else (major * 32 + 27) :: be_bytes 8 n.
Definition toy_read (major : Z) (raw : list Z) : outcome unit (Z * list Z) :=
  match raw with
  | [] => Err ()
  | b :: raw =>
      if decide (b / 32 = major) then
        let n := b mod 32 in
        if n <? 24 then Ok (n, raw) else if decide (n = 27) then Ok (from_be (take 8 raw), drop 8 raw) else Err ()
      else Err ()
  end.
#[local] Instance toy_cbor : CborEvent := {|
  CborError := unit; custom_error := (); wrong_len _ := (); Deserializer := list Z; cbor_from := id;
  cbor_map raw := '(n, raw) ← toy_read 5 raw; Ok (Len n, raw);
  cbor_array raw := '(n, raw) ← toy_read 4 raw; Ok (Len n, raw);
  cbor_unsigned := toy_read 0; cbor_u32 := toy_read 0; cbor_tag := toy_read 6;
  cbor_bytes raw := ('(n, raw) ← toy_read 2 raw;
    if decide (Z.of_nat (length raw) < n) then Err () else Ok (take (Z.to_nat n) raw, drop (Z.to_nat n) raw));
  cbor_tuple raw k := ('(n, raw) ← toy_read 4 raw; if decide (n = k) then Ok raw else Err ());
  write_map n := Ok (toy_header 5 n); write_array n := Ok (toy_header 4 n); write_unsigned n := Ok (toy_header 0 n);
  write_u32 n := Ok (toy_header 0 n); write_tag n := Ok (toy_header 6 n); write_tuple_header n := Ok (toy_header 4 n);
  write_bytes xs := Ok (toy_header 2 (Z.of_nat (length xs)) ++ xs);
  cbor_in_cbor dp := (inner ← Ok (toy_header 2 (Z.of_nat (length dp)) ++ dp); Ok (toy_header 2 (Z.of_nat (length inner)) ++ inner)) |}.
#[local] Instance toy_legacy_crypto : LegacyCrypto := {|
  sha3_256 data := data; blake2b_224 data := replicate 28 (foldl Z.add 0 data mod 256);
  XPub := Z; xpub_bytes x := replicate 64 (x mod 256); xpub_from_bytes l := hd 0 l; xpub_from_slice l := head l |}.

Lemma toy_header_ok major n :
  0 ≤ major < 8 → in_u 64 n →
  digits_ok 256 (toy_header major n) ∧ 0 < Z.of_nat (length (toy_header major n)) ≤ 9 ∧
    ∀ r, toy_read major (toy_header major n ++ r) = Ok (n, r).
Proof.
  intros Hm [Hn0 Hn]. unfold toy_header. destruct (Z.ltb_spec n 24) as [Hlt|Hge].
  - split; [apply Forall_singleton; lia|]. split; [cbn; lia|]. intros r. cbn [app toy_read].
    replace ((major * 32 + n) / 32) with major by (apply Z.div_unique with n; lia).
    replace ((major * 32 + n) mod 32) with n by (apply Z.mod_unique with major; lia).
    rewrite decide_True by done. destruct (Z.ltb_spec n 24); [done|lia].
  - split; [constructor; [lia|apply be_bytes_ok]|]. split; [cbn [length]; rewrite length_be_bytes; lia|]. intros r. cbn [app toy_read].
    replace ((major * 32 + 27) / 32) with major by (apply Z.div_unique with 27; lia).
    replace ((major * 32 + 27) mod 32) with 27 by (apply Z.mod_unique with major; lia).
    rewrite decide_True by done. change (27 <? 24) with false. cbn iota. rewrite decide_True by done.
    rewrite take_app_length', drop_app_length' by (by rewrite length_be_bytes). by rewrite from_be_bytes.
Qed.
Lemma toy_writes {A} (f : Z → A) (read : list Z → outcome unit (A * list Z)) major n a :
  (∀ raw n r, toy_read major raw = Ok (n, r) → read raw = Ok (f n, r)) → a = f n → 0 ≤ major < 8 → in_u 64 n →
  writes (Ok (toy_header major n)) 9 read a.
Proof.
  intros Hread -> Hm Hn. destruct (toy_header_ok major n Hm Hn) as (Hok & Hl & Hr). eexists. split; [reflexivity|]. split; [done|].
  split; [done|]. intros r. cbn. apply Hread, Hr.
Qed.
#[local] Instance toy_laws : CborLaws.
Proof.
  split.
  - intros n. apply (toy_writes Len); [|done|lia]. intros raw k r. cbn. by intros ->.
  - intros n. apply (toy_writes Len); [|done|lia]. intros raw k r. cbn. by intros ->.
  - intros n. by apply (toy_writes id).
  - intros n Hn. apply (toy_writes id); [done|done|lia|]. by apply (in_u_mono 32).
  - intros n. by apply (toy_writes id).
  - intros xs Hxs Hl. destruct (toy_header_ok 2 _ ltac:(lia) Hl) as (Hok & Hhl & Hr). eexists. split; [reflexivity|].
    split; [by apply Forall_app_2|]. split; [rewrite length_app; lia|]. intros r. cbn. rewrite <-app_assoc, Hr. cbn [mbind outcome_bind].
    rewrite decide_False by (rewrite length_app; lia). rewrite Nat2Z.id. by rewrite take_app_length, drop_app_length.
  - intros n Hn. destruct (toy_header_ok 4 n ltac:(lia) Hn) as (Hok & Hl & Hr). eexists. split; [reflexivity|]. split; [done|].
    split; [done|]. intros r. cbn. rewrite Hr. cbn [mbind outcome_bind]. by rewrite decide_True.
  - done.
Qed.
#[local] Instance toy_crypto_laws : LegacyCryptoLaws.
Proof.
  split.
  - intros data. cbn. split; [done|]. pose proof (Z.mod_pos_bound (foldl Z.add 0 data) 256 ltac:(lia)). repeat (constructor; [lia|]). constructor.
  - intros x. cbn. split; [done|]. pose proof (Z.mod_pos_bound x 256 ltac:(lia)). repeat (constructor; [lia|]). constructor.
Qed.
Definition demo_extended : ExtendedAddr := mkExtended (replicate 28 255) (mkAttributes (Some [1; 2; 3]) (Some 633343913)).
#[local] Instance attributes_eq_dec : EqDecision Attributes.
Proof. solve_decision. Defined.
#[local] Instance extended_eq_dec : EqDecision ExtendedAddr.
Proof. solve_decision. Defined.
Example demo_text :
  match to_address demo_extended with
  | Ok addr =>
      match addr_display addr with
      | Ok s => match extended_from_str 3 s with Ok ea => bool_decide (ea = demo_extended) | _ => false end
      | _ => false
      end
  | _ => false
  end = true.
Proof. by vm_compute. Qed.
Example demo_panic : addr_try_from 3 [0x80] = Panic ∧ addr_try_from 3 [0x20] = Err ().
Proof. by vm_compute. Qed.
Lemma legacy_address_roundtrip_witness :
  extended_ok demo_extended ∧
  ∃ addr, to_address demo_extended = Ok addr ∧ extended_try_from 3 addr = Ok demo_extended ∧ addr_try_from 3 addr = Ok addr ∧
    (∀ r, addr_deserialize 3 (cbor_from (addr ++ r)) = Ok (addr, cbor_from r)) ∧
    (∃ s, addr_display addr = Ok s ∧ addr_from_str 3 s = Ok addr ∧ extended_from_str 3 s = Ok demo_extended) ∧
    ∀ xpub, ∃ hash, hash_spending_data xpub (ea_attributes demo_extended) = Ok hash ∧
      identical_with_xpub 3 addr xpub = Ok (bool_decide (hash = ea_addr demo_extended)).
Proof.
  assert (extended_ok demo_extended) as Hok.
  { split; [done|]. split; [repeat (constructor; [lia|]); constructor|]. split; [intros dp [= <-]|intros magic [= <-]; by split].
    split; [repeat (constructor; [lia|]); constructor|done]. }
  split; [exact Hok|]. exact (legacy_address_roundtrip demo_extended 3 Hok (le_n 3)).
Defined.
