(* ===== verification/Value.v ===== *)
(** * Values and fees ([value.rs], [fee.rs])

    A [Value] is a [u64], here a [Z] with [u64_ok]; addition, subtraction and
    scaling are checked.  [FeeAlgorithm] is the trait of [fee.rs] as a class
    with the bound its clients rely on; [LinearFee] is its instance. *)
From S2P Require Import Prelude Codec.
Local Open Scope Z_scope.

Abbreviation Value := Z.

Inductive ValueError := NegativeAmount | Overflow | FromSliceTooSmall | FromSliceTooBig.
#[export] Instance ValueError_eq_dec : EqDecision ValueError.
Proof. solve_decision. Defined.

Definition value_zero : Value := 0.
Definition value_add (v other : Value) : outcome ValueError Value :=
  ok_or (checked_add64 v other) Overflow.
Definition value_sub (v other : Value) : outcome ValueError Value :=
  ok_or (checked_sub64 v other) NegativeAmount.
Definition value_saturating_add (v other : Value) : Value := saturating_add64 v other.
Definition value_scale (v n : Z) : outcome ValueError Value := ok_or (checked_mul64 v n) Overflow.

(** [values.fold(Ok(zero), |acc, v| acc? + v)]: the iterator is consumed to
    its end, an error is carried along. *)
Definition value_sum (values : list Value) : outcome ValueError Value :=
  foldl (λ acc v, a ← acc; value_add a v) (Ok value_zero) values.
Definition value_sum_saturating (values : list Value) : Value :=
  foldl value_saturating_add value_zero values.

Record SplitValueIn := mkSplit { parts : Value; remaining : Value }.
Definition split_in (v n : Z) : outcome infallible SplitValueIn :=
  p ← div_checked v n; r ← mod_checked v n; Ok (mkSplit p r).

Definition value_bytes (v : Value) : list Z := be_bytes 8 v.
Definition value_try_from (slice : list Z) : outcome ValueError Value :=
  match (length slice ?= 8)%nat with
  | Lt => Err FromSliceTooSmall
  | Gt => Err FromSliceTooBig
  | Eq => Ok (from_be slice)
  end.
Definition value_read : Reader Value := get_u64.
Definition value_deserialize (r : list Z) : outcome IoError (Value * list Z) := codec_get_be 8 r.
Definition value_serialize (w : list Z) (v : Value) : list Z := codec_put_be 8 w v.

Section values.
Implicit Types v w : Value.

Lemma value_add_Ok v w x : value_add v w = Ok x ↔ x = v + w ∧ v + w ≤ u64_max.
Proof. unfold value_add, checked_add64. case_decide; cbn; naive_solver lia. Qed.

Lemma value_add_not_panic v w : value_add v w ≠ Panic.
Proof. unfold value_add, checked_add64. by case_decide. Qed.

Lemma value_add_small v w : v + w ≤ u64_max → value_add v w = Ok (v + w).
Proof. intros. by apply value_add_Ok. Qed.

Lemma value_add_Err v w e : value_add v w = Err e ↔ e = Overflow ∧ u64_max < v + w.
Proof.
  unfold value_add, checked_add64. case_decide; cbn; split; try done.
  - lia.
  - intros [= <-]. split; [done|lia].
  - by intros [-> _].
Qed.

Lemma value_sub_Ok v w x : value_sub v w = Ok x ↔ x = v - w ∧ w ≤ v.
Proof. unfold value_sub, checked_sub64. case_decide; cbn; naive_solver lia. Qed.

Lemma value_sub_small v w : w ≤ v → value_sub v w = Ok (v - w).
Proof. intros. by apply value_sub_Ok. Qed.

Lemma value_sub_not_panic v w : value_sub v w ≠ Panic.
Proof. unfold value_sub, checked_sub64. by case_decide. Qed.

Lemma value_scale_Ok v n x : value_scale v n = Ok x ↔ x = v * n ∧ v * n ≤ u64_max.
Proof. unfold value_scale, checked_mul64. case_decide; cbn; naive_solver lia. Qed.

Lemma value_sum_err_absorb l (e : ValueError) :
  foldl (λ acc v, a ← acc; value_add a v) (Err e) l = Err e.
Proof. by induction l. Qed.

(** A checked sum is the exact sum when it fits, and an overflow otherwise:
    the order of the summands is irrelevant. *)
Lemma value_sum_acc l a :
  Forall (λ x, 0 ≤ x) l → a ≤ u64_max →
  foldl (λ acc v, a ← acc; value_add a v) (Ok a) l =
    if decide (a + Zsum l ≤ u64_max) then Ok (a + Zsum l) else Err Overflow.
Proof.
  revert a. induction l as [|v l IH]; intros a Hl Ha; cbn.
  - rewrite Z.add_0_r. by rewrite decide_True.
  - apply Forall_cons in Hl as [Hv Hl].
    pose proof (Zsum_nonneg l Hl). unfold value_add, checked_add64.
    destruct (decide (a + v ≤ u64_max)); cbn.
    + rewrite IH, Z.add_assoc by done. done.
    + rewrite value_sum_err_absorb, decide_False by lia. done.
Qed.

Lemma value_sum_spec l :
  Forall (λ x, 0 ≤ x) l →
  value_sum l = if decide (Zsum l ≤ u64_max) then Ok (Zsum l) else Err Overflow.
Proof. intros Hl. unfold value_sum, value_zero. by rewrite value_sum_acc. Qed.

Lemma value_sum_Ok l x : Forall (λ x, 0 ≤ x) l → value_sum l = Ok x → x = Zsum l ∧ x ≤ u64_max.
Proof. intros Hl. rewrite value_sum_spec by done. case_decide; [|done]. by intros [= <-]. Qed.

Lemma value_sum_saturating_acc l a :
  Forall (λ x, 0 ≤ x) l → a ≤ u64_max →
  foldl value_saturating_add a l = Z.min (a + Zsum l) u64_max.
Proof.
  revert a. induction l as [|v l IH]; intros a Hl Ha; cbn; [lia|].
  apply Forall_cons in Hl as [Hv Hl]. pose proof (Zsum_nonneg l Hl).
  unfold value_saturating_add, saturating_add64 in *. rewrite IH by (done || lia). lia.
Qed.

Lemma value_sum_saturating_spec l :
  Forall (λ x, 0 ≤ x) l → value_sum_saturating l = Z.min (Zsum l) u64_max.
Proof. intros. unfold value_sum_saturating, value_zero. by rewrite value_sum_saturating_acc. Qed.

Lemma split_in_spec v n :
  0 < n → u64_ok v →
  ∃ p r, split_in v n = Ok (mkSplit p r) ∧ v = p * n + r ∧ 0 ≤ r < n ∧ 0 ≤ p ≤ v.
Proof.
  intros Hn Hv. unfold split_in, div_checked, mod_checked. rewrite !decide_False by lia.
  eexists _, _. split; [done|]. destruct Hv as [Hv _]. clear -Hn Hv.
  pose proof (Z.div_mod v n ltac:(lia)). pose proof (Z.mod_pos_bound v n Hn).
  pose proof (Z.div_pos v n Hv Hn). split_and!; try lia. nia.
Qed.

Lemma value_bytes_roundtrip v : u64_ok v → value_try_from (value_bytes v) = Ok v.
Proof.
  intros Hv. unfold value_try_from, value_bytes. rewrite length_be_bytes. cbn [Nat.compare].
  by rewrite from_be_bytes.
Qed.

Lemma value_codec_roundtrip v (w rest : list Z) :
  u64_ok v → value_deserialize (value_bytes v ++ rest) = Ok (v, rest) ∧
  value_serialize w v = w ++ value_bytes v.
Proof.
  intros Hv. split; [|done]. unfold value_deserialize, codec_get_be, codec_get, value_bytes.
  rewrite decide_True by (rewrite length_app, length_be_bytes; lia). cbn [mbind outcome_bind].
  rewrite take_app_length', drop_app_length' by by rewrite length_be_bytes.
  by rewrite from_be_bytes.
Qed.
End values.
#[export] Hint Rewrite value_add_Ok value_sub_Ok : chain.
#[global] Opaque value_sum.

(** ** [fee.rs] *)

(** The certificates a transaction may carry, by their constructor
    ([CertificateSlice]): the fee only depends on it. *)
Inductive CertificateSlice :=
| CStakeDelegation | COwnerStakeDelegation | CPoolRegistration | CPoolRetirement | CPoolUpdate
| CVotePlan | CVoteCast | CVoteTally | CEncryptedVoteTally | CUpdateProposal | CUpdateVote
| CMintToken.

Record PerCertificateFee := mkPerCert {
  certificate_pool_registration : option Z;
  certificate_stake_delegation : option Z;
  certificate_owner_stake_delegation : option Z }.
Record PerVoteCertificateFee := mkPerVoteCert {
  certificate_vote_plan : option Z;
  certificate_vote_cast : option Z }.
Record LinearFee := mkLinearFee {
  constant : Z; coefficient : Z; certificate : Z;
  lf_per_certificate_fees : PerCertificateFee;
  lf_per_vote_certificate_fees : PerVoteCertificateFee }.

Definition linear_fee_new (constant coefficient certificate : Z) : LinearFee :=
  mkLinearFee constant coefficient certificate (mkPerCert None None None) (mkPerVoteCert None None).
Definition per_certificate_fees (f : LinearFee) (p : PerCertificateFee) : LinearFee :=
  mkLinearFee (constant f) (coefficient f) (certificate f) p (lf_per_vote_certificate_fees f).
Definition per_vote_certificate_fees (f : LinearFee) (p : PerVoteCertificateFee) : LinearFee :=
  mkLinearFee (constant f) (coefficient f) (certificate f) (lf_per_certificate_fees f) p.

Definition per_cert_fees_for_certificate (f : PerCertificateFee) (cert : CertificateSlice) :
    option Value :=
  match cert with
  | CPoolRegistration => certificate_pool_registration f
  | CStakeDelegation => certificate_stake_delegation f
  | COwnerStakeDelegation => certificate_owner_stake_delegation f
  | _ => None
  end.
Definition per_vote_cert_fees_for_certificate (f : PerVoteCertificateFee)
    (cert : CertificateSlice) : option Value :=
  match cert with
  | CVotePlan => certificate_vote_plan f
  | CVoteCast => certificate_vote_cast f
  | _ => None
  end.

(** The trait: [calculate] is its provided method. *)
Class FeeAlgorithm (F : Type) := {
  baseline : F → Value;
  fees_for_inputs_outputs : F → Z → Z → Value;
  fees_for_certificate : F → CertificateSlice → Value }.
Definition calculate `{FeeAlgorithm F} (f : F) (cert : option CertificateSlice)
    (inputs outputs : Z) : Value :=
  value_saturating_add
    (value_saturating_add (baseline f) (fees_for_inputs_outputs f inputs outputs))
    (from_option (fees_for_certificate f) value_zero cert).

#[export] Instance linear_fee_algorithm : FeeAlgorithm LinearFee := {
  baseline f := constant f;
  fees_for_inputs_outputs f inputs outputs := saturating_mul64 (coefficient f) (inputs + outputs);
  fees_for_certificate f cert :=
    let f1 := per_cert_fees_for_certificate (lf_per_certificate_fees f) cert in
    let f2 := per_vote_cert_fees_for_certificate (lf_per_vote_certificate_fees f) cert in
    default (certificate f) (match f1 with Some v => Some v | None => f2 end) }.

(** What a client may assume of a fee algorithm: fees are values, and more
    inputs and outputs never cost less. *)
Class FeeLaws (F : Type) `{FeeAlgorithm F} (ok : F → Prop) := {
  fee_baseline_ok f : ok f → u64_ok (baseline f);
  fee_io_ok f i o : ok f → u8_ok i → u8_ok o → u64_ok (fees_for_inputs_outputs f i o);
  fee_cert_ok f c : ok f → u64_ok (fees_for_certificate f c);
  fee_io_mono f i i' o o' : ok f → 0 ≤ i ≤ i' → 0 ≤ o ≤ o' →
    fees_for_inputs_outputs f i o ≤ fees_for_inputs_outputs f i' o' }.

Section fee_clients.
Context `{HL : FeeLaws F ok}.

Lemma calculate_ok f cert i o :
  ok f → u8_ok i → u8_ok o → u64_ok (calculate f cert i o).
Proof using HL.
  intros Hf Hi Ho. unfold calculate, value_saturating_add, saturating_add64.
  pose proof (fee_baseline_ok f Hf). pose proof (fee_io_ok f i o Hf Hi Ho).
  unfold in_u, u64_max in *.
  destruct cert as [c|]; cbn [from_option]; [pose proof (fee_cert_ok f c Hf)|];
    unfold in_u, value_zero in *; lia.
Qed.

Lemma calculate_mono f cert i i' o o' :
  ok f → 0 ≤ i ≤ i' → 0 ≤ o ≤ o' → calculate f cert i o ≤ calculate f cert i' o'.
Proof using HL.
  intros Hf Hi Ho. unfold calculate, value_saturating_add, saturating_add64.
  pose proof (fee_io_mono f i i' o o' Hf Hi Ho). lia.
Qed.
End fee_clients.

Definition opt_u64_ok (o : option Z) : Prop := from_option u64_ok True o.
Definition linear_fee_ok (f : LinearFee) : Prop :=
  u64_ok (constant f) ∧ u64_ok (coefficient f) ∧ u64_ok (certificate f) ∧
  opt_u64_ok (certificate_pool_registration (lf_per_certificate_fees f)) ∧
  opt_u64_ok (certificate_stake_delegation (lf_per_certificate_fees f)) ∧
  opt_u64_ok (certificate_owner_stake_delegation (lf_per_certificate_fees f)) ∧
  opt_u64_ok (certificate_vote_plan (lf_per_vote_certificate_fees f)) ∧
  opt_u64_ok (certificate_vote_cast (lf_per_vote_certificate_fees f)).

#[export] Instance linear_fee_laws : FeeLaws LinearFee linear_fee_ok.
Proof.
  split.
  - intros f Hf. apply Hf.
  - intros f i o Hf Hi Ho. cbn. unfold saturating_mul64. destruct Hf as (_ & Hc & _).
    unfold in_u, u64_max in *. nia.
  - intros f c (H1 & H2 & H3 & H4 & H5 & H6 & H7 & H8).
    destruct f as [? ? ? [[]  [] []] [[] []]]; destruct c; cbn in *; done.
  - intros f i i' o o' (_ & Hc & _) Hi Ho. cbn. unfold saturating_mul64, in_u in *. nia.
Qed.

(** The linear fee is [constant + coefficient * (inputs + outputs)] plus
    the certificate's fee, saturating at the largest value: with a per-kind
    override when one is set and the default certificate fee otherwise.  It is
    always a [u64] and grows with the number of inputs and outputs. *)
Theorem linear_fee_calculate f cert i o i' o' :
  linear_fee_ok f → u8_ok i → u8_ok o → u8_ok i' → u8_ok o' → i ≤ i' → o ≤ o' →
  calculate f cert i o =
    Z.min (constant f + coefficient f * (i + o) +
           from_option (fees_for_certificate f) 0 cert) u64_max ∧
  u64_ok (calculate f cert i o) ∧ calculate f cert i o ≤ calculate f cert i' o'.
Proof.
  intros Hf Hi Ho Hi' Ho' Hii Hoo. split; [|split].
  - unfold calculate. cbn [baseline fees_for_inputs_outputs linear_fee_algorithm].
    unfold value_saturating_add, saturating_add64, saturating_mul64, value_zero.
    assert (0 ≤ from_option (fees_for_certificate f) 0 cert).
    { destruct cert as [c|]; cbn [from_option]; [|lia]. by apply fee_cert_ok. }
    destruct Hf as ([? _] & [? _] & _). unfold in_u in *.
    set (cf := from_option _ _ _) in *. nia.
  - by apply calculate_ok.
  - unfold in_u in *. apply calculate_mono; [done|lia..].
Qed.

Definition demo_fee : LinearFee :=
  per_certificate_fees (linear_fee_new 5 1 2) (mkPerCert (Some 10) None None).

Lemma linear_fee_calculate_witness :
  calculate demo_fee (Some CPoolRegistration) 1 2 = 18 ∧
  calculate demo_fee (Some CVoteCast) 1 2 = 10.
Proof.
  assert (linear_fee_ok demo_fee) as H by (repeat split; cbn; lia).
  split.
  - destruct (linear_fee_calculate demo_fee (Some CPoolRegistration) 1 2 1 2 H) as [-> _];
      [split; cbn; lia..|lia|lia|reflexivity].
  - destruct (linear_fee_calculate demo_fee (Some CVoteCast) 1 2 1 2 H) as [-> _];
      [split; cbn; lia..|lia|lia|reflexivity].
Defined.
