(* ===== verification/Time.v ===== *)
(** * Time: eras, time frames and block dates ([chain-time/src], [date.rs])

    A [TimeEra] cuts a sequence of slots into epochs; a [TimeFrame] cuts
    earth time into slots.  [BlockDate] is the ledger's (epoch, slot) pair and
    its textual form.  Earth time is a [Z] of nanoseconds; [SystemTime + Duration]
    panics outside the range of 64-bit seconds. *)
From Stdlib Require Import Ascii.
From S2P Require Import Prelude Codec.
Local Open Scope Z_scope.

(** ** [era.rs] *)
Record EpochPosition := mkPos { epos_epoch : Z; epos_slot : Z }.
Record TimeEra := mkEra { epoch_start : Z; slot_start : Z; era_slots_per_epoch : Z }.

Definition time_era_new (slot_start epoch_start slots_per_epoch : Z) : TimeEra :=
  mkEra epoch_start slot_start slots_per_epoch.
Definition slots_per_epoch (e : TimeEra) : Z := era_slots_per_epoch e.

Definition pack_time_era (e : TimeEra) (codec : list Z) : list Z :=
  let codec := codec_put_be 4 codec (epoch_start e) in
  let codec := codec_put_be 8 codec (slot_start e) in
  codec_put_be 4 codec (era_slots_per_epoch e).
Definition unpack_time_era (codec : list Z) : outcome IoError (TimeEra * list Z) :=
  '(epoch_start, codec) ← codec_get_be 4 codec;
  '(slot_start, codec) ← codec_get_be 8 codec;
  '(slots_per_epoch, codec) ← codec_get_be 4 codec;
  Ok (mkEra epoch_start slot_start slots_per_epoch, codec).

Definition from_slot_to_era (e : TimeEra) (slot : Z) : outcome infallible (option EpochPosition) :=
  if slot <? slot_start e then Ok None
  else
    let slot_era_offset := slot - slot_start e in
    let spe := era_slots_per_epoch e in
    q ← div_checked slot_era_offset spe;
    r ← mod_checked slot_era_offset spe;
    let epoch_offset := wrap 32 q in
    let slot_offset := wrap 32 r in
    Ok (Some (mkPos (wrap 32 (epoch_start e + epoch_offset)) slot_offset)).

Definition from_era_to_slot (e : TimeEra) (pos : EpochPosition) : outcome infallible Z :=
  assert_that (epoch_start e <=? epos_epoch pos) ;;
  assert_that (epos_slot pos <? era_slots_per_epoch e) ;;
  let slot_offset := wrap 64 (wrap 64 (epos_epoch pos * era_slots_per_epoch e) + epos_slot pos) in
  Ok (wrap 64 (slot_start e + slot_offset)).

(** ** [date.rs] *)
Record BlockDate := mkDate { date_epoch : Z; date_slot_id : Z }.
#[export] Instance BlockDate_eq_dec : EqDecision BlockDate.
Proof. solve_decision. Defined.

Definition date_first : BlockDate := mkDate 0 0.
Definition date_next (d : BlockDate) (era : TimeEra) : outcome infallible BlockDate :=
  let epoch_duration := slots_per_epoch era in
  assert_that (date_slot_id d <? epoch_duration) ;;
  if wrap 32 (date_slot_id d + 1) =? epoch_duration
  then Ok (mkDate (wrap 32 (date_epoch d + 1)) 0)
  else Ok (mkDate (date_epoch d) (wrap 32 (date_slot_id d + 1))).
Definition date_next_epoch (d : BlockDate) : BlockDate := mkDate (wrap 32 (date_epoch d + 1)) 0.
Definition date_of_position (p : EpochPosition) : BlockDate := mkDate (epos_epoch p) (epos_slot p).
(** The derived order: epoch first. *)
Definition date_le (a b : BlockDate) : bool :=
  (date_epoch a <? date_epoch b) ||
  ((date_epoch a =? date_epoch b) && (date_slot_id a <=? date_slot_id b)).
Definition date_lt (a b : BlockDate) : bool :=
  (date_epoch a <? date_epoch b) ||
  ((date_epoch a =? date_epoch b) && (date_slot_id a <? date_slot_id b)).

(** [u32]'s [Display] and [FromStr]. *)
Definition digit_char (d : Z) : ascii := Ascii.ascii_of_nat (48 + Z.to_nat d).
Definition char_digit (c : ascii) : option Z :=
  let n := Z.of_nat (Ascii.nat_of_ascii c) in
  if decide (48 ≤ n ≤ 57) then Some (n - 48) else None.
(** The ten digits of a [u32] are enough fuel. *)
Fixpoint print_digits (fuel : nat) (v : Z) (acc : list ascii) : list ascii :=
  match fuel with
  | O => acc
  | S fuel =>
      let acc := digit_char (v `mod` 10) :: acc in
      if v `div` 10 =? 0 then acc else print_digits fuel (v `div` 10) acc
  end.
Definition print_u32 (v : Z) : list ascii := print_digits 10 v [].

Inductive ParseIntError := PIEmpty | PIInvalidDigit | PIPosOverflow.
Fixpoint parse_digits (l : list ascii) (result : Z) : outcome ParseIntError Z :=
  match l with
  | [] => Ok result
  | c :: l =>
      x ← ok_or (char_digit c) PIInvalidDigit;
      if result * 10 + x <=? u32_max then parse_digits l (result * 10 + x) else
        Err PIPosOverflow
  end.
Definition parse_u32 (l : list ascii) : outcome ParseIntError Z :=
  match l with
  | [] => Err PIEmpty
  | [c] => if decide (c = "+"%char ∨ c = "-"%char) then Err PIInvalidDigit else parse_digits l 0
  | c :: rest => if decide (c = "+"%char) then parse_digits rest 0 else parse_digits l 0
  end.

Inductive BlockDateParseError :=
| DotMissing | BadEpochId (e : ParseIntError) | BadSlotId (e : ParseIntError).

Definition date_display (d : BlockDate) : list ascii :=
  print_u32 (date_epoch d) ++ "."%char :: print_u32 (date_slot_id d).
Definition date_from_str (s : list ascii) : outcome BlockDateParseError BlockDate :=
  match list_find (λ c, c = "."%char) s with
  | None => Err DotMissing
  | Some (pos, _) =>
      epoch ← map_err BadEpochId (parse_u32 (take pos s));
      slot_id ← map_err BadSlotId (parse_u32 (drop (S pos) s));
      Ok (mkDate epoch slot_id)
  end.

(** ** [timeline.rs] and [timeframe.rs] *)
Definition NANOS : Z := 1000000000.
Definition from_secs (s : Z) : Z := s * NANOS.
Definition as_secs (d : Z) : Z := d `div` NANOS.
Definition systemtime_ok (t : Z) : Prop := - 2 ^ 63 ≤ as_secs t < 2 ^ 63.
#[export] Instance systemtime_ok_dec t : Decision (systemtime_ok t).
Proof. unfold systemtime_ok. apply _. Defined.
Definition systemtime_add (t d : Z) : outcome infallible Z :=
  if decide (systemtime_ok (t + d)) then Ok (t + d) else Panic.

Record Timeline := mkTimeline { timeline_start : Z }.
Definition differential (l : Timeline) (t : Z) : option Z :=
  if timeline_start l <=? t then Some (t - timeline_start l) else None.
Definition advance (l : Timeline) (d : Z) : outcome infallible Timeline :=
  mkTimeline <$> systemtime_add (timeline_start l) d.

Record TimeFrame := mkFrame { timeline : Timeline; slot_offset : Z; slot_duration : Z }.
Record SlotAndDuration := mkSlotAndDuration { sd_slot : Z; sd_offset : Z }.

Definition slot_duration_from_secs (seconds : Z) : outcome infallible Z :=
  assert_that (seconds <? 600) ;; Ok seconds.
Definition timeframe_new (l : Timeline) (per_slot : Z) : TimeFrame := mkFrame l 0 per_slot.
Definition change_frame (f : TimeFrame) (slot duration_per_slot : Z) : outcome infallible TimeFrame :=
  let d := from_secs (wrap 64 (slot * slot_duration f)) in
  new_timeline ← advance (timeline f) d;
  Ok (mkFrame new_timeline (wrap 64 (slot_offset f + slot)) duration_per_slot).
Definition slot0 (f : TimeFrame) : Z := slot_offset f.
Definition slot_at_precise (f : TimeFrame) (at_ : Z) : outcome infallible (option SlotAndDuration) :=
  match differential (timeline f) at_ with
  | None => Ok None
  | Some t =>
      slot_nb ← div_checked (as_secs t) (slot_duration f);
      let e := wrap 64 (slot_nb * slot_duration f) in
      assert_that (from_secs e <=? t) ;;
      let d := t - from_secs e in
      Ok (Some (mkSlotAndDuration (wrap 64 (slot_offset f + slot_nb)) d))
  end.
Definition slot_at (f : TimeFrame) (at_ : Z) : outcome infallible (option Z) :=
  match differential (timeline f) at_ with
  | None => Ok None
  | Some t =>
      slot_nb ← div_checked (as_secs t) (slot_duration f);
      Ok (Some (wrap 64 (slot_offset f + slot_nb)))
  end.
Definition slot_to_systemtime (f : TimeFrame) (slot : Z) : outcome infallible (option Z) :=
  match checked_sub64 slot (slot_offset f) with
  | None => Ok None
  | Some sd => Some <$> systemtime_add (timeline_start (timeline f))
                          (from_secs (wrap 64 (sd * slot_duration f)))
  end.

(** ** Eras *)

(** An era whose numbers are within their types, with a positive epoch. *)
Definition era_ok (e : TimeEra) : Prop :=
  u32_ok (epoch_start e) ∧ u64_ok (slot_start e) ∧ u32_ok (era_slots_per_epoch e) ∧
  0 < era_slots_per_epoch e.

(** The epochs counted in the era, from its start. *)
Definition era_epoch (e : TimeEra) (slot : Z) : Z :=
  (slot - slot_start e) `div` era_slots_per_epoch e.

Section eras.
Implicit Types e : TimeEra.

Lemma from_slot_to_era_eq e slot :
  era_ok e → slot_start e ≤ slot → u32_ok (epoch_start e + era_epoch e slot) →
  from_slot_to_era e slot =
    Ok (Some (mkPos (epoch_start e + era_epoch e slot)
                    ((slot - slot_start e) `mod` era_slots_per_epoch e))).
Proof.
  intros (He & Hs & Hspe & Hpos) Hle Hin. unfold from_slot_to_era, era_epoch in *.
  rewrite (proj2 (Z.ltb_ge _ _)) by done. unfold div_checked, mod_checked.
  rewrite !decide_False by lia. cbn.
  pose proof (Z.div_pos (slot - slot_start e) (era_slots_per_epoch e)).
  pose proof (Z.mod_pos_bound (slot - slot_start e) (era_slots_per_epoch e) Hpos).
  rewrite (wrap_small 32 (_ `div` _)), (wrap_small 32 (_ + _)), wrap_small.
  - done.
  - unfold in_u in *. lia.
  - done.
  - unfold in_u in *. lia.
Qed.

Lemma from_era_to_slot_eq e p :
  era_ok e → epoch_start e ≤ epos_epoch p → 0 ≤ epos_slot p < era_slots_per_epoch e →
  slot_start e + (epos_epoch p * era_slots_per_epoch e + epos_slot p) < 2 ^ 64 →
  from_era_to_slot e p =
    Ok (slot_start e + (epos_epoch p * era_slots_per_epoch e + epos_slot p)).
Proof.
  intros (He & Hs & Hspe & Hpos) Hle Hsl Hin. unfold from_era_to_slot, in_u in *.
  rewrite (proj2 (Z.leb_le _ _)) by done. rewrite (proj2 (Z.ltb_lt _ _)) by lia. cbn.
  assert (0 ≤ epos_epoch p * era_slots_per_epoch e) by nia.
  rewrite (wrap_small 64 (_ * _)), (wrap_small 64 (_ * _ + _)), wrap_small by (unfold in_u; lia).
  done.
Qed.

(** Converting a slot of an era to its epoch position and back gives
    [epoch_start * slots_per_epoch] more than the slot, because
    [from_era_to_slot] multiplies the absolute epoch number instead of the
    epochs elapsed in the era: the two functions are inverse exactly for
    the eras that start at epoch 0. *)
Theorem era_slot_roundtrip e slot :
  era_ok e → slot_start e ≤ slot → u32_ok (epoch_start e + era_epoch e slot) →
  slot + epoch_start e * era_slots_per_epoch e < 2 ^ 64 →
  ∃ p, from_slot_to_era e slot = Ok (Some p) ∧
    0 ≤ epos_slot p < era_slots_per_epoch e ∧ epoch_start e ≤ epos_epoch p ∧
    from_era_to_slot e p = Ok (slot + epoch_start e * era_slots_per_epoch e) ∧
    (from_era_to_slot e p = Ok slot ↔ epoch_start e = 0).
Proof.
  intros He Hle Hin Hmax. eexists. split; [by apply from_slot_to_era_eq|]. cbn.
  pose proof He as ([? ?] & [? ?] & [? ?] & Hpos).
  pose proof (Z.mod_pos_bound (slot - slot_start e) (era_slots_per_epoch e) Hpos) as Hm.
  pose proof (Z.div_mod (slot - slot_start e) (era_slots_per_epoch e) ltac:(lia)) as Hdm.
  pose proof (Z.div_pos (slot - slot_start e) (era_slots_per_epoch e) ltac:(lia) Hpos).
  assert (slot_start e + ((epoch_start e + era_epoch e slot) * era_slots_per_epoch e +
    (slot - slot_start e) `mod` era_slots_per_epoch e) =
    slot + epoch_start e * era_slots_per_epoch e) as Heq by (unfold era_epoch; nia).
  split; [done|]. split; [unfold era_epoch; lia|].
  rewrite from_era_to_slot_eq; cbn; [|done|unfold era_epoch; lia|done|lia].
  rewrite Heq. split; [done|]. split; [intros [= ?]; nia|]. intros ->. f_equal. lia.
Qed.

(** The slot after a slot is at the next block date: [BlockDate::next]
    rolls over to slot 0 of the next epoch exactly at the end of an epoch. *)
Theorem block_date_next_slot e slot :
  era_ok e → slot_start e ≤ slot → u32_ok (epoch_start e + era_epoch e slot + 1) →
  0 ≤ epoch_start e + era_epoch e slot →
  ∃ p p', from_slot_to_era e slot = Ok (Some p) ∧
    from_slot_to_era e (slot + 1) = Ok (Some p') ∧
    date_next (date_of_position p) e = Ok (date_of_position p') ∧
    date_lt (date_of_position p) (date_of_position p') = true.
Proof.
  intros He Hle Hin Hnn. pose proof He as ([? ?] & [? ?] & [? ?] & Hpos).
  set (o := slot - slot_start e) in *. set (n := era_slots_per_epoch e) in *.
  pose proof (Z.mod_pos_bound o n Hpos) as Hm. pose proof (Z.div_mod o n ltac:(lia)) as Hdm.
  assert (era_epoch e slot = o `div` n) as Hep by done.
  assert (slot + 1 - slot_start e = o + 1) as Ho by (unfold o; lia).
  assert (((o + 1) `div` n = o `div` n ∧ (o + 1) `mod` n = o `mod` n + 1 ∧ o `mod` n + 1 < n) ∨
    ((o + 1) `div` n = o `div` n + 1 ∧ (o + 1) `mod` n = 0 ∧ o `mod` n + 1 = n)) as Hcase.
  { destruct (decide (o `mod` n + 1 < n)); [left|right].
    - destruct (Z.div_mod_unique n (o `div` n) ((o + 1) `div` n) (o `mod` n + 1) ((o + 1) `mod` n))
        as [<- <-]; [lia|left; apply Z.mod_pos_bound; lia| |done].
      rewrite <-Z.div_mod by lia. lia.
    - destruct (Z.div_mod_unique n (o `div` n + 1) ((o + 1) `div` n) 0 ((o + 1) `mod` n))
        as [<- <-]; [lia|left; apply Z.mod_pos_bound; lia| |lia].
      rewrite <-Z.div_mod by lia. nia. }
  assert (era_epoch e (slot + 1) = (o + 1) `div` n) as Hep' by (unfold era_epoch; by rewrite Ho).
  eexists _, _. split; [apply from_slot_to_era_eq; [done|done|unfold in_u in *; lia]|].
  split; [apply from_slot_to_era_eq; [done|lia|unfold in_u in *; lia]|].
  fold o n. rewrite Ho, Hep, Hep'. unfold date_next, date_of_position, slots_per_epoch. cbn.
  fold n. rewrite (proj2 (Z.ltb_lt _ _)) by lia. cbn.
  rewrite wrap_small by (unfold in_u in *; lia).
  destruct Hcase as [(-> & -> & ?)|(-> & -> & ?)].
  - rewrite (proj2 (Z.eqb_neq _ _)) by lia. split; [done|]. unfold date_lt. cbn.
    rewrite Z.eqb_refl, (proj2 (Z.ltb_lt (o `mod` n) _)) by lia. apply orb_true_r.
  - rewrite (proj2 (Z.eqb_eq _ _)) by lia.
    rewrite wrap_small by (unfold in_u in *; lia). split; [do 2 f_equal; lia|].
    unfold date_lt. cbn. by rewrite (proj2 (Z.ltb_lt (epoch_start e + o `div` n) _)) by lia.
Qed.
End eras.

Lemma era_slot_roundtrip_witness :
  ∃ p, from_slot_to_era (mkEra 3 10 5) 17 = Ok (Some p) ∧ from_era_to_slot (mkEra 3 10 5) p = Ok 32.
Proof.
  destruct (era_slot_roundtrip (mkEra 3 10 5) 17) as (p & H1 & _ & _ & H2 & _);
    [repeat split; cbn; lia|cbn; lia|split; vm_compute; [discriminate|reflexivity]|vm_compute; reflexivity|].
  exists p. split; [exact H1|exact H2].
Defined.

Lemma block_date_next_slot_witness :
  ∃ p p', from_slot_to_era (mkEra 3 10 5) 19 = Ok (Some p) ∧
    from_slot_to_era (mkEra 3 10 5) 20 = Ok (Some p') ∧
    date_next (date_of_position p) (mkEra 3 10 5) = Ok (date_of_position p').
Proof.
  destruct (block_date_next_slot (mkEra 3 10 5) 19) as (p & p' & H1 & H2 & H3 & _);
    [repeat split; cbn; lia|cbn; lia|split; vm_compute; [discriminate|reflexivity]
    |vm_compute; discriminate|].
  exists p, p'. split; [exact H1|]. split; [exact H2|exact H3].
Defined.

Lemma time_era_codec_roundtrip e rest :
  era_ok e → unpack_time_era (pack_time_era e [] ++ rest) = Ok (e, rest).
Proof.
  intros (He & Hs & Hspe & _). unfold pack_time_era, unpack_time_era, codec_put_be.
  assert (∀ n v l, in_u (8 * Z.of_nat n) v → codec_get_be n (be_bytes n v ++ l) = Ok (v, l)) as Hget.
  { intros n v l Hv. unfold codec_get_be, codec_get.
    rewrite decide_True by (rewrite length_app, length_be_bytes; lia). cbn [mbind outcome_bind].
    rewrite take_app_length', drop_app_length' by by rewrite length_be_bytes.
    by rewrite from_be_bytes. }
  rewrite app_nil_l, <-!app_assoc.
  rewrite Hget by done. cbn [mbind outcome_bind]. rewrite Hget by done. cbn [mbind outcome_bind].
  rewrite Hget by done. cbn. by destruct e.
Qed.

(** ** Time frames *)
Definition frame_ok (f : TimeFrame) : Prop :=
  0 < slot_duration f < 600 ∧ u64_ok (slot_offset f) ∧ systemtime_ok (timeline_start (timeline f)).
(** The slots counted in the frame at a time. *)
Definition frame_slots (f : TimeFrame) (t : Z) : Z :=
  as_secs (t - timeline_start (timeline f)) `div` slot_duration f.

Section frames.
Implicit Types f : TimeFrame.

Lemma systemtime_between a b c : systemtime_ok a → systemtime_ok c → a ≤ b ≤ c → systemtime_ok b.
Proof.
  unfold systemtime_ok, as_secs, NANOS. intros Ha Hc Hb.
  pose proof (Z.div_le_mono a b 1000000000). pose proof (Z.div_le_mono b c 1000000000). lia.
Qed.

Lemma frame_slots_bounds f t :
  frame_ok f → timeline_start (timeline f) ≤ t →
  0 ≤ frame_slots f t ∧
  from_secs (frame_slots f t * slot_duration f) ≤ t - timeline_start (timeline f) <
    from_secs ((frame_slots f t + 1) * slot_duration f).
Proof.
  intros (Hd & _ & _) Ht. unfold frame_slots, from_secs, as_secs, NANOS.
  set (o := t - timeline_start (timeline f)). assert (0 ≤ o) as Ho by (unfold o; lia).
  set (d := slot_duration f) in *.
  pose proof (Z.div_mod o 1000000000). pose proof (Z.mod_pos_bound o 1000000000).
  pose proof (Z.div_mod (o `div` 1000000000) d). pose proof (Z.mod_pos_bound (o `div` 1000000000) d).
  pose proof (Z.div_pos o 1000000000). pose proof (Z.div_pos (o `div` 1000000000) d).
  nia.
Qed.

Lemma frame_slots_u64 f t :
  frame_ok f → systemtime_ok t → timeline_start (timeline f) ≤ t →
  u64_ok (frame_slots f t) ∧ u64_ok (frame_slots f t * slot_duration f).
Proof.
  intros Hf Ht Hle. destruct (frame_slots_bounds f t Hf Hle) as [Hnn [Hlo _]].
  destruct Hf as (Hd & _ & Hs). unfold systemtime_ok, from_secs, as_secs, NANOS, in_u in *.
  pose proof (Z.div_mod t 1000000000 ltac:(lia)). pose proof (Z.mod_pos_bound t 1000000000).
  pose proof (Z.div_mod (timeline_start (timeline f)) 1000000000 ltac:(lia)).
  pose proof (Z.mod_pos_bound (timeline_start (timeline f)) 1000000000).
  nia.
Qed.

(** [slot_at] finds the slot whose interval holds the time: the slot it
    returns starts, by [slot_to_systemtime], at or before the time and less
    than a slot's duration before it; [slot_at_precise] returns the same slot
    with that distance, and a time before the frame has no slot. *)
Theorem slot_at_interval f t :
  frame_ok f → systemtime_ok t →
  (t < timeline_start (timeline f) →
    slot_at f t = Ok None ∧ slot_at_precise f t = Ok None) ∧
  (timeline_start (timeline f) ≤ t → slot_offset f + frame_slots f t < 2 ^ 64 →
    ∃ s t0, slot_at f t = Ok (Some s) ∧ slot_to_systemtime f s = Ok (Some t0) ∧
      t0 ≤ t < t0 + from_secs (slot_duration f) ∧
      slot_at_precise f t = Ok (Some (mkSlotAndDuration s (t - t0))) ∧
      slot_at f t0 = Ok (Some s)).
Proof.
  intros Hf Ht. split.
  - intros Hlt. unfold slot_at, slot_at_precise, differential.
    by rewrite (proj2 (Z.leb_gt _ _)) by done.
  - intros Hle Hmax. destruct (frame_slots_bounds f t Hf Hle) as (Hnn & Hlo & Hhi).
    destruct (frame_slots_u64 f t Hf Ht Hle) as [Hu Hu'].
    pose proof Hf as (Hd & [Hoff _] & Hs).
    assert (∀ t', timeline_start (timeline f) ≤ t' → frame_slots f t' = frame_slots f t →
      slot_at f t' = Ok (Some (slot_offset f + frame_slots f t))) as Hslot.
    { intros t' Hle' Heq. unfold slot_at, differential.
      rewrite (proj2 (Z.leb_le _ _)) by done. unfold div_checked. rewrite decide_False by lia.
      cbn. fold (frame_slots f t'). rewrite Heq.
      by rewrite wrap_small by (unfold in_u; lia). }
    set (t0 := timeline_start (timeline f) + from_secs (frame_slots f t * slot_duration f)).
    assert (from_secs (frame_slots f t * slot_duration f) + from_secs (slot_duration f) =
      from_secs ((frame_slots f t + 1) * slot_duration f)) as Hnext by (unfold from_secs; nia).
    assert (0 ≤ from_secs (frame_slots f t * slot_duration f)) by (unfold from_secs, NANOS; nia).
    exists (slot_offset f + frame_slots f t), t0.
    split; [by apply Hslot|]. split; [|split; [unfold t0; lia|split]].
    + unfold slot_to_systemtime, checked_sub64. rewrite decide_True by lia.
      replace (slot_offset f + frame_slots f t - slot_offset f) with (frame_slots f t) by lia.
      rewrite wrap_small by done. unfold systemtime_add. fold t0.
      rewrite decide_True; [done|].
      apply (systemtime_between (timeline_start (timeline f)) t0 t); unfold t0; done || lia.
    + unfold slot_at_precise, differential. rewrite (proj2 (Z.leb_le _ _)) by done.
      unfold div_checked. rewrite decide_False by lia. cbn.
      fold (frame_slots f t). rewrite (wrap_small 64 (frame_slots f t * _)) by done.
      rewrite (proj2 (Z.leb_le _ _)) by done. cbn.
      rewrite wrap_small by (unfold in_u; lia). do 3 f_equal. unfold t0. lia.
    + apply Hslot; [unfold t0; lia|]. unfold frame_slots at 1, t0.
      replace (_ + _ - _) with (from_secs (frame_slots f t * slot_duration f)) by lia.
      unfold as_secs, from_secs. rewrite Z.div_mul by done. apply Z.div_mul. lia.
Qed.

(** Changing the slot duration at a slot of a frame keeps time
    continuous: the new frame begins where the old frame puts its first
    slot, and its numbering continues from there. *)
Theorem change_frame_continuous f s d :
  frame_ok f → 0 ≤ s → u64_ok (s * slot_duration f) → slot_offset f + s < 2 ^ 64 →
  systemtime_ok (timeline_start (timeline f) + from_secs (s * slot_duration f)) →
  ∃ f', change_frame f s d = Ok f' ∧ slot0 f' = slot0 f + s ∧ slot_duration f' = d ∧
    slot_to_systemtime f (slot0 f') = Ok (Some (timeline_start (timeline f'))) ∧
    (0 < d < 600 → slot_at f' (timeline_start (timeline f')) = Ok (Some (slot0 f'))).
Proof.
  intros Hf Hs Hu Hmax Hok. pose proof Hf as (Hd & [? _] & Hst).
  unfold change_frame, advance, systemtime_add. rewrite (wrap_small 64 (_ * _)) by done.
  rewrite decide_True by done. cbn. eexists. split; [done|]. unfold slot0. cbn.
  rewrite wrap_small by (unfold in_u; lia). split; [done|]. split; [done|]. split.
  - unfold slot_to_systemtime, checked_sub64. rewrite decide_True by lia.
    replace (slot_offset f + s - slot_offset f) with s by lia.
    rewrite wrap_small by done. unfold systemtime_add. by rewrite decide_True.
  - intros Hd'. unfold slot_at, differential. cbn.
    rewrite (proj2 (Z.leb_le _ _)) by lia. unfold div_checked. rewrite decide_False by lia.
    rewrite Z.sub_diag. change (as_secs 0) with 0. cbn. rewrite Z.add_0_r.
    by rewrite wrap_small by (unfold in_u; lia).
Qed.
End frames.

Definition demo_frame : TimeFrame := mkFrame (mkTimeline 5000000000) 100 4.

Lemma demo_frame_ok : frame_ok demo_frame.
Proof. repeat split; vm_compute; try discriminate; done. Qed.

Lemma slot_at_interval_witness :
  ∃ s t0, slot_at demo_frame 18000000000 = Ok (Some s) ∧
    slot_to_systemtime demo_frame s = Ok (Some t0) ∧ t0 ≤ 18000000000 < t0 + 4000000000.
Proof.
  destruct (slot_at_interval demo_frame 18000000000 demo_frame_ok) as [_ H];
    [split; vm_compute; [discriminate|reflexivity]|].
  destruct H as (s & t0 & H1 & H2 & H3 & _); [vm_compute; discriminate|vm_compute; reflexivity|].
  exists s, t0. split; [exact H1|]. split; [exact H2|exact H3].
Defined.

Lemma change_frame_continuous_witness :
  ∃ f', change_frame demo_frame 10 2 = Ok f' ∧ slot0 f' = 110 ∧
    slot_to_systemtime demo_frame 110 = Ok (Some (timeline_start (timeline f'))).
Proof.
  destruct (change_frame_continuous demo_frame 10 2 demo_frame_ok) as (f' & H1 & H2 & _ & H3 & _);
    [lia|split; vm_compute; [discriminate|reflexivity]|vm_compute; reflexivity
    |split; vm_compute; [discriminate|reflexivity]|].
  exists f'. split; [exact H1|]. rewrite H2 in H3. split; [exact H2|exact H3].
Defined.

(** ** The textual form of a block date *)
Section text.
Lemma char_digit_digit d : 0 ≤ d < 10 → char_digit (digit_char d) = Some d.
Proof.
  intros Hd. unfold char_digit, digit_char. rewrite nat_ascii_embedding by lia.
  rewrite decide_True by lia. f_equal. lia.
Qed.

Definition all_digits (l : list ascii) : Prop := Forall (λ c, is_Some (char_digit c)) l.

(** The printed digits are digits, and parsing them appends the number. *)
Lemma print_digits_spec fuel v :
  (0 < fuel)%nat → 0 ≤ v < 10 ^ Z.of_nat fuel →
  ∃ dl, (∀ acc, print_digits fuel v acc = dl ++ acc) ∧ dl ≠ [] ∧ all_digits dl ∧
    ∀ rest r, 0 ≤ r → r * 10 ^ Z.of_nat (length dl) + v ≤ u32_max →
      parse_digits (dl ++ rest) r = parse_digits rest (r * 10 ^ Z.of_nat (length dl) + v).
Proof.
  revert v. induction fuel as [|fuel IH]; intros v Hpos Hv; [lia|]. cbn [print_digits].
  pose proof (Z.mod_pos_bound v 10). pose proof (Z.div_mod v 10).
  pose proof (Z.div_pos v 10).
  assert (char_digit (digit_char (v `mod` 10)) = Some (v `mod` 10)) as Hc.
  { apply char_digit_digit. lia. }
  destruct (Z.eqb_spec (v `div` 10) 0) as [Hz|Hnz].
  - exists [digit_char (v `mod` 10)]. split; [done|]. split; [done|]. split.
    { by repeat constructor; eexists. }
    intros rest r Hr Hmax. cbn [length app parse_digits] in *. change (10 ^ Z.of_nat 1) with 10 in *.
    rewrite Hc. cbn. rewrite (proj2 (Z.leb_le _ _)) by lia. f_equal. lia.
  - destruct fuel as [|fuel'].
    { change (10 ^ Z.of_nat 1) with 10 in Hv. lia. }
    destruct (IH (v `div` 10)) as (dl & Hp & Hne & Hd & Hparse); [lia| |].
    { rewrite (Nat2Z.inj_succ (S fuel')), Z.pow_succ_r in Hv by lia. lia. }
    exists (dl ++ [digit_char (v `mod` 10)]). split; [|split; [|split]].
    + intros acc. by rewrite Hp, <-app_assoc.
    + by destruct dl.
    + apply Forall_app. split; [done|]. by repeat constructor; eexists.
    + intros rest r Hr. rewrite length_app, Nat.add_1_r, Nat2Z.inj_succ, Z.pow_succ_r by lia.
      intros Hmax. set (p := 10 ^ Z.of_nat (length dl)) in *.
      assert (0 ≤ p) by (apply Z.pow_nonneg; lia).
      rewrite <-app_assoc, Hparse by nia. cbn [app parse_digits]. rewrite Hc. cbn.
      rewrite (proj2 (Z.leb_le _ _)) by nia. f_equal. nia.
Qed.

Lemma digit_not_sign c : is_Some (char_digit c) → c ≠ "+"%char ∧ c ≠ "-"%char ∧ c ≠ "."%char.
Proof. intros [x Hx]. split_and!; by intros ->. Qed.

Lemma print_u32_spec v :
  u32_ok v → all_digits (print_u32 v) ∧ parse_u32 (print_u32 v) = Ok v.
Proof.
  intros Hv. destruct (print_digits_spec 10 v) as (dl & Hp & Hne & Hd & Hparse); [lia| |].
  { unfold in_u in Hv. change (10 ^ Z.of_nat 10) with 10000000000. lia. }
  unfold print_u32. rewrite Hp, app_nil_r. split; [done|].
  assert (parse_digits dl 0 = Ok v) as Hz.
  { specialize (Hparse [] 0 ltac:(lia)). rewrite app_nil_r in Hparse. rewrite Hparse; cbn.
    - f_equal; lia.
    - unfold in_u, u32_max in *. lia. }
  destruct dl as [|c [|c' dl]]; [done|..]; cbn [parse_u32].
  - apply Forall_inv in Hd as (H1 & H2 & H3)%digit_not_sign. rewrite decide_False by naive_solver.
    done.
  - apply Forall_inv in Hd as (H1 & H2 & H3)%digit_not_sign. by rewrite decide_False.
Qed.

(** A block date is parsed back from its printed form, and a text with
    no dot is rejected with [DotMissing]. *)
Theorem block_date_text_roundtrip d s :
  u32_ok (date_epoch d) → u32_ok (date_slot_id d) →
  date_from_str (date_display d) = Ok d ∧
  (date_from_str s = Err DotMissing ↔ "."%char ∉ s).
Proof.
  intros He Hs. destruct (print_u32_spec _ He) as [Hde Hpe].
  destruct (print_u32_spec _ Hs) as [Hds Hps]. split.
  - unfold date_from_str, date_display.
    assert (list_find (λ c, c = "."%char) (print_u32 (date_epoch d) ++
      "."%char :: print_u32 (date_slot_id d)) =
      Some (length (print_u32 (date_epoch d)), "."%char)) as ->.
    { apply list_find_Some. split; [by apply list_lookup_middle|]. split; [done|].
      intros j c Hj Hlt ->. rewrite lookup_app_l in Hj by done.
      eapply Forall_lookup_1 in Hde; [|done]. by apply digit_not_sign in Hde as (_ & _ & ?). }
    rewrite take_app_length, Hpe. cbn [map_err mbind outcome_bind].
    rewrite cons_middle, app_assoc, drop_app_length' by (rewrite length_app; cbn; lia).
    rewrite Hps. cbn. by destruct d.
  - unfold date_from_str. destruct (list_find _ s) as [[pos c]|] eqn:Hf.
    + apply list_find_Some in Hf as (Hl & -> & _). split.
      * destruct (parse_u32 (take pos s)); cbn; try done.
        by destruct (parse_u32 (drop (S pos) s)).
      * intros Hn. by apply list_elem_of_lookup_2 in Hl.
    + split; [|done]. intros _ Hin. apply list_find_None in Hf.
      rewrite Forall_forall in Hf. by apply (Hf _ Hin).
Qed.
End text.

Lemma block_date_text_roundtrip_witness :
  date_from_str (date_display (mkDate 310 42)) = Ok (mkDate 310 42) ∧
  date_from_str ["7"%char] = Err DotMissing.
Proof.
  destruct (block_date_text_roundtrip (mkDate 310 42) ["7"%char]) as [H1 H2];
    [split; cbn; lia..|].
  split; [exact H1|]. apply H2. intros H. apply list_elem_of_singleton in H. discriminate H.
Defined.
