(* ===== verification/Rewards.v ===== *)
(** * Rewards and taxes ([rewards.rs])

    The contribution of the rewards pot to an epoch, and the cut a pool or the
    treasury takes of a value.  128-bit intermediate products wrap as written. *)
From S2P Require Import Prelude Codec Value.
Local Open Scope Z_scope.

Inductive CompoundingType := Linear | Halvening.

(** The denominator is a [NonZeroU64]. *)
Record Ratio := mkRatio { numerator : Z; denominator : Z }.
Definition ratio_zero : Ratio := mkRatio 0 1.
Definition ratio_cmp (a b : Ratio) : comparison :=
  if denominator a =? denominator b then numerator a ?= numerator b
  else
    let left := wrap 128 (numerator a * denominator b) in
    let right := wrap 128 (numerator b * denominator a) in
    left ?= right.

Record TaxType := mkTax { fixed : Value; ratio : Ratio; max_limit : option Z }.
Definition tax_zero : TaxType := mkTax 0 ratio_zero None.

Definition tax_serialize_in (t : TaxType) (bb : ByteBuilder) : ByteBuilder :=
  bb_u64 (bb_u64 (bb_u64 (bb_u64 bb (fixed t)) (numerator (ratio t))) (denominator (ratio t)))
         (default 0 (max_limit t)).
Definition nonzero (v : Z) : option Z := if v =? 0 then None else Some v.
Definition tax_read_frombuf : Reader TaxType :=
  fixed ← get_u64;
  num ← get_u64;
  denom ← get_u64;
  limit ← get_u64;
  match nonzero denom with
  | None => read_fail (StructureInvalid "ratio fraction divisor invalid")
  | Some denominator =>
      if denom <? num then read_fail (StructureInvalid "ratio fraction invalid bigger than 1")
      else mret (mkTax fixed (mkRatio num denominator) (nonzero limit))
  end.

Inductive Limit := LimitNone | ByStakeAbsolute (r : Ratio).

Record Parameters := mkParameters {
  initial_value : Z;
  compounding_ratio : Ratio;
  compounding_type : CompoundingType;
  epoch_rate : Z;
  params_epoch_start : Z;
  reward_drawing_limit_max : Limit;
  pool_participation_capping : option (Z * Z) }.
Definition parameters_zero : Parameters :=
  mkParameters 0 ratio_zero Linear u32_max 0 LimitNone None.

Record TaxDistribution := mkTaxDistribution { taxed : Value; after_tax : Value }.
Record SystemInformation := mkSystemInformation { declared_stake : Z }.

Definition HALVENING_SCALE : Z := 1000000000000000000.
(** One round of the halvening loop on [u128] (the denominator is a
    [NonZeroU64]: the division cannot panic). *)
Definition halvening_step (rr : Ratio) (acc : Z) : Z :=
  wrap 128 (acc * numerator rr) `div` denominator rr.

(** The [drawn] value of the calculation, by the compounding type. *)
Definition rewards_drawn (params : Parameters) (zone : Z) : outcome infallible Value :=
  let rr := compounding_ratio params in
  match compounding_type params with
  | Linear =>
      reduce_by ← div_checked (wrap 64 (numerator rr * zone)) (denominator rr);
      if reduce_by <=? initial_value params
      then Ok (initial_value params - reduce_by) else Ok value_zero
  | Halvening =>
      let acc0 := wrap 128 (initial_value params * HALVENING_SCALE) in
      let acc := Nat.iter (Z.to_nat zone) (halvening_step rr) acc0 in
      Ok (wrap 64 (acc `div` HALVENING_SCALE))
  end.

Definition rewards_contribution_calculation (epoch : Z) (params : Parameters)
    (system_info : SystemInformation) : outcome infallible Value :=
  assert_that (negb (epoch_rate params =? 0)) ;;
  if epoch <? params_epoch_start params then Ok value_zero
  else
    zone ← div_checked (epoch - params_epoch_start params) (epoch_rate params);
    drawn ← rewards_drawn params zone;
    match reward_drawing_limit_max params with
    | LimitNone => Ok drawn
    | ByStakeAbsolute ratio =>
        x ← div_checked (wrap 128 (declared_stake system_info * numerator ratio))
              (denominator ratio);
        Ok (Z.min drawn (wrap 64 x))
    end.

Definition TAX_SCALE : Z := 1000000000.
Definition tax_cut (v : Value) (tax_type : TaxType) : outcome ValueError TaxDistribution :=
  match value_sub v (fixed tax_type) with
  | Panic => Panic
  | Err _ => Ok (mkTaxDistribution v value_zero)
  | Ok left1 =>
      let left_ := left1 in
      taxed ← value_add value_zero (fixed tax_type);
      let rr := ratio tax_type in
      q ← div_checked (wrap 128 (wrap 128 (left_ * TAX_SCALE) * numerator rr)) (denominator rr);
      let out := wrap 64 (q `div` TAX_SCALE) in
      let treasury_cut := match max_limit tax_type with
                          | None => out
                          | Some limit => Z.min limit out
                          end in
      match value_sub left_ treasury_cut with
      | Panic => Panic
      | Ok left2 => taxed ← value_add taxed treasury_cut; Ok (mkTaxDistribution taxed left2)
      | Err _ =>
          let left_ := value_zero in
          taxed ← value_add taxed left_; Ok (mkTaxDistribution taxed left_)
      end
  end.

(** ** Ranges *)
Definition ratio_ok (r : Ratio) : Prop := u64_ok (numerator r) ∧ u64_ok (denominator r) ∧ 0 < denominator r.
Definition opt_nz64_ok (o : option Z) : Prop := match o with Some v => 0 < v < 2 ^ 64 | None => True end.
Definition tax_ok (t : TaxType) : Prop := u64_ok (fixed t) ∧ ratio_ok (ratio t) ∧ opt_nz64_ok (max_limit t).
(** A ratio of at most one, what [read_frombuf] accepts. *)
Definition ratio_le_one (r : Ratio) : Prop := numerator r ≤ denominator r.

(** The exact cut: the fixed part, then the ratio of the rest up to the limit. *)
Definition exact_cut (t : TaxType) (left : Z) : Z :=
  let out := (left * numerator (ratio t)) `div` denominator (ratio t) in
  match max_limit t with None => out | Some limit => Z.min limit out end.

Lemma ratio_cmp_spec a b :
  ratio_ok a → ratio_ok b →
  ratio_cmp a b = (numerator a * denominator b ?= numerator b * denominator a).
Proof.
  intros ([? ?] & [? ?] & ?) ([? ?] & [? ?] & ?). unfold ratio_cmp.
  destruct (Z.eqb_spec (denominator a) (denominator b)) as [->|Hne].
  - symmetry. destruct (Z.compare_spec (numerator a) (numerator b)) as [->| |].
    + apply Z.compare_refl.
    + apply Z.compare_lt_iff. nia.
    + apply Z.compare_gt_iff. nia.
  - rewrite !wrap_small; [done|unfold in_u; nia..].
Qed.

Lemma div_wrap_le n d : 0 < d → 0 ≤ n → wrap 128 n `div` d ≤ n `div` d.
Proof.
  intros Hd Hn. apply Z.div_le_mono; [done|]. unfold wrap. apply Z.mod_le; lia.
Qed.

(** The scaled computation of the cut: exact unless the product overflows,
    and never above the exact value. *)
Lemma scaled_cut left r :
  u64_ok left → ratio_ok r → ratio_le_one r →
  let q := wrap 128 (wrap 128 (left * TAX_SCALE) * numerator r) `div` denominator r in
  0 ≤ q `div` TAX_SCALE ≤ (left * numerator r) `div` denominator r ∧
  (left * numerator r) `div` denominator r ≤ left ∧
  (left * TAX_SCALE * numerator r < 2 ^ 128 →
    q `div` TAX_SCALE = (left * numerator r) `div` denominator r).
Proof.
  intros [Hl Hl'] ([Hn ?] & [? ?] & Hd) Hle. cbv zeta. unfold ratio_le_one in Hle.
  assert (0 ≤ left * TAX_SCALE < 2 ^ 128) as Hs by (unfold TAX_SCALE; lia).
  rewrite (wrap_small 128 (left * TAX_SCALE)) by done.
  assert (((left * TAX_SCALE * numerator r) `div` denominator r) `div` TAX_SCALE =
    (left * numerator r) `div` denominator r) as Hexact.
  { rewrite Z.div_div by (unfold TAX_SCALE; lia).
    replace (left * TAX_SCALE * numerator r) with (left * numerator r * TAX_SCALE) by lia.
    apply Z.div_mul_cancel_r; unfold TAX_SCALE; lia. }
  split; [|split].
  - split.
    + apply Z.div_pos; [|unfold TAX_SCALE; lia]. apply Z.div_pos; [|done].
      unfold wrap. apply Z.mod_pos_bound. lia.
    + rewrite <-Hexact. apply Z.div_le_mono; [unfold TAX_SCALE; lia|].
      apply div_wrap_le; [done|nia].
  - apply Z.div_le_upper_bound; nia.
  - intros Hmax. rewrite wrap_small by (split; [nia|done]). done.
Qed.

(** [tax_cut] splits a value without creating or losing any: for every
    tax whose ratio is at most one (the ones [read_frombuf] accepts) the two
    parts are values that add up to the input, even when the scaled product
    wraps; when it does not, the tax is all of a value below the fixed part,
    and otherwise the fixed part plus the ratio of the rest, up to the limit. *)
Theorem tax_cut_conserves v t :
  u64_ok v → tax_ok t → ratio_le_one (ratio t) →
  ∃ d, tax_cut v t = Ok d ∧ taxed d + after_tax d = v ∧ 0 ≤ taxed d ∧ 0 ≤ after_tax d ∧
    ((v - fixed t) * TAX_SCALE * numerator (ratio t) < 2 ^ 128 →
      taxed d = if decide (v < fixed t) then v else fixed t + exact_cut t (v - fixed t)).
Proof.
  intros Hv (Hf & Hr & Hm) Hle. unfold tax_cut, value_sub at 1, checked_sub64.
  case_decide as Hfix; cbn.
  2:{ eexists. split; [done|]. unfold value_zero. cbn. unfold in_u in *.
      split_and!; [lia..|]. intros _. by rewrite decide_True by lia. }
  rewrite value_add_small by (unfold value_zero, u64_max, in_u in *; lia).
  unfold value_zero. rewrite Z.add_0_l. cbn. unfold div_checked.
  rewrite decide_False by (destruct Hr as (_ & _ & ?); lia). cbn.
  assert (u64_ok (v - fixed t)) as Hl by (unfold in_u in *; lia).
  destruct (scaled_cut _ _ Hl Hr Hle) as ([Hq0 Hq1] & Hql & Hqx).
  set (q := _ `div` TAX_SCALE) in *. set (e := (_ * _) `div` _) in *.
  rewrite (wrap_small 64 q) by (unfold in_u in *; lia).
  set (cut := match max_limit t with None => q | Some limit => Z.min limit q end).
  assert (0 ≤ cut ≤ q) as Hcut.
  { unfold cut. destruct (max_limit t) as [limit|]; cbn in Hm; lia. }
  unfold value_sub, checked_sub64. rewrite decide_True by lia. cbn.
  rewrite value_add_small by (unfold u64_max, in_u in *; lia). cbn.
  eexists. split; [done|]. cbn. split_and!; [lia|unfold in_u in *; lia|lia|].
  intros Hmax. rewrite decide_False by lia. f_equal. unfold cut, exact_cut. fold e.
  by rewrite Hqx.
Qed.

Lemma tax_cut_conserves_witness :
  ∃ d, tax_cut 1000 (mkTax 100 (mkRatio 1 3) (Some 250)) = Ok d ∧ taxed d + after_tax d = 1000 ∧
    taxed d = 350.
Proof.
  destruct (tax_cut_conserves 1000 (mkTax 100 (mkRatio 1 3) (Some 250))) as (d & H1 & H2 & _ & _ & H3);
    [split; cbn; lia|repeat split; cbn; lia|cbv; discriminate|].
  exists d. split; [exact H1|]. split; [exact H2|]. rewrite H3 by (vm_compute; reflexivity).
  vm_compute. reflexivity.
Defined.

(** With a ratio above one, which a [TaxType] built without
    [read_frombuf] may hold, the last branch of [tax_cut] zeroes [left] before
    adding it to the tax: the whole rest of the value disappears. *)
Theorem tax_cut_loses_value v t :
  u64_ok v → tax_ok t → fixed t ≤ v → max_limit t = None →
  (v - fixed t) * TAX_SCALE * numerator (ratio t) < 2 ^ 128 →
  v - fixed t < exact_cut t (v - fixed t) < 2 ^ 64 →
  tax_cut v t = Ok (mkTaxDistribution (fixed t) 0).
Proof.
  intros Hv (Hf & ([Hn _] & _ & Hd) & _) Hfix Hlim Hmax Hcut. unfold tax_cut, value_sub at 1, checked_sub64.
  rewrite decide_True by done. cbn.
  rewrite value_add_small by (unfold value_zero, u64_max, in_u in *; lia).
  unfold value_zero. rewrite Z.add_0_l. cbn. unfold div_checked.
  rewrite decide_False by lia. cbn. rewrite Hlim.
  unfold exact_cut in Hcut. rewrite Hlim in Hcut.
  rewrite (wrap_small 128 ((v - fixed t) * TAX_SCALE)) by (unfold in_u, TAX_SCALE in *; lia).
  rewrite (wrap_small 128) by (unfold in_u, TAX_SCALE in *; nia).
  rewrite Z.div_div by (unfold TAX_SCALE; lia).
  replace ((v - fixed t) * TAX_SCALE * numerator (ratio t))
    with ((v - fixed t) * numerator (ratio t) * TAX_SCALE) by lia.
  rewrite Z.div_mul_cancel_r by (unfold TAX_SCALE; lia).
  rewrite wrap_small by (unfold in_u in *; lia).
  unfold value_sub, checked_sub64. rewrite decide_False by lia. cbn.
  rewrite value_add_small by (unfold u64_max, in_u in *; lia). cbn. by rewrite Z.add_0_r.
Qed.

Lemma tax_cut_loses_value_witness :
  tax_cut 1000 (mkTax 100 (mkRatio 3 2) None) = Ok (mkTaxDistribution 100 0).
Proof.
  apply (tax_cut_loses_value 1000 (mkTax 100 (mkRatio 3 2) None));
    [split; cbn; lia|repeat split; cbn; lia|cbn; lia|reflexivity|vm_compute; reflexivity|].
  split; vm_compute; reflexivity.
Defined.

Lemma nonzero_default o : opt_nz64_ok o → nonzero (default 0 o) = o.
Proof.
  destruct o as [v|]; [|done]. cbn. intros Hv. unfold nonzero.
  by rewrite (proj2 (Z.eqb_neq _ _)) by lia.
Qed.

Lemma tax_serialize_bytes t bb :
  tax_serialize_in t bb = bb_bytes bb (be_bytes 8 (fixed t) ++ be_bytes 8 (numerator (ratio t)) ++
    be_bytes 8 (denominator (ratio t)) ++ be_bytes 8 (default 0 (max_limit t))).
Proof. unfold tax_serialize_in, bb_u64, bb_bytes. cbn [bb_buffer bb_expected]. by rewrite <-!app_assoc. Qed.

(** The wire form of a tax: a tax with a ratio of at most one is read
    back from its serialization, and any other well-typed one is refused with
    the message about the ratio. *)
Theorem tax_type_roundtrip t :
  tax_ok t →
  read_from_raw tax_read_frombuf (bb_buffer (tax_serialize_in t bb_new)) =
    if decide (ratio_le_one (ratio t)) then Ok t
    else Err (InvalidRaw (StructureInvalid "ratio fraction invalid bigger than 1")).
Proof.
  intros (Hf & (Hn & Hd & Hpos) & Hm). rewrite tax_serialize_bytes. cbn [bb_buffer bb_bytes bb_new app].
  assert (u64_ok (default 0 (max_limit t))) as Hl.
  { destruct (max_limit t); cbn in Hm |- *; unfold in_u; lia. }
  set (bs := _ ++ _).
  assert (∀ k : Z → Z → Z → Z → Reader TaxType,
    (fixed' ← get_u64; num ← get_u64; denom ← get_u64; limit ← get_u64; k fixed' num denom limit)
      (rb_from bs) = k (fixed t) (numerator (ratio t)) (denominator (ratio t))
                       (default 0 (max_limit t)) (mkReadBuf 32 bs)) as Hk.
  { intros k.
    assert (reads (f ← get_u64; n ← get_u64; d ← get_u64; l ← get_u64; mret (f, n, d, l))
      (fixed t, numerator (ratio t), denominator (ratio t), default 0 (max_limit t)) bs) as Hr.
    { unfold bs. eapply reads_bind; [by apply reads_u64|]. eapply reads_bind; [by apply reads_u64|].
      eapply reads_bind; [by apply reads_u64|]. by apply reads_bind_ret, reads_u64. }
    specialize (Hr [] []). rewrite app_nil_r in Hr. cbn [length app] in Hr.
    change (mkReadBuf 0 bs) with (rb_from bs) in Hr.
    change (0 + length bs)%nat with 32%nat in Hr. revert Hr. rewrite !reader_bind_eq.
    destruct (get_u64 (rb_from bs)) as [[f b1]|e|]; cbn; [|done..]. rewrite !reader_bind_eq.
    destruct (get_u64 b1) as [[n b2]|e|]; cbn; [|done..]. rewrite !reader_bind_eq.
    destruct (get_u64 b2) as [[d b3]|e|]; cbn; [|done..]. rewrite !reader_bind_eq.
    destruct (get_u64 b3) as [[l b4]|e|]; cbn; [|done..]. by intros [= -> -> -> -> ->]. }
  unfold read_from_raw, tax_read_frombuf. rewrite Hk. unfold nonzero at 1.
  rewrite (proj2 (Z.eqb_neq _ _)) by lia. unfold ratio_le_one.
  destruct (Z.ltb_spec (denominator (ratio t)) (numerator (ratio t))).
  - by rewrite decide_False by lia.
  - rewrite decide_True by lia. rewrite nonzero_default by done. cbn.
    unfold expect_end, rb_left. cbn [rb_data rb_offset].
    change (length bs) with 32%nat. cbn. by destruct t as [? [] ?].
Qed.

Lemma tax_type_roundtrip_witness :
  read_from_raw tax_read_frombuf (bb_buffer (tax_serialize_in (mkTax 7 (mkRatio 1 3) (Some 9)) bb_new)) =
    Ok (mkTax 7 (mkRatio 1 3) (Some 9)).
Proof.
  rewrite (tax_type_roundtrip (mkTax 7 (mkRatio 1 3) (Some 9))); [reflexivity|].
  repeat split; cbn; lia.
Defined.

(** ** The contribution of an epoch *)
Definition zone (p : Parameters) (epoch : Z) : Z :=
  (epoch - params_epoch_start p) `div` epoch_rate p.

(** The parameters whose computation does not overflow up to an epoch. *)
Definition params_ok (p : Parameters) (epoch : Z) : Prop :=
  u64_ok (initial_value p) ∧ 0 < epoch_rate p ∧ ratio_ok (compounding_ratio p) ∧
  match compounding_type p with
  | Linear => numerator (compounding_ratio p) * zone p epoch < 2 ^ 64
  | Halvening => ratio_le_one (compounding_ratio p) ∧
      initial_value p * HALVENING_SCALE * numerator (compounding_ratio p) < 2 ^ 128
  end ∧
  match reward_drawing_limit_max p with
  | LimitNone => True
  | ByStakeAbsolute r => ratio_ok r ∧ ratio_le_one r
  end.

(** What is drawn before the limit, in exact arithmetic. *)
Definition drawn (p : Parameters) (z : Z) : Z :=
  let rr := compounding_ratio p in
  match compounding_type p with
  | Linear => Z.max 0 (initial_value p - (numerator rr * z) `div` denominator rr)
  | Halvening =>
      Nat.iter (Z.to_nat z) (λ acc, (acc * numerator rr) `div` denominator rr)
        (initial_value p * HALVENING_SCALE) `div` HALVENING_SCALE
  end.
Definition drawn_cap (p : Parameters) (i : SystemInformation) (d : Z) : Z :=
  match reward_drawing_limit_max p with
  | LimitNone => d
  | ByStakeAbsolute r => Z.min d ((declared_stake i * numerator r) `div` denominator r)
  end.

Section contribution.
Context (rr : Ratio) (Hrr : ratio_ok rr) (Hle : ratio_le_one rr).
Let f (acc : Z) : Z := (acc * numerator rr) `div` denominator rr.

Lemma halvening_round acc : 0 ≤ acc → 0 ≤ f acc ≤ acc.
Proof using Hrr Hle.
  destruct Hrr as ([? _] & _ & ?). unfold ratio_le_one in Hle. intros Ha. unfold f. split.
  - apply Z.div_pos; nia.
  - apply Z.div_le_upper_bound; nia.
Qed.

Lemma halvening_iter_bounds n acc : 0 ≤ acc → 0 ≤ Nat.iter n f acc ≤ acc.
Proof using Hrr Hle.
  intros Ha. induction n as [|n IH]; [done|]. rewrite Nat.iter_succ. pose proof (halvening_round (Nat.iter n f acc)). lia.
Qed.

Lemma halvening_iter_mono n m acc : 0 ≤ acc → (n ≤ m)%nat → Nat.iter m f acc ≤ Nat.iter n f acc.
Proof using Hrr Hle.
  intros Ha. induction 1 as [|m Hm IH]; [done|]. rewrite Nat.iter_succ.
  pose proof (halvening_iter_bounds m acc Ha). pose proof (halvening_round (Nat.iter m f acc)). lia.
Qed.

(** The wrapping loop computes the exact one when the first product fits. *)
Lemma halvening_step_exact n acc :
  0 ≤ acc → acc * numerator rr < 2 ^ 128 → Nat.iter n (halvening_step rr) acc = Nat.iter n f acc.
Proof using Hrr Hle.
  intros Ha Hmax. induction n as [|n IH]; [done|]. rewrite !Nat.iter_succ, IH. unfold halvening_step.
  pose proof (halvening_iter_bounds n acc Ha). destruct Hrr as ([? _] & _ & _).
  rewrite wrap_small; [done|]. unfold in_u. nia.
Qed.
End contribution.

Lemma zone_nonneg p e : params_epoch_start p ≤ e → 0 < epoch_rate p → 0 ≤ zone p e.
Proof. intros. apply Z.div_pos; lia. Qed.

Lemma drawn_bounds p e :
  params_ok p e → params_epoch_start p ≤ e → 0 ≤ drawn p (zone p e) ≤ initial_value p.
Proof.
  intros ([Hi _] & Hrate & Hrr & Hty & _) He. pose proof (zone_nonneg p e He Hrate).
  unfold drawn. destruct (compounding_type p).
  - destruct Hrr as ([? _] & _ & ?).
    pose proof (Z.div_pos (numerator (compounding_ratio p) * zone p e)
      (denominator (compounding_ratio p))). nia.
  - destruct Hty as [Hle _].
    pose proof (halvening_iter_bounds _ Hrr Hle (Z.to_nat (zone p e))
      (initial_value p * HALVENING_SCALE)) as Hb.
    unfold HALVENING_SCALE in *. split; [apply Z.div_pos; lia|].
    apply Z.div_le_upper_bound; lia.
Qed.

Lemma contribution_exact epoch p i :
  params_ok p epoch → params_epoch_start p ≤ epoch → u64_ok (declared_stake i) →
  rewards_contribution_calculation epoch p i = Ok (drawn_cap p i (drawn p (zone p epoch))).
Proof.
  intros Hp He Hs. pose proof (drawn_bounds p epoch Hp He) as Hd.
  destruct Hp as (Hi & Hrate & Hrr & Hty & Hlim). pose proof (zone_nonneg p epoch He Hrate) as Hz.
  unfold rewards_contribution_calculation.
  rewrite (proj2 (Z.eqb_neq _ _)) by lia. cbn. rewrite (proj2 (Z.ltb_ge _ _)) by done.
  unfold div_checked. rewrite decide_False by lia. cbn. fold (zone p epoch).
  pose proof Hrr as ([? ?] & [? ?] & ?).
  assert (rewards_drawn p (zone p epoch) = Ok (drawn p (zone p epoch))) as ->.
  { unfold drawn, rewards_drawn in *. destruct (compounding_type p).
    - unfold div_checked. rewrite decide_False by lia. cbn.
      rewrite wrap_small by (unfold in_u; nia).
      destruct (Z.leb_spec ((numerator (compounding_ratio p) * zone p epoch)
        `div` denominator (compounding_ratio p)) (initial_value p));
        f_equal; unfold value_zero; lia.
    - destruct Hty as [Hle Hmax].
      assert (0 ≤ initial_value p * HALVENING_SCALE) as Ha.
      { destruct Hi. unfold HALVENING_SCALE. lia. }
      rewrite (wrap_small 128).
      2:{ split; [done|]. unfold HALVENING_SCALE, in_u in *. lia. }
      rewrite halvening_step_exact by done. f_equal. apply wrap_small.
      unfold in_u in *. lia. }
  cbn. unfold drawn_cap. destruct (reward_drawing_limit_max p) as [|r]; [done|].
  destruct Hlim as [([? ?] & [? ?] & ?) Hle]. unfold ratio_le_one, in_u in *.
  rewrite decide_False by lia. cbn. rewrite (wrap_small 128) by (unfold in_u; nia).
  rewrite wrap_small; [done|]. split; [apply Z.div_pos; nia|].
  apply (Z.le_lt_trans _ (declared_stake i)); [apply Z.div_le_upper_bound; nia|lia].
Qed.

(** The rewards contribution starts at [epoch_start], never exceeds the
    initial value nor the drawing limit, and never grows from one epoch to a
    later one, for the linear and the halvening law, as long as the products
    of the parameters fit their integers. *)
Theorem rewards_contribution_decreasing p i e e' :
  params_ok p e → params_ok p e' → u64_ok (declared_stake i) → e ≤ e' →
  (e < params_epoch_start p → rewards_contribution_calculation e p i = Ok 0) ∧
  (params_epoch_start p ≤ e →
    ∃ v v', rewards_contribution_calculation e p i = Ok v ∧
      rewards_contribution_calculation e' p i = Ok v' ∧
      0 ≤ v' ≤ v ∧ v ≤ initial_value p ∧
      match reward_drawing_limit_max p with
      | LimitNone => True
      | ByStakeAbsolute r => v ≤ (declared_stake i * numerator r) `div` denominator r
      end).
Proof.
  intros Hp Hp' Hs Hee. split.
  - intros Hlt. unfold rewards_contribution_calculation. destruct Hp as (_ & Hr & _).
    rewrite (proj2 (Z.eqb_neq _ _)) by lia. cbn. by rewrite (proj2 (Z.ltb_lt _ _)).
  - intros Hge. eexists _, _. split; [by apply contribution_exact|].
    split; [apply contribution_exact; [done|lia|done]|].
    pose proof (drawn_bounds p e Hp Hge) as Hb. pose proof (drawn_bounds p e' Hp' ltac:(lia)) as Hb'.
    assert (drawn p (zone p e') ≤ drawn p (zone p e)) as Hmono.
    { destruct Hp as ([Hi _] & Hrate & Hrr & Hty & _). unfold drawn.
      assert (zone p e ≤ zone p e') by (apply Z.div_le_mono; lia).
      pose proof (zone_nonneg p e Hge Hrate). destruct (compounding_type p).
      - destruct Hrr as ([? _] & _ & ?).
        pose proof (Z.div_le_mono (numerator (compounding_ratio p) * zone p e)
          (numerator (compounding_ratio p) * zone p e') (denominator (compounding_ratio p))). nia.
      - destruct Hty as [Hle _]. apply Z.div_le_mono; [done|].
        apply (halvening_iter_mono _ Hrr Hle); [unfold HALVENING_SCALE; lia|lia]. }
    unfold drawn_cap. destruct Hp as (_ & _ & _ & _ & Hlim).
    destruct (reward_drawing_limit_max p) as [|r]; [lia|].
    destruct Hlim as [([? _] & _ & ?) _]. unfold in_u in *.
    pose proof (Z.div_pos (declared_stake i * numerator r) (denominator r)). nia.
Qed.

Definition demo_params : Parameters :=
  mkParameters 1000 (mkRatio 1 2) Halvening 10 5 (ByStakeAbsolute (mkRatio 1 4)) None.

Lemma rewards_contribution_decreasing_witness :
  ∃ v v', rewards_contribution_calculation 7 demo_params (mkSystemInformation 8000) = Ok v ∧
    rewards_contribution_calculation 27 demo_params (mkSystemInformation 8000) = Ok v' ∧
    0 ≤ v' ≤ v ∧ v ≤ 1000.
Proof.
  assert (∀ e, params_ok demo_params e) as Hp.
  { intros e. repeat split; cbn; try lia; cbv; done. }
  destruct (rewards_contribution_decreasing demo_params (mkSystemInformation 8000) 7 27 (Hp 7) (Hp 27))
    as [_ H]; [split; cbn; lia|lia|].
  destruct H as (v & v' & H1 & H2 & H3 & H4 & _); [cbn; lia|].
  exists v, v'. split; [exact H1|]. split; [exact H2|]. split; [exact H3|exact H4].
Defined.
