(* ===== verification/Pots.v ===== *)
(** * The pots of the ledger ([ledger/pots.rs], [treasury.rs])

    Fees, treasury and rewards: three values with checked additions and
    draws that never exceed what is there. *)
From S2P Require Import Prelude Value.
Local Open Scope Z_scope.

(** [ledger::Error::PotValueInvalid], the only error of the pots. *)
Inductive PotError := PotValueInvalid (error : ValueError).

(** ** [treasury.rs] *)
Record Treasury := mkTreasury { treasury_val : Value }.
Definition treasury_initial (v : Value) : Treasury := mkTreasury v.
Definition treasury_draw (t : Treasury) (value : Value) : Treasury * Value :=
  let to_draw := Z.min value (treasury_val t) in
  (mkTreasury (wrap 64 (treasury_val t - to_draw)), to_draw).
Definition treasury_add (t : Treasury) (v : Value) : outcome PotError Treasury :=
  x ← map_err PotValueInvalid (value_add (treasury_val t) v); Ok (mkTreasury x).
Definition treasury_sub (t : Treasury) (value : Value) : outcome PotError Treasury :=
  x ← map_err PotValueInvalid (value_sub (treasury_val t) value); Ok (mkTreasury x).
Definition treasury_value (t : Treasury) : Value := treasury_val t.

(** ** [pots.rs] *)
Record Pots := mkPots { fees : Value; treasury : Treasury; rewards : Value }.
Inductive PotEntry := EFees (v : Value) | ETreasury (v : Value) | ERewards (v : Value).
Inductive PotEntryType := TFees | TTreasury | TRewards.
Inductive IterState := SFees | STreasury | SRewards | SDone.

Definition entry_value (e : PotEntry) : Value :=
  match e with EFees v => v | ETreasury v => v | ERewards v => v end.
Definition entry_type (e : PotEntry) : PotEntryType :=
  match e with EFees _ => TFees | ETreasury _ => TTreasury | ERewards _ => TRewards end.

Definition pots_zero : Pots := mkPots value_zero (treasury_initial value_zero) value_zero.

(** [Entries]: one turn of the iterator, and all its turns (four are enough). *)
Definition entries_next (p : Pots) (it : IterState) : option PotEntry * IterState :=
  match it with
  | SFees => (Some (EFees (fees p)), STreasury)
  | STreasury => (Some (ETreasury (treasury_value (treasury p))), SRewards)
  | SRewards => (Some (ERewards (rewards p)), SDone)
  | SDone => (None, SDone)
  end.
Fixpoint entries_collect (fuel : nat) (p : Pots) (it : IterState) : list PotEntry :=
  match fuel with
  | O => []
  | S fuel => match entries_next p it with
              | (Some e, it) => e :: entries_collect fuel p it
              | (None, _) => []
              end
  end.
Definition pots_entries (p : Pots) : list PotEntry := entries_collect 4 p SFees.
Definition pots_values (p : Pots) : list Value := entry_value <$> pots_entries p.
Definition pots_total_value (p : Pots) : outcome ValueError Value := value_sum (pots_values p).

Definition append_fees (p : Pots) (f : Value) : outcome PotError Pots :=
  x ← map_err PotValueInvalid (value_add (fees p) f); Ok (mkPots x (treasury p) (rewards p)).
Definition draw_reward (p : Pots) (expected_reward : Value) : outcome PotError (Pots * Value) :=
  let to_draw := Z.min (rewards p) expected_reward in
  x ← unwrap (value_sub (rewards p) to_draw);
  Ok (mkPots (fees p) (treasury p) x, to_draw).
Definition draw_treasury (p : Pots) (expected_treasury : Value) : Pots * Value :=
  let '(t, drawn) := treasury_draw (treasury p) expected_treasury in
  (mkPots (fees p) t (rewards p), drawn).
Definition siphon_fees (p : Pots) : Pots * Value :=
  (mkPots value_zero (treasury p) (rewards p), fees p).
Definition pots_treasury_add (p : Pots) (v : Value) : outcome PotError Pots :=
  t ← treasury_add (treasury p) v; Ok (mkPots (fees p) t (rewards p)).
Definition rewards_add (p : Pots) (v : Value) : outcome PotError Pots :=
  x ← map_err PotValueInvalid (value_add (rewards p) v); Ok (mkPots (fees p) (treasury p) x).
Definition fees_value (p : Pots) : Value := fees p.
Definition pots_treasury_value (p : Pots) : Value := treasury_value (treasury p).
Definition set_from_entry (p : Pots) (e : PotEntry) : Pots :=
  match e with
  | EFees v => mkPots v (treasury p) (rewards p)
  | ETreasury v => mkPots (fees p) (treasury_initial v) (rewards p)
  | ERewards v => mkPots (fees p) (treasury p) v
  end.

(** ** The total of the pots *)
Definition pots_ok (p : Pots) : Prop :=
  u64_ok (fees p) ∧ u64_ok (treasury_val (treasury p)) ∧ u64_ok (rewards p).
Definition pots_total (p : Pots) : Z := fees p + treasury_val (treasury p) + rewards p.

Section pots.
Implicit Types (p : Pots) (v : Value).

Lemma pots_total_nonneg p : pots_ok p → 0 ≤ pots_total p.
Proof. intros ([? _] & [? _] & [? _]). unfold pots_total. lia. Qed.

Lemma pots_values_eq p : pots_values p = [fees p; treasury_val (treasury p); rewards p].
Proof. done. Qed.

Lemma pots_total_value_spec p :
  pots_ok p →
  pots_total_value p =
    if decide (pots_total p ≤ u64_max) then Ok (pots_total p) else Err Overflow.
Proof.
  intros ([? _] & [? _] & [? _]). unfold pots_total_value.
  rewrite value_sum_spec; rewrite pots_values_eq.
  - cbn [Zsum]. unfold pots_total. by rewrite Z.add_0_r, Z.add_assoc.
  - by repeat constructor.
Qed.

Lemma append_fees_Ok p v p' :
  pots_ok p → u64_ok v → append_fees p v = Ok p' → pots_ok p' ∧ pots_total p' = pots_total p + v.
Proof.
  intros (Hf & Ht & Hr) Hv (x & Hx & [= <-])%bind_Ok.
  apply map_err_Ok, value_add_Ok in Hx as [-> ?]. unfold pots_ok, pots_total, in_u, u64_max in *.
  cbn. split; [split_and!|]; done || lia.
Qed.

Lemma rewards_add_Ok p v p' :
  pots_ok p → u64_ok v → rewards_add p v = Ok p' → pots_ok p' ∧ pots_total p' = pots_total p + v.
Proof.
  intros (Hf & Ht & Hr) Hv (x & Hx & [= <-])%bind_Ok.
  apply map_err_Ok, value_add_Ok in Hx as [-> ?]. unfold pots_ok, pots_total, in_u, u64_max in *.
  cbn. split; [split_and!|]; done || lia.
Qed.

Lemma treasury_add_Ok p v p' :
  pots_ok p → u64_ok v → pots_treasury_add p v = Ok p' →
  pots_ok p' ∧ pots_total p' = pots_total p + v.
Proof.
  intros (Hf & Ht & Hr) Hv (t & (x & Hx & [= <-])%bind_Ok & [= <-])%bind_Ok.
  apply map_err_Ok, value_add_Ok in Hx as [-> ?]. unfold pots_ok, pots_total, in_u, u64_max in *.
  cbn. split; [split_and!|]; done || lia.
Qed.

(** Draws never panic and move exactly what they return. *)
Lemma draw_reward_spec p v :
  pots_ok p → u64_ok v →
  ∃ p', draw_reward p v = Ok (p', Z.min (rewards p) v) ∧ pots_ok p' ∧
    fees p' = fees p ∧ treasury p' = treasury p ∧
    pots_total p' + Z.min (rewards p) v = pots_total p.
Proof.
  intros (Hf & Ht & Hr) Hv. unfold draw_reward. rewrite value_sub_small by lia. cbn.
  eexists. split; [done|]. unfold pots_ok, pots_total, in_u in *. cbn.
  split; [split_and!|]; try done; try lia. split_and!; done || lia.
Qed.

Lemma draw_treasury_spec p v :
  pots_ok p → u64_ok v →
  let '(p', d) := draw_treasury p v in
  d = Z.min v (treasury_val (treasury p)) ∧ pots_ok p' ∧ fees p' = fees p ∧
  rewards p' = rewards p ∧ pots_total p' + d = pots_total p.
Proof.
  intros (Hf & Ht & Hr) Hv. unfold draw_treasury, treasury_draw. cbn.
  rewrite wrap_small by (unfold in_u in *; lia).
  unfold pots_ok, pots_total, in_u in *. cbn. split_and!; done || lia.
Qed.

Lemma siphon_fees_spec p :
  pots_ok p →
  let '(p', f) := siphon_fees p in
  f = fees p ∧ pots_ok p' ∧ fees p' = 0 ∧ pots_total p' + f = pots_total p.
Proof.
  intros (Hf & Ht & Hr). unfold siphon_fees, pots_ok, pots_total, in_u, value_zero in *. cbn.
  split_and!; done || lia.
Qed.
End pots.
#[export] Hint Resolve append_fees_Ok rewards_add_Ok treasury_add_Ok pots_total_nonneg : chain.

(** ** Sequences of pot operations *)
Inductive pot_op :=
| OAppendFees (v : Value) | OTreasuryAdd (v : Value) | ORewardsAdd (v : Value)
| ODrawReward (v : Value) | ODrawTreasury (v : Value) | OSiphonFees.
Definition op_ok (o : pot_op) : Prop :=
  match o with
  | OAppendFees v | OTreasuryAdd v | ORewardsAdd v | ODrawReward v | ODrawTreasury v => u64_ok v
  | OSiphonFees => True
  end.
(** The new pots, and what went out of them minus what came in. *)
Definition pot_run (st : Pots * Z) (o : pot_op) : outcome PotError (Pots * Z) :=
  let '(p, out) := st in
  match o with
  | OAppendFees v => p' ← append_fees p v; Ok (p', out - v)
  | OTreasuryAdd v => p' ← pots_treasury_add p v; Ok (p', out - v)
  | ORewardsAdd v => p' ← rewards_add p v; Ok (p', out - v)
  | ODrawReward v => '(p', d) ← draw_reward p v; Ok (p', out + d)
  | ODrawTreasury v => let '(p', d) := draw_treasury p v in Ok (p', out + d)
  | OSiphonFees => let '(p', d) := siphon_fees p in Ok (p', out + d)
  end.

Lemma pot_run_step p out o p' out' :
  pots_ok p → op_ok o → pot_run (p, out) o = Ok (p', out') →
  pots_ok p' ∧ pots_total p' + out' = pots_total p + out.
Proof.
  intros Hp Ho. destruct o as [v|v|v|v|v|]; cbn [pot_run op_ok] in *.
  - intros (q & Hq & [= <- <-])%bind_Ok. apply append_fees_Ok in Hq as [? ?]; auto with lia.
  - intros (q & Hq & [= <- <-])%bind_Ok. apply treasury_add_Ok in Hq as [? ?]; auto with lia.
  - intros (q & Hq & [= <- <-])%bind_Ok. apply rewards_add_Ok in Hq as [? ?]; auto with lia.
  - destruct (draw_reward_spec p v Hp Ho) as (q & -> & Hq & _ & _ & Htot). cbn.
    intros [= <- <-]. split; [done|lia].
  - pose proof (draw_treasury_spec p v Hp Ho) as Hd. destruct (draw_treasury p v) as [q d].
    destruct Hd as (_ & Hq & _ & _ & Htot). intros [= <- <-]. split; [done|lia].
  - pose proof (siphon_fees_spec p Hp) as Hd. destruct (siphon_fees p) as [q d].
    destruct Hd as (_ & Hq & _ & Htot). intros [= <- <-]. split; [done|lia].
Qed.

Lemma pot_run_not_panic p out o : pots_ok p → op_ok o → pot_run (p, out) o ≠ Panic.
Proof.
  intros Hp Ho. destruct o as [v|v|v|v|v|]; cbn [pot_run op_ok] in *; try done.
  - unfold append_fees, value_add, checked_add64. by case_decide.
  - unfold pots_treasury_add, treasury_add, value_add, checked_add64. by case_decide.
  - unfold rewards_add, value_add, checked_add64. by case_decide.
  - destruct (draw_reward_spec p v Hp Ho) as (q & -> & _). done.
Qed.

(** No sequence of pot operations panics, and every sequence conserves
    value: what is in the pots at the end, plus what was drawn or siphoned,
    is what was there at the start, plus what was added. *)
Theorem pots_conserve_value p ops :
  pots_ok p → Forall op_ok ops →
  foldM pot_run (p, 0) ops ≠ Panic ∧
  ∀ p' out, foldM pot_run (p, 0) ops = Ok (p', out) →
    pots_ok p' ∧ pots_total p' + out = pots_total p ∧
    (pots_total p' ≤ u64_max → pots_total_value p' = Ok (pots_total p')).
Proof.
  intros Hp Hops.
  assert (∀ out, pots_ok p → foldM pot_run (p, out) ops ≠ Panic ∧
    ∀ p' out', foldM pot_run (p, out) ops = Ok (p', out') →
      pots_ok p' ∧ pots_total p' + out' = pots_total p + out) as Hgen.
  { clear Hp. revert p. induction Hops as [|o ops Ho Hops IH]; intros p out Hp; cbn [foldM].
    { split; [done|]. intros p' out' [= <- <-]. done. }
    pose proof (pot_run_not_panic p out o Hp Ho) as Hnp.
    destruct (pot_run (p, out) o) as [[q out1]|e|] eqn:Hrun; [|done|done].
    apply pot_run_step in Hrun as [Hq Htot]; [|done..]. cbn.
    destruct (IH q out1 Hq) as [IH1 IH2]. split; [done|]. intros p' out' Hr.
    apply IH2 in Hr as [? ?]. split; [done|lia]. }
  destruct (Hgen 0 Hp) as [H1 H2]. split; [done|]. intros p' out Hr.
  apply H2 in Hr as [Hok Htot]. split; [done|]. split; [lia|]. intros Hmax.
  by rewrite pots_total_value_spec, decide_True.
Qed.

Definition demo_pots : Pots := mkPots 5 (mkTreasury 10) 100.

Lemma pots_conserve_value_witness :
  ∃ p' out, foldM pot_run (demo_pots, 0) [OAppendFees 7; ODrawReward 30; OSiphonFees; OTreasuryAdd 12]
    = Ok (p', out) ∧ pots_total p' + out = 115.
Proof.
  destruct (pots_conserve_value demo_pots [OAppendFees 7; ODrawReward 30; OSiphonFees; OTreasuryAdd 12])
    as [_ H]; [repeat split; cbn; lia|repeat constructor; cbn; lia|].
  eexists _, _. split; [reflexivity|].
  exact (proj1 (proj2 (H _ _ eq_refl))).
Defined.
