(* ===== verification/Spending.v ===== *)
(** * Spending counters ([accounting/account/spending.rs])

    A [SpendingCounter] is a [u32] whose 3 high bits name a lane and whose 29
    low bits count the spends on it; an account keeps the next counter of each
    of its 8 lanes and accepts a spend only with exactly that counter. *)
From S2P Require Import Prelude Codec Value.
Local Open Scope Z_scope.

(** [accounting::account::LedgerError]. *)
Inductive LedgerError :=
| NonExistent | AlreadyExists | NonZero | SpendingCredentialInvalid | LValueError (e : ValueError).

Definition LANES_BITS : Z := 3.
Definition UNLANES_BITS : Z := 29.
Definition LANES : nat := 8.
Definition UNLANED_MASK : Z := Z.shiftl 1 UNLANES_BITS - 1.
(** [!UNLANED_MASK] on [u32]. *)
Definition LANED_MASK : Z := u32_max - UNLANED_MASK.

Abbreviation SpendingCounter := Z.
Definition lane (c : SpendingCounter) : nat := Z.to_nat (Z.shiftr c UNLANES_BITS).
Definition unlaned_counter (c : SpendingCounter) : Z := Z.land c UNLANED_MASK.
Definition counter_new (lane : nat) (counter : Z) : outcome infallible SpendingCounter :=
  assert_that (Z.of_nat lane <? Z.shiftl 1 LANES_BITS) ;;
  assert_that (counter <? Z.shiftl 1 UNLANES_BITS) ;;
  Ok (Z.lor (wrap 32 (Z.shiftl (Z.of_nat lane) UNLANES_BITS)) (Z.land counter UNLANED_MASK)).
Definition counter_zero : SpendingCounter := 0.
Definition increment (c : SpendingCounter) : SpendingCounter :=
  let inc := Z.land (wrap 32 (unlaned_counter c + 1)) UNLANED_MASK in
  Z.lor (Z.land c LANED_MASK) inc.
Definition increment_nth (c : SpendingCounter) (n : Z) : SpendingCounter :=
  let inc := Z.land (wrap 32 (unlaned_counter c + n)) UNLANED_MASK in
  Z.lor (Z.land c LANED_MASK) inc.
Definition counter_to_bytes (c : SpendingCounter) : list Z := le_bytes 4 c.
Definition counter_from_bytes (l : list Z) : SpendingCounter := from_le l.

Record SpendingCounterIncreasing := mkSpending { nexts : list SpendingCounter }.

(** [Default]: one zero counter per lane. *)
Definition spending_default : outcome infallible SpendingCounterIncreasing :=
  mkSpending <$> foldM (λ l i, c ← counter_new i 0; Ok (l ++ [c])) [] (seq 0 LANES).
Definition new_from_counter (set : SpendingCounter) : outcome infallible SpendingCounterIncreasing :=
  x ← spending_default;
  if decide (lane set < length (nexts x))%nat
  then Ok (mkSpending (<[lane set:=set]> (nexts x))) else Panic.
Definition new_from_counters (set : list SpendingCounter) : option SpendingCounterIncreasing :=
  if (length set =? LANES)%nat then
    if forallb (λ p, (lane p.2 =? p.1)%nat) (imap pair set) then Some (mkSpending set) else None
  else None.
Definition get_valid_counter (s : SpendingCounterIncreasing) : outcome infallible SpendingCounter :=
  unwrap_opt (nexts s !! 0%nat).
Definition get_valid_counters (s : SpendingCounterIncreasing) : list SpendingCounter := nexts s.

Definition next_verify (s : SpendingCounterIncreasing) (counter : SpendingCounter) :
    outcome LedgerError SpendingCounterIncreasing :=
  actual_counter ← unwrap_opt (nexts s !! lane counter);
  if negb (actual_counter =? counter) then Err SpendingCredentialInvalid
  else Ok (mkSpending (<[lane counter:=increment actual_counter]> (nexts s))).

(** ** The parts of a counter *)
Section counters.
Implicit Types c : SpendingCounter.

Lemma mask_ones : UNLANED_MASK = Z.ones UNLANES_BITS.
Proof. done. Qed.
Lemma unlaned_mod c : unlaned_counter c = c `mod` 2 ^ UNLANES_BITS.
Proof. unfold unlaned_counter. by rewrite mask_ones, Z.land_ones. Qed.
Lemma lane_div c : 0 ≤ c → Z.of_nat (lane c) = c `div` 2 ^ UNLANES_BITS.
Proof.
  intros. unfold lane. rewrite Z.shiftr_div_pow2 by done. rewrite Z2Nat.id; [done|].
  apply Z.div_pos; done.
Qed.
Lemma lane_lt c : u32_ok c → (lane c < LANES)%nat.
Proof.
  intros [Hc Hc']. apply Nat2Z.inj_lt. rewrite lane_div by done.
  apply Z.div_lt_upper_bound; [done|]. exact Hc'.
Qed.
Lemma counter_parts c : 0 ≤ c → c = Z.of_nat (lane c) * 2 ^ UNLANES_BITS + unlaned_counter c.
Proof. intros. rewrite lane_div, unlaned_mod by done. rewrite Z.mul_comm. by apply Z.div_mod. Qed.

(** The laned bits and a value below [2^29] do not meet. *)
Lemma lor_parts c inc :
  u32_ok c → 0 ≤ inc < 2 ^ UNLANES_BITS →
  Z.lor (Z.land c LANED_MASK) inc = Z.of_nat (lane c) * 2 ^ UNLANES_BITS + inc.
Proof.
  intros Hc Hi.
  assert (Z.land c LANED_MASK = Z.shiftl (Z.of_nat (lane c)) UNLANES_BITS) as ->.
  { unfold lane. rewrite Z2Nat.id by (apply Z.shiftr_nonneg; apply Hc).
    apply Z.bits_inj_iff'. intros n Hn. rewrite Z.land_spec, Z.shiftl_spec by done.
    assert (LANED_MASK = Z.shiftl (Z.ones LANES_BITS) UNLANES_BITS) as -> by done.
    rewrite Z.shiftl_spec by done. destruct (decide (n < UNLANES_BITS)).
    - rewrite !(Z.testbit_neg_r _ (n - UNLANES_BITS)) by lia. apply andb_false_r.
    - rewrite Z.shiftr_spec by lia. replace (n - UNLANES_BITS + UNLANES_BITS) with n by lia.
      rewrite Z.testbit_ones_nonneg by (unfold LANES_BITS; lia).
      destruct (Z.ltb_spec (n - UNLANES_BITS) LANES_BITS); [apply andb_true_r|].
      rewrite andb_false_r. symmetry. destruct (decide (c = 0)) as [->|]; [apply Z.testbit_0_l|].
      apply Z.bits_above_log2; [apply Hc|]. apply Z.log2_lt_pow2; [unfold in_u in *; lia|].
      eapply Z.lt_le_trans; [apply Hc|]. apply Z.pow_le_mono_r; unfold UNLANES_BITS, LANES_BITS in *; lia. }
  assert (Z.land (Z.shiftl (Z.of_nat (lane c)) UNLANES_BITS) inc = 0) as Hz.
  { apply Z.bits_inj_iff'. intros n Hn. rewrite Z.land_spec, Z.shiftl_spec, Z.testbit_0_l by done.
    destruct (decide (n < UNLANES_BITS)).
    - by rewrite (Z.testbit_neg_r _ (n - UNLANES_BITS)) by lia.
    - destruct (decide (inc = 0)) as [->|]; [by rewrite Z.testbit_0_l, andb_false_r|].
      rewrite (Z.bits_above_log2 inc), andb_false_r; [done|lia|].
      apply Z.log2_lt_pow2; [lia|]. eapply Z.lt_le_trans; [apply Hi|].
      apply Z.pow_le_mono_r; lia. }
  rewrite <-Z.lxor_lor, <-Z.add_nocarry_lxor by done. by rewrite Z.shiftl_mul_pow2.
Qed.

Lemma unlaned_lt c : 0 ≤ unlaned_counter c < 2 ^ UNLANES_BITS.
Proof. rewrite unlaned_mod. by apply Z.mod_pos_bound. Qed.

Lemma parts_inv (l : nat) u :
  (l < LANES)%nat → 0 ≤ u < 2 ^ UNLANES_BITS →
  let c := Z.of_nat l * 2 ^ UNLANES_BITS + u in
  u32_ok c ∧ lane c = l ∧ unlaned_counter c = u.
Proof.
  intros Hl Hu. cbv zeta. unfold LANES, UNLANES_BITS in *. change (2 ^ 29) with 536870912 in *.
  set (c := Z.of_nat l * 536870912 + u). assert (u32_ok c) as Hc by (unfold in_u, c; lia).
  split; [done|]. split.
  - apply Nat2Z.inj. rewrite lane_div by apply Hc. unfold UNLANES_BITS, c.
    change (2 ^ 29) with 536870912. rewrite Z.div_add_l, Z.div_small by lia. lia.
  - rewrite unlaned_mod. unfold UNLANES_BITS, c. change (2 ^ 29) with 536870912.
    rewrite Z.add_comm, Z.mod_add by lia. by apply Z.mod_small.
Qed.

(** Incrementing stays in the lane and counts modulo [2^29]. *)
Lemma increment_nth_spec c n :
  u32_ok c → 0 ≤ n < 2 ^ 31 →
  u32_ok (increment_nth c n) ∧ lane (increment_nth c n) = lane c ∧
  unlaned_counter (increment_nth c n) = (unlaned_counter c + n) `mod` 2 ^ UNLANES_BITS.
Proof.
  intros Hc Hn. unfold increment_nth. pose proof (unlaned_lt c).
  rewrite wrap_small by (unfold in_u, UNLANES_BITS in *; lia).
  fold (unlaned_counter (unlaned_counter c + n)). rewrite (unlaned_mod (_ + _)).
  assert (0 ≤ (unlaned_counter c + n) `mod` 2 ^ UNLANES_BITS < 2 ^ UNLANES_BITS) as Hb
    by by apply Z.mod_pos_bound.
  rewrite lor_parts by done. apply parts_inv; [by apply lane_lt|done].
Qed.

Lemma increment_spec c :
  u32_ok c →
  u32_ok (increment c) ∧ lane (increment c) = lane c ∧
  unlaned_counter (increment c) = (unlaned_counter c + 1) `mod` 2 ^ UNLANES_BITS.
Proof. intros Hc. by apply (increment_nth_spec c 1). Qed.

Lemma counter_new_spec l u :
  (l < LANES)%nat → 0 ≤ u < 2 ^ UNLANES_BITS →
  ∃ c, counter_new l u = Ok c ∧ u32_ok c ∧ lane c = l ∧ unlaned_counter c = u.
Proof.
  intros Hl Hu. exists (Z.of_nat l * 2 ^ UNLANES_BITS + u). split; [|by apply parts_inv].
  unfold counter_new. assert ((Z.of_nat l <? Z.shiftl 1 LANES_BITS) = true) as ->.
  { apply Z.ltb_lt. unfold LANES in Hl. change (Z.shiftl 1 LANES_BITS) with 8. lia. }
  assert ((u <? Z.shiftl 1 UNLANES_BITS) = true) as ->.
  { apply Z.ltb_lt. change (Z.shiftl 1 UNLANES_BITS) with (2 ^ UNLANES_BITS). lia. }
  cbn [assert_that mbind outcome_bind]. f_equal.
  fold (unlaned_counter u). rewrite unlaned_mod, Z.mod_small by done.
  destruct (parts_inv l 0 Hl) as (Hc & Hlane & _); [done|]. rewrite Z.add_0_r in Hc, Hlane.
  rewrite Z.shiftl_mul_pow2 by done. rewrite wrap_small by done.
  rewrite <-Hlane at 2. rewrite <-lor_parts by done. f_equal.
  set (x := Z.of_nat l * 2 ^ UNLANES_BITS) in *.
  pose proof (lor_parts x 0 Hc ltac:(done)) as Hx. rewrite Z.lor_0_r, Hlane in Hx.
  rewrite Hx. unfold x. lia.
Qed.
End counters.

(** ** The counters of an account *)
Definition spending_ok (s : SpendingCounterIncreasing) : Prop :=
  length (nexts s) = LANES ∧ ∀ i c, nexts s !! i = Some c → u32_ok c ∧ lane c = i.

Lemma spending_default_ok : ∃ s, spending_default = Ok s ∧ spending_ok s.
Proof.
  eexists. split; [reflexivity|]. split; [reflexivity|]. intros i c Hi. cbn in Hi.
  do 8 (destruct i as [|i]; [injection Hi as <-; split; [split; vm_compute; [discriminate|reflexivity]|reflexivity]|]). done.
Qed.

Lemma new_from_counters_ok set s :
  Forall u32_ok set → new_from_counters set = Some s → spending_ok s ∧ nexts s = set.
Proof.
  intros Hset. unfold new_from_counters. destruct (length set =? LANES)%nat eqn:Hlen; [|done].
  destruct (forallb _ _) eqn:Hall; [|done]. intros [= <-]. split; [|done].
  split; [by apply Nat.eqb_eq|]. intros i c Hi. cbn in Hi. split; [by eapply Forall_lookup_1|].
  rewrite forallb_forall in Hall. specialize (Hall (i, c)). cbn in Hall.
  apply Nat.eqb_eq, Hall. apply list_elem_of_In, list_elem_of_lookup. exists i.
  rewrite list_lookup_imap, Hi. done.
Qed.

Section spending.
Implicit Types (s : SpendingCounterIncreasing) (c : SpendingCounter).

(** [next_verify] never panics: a counter is accepted exactly when it is the
    next one of its lane, and then only that lane moves. *)
Lemma next_verify_spec s c :
  spending_ok s → u32_ok c →
  if decide (nexts s !! lane c = Some c)
  then next_verify s c = Ok (mkSpending (<[lane c:=increment c]> (nexts s))) ∧
       spending_ok (mkSpending (<[lane c:=increment c]> (nexts s)))
  else next_verify s c = Err SpendingCredentialInvalid.
Proof.
  intros [Hlen Hs] Hc. unfold next_verify. pose proof (lane_lt c Hc) as Hl.
  rewrite <-Hlen in Hl. destruct (lookup_lt_is_Some_2 _ _ Hl) as [a Ha]. rewrite Ha. cbn.
  destruct (Z.eqb_spec a c) as [->|Hne]; cbn.
  - rewrite decide_True by done. split; [done|].
    split; [cbn; by rewrite length_insert|]. intros i x Hx. cbn in Hx.
    apply list_lookup_insert_Some in Hx as [(<- & <- & _)|[_ Hx]]; [|by apply Hs].
    destruct (increment_spec c Hc) as (? & ? & _). done.
  - rewrite decide_False by congruence. done.
Qed.

Lemma next_verify_ok s c s' :
  spending_ok s → u32_ok c → next_verify s c = Ok s' →
  spending_ok s' ∧ nexts s !! lane c = Some c ∧ nexts s' = <[lane c:=increment c]> (nexts s).
Proof.
  intros Hs Hc Hn. pose proof (next_verify_spec s c Hs Hc) as H. case_decide as Hd.
  - destruct H as [H Hok]. rewrite H in Hn. apply Ok_inj in Hn as <-.
    split; [exact Hok|]. split; [exact Hd|reflexivity].
  - rewrite H in Hn. discriminate Hn.
Qed.

(** After a spend, the lane is [k] ahead of the counter used, with [k] at
    most the number of spends. *)
Lemma spends_lane s c cs s' k :
  spending_ok s → u32_ok c → Forall u32_ok cs →
  1 ≤ k → k + Z.of_nat (length cs) < 2 ^ UNLANES_BITS →
  (∃ a, nexts s !! lane c = Some a ∧
    unlaned_counter a = (unlaned_counter c + k) `mod` 2 ^ UNLANES_BITS) →
  foldM next_verify s cs = Ok s' →
  (c ∉ cs) ∧ ∃ k' a, k ≤ k' < 2 ^ UNLANES_BITS ∧ nexts s' !! lane c = Some a ∧
    unlaned_counter a = (unlaned_counter c + k') `mod` 2 ^ UNLANES_BITS.
Proof.
  intros Hs Hc Hcs. revert s k Hs. induction Hcs as [|d cs Hd Hcs IH];
    cbn [foldM length]; intros s k Hs Hk Hmax (a & Ha & Hu).
  { intros [= <-]. split; [apply not_elem_of_nil|]. exists k, a. split_and!; [lia|lia|done..]. }
  intros Hall. apply bind_Ok in Hall as (s1 & Hd1 & Hrun).
  destruct (next_verify_ok s d s1 Hs Hd Hd1) as (Hs1 & Hdl & Hs1e).
  pose proof (unlaned_lt c) as Hcb.
  assert (d ≠ c) as Hne.
  { intros ->. rewrite Ha in Hdl. injection Hdl as ->. rewrite unlaned_mod in Hu, Hcb.
    rewrite Zplus_mod_idemp_l in Hu.
    assert (k `mod` 2 ^ UNLANES_BITS = 0) as Hz.
    { replace k with ((c + k) - c) by lia. by rewrite Zminus_mod, <-Hu, Z.sub_diag. }
    rewrite Z.mod_small in Hz by lia. lia. }
  assert (∃ k1 b, k ≤ k1 ≤ k + 1 ∧ nexts s1 !! lane c = Some b ∧
    unlaned_counter b = (unlaned_counter c + k1) `mod` 2 ^ UNLANES_BITS) as (k1 & b & Hk1 & Hb & Hub).
  { rewrite Hs1e. destruct (decide (lane d = lane c)) as [Heq|Hlne].
    - exists (k + 1), (increment d). split; [lia|]. rewrite Heq. split.
      + apply list_lookup_insert_eq. by eapply lookup_lt_Some.
      + destruct (increment_spec d Hd) as (_ & _ & ->). rewrite Heq, Ha in Hdl.
        injection Hdl as <-. rewrite Hu, Zplus_mod_idemp_l. f_equal. lia.
    - exists k, a. split; [lia|]. split; [|done]. by rewrite list_lookup_insert_ne. }
  destruct (IH s1 k1) as (Hnin & k' & e & Hk' & He & Hue); [done|lia|lia|by exists b|done|].
  split; [by apply not_elem_of_cons|]. exists k', e. split_and!; [lia|lia|done..].
Qed.

(** C12. No replay: once a spend with a counter is accepted, the same counter
    is refused for the next [2^29 - 2] accepted spends, whatever lanes they
    use, and no accepted spend among them uses it. *)
Theorem spending_counter_no_replay s c cs s' :
  spending_ok s → u32_ok c → Forall u32_ok cs →
  1 + Z.of_nat (length cs) < 2 ^ UNLANES_BITS →
  foldM next_verify s (c :: cs) = Ok s' →
  (c ∉ cs) ∧ next_verify s' c = Err SpendingCredentialInvalid ∧ spending_ok s'.
Proof.
  intros Hs Hc Hcs Hmax. cbn [foldM]. intros (s1 & Hc1 & Hrun)%bind_Ok.
  destruct (next_verify_ok s c s1 Hs Hc Hc1) as (Hs1 & Hcl & Hs1e).
  assert (spending_ok s') as Hs'.
  { clear Hs Hc1 Hcl Hs1e Hmax. revert s1 Hs1 Hrun.
    induction Hcs as [|d cs Hd Hcs IH]; cbn [foldM]; intros s1 Hs1; [by intros [= <-]|].
    intros (s2 & H2 & Hrun)%bind_Ok. destruct (next_verify_ok s1 d s2) as (? & _); [done..|].
    by eapply IH. }
  destruct (increment_spec c Hc) as (_ & _ & Hinc).
  destruct (spends_lane s1 c cs s' 1 Hs1 Hc Hcs) as (Hnin & k' & a & Hk' & Ha & Hu);
    [lia|lia| |done|].
  { exists (increment c). split; [|done]. rewrite Hs1e. apply list_lookup_insert_eq.
    by eapply lookup_lt_Some. }
  split; [done|]. split; [|done]. pose proof (next_verify_spec s' c Hs' Hc) as Hspec.
  case_decide as Hd; [|done]. exfalso. rewrite Ha in Hd. injection Hd as ->.
  rewrite unlaned_mod in Hu. rewrite Zplus_mod_idemp_l in Hu.
  assert (k' `mod` 2 ^ UNLANES_BITS = 0) as Hz.
  { replace k' with ((c + k') - c) by lia. by rewrite Zminus_mod, <-Hu, Z.sub_diag. }
  rewrite Z.mod_small in Hz by lia. lia.
Qed.
End spending.

Lemma spending_counter_no_replay_witness :
  ∃ s s', spending_default = Ok s ∧ foldM next_verify s [536870912; 0; 536870913] = Ok s' ∧
    next_verify s' 536870912 = Err SpendingCredentialInvalid.
Proof.
  destruct spending_default_ok as (s & Hs & Hok). exists s.
  vm_compute in Hs. injection Hs as <-.
  set (s' := mkSpending [1; 536870914; 1073741824; 1610612736; 2147483648; 2684354560;
                         3221225472; 3758096384]).
  match type of Hok with spending_ok ?s =>
    assert (foldM next_verify s [536870912; 0; 536870913] = Ok s') as Hrun
      by (vm_compute; reflexivity) end.
  assert (u32_ok 536870912) as Hc by (split; vm_compute; [discriminate|reflexivity]).
  assert (Forall u32_ok [0; 536870913]) as Hcs
    by (repeat constructor; vm_compute; (discriminate || reflexivity)).
  assert (1 + Z.of_nat (length [0; 536870913]) < 2 ^ UNLANES_BITS) as Hlen by reflexivity.
  exists s'. split; [reflexivity|]. split; [exact Hrun|].
  exact (proj1 (proj2 (spending_counter_no_replay _ _ _ _ Hok Hc Hcs Hlen Hrun))).
Defined.
