(* ===== verification/Account.v ===== *)
(** * Account ledger ([accounting/account/{mod,account_state,last_rewards}.rs], [account.rs])

    A ledger of accounts is a HAMT from identifiers to account states; it is
    modelled on the finite map the HAMT implements ([HamtRefine]).  The
    identifiers, pool ids and token ids are opaque keys. *)
From S2P Require Import Prelude Codec Value Hamt HamtSpec Spending.
Local Open Scope Z_scope.

(** ** [last_rewards.rs] *)
Record LastRewards := mkLastRewards { lr_epoch : Z; lr_reward : Value }.
Definition last_rewards_default : LastRewards := mkLastRewards 0 value_zero.
Definition add_for {E} (l : LastRewards) (epoch : Z) (value : Value) : outcome E LastRewards :=
  assert_that (lr_epoch l <=? epoch) ;;
  if lr_epoch l =? epoch then
    r ← unwrap (value_add (lr_reward l) value); Ok (mkLastRewards (lr_epoch l) r)
  else Ok (mkLastRewards epoch value).

Section account.
Context {ID PoolId TokenId Extra : Type}.
Context `{Countable ID} `{Countable TokenId} `{EqDecision PoolId}.

(** ** [account_state.rs] *)
Record DelegationRatio := mkDelegationRatio { dr_parts : Z; dr_pools : list (PoolId * Z) }.
Inductive DelegationType := NonDelegated | DFull (p : PoolId) | DRatio (r : DelegationRatio).
Definition DELEGATION_RATIO_MAX_DECLS : nat := 8.

(** The sum of at most 255 per pool, in [u32]: lists long enough to wrap are
    refused by their length. *)
Definition delegation_ratio_is_valid (r : DelegationRatio) : bool :=
  let total := wrap 32 (Zsum (dr_pools r).*2) in
  let has_no_zero := negb (existsb (λ x, x.2 =? 0) (dr_pools r)) in
  has_no_zero && (1 <? dr_parts r) && (1 <? length (dr_pools r))%nat &&
  (length (dr_pools r) <=? DELEGATION_RATIO_MAX_DECLS)%nat && (total =? dr_parts r).
Definition delegation_ratio_new (parts : Z) (pools : list (PoolId * Z)) : option DelegationRatio :=
  let total := wrap 32 (Zsum pools.*2) in
  let has_no_zero := negb (existsb (λ x, x.2 =? 0) pools) in
  if has_no_zero && (1 <? parts) && (1 <? length pools)%nat &&
     (length pools <=? DELEGATION_RATIO_MAX_DECLS)%nat && (total =? parts)
  then Some (mkDelegationRatio parts pools) else None.

Record AccountState := mkState {
  spending : SpendingCounterIncreasing;
  delegation : DelegationType;
  st_value : Value;
  tokens : gmap TokenId Value;
  last_rewards : LastRewards;
  extra : Extra }.

Definition state_new {E} (v : Value) (e : Extra) : outcome E AccountState :=
  s ← lift spending_default;
  Ok (mkState s NonDelegated v ∅ last_rewards_default e).
Definition state_new_reward {E} (epoch : Z) (v : Value) (e : Extra) : outcome E AccountState :=
  st ← state_new v e;
  l ← add_for (last_rewards st) epoch v;
  Ok (mkState (spending st) (delegation st) (st_value st) (tokens st) l (extra st)).

Definition state_add_value (st : AccountState) (v : Value) : outcome ValueError AccountState :=
  new_value ← value_add (st_value st) v;
  Ok (mkState (spending st) (delegation st) new_value (tokens st) (last_rewards st) (extra st)).
Definition state_add (st : AccountState) (v : Value) : outcome LedgerError AccountState :=
  new_value ← map_err LValueError (value_add (st_value st) v);
  Ok (mkState (spending st) (delegation st) new_value (tokens st) (last_rewards st) (extra st)).
Definition state_add_rewards (st : AccountState) (e : Z) (v : Value) :
    outcome ValueError AccountState :=
  new_value ← value_add (st_value st) v;
  l ← add_for (last_rewards st) e v;
  Ok (mkState (spending st) (delegation st) new_value (tokens st) l (extra st)).
Definition state_sub (st : AccountState) (counter : SpendingCounter) (v : Value) :
    outcome LedgerError (option AccountState) :=
  new_value ← map_err LValueError (value_sub (st_value st) v);
  s ← next_verify (spending st) counter;
  Ok (Some (mkState s (delegation st) new_value (tokens st) (last_rewards st) (extra st))).
Definition state_token_add (st : AccountState) (token : TokenId) (v : Value) :
    outcome LedgerError AccountState :=
  tokens ← map_err LValueError
    (hm_insert_or_update (tokens st) token v (λ current_value, Some <$> value_add current_value v));
  Ok (mkState (spending st) (delegation st) (st_value st) tokens (last_rewards st) (extra st)).
Definition state_set_delegation (st : AccountState) (d : DelegationType) : AccountState :=
  mkState (spending st) d (st_value st) (tokens st) (last_rewards st) (extra st).

(** ** [mod.rs] *)
Definition of_update_error (e : UpdateError LedgerError) : LedgerError :=
  match e with UpdateKeyNotFound => NonExistent | ValueCallbackError v => v end.
Definition of_insert_error (e : InsertError) : LedgerError :=
  match e with EntryExists => AlreadyExists end.

Abbreviation Ledger := (gmap ID AccountState).
Implicit Types l : Ledger.

Definition ledger_new : Ledger := ∅.
Definition add_account l (identifier : ID) (initial_value : Value) (e : Extra) :
    outcome LedgerError Ledger :=
  st ← state_new initial_value e;
  map_err of_insert_error (hm_insert l identifier st).
Definition set_delegation l (identifier : ID) (d : DelegationType) : outcome LedgerError Ledger :=
  map_err of_update_error
    (hm_update l identifier (λ st, Ok (Some (state_set_delegation st d)))).
Definition exists_ l (identifier : ID) : bool := bool_decide (is_Some (l !! identifier)).
Definition get_state l (account : ID) : outcome LedgerError AccountState :=
  ok_or (l !! account) NonExistent.
Definition remove_account l (identifier : ID) : outcome LedgerError Ledger :=
  map_err of_update_error (hm_update l identifier (λ st,
    if st_value st =? value_zero then Ok None else Err NonZero)).
Definition add_value l (identifier : ID) (value : Value) : outcome LedgerError Ledger :=
  map_err of_update_error (hm_update l identifier (λ st, Some <$> state_add st value)).
Definition add_value_or_account l (identifier : ID) (value : Value) (e : Extra) :
    outcome ValueError Ledger :=
  st0 ← state_new value e;
  hm_insert_or_update l identifier st0 (λ st, Some <$> state_add_value st value).
Definition add_rewards_to_account l (identifier : ID) (epoch : Z) (value : Value) (e : Extra) :
    outcome ValueError Ledger :=
  st0 ← state_new_reward epoch value e;
  hm_insert_or_update l identifier st0 (λ st, Some <$> state_add_rewards st epoch value).
Definition remove_value l (identifier : ID) (counter : SpendingCounter) (value : Value) :
    outcome LedgerError Ledger :=
  map_err of_update_error (hm_update l identifier (λ st, state_sub st counter value)).
Definition get_total_value l : outcome ValueError Value :=
  value_sum (st_value <$> (map_to_list l).*2).
Definition token_add l (identifier : ID) (token : TokenId) (value : Value) :
    outcome LedgerError Ledger :=
  map_err of_update_error (hm_update l identifier (λ st, Some <$> state_token_add st token value)).
Definition ledger_from_iter (iter : list (ID * AccountState)) : Ledger := hm_from_list iter.

(** ** The invariant and the total *)
Definition state_ok (st : AccountState) : Prop := u64_ok (st_value st) ∧ spending_ok (spending st).
Definition ledger_ok l : Prop := map_Forall (λ _, state_ok) l.
Definition ledger_total l : Z := map_sum st_value l.

Lemma ledger_total_nonneg l : ledger_ok l → 0 ≤ ledger_total l.
Proof. intros Hl. apply map_sum_nonneg. eapply map_Forall_impl; [done|]. by intros ? ? [[? _] _]. Qed.

Lemma balance_le_total l i st : ledger_ok l → l !! i = Some st → st_value st ≤ ledger_total l.
Proof.
  intros Hl Hi. eapply map_sum_lookup_le; [|done].
  eapply map_Forall_impl; [done|]. by intros ? ? [[? _] _].
Qed.

(** [get_total_value] is the sum of the balances, or an overflow when
    it does not fit a [u64]: it never depends on the order of iteration. *)
Theorem account_total_value l :
  ledger_ok l →
  get_total_value l =
    if decide (ledger_total l ≤ u64_max) then Ok (ledger_total l) else Err Overflow.
Proof.
  intros Hl. unfold get_total_value, ledger_total, map_sum. apply value_sum_spec.
  apply Forall_fmap, Forall_fmap, Forall_forall. intros [i st] Hin. cbn.
  apply elem_of_map_to_list in Hin. by destruct (Hl i st Hin) as [[? _] _].
Qed.

Lemma state_new_Ok {E} v e st :
  u64_ok v → state_new (E := E) v e = Ok st → state_ok st ∧ st_value st = v.
Proof.
  intros Hv. unfold state_new. destruct spending_default_ok as (s & -> & Hs). cbn [lift mbind outcome_bind].
  intros <-%Ok_inj. done.
Qed.

Lemma state_new_total {E} v e : ∃ st, state_new (E := E) v e = Ok st.
Proof.
  unfold state_new. destruct spending_default_ok as (s & -> & Hs). by eexists.
Qed.

Lemma state_new_reward_Ok {E} epoch v e st :
  u64_ok v → state_new_reward (E := E) epoch v e = Ok st → state_ok st ∧ st_value st = v.
Proof.
  intros Hv. unfold state_new_reward. destruct (state_new_total (E := E) v e) as [st0 Hst0].
  rewrite Hst0. destruct (state_new_Ok v e st0 Hv Hst0) as [[Hu Hsp] Heq].
  cbn [mbind outcome_bind]. intros (l & Hl & <-%Ok_inj)%bind_Ok. done.
Qed.

(** Every operation on a state changes the balance by the amount it names. *)
Lemma state_add_value_Ok st v st' :
  state_ok st → u64_ok v → state_add_value st v = Ok st' →
  state_ok st' ∧ st_value st' = st_value st + v.
Proof.
  intros [Hs Hsp] Hv (x & [-> Hmax]%value_add_Ok & <-%Ok_inj)%bind_Ok.
  unfold state_ok, in_u, u64_max in *. cbn. split; [split; [lia|done]|done].
Qed.
Lemma state_add_Ok st v st' :
  state_ok st → u64_ok v → state_add st v = Ok st' →
  state_ok st' ∧ st_value st' = st_value st + v.
Proof.
  intros [Hs Hsp] Hv (x & Hx & <-%Ok_inj)%bind_Ok. apply map_err_Ok, value_add_Ok in Hx as [-> Hmax].
  unfold state_ok, in_u, u64_max in *. cbn. split; [split; [lia|done]|done].
Qed.
Lemma state_add_rewards_Ok st e v st' :
  state_ok st → u64_ok v → state_add_rewards st e v = Ok st' →
  state_ok st' ∧ st_value st' = st_value st + v.
Proof.
  intros [Hs Hsp] Hv (x & [-> Hmax]%value_add_Ok & (r & _ & <-%Ok_inj)%bind_Ok)%bind_Ok.
  unfold state_ok, in_u, u64_max in *. cbn. split; [split; [lia|done]|done].
Qed.
Lemma state_sub_Ok st c v ov :
  state_ok st → u32_ok c → u64_ok v → state_sub st c v = Ok ov →
  ∃ st', ov = Some st' ∧ state_ok st' ∧ st_value st' = st_value st - v ∧ v ≤ st_value st ∧
    nexts (spending st) !! lane c = Some c ∧ delegation st' = delegation st ∧
    tokens st' = tokens st.
Proof.
  intros [Hs Hsp] Hc Hv (x & Hx & Hrest)%bind_Ok. apply bind_Ok in Hrest as (s & Hn & <-%Ok_inj).
  apply map_err_Ok, value_sub_Ok in Hx as [-> Hle].
  destruct (next_verify_ok _ c s Hsp Hc Hn) as (Hs' & Hl & _).
  eexists. split; [done|]. unfold state_ok, in_u in *. cbn. split_and!; done || lia.
Qed.
Lemma state_token_add_Ok st t v st' :
  state_token_add st t v = Ok st' →
  spending st' = spending st ∧ st_value st' = st_value st ∧ delegation st' = delegation st.
Proof. by intros (x & Hx & <-%Ok_inj)%bind_Ok. Qed.

(** ** Sequences of ledger operations *)
Inductive account_op :=
| OpAddAccount (i : ID) (v : Value) (e : Extra)
| OpSetDelegation (i : ID) (d : DelegationType)
| OpRemoveAccount (i : ID)
| OpAddValue (i : ID) (v : Value)
| OpAddValueOrAccount (i : ID) (v : Value) (e : Extra)
| OpAddRewards (i : ID) (epoch : Z) (v : Value) (e : Extra)
| OpRemoveValue (i : ID) (c : SpendingCounter) (v : Value)
| OpTokenAdd (i : ID) (t : TokenId) (v : Value).

Definition account_op_ok (o : account_op) : Prop :=
  match o with
  | OpAddAccount _ v _ | OpAddValue _ v | OpAddValueOrAccount _ v _ | OpAddRewards _ _ v _
  | OpTokenAdd _ _ v => u64_ok v
  | OpRemoveValue _ c v => u32_ok c ∧ u64_ok v
  | OpSetDelegation _ _ | OpRemoveAccount _ => True
  end.
(** What the operation says it adds to the ledger. *)
Definition op_amount (o : account_op) : Z :=
  match o with
  | OpAddAccount _ v _ | OpAddValue _ v | OpAddValueOrAccount _ v _ | OpAddRewards _ _ v _ => v
  | OpRemoveValue _ _ v => - v
  | OpSetDelegation _ _ | OpRemoveAccount _ | OpTokenAdd _ _ _ => 0
  end.
Definition account_run l (o : account_op) : outcome LedgerError Ledger :=
  match o with
  | OpAddAccount i v e => add_account l i v e
  | OpSetDelegation i d => set_delegation l i d
  | OpRemoveAccount i => remove_account l i
  | OpAddValue i v => add_value l i v
  | OpAddValueOrAccount i v e => map_err LValueError (add_value_or_account l i v e)
  | OpAddRewards i epoch v e => map_err LValueError (add_rewards_to_account l i epoch v e)
  | OpRemoveValue i c v => remove_value l i c v
  | OpTokenAdd i t v => token_add l i t v
  end.

(** An update whose step changes the balance by [d] and keeps states
    well-formed changes the total by [d]. *)
Lemma update_effect l i (f : AccountState → outcome LedgerError (option AccountState)) d l' :
  ledger_ok l → map_err of_update_error (hm_update l i f) = Ok l' →
  (∀ st ov, state_ok st → f st = Ok ov →
    from_option state_ok True ov ∧ from_option st_value 0 ov = st_value st + d) →
  ledger_ok l' ∧ ledger_total l' = ledger_total l + d.
Proof.
  intros Hl Hu%map_err_Ok Hf. split.
  - eapply hm_update_Forall; [done| |done]. intros st ov Hst Hov. by apply (Hf st ov).
  - destruct (hm_update_sum st_value _ _ _ _ Hu) as (st & ov & Hi & Hov & Hsum).
    unfold ledger_total. rewrite Hsum.
    destruct (Hf st ov) as [_ ->]; [by eapply Hl|done|lia].
Qed.

Lemma insert_or_update_effect l i st0 (f : AccountState → outcome ValueError (option AccountState)) d l' :
  ledger_ok l → hm_insert_or_update l i st0 f = Ok l' →
  state_ok st0 → st_value st0 = d →
  (∀ st ov, state_ok st → f st = Ok ov →
    from_option state_ok True ov ∧ from_option st_value 0 ov = st_value st + d) →
  ledger_ok l' ∧ ledger_total l' = ledger_total l + d.
Proof.
  intros Hl Hu Hok0 Hd Hf. split.
  - eapply hm_insert_or_update_Forall; [done|done| |done].
    intros st ov Hst Hov. by apply (Hf st ov).
  - unfold ledger_total. eapply hm_insert_or_update_sum; [done|done|].
    intros st ov Hi Hov. apply (Hf st ov); [by eapply Hl|done].
Qed.

(** A step that always keeps the account. *)
Lemma fmap_Some_Ok {E} (m : outcome E AccountState) ov :
  Some <$> m = Ok ov → ∃ st, ov = Some st ∧ m = Ok st.
Proof. destruct m; cbn; [|done..]. intros <-%Ok_inj. by eexists. Qed.

Lemma account_step l o l' :
  ledger_ok l → account_op_ok o → account_run l o = Ok l' →
  ledger_ok l' ∧ ledger_total l' = ledger_total l + op_amount o.
Proof.
  intros Hl Ho. destruct o as [i v e|i d|i|i v|i v e|i ep v e|i c v|i t v];
    cbn [account_run op_amount account_op_ok] in *; intros Hrun.
  - apply bind_Ok in Hrun as (st & Hst & Hi%map_err_Ok).
    destruct (state_new_Ok v e st Ho Hst) as [Hok <-]. split.
    + by eapply hm_insert_Forall.
    + unfold ledger_total. rewrite (hm_insert_sum st_value _ _ _ _ Hi). lia.
  - eapply update_effect; [done..|]. intros st ov Hst <-%Ok_inj. cbn. split; [done|lia].
  - eapply update_effect; [done..|]. intros st ov Hst Hov. cbn in Hov.
    destruct (Z.eqb_spec (st_value st) value_zero) as [->|]; [|done].
    apply Ok_inj in Hov as <-. done.
  - eapply update_effect; [done..|]. intros st ov Hst (st' & -> & Hadd)%fmap_Some_Ok.
    by apply state_add_Ok.
  - apply map_err_Ok, bind_Ok in Hrun as (st0 & Hst0 & Hrun).
    destruct (state_new_Ok v e st0 Ho Hst0) as [Hok Hv].
    eapply insert_or_update_effect; [done..|]. intros st ov Hst (st' & -> & Hadd)%fmap_Some_Ok.
    by apply state_add_value_Ok.
  - apply map_err_Ok, bind_Ok in Hrun as (st0 & Hst0 & Hrun).
    destruct (state_new_reward_Ok ep v e st0 Ho Hst0) as [Hok Hv].
    eapply insert_or_update_effect; [done..|]. intros st ov Hst (st' & -> & Hadd)%fmap_Some_Ok.
    by eapply state_add_rewards_Ok.
  - destruct Ho as [Hc Hv]. eapply update_effect; [done..|]. intros st ov Hst Hsub.
    destruct (state_sub_Ok st c v ov Hst Hc Hv Hsub) as (st' & -> & Hok & Heq & _).
    cbn. split; [done|lia].
  - eapply update_effect; [done..|]. intros st ov [Hst Hsp] (st' & -> & Hadd)%fmap_Some_Ok.
    apply state_token_add_Ok in Hadd as (Hs & Hv & _). cbn. unfold state_ok. rewrite Hs, Hv.
    split; [done|lia].
Qed.

(** The account ledger conserves value: after any sequence of successful
    operations every balance is a [u64] and every account keeps valid
    spending counters, and the total has changed by exactly what the
    operations added and removed; an account is only removed when empty. *)
Theorem account_ledger_conserves l ops l' :
  ledger_ok l → Forall account_op_ok ops → foldM account_run l ops = Ok l' →
  ledger_ok l' ∧ ledger_total l' = ledger_total l + Zsum (op_amount <$> ops).
Proof.
  intros Hl Hops. revert l Hl. induction Hops as [|o ops Ho Hops IH]; cbn; intros l Hl.
  - intros <-%Ok_inj. split; [done|lia].
  - intros (l1 & Hl1r & Hrun)%bind_Ok. apply account_step in Hl1r as [Hl1 Ht1]; [|done..].
    destruct (IH l1 Hl1 Hrun) as [Hl' Ht']. split; [done|lia].
Qed.

(** Spending from an account, branch by branch: it fails when the
    account does not exist, when the balance is smaller than the value, or
    when the counter is not the next of its lane; otherwise only this
    account changes, by the value and its lane's counter. *)
Theorem remove_value_cases l i c v :
  ledger_ok l → u32_ok c → u64_ok v →
  match l !! i with
  | None => remove_value l i c v = Err NonExistent
  | Some st =>
      if decide (st_value st < v) then remove_value l i c v = Err (LValueError NegativeAmount)
      else if decide (nexts (spending st) !! lane c = Some c) then
        ∃ l' st', remove_value l i c v = Ok l' ∧ l' = <[i:=st']> l ∧
          st_value st' = st_value st - v ∧ 0 ≤ st_value st' ∧
          nexts (spending st') = <[lane c:=increment c]> (nexts (spending st)) ∧
          delegation st' = delegation st ∧ tokens st' = tokens st ∧
          last_rewards st' = last_rewards st ∧ ledger_total l' = ledger_total l - v
      else remove_value l i c v = Err SpendingCredentialInvalid
  end.
Proof.
  intros Hl Hc Hv. unfold remove_value, hm_update. destruct (l !! i) as [st|] eqn:Hi; [|done].
  destruct (Hl i st Hi) as [Hst Hsp]. unfold state_sub, value_sub, checked_sub64.
  pose proof (next_verify_spec (spending st) c Hsp Hc) as Hn.
  destruct (decide (st_value st < v)).
  { by rewrite (decide_False (P := v ≤ st_value st)) by lia. }
  rewrite (decide_True (P := v ≤ st_value st)) by lia. cbn [ok_or map_err mbind outcome_bind].
  destruct (decide (nexts (spending st) !! lane c = Some c)).
  - destruct Hn as [-> Hok]. cbn [map_err mbind outcome_bind fmap outcome_fmap hm_set].
    eexists _, _. split; [reflexivity|]. split; [reflexivity|]. cbn [st_value spending nexts].
    split; [lia|]. split; [lia|]. do 4 (split; [reflexivity|]).
    unfold ledger_total. rewrite (map_sum_insert _ _ _ st) by done. cbn [st_value]. lia.
  - rewrite Hn. reflexivity.
Qed.
End account.
#[global] Arguments AccountState _ _ _ {_ _}.
#[global] Arguments DelegationType : clear implicits.
#[global] Arguments DelegationRatio : clear implicits.

(** ** Delegation ratios *)
Section ratios.
Context {PoolId : Type} `{EqDecision PoolId}.

(** What [is_valid] accepts; the sum of the parts does not wrap on it. *)
Lemma delegation_ratio_valid (r : DelegationRatio PoolId) :
  Forall (λ p, u8_ok p.2) (dr_pools r) →
  delegation_ratio_is_valid r = true ↔
  (2 ≤ length (dr_pools r) ≤ 8)%nat ∧ Forall (λ p, 0 < p.2) (dr_pools r) ∧
  Zsum (dr_pools r).*2 = dr_parts r ∧ 1 < dr_parts r.
Proof.
  destruct r as [parts pools]. cbn [dr_pools dr_parts]. intros Hp.
  unfold delegation_ratio_is_valid, DELEGATION_RATIO_MAX_DECLS. cbn [dr_pools dr_parts].
  rewrite !andb_true_iff, negb_true_iff, Z.ltb_lt, Nat.ltb_lt, Nat.leb_le, Z.eqb_eq.
  assert (existsb (λ x, x.2 =? 0) pools = false ↔ Forall (λ p, 0 < p.2) pools) as ->.
  { induction Hp as [|p pools Hp Hps IH].
    { cbn. split; [intros _; constructor|done]. }
    cbn [existsb]. rewrite orb_false_iff, Forall_cons, IH, Z.eqb_neq. unfold in_u in Hp.
    split; intros [? ?]; split; done || lia. }
  assert (0 ≤ Zsum pools.*2 ≤ Z.of_nat (length pools) * 255) as Hb.
  { induction Hp as [|p pools Hp Hps IH]; [done|]. cbn. unfold in_u in Hp.
    change (2 ^ 8) with 256 in Hp. lia. }
  split.
  - intros ((((H1 & H2) & H3) & H4) & H5). rewrite wrap_small in H5 by (unfold in_u; lia).
    split_and!; done || lia.
  - intros ((H1 & H2) & H3 & H4 & H5). rewrite wrap_small by (unfold in_u; lia).
    split_and!; done || lia.
Qed.

(** [DelegationRatio::new] builds exactly the ratios that [is_valid]
    accepts: two to eight pools, each with a positive part, whose parts add
    up to the total; the arithmetic never wraps on them. *)
Theorem delegation_ratio_new_valid (parts : Z) (pools : list (PoolId * Z)) :
  Forall (λ p, u8_ok p.2) pools →
  (delegation_ratio_new parts pools = Some (mkDelegationRatio parts pools) ↔
    (2 ≤ length pools ≤ 8)%nat ∧ Forall (λ p, 0 < p.2) pools ∧ Zsum pools.*2 = parts ∧ 1 < parts) ∧
  (is_Some (delegation_ratio_new parts pools) ↔
    delegation_ratio_is_valid (mkDelegationRatio parts pools) = true).
Proof.
  intros Hp.
  assert (delegation_ratio_new parts pools =
    if delegation_ratio_is_valid (mkDelegationRatio parts pools)
    then Some (mkDelegationRatio parts pools) else None) as Heq by done.
  rewrite Heq. split.
  2:{ destruct (delegation_ratio_is_valid _); split; intros Hs; done || by destruct Hs. }
  rewrite <-(delegation_ratio_valid (mkDelegationRatio parts pools) Hp).
  by destruct (delegation_ratio_is_valid _).
Qed.
End ratios.

Lemma delegation_ratio_new_valid_witness :
  delegation_ratio_new 7 [(1, 2); (2, 1); (3, 4)] = Some (mkDelegationRatio 7 [(1, 2); (2, 1); (3, 4)]).
Proof.
  apply (delegation_ratio_new_valid 7 [(1, 2); (2, 1); (3, 4)]).
  - repeat constructor; vm_compute; (discriminate || reflexivity).
  - split; [cbn; lia|]. split; [repeat constructor|]. split; reflexivity.
Defined.

(** ** A concrete ledger *)
Definition demo_state (v : Value) : AccountState nat nat unit :=
  mkState (mkSpending [0; 536870912; 1073741824; 1610612736; 2147483648; 2684354560;
                       3221225472; 3758096384]) NonDelegated v ∅ last_rewards_default ().
Definition demo_ledger : gmap nat (AccountState nat nat unit) := {[ 7%nat := demo_state 100 ]}.

Lemma demo_state_ok v : u64_ok v → state_ok (demo_state v).
Proof.
  intros Hv. destruct spending_default_ok as (s & Hs & Hok). vm_compute in Hs.
  apply Ok_inj in Hs as <-. split; [done|exact Hok].
Qed.
Lemma demo_ledger_ok : ledger_ok demo_ledger.
Proof.
  intros i st Hi. unfold demo_ledger in Hi. apply lookup_singleton_Some in Hi as [_ <-]. apply demo_state_ok. split; cbn; lia.
Qed.

Lemma account_total_value_witness : get_total_value demo_ledger = Ok 100.
Proof. rewrite (account_total_value demo_ledger demo_ledger_ok). vm_compute. reflexivity. Defined.

Lemma account_ledger_conserves_witness :
  ∃ l', foldM account_run demo_ledger
      [OpAddValue 7%nat 50; OpRemoveValue 7%nat 0 30; OpAddValueOrAccount 8%nat 5 ()] = Ok l' ∧
    ledger_total l' = 125.
Proof.
  set (ops := [OpAddValue 7%nat 50; OpRemoveValue 7%nat 0 30; OpAddValueOrAccount 8%nat 5 ()]).
  assert (is_ok (foldM account_run demo_ledger ops) = true) as Hok by (vm_compute; reflexivity).
  destruct (foldM account_run demo_ledger ops) as [l'|e|] eqn:Hrun; [|discriminate Hok..].
  exists l'. split; [reflexivity|].
  destruct (account_ledger_conserves demo_ledger ops l' demo_ledger_ok) as [_ ->];
    [repeat constructor; vm_compute; (discriminate || reflexivity)|exact Hrun|].
  vm_compute. reflexivity.
Defined.

Lemma remove_value_cases_witness :
  remove_value demo_ledger 7%nat 0 130 = Err (LValueError NegativeAmount) ∧
  ∃ l', remove_value demo_ledger 7%nat 0 30 = Ok l' ∧ ledger_total l' = ledger_total demo_ledger - 30.
Proof.
  assert (u32_ok 0) as Hc by (split; vm_compute; [discriminate|reflexivity]).
  split.
  - assert (u64_ok 130) as Hv by (split; vm_compute; [discriminate|reflexivity]).
    exact (remove_value_cases demo_ledger 7%nat 0 130 demo_ledger_ok Hc Hv).
  - assert (u64_ok 30) as Hv by (split; vm_compute; [discriminate|reflexivity]).
    destruct (remove_value_cases demo_ledger 7%nat 0 30 demo_ledger_ok Hc Hv)
      as (l' & st' & H1 & _ & _ & _ & _ & _ & _ & _ & H2).
    exists l'. split; [exact H1|exact H2].
Defined.
