(* ===== verification/Utxo.v ===== *)
(** * UTXO ledger ([utxo.rs], [transaction/{utxo,transfer}.rs])

    A HAMT from fragment ids to [FastSparseArray]s of outputs.  The model keeps
    the sparse arrays as they are (with their bitmaps and dead elements) and
    the HAMT as the finite map it implements; the abstract ledger is a map of
    non-empty maps, and the theorems are a refinement between the two. *)
From S2P Require Import Prelude Bitmap Value Hamt HamtSpec SparseArray.
Local Open Scope nat_scope.

Inductive UtxoError := UAlreadyExists | TransactionNotFound | IndexNotFound.

(** The index of an output in its transaction, a [u8]. *)
Abbreviation TransactionIndex := nat.
Record Output (Address : Type) := mkOutput { out_address : Address; out_value : Value }.
Arguments mkOutput {Address} out_address out_value.
Arguments out_address {Address} o.
Arguments out_value {Address} o.

Record UtxoPointer (FragmentId : Type) := mkUtxoPointer {
  transaction_id : FragmentId; output_index : TransactionIndex; utxo_value : Value }.
Arguments mkUtxoPointer {FragmentId} transaction_id output_index utxo_value.
Arguments transaction_id {FragmentId} u.
Arguments output_index {FragmentId} u.
Arguments utxo_value {FragmentId} u.

Section utxo.
Context {FragmentId OutAddress : Type} `{Countable FragmentId}.

Abbreviation TransactionUnspents := (FastSparseArray (Output OutAddress)).
Abbreviation UtxoLedger := (gmap FragmentId TransactionUnspents).
Implicit Types (l : UtxoLedger) (tid : FragmentId) (index : TransactionIndex).

(** The four [From] conversions of the HAMT's errors. *)
Definition utxo_of_insert (e : InsertError) : UtxoError := UAlreadyExists.
Definition utxo_of_replace (e : ReplaceError) : UtxoError := TransactionNotFound.
Definition utxo_of_remove (e : RemoveError) : UtxoError := TransactionNotFound.

Definition from_outputs {E} (outs : list (TransactionIndex * Output OutAddress)) :
    outcome E TransactionUnspents :=
  assert_that (length outs <? 255) ;;
  foldM (λ sa io, fsab_set sa io.1 io.2) fsa_new outs.

Definition remove_input (u : TransactionUnspents) index :
    outcome UtxoError (TransactionUnspents * Output OutAddress) :=
  assert_that (index <? 255) ;;
  '(t, r) ← fsa_remove u index;
  match r with
  | None => Err IndexNotFound
  | Some o => Ok (t, o)
  end.

Definition utxo_new : UtxoLedger := ∅.
Definition utxo_get l tid index : outcome infallible (option (Output OutAddress)) :=
  match l !! tid with
  | None => Ok None
  | Some unspent => fsa_get unspent index
  end.
Definition utxo_is_empty l : bool := bool_decide (l = ∅).

Definition utxo_add l tid (outs : list (TransactionIndex * Output OutAddress)) :
    outcome UtxoError UtxoLedger :=
  assert_that (negb (bool_decide (outs = []))) ;;
  assert_that (length outs <? 255) ;;
  b ← from_outputs outs;
  map_err utxo_of_insert (hm_insert l tid b).

(** The end of [remove] and [remove_multiple]: an emptied transaction goes. *)
Definition put_back l tid (treemap : TransactionUnspents) : outcome UtxoError UtxoLedger :=
  if fsa_is_empty treemap then map_err utxo_of_remove (hm_remove l tid)
  else '(l', _) ← map_err utxo_of_replace (hm_replace l tid treemap); Ok l'.

Definition utxo_remove l tid index : outcome UtxoError (UtxoLedger * Output OutAddress) :=
  '(treemap, output) ← match l !! tid with
                       | None => Err TransactionNotFound
                       | Some out => remove_input out index
                       end;
  l' ← put_back l tid treemap;
  Ok (l', output).

Definition remove_multiple_step (st : TransactionUnspents * list (Output OutAddress)) index :
    outcome UtxoError (TransactionUnspents * list (Output OutAddress)) :=
  '(t, o) ← remove_input st.1 index;
  Ok (t, st.2 ++ [o]).
Definition utxo_remove_multiple l tid (indices : list TransactionIndex) :
    outcome UtxoError (UtxoLedger * list (Output OutAddress)) :=
  '(treemap, outputs) ←
    match l !! tid with
    | None => Err TransactionNotFound
    | Some out =>
        foldM remove_multiple_step (out, []) indices
    end;
  l' ← put_back l tid treemap;
  Ok (l', outputs).

Definition utxo_from_iter (iter : list (FragmentId * list (TransactionIndex * Output OutAddress))) :
    outcome infallible UtxoLedger :=
  foldM (λ l x, unwrap (utxo_add l x.1 x.2)) utxo_new iter.

(** [Iter] and [Values]: the entries of the HAMT still to visit and the
    sparse array being visited, one turn of the [loop] at a time. *)
Record UIter := mkUIter {
  hamt_iter : list (FragmentId * TransactionUnspents);
  unspents_iter : option (FragmentId * (TransactionUnspents * BitmapIndex)) }.
Inductive uiter_turn :=
| UDone
| UItem (entry : FragmentId * TransactionIndex * Output OutAddress) (st : UIter)
| UGo (st : UIter).
Definition utxo_iter l : UIter := mkUIter (map_to_list l) None.
Definition utxo_iter_turn (st : UIter) : outcome infallible uiter_turn :=
  match unspents_iter st with
  | None =>
      match hamt_iter st with
      | [] => Ok UDone
      | unspent :: rest =>
          Ok (UGo (mkUIter rest (Some (unspent.1, (unspent.2, fsa_index unspent.2)))))
      end
  | Some (id, (u, bitmap)) =>
      x ← fsa_iter_next u bitmap;
      match x with
      | None => Ok (UGo (mkUIter (hamt_iter st) None))
      | Some ((i, o), bitmap) => Ok (UItem (id, i, o) (mkUIter (hamt_iter st) (Some (id, (u, bitmap)))))
      end
  end.
(** All the items; the fuel bounds the turns, running out is a [Panic]. *)
Fixpoint uiter_collect (fuel : nat) (st : UIter) :
    outcome infallible (list (FragmentId * TransactionIndex * Output OutAddress)) :=
  match fuel with
  | O => Panic
  | S fuel =>
      t ← utxo_iter_turn st;
      match t with
      | UDone => Ok []
      | UItem e st => cons e <$> uiter_collect fuel st
      | UGo st => uiter_collect fuel st
      end
  end.

(** [Values] goes through the same loop and keeps the outputs. *)
Definition utxo_values (fuel : nat) l : outcome infallible (list (Output OutAddress)) :=
  (λ items, items.*2) <$> uiter_collect fuel (utxo_iter l).

(** ** The abstract ledger *)
Abbreviation UtxoMap := (gmap FragmentId (gmap TransactionIndex (Output OutAddress))).
Implicit Types m : UtxoMap.

Definition utxo_repr l m : Prop :=
  ∀ tid, match l !! tid, m !! tid with
         | Some u, Some t => fsa_repr u t ∧ t ≠ ∅
         | None, None => True
         | _, _ => False
         end.
Definition spec_outputs (outs : list (TransactionIndex * Output OutAddress)) :
    gmap TransactionIndex (Output OutAddress) :=
  foldl (λ t io, <[io.1:=io.2]> t) ∅ outs.
Definition spec_put m tid (t : gmap TransactionIndex (Output OutAddress)) : UtxoMap :=
  if decide (t = ∅) then delete tid m else <[tid:=t]> m.

Lemma utxo_repr_new : utxo_repr utxo_new ∅.
Proof. intros tid. unfold utxo_new. by rewrite !lookup_empty. Qed.

Lemma utxo_repr_None l m tid : utxo_repr l m → l !! tid = None ↔ m !! tid = None.
Proof. intros Hr. specialize (Hr tid). by destruct (l !! tid), (m !! tid). Qed.

Lemma utxo_repr_Some l m tid u :
  utxo_repr l m → l !! tid = Some u → ∃ t, m !! tid = Some t ∧ fsa_repr u t ∧ t ≠ ∅.
Proof.
  intros Hr Hl. specialize (Hr tid). rewrite Hl in Hr. destruct (m !! tid); [|done]. by eexists.
Qed.

Lemma utxo_repr_insert l m tid u t :
  utxo_repr l m → fsa_repr u t → t ≠ ∅ → utxo_repr (<[tid:=u]> l) (<[tid:=t]> m).
Proof.
  intros Hr Hu Ht tid'. destruct (decide (tid' = tid)) as [->|Hne].
  - by rewrite !lookup_insert_eq.
  - rewrite !lookup_insert_ne by done. apply Hr.
Qed.

Lemma utxo_repr_delete l m tid : utxo_repr l m → utxo_repr (delete tid l) (delete tid m).
Proof.
  intros Hr tid'. destruct (decide (tid' = tid)) as [->|Hne].
  - by rewrite !lookup_delete_eq.
  - rewrite !lookup_delete_ne by done. apply Hr.
Qed.

(** The builder inserts; the later of two outputs with an index wins. *)
Lemma from_outputs_repr {E} outs :
  length outs < 255 → Forall (λ io, io.1 < 256) outs →
  ∃ u, from_outputs (E := E) outs = Ok u ∧ fsa_repr u (spec_outputs outs).
Proof.
  intros Hlen Hidx. unfold from_outputs. rewrite (proj2 (Nat.ltb_lt _ _)) by done. cbn [assert_that mbind outcome_bind].
  assert (∀ outs u (t : gmap nat (Output OutAddress)), Forall (λ io, io.1 < 256) outs →
    fsa_repr u t →
    ∃ u', foldM (E := E) (λ sa io, fsab_set sa io.1 io.2) u outs = Ok u' ∧
      fsa_repr u' (foldl (λ t io, <[io.1:=io.2]> t) t outs)) as Hgen.
  { clear. intros outs. induction outs as [|io outs IH]; intros u t Hidx Hu; [by exists u|].
    apply Forall_cons in Hidx as [Hi Hidx]. cbn [foldM foldl].
    destruct (fsa_set_spec (E := E) u io.1 io.2 (proj1 Hu) Hi) as (u' & Hset & Hu' & Hc).
    change (fsab_set u io.1 io.2) with (fsa_set (E := E) u io.1 io.2). rewrite Hset.
    cbn [mbind outcome_bind]. apply IH; [done|].
    by apply (fsa_repr_alter u u' t io.1 (Some io.2)). }
  destruct (Hgen outs fsa_new ∅ Hidx fsa_repr_new) as (u & Hu & Hr). by exists u.
Qed.

Lemma remove_input_repr u t index :
  fsa_repr u t → index < 255 →
  match t !! index with
  | None => remove_input u index = Err IndexNotFound
  | Some o => ∃ u', remove_input u index = Ok (u', o) ∧ fsa_repr u' (delete index t)
  end.
Proof.
  intros Hu Hi. unfold remove_input. rewrite (proj2 (Nat.ltb_lt _ _)) by done.
  cbn [assert_that mbind outcome_bind].
  destruct (fsa_remove_spec (E := UtxoError) u index (proj1 Hu) ltac:(lia)) as (u' & Hrem & Hu' & Hc).
  rewrite Hrem. cbn [mbind outcome_bind]. rewrite <-(fsa_repr_lookup u t) by (done || lia).
  destruct (t !! index); [|done]. exists u'. split; [done|].
  apply (fsa_repr_alter u u' t index None); [done|done|lia|done].
Qed.

Lemma fsa_empty_repr (u : TransactionUnspents) t : fsa_repr u t → fsa_is_empty u = bool_decide (t = ∅).
Proof.
  intros Hu. destruct (fast_sparse_array_empty u t Hu) as [H1 H2].
  case_bool_decide; [by apply H2|]. apply not_true_is_false. naive_solver.
Qed.

Lemma put_back_repr l m tid u t u0 :
  utxo_repr l m → l !! tid = Some u0 → fsa_repr u t →
  ∃ l', put_back l tid u = Ok l' ∧ utxo_repr l' (spec_put m tid t).
Proof.
  intros Hr Hl Hu. unfold put_back, spec_put. rewrite (fsa_empty_repr u t) by done.
  unfold hm_remove, hm_replace. rewrite Hl. case_bool_decide; case_decide; try done.
  - eexists. split; [done|]. by apply utxo_repr_delete.
  - eexists. split; [done|]. by apply utxo_repr_insert.
Qed.

Lemma spec_outputs_nonempty outs : outs ≠ [] → spec_outputs outs ≠ ∅.
Proof.
  destruct outs as [|io outs] using rev_ind; [done|]. intros _. unfold spec_outputs.
  rewrite foldl_app. cbn. apply insert_non_empty.
Qed.

Lemma utxo_add_repr l m tid outs :
  utxo_repr l m → outs ≠ [] → length outs < 255 → Forall (λ io, io.1 < 256) outs →
  match m !! tid with
  | Some _ => utxo_add l tid outs = Err UAlreadyExists
  | None => ∃ l', utxo_add l tid outs = Ok l' ∧ utxo_repr l' (<[tid:=spec_outputs outs]> m)
  end.
Proof.
  intros Hr Hne Hlen Hidx. unfold utxo_add. rewrite bool_decide_false by done.
  rewrite (proj2 (Nat.ltb_lt _ _)) by done. cbn [negb assert_that mbind outcome_bind].
  destruct (from_outputs_repr (E := UtxoError) outs Hlen Hidx) as (u & Hu & Hrep). rewrite Hu.
  cbn [mbind outcome_bind]. unfold hm_insert. specialize (Hr tid) as Htid.
  destruct (l !! tid), (m !! tid); try done. eexists. split; [done|].
  apply utxo_repr_insert; [done|done|by apply spec_outputs_nonempty].
Qed.

Lemma utxo_remove_repr l m tid index :
  utxo_repr l m → index < 255 →
  match m !! tid with
  | None => utxo_remove l tid index = Err TransactionNotFound
  | Some t => match t !! index with
              | None => utxo_remove l tid index = Err IndexNotFound
              | Some o => ∃ l', utxo_remove l tid index = Ok (l', o) ∧
                            utxo_repr l' (spec_put m tid (delete index t))
              end
  end.
Proof.
  intros Hr Hi. unfold utxo_remove. destruct (l !! tid) as [u|] eqn:Hl.
  2:{ by rewrite (proj1 (utxo_repr_None l m tid Hr) Hl). }
  destruct (utxo_repr_Some l m tid u Hr Hl) as (t & Hm & Hu & _). rewrite Hm.
  pose proof (remove_input_repr u t index Hu Hi) as Hrem. destruct (t !! index) as [o|].
  - destruct Hrem as (u' & -> & Hu'). cbn [mbind outcome_bind].
    destruct (put_back_repr l m tid u' (delete index t) u Hr Hl Hu') as (l' & -> & Hr').
    by exists l'.
  - by rewrite Hrem.
Qed.

(** C9. The UTXO ledger refines a map from transactions to non-empty maps of
    outputs: [get], [add] and [remove] never panic on indices below 255 and
    give the map's lookup, insertion of a fresh transaction, and deletion of
    one output, with the error for a transaction or an index that is not
    there; the transaction disappears with its last output. *)
Theorem utxo_refines l m tid index outs :
  utxo_repr l m → index < 255 →
  outs ≠ [] → length outs < 255 → Forall (λ io, io.1 < 256) outs →
  utxo_get l tid index = Ok (m !! tid ≫= (!!) index) ∧
  match m !! tid with
  | Some _ => utxo_add l tid outs = Err UAlreadyExists
  | None => ∃ l', utxo_add l tid outs = Ok l' ∧ utxo_repr l' (<[tid:=spec_outputs outs]> m)
  end ∧
  match m !! tid with
  | None => utxo_remove l tid index = Err TransactionNotFound
  | Some t => match t !! index with
              | None => utxo_remove l tid index = Err IndexNotFound
              | Some o => ∃ l', utxo_remove l tid index = Ok (l', o) ∧
                            utxo_repr l' (spec_put m tid (delete index t))
              end
  end.
Proof.
  intros Hr Hi Hne Hlen Hidx. split; [|split].
  - unfold utxo_get. destruct (l !! tid) as [u|] eqn:Hl.
    + destruct (utxo_repr_Some l m tid u Hr Hl) as (t & -> & Hu & _). cbn.
      rewrite fsa_get_ok by (apply Hu || lia). by rewrite (fsa_repr_lookup u t) by (done || lia).
    + by rewrite (proj1 (utxo_repr_None l m tid Hr) Hl).
  - by apply utxo_add_repr.
  - by apply utxo_remove_repr.
Qed.

Lemma spec_put_lookup m tid t tid' index :
  spec_put m tid t !! tid' ≫= (!!) index =
    if decide (tid' = tid) then t !! index else m !! tid' ≫= (!!) index.
Proof.
  unfold spec_put. case_decide as Ht; case_decide as Hid; subst.
  - by rewrite lookup_delete_eq, lookup_empty.
  - by rewrite lookup_delete_ne.
  - by rewrite lookup_insert_eq.
  - by rewrite lookup_insert_ne.
Qed.

Lemma utxo_get_repr l m tid index :
  utxo_repr l m → index < 256 → utxo_get l tid index = Ok (m !! tid ≫= (!!) index).
Proof.
  intros Hr Hi. unfold utxo_get. destruct (l !! tid) as [u|] eqn:Hl.
  - destruct (utxo_repr_Some l m tid u Hr Hl) as (t & -> & Hu & _). cbn.
    rewrite fsa_get_ok by (done || apply Hu). by rewrite (fsa_repr_lookup u t).
  - by rewrite (proj1 (utxo_repr_None l m tid Hr) Hl).
Qed.

(** An output is spent at most once: after a successful removal the
    output is gone, removing it again fails, and every other output is still
    there. *)
Theorem utxo_no_double_spend l m tid index l' o :
  utxo_repr l m → index < 255 → utxo_remove l tid index = Ok (l', o) →
  utxo_get l tid index = Ok (Some o) ∧ utxo_get l' tid index = Ok None ∧
  (utxo_remove l' tid index = Err TransactionNotFound ∨
   utxo_remove l' tid index = Err IndexNotFound) ∧
  (∀ tid' index', index' < 256 → (tid', index') ≠ (tid, index) →
    utxo_get l' tid' index' = utxo_get l tid' index').
Proof.
  intros Hr Hi Hrem. pose proof (utxo_remove_repr l m tid index Hr Hi) as Hspec.
  destruct (m !! tid) as [t|] eqn:Hm; [|congruence].
  destruct (t !! index) as [o'|] eqn:Ho; [|congruence].
  destruct Hspec as (l1 & Hl1 & Hr'). rewrite Hrem in Hl1. injection Hl1 as <- <-.
  split; [|split; [|split]].
  - rewrite (utxo_get_repr l m) by (done || lia). rewrite Hm. cbn. by rewrite Ho.
  - rewrite (utxo_get_repr l' _ tid index Hr') by lia. rewrite spec_put_lookup, decide_True by done.
    by rewrite lookup_delete_eq.
  - pose proof (utxo_remove_repr l' _ tid index Hr' Hi) as Hagain. revert Hagain.
    unfold spec_put. case_decide.
    + rewrite lookup_delete_eq. by left.
    + rewrite lookup_insert_eq, lookup_delete_eq. by right.
  - intros tid' index' Hi' Hne.
    rewrite (utxo_get_repr l' _ tid' index' Hr'), (utxo_get_repr l m tid') by done.
    rewrite spec_put_lookup. case_decide as Hid; [|done]. subst. rewrite Hm. cbn.
    rewrite lookup_delete_ne; [done|]. congruence.
Qed.

(** [remove_multiple] spends the indices in order. *)
Lemma remove_inputs_repr (indices : list nat) (u : TransactionUnspents) t os :
  fsa_repr u t → Forall (λ i, i < 255) indices →
  let run := foldM remove_multiple_step (u, os) indices in
  (NoDup indices ∧ ∃ os', Forall2 (λ i o, t !! i = Some o) indices os' ∧
     ∃ u', run = Ok (u', os ++ os') ∧ fsa_repr u' (foldr delete t indices)) ∨
  (¬ (NoDup indices ∧ Forall (λ i, is_Some (t !! i)) indices) ∧ run = Err IndexNotFound).
Proof.
  intros Hu Hidx. revert u t os Hu. induction Hidx as [|i indices Hi Hidx IH]; intros u t os Hu run.
  { left. split; [constructor|]. exists []. split; [constructor|]. exists u.
    by rewrite app_nil_r. }
  pose proof (remove_input_repr u t i Hu Hi) as Hrem. unfold run. cbn [foldM].
  assert (remove_multiple_step (u, os) i = ('(t, o) ← remove_input u i; Ok (t, os ++ [o]))) as ->
    by done.
  destruct (t !! i) as [o|] eqn:Ho.
  2:{ right. rewrite Hrem. split; [|done]. intros [_ Hall%Forall_inv]. rewrite Ho in Hall.
      by destruct Hall. }
  destruct Hrem as (u1 & -> & Hu1). cbn [mbind outcome_bind].
  destruct (IH u1 (delete i t) (os ++ [o]) Hu1) as [(Hnd & os' & Hos & u' & Hrun & Hu')|[Hno Hrun]].
  - destruct (decide (i ∈ indices)) as [Hin|Hnin].
    { exfalso. apply list_elem_of_lookup in Hin as [k Hk].
      destruct (Forall2_lookup_l _ _ _ _ _ Hos Hk) as (o' & _ & Ho').
      by rewrite lookup_delete_eq in Ho'. }
    left. split; [by constructor|]. exists (o :: os'). split.
    + constructor; [done|]. eapply Forall2_impl; [done|]. cbn. intros j o' Hj.
      by apply lookup_delete_Some in Hj as [_ ?].
    + exists u'. split; [etransitivity; [exact Hrun|]; by rewrite <-app_assoc|]. cbn [foldr].
      assert (foldr delete (delete i t) indices = delete i (foldr delete t indices)) as <-; [|done].
      clear. induction indices as [|j indices IH]; [done|]. cbn. by rewrite IH, delete_delete.
  - right. split; [|done]. intros [Hnd%NoDup_cons Hall%Forall_cons].
    apply Hno. split; [by apply Hnd|]. destruct Hall as [_ Hall].
    rewrite Forall_forall in Hall |- *. intros j Hj. rewrite lookup_delete_ne; [by apply Hall|].
    intros ->. by apply Hnd.
Qed.

(** [remove_multiple] spends all the given outputs of a transaction or
    none: it succeeds exactly when the indices are distinct and all present,
    returns their outputs in order, and deletes exactly them. *)
Theorem utxo_remove_multiple_all l m tid t indices :
  utxo_repr l m → m !! tid = Some t → Forall (λ i, i < 255) indices →
  if decide (NoDup indices ∧ Forall (λ i, is_Some (t !! i)) indices)
  then ∃ l' os, utxo_remove_multiple l tid indices = Ok (l', os) ∧
         Forall2 (λ i o, t !! i = Some o) indices os ∧
         utxo_repr l' (spec_put m tid (foldr delete t indices))
  else utxo_remove_multiple l tid indices = Err IndexNotFound.
Proof.
  intros Hr Hm Hidx. unfold utxo_remove_multiple. destruct (l !! tid) as [u|] eqn:Hl.
  2:{ rewrite (proj1 (utxo_repr_None l m tid Hr) Hl) in Hm. done. }
  destruct (utxo_repr_Some l m tid u Hr Hl) as (t' & Hm' & Hu & _).
  rewrite Hm in Hm'. injection Hm' as <-.
  destruct (remove_inputs_repr indices u t [] Hu Hidx)
    as [(Hnd & os & Hos & u' & Hrun & Hu')|[Hno Hrun]]; cbv zeta in Hrun; rewrite Hrun.
  - cbn [mbind outcome_bind app]. rewrite decide_True.
    2:{ split; [done|]. eapply Forall2_Forall_l; [done|]. apply Forall_true. by eexists. }
    destruct (put_back_repr l m tid u' _ u Hr Hl Hu') as (l' & -> & Hr'). by exists l', os.
  - by rewrite decide_False.
Qed.

(** ** Iteration *)
Definition tag (tid : FragmentId) (io : TransactionIndex * Output OutAddress) :
    FragmentId * TransactionIndex * Output OutAddress := (tid, io.1, io.2).
Definition utxo_entries (es : list (FragmentId * TransactionUnspents)) :
    list (FragmentId * TransactionIndex * Output OutAddress) :=
  concat ((λ e, tag e.1 <$> fsa_entries (fsa_cell e.2) 256) <$> es).

(** Visiting one sparse array: its iterator returns the items it collects,
    then [None]. *)
Lemma uiter_drain id (u : TransactionUnspents) fuel n b items rest :
  fsa_collect (E := infallible) fuel u b = Ok items →
  uiter_collect (n + S (length items)) (mkUIter rest (Some (id, (u, b)))) =
    app (tag id <$> items) <$> uiter_collect n (mkUIter rest None).
Proof.
  revert b items. induction fuel as [|fuel IH]; intros b items; [done|].
  cbn [fsa_collect]. intros (x & Hx & Hrest)%bind_Ok.
  rewrite Nat.add_succ_r. cbn [uiter_collect]. unfold utxo_iter_turn. cbn [unspents_iter].
  rewrite Hx. cbn [mbind outcome_bind]. destruct x as [[[i o] b']|].
  - destruct (fsa_collect fuel u b') as [items'|e|] eqn:Hc; cbn in Hrest; [|done..].
    injection Hrest as <-. cbn [length hamt_iter mbind outcome_bind]. rewrite (IH b' items' Hc).
    by destruct (uiter_collect n _).
  - injection Hrest as <-. cbn [hamt_iter length fmap list_fmap app mbind outcome_bind]. rewrite Nat.add_0_r.
    by destruct (uiter_collect n _).
Qed.

Lemma uiter_collect_ok es :
  Forall (λ e, fsa_ok e.2) es →
  ∀ n, uiter_collect (n + S (2 * length es + length (utxo_entries es))) (mkUIter es None) =
    Ok (utxo_entries es).
Proof.
  induction es as [|[id u] es IH]; intros Hes n.
  { rewrite Nat.add_succ_r. done. }
  apply Forall_cons in Hes as [Hu Hes]. cbn in Hu.
  pose proof (fsa_items_ok (E := infallible) u Hu) as Hitems. unfold fsa_items in Hitems.
  unfold utxo_entries. cbn [fmap list_fmap concat fst snd]. fold (utxo_entries es).
  rewrite length_app, length_fmap.
  set (k := fsa_entries (fsa_cell u) 256) in *. cbn [length].
  replace (n + S (2 * S (length es) + (length k + length (utxo_entries es))))
    with (S ((n + S (2 * length es + length (utxo_entries es))) + S (length k))) by lia.
  cbn [uiter_collect]. unfold utxo_iter_turn at 1. cbn [unspents_iter hamt_iter].
  cbn [mbind outcome_bind fst snd]. rewrite (uiter_drain id u 257 _ _ k _ Hitems).
  by rewrite IH.
Qed.

Lemma fsa_entries_elem (c : nat → option (Output OutAddress)) n i o :
  (i, o) ∈ fsa_entries c n ↔ i < n ∧ c i = Some o.
Proof.
  unfold fsa_entries. rewrite list_elem_of_omap. split.
  - intros (j & Hj%elem_of_seq & Hc). destruct (c j) eqn:Hcj; [|done].
    injection Hc as <- <-. split; [lia|done].
  - intros [Hi Hc]. exists i. split; [apply elem_of_seq; lia|]. by rewrite Hc.
Qed.

Lemma fsa_entries_NoDup (c : nat → option (Output OutAddress)) n : NoDup (fsa_entries c n).*1.
Proof.
  induction n as [|n IH]; [constructor|]. unfold fsa_entries in *. rewrite seq_S, omap_app, fmap_app.
  apply NoDup_app. split; [done|]. split.
  - intros i ([j o] & -> & Hin)%list_elem_of_fmap. apply fsa_entries_elem in Hin as [Hj _].
    cbn. destruct (c n); cbn; [|apply not_elem_of_nil].
    rewrite list_elem_of_singleton. cbn in Hj. lia.
  - cbn. destruct (c n); cbn; [apply NoDup_singleton|constructor].
Qed.

Lemma utxo_entries_elem es tid index o :
  (tid, index, o) ∈ utxo_entries es ↔
  ∃ u, (tid, u) ∈ es ∧ index < 256 ∧ fsa_cell u index = Some o.
Proof.
  unfold utxo_entries. rewrite elem_of_concat. split.
  - intros (es' & Hin & ([tid' u] & -> & Hu)%list_elem_of_fmap). cbn in Hin.
    apply list_elem_of_fmap in Hin as ([i o'] & [= -> -> ->] & [Hi Hc]%fsa_entries_elem).
    by exists u.
  - intros (u & Hu & Hi & Hc). exists (tag tid <$> fsa_entries (fsa_cell u) 256). split.
    + apply list_elem_of_fmap. exists (index, o). split; [done|]. by apply fsa_entries_elem.
    + apply list_elem_of_fmap. by exists (tid, u).
Qed.

Lemma utxo_entries_NoDup es : NoDup es.*1 → NoDup (utxo_entries es).*1.
Proof.
  induction es as [|[tid u] es IH]; intros Hnd; [constructor|].
  apply NoDup_cons in Hnd as [Hnin Hnd]. unfold utxo_entries. cbn [fmap list_fmap concat fst snd].
  rewrite fmap_app. apply NoDup_app. split; [|split].
  - assert ((tag tid <$> fsa_entries (fsa_cell u) 256).*1 =
      pair tid <$> (fsa_entries (fsa_cell u) 256).*1) as ->.
    { by rewrite <-!list_fmap_compose. }
    apply NoDup_fmap_2; [|apply fsa_entries_NoDup]. by intros ?? [= ->].
  - intros [tid' i] Hin1 Hin2.
    apply list_elem_of_fmap in Hin1 as ([[t1 i1] o1] & [= -> ->] & Hin1).
    apply list_elem_of_fmap in Hin1 as ([i2 o2] & [= -> -> ->] & _).
    apply list_elem_of_fmap in Hin2 as ([[t2 i3] o3] & [= <- <-] & Hin2).
    apply utxo_entries_elem in Hin2 as (u' & Hu' & _). apply Hnin.
    apply list_elem_of_fmap. by exists (tid, u').
  - by apply IH.
Qed.

(** The iterator over the UTXOs terminates and returns every output of
    every transaction exactly once, with its transaction and index, whatever
    the HAMT's order: with enough fuel for its turns it collects a list that
    holds an entry just when [get] finds it. *)
Theorem utxo_iter_enumerates l m :
  utxo_repr l m →
  ∃ fuel items, (∀ n, uiter_collect (n + fuel) (utxo_iter l) = Ok items) ∧
    NoDup items.*1 ∧
    ∀ tid index o, (tid, index, o) ∈ items ↔
      index < 256 ∧ utxo_get l tid index = Ok (Some o).
Proof.
  intros Hr. set (es := map_to_list l).
  assert (∀ tid u, (tid, u) ∈ es → l !! tid = Some u ∧ fsa_ok u) as Hes.
  { intros tid u Hin%elem_of_map_to_list.
    by destruct (utxo_repr_Some l m tid u Hr Hin) as (t & _ & [? _] & _). }
  exists (S (2 * length es + length (utxo_entries es))), (utxo_entries es). split; [|split].
  - intros n. apply uiter_collect_ok, Forall_forall. intros [tid u] Hin. by apply (Hes tid u).
  - apply utxo_entries_NoDup, NoDup_fst_map_to_list.
  - intros tid index o. rewrite utxo_entries_elem. unfold utxo_get. split.
    + intros (u & Hu & Hi & Hc). destruct (Hes tid u Hu) as [-> Hok]. split; [done|].
      by rewrite fsa_get_ok, Hc.
    + intros [Hi Hg]. destruct (l !! tid) as [u|] eqn:Hl; [|done].
      apply elem_of_map_to_list in Hl. exists u. split; [done|]. split; [done|].
      destruct (Hes tid u Hl) as [_ Hok]. rewrite fsa_get_ok in Hg by done. by apply Ok_inj in Hg.
Qed.

(** [values] terminates with the outputs of the ledger: any measure sums over
    them as over the abstract map. *)
Lemma fsa_entries_perm (u : TransactionUnspents) t :
  fsa_repr u t → fsa_entries (fsa_cell u) 256 ≡ₚ map_to_list t.
Proof.
  intros Hr. apply NoDup_Permutation.
  - eapply NoDup_fmap_1, fsa_entries_NoDup.
  - apply NoDup_map_to_list.
  - intros [i o]. rewrite fsa_entries_elem, elem_of_map_to_list. split.
    + intros [Hi <-]. by apply fsa_repr_lookup.
    + intros Ht. destruct (decide (i < 256)) as [Hi|Hi].
      * split; [done|]. by rewrite <-(fsa_repr_lookup u t).
      * destruct Hr as [_ Hm]. by rewrite Hm, decide_False in Ht.
Qed.

Lemma utxo_values_ok l m :
  utxo_repr l m →
  ∃ fuel outs, (∀ n, utxo_values (n + fuel) l = Ok outs) ∧
    (∀ g, Zsum (g <$> outs) = map_sum (map_sum g) m) ∧
    ∀ o, o ∈ outs → ∃ tid t i, m !! tid = Some t ∧ t !! i = Some o.
Proof.
  intros Hr. set (es := map_to_list l).
  assert (Forall (λ e, fsa_ok e.2) es) as Hes.
  { apply Forall_forall. intros [tid u] Hin%elem_of_map_to_list.
    by destruct (utxo_repr_Some l m tid u Hr Hin) as (t & _ & [? _] & _). }
  exists (S (2 * length es + length (utxo_entries es))), (utxo_entries es).*2. split; [|split].
  - intros n. unfold utxo_values, utxo_iter. fold es. by rewrite uiter_collect_ok.
  - intros g. transitivity (map_sum (λ u, Zsum (g <$> (fsa_entries (fsa_cell u) 256).*2)) l).
    + unfold map_sum. fold es. clear Hes. unfold utxo_entries.
      induction es as [|[tid u] es' IH]; [done|]. cbn [fmap list_fmap concat fst snd Zsum].
      rewrite !fmap_app, Zsum_app, IH. f_equal. by rewrite <-!list_fmap_compose.
    + apply map_sum_ext. intros tid. pose proof (Hr tid) as Ht.
      destruct (l !! tid) as [u|], (m !! tid) as [t|]; try done. destruct Ht as [Ht _].
      unfold map_sum. apply Zsum_perm. by rewrite (fsa_entries_perm u t).
  - intros o ([[tid i] o'] & -> & Hin)%list_elem_of_fmap.
    apply utxo_entries_elem in Hin as (u & Hu%elem_of_map_to_list & Hi & Hc).
    destruct (utxo_repr_Some l m tid u Hr Hu) as (t & Hm & Ht & _).
    exists tid, t, i. split; [done|]. by rewrite (fsa_repr_lookup u t).
Qed.

(** ** The value of the ledger *)
Definition outputs_total (t : gmap TransactionIndex (Output OutAddress)) : Z := map_sum out_value t.
Definition utxo_total m : Z := map_sum outputs_total m.

Lemma spec_put_total m tid t0 t :
  m !! tid = Some t0 →
  utxo_total (spec_put m tid t) = (utxo_total m - outputs_total t0 + outputs_total t)%Z.
Proof.
  intros Hm. unfold spec_put, utxo_total. case_decide as Ht.
  - subst. rewrite (map_sum_delete _ m tid t0) by done.
    assert (outputs_total ∅ = 0%Z) as -> by apply map_sum_empty. lia.
  - by rewrite (map_sum_insert _ m tid t0).
Qed.

Lemma spec_outputs_total outs :
  NoDup outs.*1 → outputs_total (spec_outputs outs) = Zsum (out_value ∘ snd <$> outs).
Proof.
  induction outs as [|io outs IH] using rev_ind; intros Hnd.
  - apply map_sum_empty.
  - rewrite fmap_app in Hnd. apply NoDup_app in Hnd as (Hnd & Hnin & _).
    unfold spec_outputs. rewrite foldl_app. cbn [foldl]. fold (spec_outputs outs).
    unfold outputs_total. rewrite map_sum_insert_new.
    + fold (outputs_total (spec_outputs outs)). rewrite IH by done.
      rewrite fmap_app, Zsum_app. cbn. lia.
    + assert (∀ i, spec_outputs outs !! i ≠ None → i ∈ outs.*1) as Hin.
      { clear. induction outs as [|jo outs IH] using rev_ind; intros i; [done|].
        unfold spec_outputs. rewrite foldl_app. cbn [foldl]. fold (spec_outputs outs).
        rewrite fmap_app, elem_of_app. destruct (decide (i = jo.1)) as [->|Hne].
        - right. cbn. by left.
        - rewrite lookup_insert_ne by done. intros Hi. left. by apply IH. }
      destruct (spec_outputs outs !! io.1) eqn:Ho; [|done]. exfalso.
      apply (Hnin io.1); [apply Hin; by rewrite Ho|]. cbn. by left.
Qed.

(** Value moves in and out of the UTXO ledger exactly with the outputs:
    adding a transaction with distinct indices adds the sum of its outputs,
    spending one removes its value. *)
Theorem utxo_value_conservation l m tid :
  utxo_repr l m →
  (∀ outs l', outs ≠ [] → length outs < 255 → Forall (λ io, io.1 < 256) outs → NoDup outs.*1 →
    utxo_add l tid outs = Ok l' →
    ∃ m', utxo_repr l' m' ∧ utxo_total m' = (utxo_total m + Zsum (out_value ∘ snd <$> outs))%Z) ∧
  (∀ index l' o, index < 255 → utxo_remove l tid index = Ok (l', o) →
    ∃ m', utxo_repr l' m' ∧ utxo_total m' = (utxo_total m - out_value o)%Z).
Proof.
  intros Hr. split.
  - intros outs l' Hne Hlen Hidx Hnd Hadd.
    pose proof (utxo_add_repr l m tid outs Hr Hne Hlen Hidx) as Hspec.
    destruct (m !! tid) as [t|] eqn:Hm; [congruence|]. destruct Hspec as (l1 & Hl1 & Hr1).
    rewrite Hadd in Hl1. apply Ok_inj in Hl1 as <-. eexists. split; [done|].
    unfold utxo_total. rewrite map_sum_insert_new, spec_outputs_total by done. lia.
  - intros index l' o Hi Hrem. pose proof (utxo_remove_repr l m tid index Hr Hi) as Hspec.
    destruct (m !! tid) as [t|] eqn:Hm; [|congruence].
    destruct (t !! index) as [o'|] eqn:Ho; [|congruence]. destruct Hspec as (l1 & Hl1 & Hr1).
    rewrite Hrem in Hl1. injection Hl1 as <- <-. eexists. split; [done|].
    rewrite (spec_put_total m tid t) by done. unfold outputs_total.
    rewrite (map_sum_delete out_value t index o) by done. lia.
Qed.
End utxo.

(** ** A concrete ledger *)
Definition demo_outs : list (nat * Output nat) := [(0, mkOutput 1 10%Z); (3, mkOutput 2 20%Z)].
Definition demo_fsa_outs : FastSparseArray (Output nat) :=
  mkFsa (mkBix 9 0) (mkSa (mkBix 9 0) [mkOutput 1 10%Z; mkOutput 2 20%Z]).
Definition demo_utxo : gmap nat (FastSparseArray (Output nat)) := <[5:=demo_fsa_outs]> ∅.
Definition demo_utxo_map : gmap nat (gmap nat (Output nat)) := <[5:=spec_outputs demo_outs]> ∅.

Lemma demo_utxo_repr : utxo_repr demo_utxo demo_utxo_map.
Proof.
  apply utxo_repr_insert; [apply utxo_repr_new| |by apply spec_outputs_nonempty].
  destruct (from_outputs_repr (E := infallible) demo_outs) as (u & Hu & Hr);
    [cbn; lia|repeat constructor; cbn; lia|].
  vm_compute in Hu. apply Ok_inj in Hu as <-. exact Hr.
Qed.

Lemma demo_outs_ok :
  demo_outs ≠ [] ∧ length demo_outs < 255 ∧ Forall (λ io, io.1 < 256) demo_outs ∧ NoDup demo_outs.*1.
Proof.
  split; [discriminate|]. split; [cbn; lia|]. split; [repeat constructor; cbn; lia|].
  cbn. apply (bool_decide_unpack _). vm_compute. exact I.
Qed.

Lemma utxo_refines_witness :
  utxo_get demo_utxo 5 3 = Ok (Some (mkOutput 2 20%Z)) ∧
  utxo_add demo_utxo 5 demo_outs = Err UAlreadyExists.
Proof.
  destruct demo_outs_ok as (H1 & H2 & H3 & _).
  destruct (utxo_refines demo_utxo demo_utxo_map 5 3 demo_outs demo_utxo_repr ltac:(lia) H1 H2 H3)
    as (Hg & Ha & _).
  split; [rewrite Hg; reflexivity|exact Ha].
Defined.

Lemma utxo_no_double_spend_witness :
  ∃ l', utxo_remove demo_utxo 5 3 = Ok (l', mkOutput 2 20%Z) ∧ utxo_get l' 5 3 = Ok None.
Proof.
  destruct (utxo_remove demo_utxo 5 3) as [[l' o]|e|] eqn:Hrem; [|discriminate Hrem..].
  exists l'. destruct (utxo_no_double_spend demo_utxo demo_utxo_map 5 3 l' o demo_utxo_repr
    ltac:(lia) Hrem) as (Hg & Hn & _).
  split; [|exact Hn]. vm_compute in Hg. injection Hg as <-. reflexivity.
Defined.

Lemma utxo_remove_multiple_all_witness :
  ∃ l', utxo_remove_multiple demo_utxo 5 [3; 0] = Ok (l', [mkOutput 2 20%Z; mkOutput 1 10%Z]) ∧
    utxo_repr l' (spec_put demo_utxo_map 5 ∅).
Proof.
  pose proof (utxo_remove_multiple_all demo_utxo demo_utxo_map 5 (spec_outputs demo_outs) [3; 0]
    demo_utxo_repr eq_refl ltac:(repeat constructor; lia)) as H.
  rewrite decide_True in H.
  2:{ split; [apply (bool_decide_unpack _); vm_compute; exact I|].
      repeat constructor; eexists; reflexivity. }
  destruct H as (l' & os & H1 & H2 & H3). exists l'.
  apply Forall2_cons_inv_l in H2 as (o1 & os1 & Ho1 & H2 & ->).
  apply Forall2_cons_inv_l in H2 as (o2 & os2 & Ho2 & H2 & ->).
  apply Forall2_nil_inv_l in H2 as ->. vm_compute in Ho1, Ho2. injection Ho1 as <-. injection Ho2 as <-.
  split; [exact H1|].
  assert (foldr delete (spec_outputs demo_outs) [3; 0] = ∅) as He by reflexivity.
  rewrite He in H3. exact H3.
Defined.

Lemma utxo_iter_enumerates_witness :
  ∃ fuel items, uiter_collect fuel (utxo_iter demo_utxo) = Ok items ∧ (5, 3, mkOutput 2 20%Z) ∈ items.
Proof.
  destruct (utxo_iter_enumerates demo_utxo demo_utxo_map demo_utxo_repr)
    as (fuel & items & H1 & _ & H2).
  exists fuel, items. split; [exact (H1 0)|]. apply H2. split; [lia|]. reflexivity.
Defined.

Lemma utxo_value_conservation_witness :
  ∃ l' m', utxo_add demo_utxo 6 demo_outs = Ok l' ∧ utxo_repr l' m' ∧ utxo_total m' = 60%Z.
Proof.
  destruct demo_outs_ok as (H1 & H2 & H3 & H4).
  destruct (utxo_value_conservation demo_utxo demo_utxo_map 6 demo_utxo_repr) as [Hadd _].
  destruct (utxo_add demo_utxo 6 demo_outs) as [l'|e|] eqn:Ha; [|discriminate Ha..].
  destruct (Hadd demo_outs l' H1 H2 H3 H4 Ha) as (m' & Hr & Ht).
  exists l', m'. split; [reflexivity|]. split; [exact Hr|]. rewrite Ht. vm_compute. reflexivity.
Defined.
