(* ===== verification/Addr.v ===== *)
(** * Addresses ([chain-addr/src/lib.rs])

    The binary form of the five kinds of address: [from_bytes], [read] and
    [deserialize] against [serialize].  An Ed25519 public key is 32 bytes that
    [PublicKey::from_binary] only checks for their number
    ([chain-crypto/src/algorithms/ed25519.rs]).  Bech32 is a library: the
    readable form is modelled over its functions. *)
From S2P Require Import Prelude Codec.
Local Open Scope Z_scope.

Inductive Discrimination := Production | Test_.
Abbreviation PublicKey := (list Z).
Inductive Kind :=
| Single (spend : PublicKey) | Group (spend group : PublicKey) | Account (stake_key : PublicKey)
| Multisig (hash : list Z) | Script (hash : list Z).
Inductive KindType := KSingle | KGroup | KAccount | KMultisig | KScript.
#[export] Instance KindType_eq_dec : EqDecision KindType.
Proof. solve_decision. Defined.
Record Address := mkAddress { discrimination : Discrimination; kind : Kind }.

Definition ADDR_SIZE_SINGLE : nat := 33.
Definition ADDR_SIZE_GROUP : nat := 65.
Definition ADDR_SIZE_ACCOUNT : nat := 33.
Definition ADDR_SIZE_MULTISIG : nat := 33.
Definition ADDR_SIZE_SCRIPT : nat := 33.
Definition ADDR_KIND_LOW_SENTINEL : Z := 2.
Definition ADDR_KIND_SINGLE : Z := 3.
Definition ADDR_KIND_GROUP : Z := 4.
Definition ADDR_KIND_ACCOUNT : Z := 5.
Definition ADDR_KIND_MULTISIG : Z := 6.
Definition ADDR_KIND_SCRIPT : Z := 7.
Definition ADDR_KIND_SENTINEL : Z := 8.

Definition kind_to_value (k : KindType) : Z :=
  match k with
  | KSingle => ADDR_KIND_SINGLE | KGroup => ADDR_KIND_GROUP | KAccount => ADDR_KIND_ACCOUNT
  | KMultisig => ADDR_KIND_MULTISIG | KScript => ADDR_KIND_SCRIPT
  end.

Inductive AddrError :=
| EmptyAddress | InvalidKind | InvalidAddress | InvalidInternalEncoding | InvalidPrefix
| MismatchPrefix.

Definition get_kind_value (first_byte : Z) : Z := Z.land first_byte 127.
Definition get_discrimination_value (first_byte : Z) : Discrimination :=
  if Z.land first_byte 128 =? 0 then Production else Test_.

Inductive SecretKeyError := SkSizeInvalid | SkStructureInvalid.
Inductive PublicKeyError := SizeInvalid | KeyStructureInvalid.
Definition public_from_binary (data : list Z) : outcome PublicKeyError PublicKey :=
  if (length data =? 32)%nat then Ok data else Err SizeInvalid.

(** The length check of one kind. *)
Definition check_size (bytes : list Z) (size : nat) (k : KindType) : outcome AddrError KindType :=
  if negb (length bytes =? size)%nat then Err InvalidAddress else Ok k.
Definition is_valid_data (bytes : list Z) : outcome AddrError (Discrimination * KindType) :=
  match bytes with
  | [] => Err EmptyAddress
  | b0 :: _ =>
      let kind_type := get_kind_value b0 in
      if (kind_type <=? ADDR_KIND_LOW_SENTINEL) || (ADDR_KIND_SENTINEL <=? kind_type)
      then Err InvalidKind
      else
        kty ← if kind_type =? ADDR_KIND_SINGLE then check_size bytes ADDR_SIZE_SINGLE KSingle
              else if kind_type =? ADDR_KIND_GROUP then check_size bytes ADDR_SIZE_GROUP KGroup
              else if kind_type =? ADDR_KIND_ACCOUNT then check_size bytes ADDR_SIZE_ACCOUNT KAccount
              else if kind_type =? ADDR_KIND_MULTISIG then check_size bytes ADDR_SIZE_MULTISIG KMultisig
              else if kind_type =? ADDR_KIND_SCRIPT then check_size bytes ADDR_SIZE_SCRIPT KScript
              else Err InvalidKind;
        Ok (get_discrimination_value b0, kty)
  end.

Definition key_of (data : list Z) : outcome AddrError PublicKey :=
  map_err (λ _, InvalidAddress) (public_from_binary data).
(** [let mut hash = [0u8; 32]; hash.copy_from_slice(&bytes[1..33])]. *)
Definition hash_of {E} (bytes : list Z) : outcome E (list Z) := slice_range bytes 1 33.

Definition from_bytes (bytes : list Z) : outcome AddrError Address :=
  is_valid_data bytes ;;
  b0 ← unwrap_opt (bytes !! 0%nat);
  let discr := get_discrimination_value b0 in
  let k := get_kind_value b0 in
  kind ← if k =? ADDR_KIND_SINGLE then
           s ← slice_range bytes 1 (length bytes); spending ← key_of s; Ok (Single spending)
         else if k =? ADDR_KIND_GROUP then
           s ← slice_range bytes 1 33; spending ← key_of s;
           g ← slice_range bytes 33 (length bytes); group ← key_of g; Ok (Group spending group)
         else if k =? ADDR_KIND_ACCOUNT then
           s ← slice_range bytes 1 (length bytes); stake_key ← key_of s; Ok (Account stake_key)
         else if k =? ADDR_KIND_MULTISIG then h ← hash_of bytes; Ok (Multisig h)
         else if k =? ADDR_KIND_SCRIPT then h ← hash_of bytes; Ok (Script h)
         else Panic;
  Ok (mkAddress discr kind).

Definition to_size (a : Address) : nat :=
  match kind a with
  | Single _ => ADDR_SIZE_SINGLE | Group _ _ => ADDR_SIZE_GROUP | Account _ => ADDR_SIZE_ACCOUNT
  | Multisig _ => ADDR_SIZE_MULTISIG | Script _ => ADDR_SIZE_SCRIPT
  end.
Definition to_kind_type (a : Address) : KindType :=
  match kind a with
  | Single _ => KSingle | Group _ _ => KGroup | Account _ => KAccount
  | Multisig _ => KMultisig | Script _ => KScript
  end.
Definition to_kind_value (a : Address) : Z := kind_to_value (to_kind_type a).
Definition public_key (a : Address) : option PublicKey :=
  match kind a with
  | Single pk => Some pk | Group pk _ => Some pk | Account pk => Some pk
  | Multisig _ => None | Script _ => None
  end.

Definition serialize (a : Address) (codec : list Z) : list Z :=
  let first_byte := match discrimination a with
                    | Production => to_kind_value a
                    | Test_ => Z.lor (to_kind_value a) 128
                    end in
  let codec := codec_put_u8 codec first_byte in
  match kind a with
  | Single spend => codec_put_bytes codec spend
  | Group spend group => codec_put_bytes (codec_put_bytes codec spend) group
  | Account stake_key => codec_put_bytes codec stake_key
  | Multisig hash => codec_put_bytes codec hash
  | Script hash => codec_put_bytes codec hash
  end.
Definition to_bytes (a : Address) : list Z := serialize a [].

(** [property::Deserialize]: the errors of [std::io]. *)
Inductive AddrIoError := Eof (e : IoError) | InvalidData_ (e : PublicKeyError).
Definition codec_key (codec : list Z) : outcome AddrIoError (PublicKey * list Z) :=
  '(bytes, codec) ← map_err Eof (codec_get 32 codec);
  k ← map_err InvalidData_ (public_from_binary bytes);
  Ok (k, codec).
Definition deserialize (codec : list Z) : outcome AddrIoError (Address * list Z) :=
  '(byte, codec) ← map_err Eof (codec_get_u8 codec);
  let discr := get_discrimination_value byte in
  let k := get_kind_value byte in
  '(kind, codec) ←
    if k =? ADDR_KIND_SINGLE then
      '(spending, codec) ← codec_key codec; Ok (Single spending, codec)
    else if k =? ADDR_KIND_GROUP then
      '(spending, codec) ← codec_key codec;
      '(group, codec) ← codec_key codec; Ok (Group spending group, codec)
    else if k =? ADDR_KIND_ACCOUNT then
      '(stake_key, codec) ← codec_key codec; Ok (Account stake_key, codec)
    else if k =? ADDR_KIND_MULTISIG then
      '(bytes, codec) ← map_err Eof (codec_get 32 codec); Ok (Multisig bytes, codec)
    else Panic;
  Ok (mkAddress discr kind, codec).

Definition chain_crypto_err (e : PublicKeyError) : ReadError :=
  match e with
  | SizeInvalid => StructureInvalid "publickey size invalid"
  | KeyStructureInvalid => StructureInvalid "publickey structure invalid"
  end.
Definition read_key : Reader PublicKey :=
  bytes ← read_array 32;
  match public_from_binary bytes with
  | Ok k => mret k
  | Err e => read_fail (chain_crypto_err e)
  | Panic => read_fun (λ _, Panic)
  end.
Definition address_read : Reader Address :=
  byte ← get_u8;
  let discr := get_discrimination_value byte in
  let n := get_kind_value byte in
  kind ← if n =? ADDR_KIND_SINGLE then spending ← read_key; mret (Single spending)
         else if n =? ADDR_KIND_GROUP then
           spending ← read_key; group ← read_key; mret (Group spending group)
         else if n =? ADDR_KIND_ACCOUNT then stake_key ← read_key; mret (Account stake_key)
         else if n =? ADDR_KIND_MULTISIG then bytes ← read_array 32; mret (Multisig bytes)
         else if n =? ADDR_KIND_SCRIPT then bytes ← read_array 32; mret (Script bytes)
         else read_fail (UnknownTag n);
  mret (mkAddress discr kind).

(** ** Round trips *)
Definition kind_bytes (k : Kind) : list Z :=
  match k with
  | Single s => s | Group s g => s ++ g | Account s => s | Multisig h => h | Script h => h
  end.
Definition kind_ok (k : Kind) : Prop :=
  match k with
  | Single s => length s = 32%nat | Group s g => length s = 32%nat ∧ length g = 32%nat
  | Account s => length s = 32%nat | Multisig h => length h = 32%nat | Script h => length h = 32%nat
  end.
Definition first_byte (a : Address) : Z :=
  match discrimination a with
  | Production => to_kind_value a
  | Test_ => Z.lor (to_kind_value a) 128
  end.

Lemma to_bytes_eq a : to_bytes a = first_byte a :: kind_bytes (kind a).
Proof. destruct a as [[] []]; reflexivity. Qed.

Lemma first_byte_decode a :
  get_discrimination_value (first_byte a) = discrimination a ∧
  get_kind_value (first_byte a) = to_kind_value a.
Proof. destruct a as [[] []]; split; reflexivity. Qed.

Lemma public_from_binary_ok s : length s = 32%nat → public_from_binary s = Ok s.
Proof. intros Hs. unfold public_from_binary. by rewrite Hs. Qed.

Lemma is_valid_data_ok a :
  kind_ok (kind a) → is_valid_data (to_bytes a) = Ok (discrimination a, to_kind_type a).
Proof.
  intros Ha. rewrite to_bytes_eq. unfold is_valid_data. destruct (first_byte_decode a) as [-> ->].
  unfold to_kind_value. destruct a as [d []]; cbn in *; unfold check_size; cbn [length];
    try (by rewrite Ha).
  destruct Ha as [Hs Hg]. by rewrite length_app, Hs, Hg.
Qed.

Lemma reads_key s : length s = 32%nat → reads read_key s s.
Proof.
  intros Hs. unfold read_key. rewrite <-(app_nil_r s) at 2.
  eapply reads_bind; [by apply reads_slice_len|]. rewrite public_from_binary_ok by done.
  apply reads_ret.
Qed.

Lemma codec_key_ok s rest : length s = 32%nat → codec_key (s ++ rest) = Ok (s, rest).
Proof.
  intros Hs. unfold codec_key, codec_get. rewrite decide_True by (rewrite length_app; lia).
  cbn [map_err mbind outcome_bind]. rewrite take_app_length', drop_app_length' by done.
  by rewrite public_from_binary_ok.
Qed.

Lemma reads_address a : kind_ok (kind a) → reads address_read a (to_bytes a).
Proof.
  intros Ha. rewrite to_bytes_eq. change (?b :: ?l) with ([b] ++ l).
  unfold address_read. eapply reads_bind; [apply reads_u8|]. cbn beta zeta.
  destruct (first_byte_decode a) as [-> ->].
  rewrite <-(app_nil_r (kind_bytes _)). eapply reads_bind.
  2:{ instantiate (1 := kind a). destruct a. apply reads_ret. }
  unfold to_kind_value. destruct a as [d [s|s g|s|h|h]]; cbn in Ha |- *.
  - by apply reads_bind_ret, reads_key.
  - destruct Ha as [Hs Hg]. eapply reads_bind; [by apply reads_key|].
    by apply reads_bind_ret, reads_key.
  - by apply reads_bind_ret, reads_key.
  - by apply reads_bind_ret, reads_slice_len.
  - by apply reads_bind_ret, reads_slice_len.
Qed.

Lemma slice_range_cons b l : slice_range (E := AddrError) (b :: l) 1 (length (b :: l)) = Ok l.
Proof.
  unfold slice_range. rewrite decide_True by (cbn; lia). cbn [length]. rewrite Nat.sub_succ, Nat.sub_0_r.
  cbn [drop]. by rewrite firstn_all.
Qed.

Lemma slice_range_cons_app {E} b l1 l2 :
  length l1 = 32%nat → slice_range (E := E) (b :: l1 ++ l2) 1 33 = Ok l1.
Proof.
  intros Hl. unfold slice_range. rewrite decide_True by (cbn; rewrite length_app; lia).
  cbn [drop]. change (33 - 1)%nat with 32%nat. f_equal. rewrite <-Hl. apply take_app_length.
Qed.

Lemma from_bytes_ok a : kind_ok (kind a) → from_bytes (to_bytes a) = Ok a.
Proof.
  intros Ha. unfold from_bytes. rewrite is_valid_data_ok by done. cbn [mbind outcome_bind].
  rewrite to_bytes_eq. cbn [lookup list_lookup unwrap_opt mbind outcome_bind].
  destruct (first_byte_decode a) as [-> ->]. unfold to_kind_value, key_of, hash_of.
  destruct a as [d [s|s g|s|h|h]]; cbn [kind kind_ok to_kind_type kind_to_value kind_bytes discrimination] in *;
    cbn [Z.eqb Pos.eqb ADDR_KIND_SINGLE ADDR_KIND_GROUP ADDR_KIND_ACCOUNT ADDR_KIND_MULTISIG ADDR_KIND_SCRIPT].
  - rewrite slice_range_cons. cbn. by rewrite public_from_binary_ok.
  - destruct Ha as [Hs Hg]. rewrite slice_range_cons_app by done. cbn [mbind outcome_bind].
    rewrite public_from_binary_ok by done. cbn [map_err mbind outcome_bind].
    unfold slice_range. rewrite decide_True by (cbn; rewrite length_app; lia).
    cbn [mbind outcome_bind]. rewrite app_comm_cons, drop_app_length' by (cbn; lia).
    rewrite take_ge by (cbn; rewrite length_app; lia).
    by rewrite public_from_binary_ok.
  - rewrite slice_range_cons. cbn. by rewrite public_from_binary_ok.
  - rewrite <-(app_nil_r h). rewrite slice_range_cons_app by done. cbn. by rewrite app_nil_r.
  - rewrite <-(app_nil_r h). rewrite slice_range_cons_app by done. cbn. by rewrite app_nil_r.
Qed.

(** The binary form of an address: an address with 32-byte keys and
    hashes serializes to the size of its kind, and [from_bytes], [read] and
    [is_valid_data] recover it with its discrimination and kind. *)
Theorem address_roundtrip a :
  kind_ok (kind a) →
  length (to_bytes a) = to_size a ∧ from_bytes (to_bytes a) = Ok a ∧
  read_from_raw address_read (to_bytes a) = Ok a ∧
  is_valid_data (to_bytes a) = Ok (discrimination a, to_kind_type a).
Proof.
  intros Ha. split; [|split; [|split]].
  - rewrite to_bytes_eq. destruct a as [d [s|s g|s|h|h]]; cbn in Ha |- *; try by rewrite Ha.
    destruct Ha as [Hs Hg]. by rewrite length_app, Hs, Hg.
  - by apply from_bytes_ok.
  - by apply reads_from_raw, reads_address.
  - by apply is_valid_data_ok.
Qed.

(** [property::Deserialize for Address] inverts the serialization of
    every kind but [Script], which it lacks: on the bytes of a script address,
    as on any unknown kind, it reaches [unreachable!()] and panics. *)
Theorem address_deserialize_script_panics a rest :
  kind_ok (kind a) →
  (deserialize (to_bytes a ++ rest) = Panic ↔ to_kind_type a = KScript) ∧
  (to_kind_type a ≠ KScript → deserialize (to_bytes a ++ rest) = Ok (a, rest)).
Proof.
  intros Ha.
  assert (deserialize (to_bytes a ++ rest) =
    if decide (to_kind_type a = KScript) then Panic else Ok (a, rest)) as Hd.
  { rewrite to_bytes_eq. unfold deserialize, codec_get_u8, codec_get.
    rewrite decide_True by (cbn; lia). cbn [app take drop mbind outcome_bind lookup list_lookup
      unwrap_opt map_err].
    destruct (first_byte_decode a) as [-> ->]. unfold to_kind_value. rewrite drop_0.
    destruct a as [d [s|s g|s|h|h]]; cbn in Ha |- *.
    - by rewrite codec_key_ok.
    - destruct Ha as [Hs Hg]. rewrite <-app_assoc. rewrite codec_key_ok by done. cbn.
      by rewrite codec_key_ok.
    - by rewrite codec_key_ok.
    - unfold codec_get. rewrite decide_True by (rewrite length_app; lia).
      cbn [mbind outcome_bind map_err]. by rewrite take_app_length', drop_app_length'.
    - done. }
  rewrite Hd. case_decide; done.
Qed.

Definition demo_key (b : Z) : list Z := replicate 32 b.

Lemma address_roundtrip_witness :
  from_bytes (to_bytes (mkAddress Test_ (Group (demo_key 1) (demo_key 2)))) =
    Ok (mkAddress Test_ (Group (demo_key 1) (demo_key 2))).
Proof.
  apply (address_roundtrip (mkAddress Test_ (Group (demo_key 1) (demo_key 2)))).
  split; reflexivity.
Defined.

Lemma address_deserialize_script_panics_witness :
  deserialize (to_bytes (mkAddress Production (Script (demo_key 7))) ++ []) = Panic.
Proof.
  apply (address_deserialize_script_panics (mkAddress Production (Script (demo_key 7))) []);
    reflexivity.
Defined.

(** ** The readable form

    [bech32] is a library: encoding and decoding of texts, and the regrouping
    of bytes into 5-bit digits.  Its documented contract is that it decodes
    what it encodes. *)
Section readable.
Context {Str : Type} `{EqDecision Str}.
Context (encode : Str → list Z → bool → option Str).
Context (decode : Str → option (Str * list Z * bool)).
Context (to_base32 : list Z → list Z) (from_base32 : list Z → option (list Z)).

(** The variant is [true] for [bech32::Variant::Bech32]. *)
Definition readable_from_address {E} (prefix : Str) (a : Address) : outcome E Str :=
  unwrap_opt (encode prefix (to_base32 (to_bytes a)) true).
Definition readable_to_address (r : Str) : outcome infallible Address :=
  '(_, data, _) ← unwrap_opt (decode r);
  dat ← unwrap_opt (from_base32 data);
  unwrap (from_bytes dat).
Definition readable_get_prefix (r : Str) : outcome infallible Str :=
  '(hrp, _, _) ← unwrap_opt (decode r); Ok hrp.
Definition readable_from_str_anyprefix (s : Str) : outcome AddrError Str :=
  '(_, data, variant) ← ok_or (decode s) InvalidInternalEncoding;
  if negb variant then Err InvalidInternalEncoding
  else
    dat ← ok_or (from_base32 data) InvalidInternalEncoding;
    is_valid_data dat ;;
    Ok s.
Definition readable_from_string (expected_prefix s : Str) : outcome AddrError Str :=
  '(hrp, data, variant) ← ok_or (decode s) InvalidInternalEncoding;
  if negb (bool_decide (hrp = expected_prefix)) then Err InvalidPrefix
  else if negb variant then Err InvalidInternalEncoding
  else
    dat ← ok_or (from_base32 data) InvalidInternalEncoding;
    is_valid_data dat ;;
    Ok s.

Hypothesis Hcodec : ∀ p d v s, encode p d v = Some s → decode s = Some (p, d, v).
Hypothesis Hbase32 : ∀ l, from_base32 (to_base32 l) = Some l.

(** The readable form of an address, when the encoder accepts the
    prefix, is accepted by both parsers with that prefix, refused under any
    other, and decodes to the address. *)
Theorem address_readable_roundtrip p a s :
  kind_ok (kind a) → encode p (to_base32 (to_bytes a)) true = Some s →
  readable_from_address (E := infallible) p a = Ok s ∧
  readable_to_address s = Ok a ∧ readable_get_prefix s = Ok p ∧
  readable_from_str_anyprefix s = Ok s ∧
  ∀ p', readable_from_string p' s = if decide (p' = p) then Ok s else Err InvalidPrefix.
Proof using Hcodec Hbase32.
  intros Ha Hs. pose proof (Hcodec _ _ _ _ Hs) as Hd.
  unfold readable_from_address, readable_to_address, readable_get_prefix,
    readable_from_str_anyprefix, readable_from_string.
  rewrite Hs, Hd. cbn. rewrite Hbase32. cbn. rewrite from_bytes_ok, is_valid_data_ok by done.
  do 4 (split; [done|]). intros p'. case_decide as Hp; case_bool_decide; cbn; congruence.
Qed.
End readable.

(** The contract is satisfiable: texts that are the prefix, the digits and the
    variant side by side. *)
Inductive demo_text := DText (prefix : nat) (digits : list Z) (variant : bool) | DPrefix (p : nat).
#[export] Instance demo_text_eq_dec : EqDecision demo_text.
Proof. solve_decision. Defined.
Definition demo_encode (p : demo_text) (d : list Z) (v : bool) : option demo_text :=
  match p with DPrefix n => Some (DText n d v) | _ => None end.
Definition demo_decode (s : demo_text) : option (demo_text * list Z * bool) :=
  match s with DText n d v => Some (DPrefix n, d, v) | _ => None end.

Lemma address_readable_roundtrip_witness :
  readable_to_address demo_decode Some
    (DText 1 (to_bytes (mkAddress Production (Account (demo_key 9)))) true) =
    Ok (mkAddress Production (Account (demo_key 9))).
Proof.
  apply (address_readable_roundtrip demo_encode demo_decode (λ l, l) Some) with (p := DPrefix 1).
  - intros [] d v s; [discriminate|]. intros [= <-]. reflexivity.
  - reflexivity.
  - reflexivity.
  - reflexivity.
Defined.
