(* ===== verification/Stake.v ===== *)
(** * Stake ([stake/{stake,delegation,distribution}.rs])

    Stakes, the registered stake pools, and the distribution of the stake of
    the accounts and of the UTXOs over the pools.  [Stake]'s [+] is the plain
    operator of [u64]: it wraps, as written in [stake_add]. *)
From S2P Require Import Prelude Value Hamt HamtSpec Spending Account SparseArray Utxo Addr.
Local Open Scope Z_scope.

Abbreviation Stake := Z.
(** [account::Identifier]: a public key. *)
Abbreviation Identifier := PublicKey.

(** ** [stake.rs] *)
Definition stake_add (s other : Stake) : Stake := wrap 64 (s + other).
Definition stake_wrapping_sub (s rhs : Stake) : Stake := wrap 64 (s - rhs).
Definition stake_sum (values : list Stake) : Stake := foldl stake_add 0 values.

Record StakeUnit := mkUnit { unit_stake : Stake }.
Record StakeSplit := mkStakeSplit { s_parts : StakeUnit; s_remaining : Stake }.
Definition stake_split_in {E} (s n : Z) : outcome E StakeSplit :=
  q ← div_checked s n; r ← mod_checked s n; Ok (mkStakeSplit (mkUnit q) r).
Definition scale {E} (u : StakeUnit) (n : Z) : outcome E Stake :=
  unwrap_opt (checked_mul64 (unit_stake u) n).

Record PercentStake := mkPercent { p_stake : Stake; p_total : Stake }.
Definition percent_new (stake total : Stake) : outcome infallible PercentStake :=
  assert_that (stake <=? total) ;; Ok (mkPercent stake total).
Definition PERCENT_SCALE : Z := 1000000000000000000.
Definition scale_value (p : PercentStake) (v : Value) : outcome infallible Value :=
  scaled_divided ← div_checked (wrap 128 (v * PERCENT_SCALE)) (p_total p);
  r ← div_checked (wrap 128 (scaled_divided * p_stake p)) PERCENT_SCALE;
  Ok (wrap 64 r).

Lemma stake_add_small s t : 0 ≤ s → 0 ≤ t → s + t ≤ u64_max → stake_add s t = s + t.
Proof. intros ? ? ?. apply wrap_small. unfold in_u, u64_max in *. lia. Qed.

Lemma stake_sum_small l :
  Forall (λ x, 0 ≤ x) l → Zsum l ≤ u64_max → stake_sum l = Zsum l.
Proof.
  intros Hl. unfold stake_sum.
  assert (∀ a, 0 ≤ a → a + Zsum l ≤ u64_max → foldl stake_add a l = a + Zsum l) as H.
  { induction Hl as [|x l Hx Hl IH]; cbn; intros a Ha Hm; [lia|].
    pose proof (Zsum_nonneg l Hl). rewrite stake_add_small by lia. rewrite IH; lia. }
  intros Hm. apply H; lia.
Qed.

Lemma stake_split_in_Ok {E} s n :
  0 ≤ s → 0 < n →
  ∃ sp, stake_split_in (E := E) s n = Ok sp ∧ s = unit_stake (s_parts sp) * n + s_remaining sp ∧
    0 ≤ unit_stake (s_parts sp) ∧ 0 ≤ s_remaining sp < n.
Proof.
  intros Hs Hn. unfold stake_split_in, div_checked, mod_checked.
  rewrite !decide_False by lia. cbn [mbind outcome_bind]. eexists. split; [done|].
  cbn [s_parts s_remaining unit_stake]. split; [rewrite Z.mul_comm; apply Z_div_mod_eq_full|].
  split; [apply Z.div_pos; lia|apply Z.mod_pos_bound; lia].
Qed.

(** The share of one pool: the 128-bit products fit. *)
Lemma scale_value_Ok s t v :
  0 ≤ s ≤ t → 0 < t ≤ u64_max → u64_ok v →
  ∃ r, scale_value (mkPercent s t) v = Ok r ∧ 0 ≤ r ∧ r * t ≤ v * s ∧ v * s < (r + 20) * t.
Proof.
  intros Hs Ht Hv. unfold in_u in Hv. unfold scale_value, div_checked, PERCENT_SCALE, u64_max in *.
  cbn [p_total p_stake].
  rewrite (wrap_small 128 (v * _)) by (unfold in_u; lia).
  rewrite (decide_False (P := t = 0)) by lia. cbn [mbind outcome_bind].
  set (x := (v * 1000000000000000000) `div` t).
  assert (0 ≤ x ∧ x * t ≤ v * 1000000000000000000 < (x + 1) * t) as (Hx0 & Hx1 & Hx2)
    by (subst x; split; [apply Z.div_pos; lia|]; pose proof (Z.mul_div_le (v * 1000000000000000000) t);
        pose proof (Z.mul_succ_div_gt (v * 1000000000000000000) t); lia).
  clearbody x.
  assert (x * s ≤ v * 1000000000000000000) as Hxs by nia.
  rewrite (wrap_small 128) by (unfold in_u; lia).
  rewrite decide_False by lia. cbn [mbind outcome_bind].
  set (r := (x * s) `div` 1000000000000000000).
  assert (0 ≤ r ∧ r * 1000000000000000000 ≤ x * s < (r + 1) * 1000000000000000000) as (Hr0 & Hr1 & Hr2)
    by (subst r; split; [apply Z.div_pos; lia|dlia]).
  clearbody r. assert (r ≤ v) as Hrv by lia.
  rewrite wrap_small by (unfold in_u; lia). exists r. split; [done|]. split; [done|]. split.
  - apply (Z.mul_le_mono_pos_r _ _ 1000000000000000000); [lia|].
    transitivity (x * s * t); [nia|]. nia.
  - apply (Z.mul_lt_mono_pos_r 1000000000000000000); [lia|].
    assert (v * s * 1000000000000000000 ≤ (x + 1) * t * s) by nia.
    assert (s * 1 ≤ 19 * 1000000000000000000) by lia.
    assert ((x + 1) * s < (r + 20) * 1000000000000000000) by lia. nia.
Qed.

(** Sharing a value by stake: for stakes that add up to at most the total,
    every share is the exact proportional share rounded down to within 20
    units (the [10^18] fixed-point scale against 64-bit stakes), no 128-bit
    product wraps, and the shares never add up to more than the value. *)
Theorem scale_value_shares v total stakes :
  u64_ok v → 0 < total ≤ u64_max → Forall (λ s, 0 ≤ s) stakes → Zsum stakes ≤ total →
  ∃ shares, Forall2 (λ s r, scale_value (mkPercent s total) v = Ok r ∧
      r * total ≤ v * s ∧ v * s < (r + 20) * total) stakes shares ∧
    0 ≤ Zsum shares ≤ v.
Proof.
  intros Hv Ht Hs Hsum.
  assert (∃ shares, Forall2 (λ s r, scale_value (mkPercent s total) v = Ok r ∧
      r * total ≤ v * s ∧ v * s < (r + 20) * total) stakes shares ∧
    0 ≤ Zsum shares ∧ Zsum shares * total ≤ v * Zsum stakes) as (rs & Hrs & H0 & H1).
  { induction Hs as [|s stakes Hs Hss IH]; [exists []; split; [constructor|cbn; lia]|].
    cbn in Hsum. pose proof (Zsum_nonneg stakes Hss).
    destruct IH as (rs & Hrs & H0 & H1); [lia|].
    destruct (scale_value_Ok s total v) as (r & Hr & Hr0 & Hr1 & Hr2); [lia..|done|].
    exists (r :: rs). split; [by constructor|]. cbn. split; [lia|]. lia. }
  exists rs. split; [done|]. split; [done|]. unfold in_u in Hv. nia.
Qed.

Lemma scale_value_shares_witness :
  ∃ shares, Forall2 (λ s r, scale_value (mkPercent s 7) 100 = Ok r ∧
      r * 7 ≤ 100 * s ∧ 100 * s < (r + 20) * 7) [2; 5] shares ∧ 0 ≤ Zsum shares ≤ 100.
Proof.
  apply (scale_value_shares 100 7 [2; 5]).
  - split; vm_compute; [discriminate|reflexivity].
  - split; vm_compute; [reflexivity|discriminate].
  - repeat constructor; vm_compute; discriminate.
  - vm_compute. discriminate.
Defined.

(** ** The stake pools ([delegation.rs])

    [PoolRegistration::to_id] hashes the registration certificate: it is a
    parameter, and so are the certificate and the digest. *)
Record PoolLastRewards := mkPoolRewards {
  pr_epoch : Z; value_taxed : Value; value_for_stakers : Value }.
Definition pool_last_rewards_default : PoolLastRewards := mkPoolRewards 0 value_zero value_zero.

Inductive PoolError (PoolId : Type) := PoolAlreadyExists (id : PoolId) | PoolNotFound (id : PoolId).
Arguments PoolAlreadyExists {PoolId} id.
Arguments PoolNotFound {PoolId} id.

Record PoolState (Registration : Type) := mkPoolState {
  pool_rewards : PoolLastRewards; registration : Registration }.
Arguments mkPoolState {Registration} _ _.
Arguments pool_rewards {Registration} _.
Arguments registration {Registration} _.

Section pools.
Context {PoolId Registration : Type} `{Countable PoolId} (to_id : Registration → PoolId).
Abbreviation PoolsState := (gmap PoolId (PoolState Registration)).
Implicit Types (ps : PoolsState) (id : PoolId).

Definition pool_state_new (reg : Registration) : PoolState Registration :=
  mkPoolState pool_last_rewards_default reg.
Definition pools_new : PoolsState := ∅.
Definition lookup_reg ps id : option Registration := registration <$> ps !! id.
Definition stake_pool_ids ps : list PoolId := (map_to_list ps).*1.
Definition stake_pool_exists ps id : bool := bool_decide (is_Some (ps !! id)).
Definition stake_pool_get_state ps id : outcome (PoolError PoolId) (PoolState Registration) :=
  ok_or (ps !! id) (PoolNotFound id).
Definition stake_pool_set_state ps id (st : PoolState Registration) :
    outcome (PoolError PoolId) PoolsState :=
  fst <$> map_err (λ _, PoolNotFound id) (hm_replace ps id st).
Definition stake_pool_get ps id : outcome (PoolError PoolId) Registration :=
  registration <$> ok_or (ps !! id) (PoolNotFound id).
Definition stake_pool_set_rewards ps id (epoch : Z) (taxed for_stakers : Value) :
    outcome (PoolError PoolId) PoolsState :=
  let rw := mkPoolRewards epoch taxed for_stakers in
  map_err (λ _, PoolNotFound id) (hm_replace_with ps id (λ st, mkPoolState rw (registration st))).
Definition register_stake_pool ps (owner : Registration) : outcome (PoolError PoolId) PoolsState :=
  let id := to_id owner in
  map_err (λ _, PoolAlreadyExists id) (hm_insert ps id (pool_state_new owner)).
Definition deregister_stake_pool ps id : outcome (PoolError PoolId) PoolsState :=
  map_err (λ _, PoolNotFound id) (hm_remove ps id).

(** Every pool is registered under the id of its certificate. *)
Definition pools_ok ps : Prop := map_Forall (λ id st, to_id (registration st) = id) ps.

Inductive pool_op :=
| PRegister (owner : Registration)
| PDeregister (id : PoolId)
| PSetRewards (id : PoolId) (epoch : Z) (taxed for_stakers : Value).
Definition pool_run ps (o : pool_op) : outcome (PoolError PoolId) PoolsState :=
  match o with
  | PRegister r => register_stake_pool ps r
  | PDeregister id => deregister_stake_pool ps id
  | PSetRewards id e t s => stake_pool_set_rewards ps id e t s
  end.
(** The pools registered after a sequence of operations, from their ids. *)
Definition registered (regs : gset PoolId) (o : pool_op) : gset PoolId :=
  match o with
  | PRegister r => {[ to_id r ]} ∪ regs
  | PDeregister id => regs ∖ {[ id ]}
  | PSetRewards _ _ _ _ => regs
  end.

Lemma pool_run_spec ps o :
  pools_ok ps →
  match o with
  | PRegister r =>
      if decide (to_id r ∈ dom ps) then pool_run ps o = Err (PoolAlreadyExists (to_id r))
      else pool_run ps o = Ok (<[to_id r := pool_state_new r]> ps)
  | PDeregister id =>
      if decide (id ∈ dom ps) then pool_run ps o = Ok (delete id ps)
      else pool_run ps o = Err (PoolNotFound id)
  | PSetRewards id e t s =>
      match ps !! id with
      | Some st => pool_run ps o = Ok (<[id := mkPoolState (mkPoolRewards e t s) (registration st)]> ps)
      | None => pool_run ps o = Err (PoolNotFound id)
      end
  end.
Proof using Type.
  intros Hok. destruct o as [r|id|id e t s]; cbn [pool_run].
  - unfold register_stake_pool, hm_insert. case_decide as Hd.
    + apply elem_of_dom in Hd as [st ->]. done.
    + by apply not_elem_of_dom in Hd as ->.
  - unfold deregister_stake_pool, hm_remove. case_decide as Hd.
    + by apply elem_of_dom in Hd as [st ->].
    + by apply not_elem_of_dom in Hd as ->.
  - unfold stake_pool_set_rewards, hm_replace_with. by destruct (ps !! id).
Qed.

(** The registry of stake pools: whatever the sequence of successful
    operations, each pool stays registered under the id of its certificate,
    the registered ids are exactly those registered and not removed since,
    and the next operation fails only as it should: registering a present id
    is [AlreadyExists], any other operation on an absent one [NotFound]. *)
Theorem pools_registry ps ops ps' o :
  pools_ok ps → foldM pool_run ps ops = Ok ps' →
  pools_ok ps' ∧ dom ps' = foldl registered (dom ps) ops ∧
  match o with
  | PRegister r => to_id r ∈ dom ps' ↔ pool_run ps' o = Err (PoolAlreadyExists (to_id r))
  | PDeregister id | PSetRewards id _ _ _ =>
      id ∉ dom ps' ↔ pool_run ps' o = Err (PoolNotFound id)
  end.
Proof using Type.
  intros Hok Hrun.
  assert (pools_ok ps' ∧ dom ps' = foldl registered (dom ps) ops) as [Hok' Hdom].
  { revert ps Hok Hrun. induction ops as [|p ops IH]; cbn [foldM foldl]; intros ps Hok.
    { by intros <-%Ok_inj. }
    intros (ps1 & H1 & Hrun)%bind_Ok. pose proof (pool_run_spec ps p Hok) as Hspec.
    rewrite H1 in Hspec.
    assert (pools_ok ps1 ∧ dom ps1 = registered (dom ps) p) as [Hok1 <-]; [|by apply IH].
    destruct p as [r|id|id e t s]; cbn [registered].
    - case_decide; [done|]. apply Ok_inj in Hspec as ->. split; [by apply map_Forall_insert_2|].
      by rewrite dom_insert_L.
    - case_decide; [|done]. apply Ok_inj in Hspec as ->. split; [by apply map_Forall_delete|].
      by rewrite dom_delete_L.
    - destruct (ps !! id) as [st|] eqn:Hid; [|done]. apply Ok_inj in Hspec as ->. split.
      + apply map_Forall_insert_2; [|done]. by apply (Hok id st).
      + rewrite dom_insert_lookup_L; [done|by eexists]. }
  split; [done|]. split; [done|]. pose proof (pool_run_spec ps' o Hok') as Hspec.
  destruct o as [r|id|id e t s].
  - case_decide; rewrite Hspec; done.
  - case_decide; rewrite Hspec; done.
  - rewrite not_elem_of_dom. destruct (ps' !! id); rewrite Hspec; done.
Qed.
End pools.
#[global] Arguments pool_op : clear implicits.

Lemma pools_registry_witness :
  ∃ ps', foldM (pool_run (λ r : nat, r)) ∅ [PRegister 3%nat; PRegister 4%nat; PDeregister 3%nat] = Ok ps' ∧
    dom ps' = {[ 4%nat ]}.
Proof.
  set (ops := [PRegister 3%nat; PRegister 4%nat; PDeregister 3%nat]).
  assert (is_ok (foldM (pool_run (λ r : nat, r)) ∅ ops) = true) as Hok by (vm_compute; reflexivity).
  destruct (foldM (pool_run (λ r : nat, r)) ∅ ops) as [ps'|e|] eqn:Hrun; [|discriminate Hok..].
  exists ps'. split; [reflexivity|].
  destruct (pools_registry (λ r : nat, r) ∅ ops ps' (PDeregister 4%nat)) as (_ & -> & _).
  - apply map_Forall_empty.
  - exact Hrun.
  - rewrite dom_empty_L. vm_compute. reflexivity.
Defined.
