(* ===== verification/Distribution.v ===== *)
(** * Stake distribution ([stake/distribution.rs])

    The stake of the accounts and of the UTXOs, assigned to the registered
    pools by the delegation of each account.  The maps of the source are
    [HashMap]s: finite maps here; the results do not depend on their order. *)
From S2P Require Import Prelude Value Hamt HamtSpec Spending Account SparseArray Utxo Addr Stake.
Local Open Scope Z_scope.

Record PoolStakeDistribution := mkPsd {
  psd_total : Stake; psd_accounts : gmap Identifier Stake }.
Definition psd_new : PoolStakeDistribution := mkPsd 0 ∅.
Definition psd_add (d : PoolStakeDistribution) (id : Identifier) (s : Stake) : PoolStakeDistribution :=
  mkPsd (stake_add (psd_total d) s)
    (match psd_accounts d !! id with
     | Some c => <[id := stake_add c s]> (psd_accounts d)
     | None => <[id := s]> (psd_accounts d)
     end).
Definition to_total (d : PoolStakeDistribution) : Stake :=
  stake_sum (map_to_list (psd_accounts d)).*2.

Section distribution.
Context {PoolId TokenId FragmentId Registration Extra : Type}.
Context `{Countable PoolId} `{Countable TokenId} `{Countable FragmentId}.

Record PoolStakeInformation := mkPsi {
  psi_registration : option Registration; psi_stake : PoolStakeDistribution }.
Definition psi_add_value (p : PoolStakeInformation) (id : Identifier) (s : Stake) :
    PoolStakeInformation :=
  mkPsi (psi_registration p) (psd_add (psi_stake p) id s).

Record StakeDistribution := mkSd {
  sd_unassigned : Stake; sd_dangling : Stake; to_pools : gmap PoolId PoolStakeInformation }.
Definition sd_empty : StakeDistribution := mkSd 0 0 ∅.
Definition get_total_stake (sd : StakeDistribution) : Stake :=
  stake_sum ((λ psi, psd_total (psi_stake psi)) <$> (map_to_list (to_pools sd)).*2).
Definition eligible_stake_pools (sd : StakeDistribution) : nat := size (to_pools sd).
Definition total_stake (sd : StakeDistribution) : Stake :=
  stake_sum ((λ p, psd_total (psi_stake p.2)) <$> map_to_list (to_pools sd)).
Definition get_stake_for (sd : StakeDistribution) (poolid : PoolId) : option Stake :=
  (λ psd, psd_total (psi_stake psd)) <$> to_pools sd !! poolid.

(** The three places a stake goes to. *)
Definition add_unassigned_ (sd : StakeDistribution) (s : Stake) : StakeDistribution :=
  mkSd (stake_add (sd_unassigned sd) s) (sd_dangling sd) (to_pools sd).
Definition add_dangling (sd : StakeDistribution) (s : Stake) : StakeDistribution :=
  mkSd (sd_unassigned sd) (stake_add (sd_dangling sd) s) (to_pools sd).
Definition add_to_pool (sd : StakeDistribution) (p : PoolId) (psi : PoolStakeInformation)
    (id : Identifier) (s : Stake) : StakeDistribution :=
  mkSd (sd_unassigned sd) (sd_dangling sd) (<[p := psi_add_value psi id s]> (to_pools sd)).

(** One turn of the loop over the pools of a ratio, with the rest [r] of the
    division still to be given. *)
Definition ratio_step {E} (identifier : Identifier) (part : StakeUnit)
    (st : StakeDistribution * Stake) (pr : PoolId * Z) : outcome E (StakeDistribution * Stake) :=
  let '(sd, r) := st in
  pool_value ← scale part pr.2;
  match to_pools sd !! pr.1 with
  | None => Ok (add_dangling sd pool_value, r)
  | Some pool_info =>
      Ok (add_to_pool sd pr.1 pool_info identifier (stake_add pool_value r), 0)
  end.
Definition assign_account_value {E} (sd : StakeDistribution) (identifier : Identifier)
    (delegation_type : DelegationType PoolId) (value : Stake) : outcome E StakeDistribution :=
  match delegation_type with
  | NonDelegated => Ok (add_unassigned_ sd value)
  | DFull pool_id =>
      match to_pools sd !! pool_id with
      | None => Ok (add_dangling sd value)
      | Some pool_info => Ok (add_to_pool sd pool_id pool_info identifier value)
      end
  | DRatio dr =>
      if delegation_ratio_is_valid dr then
        sin ← stake_split_in value (dr_parts dr);
        '(sd, r) ← foldM (ratio_step identifier (s_parts sin)) (sd, s_remaining sin) (dr_pools dr);
        if 0 <? r then Ok (add_dangling sd r) else Ok sd
      else Ok (add_unassigned_ sd value)
  end.

Abbreviation AccountLedger := (gmap Identifier (AccountState PoolId TokenId Extra)).
Abbreviation UtxoState := (gmap FragmentId (FastSparseArray (Output Address))).

Definition distribution_init (dstate : gmap PoolId (PoolState Registration)) : StakeDistribution :=
  mkSd 0 0 ((λ ps, mkPsi (Some (registration ps)) psd_new) <$> dstate).
Definition account_turn (sd : StakeDistribution) (e : Identifier * AccountState PoolId TokenId Extra) :
    outcome infallible StakeDistribution :=
  assign_account_value sd e.1 (delegation e.2) (st_value e.2).
Definition utxo_turn (accounts : AccountLedger) (sd : StakeDistribution) (output : Output Address) :
    outcome infallible StakeDistribution :=
  match kind (out_address output) with
  | Account _ | Multisig _ => Panic
  | Script _ => Panic
  | Group _spending_key account_key =>
      match get_state accounts account_key with
      | Ok st => assign_account_value sd account_key (delegation st) (out_value output)
      | _ => Panic
      end
  | Single _ => Ok (add_unassigned_ sd (out_value output))
  end.
Definition get_distribution (fuel : nat) (accounts : AccountLedger)
    (dstate : gmap PoolId (PoolState Registration)) (utxos : UtxoState) :
    outcome infallible StakeDistribution :=
  sd ← foldM account_turn (distribution_init dstate) (map_to_list accounts);
  outputs ← utxo_values fuel utxos;
  foldM (utxo_turn accounts) sd outputs.

(** ** Conservation of the stake *)
Definition psd_ok (d : PoolStakeDistribution) : Prop :=
  map_Forall (λ _ s, 0 ≤ s) (psd_accounts d) ∧ psd_total d = map_sum id (psd_accounts d).
Definition pools_sum (m : gmap PoolId PoolStakeInformation) : Z :=
  map_sum (λ psi, psd_total (psi_stake psi)) m.
Definition sd_sum (sd : StakeDistribution) : Z :=
  sd_unassigned sd + sd_dangling sd + pools_sum (to_pools sd).
Definition sd_ok (sd : StakeDistribution) : Prop :=
  0 ≤ sd_unassigned sd ∧ 0 ≤ sd_dangling sd ∧
  map_Forall (λ _ psi, psd_ok (psi_stake psi)) (to_pools sd).
(** The widths of the parts of a ratio. *)
Definition delegation_ok (d : DelegationType PoolId) : Prop :=
  match d with DRatio dr => Forall (λ p, u8_ok p.2) (dr_pools dr) | _ => True end.

Lemma psd_nonneg d : psd_ok d → 0 ≤ psd_total d.
Proof using Type. intros [Hn ->]. by apply map_sum_nonneg. Qed.

Lemma psd_add_ok d i s :
  psd_ok d → 0 ≤ s → psd_total d + s ≤ u64_max →
  psd_ok (psd_add d i s) ∧ psd_total (psd_add d i s) = psd_total d + s.
Proof using Type.
  intros Hd Hs Hm. pose proof (psd_nonneg d Hd) as Hn. destruct Hd as [Hd Ht].
  unfold psd_add. cbn [psd_total]. rewrite stake_add_small by lia. split; [|done].
  unfold psd_ok. cbn [psd_total psd_accounts]. destruct (psd_accounts d !! i) as [c|] eqn:Hc.
  - pose proof (Hd i c Hc) as Hc0. cbn in Hc0.
    pose proof (map_sum_lookup_le id _ i c Hd Hc) as Hle. cbn [id] in Hle.
    rewrite stake_add_small by lia. split; [apply map_Forall_insert_2; [lia|done]|].
    rewrite (map_sum_insert _ _ _ c) by done. cbn [id]. lia.
  - split; [by apply map_Forall_insert_2|]. rewrite map_sum_insert_new by done. cbn [id]. lia.
Qed.

Lemma pool_total_le sd p psi :
  sd_ok sd → to_pools sd !! p = Some psi → 0 ≤ psd_total (psi_stake psi) ≤ sd_sum sd.
Proof using Type.
  intros (Hu & Hd & Hp) Hpsi. split; [by apply psd_nonneg, (Hp p psi)|].
  unfold sd_sum, pools_sum.
  pose proof (map_sum_lookup_le (λ psi, psd_total (psi_stake psi)) (to_pools sd) p psi) as Hle.
  cbn beta in Hle. assert (psd_total (psi_stake psi) ≤ pools_sum (to_pools sd)); [|unfold pools_sum in *; lia].
  apply Hle; [|done]. eapply map_Forall_impl; [done|]. intros ? ? ?. by apply psd_nonneg.
Qed.

Lemma pools_sum_nonneg sd : sd_ok sd → 0 ≤ pools_sum (to_pools sd).
Proof using Type.
  intros (_ & _ & Hp). apply map_sum_nonneg. eapply map_Forall_impl; [done|].
  intros ? ? ?. by apply psd_nonneg.
Qed.

(** What every assignment does: it keeps the invariant, the pools, and adds
    its value to the sum. *)
Definition adds (sd : StakeDistribution) (v : Z) (sd' : StakeDistribution) : Prop :=
  sd_ok sd' ∧ sd_sum sd' = sd_sum sd + v ∧ dom (to_pools sd') = dom (to_pools sd).

Lemma adds_trans sd1 v1 sd2 v2 sd3 :
  adds sd1 v1 sd2 → adds sd2 v2 sd3 → adds sd1 (v1 + v2) sd3.
Proof using Type. intros (_ & S1 & D1) (Ok2 & S2 & D2). split; [done|]. split; [lia|congruence]. Qed.

Lemma adds_unassigned sd v :
  sd_ok sd → 0 ≤ v → sd_sum sd + v ≤ u64_max → adds sd v (add_unassigned_ sd v).
Proof using Type.
  intros Hsd Hv Hm. pose proof (pools_sum_nonneg sd Hsd). destruct Hsd as (Hu & Hd & Hp).
  unfold sd_sum in Hm. unfold adds, sd_ok, sd_sum, add_unassigned_.
  cbn [sd_unassigned sd_dangling to_pools]. rewrite stake_add_small by lia.
  split; [split; [lia|done]|]. split; [lia|done].
Qed.
Lemma adds_dangling sd v :
  sd_ok sd → 0 ≤ v → sd_sum sd + v ≤ u64_max → adds sd v (add_dangling sd v).
Proof using Type.
  intros Hsd Hv Hm. pose proof (pools_sum_nonneg sd Hsd). destruct Hsd as (Hu & Hd & Hp).
  unfold sd_sum in Hm. unfold adds, sd_ok, sd_sum, add_dangling.
  cbn [sd_unassigned sd_dangling to_pools]. rewrite stake_add_small by lia.
  split; [split; [done|]; split; [lia|done]|]. split; [lia|done].
Qed.
Lemma adds_pool sd p psi i v :
  sd_ok sd → to_pools sd !! p = Some psi → 0 ≤ v → sd_sum sd + v ≤ u64_max →
  adds sd v (add_to_pool sd p psi i v).
Proof using Type.
  intros Hsd Hpsi Hv Hm. pose proof (pool_total_le sd p psi Hsd Hpsi).
  destruct Hsd as (Hu & Hd & Hp).
  destruct (psd_add_ok (psi_stake psi) i v) as [Hok Ht]; [by apply (Hp p psi)|done|lia|].
  unfold adds, sd_ok, sd_sum, add_to_pool, pools_sum.
  cbn [sd_unassigned sd_dangling to_pools]. split; [split; [done|]; split; [done|]|split].
  - by apply map_Forall_insert_2.
  - rewrite (map_sum_insert _ _ p psi) by done. unfold psi_add_value. cbn [psi_stake]. rewrite Ht. lia.
  - apply dom_insert_lookup_L. by eexists.
Qed.

Lemma sd_sum_nonneg sd : sd_ok sd → 0 ≤ sd_sum sd.
Proof using Type.
  intros Hsd. pose proof (pools_sum_nonneg sd Hsd). destruct Hsd as (? & ? & _).
  unfold sd_sum. lia.
Qed.

(** The loop over a ratio gives out the part of each pool, and the rest with
    the first pool that exists: the sum of the distribution and of the rest
    still to be given grows by the parts. *)
Lemma ratio_loop {E} identifier part prs sd r :
  sd_ok sd → 0 ≤ r → 0 ≤ unit_stake part → Forall (λ pr, 0 ≤ pr.2) prs →
  sd_sum sd + r + unit_stake part * Zsum prs.*2 ≤ u64_max →
  ∃ sd' r', foldM (E := E) (ratio_step identifier part) (sd, r) prs = Ok (sd', r') ∧
    sd_ok sd' ∧ 0 ≤ r' ∧ dom (to_pools sd') = dom (to_pools sd) ∧
    sd_sum sd' + r' = sd_sum sd + r + unit_stake part * Zsum prs.*2.
Proof using Type.
  intros Hsd Hr Hpart Hprs Hm.
  assert (Zsum ((λ pr, unit_stake part * pr.2) <$> prs) = unit_stake part * Zsum prs.*2) as Hs.
  { clear. induction prs as [|pr prs IH]; cbn; [lia|]. rewrite IH. lia. }
  destruct (foldM_measure (E := E)
    (λ st, sd_ok st.1 ∧ 0 ≤ st.2 ∧ dom (to_pools st.1) = dom (to_pools sd))
    (λ st, sd_sum st.1 + st.2) (λ pr, unit_stake part * pr.2) u64_max
    (ratio_step identifier part) prs (sd, r)) as ([sd' r'] & Hrun & (Hok & Hr' & Hd) & Hmu).
  - done.
  - rewrite Hs. done.
  - intros pr Hin. rewrite Forall_forall in Hprs. specialize (Hprs pr Hin). cbn in Hprs. nia.
  - clear Hm Hs. intros [sd1 r1] pr Hin (Hok & Hr1 & Hd) Hm. cbn [fst snd] in *.
    rewrite Forall_forall in Hprs. specialize (Hprs pr Hin). cbn in Hprs.
    pose proof (sd_sum_nonneg sd1 Hok). unfold ratio_step, scale, checked_mul64.
    set (v := unit_stake part * pr.2) in *. assert (0 ≤ v) by (subst v; nia).
    rewrite decide_True by lia. cbn [unwrap_opt mbind outcome_bind].
    destruct (to_pools sd1 !! pr.1) as [psi|] eqn:Hpsi.
    + rewrite stake_add_small by lia.
      destruct (adds_pool sd1 pr.1 psi identifier (v + r1)) as (Ha & Hb & Hc); [done|done|lia|lia|].
      eexists. split; [done|]. cbn [fst snd]. split; [|lia]. split; [done|]. split; [done|congruence].
    + destruct (adds_dangling sd1 v) as (Ha & Hb & Hc); [done|done|lia|].
      eexists. split; [done|]. cbn [fst snd]. split; [|lia]. split; [done|]. split; [done|congruence].
  - exists sd', r'. split; [done|]. cbn [fst snd] in *. rewrite Hs in Hmu. done.
Qed.

Lemma assign_account_value_ok {E} sd i d v :
  sd_ok sd → 0 ≤ v → delegation_ok d → sd_sum sd + v ≤ u64_max →
  ∃ sd', assign_account_value (E := E) sd i d v = Ok sd' ∧ adds sd v sd'.
Proof using Type.
  intros Hsd Hv Hd Hm. destruct d as [|p|dr]; cbn [assign_account_value].
  - eexists. split; [done|]. by apply adds_unassigned.
  - destruct (to_pools sd !! p) as [psi|] eqn:Hpsi; eexists; (split; [done|]);
      [by apply adds_pool|by apply adds_dangling].
  - destruct (delegation_ratio_is_valid dr) eqn:Hvalid.
    2:{ eexists. split; [done|]. by apply adds_unassigned. }
    apply delegation_ratio_valid in Hvalid as (_ & _ & Hparts & Hgt); [|done].
    destruct (stake_split_in_Ok (E := E) v (dr_parts dr)) as (sp & -> & Hsp & Hunit & Hrem); [done|lia|].
    cbn [mbind outcome_bind].
    destruct (ratio_loop (E := E) i (s_parts sp) (dr_pools dr) sd (s_remaining sp))
      as (sd1 & r1 & -> & Hok1 & Hr1 & Hdom1 & Hsum1).
    + done.
    + lia.
    + done.
    + eapply Forall_impl; [exact Hd|]. by intros ? [? _].
    + rewrite Hparts. lia.
    + cbn [mbind outcome_bind]. rewrite Hparts in Hsum1.
      assert (sd_sum sd1 + r1 = sd_sum sd + v) as Hsum by lia.
      destruct (Z.ltb_spec 0 r1).
      * destruct (adds_dangling sd1 r1) as (Ha & Hb & Hc); [done|done|lia|].
        eexists. split; [done|]. split; [done|]. split; [lia|congruence].
      * exists sd1. split; [done|]. split; [done|]. split; [lia|done].
Qed.

(** The outputs the ledger allows: single addresses, and groups whose account
    exists. *)
Definition output_ok (accounts : AccountLedger) (o : Output Address) : Prop :=
  0 ≤ out_value o ∧
  match kind (out_address o) with
  | Single _ => True
  | Group _ account_key => is_Some (accounts !! account_key)
  | Account _ | Multisig _ | Script _ => False
  end.
Definition delegations_ok (accounts : AccountLedger) : Prop :=
  map_Forall (λ _ st, delegation_ok (delegation st)) accounts.

Lemma utxo_turn_ok accounts sd o :
  delegations_ok accounts → output_ok accounts o → sd_ok sd → sd_sum sd + out_value o ≤ u64_max →
  ∃ sd', utxo_turn accounts sd o = Ok sd' ∧ adds sd (out_value o) sd'.
Proof using Type.
  intros Hds [Hv Ho] Hsd Hm. unfold utxo_turn. destruct (kind (out_address o)) as [?|? account_key|?|?|?]; try done.
  - eexists. split; [done|]. by apply adds_unassigned.
  - destruct Ho as [st Hst]. unfold get_state. rewrite Hst. cbn [ok_or].
    apply assign_account_value_ok; [done|done| |done]. by apply (Hds account_key st).
Qed.

Lemma distribution_init_ok (dstate : gmap PoolId (PoolState Registration)) :
  sd_ok (distribution_init dstate) ∧ sd_sum (distribution_init dstate) = 0 ∧
  dom (to_pools (distribution_init dstate)) = dom dstate.
Proof using Type.
  unfold distribution_init, sd_ok, sd_sum, pools_sum. cbn [sd_unassigned sd_dangling to_pools].
  split; [|split].
  - split; [lia|]. split; [lia|]. intros p psi Hp. rewrite lookup_fmap in Hp.
    destruct (dstate !! p); [|done]. cbn in Hp. injection Hp as <-. split; [done|].
    symmetry. apply map_sum_empty.
  - clear. induction dstate as [|p ps dstate Hp IH] using map_ind.
    + by rewrite fmap_empty, map_sum_empty.
    + rewrite fmap_insert, map_sum_insert_new by (by rewrite lookup_fmap, Hp). cbn. lia.
  - apply dom_fmap_L.
Qed.

Lemma total_stake_sum sd :
  sd_ok sd → sd_sum sd ≤ u64_max → total_stake sd = pools_sum (to_pools sd).
Proof using Type.
  intros Hsd Hm. unfold total_stake, pools_sum, map_sum. rewrite <-list_fmap_compose.
  apply stake_sum_small.
  - apply Forall_fmap, Forall_forall. intros [p psi] Hin%elem_of_map_to_list. cbn.
    by apply (pool_total_le sd p psi).
  - pose proof (pools_sum_nonneg sd Hsd) as Hn. destruct Hsd as (? & ? & _).
    unfold sd_sum, pools_sum, map_sum in *. rewrite <-list_fmap_compose in Hm, Hn. 
    unfold compose in *. lia.
Qed.

Lemma get_stake_for_le sd p stake :
  sd_ok sd → sd_sum sd ≤ u64_max → get_stake_for sd p = Some stake → 0 ≤ stake ≤ total_stake sd.
Proof using Type.
  intros Hsd Hm Hp. rewrite total_stake_sum by done. unfold get_stake_for in Hp.
  destruct (to_pools sd !! p) as [psi|] eqn:Hpsi; [|done]. injection Hp as <-.
  assert (∀ k a, to_pools sd !! k = Some a → 0 ≤ psd_total (psi_stake a)) as Hn.
  { intros k a Ha. by destruct (pool_total_le sd k a Hsd Ha). }
  split; [by eapply Hn|].
  by apply (map_sum_lookup_le (λ psi, psd_total (psi_stake psi)) (to_pools sd) p psi).
Qed.

(** The two loops: over the accounts, then over the outputs. *)
Lemma accounts_loop accounts sd :
  ledger_ok accounts → delegations_ok accounts → sd_ok sd →
  sd_sum sd + ledger_total accounts ≤ u64_max →
  ∃ sd', foldM account_turn sd (map_to_list accounts) = Ok sd' ∧ adds sd (ledger_total accounts) sd'.
Proof using Type.
  intros Hl Hds Hsd Hm.
  assert (Zsum ((λ e, st_value e.2) <$> map_to_list accounts) = ledger_total accounts) as Hacc.
  { unfold ledger_total, map_sum. by rewrite <-list_fmap_compose. }
  destruct (foldM_measure (λ sd', sd_ok sd' ∧ dom (to_pools sd') = dom (to_pools sd)) sd_sum
    (λ e, st_value e.2) u64_max account_turn (map_to_list accounts) sd)
    as (sd1 & Hrun1 & [Hok1 Hd1] & Hs1).
  - done.
  - by rewrite Hacc.
  - intros [i st] Hi%elem_of_map_to_list. by destruct (Hl i st Hi) as [[? _] _].
  - intros sd1 [i st] Hi%elem_of_map_to_list [Hok Hd] Hb. cbn [snd] in *.
    destruct (assign_account_value_ok (E := infallible) sd1 i (delegation st) (st_value st))
      as (sd' & Hrun & Ha & Hb' & Hc);
      [done|by destruct (Hl i st Hi) as [[? _] _]|by apply (Hds i st)|done|].
    exists sd'. split; [done|]. split; [|done]. split; [done|congruence].
  - exists sd1. split; [done|]. split; [done|]. split; [lia|done].
Qed.

Lemma outputs_loop accounts outs sd :
  delegations_ok accounts → (∀ o, o ∈ outs → output_ok accounts o) → sd_ok sd →
  sd_sum sd + Zsum (out_value <$> outs) ≤ u64_max →
  ∃ sd', foldM (utxo_turn accounts) sd outs = Ok sd' ∧ adds sd (Zsum (out_value <$> outs)) sd'.
Proof using Type.
  intros Hds Hout Hsd Hm.
  destruct (foldM_measure (λ sd', sd_ok sd' ∧ dom (to_pools sd') = dom (to_pools sd)) sd_sum
    out_value u64_max (utxo_turn accounts) outs sd) as (sd2 & Hrun2 & [Hok2 Hd2] & Hs2).
  - done.
  - done.
  - intros o Ho. apply (Hout o Ho).
  - intros sd1 o Ho [Hok Hd] Hb.
    destruct (utxo_turn_ok accounts sd1 o) as (sd' & Hrun & Ha & Hb' & Hc); [done|by apply Hout|done..|].
    exists sd'. split; [done|]. split; [|done]. split; [done|congruence].
  - exists sd2. by split.
Qed.

Lemma to_total_ok sd p psi :
  sd_ok sd → sd_sum sd ≤ u64_max → to_pools sd !! p = Some psi →
  to_total (psi_stake psi) = psd_total (psi_stake psi).
Proof using Type.
  intros Hsd Hm Hpsi. destruct (pool_total_le sd p psi Hsd Hpsi) as [_ Hle].
  destruct Hsd as (_ & _ & Hp). destruct (Hp p psi Hpsi) as [Hn Ht].
  rewrite Ht. unfold to_total, map_sum. rewrite list_fmap_id. apply stake_sum_small.
  - apply Forall_fmap, Forall_forall. intros [i s] Hi%elem_of_map_to_list. by apply (Hn i s).
  - unfold map_sum in Ht. rewrite list_fmap_id in Ht. rewrite <-Ht. lia.
Qed.

(** C21. The distribution conserves stake.  For well-formed accounts and
    outputs (single addresses, and groups whose account exists) of a total
    value that fits a [u64], [get_distribution] returns, for enough fuel of
    its iterator, a distribution in which unassigned, dangling and pool stake
    add up to exactly the value of all the accounts and outputs; it has
    exactly the registered pools, each with a total that is the sum over its
    members. *)
Theorem stake_distribution_conserves accounts (dstate : gmap PoolId (PoolState Registration))
    (utxos : UtxoState) m :
  ledger_ok accounts → delegations_ok accounts → utxo_repr utxos m →
  (∀ tid t i o, m !! tid = Some t → t !! i = Some o → output_ok accounts o) →
  ledger_total accounts + utxo_total m ≤ u64_max →
  ∃ fuel sd, (∀ n, get_distribution (n + fuel) accounts dstate utxos = Ok sd) ∧
    sd_unassigned sd + sd_dangling sd + total_stake sd = ledger_total accounts + utxo_total m ∧
    dom (to_pools sd) = dom dstate ∧
    ∀ p psi, to_pools sd !! p = Some psi → to_total (psi_stake psi) = psd_total (psi_stake psi).
Proof using Type.
  intros Hl Hds Hr Houts Hm. destruct (utxo_values_ok utxos m Hr) as (fuel & outs & Hv & Hsum & Hin).
  destruct (distribution_init_ok dstate) as (Hok0 & Hs0 & Hd0).
  assert (∀ o, o ∈ outs → output_ok accounts o) as Hout.
  { intros o Ho. destruct (Hin o Ho) as (tid & t & i & Ht & Hi). by eapply Houts. }
  assert (Zsum (out_value <$> outs) = utxo_total m) as Htot by apply Hsum.
  assert (0 ≤ utxo_total m) as Hpos.
  { rewrite <-Htot. apply Zsum_nonneg, Forall_fmap, Forall_forall. intros o Ho. apply (Hout o Ho). }
  destruct (accounts_loop accounts (distribution_init dstate)) as (sd1 & Hrun1 & Hok1 & Hs1 & Hd1);
    [done..|lia|].
  destruct (outputs_loop accounts outs sd1) as (sd2 & Hrun2 & Hok2 & Hs2 & Hd2); [done..|lia|].
  assert (sd_sum sd2 = ledger_total accounts + utxo_total m) as Hfinal by lia.
  exists fuel, sd2. split; [|split; [|split]].
  - intros n. unfold get_distribution. rewrite Hrun1. cbn [mbind outcome_bind]. by rewrite Hv.
  - rewrite total_stake_sum by (done || lia). done.
  - congruence.
  - intros p psi. apply to_total_ok; [done|lia].
Qed.
End distribution.
#[global] Arguments mkPsi {_} _ _.

(** ** A concrete distribution: an account delegating to three pools, of which
    only the second exists, and an output of a group address. *)
Definition demo_pools : gmap nat (PoolState nat) := {[ 2%nat := pool_state_new 2%nat ]}.
Definition demo_ratio : DelegationRatio nat := mkDelegationRatio 7 [(1%nat, 2); (2%nat, 1); (3%nat, 4)].
Definition demo_accounts : gmap Identifier (AccountState nat nat unit) :=
  {[ demo_key 5 := state_set_delegation (demo_state 100) (DRatio demo_ratio) ]}.
Definition demo_group : Address := mkAddress Production (Group (demo_key 4) (demo_key 5)).
Definition demo_stake_outs : list (nat * Output Address) := [(0%nat, mkOutput demo_group 50)].
Definition demo_stake_fsa : FastSparseArray (Output Address) :=
  mkFsa (mkBix 1 0) (mkSa (mkBix 1 0) [mkOutput demo_group 50]).
Definition demo_stake_utxo : gmap nat (FastSparseArray (Output Address)) := {[ 9%nat := demo_stake_fsa ]}.
Definition demo_stake_map : gmap nat (gmap nat (Output Address)) :=
  {[ 9%nat := spec_outputs demo_stake_outs ]}.

Lemma demo_stake_repr : utxo_repr demo_stake_utxo demo_stake_map.
Proof.
  apply utxo_repr_insert; [apply utxo_repr_new| |by apply spec_outputs_nonempty].
  destruct (from_outputs_repr (E := infallible) demo_stake_outs) as (u & Hu & Hr);
    [cbn; lia|repeat constructor; cbn; lia|].
  vm_compute in Hu. apply Ok_inj in Hu as <-. exact Hr.
Qed.

Lemma demo_accounts_ok : ledger_ok demo_accounts ∧ delegations_ok demo_accounts.
Proof.
  split; intros i st Hi; unfold demo_accounts in Hi; apply lookup_singleton_Some in Hi as [_ <-].
  - apply (demo_state_ok 100). split; vm_compute; [discriminate|reflexivity].
  - repeat constructor; vm_compute; (discriminate || reflexivity).
Qed.

Lemma demo_stake_outputs_ok tid t i o :
  demo_stake_map !! tid = Some t → t !! i = Some o → output_ok demo_accounts o.
Proof.
  unfold demo_stake_map. intros [_ <-]%lookup_singleton_Some Hi. unfold spec_outputs in Hi. cbn [demo_stake_outs foldl fst snd] in Hi.
  apply lookup_insert_Some in Hi as [[_ <-]|[_ Hi]]; [|by rewrite lookup_empty in Hi].
  split; [cbn; lia|]. cbn. by eexists.
Qed.

Lemma stake_distribution_conserves_witness :
  ∃ fuel sd, get_distribution fuel demo_accounts demo_pools demo_stake_utxo = Ok sd ∧
    sd_unassigned sd + sd_dangling sd + total_stake sd = 150.
Proof.
  destruct demo_accounts_ok as [Hl Hd].
  destruct (stake_distribution_conserves demo_accounts demo_pools demo_stake_utxo demo_stake_map
    Hl Hd demo_stake_repr demo_stake_outputs_ok) as (fuel & sd & Hrun & Hsum & _).
  - vm_compute. discriminate.
  - exists fuel, sd. split; [exact (Hrun 0%nat)|]. rewrite Hsum. vm_compute. reflexivity.
Defined.

(** The rest of a division goes to the first pool that exists. *)
Example demo_distribution :
  (λ sd, (sd_unassigned sd, sd_dangling sd, get_stake_for sd 2%nat)) <$>
    get_distribution 10 demo_accounts demo_pools demo_stake_utxo = Ok (0, 126, Some 24).
Proof. vm_compute. reflexivity. Qed.
