(* ===== verification/StakeControl.v ===== *)
(** * Stake control ([stake/controlled.rs])

    For each account, the stake it controls: its balance and the outputs of the
    group addresses that name it.  [Stake]'s checked and wrapping operations
    are those of [u64]. *)
From S2P Require Import Prelude Value Rewards Hamt HamtSpec Spending Account SparseArray Utxo Addr Stake.
From S2P Require Import Distribution.
Local Open Scope Z_scope.

Record StakeControl := mkControl {
  assigned : Stake; unassigned : Stake; control : gmap Identifier Stake }.

Definition control_new : StakeControl := mkControl 0 0 ∅.
Definition control_total (sc : StakeControl) : Stake := stake_add (assigned sc) (unassigned sc).
Definition control_by (sc : StakeControl) (identifier : Identifier) : option Stake :=
  control sc !! identifier.
Definition add_unassigned (sc : StakeControl) (stake : Stake) : StakeControl :=
  mkControl (assigned sc) (stake_add (unassigned sc) stake) (control sc).
Definition remove_unassigned (sc : StakeControl) (stake : Stake) : StakeControl :=
  mkControl (assigned sc) (stake_wrapping_sub (unassigned sc) stake) (control sc).
(** [checked_add] answers [None] on overflow: the entry is then deleted. *)
Definition add_to (sc : StakeControl) (identifier : Identifier) (stake : Stake) : StakeControl :=
  let control := hm_insert_or_update_simple (control sc) identifier stake
                   (λ v, checked_add64 v stake) in
  mkControl (stake_add (assigned sc) stake) (unassigned sc) control.
(** The [debug_assert!] of the error branch is not in release builds. *)
Definition remove_from (sc : StakeControl) (identifier : Identifier) (stake : Stake) :
    outcome infallible StakeControl :=
  control ← match hm_update (U := infallible) (control sc) identifier
                    (λ v, Ok (checked_sub64 v stake)) with
            | Ok updated => Ok updated
            | Err reason => Ok (control sc)
            | Panic => Panic
            end;
  Ok (mkControl (stake_wrapping_sub (assigned sc) stake) (unassigned sc) control).

(** [NonZeroU64::new_unchecked] of zero is undefined behaviour: a [Panic]. *)
Definition ratio_by (sc : StakeControl) (identifier : Identifier) : outcome infallible Ratio :=
  match control_by sc identifier with
  | Some stake =>
      denominator ← unwrap_opt (nonzero (assigned sc));
      Ok (mkRatio stake denominator)
  | None => Ok ratio_zero
  end.

Section ledgers.
Context {PoolId TokenId FragmentId Extra : Type}.
Context `{Countable TokenId} `{Countable FragmentId}.
Abbreviation AccountLedger := (gmap Identifier (AccountState PoolId TokenId Extra)).
Abbreviation UtxoState := (gmap FragmentId (FastSparseArray (Output Address))).

Definition update_accounts (sc : StakeControl) (accounts : AccountLedger) : StakeControl :=
  foldl (λ sc e, add_to sc e.1 (st_value e.2)) sc (map_to_list accounts).
Definition control_utxo_turn (sc : StakeControl) (output : Output Address) :
    outcome infallible StakeControl :=
  let stake := out_value output in
  match kind (out_address output) with
  | Account _ | Multisig _ => Panic
  | Script _ => Panic
  | Group _spending_key account_key => Ok (add_to sc account_key stake)
  | Single _ => Ok (add_unassigned sc stake)
  end.
Definition update_utxos (fuel : nat) (sc : StakeControl) (utxos : UtxoState) :
    outcome infallible StakeControl :=
  outputs ← utxo_values fuel utxos; foldM control_utxo_turn sc outputs.
Definition new_with (fuel : nat) (accounts : AccountLedger) (utxos : UtxoState) :
    outcome infallible StakeControl :=
  update_utxos fuel (update_accounts control_new accounts) utxos.
End ledgers.

(** ** The invariant: the assigned stake is the sum of the controlled stakes *)
Definition control_ok (sc : StakeControl) : Prop :=
  map_Forall (λ _ s, 0 ≤ s) (control sc) ∧ assigned sc = map_sum id (control sc) ∧ 0 ≤ unassigned sc.
(** The stake of an account, zero when it is unknown. *)
Definition controlled (sc : StakeControl) (i : Identifier) : Z := default 0 (control_by sc i).

Lemma assigned_nonneg sc : control_ok sc → 0 ≤ assigned sc.
Proof. intros (Hn & -> & _). by apply map_sum_nonneg. Qed.

Lemma control_le_assigned sc i s :
  control_ok sc → control_by sc i = Some s → 0 ≤ s ≤ assigned sc.
Proof.
  intros (Hn & -> & _) Hi. split; [by apply (Hn i s)|].
  by apply (map_sum_lookup_le id (control sc) i s).
Qed.

Lemma add_to_ok sc i s :
  control_ok sc → 0 ≤ s → assigned sc + s ≤ u64_max →
  control_ok (add_to sc i s) ∧ assigned (add_to sc i s) = assigned sc + s ∧
  ∀ j, controlled (add_to sc i s) j = controlled sc j + if decide (j = i) then s else 0.
Proof.
  intros Hsc Hs Hm. pose proof (assigned_nonneg sc Hsc) as Ha.
  pose proof (control_le_assigned sc i) as Hle. unfold control_by in Hle.
  unfold add_to, control_ok, controlled, control_by, hm_insert_or_update_simple.
  cbn [assigned unassigned control]. rewrite stake_add_small by lia.
  destruct (control sc !! i) as [c|] eqn:Hi.
  - specialize (Hle c Hsc eq_refl). destruct Hsc as (Hn & Hsum & Hu).
    unfold checked_add64. rewrite decide_True by lia. cbn [hm_set].
    split; [split; [by apply map_Forall_insert_2; [lia|]|split; [|done]]|split; [done|]].
    + rewrite (map_sum_insert id _ i c) by done. cbn [id]. lia.
    + intros j. case_decide; [subst; by rewrite lookup_insert_eq, Hi|].
      rewrite lookup_insert_ne by done. lia.
  - destruct Hsc as (Hn & Hsum & Hu).
    split; [split; [by apply map_Forall_insert_2|split; [|done]]|split; [done|]].
    + rewrite map_sum_insert_new by done. cbn [id]. lia.
    + intros j. case_decide; [subst; by rewrite lookup_insert_eq, Hi|].
      rewrite lookup_insert_ne by done. lia.
Qed.

Lemma add_unassigned_ok sc s :
  control_ok sc → 0 ≤ s → unassigned sc + s ≤ u64_max →
  control_ok (add_unassigned sc s) ∧ unassigned (add_unassigned sc s) = unassigned sc + s.
Proof.
  intros (Hn & Hsum & Hu) Hs Hm. unfold add_unassigned, control_ok. cbn [assigned unassigned control].
  rewrite stake_add_small by lia. split; [split; [done|]; split; [done|lia]|done].
Qed.

(** Removing a controlled stake undoes adding it. *)
Lemma remove_from_ok sc i s c :
  control_ok sc → assigned sc ≤ u64_max → control_by sc i = Some c → 0 ≤ s ≤ c →
  ∃ sc', remove_from sc i s = Ok sc' ∧ control_ok sc' ∧ assigned sc' = assigned sc - s ∧
    unassigned sc' = unassigned sc ∧ control_by sc' i = Some (c - s) ∧
    ∀ j, j ≠ i → control_by sc' j = control_by sc j.
Proof.
  intros Hsc Hm Hi Hs. pose proof (control_le_assigned sc i c Hsc Hi) as Hle.
  unfold remove_from, hm_update, control_by in *. rewrite Hi. unfold checked_sub64.
  rewrite decide_True by lia. cbn [map_err fmap outcome_fmap hm_set mbind outcome_bind].
  eexists. split; [done|]. unfold control_ok. cbn [assigned unassigned control].
  unfold stake_wrapping_sub. rewrite wrap_small by (unfold in_u, u64_max in *; lia).
  destruct Hsc as (Hn & Hsum & Hu). split; [split; [|split]|split; [done|split; [done|split]]].
  - apply map_Forall_insert_2; [lia|done].
  - rewrite (map_sum_insert id _ i c) by done. cbn [id]. lia.
  - done.
  - apply lookup_insert_eq.
  - intros j Hj. by rewrite lookup_insert_ne.
Qed.

(** ** Building the control from the ledgers

    Every account and every output is one move of stake. *)
Inductive move := MAssign (i : Identifier) (s : Stake) | MFree (s : Stake).
Definition apply_move (sc : StakeControl) (mv : move) : StakeControl :=
  match mv with MAssign i s => add_to sc i s | MFree s => add_unassigned sc s end.
Definition mv_assigned (mv : move) : Z := match mv with MAssign _ s => s | MFree _ => 0 end.
Definition mv_free (mv : move) : Z := match mv with MAssign _ _ => 0 | MFree s => s end.
Definition mv_for (j : Identifier) (mv : move) : Z :=
  match mv with MAssign i s => if decide (j = i) then s else 0 | MFree _ => 0 end.
Definition mv_nonneg (mv : move) : Prop := 0 ≤ mv_assigned mv ∧ 0 ≤ mv_free mv.

Lemma moves_nonneg mvs :
  Forall mv_nonneg mvs → 0 ≤ Zsum (mv_assigned <$> mvs) ∧ 0 ≤ Zsum (mv_free <$> mvs).
Proof.
  intros Hm. split; apply Zsum_nonneg, Forall_fmap; (eapply Forall_impl; [exact Hm|]);
    intros mv [? ?]; done.
Qed.

Lemma moves_ok mvs sc :
  control_ok sc → Forall mv_nonneg mvs →
  assigned sc + Zsum (mv_assigned <$> mvs) ≤ u64_max →
  unassigned sc + Zsum (mv_free <$> mvs) ≤ u64_max →
  let sc' := foldl apply_move sc mvs in
  control_ok sc' ∧ assigned sc' = assigned sc + Zsum (mv_assigned <$> mvs) ∧
  unassigned sc' = unassigned sc + Zsum (mv_free <$> mvs) ∧
  ∀ j, controlled sc' j = controlled sc j + Zsum (mv_for j <$> mvs).
Proof.
  cbv zeta. intros Hsc Hmvs. revert sc Hsc. induction Hmvs as [|mv mvs [Ha Hf] Hmvs IH]; intros sc Hsc.
  { cbn. intros _ _. split; [done|]. split; [lia|]. split; [lia|]. intros j. lia. }
  destruct (moves_nonneg mvs Hmvs) as [Hna Hnf].
  rewrite !fmap_cons. cbn [Zsum foldl]. intros Hma Hmf.
  assert (control_ok (apply_move sc mv) ∧ assigned (apply_move sc mv) = assigned sc + mv_assigned mv ∧
    unassigned (apply_move sc mv) = unassigned sc + mv_free mv ∧
    ∀ j, controlled (apply_move sc mv) j = controlled sc j + mv_for j mv) as (Hok & H1 & H2 & H3).
  { destruct mv as [i s|s]; cbn [apply_move mv_assigned mv_free mv_for] in *.
    - destruct (add_to_ok sc i s) as (? & ? & ?); [done|done|lia|].
      split; [done|]. split; [done|]. split; [cbn; lia|done].
    - destruct (add_unassigned_ok sc s) as (? & ?); [done|done|lia|].
      split; [done|]. split; [cbn; lia|]. split; [done|]. intros j. unfold controlled, control_by. cbn. lia. }
  destruct (IH _ Hok) as (Hok' & H1' & H2' & H3'); [lia|lia|].
  split; [done|]. split; [lia|]. split; [lia|]. intros j. rewrite fmap_cons. cbn [Zsum].
  rewrite H3', H3. lia.
Qed.

Section building.
Context {PoolId TokenId FragmentId Extra : Type}.
Context `{Countable TokenId} `{Countable FragmentId}.
Abbreviation AccountLedger := (gmap Identifier (AccountState PoolId TokenId Extra)).
Abbreviation UtxoState := (gmap FragmentId (FastSparseArray (Output Address))).

(** What an output gives: to its account, when it has one. *)
Definition controls (j : Identifier) (o : Output Address) : Z :=
  match kind (out_address o) with
  | Group _ account_key => if decide (j = account_key) then out_value o else 0
  | _ => 0
  end.
Definition group_value (o : Output Address) : Z :=
  match kind (out_address o) with Group _ _ => out_value o | _ => 0 end.
Definition single_value (o : Output Address) : Z :=
  match kind (out_address o) with Single _ => out_value o | _ => 0 end.
(** The outputs a UTXO ledger holds: single and group addresses. *)
Definition utxo_output (o : Output Address) : Prop :=
  0 ≤ out_value o ∧ match kind (out_address o) with Single _ | Group _ _ => True | _ => False end.

Definition output_move (o : Output Address) : move :=
  match kind (out_address o) with
  | Group _ account_key => MAssign account_key (out_value o)
  | _ => MFree (out_value o)
  end.
Definition account_move (e : Identifier * AccountState PoolId TokenId Extra) : move :=
  MAssign e.1 (st_value e.2).

Lemma control_turns_moves (sc : StakeControl) outs :
  Forall utxo_output outs →
  foldM control_utxo_turn sc outs = Ok (foldl apply_move sc (output_move <$> outs)).
Proof using Type.
  intros Hos. revert sc. induction Hos as [|o outs [Hv Ho] Hos IH]; intros sc; [done|].
  cbn [foldM fmap list_fmap foldl]. unfold control_utxo_turn, output_move.
  destruct (kind (out_address o)); try done; cbn [mbind outcome_bind apply_move]; apply IH.
Qed.

Lemma update_accounts_moves (sc : StakeControl) (accounts : AccountLedger) :
  update_accounts sc accounts = foldl apply_move sc (account_move <$> map_to_list accounts).
Proof using Type.
  unfold update_accounts. revert sc.
  induction (map_to_list accounts) as [|e es IH]; intros sc; [done|]. cbn [fmap list_fmap foldl].
  apply IH.
Qed.

Lemma output_move_value o :
  utxo_output o →
  mv_nonneg (output_move o) ∧ mv_assigned (output_move o) = group_value o ∧
  mv_free (output_move o) = single_value o ∧ ∀ j, mv_for j (output_move o) = controls j o.
Proof using Type.
  intros [Hv Ho]. unfold output_move, mv_nonneg, group_value, single_value, controls.
  destruct (kind (out_address o)); done.
Qed.

(** The balance of one account as a sum over all. *)
Lemma sum_of_one (accounts : AccountLedger) j :
  Zsum ((λ e, mv_for j (account_move e)) <$> map_to_list accounts) =
    from_option st_value 0 (accounts !! j).
Proof using Type.
  induction accounts as [|i st accounts Hi IH] using map_ind.
  { by rewrite map_to_list_empty, lookup_empty. }
  rewrite (Zsum_perm _ ((λ e, mv_for j (account_move e)) <$> ((i, st) :: map_to_list accounts)))
    by (by rewrite map_to_list_insert).
  rewrite fmap_cons. cbn [Zsum]. rewrite IH. cbn [mv_for account_move fst snd].
  case_decide as Hj; [subst; rewrite lookup_insert_eq, Hi; cbn; lia|].
  rewrite lookup_insert_ne by done. lia.
Qed.
Lemma accounts_sums (accounts : AccountLedger) :
  Zsum (mv_assigned <$> (account_move <$> map_to_list accounts)) = ledger_total accounts ∧
  Zsum (mv_free <$> (account_move <$> map_to_list accounts)) = 0.
Proof using Type.
  unfold ledger_total, map_sum. rewrite <-!list_fmap_compose. split; [done|].
  induction (map_to_list accounts) as [|e es IH]; [done|]. cbn. cbn in IH. lia.
Qed.

Lemma outputs_sums outs (g : move → Z) h :
  Forall utxo_output outs → (∀ o, utxo_output o → g (output_move o) = h o) →
  Zsum (g <$> (output_move <$> outs)) = Zsum (h <$> outs).
Proof using Type.
  intros Hos Hg. induction Hos as [|o outs Ho Hos IH]; [done|]. cbn [fmap list_fmap Zsum].
  rewrite Hg by done. by rewrite IH.
Qed.

Lemma update_accounts_ok (accounts : AccountLedger) :
  ledger_ok accounts → ledger_total accounts ≤ u64_max →
  let sc := update_accounts control_new accounts in
  control_ok sc ∧ assigned sc = ledger_total accounts ∧ unassigned sc = 0 ∧
  ∀ j, controlled sc j = from_option st_value 0 (accounts !! j).
Proof using Type.
  cbv zeta. intros Hl Hm. rewrite update_accounts_moves.
  destruct (accounts_sums accounts) as [Ha Hf].
  destruct (moves_ok (account_move <$> map_to_list accounts) control_new) as (H1 & H2 & H3 & H4).
  - split; [apply map_Forall_empty|]. split; [|done]. cbn. symmetry. apply map_sum_empty.
  - apply Forall_fmap, Forall_forall. intros [i st] Hi%elem_of_map_to_list.
    destruct (Hl i st Hi) as [[? _] _]. split; cbn; [done|lia].
  - rewrite Ha. cbn. lia.
  - rewrite Hf. cbn. done.
  - rewrite Ha in H2. rewrite Hf in H3. cbn in H2, H3. split; [done|]. split; [lia|].
    split; [lia|]. intros j. rewrite H4, <-list_fmap_compose. unfold compose.
    rewrite sum_of_one. unfold controlled, control_by, control_new. cbn [control].
    rewrite lookup_empty. cbn. lia.
Qed.

(** [StakeControl::new_with] splits the value of the ledgers exactly: on
    accounts and outputs (single and group addresses only) whose total fits a
    [u64], it returns, for enough fuel of the iterator, a control whose
    assigned stake is the accounts' total plus the outputs of groups, whose
    unassigned stake is the outputs of single addresses, whose assigned stake
    is the sum over the accounts, and which gives to each account its balance
    and the outputs that name it. *)
Theorem stake_control_of_ledgers (accounts : AccountLedger) (utxos : UtxoState) m :
  ledger_ok accounts → utxo_repr utxos m →
  (∀ tid t i o, m !! tid = Some t → t !! i = Some o → utxo_output o) →
  ledger_total accounts + map_sum (map_sum group_value) m ≤ u64_max →
  map_sum (map_sum single_value) m ≤ u64_max →
  ∃ fuel sc, (∀ n, new_with (n + fuel) accounts utxos = Ok sc) ∧ control_ok sc ∧
    assigned sc = ledger_total accounts + map_sum (map_sum group_value) m ∧
    unassigned sc = map_sum (map_sum single_value) m ∧
    ∀ j, controlled sc j =
      from_option st_value 0 (accounts !! j) + map_sum (map_sum (controls j)) m.
Proof using Type.
  intros Hl Hr Houts Hm1 Hm2.
  destruct (utxo_values_ok utxos m Hr) as (fuel & outs & Hv & Hsum & Hin).
  assert (Forall utxo_output outs) as Hos.
  { apply Forall_forall. intros o Ho. destruct (Hin o Ho) as (tid & t & i & Ht & Hi).
    by eapply Houts. }
  rewrite <-!Hsum in Hm1, Hm2 |- *. setoid_rewrite <-Hsum.
  assert (0 ≤ Zsum (group_value <$> outs)) as Hg0.
  { apply Zsum_nonneg, Forall_fmap. eapply Forall_impl; [exact Hos|]. intros o [Ho _]. cbn.
    unfold group_value. by destruct (kind (out_address o)). }
  destruct (update_accounts_ok accounts Hl ltac:(lia)) as (Hok1 & Ha1 & Hu1 & Hc1).
  pose proof (λ g h, outputs_sums outs g h Hos) as Hsums.
  pose proof (Hsums mv_assigned group_value) as Hsa. pose proof (Hsums mv_free single_value) as Hsf.
  specialize (Hsa (λ o Ho, proj1 (proj2 (output_move_value o Ho)))).
  specialize (Hsf (λ o Ho, proj1 (proj2 (proj2 (output_move_value o Ho))))).
  destruct (moves_ok (output_move <$> outs) (update_accounts control_new accounts))
    as (Hok & Ha & Hu & Hc).
  - done.
  - apply Forall_fmap. eapply Forall_impl; [exact Hos|]. intros o Ho. by apply output_move_value.
  - rewrite Hsa. lia.
  - rewrite Hsf. lia.
  - exists fuel. eexists. split; [|split; [exact Hok|split; [lia|split; [lia|]]]].
    + intros n. unfold new_with, update_utxos. rewrite Hv. cbn [mbind outcome_bind].
      by apply control_turns_moves.
    + intros j. rewrite Hc, Hc1. f_equal. apply Hsums. intros o Ho. by apply output_move_value.
Qed.
End building.

(** The ratio of an account.  On a control whose assigned stake is the sum
    of its entries the ratio is a fraction of at most one with a positive
    denominator, and zero for unknown accounts; but it is undefined (a zero
    passed to [NonZeroU64::new_unchecked]) exactly when the account is known
    and nothing is assigned, which happens: adding a stake to a new control and
    removing it again leaves such an entry. *)
Theorem stake_ratio_by sc i s :
  control_ok sc → u64_ok s →
  (ratio_by sc i = Panic ↔ is_Some (control_by sc i) ∧ assigned sc = 0) ∧
  (control_by sc i = None → ratio_by sc i = Ok ratio_zero) ∧
  (∀ r, ratio_by sc i = Ok r →
    0 ≤ numerator r ≤ denominator r ∧ 0 < denominator r ∧
    numerator r = controlled sc i) ∧
  (∃ sc', remove_from (add_to control_new i s) i s = Ok sc' ∧ control_ok sc' ∧
    ratio_by sc' i = Panic).
Proof.
  intros Hsc Hs. unfold ratio_by, controlled, nonzero. split; [|split; [|split]].
  - destruct (control_by sc i) as [c|]; [|split; [done|by intros [[? ?] _]]].
    destruct (Z.eqb_spec (assigned sc) 0); cbn [unwrap_opt mbind outcome_bind].
    + split; [|done]. by split.
    + split; [done|]. by intros [_ ?].
  - by intros ->.
  - intros r. destruct (control_by sc i) as [c|] eqn:Hc.
    + pose proof (control_le_assigned sc i c Hsc Hc).
      destruct (Z.eqb_spec (assigned sc) 0); cbn [unwrap_opt mbind outcome_bind]; [done|].
      intros <-%Ok_inj. cbn. lia.
    + intros <-%Ok_inj. cbn. lia.
  - assert (control_ok control_new) as Hnew.
    { split; [apply map_Forall_empty|]. split; [|done]. symmetry. apply map_sum_empty. }
    unfold in_u in Hs. destruct (add_to_ok control_new i s Hnew) as (Hok & Ha & Hc); [lia|cbn; unfold u64_max; lia|].
    cbn [assigned control_new] in Ha.
    assert (control_by (add_to control_new i s) i = Some s) as Hby.
    { unfold control_by, add_to, hm_insert_or_update_simple. cbn [control control_new].
      rewrite lookup_empty. cbn [control]. apply lookup_insert_eq. }
    destruct (remove_from_ok (add_to control_new i s) i s s Hok) as (sc' & Hrun & Hok' & Ha' & _ & Hb & _);
      [unfold u64_max; lia|done|lia|].
    exists sc'. split; [done|]. split; [done|]. rewrite Hb.
    assert (assigned sc' = 0) as -> by lia. done.
Qed.

Lemma stake_ratio_by_witness :
  (∃ r, ratio_by (mkControl 30 5 (<[demo_key 1 := 20]> {[ demo_key 2 := 10 ]})) (demo_key 1) = Ok r ∧
    0 ≤ numerator r ≤ denominator r) ∧
  ∃ sc', remove_from (add_to control_new (demo_key 1) 9) (demo_key 1) 9 = Ok sc' ∧
    ratio_by sc' (demo_key 1) = Panic.
Proof.
  assert (control_ok (mkControl 30 5 (<[demo_key 1 := 20]> {[ demo_key 2 := 10 ]}))) as Hok.
  { split; [|split; [vm_compute; reflexivity|cbn; lia]].
    apply map_Forall_insert_2; [lia|]. apply map_Forall_singleton. lia. }
  assert (u64_ok 9) as H9 by (split; vm_compute; [discriminate|reflexivity]).
  destruct (stake_ratio_by _ (demo_key 1) 9 Hok H9) as (_ & _ & H1 & sc' & H2 & _ & H3). split.
  - exists (mkRatio 20 30). split; [vm_compute; reflexivity|].
    apply (H1 (mkRatio 20 30)). vm_compute. reflexivity.
  - exists sc'. split; [exact H2|exact H3].
Defined.

Lemma stake_control_of_ledgers_witness :
  ∃ fuel sc, new_with fuel demo_accounts demo_stake_utxo = Ok sc ∧
    assigned sc = 150 ∧ unassigned sc = 0 ∧ controlled sc (demo_key 5) = 150.
Proof.
  destruct demo_accounts_ok as [Hl _].
  destruct (stake_control_of_ledgers demo_accounts demo_stake_utxo demo_stake_map Hl demo_stake_repr)
    as (fuel & sc & Hrun & _ & Ha & Hu & Hc).
  - intros tid t i o Ht Hi. destruct (demo_stake_outputs_ok tid t i o Ht Hi) as [Hv Ho].
    split; [exact Hv|]. destruct (kind (out_address o)); exact I || exact Ho.
  - vm_compute. discriminate.
  - vm_compute. discriminate.
  - exists fuel, sc. split; [exact (Hrun 0%nat)|]. split; [rewrite Ha; vm_compute; reflexivity|].
    split; [rewrite Hu; vm_compute; reflexivity|]. rewrite Hc. vm_compute. reflexivity.
Defined.
