(* ===== verification/Key.v ===== *)
(** * Keys on the wire, and the readers of the ledger's formats

    A reader is [local] when it never panics and what it returns depends only
    on the bytes it consumed: on success those bytes alone determine the
    result wherever they stand.  The readers of the ledger's formats are built
    from local ones by sequencing and case analysis; locality is what makes a
    second pass over bytes that were validated once succeed with the same
    result.  On top of them come the keys and identifiers of [key.rs]. *)
From stdpp Require Import pretty.
From S2P Require Import Prelude Codec Addr.
Local Open Scope Z_scope.

(** The cursor between the bytes already read and the rest. *)
Definition rb_at (pre rest : list Z) : ReadBuf := mkReadBuf (length pre) (pre ++ rest).

Definition local {A} (r : Reader A) : Prop := ∀ pre rest,
  match r (rb_at pre rest) with
  | Ok (a, b') => ∃ bs post, rest = bs ++ post ∧ b' = rb_at (pre ++ bs) post ∧ reads r a bs
  | Err _ => True
  | Panic => False
  end.

(** The same of a reader that may panic. *)
Definition partial_local {A} (r : Reader A) : Prop := ∀ pre rest a b',
  r (rb_at pre rest) = Ok (a, b') → ∃ bs post, rest = bs ++ post ∧ b' = rb_at (pre ++ bs) post ∧ reads r a bs.
Lemma local_partial {A} (r : Reader A) : local r → partial_local r.
Proof. intros Hr pre rest a b' Ho. specialize (Hr pre rest). by rewrite Ho in Hr. Qed.

Lemma reads_at {A} (r : Reader A) a bs :
  reads r a bs ↔ ∀ pre post, r (rb_at pre (bs ++ post)) = Ok (a, rb_at (pre ++ bs) post).
Proof.
  unfold reads, rb_at. split; intros Hr pre post.
  - by rewrite Hr, length_app, <-app_assoc.
  - by rewrite Hr, length_app, <-app_assoc.
Qed.

Lemma rb_at_ok pre rest : rb_ok (rb_at pre rest).
Proof. unfold rb_ok, rb_at. cbn. rewrite length_app. lia. Qed.
Lemma rb_at_left pre rest : rb_left (rb_at pre rest) = length rest.
Proof. unfold rb_left, rb_at. cbn. rewrite length_app. lia. Qed.

Lemma local_ret {A} (a : A) : local (mret a).
Proof.
  intros pre rest. cbn. exists [], rest. rewrite app_nil_r. split_and!; [done..|apply reads_ret].
Qed.
Lemma local_fail {A} e : local (read_fail (A := A) e).
Proof. by intros pre rest. Qed.

Lemma local_bind {A B} (r : Reader A) (k : A → Reader B) :
  local r → (∀ a, local (k a)) → local (r ≫= k).
Proof.
  intros Hr Hk pre rest. rewrite reader_bind_eq. specialize (Hr pre rest).
  destruct (r (rb_at pre rest)) as [[a b']|e|]; cbn [mbind outcome_bind]; [|done..].
  destruct Hr as (bs & post & -> & -> & Ha). specialize (Hk a (pre ++ bs) post).
  destruct (k a (rb_at (pre ++ bs) post)) as [[b b'']|e|]; [|done..].
  destruct Hk as (bs' & post' & -> & -> & Hb). exists (bs ++ bs'), post'.
  rewrite <-!app_assoc. split_and!; [done..|]. by eapply reads_bind.
Qed.

Lemma local_get_slice n : local (get_slice n).
Proof.
  intros pre rest. rewrite get_slice_eq by apply rb_at_ok. rewrite rb_at_left.
  case_decide as Hn; [|done]. exists (take n rest), (drop n rest).
  unfold rb_next, rb_advance, rb_at. cbn. rewrite drop_app_length, take_drop.
  split; [done|]. split.
  - rewrite length_app, length_take, <-app_assoc, take_drop. f_equal. lia.
  - apply reads_slice_len. rewrite length_take. lia.
Qed.

Lemma local_get_u8 : local get_u8.
Proof.
  intros pre rest. unfold get_u8, assure_size. rewrite reader_bind_eq, rb_at_left.
  case_decide as Hn; [|done]. destruct rest as [|b rest]; [cbn in Hn; lia|].
  cbn. rewrite list_lookup_middle by done. cbn. exists [b], rest. split; [done|].
  unfold rb_at. rewrite length_app, <-app_assoc. split; [done|]. apply reads_u8.
Qed.

Lemma local_slice_map {A} n (f : list Z → A) : local (s ← get_slice n; mret (f s)).
Proof. apply local_bind; [apply local_get_slice|]. intros. apply local_ret. Qed.

Lemma local_vec {A} (r : Reader A) n : local r → local (read_vec r n).
Proof.
  intros Hr. induction n as [|n IH]; cbn [read_vec]; [apply local_ret|].
  apply local_bind; [done|]. intros a. apply local_bind; [done|]. intros. apply local_ret.
Qed.

Lemma local_if {A} (c : bool) (r1 r2 : Reader A) : local r1 → local r2 → local (if c then r1 else r2).
Proof. by destruct c. Qed.

(** What a reader that consumes nothing of an empty buffer cannot return. *)
Lemma reads_nonempty {A} (r : Reader A) a bs :
  (∀ a', r (rb_at [] []) ≠ Ok (a', rb_at [] [])) → reads r a bs → bs ≠ [].
Proof.
  intros Hr Ha ->. rewrite reads_at in Ha. specialize (Ha [] []). by apply (Hr a).
Qed.

(** ** Validation passes *)
Definition read_validate {A} (r : Reader A) : Reader unit := r ;; mret ().
Fixpoint repeat_validate {A} (n : nat) (r : Reader A) : Reader unit :=
  match n with O => mret () | S n => read_validate r ;; repeat_validate n r end.

Lemma read_validate_inv {A} (r : Reader A) pre rest b' :
  partial_local r → read_validate r (rb_at pre rest) = Ok ((), b') →
  ∃ a bs post, rest = bs ++ post ∧ b' = rb_at (pre ++ bs) post ∧ reads r a bs.
Proof.
  intros Hr. unfold read_validate. rewrite reader_bind_eq. specialize (Hr pre rest).
  destruct (r (rb_at pre rest)) as [[a b]|e|]; cbn; [|done..]. intros [= <-].
  destruct (Hr a b eq_refl) as (bs & post & -> & -> & Ha). by exists a, bs, post.
Qed.

Lemma repeat_validate_inv {A} (r : Reader A) n pre rest b' :
  local r → repeat_validate n r (rb_at pre rest) = Ok ((), b') →
  ∃ (l : list (A * list Z)) post, length l = n ∧ rest = concat l.*2 ++ post ∧
    b' = rb_at (pre ++ concat l.*2) post ∧ Forall (λ ab, reads r ab.1 ab.2) l.
Proof.
  intros Hr. revert pre rest. induction n as [|n IH]; intros pre rest; cbn [repeat_validate].
  { intros [= <-]. exists [], rest. rewrite app_nil_r. split_and!; [done..|constructor]. }
  rewrite reader_bind_eq. intros ([[] b] & H1 & H2)%bind_Ok.
  destruct (read_validate_inv r pre rest b (local_partial r Hr) H1) as (a & bs & post & -> & -> & Ha).
  destruct (IH _ _ H2) as (l & post' & <- & -> & -> & Hl).
  exists ((a, bs) :: l), post'. cbn. rewrite <-!app_assoc. split_and!; [done..|by constructor].
Qed.

Lemma reads_validate {A} (r : Reader A) a bs : reads r a bs → reads (read_validate r) () bs.
Proof. intros Hr. rewrite <-(app_nil_r bs). eapply reads_bind; [done|apply reads_ret]. Qed.

Lemma reads_repeat_validate {A} (r : Reader A) (l : list (A * list Z)) :
  Forall (λ ab, reads r ab.1 ab.2) l →
  reads (repeat_validate (length l) r) () (concat l.*2).
Proof.
  induction 1 as [|[a bs] l Ha Hl IH]; [apply reads_ret|]. cbn.
  eapply reads_bind; [by eapply reads_validate|done].
Qed.

(** Skipping bytes. *)
Lemma skip_bytes_at n pre rest :
  skip_bytes n (rb_at pre rest) =
    if decide (n ≤ length rest)%nat then Ok ((), rb_at (pre ++ take n rest) (drop n rest))
    else Err (NotEnoughBytes (length rest) n).
Proof.
  unfold skip_bytes, assure_size. rewrite reader_bind_eq, rb_at_left. case_decide; [|done]. cbn.
  unfold rb_at. rewrite length_app, length_take, <-app_assoc, take_drop. do 3 f_equal. lia.
Qed.

Create HintDb readers.
#[export] Hint Resolve local_ret local_fail local_bind local_get_slice local_get_u8 local_vec
  local_if local_slice_map : readers.

(** * Keys on the wire ([key.rs], [chain-crypto/src/algorithms/ed25519.rs])

    Public keys are 32 bytes, signatures 64, hashes 32; [read_mut_slice] reads
    them byte by byte. *)
Local Open Scope Z_scope.

Definition PUBLIC_KEY_SIZE : nat := 32.
Definition SIGNATURE_SIZE : nat := 64.
Definition HASH_SIZE : nat := 32.

Inductive SignatureError := SigSizeInvalid (expected got : nat) | SigStructureInvalid.
Definition signature_from_bytes (data : list Z) : outcome SignatureError (list Z) :=
  if (length data =? SIGNATURE_SIZE)%nat then Ok data
  else Err (SigSizeInvalid SIGNATURE_SIZE (length data)).
Definition chain_crypto_sig_err (e : SignatureError) : ReadError :=
  match e with
  | SigSizeInvalid expected got =>
      StructureInvalid ("signature size invalid, expected " +:+ pretty expected +:+ " got " +:+ pretty got)
  | SigStructureInvalid => StructureInvalid "signature structure invalid"
  end.

(** [read_mut_slice] on a slice of bytes. *)
Definition read_mut_slice (n : nat) : Reader (list Z) := read_vec get_u8 n.
(** [r.map_err(..)?] inside a reader. *)
Definition reader_of {E A} (f : E → ReadError) (m : outcome E A) : Reader A := λ b,
  a ← map_err f m; Ok (a, b).
Definition deserialize_public_key : Reader PublicKey :=
  bytes ← read_mut_slice PUBLIC_KEY_SIZE; reader_of chain_crypto_err (public_from_binary bytes).
Definition deserialize_signature : Reader (list Z) :=
  bytes ← read_mut_slice SIGNATURE_SIZE; reader_of chain_crypto_sig_err (signature_from_bytes bytes).
Definition hash_read : Reader (list Z) := read_array HASH_SIZE.

Lemma reads_mut_slice n bs : length bs = n → reads (read_mut_slice n) bs bs.
Proof.
  intros <-. unfold read_mut_slice.
  assert (concat ((λ b, [b]) <$> bs) = bs) as Hc.
  { induction bs as [|b bs IH]; [done|]. cbn. by rewrite IH. }
  rewrite <-Hc at 3. apply reads_vec. intros b _. apply reads_u8.
Qed.

Lemma reads_of {E A} (f : E → ReadError) (a : A) : reads (reader_of f (Ok a)) a [].
Proof. intros pre post. unfold reader_of. cbn. by rewrite Nat.add_0_r. Qed.

Lemma reads_public_key pk :
  length pk = PUBLIC_KEY_SIZE → reads deserialize_public_key pk pk.
Proof.
  intros Hl. rewrite <-(app_nil_r pk) at 2. eapply reads_bind; [by apply reads_mut_slice|].
  rewrite public_from_binary_ok by done. apply reads_of.
Qed.

Lemma reads_signature s : length s = SIGNATURE_SIZE → reads deserialize_signature s s.
Proof.
  intros Hl. rewrite <-(app_nil_r s) at 2. eapply reads_bind; [by apply reads_mut_slice|].
  unfold signature_from_bytes. rewrite Hl. apply reads_of.
Qed.
