(* ===== verification/Multisig.v ===== *)
(** * Multisig accounts ([multisig/{index,declaration,witness,ledger}.rs])

    A multisig account is declared by a threshold and owners, named by the hash
    of both.  Hashing (Blake2b256) and signature verification (Ed25519) come
    from external libraries: the hash function and the verification are
    parameters. *)
From S2P Require Import Prelude Codec Value Hamt HamtSpec Spending Account Addr Key.
Local Open Scope Z_scope.

(** ** [index.rs] *)
Definition LEVEL_MAXLIMIT : Z := 8.
(** An [Index] is a [u8]. *)
Definition index_from_u8 (v : Z) : option Z := if LEVEL_MAXLIMIT <? v then None else Some v.

Inductive TreeIndex := D1 (a : Z) | D2 (a b : Z).
#[export] Instance TreeIndex_eq_dec : EqDecision TreeIndex.
Proof. solve_decision. Defined.

(** [Ordering::then]. *)
Definition cmp_then (c d : comparison) : comparison := match c with Eq => d | _ => c end.
Definition treeindex_cmp (x y : TreeIndex) : comparison :=
  match x, y with
  | D1 a, D1 b => a ?= b
  | D1 a, D2 b1 _ => cmp_then (a ?= b1) Lt
  | D2 a1 _, D1 b => cmp_then (a1 ?= b) Gt
  | D2 a1 a2, D2 b1 b2 => cmp_then (a1 ?= b1) (a2 ?= b2)
  end.
Definition treeindex_indices (t : TreeIndex) : list Z :=
  match t with D1 a => [a] | D2 a b => [a; b] end.
Definition treeindex_depth (t : TreeIndex) : nat := match t with D1 _ => 0 | D2 _ _ => 1 end.

Definition TREEINDEX_TAG_DEPTH1 : Z := 1.
Definition TREEINDEX_TAG_DEPTH2 : Z := 2.
Definition shl16 (x n : Z) : Z := wrap 16 (Z.shiftl x n).
Definition treeindex_pack (t : TreeIndex) : Z :=
  match t with
  | D1 a => wrap 16 (shl16 TREEINDEX_TAG_DEPTH1 12 + shl16 a 9)
  | D2 a b => wrap 16 (wrap 16 (shl16 TREEINDEX_TAG_DEPTH2 12 + shl16 a 9) + shl16 b 6)
  end.
Definition treeindex_unpack (value : Z) : option TreeIndex :=
  let tag := Z.land (Z.shiftr value 12) 15 in
  let a := Z.land (Z.shiftr value 9) 7 in
  let b := Z.land (Z.shiftr value 6) 7 in
  let c := Z.land (Z.shiftr value 3) 7 in
  let d := Z.land value 7 in
  if negb (c =? 0) || negb (d =? 0) then None
  else if tag =? TREEINDEX_TAG_DEPTH1 then if negb (b =? 0) then None else Some (D1 a)
  else if tag =? TREEINDEX_TAG_DEPTH2 then Some (D2 a b)
  else None.

(** An index that fits its three bits. *)
Definition treeindex_ok (t : TreeIndex) : Prop := Forall (λ i, 0 ≤ i < 8) (treeindex_indices t).

Lemma shl16_mul x n : 0 ≤ n → shl16 x n = wrap 16 (x * 2 ^ n).
Proof. intros. unfold shl16. by rewrite Z.shiftl_mul_pow2. Qed.

(** Packing in arithmetic, within the widths of the indices. *)
Lemma treeindex_pack_eq t :
  treeindex_ok t →
  treeindex_pack t = match t with
                     | D1 a => 4096 + a * 512
                     | D2 a b => 8192 + a * 512 + b * 64
                     end.
Proof.
  unfold treeindex_ok, treeindex_pack. destruct t as [a|a b]; cbn [treeindex_indices];
    rewrite ?Forall_cons; intros Hi; rewrite !shl16_mul by lia;
    unfold TREEINDEX_TAG_DEPTH1, TREEINDEX_TAG_DEPTH2, wrap;
    change (2 ^ 16) with 65536; change (2 ^ 12) with 4096; change (2 ^ 9) with 512;
    change (2 ^ 6) with 64; dlia.
Qed.

(** Unpacking in arithmetic. *)
Lemma treeindex_unpack_eq v :
  treeindex_unpack v =
    (if negb ((v `div` 8) `mod` 8 =? 0) || negb (v `mod` 8 =? 0) then None
     else if (v `div` 4096) `mod` 16 =? 1 then
       if negb ((v `div` 64) `mod` 8 =? 0) then None else Some (D1 ((v `div` 512) `mod` 8))
     else if (v `div` 4096) `mod` 16 =? 2 then
       Some (D2 ((v `div` 512) `mod` 8) ((v `div` 64) `mod` 8))
     else None).
Proof.
  unfold treeindex_unpack. change 15 with (Z.ones 4). change 7 with (Z.ones 3).
  rewrite !Z.land_ones by lia. rewrite !Z.shiftr_div_pow2 by lia. reflexivity.
Qed.

Lemma treeindex_unpack_pack t : treeindex_ok t → treeindex_unpack (treeindex_pack t) = Some t.
Proof.
  intros Ht. rewrite treeindex_pack_eq by done. rewrite treeindex_unpack_eq.
    unfold treeindex_ok in Ht. destruct t as [a|a b]; cbn [treeindex_indices] in Ht;
    rewrite ?Forall_cons in Ht.
  - rewrite (proj2 (Z.eqb_eq (((4096 + a * 512) `div` 8) `mod` 8) 0)) by dlia.
    rewrite (proj2 (Z.eqb_eq ((4096 + a * 512) `mod` 8) 0)) by dlia.
    rewrite (proj2 (Z.eqb_eq (((4096 + a * 512) `div` 4096) `mod` 16) 1)) by dlia.
    rewrite (proj2 (Z.eqb_eq (((4096 + a * 512) `div` 64) `mod` 8) 0)) by dlia.
    cbn [negb orb]. do 2 f_equal. dlia.
  - set (w := 8192 + a * 512 + b * 64).
    rewrite (proj2 (Z.eqb_eq ((w `div` 8) `mod` 8) 0)) by (subst w; dlia).
    rewrite (proj2 (Z.eqb_eq (w `mod` 8) 0)) by (subst w; dlia).
    rewrite (proj2 (Z.eqb_neq ((w `div` 4096) `mod` 16) 1)) by (subst w; dlia).
    rewrite (proj2 (Z.eqb_eq ((w `div` 4096) `mod` 16) 2)) by (subst w; dlia).
    cbn [negb orb]. f_equal. f_equal; subst w; dlia.
Qed.

(** The packed form of a tree index: packing is inverted by unpacking, and
    what unpacks is packed from indices of three bits; but [Index::from_u8]
    accepts 8, which runs over into the tag of the next depth. *)
Theorem treeindex_pack_roundtrip t v :
  (treeindex_ok t → treeindex_unpack (treeindex_pack t) = Some t) ∧
  (u16_ok v → treeindex_unpack v = Some t → treeindex_ok t ∧ treeindex_pack t = v) ∧
  (index_from_u8 8 = Some 8 ∧ treeindex_unpack (treeindex_pack (D1 8)) = Some (D2 0 0)).
Proof.
  split; [apply treeindex_unpack_pack|split; [|split; reflexivity]].
  intros Hv. rewrite treeindex_unpack_eq. unfold in_u in Hv. change (2 ^ 16) with 65536 in Hv.
    destruct (Z.eqb_spec ((v `div` 8) `mod` 8) 0) as [H1|]; [|done].
    destruct (Z.eqb_spec (v `mod` 8) 0) as [H2|]; [|done]. cbn [negb orb].
    destruct (Z.eqb_spec ((v `div` 4096) `mod` 16) 1) as [H3|].
    + destruct (Z.eqb_spec ((v `div` 64) `mod` 8) 0) as [H4|]; [|done]. cbn [negb]. intros [= <-].
      assert (treeindex_ok (D1 ((v `div` 512) `mod` 8))) as Hok.
      { repeat constructor; apply Z.mod_pos_bound; lia. }
      split; [done|]. rewrite treeindex_pack_eq by done. dlia.
    + destruct (Z.eqb_spec ((v `div` 4096) `mod` 16) 2) as [H3|]; [|done]. intros [= <-].
      assert (treeindex_ok (D2 ((v `div` 512) `mod` 8) ((v `div` 64) `mod` 8))) as Hok.
      { repeat constructor; apply Z.mod_pos_bound; lia. }
      split; [done|]. rewrite treeindex_pack_eq by done. dlia.
Qed.

(** ** [declaration.rs] *)
Abbreviation KeyHash := (list Z).
Inductive Declaration := mkDecl (threshold : Z) (owners : list DeclElement)
with DeclElement := DSub (d : Declaration) | DOwner (hash : KeyHash).
Definition decl_threshold (d : Declaration) : Z := match d with mkDecl t _ => t end.
Definition decl_owners (d : Declaration) : list DeclElement := match d with mkDecl _ os => os end.
Definition decl_total (d : Declaration) : nat := length (decl_owners d).

Inductive DeclarationError :=
| ThresholdInvalid | HasNotEnoughOwners | HasTooManyOwners | SubNotImplemented.
Definition decl_is_valid (d : Declaration) : outcome DeclarationError unit :=
  if (decl_threshold d <? 1) || (Z.of_nat (decl_total d) <? decl_threshold d)
  then Err ThresholdInvalid
  else if (decl_total d <=? 1)%nat then Err HasNotEnoughOwners
  else if LEVEL_MAXLIMIT <? Z.of_nat (decl_total d) then Err HasTooManyOwners
  else Ok ().
Definition get_path (d : Declaration) (ti : TreeIndex) : option (Declaration * Z) :=
  match ti with
  | D1 idx => Some (d, idx)
  | D2 r idx =>
      match decl_owners d !! Z.to_nat r with
      | Some (DSub d') => Some (d', idx)
      | Some (DOwner _) => None
      | None => None
      end
  end.

Inductive MultisigError :=
| ParticipantOutOfBound | MAlreadyExist | MDoesntExist
| MDeclarationError (e : DeclarationError) | MAccountError (e : Spending.LedgerError)
| IdentifierMismatch | ThresholdNotMet.

(** An element of a witness: the place of the owner, its key, its signature. *)
Abbreviation MultisigWitness := (list (TreeIndex * PublicKey * list Z)).

Section hashing.
Context (hash_bytes : list Z → KeyHash).

Fixpoint decl_to_identifier (d : Declaration) : KeyHash :=
  match d with
  | mkDecl threshold owners =>
      hash_bytes (threshold ::
        concat (map (λ o, match o with DSub d => decl_to_identifier d | DOwner h => h end) owners))
  end.
Definition elem_to_hash (o : DeclElement) : KeyHash :=
  match o with DSub d => decl_to_identifier d | DOwner h => h end.
Definition elem_from_publickey (key : PublicKey) : DeclElement := DOwner (hash_bytes key).
Definition owners_to_identifier (threshold : Z) (owners : list DeclElement) : KeyHash :=
  hash_bytes (threshold :: concat (map elem_to_hash owners)).

Lemma decl_to_identifier_eq d :
  decl_to_identifier d = owners_to_identifier (decl_threshold d) (decl_owners d).
Proof. by destruct d. Qed.

(** ** [witness.rs] *)
(** [opt[idx] = Some(w)], after the bound check. *)
Definition opt_step (opt : list (option PublicKey)) (iw : Z * PublicKey) :
    outcome MultisigError (list (option PublicKey)) :=
  let idx := Z.to_nat iw.1 in
  if (length opt <=? idx)%nat then Err ParticipantOutOfBound
  else Ok (<[idx := Some iw.2]> opt).
Definition verify_identifier_threshold (d : Declaration) (witnesses : list (Z * PublicKey)) :
    outcome MultisigError unit :=
  if Z.of_nat (length witnesses) <? decl_threshold d then Err ThresholdNotMet
  else
    opt ← foldM opt_step (replicate (decl_total d) None) witnesses;
    let r := zip_with (λ (v : option PublicKey) o,
               match v with None => o | Some p => elem_from_publickey p end) opt (decl_owners d) in
    let got := owners_to_identifier (decl_threshold d) r in
    if bool_decide (got = decl_to_identifier d) then Ok () else Err IdentifierMismatch.

(** [Signature::verify(pk, msg)], [true] for [Verification::Success]. *)
Context (sig_verify : list Z → PublicKey → list Z → bool).
Fixpoint verify_collect (w : MultisigWitness) (msg : list Z) : option (list (Z * PublicKey)) :=
  match w with
  | [] => Some []
  | (D2 _ _, _, _) :: _ => None
  | (D1 i, pk, sig) :: w =>
      if sig_verify sig pk msg then cons (i, pk) <$> verify_collect w msg else None
  end.
Definition multisig_verify (w : MultisigWitness) (d : Declaration) (msg : list Z) : bool :=
  match verify_collect w msg with
  | None => false
  | Some v => is_ok (verify_identifier_threshold d v)
  end.

(** *** Soundness of the verification *)
Lemma concat_inj_32 (l1 l2 : list (list Z)) :
  Forall (λ x, length x = 32%nat) l1 → Forall (λ x, length x = 32%nat) l2 →
  length l1 = length l2 → concat l1 = concat l2 → l1 = l2.
Proof using Type.
  intros H1. revert l2. induction H1 as [|x l1 Hx H1 IH]; intros [|y l2] H2 Hl; try done.
  cbn. apply Forall_cons in H2 as [Hy H2]. intros Hc. apply app_inj_1 in Hc as [-> Hc]; [|congruence].
  f_equal. apply IH; [done|cbn in Hl; lia|done].
Qed.

Lemma opt_steps_ok ws opt opt' :
  foldM opt_step opt ws = Ok opt' →
  length opt' = length opt ∧
  (∀ i pk, (i, pk) ∈ ws → (Z.to_nat i < length opt)%nat) ∧
  (∀ j, (∀ i pk, (i, pk) ∈ ws → Z.to_nat i ≠ j) → opt' !! j = opt !! j) ∧
  (NoDup (Z.to_nat ∘ fst <$> ws) → ∀ i pk, (i, pk) ∈ ws → opt' !! Z.to_nat i = Some (Some pk)).
Proof using Type.
  revert opt. induction ws as [|[i0 p0] ws IH]; cbn [foldM]; intros opt.
  { intros <-%Ok_inj. split; [done|]. split; [by intros ??; rewrite elem_of_nil|].
    split; [done|]. by intros _ ??; rewrite elem_of_nil. }
  intros (opt1 & H1 & Hrun)%bind_Ok. unfold opt_step in H1. cbn [fst snd] in H1.
  destruct (Nat.leb_spec (length opt) (Z.to_nat i0)) as [|Hlt]; [done|]. apply Ok_inj in H1 as <-.
  destruct (IH _ Hrun) as (Hlen & Hin & Hout & Hnd). rewrite length_insert in Hlen, Hin.
  split; [done|]. split; [|split].
  - intros i pk [[= -> ->]|Hw]%elem_of_cons; [done|by eapply Hin].
  - intros j Hj. rewrite Hout.
    + apply list_lookup_insert_ne. apply (Hj i0 p0). by left.
    + intros i pk Hw. apply (Hj i pk). by right.
  - intros [Hnin Hnd']%NoDup_cons i pk [[= -> ->]|Hw]%elem_of_cons; [|by apply Hnd].
    rewrite Hout; [by apply list_lookup_insert_eq|].
    intros i pk' Hw Heq. apply Hnin. apply list_elem_of_fmap. by exists (i, pk').
Qed.

(** An accepted witness holds the keys of as many owners as the threshold asks,
    or exhibits a collision of the hash. *)
Lemma verify_identifier_threshold_sound d ws :
  (∀ x, length (hash_bytes x) = 32%nat) →
  Forall (λ o, length (elem_to_hash o) = 32%nat) (decl_owners d) →
  NoDup (Z.to_nat ∘ fst <$> ws) →
  verify_identifier_threshold d ws = Ok () →
  decl_threshold d ≤ Z.of_nat (length ws) ∧
  ((∃ x y, x ≠ y ∧ hash_bytes x = hash_bytes y) ∨
   ∀ i pk, (i, pk) ∈ ws → elem_to_hash <$> decl_owners d !! Z.to_nat i = Some (hash_bytes pk)).
Proof using Type.
  intros Hh Ho Hnd. unfold verify_identifier_threshold.
  destruct (Z.ltb_spec (Z.of_nat (length ws)) (decl_threshold d)) as [|Hthr]; [done|].
  intros (opt & Hopt & Hrest)%bind_Ok. split; [done|].
  destruct (opt_steps_ok _ _ _ Hopt) as (Hlen & Hin & _ & Hget). rewrite length_replicate in Hlen, Hin.
  specialize (Hget Hnd). unfold decl_total in *.
  set (r := zip_with _ opt (decl_owners d)) in *.
  case_bool_decide as Heq; [|done]. clear Hrest.
  rewrite decl_to_identifier_eq in Heq. unfold owners_to_identifier in Heq.
  destruct (decide (decl_threshold d :: concat (map elem_to_hash r) =
    decl_threshold d :: concat (map elem_to_hash (decl_owners d)))) as [He|Hne]; [|left; eauto].
  right. injection He as He. apply concat_inj_32 in He.
  - intros i pk Hw. pose proof (Hget i pk Hw) as Hg. pose proof (Hin i pk Hw) as Hlt.
    destruct (lookup_lt_is_Some_2 (decl_owners d) (Z.to_nat i) Hlt) as [o Hoi].
    assert (r !! Z.to_nat i = Some (elem_from_publickey pk)) as Hr.
    { subst r. by rewrite lookup_zip_with, Hg, Hoi. }
    assert (map elem_to_hash r !! Z.to_nat i = map elem_to_hash (decl_owners d) !! Z.to_nat i) as Hm
      by (by rewrite He).
    rewrite !list_lookup_fmap, Hr in Hm. rewrite <-Hm. done.
  - apply Forall_fmap, Forall_forall. intros o Hor. subst r.
    apply elem_of_lookup_zip_with in Hor as (j & v & o' & -> & Hv & Ho'). cbn.
    destruct v; [apply Hh|]. rewrite Forall_forall in Ho. apply Ho. by eapply list_elem_of_lookup_2.
  - apply Forall_fmap. done.
  - rewrite !length_map. subst r. rewrite length_zip_with. lia.
Qed.

Lemma verify_collect_ok w msg v :
  verify_collect w msg = Some v →
  w.*1 = (λ iw : Z * PublicKey, (D1 iw.1, iw.2)) <$> v ∧ Forall (λ e, sig_verify e.2 e.1.2 msg = true) w.
Proof using Type.
  revert v. induction w as [|[[ti pk] sig] w IH]; intros v; cbn [verify_collect].
  { intros [= <-]. split; [done|constructor]. }
  destruct ti as [i|]; [|done]. destruct (sig_verify sig pk msg) eqn:Hs; [|done].
  destruct (verify_collect w msg) as [v'|]; [|done]. intros [= <-].
  destruct (IH v' eq_refl) as [H1 H2]. split; [cbn; by rewrite H1|by constructor].
Qed.

(** The places of a witness are distinct, as [Witness::read] and the builder
    ensure. *)
Definition witness_distinct (w : MultisigWitness) : Prop := NoDup w.*1.*1 ∧
  Forall (λ ti, Forall (λ i, 0 ≤ i) (treeindex_indices ti)) w.*1.*1.

(** C27. A multisig witness that verifies meets the threshold: at least as many
    signatures as the threshold, each of them valid for its key on the data,
    and each key the one whose hash the declaration names at that place (unless
    the hash function collides). *)
Theorem multisig_verify_sound w d msg :
  (∀ x, length (hash_bytes x) = 32%nat) →
  Forall (λ o, length (elem_to_hash o) = 32%nat) (decl_owners d) →
  witness_distinct w → multisig_verify w d msg = true →
  decl_threshold d ≤ Z.of_nat (length w) ∧
  (∀ ti pk sig, (ti, pk, sig) ∈ w → sig_verify sig pk msg = true) ∧
  ((∃ x y, x ≠ y ∧ hash_bytes x = hash_bytes y) ∨
   ∀ ti pk sig, (ti, pk, sig) ∈ w →
     ∃ i, ti = D1 i ∧ elem_to_hash <$> decl_owners d !! Z.to_nat i = Some (hash_bytes pk)).
Proof using Type.
  intros Hh Ho [Hnd Hpos]. unfold multisig_verify. destruct (verify_collect w msg) as [v|] eqn:Hv; [|done].
  destruct (verify_collect_ok w msg v Hv) as [Hw Hsigs].
  destruct (verify_identifier_threshold d v) as [[]|e|] eqn:Hok; [|done..]. intros _.
  assert (length w = length v) as Hlen.
  { apply (f_equal length) in Hw. by rewrite !length_fmap in Hw. }
  assert (NoDup (Z.to_nat ∘ fst <$> v)) as Hnd'.
  { rewrite Hw, <-list_fmap_compose in Hnd, Hpos. rewrite Forall_fmap in Hpos.
    clear -Hnd Hpos. induction Hpos as [|[i pk] v Hi Hpos IH]; [constructor|].
    cbn in Hnd |- *. apply NoDup_cons in Hnd as [Hnin Hnd]. apply NoDup_cons. split; [|by apply IH].
    intros ([j pk'] & Hj & Hin)%list_elem_of_fmap. apply Hnin. apply list_elem_of_fmap.
    exists (j, pk'). split; [|done]. cbn in *. rewrite Forall_forall in Hpos.
    specialize (Hpos (j, pk') Hin). cbn in Hpos. apply Forall_inv in Hi, Hpos. f_equal. lia. }
  destruct (verify_identifier_threshold_sound d v Hh Ho Hnd' Hok) as [Hthr Hkeys].
  split; [lia|]. split.
  - intros ti pk sig Hin. rewrite Forall_forall in Hsigs. by apply (Hsigs (ti, pk, sig)).
  - destruct Hkeys as [Hcol|Hkeys]; [by left|]. right. intros ti pk sig Hin.
    assert ((ti, pk) ∈ w.*1) as Hin1 by (apply list_elem_of_fmap; by exists (ti, pk, sig)).
    rewrite Hw in Hin1. apply list_elem_of_fmap in Hin1 as ([i pk'] & [= -> ->] & Hin1).
    exists i. split; [done|]. by apply Hkeys.
Qed.
End hashing.

(** ** The wire form of a witness *)
Definition welem_bytes (e : TreeIndex * PublicKey * list Z) : list Z :=
  be_bytes 2 (treeindex_pack e.1.1) ++ e.1.2 ++ e.2.
Definition multisig_witness_bytes (w : MultisigWitness) : list Z :=
  Z.of_nat (length w) `mod` 256 :: concat (welem_bytes <$> w).

Definition deserialize_index : Reader TreeIndex :=
  idx ← get_u16;
  match treeindex_unpack idx with
  | None => read_fail (StructureInvalid "invalid index")
  | Some ti => mret ti
  end.
(** The loop [for _ in 0..len] of [read], with the previous index. *)
Fixpoint multisig_witness_loop (n : nat) (prev_index : TreeIndex) : Reader MultisigWitness :=
  match n with
  | O => mret []
  | S n =>
      ti ← deserialize_index;
      match treeindex_cmp ti prev_index with
      | Gt =>
          pk ← deserialize_public_key;
          sig ← deserialize_signature;
          v ← multisig_witness_loop n ti;
          mret ((ti, pk, sig) :: v)
      | _ => read_fail (StructureInvalid "index not in order")
      end
  end.
Definition multisig_witness_read : Reader MultisigWitness :=
  len ← get_u8;
  if len =? 0 then read_fail (StructureInvalid "zero length not permitted")
  else
    first_index ← deserialize_index;
    first_key ← deserialize_public_key;
    first_sig ← deserialize_signature;
    v ← multisig_witness_loop (Z.to_nat len) first_index;
    mret ((first_index, first_key, first_sig) :: v).

(** [WitnessBuilder]: a [BTreeMap] is a list sorted by its keys. *)
Fixpoint btree_insert (m : MultisigWitness) (index : TreeIndex) (pk : PublicKey) (sig : list Z) :
    MultisigWitness * bool :=
  match m with
  | [] => ([(index, pk, sig)], false)
  | (i, p, s) :: rest =>
      match treeindex_cmp index i with
      | Lt => ((index, pk, sig) :: m, false)
      | Eq => ((i, pk, sig) :: rest, true)
      | Gt => let '(rest', found) := btree_insert rest index pk sig in ((i, p, s) :: rest', found)
      end
  end.
Definition witness_append (m : MultisigWitness) (index : TreeIndex) (pk : PublicKey) (sig : list Z) :
    outcome infallible MultisigWitness :=
  let '(m', found) := btree_insert m index pk sig in
  assert_that (negb found) ;; Ok m'.
Definition witness_finalize (m : MultisigWitness) : MultisigWitness := m.

Definition welem_ok (e : TreeIndex * PublicKey * list Z) : Prop :=
  treeindex_ok e.1.1 ∧ length e.1.2 = PUBLIC_KEY_SIZE ∧ length e.2 = SIGNATURE_SIZE.
(** Strictly increasing indices above [prev]. *)
Fixpoint increasing_from (prev : TreeIndex) (w : MultisigWitness) : Prop :=
  match w with
  | [] => True
  | e :: w => treeindex_cmp e.1.1 prev = Gt ∧ increasing_from e.1.1 w
  end.
Definition witness_wf (w : MultisigWitness) : Prop :=
  Forall welem_ok w ∧ match w with [] => False | e :: w => increasing_from e.1.1 w end.

Lemma reads_index ti : treeindex_ok ti → reads deserialize_index ti (be_bytes 2 (treeindex_pack ti)).
Proof.
  intros Ht. rewrite <-(app_nil_r (be_bytes _ _)). eapply reads_bind.
  - apply reads_u16. rewrite treeindex_pack_eq by done. unfold in_u. change (2 ^ 16) with 65536.
    unfold treeindex_ok in Ht. destruct ti; cbn [treeindex_indices] in Ht; rewrite ?Forall_cons in Ht; lia.
  - rewrite treeindex_unpack_pack by done. apply reads_ret.
Qed.

Lemma reads_loop w prev :
  Forall welem_ok w → increasing_from prev w →
  reads (multisig_witness_loop (length w) prev) w (concat (welem_bytes <$> w)).
Proof.
  intros Hw. revert prev. induction Hw as [|[[ti pk] sig] w (Hi & Hp & Hs) Hw IH]; intros prev Hinc.
  { apply reads_ret. }
  destruct Hinc as [Hgt Hinc]. cbn [fst snd] in *. cbn [length multisig_witness_loop fmap list_fmap concat].
  unfold welem_bytes at 1. cbn [fst snd]. rewrite <-!app_assoc.
  eapply reads_bind; [by apply reads_index|]. rewrite Hgt.
  eapply reads_bind; [by apply reads_public_key|]. eapply reads_bind; [by apply reads_signature|].
  rewrite <-(app_nil_r (concat _)). eapply reads_bind; [by apply IH|]. apply reads_ret.
Qed.

Lemma loop_at_end n prev pre :
  multisig_witness_loop (S n) prev (mkReadBuf (length pre) pre) = Err (NotEnoughBytes 0 2).
Proof.
  cbn [multisig_witness_loop]. rewrite reader_bind_eq. unfold deserialize_index.
  rewrite reader_bind_eq. unfold get_u16. rewrite reader_bind_eq, get_slice_eq.
  - unfold rb_left. cbn [rb_data rb_offset]. rewrite Nat.sub_diag. by rewrite decide_False by lia.
  - unfold rb_ok. cbn. lia.
Qed.

(** The loop asked for one element more than there is reads them all and then
    fails at the end of the buffer. *)
Lemma loop_short w prev pre :
  Forall welem_ok w → increasing_from prev w →
  multisig_witness_loop (S (length w)) prev
    (mkReadBuf (length pre) (pre ++ concat (welem_bytes <$> w))) = Err (NotEnoughBytes 0 2).
Proof.
  intros Hw. revert prev pre. induction Hw as [|[[ti pk] sig] w (Hi & Hp & Hs) Hw IH]; intros prev pre Hinc.
  { cbn [fmap list_fmap concat length]. rewrite app_nil_r. apply loop_at_end. }
  destruct Hinc as [Hgt Hinc]. cbn [fst snd] in *.
  cbn [length]. remember (S (length w)) as n eqn:Hn. cbn [multisig_witness_loop fmap list_fmap concat].
  unfold welem_bytes at 1. cbn [fst snd]. set (rest := concat (welem_bytes <$> w)) in *.
  rewrite <-!app_assoc. rewrite reader_bind_eq.
  rewrite (reads_index ti Hi pre (pk ++ sig ++ rest)). cbn [mbind outcome_bind]. rewrite Hgt.
  pose proof (reads_public_key pk Hp (pre ++ be_bytes 2 (treeindex_pack ti)) (sig ++ rest)) as H1.
  rewrite length_app, <-!app_assoc in H1. rewrite reader_bind_eq, H1. cbn [mbind outcome_bind].
  pose proof (reads_signature sig Hs (pre ++ be_bytes 2 (treeindex_pack ti) ++ pk) rest) as H2.
  rewrite !length_app, <-!app_assoc, Nat.add_assoc in H2. rewrite reader_bind_eq, H2.
  cbn [mbind outcome_bind]. rewrite reader_bind_eq. subst n.
  specialize (IH ti (pre ++ be_bytes 2 (treeindex_pack ti) ++ pk ++ sig) Hinc).
  rewrite !length_app, <-!app_assoc, !Nat.add_assoc in IH. by rewrite IH.
Qed.

(** A multisig witness cannot be read back: [read] reads the first element and
    then as many as the length says, one too many.  On the serialization of
    any well-formed witness it fails at the end of the buffer, while bytes
    announcing one element fewer are read as the witness. *)
Theorem multisig_witness_read_one_more w :
  witness_wf w → (length w ≤ 255)%nat →
  read_from_raw multisig_witness_read (multisig_witness_bytes w) =
    Err (InvalidRaw (NotEnoughBytes 0 2)) ∧
  ((2 ≤ length w)%nat →
    read_from_raw multisig_witness_read
      ((Z.of_nat (length w) - 1) :: concat (welem_bytes <$> w)) = Ok w).
Proof.
  intros [Hall Hinc] Hlen. destruct w as [|[[ti pk] sig] w]; [done|].
  apply Forall_cons in Hall as [(Hi & Hp & Hs) Hall]. cbn [fst snd] in *. split.
  - unfold multisig_witness_bytes. rewrite Z.mod_small by lia. cbn [fmap list_fmap concat].
    set (rest := concat (welem_bytes <$> w)). unfold welem_bytes at 1. cbn [fst snd].
    set (n := Z.of_nat (length ((ti, pk, sig) :: w))). assert (n ≠ 0) as Hn by (subst n; cbn; lia).
    unfold read_from_raw, rb_from, multisig_witness_read. rewrite reader_bind_eq.
    pose proof (reads_u8 n [] ((be_bytes 2 (treeindex_pack ti) ++ pk ++ sig) ++ rest)) as H0.
    cbn [length app] in H0 |- *. rewrite H0. cbn [mbind outcome_bind].
    rewrite (proj2 (Z.eqb_neq n 0)) by done. rewrite <-!app_assoc. rewrite reader_bind_eq.
    pose proof (reads_index ti Hi [n] (pk ++ sig ++ rest)) as H1. cbn [length app] in H1.
    cbn [Nat.add]. rewrite H1. cbn [mbind outcome_bind]. rewrite reader_bind_eq.
    pose proof (reads_public_key pk Hp (n :: be_bytes 2 (treeindex_pack ti)) (sig ++ rest)) as H2.
    cbn [length app] in H2. cbn [Nat.add]. rewrite H2. cbn [mbind outcome_bind]. rewrite reader_bind_eq.
    pose proof (reads_signature sig Hs (n :: be_bytes 2 (treeindex_pack ti) ++ pk) rest) as H3.
    cbn [length app] in H3. rewrite length_app, <-!app_assoc in H3. cbn [Nat.add]. cbn [Nat.add] in H3.
    rewrite H3. cbn [mbind outcome_bind]. rewrite reader_bind_eq.
    pose proof (loop_short w ti (n :: be_bytes 2 (treeindex_pack ti) ++ pk ++ sig) Hall Hinc) as H4.
    cbn [length app] in H4. rewrite !length_app, <-!app_assoc, !Nat.add_assoc in H4.
    subst n. rewrite Nat2Z.id. cbn [length Nat.add] in H4 |- *. fold rest in H4. by rewrite H4.
  - intros H2. apply reads_from_raw. change (?b :: ?l) with ([b] ++ l).
    eapply reads_bind; [apply reads_u8|].
    rewrite (proj2 (Z.eqb_neq _ 0)) by (cbn in H2 |- *; lia).
    cbn [fmap list_fmap concat]. unfold welem_bytes at 1. cbn [fst snd]. rewrite <-!app_assoc.
    eapply reads_bind; [by apply reads_index|]. eapply reads_bind; [by apply reads_public_key|].
    eapply reads_bind; [by apply reads_signature|]. rewrite <-(app_nil_r (concat _)).
    eapply reads_bind; [|apply reads_ret].
    replace (Z.to_nat (Z.of_nat (length ((ti, pk, sig) :: w)) - 1)) with (length w) by (cbn; lia).
    by apply reads_loop.
Qed.

(** ** Concrete instances *)
Lemma treeindex_pack_roundtrip_witness :
  treeindex_unpack (treeindex_pack (D2 3 7)) = Some (D2 3 7) ∧ treeindex_pack (D2 3 7) = 10176.
Proof.
  split; [|reflexivity]. apply (treeindex_pack_roundtrip (D2 3 7) 0). repeat constructor; cbn; lia.
Defined.

Definition demo_hash (l : list Z) : KeyHash := take 32 (l ++ replicate 32 0).
Definition demo_decl : Declaration :=
  mkDecl 2 (elem_from_publickey demo_hash <$> [replicate 32 1; replicate 32 2; replicate 32 3]).
Definition demo_witness : MultisigWitness :=
  [(D1 0, replicate 32 1, replicate 64 9); (D1 2, replicate 32 3, replicate 64 9)].

Lemma demo_hash_length x : length (demo_hash x) = 32%nat.
Proof. unfold demo_hash. rewrite length_take, length_app, length_replicate. lia. Qed.

Lemma multisig_verify_sound_witness :
  multisig_verify demo_hash (λ _ _ _, true) demo_witness demo_decl [] = true ∧
  decl_threshold demo_decl ≤ Z.of_nat (length demo_witness).
Proof.
  assert (multisig_verify demo_hash (λ _ _ _, true) demo_witness demo_decl [] = true) as Hv
    by (vm_compute; reflexivity).
  split; [exact Hv|].
  apply (multisig_verify_sound demo_hash (λ _ _ _, true) demo_witness demo_decl []
    demo_hash_length).
  - repeat constructor.
  - split; [|repeat constructor; lia]. refine (bool_decide_unpack _ _). vm_compute. reflexivity.
  - exact Hv.
Defined.

Lemma multisig_witness_read_one_more_witness :
  read_from_raw multisig_witness_read (multisig_witness_bytes demo_witness) =
    Err (InvalidRaw (NotEnoughBytes 0 2)).
Proof.
  apply (multisig_witness_read_one_more demo_witness); [|cbn; lia].
  split; [repeat constructor; cbn; lia|]. cbn. done.
Defined.
