(* ===== verification/MultisigLedger.v ===== *)
(** * The ledger of multisig accounts ([multisig/ledger.rs])

    The accounts and their declarations are two maps on the same identifiers;
    the identifier of an account is the hash of its declaration. *)
From S2P Require Import Prelude Codec Value Hamt HamtSpec Spending Account Addr Key Multisig.
Local Open Scope Z_scope.

Section ledger.
Context {PoolId TokenId : Type} `{EqDecision PoolId} `{Countable TokenId}.
Context (hash_bytes : list Z → KeyHash).

Record MultisigLedger := mkMultisig {
  ms_accounts : gmap KeyHash (AccountState PoolId TokenId unit);
  ms_declarations : gmap KeyHash Declaration }.
Implicit Types l : MultisigLedger.

Definition multisig_new : MultisigLedger := mkMultisig ledger_new ∅.
Definition multisig_restore (accounts : list (KeyHash * AccountState PoolId TokenId unit))
    (declarations : list (KeyHash * Declaration)) : MultisigLedger :=
  mkMultisig (ledger_from_iter accounts) (hm_from_list declarations).
Definition of_hamt_insert_error (e : InsertError) : MultisigError :=
  match e with EntryExists => MAlreadyExist end.
Definition of_hamt_remove_error (e : RemoveError) : MultisigError := MDoesntExist.

Definition multisig_add_account l (declaration : Declaration) : outcome MultisigError MultisigLedger :=
  map_err MDeclarationError (decl_is_valid declaration) ;;
  let identifier := decl_to_identifier hash_bytes declaration in
  new_decls ← map_err of_hamt_insert_error (hm_insert (ms_declarations l) identifier declaration);
  new_accts ← map_err MAccountError (add_account (ms_accounts l) identifier value_zero ());
  Ok (mkMultisig new_accts new_decls).
Definition multisig_remove_account l (ident : KeyHash) : outcome MultisigError MultisigLedger :=
  new_decls ← map_err of_hamt_remove_error (hm_remove (ms_declarations l) ident);
  new_accts ← map_err MAccountError (remove_account (ms_accounts l) ident);
  Ok (mkMultisig new_accts new_decls).
Definition multisig_add_value l (identifier : KeyHash) (value : Value) :
    outcome MultisigError MultisigLedger :=
  new_accounts ← map_err MAccountError (add_value (ms_accounts l) identifier value);
  Ok (mkMultisig new_accounts (ms_declarations l)).
Definition multisig_remove_value l (identifier : KeyHash) (spending_counter : SpendingCounter)
    (value : Value) : outcome MultisigError (MultisigLedger * Declaration) :=
  decl ← ok_or (ms_declarations l !! identifier) MDoesntExist;
  new_accts ← map_err MAccountError
    (remove_value (ms_accounts l) identifier spending_counter value);
  Ok (mkMultisig new_accts (ms_declarations l), decl).
Definition multisig_set_delegation l (identifier : KeyHash) (d : DelegationType PoolId) :
    outcome MultisigError MultisigLedger :=
  new_accounts ← map_err MAccountError (set_delegation (ms_accounts l) identifier d);
  Ok (mkMultisig new_accounts (ms_declarations l)).
Definition multisig_get_total_value l : outcome ValueError Value :=
  get_total_value (ms_accounts l).

(** ** The invariant *)
Record multisig_ok l : Prop := {
  msok_accounts : ledger_ok (ms_accounts l);
  msok_same : ∀ i, is_Some (ms_accounts l !! i) ↔ is_Some (ms_declarations l !! i);
  msok_decl : ∀ i d, ms_declarations l !! i = Some d →
    decl_is_valid d = Ok () ∧ decl_to_identifier hash_bytes d = i }.
Definition multisig_total l : Z := ledger_total (ms_accounts l).

Inductive multisig_op :=
| MOpAddAccount (d : Declaration)
| MOpRemoveAccount (i : KeyHash)
| MOpAddValue (i : KeyHash) (v : Value)
| MOpRemoveValue (i : KeyHash) (c : SpendingCounter) (v : Value)
| MOpSetDelegation (i : KeyHash) (d : DelegationType PoolId).
Definition multisig_op_ok (o : multisig_op) : Prop :=
  match o with
  | MOpAddValue _ v => u64_ok v
  | MOpRemoveValue _ c v => u32_ok c ∧ u64_ok v
  | _ => True
  end.
Definition multisig_amount (o : multisig_op) : Z :=
  match o with MOpAddValue _ v => v | MOpRemoveValue _ _ v => - v | _ => 0 end.
Definition multisig_run l (o : multisig_op) : outcome MultisigError MultisigLedger :=
  match o with
  | MOpAddAccount d => multisig_add_account l d
  | MOpRemoveAccount i => multisig_remove_account l i
  | MOpAddValue i v => multisig_add_value l i v
  | MOpRemoveValue i c v => fst <$> multisig_remove_value l i c v
  | MOpSetDelegation i d => multisig_set_delegation l i d
  end.

Lemma multisig_new_ok : multisig_ok multisig_new.
Proof.
  split; cbn; [apply map_Forall_empty| |done]. intros i.
  unfold ledger_new.
  split; intros [? Hi]; by eapply lookup_empty_Some in Hi.
Qed.

(** An update that keeps the account keeps the set of accounts. *)
Lemma update_same_keys {m m' : gmap KeyHash (AccountState PoolId TokenId unit)} {i f} :
  map_err of_update_error (hm_update m i f) = Ok m' →
  (∀ st ov, f st = Ok ov → is_Some ov) → ∀ j, is_Some (m' !! j) ↔ is_Some (m !! j).
Proof using Type.
  intros (st & ov & Hi & Hov & ->)%map_err_Ok%hm_update_Ok Hf j. rewrite hm_set_lookup.
  case_decide as Hj; [subst j|done]. rewrite Hi. split; [done|]. intros _. by eapply Hf.
Qed.

Lemma fmap_Some_is_Some {E A} (m : outcome E A) ov : Some <$> m = Ok ov → is_Some ov.
Proof. destruct m; cbn; [|done..]. intros <-%Ok_inj. done. Qed.

Lemma multisig_step l o l' :
  multisig_ok l → multisig_op_ok o → multisig_run l o = Ok l' →
  multisig_ok l' ∧ multisig_total l' = multisig_total l + multisig_amount o.
Proof using Type.
  intros [Hacc Hsame Hdecl] Ho. unfold multisig_total.
  destruct o as [d|i|i v|i c v|i d]; cbn [multisig_run multisig_op_ok multisig_amount] in *; intros Hrun.
  - unfold multisig_add_account in Hrun. apply bind_Ok in Hrun as ([] & Hv%map_err_Ok & Hrun).
    apply bind_Ok in Hrun as (nd & Hnd%map_err_Ok%hm_insert_Ok & Hrun).
    apply bind_Ok in Hrun as (na & Hna%map_err_Ok & <-%Ok_inj). destruct Hnd as [Hnone ->].
    destruct (account_step (ms_accounts l) (OpAddAccount (decl_to_identifier hash_bytes d) value_zero ()) na Hacc) as [Hok Htot];
      [split; done|done|]. split; [|exact Htot]. split; cbn; [done| |].
    + apply bind_Ok in Hna as (st & _ & [_ ->]%map_err_Ok%hm_insert_Ok). intros j.
      rewrite !lookup_insert_is_Some. naive_solver.
    + intros j d' [[<- <-]|[_ Hj]]%lookup_insert_Some; [done|by apply Hdecl].
  - unfold multisig_remove_account in Hrun. apply bind_Ok in Hrun as (nd & Hnd%map_err_Ok & Hrun).
    apply bind_Ok in Hrun as (na & Hna%map_err_Ok & <-%Ok_inj).
    unfold hm_remove in Hnd. destruct (ms_declarations l !! i) as [d0|] eqn:Hi; [|done]. apply Ok_inj in Hnd as <-.
    destruct (account_step (ms_accounts l) (OpRemoveAccount i) na Hacc) as [Hok Htot]; [done..|].
    split; [|exact Htot]. split; cbn; [done| |].
    + apply map_err_Ok, hm_update_Ok in Hna as (st & ov & Hst & Hov & ->). cbn beta in Hov.
      destruct (st_value st =? value_zero); [|done]. apply Ok_inj in Hov as <-.
      intros j. cbn [hm_set]. rewrite !lookup_delete_is_Some. naive_solver.
    + intros j d [_ Hj]%lookup_delete_Some. by apply Hdecl.
  - unfold multisig_add_value in Hrun. apply bind_Ok in Hrun as (na & Hna%map_err_Ok & <-%Ok_inj).
    destruct (account_step (ms_accounts l) (OpAddValue i v) na Hacc) as [Hok Htot]; [done..|].
    split; [|exact Htot]. split; cbn; [done| |done]. intros j. rewrite <-Hsame.
    apply (update_same_keys Hna). intros st ov. apply fmap_Some_is_Some.
  - unfold multisig_remove_value in Hrun.
    destruct (ms_declarations l !! i) as [decl|] eqn:Hi; cbn [ok_or mbind outcome_bind] in Hrun; [|done].
    destruct (remove_value _ _ _ _) as [na| |] eqn:Hna in Hrun; cbn in Hrun; [|done..].
    apply Ok_inj in Hrun as <-.
    destruct (account_step (ms_accounts l) (OpRemoveValue i c v) na Hacc) as [Hok Htot]; [done..|].
    split; [|exact Htot]. split; cbn; [done| |done]. intros j. rewrite <-Hsame.
    apply (update_same_keys Hna). intros st ov Hov.
    apply bind_Ok in Hov as (? & _ & Hov). by apply bind_Ok in Hov as (? & _ & <-%Ok_inj).
  - unfold multisig_set_delegation in Hrun. apply bind_Ok in Hrun as (na & Hna%map_err_Ok & <-%Ok_inj).
    destruct (account_step (ms_accounts l) (OpSetDelegation i d) na Hacc) as [Hok Htot]; [done..|].
    split; [|exact Htot]. split; cbn; [done| |done]. intros j. rewrite <-Hsame.
    apply (update_same_keys Hna). intros st ov Hov. cbn in Hov. by apply Ok_inj in Hov as <-.
Qed.

(** Sequences of operations keep the two maps on the same identifiers, every
    declaration valid and named by its hash, and change the total value by
    exactly what they add and remove; a successful spend hands back the
    declaration that names the account. *)
Theorem multisig_ledger_invariant l ops l' :
  multisig_ok l → Forall multisig_op_ok ops → foldM multisig_run l ops = Ok l' →
  multisig_ok l' ∧ multisig_total l' = multisig_total l + Zsum (multisig_amount <$> ops) ∧
  (∀ i c v l2 d, multisig_remove_value l' i c v = Ok (l2, d) →
    decl_is_valid d = Ok () ∧ decl_to_identifier hash_bytes d = i).
Proof using Type.
  intros Hl Hops Hrun.
  assert (multisig_ok l' ∧ multisig_total l' = multisig_total l + Zsum (multisig_amount <$> ops))
    as [Hok Htot].
  { revert l Hl Hrun. induction Hops as [|o ops Ho Hops IH]; intros l Hl Hrun.
    { apply Ok_inj in Hrun as <-. split; [done|cbn; lia]. }
    apply bind_Ok in Hrun as (l1 & H1 & Hrun). destruct (multisig_step l o l1 Hl Ho H1) as [Hl1 Ht1].
    destruct (IH l1 Hl1 Hrun) as [Hok Htot]. split; [done|]. cbn. lia. }
  split; [done|]. split; [done|]. intros i c v l2 d.
  unfold multisig_remove_value. destruct (ms_declarations l' !! i) as [decl|] eqn:Hi; [|done].
  cbn [ok_or mbind outcome_bind]. destruct (map_err _ _); cbn; [|done..].
  intros [= _ <-]. by apply (msok_decl l' Hok).
Qed.
End ledger.
#[global] Arguments MultisigLedger _ _ {_ _}.

(** ** A concrete ledger *)
Lemma multisig_ledger_invariant_witness :
  ∃ l' : MultisigLedger nat nat,
    foldM (multisig_run demo_hash) multisig_new
      [MOpAddAccount demo_decl; MOpAddValue (decl_to_identifier demo_hash demo_decl) 10;
       MOpRemoveValue (decl_to_identifier demo_hash demo_decl) 0 3] = Ok l' ∧ multisig_total l' = 7.
Proof.
  set (ops := [_; _; _]).
  assert (is_ok (foldM (multisig_run (PoolId := nat) (TokenId := nat) demo_hash) multisig_new ops) = true)
    as Hok by (vm_compute; reflexivity).
  destruct (foldM _ multisig_new ops) as [l'|e|] eqn:Hrun; [|discriminate Hok..].
  exists l'. split; [reflexivity|].
  destruct (multisig_ledger_invariant demo_hash multisig_new ops l' (multisig_new_ok _)) as (_ & -> & _);
    [repeat constructor; vm_compute; (discriminate || reflexivity)|exact Hrun|].
  vm_compute. reflexivity.
Defined.
