(* ===== verification/Input.v ===== *)
(** * Transaction elements ([transaction/{input,element,witness}.rs])

    An input is 41 bytes: an output index or the account marker [0xff], the
    value, and a fragment id or account identifier.  A witness proves the right
    to spend one input.  Signatures and keys are byte strings of their sizes;
    what a signature is over is the list of bytes given to the verification. *)
From S2P Require Import Prelude Codec Key Value Utxo Spending Addr Multisig.
Local Open Scope Z_scope.

(** ** [input.rs] *)
Definition INPUT_SIZE : nat := 41.
Definition INPUT_PTR_SIZE : nat := 32.
Abbreviation UnspecifiedAccountIdentifier := (list Z).
Abbreviation FragmentId := (list Z).
Abbreviation AccountId := PublicKey.

Definition to_single_account (u : UnspecifiedAccountIdentifier) : option AccountId :=
  match public_from_binary u with Ok pk => Some pk | _ => None end.
Definition to_multi_account (u : UnspecifiedAccountIdentifier) : KeyHash := u.
Definition from_single_account (i : AccountId) : UnspecifiedAccountIdentifier := i.
Definition from_multi_account (i : KeyHash) : UnspecifiedAccountIdentifier := i.

Inductive AccountIdentifier := ISingle (i : AccountId) | IMulti (i : KeyHash).

Record Input := mkInput { index_or_account : Z; input_value : Value; input_ptr : list Z }.
#[export] Instance Input_eq_dec : EqDecision Input.
Proof. solve_decision. Defined.
Inductive InputType := TUtxo | TAccount.
Inductive InputEnum :=
| AccountInput (id : UnspecifiedAccountIdentifier) (v : Value)
| UtxoInput (p : UtxoPointer FragmentId).

(** [From<[u8; 41]>]: the slice of eight bytes makes a value. *)
Definition input_from_bytes (data : list Z) : outcome infallible Input :=
  index_or_account ← unwrap_opt (data !! 0%nat);
  v ← slice_range data 1 9;
  value ← unwrap (value_try_from v);
  input_ptr ← slice_range data 9 (length data);
  assert_that (length input_ptr =? INPUT_PTR_SIZE)%nat ;;
  Ok (mkInput index_or_account value input_ptr).
Definition input_bytes (i : Input) : list Z :=
  index_or_account i :: be_bytes 8 (input_value i) ++ input_ptr i.
Definition get_type (i : Input) : InputType :=
  if index_or_account i =? 255 then TAccount else TUtxo.
Definition from_utxo (p : UtxoPointer FragmentId) : Input :=
  mkInput (Z.of_nat (output_index p)) (utxo_value p) (transaction_id p).
Definition from_account (id : UnspecifiedAccountIdentifier) (value : Value) : Input :=
  mkInput 255 value id.
Definition from_account_single (id : AccountId) (value : Value) : Input :=
  from_account (from_single_account id) value.
Definition from_account_public_key (public_key : PublicKey) (value : Value) : Input :=
  from_account (from_single_account public_key) value.
Definition from_multisig_account (id : KeyHash) (value : Value) : Input :=
  from_account (from_multi_account id) value.
Definition to_enum (i : Input) : InputEnum :=
  match get_type i with
  | TAccount => AccountInput (input_ptr i) (input_value i)
  | TUtxo => UtxoInput (mkUtxoPointer (input_ptr i) (Z.to_nat (index_or_account i)) (input_value i))
  end.
Definition from_enum (e : InputEnum) : Input :=
  match e with
  | AccountInput id value => from_account id value
  | UtxoInput p => from_utxo p
  end.

Definition input_serialize (w : list Z) (i : Input) : list Z :=
  codec_put_bytes (value_serialize (codec_put_u8 w (index_or_account i)) (input_value i)) (input_ptr i).
Definition input_deserialize (r : list Z) : outcome IoError (Input * list Z) :=
  '(index_or_account, r) ← codec_get_u8 r;
  '(value, r) ← value_deserialize r;
  '(input_ptr, r) ← codec_get INPUT_PTR_SIZE r;
  Ok (mkInput index_or_account value input_ptr, r).
Definition input_read : Reader Input :=
  index_or_account ← get_u8;
  value ← value_read;
  input_ptr ← read_array INPUT_PTR_SIZE;
  mret (mkInput index_or_account value input_ptr).

(** ** [transfer.rs] *)
Definition output_read : Reader (Output Address) :=
  address ← address_read; value ← value_read; mret (mkOutput address value).
Definition output_bytes (o : Output Address) : list Z :=
  to_bytes (out_address o) ++ value_bytes (out_value o).

(** ** [element.rs] *)
Inductive Balance := Positive (v : Value) | Negative (v : Value) | BZero.
Inductive BalanceError :=
| InputsTotalFailed (e : ValueError) | OutputsTotalFailed (e : ValueError)
| NotBalanced (inputs outputs : Value).

(** The binding signature of an account; the multisig form is not implemented
    in the code, which panics on it. *)
Inductive AccountBindingSignature := ABSingle (sig : list Z) | ABMulti (n : Z).
Definition single_binding_read : Reader (list Z) := deserialize_signature.
Definition account_binding_read : Reader AccountBindingSignature :=
  tag ← get_u8;
  if tag =? 1 then sig ← deserialize_signature; mret (ABSingle sig)
  else if tag =? 2 then read_fun (λ _, Panic)
  else read_fail (UnknownTag tag).
Definition account_binding_serialize (s : AccountBindingSignature) (bb : ByteBuilder) :
    outcome infallible ByteBuilder :=
  match s with
  | ABSingle sig => Ok (bb_sub (bb_u8 bb 1) (λ bb, bb_bytes bb sig))
  | ABMulti _ => Panic
  end.

(** ** [witness.rs] *)
Inductive Witness :=
| WUtxo (sig : list Z)
| WAccount (nonce : SpendingCounter) (sig : list Z)
| WOldUtxo (pk : PublicKey) (some_bytes : list Z) (sig : list Z)
| WMultisig (nonce : SpendingCounter) (msig : MultisigWitness).

Definition WITNESS_TAG_OLDUTXO : Z := 0.
Definition WITNESS_TAG_UTXO : Z := 1.
Definition WITNESS_TAG_ACCOUNT : Z := 2.
Definition WITNESS_TAG_MULTISIG : Z := 3.

Inductive WitnessUtxoVersion := VLegacy | VNormal.
Definition witness_data_common (tag : Z) (block0 transaction_id : list Z) : list Z :=
  tag :: block0 ++ transaction_id.
Definition witness_utxo_data (block0 transaction_id : list Z) (v : WitnessUtxoVersion) : list Z :=
  let tag := match v with VLegacy => WITNESS_TAG_OLDUTXO | VNormal => WITNESS_TAG_UTXO end in
  witness_data_common tag block0 transaction_id.
Definition witness_account_data (block0 transaction_id : list Z) (c : SpendingCounter) : list Z :=
  witness_data_common WITNESS_TAG_ACCOUNT block0 transaction_id ++ counter_to_bytes c.
Definition witness_multisig_data (block0 transaction_id : list Z) (c : SpendingCounter) : list Z :=
  witness_data_common WITNESS_TAG_MULTISIG block0 transaction_id ++ counter_to_bytes c.

Definition new_utxo (block0 sign_data_hash : list Z) (sign : list Z → list Z) : Witness :=
  WUtxo (sign (witness_utxo_data block0 sign_data_hash VNormal)).
Definition new_old_utxo (block0 sign_data_hash : list Z) (sign : list Z → PublicKey * list Z)
    (some_bytes : list Z) : Witness :=
  let '(pk, sig) := sign (witness_utxo_data block0 sign_data_hash VLegacy) in
  WOldUtxo pk some_bytes sig.
Definition new_account (block0 sign_data_hash : list Z) (c : SpendingCounter)
    (sign : list Z → list Z) : Witness :=
  WAccount c (sign (witness_account_data block0 sign_data_hash c)).

Definition witness_bytes (w : Witness) : list Z :=
  match w with
  | WOldUtxo pk cc sig => codec_put_u8 [] WITNESS_TAG_OLDUTXO ++ pk ++ cc ++ sig
  | WUtxo sig => codec_put_u8 [] WITNESS_TAG_UTXO ++ sig
  | WAccount nonce sig => codec_put_be 4 (codec_put_u8 [] WITNESS_TAG_ACCOUNT) nonce ++ sig
  | WMultisig nonce msig =>
      codec_put_be 4 (codec_put_u8 [] WITNESS_TAG_MULTISIG) nonce ++ multisig_witness_bytes msig
  end.
Definition witness_read : Reader Witness :=
  tag ← get_u8;
  if tag =? WITNESS_TAG_OLDUTXO then
    pk ← deserialize_public_key; some_bytes ← read_array 32; sig ← deserialize_signature;
    mret (WOldUtxo pk some_bytes sig)
  else if tag =? WITNESS_TAG_UTXO then sig ← deserialize_signature; mret (WUtxo sig)
  else if tag =? WITNESS_TAG_ACCOUNT then
    nonce ← get_u32; sig ← deserialize_signature; mret (WAccount nonce sig)
  else if tag =? WITNESS_TAG_MULTISIG then
    nonce ← get_u32; msig ← multisig_witness_read; mret (WMultisig nonce msig)
  else read_fail (UnknownTag tag).

(** ** Formats *)
Definition input_ok (i : Input) : Prop :=
  u8_ok (index_or_account i) ∧ u64_ok (input_value i) ∧ length (input_ptr i) = INPUT_PTR_SIZE.
Definition output_ok (o : Output Address) : Prop :=
  kind_ok (kind (out_address o)) ∧ u64_ok (out_value o).
(** A witness whose wire form reads back: multisig witnesses do not. *)
Definition witness_ok (w : Witness) : Prop :=
  match w with
  | WUtxo sig => length sig = SIGNATURE_SIZE
  | WAccount nonce sig => u32_ok nonce ∧ length sig = SIGNATURE_SIZE
  | WOldUtxo pk cc sig =>
      length pk = PUBLIC_KEY_SIZE ∧ length cc = 32%nat ∧ length sig = SIGNATURE_SIZE
  | WMultisig _ _ => False
  end.

Lemma length_input_bytes i : length (input_ptr i) = INPUT_PTR_SIZE → length (input_bytes i) = INPUT_SIZE.
Proof. intros Hp. unfold input_bytes. cbn [length]. by rewrite length_app, length_be_bytes, Hp. Qed.

Lemma input_from_to_bytes i : input_ok i → input_from_bytes (input_bytes i) = Ok i.
Proof.
  intros (Hi & Hv & Hp). unfold input_from_bytes. rewrite length_input_bytes by done.
  change (unwrap_opt (input_bytes i !! 0%nat)) with (@Ok infallible Z (index_or_account i)).
  cbn [mbind outcome_bind].
  assert (slice_range (E := infallible) (input_bytes i) 1 9 = Ok (be_bytes 8 (input_value i))) as ->.
  { unfold slice_range. rewrite decide_True by (rewrite length_input_bytes by done; unfold INPUT_SIZE; lia).
    f_equal. }
  cbn [mbind outcome_bind]. unfold value_try_from. rewrite length_be_bytes. cbn [Nat.compare unwrap mbind outcome_bind].
  assert (slice_range (E := infallible) (input_bytes i) 9 INPUT_SIZE = Ok (input_ptr i)) as ->.
  { unfold slice_range. rewrite decide_True by (rewrite length_input_bytes by done; unfold INPUT_SIZE; lia).
    f_equal. unfold input_bytes. change (drop 9 (?x :: ?l)) with (drop 8 l).
    rewrite drop_app_length' by (by rewrite length_be_bytes). apply take_ge. unfold INPUT_SIZE, INPUT_PTR_SIZE in *. lia. }
  cbn [mbind outcome_bind]. rewrite Hp, Nat.eqb_refl. cbn [assert_that mbind outcome_bind].
  rewrite from_be_bytes by (change (8 * Z.of_nat 8) with 64; done). by destruct i.
Qed.

Lemma input_from_bytes_total bs :
  length bs = INPUT_SIZE → bytes_ok bs →
  ∃ i, input_from_bytes bs = Ok i ∧ input_ok i ∧ input_bytes i = bs.
Proof.
  intros Hl Hb. destruct bs as [|x bs]; [done|]. cbn in Hl. injection Hl as Hl.
  apply Forall_cons in Hb as [Hx Hb].
  rewrite <-(take_drop 8 bs) in Hb |- *. set (v := take 8 bs) in *. set (p := drop 8 bs) in *.
  apply Forall_app in Hb as [Hv Hp].
  assert (length v = 8%nat) as Hlv by (subst v; rewrite length_take; lia).
  assert (length p = INPUT_PTR_SIZE) as Hlp by (subst p; rewrite length_drop, Hl; done).
  pose proof (from_be_range v Hv) as Hr. rewrite Hlv in Hr. change (8 * Z.of_nat 8) with 64 in Hr.
  set (i := mkInput x (from_be v) p).
  assert (input_bytes i = x :: v ++ p) as Hib.
  { unfold input_bytes. cbn [index_or_account input_value input_ptr i]. do 2 f_equal.
    rewrite <-(be_bytes_from_be v Hv) at 2. by rewrite Hlv. }
  assert (input_ok i) as Hok by (split; [done|split; done]).
  exists i. split; [|done]. rewrite <-Hib. by apply input_from_to_bytes.
Qed.

Lemma reads_input i : input_ok i → reads input_read i (input_bytes i).
Proof.
  intros (Hi & Hv & Hp). unfold input_bytes. change (?b :: ?l) with ([b] ++ l).
  eapply reads_bind; [apply reads_u8|]. eapply reads_bind; [by apply reads_u64|].
  rewrite <-(app_nil_r (input_ptr i)). eapply reads_bind; [by apply reads_slice_len|].
  destruct i. apply reads_ret.
Qed.

Lemma input_deserialize_serialize i rest :
  input_ok i → input_deserialize (input_serialize [] i ++ rest) = Ok (i, rest).
Proof.
  intros (Hi & Hv & Hp). unfold input_serialize, codec_put_bytes, value_serialize, codec_put_be, codec_put_u8.
  cbn [app]. rewrite <-!app_assoc. unfold input_deserialize, codec_get_u8, codec_get.
  rewrite decide_True by (cbn; lia). cbn [mbind outcome_bind take drop lookup list_lookup unwrap_opt].
  unfold value_deserialize, codec_get_be, codec_get. cbn [app]. rewrite !drop_0.
  rewrite decide_True by (repeat (rewrite length_app || rewrite length_be_bytes || cbn [length]); lia). cbn [mbind outcome_bind].
  rewrite take_app_length', drop_app_length' by (by rewrite length_be_bytes).
  rewrite decide_True by (rewrite length_app, Hp; lia). cbn [mbind outcome_bind].
  rewrite take_app_length', drop_app_length' by done.
  rewrite from_be_bytes by (change (8 * Z.of_nat 8) with 64; done). by destruct i.
Qed.

(** An input and what it stands for: the 41 bytes, the reader and the codec
    agree on every input, and the enumeration loses nothing, except that an
    output index of 255 is taken for an account. *)
Theorem input_formats i e rest :
  input_ok i →
  input_from_bytes (input_bytes i) = Ok i ∧
  read_from_raw input_read (input_bytes i) = Ok i ∧
  input_serialize [] i = input_bytes i ∧ input_deserialize (input_bytes i ++ rest) = Ok (i, rest) ∧
  from_enum (to_enum i) = i ∧
  (match e with UtxoInput p => (output_index p < 255)%nat | _ => True end → to_enum (from_enum e) = e).
Proof.
  intros Hi. split; [by apply input_from_to_bytes|]. split; [by apply reads_from_raw, reads_input|].
  assert (input_serialize [] i = input_bytes i) as Hs.
  { unfold input_serialize, input_bytes, codec_put_bytes, value_serialize, codec_put_be, codec_put_u8.
    done. }
  split; [done|]. split; [rewrite <-Hs; by apply input_deserialize_serialize|]. split.
  - destruct Hi as (Hi & _ & _). destruct i as [x v p]. unfold to_enum, get_type. cbn in *.
    destruct (Z.eqb_spec x 255) as [->|]; cbn; [done|]. unfold from_utxo. cbn. f_equal.
    unfold in_u in Hi. lia.
  - destruct e as [id v|[t x v]]; cbn; [done|]. intros Hx. unfold to_enum, get_type, from_utxo. cbn.
    rewrite (proj2 (Z.eqb_neq _ 255)) by lia. by rewrite Nat2Z.id.
Qed.

Lemma reads_output o : output_ok o → reads output_read o (output_bytes o).
Proof.
  intros [Ha Hv]. eapply reads_bind; [by apply reads_address|].
  rewrite <-(app_nil_r (value_bytes _)). eapply reads_bind; [by apply reads_u64|].
  destruct o. apply reads_ret.
Qed.

Lemma reads_witness w : witness_ok w → reads witness_read w (witness_bytes w).
Proof.
  destruct w as [sig|nonce sig|pk cc sig|nonce msig]; cbn [witness_ok witness_bytes]; intros Hw; [..|done].
  - unfold codec_put_u8. cbn [app]. change (?b :: ?l) with ([b] ++ l).
    eapply reads_bind; [apply reads_u8|]; cbn [Z.eqb Pos.eqb WITNESS_TAG_OLDUTXO WITNESS_TAG_UTXO WITNESS_TAG_ACCOUNT]. by apply reads_bind_ret, reads_signature.
  - destruct Hw as [Hn Hs]. unfold codec_put_be, codec_put_u8. rewrite <-app_assoc. cbn [app].
    change (?b :: ?l) with ([b] ++ l). eapply reads_bind; [apply reads_u8|]; cbn [Z.eqb Pos.eqb WITNESS_TAG_OLDUTXO WITNESS_TAG_UTXO WITNESS_TAG_ACCOUNT].
    eapply reads_bind; [by apply reads_u32|]. by apply reads_bind_ret, reads_signature.
  - destruct Hw as (Hp & Hc & Hs). unfold codec_put_u8. cbn [app]. change (?b :: ?l) with ([b] ++ l).
    eapply reads_bind; [apply reads_u8|]; cbn [Z.eqb Pos.eqb WITNESS_TAG_OLDUTXO WITNESS_TAG_UTXO WITNESS_TAG_ACCOUNT]. eapply reads_bind; [by apply reads_public_key|].
    eapply reads_bind; [by apply reads_slice_len|]. by apply reads_bind_ret, reads_signature.
Qed.

(** ** The readers are local *)
Lemma local_reader_of {E A} (f : E → ReadError) (m : outcome E A) :
  m ≠ Panic → local (reader_of f m).
Proof.
  intros Hm pre rest. unfold reader_of. destruct m as [a|e|]; cbn; [|done..].
  exists [], rest. rewrite app_nil_r. split_and!; [done..|apply (reads_of f a)].
Qed.

Lemma public_from_binary_not_panic s : public_from_binary s ≠ Panic.
Proof. unfold public_from_binary. by case_match. Qed.
Lemma signature_from_bytes_not_panic s : signature_from_bytes s ≠ Panic.
Proof. unfold signature_from_bytes. by case_match. Qed.

Lemma local_public_key : local deserialize_public_key.
Proof.
  apply local_bind; [apply local_vec, local_get_u8|]. intros s.
  apply local_reader_of, public_from_binary_not_panic.
Qed.
Lemma local_signature : local deserialize_signature.
Proof.
  apply local_bind; [apply local_vec, local_get_u8|]. intros s.
  apply local_reader_of, signature_from_bytes_not_panic.
Qed.
#[export] Hint Resolve local_public_key local_signature : readers.

Lemma local_address : local address_read.
Proof.
  assert (local read_key) as Hk.
  { apply local_bind; [apply local_get_slice|]. intros s.
    pose proof (public_from_binary_not_panic s). destruct (public_from_binary s); by auto with readers. }
  apply local_bind; [auto with readers|]. intros x.
  apply local_bind; [|intros; apply local_ret]. unfold read_array.
  repeat (apply local_if; [|]); try (apply local_fail);
    apply local_bind; (exact Hk || apply local_get_slice || idtac); intros; try apply local_ret.
  apply local_bind; [exact Hk|intros; apply local_ret].
Qed.
Lemma local_output : local output_read.
Proof.
  apply local_bind; [apply local_address|]. intros a. apply local_bind; [apply local_slice_map|].
  intros. apply local_ret.
Qed.

Lemma local_multisig_witness : local multisig_witness_read.
Proof.
  assert (local deserialize_index) as Hi.
  { apply local_bind; [apply local_slice_map|]. intros x. destruct (treeindex_unpack x); auto with readers. }
  assert (∀ n prev, local (multisig_witness_loop n prev)) as Hl.
  { induction n as [|n IH]; intros prev; cbn [multisig_witness_loop]; [apply local_ret|].
    apply local_bind; [done|]. intros ti. destruct (treeindex_cmp ti prev); [apply local_fail..|].
    auto 10 with readers. }
  apply local_bind; [auto with readers|]. intros len. apply local_if; [apply local_fail|].
  auto 10 with readers.
Qed.
Lemma local_witness : local witness_read.
Proof.
  assert (local get_u32) by apply local_slice_map.
  pose proof local_multisig_witness. unfold read_array in *.
  apply local_bind; [auto with readers|]. intros tag. unfold read_array.
  repeat (apply local_if; [auto 10 with readers|]). apply local_fail.
Qed.

Lemma reads_output_nonempty o bs : reads output_read o bs → bs ≠ [].
Proof. apply reads_nonempty. intros a' Ha. vm_compute in Ha. discriminate. Qed.
Lemma reads_witness_nonempty w bs : reads witness_read w bs → bs ≠ [].
Proof. apply reads_nonempty. intros a' Ha. vm_compute in Ha. discriminate. Qed.

(** ** Domain separation *)

(** What a witness signs names its kind, the chain and the transaction, and
    for accounts the spending counter: two equal messages agree on all of
    them, so a signature is good for one transaction, one kind of input and
    one counter only. *)
Theorem witness_data_separated b1 t1 v1 c1 b2 t2 v2 c2 :
  length b1 = 32%nat → length t1 = 32%nat → length b2 = 32%nat → length t2 = 32%nat →
  u32_ok c1 → u32_ok c2 →
  (witness_utxo_data b1 t1 v1 = witness_utxo_data b2 t2 v2 → b1 = b2 ∧ t1 = t2 ∧ v1 = v2) ∧
  (witness_account_data b1 t1 c1 = witness_account_data b2 t2 c2 → b1 = b2 ∧ t1 = t2 ∧ c1 = c2) ∧
  (witness_multisig_data b1 t1 c1 = witness_multisig_data b2 t2 c2 → b1 = b2 ∧ t1 = t2 ∧ c1 = c2) ∧
  witness_utxo_data b1 t1 v1 ≠ witness_account_data b2 t2 c2 ∧
  witness_utxo_data b1 t1 v1 ≠ witness_multisig_data b2 t2 c2 ∧
  witness_account_data b1 t1 c1 ≠ witness_multisig_data b2 t2 c2.
Proof.
  intros Hb1 Ht1 Hb2 Ht2 Hc1 Hc2.
  assert (∀ c d, u32_ok c → u32_ok d → counter_to_bytes c = counter_to_bytes d → c = d) as Hcnt.
  { intros c d Hc Hd Heq. unfold counter_to_bytes in Heq.
    rewrite <-(from_le_bytes 4 c) by done. rewrite Heq. by apply from_le_bytes. }
  assert (∀ c d : Z, (b1 ++ t1) ++ counter_to_bytes c = (b2 ++ t2) ++ counter_to_bytes d →
    u32_ok c → u32_ok d → b1 = b2 ∧ t1 = t2 ∧ c = d) as Hinj.
  { intros c d Heq Hc Hd. apply app_inj_1 in Heq as [Hbt Hcd]; [|rewrite !length_app; congruence].
    apply app_inj_1 in Hbt as [-> ->]; [|congruence]. split; [done|]. split; [done|]. by apply Hcnt. }
  unfold witness_utxo_data, witness_account_data, witness_multisig_data, witness_data_common.
  split_and!.
  - intros [= Hv Heq]. apply app_inj_1 in Heq as [-> ->]; [|congruence].
    split; [done|]. split; [done|]. by destruct v1, v2.
  - intros [= Heq]. by apply Hinj.
  - intros [= Heq]. by apply Hinj.
  - by destruct v1.
  - by destruct v1.
  - done.
Qed.

(** ** Concrete elements *)
Definition demo_input (v : Value) : Input := mkInput 255 v (demo_key 1).
Definition demo_address (b : Z) : Address := mkAddress Production (Account (demo_key b)).
Definition demo_output (v : Value) : Output Address := mkOutput (demo_address 2) v.
Definition demo_wit : Witness := WAccount 0 (replicate 64 9).

Lemma input_formats_witness :
  read_from_raw input_read (input_bytes (demo_input 10)) = Ok (demo_input 10) ∧
  to_enum (from_enum (UtxoInput (mkUtxoPointer (demo_key 3) 4 5))) = UtxoInput (mkUtxoPointer (demo_key 3) 4 5).
Proof.
  assert (input_ok (demo_input 10)) as Hi by (repeat constructor; cbn; lia).
  destruct (input_formats (demo_input 10) (UtxoInput (mkUtxoPointer (demo_key 3) 4 5)) [] Hi)
    as (_ & H2 & _ & _ & _ & H6).
  split; [exact H2|]. apply H6. cbn. lia.
Defined.

Lemma witness_data_separated_witness :
  witness_utxo_data (demo_key 1) (demo_key 2) VNormal ≠
    witness_account_data (demo_key 1) (demo_key 2) 0.
Proof.
  apply (witness_data_separated (demo_key 1) (demo_key 2) VNormal 0 (demo_key 1) (demo_key 2) VNormal 0);
    (reflexivity || (split; cbn; lia)).
Defined.
