(* ===== verification/Transaction.v ===== *)
(** * Transactions ([transaction/{payload,transaction,builder}.rs])

    A transaction is its bytes and the offsets of its parts.  [get_spine]
    checks the structure of received bytes once; the accessors and iterators
    then unwrap what it checked.  [TxBuilder] writes the same layout, the order
    of its steps enforced by a phantom type. *)
From S2P Require Import Prelude Codec Key Value Time Utxo Spending Addr Multisig Input.
Local Open Scope Z_scope.

(** ** [payload.rs] *)
Class Payload (P : Type) := {
  HAS_DATA : bool;
  HAS_AUTH : bool;
  Auth : Type;
  payload_read : Reader P;
  auth_read : Reader Auth;
  payload_data : P → outcome infallible (list Z);
  payload_auth_data : Auth → outcome infallible (list Z);
  payload_to_certificate_slice : list Z → option CertificateSlice }.
#[global] Arguments HAS_DATA P {_}.
#[global] Arguments HAS_AUTH P {_}.
#[global] Arguments Auth P {_}.
#[global] Arguments payload_read P {_}.
#[global] Arguments auth_read P {_}.
#[global] Arguments payload_auth_data P {_} _.
#[global] Arguments payload_to_certificate_slice P {_} _.

(** What transactions rely on: the readers are local. *)
Class PayloadLocal (P : Type) `{Payload P} : Prop := {
  payload_local : local (payload_read P);
  auth_local : local (auth_read P) }.
(** What they rely on when the authentication data may panic. *)
Class PayloadPartial (P : Type) `{Payload P} : Prop := {
  payload_partial : local (payload_read P);
  auth_partial : partial_local (auth_read P) }.
#[export] Instance payload_local_partial P `{PayloadLocal P} : PayloadPartial P.
Proof. split; [apply payload_local|apply local_partial, auth_local]. Qed.

(** [NoExtra]. *)
Inductive NoExtra_ := NoExtra.
#[export] Instance no_extra_payload : Payload NoExtra_ := {|
  HAS_DATA := false; HAS_AUTH := false; Auth := unit;
  payload_read := mret NoExtra; auth_read := mret ();
  payload_data := λ _, Ok []; payload_auth_data := λ _, Ok [];
  payload_to_certificate_slice := λ _, None |}.
#[export] Instance no_extra_local : PayloadLocal NoExtra_.
Proof. split; cbn; apply local_ret. Qed.

Definition no_auth : Auth NoExtra_ := ().

(** ** The structure and its errors *)
Inductive TransactionStructError :=
| CannotReadNbInputs | CannotReadNbOutputs | CannotReadExpiryDate | PayloadInvalid | InputsInvalid
| OutputsInvalid | WitnessesInvalid | SpuriousTrailingData | PayloadAuthMissing
| PayloadAuthInvalid.

Record TransactionStruct := mkStruct {
  ts_sz : nat;
  ts_nb_inputs : Z;
  ts_nb_outputs : Z;
  ts_valid_until : BlockDate;
  ts_inputs : nat;
  ts_outputs : nat;
  ts_witnesses : nat;
  ts_payload_auth : nat }.
Record Transaction (P : Type) := mkTx { tx_data : list Z; tx_struct : TransactionStruct }.
#[global] Arguments mkTx {P} tx_data tx_struct.
#[global] Arguments tx_data {P} t.
#[global] Arguments tx_struct {P} t.

(** [r.map_err(|_| e)?] on the buffer. *)
Definition with_err {A} (e : TransactionStructError) (r : Reader A) (rb : ReadBuf) :
    outcome TransactionStructError (A * ReadBuf) := map_err (λ _, e) (r rb).

Section transaction.
Context {P : Type} `{Payload P}.

Definition get_spine (slice : list Z) : outcome TransactionStructError TransactionStruct :=
  let sz := length slice in
  let rb := rb_from slice in
  '(_, rb) ← (if HAS_DATA P then with_err PayloadInvalid (read_validate (payload_read P)) rb
              else Ok ((), rb));
  '(epoch, rb) ← with_err CannotReadExpiryDate get_u32 rb;
  '(slot_id, rb) ← with_err CannotReadExpiryDate get_u32 rb;
  let valid_until := mkDate epoch slot_id in
  '(nb_inputs, rb) ← with_err CannotReadNbInputs get_u8 rb;
  '(nb_outputs, rb) ← with_err CannotReadNbOutputs get_u8 rb;
  let inputs_pos := rb_position rb in
  '(_, rb) ← with_err InputsInvalid (skip_bytes (Z.to_nat nb_inputs * INPUT_SIZE)) rb;
  let outputs_pos := rb_position rb in
  '(_, rb) ← with_err OutputsInvalid (repeat_validate (Z.to_nat nb_outputs) output_read) rb;
  let witnesses_pos := rb_position rb in
  '(_, rb) ← with_err WitnessesInvalid (repeat_validate (Z.to_nat nb_inputs) witness_read) rb;
  let payload_auth_pos := rb_position rb in
  '(_, rb) ← (if HAS_DATA P && HAS_AUTH P then
                if is_end rb then Err PayloadAuthMissing
                else with_err PayloadAuthInvalid (read_validate (auth_read P)) rb
              else Ok ((), rb));
  if negb (is_end rb) then Err SpuriousTrailingData
  else Ok (mkStruct sz nb_inputs nb_outputs valid_until inputs_pos outputs_pos witnesses_pos
             payload_auth_pos).

(** [UnverifiedTransactionSlice::check]. *)
Definition tx_check (data : list Z) : outcome TransactionStructError (Transaction P) :=
  ts ← get_spine data; Ok (mkTx data ts).

(** ** Iterators and accessors *)
Fixpoint collect_items {S A} (next : S → outcome infallible (option (A * S))) (fuel : nat) (s : S) :
    outcome infallible (list A) :=
  match fuel with
  | O => Panic
  | Datatypes.S fuel =>
      r ← next s;
      match r with None => Ok [] | Some (a, s') => cons a <$> collect_items next fuel s' end
  end.

Definition inputs_next (slice : Z * list Z) (index : nat) : outcome infallible (option (Input * nat)) :=
  if (Z.to_nat slice.1 <=? index)%nat then Ok None
  else
    let offset := (index * INPUT_SIZE)%nat in
    input ← slice_range slice.2 offset (offset + INPUT_SIZE);
    i ← input_from_bytes input;
    Ok (Some (i, S index)).
(** [OutputsIter::next] and [WitnessesIter::next]. *)
Definition bytes_next {A} (read : Reader A) (slice : Z * list Z) (index : nat) :
    outcome infallible (option (A * nat)) :=
  if (index =? length slice.2)%nat then Ok None
  else
    '(_, rb) ← unwrap (skip_bytes index (rb_from slice.2));
    '(a, rb) ← unwrap (read rb);
    Ok (Some (a, rb_position rb)).
Definition outputs_next := bytes_next output_read.
Definition witnesses_next := bytes_next witness_read.
Definition inputs_witnesses_next (islice wslice : Z * list Z) (st : nat * nat) :
    outcome infallible (option (Input * Witness * (nat * nat))) :=
  i ← inputs_next islice st.1;
  w ← witnesses_next wslice st.2;
  match i, w with
  | None, None => Ok None
  | Some (i, si), Some (w, sw) => Ok (Some (i, w, (si, sw)))
  | None, _ => Panic
  | _, None => Panic
  end.

Implicit Types t : Transaction P.
Definition tx_inputs_slice t : outcome infallible (Z * list Z) :=
  s ← slice_range (tx_data t) (ts_inputs (tx_struct t)) (ts_outputs (tx_struct t));
  Ok (ts_nb_inputs (tx_struct t), s).
Definition tx_outputs_slice t : outcome infallible (Z * list Z) :=
  s ← slice_range (tx_data t) (ts_outputs (tx_struct t)) (ts_witnesses (tx_struct t));
  Ok (ts_nb_outputs (tx_struct t), s).
Definition tx_witnesses_slice t : outcome infallible (Z * list Z) :=
  s ← slice_range (tx_data t) (ts_witnesses (tx_struct t)) (ts_payload_auth (tx_struct t));
  Ok (ts_nb_inputs (tx_struct t), s).
Definition tx_inputs t : outcome infallible (list Input) :=
  s ← tx_inputs_slice t; collect_items (inputs_next s) (S (Z.to_nat s.1)) 0%nat.
Definition tx_outputs t : outcome infallible (list (Output Address)) :=
  s ← tx_outputs_slice t; collect_items (outputs_next s) (S (length s.2)) 0%nat.
Definition tx_witnesses t : outcome infallible (list Witness) :=
  s ← tx_witnesses_slice t; collect_items (witnesses_next s) (S (length s.2)) 0%nat.
Definition tx_inputs_and_witnesses t : outcome infallible (list (Input * Witness)) :=
  i ← tx_inputs_slice t; w ← tx_witnesses_slice t;
  collect_items (inputs_witnesses_next i w) (S (Z.to_nat i.1)) (0%nat, 0%nat).
Definition tx_payload t : outcome infallible (list Z) :=
  slice_range (tx_data t) 0 (ts_inputs (tx_struct t)).
Definition tx_payload_auth t : outcome infallible (list Z) :=
  slice_range (tx_data t) (ts_payload_auth (tx_struct t)) (length (tx_data t)).
Definition into_payload (p : list Z) : outcome infallible P :=
  '(p, _) ← unwrap (payload_read P (rb_from p)); Ok p.
Definition into_payload_auth (p : list Z) : outcome infallible (Auth P) :=
  '(a, _) ← unwrap (auth_read P (rb_from p)); Ok a.
Definition into_certificate_slice (p : list Z) : option CertificateSlice :=
  payload_to_certificate_slice P p.
Definition transaction_auth_data t : outcome infallible (list Z) :=
  slice_range (tx_data t) 0 (ts_witnesses (tx_struct t)).
Definition transaction_binding_auth_data t : outcome infallible (list Z) :=
  slice_range (tx_data t) 0 (ts_payload_auth (tx_struct t)).
Definition tx_nb_inputs t : Z := ts_nb_inputs (tx_struct t).
Definition tx_nb_outputs t : Z := ts_nb_outputs (tx_struct t).
Definition tx_nb_witnesses t : Z := ts_nb_inputs (tx_struct t).
Definition tx_valid_until t : BlockDate := ts_valid_until (tx_struct t).

(** ** Totals and balance *)
Definition total_input t : outcome ValueError Value :=
  inputs ← lift (tx_inputs t); value_sum (input_value <$> inputs).
Definition total_output t : outcome ValueError Value :=
  outputs ← lift (tx_outputs t); value_sum (out_value <$> outputs).
Definition balance_of (inputs z : Value) : outcome ValueError Balance :=
  match inputs ?= z with
  | Gt => Positive <$> value_sub inputs z
  | Lt => Negative <$> value_sub z inputs
  | Eq => Ok BZero
  end.
Definition tx_balance t (fee : Value) : outcome ValueError Balance :=
  inputs ← total_input t; outputs ← total_output t; z ← value_add outputs fee;
  balance_of inputs z.
Definition verify_strictly_balanced t (fee : Value) : outcome BalanceError unit :=
  inputs ← map_err InputsTotalFailed (total_input t);
  outputs ← map_err OutputsTotalFailed (o ← total_output t; value_add o fee);
  if negb (inputs =? outputs) then Err (NotBalanced inputs outputs) else Ok ().
Definition verify_possibly_balanced t : outcome BalanceError unit :=
  inputs ← map_err InputsTotalFailed (total_input t);
  outputs ← map_err OutputsTotalFailed (total_output t);
  if inputs <? outputs then Err (NotBalanced inputs outputs) else Ok ().
End transaction.
#[global] Arguments get_spine P {_} slice.
#[global] Arguments tx_check P {_} data.
#[global] Arguments into_payload P {_} p.
#[global] Arguments into_payload_auth P {_} p.

(** ** [builder.rs] *)
Inductive SetPayload := .
Inductive SetTtl (P : Type) := .
Inductive SetIOs (P : Type) := .
Inductive SetWitnesses (P : Type) := .
Inductive SetAuthData (P : Type) := .
Record TxBuilderState (T : Type) := mkBuilder { tb_data : list Z; tb_struct : TransactionStruct }.
#[global] Arguments mkBuilder {T} tb_data tb_struct.
#[global] Arguments tb_data {T} t.
#[global] Arguments tb_struct {T} t.
Definition FRAGMENT_OVERHEAD : nat := 0.
Definition builder_new : TxBuilderState SetPayload :=
  mkBuilder (replicate FRAGMENT_OVERHEAD 0) (mkStruct 0 0 0 date_first 0 0 0 0).
Definition current_pos {T} (b : TxBuilderState T) : nat := (length (tb_data b) - FRAGMENT_OVERHEAD)%nat.

Section builder.
Context {P : Type} `{Payload P}.
Definition set_payload (b : TxBuilderState SetPayload) (payload : P) :
    outcome infallible (TxBuilderState (SetTtl P)) :=
  data ← (if HAS_DATA P then p ← payload_data payload; Ok (tb_data b ++ p) else Ok (tb_data b));
  Ok (mkBuilder data (tb_struct b)).
Definition write_date (data : list Z) (date : BlockDate) : list Z :=
  data ++ be_bytes 4 (date_epoch date) ++ be_bytes 4 (date_slot_id date).
Definition set_expiry_date (b : TxBuilderState (SetTtl P)) (valid_until : BlockDate) :
    TxBuilderState (SetIOs P) :=
  let s := tb_struct b in
  mkBuilder (write_date (tb_data b) valid_until)
    (mkStruct (ts_sz s) (ts_nb_inputs s) (ts_nb_outputs s) valid_until (ts_inputs s) (ts_outputs s)
       (ts_witnesses s) (ts_payload_auth s)).
Definition set_ios (b : TxBuilderState (SetIOs P)) (inputs : list Input)
    (outputs : list (Output Address)) : outcome infallible (TxBuilderState (SetWitnesses P)) :=
  assert_that (length inputs <? 256)%nat ;;
  assert_that (length outputs <? 256)%nat ;;
  let nb_inputs := wrap 8 (Z.of_nat (length inputs)) in
  let nb_outputs := wrap 8 (Z.of_nat (length outputs)) in
  let s := tb_struct b in
  let data := tb_data b ++ [nb_inputs; nb_outputs] in
  let inputs_pos := (length data - FRAGMENT_OVERHEAD)%nat in
  let data := foldl (λ d i, d ++ input_bytes i) data inputs in
  let outputs_pos := (length data - FRAGMENT_OVERHEAD)%nat in
  let data := foldl (λ d o, (d ++ to_bytes (out_address o)) ++ value_bytes (out_value o)) data outputs in
  Ok (mkBuilder data (mkStruct (ts_sz s) nb_inputs nb_outputs (ts_valid_until s) inputs_pos outputs_pos
        (ts_witnesses s) (ts_payload_auth s))).
Definition get_auth_data_for_witness (b : TxBuilderState (SetWitnesses P)) : list Z :=
  drop FRAGMENT_OVERHEAD (tb_data b).
Definition set_witnesses_unchecked (b : TxBuilderState (SetWitnesses P)) (witnesses : list Witness) :
    TxBuilderState (SetAuthData P) :=
  let s := tb_struct b in
  mkBuilder (foldl (λ d w, d ++ witness_bytes w) (tb_data b) witnesses)
    (mkStruct (ts_sz s) (ts_nb_inputs s) (ts_nb_outputs s) (ts_valid_until s) (ts_inputs s)
       (ts_outputs s) (current_pos b) (ts_payload_auth s)).
Definition set_witnesses (b : TxBuilderState (SetWitnesses P)) (witnesses : list Witness) :
    outcome infallible (TxBuilderState (SetAuthData P)) :=
  assert_that (Z.of_nat (length witnesses) =? ts_nb_inputs (tb_struct b)) ;;
  Ok (set_witnesses_unchecked b witnesses).
Definition get_auth_data (b : TxBuilderState (SetAuthData P)) : list Z :=
  drop FRAGMENT_OVERHEAD (tb_data b).
Definition set_payload_auth (b : TxBuilderState (SetAuthData P)) (auth_data : Auth P) :
    outcome infallible (Transaction P) :=
  let s := tb_struct b in
  data ← (if HAS_DATA P && HAS_AUTH P then a ← payload_auth_data P auth_data; Ok (tb_data b ++ a)
          else Ok (tb_data b));
  Ok (mkTx data (mkStruct (length data - FRAGMENT_OVERHEAD) (ts_nb_inputs s) (ts_nb_outputs s)
    (ts_valid_until s) (ts_inputs s) (ts_outputs s) (ts_witnesses s) (current_pos b))).

(** The whole chain, as [Transaction::block0_payload] writes it. *)
Definition build_tx (payload : P) (valid_until : BlockDate) (inputs : list Input)
    (outputs : list (Output Address)) (witnesses : list Witness) (auth : Auth P) :
    outcome infallible (Transaction P) :=
  b ← set_payload builder_new payload;
  b ← set_ios (set_expiry_date b valid_until) inputs outputs;
  b ← set_witnesses b witnesses;
  set_payload_auth b auth.
Definition block0_payload (payload : P) (auth : Auth P) : outcome infallible (Transaction P) :=
  build_tx payload (date_next_epoch date_first) [] [] [] auth.
Definition block0_payload_builder (payload : P) : outcome infallible (TxBuilderState (SetAuthData P)) :=
  b ← set_payload builder_new payload;
  b ← set_ios (set_expiry_date b (date_next_epoch date_first)) [] [];
  set_witnesses b [].
End builder.
