(* ===== verification/TransactionSpec.v ===== *)
(** * What a checked transaction guarantees

    [get_spine] never panics and what it accepts can be taken apart without a
    panic; what the builder writes is accepted and read back; the balance of a
    transaction is exact. *)
From S2P Require Import Prelude Codec Key Value Time Utxo Spending Addr Multisig Input Transaction.
Local Open Scope Z_scope.

Lemma tx_slice_mid {E} (pre mid post : list Z) lo hi :
  lo = length pre → hi = length (pre ++ mid) → slice_range (E := E) (pre ++ mid ++ post) lo hi = Ok mid.
Proof.
  intros -> ->. unfold slice_range. rewrite decide_True by (rewrite !length_app; lia). f_equal.
  rewrite drop_app_length, length_app. replace (length pre + length mid - length pre)%nat with (length mid) by lia.
  by rewrite take_app_length.
Qed.

Lemma local_inv {A} (r : Reader A) pre rest a b :
  local r → r (rb_at pre rest) = Ok (a, b) →
  ∃ bs post, rest = bs ++ post ∧ b = rb_at (pre ++ bs) post ∧ reads r a bs.
Proof. intros Hr Ha. specialize (Hr pre rest). by rewrite Ha in Hr. Qed.

Lemma with_err_inv {A} e (r : Reader A) pre rest a b :
  local r → with_err e r (rb_at pre rest) = Ok (a, b) →
  ∃ bs post, rest = bs ++ post ∧ b = rb_at (pre ++ bs) post ∧ reads r a bs.
Proof. intros Hr Ha%map_err_Ok. by apply local_inv. Qed.

Lemma with_err_not_panic {A} e (r : Reader A) pre rest :
  local r → with_err e r (rb_at pre rest) ≠ Panic.
Proof.
  intros Hr. unfold with_err. specialize (Hr pre rest). by destruct (r (rb_at pre rest)).
Qed.

Lemma with_err_reads {A} e (r : Reader A) a bs pre post :
  reads r a bs → with_err e r (rb_at pre (bs ++ post)) = Ok (a, rb_at (pre ++ bs) post).
Proof. intros Hr. unfold with_err. rewrite reads_at in Hr. by rewrite Hr. Qed.

Lemma local_read_validate {A} (r : Reader A) : local r → local (read_validate r).
Proof. intros Hr. apply local_bind; [done|intros; apply local_ret]. Qed.
Lemma local_repeat_validate {A} n (r : Reader A) : local r → local (repeat_validate n r).
Proof.
  intros Hr. induction n as [|n IH]; cbn [repeat_validate]; [apply local_ret|].
  apply local_bind; [by apply local_read_validate|done].
Qed.
Lemma reads_skip_bytes bs : reads (skip_bytes (length bs)) () bs.
Proof.
  apply reads_at. intros pre post. rewrite skip_bytes_at, decide_True by (rewrite length_app; lia).
  by rewrite take_app_length, drop_app_length.
Qed.
Lemma local_skip_bytes n : local (skip_bytes n).
Proof.
  intros pre rest. rewrite skip_bytes_at. case_decide; [|done]. exists (take n rest), (drop n rest).
  rewrite take_drop. split_and!; [done..|]. rewrite <-(length_take_le rest n) at 1 by done.
  apply reads_skip_bytes.
Qed.
Lemma skip_bytes_inv n pre rest u b :
  skip_bytes n (rb_at pre rest) = Ok (u, b) →
  ∃ ins post, rest = ins ++ post ∧ length ins = n ∧ b = rb_at (pre ++ ins) post.
Proof.
  rewrite skip_bytes_at. case_decide as Hn; [|done]. intros [= _ <-].
  exists (take n rest), (drop n rest). rewrite take_drop, length_take. split_and!; [done|lia|done].
Qed.
Lemma local_get_u32 : local get_u32.
Proof. apply local_slice_map. Qed.
#[export] Hint Resolve local_read_validate local_repeat_validate local_skip_bytes local_get_u32
  local_output local_witness local_address : readers.

Lemma reads_u8_inv v bs : reads get_u8 v bs → bs = [v].
Proof.
  rewrite reads_at. intros Hr. specialize (Hr [] []). rewrite app_nil_r in Hr.
  destruct bs as [|b bs]; [done|]. injection Hr as -> Hl _. by destruct bs.
Qed.
Lemma rb_at_is_end pre rest : is_end (rb_at pre rest) = bool_decide (rest = []).
Proof.
  unfold is_end. rewrite rb_at_left. by destruct rest.
Qed.
Lemma rb_at_position pre rest : rb_position (rb_at pre rest) = length pre.
Proof. done. Qed.

Section spine.
Context {P : Type} `{PayloadPartial P}.

(** The layout that [get_spine] recognises. *)
Record spine_shape (data : list Z) (ts : TransactionStruct) (pb hb ins : list Z)
    (os : list (Output Address * list Z)) (ws : list (Witness * list Z)) (ab : list Z) : Prop := {
  ss_data : data = pb ++ hb ++ ins ++ concat os.*2 ++ concat ws.*2 ++ ab;
  ss_header : ∃ eb sb, hb = eb ++ sb ++ [ts_nb_inputs ts; ts_nb_outputs ts] ∧
    reads get_u32 (date_epoch (ts_valid_until ts)) eb ∧
    reads get_u32 (date_slot_id (ts_valid_until ts)) sb;
  ss_sz : ts_sz ts = length data;
  ss_inputs : ts_inputs ts = length (pb ++ hb);
  ss_outputs : ts_outputs ts = length ((pb ++ hb) ++ ins);
  ss_witnesses : ts_witnesses ts = length (((pb ++ hb) ++ ins) ++ concat os.*2);
  ss_auth : ts_payload_auth ts = length ((((pb ++ hb) ++ ins) ++ concat os.*2) ++ concat ws.*2);
  ss_ins : length ins = (Z.to_nat (ts_nb_inputs ts) * INPUT_SIZE)%nat;
  ss_os : length os = Z.to_nat (ts_nb_outputs ts) ∧ Forall (λ ob, reads output_read ob.1 ob.2) os;
  ss_ws : length ws = Z.to_nat (ts_nb_inputs ts) ∧ Forall (λ wb, reads witness_read wb.1 wb.2) ws;
  ss_payload : if HAS_DATA P then ∃ p, reads (payload_read P) p pb else pb = [];
  ss_payload_auth : if HAS_DATA P && HAS_AUTH P then ∃ a, reads (auth_read P) a ab else ab = [] }.

Lemma get_spine_inv data ts :
  get_spine P data = Ok ts → ∃ pb hb ins os ws ab, spine_shape data ts pb hb ins os ws ab.
Proof using Type*.
  unfold get_spine. change (rb_from data) with (rb_at [] data).
  intros ([u1 b1] & H1 & Hk)%bind_Ok.
  assert (∃ pb r1, data = pb ++ r1 ∧ b1 = rb_at pb r1 ∧
    if HAS_DATA P then ∃ p, reads (payload_read P) p pb else pb = []) as (pb & r1 & -> & -> & Hpb).
  { destruct (HAS_DATA P).
    - destruct u1. apply map_err_Ok, read_validate_inv in H1 as (p & bs & post & -> & -> & Hp);
        [|apply local_partial, payload_partial].
      exists bs, post. split; [done|]. split; [done|by exists p].
    - apply Ok_inj in H1. injection H1 as <- <-. by exists [], data. }
  clear H1. apply bind_Ok in Hk as ([e b2] & (eb & r2 & -> & -> & He)%with_err_inv & Hk); [|auto with readers].
  apply bind_Ok in Hk as ([s b3] & (sb & r3 & -> & -> & Hs)%with_err_inv & Hk); [|auto with readers].
  apply bind_Ok in Hk as ([ni b4] & (ib & r4 & -> & -> & Hi)%with_err_inv & Hk); [|auto with readers].
  apply bind_Ok in Hk as ([no b5] & (ob & r5 & -> & -> & Ho)%with_err_inv & Hk); [|auto with readers].
  apply bind_Ok in Hk as ([u6 b6] & H6%map_err_Ok & Hk).
  apply skip_bytes_inv in H6 as (ins & r6 & -> & Hins & ->).
  apply bind_Ok in Hk as ([[] b7] & H7%map_err_Ok & Hk).
  apply repeat_validate_inv in H7 as (os & r7 & Hlo & -> & -> & Hos); [|auto with readers].
  apply bind_Ok in Hk as ([[] b8] & H8%map_err_Ok & Hk).
  apply repeat_validate_inv in H8 as (ws & r8 & Hlw & -> & -> & Hws); [|auto with readers].
  apply bind_Ok in Hk as ([u9 b9] & H9 & Hk). rewrite rb_at_is_end in H9.
  set (pre8 := (((((((pb ++ eb) ++ sb) ++ ib) ++ ob) ++ ins) ++ concat os.*2) ++ concat ws.*2)) in *.
  assert (∃ ab r9, r8 = ab ++ r9 ∧ b9 = rb_at (pre8 ++ ab) r9 ∧
    if HAS_DATA P && HAS_AUTH P then ∃ a, reads (auth_read P) a ab else ab = [])
    as (ab & r9 & -> & -> & Hab).
  { destruct (HAS_DATA P && HAS_AUTH P).
    - case_bool_decide; [done|]. destruct u9.
      apply map_err_Ok, read_validate_inv in H9 as (a & bs & post & -> & -> & Ha);
        [|apply auth_partial].
      exists bs, post. split; [done|]. split; [done|by exists a].
    - apply Ok_inj in H9. injection H9 as <- <-. exists [], r8. by rewrite app_nil_r. }
  clear H9. rewrite rb_at_is_end in Hk. case_bool_decide as Hr9; [|done]. subst r9. cbn in Hk.
  apply Ok_inj in Hk as <-. rewrite !app_nil_r.
  apply reads_u8_inv in Hi as ->, Ho as ->.
  exists pb, (eb ++ sb ++ [ni; no]), ins, os, ws, ab. subst pre8.
  split; unfold rb_at; cbn [ts_sz ts_inputs ts_outputs ts_witnesses ts_payload_auth ts_nb_inputs
    ts_nb_outputs ts_valid_until rb_position rb_offset]; rewrite <-?app_assoc; try done.
  by exists eb, sb.
Qed.

(** The only reader that may panic is that of the authentication. *)
Lemma with_err_panic {A B} e (r : Reader A) pre rest (k : A * ReadBuf → outcome TransactionStructError B) :
  local r → (with_err e r (rb_at pre rest) ≫= k) = Panic →
  ∃ a pre' rest', pre ++ rest = pre' ++ rest' ∧ k (a, rb_at pre' rest') = Panic.
Proof using Type.
  intros Hr Hp. pose proof (with_err_not_panic e r pre rest Hr) as Hn.
  destruct (with_err e r (rb_at pre rest)) as [[a b]| |] eqn:Hw; [|done|done].
  destruct (with_err_inv e r pre rest a b Hr Hw) as (bs & post & -> & -> & _).
  exists a, (pre ++ bs), post. by rewrite <-app_assoc.
Qed.
Lemma get_spine_panic data : get_spine P data = Panic →
  HAS_DATA P && HAS_AUTH P = true ∧ ∃ pre rest, data = pre ++ rest ∧ rest ≠ [] ∧ auth_read P (rb_at pre rest) = Panic.
Proof using Type*.
  unfold get_spine. change (rb_from data) with (rb_at [] data). intros Hp.
  assert (∀ (k : unit * ReadBuf → outcome TransactionStructError TransactionStruct),
    ((if HAS_DATA P then with_err PayloadInvalid (read_validate (payload_read P)) (rb_at [] data)
      else Ok ((), rb_at [] data)) ≫= k) = Panic → ∃ a pre rest, data = pre ++ rest ∧ k (a, rb_at pre rest) = Panic) as Hk.
  { intros k Hk. destruct (HAS_DATA P); [|by exists (), [], data].
    apply with_err_panic in Hk as (a & pre & rest & Hd & Hk); [by exists a, pre, rest|apply local_read_validate, payload_partial]. }
  apply Hk in Hp as ([] & pre & rest & -> & Hp). cbn beta iota in Hp. clear Hk.
  do 7 (apply with_err_panic in Hp as (? & ?pre & ?rest & -> & Hp); [|auto with readers]; cbn beta iota zeta in Hp).
  rewrite rb_at_is_end in Hp. destruct (HAS_DATA P && HAS_AUTH P).
  - case_bool_decide as Hr; [done|]. split; [done|]. eexists _, _. split; [done|]. split; [exact Hr|].
    unfold with_err, read_validate in Hp. rewrite reader_bind_eq in Hp.
    destruct (auth_read P _) as [[a b]| |] eqn:Ha; cbn [map_err mbind outcome_bind] in Hp; [|done|done].
    cbn in Hp. by destruct (negb (is_end b)).
  - cbn [mbind outcome_bind] in Hp. by destruct (negb (is_end _)).
Qed.
End spine.

(** ** The iterators *)
Inductive iterates {S A} (next : S → outcome infallible (option (A * S))) : S → list A → Prop :=
| iterates_nil s : next s = Ok None → iterates next s []
| iterates_cons s a s' l : next s = Ok (Some (a, s')) → iterates next s' l → iterates next s (a :: l).

Lemma iterates_collect {S A} (next : S → outcome infallible (option (A * S))) s l fuel :
  iterates next s l → (length l < fuel)%nat → collect_items next fuel s = Ok l.
Proof.
  intros Hl. revert fuel. induction Hl as [s Hs|s a s' l Hs Hl IH]; intros [|fuel] Hf; try (cbn in Hf; lia).
  - cbn. by rewrite Hs.
  - cbn in Hf |- *. rewrite Hs. cbn. by rewrite IH by lia.
Qed.

Lemma bytes_iterates {A} (r : Reader A) nb (l : list (A * list Z)) pre :
  Forall (λ ab, reads r ab.1 ab.2 ∧ ab.2 ≠ []) l →
  iterates (bytes_next r (nb, pre ++ concat l.*2)) (length pre) l.*1.
Proof.
  intros Hl. revert pre. induction Hl as [|[a bs] l [Ha Hne] Hl IH]; intros pre; cbn [fmap list_fmap concat].
  { constructor. unfold bytes_next. cbn [fst snd]. by rewrite app_nil_r, Nat.eqb_refl. }
  cbn [fst snd] in *. econstructor.
  - unfold bytes_next. cbn [fst snd]. rewrite (proj2 (Nat.eqb_neq _ _)).
    2:{ rewrite !length_app. destruct bs; [done|]. cbn. lia. }
    change (rb_from ?x) with (rb_at [] x).
    rewrite skip_bytes_at, decide_True by (rewrite length_app; lia). cbn [unwrap mbind outcome_bind].
    rewrite take_app_length, drop_app_length. rewrite reads_at in Ha. rewrite Ha. reflexivity.
  - cbn [app]. rewrite rb_at_position, app_assoc. apply IH.
Qed.

Lemma length_concat_input_bytes (l : list Input) :
  Forall input_ok l → length (concat (input_bytes <$> l)) = (length l * INPUT_SIZE)%nat.
Proof.
  induction 1 as [|i l (_ & _ & Hi) Hl IH]; [done|]. cbn [fmap list_fmap concat length].
  rewrite length_app, IH, length_input_bytes by done. lia.
Qed.

Lemma inputs_iterates nb (l1 l2 : list Input) :
  Forall input_ok l1 → Forall input_ok l2 → Z.to_nat nb = (length l1 + length l2)%nat →
  iterates (inputs_next (nb, concat (input_bytes <$> l1) ++ concat (input_bytes <$> l2))) (length l1) l2.
Proof.
  intros H1 H2. revert l1 H1. induction H2 as [|i l2 Hi H2 IH]; intros l1 H1 Hn.
  { constructor. unfold inputs_next. cbn [fst]. by rewrite (proj2 (Nat.leb_le _ _)) by (cbn in Hn; lia). }
  econstructor.
  - unfold inputs_next. cbn [fst snd]. rewrite (proj2 (Nat.leb_gt _ _)) by (cbn in Hn; lia).
    cbn [fmap list_fmap concat].
    rewrite tx_slice_mid with (mid := input_bytes i).
    + cbn [mbind outcome_bind]. rewrite input_from_to_bytes by done. reflexivity.
    + by rewrite length_concat_input_bytes.
    + rewrite length_app, length_concat_input_bytes by done. destruct Hi as (_ & _ & Hi).
      by rewrite length_input_bytes.
  - specialize (IH (l1 ++ [i])). rewrite length_app, fmap_app, concat_app in IH. cbn in IH.
    rewrite app_nil_r, <-app_assoc, Nat.add_1_r in IH. apply IH.
    + apply Forall_app. by split; [|constructor].
    + cbn in Hn. lia.
Qed.

Lemma inputs_split n ins :
  length ins = (n * INPUT_SIZE)%nat → bytes_ok ins →
  ∃ l, length l = n ∧ Forall input_ok l ∧ ins = concat (input_bytes <$> l).
Proof.
  revert ins. induction n as [|n IH]; intros ins Hl Hb.
  { destruct ins; [|done]. by exists []. }
  rewrite <-(take_drop INPUT_SIZE ins) in Hb |- *. apply Forall_app in Hb as [Hb1 Hb2].
  destruct (input_from_bytes_total (take INPUT_SIZE ins)) as (i & _ & Hi & Hbi);
    [rewrite length_take; lia|done|].
  destruct (IH (drop INPUT_SIZE ins)) as (l & Hn & Hok & Heq); [rewrite length_drop; lia|done|].
  exists (i :: l). cbn [fmap list_fmap concat length]. rewrite Hn, Hbi, <-Heq. split_and!; [done|by constructor|done].
Qed.

Lemma pairs_iterate islice wslice si sw (il : list Input) (ws : list Witness) :
  iterates (inputs_next islice) si il → iterates (witnesses_next wslice) sw ws →
  length il = length ws → iterates (inputs_witnesses_next islice wslice) (si, sw) (zip il ws).
Proof.
  intros Hi. revert sw ws. induction Hi as [si Hsi|si i si' il Hsi Hi IH]; intros sw ws Hw Hl.
  - destruct Hw as [sw Hsw|]; [|done]. constructor. unfold inputs_witnesses_next. cbn [fst snd].
    rewrite Hsi. cbn [mbind outcome_bind]. by rewrite Hsw.
  - destruct Hw as [|sw w sw' ws Hsw Hw]; [done|]. econstructor.
    + unfold inputs_witnesses_next. cbn [fst snd]. rewrite Hsi. cbn [mbind outcome_bind].
      rewrite Hsw. reflexivity.
    + apply IH; [done|]. cbn in Hl. lia.
Qed.

Lemma reads_nonempty_all {A} (r : Reader A) (l : list (A * list Z)) :
  (∀ a bs, reads r a bs → bs ≠ []) → Forall (λ ab, reads r ab.1 ab.2) l →
  Forall (λ ab, reads r ab.1 ab.2 ∧ ab.2 ≠ []) l.
Proof. intros Hne Hl. eapply Forall_impl; [exact Hl|]. intros ab Hab. split; [done|]. exact (Hne _ _ Hab). Qed.

Lemma length_concat_ge {A} (l : list (A * list Z)) :
  Forall (λ ab, ab.2 ≠ []) l → (length l ≤ length (concat l.*2))%nat.
Proof.
  induction 1 as [|[a bs] l Hb Hl IH]; [done|]. cbn in *. rewrite length_app.
  destruct bs; [done|]. cbn. lia.
Qed.

(** The accessors on a transaction of the shape. *)
Section accessors.
Context {P : Type} `{PayloadPartial P}.

Lemma shape_accessors data ts pb hb ins os ws ab (l : list Input) :
  spine_shape (P := P) data ts pb hb ins os ws ab →
  Forall input_ok l → length l = Z.to_nat (ts_nb_inputs ts) → ins = concat (input_bytes <$> l) →
  let t : Transaction P := mkTx data ts in
  tx_inputs t = Ok l ∧ tx_outputs t = Ok os.*1 ∧ tx_witnesses t = Ok ws.*1 ∧
  tx_inputs_and_witnesses t = Ok (zip l ws.*1) ∧
  tx_payload t = Ok (pb ++ hb) ∧ tx_payload_auth t = Ok ab.
Proof using Type.
  intros [Hdata _ Hsz Hi Ho Hw Ha Hins [Hlo Hos] [Hlw Hws] _ _] Hl Hn Hie t.
  apply reads_nonempty_all in Hos; [|apply reads_output_nonempty].
  apply reads_nonempty_all in Hws; [|apply reads_witness_nonempty].
  assert (tx_inputs_slice t = Ok (ts_nb_inputs ts, ins)) as Esi.
  { unfold tx_inputs_slice. cbn [tx_data tx_struct t]. subst data. rewrite app_assoc.
    by rewrite tx_slice_mid with (mid := ins). }
  assert (tx_outputs_slice t = Ok (ts_nb_outputs ts, concat os.*2)) as Eso.
  { unfold tx_outputs_slice. cbn [tx_data tx_struct t]. subst data. rewrite !app_assoc, <-(app_assoc _ _ ab).
    rewrite <-(app_assoc _ (concat os.*2)). by rewrite tx_slice_mid with (mid := concat os.*2). }
  assert (tx_witnesses_slice t = Ok (ts_nb_inputs ts, concat ws.*2)) as Esw.
  { unfold tx_witnesses_slice. cbn [tx_data tx_struct t]. subst data. rewrite !app_assoc, <-(app_assoc _ _ ab).
    by rewrite tx_slice_mid with (mid := concat ws.*2). }
  assert (iterates (inputs_next (ts_nb_inputs ts, ins)) 0%nat l) as Iti.
  { subst ins. apply (inputs_iterates _ [] l); [done..|]. by rewrite <-Hn. }
  assert (iterates (witnesses_next (ts_nb_inputs ts, concat ws.*2)) 0%nat ws.*1) as Itw
    by (by apply (bytes_iterates witness_read _ ws [])).
  split_and!.
  - unfold tx_inputs. rewrite Esi. cbn [mbind outcome_bind fst]. apply iterates_collect; [done|lia].
  - unfold tx_outputs. rewrite Eso. cbn [mbind outcome_bind snd]. apply iterates_collect.
    + by apply (bytes_iterates output_read _ os []).
    + rewrite length_fmap. pose proof (length_concat_ge os) as Hc.
      assert (length os ≤ length (concat os.*2))%nat; [|lia]. apply Hc.
      eapply Forall_impl; [exact Hos|]. by intros ? [_ ?].
  - unfold tx_witnesses. rewrite Esw. cbn [mbind outcome_bind snd]. apply iterates_collect; [done|].
    rewrite length_fmap. pose proof (length_concat_ge ws) as Hc.
    assert (length ws ≤ length (concat ws.*2))%nat; [|lia]. apply Hc.
    eapply Forall_impl; [exact Hws|]. by intros ? [_ ?].
  - unfold tx_inputs_and_witnesses. rewrite Esi, Esw. cbn [mbind outcome_bind fst].
    apply iterates_collect.
    + apply pairs_iterate; [done..|]. rewrite length_fmap. lia.
    + rewrite length_zip, length_fmap. lia.
  - unfold tx_payload. cbn [tx_data tx_struct t]. subst data. rewrite app_assoc.
    by apply (tx_slice_mid []).
  - unfold tx_payload_auth. cbn [tx_data tx_struct t]. rewrite Hdata at 1. rewrite !app_assoc.
    rewrite <-(app_nil_r ab) at 1. apply tx_slice_mid; [done|].
    rewrite Hdata. f_equal. by rewrite <-!app_assoc.
Qed.

(** Reading the payload again from its slice, which the date follows. *)
Lemma reads_prefix {A} (r : Reader A) a bs rest :
  reads r a bs → ∃ b, r (rb_from (bs ++ rest)) = Ok (a, b).
Proof using Type. intros Hr. rewrite reads_at in Hr. eexists. apply (Hr [] rest). Qed.

Lemma checked_accessors data t :
  bytes_ok data → tx_check P data = Ok t →
    ∃ (il : list Input) (os : list (Output Address)) (ws : list Witness),
      tx_inputs t = Ok il ∧ tx_outputs t = Ok os ∧ tx_witnesses t = Ok ws ∧
      tx_inputs_and_witnesses t = Ok (zip il ws) ∧
      Z.of_nat (length il) = tx_nb_inputs t ∧ length ws = length il ∧
      Z.of_nat (length os) = tx_nb_outputs t ∧ Forall input_ok il ∧
      (HAS_DATA P = true → ∃ pl p, tx_payload t = Ok pl ∧ into_payload P pl = Ok p) ∧
      (HAS_DATA P && HAS_AUTH P = true →
        ∃ al a, tx_payload_auth t = Ok al ∧ into_payload_auth P al = Ok a).
Proof using Type*.
  intros Hb.
  unfold tx_check. intros (ts & Hts & <-%Ok_inj)%bind_Ok.
  destruct (get_spine_inv data ts Hts) as (pb & hb & ins & os & ws & ab & Hs).
  pose proof Hs as [Hdata (eb & sb & Hhb & _) Hsz Hi Ho Hw Ha Hins [Hlo Hos] [Hlw Hws] Hp Hpa].
  assert (0 ≤ ts_nb_inputs ts ∧ 0 ≤ ts_nb_outputs ts) as [Hni Hno].
  { rewrite Hdata, Hhb in Hb. unfold bytes_ok in Hb. rewrite !Forall_app, !Forall_cons in Hb.
    unfold in_u in Hb. lia. }
  assert (bytes_ok ins) as Hbi.
  { rewrite Hdata in Hb. unfold bytes_ok in *. rewrite !Forall_app in Hb. tauto. }
  destruct (inputs_split _ ins Hins Hbi) as (l & Hll & Hok & Hie).
  destruct (shape_accessors data ts pb hb ins os ws ab l Hs Hok Hll Hie) as (E1 & E2 & E3 & E4 & E5 & E6).
  exists l, os.*1, ws.*1. unfold tx_nb_inputs, tx_nb_outputs. cbn [tx_struct].
  split; [done|]. split; [done|]. split; [done|]. split; [done|]. rewrite !length_fmap.
  split; [lia|]. split; [lia|]. split; [lia|]. split; [done|]. split.
  - intros Hhd. rewrite Hhd in Hp. destruct Hp as [p Hp]. eexists _, p. split; [done|].
    unfold into_payload. destruct (reads_prefix _ p pb hb Hp) as [b ->]. done.
  - intros Hha. rewrite Hha in Hpa. destruct Hpa as [a Hpa]. eexists _, a. split; [done|].
    unfold into_payload_auth. rewrite <-(app_nil_r ab). destruct (reads_prefix _ a ab [] Hpa) as [b ->]. done.
Qed.
End accessors.

Section checked.
Context {P : Type} `{PayloadPartial P}.

(** C18. A received transaction of any kind, whose structure is accepted, can be
    taken apart: every accessor and iterator, which unwrap throughout, returns: as
    many inputs and witnesses as announced, in matching pairs, as many outputs as
    announced, the payload and its authentication.  [check] panics only where the
    reader of the payload's authentication does: never, when that reader does not
    panic; for stake delegations, on the tag of a multisig binding signature, see
    [stake_delegation_check]. *)
Theorem checked_tx_accessors data t :
  bytes_ok data →
  (tx_check P data = Panic →
    HAS_DATA P && HAS_AUTH P = true ∧ ∃ pre rest, data = pre ++ rest ∧ rest ≠ [] ∧ auth_read P (rb_at pre rest) = Panic) ∧
  (local (auth_read P) → tx_check P data ≠ Panic) ∧
  (tx_check P data = Ok t →
    ∃ (il : list Input) (os : list (Output Address)) (ws : list Witness),
      tx_inputs t = Ok il ∧ tx_outputs t = Ok os ∧ tx_witnesses t = Ok ws ∧
      tx_inputs_and_witnesses t = Ok (zip il ws) ∧
      Z.of_nat (length il) = tx_nb_inputs t ∧ length ws = length il ∧
      Z.of_nat (length os) = tx_nb_outputs t ∧ Forall input_ok il ∧
      (HAS_DATA P = true → ∃ pl p, tx_payload t = Ok pl ∧ into_payload P pl = Ok p) ∧
      (HAS_DATA P && HAS_AUTH P = true →
        ∃ al a, tx_payload_auth t = Ok al ∧ into_payload_auth P al = Ok a)).
Proof using Type*.
  assert (tx_check P data = Panic → get_spine P data = Panic) as Hspine.
  { unfold tx_check. by destruct (get_spine P data). }
  intros Hb. split; [intros Hp; by apply get_spine_panic, Hspine|]. split; [|by apply checked_accessors].
  intros Hl Hp. apply Hspine, get_spine_panic in Hp as (_ & pre & rest & _ & _ & Ha). specialize (Hl pre rest). by rewrite Ha in Hl.
Qed.
End checked.

(** ** What the builder writes *)
Lemma foldl_app_bytes {A} (f : A → list Z) (l : list A) d :
  foldl (λ d a, d ++ f a) d l = d ++ concat (f <$> l).
Proof.
  revert d. induction l as [|a l IH]; intros d; cbn; [by rewrite app_nil_r|]. by rewrite IH, <-app_assoc.
Qed.

Lemma foldl_outputs (l : list (Output Address)) d :
  foldl (λ d o, (d ++ to_bytes (out_address o)) ++ value_bytes (out_value o)) d l =
    d ++ concat (output_bytes <$> l).
Proof.
  revert d. induction l as [|o l IH]; intros d; cbn [foldl]; [by rewrite app_nil_r|].
  rewrite IH. cbn [fmap list_fmap concat]. unfold output_bytes. by rewrite <-!app_assoc.
Qed.

Lemma encoded_pairs {A} (f : A → list Z) (l : list A) :
  ((λ a, (a, f a)) <$> l).*1 = l ∧ ((λ a, (a, f a)) <$> l).*2 = f <$> l.
Proof.
  split; rewrite <-list_fmap_compose; [|done]. induction l as [|a l IH]; [done|]. cbn. f_equal. apply IH.
Qed.

Section build.
Context {P : Type} `{Payload P}.

Definition payload_bytes (p : P) : list Z := match payload_data p with Ok b => b | _ => [] end.
Definition payload_auth_bytes (a : Auth P) : list Z :=
  match payload_auth_data P a with Ok b => b | _ => [] end.
Definition payload_ok (p : P) : Prop :=
  HAS_DATA P = true → payload_data p = Ok (payload_bytes p) ∧ reads (payload_read P) p (payload_bytes p).
Definition payload_auth_ok (a : Auth P) : Prop :=
  HAS_DATA P && HAS_AUTH P = true →
  payload_auth_data P a = Ok (payload_auth_bytes a) ∧
  reads (auth_read P) a (payload_auth_bytes a) ∧ payload_auth_bytes a ≠ [].

Definition head_bytes (d : BlockDate) (ni no : nat) : list Z :=
  be_bytes 4 (date_epoch d) ++ be_bytes 4 (date_slot_id d) ++ [Z.of_nat ni; Z.of_nat no].
Definition tx_bytes (p : P) d (il : list Input) (ol : list (Output Address)) (wl : list Witness)
    (a : Auth P) : list Z :=
  (if HAS_DATA P then payload_bytes p else []) ++ head_bytes d (length il) (length ol) ++
  concat (input_bytes <$> il) ++ concat (output_bytes <$> ol) ++ concat (witness_bytes <$> wl) ++
  (if HAS_DATA P && HAS_AUTH P then payload_auth_bytes a else []).
Definition built_struct (p : P) d (il : list Input) (ol : list (Output Address)) (wl : list Witness)
    (a : Auth P) : TransactionStruct :=
  let pre := (if HAS_DATA P then payload_bytes p else []) ++ head_bytes d (length il) (length ol) in
  mkStruct (length (tx_bytes p d il ol wl a)) (Z.of_nat (length il)) (Z.of_nat (length ol)) d
    (length pre) (length (pre ++ concat (input_bytes <$> il)))
    (length ((pre ++ concat (input_bytes <$> il)) ++ concat (output_bytes <$> ol)))
    (length (((pre ++ concat (input_bytes <$> il)) ++ concat (output_bytes <$> ol)) ++
             concat (witness_bytes <$> wl))).

Lemma set_payload_eq p :
  payload_ok p →
  set_payload builder_new p = Ok (mkBuilder (if HAS_DATA P then payload_bytes p else [])
    (tb_struct builder_new)).
Proof using Type.
  unfold payload_ok, set_payload. destruct (HAS_DATA P); [|done]. intros Hp. destruct Hp as [-> _]; done.
Qed.

Lemma build_tx_eq p d il ol wl a :
  payload_ok p → payload_auth_ok a → (length il < 256)%nat → (length ol < 256)%nat → length wl = length il →
  build_tx p d il ol wl a = Ok (mkTx (tx_bytes p d il ol wl a) (built_struct p d il ol wl a)).
Proof using Type.
  intros Hp Ha Hi Ho Hw. unfold build_tx, set_ios. rewrite set_payload_eq by done. cbn [mbind outcome_bind].
  rewrite (proj2 (Nat.ltb_lt _ _) Hi), (proj2 (Nat.ltb_lt _ _) Ho). cbn [assert_that mbind outcome_bind].
  assert (∀ n, (n < 256)%nat → wrap 8 (Z.of_nat n) = Z.of_nat n) as Hwr.
  { intros n Hn. apply wrap_small. unfold in_u. lia. }
  rewrite !Hwr by done. unfold set_witnesses. cbn [tb_struct ts_nb_inputs].
  rewrite Hw, Z.eqb_refl. cbn [assert_that mbind outcome_bind].
  unfold set_payload_auth, set_witnesses_unchecked, current_pos, FRAGMENT_OVERHEAD.
  cbn [tb_data tb_struct ts_sz ts_nb_inputs ts_nb_outputs ts_valid_until ts_inputs ts_outputs
    ts_witnesses ts_payload_auth set_expiry_date builder_new replicate].
  unfold FRAGMENT_OVERHEAD. rewrite !foldl_app_bytes, !foldl_outputs.
  unfold built_struct, tx_bytes, write_date, head_bytes. cbn [replicate app]. rewrite !Nat.sub_0_r.
  unfold payload_auth_ok in Ha. destruct (HAS_DATA P && HAS_AUTH P).
  - destruct Ha as [-> _]; [done|]. cbn [mbind outcome_bind]. f_equal. f_equal; [|f_equal];
      rewrite <-!app_assoc, ?Nat.sub_0_r; reflexivity.
  - cbn [mbind outcome_bind]. f_equal. f_equal; [|f_equal]; rewrite <-!app_assoc, ?app_nil_r, ?Nat.sub_0_r; reflexivity.
Qed.

(** The bytes of a shape are accepted with its structure. *)
Lemma get_spine_built p d il ol wl a :
  payload_ok p → payload_auth_ok a → u32_ok (date_epoch d) → u32_ok (date_slot_id d) →
  (length il < 256)%nat → (length ol < 256)%nat → length wl = length il →
  Forall input_ok il → Forall output_ok ol → Forall witness_ok wl →
  get_spine P (tx_bytes p d il ol wl a) = Ok (built_struct p d il ol wl a).
Proof using Type.
  intros Hp Ha He Hs Hi Ho Hw Hil Hol Hwl. unfold get_spine.
  change (rb_from ?x) with (rb_at [] x). unfold tx_bytes at 2 3.
  set (pb := if HAS_DATA P then payload_bytes p else []).
  set (ab := if HAS_DATA P && HAS_AUTH P then payload_auth_bytes a else []).
  set (R := head_bytes _ _ _ ++ _).
  assert ((if HAS_DATA P then with_err PayloadInvalid (read_validate (payload_read P)) (rb_at [] (pb ++ R))
           else Ok ((), rb_at [] (pb ++ R))) = Ok ((), rb_at pb R)) as ->.
  { subst pb. unfold payload_ok in Hp. destruct (HAS_DATA P); [|done].
    apply (with_err_reads PayloadInvalid). destruct Hp as [_ Hp]; [done|]. by apply (reads_validate _ p). }
  subst R. unfold head_bytes. rewrite <-!app_assoc. cbn [mbind outcome_bind].
  rewrite (with_err_reads _ get_u32 (date_epoch d)) by (by apply reads_u32). cbn [mbind outcome_bind].
  rewrite (with_err_reads _ get_u32 (date_slot_id d)) by (by apply reads_u32). cbn [mbind outcome_bind].
  change ([?x; ?y] ++ ?l) with ([x] ++ [y] ++ l).
  rewrite (with_err_reads _ get_u8 (Z.of_nat (length il))) by apply reads_u8. cbn [mbind outcome_bind].
  rewrite (with_err_reads _ get_u8 (Z.of_nat (length ol))) by apply reads_u8. cbn [mbind outcome_bind].
  rewrite !Nat2Z.id. rewrite <-length_concat_input_bytes by done.
  rewrite (with_err_reads _ (skip_bytes _) ()) by apply reads_skip_bytes. cbn [mbind outcome_bind].
  destruct (encoded_pairs output_bytes ol) as [_ Eo]. destruct (encoded_pairs witness_bytes wl) as [_ Ew].
  assert (reads (repeat_validate (length ol) output_read) () (concat (output_bytes <$> ol))) as Ro.
  { rewrite <-Eo. rewrite <-(length_fmap (λ o, (o, output_bytes o)) ol) at 1. apply reads_repeat_validate.
    apply Forall_fmap. eapply Forall_impl; [exact Hol|]. intros o Hok. by apply reads_output. }
  assert (reads (repeat_validate (length il) witness_read) () (concat (witness_bytes <$> wl))) as Rw.
  { rewrite <-Ew, <-Hw. rewrite <-(length_fmap (λ o, (o, witness_bytes o)) wl) at 1. apply reads_repeat_validate.
    apply Forall_fmap. eapply Forall_impl; [exact Hwl|]. intros w Hok. by apply reads_witness. }
  rewrite (with_err_reads _ _ () _ _ _ Ro). cbn [mbind outcome_bind].
  rewrite (with_err_reads _ _ () _ _ _ Rw). cbn [mbind outcome_bind]. rewrite rb_at_is_end.
  set (pre := (((((((pb ++ _) ++ _) ++ _) ++ _) ++ _) ++ _) ++ _)).
  assert ((if HAS_DATA P && HAS_AUTH P
           then if bool_decide (ab = []) then Err PayloadAuthMissing
                else with_err PayloadAuthInvalid (read_validate (auth_read P)) (rb_at pre ab)
           else Ok ((), rb_at pre ab)) = Ok ((), rb_at (pre ++ ab) [])) as ->.
  { subst ab. unfold payload_auth_ok in Ha. destruct (HAS_DATA P && HAS_AUTH P).
    - destruct Ha as (_ & Hr & Hne); [done|]. rewrite bool_decide_false by done.
      rewrite <-(app_nil_r (payload_auth_bytes a)) at 1. apply with_err_reads. by apply (reads_validate _ a).
    - by rewrite app_nil_r. }
  cbn [mbind outcome_bind]. rewrite rb_at_is_end. cbn [negb bool_decide]. unfold built_struct.
  fold pb. subst pre. unfold rb_at. cbn [rb_position rb_offset]. rewrite bool_decide_true by done.
  cbn [negb]. destruct d as [e s]. unfold head_bytes. cbn [date_epoch date_slot_id].
  rewrite <-!app_assoc. reflexivity.
Qed.

(** C36. What [TxBuilder] builds is accepted by [check] with the same structure,
    and every part is read back; the bytes the witnesses sign are the bytes
    before them. *)
Theorem builder_roundtrip p d il ol wl a :
  payload_ok p → payload_auth_ok a → u32_ok (date_epoch d) → u32_ok (date_slot_id d) →
  (length il < 256)%nat → (length ol < 256)%nat → length wl = length il →
  Forall input_ok il → Forall output_ok ol → Forall witness_ok wl →
  ∃ t, build_tx p d il ol wl a = Ok t ∧ tx_check P (tx_data t) = Ok t ∧
    tx_inputs t = Ok il ∧ tx_outputs t = Ok ol ∧ tx_inputs_and_witnesses t = Ok (zip il wl) ∧
    tx_valid_until t = d ∧
    (∃ b0 b, set_payload builder_new p = Ok b0 ∧ set_ios (set_expiry_date b0 d) il ol = Ok b ∧
          transaction_auth_data t = Ok (get_auth_data_for_witness b)).
Proof using Type*.
  intros Hp Ha He Hs Hi Ho Hw Hil Hol Hwl. rewrite build_tx_eq by done. eexists. split; [done|].
  cbn [tx_data]. pose proof (get_spine_built p d il ol wl a Hp Ha He Hs Hi Ho Hw Hil Hol Hwl) as Hspine.
  split; [unfold tx_check; by rewrite Hspine|].
  set (os := (λ o, (o, output_bytes o)) <$> ol). set (ws := (λ w, (w, witness_bytes w)) <$> wl).
  destruct (encoded_pairs output_bytes ol) as [Eo1 Eo2]. destruct (encoded_pairs witness_bytes wl) as [Ew1 Ew2].
  fold os in Eo1, Eo2. fold ws in Ew1, Ew2.
  set (pb := if HAS_DATA P then payload_bytes p else []).
  set (ab := if HAS_DATA P && HAS_AUTH P then payload_auth_bytes a else []).
  assert (spine_shape (P := P) (tx_bytes p d il ol wl a) (built_struct p d il ol wl a) pb
    (head_bytes d (length il) (length ol)) (concat (input_bytes <$> il)) os ws ab) as Hshape.
  { split; cbn [ts_sz ts_inputs ts_outputs ts_witnesses ts_payload_auth ts_nb_inputs ts_nb_outputs
      ts_valid_until built_struct]; rewrite ?Eo2, ?Ew2; try done.
    - eexists _, _. split; [done|]. split; by apply reads_u32.
    - rewrite Nat2Z.id. by apply length_concat_input_bytes.
    - subst os. rewrite length_fmap, Nat2Z.id. split; [done|]. apply Forall_fmap.
      eapply Forall_impl; [exact Hol|]. intros o Hok. by apply reads_output.
    - subst ws. rewrite length_fmap, Nat2Z.id. split; [done|]. apply Forall_fmap.
      eapply Forall_impl; [exact Hwl|]. intros w Hok. by apply reads_witness.
    - unfold payload_ok in Hp. subst pb. destruct (HAS_DATA P); [|done]. exists p. by apply Hp.
    - unfold payload_auth_ok in Ha. subst ab. destruct (HAS_DATA P && HAS_AUTH P); [|done].
      exists a. by apply Ha. }
  destruct (shape_accessors _ _ _ _ _ _ _ _ il Hshape Hil) as (E1 & E2 & _ & E4 & _);
    [cbn; lia|done|]. rewrite Eo1 in E2. rewrite Ew1 in E4.
  split; [done|]. split; [done|]. split; [done|]. split; [done|].
  rewrite set_payload_eq by done. unfold set_ios.
  rewrite (proj2 (Nat.ltb_lt _ _) Hi), (proj2 (Nat.ltb_lt _ _) Ho).
  cbn [assert_that mbind outcome_bind]. eexists _, _. split; [done|]. split; [done|].
  unfold get_auth_data_for_witness, FRAGMENT_OVERHEAD, transaction_auth_data.
  cbn [tb_data drop tx_data tx_struct built_struct ts_witnesses].
  rewrite foldl_app_bytes, foldl_outputs, drop_0.
  assert (∀ n, (n < 256)%nat → wrap 8 (Z.of_nat n) = Z.of_nat n) as Hwr.
  { intros n Hn. apply wrap_small. unfold in_u. lia. }
  rewrite !Hwr by done. unfold tx_bytes. fold pb ab.
  rewrite (app_assoc pb), (app_assoc (pb ++ _)), (app_assoc ((pb ++ _) ++ _)).
  etransitivity; [apply (tx_slice_mid []); reflexivity|]. f_equal.
  unfold set_expiry_date, builder_new, write_date, head_bytes, FRAGMENT_OVERHEAD, pb.
  cbn [tb_data replicate app]. destruct (HAS_DATA P); cbn [app]; by rewrite <-!app_assoc.
Qed.
End build.

(** ** A concrete transaction *)
Lemma builder_roundtrip_witness :
  ∃ t : Transaction NoExtra_,
    build_tx NoExtra (mkDate 1 2) [demo_input 10] [demo_output 7] [demo_wit] no_auth = Ok t ∧
    tx_check NoExtra_ (tx_data t) = Ok t ∧ tx_inputs t = Ok [demo_input 10].
Proof.
  destruct (builder_roundtrip (P := NoExtra_) NoExtra (mkDate 1 2) [demo_input 10] [demo_output 7]
    [demo_wit] no_auth) as (t & H1 & H2 & H3 & _);
    [discriminate|discriminate|split; cbn; lia|split; cbn; lia|cbn; lia|cbn; lia|reflexivity
    |repeat constructor; cbn; lia|repeat constructor; cbn; lia|repeat constructor; cbn; lia|].
  exists t. split; [exact H1|]. split; [exact H2|exact H3].
Defined.

Lemma checked_tx_accessors_witness :
  ∃ t, tx_check NoExtra_ ([0; 0; 0; 1; 0; 0; 0; 2; 1; 1] ++ input_bytes (demo_input 10) ++
      output_bytes (demo_output 7) ++ witness_bytes demo_wit) = Ok t ∧
    ∃ il, tx_inputs t = Ok il ∧ Z.of_nat (length il) = tx_nb_inputs t.
Proof.
  set (data := _ ++ _).
  assert (bytes_ok data) as Hb.
  { refine (bool_decide_unpack (Forall u8_ok data) _). vm_compute. reflexivity. }
  destruct (tx_check NoExtra_ data) as [t|e|] eqn:Ht; [|vm_compute in Ht; discriminate Ht..].
  exists t. split; [reflexivity|].
  destruct (checked_tx_accessors (P := NoExtra_) data t Hb) as (_ & _ & Hc).
  destruct (Hc Ht) as (il & os & ws & H1 & _ & _ & _ & H2 & _). exists il. split; [exact H1|exact H2].
Defined.
