(* ===== verification/TxIo.v ===== *)
(** * Balance and the inputs-outputs builder ([transaction/{transaction,io}.rs]) *)
From S2P Require Import Prelude Codec Key Value Time Utxo Spending Addr Multisig Input Transaction.
Local Open Scope Z_scope.

(** ** [io.rs] *)
Record InputOutputBuilder := mkIOBuilder { iob_inputs : list Input; iob_outputs : list (Output Address) }.
Record InputOutput := mkIO { io_inputs : list Input; io_outputs : list (Output Address) }.
Inductive IoBuildError :=
| TxInvalidNoInput | TxInvalidNoOutput | TxTooManyInputs | TxTooManyOutputs
| TxNotEnoughTotalInput | TxTooMuchTotalInput | MathErr (e : ValueError).
Inductive OutputPolicy := POne (a : Address) | PForget.

Definition io_empty : InputOutputBuilder := mkIOBuilder [] [].
Definition io_new (inputs : list Input) (outputs : list (Output Address)) :
    outcome IoBuildError InputOutputBuilder :=
  if (255 <? length inputs)%nat then Err TxTooManyInputs
  else if (255 <? length outputs)%nat then Err TxTooManyOutputs
  else Ok (mkIOBuilder inputs outputs).
Definition io_build (b : InputOutputBuilder) : InputOutput := mkIO (iob_inputs b) (iob_outputs b).
Definition io_add_input (b : InputOutputBuilder) (input : Input) :
    outcome IoBuildError InputOutputBuilder :=
  if (length (iob_inputs b) =? 255)%nat then Err TxTooManyInputs
  else Ok (mkIOBuilder (iob_inputs b ++ [input]) (iob_outputs b)).
Definition io_add_output (b : InputOutputBuilder) (address : Address) (value : Value) :
    outcome IoBuildError InputOutputBuilder :=
  if (length (iob_outputs b) =? 255)%nat then Err TxTooManyOutputs
  else Ok (mkIOBuilder (iob_inputs b) (iob_outputs b ++ [mkOutput address value])).
Definition io_remove_input (b : InputOutputBuilder) (input : nat) : InputOutputBuilder :=
  if (input <? length (iob_inputs b))%nat
  then mkIOBuilder (delete input (iob_inputs b)) (iob_outputs b) else b.
Definition io_remove_output (b : InputOutputBuilder) (output : nat) : InputOutputBuilder :=
  if (output <? length (iob_outputs b))%nat
  then mkIOBuilder (iob_inputs b) (delete output (iob_outputs b)) else b.

Definition io_balance (b : InputOutputBuilder) (fee : Value) : outcome ValueError Balance :=
  inputs ← value_sum (input_value <$> iob_inputs b);
  outputs ← value_sum (out_value <$> iob_outputs b);
  z ← value_add outputs fee;
  balance_of inputs z.

Section fees.
Context {P F : Type} `{Payload P} `{FeeAlgorithm F}.

Definition estimate_fee (b : InputOutputBuilder) (payload : list Z) (f : F) : Value :=
  calculate f (into_certificate_slice (P := P) payload)
    (wrap 8 (Z.of_nat (length (iob_inputs b)))) (wrap 8 (Z.of_nat (length (iob_outputs b)))).
Definition get_balance (b : InputOutputBuilder) (payload : list Z) (f : F) :
    outcome ValueError Balance := io_balance b (estimate_fee b payload f).
Definition get_balance_with_placeholders (b : InputOutputBuilder) (payload : list Z) (f : F)
    (inputs_placeholders outputs_placeholders : Z) : outcome IoBuildError Balance :=
  if 256 <=? Z.of_nat (length (iob_inputs b)) + inputs_placeholders then Err TxTooManyInputs
  else if 256 <=? Z.of_nat (length (iob_outputs b)) + outputs_placeholders then Err TxTooManyOutputs
  else
    let nb_inputs := wrap 8 (wrap 8 (Z.of_nat (length (iob_inputs b))) + inputs_placeholders) in
    let nb_outputs := wrap 8 (wrap 8 (Z.of_nat (length (iob_outputs b))) + outputs_placeholders) in
    let fee := calculate f (into_certificate_slice (P := P) payload) nb_inputs nb_outputs in
    map_err MathErr (io_balance b fee).
Definition get_balance_without_fee (b : InputOutputBuilder) : outcome ValueError Balance :=
  io_balance b value_zero.

Definition seal (b : InputOutputBuilder) (payload : list Z) (f : F) : outcome IoBuildError InputOutput :=
  match get_balance b payload f with
  | Err err => Err (MathErr err)
  | Ok (Negative _) => Err TxNotEnoughTotalInput
  | Ok (Positive _) => Err TxTooMuchTotalInput
  | Ok BZero => Ok (io_build b)
  | Panic => Panic
  end.

(** [Vec::pop]. *)
Definition pop {A} (l : list A) : list A := take (length l - 1) l.
Definition seal_with_output_policy (b : InputOutputBuilder) (payload : list Z) (f : F)
    (policy : OutputPolicy) :
    outcome IoBuildError (Balance * list (Output Address) * InputOutput) :=
  let fee := estimate_fee b payload f in
  match io_balance b fee with
  | Ok (Negative _) => Err TxNotEnoughTotalInput
  | Ok BZero => Ok (BZero, [], io_build b)
  | Err err => Err (MathErr err)
  | Panic => Panic
  | Ok (Positive pos) =>
      match policy with
      | PForget => Ok (Positive pos, [], io_build b)
      | POne address =>
          b ← io_add_output b address value_zero;
          let fee := estimate_fee b payload f in
          match io_balance b fee with
          | Panic => Panic
          | Ok (Positive value) =>
              let output := mkOutput address value in
              let b := mkIOBuilder (iob_inputs b) (pop (iob_outputs b) ++ [output]) in
              Ok (BZero, [output], io_build b)
          | _ =>
              let b := mkIOBuilder (iob_inputs b) (pop (iob_outputs b)) in
              Ok (Positive pos, [], io_build b)
          end
      end
  end.
End fees.

(** ** Exact balances *)
Definition sum_in (l : list Input) : Z := Zsum (input_value <$> l).
Definition sum_out (l : list (Output Address)) : Z := Zsum (out_value <$> l).
Definition values_nonneg (il : list Input) (ol : list (Output Address)) : Prop :=
  Forall (λ i, 0 ≤ input_value i) il ∧ Forall (λ o, 0 ≤ out_value o) ol.

Lemma balance_of_spec i z :
  balance_of i z = Ok (if decide (z < i) then Positive (i - z)
                       else if decide (i < z) then Negative (z - i) else BZero).
Proof.
  unfold balance_of, value_sub, checked_sub64. destruct (Z.compare_spec i z) as [->|Hlt|Hgt].
  - by rewrite !decide_False by lia.
  - rewrite (decide_False (P := z < i)), (decide_True (P := i < z)) by lia.
    by rewrite (decide_True (P := i ≤ z)) by lia.
  - rewrite (decide_True (P := z < i)) by lia. by rewrite (decide_True (P := z ≤ i)) by lia.
Qed.

Lemma sums_spec il ol :
  values_nonneg il ol →
  value_sum (input_value <$> il) = (if decide (sum_in il ≤ u64_max) then Ok (sum_in il) else Err Overflow) ∧
  value_sum (out_value <$> ol) = (if decide (sum_out ol ≤ u64_max) then Ok (sum_out ol) else Err Overflow).
Proof. intros [Hi Ho]. split; apply value_sum_spec, Forall_fmap; done. Qed.

Lemma sum_out_nonneg il ol : values_nonneg il ol → 0 ≤ sum_out ol.
Proof. intros [_ Ho]. apply Zsum_nonneg, Forall_fmap. done. Qed.

(** The balance of inputs and outputs, of the builder and of a transaction. *)
Definition balance_spec (inputs outputs fee : Z) : outcome ValueError Balance :=
  if decide (inputs ≤ u64_max ∧ outputs + fee ≤ u64_max) then
    Ok (if decide (outputs + fee < inputs) then Positive (inputs - (outputs + fee))
        else if decide (inputs < outputs + fee) then Negative (outputs + fee - inputs) else BZero)
  else Err Overflow.

Lemma io_balance_spec b fee :
  values_nonneg (iob_inputs b) (iob_outputs b) → 0 ≤ fee →
  io_balance b fee = balance_spec (sum_in (iob_inputs b)) (sum_out (iob_outputs b)) fee.
Proof.
  intros Hv Hf. unfold io_balance, balance_spec. destruct (sums_spec _ _ Hv) as [-> ->].
  pose proof (sum_out_nonneg _ _ Hv). unfold value_add, checked_add64.
  destruct (decide (sum_in (iob_inputs b) ≤ u64_max)) as [H1|H1]; cbn [mbind outcome_bind].
  2:{ by rewrite decide_False by tauto. }
  destruct (decide (sum_out (iob_outputs b) ≤ u64_max)) as [H2|H2]; cbn [mbind outcome_bind].
  2:{ by rewrite decide_False by lia. }
  destruct (decide (sum_out (iob_outputs b) + fee ≤ u64_max)) as [H3|H3]; cbn [ok_or mbind outcome_bind].
  - rewrite (decide_True (P := _ ∧ _)) by done. apply balance_of_spec.
  - by rewrite decide_False by tauto.
Qed.

Section tx.
Context {P : Type} `{Payload P}.

(** The balance of a transaction whose parts can be read: strictly balanced
    means that the inputs pay exactly for the outputs and the fee, possibly
    balanced that they pay at least for the outputs; sums that do not fit a
    value are errors, whatever the order of the parts. *)
Theorem tx_balance_exact (t : Transaction P) il ol fee :
  tx_inputs t = Ok il → tx_outputs t = Ok ol → values_nonneg il ol → 0 ≤ fee →
  tx_balance t fee = balance_spec (sum_in il) (sum_out ol) fee ∧
  (verify_strictly_balanced t fee = Ok () ↔ sum_in il = sum_out ol + fee ∧ sum_in il ≤ u64_max) ∧
  (verify_possibly_balanced t = Ok () ↔ sum_out ol ≤ sum_in il ≤ u64_max).
Proof using Type.
  intros Hi Ho Hv Hf. pose proof (sum_out_nonneg _ _ Hv) as H0.
  destruct (sums_spec _ _ Hv) as [Es Eo].
  assert (total_input t = if decide (sum_in il ≤ u64_max) then Ok (sum_in il) else Err Overflow) as Ei.
  { unfold total_input. rewrite Hi. done. }
  assert (total_output t = if decide (sum_out ol ≤ u64_max) then Ok (sum_out ol) else Err Overflow) as Et.
  { unfold total_output. rewrite Ho. done. }
  split; [|split].
  - pose proof (io_balance_spec (mkIOBuilder il ol) fee Hv Hf) as Hb. cbn [iob_inputs iob_outputs] in Hb.
    rewrite <-Hb. unfold tx_balance, io_balance. cbn [iob_inputs iob_outputs]. by rewrite Ei, Et, Es, Eo.
  - unfold verify_strictly_balanced. rewrite Ei, Et. unfold value_add, checked_add64.
    destruct (decide (sum_in il ≤ u64_max)); cbn [map_err mbind outcome_bind]; [|split; [done|lia]].
    destruct (decide (sum_out ol ≤ u64_max)); cbn [map_err mbind outcome_bind]; [|split; [done|lia]].
    destruct (decide (sum_out ol + fee ≤ u64_max)); cbn [ok_or map_err mbind outcome_bind]; [|split; [done|lia]].
    destruct (Z.eqb_spec (sum_in il) (sum_out ol + fee)); cbn [negb]; split; (done || lia).
  - unfold verify_possibly_balanced. rewrite Ei, Et.
    destruct (decide (sum_in il ≤ u64_max)); cbn [map_err mbind outcome_bind]; [|split; [done|lia]].
    destruct (decide (sum_out ol ≤ u64_max)); cbn [map_err mbind outcome_bind]; [|split; [done|lia]].
    destruct (Z.ltb_spec (sum_in il) (sum_out ol)); split; (done || lia).
Qed.
End tx.

(** ** Sealing *)
Section seal.
Context {P F : Type} `{Payload P} `{FeeLaws F fok}.
Implicit Types b : InputOutputBuilder.

(** A sealed set of inputs and outputs pays its own fee exactly. *)
Definition io_balanced (payload : list Z) (f : F) (io : InputOutput) : Prop :=
  let b := mkIOBuilder (io_inputs io) (io_outputs io) in
  sum_in (io_inputs io) = sum_out (io_outputs io) + estimate_fee (P := P) b payload f.

Lemma estimate_fee_ok b payload f : fok f → u64_ok (estimate_fee (P := P) b payload f).
Proof using Type*. intros Hf. apply (calculate_ok (ok := fok)); [done|apply wrap_in_u; lia..]. Qed.

Lemma estimate_fee_lengths b b' payload f :
  length (iob_inputs b) = length (iob_inputs b') → length (iob_outputs b) = length (iob_outputs b') →
  estimate_fee (P := P) b payload f = estimate_fee (P := P) b' payload f.
Proof using Type. intros Hi Ho. unfold estimate_fee. by rewrite Hi, Ho. Qed.

Lemma io_balance_zero b fee :
  values_nonneg (iob_inputs b) (iob_outputs b) → 0 ≤ fee →
  io_balance b fee = Ok BZero → sum_in (iob_inputs b) = sum_out (iob_outputs b) + fee.
Proof using Type.
  intros Hv Hf. rewrite io_balance_spec by done. unfold balance_spec.
  repeat case_decide; intros Hb; try done. lia.
Qed.
Lemma io_balance_positive b fee v :
  values_nonneg (iob_inputs b) (iob_outputs b) → 0 ≤ fee →
  io_balance b fee = Ok (Positive v) → sum_in (iob_inputs b) = sum_out (iob_outputs b) + fee + v ∧ 0 < v.
Proof using Type.
  intros Hv Hf. rewrite io_balance_spec by done. unfold balance_spec.
  repeat case_decide; intros Hb; try done. apply Ok_inj in Hb. injection Hb as <-. lia.
Qed.

(** What sealing returns.  [seal] succeeds only on inputs that pay exactly for
    the outputs and the fee.  With a change address, the change is the whole
    excess over the fee of the transaction with the change output, so the
    result is exactly balanced; otherwise the outputs are untouched and the
    excess is reported. *)
Theorem sealed_is_balanced b payload f address :
  fok f → values_nonneg (iob_inputs b) (iob_outputs b) →
  (∀ io, seal (P := P) b payload f = Ok io → io = io_build b ∧ io_balanced payload f io) ∧
  (∀ bal added io, seal_with_output_policy (P := P) b payload f (POne address) = Ok (bal, added, io) →
     io_inputs io = iob_inputs b ∧ io_outputs io = iob_outputs b ++ added ∧
     match bal with
     | BZero => io_balanced payload f io ∧ (added = [] ∨ ∃ v, added = [mkOutput address v] ∧ 0 < v)
     | Positive v => added = [] ∧ 0 < v ∧
         sum_in (io_inputs io) = sum_out (io_outputs io) + estimate_fee (P := P) b payload f + v
     | Negative _ => False
     end).
Proof using Type*.
  intros Hfok Hv. pose proof (estimate_fee_ok b payload f Hfok) as [Hfee _]. split.
  - intros io. unfold seal, get_balance. destruct (io_balance b _) as [[]|e|] eqn:Hb; try done.
    intros <-%Ok_inj. split; [done|]. destruct b as [il ol]. unfold io_balanced, io_build. cbn in *.
    by apply (io_balance_zero (mkIOBuilder il ol)) in Hb.
  - intros bal added io. unfold seal_with_output_policy.
    destruct (io_balance b _) as [[pos|neg|]|e|] eqn:Hb; try done.
    + apply io_balance_positive in Hb as [Hb Hpos]; [|done..].
      intros (b1 & Hadd & Hk)%bind_Ok. unfold io_add_output in Hadd.
      destruct (length (iob_outputs b) =? 255)%nat; [done|]. apply Ok_inj in Hadd as <-.
      set (b1 := mkIOBuilder (iob_inputs b) _) in Hk.
      assert (values_nonneg (iob_inputs b1) (iob_outputs b1)) as Hv1.
      { destruct Hv as [Hvi Hvo]. split; [done|]. cbn. apply Forall_app. split; [done|].
        by constructor; [|constructor]. }
      pose proof (estimate_fee_ok b1 payload f Hfok) as [Hfee1 _].
      assert (pop (iob_outputs b1) = iob_outputs b) as Hpop.
      { unfold pop, b1. cbn. rewrite length_app. cbn. by rewrite Nat.add_sub, take_app_length. }
      assert (Ok (Positive pos, [], io_build (mkIOBuilder (iob_inputs b1) (pop (iob_outputs b1)))) =
        @Ok IoBuildError _ (bal, added, io) →
        io_inputs io = iob_inputs b ∧ io_outputs io = iob_outputs b ++ added ∧ bal = Positive pos ∧ added = [])
        as Hback.
      { rewrite Hpop. intros Hok%Ok_inj. injection Hok as <- <- <-. cbn. by rewrite app_nil_r. }
      destruct (io_balance b1 _) as [[v|v|]|e|] eqn:Hb1 in Hk; [|clear Hb1..]; try done.
      2,3,4: destruct (Hback Hk) as (Ein & Eout & -> & ->); split; [done|]; split; [done|];
        split; [done|]; split; [done|]; rewrite Ein, Eout, app_nil_r; exact Hb.
      rewrite Hpop in Hk. apply Ok_inj in Hk. injection Hk as <- <- <-. cbn. split; [done|]. split; [done|].
      apply io_balance_positive in Hb1 as [Hb1 Hv0]; [|done..]. split; [|right; by exists v].
      unfold io_balanced. cbn. unfold b1 in Hb1. cbn in Hb1. unfold sum_out in *.
      rewrite fmap_app, Zsum_app in Hb1 |- *. cbn in Hb1 |- *. rewrite Hb1.
      rewrite (estimate_fee_lengths (mkIOBuilder _ (_ ++ [mkOutput address value_zero]))
        (mkIOBuilder (iob_inputs b) (iob_outputs b ++ [mkOutput address v]))).
      * unfold value_zero. lia.
      * done.
      * cbn. by rewrite !length_app.
    + apply io_balance_zero in Hb; [|done..].
      intros Hok%Ok_inj. injection Hok as <- <- <-. cbn. rewrite app_nil_r.
      split; [done|]. split; [done|]. split; [|by left]. destruct b as [il ol]. exact Hb.
Qed.
End seal.

(** ** Concrete transactions *)
Lemma tx_balance_exact_witness :
  ∃ t : Transaction NoExtra_,
    build_tx NoExtra (mkDate 1 2) [demo_input 10] [demo_output 7] [demo_wit] no_auth = Ok t ∧
    verify_strictly_balanced t 3 = Ok () ∧ tx_balance t 1 = Ok (Positive 2).
Proof.
  destruct (build_tx NoExtra (mkDate 1 2) [demo_input 10] [demo_output 7] [demo_wit] no_auth) as [t|e|] eqn:Ht;
    [|destruct e|vm_compute in Ht; discriminate Ht].
  exists t. split; [reflexivity|]. apply Ok_inj in Ht.
  assert (tx_inputs t = Ok [demo_input 10]) as Hi by (subst t; vm_compute; reflexivity).
  assert (tx_outputs t = Ok [demo_output 7]) as Ho by (subst t; vm_compute; reflexivity).
  assert (values_nonneg [demo_input 10] [demo_output 7]) as Hv
    by (split; repeat constructor; cbn; lia).
  split.
  - apply (tx_balance_exact t _ _ 3 Hi Ho Hv); [lia|]. vm_compute. split; [reflexivity|discriminate].
  - destruct (tx_balance_exact t _ _ 1 Hi Ho Hv) as [-> _]; [lia|]. vm_compute. reflexivity.
Defined.

Lemma sealed_is_balanced_witness :
  ∃ io added, seal_with_output_policy (P := NoExtra_) (mkIOBuilder [demo_input 100] [demo_output 7]) []
      (linear_fee_new 5 1 2) (POne (demo_address 4)) = Ok (BZero, added, io) ∧
    io_balanced (P := NoExtra_) [] (linear_fee_new 5 1 2) io.
Proof.
  set (b := mkIOBuilder [demo_input 100] [demo_output 7]).
  destruct (seal_with_output_policy (P := NoExtra_) b [] (linear_fee_new 5 1 2) (POne (demo_address 4)))
    as [[[bal added] io]|e|] eqn:Hs; [|vm_compute in Hs; discriminate Hs..].
  assert (bal = BZero) as -> by (vm_compute in Hs; apply Ok_inj in Hs; injection Hs as <- _ _; reflexivity).
  exists io, added. split; [reflexivity|].
  assert (linear_fee_ok (linear_fee_new 5 1 2)) as Hf by (repeat split; cbn; lia).
  assert (values_nonneg (iob_inputs b) (iob_outputs b)) as Hv by (split; repeat constructor; cbn; lia).
  apply (proj2 (sealed_is_balanced b [] _ (demo_address 4) Hf Hv) _ _ _ Hs).
Defined.
