(* ===== verification/Config.v ===== *)
(** * Configuration parameters ([config.rs], [fragment/config.rs], [chaintypes.rs], [milli.rs])

    A parameter is written as a 16-bit tag and length and the payload of its
    variant.  A [Tag] is its discriminant; the variants of the [evm] feature,
    which the workspace leaves off by default, are not modelled, apart from
    the payload of [EvmConfig]. *)
From S2P Require Import Prelude Codec Key Value Rewards Addr.
Local Open Scope Z_scope.

(** ** [chaintypes.rs] *)
Inductive ConsensusType := Bft | GenesisPraos.
#[export] Instance ConsensusType_eq_dec : EqDecision ConsensusType.
Proof. solve_decision. Defined.
Definition consensus_discriminant (c : ConsensusType) : Z := match c with Bft => 1 | GenesisPraos => 2 end.
Definition consensus_from_u16 (v : Z) : option ConsensusType :=
  if v =? 1 then Some Bft else if v =? 2 then Some GenesisPraos else None.
(** A [ChainLength] is a [u32]. *)
Definition chain_length_increase {E} (l : Z) : outcome E Z :=
  unwrap_opt (if decide (l + 1 ≤ u32_max) then Some (l + 1) else None).
Definition nth_ancestor (l depth : Z) : option Z := if decide (depth ≤ l) then Some (l - depth) else None.

(** ** [milli.rs] *)
Abbreviation Milli := Z.
Definition MILLI_MULTIPLIER : Z := 1000.
Definition milli_zero : Milli := 0.
Definition milli_half : Milli := MILLI_MULTIPLIER `div` 2.
Definition milli_one : Milli := MILLI_MULTIPLIER.

(** ** [config.rs] *)
Inductive ConfigError :=
| CInvalidTag | CSizeInvalid | CBoolInvalid | CStructureInvalid | CUnknownString (s : string).
Definition config_error_display (e : ConfigError) : string :=
  match e with
  | CInvalidTag => "Invalid config parameter tag"
  | CSizeInvalid => "Invalid config parameter size"
  | CBoolInvalid => "Invalid Boolean in config parameter"
  | CStructureInvalid => "Invalid config parameter structure"
  | CUnknownString s => "Invalid config parameter string '" +:+ s +:+ "'"
  end.
Definition config_of_read_error (e : ReadError) : ConfigError := CStructureInvalid.
Definition read_of_config_error (e : ConfigError) : ReadError :=
  StructureInvalid (config_error_display e).

Inductive RewardParams :=
| RPLinear (constant : Z) (ratio : Ratio) (epoch_start epoch_rate : Z)
| RPHalving (constant : Z) (ratio : Ratio) (epoch_start epoch_rate : Z).
Abbreviation BftLeaderId := PublicKey.
Abbreviation CommitteeId := (list Z).
Definition COMMITTEE_ID_SIZE : nat := 32.

Inductive ConfigParam :=
| PBlock0Date (d : Z)
| PDiscrimination (d : Discrimination)
| PConsensusVersion (c : ConsensusType)
| PSlotsPerEpoch (n : Z)
| PSlotDuration (n : Z)
| PEpochStabilityDepth (n : Z)
| PConsensusGenesisPraosActiveSlotsCoeff (m : Milli)
| PBlockContentMaxSize (n : Z)
| PAddBftLeader (l : BftLeaderId)
| PRemoveBftLeader (l : BftLeaderId)
| PLinearFee (f : LinearFee)
| PProposalExpiration (n : Z)
| PKesUpdateSpeed (n : Z)
| PTreasuryAdd (v : Value)
| PTreasuryParams (t : TaxType)
| PRewardPot (v : Value)
| PRewardParams (r : RewardParams)
| PPerCertificateFees (f : PerCertificateFee)
| PFeesInTreasury (b : bool)
| PRewardLimitNone
| PRewardLimitByAbsoluteStake (r : Ratio)
| PPoolRewardParticipationCapping (xy : Z * Z)
| PAddCommitteeId (c : CommitteeId)
| PRemoveCommitteeId (c : CommitteeId)
| PPerVoteCertificateFees (f : PerVoteCertificateFee)
| PTransactionMaxExpiryEpochs (n : Z).

(** The discriminants of [Tag]. *)
Definition tag_of (p : ConfigParam) : Z :=
  match p with
  | PDiscrimination _ => 1 | PBlock0Date _ => 2 | PConsensusVersion _ => 3 | PSlotsPerEpoch _ => 4
  | PSlotDuration _ => 5 | PEpochStabilityDepth _ => 6
  | PConsensusGenesisPraosActiveSlotsCoeff _ => 8 | PBlockContentMaxSize _ => 9
  | PAddBftLeader _ => 11 | PRemoveBftLeader _ => 12 | PLinearFee _ => 14
  | PProposalExpiration _ => 15 | PKesUpdateSpeed _ => 16 | PTreasuryAdd _ => 17
  | PTreasuryParams _ => 18 | PRewardPot _ => 19 | PRewardParams _ => 20
  | PPerCertificateFees _ => 21 | PFeesInTreasury _ => 22 | PRewardLimitNone => 23
  | PRewardLimitByAbsoluteStake _ => 24 | PPoolRewardParticipationCapping _ => 25
  | PAddCommitteeId _ => 26 | PRemoveCommitteeId _ => 27 | PPerVoteCertificateFees _ => 28
  | PTransactionMaxExpiryEpochs _ => 29
  end.
Definition tag_from_u16 (v : Z) : option Z :=
  if existsb (Z.eqb v) [1; 2; 3; 4; 5; 6; 8; 9; 11; 12; 14; 15; 16; 17; 18; 19; 20; 21; 22; 23; 24;
                        25; 26; 27; 28; 29]
  then Some v else None.

Definition MAXIMUM_LEN : nat := 512.
Definition taglen_new (tag : Z) (len : nat) : option Z :=
  if (len <? MAXIMUM_LEN)%nat then Some (Z.lor (wrap 16 (Z.shiftl tag 9)) (Z.of_nat len)) else None.
Definition taglen_get_len (t : Z) : nat := Z.to_nat (Z.land t 511).
Definition taglen_get_tag (t : Z) : outcome ConfigError Z :=
  ok_or (tag_from_u16 (Z.shiftr t 9)) CInvalidTag.

(** *** Payloads: [to_payload] and [from_payload] of each variant *)
Definition of_reader {A} (r : Reader A) (payload : list Z) : outcome ConfigError A :=
  map_err config_of_read_error ('(a, _) ← r (rb_from payload); Ok a).
(** [let a = read(&mut rb)?; rb.expect_end()?; Ok(a)]. *)
Definition to_end {A} (r : Reader A) : Reader A := a ← r; expect_end ;; mret a.

Definition u8_to_payload (v : Z) : list Z := [v].
Definition u8_from_payload (payload : list Z) : outcome ConfigError Z :=
  match payload with [v] => Ok v | _ => Err CSizeInvalid end.
Definition u32_to_payload (v : Z) : list Z := be_bytes 4 v.
Definition u64_to_payload (v : Z) : list Z := be_bytes 8 v.
(** The lengths of [u32] and [u64]. *)
Definition uint_from_payload (n : nat) (payload : list Z) : outcome ConfigError Z :=
  if (length payload =? n)%nat then Ok (from_be payload) else Err CSizeInvalid.
Definition u32_from_payload := uint_from_payload 4.
Definition u64_from_payload := uint_from_payload 8.
Definition bool_to_payload (b : bool) : list Z := [if b then 1 else 0].
Definition bool_from_payload (payload : list Z) : outcome ConfigError bool :=
  match payload with
  | [v] => if v =? 0 then Ok false else if v =? 1 then Ok true else Err CBoolInvalid
  | _ => Err CSizeInvalid
  end.
Definition tax_to_payload (t : TaxType) : list Z := bb_finalize_as_vec (tax_serialize_in t bb_new).
Definition tax_from_payload := of_reader (to_end tax_read_frombuf).
Definition ratio_to_payload (r : Ratio) : list Z :=
  bb_finalize_as_vec (bb_u64 (bb_u64 bb_new (numerator r)) (denominator r)).
Definition ratio_from_payload :=
  of_reader (num ← get_u64; denom ← get_nz_u64; expect_end ;; mret (mkRatio num denom)).
Definition reward_params_to_payload (r : RewardParams) : list Z :=
  let put tag constant ratio epoch_start epoch_rate :=
    bb_u32 (bb_u32 (bb_u64 (bb_u64 (bb_u64 (bb_u8 bb_new tag) constant) (numerator ratio))
      (denominator ratio)) epoch_start) epoch_rate in
  bb_finalize_as_vec (match r with
                      | RPLinear c ratio es er => put 1 c ratio es er
                      | RPHalving c ratio es er => put 2 c ratio es er
                      end).
Definition read_reward_fields (mk : Z → Ratio → Z → Z → RewardParams) : Reader RewardParams :=
  start ← get_u64; num ← get_u64; denom ← get_nz_u64; estart ← get_u32; erate ← get_nz_u32;
  expect_end ;; mret (mk start (mkRatio num denom) estart erate).
Definition reward_params_from_payload (payload : list Z) : outcome ConfigError RewardParams :=
  '(tag, rb) ← map_err config_of_read_error (get_u8 (rb_from payload));
  if tag =? 1 then map_err config_of_read_error (fst <$> read_reward_fields RPLinear rb)
  else if tag =? 2 then map_err config_of_read_error (fst <$> read_reward_fields RPHalving rb)
  else Err CInvalidTag.
Definition VAL_PROD : Z := 1.
Definition VAL_TEST : Z := 2.
Definition discrimination_to_payload (d : Discrimination) : list Z :=
  match d with Production => [VAL_PROD] | Test_ => [VAL_TEST] end.
Definition discrimination_from_payload (payload : list Z) : outcome ConfigError Discrimination :=
  match payload with
  | [v] => if v =? VAL_PROD then Ok Production else if v =? VAL_TEST then Ok Test_
           else Err CStructureInvalid
  | _ => Err CSizeInvalid
  end.
Definition consensus_to_payload (c : ConsensusType) : list Z := be_bytes 2 (consensus_discriminant c).
Definition consensus_from_payload (payload : list Z) : outcome ConfigError ConsensusType :=
  integer ← uint_from_payload 2 payload; ok_or (consensus_from_u16 integer) CStructureInvalid.
Definition bft_leader_to_payload (l : BftLeaderId) : list Z := l.
Definition bft_leader_from_payload (payload : list Z) : outcome ConfigError BftLeaderId :=
  map_err (λ _, CSizeInvalid) (public_from_binary payload).
Definition capping_to_payload (xy : Z * Z) : list Z :=
  bb_finalize_as_vec (bb_u32 (bb_u32 bb_new xy.1) xy.2).
(** No [expect_end] here. *)
Definition capping_from_payload := of_reader (x ← get_nz_u32; y ← get_nz_u32; mret (x, y)).
Definition milli_to_payload (m : Milli) : list Z := u64_to_payload m.
Definition milli_from_payload := u64_from_payload.
Definition linear_fee_to_payload (f : LinearFee) : list Z :=
  (u64_to_payload (constant f) ++ u64_to_payload (coefficient f)) ++ u64_to_payload (certificate f).
Definition linear_fee_from_payload (payload : list Z) : outcome ConfigError LinearFee :=
  if negb (length payload =? 3 * 8)%nat then Err CSizeInvalid
  else
    c1 ← (s ← slice_range payload 0 8; u64_from_payload s);
    c2 ← (s ← slice_range payload 8 16; u64_from_payload s);
    c3 ← (s ← slice_range payload 16 24; u64_from_payload s);
    Ok (linear_fee_new c1 c2 c3).
(** [map(|v| v.get()).unwrap_or(0)] and [NonZeroU64::new]. *)
Definition opt_to_payload (o : option Z) : list Z := u64_to_payload (default 0 o).
Definition per_cert_to_payload (f : PerCertificateFee) : list Z :=
  (opt_to_payload (certificate_pool_registration f) ++
   opt_to_payload (certificate_stake_delegation f)) ++
  opt_to_payload (certificate_owner_stake_delegation f).
Definition per_cert_from_payload (payload : list Z) : outcome ConfigError PerCertificateFee :=
  if negb (length payload =? 3 * 8)%nat then Err CSizeInvalid
  else
    c1 ← (s ← slice_range payload 0 8; u64_from_payload s);
    c2 ← (s ← slice_range payload 8 16; u64_from_payload s);
    c3 ← (s ← slice_range payload 16 24; u64_from_payload s);
    Ok (mkPerCert (nonzero c1) (nonzero c2) (nonzero c3)).
Definition per_vote_to_payload (f : PerVoteCertificateFee) : list Z :=
  opt_to_payload (certificate_vote_plan f) ++ opt_to_payload (certificate_vote_cast f).
Definition per_vote_from_payload (payload : list Z) : outcome ConfigError PerVoteCertificateFee :=
  if negb (length payload =? 2 * 8)%nat then Err CSizeInvalid
  else
    c1 ← (s ← slice_range payload 0 8; u64_from_payload s);
    c2 ← (s ← slice_range payload 8 16; u64_from_payload s);
    Ok (mkPerVoteCert (nonzero c1) (nonzero c2)).
Definition committee_to_payload (c : CommitteeId) : list Z := c.
Definition committee_try_from (slice : list Z) : option CommitteeId :=
  if (length slice =? COMMITTEE_ID_SIZE)%nat then Some slice else None.
Definition committee_from_payload (payload : list Z) : outcome ConfigError CommitteeId :=
  ok_or (committee_try_from payload)
    (CUnknownString ("Not enough bytes, expected 32 but received " +:+ pretty.pretty (length payload))).

(** *** The parameter *)
Definition config_payload (p : ConfigParam) : list Z :=
  match p with
  | PBlock0Date d => u64_to_payload d
  | PDiscrimination d => discrimination_to_payload d
  | PConsensusVersion c => consensus_to_payload c
  | PSlotsPerEpoch n | PEpochStabilityDepth n | PBlockContentMaxSize n | PProposalExpiration n
  | PKesUpdateSpeed n => u32_to_payload n
  | PSlotDuration n | PTransactionMaxExpiryEpochs n => u8_to_payload n
  | PConsensusGenesisPraosActiveSlotsCoeff m => milli_to_payload m
  | PAddBftLeader l | PRemoveBftLeader l => bft_leader_to_payload l
  | PLinearFee f => linear_fee_to_payload f
  | PTreasuryAdd v | PRewardPot v => u64_to_payload v
  | PTreasuryParams t => tax_to_payload t
  | PRewardParams r => reward_params_to_payload r
  | PPerCertificateFees f => per_cert_to_payload f
  | PFeesInTreasury b => bool_to_payload b
  | PRewardLimitNone => []
  | PRewardLimitByAbsoluteStake r => ratio_to_payload r
  | PPoolRewardParticipationCapping xy => capping_to_payload xy
  | PAddCommitteeId c | PRemoveCommitteeId c => committee_to_payload c
  | PPerVoteCertificateFees f => per_vote_to_payload f
  end.
Inductive ConfigIoError := InitialEntPayloadTooBig.
Definition config_serialize (p : ConfigParam) : outcome ConfigIoError (list Z) :=
  let bytes := config_payload p in
  taglen ← ok_or (taglen_new (tag_of p) (length bytes)) InitialEntPayloadTooBig;
  Ok (codec_put_bytes (codec_put_be 2 [] taglen) bytes).

(** The variant of a tag and its payload. *)
Definition config_variant (tag : Z) (bytes : list Z) : outcome ConfigError ConfigParam :=
  match tag with
  | 2 => PBlock0Date <$> u64_from_payload bytes
  | 1 => PDiscrimination <$> discrimination_from_payload bytes
  | 3 => PConsensusVersion <$> consensus_from_payload bytes
  | 4 => PSlotsPerEpoch <$> u32_from_payload bytes
  | 5 => PSlotDuration <$> u8_from_payload bytes
  | 6 => PEpochStabilityDepth <$> u32_from_payload bytes
  | 8 => PConsensusGenesisPraosActiveSlotsCoeff <$> milli_from_payload bytes
  | 9 => PBlockContentMaxSize <$> u32_from_payload bytes
  | 11 => PAddBftLeader <$> bft_leader_from_payload bytes
  | 12 => PRemoveBftLeader <$> bft_leader_from_payload bytes
  | 14 => PLinearFee <$> linear_fee_from_payload bytes
  | 15 => PProposalExpiration <$> u32_from_payload bytes
  | 16 => PKesUpdateSpeed <$> u32_from_payload bytes
  | 17 => PTreasuryAdd <$> u64_from_payload bytes
  | 18 => PTreasuryParams <$> tax_from_payload bytes
  | 19 => PRewardPot <$> u64_from_payload bytes
  | 20 => PRewardParams <$> reward_params_from_payload bytes
  | 21 => PPerCertificateFees <$> per_cert_from_payload bytes
  | 22 => PFeesInTreasury <$> bool_from_payload bytes
  | 23 => match bytes with [] => Ok PRewardLimitNone | _ => Err CSizeInvalid end
  | 24 => PRewardLimitByAbsoluteStake <$> ratio_from_payload bytes
  | 25 => PPoolRewardParticipationCapping <$> capping_from_payload bytes
  | 26 => PAddCommitteeId <$> committee_from_payload bytes
  | 27 => PRemoveCommitteeId <$> committee_from_payload bytes
  | 28 => PPerVoteCertificateFees <$> per_vote_from_payload bytes
  | 29 => PTransactionMaxExpiryEpochs <$> u8_from_payload bytes
  | _ => Err CInvalidTag
  end.
Definition config_read : Reader ConfigParam :=
  taglen ← get_u16;
  bytes ← get_slice (taglen_get_len taglen);
  match taglen_get_tag taglen with
  | Err e => read_fail (read_of_config_error e)
  | Panic => read_fun (λ _, Panic)
  | Ok tag =>
      match config_variant tag bytes with
      | Ok p => mret p
      | Err e => read_fail (read_of_config_error e)
      | Panic => read_fun (λ _, Panic)
      end
  end.
(** [Deserialize]: the bytes are copied to a buffer for [read]. *)
Inductive ConfigDeserializeError := CEof (e : IoError) | CReading (e : ReadError).
Definition config_deserialize (r : list Z) : outcome ConfigDeserializeError (ConfigParam * list Z) :=
  '(tag_len, r) ← map_err CEof (codec_get_be 2 r);
  '(bytes, r) ← map_err CEof (codec_get (taglen_get_len tag_len) r);
  '(p, _) ← map_err CReading (config_read (rb_from (codec_put_bytes (codec_put_be 2 [] tag_len) bytes)));
  Ok (p, r).

(** ** [fragment/config.rs] *)
Abbreviation ConfigParams := (list ConfigParam).
Definition config_params_serialize (ps : ConfigParams) : outcome ConfigIoError (list Z) :=
  foldM (λ w p, bytes ← config_serialize p; Ok (w ++ bytes))
    (codec_put_be 2 [] (wrap 16 (Z.of_nat (length ps)))) ps.
Definition config_params_read : Reader ConfigParams :=
  len ← get_u16; read_vec config_read (Z.to_nat len).

(** [EvmConfig] of the [evm] feature. *)
Inductive EvmConfig := Frontier | Istanbul | Berlin | London.
Definition evm_config_to_payload (c : EvmConfig) : list Z :=
  [match c with Frontier => 0 | Istanbul => 1 | Berlin => 2 | London => 3 end].
Definition evm_config_from_payload (payload : list Z) : outcome ConfigError EvmConfig :=
  '(n, _) ← map_err config_of_read_error (get_u8 (rb_from payload));
  if n =? 1 then Ok Istanbul else if n =? 2 then Ok Berlin else Err CInvalidTag.
