(* ===== verification/ConfigSpec.v ===== *)
(** * Round trips of the configuration parameters *)
From S2P Require Import Prelude Codec Key Value Rewards Addr Config.
Local Open Scope Z_scope.

Definition opt_fee_ok (o : option Z) : Prop := from_option (λ v, 0 < v < 2 ^ 64) True o.
Definition ratio_param_ok (r : Ratio) : Prop := ratio_ok r.
Definition nz_u32_ok (v : Z) : Prop := 0 < v < 2 ^ 32.
Definition reward_params_ok (r : RewardParams) : Prop :=
  match r with
  | RPLinear c ra es er | RPHalving c ra es er => u64_ok c ∧ ratio_ok ra ∧ u32_ok es ∧ nz_u32_ok er
  end.
(** The parameters with a wire form: within the widths of their types; a fee
    without overrides, which have parameters of their own; a tax ratio of at
    most one. *)
Definition config_ok (p : ConfigParam) : Prop :=
  match p with
  | PBlock0Date v | PConsensusGenesisPraosActiveSlotsCoeff v | PTreasuryAdd v | PRewardPot v => u64_ok v
  | PDiscrimination _ | PConsensusVersion _ | PFeesInTreasury _ | PRewardLimitNone => True
  | PSlotsPerEpoch n | PEpochStabilityDepth n | PBlockContentMaxSize n | PProposalExpiration n
  | PKesUpdateSpeed n => u32_ok n
  | PSlotDuration n | PTransactionMaxExpiryEpochs n => u8_ok n
  | PAddBftLeader l | PRemoveBftLeader l => length l = PUBLIC_KEY_SIZE
  | PLinearFee f => u64_ok (constant f) ∧ u64_ok (coefficient f) ∧ u64_ok (certificate f) ∧
      f = linear_fee_new (constant f) (coefficient f) (certificate f)
  | PTreasuryParams t => tax_ok t ∧ ratio_le_one (ratio t)
  | PRewardParams r => reward_params_ok r
  | PPerCertificateFees f => opt_fee_ok (certificate_pool_registration f) ∧
      opt_fee_ok (certificate_stake_delegation f) ∧ opt_fee_ok (certificate_owner_stake_delegation f)
  | PRewardLimitByAbsoluteStake r => ratio_ok r
  | PPoolRewardParticipationCapping xy => nz_u32_ok xy.1 ∧ nz_u32_ok xy.2
  | PAddCommitteeId c | PRemoveCommitteeId c => length c = COMMITTEE_ID_SIZE
  | PPerVoteCertificateFees f => opt_fee_ok (certificate_vote_plan f) ∧
      opt_fee_ok (certificate_vote_cast f)
  end.

(** ** Payloads *)
Lemma uint_roundtrip n v : in_u (8 * Z.of_nat n) v → uint_from_payload n (be_bytes n v) = Ok v.
Proof.
  intros Hv. unfold uint_from_payload. by rewrite length_be_bytes, Nat.eqb_refl, from_be_bytes.
Qed.
Lemma u32_roundtrip v : u32_ok v → u32_from_payload (u32_to_payload v) = Ok v.
Proof. apply (uint_roundtrip 4). Qed.
Lemma u64_roundtrip v : u64_ok v → u64_from_payload (u64_to_payload v) = Ok v.
Proof. apply (uint_roundtrip 8). Qed.

Lemma of_reader_reads {A} (r : Reader A) a bs : reads r a bs → of_reader r bs = Ok a.
Proof.
  intros Hr. unfold of_reader. rewrite reads_at in Hr. specialize (Hr [] []). rewrite app_nil_r in Hr.
  change (rb_from bs) with (rb_at [] bs). by rewrite Hr.
Qed.
(** A reader that ends with [expect_end], on exactly its bytes. *)
Lemma of_reader_end {A} (r : Reader A) a bs : reads r a bs → of_reader (to_end r) bs = Ok a.
Proof.
  intros Hr. unfold of_reader, to_end. rewrite reads_at in Hr. specialize (Hr [] []).
  rewrite app_nil_r in Hr. change (rb_from bs) with (rb_at [] bs). rewrite reader_bind_eq, Hr.
  cbn [mbind outcome_bind]. rewrite reader_bind_eq. unfold expect_end. by rewrite rb_at_left.
Qed.
(** The same with the end inside the sequence of reads. *)
Lemma to_end_bind {A B} (r : Reader A) (k : A → Reader B) bs :
  of_reader (a ← r; to_end (k a)) bs = of_reader (to_end (r ≫= k)) bs.
Proof.
  unfold of_reader, to_end. rewrite !reader_bind_eq.
  by destruct (r (rb_from bs)) as [[a b]|e|].
Qed.

Lemma tax_reads t :
  tax_ok t → ratio_le_one (ratio t) → reads tax_read_frombuf t (tax_to_payload t).
Proof.
  intros (Hf & (Hn & Hd & Hpos) & Hm) Hle. unfold tax_to_payload, bb_finalize_as_vec.
  rewrite tax_serialize_bytes. cbn [bb_buffer bb_bytes bb_new app].
  assert (u64_ok (default 0 (max_limit t))) as Hl.
  { destruct (max_limit t); cbn in Hm |- *; unfold in_u; lia. }
  eapply reads_bind; [by apply reads_u64|]. eapply reads_bind; [by apply reads_u64|].
  eapply reads_bind; [by apply reads_u64|]. rewrite <-(app_nil_r (be_bytes 8 (default _ _))).
  eapply reads_bind; [by apply reads_u64|]. unfold nonzero at 1.
  rewrite (proj2 (Z.eqb_neq _ 0)) by lia. unfold ratio_le_one in Hle.
  rewrite (proj2 (Z.ltb_ge _ _)) by lia. rewrite nonzero_default by done.
  destruct t as [? [] ?]. apply reads_ret.
Qed.

Lemma ratio_roundtrip r : ratio_ok r → ratio_from_payload (ratio_to_payload r) = Ok r.
Proof.
  intros (Hn & Hd & Hpos). unfold ratio_from_payload.
  transitivity (of_reader (to_end (num ← get_u64; denom ← get_nz_u64; mret (mkRatio num denom)))
    (ratio_to_payload r)).
  { unfold of_reader, to_end. rewrite !reader_bind_eq.
    destruct (get_u64 _) as [[n b]|e|]; cbn [mbind outcome_bind]; [|done..]. rewrite !reader_bind_eq.
    by destruct (get_nz_u64 b) as [[d b']|e|]. }
  apply of_reader_end. unfold ratio_to_payload. cbn [bb_finalize_as_vec bb_u64 bb_bytes bb_buffer bb_new app].
  eapply reads_bind; [by apply reads_u64|]. rewrite <-(app_nil_r (be_bytes _ _)).
  eapply reads_bind; [apply reads_nz_u64; [done|lia]|]. destruct r. apply reads_ret.
Qed.

Lemma reward_fields_roundtrip (mk : Z → Ratio → Z → Z → RewardParams) tag c r es er :
  u64_ok c → ratio_ok r → u32_ok es → nz_u32_ok er →
  fst <$> read_reward_fields mk (rb_at [tag] (be_bytes 8 c ++ be_bytes 8 (numerator r) ++
    be_bytes 8 (denominator r) ++ be_bytes 4 es ++ be_bytes 4 er)) = Ok (mk c r es er).
Proof.
  intros Hc (Hn & Hd & Hpos) Hes Her. unfold read_reward_fields.
  assert (reads (start ← get_u64; num ← get_u64; denom ← get_nz_u64; estart ← get_u32; erate ← get_nz_u32;
      mret (start, num, denom, estart, erate)) (c, numerator r, denominator r, es, er)
    (be_bytes 8 c ++ be_bytes 8 (numerator r) ++ be_bytes 8 (denominator r) ++ be_bytes 4 es ++ be_bytes 4 er)) as Hr.
  { eapply reads_bind; [by apply reads_u64|]. eapply reads_bind; [by apply reads_u64|].
    eapply reads_bind; [apply reads_nz_u64; [done|lia]|]. eapply reads_bind; [by apply reads_u32|].
    apply reads_bind_ret. apply reads_nz_u32; unfold nz_u32_ok in Her; [unfold in_u; lia|lia]. }
  rewrite reads_at in Hr. specialize (Hr [tag] []). rewrite app_nil_r in Hr. revert Hr.
  rewrite !reader_bind_eq. destruct (get_u64 _) as [[x1 b1]|e|]; cbn [mbind outcome_bind]; [|done..].
  rewrite !reader_bind_eq. destruct (get_u64 b1) as [[x2 b2]|e|]; cbn [mbind outcome_bind]; [|done..].
  rewrite !reader_bind_eq. destruct (get_nz_u64 b2) as [[x3 b3]|e|]; cbn [mbind outcome_bind]; [|done..].
  rewrite !reader_bind_eq. destruct (get_u32 b3) as [[x4 b4]|e|]; cbn [mbind outcome_bind]; [|done..].
  rewrite !reader_bind_eq. destruct (get_nz_u32 b4) as [[x5 b5]|e|]; cbn [mbind outcome_bind]; [|done..].
  intros [= -> -> -> -> -> ->]. rewrite reader_bind_eq. unfold expect_end. rewrite rb_at_left. cbn. by destruct r.
Qed.

Lemma reward_params_roundtrip r :
  reward_params_ok r → reward_params_from_payload (reward_params_to_payload r) = Ok r.
Proof.
  assert (∀ tag c ra es er,
    bb_finalize_as_vec (bb_u32 (bb_u32 (bb_u64 (bb_u64 (bb_u64 (bb_u8 bb_new tag) c) (numerator ra))
      (denominator ra)) es) er) = [tag] ++ be_bytes 8 c ++ be_bytes 8 (numerator ra) ++
      be_bytes 8 (denominator ra) ++ be_bytes 4 es ++ be_bytes 4 er) as Hb.
  { intros. cbn [bb_finalize_as_vec bb_u64 bb_u32 bb_u8 bb_bytes bb_buffer bb_new]. by rewrite <-!app_assoc. }
  unfold reward_params_from_payload, reward_params_to_payload.
  pose proof reads_u8 as Hu.
  destruct r as [c ra es er|c ra es er]; intros (Hc & Hr & Hes & Her); rewrite Hb;
    change (rb_from ?x) with (rb_at [] x).
  - specialize (Hu 1). rewrite reads_at in Hu. rewrite Hu. cbn [map_err mbind outcome_bind app].
    change (1 =? 1) with true. cbn iota. by rewrite reward_fields_roundtrip.
  - specialize (Hu 2). rewrite reads_at in Hu. rewrite Hu. cbn [map_err mbind outcome_bind app].
    change (2 =? 1) with false. change (2 =? 2) with true. cbn iota. by rewrite reward_fields_roundtrip.
Qed.

(** Three and two [u64] fields cut out of a slice. *)
Lemma slice3 {E} (a b c : list Z) :
  length a = 8%nat → length b = 8%nat → length c = 8%nat →
  slice_range (E := E) ((a ++ b) ++ c) 0 8 = Ok a ∧ slice_range (E := E) ((a ++ b) ++ c) 8 16 = Ok b ∧
  slice_range (E := E) ((a ++ b) ++ c) 16 24 = Ok c.
Proof.
  intros Ha Hb Hc. unfold slice_range. rewrite !length_app, Ha, Hb, Hc. rewrite !decide_True by lia.
  rewrite <-app_assoc. split_and!; f_equal; cbn [Nat.sub].
  - rewrite drop_0. by apply take_app_length'.
  - rewrite drop_app_length' by done. by apply take_app_length'.
  - rewrite app_assoc, drop_app_length' by (rewrite length_app; lia). apply take_ge. lia.
Qed.
Lemma slice2 {E} (a b : list Z) :
  length a = 8%nat → length b = 8%nat →
  slice_range (E := E) (a ++ b) 0 8 = Ok a ∧ slice_range (E := E) (a ++ b) 8 16 = Ok b.
Proof.
  intros Ha Hb. unfold slice_range. rewrite !length_app, Ha, Hb. rewrite !decide_True by lia.
  split; f_equal; cbn [Nat.sub].
  - rewrite drop_0. by apply take_app_length'.
  - rewrite drop_app_length' by done. apply take_ge. lia.
Qed.

Lemma opt_fee_payload o :
  opt_fee_ok o → u64_from_payload (opt_to_payload o) = Ok (default 0 o) ∧ nonzero (default 0 o) = o.
Proof.
  intros Ho. split.
  - apply u64_roundtrip. destruct o; cbn in *; unfold in_u; lia.
  - apply nonzero_default. by destruct o.
Qed.
Lemma length_u64_payload v : length (u64_to_payload v) = 8%nat.
Proof. apply length_be_bytes. Qed.

(** ** Variants *)
Lemma config_variant_roundtrip p : config_ok p → config_variant (tag_of p) (config_payload p) = Ok p.
Proof.
  destruct p; cbn [config_ok tag_of config_payload config_variant]; intros Hp;
    rewrite ?u64_roundtrip, ?u32_roundtrip by done; try done.
  - by destruct d.
  - unfold consensus_from_payload, consensus_to_payload. rewrite uint_roundtrip by (destruct c; done).
    by destruct c.
  - unfold bft_leader_from_payload, bft_leader_to_payload. by rewrite public_from_binary_ok.
  - unfold bft_leader_from_payload, bft_leader_to_payload. by rewrite public_from_binary_ok.
  - destruct Hp as (H1 & H2 & H3 & Hf). unfold linear_fee_from_payload, linear_fee_to_payload.
    rewrite !length_app, !length_u64_payload. cbn [negb Nat.eqb Nat.add Nat.mul].
    destruct (slice3 (E := ConfigError) (u64_to_payload (constant f)) (u64_to_payload (coefficient f))
      (u64_to_payload (certificate f))) as (-> & -> & ->); [apply length_u64_payload..|].
    cbn [mbind outcome_bind]. rewrite !u64_roundtrip by done. cbn. by rewrite <-Hf.
  - destruct Hp as [Ht Hr]. unfold tax_from_payload. by rewrite (of_reader_end _ t) by (by apply tax_reads).
  - by rewrite reward_params_roundtrip.
  - destruct Hp as (H1 & H2 & H3). destruct f as [f1 f2 f3].
    unfold per_cert_from_payload, per_cert_to_payload, opt_to_payload. cbn in H1, H2, H3.
    cbn [certificate_pool_registration certificate_stake_delegation certificate_owner_stake_delegation].
    rewrite !length_app, !length_u64_payload. cbn [negb Nat.eqb Nat.add Nat.mul].
    destruct (slice3 (E := ConfigError) (u64_to_payload (default 0 f1)) (u64_to_payload (default 0 f2))
      (u64_to_payload (default 0 f3))) as (-> & -> & ->); [apply length_u64_payload..|].
    cbn [mbind outcome_bind].
    destruct (opt_fee_payload f1 H1) as [E1 N1], (opt_fee_payload f2 H2) as [E2 N2],
      (opt_fee_payload f3 H3) as [E3 N3]. unfold opt_to_payload in *. rewrite E1, E2, E3.
    cbn. by rewrite N1, N2, N3.
  - by destruct b.
  - by rewrite ratio_roundtrip.
  - destruct xy as [x y]. destruct Hp as [Hx Hy]. cbn [fst snd] in *. unfold capping_from_payload.
    rewrite (of_reader_reads _ (x, y)); [done|]. unfold capping_to_payload.
    cbn [bb_finalize_as_vec bb_u32 bb_bytes bb_buffer bb_new fst snd app].
    eapply reads_bind; [apply reads_nz_u32; unfold nz_u32_ok, in_u in *; lia|].
    apply reads_bind_ret, reads_nz_u32; unfold nz_u32_ok, in_u in *; lia.
  - unfold committee_from_payload, committee_try_from, committee_to_payload. by rewrite Hp.
  - unfold committee_from_payload, committee_try_from, committee_to_payload. by rewrite Hp.
  - destruct Hp as (H1 & H2). destruct f as [f1 f2].
    unfold per_vote_from_payload, per_vote_to_payload, opt_to_payload. cbn in H1, H2.
    cbn [certificate_vote_plan certificate_vote_cast].
    rewrite !length_app, !length_u64_payload. cbn [negb Nat.eqb Nat.add Nat.mul].
    destruct (slice2 (E := ConfigError) (u64_to_payload (default 0 f1)) (u64_to_payload (default 0 f2)))
      as (-> & ->); [apply length_u64_payload..|].
    cbn [mbind outcome_bind].
    destruct (opt_fee_payload f1 H1) as [E1 N1], (opt_fee_payload f2 H2) as [E2 N2].
    unfold opt_to_payload in *. rewrite E1, E2. cbn. by rewrite N1, N2.
Qed.

(** ** Tag and length *)
Lemma lor_shift_add a b n : 0 ≤ n → 0 ≤ b < 2 ^ n → Z.lor (Z.shiftl a n) b = a * 2 ^ n + b.
Proof.
  intros Hn Hb. rewrite <-Z.shiftl_mul_pow2 by done.
  assert (Z.land (Z.shiftl a n) b = 0) as Hl.
  { apply Z.bits_inj'. intros k Hk. rewrite Z.land_spec, Z.bits_0.
    destruct (Z.lt_ge_cases k n) as [Hkn|Hkn].
    - by rewrite Z.shiftl_spec_low.
    - rewrite (Z.testbit_eqb b) by done. rewrite Z.div_small; [by rewrite andb_false_r|].
      split; [lia|]. pose proof (Z.pow_le_mono_r 2 n k). lia. }
  rewrite <-Z.lxor_lor by done. symmetry. by apply Z.add_nocarry_lxor.
Qed.

Lemma taglen_spec tag len t :
  tag_from_u16 tag = Some tag → (len < 512)%nat → taglen_new tag len = Some t →
  u16_ok t ∧ taglen_get_len t = len ∧ taglen_get_tag t = Ok tag.
Proof.
  intros Htag Hlen. unfold taglen_new, MAXIMUM_LEN. rewrite (proj2 (Nat.ltb_lt _ _)) by done.
  assert (0 ≤ tag < 32) as Hr.
  { unfold tag_from_u16 in Htag. destruct (existsb _ _) eqn:He; [|done]. clear Htag.
    apply existsb_exists in He as (x & Hx & Heq%Z.eqb_eq). subst x.
    revert Hx. cbn [In]. lia. }
  intros [= <-]. assert (wrap 16 (Z.shiftl tag 9) = Z.shiftl tag 9) as ->.
  { apply wrap_small. rewrite Z.shiftl_mul_pow2 by lia. unfold in_u. change (2 ^ 16) with 65536.
    change (2 ^ 9) with 512. lia. }
  rewrite lor_shift_add by (change (2 ^ 9) with 512; lia). change (2 ^ 9) with 512.
  split; [unfold in_u; change (2 ^ 16) with 65536; lia|]. unfold taglen_get_len, taglen_get_tag. split.
  - change 511 with (Z.ones 9). rewrite Z.land_ones by lia. change (2 ^ 9) with 512. dlia.
  - rewrite Z.shiftr_div_pow2 by lia. change (2 ^ 9) with 512.
    replace ((tag * 512 + Z.of_nat len) `div` 512) with tag by dlia. by rewrite Htag.
Qed.

Lemma tag_of_ok p : tag_from_u16 (tag_of p) = Some (tag_of p).
Proof. by destruct p. Qed.

Lemma config_payload_short p : config_ok p → (length (config_payload p) < 512)%nat.
Proof.
  destruct p; cbn [config_ok config_payload]; intros Hp; try (cbn; lia);
    try (unfold bft_leader_to_payload, committee_to_payload, PUBLIC_KEY_SIZE, COMMITTEE_ID_SIZE in *; lia).
  all: try (destruct d; cbn; lia); try (destruct r; cbn; lia).
  all: try (destruct f; cbn; lia).
Qed.

Definition config_bytes (p : ConfigParam) : list Z :=
  match config_serialize p with Ok b => b | _ => [] end.

Lemma config_serialize_ok p :
  config_ok p → config_serialize p = Ok (config_bytes p) ∧ reads config_read p (config_bytes p) ∧
    ∃ t, config_bytes p = be_bytes 2 t ++ config_payload p ∧ u16_ok t ∧
         taglen_get_len t = length (config_payload p).
Proof.
  intros Hp. pose proof (config_payload_short p Hp) as Hs. unfold config_bytes, config_serialize.
  destruct (taglen_new (tag_of p) (length (config_payload p))) as [t|] eqn:Ht.
  2:{ unfold taglen_new, MAXIMUM_LEN in Ht. by rewrite (proj2 (Nat.ltb_lt _ _)) in Ht. }
  destruct (taglen_spec _ _ _ (tag_of_ok p) Hs Ht) as (Hu & Hlen & Htag).
  cbn [ok_or mbind outcome_bind]. split; [done|]. unfold codec_put_bytes, codec_put_be. cbn [app].
  split; [|by exists t]. eapply reads_bind; [by apply reads_u16|]. rewrite Hlen.
  rewrite <-(app_nil_r (config_payload p)) at 2. eapply reads_bind; [by apply reads_slice_len|].
  rewrite Htag, config_variant_roundtrip by done. apply reads_ret.
Qed.

Lemma config_serialize_all ps w :
  Forall config_ok ps →
  foldM (λ w p, bytes ← config_serialize p; Ok (w ++ bytes)) w ps = Ok (w ++ concat (config_bytes <$> ps)).
Proof.
  intros Hps. revert w. induction Hps as [|p ps Hp Hps IH]; intros w; cbn [foldM].
  { cbn. by rewrite app_nil_r. }
  destruct (config_serialize_ok p Hp) as [-> _]. cbn [mbind outcome_bind]. rewrite IH.
  cbn [fmap list_fmap concat]. by rewrite <-app_assoc.
Qed.

(** A list of configuration parameters is read back from its serialization by
    both decoders, every parameter within the widths of its types; the other
    way round the wire form is not canonical, as the capping parameter accepts
    trailing bytes, and two of the four EVM configurations cannot be read back
    at all. *)
Theorem config_params_roundtrip ps p rest :
  Forall config_ok (p :: ps) → Z.of_nat (length ps) < 2 ^ 16 →
  (∃ bytes, config_params_serialize ps = Ok bytes ∧ read_from_raw config_params_read bytes = Ok ps) ∧
  (∃ bytes, config_serialize p = Ok bytes ∧ config_deserialize (bytes ++ rest) = Ok (p, rest)) ∧
  (∃ x, capping_from_payload (capping_to_payload (1, 2)) = Ok x ∧
        capping_from_payload (capping_to_payload (1, 2) ++ [7]) = Ok x) ∧
  (∀ c, evm_config_from_payload (evm_config_to_payload c) =
    match c with Istanbul | Berlin => Ok c | Frontier | London => Err CInvalidTag end).
Proof.
  intros [Hp Hps]%Forall_cons Hlen. split; [|split; [|split]].
  - unfold config_params_serialize. rewrite config_serialize_all by done. eexists. split; [done|].
    apply reads_from_raw. unfold codec_put_be. cbn [app].
    rewrite wrap_small by (unfold in_u; change (2 ^ 16) with 65536; lia).
    eapply reads_bind; [apply reads_u16; unfold in_u; change (2 ^ 16) with 65536; lia|].
    rewrite Nat2Z.id. apply reads_vec. intros q Hq. rewrite Forall_forall in Hps.
    by apply config_serialize_ok, Hps.
  - destruct (config_serialize_ok p Hp) as (Hser & Hr & t & Hb & Hu & Hl). eexists. split; [done|].
    unfold config_deserialize, codec_get_be, codec_get. rewrite Hb, <-app_assoc.
    rewrite decide_True by (rewrite !length_app, length_be_bytes; lia). cbn [map_err mbind outcome_bind].
    rewrite take_app_length', drop_app_length' by (by rewrite length_be_bytes).
    rewrite (from_be_bytes 2) by done. rewrite Hl, decide_True by (rewrite length_app; lia).
    cbn [map_err mbind outcome_bind]. rewrite take_app_length, drop_app_length.
    unfold codec_put_bytes, codec_put_be. cbn [app]. rewrite Hb in Hr.
    rewrite reads_at in Hr. specialize (Hr [] []). rewrite app_nil_r in Hr.
    change (rb_from ?x) with (rb_at [] x). rewrite Hr. done.
  - eexists. split; vm_compute; reflexivity.
  - by intros [].
Qed.

Lemma config_params_roundtrip_witness :
  ∃ bytes, config_params_serialize [PSlotDuration 20; PLinearFee (linear_fee_new 2 1 4);
      PTreasuryParams (mkTax 1 (mkRatio 1 10) None)] = Ok bytes ∧
    read_from_raw config_params_read bytes = Ok [PSlotDuration 20; PLinearFee (linear_fee_new 2 1 4);
      PTreasuryParams (mkTax 1 (mkRatio 1 10) None)].
Proof.
  apply (config_params_roundtrip [PSlotDuration 20; PLinearFee (linear_fee_new 2 1 4);
      PTreasuryParams (mkTax 1 (mkRatio 1 10) None)] PRewardLimitNone []); [|cbn; lia].
  repeat (apply Forall_cons_2 || apply Forall_nil_2); cbn; repeat split; unfold ratio_le_one; cbn; lia.
Defined.
