(* ===== verification/Settings.v ===== *)
(** * Settings and their updates ([setting.rs], [update.rs], [chaineval.rs])

    The settings are changed by lists of configuration parameters; an update
    proposal carries such a list, is voted on by the BFT leaders and applied at
    an epoch boundary. *)
From stdpp Require Import sorting.
From S2P Require Import Prelude Codec Value Rewards Time Hamt HamtSpec Addr Key Config.
Local Open Scope Z_scope.

(** ** [chaineval.rs] *)
Abbreviation PraosNonce := (list Z).
Definition nonce_zero : PraosNonce := replicate 32 0.
Definition hash_with (hash_bytes : list Z → list Z) (n other : PraosNonce) : PraosNonce :=
  hash_bytes (n ++ other).

(** ** [setting.rs] *)
Inductive ActiveSlotsCoeffError := InvalidValue (m : Milli).
Definition active_slots_coeff_try_from (value : Milli) : outcome ActiveSlotsCoeffError Milli :=
  if (milli_zero <? value) && (value <=? milli_one) then Ok value else Err (InvalidValue value).
Inductive FeesGoesTo := ToRewards | ToTreasury.

Record Settings := mkSettings {
  consensus_version : ConsensusType;
  consensus_nonce : PraosNonce;
  s_slots_per_epoch : Z;
  s_slot_duration : Z;
  epoch_stability_depth : Z;
  active_slots_coeff : Milli;
  block_content_max_size : Z;
  bft_leaders : list BftLeaderId;
  linear_fees : LinearFee;
  proposal_expiration : Z;
  reward_params : option RewardParams;
  treasury_params : option TaxType;
  fees_goes_to : FeesGoesTo;
  rewards_limit : Limit;
  s_pool_participation_capping : option (Z * Z);
  committees : list CommitteeId;
  transaction_max_expiry_epochs : Z }.

Definition settings_new : Settings :=
  mkSettings Bft nonce_zero 1 10 10 milli_half 102400 [] (linear_fee_new 0 0 0) 100 None None ToRewards
    LimitNone None [] 1.

(** ** Errors of [update.rs] *)
Abbreviation UpdateProposalId := (list Z).
Abbreviation UpdateVoterId := BftLeaderId.
Inductive UpdateStateError :=
| BadProposalSignature (p : UpdateProposalId) (v : UpdateVoterId)
| BadProposer (p : UpdateProposalId) (v : UpdateVoterId)
| DuplicateProposal (p : UpdateProposalId)
| VoteForMissingProposal (p : UpdateProposalId)
| BadVoteSignature (p : UpdateProposalId) (v : UpdateVoterId)
| BadVoter (p : UpdateProposalId) (v : UpdateVoterId)
| DuplicateVote (p : UpdateProposalId) (v : UpdateVoterId)
| ReadOnlySetting
| BadBftSlotsRatio (m : Milli)
| BadConsensusGenesisPraosActiveSlotsCoeff (e : ActiveSlotsCoeffError).

(** One turn of the loop of [try_apply], on the settings and the two overrides
    set aside. *)
Abbreviation Overrides := (option PerCertificateFee * option PerVoteCertificateFee)%type.
Definition apply_param (st : Settings * Overrides) (p : ConfigParam) :
    outcome UpdateStateError (Settings * Overrides) :=
  let '(mkSettings cv cn spe sd esd asc bms bl lf pe rp tp fg rl cap com tme, (pcf, pvf)) := st in
  let keep s := Ok (s, (pcf, pvf)) in
  match p with
  | PBlock0Date _ | PDiscrimination _ | PTreasuryAdd _ | PRewardPot _ | PKesUpdateSpeed _ =>
      Err ReadOnlySetting
  | PConsensusVersion d => keep (mkSettings d cn spe sd esd asc bms bl lf pe rp tp fg rl cap com tme)
  | PSlotsPerEpoch d => keep (mkSettings cv cn d sd esd asc bms bl lf pe rp tp fg rl cap com tme)
  | PSlotDuration d => keep (mkSettings cv cn spe d esd asc bms bl lf pe rp tp fg rl cap com tme)
  | PEpochStabilityDepth d => keep (mkSettings cv cn spe sd d asc bms bl lf pe rp tp fg rl cap com tme)
  | PConsensusGenesisPraosActiveSlotsCoeff d =>
      c ← map_err BadConsensusGenesisPraosActiveSlotsCoeff (active_slots_coeff_try_from d);
      keep (mkSettings cv cn spe sd esd c bms bl lf pe rp tp fg rl cap com tme)
  | PBlockContentMaxSize d => keep (mkSettings cv cn spe sd esd asc d bl lf pe rp tp fg rl cap com tme)
  | PAddBftLeader d =>
      keep (mkSettings cv cn spe sd esd asc bms (bl ++ [d]) lf pe rp tp fg rl cap (com ++ [d]) tme)
  | PRemoveBftLeader d =>
      keep (mkSettings cv cn spe sd esd asc bms (filter (λ l, l ≠ d) bl) lf pe rp tp fg rl cap com tme)
  | PLinearFee d => keep (mkSettings cv cn spe sd esd asc bms bl d pe rp tp fg rl cap com tme)
  | PProposalExpiration d => keep (mkSettings cv cn spe sd esd asc bms bl lf d rp tp fg rl cap com tme)
  | PRewardParams r => keep (mkSettings cv cn spe sd esd asc bms bl lf pe (Some r) tp fg rl cap com tme)
  | PTreasuryParams t => keep (mkSettings cv cn spe sd esd asc bms bl lf pe rp (Some t) fg rl cap com tme)
  | PPerCertificateFees f => Ok (st.1, (Some f, pvf))
  | PPerVoteCertificateFees f => Ok (st.1, (pcf, Some f))
  | PFeesInTreasury b =>
      keep (mkSettings cv cn spe sd esd asc bms bl lf pe rp tp (if b then ToTreasury else ToRewards)
              rl cap com tme)
  | PRewardLimitNone => keep (mkSettings cv cn spe sd esd asc bms bl lf pe rp tp fg LimitNone cap com tme)
  | PRewardLimitByAbsoluteStake r =>
      keep (mkSettings cv cn spe sd esd asc bms bl lf pe rp tp fg (ByStakeAbsolute r) cap com tme)
  | PPoolRewardParticipationCapping r =>
      keep (mkSettings cv cn spe sd esd asc bms bl lf pe rp tp fg rl (Some r) com tme)
  | PAddCommitteeId c => keep (mkSettings cv cn spe sd esd asc bms bl lf pe rp tp fg rl cap (com ++ [c]) tme)
  | PRemoveCommitteeId c =>
      keep (mkSettings cv cn spe sd esd asc bms bl lf pe rp tp fg rl cap (filter (λ l, l ≠ c) com) tme)
  | PTransactionMaxExpiryEpochs n => keep (mkSettings cv cn spe sd esd asc bms bl lf pe rp tp fg rl cap com n)
  end.
Definition set_linear_fees (s : Settings) (f : LinearFee) : Settings :=
  let '(mkSettings cv cn spe sd esd asc bms bl _ pe rp tp fg rl cap com tme) := s in
  mkSettings cv cn spe sd esd asc bms bl f pe rp tp fg rl cap com tme.
Definition apply_overrides (s : Settings) (o : Overrides) : Settings :=
  let s := match o.1 with
           | Some pcf => set_linear_fees s (per_certificate_fees (linear_fees s) pcf) | None => s end in
  match o.2 with
  | Some pvf => set_linear_fees s (per_vote_certificate_fees (linear_fees s) pvf) | None => s end.
Definition try_apply (s : Settings) (changes : ConfigParams) : outcome UpdateStateError Settings :=
  '(s, o) ← foldM apply_param (s, (None, None)) changes;
  Ok (apply_overrides s o).

Definition to_config_params (s : Settings) : ConfigParams :=
  [PConsensusVersion (consensus_version s); PSlotsPerEpoch (s_slots_per_epoch s);
   PSlotDuration (s_slot_duration s); PEpochStabilityDepth (epoch_stability_depth s);
   PConsensusGenesisPraosActiveSlotsCoeff (active_slots_coeff s);
   PBlockContentMaxSize (block_content_max_size s)] ++
  (PAddBftLeader <$> bft_leaders s) ++
  [PLinearFee (linear_fees s); PProposalExpiration (proposal_expiration s);
   PTransactionMaxExpiryEpochs (transaction_max_expiry_epochs s)] ++
  match reward_params s with Some p => [PRewardParams p] | None => [] end ++
  match treasury_params s with Some p => [PTreasuryParams p] | None => [] end.
(** What its [debug_assert_eq!] demands, in builds that have debug assertions. *)
Definition to_config_params_assertion (s : Settings) : Prop :=
  try_apply settings_new (to_config_params s) = Ok s.

Definition to_reward_params (s : Settings) : Parameters :=
  let limit := rewards_limit s in
  let capping := s_pool_participation_capping s in
  match reward_params s with
  | None => parameters_zero
  | Some (RPHalving constant ratio epoch_start epoch_rate) =>
      mkParameters constant ratio Halvening epoch_rate epoch_start limit capping
  | Some (RPLinear constant ratio epoch_start epoch_rate) =>
      mkParameters constant ratio Linear epoch_rate epoch_start limit capping
  end.

(** ** [update.rs] *)
Record UpdateProposal := mkProposal { changes : ConfigParams; proposer_id : UpdateVoterId }.
Record UpdateVote := mkUpdateVote { uv_proposal_id : UpdateProposalId; voter_id : UpdateVoterId }.
Record UpdateProposalState := mkProposalState {
  proposal : UpdateProposal; proposal_date : BlockDate; votes : gmap UpdateVoterId unit }.
Abbreviation UpdateState := (gmap UpdateProposalId UpdateProposalState).
Definition update_new : UpdateState := ∅.

Definition apply_proposal (u : UpdateState) (proposal_id : UpdateProposalId) (p : UpdateProposal)
    (settings : Settings) (cur_date : BlockDate) : outcome UpdateStateError UpdateState :=
  _ ← try_apply settings (changes p);
  if negb (bool_decide (proposer_id p ∈ bft_leaders settings))
  then Err (BadProposer proposal_id (proposer_id p))
  else map_err (λ _, DuplicateProposal proposal_id)
         (hm_insert u proposal_id (mkProposalState p cur_date ∅)).
Definition update_apply_vote (u : UpdateState) (vote : UpdateVote) (settings : Settings) :
    outcome UpdateStateError UpdateState :=
  if negb (bool_decide (voter_id vote ∈ bft_leaders settings))
  then Err (BadVoter (uv_proposal_id vote) (voter_id vote))
  else map_err (λ e, match e with
                     | UpdateKeyNotFound => VoteForMissingProposal (uv_proposal_id vote)
                     | ValueCallbackError _ => DuplicateVote (uv_proposal_id vote) (voter_id vote)
                     end)
         (hm_update u (uv_proposal_id vote) (λ p,
            v ← hm_insert (votes p) (voter_id vote) ();
            Ok (Some (mkProposalState (proposal p) (proposal_date p) v)))).

(** The order of [sort_by]: by date, then by identifier; identifiers compare
    as byte arrays. *)
Fixpoint bytes_compare (a b : list Z) : comparison :=
  match a, b with
  | [], [] => Eq | [], _ => Lt | _, [] => Gt
  | x :: a, y :: b => match x ?= y with Eq => bytes_compare a b | c => c end
  end.
Definition date_compare (a b : BlockDate) : comparison :=
  match date_epoch a ?= date_epoch b with Eq => date_slot_id a ?= date_slot_id b | c => c end.
Definition proposal_before (a b : UpdateProposalId * UpdateProposalState) : Prop :=
  match date_compare (proposal_date a.2) (proposal_date b.2) with
  | Eq => bytes_compare a.1 b.1 ≠ Gt
  | c => c ≠ Gt
  end.
#[export] Instance proposal_before_dec a b : Decision (proposal_before a b).
Proof. unfold proposal_before. destruct (date_compare _ _); apply _. Defined.

(** The loop over the sorted proposals: the settings and the expired ids. *)
Definition proposal_step (new_date : BlockDate) (st : Settings * list UpdateProposalId)
    (ip : UpdateProposalId * UpdateProposalState) :
    outcome infallible (Settings * list UpdateProposalId) :=
  let '(settings, expired_ids) := st in
  if (length (bft_leaders settings) / 2 <? size (votes ip.2))%nat then
    settings ← unwrap (try_apply settings (changes (proposal ip.2)));
    Ok (settings, expired_ids ++ [ip.1])
  else if wrap 32 (date_epoch (proposal_date ip.2) + proposal_expiration settings) <? date_epoch new_date
  then Ok (settings, expired_ids ++ [ip.1])
  else Ok (settings, expired_ids).
Definition process_proposals (u : UpdateState) (settings : Settings) (prev_date new_date : BlockDate) :
    outcome infallible (UpdateState * Settings) :=
  assert_that (date_lt prev_date new_date) ;;
  let proposals := merge_sort proposal_before (map_to_list u) in
  if date_epoch prev_date <? date_epoch new_date then
    '(settings, expired_ids) ← foldM (proposal_step new_date) (settings, []) proposals;
    u ← foldM (λ u i, unwrap (hm_remove u i)) u expired_ids;
    Ok (u, settings)
  else Ok (u, settings).
