(* ===== verification/UpdateSpec.v ===== *)
(** * Updates of the settings *)
From stdpp Require Import sorting.
From S2P Require Import Prelude Codec Value Rewards Time Hamt HamtSpec Addr Key Config Settings.
Local Open Scope Z_scope.

(** ** Which changes apply *)
Definition param_valid (p : ConfigParam) : bool :=
  match p with
  | PBlock0Date _ | PDiscrimination _ | PTreasuryAdd _ | PRewardPot _ | PKesUpdateSpeed _ => false
  | PConsensusGenesisPraosActiveSlotsCoeff m => (milli_zero <? m) && (m <=? milli_one)
  | _ => true
  end.

Lemma apply_param_valid st p :
  if param_valid p then is_Some (match apply_param st p with Ok x => Some x | _ => None end)
  else ∃ e, apply_param st p = Err e.
Proof.
  destruct st as [[] []]. destruct p; cbn; try done; try (by eexists).
  unfold active_slots_coeff_try_from. destruct (_ && _); cbn; [done|by eexists].
Qed.

(** Whether a list of changes applies does not depend on the settings. *)
Lemma try_apply_valid s cs :
  if forallb param_valid cs then ∃ s', try_apply s cs = Ok s' else ∃ e, try_apply s cs = Err e.
Proof.
  unfold try_apply. generalize ((None, None) : Overrides). revert s.
  induction cs as [|p cs IH]; intros s o; cbn [foldM forallb]; [by eexists|].
  pose proof (apply_param_valid (s, o) p) as Hp. destruct (param_valid p); cbn [andb].
  - destruct (apply_param (s, o) p) as [[s1 o1]|e|]; [|by destruct Hp..]. cbn [mbind outcome_bind]. apply IH.
  - destruct Hp as [e ->]. cbn. by eexists.
Qed.

(** What the settings keep through their list of parameters. *)
Definition settings_kept (s : Settings) : Settings :=
  mkSettings (consensus_version s) nonce_zero (s_slots_per_epoch s) (s_slot_duration s)
    (epoch_stability_depth s) (active_slots_coeff s) (block_content_max_size s) (bft_leaders s)
    (linear_fees s) (proposal_expiration s) (reward_params s) (treasury_params s) ToRewards LimitNone
    None (bft_leaders s) (transaction_max_expiry_epochs s).

Lemma apply_bft_leaders ls cv cn spe sd esd asc bms bl lf pe rp tp fg rl cap com tme o :
  foldM apply_param (mkSettings cv cn spe sd esd asc bms bl lf pe rp tp fg rl cap com tme, o)
    (PAddBftLeader <$> ls) =
  Ok (mkSettings cv cn spe sd esd asc bms (bl ++ ls) lf pe rp tp fg rl cap (com ++ ls) tme, o).
Proof.
  revert bl com. destruct o as [o1 o2]. induction ls as [|l ls IH]; intros bl com; cbn [fmap list_fmap foldM].
  - by rewrite !app_nil_r.
  - cbn [apply_param mbind outcome_bind]. rewrite IH. by rewrite <-!app_assoc.
Qed.

(** The list of parameters the settings are saved as always applies to fresh
    settings and restores everything but five of them: where the fees go, the
    reward limit, the participation capping, the committee (which becomes the
    BFT leaders) and the consensus nonce are lost. *)
Theorem settings_config_params s :
  milli_zero < active_slots_coeff s ≤ milli_one →
  try_apply settings_new (to_config_params s) = Ok (settings_kept s) ∧
  (settings_kept s = s ↔
    fees_goes_to s = ToRewards ∧ rewards_limit s = LimitNone ∧ s_pool_participation_capping s = None ∧
    committees s = bft_leaders s ∧ consensus_nonce s = nonce_zero).
Proof.
  intros Hasc. split.
  - unfold try_apply, to_config_params, settings_new. rewrite foldM_app.
    cbn [foldM apply_param mbind outcome_bind].
    unfold active_slots_coeff_try_from. rewrite (proj2 (Z.ltb_lt _ _)), (proj2 (Z.leb_le _ _)) by lia.
    cbn [andb map_err mbind outcome_bind foldM apply_param]. rewrite foldM_app, apply_bft_leaders.
    cbn [mbind outcome_bind]. rewrite foldM_app. cbn [foldM apply_param mbind outcome_bind].
    rewrite foldM_app. destruct s as [cv cn spe sd esd asc bms bl lf pe rp tp fg rl cap com tme].
    cbn [consensus_version consensus_nonce s_slots_per_epoch s_slot_duration epoch_stability_depth
      active_slots_coeff block_content_max_size bft_leaders linear_fees proposal_expiration reward_params
      treasury_params fees_goes_to rewards_limit s_pool_participation_capping committees
      transaction_max_expiry_epochs].
    destruct rp, tp; reflexivity.
  - destruct s. unfold settings_kept. cbn. split.
    + by intros [= <- <- <- <- <-].
    + by intros (-> & -> & -> & -> & ->).
Qed.

(** ** The proposals *)
Definition proposals_valid (u : UpdateState) : Prop :=
  map_Forall (λ _ p, forallb param_valid (changes (proposal p)) = true) u.

Lemma proposal_step_ok nd s ids ip :
  forallb param_valid (changes (proposal ip.2)) = true →
  ∃ s' ids', proposal_step nd (s, ids) ip = Ok (s', ids') ∧ (ids' = ids ∨ ids' = ids ++ [ip.1]) ∧
    (s' = s ∨ (length (bft_leaders s) / 2 < size (votes ip.2))%nat ∧
              try_apply s (changes (proposal ip.2)) = Ok s' ∧ ids' = ids ++ [ip.1]).
Proof.
  intros Hv. unfold proposal_step. destruct (Nat.ltb_spec (length (bft_leaders s) / 2) (size (votes ip.2))).
  - pose proof (try_apply_valid s (changes (proposal ip.2))) as Ht. rewrite Hv in Ht.
    destruct Ht as [s' Ht]. rewrite Ht. eexists _, _. split; [done|]. split; [by right|]. right. done.
  - case_match; eexists _, _; (split; [done|]); split; auto.
Qed.

(** The loop visits the proposals and collects some of their ids, in order. *)
Lemma proposal_loop_ok nd l s ids :
  Forall (λ ip : UpdateProposalId * UpdateProposalState, forallb param_valid (changes (proposal ip.2)) = true) l →
  ∃ s' ids', foldM (proposal_step nd) (s, ids) l = Ok (s', ids ++ ids') ∧ ids' `sublist_of` l.*1 ∧
    (s' ≠ s → ∃ ip, ip ∈ l ∧ ip.1 ∈ ids' ∧ (1 ≤ size (votes ip.2))%nat).
Proof.
  intros Hl. revert s ids. induction Hl as [|ip l Hv Hl IH]; intros s ids; cbn [foldM].
  { exists s, []. rewrite app_nil_r. split_and!; [done..|]. done. }
  destruct (proposal_step_ok nd s ids ip Hv) as (s1 & ids1 & -> & Hids & Hs1). cbn [mbind outcome_bind].
  destruct (IH s1 ids1) as (s' & ids' & Hrun & Hsub & Hch). rewrite Hrun.
  destruct Hids as [->| ->].
  - exists s', ids'. split; [done|]. split; [cbn; by apply sublist_cons|]. intros Hne.
    destruct Hs1 as [->|(_ & _ & Hbad)].
    + destruct (Hch Hne) as (jp & Hin & Hin' & Hsz). exists jp. split; [by right|done].
    + exfalso. apply (f_equal length) in Hbad. rewrite length_app in Hbad. cbn in Hbad. lia.
  - exists s', (ip.1 :: ids'). rewrite <-app_assoc. split; [done|]. split; [cbn; by apply sublist_skip|].
    intros Hne. destruct Hs1 as [->|(Hmaj & _ & _)].
    + destruct (Hch Hne) as (jp & Hin & Hin' & Hsz). exists jp. split; [by right|]. split; [by right|done].
    + exists ip. split; [by left|]. split; [by left|lia].
Qed.

Lemma remove_ids_ok (ids : list UpdateProposalId) (u : UpdateState) :
  NoDup ids → (∀ i, i ∈ ids → is_Some (u !! i)) →
  ∃ u', foldM (λ u i, unwrap (F := infallible) (hm_remove u i)) u ids = Ok u' ∧
    (∀ i, u' !! i = if bool_decide (i ∈ ids) then None else u !! i).
Proof.
  intros Hnd. revert u. induction Hnd as [|i ids Hi Hnd IH]; intros u Hin; cbn [foldM].
  { exists u. split; [done|]. intros j. rewrite bool_decide_false; [done|]. apply not_elem_of_nil. }
  destruct (Hin i) as [x Hx]; [by left|]. assert (hm_remove u i = Ok (delete i u)) as -> by (unfold hm_remove; by rewrite Hx). cbn [unwrap mbind outcome_bind].
  destruct (IH (delete i u)) as (u' & Hrun & Hu').
  { intros j Hj. rewrite lookup_delete_ne; [apply Hin; by right|]. intros ->. done. }
  exists u'. split; [done|]. intros j. rewrite Hu'. destruct (decide (j = i)) as [->|Hne].
  - rewrite (bool_decide_false (i ∈ ids)) by done. rewrite lookup_delete_eq.
    rewrite bool_decide_true by left. done.
  - rewrite lookup_delete_ne by done. do 2 case_bool_decide; try done.
    + exfalso. by match goal with H : j ∉ i :: ids |- _ => apply H; right end.
    + match goal with H : j ∈ i :: ids |- _ => apply elem_of_cons in H as [?|?] end; done.
Qed.

(** C22. Processing the proposals at a new block never panics, although it unwraps
    the application of every accepted proposal: a proposal is stored only if
    its changes apply, and whether they apply does not depend on the settings,
    so earlier proposals cannot invalidate later ones.  Outside of an epoch
    boundary nothing changes; at one, the proposals left are those before minus
    some, and the settings change only through a proposal with a vote. *)
Theorem process_proposals_total u s prev_date new_date :
  proposals_valid u → date_lt prev_date new_date = true →
  ∃ u' s', process_proposals u s prev_date new_date = Ok (u', s') ∧ proposals_valid u' ∧ u' ⊆ u ∧
    (date_epoch prev_date = date_epoch new_date → u' = u ∧ s' = s) ∧
    (s' ≠ s → ∃ i p, u !! i = Some p ∧ u' !! i = None ∧ (1 ≤ size (votes p))%nat).
Proof.
  intros Hu Hlt. unfold process_proposals. rewrite Hlt. cbn [assert_that mbind outcome_bind].
  destruct (Z.ltb_spec (date_epoch prev_date) (date_epoch new_date)) as [He|He].
  2:{ exists u, s. split_and!; done. }
  set (l := merge_sort proposal_before (map_to_list u)).
  assert (l ≡ₚ map_to_list u) as Hperm by apply merge_sort_Permutation.
  assert (Forall (λ ip : UpdateProposalId * UpdateProposalState, forallb param_valid (changes (proposal ip.2)) = true) l)
    as Hl.
  { rewrite Hperm. apply Forall_forall. intros [i p] Hin%elem_of_map_to_list. by apply (Hu i p). }
  destruct (proposal_loop_ok new_date l s [] Hl) as (s' & ids & Hrun & Hsub & Hch). cbn [app] in Hrun.
  rewrite Hrun. cbn [mbind outcome_bind].
  assert (NoDup l.*1) as Hnd by (rewrite Hperm; apply NoDup_fst_map_to_list).
  destruct (remove_ids_ok ids u) as (u' & Hrem & Hu').
  { by eapply sublist_NoDup. }
  { intros i Hi. assert (i ∈ l.*1) as Hil by (by eapply elem_of_sublist).
    apply list_elem_of_fmap in Hil as ([i' p] & -> & Hin). rewrite Hperm in Hin.
    apply elem_of_map_to_list in Hin. by eexists. }
  rewrite Hrem. cbn [mbind outcome_bind]. exists u', s'. split; [done|]. split; [|split; [|split]].
  - intros i p Hp. rewrite Hu' in Hp. case_bool_decide; [done|]. by apply (Hu i).
  - apply map_subseteq_spec. intros i p Hp. rewrite Hu' in Hp. by case_bool_decide.
  - lia.
  - intros Hne. destruct (Hch Hne) as ([i p] & Hin & Hid & Hsz). rewrite Hperm in Hin.
    apply elem_of_map_to_list in Hin. exists i, p. split; [done|]. rewrite Hu'.
    by rewrite bool_decide_true.
Qed.

(** ** The invariant of the proposals *)
Inductive update_op :=
| UPropose (i : UpdateProposalId) (p : UpdateProposal) (s : Settings) (d : BlockDate)
| UVote (v : UpdateVote) (s : Settings).
Definition update_run (u : UpdateState) (o : update_op) : outcome UpdateStateError UpdateState :=
  match o with
  | UPropose i p s d => apply_proposal u i p s d
  | UVote v s => update_apply_vote u v s
  end.

(** Any sequence of proposals and votes, accepted against whatever settings
    hold at each of them, keeps every stored proposal applicable; a vote is
    accepted from a current leader only, at most once per leader and proposal,
    and adds exactly that vote. *)
Theorem updates_stay_valid u ops u' :
  proposals_valid u → foldM update_run u ops = Ok u' →
  proposals_valid u' ∧
  (∀ v s u'', update_apply_vote u' v s = Ok u'' →
    voter_id v ∈ bft_leaders s ∧
    ∃ p, u' !! uv_proposal_id v = Some p ∧ votes p !! voter_id v = None ∧
      u'' = <[uv_proposal_id v := mkProposalState (proposal p) (proposal_date p)
                                   (<[voter_id v := ()]> (votes p))]> u').
Proof.
  intros Hu Hrun.
  assert (∀ u v s u'', update_apply_vote u v s = Ok u'' →
    voter_id v ∈ bft_leaders s ∧
    ∃ p, u !! uv_proposal_id v = Some p ∧ votes p !! voter_id v = None ∧
      u'' = <[uv_proposal_id v := mkProposalState (proposal p) (proposal_date p)
                                   (<[voter_id v := ()]> (votes p))]> u) as Hvote.
  { intros u0 v s u'' Hv. unfold update_apply_vote in Hv.
    case_bool_decide as Hin; [|done]. cbn [negb] in Hv. split; [done|].
    apply map_err_Ok, hm_update_Ok in Hv as (p & ov & Hp & Hov & ->).
    apply bind_Ok in Hov as (m & [Hn ->]%hm_insert_Ok & <-%Ok_inj). by exists p. }
  split; [|by intros v s u''; apply Hvote].
  apply (foldM_inv proposals_valid update_run ops u u'); [|done|done].
  intros u0 o u1 _ Hu0 Ho. destruct o as [i p s d|v s]; cbn in Ho.
  - unfold apply_proposal in Ho. apply bind_Ok in Ho as (s' & Hs' & Ho).
    case_bool_decide; [|done]. cbn [negb] in Ho. apply map_err_Ok, hm_insert_Ok in Ho as [Hn ->].
    apply map_Forall_insert_2; [|done]. cbn.
    pose proof (try_apply_valid s (changes p)) as Ht. destruct (forallb _ _); [done|].
    destruct Ht as [e Ht]. by rewrite Hs' in Ht.
  - destruct (Hvote u0 v s u1 Ho) as (_ & p & Hp & _ & ->).
    apply map_Forall_insert_2; [|done]. cbn. by apply (Hu0 _ _ Hp).
Qed.

(** ** Concrete updates *)
Definition demo_leader : BftLeaderId := replicate 32 1.
Definition demo_settings : Settings :=
  mkSettings Bft nonce_zero 1 10 10 500 102400 [demo_leader] (linear_fee_new 0 0 0) 100 None None
    ToRewards LimitNone None [demo_leader] 1.
Definition demo_proposal : UpdateProposal := mkProposal [PSlotDuration 20] demo_leader.
Definition demo_updates : UpdateState :=
  {[ replicate 32 7 := mkProposalState demo_proposal (mkDate 0 0) {[ demo_leader := () ]} ]}.

Lemma settings_config_params_witness :
  try_apply settings_new (to_config_params demo_settings) = Ok demo_settings.
Proof.
  destruct (settings_config_params demo_settings) as [H1 H2]; [vm_compute; split; reflexivity || discriminate|].
  rewrite H1. reflexivity.
Defined.

Lemma process_proposals_total_witness :
  ∃ u' s', process_proposals demo_updates demo_settings (mkDate 0 5) (mkDate 1 0) = Ok (u', s') ∧
    u' ⊆ demo_updates ∧ s_slot_duration s' = 20.
Proof.
  destruct (process_proposals_total demo_updates demo_settings (mkDate 0 5) (mkDate 1 0))
    as (u' & s' & H1 & _ & H2 & _).
  - apply map_Forall_singleton. reflexivity.
  - reflexivity.
  - exists u', s'. split; [exact H1|]. split; [exact H2|].
    assert (match process_proposals demo_updates demo_settings (mkDate 0 5) (mkDate 1 0) with
            | Ok (_, s) => s_slot_duration s | _ => 0 end = 20) as Hv by (vm_compute; reflexivity).
    rewrite H1 in Hv. exact Hv.
Defined.

Lemma updates_stay_valid_witness :
  ∃ u', foldM update_run ∅ [UPropose (replicate 32 7) demo_proposal demo_settings (mkDate 0 0);
      UVote (mkUpdateVote (replicate 32 7) demo_leader) demo_settings] = Ok u' ∧ proposals_valid u'.
Proof.
  set (ops := [_; _]). destruct (foldM update_run ∅ ops) as [u'|e|] eqn:Hrun;
    [|vm_compute in Hrun; discriminate Hrun..].
  exists u'. split; [reflexivity|].
  apply (updates_stay_valid ∅ ops u'); [apply map_Forall_empty|exact Hrun].
Defined.
