(* ===== verification/PoolCert.v ===== *)
(** * Stake pool certificates ([certificate/pool.rs], [key.rs])

    Registration, update and retirement of stake pools with their wire forms,
    and the signatures of the owners that authorise them.  Digests are byte
    strings; the decoding of a group element of the VRF key is the parameter
    [group_decode], the check of a signature the parameter [sig_verify]. *)
From S2P Require Import Prelude Codec Key Value Rewards Addr Multisig Input Transaction.
Local Open Scope Z_scope.

(** [GroupElement::from_bytes] of the VRF: a group element is represented by
    its encoding. *)
Class GroupEncoding := { group_decode : list Z → option (list Z) }.

Abbreviation PoolId := (list Z).
Abbreviation PoolRegistrationHash := (list Z).
Abbreviation Digest := (list Z).

(** ** Keys of a Praos leader *)
Record GenesisPraosLeader := mkPraosLeader { kes_public_key : list Z; vrf_public_key : list Z }.
Definition vrf_public_from_binary `{GroupEncoding} (input : list Z) : outcome PublicKeyError (list Z) :=
  if negb (length input =? 32)%nat then Err SizeInvalid
  else ok_or (group_decode input) KeyStructureInvalid.
Definition kes_public_from_binary (data : list Z) : outcome PublicKeyError (list Z) :=
  if (length data =? 32)%nat then Ok data else Err SizeInvalid.
Definition deserialize_vrf_key `{GroupEncoding} : Reader (list Z) :=
  bytes ← read_mut_slice 32; reader_of chain_crypto_err (vrf_public_from_binary bytes).
Definition deserialize_kes_key : Reader (list Z) :=
  bytes ← read_mut_slice 32; reader_of chain_crypto_err (kes_public_from_binary bytes).
Definition praos_leader_read `{GroupEncoding} : Reader GenesisPraosLeader :=
  vrf_public_key ← deserialize_vrf_key;
  kes_public_key ← deserialize_kes_key;
  mret (mkPraosLeader kes_public_key vrf_public_key).

(** ** Permissions *)
Definition MANAGEMENT_THRESHOLD_BITMASK : Z := 0x3f.
Definition ALL_USED_BITMASK : Z := 0x3f.
Definition permissions_new (management_threshold : Z) : Z :=
  Z.land management_threshold MANAGEMENT_THRESHOLD_BITMASK.
Definition permissions_from_u64 (v : Z) : option Z :=
  if 0 <? Z.land v (u64_max - ALL_USED_BITMASK) then None else Some v.
Definition permissions_management_threshold (p : Z) : Z := Z.land p MANAGEMENT_THRESHOLD_BITMASK.

(** ** The certificates *)
Record PoolRegistration := mkPoolReg {
  serial : Z;
  start_validity : Z;
  permissions : Z;
  owners : list PublicKey;
  operators : list PublicKey;
  pool_tax : TaxType;
  reward_account : option AccountIdentifier;
  pool_keys : GenesisPraosLeader }.
Record PoolUpdate := mkPoolUpdate {
  pu_pool_id : PoolId; last_pool_reg_hash : PoolRegistrationHash; new_pool_reg : PoolRegistration }.
Record PoolRetirement := mkPoolRetirement { retired_pool_id : PoolId; retirement_time : Z }.
(** [IndexSignatures]. *)
Abbreviation PoolOwnersSignature := (list (Z * list Z)).
Inductive PoolSignature := PSOperator (op : list Z) | PSOwners (signatures : PoolOwnersSignature).

Definition management_threshold (r : PoolRegistration) : Z :=
  permissions_management_threshold (permissions r).

(** [ByteBuilder::sub] with a function that may panic. *)
Definition bb_sub_try (bb : ByteBuilder) (f : ByteBuilder → outcome infallible ByteBuilder) :
    outcome infallible ByteBuilder :=
  res ← f (mkBB (bb_buffer bb) None); Ok (mkBB (bb_buffer res) (bb_expected bb)).

Definition pool_reg_serialize_in (r : PoolRegistration) (bb : ByteBuilder) :
    outcome infallible ByteBuilder :=
  let bb := bb_u64 (bb_u64 (bb_u128 bb (serial r)) (start_validity r)) (permissions r) in
  let bb := bb_bytes (bb_bytes bb (vrf_public_key (pool_keys r))) (kes_public_key (pool_keys r)) in
  bb ← bb_iter8 bb (owners r) bb_bytes;
  bb ← bb_iter8 bb (operators r) bb_bytes;
  let bb := bb_sub bb (tax_serialize_in (pool_tax r)) in
  Ok (match reward_account r with
      | None => bb_u8 bb 0
      | Some (ISingle pk) => bb_bytes (bb_u8 bb 1) pk
      | Some (IMulti pk) => bb_bytes (bb_u8 bb 2) pk
      end).
Definition pool_reg_serialize (r : PoolRegistration) : outcome infallible (list Z) :=
  bb ← pool_reg_serialize_in r bb_new; bb_finalize bb.
Definition pool_update_serialize_in (u : PoolUpdate) (bb : ByteBuilder) : outcome infallible ByteBuilder :=
  bb_sub_try (bb_bytes (bb_bytes bb (pu_pool_id u)) (last_pool_reg_hash u))
    (pool_reg_serialize_in (new_pool_reg u)).
Definition pool_retirement_serialize_in (r : PoolRetirement) (bb : ByteBuilder) : ByteBuilder :=
  bb_u64 (bb_bytes bb (retired_pool_id r)) (retirement_time r).
Definition index_signature_in (bb : ByteBuilder) (isig : Z * list Z) : ByteBuilder :=
  bb_bytes (bb_u8 bb isig.1) isig.2.
Definition pool_signature_serialize_in (s : PoolSignature) (bb : ByteBuilder) :
    outcome infallible ByteBuilder :=
  match s with
  | PSOperator op => Ok (bb_bytes (bb_u8 bb 0) op)
  | PSOwners sigs =>
      assert_that (negb (length sigs =? 0)%nat) ;;
      assert_that (length sigs <? 256)%nat ;;
      bb_iter8 bb sigs index_signature_in
  end.

(** ** Readers *)
Definition pool_reg_read `{GroupEncoding} : Reader PoolRegistration :=
  serial ← get_u128;
  start_validity ← get_u64;
  perm ← get_u64;
  match permissions_from_u64 perm with
  | None => read_fail (StructureInvalid "permission value not correct")
  | Some permissions =>
      keys ← praos_leader_read;
      owners_nb ← get_u8;
      owners ← read_vec deserialize_public_key (Z.to_nat owners_nb);
      operators_nb ← get_u8;
      operators ← read_vec deserialize_public_key (Z.to_nat operators_nb);
      rewards ← tax_read_frombuf;
      n ← get_u8;
      reward_account ←
        (if n =? 0 then mret None
         else if n =? 1 then pk ← deserialize_public_key; mret (Some (ISingle pk))
         else if n =? 2 then pk ← get_slice 32; mret (Some (IMulti pk))
         else read_fail (UnknownTag n) : Reader (option AccountIdentifier));
      mret (mkPoolReg serial start_validity permissions owners operators rewards reward_account keys)
  end.
Definition pool_update_read `{GroupEncoding} : Reader PoolUpdate :=
  pool_id ← read_array 32;
  last_pool_reg_hash ← read_array 32;
  new_pool_reg ← pool_reg_read;
  mret (mkPoolUpdate pool_id last_pool_reg_hash new_pool_reg).
Definition pool_retirement_read : Reader PoolRetirement :=
  pool_id ← read_array 32; retirement_time ← get_u64; mret (mkPoolRetirement pool_id retirement_time).
Definition index_signature_read : Reader (Z * list Z) :=
  nb ← get_u8; sig ← deserialize_signature; mret (nb, sig).
Definition pool_owners_signed_read : Reader PoolOwnersSignature :=
  sigs_nb ← get_u8;
  if sigs_nb =? 0 then read_fail (StructureInvalid "pool owner signature with 0 signatures")
  else read_vec index_signature_read (Z.to_nat sigs_nb).
Definition pool_signature_read : Reader PoolSignature :=
  b ← peek_u8;
  if b =? 0 then get_u8 ;; sig ← deserialize_signature; mret (PSOperator sig)
  else sigs ← pool_owners_signed_read; mret (PSOwners sigs).

(** ** Payloads *)
Definition as_vec (m : outcome infallible ByteBuilder) : outcome infallible (list Z) :=
  bb ← m; Ok (bb_finalize_as_vec bb).
#[export] Instance pool_registration_payload `{GroupEncoding} : Payload PoolRegistration := {|
  HAS_DATA := true; HAS_AUTH := true; Auth := PoolSignature;
  payload_read := pool_reg_read; auth_read := pool_signature_read;
  payload_data := λ r, as_vec (pool_reg_serialize_in r bb_new);
  payload_auth_data := λ s, as_vec (pool_signature_serialize_in s bb_new);
  payload_to_certificate_slice := λ _, Some CPoolRegistration |}.
#[export] Instance pool_update_payload `{GroupEncoding} : Payload PoolUpdate := {|
  HAS_DATA := true; HAS_AUTH := true; Auth := PoolSignature;
  payload_read := pool_update_read; auth_read := pool_signature_read;
  payload_data := λ r, as_vec (pool_update_serialize_in r bb_new);
  payload_auth_data := λ s, as_vec (pool_signature_serialize_in s bb_new);
  payload_to_certificate_slice := λ _, Some CPoolUpdate |}.
#[export] Instance pool_retirement_payload : Payload PoolRetirement := {|
  HAS_DATA := true; HAS_AUTH := true; Auth := PoolSignature;
  payload_read := pool_retirement_read; auth_read := pool_signature_read;
  payload_data := λ r, Ok (bb_finalize_as_vec (pool_retirement_serialize_in r bb_new));
  payload_auth_data := λ s, as_vec (pool_signature_serialize_in s bb_new);
  payload_to_certificate_slice := λ _, Some CPoolRetirement |}.

(** ** Verification *)
Section verify.
Context (hash_bytes : list Z → list Z) (sig_verify : list Z → PublicKey → list Z → bool).

Definition pool_to_id (r : PoolRegistration) : outcome infallible PoolId :=
  ba ← pool_reg_serialize r; Ok (hash_bytes ba).

(** One turn of the loop over the signatures: the owners already seen and their
    number; [None] is [Verification::Failed]. *)
Definition owner_step (info : PoolRegistration) (data : list Z) (st : list bool * nat)
    (isig : Z * list Z) : option (list bool * nat) :=
  let i := Z.to_nat isig.1 in
  match owners info !! i, st.1 !! i with
  | Some pk, Some false =>
      if sig_verify isig.2 pk data then Some (<[i := true]> st.1, S st.2) else None
  | _, _ => None
  end.
Fixpoint owner_loop (info : PoolRegistration) (data : list Z) (sigs : PoolOwnersSignature)
    (st : list bool * nat) : option (list bool * nat) :=
  match sigs with
  | [] => Some st
  | isig :: sigs =>
      match owner_step info data st isig with
      | Some st => owner_loop info data sigs st
      | None => None
      end
  end.
Definition pool_owners_verify (sigs : PoolOwnersSignature) (info : PoolRegistration) (data : list Z) : bool :=
  if Z.of_nat (length sigs) <? management_threshold info then false
  else
    match owner_loop info data sigs (replicate (length (owners info)) false, O) with
    | None => false
    | Some (_, signatories) => negb (Z.of_nat signatories <? management_threshold info)
    end.
Definition pool_signature_verify (s : PoolSignature) (info : PoolRegistration) (data : list Z) : bool :=
  match s with
  | PSOperator _ => false
  | PSOwners sigs => pool_owners_verify sigs info data
  end.
End verify.
