(* ===== verification/PoolCertSpec.v ===== *)
(** * Stake pool certificates: wire forms and owners' signatures

    Every certificate and signature reads back from what it is written as, so
    transactions carrying them satisfy what the builder and the structure
    check of transactions rely on; and the verification of the owners'
    signatures is exactly "enough distinct owners signed". *)
From S2P Require Import Prelude Codec Key Value Rewards Addr Multisig Input Transaction TransactionSpec Config ConfigSpec PoolCert.
Local Open Scope Z_scope.

(** ** What the builders write *)
Lemma bb_bytes_app bb x y : bb_bytes (bb_bytes bb x) y = bb_bytes bb (x ++ y).
Proof. unfold bb_bytes. cbn. by rewrite <-app_assoc. Qed.
Lemma bb_bytes_nil bb : bb_bytes bb [] = bb.
Proof. unfold bb_bytes. rewrite app_nil_r. by destruct bb. Qed.
Lemma bb_u8_eq bb v : bb_u8 bb v = bb_bytes bb [v].
Proof. done. Qed.

Lemma bb_foldl {A} (f : ByteBuilder → A → ByteBuilder) (enc : A → list Z) bb l :
  (∀ bb a, f bb a = bb_bytes bb (enc a)) → foldl f bb l = bb_bytes bb (concat (enc <$> l)).
Proof.
  intros Hf. revert bb. induction l as [|a l IH]; intros bb; cbn; [by rewrite bb_bytes_nil|].
  by rewrite IH, Hf, bb_bytes_app.
Qed.
Lemma bb_iter8_eq {A} (f : ByteBuilder → A → ByteBuilder) (enc : A → list Z) bb l :
  (∀ bb a, f bb a = bb_bytes bb (enc a)) → Z.of_nat (length l) ≤ 255 →
  bb_iter8 bb l f = Ok (bb_bytes bb (Z.of_nat (length l) :: concat (enc <$> l))).
Proof.
  intros Hf Hl. unfold bb_iter8. rewrite bool_decide_true by done. cbn [assert_that mbind outcome_bind].
  by rewrite (bb_foldl f enc), bb_u8_eq, bb_bytes_app.
Qed.
Lemma bb_sub_bytes bb f x : (∀ b, f b = bb_bytes b x) → bb_sub bb f = bb_bytes bb x.
Proof. intros Hf. unfold bb_sub. by rewrite Hf. Qed.

Definition reward_account_bytes (a : option AccountIdentifier) : list Z :=
  match a with None => [0] | Some (ISingle pk) => 1 :: pk | Some (IMulti pk) => 2 :: pk end.
Definition pool_reg_bytes (r : PoolRegistration) : list Z :=
  be_bytes 16 (serial r) ++ be_bytes 8 (start_validity r) ++ be_bytes 8 (permissions r) ++
  vrf_public_key (pool_keys r) ++ kes_public_key (pool_keys r) ++
  [Z.of_nat (length (owners r))] ++ concat (owners r) ++
  [Z.of_nat (length (operators r))] ++ concat (operators r) ++
  tax_to_payload (pool_tax r) ++ reward_account_bytes (reward_account r).
Definition pool_update_bytes (u : PoolUpdate) : list Z :=
  pu_pool_id u ++ last_pool_reg_hash u ++ pool_reg_bytes (new_pool_reg u).
Definition pool_retirement_bytes (r : PoolRetirement) : list Z :=
  retired_pool_id r ++ be_bytes 8 (retirement_time r).
Definition pool_signature_bytes (s : PoolSignature) : list Z :=
  match s with
  | PSOperator op => 0 :: op
  | PSOwners sigs => Z.of_nat (length sigs) :: concat ((λ isig, isig.1 :: isig.2) <$> sigs)
  end.

(** Within the widths of the fields: keys and hashes of their sizes, a valid
    VRF key, a tax ratio of at most one. *)
Section formats.
Context `{GroupEncoding}.

Definition account_id_ok (a : option AccountIdentifier) : Prop :=
  match a with None => True | Some (ISingle pk) | Some (IMulti pk) => length pk = 32%nat end.
Definition keys_ok (l : list PublicKey) : Prop :=
  Forall (λ k, length k = PUBLIC_KEY_SIZE) l ∧ Z.of_nat (length l) ≤ 255.
Definition pool_reg_ok (r : PoolRegistration) : Prop :=
  u128_ok (serial r) ∧ u64_ok (start_validity r) ∧ 0 ≤ permissions r < 64 ∧
  keys_ok (owners r) ∧ keys_ok (operators r) ∧
  tax_ok (pool_tax r) ∧ ratio_le_one (ratio (pool_tax r)) ∧ account_id_ok (reward_account r) ∧
  length (kes_public_key (pool_keys r)) = 32%nat ∧ length (vrf_public_key (pool_keys r)) = 32%nat ∧
  group_decode (vrf_public_key (pool_keys r)) = Some (vrf_public_key (pool_keys r)).
Definition pool_signature_ok (s : PoolSignature) : Prop :=
  match s with
  | PSOperator op => length op = SIGNATURE_SIZE
  | PSOwners sigs => sigs ≠ [] ∧ Z.of_nat (length sigs) ≤ 255 ∧ Forall (λ isig, length isig.2 = SIGNATURE_SIZE) sigs
  end.

Lemma concat_id (l : list (list Z)) : concat ((λ x, x) <$> l) = concat l.
Proof. by rewrite list_fmap_id. Qed.

Lemma pool_reg_serialize_bytes r bb :
  keys_ok (owners r) → keys_ok (operators r) →
  pool_reg_serialize_in r bb = Ok (bb_bytes bb (pool_reg_bytes r)).
Proof using Type.
  intros [_ Ho] [_ Hp]. unfold pool_reg_serialize_in, bb_u64, bb_u128. rewrite !bb_bytes_app.
  rewrite (bb_iter8_eq bb_bytes (λ x, x)) by done. cbn [mbind outcome_bind].
  rewrite (bb_iter8_eq bb_bytes (λ x, x)) by done. cbn [mbind outcome_bind]. rewrite !concat_id.
  rewrite (bb_sub_bytes _ _ (tax_to_payload (pool_tax r))).
  2:{ intros b. unfold tax_to_payload. by rewrite !tax_serialize_bytes. }
  unfold pool_reg_bytes. f_equal. destruct (reward_account r) as [[pk|pk]|]; cbn [reward_account_bytes];
    rewrite ?bb_u8_eq, !bb_bytes_app; f_equal; by rewrite <-!app_assoc.
Qed.
Lemma pool_update_serialize_bytes u bb :
  keys_ok (owners (new_pool_reg u)) → keys_ok (operators (new_pool_reg u)) →
  pool_update_serialize_in u bb = Ok (bb_bytes bb (pool_update_bytes u)).
Proof using Type.
  intros Ho Hp. unfold pool_update_serialize_in, bb_sub_try. rewrite !bb_bytes_app.
  rewrite pool_reg_serialize_bytes by done. cbn [mbind outcome_bind]. f_equal.
  unfold pool_update_bytes, bb_bytes. cbn [bb_buffer bb_expected]. by rewrite <-!app_assoc.
Qed.
Lemma pool_signature_serialize_bytes s bb :
  pool_signature_ok s → pool_signature_serialize_in s bb = Ok (bb_bytes bb (pool_signature_bytes s)).
Proof using Type.
  destruct s as [op|sigs]; cbn [pool_signature_serialize_in pool_signature_bytes pool_signature_ok];
    [intros _; by rewrite bb_u8_eq, bb_bytes_app|].
  intros (Hne & Hl & _). destruct sigs as [|sg sigs]; [done|].
  rewrite (proj2 (Nat.ltb_lt _ 256)) by lia. cbn [assert_that mbind outcome_bind negb Nat.eqb length].
  apply (bb_iter8_eq index_signature_in (λ isig, isig.1 :: isig.2)); [|done].
  intros b a. unfold index_signature_in. by rewrite bb_u8_eq, bb_bytes_app.
Qed.

(** ** What the readers read *)
Lemma reads_peek {A} (k : Z → Reader A) a x bs :
  reads (k x) a (x :: bs) → reads (v ← peek_u8; k v) a (x :: bs).
Proof using Type.
  intros Hk pre post. rewrite reader_bind_eq. unfold peek_u8, assure_size. rewrite reader_bind_eq.
  unfold rb_left. cbn. rewrite length_app. cbn. rewrite decide_True by lia. cbn.
  rewrite list_lookup_middle by done. cbn. apply Hk.
Qed.
Lemma reads_keys l :
  keys_ok l → reads (read_vec deserialize_public_key (length l)) l (concat l).
Proof using Type.
  intros [Hl _]. rewrite <-concat_id. apply reads_vec. intros k Hk. apply reads_public_key.
  by rewrite Forall_forall in Hl; apply Hl.
Qed.
Lemma reads_vrf_key k :
  length k = 32%nat → group_decode k = Some k → reads deserialize_vrf_key k k.
Proof using Type.
  intros Hl Hg. rewrite <-(app_nil_r k) at 2. eapply reads_bind; [by apply reads_mut_slice|].
  unfold vrf_public_from_binary. rewrite Hl, Hg. apply reads_of.
Qed.
Lemma reads_kes_key k : length k = 32%nat → reads deserialize_kes_key k k.
Proof using Type.
  intros Hl. rewrite <-(app_nil_r k) at 2. eapply reads_bind; [by apply reads_mut_slice|].
  unfold kes_public_from_binary. rewrite Hl. apply reads_of.
Qed.
Lemma reads_praos_leader l :
  length (kes_public_key l) = 32%nat → length (vrf_public_key l) = 32%nat →
  group_decode (vrf_public_key l) = Some (vrf_public_key l) →
  reads praos_leader_read l (vrf_public_key l ++ kes_public_key l).
Proof using Type.
  intros Hk Hv Hg. unfold praos_leader_read. destruct l as [k v]; cbn in *.
  eapply reads_bind; [by apply reads_vrf_key|].
  by apply (reads_bind_ret _ (λ ke, mkPraosLeader ke v)), reads_kes_key.
Qed.

Lemma permissions_small p : 0 ≤ p < 64 → permissions_from_u64 p = Some p.
Proof using Type.
  intros Hp. unfold permissions_from_u64.
  assert (Z.land p (u64_max - ALL_USED_BITMASK) = 0) as ->; [|done].
  apply Z.bits_inj'. intros n Hn. rewrite Z.land_spec, Z.bits_0.
  destruct (decide (n < 6)) as [Hs|Hs].
  - assert (Z.testbit (u64_max - ALL_USED_BITMASK) n = false) as ->; [|by rewrite andb_false_r].
    assert (n = 0 ∨ n = 1 ∨ n = 2 ∨ n = 3 ∨ n = 4 ∨ n = 5) as Hc by lia.
    by destruct Hc as [->|[->|[->|[->|[->| ->]]]]].
  - rewrite Z.testbit_odd, Z.shiftr_div_pow2 by lia.
    rewrite Z.div_small; [done|]. split; [lia|]. apply (Z.lt_le_trans _ (2 ^ 6)); [lia|].
    apply Z.pow_le_mono_r; lia.
Qed.

Lemma reads_pool_reg r : pool_reg_ok r → reads pool_reg_read r (pool_reg_bytes r).
Proof using Type.
  intros (Hse & Hst & Hpe & Ho & Hop & Htx & Hle & Hac & Hk & Hv & Hg).
  unfold pool_reg_read, pool_reg_bytes.
  eapply reads_bind; [by apply reads_u128|]. eapply reads_bind; [by apply reads_u64|].
  eapply reads_bind; [apply reads_u64; unfold in_u; lia|]. rewrite permissions_small by done.
  rewrite (app_assoc (vrf_public_key _)). eapply reads_bind; [by apply reads_praos_leader|].
  eapply reads_bind; [apply reads_u8|]. rewrite Nat2Z.id.
  eapply reads_bind; [by apply reads_keys|].
  eapply reads_bind; [apply reads_u8|]. rewrite Nat2Z.id.
  eapply reads_bind; [by apply reads_keys|].
  eapply reads_bind; [by apply tax_reads|]. destruct r as [se st pe ow op tx ra [ke vr]]; cbn in *.
  set (F := λ a, mkPoolReg se st pe ow op tx a (mkPraosLeader ke vr)).
  destruct ra as [[pk|pk]|]; cbn [reward_account_bytes].
  - change (1 :: pk) with ([1] ++ pk). eapply reads_bind; [apply reads_u8|].
    by apply (reads_bind_ret _ F), (reads_bind_ret _ (λ k, Some (ISingle k))), reads_public_key.
  - change (2 :: pk) with ([2] ++ pk). eapply reads_bind; [apply reads_u8|].
    by apply (reads_bind_ret _ F), (reads_bind_ret _ (λ k, Some (IMulti k))), reads_slice_len.
  - change [0] with ([0] ++ []). eapply reads_bind; [apply reads_u8|].
    apply (reads_bind_ret _ F), reads_ret.
Qed.
Lemma reads_pool_update u :
  length (pu_pool_id u) = 32%nat → length (last_pool_reg_hash u) = 32%nat → pool_reg_ok (new_pool_reg u) →
  reads pool_update_read u (pool_update_bytes u).
Proof using Type.
  intros H1 H2 H3. unfold pool_update_read, pool_update_bytes, read_array. destruct u; cbn in *.
  eapply reads_bind; [by apply reads_slice_len|]. eapply reads_bind; [by apply reads_slice_len|].
  by apply reads_bind_ret, reads_pool_reg.
Qed.
Lemma reads_pool_retirement r :
  length (retired_pool_id r) = 32%nat → u64_ok (retirement_time r) →
  reads pool_retirement_read r (pool_retirement_bytes r).
Proof using Type.
  intros H1 H2. unfold pool_retirement_read, pool_retirement_bytes, read_array. destruct r; cbn in *.
  eapply reads_bind; [by apply reads_slice_len|]. by apply reads_bind_ret, reads_u64.
Qed.
Lemma reads_pool_signature s :
  pool_signature_ok s → reads pool_signature_read s (pool_signature_bytes s).
Proof using Type.
  destruct s as [op|sigs]; cbn; intros Hs; apply reads_peek.
  - rewrite Z.eqb_refl. change (0 :: op) with ([0] ++ op). eapply reads_bind; [apply reads_u8|].
    by apply reads_bind_ret, reads_signature.
  - destruct Hs as (Hne & Hl & Hs). rewrite (proj2 (Z.eqb_neq _ _)) by (destruct sigs; [done|cbn; lia]).
    apply reads_bind_ret. unfold pool_owners_signed_read.
    change (?x :: ?l) with ([x] ++ l) at 1. eapply reads_bind; [apply reads_u8|].
    rewrite (proj2 (Z.eqb_neq _ _)) by (destruct sigs; [done|cbn; lia]). rewrite Nat2Z.id.
    apply reads_vec. intros [i sg] Hi. rewrite Forall_forall in Hs. specialize (Hs _ Hi). cbn in *.
    unfold index_signature_read. change (i :: sg) with ([i] ++ sg).
    eapply reads_bind; [apply reads_u8|]. by apply reads_bind_ret, reads_signature.
Qed.
End formats.

(** ** The readers are local *)
Lemma local_get_u64 : local get_u64. Proof. apply local_slice_map. Qed.
Lemma local_get_u128 : local get_u128. Proof. apply local_slice_map. Qed.
#[export] Hint Resolve local_get_u64 local_get_u128 : readers.

Lemma local_match_opt {A B} (o : option A) (k : A → Reader B) r :
  local r → (∀ a, local (k a)) → local (match o with Some a => k a | None => r end).
Proof. by destruct o. Qed.

(** Peeking and then reading with a reader that starts by the same byte. *)
Lemma local_peek {A} (k : Z → Reader A) :
  (∀ b, local (k b)) → (∀ b a bs, reads (k b) a bs → bs ≠ []) →
  local (v ← peek_u8; k v).
Proof.
  intros Hk Hne pre rest. rewrite reader_bind_eq. unfold peek_u8, assure_size. rewrite reader_bind_eq, rb_at_left.
  case_decide as Hl; [|done]. destruct rest as [|b rest]; [cbn in Hl; lia|].
  cbn. rewrite list_lookup_middle by done. cbn. specialize (Hk b pre (b :: rest)).
  destruct (k b (rb_at pre (b :: rest))) as [[a b']|e|] eqn:E; [|done|done].
  destruct Hk as (bs & post & Hr & -> & Ha). exists bs, post. split; [done|]. split; [done|].
  pose proof (Hne _ _ _ Ha) as Hbs. destruct bs as [|b0 bs]; [done|]. injection Hr as <- Hr.
  intros pre' post'. rewrite reader_bind_eq. unfold peek_u8, assure_size. rewrite reader_bind_eq.
  unfold rb_left. cbn. rewrite length_app. cbn. rewrite decide_True by lia. cbn.
  rewrite list_lookup_middle by done. cbn. apply Ha.
Qed.

Section locality.
Context `{GroupEncoding}.

Lemma local_tax : local tax_read_frombuf.
Proof using Type.
  unfold tax_read_frombuf. do 4 (apply local_bind; [auto with readers|]; intros ?).
  apply local_match_opt; [auto with readers|]. intros d. auto with readers.
Qed.
Lemma local_praos_leader : local praos_leader_read.
Proof using Type.
  unfold praos_leader_read, deserialize_vrf_key, deserialize_kes_key, read_mut_slice.
  apply local_bind; [|intros v; apply local_bind; [|intros; apply local_ret]];
    (apply local_bind; [auto with readers|]); intros s; apply local_reader_of.
  - unfold vrf_public_from_binary. case_match; [done|]. by destruct (group_decode s).
  - unfold kes_public_from_binary. by case_match.
Qed.
Lemma local_pool_reg : local pool_reg_read.
Proof using Type.
  pose proof local_tax. pose proof local_praos_leader. unfold pool_reg_read.
  do 3 (apply local_bind; [auto with readers|]; intros ?).
  apply local_match_opt; [auto with readers|]. intros d.
  do 7 (apply local_bind; [auto with readers|]; intros ?).
  apply local_bind; [auto 10 with readers|]. intros. apply local_ret.
Qed.
Lemma local_pool_signature : local pool_signature_read.
Proof using Type.
  assert (∀ (b : Z) (r1 r2 : Reader PoolSignature) s bs,
    (∀ s bs, reads r1 s bs → bs ≠ []) → (∀ s bs, reads r2 s bs → bs ≠ []) →
    reads (if b =? 0 then r1 else r2) s bs → bs ≠ []) as Hif by (intros b r1 r2 s bs; case_match; eauto).
  unfold pool_signature_read, pool_owners_signed_read, index_signature_read.
  apply local_peek; [intros b; auto 10 with readers|].
  intros b s bs. apply Hif; intros s' bs'; apply reads_nonempty; intros a' Ha; vm_compute in Ha; discriminate.
Qed.

#[export] Instance pool_registration_local : PayloadLocal PoolRegistration.
Proof using Type. split; [apply local_pool_reg|apply local_pool_signature]. Qed.
#[export] Instance pool_update_local : PayloadLocal PoolUpdate.
Proof using Type.
  pose proof local_pool_reg. split; [|apply local_pool_signature].
  cbn. unfold pool_update_read, read_array. auto 10 with readers.
Qed.
#[export] Instance pool_retirement_local : PayloadLocal PoolRetirement.
Proof using Type.
  split; [|apply local_pool_signature]. cbn. unfold pool_retirement_read, read_array. auto 10 with readers.
Qed.
End locality.

(** ** Round trips *)
Section roundtrip.
Context `{GroupEncoding}.

Lemma as_vec_payload (m : outcome infallible ByteBuilder) b :
  m = Ok (bb_bytes bb_new b) → as_vec m = Ok b.
Proof using Type. by intros ->. Qed.

Lemma pool_signature_auth_ok s :
  pool_signature_ok s →
  as_vec (pool_signature_serialize_in s bb_new) = Ok (pool_signature_bytes s) ∧
  reads pool_signature_read s (pool_signature_bytes s) ∧ pool_signature_bytes s ≠ [].
Proof using Type.
  intros Hs. split; [by apply as_vec_payload, pool_signature_serialize_bytes|].
  split; [by apply reads_pool_signature|]. by destruct s.
Qed.

(** The certificates of stake pools in transactions: registration, update and
    retirement, each with its signature, are written without a panic and read
    back, as the builder and the structure check of transactions require. *)
Theorem pool_certificates_roundtrip r u t s :
  pool_reg_ok r → pool_reg_ok (new_pool_reg u) →
  length (pu_pool_id u) = 32%nat → length (last_pool_reg_hash u) = 32%nat →
  length (retired_pool_id t) = 32%nat → u64_ok (retirement_time t) → pool_signature_ok s →
  (payload_ok r ∧ payload_auth_ok (P := PoolRegistration) s) ∧
  (payload_ok u ∧ payload_auth_ok (P := PoolUpdate) s) ∧
  (payload_ok t ∧ payload_auth_ok (P := PoolRetirement) s) ∧
  payload_data r = Ok (pool_reg_bytes r) ∧ payload_data u = Ok (pool_update_bytes u) ∧
  payload_data t = Ok (pool_retirement_bytes t).
Proof using Type.
  intros Hr Hu H1 H2 H3 H4 Hs. pose proof (pool_signature_auth_ok s Hs) as (Ha & Hb & Hc).
  assert (payload_data r = Ok (pool_reg_bytes r)) as Er.
  { apply as_vec_payload, pool_reg_serialize_bytes; apply Hr. }
  assert (payload_data u = Ok (pool_update_bytes u)) as Eu.
  { apply as_vec_payload, pool_update_serialize_bytes; apply Hu. }
  assert (payload_data t = Ok (pool_retirement_bytes t)) as Et.
  { reflexivity. }
  assert (∀ P `{Payload P} (a : Auth P) b, payload_auth_data P a = Ok b → reads (auth_read P) a b → b ≠ [] →
    payload_auth_ok a) as Hauth.
  { intros P ? a b E Hrd Hne _. unfold payload_auth_bytes. by rewrite E. }
  assert (∀ P `{Payload P} (p : P) b, payload_data p = Ok b → reads (payload_read P) p b → payload_ok p) as Hpay.
  { intros P ? p b E Hrd _. unfold payload_bytes. by rewrite E. }
  split_and!; try done.
  - apply (Hpay _ _ _ _ Er). by apply reads_pool_reg.
  - by apply (Hauth PoolRegistration pool_registration_payload s _ Ha).
  - apply (Hpay _ _ _ _ Eu). by apply reads_pool_update.
  - by apply (Hauth PoolUpdate pool_update_payload s _ Ha).
  - apply (Hpay _ _ _ _ Et). by apply reads_pool_retirement.
  - by apply (Hauth PoolRetirement pool_retirement_payload s _ Ha).
Qed.
End roundtrip.

(** ** The owners' signatures *)
Section verify.
Context (sig_verify : list Z → PublicKey → list Z → bool).

Definition signed_by (info : PoolRegistration) (data : list Z) (isig : Z * list Z) : Prop :=
  ∃ pk, owners info !! Z.to_nat isig.1 = Some pk ∧ sig_verify isig.2 pk data = true.

Lemma owner_loop_spec info data sigs present n st :
  length present = length (owners info) →
  owner_loop sig_verify info data sigs (present, n) = Some st ↔
  st.2 = (n + length sigs)%nat ∧
  st.1 = foldl (λ p i, <[i := true]> p) present (Z.to_nat <$> sigs.*1) ∧
  NoDup (Z.to_nat <$> sigs.*1) ∧ Forall (signed_by info data) sigs ∧
  Forall (λ i, present !! i = Some false) (Z.to_nat <$> sigs.*1).
Proof using Type.
  revert present n. induction sigs as [|[i sg] sigs IH]; intros present n Hl.
  { cbn. destruct st as [p m]. cbn. rewrite Nat.add_0_r.
    split; [by intros [= <- <-]; split_and!; constructor|]. by intros (-> & -> & _). }
  cbn [owner_loop owner_step fmap list_fmap fst snd length foldl]. unfold owner_step.
  cbn [fst snd]. unfold signed_by. rewrite NoDup_cons, !Forall_cons. cbn [fst snd].
  destruct (owners info !! Z.to_nat i) as [pk|] eqn:Epk.
  2:{ split; [done|]. intros (_ & _ & _ & [(pk & ? & _) _] & _). congruence. }
  destruct (present !! Z.to_nat i) as [[]|] eqn:Ep.
  1,3: split; [done|]; intros (_ & _ & _ & _ & [? _]); congruence.
  destruct (sig_verify sg pk data) eqn:Es.
  2:{ split; [done|]. intros (_ & _ & _ & [(pk' & ? & ?) _] & _). congruence. }
  rewrite IH by (by rewrite length_insert). split.
  - intros (H1 & H2 & H3 & H4 & H5). split; [lia|]. split; [done|]. split; [|split; [split; eauto|]].
    + split; [|done]. intros Hin. rewrite Forall_forall in H5. specialize (H5 _ Hin).
      rewrite list_lookup_insert_eq in H5; [done|]. by eapply lookup_lt_Some.
    + split; [done|]. eapply Forall_impl; [exact H5|]. cbv beta. intros j Hj.
      destruct (decide (Z.to_nat i = j)) as [<-|]; [|by rewrite list_lookup_insert_ne in Hj].
      rewrite list_lookup_insert_eq in Hj; [done|]. by eapply lookup_lt_Some.
  - intros (H1 & H2 & [H3 H4] & [_ H5] & [_ H6]). split; [lia|]. split; [done|]. split; [done|].
    split; [done|]. rewrite Forall_forall in H6. apply Forall_forall. intros j Hj.
    rewrite list_lookup_insert_ne; [by apply H6|]. congruence.
Qed.

(** A pool's certificate is authorised exactly when enough distinct owners
    signed: at least as many signatures as the management threshold, no owner
    twice, every index in range and every signature valid for its owner; a
    single operator never authorises one. *)
Theorem pool_owners_verify_exact info data sigs op :
  (pool_owners_verify sig_verify sigs info data = true ↔
    management_threshold info ≤ Z.of_nat (length sigs) ∧
    NoDup (Z.to_nat <$> sigs.*1) ∧ Forall (signed_by info data) sigs) ∧
  (pool_owners_verify sig_verify sigs info data = true → (length sigs ≤ length (owners info))%nat) ∧
  pool_signature_verify sig_verify (PSOperator op) info data = false.
Proof using Type.
  assert (pool_owners_verify sig_verify sigs info data = true ↔
    management_threshold info ≤ Z.of_nat (length sigs) ∧
    NoDup (Z.to_nat <$> sigs.*1) ∧ Forall (signed_by info data) sigs) as Hiff.
  { unfold pool_owners_verify. destruct (Z.ltb_spec (Z.of_nat (length sigs)) (management_threshold info)).
    { split; [done|]. lia. }
    set (present := replicate _ false).
    assert (length present = length (owners info)) as Hl by apply length_replicate.
    destruct (owner_loop _ _ _ _ _) as [[p n]|] eqn:E.
    - apply owner_loop_spec in E as (E1 & _ & E2 & E3 & _); [|done]. cbn in E1. subst n.
      rewrite (proj2 (Z.ltb_ge _ _)) by lia. by split.
    - split; [done|]. intros (_ & Hnd & Hs). exfalso.
      enough (owner_loop sig_verify info data sigs (present, O) =
        Some (foldl (λ p i, <[i := true]> p) present (Z.to_nat <$> sigs.*1), length sigs)) as E' by congruence.
      apply owner_loop_spec; [done|]. split; [done|]. split; [done|]. split; [done|]. split; [done|].
      apply Forall_forall. intros i (x & -> & (isig & -> & Hi)%list_elem_of_fmap)%list_elem_of_fmap.
      rewrite Forall_forall in Hs. destruct (Hs _ Hi) as (pk & Hpk & _).
      apply lookup_replicate_2. by eapply lookup_lt_Some. }
  split; [done|]. split; [|done]. intros (_ & Hnd & Hs)%Hiff.
  rewrite <-(length_fmap fst sigs), <-(length_fmap Z.to_nat sigs.*1).
  etransitivity; [apply (submseteq_length _ (seq 0 (length (owners info)))), NoDup_submseteq; [done|]
                 |by rewrite length_seq].
  intros i (x & -> & (isig & -> & Hi)%list_elem_of_fmap)%list_elem_of_fmap.
  rewrite Forall_forall in Hs. destruct (Hs _ Hi) as (pk & Hpk & _).
  apply elem_of_seq. apply lookup_lt_Some in Hpk. lia.
Qed.
End verify.

(** ** A concrete pool *)
#[export] Instance demo_group : GroupEncoding := {| group_decode := λ k, Some k |}.
Definition demo_pool : PoolRegistration :=
  mkPoolReg 7 0 2 [replicate 32 1; replicate 32 2; replicate 32 3] [] (mkTax 5 (mkRatio 1 10) None)
    (Some (ISingle (replicate 32 4))) (mkPraosLeader (replicate 32 8) (replicate 32 9)).
Definition demo_owners_sig : PoolOwnersSignature := [(0, replicate 64 1); (2, replicate 64 3)].

Lemma pool_certificates_roundtrip_witness :
  payload_data demo_pool = Ok (pool_reg_bytes demo_pool) ∧
  payload_ok (mkPoolRetirement (replicate 32 5) 9).
Proof.
  destruct (pool_certificates_roundtrip demo_pool (mkPoolUpdate (replicate 32 5) (replicate 32 6) demo_pool)
    (mkPoolRetirement (replicate 32 5) 9) (PSOwners demo_owners_sig)) as (_ & _ & [H1 _] & H2 & _).
  1,2: split_and!; cbn; try done; repeat constructor; cbn; try lia; try reflexivity; try done.
  1-4: try reflexivity; unfold in_u; cbn; lia.
  - split; [discriminate|]. split; [cbn; lia|]. repeat constructor.
  - split; [exact H2|exact H1].
Defined.
Lemma demo_pool_verified :
  pool_owners_verify (λ _ _ _, true) demo_owners_sig demo_pool [] = true.
Proof. reflexivity. Qed.
