(* ===== verification/DelegationCert.v ===== *)
(** * Stake delegation certificates ([certificate/delegation.rs])

    The delegation of an account's stake: to nobody, to one pool, or to up to
    eight pools by parts; its wire form, and the two certificates that carry
    it. *)
From S2P Require Import Prelude Codec Key Value Account Addr Multisig Input Transaction TransactionSpec PoolCert PoolCertSpec.
Local Open Scope Z_scope.

Abbreviation Delegation := (DelegationType PoolId).

Record OwnerStakeDelegation := mkOwnerDelegation { osd_delegation : Delegation }.
Record StakeDelegation := mkStakeDelegation {
  sd_account_id : UnspecifiedAccountIdentifier; sd_delegation : Delegation }.

Definition pool_part_in (bb : ByteBuilder) (pp : PoolId * Z) : ByteBuilder :=
  bb_bytes (bb_u8 bb pp.2) pp.1.
Definition serialize_delegation_type (d : Delegation) (bb : ByteBuilder) : outcome infallible ByteBuilder :=
  match d with
  | NonDelegated => Ok (bb_u8 bb 0)
  | DFull pool_id => Ok (bb_bytes (bb_u8 bb 1) pool_id)
  | DRatio ratio =>
      assert_that (2 <=? dr_parts ratio) ;;
      bb_iter8 (bb_u8 bb (dr_parts ratio)) (dr_pools ratio) pool_part_in
  end.
Definition pool_part_read : Reader (PoolId * Z) :=
  pool_parts ← get_u8; pool_id ← read_array 32; mret (pool_id, pool_parts).
Definition deserialize_delegation_type : Reader Delegation :=
  parts ← get_u8;
  if parts =? 0 then mret NonDelegated
  else if parts =? 1 then pool_id ← read_array 32; mret (DFull pool_id)
  else
    sz ← get_u8;
    if (DELEGATION_RATIO_MAX_DECLS <? Z.to_nat sz)%nat
    then read_fail (SizeTooBig (Z.to_nat sz) DELEGATION_RATIO_MAX_DECLS)
    else
      pools ← read_vec pool_part_read (Z.to_nat sz);
      match delegation_ratio_new parts pools with
      | None => read_fail (StructureInvalid "invalid delegation ratio")
      | Some dr => mret (DRatio dr)
      end.

Definition owner_delegation_serialize_in (c : OwnerStakeDelegation) (bb : ByteBuilder) :
    outcome infallible ByteBuilder := bb_sub_try bb (serialize_delegation_type (osd_delegation c)).
Definition stake_delegation_serialize_in (c : StakeDelegation) (bb : ByteBuilder) :
    outcome infallible ByteBuilder :=
  bb_sub_try (bb_bytes bb (sd_account_id c)) (serialize_delegation_type (sd_delegation c)).
Definition owner_delegation_read : Reader OwnerStakeDelegation :=
  delegation ← deserialize_delegation_type; mret (mkOwnerDelegation delegation).
Definition stake_delegation_read : Reader StakeDelegation :=
  account_identifier ← read_array 32;
  delegation ← deserialize_delegation_type;
  mret (mkStakeDelegation account_identifier delegation).

#[export] Instance owner_delegation_payload : Payload OwnerStakeDelegation := {|
  HAS_DATA := true; HAS_AUTH := false; Auth := unit;
  payload_read := owner_delegation_read; auth_read := mret ();
  payload_data := λ c, as_vec (owner_delegation_serialize_in c bb_new);
  payload_auth_data := λ _, Ok [];
  payload_to_certificate_slice := λ _, Some COwnerStakeDelegation |}.
#[export] Instance stake_delegation_payload : Payload StakeDelegation := {|
  HAS_DATA := true; HAS_AUTH := true; Auth := AccountBindingSignature;
  payload_read := stake_delegation_read; auth_read := account_binding_read;
  payload_data := λ c, as_vec (stake_delegation_serialize_in c bb_new);
  payload_auth_data := λ s, as_vec (account_binding_serialize s bb_new);
  payload_to_certificate_slice := λ _, Some CStakeDelegation |}.

(** ** Wire form *)
Definition delegation_bytes (d : Delegation) : list Z :=
  match d with
  | NonDelegated => [0]
  | DFull p => 1 :: p
  | DRatio r => dr_parts r :: Z.of_nat (length (dr_pools r)) :: concat ((λ pp, pp.2 :: pp.1) <$> dr_pools r)
  end.
(** Pool ids are digests, parts are bytes and the ratio is a valid one. *)
Definition delegation_ok (d : Delegation) : Prop :=
  match d with
  | NonDelegated => True
  | DFull p => length p = 32%nat
  | DRatio r => u8_ok (dr_parts r) ∧ Forall (λ pp, length pp.1 = 32%nat ∧ u8_ok pp.2) (dr_pools r) ∧
      delegation_ratio_is_valid r = true
  end.

Lemma ratio_valid_bounds (r : DelegationRatio PoolId) :
  delegation_ratio_is_valid r = true → 1 < dr_parts r ∧ (length (dr_pools r) ≤ 8)%nat.
Proof.
  unfold delegation_ratio_is_valid, DELEGATION_RATIO_MAX_DECLS.
  rewrite !andb_true_iff, Z.ltb_lt, Nat.leb_le. tauto.
Qed.
Lemma ratio_new_is_valid parts (pools : list (PoolId * Z)) :
  delegation_ratio_new parts pools =
    if delegation_ratio_is_valid (mkDelegationRatio parts pools) then Some (mkDelegationRatio parts pools) else None.
Proof. done. Qed.

Lemma serialize_delegation_bytes d bb :
  delegation_ok d → serialize_delegation_type d bb = Ok (bb_bytes bb (delegation_bytes d)).
Proof.
  destruct d as [|p|r]; cbn [serialize_delegation_type delegation_bytes delegation_ok];
    [done|intros _; by rewrite bb_u8_eq, bb_bytes_app|].
  intros (_ & _ & Hv). pose proof (ratio_valid_bounds r Hv) as [H1 H2].
  rewrite (proj2 (Z.leb_le 2 _)) by lia. cbn [assert_that mbind outcome_bind].
  rewrite (bb_iter8_eq pool_part_in (λ pp, pp.2 :: pp.1)) by (lia || intros b pp; unfold pool_part_in; by rewrite bb_u8_eq, bb_bytes_app).
  by rewrite bb_u8_eq, bb_bytes_app.
Qed.

Lemma reads_delegation d :
  delegation_ok d → reads deserialize_delegation_type d (delegation_bytes d).
Proof.
  unfold deserialize_delegation_type, read_array.
  destruct d as [|p|r]; cbn [delegation_bytes delegation_ok].
  - intros _. change [0] with ([0] ++ []). eapply reads_bind; [apply reads_u8|apply reads_ret].
  - intros Hl. change (1 :: p) with ([1] ++ p). eapply reads_bind; [apply reads_u8|].
    by apply reads_bind_ret, reads_slice_len.
  - intros (Hp & Hl & Hv). pose proof (ratio_valid_bounds r Hv) as [H1 H2].
    change (?a :: ?b :: ?l) with ([a] ++ [b] ++ l). eapply reads_bind; [apply reads_u8|].
    rewrite (proj2 (Z.eqb_neq _ 0)), (proj2 (Z.eqb_neq _ 1)) by lia.
    eapply reads_bind; [apply reads_u8|]. rewrite Nat2Z.id.
    rewrite (proj2 (Nat.ltb_ge _ _)) by (unfold DELEGATION_RATIO_MAX_DECLS; lia).
    rewrite <-(app_nil_r (concat _)). eapply reads_bind; [apply (reads_vec _ (λ pp : PoolId * Z, pp.2 :: pp.1))|].
    + intros [p v] Hin. rewrite Forall_forall in Hl. destruct (Hl _ Hin) as [Hpl _]. cbn in *.
      unfold pool_part_read, read_array. change (v :: p) with ([v] ++ p).
      eapply reads_bind; [apply reads_u8|]. by apply (reads_bind_ret _ (λ i, (i, v))), reads_slice_len.
    + rewrite ratio_new_is_valid. destruct r as [parts pools]. cbn [dr_parts dr_pools] in *.
      rewrite Hv. apply reads_ret.
Qed.

Lemma deserialize_delegation_valid b d b' :
  deserialize_delegation_type b = Ok (d, b') →
  match d with DRatio r => delegation_ratio_is_valid r = true | _ => True end.
Proof.
  unfold deserialize_delegation_type. rewrite reader_bind_eq. intros ([parts b1] & _ & Hp)%bind_Ok.
  revert Hp. destruct (parts =? 0); [by intros [= <- _]|]. destruct (parts =? 1).
  { rewrite reader_bind_eq. intros ([p b2] & _ & [= <- _])%bind_Ok. done. }
  rewrite reader_bind_eq. intros ([sz b2] & _ & Hs)%bind_Ok. revert Hs. destruct (_ <? _)%nat; [done|].
  rewrite reader_bind_eq. intros ([pools b3] & _ & Hr)%bind_Ok. revert Hr. rewrite ratio_new_is_valid.
  destruct (delegation_ratio_is_valid _) eqn:Ev; [|done]. by intros [= <- _].
Qed.

Lemma local_delegation : local deserialize_delegation_type.
Proof.
  assert (local pool_part_read) by (unfold pool_part_read, read_array; auto 10 with readers).
  unfold deserialize_delegation_type, read_array. apply local_bind; [auto with readers|]. intros parts.
  repeat (apply local_if; [auto with readers|]). apply local_bind; [auto with readers|]. intros sz.
  apply local_if; [auto with readers|]. apply local_bind; [auto with readers|]. intros pools.
  apply local_match_opt; auto with readers.
Qed.
#[export] Instance owner_delegation_local : PayloadLocal OwnerStakeDelegation.
Proof.
  pose proof local_delegation. split; cbn; [|apply local_ret].
  apply local_bind; [done|intros; apply local_ret].
Qed.

(** ** Certificates *)

(** The delegation certificates: a valid delegation is written without a panic
    and read back in both certificates; whatever is read is a valid delegation;
    but the binding signature of a received [StakeDelegation] panics the
    structure check when it carries the tag of a multisig signature. *)
Theorem delegation_certificates d acc sig b d' b' :
  (delegation_ok d → length acc = 32%nat → length sig = SIGNATURE_SIZE →
    payload_ok (mkOwnerDelegation d) ∧ payload_ok (mkStakeDelegation acc d) ∧
    payload_auth_ok (P := StakeDelegation) (ABSingle sig) ∧
    payload_data (mkStakeDelegation acc d) = Ok (acc ++ delegation_bytes d)) ∧
  (deserialize_delegation_type b = Ok (d', b') →
    match d' with DRatio r => delegation_ratio_is_valid r = true | _ => True end) ∧
  (∃ bytes, bytes_ok bytes ∧ tx_check StakeDelegation bytes = Panic).
Proof.
  split; [|split].
  - intros Hd Ha Hs.
    assert (payload_data (mkOwnerDelegation d) = Ok (delegation_bytes d)) as E1.
    { cbn. unfold owner_delegation_serialize_in, bb_sub_try. cbn [osd_delegation].
      by rewrite serialize_delegation_bytes. }
    assert (payload_data (mkStakeDelegation acc d) = Ok (acc ++ delegation_bytes d)) as E2.
    { cbn. unfold stake_delegation_serialize_in, bb_sub_try. cbn [sd_delegation sd_account_id].
      by rewrite serialize_delegation_bytes. }
    split_and!; try done.
    + intros _. unfold payload_bytes. rewrite E1. split; [done|].
      by apply (reads_bind_ret _ mkOwnerDelegation), reads_delegation.
    + intros _. unfold payload_bytes. rewrite E2. split; [done|]. cbn. unfold stake_delegation_read, read_array.
      eapply reads_bind; [by apply reads_slice_len|]. by apply (reads_bind_ret _ (mkStakeDelegation acc)), reads_delegation.
    + intros _. unfold payload_auth_bytes. cbn. split; [done|]. split; [|done].
      change (1 :: sig) with ([1] ++ sig). eapply reads_bind; [apply reads_u8|]. cbn.
      by apply reads_bind_ret, reads_signature.
  - apply deserialize_delegation_valid.
  - exists (replicate 43 0 ++ [2]). split; [|by vm_compute].
    refine (bool_decide_unpack (Forall u8_ok _) _). vm_compute. reflexivity.
Qed.

Lemma delegation_certificates_witness :
  payload_ok (mkOwnerDelegation (DRatio (mkDelegationRatio 3 [(replicate 32 1, 1); (replicate 32 2, 2)]))).
Proof.
  apply (delegation_certificates _ (replicate 32 0) (replicate 64 0) (rb_from []) NonDelegated (rb_from []));
    [|reflexivity..].
  split; [split; cbn; lia|]. split; [|reflexivity]. repeat constructor; cbn; lia.
Defined.
