(* ===== verification/Tokens.v ===== *)
(** * Native tokens ([tokens/*.rs], [certificate/mint_token.rs], [ledger/token_distribution.rs])

    Token names and identifiers with their wire forms, minting policies, the
    minting certificate, and the totals of every token.  A minting policy is a
    list of entries of a type without values: it is always empty. *)
From S2P Require Import Prelude Codec Key Value HamtSpec Spending Account Addr Input Transaction TransactionSpec PoolCert PoolCertSpec.
Local Open Scope Z_scope.

(** ** [name.rs] and [policy_hash.rs] *)
Definition TOKEN_NAME_MAX_SIZE : nat := 32.
Abbreviation TokenName := (list Z).
Definition token_name_try_from (value : list Z) : outcome nat TokenName :=
  if (TOKEN_NAME_MAX_SIZE <? length value)%nat then Err (length value) else Ok value.
Definition token_name_bytes (n : TokenName) : list Z :=
  bb_finalize_as_vec (bb_bytes (bb_u8 bb_new (wrap 8 (Z.of_nat (length n)))) n).
Definition token_name_serialize (w : list Z) (n : TokenName) : list Z :=
  codec_put_bytes (codec_put_u8 w (wrap 8 (Z.of_nat (length n)))) n.
Definition token_name_read : Reader TokenName :=
  name_length ← get_u8;
  if (TOKEN_NAME_MAX_SIZE <? Z.to_nat name_length)%nat
  then read_fail (SizeTooBig TOKEN_NAME_MAX_SIZE (Z.to_nat name_length))
  else get_slice (Z.to_nat name_length).

Definition POLICY_HASH_SIZE : nat := 28.
Abbreviation PolicyHash := (list Z).
Definition policy_hash_read : Reader PolicyHash :=
  bytes ← get_slice POLICY_HASH_SIZE;
  if (length bytes =? POLICY_HASH_SIZE)%nat then mret bytes else read_fun (λ _, Panic).

(** ** [minting_policy.rs] *)
Inductive MintingPolicyEntry := .
Abbreviation MintingPolicy := (list MintingPolicyEntry).
Inductive MintingPolicyViolation := AdditionalMintingNotAllowed.
Definition minting_policy_new : MintingPolicy := [].
Definition check_minting_tx (p : MintingPolicy) : outcome MintingPolicyViolation unit :=
  match p with [] => Err AdditionalMintingNotAllowed | _ :: _ => Panic end.
Definition minting_policy_bytes (p : MintingPolicy) : list Z := bb_finalize_as_vec (bb_u8 bb_new 0).
Definition minting_policy_serialize (w : list Z) (p : MintingPolicy) : list Z := codec_put_u8 w 0.
Definition minting_policy_read : Reader MintingPolicy :=
  no_entries ← get_u8;
  if negb (no_entries =? 0)
  then read_fail (InvalidData "non-zero number of minting policy entries, but they are currently unimplemented")
  else mret minting_policy_new.
(** [blake2b] with 28 bytes of digest is the parameter [blake2b_224]. *)
Definition minting_policy_hash (blake2b_224 : list Z → PolicyHash) (p : MintingPolicy) : PolicyHash :=
  match p with
  | [] => replicate POLICY_HASH_SIZE 0
  | _ :: _ => blake2b_224 (minting_policy_bytes p)
  end.

(** ** [identifier.rs] *)
Record TokenIdentifier := mkToken { policy_hash : PolicyHash; token_name : TokenName }.
#[export] Instance TokenIdentifier_eq_dec : EqDecision TokenIdentifier.
Proof. solve_decision. Defined.
#[export] Instance TokenIdentifier_countable : Countable TokenIdentifier.
Proof.
  refine (inj_countable' (λ t, (policy_hash t, token_name t)) (λ p, mkToken p.1 p.2) _). by intros [].
Defined.
Definition token_identifier_bytes (t : TokenIdentifier) : list Z :=
  bb_finalize_as_vec
    (bb_bytes (bb_u8 (bb_bytes bb_new (policy_hash t)) (wrap 8 (Z.of_nat (length (token_name t)))))
       (token_name t)).
Definition token_identifier_read : Reader TokenIdentifier :=
  policy_hash ← policy_hash_read; token_name ← token_name_read; mret (mkToken policy_hash token_name).

(** ** [mint_token.rs] *)
Record MintToken := mkMint { mt_name : TokenName; mt_policy : MintingPolicy; mt_to : PublicKey; mt_value : Value }.
Definition mint_token_serialize_in (m : MintToken) (bb : ByteBuilder) : ByteBuilder :=
  let bb := bb_bytes (bb_u8 bb (wrap 8 (Z.of_nat (length (mt_name m))))) (mt_name m) in
  bb_bytes (bb_bytes (bb_bytes bb (minting_policy_bytes (mt_policy m))) (mt_to m)) (value_bytes (mt_value m)).
Definition mint_token_serialize (w : list Z) (m : MintToken) : list Z :=
  value_serialize (codec_put_bytes
    (minting_policy_serialize (token_name_serialize w (mt_name m)) (mt_policy m)) (mt_to m)) (mt_value m).
Definition mint_token_read : Reader MintToken :=
  name ← token_name_read;
  policy ← minting_policy_read;
  to ← deserialize_public_key;
  value ← value_read;
  mret (mkMint name policy to value).
#[export] Instance mint_token_payload : Payload MintToken := {|
  HAS_DATA := true; HAS_AUTH := false; Auth := unit;
  payload_read := mint_token_read; auth_read := mret ();
  payload_data := λ m, Ok (bb_finalize_as_vec (mint_token_serialize_in m bb_new));
  payload_auth_data := λ _, Ok [];
  payload_to_certificate_slice := λ _, Some CMintToken |}.

(** ** [token_distribution.rs] *)
Abbreviation TokenTotals := (gmap TokenIdentifier Value).
Definition totals_add (t : TokenTotals) (token : TokenIdentifier) (value : Value) :
    outcome ValueError TokenTotals :=
  hm_insert_or_update t token value (λ v, Some <$> value_add v value).
Definition totals_get_total (t : TokenTotals) (token : TokenIdentifier) : option Value := t !! token.

Section distribution.
Context {PoolId Extra : Type} `{EqDecision PoolId}.
Abbreviation Accounts := (gmap PublicKey (AccountState PoolId TokenIdentifier Extra)).

Record TokenDistribution := mkTokenDistribution {
  td_totals : TokenTotals; td_accounts : Accounts; td_token : TokenIdentifier }.
Definition distribution_get_total (d : TokenDistribution) : Value :=
  default value_zero (totals_get_total (td_totals d) (td_token d)).
Definition distribution_get_account (d : TokenDistribution) (account : PublicKey) : option Value :=
  st ← td_accounts d !! account; tokens st !! td_token d.
End distribution.
#[global] Arguments TokenDistribution : clear implicits.

(** ** Formats *)
Definition token_name_ok (n : TokenName) : Prop := (length n ≤ TOKEN_NAME_MAX_SIZE)%nat.

Lemma wrap8_len n : (n ≤ 32)%nat → wrap 8 (Z.of_nat n) = Z.of_nat n.
Proof. intros Hn. apply wrap_small. unfold in_u. lia. Qed.

Lemma reads_token_name n : token_name_ok n → reads token_name_read n (token_name_bytes n).
Proof.
  unfold token_name_ok, TOKEN_NAME_MAX_SIZE. intros Hn. unfold token_name_read, token_name_bytes, bb_finalize_as_vec.
  cbn [bb_buffer bb_bytes bb_u8 bb_new app]. rewrite wrap8_len by done.
  change (?x :: ?l) with ([x] ++ l). eapply reads_bind; [apply reads_u8|]. rewrite Nat2Z.id.
  rewrite (proj2 (Nat.ltb_ge _ _)) by (unfold TOKEN_NAME_MAX_SIZE; lia). by apply reads_slice_len.
Qed.
Lemma reads_policy_hash h : length h = POLICY_HASH_SIZE → reads policy_hash_read h h.
Proof.
  intros Hl. unfold policy_hash_read. rewrite <-(app_nil_r h) at 2.
  eapply reads_bind; [by apply reads_slice_len|]. rewrite Hl. apply reads_ret.
Qed.
Lemma policy_empty (p : MintingPolicy) : p = [].
Proof. by destruct p as [|[] p]. Qed.

(** Token identifiers and minting certificates read back from what they are
    written as, names of up to 32 bytes only are read, and no minting
    transaction is ever allowed: every policy is empty, so the supply of a
    token is what block 0 mints. *)
Theorem token_formats t m b n b' :
  (length (policy_hash t) = POLICY_HASH_SIZE → token_name_ok (token_name t) →
    reads token_identifier_read t (token_identifier_bytes t)) ∧
  (token_name_ok (mt_name m) → length (mt_to m) = PUBLIC_KEY_SIZE → u64_ok (mt_value m) →
    payload_ok m ∧ mint_token_serialize [] m = payload_bytes m) ∧
  (token_name_read b = Ok (n, b') → token_name_ok n) ∧
  check_minting_tx (mt_policy m) = Err AdditionalMintingNotAllowed.
Proof.
  split_and!.
  - intros Hp Hn. unfold token_identifier_bytes, bb_finalize_as_vec.
    cbn [bb_buffer bb_bytes bb_u8 bb_new app]. rewrite <-app_assoc.
    unfold token_identifier_read. eapply reads_bind; [by apply reads_policy_hash|].
    destruct t as [h nm]. by apply (reads_bind_ret _ (mkToken h)), reads_token_name.
  - intros Hn Ht Hv. destruct m as [nm p to v]. rewrite (policy_empty p).
    cbn [mt_name mt_to mt_value] in *.
    assert (payload_bytes (mkMint nm [] to v) = token_name_bytes nm ++ [0] ++ to ++ value_bytes v) as E.
    { unfold payload_bytes. cbn. by rewrite <-?app_assoc. }
    split; [|rewrite E; cbn [mt_policy]; unfold mint_token_serialize, value_serialize, codec_put_be, codec_put_bytes; cbn;
      by rewrite <-?app_assoc].
    intros _. split; [done|]. rewrite E. cbn [payload_read mint_token_payload]. unfold mint_token_read.
    eapply reads_bind; [by apply reads_token_name|].
    eapply reads_bind; [change [0] with ([0] ++ []); eapply reads_bind; [apply reads_u8|apply reads_ret]|].
    eapply reads_bind; [by apply reads_public_key|]. unfold value_read, value_bytes.
    by apply (reads_bind_ret _ (mkMint nm minting_policy_new to)), reads_u64.
  - unfold token_name_read, token_name_ok. rewrite reader_bind_eq. intros ([l b1] & _ & Hr)%bind_Ok. revert Hr.
    destruct (Nat.ltb_spec TOKEN_NAME_MAX_SIZE (Z.to_nat l)) as [|Hle]; [done|].
    unfold get_slice. rewrite reader_bind_eq. intros ([[] b2] & _ & Hs)%bind_Ok. revert Hs. cbn.
    unfold read_fun, slice_range. intros (s & Hs & [= <- _])%bind_Ok. revert Hs.
    case_match; [|done]. intros [= <-]. rewrite length_take, length_drop. lia.
  - by rewrite (policy_empty (mt_policy m)).
Qed.

Lemma token_formats_witness :
  payload_ok (mkMint [1; 2] [] (replicate 32 7) 100) ∧
  reads token_identifier_read (mkToken (replicate 28 0) [1; 2]) (token_identifier_bytes (mkToken (replicate 28 0) [1; 2])).
Proof.
  destruct (token_formats (mkToken (replicate 28 0) [1; 2]) (mkMint [1; 2] [] (replicate 32 7) 100)
    (rb_from []) [] (rb_from [])) as (H1 & H2 & _).
  split; [apply H2|apply H1]; try reflexivity; try (unfold token_name_ok, TOKEN_NAME_MAX_SIZE; cbn; lia).
  unfold in_u; cbn; lia.
Defined.
