(* ===== verification/Governance.v ===== *)
(** * Vote options and governance ([vote/choice.rs], [ledger/governance/*.rs])

    The options of a vote, and the criteria a proposal has to meet before its
    action on the treasury or on the parameters of the ledger is carried out. *)
From S2P Require Import Prelude Codec Key Value Rewards HamtSpec.
Local Open Scope Z_scope.

(** ** [choice.rs] *)
Abbreviation Choice := Z.
(** [Range<u8>]: from [start] to [end], excluded. *)
Record Options := mkOptions { options_start : Z; options_end : Z }.
#[export] Instance Options_eq_dec : EqDecision Options.
Proof. solve_decision. Defined.
Inductive InvalidOptionsLength := InvalidOptions (num_choices : Z).
Definition NUM_CHOICES_MAX : Z := 16.
Definition options_new_length (num_choices : Z) : outcome InvalidOptionsLength Options :=
  if (0 <? num_choices) && (num_choices <=? NUM_CHOICES_MAX) then Ok (mkOptions 0 num_choices)
  else Err (InvalidOptions num_choices).
Definition options_as_byte (o : Options) : Z := options_end o.
Definition options_validate (o : Options) (choice : Choice) : bool :=
  (options_start o <=? choice) && (choice <? options_end o).
(** [Range::len]. *)
Definition options_len (o : Options) : nat := Z.to_nat (options_end o - options_start o).

(** ** Actions and their types *)
Inductive TreasuryGovernanceAction := TNoOp | TransferToRewards (value : Value).
Inductive TreasuryGovernanceActionType := TTNoOp | TTTransferToRewards.
Inductive ParametersGovernanceAction := PNoOp | RewardAdd (value : Value).
Inductive ParametersGovernanceActionType := PTNoOp | PTRewardAdd.
#[export] Instance TreasuryGovernanceActionType_eq_dec : EqDecision TreasuryGovernanceActionType.
Proof. solve_decision. Defined.
#[export] Instance ParametersGovernanceActionType_eq_dec : EqDecision ParametersGovernanceActionType.
Proof. solve_decision. Defined.
#[export] Instance TreasuryGovernanceActionType_countable : Countable TreasuryGovernanceActionType.
Proof.
  refine (inj_countable' (λ t, match t with TTNoOp => false | _ => true end)
    (λ b, if b : bool then TTTransferToRewards else TTNoOp) _). by intros [].
Defined.
#[export] Instance ParametersGovernanceActionType_countable : Countable ParametersGovernanceActionType.
Proof.
  refine (inj_countable' (λ t, match t with PTNoOp => false | _ => true end)
    (λ b, if b : bool then PTRewardAdd else PTNoOp) _). by intros [].
Defined.

Definition treasury_to_type (a : TreasuryGovernanceAction) : TreasuryGovernanceActionType :=
  match a with TNoOp => TTNoOp | TransferToRewards _ => TTTransferToRewards end.
Definition treasury_action_serialize_in (a : TreasuryGovernanceAction) (bb : ByteBuilder) : ByteBuilder :=
  match a with TNoOp => bb_u8 bb 0 | TransferToRewards value => bb_u64 (bb_u8 bb 1) value end.
Definition treasury_action_read : Reader TreasuryGovernanceAction :=
  t ← get_u8;
  if t =? 0 then mret TNoOp
  else if t =? 1 then value ← value_read; mret (TransferToRewards value)
  else read_fail (UnknownTag t).
Definition parameters_to_type (a : ParametersGovernanceAction) : ParametersGovernanceActionType :=
  match a with PNoOp => PTNoOp | RewardAdd _ => PTRewardAdd end.
Definition parameters_action_serialize_in (a : ParametersGovernanceAction) (bb : ByteBuilder) : ByteBuilder :=
  match a with PNoOp => bb_u8 bb 0 | RewardAdd value => bb_u64 (bb_u8 bb 1) value end.
Definition parameters_action_read : Reader ParametersGovernanceAction :=
  t ← get_u8;
  if t =? 0 then mret PNoOp
  else if t =? 1 then value ← value_read; mret (RewardAdd value)
  else read_fail (UnknownTag t).

(** ** Criteria *)
Record GovernanceAcceptanceCriteria := mkCriteria {
  minimum_stake_participation : option Ratio;
  minimum_approval : option Ratio;
  blank : Choice;
  favorable : Choice;
  rejection : Choice;
  gc_options : Options }.
Definition criteria_default : GovernanceAcceptanceCriteria :=
  mkCriteria (Some (mkRatio 30 100)) (Some (mkRatio 50 100)) 0 1 2
    (match options_new_length 3 with Ok o => o | _ => mkOptions 0 0 end).

Record TreasuryGovernance := mkTreasuryGov {
  tg_per_action : gmap TreasuryGovernanceActionType GovernanceAcceptanceCriteria;
  tg_default : GovernanceAcceptanceCriteria }.
Record ParametersGovernance := mkParametersGov {
  pg_per_action : gmap ParametersGovernanceActionType GovernanceAcceptanceCriteria;
  pg_default : GovernanceAcceptanceCriteria;
  logs : list ParametersGovernanceAction }.
Record Governance := mkGovernance { gov_treasury : TreasuryGovernance; gov_parameters : ParametersGovernance }.

Definition treasury_gov_new : TreasuryGovernance := mkTreasuryGov ∅ criteria_default.
Definition parameters_gov_new : ParametersGovernance := mkParametersGov ∅ criteria_default [].
Definition governance_default : Governance := mkGovernance treasury_gov_new parameters_gov_new.

Definition treasury_set_default (g : TreasuryGovernance) (new : GovernanceAcceptanceCriteria) :
    TreasuryGovernance * GovernanceAcceptanceCriteria := (mkTreasuryGov (tg_per_action g) new, tg_default g).
Definition treasury_set_acceptance (g : TreasuryGovernance) (action : TreasuryGovernanceActionType)
    (criteria : GovernanceAcceptanceCriteria) : TreasuryGovernance :=
  mkTreasuryGov (hm_insert_or_update_simple (tg_per_action g) action criteria (λ _, Some criteria)) (tg_default g).
Definition treasury_criteria_for (g : TreasuryGovernance) (action : TreasuryGovernanceActionType) :
    GovernanceAcceptanceCriteria := default (tg_default g) (tg_per_action g !! action).
Definition parameters_set_default (g : ParametersGovernance) (new : GovernanceAcceptanceCriteria) :
    ParametersGovernance * GovernanceAcceptanceCriteria :=
  (mkParametersGov (pg_per_action g) new (logs g), pg_default g).
Definition parameters_set_acceptance (g : ParametersGovernance) (action : ParametersGovernanceActionType)
    (criteria : GovernanceAcceptanceCriteria) : ParametersGovernance :=
  mkParametersGov (hm_insert_or_update_simple (pg_per_action g) action criteria (λ _, Some criteria))
    (pg_default g) (logs g).
Definition parameters_criteria_for (g : ParametersGovernance) (action : ParametersGovernanceActionType) :
    GovernanceAcceptanceCriteria := default (pg_default g) (pg_per_action g !! action).
Definition logs_clear (g : ParametersGovernance) : ParametersGovernance :=
  mkParametersGov (pg_per_action g) (pg_default g) [].
Definition logs_register (g : ParametersGovernance) (action : ParametersGovernanceAction) : ParametersGovernance :=
  mkParametersGov (pg_per_action g) (pg_default g) (logs g ++ [action]).

(** ** Formats *)
Lemma options_new_length_Ok n o :
  options_new_length n = Ok o ↔ 0 < n ≤ 16 ∧ o = mkOptions 0 n.
Proof.
  unfold options_new_length, NUM_CHOICES_MAX.
  destruct (Z.ltb_spec 0 n), (Z.leb_spec n 16); cbn; naive_solver lia.
Qed.

Definition treasury_action_bytes (a : TreasuryGovernanceAction) : list Z :=
  match a with TNoOp => [0] | TransferToRewards v => 1 :: be_bytes 8 v end.
Definition parameters_action_bytes (a : ParametersGovernanceAction) : list Z :=
  match a with PNoOp => [0] | RewardAdd v => 1 :: be_bytes 8 v end.
Definition treasury_action_ok (a : TreasuryGovernanceAction) : Prop :=
  match a with TNoOp => True | TransferToRewards v => u64_ok v end.
Definition parameters_action_ok (a : ParametersGovernanceAction) : Prop :=
  match a with PNoOp => True | RewardAdd v => u64_ok v end.

Lemma reads_treasury_action a :
  treasury_action_ok a → reads treasury_action_read a (treasury_action_bytes a).
Proof.
  unfold treasury_action_read. destruct a as [|v]; cbn [treasury_action_ok treasury_action_bytes]; intros Hv.
  - change [0] with ([0] ++ []). eapply reads_bind; [apply reads_u8|apply reads_ret].
  - change (1 :: ?l) with ([1] ++ l). eapply reads_bind; [apply reads_u8|]. by apply reads_bind_ret, reads_u64.
Qed.
Lemma reads_parameters_action a :
  parameters_action_ok a → reads parameters_action_read a (parameters_action_bytes a).
Proof.
  unfold parameters_action_read. destruct a as [|v]; cbn [parameters_action_ok parameters_action_bytes]; intros Hv.
  - change [0] with ([0] ++ []). eapply reads_bind; [apply reads_u8|apply reads_ret].
  - change (1 :: ?l) with ([1] ++ l). eapply reads_bind; [apply reads_u8|]. by apply reads_bind_ret, reads_u64.
Qed.
Lemma local_treasury_action : local treasury_action_read.
Proof. assert (local value_read) by apply local_slice_map. unfold treasury_action_read. auto 10 with readers. Qed.
Lemma local_parameters_action : local parameters_action_read.
Proof. assert (local value_read) by apply local_slice_map. unfold parameters_action_read. auto 10 with readers. Qed.
#[export] Hint Resolve local_treasury_action local_parameters_action : readers.
