(* ===== verification/VoteCert.v ===== *)
(** * Voting certificates ([certificate/{vote_plan,vote_cast,vote_tally,encrypted_vote_tally}.rs], [vote/payload.rs])

    Vote plans with their proposals, the votes cast, and the two certificates
    of a tally.  The encryption scheme of private votes is an interface: its
    keys, ciphertexts, proofs and shares, their encodings, and the operations
    the ledger calls. *)
From stdpp Require Import pretty.
From S2P Require Import Prelude Codec Key Value Time Addr Input Transaction PoolCert Tokens Config Governance.
Local Open Scope Z_scope.

(** What the vote ledger uses of [chain_vote]. *)
Class Election := {
  Crs : Type; ElectionPublicKey : Type; MemberPublicKey : Type; Ciphertext : Type;
  ProofOfCorrectVote : Type; Ballot : Type; EncryptedTally : Type; TallyDecryptShare : Type;
  BallotVerificationError : Type;
  CIPHERTEXT_LEN : nat;
  ciphertext_to_bytes : Ciphertext → list Z;
  ciphertext_from_bytes : list Z → option Ciphertext;
  proof_bytes : ProofOfCorrectVote → list Z;
  proof_read : Reader ProofOfCorrectVote;
  MEMBER_KEY_LEN : nat;
  member_key_to_bytes : MemberPublicKey → list Z;
  member_key_from_bytes : list Z → option MemberPublicKey;
  share_bytes_len : nat → nat;
  share_to_bytes : TallyDecryptShare → list Z;
  share_from_bytes : list Z → option TallyDecryptShare;
  share_options : TallyDecryptShare → nat;
  crs_from_hash : list Z → Crs;
  election_key_from_participants : list MemberPublicKey → ElectionPublicKey;
  ballot_try_from : list Ciphertext → ProofOfCorrectVote → Crs → ElectionPublicKey →
    outcome BallotVerificationError Ballot;
  encrypted_tally_new : nat → ElectionPublicKey → Crs → EncryptedTally;
  encrypted_tally_add : EncryptedTally → Ballot → Z → EncryptedTally;
  tally_verify : list Z → EncryptedTally → list MemberPublicKey → list TallyDecryptShare → bool }.

(** ** [payload.rs] *)
Inductive PayloadType := PayPublic | PayPrivate.
#[export] Instance PayloadType_eq_dec : EqDecision PayloadType.
Proof. solve_decision. Defined.
Definition payload_type_byte (t : PayloadType) : Z := match t with PayPublic => 1 | PayPrivate => 2 end.
Inductive TryFromIntError := FromZero | FromInvalidValue (value : Z).
Definition try_from_int_display (e : TryFromIntError) : string :=
  match e with
  | FromZero => "Found a `0` PayloadType. This is unexpected and known to be an error to read a 0."
  | FromInvalidValue _ => "invalid value for a PayloadType"
  end.
Definition payload_type_try_from (value : Z) : outcome TryFromIntError PayloadType :=
  if value =? 0 then Err FromZero else if value =? 1 then Ok PayPublic else if value =? 2 then Ok PayPrivate
  else Err (FromInvalidValue value).
Definition payload_type_read : Reader PayloadType :=
  v ← get_u8; reader_of (λ e, StructureInvalid (try_from_int_display e)) (payload_type_try_from v).

(** ** Identifiers and proofs of the committee *)
Abbreviation VotePlanId := (list Z).
Abbreviation ExternalProposalId := (list Z).
Definition committee_read : Reader CommitteeId :=
  slice ← get_slice COMMITTEE_ID_SIZE;
  match committee_try_from slice with
  | Some c => mret c
  | None => read_fail (StructureInvalid ("Not enough bytes, expected " +:+ pretty COMMITTEE_ID_SIZE
                         +:+ " but received " +:+ pretty (length slice)))
  end.
(** [CommitteeId::public_key]: expects a valid key. *)
Definition committee_public_key (id : CommitteeId) : outcome infallible PublicKey :=
  unwrap (public_from_binary id).
Record CommitteeProof := mkCommitteeProof { cp_id : CommitteeId; cp_signature : list Z }.
Definition committee_proof_bytes (p : CommitteeProof) : list Z := cp_id p ++ cp_signature p.
Definition committee_proof_serialize_in (p : CommitteeProof) (bb : ByteBuilder) : ByteBuilder :=
  bb_bytes (bb_bytes bb (cp_id p)) (cp_signature p).
Definition committee_proof_read : Reader CommitteeProof :=
  id ← committee_read; signature ← single_binding_read; mret (mkCommitteeProof id signature).

(** ** [vote_plan.rs] *)
Inductive VoteAction :=
| OffChain | VTreasury (action : TreasuryGovernanceAction) | VParameters (action : ParametersGovernanceAction).
Record Proposal := mkProposal { external_id : ExternalProposalId; prop_options : Options; prop_action : VoteAction }.
Abbreviation Proposals := (list Proposal).
Definition PROPOSALS_MAX_LEN : nat := 255.
Definition proposals_full (p : Proposals) : bool := (PROPOSALS_MAX_LEN <=? length p)%nat.
(** [push]: the proposals and whether it was a success. *)
Definition proposals_push (p : Proposals) (x : Proposal) : Proposals * bool :=
  if proposals_full p then (p, false) else (p ++ [x], true).

Definition proposal_check_governance (g : Governance) (p : Proposal) : bool :=
  match prop_action p with
  | OffChain => true
  | VParameters action =>
      bool_decide (gc_options (parameters_criteria_for (gov_parameters g) (parameters_to_type action)) = prop_options p)
  | VTreasury action =>
      bool_decide (gc_options (treasury_criteria_for (gov_treasury g) (treasury_to_type action)) = prop_options p)
  end.
Definition vote_action_serialize_in (a : VoteAction) (bb : ByteBuilder) : ByteBuilder :=
  match a with
  | OffChain => bb_u8 bb 0
  | VTreasury action => bb_sub (bb_u8 bb 1) (treasury_action_serialize_in action)
  | VParameters action => bb_sub (bb_u8 bb 2) (parameters_action_serialize_in action)
  end.
Definition proposal_serialize_in (bb : ByteBuilder) (p : Proposal) : ByteBuilder :=
  bb_sub (bb_u8 (bb_bytes bb (external_id p)) (options_as_byte (prop_options p)))
    (vote_action_serialize_in (prop_action p)).
Definition vote_action_read : Reader VoteAction :=
  t ← get_u8;
  if t =? 0 then mret OffChain
  else if t =? 1 then action ← treasury_action_read; mret (VTreasury action)
  else if t =? 2 then action ← parameters_action_read; mret (VParameters action)
  else read_fail (UnknownTag t).
Definition invalid_options_display (e : InvalidOptionsLength) : string :=
  match e with InvalidOptions n => "Invalid multi choice option " +:+ pretty n end.
Definition options_read : Reader Options :=
  num_choices ← get_u8;
  reader_of (λ e, StructureInvalid (invalid_options_display e)) (options_new_length num_choices).
Definition proposal_read : Reader Proposal :=
  external_id ← read_array 32; options ← options_read; action ← vote_action_read;
  mret (mkProposal external_id options action).

Section certificates.
Context `{Election}.

Record VotePlan := mkVotePlan {
  vote_start : BlockDate; vote_end : BlockDate; committee_end : BlockDate;
  proposals : Proposals;
  vp_payload_type : PayloadType;
  committee_public_keys : list MemberPublicKey;
  voting_token : TokenIdentifier }.
Definition check_governance (p : VotePlan) (g : Governance) : bool :=
  forallb (proposal_check_governance g) (proposals p).
Definition is_governance (p : VotePlan) : bool :=
  existsb (λ x, match prop_action x with OffChain => false | _ => true end) (proposals p).
Definition committee_start (p : VotePlan) : BlockDate := vote_end p.
Definition vote_started (p : VotePlan) (date : BlockDate) : bool := date_le (vote_start p) date.
Definition vote_finished (p : VotePlan) (date : BlockDate) : bool := date_le (vote_end p) date.
Definition plan_can_vote (p : VotePlan) (date : BlockDate) : bool :=
  vote_started p date && negb (vote_finished p date).
Definition committee_started (p : VotePlan) (date : BlockDate) : bool := date_le (vote_end p) date.
Definition committee_finished (p : VotePlan) (date : BlockDate) : bool := date_le (committee_end p) date.
Definition committee_time (p : VotePlan) (date : BlockDate) : bool :=
  committee_started p date && negb (committee_finished p date).

Definition date_serialize_in (bb : ByteBuilder) (d : BlockDate) : ByteBuilder :=
  bb_u32 (bb_u32 bb (date_epoch d)) (date_slot_id d).
Definition vote_plan_serialize_in (p : VotePlan) (bb : ByteBuilder) : outcome infallible ByteBuilder :=
  let bb := date_serialize_in (date_serialize_in (date_serialize_in bb (vote_start p)) (vote_end p)) (committee_end p) in
  bb ← bb_iter8 (bb_u8 bb (payload_type_byte (vp_payload_type p))) (proposals p) proposal_serialize_in;
  bb ← bb_iter8 bb (committee_public_keys p) (λ bb key, bb_bytes bb (member_key_to_bytes key));
  Ok (bb_bytes bb (token_identifier_bytes (voting_token p))).
Definition vote_plan_serialize (p : VotePlan) : outcome infallible (list Z) :=
  bb ← vote_plan_serialize_in p bb_new; bb_finalize bb.
Definition vote_plan_to_id (hash_bytes : list Z → list Z) (p : VotePlan) : outcome infallible VotePlanId :=
  ba ← vote_plan_serialize p; Ok (hash_bytes ba).
Definition date_read : Reader BlockDate := epoch ← get_u32; slot_id ← get_u32; mret (mkDate epoch slot_id).
Definition member_key_read : Reader MemberPublicKey :=
  key_buf ← get_slice MEMBER_KEY_LEN;
  match member_key_from_bytes key_buf with
  | Some k => mret k
  | None => read_fail (StructureInvalid "invalid public key format")
  end.
Definition vote_plan_read : Reader VotePlan :=
  vote_start ← date_read; vote_end ← date_read; committee_end ← date_read;
  payload_type ← payload_type_read;
  proposal_size ← get_u8;
  proposals ← read_vec proposal_read (Z.to_nat proposal_size);
  member_keys_len ← get_u8;
  committee_public_keys ← read_vec member_key_read (Z.to_nat member_keys_len);
  voting_token ← token_identifier_read;
  mret (mkVotePlan vote_start vote_end committee_end proposals payload_type committee_public_keys voting_token).

(** ** [vote_cast.rs] *)
Inductive VotePayload :=
| VPublic (choice : Choice)
| VPrivate (encrypted_vote : list Ciphertext) (proof : ProofOfCorrectVote).
Definition vote_payload_type (p : VotePayload) : PayloadType :=
  match p with VPublic _ => PayPublic | VPrivate _ _ => PayPrivate end.
Record VoteCast := mkVoteCast { vc_vote_plan : VotePlanId; proposal_index : Z; vc_payload : VotePayload }.
Definition encrypted_vote_serialize_in (v : list Ciphertext) (bb : ByteBuilder) : outcome infallible ByteBuilder :=
  bb_iter8 bb v (λ bb ct, bb_bytes bb (ciphertext_to_bytes ct)).
Definition vote_payload_serialize_in (p : VotePayload) (bb : ByteBuilder) : outcome infallible ByteBuilder :=
  let bb := bb_u8 bb (payload_type_byte (vote_payload_type p)) in
  match p with
  | VPublic choice => Ok (bb_u8 bb choice)
  | VPrivate encrypted_vote proof =>
      bb ← bb_sub_try bb (encrypted_vote_serialize_in encrypted_vote);
      Ok (bb_sub bb (λ bb, bb_bytes bb (proof_bytes proof)))
  end.
Definition ciphertext_read : Reader Ciphertext :=
  ct_buf ← get_slice CIPHERTEXT_LEN;
  match ciphertext_from_bytes ct_buf with
  | Some c => mret c
  | None => read_fail (StructureInvalid "Invalid private vote")
  end.
Definition encrypted_vote_read : Reader (list Ciphertext) :=
  len ← get_u8; read_vec ciphertext_read (Z.to_nat len).
Definition vote_payload_read : Reader VotePayload :=
  t ← payload_type_read;
  match t with
  | PayPublic => choice ← get_u8; mret (VPublic choice)
  | PayPrivate => encrypted_vote ← encrypted_vote_read; proof ← proof_read; mret (VPrivate encrypted_vote proof)
  end.
Definition vote_cast_serialize_in (c : VoteCast) (bb : ByteBuilder) : outcome infallible ByteBuilder :=
  vote_payload_serialize_in (vc_payload c) (bb_u8 (bb_bytes bb (vc_vote_plan c)) (proposal_index c)).
Definition vote_cast_read : Reader VoteCast :=
  vote_plan ← read_array 32; proposal_index ← get_u8; payload ← vote_payload_read;
  mret (mkVoteCast vote_plan proposal_index payload).

(** ** [vote_tally.rs] *)
Record DecryptedPrivateTallyProposal := mkDecrypted {
  decrypt_shares : list TallyDecryptShare; tally_result : list Z }.
Abbreviation DecryptedPrivateTally := (list DecryptedPrivateTallyProposal).
Inductive VoteTallyPayload := VTPublic | VTPrivate (inner : DecryptedPrivateTally).
Record VoteTally := mkVoteTally { vt_id : VotePlanId; vt_payload : VoteTallyPayload }.
Inductive TallyProof := TPPublic (p : CommitteeProof) | TPPrivate (p : CommitteeProof).
Definition tally_type (t : VoteTally) : PayloadType :=
  match vt_payload t with VTPublic => PayPublic | VTPrivate _ => PayPrivate end.
Definition tally_decrypted (t : VoteTally) : option DecryptedPrivateTally :=
  match vt_payload t with VTPublic => None | VTPrivate inner => Some inner end.
Definition decrypted_private_tally_new (ps : list DecryptedPrivateTallyProposal) : option DecryptedPrivateTally :=
  if forallb (λ p, match decrypt_shares p with
                   | first_share :: shares =>
                       forallb (λ s, (share_options s =? share_options first_share)%nat) shares
                   | [] => true
                   end) ps
  then Some ps else None.
Definition as_u8 (n : nat) : outcome infallible Z :=
  assert_that (n <? 256)%nat ;; Ok (Z.of_nat n).
Definition decrypted_proposal_serialize_in (bb : ByteBuilder) (p : DecryptedPrivateTallyProposal) :
    outcome infallible ByteBuilder :=
  n_members ← as_u8 (length (decrypt_shares p));
  if n_members =? 0 then Ok (bb_u8 (bb_u8 bb 0) 0)
  else
    n_options ← as_u8 (length (tally_result p));
    let bb := bb_u8 (bb_u8 bb n_members) n_options in
    let bb := bb_fold bb (decrypt_shares p) (λ bb s, bb_bytes bb (share_to_bytes s)) in
    Ok (bb_fold bb (tally_result p) bb_u64).
Definition vote_tally_serialize_in (t : VoteTally) (bb : ByteBuilder) : outcome infallible ByteBuilder :=
  let bb := bb_u8 (bb_bytes bb (vt_id t)) (payload_type_byte (tally_type t)) in
  match vt_payload t with
  | VTPublic => Ok bb
  | VTPrivate ps =>
      n ← as_u8 (length ps); foldM decrypted_proposal_serialize_in (bb_u8 bb n) ps
  end.
Definition tally_proof_serialize_in (p : TallyProof) (bb : ByteBuilder) : ByteBuilder :=
  match p with
  | TPPublic p => bb_bytes (bb_bytes (bb_u8 bb 0) (cp_id p)) (cp_signature p)
  | TPPrivate p => bb_bytes (bb_bytes (bb_u8 bb 1) (cp_id p)) (cp_signature p)
  end.
Definition tally_proof_read : Reader TallyProof :=
  t ← get_u8;
  if t =? 0 then p ← committee_proof_read; mret (TPPublic p)
  else if t =? 1 then p ← committee_proof_read; mret (TPPrivate p)
  else read_fail (StructureInvalid "Unknown Tally proof type").
Definition share_read (options_number : nat) : Reader TallyDecryptShare :=
  s_buf ← get_slice (share_bytes_len options_number);
  match share_from_bytes s_buf with
  | Some s => mret s
  | None => read_fail (StructureInvalid "invalid decrypt share structure")
  end.
Definition decrypted_proposal_read : Reader DecryptedPrivateTallyProposal :=
  shares_number ← get_u8;
  options_number ← get_u8;
  shares ← read_vec (share_read (Z.to_nat options_number)) (Z.to_nat shares_number);
  decrypted ← read_vec get_u64 (Z.to_nat options_number);
  mret (mkDecrypted shares decrypted).
Definition vote_tally_read : Reader VoteTally :=
  id ← read_array 32;
  payload_type ← payload_type_read;
  match payload_type with
  | PayPublic => mret (mkVoteTally id VTPublic)
  | PayPrivate =>
      proposals_number ← get_u8;
      proposals ← read_vec decrypted_proposal_read (Z.to_nat proposals_number);
      match decrypted_private_tally_new proposals with
      | Some inner => mret (mkVoteTally id (VTPrivate inner))
      | None => read_fail (InvalidData "decrypt_shares in the proposal should have the same options amount")
      end
  end.

(** ** [encrypted_vote_tally.rs] *)
Record EncryptedVoteTally := mkEncryptedVoteTally { evt_id : VotePlanId }.
Definition encrypted_vote_tally_serialize_in (t : EncryptedVoteTally) (bb : ByteBuilder) : ByteBuilder :=
  bb_bytes bb (evt_id t).
Definition encrypted_vote_tally_read : Reader EncryptedVoteTally :=
  id ← read_array 32; mret (mkEncryptedVoteTally id).

(** ** Verification of the committee's signatures *)
Context (sig_verify : list Z → PublicKey → list Z → bool).
Definition committee_proof_verify (p : CommitteeProof) (verify_data : list Z) : outcome infallible bool :=
  pk ← committee_public_key (cp_id p); Ok (sig_verify (cp_signature p) pk verify_data).
Definition tally_proof_verify (p : TallyProof) (ty : PayloadType) (verify_data : list Z) : outcome infallible bool :=
  match p with
  | TPPublic p => if bool_decide (ty ≠ PayPublic) then Ok false else committee_proof_verify p verify_data
  | TPPrivate p => if bool_decide (ty ≠ PayPrivate) then Ok false else committee_proof_verify p verify_data
  end.
End certificates.

(** ** Payloads *)
#[export] Instance vote_plan_payload `{Election} : Payload VotePlan := {|
  HAS_DATA := true; HAS_AUTH := true; Auth := CommitteeProof;
  payload_read := vote_plan_read; auth_read := committee_proof_read;
  payload_data := λ p, as_vec (vote_plan_serialize_in p bb_new);
  payload_auth_data := λ a, Ok (bb_finalize_as_vec (committee_proof_serialize_in a bb_new));
  payload_to_certificate_slice := λ _, Some CVotePlan |}.
#[export] Instance vote_cast_payload `{Election} : Payload VoteCast := {|
  HAS_DATA := true; HAS_AUTH := false; Auth := unit;
  payload_read := vote_cast_read; auth_read := mret ();
  payload_data := λ c, as_vec (vote_cast_serialize_in c bb_new);
  payload_auth_data := λ _, Ok [];
  payload_to_certificate_slice := λ _, Some CVoteCast |}.
#[export] Instance vote_tally_payload `{Election} : Payload VoteTally := {|
  HAS_DATA := true; HAS_AUTH := true; Auth := TallyProof;
  payload_read := vote_tally_read; auth_read := tally_proof_read;
  payload_data := λ t, as_vec (vote_tally_serialize_in t bb_new);
  payload_auth_data := λ a, Ok (bb_finalize_as_vec (tally_proof_serialize_in a bb_new));
  payload_to_certificate_slice := λ _, Some CVoteTally |}.
#[export] Instance encrypted_vote_tally_payload : Payload EncryptedVoteTally := {|
  HAS_DATA := true; HAS_AUTH := true; Auth := CommitteeProof;
  payload_read := encrypted_vote_tally_read; auth_read := committee_proof_read;
  payload_data := λ t, Ok (bb_finalize_as_vec (encrypted_vote_tally_serialize_in t bb_new));
  payload_auth_data := λ a, Ok (bb_finalize_as_vec (committee_proof_serialize_in a bb_new));
  payload_to_certificate_slice := λ _, Some CEncryptedVoteTally |}.
