(* ===== verification/Votes.v ===== *)
(** * The vote ledger ([vote/{tally,manager,ledger}.rs])

    A vote plan goes through three phases by date: voting, tallying by the
    committee, and over.  Votes are recorded per proposal and account; a public
    tally counts them by stake, a private one goes through an encrypted tally
    that is decrypted later.  A callback of a tally receives the actions of the
    accepted proposals: the model returns them in order. *)
From S2P Require Import Prelude Hamt HamtSpec Value Time Rewards Account Addr Input Stake PoolCert Tokens Config Governance VoteCert.
Local Open Scope Z_scope.

(** ** [tally.rs] *)
Abbreviation Weight := Z.
Record TallyResult := mkTallyResult { results : list Weight; tr_options : Options }.
Inductive TallyError :=
| InvalidChoice (options : Options) (choice : Choice) | InvalidPrivacy | TallyAlreadyDecrypted
| NoEncryptedTally | BadDecryptShares | InvalidDecryption.
Definition weight_saturating_add (a b : Weight) : Weight := saturating_add64 a b.
Definition tally_result_new (options : Options) : TallyResult :=
  mkTallyResult (replicate (options_len options) 0) options.
(** [iter().sum()] of [u64]. *)
Definition participation (r : TallyResult) : Stake := stake_sum (results r).
Definition add_vote (r : TallyResult) (choice : Choice) (weight : Weight) : outcome TallyError TallyResult :=
  if negb (options_validate (tr_options r) choice) then Err (InvalidChoice (tr_options r) choice)
  else if weight =? 0 then Ok r
  else
    let index := Z.to_nat choice in
    w ← unwrap_opt (results r !! index);
    Ok (mkTallyResult (<[index := weight_saturating_add w weight]> (results r)) (tr_options r)).

Section votes.
Context `{Election}.
Abbreviation DecryptedPrivateTally := (list DecryptedPrivateTallyProposal).

Inductive PrivateTallyState :=
| Encrypted (encrypted_tally : EncryptedTally) (total_stake : Value)
| Decrypted (result : TallyResult).
Inductive Tally := TallyPublic (result : TallyResult) | TallyPrivate (state : PrivateTallyState).
Definition private_encrypted (t : Tally) : outcome TallyError (EncryptedTally * Value) :=
  match t with
  | TallyPrivate (Encrypted e total) => Ok (e, total)
  | TallyPrivate (Decrypted _) => Err TallyAlreadyDecrypted
  | TallyPublic _ => Err InvalidPrivacy
  end.
Definition private_set_result (t : Tally) (result : TallyResult) : outcome TallyError Tally :=
  match t with
  | TallyPrivate (Decrypted _) => Err TallyAlreadyDecrypted
  | TallyPrivate (Encrypted _ _) => Ok (TallyPrivate (Decrypted result))
  | TallyPublic _ => Err InvalidPrivacy
  end.
Definition tally_get_result (t : Tally) : option TallyResult :=
  match t with
  | TallyPublic result | TallyPrivate (Decrypted result) => Some result
  | _ => None
  end.

(** ** [manager.rs] *)
Inductive ValidatedPayload := ValPublic (choice : Choice) | ValPrivate (ballot : Ballot).
Record ValidatedVoteCast := mkValidated { val_payload : ValidatedPayload; val_proposal_index : nat }.
Record ProposalManager := mkPM {
  votes_by_voters : gmap Identifier ValidatedPayload;
  pm_options : Options;
  pm_tally : option Tally;
  pm_action : VoteAction }.
Inductive ProposalManagers :=
| PMPublic (managers : list ProposalManager)
| PMPrivate (managers : list ProposalManager) (crs : Crs) (election_pk : ElectionPublicKey).
Record VotePlanManager := mkVPM {
  vpm_id : VotePlanId;
  vpm_plan : VotePlan;
  vpm_committee : gset CommitteeId;
  vpm_managers : ProposalManagers }.
Inductive VoteError :=
| InvalidVotePlan (expected : VotePlanId) (vote : VoteCast)
| NotVoteTime (start end_ : BlockDate) (vote : VoteCast)
| AlreadyVoted
| InvalidVoteProposal (num_proposals : nat) (vote : VoteCast)
| InvalidPayloadType (received expected : PayloadType)
| NotCommitteeTime (start end_ : BlockDate)
| InvalidTallyCommittee
| CannotTallyVotes (source : TallyError)
| VoteVerificationError (e : BallotVerificationError)
| PrivateVoteInvalidSize (actual expected : nat).

(** *** One proposal *)
Definition pm_new (p : Proposal) : ProposalManager := mkPM ∅ (prop_options p) None (prop_action p).
Definition pm_vote (m : ProposalManager) (identifier : Identifier) (payload : ValidatedPayload) :
    outcome VoteError ProposalManager :=
  v ← map_err (λ _, AlreadyVoted) (hm_insert (votes_by_voters m) identifier payload);
  Ok (mkPM v (pm_options m) (pm_tally m) (pm_action m)).
Definition check_already_voted (m : ProposalManager) (identifier : Identifier) : outcome VoteError unit :=
  if bool_decide (is_Some (votes_by_voters m !! identifier)) then Err AlreadyVoted else Ok ().
Definition validate_public_vote (m : ProposalManager) (identifier : Identifier) (cast : VoteCast) :
    outcome VoteError ValidatedPayload :=
  check_already_voted m identifier ;;
  match vc_payload cast with
  | VPublic choice => Ok (ValPublic choice)
  | VPrivate _ _ => Err (InvalidPayloadType PayPrivate PayPublic)
  end.
Definition validate_private_vote (m : ProposalManager) (identifier : Identifier) (cast : VoteCast)
    (crs : Crs) (election_pk : ElectionPublicKey) : outcome VoteError ValidatedPayload :=
  check_already_voted m identifier ;;
  match vc_payload cast with
  | VPublic _ => Err (InvalidPayloadType PayPublic PayPrivate)
  | VPrivate encrypted_vote proof =>
      let actual_size := length encrypted_vote in
      let expected_size := options_len (pm_options m) in
      if negb (actual_size =? expected_size)%nat then Err (PrivateVoteInvalidSize actual_size expected_size)
      else ValPrivate <$> map_err VoteVerificationError (ballot_try_from encrypted_vote proof crs election_pk)
  end.

Definition check_governance_criteria (total : Stake) (acceptance : GovernanceAcceptanceCriteria)
    (r : TallyResult) : bool :=
  if total =? 0 then false
  else if participation r =? 0 then false
  else
    match results r !! Z.to_nat (favorable acceptance), results r !! Z.to_nat (rejection acceptance) with
    | Some fav, Some v =>
        let non_blanks := wrap 64 (v + fav) in
        if non_blanks =? 0 then false
        else
          let ratio_favorable := mkRatio fav non_blanks in
          let ratio_participation := mkRatio (participation r) total in
          let meets r o := match o with
                           | Some criteria => bool_decide (ratio_cmp r criteria = Gt)
                           | None => true
                           end in
          meets ratio_participation (minimum_stake_participation acceptance) &&
          meets ratio_favorable (minimum_approval acceptance)
    | _, _ => false
    end.
Definition pm_check (m : ProposalManager) (total : Stake) (g : Governance) (r : TallyResult) : bool :=
  match pm_action m with
  | OffChain => false
  | VTreasury action =>
      check_governance_criteria total (treasury_criteria_for (gov_treasury g) (treasury_to_type action)) r
  | VParameters action =>
      check_governance_criteria total (parameters_criteria_for (gov_parameters g) (parameters_to_type action)) r
  end.
(** The actions handed to the callback. *)
Definition accepted (m : ProposalManager) (ok : bool) : list VoteAction := if ok then [pm_action m] else [].

Context {Extra : Type}.
Abbreviation Distribution := (TokenDistribution PoolId Extra).

Definition public_step (d : Distribution) (r : TallyResult) (vote : Identifier * ValidatedPayload) :
    outcome VoteError TallyResult :=
  match distribution_get_account d vote.1 with
  | None => Ok r
  | Some stake =>
      match vote.2 with
      | ValPublic choice => map_err CannotTallyVotes (add_vote r choice stake)
      | ValPrivate _ => Err (InvalidPayloadType PayPrivate PayPublic)
      end
  end.
Definition pm_public_tally (m : ProposalManager) (d : Distribution) (g : Governance) :
    outcome VoteError (ProposalManager * list VoteAction) :=
  r ← foldM (public_step d) (tally_result_new (pm_options m)) (map_to_list (votes_by_voters m));
  Ok (mkPM (votes_by_voters m) (pm_options m) (Some (TallyPublic r)) (pm_action m),
      accepted m (pm_check m (distribution_get_total d) g r)).

(** The parallel fold of the encrypted ballots, in the order of the map. *)
Definition private_step (d : Distribution) (t : EncryptedTally) (vote : Identifier * ValidatedPayload) :
    outcome VoteError EncryptedTally :=
  match distribution_get_account d vote.1 with
  | None => Ok t
  | Some stake =>
      match vote.2 with
      | ValPublic _ => Err (InvalidPayloadType PayPublic PayPrivate)
      | ValPrivate ballot => Ok (encrypted_tally_add t ballot stake)
      end
  end.
Definition pm_private_tally (m : ProposalManager) (d : Distribution) (election_pk : ElectionPublicKey)
    (crs : Crs) : outcome VoteError ProposalManager :=
  assert_that (0 <? options_len (pm_options m))%nat ;;
  let tally_size := Z.to_nat (options_end (pm_options m)) in
  t ← foldM (private_step d) (encrypted_tally_new tally_size election_pk crs) (map_to_list (votes_by_voters m));
  Ok (mkPM (votes_by_voters m) (pm_options m)
        (Some (TallyPrivate (Encrypted t (distribution_get_total d)))) (pm_action m)).
Definition decrypted_step (r : TallyResult) (cw : nat * Z) : outcome TallyError TallyResult :=
  choice ← unwrap (as_u8 cw.1); add_vote r choice cw.2.
Definition pm_finalize_private_tally (m : ProposalManager) (committee_pks : list MemberPublicKey)
    (decrypted : DecryptedPrivateTallyProposal) (g : Governance) :
    outcome TallyError (ProposalManager * list VoteAction) :=
  tally ← ok_or (pm_tally m) NoEncryptedTally;
  '(encrypted, total_stake) ← private_encrypted tally;
  if negb (tally_verify (tally_result decrypted) encrypted committee_pks (decrypt_shares decrypted))
  then Err InvalidDecryption
  else
    result ← foldM decrypted_step (tally_result_new (pm_options m))
      (zip (seq 0 (length (tally_result decrypted))) (tally_result decrypted));
    let acts := accepted m (pm_check m total_stake g result) in
    tally ← private_set_result tally result;
    Ok (mkPM (votes_by_voters m) (pm_options m) (Some tally) (pm_action m), acts).

(** *** All the proposals of a plan *)
Definition pms_new (id : VotePlanId) (plan : VotePlan) : ProposalManagers :=
  let managers := pm_new <$> proposals plan in
  match vp_payload_type plan with
  | PayPublic => PMPublic managers
  | PayPrivate =>
      PMPrivate managers (crs_from_hash id) (election_key_from_participants (committee_public_keys plan))
  end.
Definition pms_managers (p : ProposalManagers) : list ProposalManager :=
  match p with PMPublic managers | PMPrivate managers _ _ => managers end.
Definition pms_with (p : ProposalManagers) (managers : list ProposalManager) : ProposalManagers :=
  match p with PMPublic _ => PMPublic managers | PMPrivate _ crs pk => PMPrivate managers crs pk end.
(** The validated index is in range: [unreachable!] otherwise. *)
Definition pms_vote (p : ProposalManagers) (identifier : Identifier) (vote_cast : ValidatedVoteCast) :
    outcome VoteError ProposalManagers :=
  let i := val_proposal_index vote_cast in
  manager ← unwrap_opt (pms_managers p !! i);
  updated_manager ← pm_vote manager identifier (val_payload vote_cast);
  Ok (pms_with p (<[i := updated_manager]> (pms_managers p))).
Definition pms_validate_vote (p : ProposalManagers) (identifier : Identifier) (cast : VoteCast) :
    outcome VoteError ValidatedVoteCast :=
  let i := Z.to_nat (proposal_index cast) in
  manager ← ok_or (pms_managers p !! i) (InvalidVoteProposal (length (pms_managers p)) cast);
  payload ← match p with
            | PMPublic _ => validate_public_vote manager identifier cast
            | PMPrivate _ crs election_pk => validate_private_vote manager identifier cast crs election_pk
            end;
  Ok (mkValidated payload i).
(** A loop that collects the managers and the actions. *)
Definition collect_tally {A E} (f : A → outcome E (ProposalManager * list VoteAction))
    (st : list ProposalManager * list VoteAction) (a : A) : outcome E (list ProposalManager * list VoteAction) :=
  '(m, acts) ← f a; Ok (st.1 ++ [m], st.2 ++ acts).
Definition pms_public_tally (p : ProposalManagers) (d : Distribution) (g : Governance) :
    outcome VoteError (ProposalManagers * list VoteAction) :=
  match p with
  | PMPublic managers =>
      '(proposals, acts) ← foldM (collect_tally (λ m, pm_public_tally m d g)) ([], []) managers;
      Ok (PMPublic proposals, acts)
  | PMPrivate _ _ _ => Err (InvalidPayloadType PayPrivate PayPublic)
  end.
Definition pms_start_private_tally (p : ProposalManagers) (d : Distribution) :
    outcome VoteError ProposalManagers :=
  match p with
  | PMPrivate managers crs election_pk =>
      proposals ← foldM (λ l m, m' ← pm_private_tally m d election_pk crs; Ok (l ++ [m'])) [] managers;
      Ok (PMPrivate proposals crs election_pk)
  | PMPublic _ => Err (InvalidPayloadType PayPublic PayPrivate)
  end.
Definition pms_finalize_private_tally (p : ProposalManagers) (committee_pks : list MemberPublicKey)
    (decrypted_tally : DecryptedPrivateTally) (g : Governance) :
    outcome VoteError (ProposalManagers * list VoteAction) :=
  match p with
  | PMPrivate managers crs election_pk =>
      '(proposals, acts) ←
        foldM (collect_tally (λ md, map_err CannotTallyVotes (pm_finalize_private_tally md.1 committee_pks md.2 g)))
          ([], []) (zip managers decrypted_tally);
      Ok (PMPrivate proposals crs election_pk, acts)
  | PMPublic _ => Err (InvalidPayloadType PayPublic PayPrivate)
  end.

(** *** A vote plan *)
Section manager.
Context (hash_bytes : list Z → list Z).

Definition vpm_new (plan : VotePlan) (committee : gset CommitteeId) : outcome infallible VotePlanManager :=
  id ← vote_plan_to_id hash_bytes plan;
  Ok (mkVPM id plan committee (pms_new id plan)).
Definition can_vote (m : VotePlanManager) (date : BlockDate) : bool := plan_can_vote (vpm_plan m) date.
Definition can_committee (m : VotePlanManager) (date : BlockDate) : bool := committee_time (vpm_plan m) date.
Definition vote_plan_elapsed (m : VotePlanManager) (date : BlockDate) : bool :=
  date_lt (committee_end (vpm_plan m)) date.
Definition valid_committee (m : VotePlanManager) (id : CommitteeId) : bool := bool_decide (id ∈ vpm_committee m).
Definition vpm_with (m : VotePlanManager) (p : ProposalManagers) : VotePlanManager :=
  mkVPM (vpm_id m) (vpm_plan m) (vpm_committee m) p.
Definition vpm_vote (m : VotePlanManager) (block_date : BlockDate) (identifier : Identifier) (cast : VoteCast) :
    outcome VoteError VotePlanManager :=
  if bool_decide (vc_vote_plan cast ≠ vpm_id m) then Err (InvalidVotePlan (vpm_id m) cast)
  else if negb (can_vote m block_date)
  then Err (NotVoteTime (vote_start (vpm_plan m)) (vote_end (vpm_plan m)) cast)
  else if bool_decide (vp_payload_type (vpm_plan m) ≠ vote_payload_type (vc_payload cast))
  then Err (InvalidPayloadType (vote_payload_type (vc_payload cast)) (vp_payload_type (vpm_plan m)))
  else
    vote ← pms_validate_vote (vpm_managers m) identifier cast;
    proposal_managers ← pms_vote (vpm_managers m) identifier vote;
    Ok (vpm_with m proposal_managers).
(** The checks shared by the two ways to start a tally. *)
Definition tally_checks (m : VotePlanManager) (block_date : BlockDate) (sig : CommitteeId) (ty : PayloadType) :
    outcome VoteError unit :=
  if negb (can_committee m block_date)
  then Err (NotCommitteeTime (committee_start (vpm_plan m)) (committee_end (vpm_plan m)))
  else if negb (valid_committee m sig) then Err InvalidTallyCommittee
  else if bool_decide (vp_payload_type (vpm_plan m) ≠ ty) then Err (CannotTallyVotes InvalidPrivacy)
  else Ok ().
Definition vpm_public_tally (m : VotePlanManager) (d : TokenIdentifier → Distribution) (block_date : BlockDate)
    (g : Governance) (sig : CommitteeId) : outcome VoteError (VotePlanManager * list VoteAction) :=
  tally_checks m block_date sig PayPublic ;;
  '(p, acts) ← pms_public_tally (vpm_managers m) (d (voting_token (vpm_plan m))) g;
  Ok (vpm_with m p, acts).
Definition vpm_start_private_tally (m : VotePlanManager) (d : TokenIdentifier → Distribution)
    (block_date : BlockDate) (sig : CommitteeId) : outcome VoteError VotePlanManager :=
  tally_checks m block_date sig PayPrivate ;;
  p ← pms_start_private_tally (vpm_managers m) (d (voting_token (vpm_plan m)));
  Ok (vpm_with m p).
Definition vpm_finalize_private_tally (m : VotePlanManager) (decrypted_tally : DecryptedPrivateTally)
    (g : Governance) : outcome VoteError (VotePlanManager * list VoteAction) :=
  '(p, acts) ← pms_finalize_private_tally (vpm_managers m) (committee_public_keys (vpm_plan m)) decrypted_tally g;
  Ok (vpm_with m p, acts).

(** ** [ledger.rs] *)
Abbreviation VotePlanLedger := (gmap VotePlanId VotePlanManager).
Inductive VotePlanLedgerError :=
| VotePlanInsertionError (id : VotePlanId) (reason : InsertError)
| VoteErrorFor (id : VotePlanId) (reason : UpdateError VoteError)
| VotePlanVoteEndPassed (current_date vote_end : BlockDate)
| VotePlanVoteStartStartedAlready (current_date vote_start : BlockDate)
| VotePlanMissingCommitteeMemberKey.

Definition vote_ledger_new : VotePlanLedger := ∅.
Definition vl_apply_vote (l : VotePlanLedger) (block_date : BlockDate) (identifier : Identifier) (vote : VoteCast) :
    outcome VotePlanLedgerError VotePlanLedger :=
  let id := vc_vote_plan vote in
  map_err (VoteErrorFor id) (hm_update l id (λ v, Some <$> vpm_vote v block_date identifier vote)).
Definition vl_add_vote_plan (l : VotePlanLedger) (current_date : BlockDate) (vote_plan : VotePlan)
    (committee : gset CommitteeId) : outcome VotePlanLedgerError VotePlanLedger :=
  if date_lt (vote_end vote_plan) current_date
  then Err (VotePlanVoteEndPassed current_date (vote_end vote_plan))
  else if date_lt (vote_start vote_plan) current_date
  then Err (VotePlanVoteStartStartedAlready current_date (vote_start vote_plan))
  else if bool_decide (vp_payload_type vote_plan = PayPrivate) && (length (committee_public_keys vote_plan) =? 0)%nat
  then Err VotePlanMissingCommitteeMemberKey
  else
    id ← unwrap (vote_plan_to_id hash_bytes vote_plan);
    manager ← unwrap (vpm_new vote_plan committee);
    map_err (VotePlanInsertionError id) (hm_insert l id manager).
(** An update that also returns the actions of a tally. *)
Definition update_with_actions (l : VotePlanLedger) (id : VotePlanId)
    (f : VotePlanManager → outcome VoteError (VotePlanManager * list VoteAction)) :
    outcome VotePlanLedgerError (VotePlanLedger * list VoteAction) :=
  match l !! id with
  | None => Err (VoteErrorFor id UpdateKeyNotFound)
  | Some v =>
      '(v, acts) ← map_err (λ e, VoteErrorFor id (ValueCallbackError e)) (f v);
      Ok (<[id := v]> l, acts)
  end.
Definition vl_apply_committee_result (l : VotePlanLedger) (block_date : BlockDate)
    (d : TokenIdentifier → Distribution) (g : Governance) (tally : VoteTally) (sig : TallyProof) :
    outcome VotePlanLedgerError (VotePlanLedger * list VoteAction) :=
  update_with_actions l (vt_id tally) (λ v,
    match sig with
    | TPPublic p => vpm_public_tally v d block_date g (cp_id p)
    | TPPrivate _ => shares ← unwrap_opt (tally_decrypted tally); vpm_finalize_private_tally v shares g
    end).
Definition vl_apply_encrypted_vote_tally (l : VotePlanLedger) (block_date : BlockDate)
    (d : TokenIdentifier → Distribution) (encrypted_tally : EncryptedVoteTally) (committee_id : CommitteeId) :
    outcome VotePlanLedgerError VotePlanLedger :=
  let id := evt_id encrypted_tally in
  map_err (VoteErrorFor id) (hm_update l id (λ v, Some <$> vpm_start_private_tally v d block_date committee_id)).
End manager.
End votes.
