(* ===== verification/VotesSpec.v ===== *)
(** * The life of a vote plan

    Votes are recorded once per account and proposal and only while the plan
    is open; tallies are taken by the committee and only afterwards; a public
    tally is the stake behind each choice, whatever the order of the votes.
    The last part proves what the code leaves unchecked. *)
From S2P Require Import Prelude Hamt HamtSpec Value Time Rewards Account Addr Key Input Stake Transaction PoolCert Tokens Config Governance VoteCert Votes.
Local Open Scope Z_scope.

(** ** Loops over the votes *)
Lemma foldM_Ok_iff {E A S} (ok : A → Prop) (step : S → A → S) (P : S → Prop)
    (f : S → A → outcome E S) l s s' :
  (∀ s a, P s → a ∈ l → ok a → f s a = Ok (step s a) ∧ P (step s a)) →
  (∀ s a, P s → a ∈ l → is_Some (match f s a with Ok x => Some x | _ => None end) → ok a) →
  P s →
  foldM f s l = Ok s' ↔ Forall ok l ∧ s' = foldl step s l.
Proof.
  intros Hf Hok. revert s. induction l as [|a l IH]; intros s HP.
  - cbn. split; [intros [= ->]; by split; [constructor|]|by intros [_ ->]].
  - assert (IH' : ∀ s0, P s0 → foldM f s0 l = Ok s' ↔ Forall ok l ∧ s' = foldl step s0 l).
    { intros s0 HP0. apply IH; [..|done]; intros; [eapply Hf|eapply Hok]; (done || by right). }
    cbn [foldM foldl]. rewrite Forall_cons. split.
    + intros (s1 & H1 & H2)%bind_Ok.
      assert (Ha : ok a) by (apply (Hok s); [done|left|rewrite H1; by eexists]).
      destruct (Hf s a HP ltac:(left) Ha) as [H1' HP1]. rewrite H1 in H1'. apply Ok_inj in H1' as ->.
      apply IH' in H2 as [? ?]; [|done]. done.
    + intros [[Ha Hl] ->]. destruct (Hf s a HP ltac:(left) Ha) as [-> HP1]. cbn.
      apply IH'; [done|]. done.
Qed.

(** ** The public tally *)
Section tally.
Context `{Election} {Extra : Type}.
Implicit Types (m : ProposalManager) (d : TokenDistribution PoolId Extra).

(** The stake of a vote for the choice [c]. *)
Definition stake_for d (c : Z) (vote : Identifier * ValidatedPayload) : Z :=
  match vote.2 with
  | ValPublic choice => if choice =? c then default 0 (distribution_get_account d vote.1) else 0
  | ValPrivate _ => 0
  end.
(** A vote the public tally can count: any vote of an account without stake. *)
Definition countable (o : Options) d (vote : Identifier * ValidatedPayload) : Prop :=
  is_Some (distribution_get_account d vote.1) →
  ∃ choice, vote.2 = ValPublic choice ∧ options_validate o choice = true.
Definition stakes_ok d (votes : list (Identifier * ValidatedPayload)) : Prop :=
  Forall (λ v, 0 ≤ default 0 (distribution_get_account d v.1)) votes.

Lemma stake_for_nonneg d c vote :
  0 ≤ default 0 (distribution_get_account d vote.1) → 0 ≤ stake_for d c vote.
Proof. unfold stake_for. destruct (vote.2); [case_match|]; lia. Qed.

Definition tally_step d (r : TallyResult) (vote : Identifier * ValidatedPayload) : TallyResult :=
  mkTallyResult (imap (λ i w, saturating_add64 w (stake_for d (Z.of_nat i) vote)) (results r)) (tr_options r).

Definition tally_wf n (r : TallyResult) : Prop :=
  length (results r) = n ∧ tr_options r = mkOptions 0 (Z.of_nat n) ∧ Forall (λ w, 0 ≤ w ≤ u64_max) (results r).

Lemma imap_id_in {A} (f : nat → A → A) (l : list A) :
  (∀ i x, l !! i = Some x → f i x = x) → imap f l = l.
Proof.
  revert f. induction l as [|x l IH]; intros f Hf; [done|]. cbn. f_equal; [by apply (Hf 0%nat)|].
  apply IH. intros i y Hi. by apply (Hf (S i)).
Qed.

Lemma saturating_add_0 w : w ≤ u64_max → saturating_add64 w 0 = w.
Proof. unfold saturating_add64. lia. Qed.

Lemma tally_step_wf n d r vote :
  0 ≤ default 0 (distribution_get_account d vote.1) → tally_wf n r → tally_wf n (tally_step d r vote).
Proof.
  intros Hs (Hl & Ho & Hw). unfold tally_wf. cbn. rewrite length_imap. split_and!; [done..|].
  apply Forall_lookup. intros i w Hi. apply list_lookup_imap_Some in Hi as (w0 & Hw0 & ->).
  rewrite Forall_lookup in Hw. apply Hw in Hw0.
  pose proof (stake_for_nonneg d (Z.of_nat i) vote Hs). unfold saturating_add64, u64_max in *. lia.
Qed.

Lemma public_step_spec n d r vote :
  tally_wf n r → countable (mkOptions 0 (Z.of_nat n)) d vote →
  0 ≤ default 0 (distribution_get_account d vote.1) →
  public_step d r vote = Ok (tally_step d r vote).
Proof.
  intros (Hl & Ho & Hw) Hc Hs. unfold public_step, tally_step, stake_for, countable in *.
  rewrite Forall_lookup in Hw.
  destruct (distribution_get_account d vote.1) as [stake|] eqn:Hd.
  - destruct Hc as (choice & -> & Hv); [by eexists|]. unfold add_vote. rewrite Ho, Hv. cbn in *.
    unfold options_validate in Hv. cbn in Hv. rewrite andb_true_iff, Z.leb_le, Z.ltb_lt in Hv.
    destruct (Z.eqb_spec stake 0) as [->|Hs0].
    + cbn. rewrite imap_id_in; [by destruct r; cbn in *; subst|]. intros i x Hi. apply Hw in Hi.
      case_match; apply saturating_add_0; lia.
    + destruct (lookup_lt_is_Some_2 (results r) (Z.to_nat choice)) as [w Hk]; [lia|]. rewrite Hk. cbn.
      do 2 f_equal. apply list_eq. intros i. rewrite list_lookup_imap.
      destruct (decide (i = Z.to_nat choice)) as [->|Hne].
      * rewrite list_lookup_insert_eq by (eapply lookup_lt_Some; done). rewrite Hk. cbn.
        by rewrite (proj2 (Z.eqb_eq _ _)) by lia.
      * rewrite list_lookup_insert_ne by done. destruct (results r !! i) eqn:Hi; [|done]. cbn.
        rewrite (proj2 (Z.eqb_neq _ _)) by lia. apply Hw in Hi. by rewrite saturating_add_0 by lia.
  - rewrite imap_id_in; [by destruct r; cbn in *; subst|]. intros i x Hi. apply Hw in Hi.
    destruct (vote.2); [case_match|]; apply saturating_add_0; lia.
Qed.

Lemma public_step_countable n d r vote r' :
  tally_wf n r → public_step d r vote = Ok r' → countable (mkOptions 0 (Z.of_nat n)) d vote.
Proof.
  intros (Hl & Ho & Hw) Hp [stake Hd]. unfold public_step in Hp. rewrite Hd in Hp.
  destruct (vote.2) as [choice|] eqn:Hv; [|done]. exists choice. split; [done|].
  apply map_err_Ok in Hp. unfold add_vote in Hp. rewrite Ho in Hp.
  by destruct (options_validate _ _).
Qed.

Lemma public_step_options d r vote r' o :
  tr_options r = o → public_step d r vote = Ok r' → tr_options r' = o.
Proof.
  intros <-. unfold public_step, add_vote. destruct (distribution_get_account _ _); [|by intros <-%Ok_inj].
  destruct (vote.2); [|done]. intros Hx%map_err_Ok. destruct (negb _); [done|].
  destruct (_ =? 0); [by apply Ok_inj in Hx as <-|]. by apply bind_Ok in Hx as (? & _ & <-%Ok_inj).
Qed.

(** Each choice gets the sum of its stakes, capped at the largest weight. *)
Lemma tally_foldl_lookup d votes r i w :
  stakes_ok d votes → Forall (λ w, 0 ≤ w ≤ u64_max) (results r) → results r !! i = Some w →
  results (foldl (tally_step d) r votes) !! i =
    Some (Z.min u64_max (w + Zsum (stake_for d (Z.of_nat i) <$> votes))).
Proof.
  intros Hs. revert r w. induction Hs as [|v votes Hv Hs IH]; intros r w Hw Hi.
  - cbn. rewrite Hi. rewrite Forall_lookup in Hw. apply Hw in Hi. f_equal. unfold u64_max in *. lia.
  - cbn [foldl fmap list_fmap Zsum]. cbn beta in Hv.
    pose proof (stake_for_nonneg d (Z.of_nat i) v Hv).
    assert (0 ≤ Zsum (stake_for d (Z.of_nat i) <$> votes)).
    { apply Zsum_nonneg, Forall_fmap. eapply Forall_impl; [exact Hs|]. intros x Hx.
      by apply stake_for_nonneg. }
    rewrite (IH _ (saturating_add64 w (stake_for d (Z.of_nat i) v))).
    + f_equal. unfold saturating_add64. cbn. lia.
    + apply Forall_lookup. intros j x Hj. cbn in Hj. apply list_lookup_imap_Some in Hj as (y & Hy & ->).
      rewrite Forall_lookup in Hw. apply Hw in Hy.
      pose proof (stake_for_nonneg d (Z.of_nat j) v Hv). unfold saturating_add64, u64_max in *. lia.
    + cbn. rewrite list_lookup_imap, Hi. done.
Qed.
Lemma tally_foldl_length d votes r : length (results (foldl (tally_step d) r votes)) = length (results r).
Proof. revert r. induction votes as [|v votes IH]; intros r; [done|]. cbn. rewrite IH. cbn. apply length_imap. Qed.
Lemma tally_foldl_options d votes r : tr_options (foldl (tally_step d) r votes) = tr_options r.
Proof. revert r. induction votes as [|v votes IH]; intros r; [done|]. cbn. by rewrite IH. Qed.

Lemma tally_result_new_wf n : (n ≤ 16)%nat → tally_wf n (tally_result_new (mkOptions 0 (Z.of_nat n))).
Proof.
  intros Hn. unfold tally_wf, tally_result_new, options_len. cbn. rewrite length_replicate.
  split_and!; [lia|done|]. apply Forall_replicate. unfold u64_max. lia.
Qed.

(** The reference: the stake of each choice, from the votes as a set. *)
Definition choice_weights d n (votes : list (Identifier * ValidatedPayload)) : list Z :=
  (λ c, Z.min u64_max (Zsum (stake_for d (Z.of_nat c) <$> votes))) <$> seq 0 n.
Definition public_result d m n : TallyResult :=
  mkTallyResult (choice_weights d n (map_to_list (votes_by_voters m))) (mkOptions 0 (Z.of_nat n)).

Lemma tally_foldl_weights d n votes :
  stakes_ok d votes →
  foldl (tally_step d) (tally_result_new (mkOptions 0 (Z.of_nat n))) votes =
    mkTallyResult (choice_weights d n votes) (mkOptions 0 (Z.of_nat n)).
Proof.
  intros Hs. set (r0 := tally_result_new _).
  assert (Hr0 : results r0 = replicate n 0) by (unfold r0, tally_result_new, options_len; cbn; f_equal; lia).
  assert (Ho0 : tr_options r0 = mkOptions 0 (Z.of_nat n)) by done. clearbody r0.
  destruct (foldl (tally_step d) r0 votes) as [l o] eqn:Hf.
  pose proof (tally_foldl_options d votes r0) as Ho. pose proof (tally_foldl_length d votes r0) as Hl.
  rewrite Hf in Ho, Hl. cbn in Ho, Hl. rewrite Hr0, length_replicate in Hl. rewrite Ho, Ho0. f_equal.
  apply list_eq. intros i. unfold choice_weights. destruct (decide (i < n)%nat) as [Hi|Hi].
  - rewrite list_lookup_fmap, lookup_seq_lt by done. cbn.
    pose proof (tally_foldl_lookup d votes r0 i 0 Hs) as Hk. rewrite Hf in Hk. cbn in Hk. rewrite Hk.
    + done.
    + rewrite Hr0. apply Forall_replicate. unfold u64_max. lia.
    + rewrite Hr0. by apply lookup_replicate_2.
  - rewrite !lookup_ge_None_2; [done| |lia]. rewrite length_fmap, length_seq. lia.
Qed.

Lemma choice_weights_perm d n votes votes' :
  votes ≡ₚ votes' → choice_weights d n votes = choice_weights d n votes'.
Proof.
  intros Hp. unfold choice_weights. apply list_fmap_ext. intros _ c _. cbn. f_equal. apply Zsum_perm. by rewrite Hp.
Qed.

Lemma public_tally_iff m d g n r :
  (n ≤ 16)%nat → pm_options m = mkOptions 0 (Z.of_nat n) →
  stakes_ok d (map_to_list (votes_by_voters m)) →
  pm_public_tally m d g = Ok r ↔
    Forall (countable (pm_options m) d) (map_to_list (votes_by_voters m)) ∧
    r = (mkPM (votes_by_voters m) (pm_options m) (Some (TallyPublic (public_result d m n))) (pm_action m),
         accepted m (pm_check m (distribution_get_total d) g (public_result d m n))).
Proof.
  intros Hn Ho Hs. unfold pm_public_tally. rewrite bind_Ok.
  assert (Hf : ∀ s', foldM (public_step d) (tally_result_new (pm_options m)) (map_to_list (votes_by_voters m)) = Ok s' ↔
    Forall (countable (pm_options m) d) (map_to_list (votes_by_voters m)) ∧
    s' = foldl (tally_step d) (tally_result_new (pm_options m)) (map_to_list (votes_by_voters m))).
  { intros s'. apply (foldM_Ok_iff _ _ (tally_wf n)).
    - intros r0 a Hwf Ha Hc. rewrite Ho in Hc. unfold stakes_ok in Hs. rewrite Forall_forall in Hs. apply Hs in Ha.
      split; [by eapply public_step_spec|by apply tally_step_wf].
    - intros r0 a Hwf Ha [x Hx]. rewrite Ho. destruct (public_step d r0 a) eqn:Hp; [|done..].
      by eapply public_step_countable.
    - rewrite Ho. by apply tally_result_new_wf. }
  setoid_rewrite Hf. clear Hf. rewrite Ho, (tally_foldl_weights d n _ Hs). fold (public_result d m n). split.
  - intros (? & [? ->] & Hr%Ok_inj). by rewrite <-Hr.
  - intros [? ->]. by eexists.
Qed.
End tally.

(** ** The events of a vote plan *)
Section plan.
Context `{Election} {Extra : Type}.
Abbreviation Stakes := (TokenIdentifier → TokenDistribution PoolId Extra).
Implicit Types (m : VotePlanManager) (d : Stakes).

Inductive plan_event :=
| EvVote (identifier : Identifier) (cast : VoteCast)
| EvPublicTally (d : Stakes) (g : Governance) (sig : CommitteeId)
| EvStartPrivate (d : Stakes) (sig : CommitteeId)
| EvFinalize (decrypted : list DecryptedPrivateTallyProposal) (g : Governance).
Definition plan_apply m (e : BlockDate * plan_event) : outcome VoteError VotePlanManager :=
  match e.2 with
  | EvVote identifier cast => vpm_vote m e.1 identifier cast
  | EvPublicTally d g sig => fst <$> vpm_public_tally m d e.1 g sig
  | EvStartPrivate d sig => vpm_start_private_tally m d e.1 sig
  | EvFinalize decrypted g => fst <$> vpm_finalize_private_tally m decrypted g
  end.

(** The vote of an account on a proposal. *)
Definition vote_of m (i : nat) (identifier : Identifier) : option ValidatedPayload :=
  pm ← pms_managers (vpm_managers m) !! i; votes_by_voters pm !! identifier.

Lemma pms_with_managers p ms : pms_managers (pms_with p ms) = ms.
Proof. by destruct p. Qed.

Lemma vpm_vote_Ok m date identifier cast m' :
  vpm_vote m date identifier cast = Ok m' ↔
  vc_vote_plan cast = vpm_id m ∧ plan_can_vote (vpm_plan m) date = true ∧
  vp_payload_type (vpm_plan m) = vote_payload_type (vc_payload cast) ∧
  ∃ v pm, pms_validate_vote (vpm_managers m) identifier cast = Ok v ∧
    pms_managers (vpm_managers m) !! val_proposal_index v = Some pm ∧
    votes_by_voters pm !! identifier = None ∧
    m' = vpm_with m (pms_with (vpm_managers m) (<[val_proposal_index v :=
      mkPM (<[identifier := val_payload v]> (votes_by_voters pm)) (pm_options pm) (pm_tally pm) (pm_action pm)]>
        (pms_managers (vpm_managers m)))).
Proof.
  unfold vpm_vote, can_vote. case_bool_decide as Hid; [naive_solver|].
  destruct (plan_can_vote _ _); cbn; [|naive_solver].
  case_bool_decide as Ht; [naive_solver|].
  rewrite bind_Ok. split.
  - intros (v & Hv & (p & Hp & Hm)%bind_Ok). apply Ok_inj in Hm as <-. unfold pms_vote in Hp.
    apply bind_Ok in Hp as (pm & Hpm & (pm' & Hpm' & Hp%Ok_inj)%bind_Ok).
    destruct (pms_managers _ !! _) as [pm0|] eqn:Hi; [|done]. apply Ok_inj in Hpm as ->.
    unfold pm_vote in Hpm'. apply bind_Ok in Hpm' as (vs & (Hvs & ->)%map_err_Ok%hm_insert_Ok & <-%Ok_inj).
    split_and!; [done..|]. exists v, pm. by rewrite Hp.
  - intros (_ & _ & _ & v & pm & Hv & Hi & Hn & ->). exists v. split; [done|].
    unfold pms_vote. rewrite Hi. cbn. unfold pm_vote, hm_insert. by rewrite Hn.
Qed.
Lemma pms_validate_vote_Ok p identifier cast v :
  pms_validate_vote p identifier cast = Ok v →
  val_proposal_index v = Z.to_nat (proposal_index cast) ∧
  ∃ pm, pms_managers p !! Z.to_nat (proposal_index cast) = Some pm ∧ votes_by_voters pm !! identifier = None.
Proof.
  unfold pms_validate_vote. intros (pm & Hpm & (pl & Hpl & <-%Ok_inj)%bind_Ok)%bind_Ok.
  split; [done|]. exists pm. destruct (pms_managers p !! _); [|done]. apply Ok_inj in Hpm as ->. split; [done|].
  destruct p; unfold validate_public_vote, validate_private_vote, check_already_voted in Hpl;
    case_bool_decide as Hn; try done; by rewrite eq_None_not_Some.
Qed.
Lemma vote_already m date identifier cast :
  vc_vote_plan cast = vpm_id m → plan_can_vote (vpm_plan m) date = true →
  vp_payload_type (vpm_plan m) = vote_payload_type (vc_payload cast) →
  is_Some (vote_of m (Z.to_nat (proposal_index cast)) identifier) →
  vpm_vote m date identifier cast = Err AlreadyVoted.
Proof.
  intros H1 H2 H3 [v Hv]. unfold vote_of in Hv. unfold vpm_vote, can_vote.
  rewrite bool_decide_false, H2, bool_decide_false by auto. cbn.
  unfold pms_validate_vote. destruct (pms_managers (vpm_managers m) !! _) as [pm|]; [|done]. cbn in *.
  destruct (vpm_managers m); unfold validate_public_vote, validate_private_vote, check_already_voted;
    by rewrite bool_decide_true by (by eexists).
Qed.

(** C14. A vote is taken only while the plan is open and only from an account
    that has not voted on the proposal; it is then the vote of that account on
    that proposal and nothing else changes, and a second vote of the account on
    it is refused. *)
Theorem votes_recorded_once m date identifier cast m' :
  vpm_vote m date identifier cast = Ok m' →
  let i := Z.to_nat (proposal_index cast) in
  plan_can_vote (vpm_plan m) date = true ∧ vote_of m i identifier = None ∧
  (vpm_plan m', vpm_id m', vpm_committee m') = (vpm_plan m, vpm_id m, vpm_committee m) ∧
  (∃ v, ∀ j x, vote_of m' j x = if decide (j = i ∧ x = identifier) then Some v else vote_of m j x) ∧
  ∀ date' cast', vc_vote_plan cast' = vpm_id m → plan_can_vote (vpm_plan m) date' = true →
    vp_payload_type (vpm_plan m) = vote_payload_type (vc_payload cast') →
    proposal_index cast' = proposal_index cast →
    vpm_vote m' date' identifier cast' = Err AlreadyVoted.
Proof.
  intros (H1 & H2 & H3 & v & pm & Hv & Hi & Hn & ->)%vpm_vote_Ok i.
  pose proof (pms_validate_vote_Ok _ _ _ _ Hv) as (Hvi & _). fold i in Hvi. rewrite Hvi in Hi |- *.
  assert (Hvote : ∀ j x, vote_of (vpm_with m (pms_with (vpm_managers m) (<[i := mkPM (<[identifier := val_payload v]>
    (votes_by_voters pm)) (pm_options pm) (pm_tally pm) (pm_action pm)]> (pms_managers (vpm_managers m))))) j x =
    if decide (j = i ∧ x = identifier) then Some (val_payload v) else vote_of m j x).
  { intros j x. unfold vote_of. cbn [vpm_with vpm_managers]. rewrite pms_with_managers.
    destruct (decide (j = i)) as [->|Hj].
    - rewrite list_lookup_insert_eq by (by eapply lookup_lt_Some). rewrite Hi. cbn.
      destruct (decide (x = identifier)) as [->|Hx].
      + by rewrite lookup_insert_eq, decide_True.
      + rewrite lookup_insert_ne, decide_False by naive_solver. done.
    - by rewrite list_lookup_insert_ne, decide_False by naive_solver. }
  split_and!; [done| |done|by eexists|].
  - unfold vote_of. by rewrite Hi.
  - intros date' cast' ? ? ? Hc. apply vote_already; [done..|]. rewrite Hc. fold i. rewrite Hvote, decide_True by done.
    by eexists.
Qed.

(** ** Plans with public votes *)
Definition public_manager (p : Proposal) (pm : ProposalManager) : Prop :=
  pm_options pm = prop_options p ∧ pm_action pm = prop_action p ∧
  (∀ x v, votes_by_voters pm !! x = Some v → ∃ c, v = ValPublic c) ∧
  (pm_tally pm = None ∨ ∃ r, pm_tally pm = Some (TallyPublic r)).
Definition public_plan (plan : VotePlan) (id : VotePlanId) (committee : gset CommitteeId) m : Prop :=
  vpm_plan m = plan ∧ vpm_id m = id ∧ vpm_committee m = committee ∧
  ∃ ms, vpm_managers m = PMPublic ms ∧ Forall2 public_manager (proposals plan) ms.

Lemma tally_checks_Ok m date sig ty u :
  tally_checks m date sig ty = Ok u →
  committee_time (vpm_plan m) date = true ∧ sig ∈ vpm_committee m ∧ vp_payload_type (vpm_plan m) = ty.
Proof.
  unfold tally_checks, can_committee, valid_committee. destruct (committee_time _ _); [|done]. cbn.
  case_bool_decide; [|done]. cbn. case_bool_decide as Ht; [done|]. intros _. by split_and!.
Qed.
Lemma public_tally_frame pm (dt : TokenDistribution PoolId Extra) g r acts :
  pm_public_tally pm dt g = Ok (r, acts) →
  ∃ t, r = mkPM (votes_by_voters pm) (pm_options pm) (Some (TallyPublic t)) (pm_action pm).
Proof. unfold pm_public_tally. intros (t & _ & [= <- <-]%Ok_inj)%bind_Ok. by eexists. Qed.

(** The loop over the managers goes through them in order. *)
Lemma collect_tally_Ok {A E} (f : A → outcome E (ProposalManager * list VoteAction)) l st st' :
  foldM (collect_tally f) st l = Ok st' ↔
  ∃ rs, Forall2 (λ a r, f a = Ok r) l rs ∧ st' = (st.1 ++ rs.*1, st.2 ++ concat rs.*2).
Proof.
  revert st. induction l as [|a l IH]; intros st; cbn [foldM].
  - split.
    + intros <-%Ok_inj. exists []. split; [constructor|]. cbn. rewrite !app_nil_r. by destruct st.
    + intros (rs & Hrs%Forall2_nil_inv_l & ->). subst. cbn. rewrite !app_nil_r. by destruct st.
  - rewrite bind_Ok. setoid_rewrite IH. unfold collect_tally at 1. split.
    + intros (s & ([mm acts] & Hf & <-%Ok_inj)%bind_Ok & rs & Hrs & ->). exists ((mm, acts) :: rs).
      split; [by constructor|]. cbn. by rewrite <-!app_assoc.
    + intros (rs & Hrs & ->). apply Forall2_cons_inv_l in Hrs as ([mm acts] & rs' & Hf & Hrs & ->).
      exists (st.1 ++ [mm], st.2 ++ acts). split.
      * rewrite bind_Ok. exists (mm, acts). by split.
      * exists rs'. split; [done|]. cbn. by rewrite <-!app_assoc.
Qed.
Lemma pms_public_tally_Ok p (dt : TokenDistribution PoolId Extra) g r :
  pms_public_tally p dt g = Ok r ↔
  ∃ ms rs, p = PMPublic ms ∧ Forall2 (λ pm r, pm_public_tally pm dt g = Ok r) ms rs ∧
    r = (PMPublic rs.*1, concat rs.*2).
Proof.
  unfold pms_public_tally. destruct p as [ms|]; [|by split; [|intros (? & ? & ? & ?)]].
  rewrite bind_Ok. setoid_rewrite collect_tally_Ok. split.
  - intros ([x acts] & (rs & Hrs & [= -> ->]) & <-%Ok_inj). by exists ms, rs.
  - intros (ms' & rs & [= <-] & Hrs & ->). eexists (_, _). split; [by exists rs|]. done.
Qed.
Lemma vpm_public_tally_Ok m d date g sig r :
  vpm_public_tally m d date g sig = Ok r ↔
  tally_checks m date sig PayPublic = Ok () ∧
  ∃ ms rs, vpm_managers m = PMPublic ms ∧
    Forall2 (λ pm r, pm_public_tally pm (d (voting_token (vpm_plan m))) g = Ok r) ms rs ∧
    r = (vpm_with m (PMPublic rs.*1), concat rs.*2).
Proof.
  unfold vpm_public_tally. rewrite bind_Ok. split.
  - intros ([] & Hc & ([p acts] & (ms & rs & -> & Hrs & [= -> ->])%pms_public_tally_Ok & <-%Ok_inj)%bind_Ok).
    split; [done|]. by exists ms, rs.
  - intros (Hc & ms & rs & Hm & Hrs & ->). exists (). split; [done|]. rewrite bind_Ok.
    eexists (_, _). split; [apply pms_public_tally_Ok; by exists ms, rs|]. done.
Qed.

Lemma Forall2_manager_insert ps ms i pm pm' :
  Forall2 public_manager ps ms → ms !! i = Some pm → (∀ p, public_manager p pm → public_manager p pm') →
  Forall2 public_manager ps (<[i := pm']> ms).
Proof.
  intros HF Hi Hp. destruct (Forall2_lookup_r _ _ _ _ _ HF Hi) as (p & Hpi & Hpm).
  rewrite <-(list_insert_id ps i p) by done. apply Forall2_insert; [done|]. by apply Hp.
Qed.

(** A step of a public plan: a vote, or a tally that keeps every vote. *)
Lemma public_plan_step plan id committee m e m' :
  public_plan plan id committee m → plan_apply m e = Ok m' → vp_payload_type plan = PayPublic →
  public_plan plan id committee m' ∧
  (plan_can_vote plan e.1 = true ∨ ∀ i x, vote_of m' i x = vote_of m i x).
Proof.
  intros (<- & <- & <- & ms & Hms & HF) Hs Hty. destruct e as [date [identifier cast|d g sig|d sig|dec g]]; cbn in *.
  - apply vpm_vote_Ok in Hs as (H1 & H2 & H3 & v & pm & Hv & Hi & Hn & ->). rewrite Hms in *. cbn in *.
    split; [|by left]. split_and!; [done..|]. eexists. split; [done|].
    eapply Forall2_manager_insert; [done|done|]. intros p (Ho & Ha & Hvs & Ht). split_and!; [done..| |done].
    intros x w. cbn. rewrite lookup_insert_Some. intros [[<- <-]|[_ ?]]; [|by eapply Hvs].
    unfold pms_validate_vote in Hv. apply bind_Ok in Hv as (pm0 & _ & (pl & Hpl & <-%Ok_inj)%bind_Ok). cbn.
    unfold validate_public_vote in Hpl. apply bind_Ok in Hpl as (_ & _ & Hpl).
    destruct (vc_payload cast); [|done]. apply Ok_inj in Hpl as <-. by eexists.
  - destruct (vpm_public_tally _ _ _ _ _) as [[m1 acts]| |] eqn:Ht; try done. apply Ok_inj in Hs as <-. cbn.
    apply vpm_public_tally_Ok in Ht as (_ & ms' & rs & Hms' & Hrs & [= -> ->]).
    rewrite Hms in Hms'. injection Hms' as <-.
    assert (Hfr : Forall2 (λ pm pm', ∃ t, pm' = mkPM (votes_by_voters pm) (pm_options pm) (Some (TallyPublic t)) (pm_action pm))
      ms rs.*1).
    { rewrite Forall2_fmap_r. eapply Forall2_impl; [exact Hrs|]. intros pm [r a] Hr. cbn. by eapply public_tally_frame. }
    split.
    + split_and!; [done..|]. eexists. split; [done|]. revert ms rs Hms HF Hrs Hfr.
      intros ms rs _ HF _. generalize (rs.*1). intros l Hl. revert ms HF Hl. generalize (proposals (vpm_plan m)).
      induction l as [|pm' l IH]; intros ps ms HF Hl.
      * apply Forall2_nil_inv_r in Hl as ->. by apply Forall2_nil_inv_r in HF as ->.
      * apply Forall2_cons_inv_r in Hl as (pm & ms' & [t ->] & Hl & ->).
        apply Forall2_cons_inv_r in HF as (p & ps' & (Ho & Ha & Hv & Htl) & HF & ->).
        constructor; [|by eapply IH]. split_and!; [done..|]. right. by eexists.
    + right. intros i x. unfold vote_of. cbn. rewrite Hms. cbn.
      destruct (rs.*1 !! i) as [pm'|] eqn:Hi.
      * destruct (Forall2_lookup_r _ _ _ _ _ Hfr Hi) as (pm & -> & t & ->). done.
      * apply lookup_ge_None in Hi. rewrite <-(Forall2_length _ _ _ Hfr) in Hi. by rewrite lookup_ge_None_2.
  - unfold vpm_start_private_tally in Hs. apply bind_Ok in Hs as ([] & (_ & _ & Hp)%tally_checks_Ok & _). congruence.
  - exfalso. unfold vpm_finalize_private_tally in Hs. rewrite Hms in Hs. done.
Qed.
Lemma vpm_new_public plan committee m hash_bytes :
  vpm_new hash_bytes plan committee = Ok m → vp_payload_type plan = PayPublic →
  public_plan plan (vpm_id m) committee m ∧ ∀ i x, vote_of m i x = None.
Proof.
  intros (id & _ & <-%Ok_inj)%bind_Ok Ht. unfold pms_new, vote_of. cbn. rewrite Ht. cbn. split.
  - split_and!; [done..|]. eexists. split; [done|]. rewrite Forall2_fmap_r. apply Forall_Forall2_diag, Forall_forall.
    intros p _. split_and!; [done..|set_solver|by left].
  - intros i x. rewrite list_lookup_fmap. destruct (_ !! i); [|done]. cbn. apply lookup_empty.
Qed.

(** Whatever votes and tallies a public vote plan receives, it keeps one
    manager per proposal, with the options and the action of the proposal, its
    votes are public choices and its tallies public; and once the voting is
    over no event changes a vote. *)
Theorem public_plan_invariant hash_bytes plan committee m0 evs m :
  vpm_new hash_bytes plan committee = Ok m0 → vp_payload_type plan = PayPublic →
  foldM plan_apply m0 evs = Ok m →
  public_plan plan (vpm_id m0) committee m ∧
  ∀ evs' m', Forall (λ e, date_le (vote_end plan) e.1 = true) evs' → foldM plan_apply m evs' = Ok m' →
    ∀ i x, vote_of m' i x = vote_of m i x.
Proof.
  intros Hnew Hty Hm. destruct (vpm_new_public _ _ _ _ Hnew Hty) as [Hpub _].
  assert (Hpub' : public_plan plan (vpm_id m0) committee m).
  { eapply (foldM_inv (public_plan plan (vpm_id m0) committee)); [|exact Hpub|exact Hm].
    intros s a s' _ Hs Ha. by eapply (public_plan_step _ _ _ _ _ _ Hs). }
  split; [done|]. intros evs' m' Hd Hm'.
  eapply (foldM_inv (λ s, public_plan plan (vpm_id m0) committee s ∧ ∀ i x, vote_of s i x = vote_of m i x));
    [|by split|exact Hm']. intros s a s' Hin [Hs Hv] Ha.
  destruct (public_plan_step _ _ _ _ _ _ Hs Ha Hty) as [Hs' [Hc|Heq]].
  - rewrite Forall_forall in Hd. apply Hd in Hin. unfold plan_can_vote, vote_finished in Hc. rewrite Hin in Hc.
    by rewrite andb_false_r in Hc.
  - split; [done|]. intros i x. by rewrite Heq.
Qed.

(** The phases of a plan do not overlap: no date is both in the voting
    and in the committee's window; a vote is taken only in the first, a tally
    is started only in the second, by a member of the plan's committee, on a
    plan of its kind of votes. *)
Theorem plan_phases :
  (∀ (plan : VotePlan) date, plan_can_vote plan date && committee_time plan date = false) ∧
  ∀ m date e m', plan_apply m (date, e) = Ok m' →
    match e with
    | EvVote _ cast => plan_can_vote (vpm_plan m) date = true ∧
        vp_payload_type (vpm_plan m) = vote_payload_type (vc_payload cast)
    | EvPublicTally _ _ sig => committee_time (vpm_plan m) date = true ∧ sig ∈ vpm_committee m ∧
        vp_payload_type (vpm_plan m) = PayPublic
    | EvStartPrivate _ sig => committee_time (vpm_plan m) date = true ∧ sig ∈ vpm_committee m ∧
        vp_payload_type (vpm_plan m) = PayPrivate
    | EvFinalize _ _ => ∃ ms crs pk, vpm_managers m = PMPrivate ms crs pk
    end.
Proof.
  split.
  { intros plan date. unfold plan_can_vote, committee_time, vote_finished, committee_started.
    destruct (date_le (vote_end plan) date); cbn; by rewrite ?andb_false_r. }
  intros m date [identifier cast|d g sig|d sig|dec g] m' Hs; cbn in Hs.
  - apply vpm_vote_Ok in Hs. naive_solver.
  - destruct (vpm_public_tally _ _ _ _ _) as [[m1 acts]| |] eqn:Ht; try done.
    apply vpm_public_tally_Ok in Ht as [Ht _]. by eapply tally_checks_Ok.
  - apply bind_Ok in Hs as ([] & Ht & _). by eapply tally_checks_Ok.
  - unfold vpm_finalize_private_tally in Hs. destruct (vpm_managers m); [done|]. by repeat eexists.
Qed.
End plan.

(** ** Tallies *)
Section tallies.
Context `{Election} {Extra : Type}.
Abbreviation Stakes := (TokenIdentifier → TokenDistribution PoolId Extra).

(** C13. A public tally, in whatever order the map of votes is walked, succeeds
    exactly when every account that holds the voting token voted for one of the
    options; it then gives each option the sum of the stakes of its voters,
    capped at the largest [u64], keeps the votes, and hands out the action of
    the proposal when the criteria accept that result. *)
Theorem public_tally_is_stake_sum pm (dt : TokenDistribution PoolId Extra) g n votes :
  (n ≤ 16)%nat → pm_options pm = mkOptions 0 (Z.of_nat n) →
  votes ≡ₚ map_to_list (votes_by_voters pm) → stakes_ok dt votes →
  let result := mkTallyResult (choice_weights dt n votes) (pm_options pm) in
  (∀ r, foldM (public_step dt) (tally_result_new (pm_options pm)) votes = Ok r ↔
     Forall (countable (pm_options pm) dt) votes ∧ r = result) ∧
  (∀ r, pm_public_tally pm dt g = Ok r ↔
     Forall (countable (pm_options pm) dt) votes ∧
     r = (mkPM (votes_by_voters pm) (pm_options pm) (Some (TallyPublic result)) (pm_action pm),
          accepted pm (pm_check pm (distribution_get_total dt) g result))).
Proof.
  intros Hn Ho Hp Hs result. split.
  - intros r. subst result. rewrite Ho, <-(tally_foldl_weights dt n votes Hs).
    apply (foldM_Ok_iff _ _ (tally_wf n)).
    + intros r0 a Hwf Ha Hc. unfold stakes_ok in Hs. rewrite Forall_forall in Hs. apply Hs in Ha.
      split; [by eapply public_step_spec|by apply tally_step_wf].
    + intros r0 a Hwf Ha [x Hx]. destruct (public_step dt r0 a) eqn:Hq; [|done..].
      by eapply public_step_countable.
    + by apply tally_result_new_wf.
  - intros r. rewrite (public_tally_iff pm dt g n r Hn Ho) by (unfold stakes_ok in *; by rewrite <-Hp).
    unfold public_result, result. rewrite (choice_weights_perm dt n _ _ (symmetry Hp)), Ho. by rewrite <-Hp.
Qed.

(** A public vote is accepted whatever its choice; from then on, if the
    choice is not one of the options and the account holds some entry of the
    voting token at the time of the tally, no public tally of the plan
    succeeds, on any proposal. *)
Theorem invalid_choice_blocks_tally (m : VotePlanManager) date identifier cast ms pm choice :
  vpm_managers m = PMPublic ms → ms !! Z.to_nat (proposal_index cast) = Some pm →
  vc_payload cast = VPublic choice → options_validate (pm_options pm) choice = false →
  vc_vote_plan cast = vpm_id m → vp_payload_type (vpm_plan m) = PayPublic →
  plan_can_vote (vpm_plan m) date = true → votes_by_voters pm !! identifier = None →
  ∃ m', vpm_vote m date identifier cast = Ok m' ∧
    ∀ (d : Stakes) date' g sig r, is_Some (distribution_get_account (d (voting_token (vpm_plan m))) identifier) →
      vpm_public_tally m' d date' g sig ≠ Ok r.
Proof.
  intros Hm Hi Hc Hv Hid Hty Hd Hn. eexists. split.
  - apply vpm_vote_Ok. split_and!; [done..|by rewrite Hc|].
    exists (mkValidated (ValPublic choice) (Z.to_nat (proposal_index cast))), pm. rewrite Hm. cbn.
    split_and!; [|done..]. unfold pms_validate_vote. cbn [pms_managers]. rewrite Hi. cbn.
    unfold validate_public_vote, check_already_voted. rewrite Hn, Hc. by rewrite bool_decide_false by (by intros []).
  - intros d date' g sig r Hstake Ht. apply vpm_public_tally_Ok in Ht as (_ & ms' & rs & Hms' & Hrs & _).
    cbn in Hms'. injection Hms' as <-. cbn in Hrs.
    pose proof (list_lookup_insert_eq ms (Z.to_nat (proposal_index cast)) (mkPM (<[identifier:=ValPublic choice]>
      (votes_by_voters pm)) (pm_options pm) (pm_tally pm) (pm_action pm)) (lookup_lt_Some _ _ _ Hi)) as Hi'.
    destruct (Forall2_lookup_l _ _ _ _ _ Hrs Hi') as ([pm' acts] & _ & Hpm').
    unfold pm_public_tally in Hpm'. apply bind_Ok in Hpm' as (t & Hf & _). cbn [votes_by_voters pm_options] in Hf.
    assert (Hin : (identifier, ValPublic choice) ∈ map_to_list (<[identifier:=ValPublic choice]> (votes_by_voters pm)))
      by (apply elem_of_map_to_list, lookup_insert_eq).
    apply list_elem_of_split in Hin as (l1 & l2 & Hl). rewrite Hl, foldM_app in Hf.
    apply bind_Ok in Hf as (t1 & Ht1 & (t2 & Ht2 & _)%bind_Ok).
    assert (Ho : tr_options t1 = pm_options pm).
    { refine (foldM_inv (λ t, tr_options t = pm_options pm) _ _ _ _ _ _ Ht1); [|done].
      intros s a s' _ Hs. by eapply public_step_options. }
    unfold public_step in Ht2. cbn in Ht2, Hstake. destruct Hstake as [stake Hst]. rewrite Hst in Ht2.
    apply map_err_Ok in Ht2. unfold add_vote in Ht2. by rewrite Ho, Hv in Ht2.
Qed.

(** A public tally does not close the plan: applied again within the
    committee's window, by any member of the committee, it succeeds again and
    hands out the same actions a second time. *)
Theorem public_tally_repeatable (m : VotePlanManager) (d : Stakes) date g sig m1 acts date' sig' :
  vpm_public_tally m d date g sig = Ok (m1, acts) →
  committee_time (vpm_plan m) date' = true → sig' ∈ vpm_committee m →
  vpm_public_tally m1 d date' g sig' = Ok (m1, acts).
Proof.
  intros (Hc & ms & rs & Hm & Hrs & [= -> ->])%vpm_public_tally_Ok Hd Hs. apply vpm_public_tally_Ok.
  apply tally_checks_Ok in Hc as (_ & _ & Hty). split.
  - unfold tally_checks, can_committee, valid_committee. cbn. rewrite Hd. cbn. rewrite bool_decide_true by done. cbn.
    by rewrite bool_decide_false by (intros []; done).
  - exists rs.*1, rs. split_and!; [done| |done]. rewrite Forall2_fmap_l. clear -Hrs. cbn.
    revert rs Hrs. induction ms as [|pm ms IH]; intros rs Hrs.
    + by apply Forall2_nil_inv_l in Hrs as ->.
    + apply Forall2_cons_inv_l in Hrs as ([pm' a] & rs' & Hr & Hrs & ->). constructor; [|by apply IH]. cbn.
      unfold pm_public_tally in *. apply bind_Ok in Hr as (t & Ht & [= <- <-]%Ok_inj). cbn. by rewrite Ht.
Qed.

(** Finalizing a private tally checks neither a date nor a committee, and
    pairs the proposals with the decrypted results that are given: with an
    empty list it always succeeds, no action is taken and the plan has no
    proposal left, so that every vote and every later result is refused. *)
Theorem finalize_private_drops_proposals (m : VotePlanManager) g ms crs pk :
  vpm_managers m = PMPrivate ms crs pk →
  let m' := vpm_with m (PMPrivate [] crs pk) in
  vpm_finalize_private_tally m [] g = Ok (m', []) ∧
  (∀ dec, vpm_finalize_private_tally m' dec g = Ok (m', [])) ∧
  ∀ date identifier cast, is_ok (vpm_vote m' date identifier cast) = false.
Proof.
  intros Hm m'. unfold vpm_finalize_private_tally. rewrite Hm. cbn.
  assert (Hz : zip ms ([] : list DecryptedPrivateTallyProposal) = []) by (by destruct ms). rewrite Hz. split; [done|]. split; [done|].
  intros date identifier cast. destruct (vpm_vote m' date identifier cast) eqn:Hv; [|done..].
  apply vpm_vote_Ok in Hv as (_ & _ & _ & v & pm & Hv & Hi & _). done.
Qed.
End tallies.

(** ** Concrete plans *)
#[local] Instance demo_election : Election := {|
  Crs := unit; ElectionPublicKey := unit; MemberPublicKey := unit; Ciphertext := unit;
  ProofOfCorrectVote := unit; Ballot := unit; EncryptedTally := unit; TallyDecryptShare := unit;
  BallotVerificationError := unit; CIPHERTEXT_LEN := 0; ciphertext_to_bytes := λ _, [];
  ciphertext_from_bytes := λ _, Some (); proof_bytes := λ _, []; proof_read := λ b, Ok ((), b);
  MEMBER_KEY_LEN := 0; member_key_to_bytes := λ _, []; member_key_from_bytes := λ _, Some ();
  share_bytes_len := λ _, 0%nat; share_to_bytes := λ _, []; share_from_bytes := λ _, Some ();
  share_options := λ _, 0%nat; crs_from_hash := λ _, (); election_key_from_participants := λ _, ();
  ballot_try_from := λ _ _ _ _, Ok (); encrypted_tally_new := λ _ _ _, (); encrypted_tally_add := λ _ _ _, ();
  tally_verify := λ _ _ _ _, true |}.
Definition demo_token : TokenIdentifier := mkToken (replicate 28 1) [].
Definition demo_proposal : Proposal :=
  mkProposal (demo_key 3) (mkOptions 0 3) (VTreasury (TransferToRewards 5)).
Definition demo_plan (ty : PayloadType) : VotePlan :=
  mkVotePlan (mkDate 1 0) (mkDate 2 0) (mkDate 3 0) [demo_proposal] ty [()] demo_token.
Definition demo_manager (votes : gmap Identifier ValidatedPayload) : ProposalManager :=
  mkPM votes (mkOptions 0 3) None (VTreasury (TransferToRewards 5)).
Definition demo_vpm (ms : ProposalManagers) (ty : PayloadType) : VotePlanManager :=
  mkVPM (demo_key 9) (demo_plan ty) {[ demo_key 8 ]} ms.
Definition demo_cast (choice : Z) : VoteCast := mkVoteCast (demo_key 9) 0 (VPublic choice).
Definition demo_stakes (t : TokenIdentifier) : TokenDistribution PoolId unit :=
  let st v := match state_new (PoolId := PoolId) (TokenId := TokenIdentifier) (E := infallible) 0 () with
              | Ok st => mkState (spending st) (delegation st) 0 {[ demo_token := v ]} (last_rewards st) () :: []
              | _ => [] end in
  mkTokenDistribution {[ demo_token := 30 ]}
    (list_to_map (zip [demo_key 1; demo_key 2] (st 10 ++ st 20))) t.

Lemma votes_recorded_once_witness :
  ∃ m', vpm_vote (demo_vpm (PMPublic [demo_manager ∅]) PayPublic) (mkDate 1 5) (demo_key 1) (demo_cast 2) = Ok m' ∧
    vpm_vote m' (mkDate 1 6) (demo_key 1) (demo_cast 1) = Err AlreadyVoted.
Proof.
  eexists. split; [reflexivity|].
  refine (proj2 (proj2 (proj2 (proj2 (votes_recorded_once (demo_vpm (PMPublic [demo_manager ∅]) PayPublic)
    (mkDate 1 5) (demo_key 1) (demo_cast 2) _ eq_refl)))) (mkDate 1 6) (demo_cast 1) _ _ _ _); reflexivity.
Defined.

Lemma public_plan_invariant_witness :
  ∃ m0 m, vpm_new (λ l, l) (demo_plan PayPublic) ∅ = Ok m0 ∧
    foldM (plan_apply (Extra := unit)) m0
      [(mkDate 1 5, EvVote (demo_key 1) (mkVoteCast (vpm_id m0) 0 (VPublic 2)))] = Ok m ∧
    public_plan (demo_plan PayPublic) (vpm_id m0) ∅ m ∧ vote_of m 0 (demo_key 1) = Some (ValPublic 2).
Proof.
  destruct (vpm_new (λ l, l) (demo_plan PayPublic) ∅) as [m0|e|] eqn:Hm0;
    [|exfalso; vm_compute in Hm0; discriminate Hm0..].
  exists m0. vm_compute in Hm0. apply Ok_inj in Hm0 as Hm0'.
  set (evs := [(mkDate 1 5, EvVote (demo_key 1) (mkVoteCast (vpm_id m0) 0 (VPublic 2)))]).
  destruct (foldM (plan_apply (Extra := unit)) m0 evs) as [m|e|] eqn:Hm;
    [|exfalso; subst m0 evs; vm_compute in Hm; discriminate Hm..].
  exists m. split; [done|]. split; [done|]. split.
  - apply (public_plan_invariant (Extra := unit) (λ l, l) (demo_plan PayPublic) ∅ m0 evs m); [by subst m0; vm_compute|done|done].
  - subst m0 evs. vm_compute in Hm. apply Ok_inj in Hm as <-. vm_compute. reflexivity.
Defined.

Lemma public_tally_is_stake_sum_witness :
  ∃ r acts, pm_public_tally (demo_manager {[ demo_key 1 := ValPublic 1 ]}) (demo_stakes demo_token) governance_default
      = Ok (r, acts) ∧ pm_tally r = Some (TallyPublic (mkTallyResult [0; 10; 0] (mkOptions 0 3))).
Proof.
  set (votes := [(demo_key 1, ValPublic 1)]).
  eexists _, _. split.
  - refine (proj2 (proj2 (public_tally_is_stake_sum (demo_manager {[ demo_key 1 := ValPublic 1 ]}) (demo_stakes demo_token)
      governance_default 3 votes _ _ _ _) _) _); [lia|reflexivity| | |].
    + unfold votes, demo_manager. cbn [votes_by_voters]. by rewrite map_to_list_singleton.
    + constructor; [|constructor]. vm_compute. discriminate.
    + split; [|reflexivity]. constructor; [|constructor]. intros _. exists 1. split; reflexivity.
  - vm_compute. reflexivity.
Defined.

Lemma invalid_choice_blocks_tally_witness :
  ∃ m', vpm_vote (demo_vpm (PMPublic [demo_manager ∅]) PayPublic) (mkDate 1 5) (demo_key 1) (demo_cast 200) = Ok m' ∧
    ∀ r, vpm_public_tally m' demo_stakes (mkDate 2 5) governance_default (demo_key 8) ≠ Ok r.
Proof.
  destruct (invalid_choice_blocks_tally (Extra := unit) (demo_vpm (PMPublic [demo_manager ∅]) PayPublic) (mkDate 1 5)
    (demo_key 1) (demo_cast 200) [demo_manager ∅] (demo_manager ∅) 200) as (m' & Hm' & Ht); try reflexivity.
  exists m'. split; [exact Hm'|]. intros r. apply Ht. vm_compute. by eexists.
Defined.

Lemma public_tally_repeatable_witness :
  ∃ m1 acts, acts = [VTreasury (TransferToRewards 5)] ∧
    vpm_public_tally (demo_vpm (PMPublic [demo_manager {[ demo_key 2 := ValPublic 1 ]}]) PayPublic) demo_stakes
      (mkDate 2 5) governance_default (demo_key 8) = Ok (m1, acts) ∧
    vpm_public_tally m1 demo_stakes (mkDate 2 7) governance_default (demo_key 8) = Ok (m1, acts).
Proof.
  set (m0 := demo_vpm (PMPublic [demo_manager {[ demo_key 2 := ValPublic 1 ]}]) PayPublic).
  destruct (vpm_public_tally m0 demo_stakes (mkDate 2 5) governance_default (demo_key 8)) as [[m1 acts]|e|] eqn:Ht;
    [|exfalso; vm_compute in Ht; discriminate Ht..].
  exists m1, acts. split; [|split; [done|]].
  - vm_compute in Ht. by injection Ht as _ <-.
  - apply (public_tally_repeatable m0 demo_stakes (mkDate 2 5) governance_default (demo_key 8)); [done|reflexivity|].
    unfold m0, demo_vpm. cbn. set_solver.
Defined.

Lemma finalize_private_drops_proposals_witness :
  vpm_finalize_private_tally (demo_vpm (PMPrivate [demo_manager ∅] () ()) PayPrivate) [] governance_default =
    Ok (demo_vpm (PMPrivate [] () ()) PayPrivate, []).
Proof.
  apply (finalize_private_drops_proposals (demo_vpm (PMPrivate [demo_manager ∅] () ()) PayPrivate)
    governance_default [demo_manager ∅] () ()). reflexivity.
Defined.
