(* ===== verification/UpdateCert.v ===== *)
(** * Update certificates ([certificate/{update_proposal,update_vote}.rs])

    The wire form of update proposals and votes, and the payloads of the
    transactions that carry them.  The ledger state they act on is in
    [Settings]. *)
From S2P Require Import Prelude Codec Key Value Addr Input Transaction TransactionSpec Config ConfigSpec Settings PoolCert PoolCertSpec.
Local Open Scope Z_scope.

Definition update_proposal_serialize_in (p : UpdateProposal) (bb : ByteBuilder) : outcome infallible ByteBuilder :=
  cs ← unwrap (config_params_serialize (changes p));
  Ok (bb_bytes (bb_bytes bb cs) (proposer_id p)).
Definition update_proposal_read : Reader UpdateProposal :=
  changes ← config_params_read; proposer_id ← deserialize_public_key;
  mret (mkProposal changes proposer_id).
Definition update_vote_serialize_in (v : UpdateVote) (bb : ByteBuilder) : ByteBuilder :=
  bb_bytes (bb_bytes bb (uv_proposal_id v)) (voter_id v).
Definition update_vote_read : Reader UpdateVote :=
  proposal_id ← hash_read; voter_id ← deserialize_public_key; mret (mkUpdateVote proposal_id voter_id).
#[export] Instance update_proposal_payload : Payload UpdateProposal := {|
  HAS_DATA := true; HAS_AUTH := true; Auth := list Z;
  payload_read := update_proposal_read; auth_read := single_binding_read;
  payload_data := λ p, as_vec (update_proposal_serialize_in p bb_new);
  payload_auth_data := λ a, Ok (bb_finalize_as_vec (bb_bytes bb_new a));
  payload_to_certificate_slice := λ _, Some CUpdateProposal |}.
#[export] Instance update_vote_payload : Payload UpdateVote := {|
  HAS_DATA := true; HAS_AUTH := true; Auth := list Z;
  payload_read := update_vote_read; auth_read := single_binding_read;
  payload_data := λ v, Ok (bb_finalize_as_vec (update_vote_serialize_in v bb_new));
  payload_auth_data := λ a, Ok (bb_finalize_as_vec (bb_bytes bb_new a));
  payload_to_certificate_slice := λ _, Some CUpdateVote |}.

(** ** Reading a configuration parameter never panics *)
Definition safe {A} (r : Reader A) : Prop := ∀ pre rest,
  match r (rb_at pre rest) with
  | Ok (_, b') => ∃ pre' rest', b' = rb_at pre' rest'
  | Err _ => True
  | Panic => False
  end.
Lemma local_safe {A} (r : Reader A) : local r → safe r.
Proof. intros Hr pre rest. specialize (Hr pre rest). destruct (r _) as [[a b]|e|]; naive_solver. Qed.
Lemma safe_bind {A B} (r : Reader A) (k : A → Reader B) : safe r → (∀ a, safe (k a)) → safe (a ← r; k a).
Proof.
  intros Hr Hk pre rest. rewrite reader_bind_eq. specialize (Hr pre rest).
  destruct (r _) as [[a b]|e|]; cbn; [|done..]. destruct Hr as (pre' & rest' & ->). apply Hk.
Qed.
Lemma safe_expect_end : safe expect_end.
Proof. intros pre rest. unfold expect_end. cbn. destruct (_ =? 0)%nat; [by exists pre, rest|done]. Qed.
Lemma of_reader_safe {A} (r : Reader A) payload : safe r → of_reader r payload ≠ Panic.
Proof.
  intros Hr. unfold of_reader. change (rb_from payload) with (rb_at [] payload). specialize (Hr [] payload).
  by destruct (r _) as [[a b]|e|].
Qed.

Lemma fmap_no_panic {E A B} (f : A → B) (m : outcome E A) : m ≠ Panic → f <$> m ≠ Panic.
Proof. by destruct m. Qed.
Lemma map_err_no_panic {E F A} (f : E → F) (m : outcome E A) : m ≠ Panic → map_err f m ≠ Panic.
Proof. by destruct m. Qed.
Lemma bind_no_panic {E A B} (m : outcome E A) (k : A → outcome E B) :
  m ≠ Panic → (∀ a, m = Ok a → k a ≠ Panic) → (a ← m; k a) ≠ Panic.
Proof. destruct m; cbn; intros Hm Hk; try done. by apply Hk. Qed.
Lemma uint_no_panic n b : uint_from_payload n b ≠ Panic.
Proof. unfold uint_from_payload. by case_match. Qed.
Lemma slice_range_no_panic {E} (l : list Z) lo hi :
  (lo ≤ hi ≤ length l)%nat → slice_range (E := E) l lo hi ≠ Panic.
Proof. intros Hl. unfold slice_range. by rewrite decide_True by lia. Qed.
Lemma slice_u64_no_panic (l : list Z) lo hi :
  (lo ≤ hi ≤ length l)%nat → (s ← slice_range l lo hi; u64_from_payload s) ≠ Panic.
Proof. intros Hl. apply bind_no_panic; [by apply slice_range_no_panic|]. intros. apply uint_no_panic. Qed.

Lemma slice_u64_bind_no_panic {A} (l : list Z) lo hi (k : Z → outcome ConfigError A) :
  (lo ≤ hi ≤ length l)%nat → (∀ v, k v ≠ Panic) → (v ← (s ← slice_range l lo hi; u64_from_payload s); k v) ≠ Panic.
Proof. intros Hl Hk. apply bind_no_panic; [by apply slice_u64_no_panic|]. intros. apply Hk. Qed.
Lemma consensus_no_panic b : consensus_from_payload b ≠ Panic.
Proof. apply bind_no_panic; [apply uint_no_panic|]. intros a _. by destruct (consensus_from_u16 a). Qed.
Lemma linear_fee_no_panic b : linear_fee_from_payload b ≠ Panic.
Proof.
  unfold linear_fee_from_payload. destruct (Nat.eqb_spec (length b) (3 * 8)); [|done]. cbn [negb].
  repeat (apply slice_u64_bind_no_panic; [lia|]; intros ?). done.
Qed.
Lemma per_cert_no_panic b : per_cert_from_payload b ≠ Panic.
Proof.
  unfold per_cert_from_payload. destruct (Nat.eqb_spec (length b) (3 * 8)); [|done]. cbn [negb].
  repeat (apply slice_u64_bind_no_panic; [lia|]; intros ?). done.
Qed.
Lemma per_vote_no_panic b : per_vote_from_payload b ≠ Panic.
Proof.
  unfold per_vote_from_payload. destruct (Nat.eqb_spec (length b) (2 * 8)); [|done]. cbn [negb].
  repeat (apply slice_u64_bind_no_panic; [lia|]; intros ?). done.
Qed.
Lemma safe_nz : safe get_nz_u32 ∧ safe get_nz_u64 ∧ safe get_u32 ∧ safe get_u64.
Proof. unfold get_nz_u64, get_nz_u32. split_and!; apply local_safe; auto with readers. Qed.
Ltac safe_steps := repeat (apply safe_bind; [by (apply safe_nz || apply safe_expect_end)|]; intros ?);
  apply local_safe, local_ret.
Lemma tax_no_panic b : tax_from_payload b ≠ Panic.
Proof. apply of_reader_safe. apply safe_bind; [apply local_safe, local_tax|]. intros a. safe_steps. Qed.
Lemma ratio_no_panic b : ratio_from_payload b ≠ Panic.
Proof. apply of_reader_safe. safe_steps. Qed.
Lemma capping_no_panic b : capping_from_payload b ≠ Panic.
Proof. apply of_reader_safe. safe_steps. Qed.
Lemma reward_params_no_panic b : reward_params_from_payload b ≠ Panic.
Proof.
  assert (∀ mk, safe (read_reward_fields mk)) as Hrw by (intros mk; unfold read_reward_fields; safe_steps).
  unfold reward_params_from_payload. change (rb_from b) with (rb_at [] b).
  pose proof (local_safe _ local_get_u8 [] b) as Hu. destruct (get_u8 _) as [[t b']|e|]; [|done..].
  destruct Hu as (pre & rest & ->). cbn.
  destruct (t =? 1); [|destruct (t =? 2); [|done]]; apply map_err_no_panic, fmap_no_panic; intros Hp;
    [specialize (Hrw RPLinear pre rest)|specialize (Hrw RPHalving pre rest)]; by rewrite Hp in Hrw.
Qed.
Lemma bytes_no_panic b :
  discrimination_from_payload b ≠ Panic ∧ u8_from_payload b ≠ Panic ∧ bool_from_payload b ≠ Panic ∧
  bft_leader_from_payload b ≠ Panic ∧ committee_from_payload b ≠ Panic.
Proof.
  unfold discrimination_from_payload, u8_from_payload, bool_from_payload, bft_leader_from_payload,
    public_from_binary, committee_from_payload, committee_try_from. split_and!; by repeat case_match.
Qed.
Lemma config_variant_no_panic tag bytes : config_variant tag bytes ≠ Panic.
Proof.
  pose proof (bytes_no_panic bytes) as (? & ? & ? & ? & ?). unfold config_variant.
  repeat (case_match; try done); apply fmap_no_panic; try apply uint_no_panic;
    auto using consensus_no_panic, linear_fee_no_panic,
    per_cert_no_panic, per_vote_no_panic, tax_no_panic, ratio_no_panic, capping_no_panic, reward_params_no_panic.
Qed.
Lemma local_config_read : local config_read.
Proof.
  unfold config_read. apply local_bind; [apply local_slice_map|]. intros taglen.
  apply local_bind; [apply local_get_slice|]. intros bytes. unfold taglen_get_tag.
  destruct (tag_from_u16 _) as [tag|]; cbn [ok_or]; [|apply local_fail].
  pose proof (config_variant_no_panic tag bytes). destruct (config_variant tag bytes); [apply local_ret|apply local_fail|done].
Qed.
#[export] Instance update_proposal_local : PayloadLocal UpdateProposal.
Proof.
  pose proof local_config_read. assert (local get_u16) by apply local_slice_map.
  split; [|apply local_signature]. cbn. unfold update_proposal_read, config_params_read. auto 10 with readers.
Qed.
#[export] Instance update_vote_local : PayloadLocal UpdateVote.
Proof.
  assert (local hash_read) by apply local_get_slice.
  split; [|apply local_signature]. cbn. unfold update_vote_read. auto 10 with readers.
Qed.

(** ** Round trip *)
Lemma config_params_bytes ps :
  Forall config_ok ps → Z.of_nat (length ps) < 2 ^ 16 →
  ∃ bytes, config_params_serialize ps = Ok bytes ∧ reads config_params_read ps bytes.
Proof.
  intros Hps Hlen. unfold config_params_serialize. rewrite config_serialize_all by done. eexists. split; [done|].
  unfold codec_put_be. cbn [app]. rewrite wrap_small by (unfold in_u; change (2 ^ 16) with 65536; lia).
  eapply reads_bind; [apply reads_u16; unfold in_u; change (2 ^ 16) with 65536; lia|].
  rewrite Nat2Z.id. apply reads_vec. intros q Hq. rewrite Forall_forall in Hps.
  by apply config_serialize_ok, Hps.
Qed.

(** An update proposal of parameters within their widths and a vote for it,
    each with its signature, are written without a panic and read back. *)
Theorem update_certificates_roundtrip p v sig :
  Forall config_ok (changes p) → Z.of_nat (length (changes p)) < 2 ^ 16 →
  length (proposer_id p) = PUBLIC_KEY_SIZE → length (uv_proposal_id v) = HASH_SIZE →
  length (voter_id v) = PUBLIC_KEY_SIZE → length sig = SIGNATURE_SIZE →
  (payload_ok p ∧ payload_auth_ok (P := UpdateProposal) sig ∧ is_ok (payload_data p) = true) ∧
  (payload_ok v ∧ payload_auth_ok (P := UpdateVote) sig ∧ is_ok (payload_data v) = true).
Proof.
  intros Hps Hlen Hp Hid Hv Hsig. destruct (config_params_bytes _ Hps Hlen) as (bs & Hbs & Hr).
  assert (payload_data p = Ok (bs ++ proposer_id p)) as Ep.
  { cbn. unfold as_vec, update_proposal_serialize_in. by rewrite Hbs. }
  assert (payload_data v = Ok (uv_proposal_id v ++ voter_id v)) as Ev by done.
  split_and!; try done.
  - intros _. unfold payload_bytes. rewrite Ep. cbn. split; [done|]. unfold update_proposal_read. eapply reads_bind; [exact Hr|].
    destruct p; cbn in *. by apply (reads_bind_ret _ (λ k, mkProposal _ k)), reads_public_key.
  - intros _. unfold payload_auth_bytes. cbn. split; [done|]. split; [by apply reads_signature|]. by destruct sig.
  - by rewrite Ep.
  - intros _. unfold payload_bytes. rewrite Ev. cbn. split; [done|]. unfold update_vote_read. eapply reads_bind; [by apply reads_slice_len|].
    destruct v; cbn in *. by apply (reads_bind_ret _ (λ k, mkUpdateVote _ k)), reads_public_key.
  - intros _. unfold payload_auth_bytes. cbn. split; [done|]. split; [by apply reads_signature|]. by destruct sig.
Qed.

Lemma update_certificates_roundtrip_witness :
  payload_ok (mkProposal [PSlotDuration 20] (replicate 32 1)) ∧
  payload_ok (mkUpdateVote (replicate 32 2) (replicate 32 1)).
Proof.
  destruct (update_certificates_roundtrip (mkProposal [PSlotDuration 20] (replicate 32 1))
    (mkUpdateVote (replicate 32 2) (replicate 32 1)) (replicate 64 3)) as [[Hp _] [Hv _]]; try reflexivity.
  - constructor; [|constructor]. cbn. split; vm_compute; [discriminate|reflexivity].
  - split; [exact Hp|exact Hv].
Defined.
