(* ===== verification/LeaderLog.v ===== *)
(** * The leaders' log and the reward report ([ledger/{leaderlog,reward_info}.rs])

    How many blocks each pool made in the epoch, with the total kept beside
    the map; and what a distribution of rewards reports about itself. *)
From S2P Require Import Prelude Hamt HamtSpec Value Addr Stake PoolCert.
Local Open Scope Z_scope.

(** ** [leaderlog.rs] *)
Record LeadersParticipationRecord := mkLeaders { leaders_total : Z; leaders_map : gmap PoolId Z }.
Definition leaders_new : LeadersParticipationRecord := mkLeaders 0 ∅.
Definition nb_participants (l : LeadersParticipationRecord) : nat := size (leaders_map l).
(** [u32] additions. *)
Definition increase_for (l : LeadersParticipationRecord) (pool : PoolId) : LeadersParticipationRecord :=
  mkLeaders (wrap 32 (leaders_total l + 1))
    (hm_insert_or_update_simple (leaders_map l) pool 1 (λ v, Some (wrap 32 (v + 1)))).
Definition set_for (l : LeadersParticipationRecord) (pool : PoolId) (v : Z) :
    outcome InsertError LeadersParticipationRecord :=
  log ← hm_insert (leaders_map l) pool v;
  Ok (mkLeaders (wrap 32 (leaders_total l + v)) log).

(** ** [reward_info.rs] *)
Record RewardsInfoParameters := mkRewardsInfoParameters { report_stake_pools : bool; report_accounts : bool }.
Definition report_none : RewardsInfoParameters := mkRewardsInfoParameters false false.
Definition report_all : RewardsInfoParameters := mkRewardsInfoParameters true true.
Record EpochRewardsInfo := mkRewardsInfo {
  ri_params : RewardsInfoParameters;
  ri_drawn : Value; ri_fees : Value; ri_treasury : Value;
  ri_stake_pools : gmap PoolId (Value * Value);
  ri_accounts : gmap Identifier Value }.
Definition rewards_info_new (params : RewardsInfoParameters) : EpochRewardsInfo :=
  mkRewardsInfo params value_zero value_zero value_zero ∅ ∅.
Definition ri_set_basic (i : EpochRewardsInfo) (drawn fees : Value) : EpochRewardsInfo :=
  mkRewardsInfo (ri_params i) drawn fees (ri_treasury i) (ri_stake_pools i) (ri_accounts i).
Definition ri_set_treasury {E} (i : EpochRewardsInfo) (value : Value) : outcome E EpochRewardsInfo :=
  assert_that (ri_treasury i =? value_zero) ;;
  Ok (mkRewardsInfo (ri_params i) (ri_drawn i) (ri_fees i) value (ri_stake_pools i) (ri_accounts i)).
Definition ri_set_stake_pool (i : EpochRewardsInfo) (pool : PoolId) (owned distributed : Value) : EpochRewardsInfo :=
  if report_stake_pools (ri_params i)
  then mkRewardsInfo (ri_params i) (ri_drawn i) (ri_fees i) (ri_treasury i)
         (<[pool := (owned, distributed)]> (ri_stake_pools i)) (ri_accounts i)
  else i.
Definition ri_add_to_account {E} (i : EpochRewardsInfo) (account : Identifier) (value : Value) :
    outcome E EpochRewardsInfo :=
  if report_accounts (ri_params i)
  then
    v ← unwrap (value_add (default value_zero (ri_accounts i !! account)) value);
    Ok (mkRewardsInfo (ri_params i) (ri_drawn i) (ri_fees i) (ri_treasury i) (ri_stake_pools i)
          (<[account := v]> (ri_accounts i)))
  else Ok i.
Definition ri_total {E} (i : EpochRewardsInfo) : outcome E Value := unwrap (value_add (ri_drawn i) (ri_fees i)).

(** ** The log keeps its total *)
Definition leaders_ok (l : LeadersParticipationRecord) : Prop :=
  map_Forall (λ _ v, 0 ≤ v) (leaders_map l) ∧ leaders_total l = map_sum id (leaders_map l) ∧ u32_ok (leaders_total l).

Lemma leaders_new_ok : leaders_ok leaders_new.
Proof. split; [apply map_Forall_empty|]. split; [symmetry; apply (map_sum_empty id)|]. by split. Qed.

Lemma leaders_entry_le l pool v : leaders_ok l → leaders_map l !! pool = Some v → 0 ≤ v ≤ leaders_total l.
Proof.
  intros (Hp & -> & _) Hv. split; [by eapply Hp|]. by apply (map_sum_lookup_le id (leaders_map l) pool v).
Qed.

(** The log of an epoch: blocks made, entries restored. *)
Inductive log_op := LogBlock (pool : PoolId) | LogSet (pool : PoolId) (v : Z).
Definition log_run (l : LeadersParticipationRecord) (o : log_op) : outcome InsertError LeadersParticipationRecord :=
  match o with LogBlock pool => Ok (increase_for l pool) | LogSet pool v => set_for l pool v end.
Definition log_amount (o : log_op) : Z := match o with LogBlock _ => 1 | LogSet _ v => v end.
(** What an entry gains. *)
Definition log_for (pool : PoolId) (o : log_op) : Z :=
  match o with LogBlock p | LogSet p _ => if decide (p = pool) then log_amount o else 0 end.

Lemma log_step l o l' :
  leaders_ok l → 0 ≤ log_amount o → leaders_total l + log_amount o < 2 ^ 32 → log_run l o = Ok l' →
  leaders_ok l' ∧ leaders_total l' = leaders_total l + log_amount o ∧
  ∀ pool, default 0 (leaders_map l' !! pool) = default 0 (leaders_map l !! pool) + log_for pool o.
Proof.
  intros Hl Ho Hb. pose proof Hl as (Hp & Ht & Hu). unfold u32_ok, in_u in Hu.
  assert (Hin : in_u 32 (leaders_total l + log_amount o)) by (unfold in_u; lia).
  destruct o as [pool|pool v]; cbn in *.
  - intros <-%Ok_inj. unfold increase_for. cbn. rewrite (wrap_small 32) by done.
    set (v0 := default 0 (leaders_map l !! pool)).
    assert (hm_insert_or_update_simple (leaders_map l) pool 1 (λ v, Some (wrap 32 (v + 1))) =
      <[pool := v0 + 1]> (leaders_map l)) as ->.
    { unfold hm_insert_or_update_simple, v0. destruct (leaders_map l !! pool) as [v|] eqn:Hv; cbn; [|done].
      destruct (leaders_entry_le l pool v Hl Hv). by rewrite wrap_small by (unfold in_u; lia). }
    assert (0 ≤ v0) by (unfold v0; destruct (leaders_map l !! pool) eqn:Hv; cbn; [by eapply Hp|lia]).
    split; [|split; [done|]].
    + split; [apply map_Forall_insert_2; [lia|done]|]. cbn. split; [|unfold u32_ok, in_u; lia]. rewrite Ht. unfold v0.
      destruct (leaders_map l !! pool) as [v|] eqn:Hv; cbn.
      * rewrite (map_sum_insert id (leaders_map l) pool v) by done. unfold id. lia.
      * rewrite map_sum_insert_new by done. unfold id. lia.
    + intros p. destruct (decide (pool = p)) as [->|Hne].
      * by rewrite lookup_insert_eq.
      * rewrite lookup_insert_ne by done. lia.
  - intros (log & (Hv & ->)%hm_insert_Ok & <-%Ok_inj)%bind_Ok. cbn. rewrite (wrap_small 32) by done.
    split; [|split; [done|]].
    + split; [by apply map_Forall_insert_2|]. cbn. split; [|unfold u32_ok, in_u; lia].
      rewrite map_sum_insert_new by done. unfold id at 1. lia.
    + intros p. destruct (decide (pool = p)) as [->|Hne].
      * rewrite lookup_insert_eq, Hv. cbn. lia.
      * rewrite lookup_insert_ne by done. lia.
Qed.

(** As long as the blocks fit a [u32], the log counts every block: the
    total is the number of blocks and restored counts, it is the sum of the
    entries, and each entry is what its pool made. *)
Theorem leaders_log_counts ops l :
  Forall (λ o, 0 ≤ log_amount o) ops → Zsum (log_amount <$> ops) < 2 ^ 32 →
  foldM log_run leaders_new ops = Ok l →
  leaders_ok l ∧ leaders_total l = Zsum (log_amount <$> ops) ∧
  ∀ pool, default 0 (leaders_map l !! pool) = Zsum (log_for pool <$> ops).
Proof.
  intros Hpos. revert l. induction ops as [|o ops IH] using rev_ind; intros l Hb Hl.
  - apply Ok_inj in Hl as <-. split; [apply leaders_new_ok|]. done.
  - apply Forall_app in Hpos as [Hpos Ho%Forall_inv]. rewrite fmap_app, Zsum_app in Hb. cbn in Hb.
    rewrite foldM_app in Hl. apply bind_Ok in Hl as (l1 & H1 & (l2 & H2 & <-%Ok_inj)%bind_Ok).
    destruct (IH Hpos l1) as (Hok & Ht & Hp); [lia|done|].
    destruct (log_step l1 o l2 Hok Ho) as (Hok2 & Ht2 & Hp2); [lia|done|].
    split; [done|]. rewrite fmap_app, Zsum_app. cbn. split; [lia|].
    intros pool. rewrite fmap_app, Zsum_app, Hp2, Hp. cbn. lia.
Qed.

Lemma leaders_log_counts_witness :
  ∃ l, foldM log_run leaders_new [LogSet [1] 4; LogBlock [2]; LogBlock [1]] = Ok l ∧
    leaders_total l = 6 ∧ default 0 (leaders_map l !! [1]) = 5.
Proof.
  destruct (foldM log_run leaders_new [LogSet [1] 4; LogBlock [2]; LogBlock [1]]) as [l|e|] eqn:Hl;
    [|vm_compute in Hl; discriminate Hl..].
  exists l. split; [done|].
  destruct (leaders_log_counts [LogSet [1] 4; LogBlock [2]; LogBlock [1]] l ltac:(repeat constructor; cbn; lia) ltac:(vm_compute; reflexivity) Hl) as (_ & Ht & Hp).
  split; [exact Ht|exact (Hp [1])].
Defined.
