(* ===== verification/LedgerRanges.v ===== *)
(** * What the ledger keeps of what was read from bytes

    First, what the structure check of transactions relies on for the other
    certificates: vote plans, votes, tallies, minting and stake delegations are
    read from their own bytes only, so that [TransactionSpec] applies to them,
    and the values they carry are [u64]s.  Then the ranges the ledger keeps. *)
From S2P Require Import Prelude Codec Key Value Addr Input Transaction TransactionSpec Governance PoolCert PoolCertSpec DelegationCert Tokens VoteCert Rewards Time Stake Config ConfigSpec Settings UpdateSpec Votes VotesSpec UpdateCert HamtSpec.
Local Open Scope Z_scope.

(** The proof of a private vote is read from its own bytes. *)
Class ElectionReads `{Election} : Prop := { proof_local : local proof_read }.

(** ** Locality *)
Lemma partial_bind {A B} (r : Reader A) (k : A → Reader B) :
  partial_local r → (∀ a, partial_local (k a)) → partial_local (r ≫= k).
Proof.
  intros Hr Hk pre rest b b'. rewrite reader_bind_eq. intros ([a b1] & Ha & Hb)%bind_Ok.
  destruct (Hr _ _ _ _ Ha) as (bs & post & -> & -> & Hra). destruct (Hk a _ _ _ _ Hb) as (bs2 & post2 & -> & -> & Hrb).
  exists (bs ++ bs2), post2. rewrite <-!app_assoc. split_and!; [done..|]. by eapply reads_bind.
Qed.
Lemma partial_panic {A} : partial_local (read_fun (λ _, Panic) : Reader A).
Proof. intros pre rest a b' Ho. cbn in Ho. discriminate Ho. Qed.

Lemma local_payload_type : local payload_type_read.
Proof.
  apply local_bind; [auto with readers|]. intros v. apply local_reader_of. unfold payload_type_try_from.
  by repeat case_match.
Qed.
Lemma local_committee_read : local committee_read.
Proof. apply local_bind; [auto with readers|]. intros s. apply local_match_opt; [apply local_fail|intros; apply local_ret]. Qed.
Lemma local_committee_proof : local committee_proof_read.
Proof. pose proof local_committee_read. unfold committee_proof_read, single_binding_read. auto 10 with readers. Qed.
Lemma local_token_name : local token_name_read.
Proof. unfold token_name_read. auto 10 with readers. Qed.
Lemma local_policy_hash : local policy_hash_read.
Proof.
  intros pre rest. unfold policy_hash_read. rewrite reader_bind_eq. pose proof (local_get_slice POLICY_HASH_SIZE pre rest) as Hs.
  destruct (get_slice _ _) as [[bs b]|e|] eqn:Hg; [|done|done]. cbn [mbind outcome_bind].
  destruct Hs as (bs' & post & -> & -> & Hr).
  assert (Hl : length bs = POLICY_HASH_SIZE).
  { rewrite get_slice_eq in Hg by apply rb_at_ok. case_decide as Hd; [|done]. apply Ok_inj in Hg. injection Hg as <- _.
    rewrite rb_at_left in Hd. unfold rb_next, rb_at. cbn [rb_data rb_offset]. rewrite drop_app_length, length_take. lia. }
  rewrite (proj2 (Nat.eqb_eq _ _) Hl). cbn. exists bs', post. split_and!; [done..|].
  rewrite <-(app_nil_r bs'). eapply reads_bind; [exact Hr|]. rewrite (proj2 (Nat.eqb_eq _ _) Hl). apply reads_ret.
Qed.
Lemma local_token_identifier : local token_identifier_read.
Proof. pose proof local_token_name. pose proof local_policy_hash. unfold token_identifier_read. auto 10 with readers. Qed.
Lemma local_date : local date_read.
Proof. unfold date_read. auto 10 with readers. Qed.
Lemma local_options : local options_read.
Proof.
  apply local_bind; [auto with readers|]. intros v. apply local_reader_of. unfold options_new_length. by case_match.
Qed.
Lemma local_vote_action : local vote_action_read.
Proof. unfold vote_action_read. auto 10 with readers. Qed.
#[export] Hint Resolve local_payload_type local_committee_read local_committee_proof local_token_name local_policy_hash
  local_token_identifier local_date local_options local_vote_action : readers.
Lemma local_proposal : local proposal_read.
Proof. unfold proposal_read, read_array. auto 10 with readers. Qed.
#[export] Hint Resolve local_proposal local_vec : readers.

#[export] Instance stake_delegation_partial : PayloadPartial StakeDelegation.
Proof.
  pose proof local_delegation. split; cbn.
  - unfold stake_delegation_read, read_array. auto 10 with readers.
  - apply partial_bind; [apply local_partial; auto with readers|]. intros tag.
    destruct (tag =? 1); [apply local_partial; unfold deserialize_signature; auto 10 with readers|].
    destruct (tag =? 2); [apply partial_panic|apply local_partial, local_fail].
Qed.
(** The structure check of a received stake delegation panics only on the tag 2 of
    a multisig binding signature, and there it does. *)
Lemma stake_delegation_check data : tx_check StakeDelegation data = Panic → ∃ pre rest, data = pre ++ 2 :: rest.
Proof.
  unfold tx_check. intros Hp. assert (get_spine StakeDelegation data = Panic) as Hs by (by destruct (get_spine StakeDelegation data)).
  apply get_spine_panic in Hs as (_ & pre & [|tag rest] & -> & Hr & Ha); [done|]. exists pre, rest.
  cbn [auth_read stake_delegation_payload] in Ha. unfold account_binding_read in Ha. rewrite reader_bind_eq in Ha.
  change (tag :: rest) with ([tag] ++ rest) in Ha. rewrite (proj1 (reads_at _ _ _) (reads_u8 tag)) in Ha.
  cbn [mbind outcome_bind] in Ha. destruct (tag =? 1); [|destruct (tag =? 2) eqn:H2; [by apply Z.eqb_eq in H2 as ->|done]].
  pose proof (local_bind _ _ local_signature (λ s, local_ret (ABSingle s))) as Hl. by specialize (Hl (pre ++ [tag]) rest); rewrite Ha in Hl.
Qed.
Example multisig_binding_panics : tx_check StakeDelegation (replicate 43 0 ++ [2]) = Panic.
Proof. by vm_compute. Qed.
#[export] Instance mint_token_local : PayloadLocal MintToken.
Proof.
  assert (local value_read) by apply local_slice_map.
  split; [|apply local_ret]. cbn. unfold mint_token_read, minting_policy_read. auto 20 with readers.
Qed.

Section votes.
Context `{Election}.
Lemma local_member_key : local member_key_read.
Proof using Type. apply local_bind; [auto with readers|]. intros s. apply local_match_opt; [apply local_fail|intros; apply local_ret]. Qed.
Lemma local_ciphertext : local ciphertext_read.
Proof using Type. apply local_bind; [auto with readers|]. intros s. apply local_match_opt; [apply local_fail|intros; apply local_ret]. Qed.
Lemma local_share n : local (share_read n).
Proof using Type. apply local_bind; [auto with readers|]. intros s. apply local_match_opt; [apply local_fail|intros; apply local_ret]. Qed.
#[export] Instance vote_plan_local : PayloadLocal VotePlan.
Proof using Type.
  pose proof local_member_key. split; [|apply local_committee_proof]. cbn. unfold vote_plan_read. auto 40 with readers.
Qed.
#[export] Instance vote_cast_local `{!ElectionReads} : PayloadLocal VoteCast.
Proof using Type*.
  pose proof local_ciphertext. pose proof proof_local. split; [|apply local_ret]. cbn.
  unfold vote_cast_read, vote_payload_read, encrypted_vote_read, read_array.
  apply local_bind; [auto with readers|]. intros ?. apply local_bind; [auto with readers|]. intros ?.
  apply local_bind; [|intros; apply local_ret]. apply local_bind; [auto with readers|]. intros []; auto 20 with readers.
Qed.
#[export] Instance vote_tally_local : PayloadLocal VoteTally.
Proof using Type.
  split; cbn.
  - unfold vote_tally_read, read_array. apply local_bind; [auto with readers|]. intros ?.
    apply local_bind; [auto with readers|]. intros []; [apply local_ret|].
    assert (local decrypted_proposal_read).
    { unfold decrypted_proposal_read. apply local_bind; [auto with readers|]. intros ?. apply local_bind; [auto with readers|]. intros ?.
      apply local_bind; [apply local_vec, local_share|]. intros ?. apply local_bind; [apply local_vec, local_slice_map|]. intros. apply local_ret. }
    apply local_bind; [auto with readers|]. intros ?. apply local_bind; [auto with readers|]. intros ?.
    apply local_match_opt; [apply local_fail|intros; apply local_ret].
  - unfold tally_proof_read. auto 20 with readers.
Qed.
#[export] Instance encrypted_vote_tally_local : PayloadLocal EncryptedVoteTally.
Proof using Type. split; [|apply local_committee_proof]. cbn. unfold encrypted_vote_tally_read, read_array. auto 10 with readers. Qed.
End votes.

(** ** What is read from bytes is in range *)
Definition ensures {A} (r : Reader A) (Q : A → Prop) : Prop := ∀ pre rest a b',
  bytes_ok rest → r (rb_at pre rest) = Ok (a, b') → Q a ∧ ∃ pre' rest', b' = rb_at pre' rest' ∧ bytes_ok rest'.
Lemma ensures_local {A} (r : Reader A) : local r → ensures r (λ _, True).
Proof.
  intros Hr pre rest a b' Hb Ho. destruct (local_partial r Hr _ _ _ _ Ho) as (bs & post & -> & -> & _).
  split; [done|]. apply Forall_app in Hb as [_ Hb]. by eexists _, _.
Qed.
Lemma ensures_bind {A B} (r : Reader A) (k : A → Reader B) Q1 Q2 :
  ensures r Q1 → (∀ a, Q1 a → ensures (k a) Q2) → ensures (r ≫= k) Q2.
Proof.
  intros Hr Hk pre rest b b' Hb. rewrite reader_bind_eq. intros ([a b1] & Ha & Hkb)%bind_Ok.
  destruct (Hr _ _ _ _ Hb Ha) as [Hq (pre' & rest' & -> & Hb')]. by apply (Hk a Hq _ _ _ _ Hb' Hkb).
Qed.
Lemma ensures_ret {A} (a : A) (Q : A → Prop) : Q a → ensures (mret a) Q.
Proof. intros Hq pre rest a' b' Hb [= <- <-]. split; [done|by eexists _, _]. Qed.
Lemma ensures_fail {A} e (Q : A → Prop) : ensures (read_fail e) Q.
Proof. intros pre rest a b' _ Ho. cbn in Ho. discriminate Ho. Qed.
Lemma ensures_slice n : ensures (get_slice n) (λ s, length s = n ∧ bytes_ok s).
Proof.
  intros pre rest s b' Hb. rewrite get_slice_eq by apply rb_at_ok. rewrite rb_at_left. case_decide as Hd; [|done].
  intros [= <- <-]. unfold rb_next, rb_at, rb_advance. cbn [rb_data rb_offset]. rewrite drop_app_length. split.
  - rewrite length_take. split; [lia|by apply Forall_take].
  - exists (pre ++ take n rest), (drop n rest). split; [|by apply Forall_drop].
    unfold rb_at. rewrite length_app, length_take, <-app_assoc, take_drop. f_equal. lia.
Qed.
Lemma ensures_u64 : ensures get_u64 (in_u 64).
Proof.
  apply (ensures_bind _ _ _ _ (ensures_slice 8)). intros s [Hl Hb]. apply ensures_ret.
  change 64 with (8 * Z.of_nat 8). rewrite <-Hl. by apply from_be_range.
Qed.
Lemma ensures_vec {A} (r : Reader A) Q n : ensures r Q → ensures (read_vec r n) (Forall Q).
Proof.
  intros Hr. induction n as [|n IH]; cbn [read_vec]; [by apply ensures_ret|].
  eapply ensures_bind; [exact Hr|]. intros a Ha. eapply ensures_bind; [exact IH|]. intros l Hl. apply ensures_ret. by constructor.
Qed.

(** The amounts of the actions of a plan, and of a minting. *)
Definition vote_action_ok (a : VoteAction) : Prop :=
  match a with OffChain => True | VTreasury a => treasury_action_ok a | VParameters a => parameters_action_ok a end.
Definition plan_actions_ok `{Election} (p : VotePlan) : Prop := Forall (λ x, vote_action_ok (prop_action x)) (proposals p).

Lemma ensures_value : ensures value_read (in_u 64).
Proof. apply ensures_u64. Qed.
Lemma ensures_vote_action : ensures vote_action_read vote_action_ok.
Proof.
  unfold vote_action_read. eapply ensures_bind; [apply ensures_local; auto with readers|]. intros t _.
  destruct (t =? 0); [by apply ensures_ret|]. destruct (t =? 1); [|destruct (t =? 2); [|apply ensures_fail]].
  - apply (ensures_bind _ _ treasury_action_ok); [|intros a Ha; by apply ensures_ret].
    unfold treasury_action_read. eapply ensures_bind; [apply ensures_local; auto with readers|]. intros t' _.
    destruct (t' =? 0); [by apply ensures_ret|]. destruct (t' =? 1); [|apply ensures_fail].
    eapply ensures_bind; [apply ensures_value|]. intros v Hv. by apply ensures_ret.
  - apply (ensures_bind _ _ parameters_action_ok); [|intros a Ha; by apply ensures_ret].
    unfold parameters_action_read. eapply ensures_bind; [apply ensures_local; auto with readers|]. intros t' _.
    destruct (t' =? 0); [by apply ensures_ret|]. destruct (t' =? 1); [|apply ensures_fail].
    eapply ensures_bind; [apply ensures_value|]. intros v Hv. by apply ensures_ret.
Qed.
Lemma ensures_proposal : ensures proposal_read (λ x, vote_action_ok (prop_action x)).
Proof.
  unfold proposal_read, read_array. eapply ensures_bind; [apply ensures_local; auto with readers|]. intros e _.
  eapply ensures_bind; [apply ensures_local; auto with readers|]. intros o _.
  eapply ensures_bind; [apply ensures_vote_action|]. intros a Ha. by apply ensures_ret.
Qed.
Lemma ensures_vote_plan `{Election} : ensures vote_plan_read plan_actions_ok.
Proof.
  pose proof local_member_key. unfold vote_plan_read.
  do 5 (eapply ensures_bind; [apply ensures_local; auto with readers|]; intros ? _).
  eapply ensures_bind; [apply ensures_vec, ensures_proposal|]. intros ps Hps.
  do 3 (eapply ensures_bind; [apply ensures_local; auto with readers|]; intros ? _). by apply ensures_ret.
Qed.
Lemma ensures_mint_token : ensures mint_token_read (λ m, u64_ok (mt_value m)).
Proof.
  unfold mint_token_read, minting_policy_read.
  do 3 (eapply ensures_bind; [apply ensures_local; auto 20 with readers|]; intros ? _).
  eapply ensures_bind; [apply ensures_value|]. intros v Hv. by apply ensures_ret.
Qed.

(** ** The ranges the ledger keeps

    The fees of the settings and of the pending proposals, and the amounts in
    the actions of the vote plans, are [u64]s: they are read from bytes, and no
    operation of the updates or of the votes computes new ones. *)
Local Open Scope Z_scope.

(** ** Fees *)
Definition per_cert_ok (f : PerCertificateFee) : Prop :=
  opt_u64_ok (certificate_pool_registration f) ∧ opt_u64_ok (certificate_stake_delegation f) ∧
  opt_u64_ok (certificate_owner_stake_delegation f).
Definition per_vote_ok (f : PerVoteCertificateFee) : Prop :=
  opt_u64_ok (certificate_vote_plan f) ∧ opt_u64_ok (certificate_vote_cast f).
Definition fee_change_ok (p : ConfigParam) : Prop :=
  match p with
  | PLinearFee f => linear_fee_ok f | PPerCertificateFees f => per_cert_ok f | PPerVoteCertificateFees f => per_vote_ok f
  | _ => True
  end.
Definition fees_ok (s : Settings) : Prop := linear_fee_ok (linear_fees s).
Definition updates_ok (u : UpdateState) : Prop := map_Forall (λ _ p, Forall fee_change_ok (changes (proposal p))) u.

Lemma u64_payload_ok l v : bytes_ok l → u64_from_payload l = Ok v → u64_ok v.
Proof.
  unfold u64_from_payload, uint_from_payload. intros Hb. destruct (length l =? 8)%nat eqn:Hl; cbn; [|done].
  intros <-%Ok_inj. apply Nat.eqb_eq in Hl. change 64 with (8 * Z.of_nat 8). rewrite <-Hl. by apply from_be_range.
Qed.
Lemma slice_u64_ok payload lo hi v :
  bytes_ok payload → (s ← slice_range payload lo hi; u64_from_payload s) = Ok v → u64_ok v.
Proof.
  intros Hb (s & Hs & Hv)%bind_Ok. unfold slice_range in Hs. case_decide; [|done]. apply Ok_inj in Hs as <-.
  eapply u64_payload_ok; [|exact Hv]. by apply Forall_take, Forall_drop.
Qed.
Lemma nonzero_ok v : u64_ok v → opt_u64_ok (nonzero v).
Proof. intros Hv. unfold nonzero. by destruct (v =? 0). Qed.
Lemma config_variant_fees tag bytes p : bytes_ok bytes → config_variant tag bytes = Ok p → fee_change_ok p.
Proof.
  intros Hb Hp.
  assert (Hlf : ∀ f, linear_fee_from_payload bytes = Ok f → linear_fee_ok f).
  { unfold linear_fee_from_payload. intros f. destruct (negb _); [done|].
    intros (c1 & H1%slice_u64_ok & (c2 & H2%slice_u64_ok & (c3 & H3%slice_u64_ok & <-%Ok_inj)%bind_Ok)%bind_Ok)%bind_Ok; [|done..].
    unfold linear_fee_ok; cbn; tauto. }
  assert (Hpc : ∀ f, per_cert_from_payload bytes = Ok f → per_cert_ok f).
  { unfold per_cert_from_payload. intros f. destruct (negb _); [done|].
    intros (c1 & H1%slice_u64_ok & (c2 & H2%slice_u64_ok & (c3 & H3%slice_u64_ok & <-%Ok_inj)%bind_Ok)%bind_Ok)%bind_Ok; [|done..].
    split_and!; by apply nonzero_ok. }
  assert (Hpv : ∀ f, per_vote_from_payload bytes = Ok f → per_vote_ok f).
  { unfold per_vote_from_payload. intros f. destruct (negb _); [done|].
    intros (c1 & H1%slice_u64_ok & (c2 & H2%slice_u64_ok & <-%Ok_inj)%bind_Ok)%bind_Ok; [|done..].
    split; by apply nonzero_ok. }
  destruct p; try done; cbn [fee_change_ok]; unfold config_variant in Hp;
    repeat match type of Hp with (match ?x with _ => _ end) = _ => destruct x end;
    repeat match type of Hp with (_ <$> ?m) = Ok _ => destruct m eqn:?; cbn in Hp; try discriminate Hp end;
    try discriminate Hp; injection Hp as <-; auto.
Qed.
Lemma ensures_config : ensures config_read fee_change_ok.
Proof.
  unfold config_read. eapply ensures_bind; [apply ensures_local, local_slice_map|]. intros taglen _.
  eapply ensures_bind; [apply ensures_slice|]. intros bytes [_ Hb].
  destruct (taglen_get_tag taglen) as [tag|e|]; [|apply ensures_fail|].
  - destruct (config_variant tag bytes) as [p|e|] eqn:Hp; [|apply ensures_fail|].
    + apply ensures_ret. by eapply config_variant_fees.
    + intros pre rest a b' _ Ho. cbn in Ho. discriminate Ho.
  - intros pre rest a b' _ Ho. cbn in Ho. discriminate Ho.
Qed.
Lemma ensures_update_proposal : ensures update_proposal_read (λ p, Forall fee_change_ok (changes p)).
Proof.
  unfold update_proposal_read, config_params_read. eapply ensures_bind.
  - eapply ensures_bind; [apply ensures_local, local_slice_map|]. intros len _. apply ensures_vec, ensures_config.
  - intros cs Hcs. cbn beta in Hcs. eapply ensures_bind; [apply ensures_local; auto with readers|]. intros pk _. by apply ensures_ret.
Qed.

Definition overrides_ok (o : Overrides) : Prop :=
  match o.1 with Some f => per_cert_ok f | None => True end ∧ match o.2 with Some f => per_vote_ok f | None => True end.
Lemma apply_param_fees s o p s' o' :
  fees_ok s → overrides_ok o → fee_change_ok p → apply_param (s, o) p = Ok (s', o') → fees_ok s' ∧ overrides_ok o'.
Proof.
  destruct s, o as [o1 o2]. unfold overrides_ok. cbn [fst snd]. intros Hs [Ho1 Ho2] Hp.
  destruct p; cbn [apply_param fee_change_ok fst] in *; try discriminate; try (intros [= <- <-]; split; [first [exact Hs|exact Hp]|split; first [exact Ho1|exact Ho2|exact Hp|done]]).
  unfold active_slots_coeff_try_from. destruct (_ && _); cbn; [|discriminate]. by intros [= <- <-].
Qed.
Lemma try_apply_fees s cs s' : fees_ok s → Forall fee_change_ok cs → try_apply s cs = Ok s' → fees_ok s'.
Proof.
  intros Hs Hcs. unfold try_apply. intros ([s1 o] & Hf & <-%Ok_inj)%bind_Ok.
  assert (fees_ok (s1, o).1 ∧ overrides_ok (s1, o).2) as [Hs1 [Ho1 Ho2]].
  { refine (foldM_inv (λ st, fees_ok st.1 ∧ overrides_ok st.2) _ _ _ _ _ _ Hf); [|by split].
    intros [s2 o2] p [s3 o3] Hin [H2 Hov] Hp. rewrite Forall_forall in Hcs. by eapply apply_param_fees; [| |by apply Hcs|]. }
  cbn [fst snd] in *. unfold apply_overrides, fees_ok in *. destruct s1, o as [[pc|] [pv|]]; cbn in *;
    unfold per_cert_ok, per_vote_ok, linear_fee_ok in *; cbn in *; tauto.
Qed.
Lemma process_proposals_fees u s d d' u' s' :
  fees_ok s → updates_ok u → process_proposals u s d d' = Ok (u', s') → fees_ok s' ∧ updates_ok u'.
Proof.
  intros Hs Hu. unfold process_proposals. intros ([] & _ & Hp)%bind_Ok. destruct (_ <? _).
  2:{ apply Ok_inj in Hp. by injection Hp as <- <-. }
  apply bind_Ok in Hp as ([s1 ids] & Hl & (u1 & Hr & [= <- <-]%Ok_inj)%bind_Ok). split.
  - assert (fees_ok (s1, ids).1) as Hs1; [|exact Hs1].
    refine (foldM_inv (λ st, fees_ok st.1) _ _ _ _ _ _ Hl); [|done].
    intros [s2 ids2] [i p] [s3 ids3] Hin H2. cbn [fst snd] in *. unfold proposal_step. destruct (_ <? _)%nat.
    + intros (s4 & Ht & [= <- <-]%Ok_inj)%bind_Ok. destruct (try_apply _ _) as [s5| |] eqn:Hta in Ht; [|done..].
      apply Ok_inj in Ht as <-. eapply try_apply_fees; [done| |exact Hta].
      rewrite sorting.merge_sort_Permutation in Hin. apply elem_of_map_to_list in Hin. by apply (Hu i p).
    + destruct (_ <? _); by intros [= <- <-].
  - refine (foldM_inv (λ u, updates_ok u) _ _ _ _ _ _ Hr); [|done].
    intros u2 i u3 _ H2 Hrm. unfold hm_remove in Hrm. destruct (u2 !! i); [|done]. apply Ok_inj in Hrm as <-.
    by apply map_Forall_delete.
Qed.
Lemma apply_proposal_ok u id p s d u' :
  updates_ok u → Forall fee_change_ok (changes p) → apply_proposal u id p s d = Ok u' → updates_ok u'.
Proof.
  intros Hu Hp (s' & _ & Ha)%bind_Ok. destruct (negb _); [done|]. apply map_err_Ok in Ha.
  by eapply hm_insert_Forall; [| |exact Ha].
Qed.
Lemma update_vote_ok u v s u' : updates_ok u → update_apply_vote u v s = Ok u' → updates_ok u'.
Proof.
  intros Hu. unfold update_apply_vote. destruct (negb _); [done|]. intros Hv%map_err_Ok.
  eapply hm_update_Forall; [exact Hu| |exact Hv]. intros st ov Hst (v' & _ & <-%Ok_inj)%bind_Ok. exact Hst.
Qed.

(** ** The actions of the vote plans *)
Section votes.
Context `{Election} {Extra : Type} (hash_bytes : list Z → list Z).
Definition pms_actions (p : ProposalManagers) : list VoteAction := pm_action <$> pms_managers p.
Definition manager_ok (m : VotePlanManager) : Prop := Forall vote_action_ok (pms_actions (vpm_managers m)).
Definition votes_ok (v : gmap VotePlanId VotePlanManager) : Prop := map_Forall (λ _, manager_ok) v.

(** A loop that collects managers made from those it goes through. *)
Lemma collected_actions {A E} (src : A → VoteAction) (f : A → outcome E (ProposalManager * list VoteAction)) l rs :
  (∀ a m acts, f a = Ok (m, acts) → pm_action m = src a ∧ ∀ x, x ∈ acts → x = src a) →
  Forall2 (λ a r, f a = Ok r) l rs →
  pm_action <$> rs.*1 = src <$> l ∧ ∀ x, x ∈ concat rs.*2 → x ∈ src <$> l.
Proof using Type.
  intros Hf. induction 1 as [|a [m acts] l rs Ha Hrs [IH1 IH2]]; cbn; [split; [done|]; by intros x Hx%elem_of_nil|].
  destruct (Hf _ _ _ Ha) as [-> Hacts]. split; [by f_equal|]. intros x [Hx|Hx]%elem_of_app.
  - apply Hacts in Hx as ->. left.
  - right. by apply IH2.
Qed.
Lemma accepted_action m b x : x ∈ accepted m b → x = pm_action m.
Proof using Type. unfold accepted. destruct b; [by intros ?%list_elem_of_singleton|by intros ?%elem_of_nil]. Qed.

Lemma tally_ok v (d : TokenIdentifier → TokenDistribution PoolId Extra) date g sig v' acts :
  manager_ok v → vpm_public_tally v d date g sig = Ok (v', acts) → manager_ok v' ∧ Forall vote_action_ok acts.
Proof using Type.
  intros Hv (_ & ms & rs & Hms & Hrs & [= -> ->])%vpm_public_tally_Ok.
  unfold manager_ok, pms_actions in *. rewrite Hms in Hv. cbn in *.
  destruct (collected_actions pm_action (λ pm, pm_public_tally pm (d (voting_token (vpm_plan v))) g) ms rs) as [Ha Hx]; [|done|].
  - unfold pm_public_tally. intros a m acts (r & _ & [= <- <-]%Ok_inj)%bind_Ok. split; [done|]. apply accepted_action.
  - rewrite Ha. split; [done|]. apply Forall_forall. intros x Hin%Hx. rewrite Forall_forall in Hv. by apply Hv.
Qed.
Lemma finalize_ok v shares g v' acts :
  manager_ok v → vpm_finalize_private_tally v shares g = Ok (v', acts) → manager_ok v' ∧ Forall vote_action_ok acts.
Proof using Type.
  intros Hv ([p acts'] & Hp & [= <- <-]%Ok_inj)%bind_Ok. unfold pms_finalize_private_tally in Hp.
  destruct (vpm_managers v) as [|ms crs pk] eqn:Hms; [done|].
  apply bind_Ok in Hp as ([ps acts2] & (rs & Hrs & [= -> ->])%collect_tally_Ok & [= <- <-]%Ok_inj).
  unfold manager_ok, pms_actions in *. rewrite Hms in Hv. cbn in *.
  destruct (collected_actions (λ md : ProposalManager * DecryptedPrivateTallyProposal, pm_action md.1)
    (λ md, map_err CannotTallyVotes (pm_finalize_private_tally md.1 (committee_public_keys (vpm_plan v)) md.2 g))
    (zip ms shares) rs) as [Ha Hx]; [|done|].
  - intros [a dt] m acts. cbn. intros Hf%map_err_Ok. unfold pm_finalize_private_tally in Hf.
    apply bind_Ok in Hf as (tl & _ & ([enc tot] & _ & Hf)%bind_Ok). destruct (negb _); [done|].
    apply bind_Ok in Hf as (r & _ & (t2 & _ & [= <- <-]%Ok_inj)%bind_Ok). split; [done|]. apply accepted_action.
  - rewrite Ha. assert (Hz : Forall vote_action_ok ((λ md : ProposalManager * DecryptedPrivateTallyProposal, pm_action md.1) <$> zip ms shares)).
    { rewrite Forall_fmap in Hv. apply Forall_fmap, Forall_forall. intros [a dt] Hin%elem_of_zip_l. rewrite Forall_forall in Hv. by apply Hv. }
    split; [done|]. apply Forall_forall. intros x Hin%Hx. rewrite Forall_forall in Hz. by apply Hz.
Qed.
Lemma start_private_ok v (d : TokenIdentifier → TokenDistribution PoolId Extra) date sig v' :
  manager_ok v → vpm_start_private_tally v d date sig = Ok v' → manager_ok v'.
Proof using Type.
  intros Hv ([] & _ & (p & Hp & <-%Ok_inj)%bind_Ok)%bind_Ok. unfold pms_start_private_tally in Hp.
  destruct (vpm_managers v) as [|ms crs pk] eqn:Hms; [done|]. apply bind_Ok in Hp as (ps & Hps & <-%Ok_inj).
  unfold manager_ok, pms_actions in *. rewrite Hms in Hv. cbn in *. rewrite Forall_fmap in *. 
  refine (foldM_inv (λ l, Forall (vote_action_ok ∘ pm_action) l) _ _ _ _ _ _ Hps); [|constructor].
  intros l m l' Hin Hl (m' & Hm & <-%Ok_inj)%bind_Ok. apply Forall_app. split; [done|]. constructor; [|constructor].
  unfold pm_private_tally in Hm. apply bind_Ok in Hm as ([] & _ & (t & _ & <-%Ok_inj)%bind_Ok). cbn.
  rewrite Forall_forall in Hv. by apply (Hv m).
Qed.
Lemma vote_ok v date i cast v' : manager_ok v → vpm_vote v date i cast = Ok v' → manager_ok v'.
Proof using Type.
  intros Hv (_ & _ & _ & w & pm & _ & Hi & _ & ->)%vpm_vote_Ok. unfold manager_ok, pms_actions in *. cbn.
  rewrite pms_with_managers. rewrite list_fmap_insert. cbn. rewrite list_insert_id; [done|].
  by rewrite list_lookup_fmap, Hi.
Qed.
Lemma vpm_new_actions plan committee m :
  plan_actions_ok plan → vpm_new hash_bytes plan committee = Ok m → manager_ok m.
Proof using Type.
  intros Hp (id & _ & <-%Ok_inj)%bind_Ok. unfold manager_ok, pms_actions, pms_new, plan_actions_ok in *. cbn.
  destruct (vp_payload_type plan); cbn; rewrite <-list_fmap_compose; by apply Forall_fmap.
Qed.

(** *** The operations of the vote ledger *)
Lemma vl_vote_ok l date i cast l' : votes_ok l → vl_apply_vote l date i cast = Ok l' → votes_ok l'.
Proof using Type.
  intros Hl Hv%map_err_Ok. eapply hm_update_Forall; [exact Hl| |exact Hv]. intros v ov Hok Hov. cbn beta in Hov.
  destruct (vpm_vote v date i cast) as [v'| |] eqn:Hc; [|done..]. apply Ok_inj in Hov as <-. cbn. by eapply vote_ok.
Qed.
Lemma vl_add_ok l date plan committee l' :
  votes_ok l → plan_actions_ok plan → vl_add_vote_plan hash_bytes l date plan committee = Ok l' → votes_ok l'.
Proof using Type.
  intros Hl Hp. unfold vl_add_vote_plan. do 3 (case_match; [done|]).
  intros (id & _ & (m & Hm & Hi%map_err_Ok)%bind_Ok)%bind_Ok.
  destruct (vpm_new hash_bytes plan committee) as [m'|e|] eqn:Hnew; [|done..]. apply Ok_inj in Hm as <-.
  eapply hm_insert_Forall; [exact Hl| |exact Hi]. by eapply vpm_new_actions.
Qed.
Lemma vl_result_ok l date (d : TokenIdentifier → TokenDistribution PoolId Extra) g tally sig l' acts :
  votes_ok l → vl_apply_committee_result l date d g tally sig = Ok (l', acts) → votes_ok l' ∧ Forall vote_action_ok acts.
Proof using Type.
  intros Hl. unfold vl_apply_committee_result, update_with_actions. destruct (l !! vt_id tally) as [v|] eqn:Hv; [|done].
  intros ([v' acts'] & Hr%map_err_Ok & [= <- <-]%Ok_inj)%bind_Ok. specialize (Hl _ _ Hv) as Hvok.
  assert (manager_ok v' ∧ Forall vote_action_ok acts') as [Hv' Ha].
  { destruct sig as [p|p]; [by eapply tally_ok|]. apply bind_Ok in Hr as (shares & _ & Hr). by eapply finalize_ok. }
  split; [|done]. by apply map_Forall_insert_2.
Qed.
Lemma vl_encrypted_ok l date (d : TokenIdentifier → TokenDistribution PoolId Extra) t id l' :
  votes_ok l → vl_apply_encrypted_vote_tally l date d t id = Ok l' → votes_ok l'.
Proof using Type.
  intros Hl Hv%map_err_Ok. eapply hm_update_Forall; [exact Hl| |exact Hv]. intros v ov Hok Hov. cbn beta in Hov.
  destruct (vpm_start_private_tally v d date id) as [v'| |] eqn:Hc; [|done..]. apply Ok_inj in Hov as <-. cbn.
  by eapply start_private_ok.
Qed.
End votes.
