(* ===== verification/LedgerState.v ===== *)
(** * The state of the ledger ([ledger/{ledger,check}.rs])

    The record of everything the chain keeps, its errors, the parameters a
    block is validated with, and the checks on transactions and certificates
    that need no state.  [blake2b], [ed25519] and the legacy addresses are an
    interface. *)
From S2P Require Import Prelude Hamt HamtSpec Codec Value Rewards Time Spending Account SparseArray Utxo Pots Addr Key Multisig MultisigLedger Input Transaction Stake Config Settings PoolCert DelegationCert Tokens Governance VoteCert Votes LeaderLog.
Local Open Scope Z_scope.

Class Crypto := {
  blake2b_256 : list Z → list Z;
  blake2b_224 : list Z → list Z;
  ed25519_verify : list Z → PublicKey → list Z → bool;
  OldAddress : Type;
  old_address_try_from : list Z → outcome string OldAddress;
  old_address_bytes : OldAddress → list Z;
  identical_with_pubkey_raw : OldAddress → list Z → list Z → bool }.

#[export] Instance Discrimination_eq_dec : EqDecision Discrimination.
Proof. solve_decision. Defined.

(** ** Errors *)
Inductive Block0Error :=
| TransactionHasInput | CertTransactionHasInput | CertTransactionHasOutput | TransactionHasWitnesses
| InitialMessageMissing | InitialMessageMany | InitialMessageDuplicateBlock0Date
| InitialMessageDuplicateDiscrimination | InitialMessageDuplicateConsensusVersion
| InitialMessageDuplicateSlotDuration | InitialMessageDuplicateEpochStabilityDepth
| InitialMessageDuplicatePraosActiveSlotsCoeff | InitialMessageNoDate | InitialMessageNoSlotDuration
| InitialMessageNoSlotsPerEpoch | InitialMessageNoDiscrimination | InitialMessageNoConsensusVersion
| InitialMessageNoConsensusLeaderId | InitialMessageNoPraosActiveSlotsCoeff | InitialMessageNoKesUpdateSpeed
| UtxoTotalValueTooBig | HasOwnerStakeDelegation | HasUpdateProposal | HasUpdateVote | HasPoolManagement
| HasVoteCast | HasVoteTally.
Inductive TxVerifyError := TooManyOutputs (expected actual : Z).
Inductive TxValidityError := TransactionExpired | TransactionValidForTooLong.

Section state.
Context `{Crypto} `{Election} `{GroupEncoding}.
Abbreviation MState := (MultisigLedger PoolId TokenIdentifier).

Inductive Error :=
| EConfig (e : ConfigError)
| UtxoValueNotMatching (expected value : Value)
| EUtxoError (e : UtxoError)
| UtxoInvalidSignature (utxo : UtxoPointer FragmentId) (output : Output Address) (witness : Witness)
| OldUtxoInvalidSignature (utxo : UtxoPointer FragmentId) (output : Output OldAddress) (witness : Witness)
| OldUtxoInvalidPublicKey (utxo : UtxoPointer FragmentId) (output : Output OldAddress) (witness : Witness)
| AccountInvalidSignature (account : Identifier) (witness : Witness)
| MultisigInvalidSignature (multisig : KeyHash) (witness : Witness)
| TransactionMalformed (e : TxVerifyError)
| InvalidTransactionValidity (e : TxValidityError)
| FeeCalculationError (e : ValueError)
| PraosActiveSlotsCoeffInvalid (error : ActiveSlotsCoeffError)
| TransactionBalanceInvalid (e : BalanceError)
| EBlock0 (e : Block0Error)
| Block0OnlyFragmentReceived
| EAccount (e : LedgerError)
| EMultisig (e : MultisigError)
| ENotBalanced (inputs outputs : Value)
| ZeroOutput (output : Output Address)
| OutputGroupInvalid (output : Output Address)
| EDelegation (e : PoolError PoolId)
| AccountIdentifierInvalid | InvalidDiscrimination | ExpectingAccountWitness | ExpectingUtxoWitness
| ExpectingInitialMessage | CertificateInvalidSignature
| EUpdate (e : UpdateStateError)
| OwnerStakeDelegationInvalidTransaction | VoteCastInvalidTransaction
| WrongChainLength (actual expected : Z)
| NonMonotonicDate (block_date chain_date : BlockDate)
| InvalidContentSize (actual max : Z)
| InvalidContentHash (actual expected : list Z)
| IncompleteLedger
| EPotValueInvalid (error : ValueError)
| PoolRegistrationHasNoOwner | PoolRegistrationHasTooManyOwners | PoolRegistrationHasTooManyOperators
| PoolRegistrationManagementThresholdZero | PoolRegistrationManagementThresholdAbove
| PoolUpdateNotAllowedYet | StakeDelegationSignatureFailed | PoolRetirementSignatureFailed
| VotePlanProofInvalidSignature | VotePlanProofInvalidCommittee | VotePlanInvalidGovernanceParameters
| VoteTallyProofFailed | VoteTallyDecryptionFailed | PoolUpdateSignatureFailed
| PoolUpdateLastHashDoesntMatch | PoolUpdateFeesNotAllowedYet | UpdateNotAllowedYet
| EVotePlan (e : VotePlanLedgerError)
| ScriptsAddressNotAllowedYet | UpdateProposalSignatureFailed | UpdateVoteSignatureFailed
| EMintingPolicyViolation (e : MintingPolicyViolation)
| DisabledEvmTransactions.
Definition of_pot_error (e : PotError) : Error := match e with PotValueInvalid error => EPotValueInvalid error end.

(** ** The state *)
Record LedgerStaticParameters := mkStatic {
  block0_initial_hash : list Z; block0_start_time : Z; discrimination_ : Discrimination; kes_update_speed : Z }.
Record LedgerParameters := mkLedgerParameters {
  lp_fees : LinearFee;
  lp_treasury_tax : TaxType;
  lp_reward_params : Parameters;
  lp_block_content_max_size : Z;
  lp_epoch_stability_depth : Z;
  lp_fees_goes_to : FeesGoesTo;
  lp_committees : list CommitteeId }.

Abbreviation Accounts := (gmap Identifier (AccountState PoolId TokenIdentifier unit)).
Abbreviation Pools := (gmap PoolId (PoolState PoolRegistration)).
Record Ledger := mkLedger {
  l_utxos : gmap FragmentId (FastSparseArray (Output Address));
  l_oldutxos : gmap FragmentId (FastSparseArray (Output OldAddress));
  l_accounts : Accounts;
  l_settings : Settings;
  l_updates : UpdateState;
  l_multisig : MState;
  l_delegation : Pools;
  l_static_params : LedgerStaticParameters;
  l_date : BlockDate;
  l_chain_length : Z;
  l_era : TimeEra;
  l_pots : Pots;
  l_leaders_log : LeadersParticipationRecord;
  l_votes : gmap VotePlanId VotePlanManager;
  l_governance : Governance;
  l_token_totals : TokenTotals }.
Definition ledger_empty (settings : Settings) (static_params : LedgerStaticParameters) (era : TimeEra) (pots : Pots) :
    Ledger :=
  mkLedger utxo_new utxo_new ledger_new settings update_new multisig_new pools_new static_params date_first 0 era
    pots leaders_new vote_ledger_new governance_default ∅.

(** Assignments of one field. *)
Definition set_utxos (l : Ledger) x : Ledger :=
  mkLedger x (l_oldutxos l) (l_accounts l) (l_settings l) (l_updates l) (l_multisig l) (l_delegation l)
    (l_static_params l) (l_date l) (l_chain_length l) (l_era l) (l_pots l) (l_leaders_log l) (l_votes l)
    (l_governance l) (l_token_totals l).
Definition set_oldutxos (l : Ledger) x : Ledger :=
  mkLedger (l_utxos l) x (l_accounts l) (l_settings l) (l_updates l) (l_multisig l) (l_delegation l)
    (l_static_params l) (l_date l) (l_chain_length l) (l_era l) (l_pots l) (l_leaders_log l) (l_votes l)
    (l_governance l) (l_token_totals l).
Definition set_accounts (l : Ledger) x : Ledger :=
  mkLedger (l_utxos l) (l_oldutxos l) x (l_settings l) (l_updates l) (l_multisig l) (l_delegation l)
    (l_static_params l) (l_date l) (l_chain_length l) (l_era l) (l_pots l) (l_leaders_log l) (l_votes l)
    (l_governance l) (l_token_totals l).
Definition set_settings (l : Ledger) x : Ledger :=
  mkLedger (l_utxos l) (l_oldutxos l) (l_accounts l) x (l_updates l) (l_multisig l) (l_delegation l)
    (l_static_params l) (l_date l) (l_chain_length l) (l_era l) (l_pots l) (l_leaders_log l) (l_votes l)
    (l_governance l) (l_token_totals l).
Definition set_updates (l : Ledger) x : Ledger :=
  mkLedger (l_utxos l) (l_oldutxos l) (l_accounts l) (l_settings l) x (l_multisig l) (l_delegation l)
    (l_static_params l) (l_date l) (l_chain_length l) (l_era l) (l_pots l) (l_leaders_log l) (l_votes l)
    (l_governance l) (l_token_totals l).
Definition set_multisig (l : Ledger) x : Ledger :=
  mkLedger (l_utxos l) (l_oldutxos l) (l_accounts l) (l_settings l) (l_updates l) x (l_delegation l)
    (l_static_params l) (l_date l) (l_chain_length l) (l_era l) (l_pots l) (l_leaders_log l) (l_votes l)
    (l_governance l) (l_token_totals l).
Definition set_pools (l : Ledger) x : Ledger :=
  mkLedger (l_utxos l) (l_oldutxos l) (l_accounts l) (l_settings l) (l_updates l) (l_multisig l) x
    (l_static_params l) (l_date l) (l_chain_length l) (l_era l) (l_pots l) (l_leaders_log l) (l_votes l)
    (l_governance l) (l_token_totals l).
Definition set_date (l : Ledger) x : Ledger :=
  mkLedger (l_utxos l) (l_oldutxos l) (l_accounts l) (l_settings l) (l_updates l) (l_multisig l) (l_delegation l)
    (l_static_params l) x (l_chain_length l) (l_era l) (l_pots l) (l_leaders_log l) (l_votes l)
    (l_governance l) (l_token_totals l).
Definition set_chain_length (l : Ledger) x : Ledger :=
  mkLedger (l_utxos l) (l_oldutxos l) (l_accounts l) (l_settings l) (l_updates l) (l_multisig l) (l_delegation l)
    (l_static_params l) (l_date l) x (l_era l) (l_pots l) (l_leaders_log l) (l_votes l)
    (l_governance l) (l_token_totals l).
Definition set_pots (l : Ledger) x : Ledger :=
  mkLedger (l_utxos l) (l_oldutxos l) (l_accounts l) (l_settings l) (l_updates l) (l_multisig l) (l_delegation l)
    (l_static_params l) (l_date l) (l_chain_length l) (l_era l) x (l_leaders_log l) (l_votes l)
    (l_governance l) (l_token_totals l).
Definition set_leaders_log (l : Ledger) x : Ledger :=
  mkLedger (l_utxos l) (l_oldutxos l) (l_accounts l) (l_settings l) (l_updates l) (l_multisig l) (l_delegation l)
    (l_static_params l) (l_date l) (l_chain_length l) (l_era l) (l_pots l) x (l_votes l)
    (l_governance l) (l_token_totals l).
Definition set_votes (l : Ledger) x : Ledger :=
  mkLedger (l_utxos l) (l_oldutxos l) (l_accounts l) (l_settings l) (l_updates l) (l_multisig l) (l_delegation l)
    (l_static_params l) (l_date l) (l_chain_length l) (l_era l) (l_pots l) (l_leaders_log l) x
    (l_governance l) (l_token_totals l).
Definition set_governance (l : Ledger) x : Ledger :=
  mkLedger (l_utxos l) (l_oldutxos l) (l_accounts l) (l_settings l) (l_updates l) (l_multisig l) (l_delegation l)
    (l_static_params l) (l_date l) (l_chain_length l) (l_era l) (l_pots l) (l_leaders_log l) (l_votes l)
    x (l_token_totals l).
Definition set_token_totals (l : Ledger) x : Ledger :=
  mkLedger (l_utxos l) (l_oldutxos l) (l_accounts l) (l_settings l) (l_updates l) (l_multisig l) (l_delegation l)
    (l_static_params l) (l_date l) (l_chain_length l) (l_era l) (l_pots l) (l_leaders_log l) (l_votes l)
    (l_governance l) x.

Definition get_ledger_parameters (l : Ledger) : LedgerParameters :=
  mkLedgerParameters (linear_fees (l_settings l)) (default tax_zero (treasury_params (l_settings l)))
    (to_reward_params (l_settings l)) (block_content_max_size (l_settings l))
    (epoch_stability_depth (l_settings l)) (fees_goes_to (l_settings l)) (committees (l_settings l)).
Definition token_distribution (l : Ledger) (t : TokenIdentifier) : TokenDistribution PoolId unit :=
  mkTokenDistribution (l_token_totals l) (l_accounts l) t.
Definition can_distribute_reward (l : Ledger) : bool := negb (leaders_total (l_leaders_log l) =? 0).
Definition remaining_rewards (l : Ledger) : Value := rewards (l_pots l).
Definition ledger_treasury_value (l : Ledger) : Value := treasury_value (treasury (l_pots l)).
Definition utxo_out (l : Ledger) (fragment_id : FragmentId) (index : TransactionIndex) :
    outcome infallible (option (Output Address)) := utxo_get (l_utxos l) fragment_id index.

(** The fuel bounds the iterations over the two UTXO ledgers. *)
Definition ledger_get_total_value (fuel : nat) (l : Ledger) : outcome Error Value :=
  let too_big {A} : outcome ValueError A → outcome Error A := map_err (λ _, EBlock0 UtxoTotalValueTooBig) in
  old_utxos ← lift (utxo_values fuel (l_oldutxos l));
  new_utxos ← lift (utxo_values fuel (l_utxos l));
  account_value ← too_big (get_total_value (l_accounts l));
  multisig_value ← too_big (multisig_get_total_value (l_multisig l));
  too_big (value_sum ((out_value <$> old_utxos) ++ (out_value <$> new_utxos) ++ [account_value] ++ [multisig_value] ++
    pots_values (l_pots l))).

(** ** [check.rs] *)
Definition CHECK_TX_MAXIMUM_INPUTS : Z := 255.
Definition CHECK_TX_MAXIMUM_OUTPUTS : Z := 254.
Definition CHECK_POOL_REG_MAXIMUM_OWNERS : nat := 31.
Definition CHECK_POOL_REG_MAXIMUM_OPERATORS : nat := 3.
Definition if_cond_fail_with {E} (cond : bool) (err : E) : outcome E unit := if cond then Err err else Ok ().

Definition valid_block0_transaction_no_inputs {P} (tx : Transaction P) : outcome Error unit :=
  if_cond_fail_with (negb (tx_nb_inputs tx =? 0)) (EBlock0 TransactionHasInput).
Definition valid_block0_cert_transaction {P} (tx : Transaction P) : outcome Error unit :=
  if_cond_fail_with (negb (tx_nb_inputs tx =? 0)) (EBlock0 CertTransactionHasInput) ;;
  if_cond_fail_with (negb (tx_nb_outputs tx =? 0)) (EBlock0 CertTransactionHasOutput).
Definition valid_output_value (output : Output Address) : outcome Error unit :=
  if_cond_fail_with (out_value output =? value_zero) (ZeroOutput output).
(** One input, one witness, no output. *)
Definition one_input {P} (tx : Transaction P) : bool :=
  (tx_nb_inputs tx =? 1) && (tx_nb_witnesses tx =? 1) && (tx_nb_outputs tx =? 0).
Definition valid_stake_owner_delegation_transaction (tx : Transaction OwnerStakeDelegation) : outcome Error unit :=
  if_cond_fail_with (negb (one_input tx)) OwnerStakeDelegationInvalidTransaction.
Definition valid_vote_cast (tx : Transaction VoteCast) : outcome Error unit :=
  if_cond_fail_with (negb (one_input tx)) VoteCastInvalidTransaction.
Definition valid_pool_registration_certificate (auth_cert : PoolRegistration) : outcome Error unit :=
  if_cond_fail_with (management_threshold auth_cert =? 0) PoolRegistrationManagementThresholdZero ;;
  if_cond_fail_with (Z.of_nat (length (owners auth_cert)) <? management_threshold auth_cert)
    PoolRegistrationManagementThresholdAbove ;;
  if_cond_fail_with (length (owners auth_cert) =? 0)%nat PoolRegistrationHasNoOwner ;;
  if_cond_fail_with (CHECK_POOL_REG_MAXIMUM_OWNERS <? length (owners auth_cert))%nat
    PoolRegistrationHasTooManyOwners ;;
  if_cond_fail_with (CHECK_POOL_REG_MAXIMUM_OPERATORS <? length (operators auth_cert))%nat
    PoolRegistrationHasTooManyOperators.
Definition valid_pool_owner_signature (pos : PoolOwnersSignature) : outcome Error unit :=
  if_cond_fail_with (length pos =? 0)%nat CertificateInvalidSignature ;;
  if_cond_fail_with (CHECK_POOL_REG_MAXIMUM_OWNERS <? length pos)%nat CertificateInvalidSignature.
Definition valid_pool_signature (ps : PoolSignature) : outcome Error unit :=
  match ps with PSOperator _ => Ok () | PSOwners pos => valid_pool_owner_signature pos end.
Definition valid_pool_update_certificate (reg : PoolUpdate) : outcome Error unit :=
  valid_pool_registration_certificate (new_pool_reg reg).
Definition valid_transaction_ios_number {P} (tx : Transaction P) : outcome TxVerifyError unit :=
  if_cond_fail_with (CHECK_TX_MAXIMUM_INPUTS <? tx_nb_inputs tx)
    (TooManyOutputs CHECK_TX_MAXIMUM_INPUTS (tx_nb_outputs tx)) ;;
  if_cond_fail_with (CHECK_TX_MAXIMUM_OUTPUTS <? tx_nb_outputs tx)
    (TooManyOutputs CHECK_TX_MAXIMUM_OUTPUTS (tx_nb_outputs tx)).
Definition valid_transaction_date (settings : Settings) (valid_until date : BlockDate) :
    outcome TxValidityError unit :=
  if_cond_fail_with
    (date_epoch date <? Z.max 0 (date_epoch valid_until - transaction_max_expiry_epochs settings))
    TransactionValidForTooLong ;;
  if_cond_fail_with (date_lt valid_until date) TransactionExpired.
End state.
