(* ===== verification/Multiverse.v ===== *)
(** * The states of all branches ([chain-impl-mockchain/src/multiverse.rs])

    The multiverse shares each state with those who hold a [Ref] to it.  The
    counted pointers of the code are addresses in a heap of cells that carry
    the count of their owners; a weak pointer owns nothing and can be upgraded
    while somebody else owns the cell.  [gc] drops what nobody owns, but for the
    states near the longest chain and ever rarer ones below. *)
From S2P Require Import Prelude Hamt HamtSpec Codec Value Rewards Time Spending Account SparseArray Utxo Pots Addr Key Multisig MultisigLedger Input Transaction Stake Config Settings PoolCert DelegationCert Tokens Governance VoteCert Votes LeaderLog LedgerState.
Local Open Scope Z_scope.

(** ** Counted pointers *)
Definition Arc : Type := nat.
Record ArcHeap {State : Type} := mkHeap { h_next : Arc; h_cells : gmap Arc (State * nat) }.
Arguments ArcHeap : clear implicits.
(** An entry owns its state until a collection weakens it. *)
Inductive GcEntry := Retained (arc : Arc) | Collectable (weak : Arc).
Record Ref := mkRef { ref_hash : list Z; ref_state : Arc }.
#[export] Instance Ref_eq_dec : EqDecision Ref.
Proof. solve_decision. Defined.
Record Multiverse := mkMultiverse {
  states_by_hash : gmap (list Z) GcEntry;
  states_by_chain_length : gmap Z (gset (list Z)) }.

Section multiverse.
Context {State : Type}.
Implicit Types (h : ArcHeap State) (mv : Multiverse) (a : Arc) (k : list Z).

Definition arc_new (st : State) h : Arc * ArcHeap State :=
  (h_next h, mkHeap State (S (h_next h)) (<[h_next h := (st, 1%nat)]> (h_cells h))).
Definition arc_count (f : nat → nat) a h : ArcHeap State :=
  mkHeap State (h_next h) (alter (λ c, (c.1, f c.2)) a (h_cells h)).
Definition arc_clone a h : ArcHeap State := arc_count S a h.
Definition arc_drop a h : ArcHeap State := arc_count pred a h.
Definition strong_count a h : nat := match h_cells h !! a with Some c => c.2 | None => 0%nat end.
Definition weak_upgrade a h : option Arc * ArcHeap State :=
  if decide (strong_count a h = 0%nat) then (None, h) else (Some a, arc_clone a h).

(** [GcEntry::get] and [GcEntry::collect]. *)
Definition entry_get (e : GcEntry) h : option Arc * ArcHeap State :=
  match e with Retained arc => (Some arc, arc_clone arc h) | Collectable weak => weak_upgrade weak h end.
Definition entry_collect (e : GcEntry) h : bool * GcEntry * ArcHeap State :=
  let '(weak, h) := match e with Retained arc => (arc, arc_drop arc h) | Collectable weak => (weak, h) end in
  (bool_decide (strong_count weak h = 0%nat), Collectable weak, h).

(** ** The multiverse *)
Definition multiverse_new : Multiverse := mkMultiverse ∅ ∅.
Definition multiverse_get mv k h : option Arc * ArcHeap State :=
  match states_by_hash mv !! k with Some e => entry_get e h | None => (None, h) end.
Definition multiverse_get_ref mv k h : option Ref * ArcHeap State :=
  let '(state, h) := multiverse_get mv k h in (mkRef k <$> state, h).
Definition nr_states mv : nat := size (states_by_hash mv).
Definition multiverse_insert (chain_length : Z) k (st : State) mv h : Ref * Multiverse * ArcHeap State :=
  let by_length := <[chain_length := {[k]} ∪ default ∅ (states_by_chain_length mv !! chain_length)]> (states_by_chain_length mv) in
  let '(state, h) := arc_new st h in
  let h := arc_clone state h in
  (* the entry that is replaced is dropped *)
  let h := match states_by_hash mv !! k with Some (Retained arc) => arc_drop arc h | _ => h end in
  (mkRef k state, mkMultiverse (<[k := Retained state]> (states_by_hash mv)) by_length, h).

(** ** Collection *)
(** [range(lo..hi).next()] and [keys().next_back()] of the [BTreeMap]. *)
Definition least (l : list Z) : option Z := match l with [] => None | x :: l => Some (foldr Z.min x l) end.
Definition greatest (l : list Z) : option Z := match l with [] => None | x :: l => Some (foldr Z.max x l) end.
Definition lengths mv : list Z := elements (dom (states_by_chain_length mv)).
Definition range_next mv (lo hi : Z) : outcome infallible (option Z) :=
  if hi <? lo then Panic else Ok (least (filter (λ l, lo ≤ l < hi) (lengths mv))).

(** The closure of [hashes.retain]. *)
Definition retain_hash (acc : gmap (list Z) GcEntry * ArcHeap State * gset (list Z)) k :
    outcome infallible (gmap (list Z) GcEntry * ArcHeap State * gset (list Z)) :=
  let '(by_hash, h, kept) := acc in
  match by_hash !! k with
  | Some e =>
      let '(dead, e, h) := entry_collect e h in
      if (dead : bool) then Ok (delete k by_hash, h, kept) else Ok (<[k := e]> by_hash, h, {[k]} ∪ kept)
  | None => Panic
  end.
Fixpoint retain_hashes (acc : gmap (list Z) GcEntry * ArcHeap State * gset (list Z)) (ks : list (list Z)) :
    outcome infallible (gmap (list Z) GcEntry * ArcHeap State * gset (list Z)) :=
  match ks with [] => Ok acc | k :: ks => acc ← retain_hash acc k; retain_hashes acc ks end.
(** The hashes of one length that are not kept anyway. *)
Definition gc_length (chain_length : Z) (hashes : gset (list Z)) mv h : outcome infallible (Multiverse * ArcHeap State) :=
  '(by_hash, h, kept) ← retain_hashes (states_by_hash mv, h, ∅) (elements hashes);
  Ok (mkMultiverse by_hash
        (if decide (kept = ∅) then delete chain_length (states_by_chain_length mv)
         else <[chain_length := kept]> (states_by_chain_length mv)), h).
Fixpoint gc_loop (fuel : nat) (longest_chain threshold scan_length to_keep : Z) mv h :
    outcome infallible (Multiverse * ArcHeap State) :=
  match fuel with
  | O => Panic
  | S fuel =>
      next ← range_next mv scan_length threshold;
      match next with
      | None => Ok (mv, h)
      | Some chain_length =>
          scan_length ← chain_length_increase chain_length;
          if decide (to_keep ≤ chain_length)
          then gc_loop fuel longest_chain threshold scan_length (chain_length + (longest_chain - chain_length) / 2) mv h
          else
            '(mv, h) ← gc_length chain_length (default ∅ (states_by_chain_length mv !! chain_length)) mv h;
            gc_loop fuel longest_chain threshold scan_length to_keep mv h
      end
  end.
Definition multiverse_gc (fuel : nat) (cut_to_depth : Z) mv h : outcome infallible (Multiverse * ArcHeap State) :=
  match greatest (lengths mv) with
  | None => Ok (mv, h)
  | Some longest_chain =>
      match nth_ancestor longest_chain cut_to_depth with
      | Some threshold => gc_loop fuel longest_chain threshold 0 0 mv h
      | None => Ok (mv, h)
      end
  end.

(** ** Those who hold a [Ref] *)
Definition ref_clone (r : Ref) h : ArcHeap State := arc_clone (ref_state r) h.
Definition ref_drop (r : Ref) h : ArcHeap State := arc_drop (ref_state r) h.
End multiverse.

(** [Multiverse<Ledger>::add]. *)
Definition multiverse_add `{Crypto} `{Election} (k : list Z) (st : Ledger) (mv : Multiverse) (h : ArcHeap Ledger) :
    Ref * Multiverse * ArcHeap Ledger :=
  multiverse_insert (l_chain_length st) k st mv h.

(** ** The invariant *)
Definition entry_arc (e : GcEntry) : Arc := match e with Retained a => a | Collectable a => a end.
Definition retains (e : GcEntry) : nat := match e with Retained _ => 1 | Collectable _ => 0 end.
(** The [Ref]s to a state, and whether a block is pinned by one. *)
Definition refs_to (refs : list Ref) (a : Arc) : nat := length (filter (λ r, ref_state r = a) refs).
Definition pinned (refs : list Ref) (k : list Z) : Prop := k ∈ ref_hash <$> refs.
#[export] Instance pinned_dec refs k : Decision (pinned refs k).
Proof. unfold pinned. apply _. Defined.

Lemma refs_to_zero refs a : refs_to refs a = 0%nat ↔ ∀ r, r ∈ refs → ref_state r ≠ a.
Proof.
  unfold refs_to. rewrite length_zero_iff_nil. split.
  - intros Hnil r Hr Ha. assert (r ∈ filter (λ r, ref_state r = a) refs) as Hin by (by apply list_elem_of_filter).
    rewrite Hnil in Hin. by apply elem_of_nil in Hin.
  - intros Hno. apply elem_of_nil_inv. intros r [Ha Hr]%list_elem_of_filter. by apply (Hno r).
Qed.
Lemma refs_to_cons r refs a : refs_to (r :: refs) a = (refs_to refs a + if decide (ref_state r = a) then 1 else 0)%nat.
Proof. unfold refs_to. rewrite filter_cons. destruct (decide (ref_state r = a)); cbn [length]; lia. Qed.
Lemma refs_to_perm refs refs' a : refs ≡ₚ refs' → refs_to refs a = refs_to refs' a.
Proof. intros Hp. unfold refs_to. by rewrite Hp. Qed.

Lemma least_spec l : match least l with Some x => x ∈ l ∧ ∀ y, y ∈ l → x ≤ y | None => l = [] end.
Proof.
  destruct l as [|x l]; [done|]. cbn. assert (∀ z, foldr Z.min z l ∈ z :: l ∧ ∀ y, y ∈ z :: l → foldr Z.min z l ≤ y) as Hf.
  { intros z. induction l as [|w l [IH1 IH2]]; cbn.
    - split; [by left|]. by intros y ->%list_elem_of_singleton.
    - split.
      + destruct (Z.min_spec w (foldr Z.min z l)) as [[_ ->]|[_ ->]]; [right; by left|].
        apply elem_of_cons in IH1 as [->|?]; [by left|right; by right].
      + intros y. rewrite !elem_of_cons. intros [->|[->|Hy]]; [|lia|].
        * pose proof (IH2 z ltac:(by left)). lia.
        * pose proof (IH2 y ltac:(by right)). lia. }
  apply Hf.
Qed.
Lemma greatest_spec l : match greatest l with Some x => x ∈ l ∧ ∀ y, y ∈ l → y ≤ x | None => l = [] end.
Proof.
  destruct l as [|x l]; [done|]. cbn. assert (∀ z, foldr Z.max z l ∈ z :: l ∧ ∀ y, y ∈ z :: l → y ≤ foldr Z.max z l) as Hf.
  { intros z. induction l as [|w l [IH1 IH2]]; cbn.
    - split; [by left|]. by intros y ->%list_elem_of_singleton.
    - split.
      + destruct (Z.max_spec w (foldr Z.max z l)) as [[_ ->]|[_ ->]]; [|right; by left].
        apply elem_of_cons in IH1 as [->|?]; [by left|right; by right].
      + intros y. rewrite !elem_of_cons. intros [->|[->|Hy]]; [|lia|].
        * pose proof (IH2 z ltac:(by left)). lia.
        * pose proof (IH2 y ltac:(by right)). lia. }
  apply Hf.
Qed.

Section invariant.
Context {State : Type}.
Implicit Types (h : ArcHeap State) (mv : Multiverse) (refs : list Ref) (by_hash : gmap (list Z) GcEntry).

(** Every entry points to a cell of its own, counted once for the entry that
    owns it and once for each [Ref]; a [Ref] is one to the entry of its hash. *)
Record entries_ok by_hash h refs : Prop := {
  eo_cell k e : by_hash !! k = Some e →
    ∃ st, h_cells h !! entry_arc e = Some (st, (refs_to refs (entry_arc e) + retains e)%nat);
  eo_inj k k' e e' : by_hash !! k = Some e → by_hash !! k' = Some e' → entry_arc e = entry_arc e' → k = k';
  eo_refs r : r ∈ refs → ∃ e, by_hash !! ref_hash r = Some e ∧ entry_arc e = ref_state r;
  eo_next k e : by_hash !! k = Some e → (entry_arc e < h_next h)%nat }.
(** [len_of] is the chain length of each block. *)
Record multiverse_ok (len_of : list Z → Z) mv h refs : Prop := {
  mo_entries : entries_ok (states_by_hash mv) h refs;
  mo_index l hs : states_by_chain_length mv !! l = Some hs → hs ≠ ∅ ∧ u32_ok l ∧ ∀ k, k ∈ hs → len_of k = l;
  mo_indexed k : is_Some (states_by_hash mv !! k) ↔ k ∈ default ∅ (states_by_chain_length mv !! len_of k) }.
(** The values in the cells stay. *)
Definition values_kept h h' : Prop := ∀ a st n, h_cells h !! a = Some (st, n) → ∃ n', h_cells h' !! a = Some (st, n').

Lemma values_kept_refl h : values_kept h h.
Proof. intros a st n Ha. by exists n. Qed.
Lemma values_kept_trans h h' h'' : values_kept h h' → values_kept h' h'' → values_kept h h''.
Proof. intros H1 H2 a st n Ha. destruct (H1 a st n Ha) as [n' Ha']. by apply (H2 a st n'). Qed.
Lemma values_kept_count f a h : values_kept h (arc_count f a h).
Proof.
  intros b st n Hb. unfold arc_count. cbn. destruct (decide (a = b)) as [->|Hne].
  - rewrite lookup_alter_eq, Hb. by eexists.
  - rewrite lookup_alter_ne by done. by exists n.
Qed.
Lemma pinned_entry by_hash h refs k e :
  entries_ok by_hash h refs → by_hash !! k = Some e → refs_to refs (entry_arc e) = 0%nat ↔ ¬ pinned refs k.
Proof.
  intros Hok Hk. rewrite refs_to_zero. unfold pinned. rewrite list_elem_of_fmap. split.
  - intros Hno (r & -> & Hr). destruct (eo_refs _ _ _ Hok r Hr) as (e' & He' & Ha). apply (Hno r Hr). congruence.
  - intros Hno r Hr Ha. apply Hno. exists r. split; [|done]. destruct (eo_refs _ _ _ Hok r Hr) as (e' & He' & Ha').
    apply (eo_inj _ _ _ Hok k (ref_hash r) e e'); [done|done|congruence].
Qed.
(** Counting at one cell. *)
Lemma count_lookup f a h st n : h_cells h !! a = Some (st, n) → h_cells (arc_count f a h) !! a = Some (st, f n).
Proof. intros Ha. unfold arc_count. cbn. by rewrite lookup_alter_eq, Ha. Qed.
Lemma count_lookup_ne f a b h : a ≠ b → h_cells (arc_count f a h) !! b = h_cells h !! b.
Proof. intros Hne. unfold arc_count. cbn. by rewrite lookup_alter_ne. Qed.

(** *** The hashes of one length *)
Lemma collect_ok by_hash h refs k e :
  entries_ok by_hash h refs → by_hash !! k = Some e →
  ∃ h', entry_collect e h = (bool_decide (¬ pinned refs k), Collectable (entry_arc e), h') ∧
    h_next h' = h_next h ∧ values_kept h h' ∧
    (∃ st, h_cells h' !! entry_arc e = Some (st, refs_to refs (entry_arc e))) ∧
    ∀ a, a ≠ entry_arc e → h_cells h' !! a = h_cells h !! a.
Proof.
  intros Hok Hk. destruct (eo_cell _ _ _ Hok k e Hk) as [st Hc].
  assert (∀ n h', h_cells h' !! entry_arc e = Some (st, n) → n = refs_to refs (entry_arc e) →
    bool_decide (strong_count (entry_arc e) h' = 0%nat) = bool_decide (¬ pinned refs k)) as Hdead.
  { intros n h' Hh' ->. unfold strong_count. rewrite Hh'. cbn. apply bool_decide_ext. by eapply pinned_entry. }
  destruct e as [a|a]; cbn [entry_arc retains entry_collect] in *.
  - exists (arc_drop a h). pose proof (count_lookup pred a h st _ Hc) as Hd. rewrite Nat.add_1_r in Hd. cbn [pred] in Hd.
    split; [by rewrite (Hdead _ (arc_drop a h) Hd)|]. split; [done|]. split; [apply values_kept_count|].
    split; [by exists st|]. intros b Hb. by apply count_lookup_ne.
  - exists h. rewrite Nat.add_0_r in Hc. split; [by rewrite (Hdead _ h Hc)|]. split; [done|]. split; [apply values_kept_refl|].
    split; [by exists st|done].
Qed.
Lemma retain_hash_ok by_hash h refs k kept :
  entries_ok by_hash h refs → is_Some (by_hash !! k) →
  ∃ by_hash' h' kept', retain_hash (by_hash, h, kept) k = Ok (by_hash', h', kept') ∧ entries_ok by_hash' h' refs ∧
    values_kept h h' ∧ (∀ x, x ≠ k → by_hash' !! x = by_hash !! x) ∧
    (pinned refs k → entry_arc <$> by_hash' !! k = entry_arc <$> by_hash !! k) ∧ (¬ pinned refs k → by_hash' !! k = None) ∧
    (∀ x, x ∈ kept' ↔ x ∈ kept ∨ (x = k ∧ pinned refs k)).
Proof.
  intros Hok [e Hk]. unfold retain_hash. rewrite Hk.
  destruct (collect_ok by_hash h refs k e Hok Hk) as (h' & -> & Hnext & Hvals & [st Hcell] & Hother).
  assert (∀ x ex, x ≠ k → by_hash !! x = Some ex → entry_arc ex ≠ entry_arc e) as Hdiff.
  { intros x ex Hx Hex Ha. apply Hx. by apply (eo_inj _ _ _ Hok x k ex e). }
  case_bool_decide as Hp.
  - exists (delete k by_hash), h', kept. split; [done|]. split.
    { split.
      - intros x ex [Hx Hex]%lookup_delete_Some. rewrite Hother by (by apply (Hdiff x)). by apply (eo_cell _ _ _ Hok x).
      - intros x x' ex ex' [_ Hx]%lookup_delete_Some [_ Hx']%lookup_delete_Some. by apply (eo_inj _ _ _ Hok).
      - intros r Hr. destruct (eo_refs _ _ _ Hok r Hr) as (er & Her & Ha). exists er. split; [|done].
        rewrite lookup_delete_ne; [done|]. intros ->. apply Hp. by apply list_elem_of_fmap_2.
      - intros x ex [_ Hx]%lookup_delete_Some. rewrite Hnext. by apply (eo_next _ _ _ Hok x). }
    split; [done|]. split; [intros x Hx; by rewrite lookup_delete_ne|]. split; [done|].
    split; [intros _; apply lookup_delete_eq|]. naive_solver.
  - assert (pinned refs k) as Hp' by (destruct (decide (pinned refs k)); tauto).
    exists (<[k := Collectable (entry_arc e)]> by_hash), h', ({[k]} ∪ kept). split; [done|].
    assert (∀ x ex, <[k := Collectable (entry_arc e)]> by_hash !! x = Some ex →
      ∃ ey, by_hash !! x = Some ey ∧ entry_arc ey = entry_arc ex) as Hback.
    { intros x ex. destruct (decide (x = k)) as [->|Hx].
      - rewrite lookup_insert_eq. intros [= <-]. by exists e.
      - rewrite lookup_insert_ne by done. by exists ex. }
    split.
    { split.
      - intros x ex Hex. destruct (decide (x = k)) as [->|Hx].
        + rewrite lookup_insert_eq in Hex. injection Hex as <-. cbn. rewrite Nat.add_0_r. by exists st.
        + rewrite lookup_insert_ne in Hex by done. rewrite Hother by (by apply (Hdiff x)). by apply (eo_cell _ _ _ Hok x).
      - intros x x' ex ex' (ey & Hy & Ha)%Hback (ey' & Hy' & Ha')%Hback Heq. apply (eo_inj _ _ _ Hok x x' ey ey' Hy Hy'). congruence.
      - intros r Hr. destruct (eo_refs _ _ _ Hok r Hr) as (er & Her & Ha). destruct (decide (ref_hash r = k)) as [Hrk|Hrk].
        + exists (Collectable (entry_arc e)). rewrite Hrk, lookup_insert_eq. split; [done|]. cbn. congruence.
        + exists er. by rewrite lookup_insert_ne.
      - intros x ex (ey & Hy & Ha)%Hback. rewrite Hnext, <-Ha. by apply (eo_next _ _ _ Hok x). }
    split; [done|]. split; [intros x Hx; by rewrite lookup_insert_ne|].
    split; [intros _; by rewrite lookup_insert_eq|]. split; [done|]. intros x. rewrite elem_of_union, elem_of_singleton. naive_solver.
Qed.
Lemma retain_hashes_ok ks by_hash h refs kept :
  entries_ok by_hash h refs → NoDup ks → (∀ k, k ∈ ks → is_Some (by_hash !! k)) →
  ∃ by_hash' h' kept', retain_hashes (by_hash, h, kept) ks = Ok (by_hash', h', kept') ∧ entries_ok by_hash' h' refs ∧
    values_kept h h' ∧ (∀ x, x ∉ ks → by_hash' !! x = by_hash !! x) ∧
    (∀ x, pinned refs x → entry_arc <$> by_hash' !! x = entry_arc <$> by_hash !! x) ∧
    (∀ x, x ∈ ks → ¬ pinned refs x → by_hash' !! x = None) ∧
    (∀ x, x ∈ kept' ↔ x ∈ kept ∨ (x ∈ ks ∧ pinned refs x)).
Proof.
  intros Hok Hnd. revert by_hash h kept Hok. induction Hnd as [|k ks Hk Hnd IH]; intros by_hash h kept Hok Hall; cbn [retain_hashes].
  { exists by_hash, h, kept. split_and!; try done; [apply values_kept_refl|by intros x ?%elem_of_nil|]. intros x. rewrite elem_of_nil. tauto. }
  destruct (retain_hash_ok by_hash h refs k kept Hok) as (b1 & h1 & k1 & -> & Hok1 & Hv1 & Hne1 & Hp1 & Hn1 & Hk1); [apply Hall; by left|].
  cbn [mbind outcome_bind]. destruct (IH b1 h1 k1 Hok1) as (b2 & h2 & k2 & -> & Hok2 & Hv2 & Hne2 & Hp2 & Hn2 & Hk2).
  { intros x Hx. rewrite Hne1 by (by intros ->). apply Hall. by right. }
  exists b2, h2, k2. split_and!; try done.
  - by eapply values_kept_trans.
  - intros x [Hxk Hx]%not_elem_of_cons. by rewrite Hne2, Hne1.
  - intros x Hx. rewrite Hp2 by done. destruct (decide (x = k)) as [->|]; [by apply Hp1|by rewrite Hne1].
  - intros x [->|Hx]%elem_of_cons Hn; [|by apply Hn2]. rewrite Hne2 by done. by apply Hn1.
  - intros x. rewrite Hk2, Hk1, elem_of_cons. naive_solver.
Qed.

(** *** What can be read *)
Lemma get_ok by_hash by_length h refs k :
  entries_ok by_hash h refs →
  fst (multiverse_get (mkMultiverse by_hash by_length) k h) =
  match by_hash !! k with
  | Some (Retained a) => Some a
  | Some (Collectable a) => if decide (pinned refs k) then Some a else None
  | None => None
  end.
Proof.
  intros Hok. unfold multiverse_get. cbn [states_by_hash]. destruct (by_hash !! k) as [e|] eqn:He; [|done].
  pose proof (pinned_entry by_hash h refs k e Hok He) as Hp. destruct (eo_cell _ _ _ Hok k e He) as [st Hc].
  destruct e as [a|a]; cbn [entry_get entry_arc retains] in *; [done|]. rewrite Nat.add_0_r in Hc.
  unfold weak_upgrade, strong_count. rewrite Hc. cbn [snd]. destruct (decide (pinned refs k)); case_decide; cbn; tauto.
Qed.
(** *** Those who hold [Ref]s *)
Lemma entries_ok_perm by_hash h refs refs' : refs ≡ₚ refs' → entries_ok by_hash h refs → entries_ok by_hash h refs'.
Proof.
  intros Hp Hok. split; try apply Hok.
  - intros k e He. rewrite <-(refs_to_perm _ _ _ Hp). by apply (eo_cell _ _ _ Hok k).
  - intros r Hr. rewrite <-Hp in Hr. by apply Hok.
Qed.
Lemma entries_ok_add by_hash h refs r e :
  entries_ok by_hash h refs → by_hash !! ref_hash r = Some e → entry_arc e = ref_state r →
  entries_ok by_hash (arc_clone (ref_state r) h) (r :: refs).
Proof.
  intros Hok He Ha. split; try apply Hok.
  - intros k e' He'. destruct (eo_cell _ _ _ Hok k e' He') as [st Hc]. exists st. rewrite refs_to_cons. unfold arc_clone.
    case_decide as Hr.
    + rewrite Hr. rewrite (count_lookup S _ h st _ Hc). do 2 f_equal. lia.
    + rewrite count_lookup_ne by done. by rewrite Nat.add_0_r.
  - intros r' [->|Hr]%elem_of_cons; [by exists e|by apply Hok].
Qed.
Lemma entries_ok_drop by_hash h refs r :
  entries_ok by_hash h (r :: refs) → entries_ok by_hash (arc_drop (ref_state r) h) refs.
Proof.
  intros Hok. split; try apply Hok.
  - intros k e He. destruct (eo_cell _ _ _ Hok k e He) as [st Hc]. exists st. rewrite refs_to_cons in Hc. unfold arc_drop.
    destruct (decide (ref_state r = entry_arc e)) as [Hr|Hr].
    + rewrite Hr. rewrite (count_lookup pred _ h st _ Hc). do 2 f_equal. lia.
    + rewrite count_lookup_ne by done. by rewrite Nat.add_0_r in Hc.
  - intros r' Hr. apply Hok. by right.
Qed.
(** A state that cannot be read any more may be inserted again. *)
Lemma insert_entries by_hash h refs k st :
  entries_ok by_hash h refs → (∀ a, by_hash !! k ≠ Some (Retained a)) → ¬ pinned refs k →
  entries_ok (<[k := Retained (h_next h)]> by_hash) (arc_clone (h_next h) (snd (arc_new st h))) (mkRef k (h_next h) :: refs).
Proof.
  intros Hok Hret Hpin. unfold arc_new. cbn [fst snd].
  assert (∀ x e, by_hash !! x = Some e → entry_arc e ≠ h_next h) as Hnew.
  { intros x e He Ha. pose proof (eo_next _ _ _ Hok x e He). lia. }
  split.
  - intros x e. rewrite refs_to_cons. cbn [ref_state]. destruct (decide (x = k)) as [->|Hx].
    + rewrite lookup_insert_eq. intros [= <-]. cbn [entry_arc retains]. exists st. unfold arc_clone, arc_count. cbn.
      rewrite lookup_alter_eq, lookup_insert_eq. rewrite decide_True by done. cbn.
      assert (refs_to refs (h_next h) = 0%nat) as ->; [|done]. apply refs_to_zero. intros r Hr Ha.
      destruct (eo_refs _ _ _ Hok r Hr) as (e & He & Hae). apply (Hnew _ e He). congruence.
    + rewrite lookup_insert_ne by done. intros He. pose proof (Hnew x e He). destruct (eo_cell _ _ _ Hok x e He) as [v Hc].
      exists v. unfold arc_clone. rewrite count_lookup_ne by done. cbn. rewrite lookup_insert_ne by done.
      rewrite decide_False by done. by rewrite Nat.add_0_r.
  - intros x x' e e'. destruct (decide (x = k)) as [->|Hx], (decide (x' = k)) as [->|Hx']; rewrite ?lookup_insert_eq, ?lookup_insert_ne by done.
    + done.
    + intros [= <-] He' Ha. cbn in Ha. by destruct (Hnew x' e' He').
    + intros He [= <-] Ha. cbn in Ha. by destruct (Hnew x e He).
    + by apply (eo_inj _ _ _ Hok).
  - intros r [->|Hr]%elem_of_cons; cbn [ref_hash ref_state].
    + exists (Retained (h_next h)). by rewrite lookup_insert_eq.
    + rewrite lookup_insert_ne; [by apply Hok|]. intros ->. apply Hpin. by apply list_elem_of_fmap_2.
  - intros x e. cbn. destruct (decide (x = k)) as [->|Hx].
    + rewrite lookup_insert_eq. intros [= <-]. cbn. lia.
    + rewrite lookup_insert_ne by done. intros He. pose proof (eo_next _ _ _ Hok x e He). lia.
Qed.
Context (len_of : list Z → Z).
(** The hashes of a length are those of the entries of that length. *)
Lemma index_hashes mv h refs l hs k :
  multiverse_ok len_of mv h refs → states_by_chain_length mv !! l = Some hs →
  k ∈ hs ↔ is_Some (states_by_hash mv !! k) ∧ len_of k = l.
Proof.
  intros Hok Hl. destruct (mo_index _ _ _ _ Hok l hs Hl) as (_ & _ & Hlen). rewrite (mo_indexed _ _ _ _ Hok k). split.
  - intros Hk. rewrite (Hlen k Hk), Hl. done.
  - intros [Hk <-]. by rewrite Hl in Hk.
Qed.
(** What a collection of the lengths from [lo] up to [hi] leaves. *)
Record collected (lo hi : Z) (kept : list Z) mv h refs mv' h' : Prop := {
  co_ok : multiverse_ok len_of mv' h' refs;
  co_values : values_kept h h';
  co_same k : ¬ (lo ≤ len_of k < hi) ∨ len_of k ∈ kept → states_by_hash mv' !! k = states_by_hash mv !! k;
  co_pinned k : pinned refs k → entry_arc <$> states_by_hash mv' !! k = entry_arc <$> states_by_hash mv !! k;
  co_gone k : lo ≤ len_of k < hi → ¬ pinned refs k → len_of k ∉ kept → states_by_hash mv' !! k = None }.
Lemma gc_length_ok l hs mv h refs :
  multiverse_ok len_of mv h refs → states_by_chain_length mv !! l = Some hs →
  ∃ mv' h', gc_length l hs mv h = Ok (mv', h') ∧ collected l (l + 1) [] mv h refs mv' h' ∧
    (∀ x, x ≠ l → states_by_chain_length mv' !! x = states_by_chain_length mv !! x).
Proof.
  intros Hok Hl. pose proof (index_hashes mv h refs l hs) as Hin.
  destruct (retain_hashes_ok (elements hs) (states_by_hash mv) h refs ∅) as (b & h' & kept & Hr & Hb & Hv & Hne & Hp & Hn & Hk).
  { apply Hok. } { apply NoDup_elements. }
  { intros k Hk. apply elem_of_elements in Hk. apply (Hin k) in Hk; [|done..]. tauto. }
  assert (∀ k, k ∈ kept ↔ is_Some (b !! k) ∧ len_of k = l) as Hkept.
  { intros k. rewrite Hk, elem_of_elements, (Hin k Hok Hl). split.
    - intros [Hempty|[[Hs Hlen] Hpin]]; [by apply elem_of_empty in Hempty|]. split; [|done].
      specialize (Hp k Hpin). destruct Hs as [e He]. rewrite He in Hp. destruct (b !! k); [by eexists|done].
    - intros [Hs Hlen]. right. destruct (decide (pinned refs k)) as [Hpin|Hpin].
      + split; [|done]. split; [|done]. specialize (Hp k Hpin). destruct Hs as [e He]. rewrite He in Hp.
        destruct (states_by_hash mv !! k); [by eexists|done].
      + exfalso. destruct (decide (k ∈ elements hs)) as [Hkhs|Hkhs]; [rewrite (Hn k Hkhs Hpin) in Hs; by destruct Hs|].
        rewrite Hne in Hs by done. apply Hkhs, elem_of_elements, Hin; done. }
  unfold gc_length. rewrite Hr. cbn [mbind outcome_bind]. eexists _, h'. split; [reflexivity|]. cbn [states_by_chain_length states_by_hash].
  assert (∀ x, x ≠ l → (if decide (kept = ∅) then delete l (states_by_chain_length mv)
    else <[l := kept]> (states_by_chain_length mv)) !! x = states_by_chain_length mv !! x) as Hother.
  { intros x Hx. case_decide; [by rewrite lookup_delete_ne|by rewrite lookup_insert_ne]. }
  split; [|exact Hother]. split; cbn [states_by_chain_length states_by_hash]; try done.
  - split; cbn [states_by_chain_length states_by_hash]; [done| |].
    + intros x hx Hx. destruct (decide (x = l)) as [->|Hxl]; [|rewrite Hother in Hx by done; by apply (mo_index _ _ _ _ Hok)].
      destruct (mo_index _ _ _ _ Hok l hs Hl) as (_ & Hu & _). case_decide as Hke; [by rewrite lookup_delete_eq in Hx|].
      rewrite lookup_insert_eq in Hx. injection Hx as <-. split; [done|]. split; [done|]. intros k Hkk. by apply Hkept.
    + intros k. destruct (decide (len_of k = l)) as [Hlen|Hlen].
      * rewrite Hlen. transitivity (k ∈ kept); [rewrite Hkept; tauto|]. case_decide as Hke.
        -- by rewrite lookup_delete_eq, Hke.
        -- by rewrite lookup_insert_eq.
      * rewrite Hother by done. rewrite <-(mo_indexed _ _ _ _ Hok k). rewrite Hne; [done|].
        rewrite elem_of_elements, (Hin k Hok Hl). tauto.
  - intros k [Hlen|Hnil]; [|by apply elem_of_nil in Hnil]. rewrite Hne; [done|].
    rewrite elem_of_elements, (Hin k Hok Hl). lia.
  - intros k Hlen Hpin _. destruct (decide (k ∈ elements hs)) as [Hkhs|Hkhs]; [by apply Hn|]. rewrite Hne by done.
    destruct (states_by_hash mv !! k) eqn:Hs; [|done]. exfalso. apply Hkhs, elem_of_elements, Hin; [done..|]. split; [by eexists|lia].
Qed.

(** *** The loop *)
Definition in_range mv (lo hi : Z) : gset Z := filter (λ l, lo ≤ l < hi) (dom (states_by_chain_length mv)).
Lemma range_next_ok mv lo hi :
  lo ≤ hi →
  ∃ next, range_next mv lo hi = Ok next ∧
    match next with
    | Some l => l ∈ in_range mv lo hi ∧ ∀ l', l' ∈ in_range mv lo hi → l ≤ l'
    | None => in_range mv lo hi = ∅
    end.
Proof.
  intros Hle. unfold range_next. rewrite (proj2 (Z.ltb_ge _ _)) by done. eexists. split; [reflexivity|].
  assert (∀ x, x ∈ filter (λ l, lo ≤ l < hi) (lengths mv) ↔ x ∈ in_range mv lo hi) as Hin.
  { intros x. unfold in_range, lengths. by rewrite list_elem_of_filter, elem_of_filter, elem_of_elements. }
  pose proof (least_spec (filter (λ l, lo ≤ l < hi) (lengths mv))) as Hl. destruct (least _) as [l|].
  - destruct Hl as [Hl Hmin]. split; [by apply Hin|]. intros l' Hl'. by apply Hmin, Hin.
  - apply set_eq. intros x. rewrite <-Hin, Hl. split; [by intros ?%elem_of_nil|by intros ?%elem_of_empty].
Qed.
(** The gaps double, so that few lengths are kept: how many from here. *)
Definition gaps (longest scan to_keep : Z) : Z :=
  if decide (scan < longest ∧ to_keep < longest) then Z.log2_up (longest - to_keep) + 1 else 0.
Lemma gaps_nonneg longest scan to_keep : 0 ≤ gaps longest scan to_keep.
Proof. unfold gaps. case_decide; [|done]. pose proof (Z.log2_up_nonneg (longest - to_keep)). lia. Qed.
Lemma gaps_step longest scan to_keep l :
  scan ≤ l → to_keep ≤ l → l < longest →
  gaps longest (l + 1) (l + (longest - l) / 2) + 1 ≤ gaps longest scan to_keep.
Proof.
  intros Hs Hk Hl. unfold gaps. rewrite (decide_True (P := scan < longest ∧ _)) by lia.
  pose proof (Z.log2_up_nonneg (longest - to_keep)) as H0. case_decide as Hd; [|lia]. destruct Hd as [Hd _].
  set (n := longest - l) in *. set (r := longest - (l + n / 2)).
  pose proof (Z.div_mod n 2 ltac:(lia)) as Hdiv. pose proof (Z.mod_pos_bound n 2 ltac:(lia)) as Hmod.
  assert (Z.log2_up n ≤ Z.log2_up (longest - to_keep)) as Hmono by (apply Z.log2_up_le_mono; lia).
  assert (0 < Z.log2_up n) as Hpos by (apply Z.log2_up_pos; lia).
  assert (Z.log2_up r ≤ Z.log2_up n - 1) as Hr; [|lia].
  assert (n ≤ 2 ^ Z.log2_up n) as Hn by (apply Z.log2_up_le_pow2; lia).
  replace (Z.log2_up n) with (Z.log2_up n - 1 + 1) in Hn by lia. rewrite Z.pow_add_r in Hn by lia.
  apply Z.log2_up_le_pow2; unfold r; lia.
Qed.
Lemma gaps_scan longest scan scan' to_keep : scan ≤ scan' → gaps longest scan' to_keep ≤ gaps longest scan to_keep.
Proof.
  intros Hle. unfold gaps. pose proof (Z.log2_up_nonneg (longest - to_keep)). repeat case_decide; lia.
Qed.
(** A collection that starts above lengths that are not there. *)
Lemma collected_below lo lo' hi kept mv h refs mv' h' :
  multiverse_ok len_of mv h refs → (∀ l, l ∈ in_range mv lo hi → lo' ≤ l) → lo ≤ lo' →
  collected lo' hi kept mv h refs mv' h' → collected lo hi kept mv h refs mv' h'.
Proof.
  intros Hok Hmin Hle [Hok' Hv Hsame Hpinned Hgone]. split; [done|done| |done|].
  - intros k Hk. apply Hsame. destruct Hk as [?|?]; [left; lia|by right].
  - intros k Hlen Hpin Hkept. destruct (decide (lo' ≤ len_of k)) as [Hge|Hlt]; [apply Hgone; [lia|done|done]|].
    assert (states_by_hash mv !! k = None) as Hnone.
    { destruct (states_by_hash mv !! k) as [e|] eqn:He; [|done]. exfalso. apply Hlt, Hmin.
      assert (k ∈ default ∅ (states_by_chain_length mv !! len_of k)) as Hk by (apply (mo_indexed _ _ _ _ Hok); by eexists).
      unfold in_range. apply elem_of_filter. split; [done|]. apply elem_of_dom.
      destruct (states_by_chain_length mv !! len_of k); [by eexists|by apply elem_of_empty in Hk]. }
    by rewrite (Hsame k ltac:(left; lia)).
Qed.
Lemma collected_kept l hi kept mv h refs mv' h' :
  collected (l + 1) hi kept mv h refs mv' h' → collected l hi (l :: kept) mv h refs mv' h'.
Proof.
  intros [Hok Hv Hsame Hpinned Hgone]. split; [done|done| |done|].
  - intros k Hk. apply Hsame. destruct Hk as [?|[?|?]%elem_of_cons]; [left; lia|left; lia|by right].
  - intros k Hlen Hpin [? ?]%not_elem_of_cons. apply Hgone; [lia|done|done].
Qed.
Lemma collected_trans l hi kept mv h refs mv1 h1 mv' h' :
  collected l (l + 1) [] mv h refs mv1 h1 → collected (l + 1) hi kept mv1 h1 refs mv' h' → l < hi →
  (∀ x, x ∈ kept → l < x) → collected l hi kept mv h refs mv' h'.
Proof.
  intros H1 H2 Hlt Hkept. split; [apply H2|eapply values_kept_trans; [apply H1|apply H2]| | |].
  - intros k Hk. rewrite (co_same _ _ _ _ _ _ _ _ H2), (co_same _ _ _ _ _ _ _ _ H1); [done| |].
    + left. destruct Hk as [?|Hk]; [lia|]. specialize (Hkept _ Hk). lia.
    + destruct Hk as [?|?]; [left; lia|by right].
  - intros k Hk. by rewrite (co_pinned _ _ _ _ _ _ _ _ H2), (co_pinned _ _ _ _ _ _ _ _ H1).
  - intros k Hlen Hpin Hk. destruct (decide (len_of k = l)) as [Hl|Hl].
    + assert (states_by_hash mv1 !! k = None) as Hnone.
      { apply (co_gone _ _ _ _ _ _ _ _ H1 k); [lia|done|by intros ?%elem_of_nil]. }
      by rewrite (co_same _ _ _ _ _ _ _ _ H2 k ltac:(left; lia)).
    + apply (co_gone _ _ _ _ _ _ _ _ H2 k); [lia|done|done].
Qed.
Lemma gc_loop_ok fuel longest hi scan to_keep mv h refs :
  multiverse_ok len_of mv h refs → scan ≤ hi → hi ≤ longest → u32_ok longest → (size (in_range mv scan hi) < fuel)%nat →
  ∃ mv' h' kept, gc_loop fuel longest hi scan to_keep mv h = Ok (mv', h') ∧ collected scan hi kept mv h refs mv' h' ∧
    Z.of_nat (length kept) ≤ gaps longest scan to_keep ∧ ∀ x, x ∈ kept → scan ≤ x < hi.
Proof.
  revert scan to_keep mv h. induction fuel as [|fuel IH]; intros scan to_keep mv h Hok Hle Hhi Hu Hf; [lia|]. cbn [gc_loop].
  destruct (range_next_ok mv scan hi Hle) as (next & -> & Hnext). cbn [mbind outcome_bind]. destruct next as [l|].
  2:{ exists mv, h, []. split; [done|]. split; [|split; [cbn; pose proof (gaps_nonneg longest scan to_keep); lia|by intros x ?%elem_of_nil]].
      apply (collected_below scan hi hi); [done| |done|].
      - intros l. rewrite Hnext. by intros ?%elem_of_empty.
      - split; [done|apply values_kept_refl|done|done|]. intros k ?. lia. }
  destruct Hnext as [Hl Hmin]. pose proof Hl as Hl'. unfold in_range in Hl'. apply elem_of_filter in Hl' as [Hrange [hs Hhs]%elem_of_dom].
  assert (chain_length_increase (E := infallible) l = Ok (l + 1)) as ->.
  { unfold chain_length_increase. rewrite decide_True; [done|]. destruct Hu as [_ Hu]. unfold u32_max. lia. }
  cbn [mbind outcome_bind].
  assert (∀ mv1, (∀ x, x ≠ l → states_by_chain_length mv1 !! x = states_by_chain_length mv !! x) →
    (size (in_range mv1 (l + 1) hi) < fuel)%nat) as Hsize.
  { intros mv1 Hsame. assert (in_range mv1 (l + 1) hi ⊂ in_range mv scan hi) as Hsub%subset_size; [|lia].
    assert (∀ x, x ∈ in_range mv1 (l + 1) hi → x ∈ in_range mv scan hi ∧ x ≠ l) as Hin.
    { intros x. unfold in_range. rewrite !elem_of_filter, !elem_of_dom. intros [Hx Hs]. rewrite Hsame in Hs by lia.
      split; [|lia]. split; [lia|done]. }
    split; [intros x Hx; by apply Hin|]. intros Hsub. by destruct (Hin l (Hsub l Hl)). }
  case_decide as Hk.
  - destruct (IH (l + 1) (l + (longest - l) / 2) mv h) as (mv' & h' & kept & Hr & Hc & Hb & Hin); [done|lia|done|done|by apply Hsize|].
    exists mv', h', (l :: kept). split; [done|]. split.
    + apply (collected_below scan l hi); [done|done|lia|]. by apply collected_kept.
    + split; [|intros x [->|Hx]%elem_of_cons; [lia|specialize (Hin x Hx); lia]].
      cbn [length]. pose proof (gaps_step longest scan to_keep l ltac:(lia) Hk ltac:(lia)). lia.
  - rewrite Hhs. change (default ∅ (Some hs)) with hs. destruct (gc_length_ok l hs mv h refs Hok Hhs) as (mv1 & h1 & -> & Hc1 & Hsame). cbn [mbind outcome_bind].
    destruct (IH (l + 1) to_keep mv1 h1) as (mv' & h' & kept & Hr & Hc & Hb & Hin); [apply Hc1|lia|done|done|by apply Hsize|].
    exists mv', h', kept. split; [done|]. split.
    + apply (collected_below scan l hi); [done|done|lia|]. apply (collected_trans l hi kept mv h refs mv1 h1); [done|done|lia|].
      intros x Hx. specialize (Hin x Hx). lia.
    + split; [pose proof (gaps_scan longest scan (l + 1) to_keep ltac:(lia)); lia|]. intros x Hx. specialize (Hin x Hx). lia.
Qed.

Lemma multiverse_get_ok mv h refs k :
  multiverse_ok len_of mv h refs →
  fst (multiverse_get mv k h) =
  match states_by_hash mv !! k with
  | Some (Retained a) => Some a
  | Some (Collectable a) => if decide (pinned refs k) then Some a else None
  | None => None
  end.
Proof. intros Hok. destruct mv. eapply get_ok. apply Hok. Qed.
Lemma get_ref_fst mv k h : fst (multiverse_get_ref mv k h) = mkRef k <$> fst (multiverse_get mv k h).
Proof. unfold multiverse_get_ref. by destruct (multiverse_get mv k h). Qed.

Lemma insert_index_ok mv h refs k e h' refs' by_hash :
  multiverse_ok len_of mv h refs → u32_ok (len_of k) → by_hash = <[k := e]> (states_by_hash mv) → entries_ok by_hash h' refs' →
  multiverse_ok len_of (mkMultiverse by_hash
    (<[len_of k := {[k]} ∪ default ∅ (states_by_chain_length mv !! len_of k)]> (states_by_chain_length mv))) h' refs'.
Proof.
  intros Hok Hu -> He. split; cbn [states_by_hash states_by_chain_length]; [done| |].
  - intros l hs. destruct (decide (l = len_of k)) as [->|Hl].
    + rewrite lookup_insert_eq. intros [= <-]. split; [set_solver|]. split; [done|]. intros x [->%elem_of_singleton|Hx]%elem_of_union; [done|].
      destruct (states_by_chain_length mv !! len_of k) as [hs|] eqn:Hs; cbn in Hx; [|by apply elem_of_empty in Hx].
      by apply (mo_index _ _ _ _ Hok _ hs Hs).
    + rewrite lookup_insert_ne by done. by apply Hok.
  - intros x. destruct (decide (x = k)) as [->|Hx].
    + rewrite !lookup_insert_eq. cbn. split; [set_solver|by eexists].
    + rewrite (lookup_insert_ne (states_by_hash mv)) by done. rewrite (mo_indexed _ _ _ _ Hok x).
      destruct (decide (len_of x = len_of k)) as [->|Hl]; [rewrite lookup_insert_eq; cbn; set_solver|by rewrite lookup_insert_ne].
Qed.

Lemma gc_ok fuel depth mv h refs :
  multiverse_ok len_of mv h refs → 0 ≤ depth → (size (states_by_chain_length mv) < fuel)%nat →
  ∃ mv' h' kept, multiverse_gc fuel depth mv h = Ok (mv', h') ∧
    match greatest (lengths mv) with
    | Some longest => collected 0 (longest - depth) kept mv h refs mv' h' ∧ Z.of_nat (length kept) ≤ Z.log2_up longest + 1
    | None => (mv', h') = (mv, h)
    end.
Proof.
  intros Hok Hd Hf. unfold multiverse_gc. pose proof (greatest_spec (lengths mv)) as Hg.
  destruct (greatest (lengths mv)) as [longest|]; [|by exists mv, h, []]. destruct Hg as [Hl Hmax].
  unfold lengths in Hl. apply elem_of_elements, elem_of_dom in Hl as [hs Hhs]. destruct (mo_index _ _ _ _ Hok _ hs Hhs) as (_ & Hu & _).
  unfold nth_ancestor. case_decide as Hdl.
  - destruct (gc_loop_ok fuel longest (longest - depth) 0 0 mv h refs) as (mv' & h' & kept & Hr & Hc & Hb & _); [done|lia|lia|done| |].
    { assert (size (in_range mv 0 (longest - depth)) ≤ size (dom (states_by_chain_length mv)))%nat; [|rewrite size_dom in *; lia].
      apply subseteq_size. unfold in_range. intros x Hx. by apply elem_of_filter in Hx as [_ ?]. }
    exists mv', h', kept. split; [done|]. split; [done|]. unfold gaps in Hb. rewrite Z.sub_0_r in Hb.
    pose proof (Z.log2_up_nonneg longest). case_decide; lia.
  - exists mv, h, []. split; [done|]. pose proof (Z.log2_up_nonneg longest). split; [|cbn; lia].
    split; [done|apply values_kept_refl|done|done|]. intros k ?. lia.
Qed.
(** Entries that stay as they are read as before. *)
Lemma get_same mv h mv' h' refs k :
  multiverse_ok len_of mv h refs → multiverse_ok len_of mv' h' refs → states_by_hash mv' !! k = states_by_hash mv !! k →
  fst (multiverse_get mv' k h') = fst (multiverse_get mv k h).
Proof. intros Hok Hok' Hs. by rewrite (multiverse_get_ok mv' h' refs k Hok'), (multiverse_get_ok mv h refs k Hok), Hs. Qed.
Lemma get_ref_of mv h refs r :
  multiverse_ok len_of mv h refs → r ∈ refs → fst (multiverse_get_ref mv (ref_hash r) h) = Some r.
Proof.
  intros Hok Hr. rewrite get_ref_fst, (multiverse_get_ok mv h refs _ Hok).
  destruct (eo_refs _ _ _ (mo_entries _ _ _ _ Hok) r Hr) as (e & -> & Ha).
  assert (pinned refs (ref_hash r)) as Hp by (by apply list_elem_of_fmap_2).
  destruct r as [k a], e as [b|b]; cbn in *; subst b; [done|]. by rewrite decide_True.
Qed.
Lemma refs_alive mv h refs r :
  multiverse_ok len_of mv h refs → r ∈ refs → ∃ st n, h_cells h !! ref_state r = Some (st, S n).
Proof.
  intros Hok Hr. destruct (eo_refs _ _ _ (mo_entries _ _ _ _ Hok) r Hr) as (e & He & <-).
  destruct (eo_cell _ _ _ (mo_entries _ _ _ _ Hok) _ e He) as [st Hc].
  assert (refs_to refs (entry_arc e) ≠ 0%nat) as Hn.
  { rewrite (pinned_entry _ h refs _ e (mo_entries _ _ _ _ Hok) He). intros Hno. apply Hno. by apply list_elem_of_fmap_2. }
  exists st, (pred (refs_to refs (entry_arc e) + retains e)). rewrite Hc. do 2 f_equal. lia.
Qed.

End invariant.

(** ** The steps of those who share the states *)
Section world.
Context {State : Type}.
Implicit Types (h : ArcHeap State) (mv : Multiverse) (refs cur old : list Ref) (by_hash : gmap (list Z) GcEntry).
Definition World : Type := Multiverse * ArcHeap State * list Ref.
(** The hashes that are indexed at a length. *)
Definition indexed mv (l : Z) (k : list Z) : Prop := k ∈ default ∅ (states_by_chain_length mv !! l).
#[export] Instance indexed_dec mv l k : Decision (indexed mv l k).
Proof. unfold indexed. apply _. Defined.
(** A hash may be inserted again, be it readable, held or collected; but not at
    another length while its entry is there. *)
Inductive multiverse_step : World → World → Prop :=
| step_insert mv h refs l k st r mv' h' :
    u32_ok l → states_by_hash mv !! k = None ∨ indexed mv l k → multiverse_insert l k st mv h = (r, mv', h') →
    multiverse_step (mv, h, refs) (mv', h', r :: refs)
| step_get_ref mv h refs k r h' :
    multiverse_get_ref mv k h = (Some r, h') → multiverse_step (mv, h, refs) (mv, h', r :: refs)
| step_clone mv h refs r : r ∈ refs → multiverse_step (mv, h, refs) (mv, ref_clone r h, r :: refs)
| step_drop mv h refs r refs' : refs ≡ₚ r :: refs' → multiverse_step (mv, h, refs) (mv, ref_drop r h, refs')
| step_gc mv h refs fuel depth mv' h' :
    0 ≤ depth → (size (states_by_chain_length mv) < fuel)%nat → multiverse_gc fuel depth mv h = Ok (mv', h') → multiverse_step (mv, h, refs) (mv', h', refs).
Definition world_new : World := (multiverse_new, mkHeap State 0%nat ∅, []).
(** The [Ref]s to states whose hash was inserted again since. *)
Definition no_entry by_hash (a : Arc) : Prop := ∀ k e, by_hash !! k = Some e → entry_arc e ≠ a.
Definition orphans_ok by_hash h old : Prop := ∀ r, r ∈ old →
  no_entry by_hash (ref_state r) ∧ (ref_state r < h_next h)%nat ∧ ∃ st, h_cells h !! ref_state r = Some (st, refs_to old (ref_state r)).
Definition world_ok (w : World) : Prop :=
  ∃ len_of cur old, w.2 ≡ₚ cur ++ old ∧ multiverse_ok len_of w.1.1 w.1.2 cur ∧ orphans_ok (states_by_hash w.1.1) w.1.2 old.

Lemma world_new_ok : world_ok world_new.
Proof.
  exists (λ _, 0), [], []. split; [done|]. split; [|by intros r ?%elem_of_nil].
  split; cbn; [split; set_solver|set_solver|intros k; rewrite !lookup_empty; cbn; split; [by intros []|set_solver]].
Qed.
(** *** A collection touches the cells of the entries only *)
Definition framed (w w' : gmap (list Z) GcEntry * ArcHeap State) : Prop :=
  (∀ k e', w'.1 !! k = Some e' → ∃ e, w.1 !! k = Some e ∧ entry_arc e = entry_arc e') ∧
  (∀ a, no_entry w.1 a → h_cells w'.2 !! a = h_cells w.2 !! a) ∧ h_next w'.2 = h_next w.2.
Lemma framed_refl w : framed w w.
Proof. split_and!; [|done|done]. intros k e' He. by exists e'. Qed.
Lemma framed_trans w w1 w2 : framed w w1 → framed w1 w2 → framed w w2.
Proof.
  intros (Hb1 & Hc1 & Hn1) (Hb2 & Hc2 & Hn2). split_and!; [| |congruence].
  - intros k e (e1 & He1 & Ha1)%Hb2. destruct (Hb1 k e1 He1) as (e0 & He0 & Ha0). exists e0. split; [done|congruence].
  - intros a Ha. rewrite Hc2; [by apply Hc1|]. intros k e (e0 & He0 & <-)%Hb1. by apply (Ha k).
Qed.
Lemma retain_hash_framed by_hash h kept k by_hash' h' kept' :
  retain_hash (by_hash, h, kept) k = Ok (by_hash', h', kept') → framed (by_hash, h) (by_hash', h').
Proof.
  unfold retain_hash. destruct (by_hash !! k) as [e|] eqn:He; [|done].
  assert (∃ h1 dead, entry_collect e h = (dead, Collectable (entry_arc e), h1) ∧ h_next h1 = h_next h ∧
    ∀ a, a ≠ entry_arc e → h_cells h1 !! a = h_cells h !! a) as (h1 & dead & -> & Hn & Hc).
  { destruct e as [a|a]; cbn; do 2 eexists; (split; [reflexivity|]); (split; [done|]); [|done].
    intros b Hb. by apply count_lookup_ne. }
  assert (∀ a, no_entry by_hash a → h_cells h1 !! a = h_cells h !! a) as Hframe.
  { intros a Ha. apply Hc. intros ->. by apply (Ha k e). }
  destruct dead; intros [= <- <- <-]; split_and!; try done; cbn [fst].
  - intros x ex [_ Hx]%lookup_delete_Some. by exists ex.
  - intros x ex. destruct (decide (x = k)) as [->|Hx].
    + rewrite lookup_insert_eq. intros [= <-]. by exists e.
    + rewrite lookup_insert_ne by done. by exists ex.
Qed.
Lemma retain_hashes_framed ks by_hash h kept by_hash' h' kept' :
  retain_hashes (by_hash, h, kept) ks = Ok (by_hash', h', kept') → framed (by_hash, h) (by_hash', h').
Proof.
  revert by_hash h kept. induction ks as [|k ks IH]; intros by_hash h kept; cbn [retain_hashes].
  { intros [= <- <- <-]. apply framed_refl. }
  destruct (retain_hash (by_hash, h, kept) k) as [[[b1 h1] k1]| |] eqn:Hr; cbn [mbind outcome_bind]; try done.
  intros H. eapply framed_trans; [by eapply retain_hash_framed|by eapply IH].
Qed.
Lemma gc_loop_framed fuel longest hi scan to_keep mv h mv' h' :
  gc_loop fuel longest hi scan to_keep mv h = Ok (mv', h') → framed (states_by_hash mv, h) (states_by_hash mv', h').
Proof.
  revert scan to_keep mv h. induction fuel as [|fuel IH]; intros scan to_keep mv h; cbn [gc_loop]; [done|].
  destruct (range_next mv scan hi) as [[l|]| |]; cbn [mbind outcome_bind]; try done.
  2:{ intros [= <- <-]. apply framed_refl. }
  destruct (chain_length_increase l) as [scan'| |]; cbn [mbind outcome_bind]; try done.
  case_decide as Hk; [apply IH|]. unfold gc_length.
  destruct (retain_hashes _ _) as [[[b1 h1] k1]| |] eqn:Hr; cbn [mbind outcome_bind]; try done.
  intros Hgc. eapply framed_trans; [by eapply retain_hashes_framed|]. by apply IH in Hgc.
Qed.
Lemma gc_framed fuel depth mv h mv' h' :
  multiverse_gc fuel depth mv h = Ok (mv', h') → framed (states_by_hash mv, h) (states_by_hash mv', h').
Proof.
  unfold multiverse_gc. destruct (greatest (lengths mv)) as [longest|]; [destruct (nth_ancestor longest depth)|].
  - apply gc_loop_framed.
  - intros [= <- <-]. apply framed_refl.
  - intros [= <- <-]. apply framed_refl.
Qed.
Lemma orphans_framed by_hash h by_hash' h' old :
  framed (by_hash, h) (by_hash', h') → orphans_ok by_hash h old → orphans_ok by_hash' h' old.
Proof.
  intros (Hb & Hc & Hn) Ho r Hr. cbn [fst snd] in *. destruct (Ho r Hr) as (Hno & Hlt & st & Hcell). split_and!.
  - intros k e (e0 & He0 & <-)%Hb. by apply (Hno k).
  - by rewrite Hn.
  - exists st. by rewrite Hc.
Qed.
(** *** Cells that no entry points to *)
Lemma entries_ok_frame by_hash h h' refs :
  (∀ k e, by_hash !! k = Some e → h_cells h' !! entry_arc e = h_cells h !! entry_arc e) → (h_next h ≤ h_next h')%nat →
  entries_ok by_hash h refs → entries_ok by_hash h' refs.
Proof.
  intros Hc Hn Hok. split; try apply Hok.
  - intros k e He. rewrite (Hc k e He). by apply (eo_cell _ _ _ Hok k).
  - intros k e He. pose proof (eo_next _ _ _ Hok k e He). lia.
Qed.
Lemma entries_ok_count by_hash h refs f a : no_entry by_hash a → entries_ok by_hash h refs → entries_ok by_hash (arc_count f a h) refs.
Proof. intros Ha. apply entries_ok_frame; [|done]. intros k e He. apply count_lookup_ne. intros ->. by apply (Ha k e). Qed.
Lemma orphans_count by_hash h old f k e :
  by_hash !! k = Some e → orphans_ok by_hash h old → orphans_ok by_hash (arc_count f (entry_arc e) h) old.
Proof.
  intros He Ho r Hr. destruct (Ho r Hr) as (Hno & Hlt & st & Hcell). split_and!; [done|done|]. exists st.
  rewrite count_lookup_ne; [done|]. by apply (Hno k).
Qed.

(** *** A hash that is inserted again *)
Definition entry_dropped by_hash (k : list Z) h : ArcHeap State :=
  match by_hash !! k with Some (Retained arc) => arc_drop arc h | _ => h end.
(** Its entry goes, and those who hold its state hold it on their own. *)
Lemma entries_forget by_hash h cur old k :
  entries_ok by_hash h cur → orphans_ok by_hash h old →
  ∃ cur' lost, cur ≡ₚ cur' ++ lost ∧ ¬ pinned cur' k ∧
    entries_ok (delete k by_hash) (entry_dropped by_hash k h) cur' ∧
    orphans_ok (delete k by_hash) (entry_dropped by_hash k h) (lost ++ old).
Proof.
  intros Hok Ho. unfold entry_dropped. destruct (by_hash !! k) as [e|] eqn:He.
  2:{ exists cur, []. rewrite app_nil_r, delete_id by done. split_and!; try done.
      intros (r & -> & Hr)%list_elem_of_fmap. destruct (eo_refs _ _ _ Hok r Hr) as (e & Hr' & _). congruence. }
  exists (filter (λ r, ref_state r ≠ entry_arc e) cur), (filter (λ r, ref_state r = entry_arc e) cur).
  set (h' := match e with Retained arc => arc_drop arc h | Collectable _ => h end).
  assert (h_next h' = h_next h) as Hn by (by destruct e).
  assert (∀ a, a ≠ entry_arc e → h_cells h' !! a = h_cells h !! a) as Hc by (intros a Ha; unfold h'; destruct e; cbn [entry_arc] in Ha; [apply count_lookup_ne; congruence|done]).
  assert (∃ st, h_cells h' !! entry_arc e = Some (st, refs_to cur (entry_arc e))) as [st Hst].
  { destruct (eo_cell _ _ _ Hok k e He) as [st Hst]. exists st. destruct e as [a|a]; cbn [entry_arc retains] in *; [|rewrite Nat.add_0_r in Hst; exact Hst].
    unfold h', arc_drop. rewrite (count_lookup pred a h st _ Hst). do 2 f_equal. lia. }
  assert (∀ x ex, delete k by_hash !! x = Some ex → by_hash !! x = Some ex ∧ entry_arc ex ≠ entry_arc e) as Hdel.
  { intros x ex [Hx Hex]%lookup_delete_Some. split; [done|]. intros Ha. apply Hx. symmetry. by apply (eo_inj _ _ _ Hok x k ex e). }
  assert (∀ a, a ≠ entry_arc e → refs_to (filter (λ r, ref_state r ≠ entry_arc e) cur) a = refs_to cur a) as Hkept.
  { intros a Ha. unfold refs_to. f_equal. rewrite list_filter_filter. apply list_filter_iff. intros r. split; [tauto|]. intros ->. done. }
  split_and!.
  - rewrite Permutation_app_comm. symmetry. apply filter_app_complement.
  - intros (r & -> & [Hr Hin]%list_elem_of_filter)%list_elem_of_fmap. apply Hr. destruct (eo_refs _ _ _ Hok r Hin) as (e' & He' & Ha). congruence.
  - split.
    + intros x ex [Hx Ha]%Hdel. destruct (eo_cell _ _ _ Hok x ex Hx) as [v Hv]. exists v. by rewrite Hc, Hkept.
    + intros x x' ex ex' [Hx _]%Hdel [Hx' _]%Hdel. by apply (eo_inj _ _ _ Hok).
    + intros r [Hr Hin]%list_elem_of_filter. destruct (eo_refs _ _ _ Hok r Hin) as (er & Her & Ha). exists er.
      split; [|done]. apply lookup_delete_Some. split; [|done]. intros Hk. rewrite <-Hk in Her. congruence.
    + intros x ex [Hx _]%Hdel. rewrite Hn. by apply (eo_next _ _ _ Hok x).
  - assert (∀ a, refs_to (filter (λ r, ref_state r = entry_arc e) cur ++ old) a =
      (refs_to (filter (λ r, ref_state r = entry_arc e) cur) a + refs_to old a)%nat) as Happ.
    { intros a. unfold refs_to. by rewrite filter_app, length_app. }
    assert (∀ r, r ∈ old → ref_state r ≠ entry_arc e) as Hold.
    { intros r Hr Ha. destruct (Ho r Hr) as (Hno & _). by apply (Hno k e). }
    intros r [[Hr Hin]%list_elem_of_filter|Hr]%elem_of_app.
    + rewrite Hr. split_and!; [by intros x ex [_ Ha]%Hdel|rewrite Hn; by apply (eo_next _ _ _ Hok k)|]. exists st. rewrite Hst, Happ.
      assert (refs_to old (entry_arc e) = 0%nat) as -> by (apply refs_to_zero; done). rewrite Nat.add_0_r. do 2 f_equal.
      unfold refs_to. f_equal. rewrite list_filter_filter. apply list_filter_iff. tauto.
    + destruct (Ho r Hr) as (Hno & Hlt & v & Hv). split_and!; [by intros x ex [Hx _]%Hdel; apply (Hno x)|by rewrite Hn|].
      exists v. rewrite Hc by (by apply Hold). rewrite Happ.
      assert (refs_to (filter (λ r, ref_state r = entry_arc e) cur) (ref_state r) = 0%nat) as ->; [|done].
      apply refs_to_zero. intros r' [Hr' _]%list_elem_of_filter Ha. apply (Hold r Hr). congruence.
Qed.
Lemma entry_dropped_clone by_hash k st h cur :
  entries_ok by_hash h cur →
  entry_dropped by_hash k (arc_clone (h_next h) (snd (arc_new st h))) =
  arc_clone (h_next (entry_dropped by_hash k h)) (snd (arc_new st (entry_dropped by_hash k h))).
Proof.
  intros Hok. unfold entry_dropped. destruct (by_hash !! k) as [[a|a]|] eqn:He; [|done|done].
  pose proof (eo_next _ _ _ Hok k _ He) as Ha. cbn in Ha. unfold arc_drop, arc_clone, arc_new, arc_count. cbn. f_equal.
  rewrite alter_alter_ne by lia. f_equal. by rewrite alter_insert_ne by lia.
Qed.
Lemma insert_step_ok mv h refs l k st r mv' h' :
  u32_ok l → states_by_hash mv !! k = None ∨ indexed mv l k → multiverse_insert l k st mv h = (r, mv', h') →
  world_ok (mv, h, refs) → world_ok (mv', h', r :: refs).
Proof.
  intros Hu Hl Hins (len_of & cur & old & Hrefs & Hok & Ho). cbn [fst snd] in *.
  set (len_of' x := if decide (x = k) then l else len_of x).
  assert (multiverse_ok len_of' mv h cur) as Hok'.
  { destruct Hl as [Hnone|Hin].
    - assert (∀ l' hs x, states_by_chain_length mv !! l' = Some hs → x ∈ hs → x ≠ k) as Hne.
      { intros l' hs x Hs Hx ->. apply (index_hashes len_of mv h cur l' hs k Hok Hs) in Hx. rewrite Hnone in Hx. by destruct Hx as [[]]. }
      split; [apply Hok| |].
      + intros l' hs Hs. destruct (mo_index _ _ _ _ Hok l' hs Hs) as (? & ? & Hlen). split_and!; [done|done|].
        intros x Hx. unfold len_of'. rewrite decide_False by (by apply (Hne l' hs)). by apply Hlen.
      + intros x. unfold len_of'. case_decide as Hx; [|apply Hok]. subst x. rewrite Hnone. split; [by intros []|]. intros Hin. exfalso.
        destruct (states_by_chain_length mv !! l) as [hs|] eqn:Hs; cbn in Hin; [by apply (Hne l hs k)|by apply elem_of_empty in Hin].
    - assert (len_of k = l) as Hlen.
      { unfold indexed in Hin. destruct (states_by_chain_length mv !! l) as [hs|] eqn:Hs; cbn in Hin; [|by apply elem_of_empty in Hin].
        by apply (mo_index _ _ _ _ Hok l hs Hs). }
      assert (∀ x, len_of' x = len_of x) as Heq by (intros x; unfold len_of'; case_decide; congruence).
      split; [apply Hok| |].
      + intros l' hs Hs. setoid_rewrite Heq. by apply Hok.
      + intros x. rewrite Heq. apply Hok. }
  assert (len_of' k = l) as Hlk by (unfold len_of'; by rewrite decide_True).
  destruct (entries_forget (states_by_hash mv) h cur old k (mo_entries _ _ _ _ Hok) Ho) as (cur' & lost & Hcur & Hpin & He & Ho').
  set (h1 := entry_dropped (states_by_hash mv) k h) in *.
  assert (multiverse_insert l k st mv h = (mkRef k (h_next h1), mkMultiverse (<[k := Retained (h_next h1)]> (states_by_hash mv))
    (<[l := {[k]} ∪ default ∅ (states_by_chain_length mv !! l)]> (states_by_chain_length mv)), arc_clone (h_next h1) (snd (arc_new st h1)))) as Heq.
  { assert (h_next h1 = h_next h) as Hn by (unfold h1, entry_dropped; by destruct (states_by_hash mv !! k) as [[a|a]|]).
    unfold h1. rewrite <-(entry_dropped_clone _ k st h cur) by apply Hok. fold h1. rewrite Hn. reflexivity. }
  rewrite Heq in Hins. injection Hins as <- <- <-.
  pose proof (insert_entries (delete k (states_by_hash mv)) h1 cur' k st He) as Hnew.
  rewrite insert_delete_eq in Hnew. specialize (Hnew ltac:(intros a; by rewrite lookup_delete_eq) Hpin).
  exists len_of', (mkRef k (h_next h1) :: cur'), (lost ++ old). cbn [fst snd]. split_and!.
  - rewrite Hrefs, Hcur. by rewrite <-(assoc_L app).
  - rewrite <-Hlk. eapply insert_index_ok; [exact Hok'|by rewrite Hlk|reflexivity|done].
  - intros r Hr. destruct (Ho' r Hr) as (Hno & Hlt & v & Hv). split_and!.
    + cbn [states_by_hash]. intros x ex. destruct (decide (x = k)) as [->|Hx]; [rewrite lookup_insert_eq; intros [= <-]; cbn; lia|].
      rewrite lookup_insert_ne by done. intros Hx'. apply (Hno x). by rewrite lookup_delete_ne.
    + cbn. lia.
    + exists v. unfold arc_clone. rewrite count_lookup_ne by lia. cbn. by rewrite lookup_insert_ne by lia.
Qed.
(** *** Every step keeps the invariant *)
Lemma add_ref_ok len_of mv h cur r e :
  multiverse_ok len_of mv h cur → states_by_hash mv !! ref_hash r = Some e → entry_arc e = ref_state r →
  multiverse_ok len_of mv (arc_clone (ref_state r) h) (r :: cur).
Proof. intros Hok He Ha. split; try apply Hok. by apply (entries_ok_add _ h cur r e); [apply Hok|..]. Qed.
Lemma clone_step_ok mv h refs r : r ∈ refs → world_ok (mv, h, refs) → world_ok (mv, ref_clone r h, r :: refs).
Proof.
  intros Hr (len_of & cur & old & Hrefs & Hok & Ho). cbn [fst snd] in *. rewrite Hrefs in Hr. unfold ref_clone, arc_clone.
  apply elem_of_app in Hr as [Hr|Hr].
  - destruct (eo_refs _ _ _ (mo_entries _ _ _ _ Hok) r Hr) as (e & He & Ha). exists len_of, (r :: cur), old. cbn [fst snd].
    split; [by rewrite Hrefs|]. split; [by apply (add_ref_ok len_of mv h cur r e)|]. rewrite <-Ha. by eapply orphans_count.
  - destruct (Ho r Hr) as (Hno & _). exists len_of, cur, (r :: old). cbn [fst snd]. split; [rewrite Hrefs; apply Permutation_middle|].
    split; [split; try apply Hok; apply entries_ok_count; [done|apply Hok]|].
    assert (∀ x, x ∈ r :: old → x ∈ old) as Hin by (intros x [->|?]%elem_of_cons; done).
    intros x Hx%Hin. destruct (Ho x Hx) as (Hnx & Hlt & st & Hc). split_and!; [done|done|]. exists st. rewrite refs_to_cons.
    case_decide as Heq.
    + rewrite Heq, (count_lookup S _ h st _ Hc). do 2 f_equal. lia.
    + rewrite count_lookup_ne by done. by rewrite Nat.add_0_r.
Qed.
Lemma drop_step_ok mv h refs r refs' : refs ≡ₚ r :: refs' → world_ok (mv, h, refs) → world_ok (mv, ref_drop r h, refs').
Proof.
  intros Hp (len_of & cur & old & Hrefs & Hok & Ho). cbn [fst snd] in *. unfold ref_drop, arc_drop.
  assert (r ∈ cur ++ old) as Hr by (rewrite <-Hrefs, Hp; by left). apply elem_of_app in Hr as [Hr|Hr].
  - destruct (eo_refs _ _ _ (mo_entries _ _ _ _ Hok) r Hr) as (e & He & Ha). apply elem_of_Permutation in Hr as [cur' Hcur].
    exists len_of, cur', old. cbn [fst snd]. split.
    { apply (Permutation_cons_inv (a := r)). by rewrite <-Hp, Hrefs, Hcur. }
    split; [split; try apply Hok; apply entries_ok_drop; eapply entries_ok_perm; [exact Hcur|apply Hok]|].
    rewrite <-Ha. by eapply orphans_count.
  - destruct (Ho r Hr) as (Hno & _). apply elem_of_Permutation in Hr as [old' Hold]. exists len_of, cur, old'. cbn [fst snd]. split.
    { apply (Permutation_cons_inv (a := r)). rewrite <-Hp, Hrefs, Hold. symmetry. apply Permutation_middle. }
    split; [split; try apply Hok; apply entries_ok_count; [done|apply Hok]|].
    intros x Hx. destruct (Ho x ltac:(rewrite Hold; by right)) as (Hnx & Hlt & st & Hc). split_and!; [done|done|]. exists st.
    rewrite (refs_to_perm _ _ _ Hold), refs_to_cons in Hc. destruct (decide (ref_state r = ref_state x)) as [Heq|Heq].
    + rewrite Heq, (count_lookup pred _ h st _ Hc). do 2 f_equal. lia.
    + rewrite count_lookup_ne by done. by rewrite Nat.add_0_r in Hc.
Qed.
Lemma step_ok w w' : multiverse_step w w' → world_ok w → world_ok w'.
Proof.
  intros Hstep Hw. destruct Hstep as [mv h refs l k st r mv' h' Hu Hl Hins|mv h refs k r h' Hget|mv h refs r Hr|mv h refs r refs' Hp|mv h refs fuel depth mv' h' Hd Hf Hgc].
  - by eapply insert_step_ok.
  - destruct Hw as (len_of & cur & old & Hrefs & Hok & Ho). cbn [fst snd] in *.
    unfold multiverse_get_ref, multiverse_get in Hget. destruct (states_by_hash mv !! k) as [e|] eqn:He; [|done].
    assert (r = mkRef k (entry_arc e) ∧ h' = arc_clone (entry_arc e) h) as [-> ->].
    { destruct e as [a|a]; cbn in Hget; [by injection Hget as <- <-|]. unfold weak_upgrade in Hget.
      destruct (decide (strong_count a h = 0%nat)); [done|]. by injection Hget as <- <-. }
    exists len_of, (mkRef k (entry_arc e) :: cur), old. cbn [fst snd]. split; [by rewrite Hrefs|].
    split; [by apply (add_ref_ok len_of mv h cur (mkRef k (entry_arc e)) e)|by eapply orphans_count].
  - by apply clone_step_ok.
  - by eapply drop_step_ok.
  - destruct Hw as (len_of & cur & old & Hrefs & Hok & Ho). cbn [fst snd] in *. exists len_of, cur, old. cbn [fst snd]. split; [done|].
    split; [|by eapply orphans_framed; [eapply gc_framed|]].
    destruct (gc_ok len_of fuel depth mv h cur Hok Hd Hf) as (mv1 & h1 & kept & Hr & Hc). rewrite Hgc in Hr. injection Hr as <- <-.
    destruct (greatest (lengths mv)); [apply Hc|]. by injection Hc as -> ->.
Qed.
Lemma reachable_ok w : rtc multiverse_step world_new w → world_ok w.
Proof.
  intros Hr. pose proof world_new_ok as Hok. induction Hr as [w|w w1 w2 Hs _ IH]; [done|]. apply IH. by apply (step_ok w).
Qed.
(** A state that is held stays, under its hash as long as it was found there. *)
Lemma held_alive mv h refs r : world_ok (mv, h, refs) → r ∈ refs → ∃ st n, h_cells h !! ref_state r = Some (st, S n).
Proof.
  intros (len_of & cur & old & Hrefs & Hok & Ho) Hr. cbn [fst snd] in *. rewrite Hrefs in Hr. apply elem_of_app in Hr as [Hr|Hr].
  - by eapply refs_alive.
  - destruct (Ho r Hr) as (_ & _ & st & Hc). exists st, (pred (refs_to old (ref_state r))). rewrite Hc. do 2 f_equal.
    assert (refs_to old (ref_state r) ≠ 0%nat); [|lia]. rewrite refs_to_zero. intros Hno. by apply (Hno r).
Qed.
Lemma found_current len_of mv h refs cur old r :
  refs ≡ₚ cur ++ old → multiverse_ok len_of mv h cur → orphans_ok (states_by_hash mv) h old →
  r ∈ refs → fst (multiverse_get_ref mv (ref_hash r) h) = Some r → r ∈ cur.
Proof.
  intros Hrefs Hok Ho Hr Hf. rewrite Hrefs in Hr. apply elem_of_app in Hr as [Hr|Hr]; [done|]. exfalso.
  destruct (Ho r Hr) as (Hno & _). rewrite get_ref_fst, (multiverse_get_ok len_of mv h cur _ Hok) in Hf.
  destruct (states_by_hash mv !! ref_hash r) as [e|] eqn:He; [|done]. apply (Hno _ e He).
  destruct r as [k a], e as [b|b]; cbn in *; [congruence|]. case_decide; [cbn in Hf; congruence|done].
Qed.

(** C34. States are inserted under any hash, be it new, collected, readable or still
    held (but, while the entry of a hash is there, under the chain length it is
    indexed at: see [two_lengths_panic]), references are shared and dropped and
    collections run, in any order.  Then a collection never panics.  Every held
    reference keeps its state, and is still what its hash reads as when it was before;
    what lies within the depth of the longest chain reads as before; and below, the
    states nobody holds are left at logarithmically many chain lengths only. *)
Theorem multiverse_gc_keeps mv h refs fuel depth :
  rtc multiverse_step world_new (mv, h, refs) → 0 ≤ depth → (size (states_by_chain_length mv) < fuel)%nat →
  ∃ mv' h', multiverse_gc fuel depth mv h = Ok (mv', h') ∧
    (∀ r, r ∈ refs →
       (fst (multiverse_get_ref mv (ref_hash r) h) = Some r → fst (multiverse_get_ref mv' (ref_hash r) h') = Some r) ∧
       ∃ st n n', h_cells h !! ref_state r = Some (st, S n) ∧ h_cells h' !! ref_state r = Some (st, S n')) ∧
    (∀ k l, indexed mv l k → (∀ l', l' ∈ lengths mv → l' - depth ≤ l) → fst (multiverse_get mv' k h') = fst (multiverse_get mv k h)) ∧
    (∃ kept, Z.of_nat (length kept) ≤ Z.log2_up (default 0 (greatest (lengths mv))) + 1 ∧
       ∀ k, is_Some (states_by_hash mv' !! k) →
         (∃ r, r ∈ refs ∧ ref_hash r = k ∧ fst (multiverse_get_ref mv k h) = Some r) ∨
         ∃ l, indexed mv l k ∧ (l ∈ kept ∨ ∀ l', l' ∈ lengths mv → l' - depth ≤ l)).
Proof.
  intros Hr Hd Hf. pose proof (reachable_ok _ Hr) as Hw. pose proof Hw as (len_of & cur & old & Hrefs & Hok & Ho). cbn [fst snd] in *.
  destruct (gc_ok len_of fuel depth mv h cur Hok Hd Hf) as (mv' & h' & kept & Hgc & Hpost). exists mv', h'. split; [done|].
  assert (world_ok (mv', h', refs)) as Hw'.
  { by apply (step_ok (mv, h, refs)); [apply (step_gc mv h refs fuel depth)|]. }
  assert (multiverse_ok len_of mv' h' cur ∧ values_kept h h') as [Hok' Hv].
  { destruct (greatest (lengths mv)); [destruct Hpost as [Hc _]; split; apply Hc|]. injection Hpost as -> ->. split; [done|apply values_kept_refl]. }
  assert (∀ k l, indexed mv l k → len_of k = l ∧ is_Some (states_by_hash mv !! k)) as Hin.
  { intros k l Hk. unfold indexed in Hk. destruct (states_by_chain_length mv !! l) as [hs|] eqn:Hs; cbn in Hk; [|by apply elem_of_empty in Hk].
    apply (index_hashes len_of mv h cur l hs k Hok Hs) in Hk. tauto. }
  pose proof (greatest_spec (lengths mv)) as Hg. split_and!.
  - intros r Hin'. split; [intros Hcur; apply (get_ref_of len_of mv' h' cur); [done|by apply (found_current len_of mv h refs cur old)]|].
    destruct (held_alive mv h refs r Hw Hin') as (st & n & Hcell), (held_alive mv' h' refs r Hw' Hin') as (st' & n' & Hcell').
    exists st, n, n'. split; [done|]. destruct (Hv _ _ _ Hcell) as [m Hm]. congruence.
  - intros k l Hk Hl. destruct (Hin k l Hk) as [<- _]. destruct (greatest (lengths mv)) as [longest|]; [|by injection Hpost as -> ->].
    destruct Hpost as [Hc _], Hg as [Hlong _]. apply (get_same len_of mv h mv' h' cur); [done|done|]. apply (co_same _ _ _ _ _ _ _ _ _ Hc).
    left. specialize (Hl _ Hlong). lia.
  - assert (∀ k, is_Some (states_by_hash mv' !! k) → is_Some (states_by_hash mv !! k)) as Hback.
    { intros k [e He]. destruct (gc_framed _ _ _ _ _ _ Hgc) as (Hb & _). destruct (Hb k e He) as (e0 & He0 & _). by exists e0. }
    exists (match greatest (lengths mv) with Some _ => kept | None => [] end). split.
    { destruct (greatest (lengths mv)) as [longest|]; [apply Hpost|by vm_compute]. }
    intros k Hk. destruct (decide (pinned cur k)) as [(r & -> & Hrc)%list_elem_of_fmap|Hpin].
    { left. exists r. split_and!; [rewrite Hrefs; apply elem_of_app; by left|done|by apply (get_ref_of len_of mv h cur)]. }
    right. exists (len_of k). split; [by apply (mo_indexed _ _ _ _ Hok), Hback|].
    destruct (greatest (lengths mv)) as [longest|]; [|right; rewrite Hg; by intros l ?%elem_of_nil].
    destruct Hpost as [Hc _], Hg as [_ Hmax]. destruct (decide (len_of k ∈ kept)) as [?|Hkept]; [by left|]. right. intros l Hl. specialize (Hmax l Hl).
    destruct (decide (0 ≤ len_of k < longest - depth)) as [Hrange|Hrange].
    + rewrite (co_gone _ _ _ _ _ _ _ _ _ Hc k Hrange Hpin Hkept) in Hk. by destruct Hk.
    + apply (mo_indexed _ _ _ _ Hok') in Hk. destruct (states_by_chain_length mv' !! len_of k) as [hs|] eqn:Hs; cbn in Hk; [|by apply elem_of_empty in Hk].
      destruct (mo_index _ _ _ _ Hok' _ hs Hs) as (_ & [? _] & _). lia.
Qed.
(** What is inserted is what its hash reads as. *)
Lemma inserted_found mv h refs l k st r mv' h' :
  world_ok (mv, h, refs) → u32_ok l → states_by_hash mv !! k = None ∨ indexed mv l k →
  multiverse_insert l k st mv h = (r, mv', h') →
  fst (multiverse_get_ref mv' k h') = Some r ∧ ∃ n, h_cells h' !! ref_state r = Some (st, S n).
Proof.
  intros Hw Hu Hl Hins. pose proof (insert_step_ok _ _ _ _ _ _ _ _ _ Hu Hl Hins Hw) as Hw'. pose proof Hw as (len_of & cur & old & _ & Hok & _).
  unfold multiverse_insert, arc_new in Hins. injection Hins as <- <- <-. split.
  - unfold multiverse_get_ref, multiverse_get. cbn [states_by_hash]. by rewrite lookup_insert_eq.
  - cbn [ref_state fst snd] in *. exists 1%nat. pose proof (eo_next _ _ _ (mo_entries _ _ _ _ Hok) k) as Hn. cbn [fst snd] in Hn.
    assert (h_cells (arc_clone (h_next h) (mkHeap State (S (h_next h)) (<[h_next h:=(st, 1%nat)]> (h_cells h)))) !! h_next h = Some (st, 2%nat)) as Hc.
    { unfold arc_clone. apply (count_lookup S _ _ st 1%nat). cbn. by rewrite lookup_insert_eq. }
    destruct (states_by_hash mv !! k) as [[a|a]|] eqn:He; [|done|done]. specialize (Hn _ eq_refl). cbn in Hn.
    unfold arc_drop. rewrite count_lookup_ne by lia. exact Hc.
Qed.
End world.

(** Four states, of which the second is held, and a fifth, of the same length, that
    was inserted twice and is held as it was first: the first and the last two stay,
    and so does the first state of the one that was replaced. *)
Definition demo_len (k : list Z) : Z := default 0 (head k).
Definition demo_insert (k : list Z) (st : Z) (w : World (State := Z)) : World :=
  let '(mv, h, refs) := w in let '(r, mv, h) := multiverse_insert (demo_len k) k st mv h in (mv, h, r :: refs).
Definition demo_drop (w : World (State := Z)) : World :=
  match w with (mv, h, r :: refs) => (mv, ref_drop r h, refs) | _ => w end.
Definition demo_inserts : list (list Z * Z) := [([9], 109); ([8], 108); ([3], 103); ([1], 101); ([2; 0], 202); ([2; 0], 102); ([2], 102)].
Definition demo_world : World := Nat.iter 5 demo_drop (foldr (λ x, demo_insert x.1 x.2) world_new demo_inserts).
Lemma demo_insert_step k st w :
  states_by_hash w.1.1 !! k = None ∨ indexed w.1.1 (demo_len k) k → u32_ok (demo_len k) → multiverse_step w (demo_insert k st w).
Proof.
  destruct w as [[mv h] refs]. cbn [fst snd]. intros Hget Hu. unfold demo_insert.
  destruct (multiverse_insert (demo_len k) k st mv h) as [[r mv'] h'] eqn:Hins. by apply (step_insert mv h refs (demo_len k) k st).
Qed.
Lemma demo_drop_step w : w.2 ≠ [] → multiverse_step w (demo_drop w).
Proof. destruct w as [[mv h] [|r refs]]; [done|]. intros _. by apply step_drop. Qed.
Lemma demo_world_reachable : rtc multiverse_step world_new demo_world.
Proof.
  unfold demo_world, demo_inserts. cbn [Nat.iter nat_rect foldr fst snd].
  do 5 (eapply rtc_r; [|apply demo_drop_step; apply (bool_decide_eq_true _); by vm_compute]).
  do 7 (eapply rtc_r; [|apply demo_insert_step; [apply (bool_decide_eq_true _); by vm_compute|by split]]). apply rtc_refl.
Qed.
Lemma demo_world_parts : rtc multiverse_step world_new (demo_world.1.1, demo_world.1.2, demo_world.2).
Proof. generalize demo_world_reachable. generalize demo_world. by intros [[]]. Qed.
Lemma multiverse_gc_keeps_witness :
  (∃ mv' h', multiverse_gc 9 1 demo_world.1.1 demo_world.1.2 = Ok (mv', h') ∧
    fst (multiverse_get_ref mv' [2] h') = Some (mkRef [2] 0%nat) ∧ fst (multiverse_get mv' [8] h') = Some 5%nat ∧
    ∃ n, h_cells h' !! 1%nat = Some (102, S n)).
Proof.
  destruct (multiverse_gc_keeps demo_world.1.1 demo_world.1.2 demo_world.2 9 1) as (mv' & h' & Hgc & Hrefs & Hnear & _).
  - exact demo_world_parts.
  - done.
  - apply Nat.ltb_lt. by vm_compute.
  - exists mv', h'. split; [exact Hgc|]. split_and!.
    + apply (Hrefs (mkRef [2] 0%nat)); [apply (bool_decide_eq_true _); by vm_compute|by vm_compute].
    + rewrite (Hnear [8] 8); [by vm_compute|unfold indexed; apply (bool_decide_eq_true _); by vm_compute|]. apply Forall_forall. apply (bool_decide_eq_true _). by vm_compute.
    + destruct (Hrefs (mkRef [2; 0] 1%nat)) as (_ & st & n & n' & Hc & Hc'); [apply (bool_decide_eq_true _); by vm_compute|].
      assert (st = 102) as ->; [|by exists n']. cbn [ref_state] in Hc.
      assert (Some (st, S n) = Some (102, 1%nat)) as Hv by (rewrite <-Hc; by vm_compute). by injection Hv.
Defined.
(** The first length is kept, the second is held, the third is collected, and so is
    the second state of the hash that was inserted twice. *)
Example demo_collected :
  (λ r, map fst (map_to_list (states_by_hash r.1))) <$> multiverse_gc 9 1 demo_world.1.1 demo_world.1.2 = Ok [[1]; [9]; [2]; [8]].
Proof. by vm_compute. Qed.
(** One hash at two chain lengths: the collection of the first takes the entry, and at
    the second it panics. *)
Definition two_lengths : World (State := Z) :=
  let '(_, mv, h) := multiverse_insert 0 [0] 100 multiverse_new (mkHeap Z 0%nat ∅) in
  let '(r, mv, h) := multiverse_insert 2 [7] 107 mv h in let h := ref_drop r h in
  let '(r, mv, h) := multiverse_insert 3 [7] 107 mv h in let h := ref_drop r h in
  let '(r, mv, h) := multiverse_insert 9 [9] 109 mv h in (mv, h, [r]).
Example two_lengths_panic : multiverse_gc 9 1 two_lengths.1.1 two_lengths.1.2 = Panic.
Proof. by vm_compute. Qed.
