(* ===== verification/LedgerTx.v ===== *)
(** * Transactions on the ledger ([ledger/ledger.rs], [legacy.rs])

    The inputs take value out of UTXOs and accounts, each with its witness;
    the outputs put it into new UTXOs and accounts; the fee goes to the pots.
    Nothing changes unless every step succeeds. *)
From S2P Require Import Prelude Hamt HamtSpec Codec Value Rewards Time Spending Account SparseArray Utxo Pots Addr Key Multisig MultisigLedger Input Transaction Stake Config Settings PoolCert DelegationCert Tokens Governance VoteCert Votes LeaderLog LedgerState.
Local Open Scope Z_scope.

Section tx.
Context `{Crypto} `{Election}.

(** ** [legacy.rs] *)
Record UtxoDeclaration := mkUtxoDeclaration { addrs : list (OldAddress * Value) }.
Definition oldaddress_from_xpub (address : OldAddress) (pk : PublicKey) (some_bytes : list Z) : bool :=
  identical_with_pubkey_raw address pk some_bytes.
Definition old_entry_read : Reader (OldAddress * Value) :=
  value ← value_read;
  addr_size ← get_u16;
  slice ← get_slice (Z.to_nat addr_size);
  addr ← reader_of StructureInvalid (old_address_try_from slice);
  mret (addr, value).
Definition utxo_declaration_read : Reader UtxoDeclaration :=
  nb_entries ← get_u8;
  if 255 <=? nb_entries then read_fail (StructureInvalid "nb entries")
  else addrs ← read_vec old_entry_read (Z.to_nat nb_entries); mret (mkUtxoDeclaration addrs).
Definition old_entry_serialize (w : list Z) (bv : OldAddress * Value) : list Z :=
  let bs := old_address_bytes bv.1 in
  codec_put_bytes (codec_put_be 2 (value_serialize w bv.2) (wrap 16 (Z.of_nat (length bs)))) bs.
Definition utxo_declaration_serialize {E} (w : list Z) (d : UtxoDeclaration) : outcome E (list Z) :=
  assert_that (length (addrs d) <? 255)%nat ;;
  Ok (foldl old_entry_serialize (codec_put_u8 w (Z.of_nat (length (addrs d)))) (addrs d)).

(** [enumerate], with the index cast to [u8]. *)
Definition enumerate {A} (l : list A) : list (TransactionIndex * A) :=
  zip ((λ i, (i mod 256)%nat) <$> seq 0 (length l)) l.
Definition apply_old_declaration (fragment_id : FragmentId)
    (utxos : gmap FragmentId (FastSparseArray (Output OldAddress))) (decl : UtxoDeclaration) :
    outcome Error (gmap FragmentId (FastSparseArray (Output OldAddress))) :=
  assert_that (length (addrs decl) <? 255)%nat ;;
  map_err EUtxoError (utxo_add utxos fragment_id (enumerate ((λ d, mkOutput d.1 d.2) <$> addrs decl))).

(** ** Witnesses *)
Inductive MatchingIdentifierWitness :=
| MSingle (account : Identifier) (witness : list Z) (nonce : SpendingCounter)
| MMulti (account : KeyHash) (witness : MultisigWitness) (nonce : SpendingCounter).
Definition match_identifier_witness (account : UnspecifiedAccountIdentifier) (witness : Witness) :
    outcome Error MatchingIdentifierWitness :=
  match witness with
  | WOldUtxo _ _ _ | WUtxo _ => Err ExpectingAccountWitness
  | WAccount nonce sig => a ← ok_or (to_single_account account) AccountIdentifierInvalid; Ok (MSingle a sig nonce)
  | WMultisig nonce msignature => Ok (MMulti (to_multi_account account) msignature nonce)
  end.
Definition input_single_account_verify (accounts : gmap Identifier (AccountState PoolId TokenIdentifier unit))
    (block0_hash sign_data_hash : list Z) (account : Identifier) (witness : list Z) (c : SpendingCounter)
    (value : Value) : outcome Error (gmap Identifier (AccountState PoolId TokenIdentifier unit)) :=
  new_ledger ← map_err EAccount (remove_value accounts account c value);
  if ed25519_verify witness account (witness_account_data block0_hash sign_data_hash c) then Ok new_ledger
  else Err (AccountInvalidSignature account (WAccount c witness)).
Definition input_multi_account_verify (ms : MultisigLedger PoolId TokenIdentifier)
    (block0_hash sign_data_hash : list Z) (account : KeyHash) (witness : MultisigWitness) (c : SpendingCounter)
    (value : Value) : outcome Error (MultisigLedger PoolId TokenIdentifier) :=
  '(new_ledger, declaration) ← map_err EMultisig (multisig_remove_value ms account c value);
  if multisig_verify blake2b_256 ed25519_verify witness declaration
       (witness_multisig_data block0_hash sign_data_hash c)
  then Ok new_ledger
  else Err (MultisigInvalidSignature account (WMultisig c witness)).

(** ** Inputs *)
Definition block0_hash (l : Ledger) : list Z := block0_initial_hash (l_static_params l).
Definition apply_input_to_utxo (l : Ledger) (sign_data_hash : list Z) (utxo : UtxoPointer FragmentId)
    (witness : Witness) : outcome Error Ledger :=
  match witness with
  | WAccount _ _ | WMultisig _ _ => Err ExpectingUtxoWitness
  | WOldUtxo pk cc signature =>
      '(old_utxos, associated_output) ←
        map_err EUtxoError (utxo_remove (l_oldutxos l) (transaction_id utxo) (output_index utxo));
      if negb (utxo_value utxo =? out_value associated_output)
      then Err (UtxoValueNotMatching (utxo_value utxo) (out_value associated_output))
      else if negb (oldaddress_from_xpub (out_address associated_output) pk cc)
      then Err (OldUtxoInvalidPublicKey utxo associated_output witness)
      else if negb (ed25519_verify signature pk (witness_utxo_data (block0_hash l) sign_data_hash VLegacy))
      then Err (OldUtxoInvalidSignature utxo associated_output witness)
      else Ok (set_oldutxos l old_utxos)
  | WUtxo signature =>
      '(new_utxos, associated_output) ←
        map_err EUtxoError (utxo_remove (l_utxos l) (transaction_id utxo) (output_index utxo));
      if negb (utxo_value utxo =? out_value associated_output)
      then Err (UtxoValueNotMatching (utxo_value utxo) (out_value associated_output))
      else
        pk ← unwrap_opt (public_key (out_address associated_output));
        if negb (ed25519_verify signature pk (witness_utxo_data (block0_hash l) sign_data_hash VNormal))
        then Err (UtxoInvalidSignature utxo associated_output witness)
        else Ok (set_utxos l new_utxos)
  end.
Definition apply_input (sign_data_hash : list Z) (l : Ledger) (iw : Input * Witness) : outcome Error Ledger :=
  match to_enum iw.1 with
  | UtxoInput utxo => apply_input_to_utxo l sign_data_hash utxo iw.2
  | AccountInput account_id value =>
      m ← match_identifier_witness account_id iw.2;
      match m with
      | MSingle account_id witness spending_counter =>
          set_accounts l <$> input_single_account_verify (l_accounts l) (block0_hash l) sign_data_hash account_id
            witness spending_counter value
      | MMulti account_id witness spending_counter =>
          set_multisig l <$> input_multi_account_verify (l_multisig l) (block0_hash l) sign_data_hash account_id
            witness spending_counter value
      end
  end.
Definition transaction_sign_data_hash {P} (tx : Transaction P) : outcome infallible (list Z) :=
  blake2b_256 <$> transaction_auth_data tx.
Definition apply_tx_inputs {P} (l : Ledger) (tx : Transaction P) : outcome Error Ledger :=
  sign_data_hash ← lift (transaction_sign_data_hash tx);
  iws ← lift (tx_inputs_and_witnesses tx);
  foldM (apply_input sign_data_hash) l iws.

(** ** Outputs *)
Definition add_value_or_create_account (l : Ledger) (account : Identifier) (value : Value) : outcome Error Ledger :=
  match add_value (l_accounts l) account value with
  | Ok accounts => Ok (set_accounts l accounts)
  | Err NonExistent => set_accounts l <$> map_err EAccount (add_account (l_accounts l) account value ())
  | Err error => Err (EAccount error)
  | Panic => Panic
  end.
(** The turn of the loop: the ledger and the outputs kept for the UTXOs. *)
Definition output_turn (st : Ledger * list (TransactionIndex * Output Address))
    (io : TransactionIndex * Output Address) :
    outcome Error (Ledger * list (TransactionIndex * Output Address)) :=
  let '(l, new_utxos) := st in
  let output := io.2 in
  valid_output_value output ;;
  if bool_decide (discrimination (out_address output) ≠ discrimination_ (l_static_params l))
  then Err InvalidDiscrimination
  else
    match kind (out_address output) with
    | Single _ => Ok (l, new_utxos ++ [io])
    | Group _ account_id =>
        l ← (if exists_ (l_accounts l) account_id then Ok l
             else set_accounts l <$> map_err EAccount (add_account (l_accounts l) account_id value_zero ()));
        Ok (l, new_utxos ++ [io])
    | Addr.Account identifier =>
        l ← add_value_or_create_account l identifier (out_value output); Ok (l, new_utxos)
    | Addr.Multisig identifier =>
        ms ← map_err EMultisig (multisig_add_value (l_multisig l) identifier (out_value output));
        Ok (set_multisig l ms, new_utxos)
    | Script _ => Err ScriptsAddressNotAllowedYet
    end.
Definition apply_tx_outputs (l : Ledger) (fragment_id : FragmentId) (outputs : list (Output Address)) :
    outcome Error Ledger :=
  '(l, new_utxos) ← foldM output_turn (l, []) (enumerate outputs);
  match new_utxos with
  | [] => Ok l
  | _ => set_utxos l <$> map_err EUtxoError (utxo_add (l_utxos l) fragment_id new_utxos)
  end.
Definition apply_tx_fee (l : Ledger) (fee : Value) : outcome Error Ledger :=
  set_pots l <$> map_err of_pot_error (append_fees (l_pots l) fee).

(** ** The transaction *)
Definition calculate_fee {P} `{Payload P} (tx : Transaction P) (dyn_params : LedgerParameters) :
    outcome infallible Value :=
  p ← tx_payload tx;
  Ok (calculate (lp_fees dyn_params) (into_certificate_slice (P := P) p) (tx_nb_inputs tx) (tx_nb_outputs tx)).
Definition apply_transaction {P} `{Payload P} (l : Ledger) (fragment_id : FragmentId) (tx : Transaction P)
    (cur_date : BlockDate) (dyn_params : LedgerParameters) : outcome Error (Ledger * Value) :=
  map_err TransactionMalformed (valid_transaction_ios_number tx) ;;
  map_err InvalidTransactionValidity (valid_transaction_date (l_settings l) (tx_valid_until tx) cur_date) ;;
  fee ← lift (calculate_fee tx dyn_params);
  map_err TransactionBalanceInvalid (verify_strictly_balanced tx fee) ;;
  l ← apply_tx_inputs l tx;
  outputs ← lift (tx_outputs tx);
  l ← apply_tx_outputs l fragment_id outputs;
  l ← apply_tx_fee l fee;
  Ok (l, fee).
End tx.
