(* ===== verification/LedgerTxSpec.v ===== *)
(** * Transactions conserve the value of the ledger

    Under the invariant of the ledger (what its maps represent, balances and
    counters within their widths, only single and group addresses among the
    UTXOs), a checked transaction never makes the ledger panic; when it is
    applied, the value taken by its inputs is the value of its outputs and fee,
    so the total over UTXOs, accounts, multisig accounts and pots is the same,
    and nothing but these changes. *)
From S2P Require Import Prelude Hamt HamtSpec Codec Key Value Rewards Time Spending Account SparseArray Utxo Pots Addr Multisig MultisigLedger Input Transaction TransactionSpec TxIo Stake StakeControl Config Settings PoolCert DelegationCert Tokens Governance VoteCert Votes LeaderLog LedgerState LedgerTx VotesSpec.
Local Open Scope Z_scope.

(** ** Readers, inverted *)
Lemma reads_bind_inv {A B} (r : Reader A) (k : A → Reader B) b bs :
  local r → (∀ a, local (k a)) → reads (a ← r; k a) b bs →
  ∃ a bs1 bs2, bs = bs1 ++ bs2 ∧ reads r a bs1 ∧ reads (k a) b bs2.
Proof.
  intros Hr Hk Hb. rewrite reads_at in Hb. specialize (Hb [] []). rewrite app_nil_r in Hb. cbn in Hb.
  rewrite reader_bind_eq in Hb. apply bind_Ok in Hb as ([a b1] & Ha & Hb).
  destruct (local_inv r [] bs a b1 Hr Ha) as (bs1 & post & -> & -> & Hra).
  destruct (local_inv (k a) _ post b _ (Hk a) Hb) as (bs2 & post2 & -> & He & Hrk).
  exists a, bs1, bs2. unfold rb_at in He. injection He as Hl _. rewrite !length_app in Hl. cbn in Hl.
  assert (post2 = []) as -> by (destruct post2; [done|cbn in Hl; lia]). by rewrite app_nil_r.
Qed.
Lemma reads_uint_inv n v bs :
  reads (s ← get_slice n; mret (from_be s)) v bs → bytes_ok bs → in_u (8 * Z.of_nat n) v.
Proof.
  intros Hv Hb. apply reads_bind_inv in Hv as (s & bs1 & bs2 & -> & Hs & Hm); [|auto with readers..].
  apply Forall_app in Hb as [Hb _].
  assert (s = bs1 ∧ length s = n) as [-> <-].
  { rewrite reads_at in Hs. specialize (Hs [] []). cbn in Hs. rewrite app_nil_r in Hs.
    unfold get_slice, assure_size in Hs. rewrite reader_bind_eq, rb_at_left in Hs. case_decide as Hn; [|done]. cbn in Hs.
    unfold slice_range in Hs. cbn in Hs. case_decide; [|done]. rewrite Nat.sub_0_r in Hs. cbn in Hs.
    injection Hs as <- Hl. rewrite drop_0, Hl, firstn_all. done. }
  rewrite reads_at in Hm. specialize (Hm [] []). injection Hm as <- _. by apply from_be_range.
Qed.
Lemma reads_output_value o bs : reads output_read o bs → bytes_ok bs → u64_ok (out_value o).
Proof.
  unfold output_read. intros Ho Hb.
  apply reads_bind_inv in Ho as (a & bs1 & bs2 & -> & _ & Ho); [|apply local_address|].
  2:{ intros a. apply local_bind; [apply local_slice_map|intros; apply local_ret]. }
  apply reads_bind_inv in Ho as (v & bs3 & bs4 & -> & Hv & Ho); [|apply local_slice_map|auto with readers].
  apply Forall_app in Hb as [_ [Hb _]%Forall_app]. apply (reads_uint_inv 8) in Hv; [|done].
  rewrite reads_at in Ho. specialize (Ho [] []). by injection Ho as <- _.
Qed.
Definition counter_ok (w : Witness) : Prop :=
  match w with WAccount c _ | WMultisig c _ => u32_ok c | _ => True end.
Lemma reads_ret_inv {A} (a b : A) bs : reads (mret a) b bs → a = b.
Proof. rewrite reads_at. intros Hr. specialize (Hr [] []). by injection Hr. Qed.
Lemma reads_if {A} (c : bool) (r1 r2 : Reader A) a bs :
  reads (if c then r1 else r2) a bs → reads r1 a bs ∨ reads r2 a bs.
Proof. destruct c; auto. Qed.
Lemma reads_fail_inv {A} e (a : A) bs : ¬ reads (read_fail e) a bs.
Proof. rewrite reads_at. intros Hr. by specialize (Hr [] []). Qed.
Lemma reads_witness_counter w bs : reads witness_read w bs → bytes_ok bs → counter_ok w.
Proof.
  assert (local multisig_witness_read) by apply local_multisig_witness. assert (local get_u32) by apply local_slice_map.
  unfold witness_read. intros Hw Hb.
  apply reads_bind_inv in Hw as (t & bs1 & bs2 & -> & _ & Hw); [|auto 10 with readers..].
  apply Forall_app in Hb as [_ Hb].
  repeat (apply reads_if in Hw as [Hw|Hw]); [| | | |by apply reads_fail_inv in Hw].
  - apply reads_bind_inv in Hw as (? & ? & ? & -> & _ & Hw); [|auto 10 with readers..].
    apply reads_bind_inv in Hw as (? & ? & ? & -> & _ & Hw); [|auto 10 with readers..].
    apply reads_bind_inv in Hw as (? & ? & ? & -> & _ & Hw); [|auto 10 with readers..].
    by apply reads_ret_inv in Hw as <-.
  - apply reads_bind_inv in Hw as (? & ? & ? & -> & _ & Hw); [|auto 10 with readers..].
    by apply reads_ret_inv in Hw as <-.
  - apply reads_bind_inv in Hw as (c & ? & ? & -> & Hc & Hw); [|auto 10 with readers..].
    apply Forall_app in Hb as [Hb _]. apply (reads_uint_inv 4) in Hc; [|done].
    apply reads_bind_inv in Hw as (? & ? & ? & -> & _ & Hw); [|auto 10 with readers..].
    by apply reads_ret_inv in Hw as <-.
  - apply reads_bind_inv in Hw as (c & ? & ? & -> & Hc & Hw); [|auto 10 with readers..].
    apply Forall_app in Hb as [Hb _]. apply (reads_uint_inv 4) in Hc; [|done].
    apply reads_bind_inv in Hw as (? & ? & ? & -> & _ & Hw); [|auto 10 with readers..].
    by apply reads_ret_inv in Hw as <-.
Qed.

(** ** The parts of a transaction *)
Record tx_parts {P} (t : Transaction P) (il : list Input) (os : list (Output Address)) (ws : list Witness) : Prop := {
  tp_inputs : tx_inputs t = Ok il;
  tp_outputs : tx_outputs t = Ok os;
  tp_pairs : tx_inputs_and_witnesses t = Ok (zip il ws);
  tp_auth : is_ok (transaction_auth_data t) = true;
  tp_payload : is_ok (tx_payload t) = true;
  tp_length : length ws = length il;
  tp_nb_outputs : Z.of_nat (length os) = tx_nb_outputs t;
  tp_nb_inputs : Z.of_nat (length il) = tx_nb_inputs t;
  tp_counts : u8_ok (tx_nb_inputs t) ∧ u8_ok (tx_nb_outputs t);
  tp_inputs_ok : Forall input_ok il;
  tp_outputs_ok : Forall (λ o, u64_ok (out_value o)) os;
  tp_witnesses_ok : Forall counter_ok ws }.

Lemma Forall_pieces {A} (Q : A → list Z → Prop) (R : A → Prop) (l : list (A * list Z)) :
  Forall (λ ab, Q ab.1 ab.2) l → bytes_ok (concat l.*2) → (∀ a bs, Q a bs → bytes_ok bs → R a) → Forall R l.*1.
Proof.
  induction 1 as [|[a bs] l Ha Hl IH]; cbn; intros Hb HR; [constructor|].
  apply Forall_app in Hb as [Hb1 Hb2]. constructor; [by eapply HR|by apply IH].
Qed.
Lemma checked_tx_parts {P} `{PayloadPartial P} data (t : Transaction P) :
  bytes_ok data → tx_check P data = Ok t → ∃ il os ws, tx_parts t il os ws.
Proof.
  intros Hb. unfold tx_check. intros (ts & Hts & <-%Ok_inj)%bind_Ok.
  destruct (get_spine_inv data ts Hts) as (pb & hb & ins & os & ws & ab & Hs).
  pose proof Hs as [Hdata (eb & sb & Hhb & _) Hsz Hi Ho Hw Ha Hins [Hlo Hos] [Hlw Hws] Hp Hpa].
  assert (u8_ok (ts_nb_inputs ts) ∧ u8_ok (ts_nb_outputs ts) ∧ bytes_ok ins ∧ bytes_ok (concat os.*2) ∧ bytes_ok (concat ws.*2))
    as (Hni & Hno & Hbi & Hbo & Hbw).
  { rewrite Hdata, Hhb in Hb. unfold bytes_ok in *. rewrite !Forall_app, !Forall_cons in Hb. tauto. }
  destruct (inputs_split _ ins Hins Hbi) as (l & Hll & Hok & Hie).
  destruct (shape_accessors data ts pb hb ins os ws ab l Hs Hok Hll Hie) as (E1 & E2 & E3 & E4 & E5 & E6).
  exists l, os.*1, ws.*1. unfold u8_ok, in_u in Hni, Hno. split; unfold tx_nb_inputs, tx_nb_outputs; cbn [tx_struct]; try done.
  - unfold transaction_auth_data. cbn [tx_data tx_struct]. unfold slice_range. rewrite decide_True; [done|].
    rewrite Hw, Hdata, !length_app. lia.
  - by rewrite E5.
  - rewrite length_fmap. lia.
  - rewrite length_fmap. lia.
  - lia.
  - eapply Forall_pieces; [exact Hos|done|]. intros o bs. apply reads_output_value.
  - eapply Forall_pieces; [exact Hws|done|]. intros w bs. apply reads_witness_counter.
Qed.

(** ** The invariant of the ledger *)
Section ledger.
Context `{Crypto} `{Election}.
Abbreviation Utxos := (gmap FragmentId (gmap TransactionIndex (Output Address))).
Abbreviation OldUtxos := (gmap FragmentId (gmap TransactionIndex (Output OldAddress))).

Definition utxos_only (mu : Utxos) : Prop :=
  ∀ tid t i o, mu !! tid = Some t → t !! i = Some o → utxo_output o.
Definition old_values (mo : OldUtxos) : Prop :=
  ∀ tid t i o, mo !! tid = Some t → t !! i = Some o → u64_ok (out_value o).
Record ledger_inv (l : Ledger) (mu : Utxos) (mo : OldUtxos) : Prop := {
  inv_utxos : utxo_repr (l_utxos l) mu;
  inv_old : utxo_repr (l_oldutxos l) mo;
  inv_only : utxos_only mu;
  inv_accounts : ledger_ok (l_accounts l);
  inv_multisig : multisig_ok blake2b_256 (l_multisig l);
  inv_pots : pots_ok (l_pots l);
  inv_old_values : old_values mo }.
Definition total_value (l : Ledger) (mu : Utxos) (mo : OldUtxos) : Z :=
  utxo_total mu + utxo_total mo + ledger_total (l_accounts l) + multisig_total (l_multisig l) + pots_total (l_pots l).
(** What a transaction leaves alone. *)
Definition ledger_rest (l : Ledger) :=
  (l_settings l, l_updates l, l_delegation l, l_static_params l, l_date l, l_chain_length l, l_era l,
   l_leaders_log l, l_votes l, l_governance l, l_token_totals l).

Lemma outputs_put {A} (Q : Output A → Prop) (m : gmap FragmentId (gmap TransactionIndex (Output A))) tid t t' :
  (∀ tid t i o, m !! tid = Some t → t !! i = Some o → Q o) → m !! tid = Some t →
  (∀ i o, t' !! i = Some o → t !! i = Some o) →
  ∀ tid2 t2 i o, spec_put m tid t' !! tid2 = Some t2 → t2 !! i = Some o → Q o.
Proof using Type.
  intros Hm Ht Hsub tid' t0 i o Ht0 Hi. unfold spec_put in Ht0. case_decide.
  - apply lookup_delete_Some in Ht0 as [_ Ht0]. by eapply Hm.
  - apply lookup_insert_Some in Ht0 as [[<- <-]|[_ Ht0]]; [|by eapply Hm]. eapply Hm; [exact Ht|by apply Hsub].
Qed.
Lemma utxos_only_put mu tid t t' :
  utxos_only mu → mu !! tid = Some t → (∀ i o, t' !! i = Some o → t !! i = Some o) → utxos_only (spec_put mu tid t').
Proof using Type. exact (outputs_put utxo_output mu tid t t'). Qed.

(** *** Inputs *)
Lemma apply_input_to_utxo_step l mu mo h u w :
  ledger_inv l mu mo → (output_index u < 255)%nat →
  apply_input_to_utxo l h u w ≠ Panic ∧
  ∀ l', apply_input_to_utxo l h u w = Ok l' → ∃ mu' mo', ledger_inv l' mu' mo' ∧
    total_value l' mu' mo' = total_value l mu mo - utxo_value u ∧ ledger_rest l' = ledger_rest l ∧ l_pots l' = l_pots l.
Proof using Type.
  intros [Hu Ho Hon Ha Hm Hp Hnn] Hi. destruct w as [sig|c sig|pk cc sig|c sig]; cbn; [|done| |done].
  - pose proof (utxo_remove_repr _ _ (transaction_id u) _ Hu Hi) as Hr.
    destruct (mu !! transaction_id u) as [t|] eqn:Ht; [|by rewrite Hr].
    destruct (t !! output_index u) as [o|] eqn:Hto; [|by rewrite Hr].
    destruct Hr as (x & -> & Hx). cbn [map_err mbind outcome_bind].
    destruct (Z.eqb_spec (utxo_value u) (out_value o)) as [Heq|]; [|done]. cbn [negb].
    pose proof (Hon _ _ _ _ Ht Hto) as [_ Hk]. unfold public_key.
    destruct (kind (out_address o)) as [pk|pk ?| | |]; try done; cbn [unwrap_opt mbind outcome_bind];
      (destruct (negb _); [done|]); (split; [done|]); intros l' <-%Ok_inj;
      (exists (spec_put mu (transaction_id u) (delete (output_index u) t)), mo; split; [|split; [|done]];
       [split; try done; eapply utxos_only_put; [done|done|];
        intros i o' [_ ?]%lookup_delete_Some; done|];
       unfold total_value; cbn; rewrite (spec_put_total mu _ t) by done; unfold outputs_total;
       rewrite (map_sum_delete out_value t _ o) by done; lia).
  - pose proof (utxo_remove_repr _ _ (transaction_id u) _ Ho Hi) as Hr.
    destruct (mo !! transaction_id u) as [t|] eqn:Ht; [|by rewrite Hr].
    destruct (t !! output_index u) as [o|] eqn:Hto; [|by rewrite Hr].
    destruct Hr as (x & -> & Hx). cbn [map_err mbind outcome_bind].
    destruct (Z.eqb_spec (utxo_value u) (out_value o)) as [Heq|]; [|done]. cbn [negb].
    do 2 (destruct (negb _); [done|]). split; [done|]. intros l' <-%Ok_inj.
    exists mu, (spec_put mo (transaction_id u) (delete (output_index u) t)). split.
    { split; try done. refine (outputs_put (λ o, u64_ok (out_value o)) mo _ t _ Hnn _ _); [done|]. intros i o' [_ ?]%lookup_delete_Some. done. }
    split; [|done].
    unfold total_value; cbn; rewrite (spec_put_total mo _ t) by done; unfold outputs_total.
    rewrite (map_sum_delete out_value t _ o) by done. lia.
Qed.

Lemma apply_input_step l mu mo h i w :
  ledger_inv l mu mo → input_ok i → counter_ok w →
  ∀ l', apply_input h l (i, w) = Ok l' → ∃ mu' mo', ledger_inv l' mu' mo' ∧
    total_value l' mu' mo' = total_value l mu mo - input_value i ∧ ledger_rest l' = ledger_rest l ∧ l_pots l' = l_pots l.
Proof using Type.
  intros Hinv (Hix & Hv & Hl) Hc l'. unfold apply_input, to_enum, get_type. cbn [fst snd].
  destruct (Z.eqb_spec (index_or_account i) 255) as [|Hne].
  - pose proof Hinv as [Hu Ho Hon Ha Hm Hp Hnn]. intros (m & Hmw & Hrun)%bind_Ok. destruct w as [sig|c sig|pk cc sig|c sig]; try done; cbn in Hmw.
    + destruct (to_single_account _) as [acc|]; [|done]. apply Ok_inj in Hmw as <-.
      destruct (input_single_account_verify _ _ _ _ _ _ _) as [na| |] eqn:Hs; [|done..]. apply Ok_inj in Hrun as <-.
      unfold input_single_account_verify in Hs. apply bind_Ok in Hs as (na' & Hr%map_err_Ok & Hs).
      destruct (ed25519_verify _ _ _); [|done]. apply Ok_inj in Hs as ->.
      destruct (account_step (l_accounts l) (OpRemoveValue acc c (input_value i)) na Ha) as [Hok Ht]; [done..|].
      exists mu, mo. split; [by split|]. split; [|done]. unfold total_value. cbn. cbn in Ht. lia.
    + apply Ok_inj in Hmw as <-.
      destruct (input_multi_account_verify _ _ _ _ _ _ _) as [na| |] eqn:Hs; [|done..]. apply Ok_inj in Hrun as <-.
      unfold input_multi_account_verify in Hs. apply bind_Ok in Hs as ([na' d] & Hr%map_err_Ok & Hs).
      destruct (multisig_verify _ _ _ _ _); [|done]. apply Ok_inj in Hs as ->.
      destruct (multisig_step blake2b_256 (l_multisig l) (MOpRemoveValue (to_multi_account (input_ptr i)) c (input_value i)) na Hm)
        as [Hok Ht]; [done|cbn [multisig_run]; by rewrite Hr|].
      exists mu, mo. split; [by split|]. split; [|done]. unfold total_value. cbn. cbn in Ht. lia.
  - intros Hrun. unfold u8_ok, in_u in Hix.
    destruct (apply_input_to_utxo_step l mu mo h (mkUtxoPointer (input_ptr i) (Z.to_nat (index_or_account i)) (input_value i)) w)
      as [_ Hs]; [done|cbn; lia|]. by apply Hs.
Qed.

Lemma hm_update_no_panic {K V U} `{Countable K} (m : gmap K V) k (f : V → outcome U (option V)) :
  (∀ v, m !! k = Some v → f v ≠ Panic) → hm_update m k f ≠ Panic.
Proof.
  intros Hf. unfold hm_update. destruct (m !! k) as [v|]; [|done]. specialize (Hf v eq_refl). by destruct (f v).
Qed.
Lemma remove_value_no_panic (a : gmap Identifier (AccountState PoolId TokenIdentifier unit)) i c v :
  ledger_ok a → u32_ok c → remove_value a i c v ≠ Panic.
Proof using Type.
  intros Ha Hc. unfold remove_value. intros Hp.
  assert (Hu : ∀ f, (∀ st, state_ok st → f st ≠ Panic) → hm_update a i f ≠ Panic (E := UpdateError LedgerError)).
  { intros f Hf. apply hm_update_no_panic. intros st Hi. apply Hf. by eapply Ha. }
  revert Hp. match goal with |- map_err _ (hm_update _ _ ?f) = _ → _ => specialize (Hu f) end.
  destruct (hm_update _ _ _); [done|done|]. intros _. apply Hu; [|done]. intros st [_ Hst].
  unfold state_sub, value_sub, checked_sub64. destruct (decide _); [|done]. cbn.
  pose proof (next_verify_spec (spending st) c Hst Hc) as Hn. case_decide.
  - by destruct Hn as [-> _].
  - by rewrite Hn.
Qed.
Lemma apply_input_no_panic l mu mo h i w :
  ledger_inv l mu mo → input_ok i → counter_ok w → apply_input h l (i, w) ≠ Panic.
Proof using Type.
  intros Hinv (Hix & Hv & Hl) Hc. unfold apply_input, to_enum, get_type. cbn [fst snd].
  destruct (Z.eqb_spec (index_or_account i) 255) as [|Hne].
  - destruct Hinv as [Hu Ho Hon Ha Hm Hp Hnn]. destruct w as [sig|c sig|pk cc sig|c sig]; try done; cbn.
    + destruct (to_single_account _) as [acc|]; [|done]. cbn. unfold input_single_account_verify.
      pose proof (remove_value_no_panic (l_accounts l) acc c (input_value i) Ha Hc).
      destruct (remove_value _ _ _ _); [|done..]. cbn. by destruct (ed25519_verify _ _ _).
    + unfold input_multi_account_verify, multisig_remove_value.
      destruct (ms_declarations _ !! _) as [d|]; [|done]. cbn.
      pose proof (remove_value_no_panic (ms_accounts (l_multisig l)) (to_multi_account (input_ptr i)) c (input_value i)
        (msok_accounts _ _ Hm) Hc) as Hn.
      destruct (remove_value _ _ _ _); [|done..]. cbn. by destruct (multisig_verify _ _ _ _ _).
  - unfold u8_ok, in_u in Hix.
    by destruct (apply_input_to_utxo_step l mu mo h (mkUtxoPointer (input_ptr i) (Z.to_nat (index_or_account i)) (input_value i)) w)
      as [Hs _]; [done|cbn; lia|].
Qed.

Lemma apply_inputs_run h l mu mo iws :
  ledger_inv l mu mo → Forall (λ iw, input_ok iw.1 ∧ counter_ok iw.2) iws →
  foldM (apply_input h) l iws ≠ Panic ∧
  ∀ l', foldM (apply_input h) l iws = Ok l' → ∃ mu' mo', ledger_inv l' mu' mo' ∧
    total_value l' mu' mo' = total_value l mu mo - Zsum (input_value <$> iws.*1) ∧
    ledger_rest l' = ledger_rest l ∧ l_pots l' = l_pots l.
Proof using Type.
  intros Hinv Hok. revert l mu mo Hinv. induction Hok as [|[i w] iws [Hi Hw] Hok IH]; intros l mu mo Hinv; cbn [foldM].
  - split; [done|]. intros l' <-%Ok_inj. exists mu, mo. cbn. by rewrite Z.sub_0_r.
  - pose proof (apply_input_no_panic l mu mo h i w Hinv Hi Hw) as Hnp.
    pose proof (apply_input_step l mu mo h i w Hinv Hi Hw) as Hstep.
    destruct (apply_input h l (i, w)) as [l1|e|]; [|done|done]. cbn [mbind outcome_bind].
    destruct (Hstep l1 eq_refl) as (mu1 & mo1 & Hinv1 & Ht1 & Hr1 & Hp1). destruct (IH l1 mu1 mo1 Hinv1) as [Hnp2 Hrun].
    split; [done|]. intros l' Hl'. destruct (Hrun l' Hl') as (mu' & mo' & Hinv' & Ht' & Hr' & Hp').
    exists mu', mo'. split; [done|]. cbn in *. split; [lia|]. split; congruence.
Qed.

(** *** Outputs *)
Lemma add_account_no_panic (a : gmap Identifier (AccountState PoolId TokenIdentifier unit)) i v :
  add_account a i v () ≠ Panic.
Proof using Type.
  unfold add_account. destruct (state_new_total (E := LedgerError) (PoolId := PoolId) (TokenId := TokenIdentifier) v ()) as [st ->].
  cbn. unfold hm_insert. by destruct (a !! i).
Qed.
Lemma add_value_no_panic {K} `{Countable K} (a : gmap K (AccountState PoolId TokenIdentifier unit)) i v :
  add_value a i v ≠ Panic.
Proof using Type.
  unfold add_value. pose proof (hm_update_no_panic a i (λ st, Some <$> state_add st v)) as Hu.
  destruct (hm_update _ _ _); try done. exfalso. apply Hu; [|done]. intros st _.
  unfold state_add, value_add, checked_add64. by destruct (decide _).
Qed.
Definition kept_total (acc : list (TransactionIndex * Output Address)) : Z := Zsum (out_value ∘ snd <$> acc).
Definition output_fine (io : TransactionIndex * Output Address) : Prop := u64_ok (out_value io.2).

Lemma accounts_run_step l mu mo o a' :
  ledger_inv l mu mo → account_op_ok o → account_run (l_accounts l) o = Ok a' →
  ledger_inv (set_accounts l a') mu mo ∧
  total_value (set_accounts l a') mu mo = total_value l mu mo + op_amount o.
Proof using Type.
  intros [Hu Ho Hon Ha Hm Hp Hnn] Hop Hrun. destruct (account_step _ _ _ Ha Hop Hrun) as [Hok Ht].
  split; [by split|]. unfold total_value. cbn. lia.
Qed.
Lemma add_value_or_create_step l mu mo a v :
  ledger_inv l mu mo → u64_ok v →
  add_value_or_create_account l a v ≠ Panic ∧
  ∀ l', add_value_or_create_account l a v = Ok l' →
    ∃ a', l' = set_accounts l a' ∧ ledger_inv l' mu mo ∧ total_value l' mu mo = total_value l mu mo + v.
Proof using Type.
  intros Hinv Hv. unfold add_value_or_create_account. pose proof (add_value_no_panic (l_accounts l) a v) as Hnp.
  pose proof (add_account_no_panic (l_accounts l) a v) as Hnp2.
  destruct (add_value (l_accounts l) a v) as [a'|e|] eqn:Hadd; [|destruct e; try done|done].
  - split; [done|]. intros l' <-%Ok_inj. exists a'. split; [done|].
    by apply (accounts_run_step l mu mo (OpAddValue a v)).
  - destruct (add_account (l_accounts l) a v ()) as [a'|e|] eqn:Hacc; [|done|done]. cbn. split; [done|].
    intros l' <-%Ok_inj. exists a'. split; [done|].
    by apply (accounts_run_step l mu mo (OpAddAccount a v ())).
Qed.

Lemma output_turn_step l mu mo acc io :
  ledger_inv l mu mo → output_fine io →
  output_turn (l, acc) io ≠ Panic ∧
  ∀ l' acc', output_turn (l, acc) io = Ok (l', acc') →
    ledger_inv l' mu mo ∧ ledger_rest l' = ledger_rest l ∧ l_pots l' = l_pots l ∧ l_utxos l' = l_utxos l ∧
    total_value l' mu mo + kept_total acc' = total_value l mu mo + kept_total acc + out_value io.2 ∧
    (acc' = acc ∨ acc' = acc ++ [io] ∧ utxo_output io.2).
Proof using Type.
  intros Hinv Hio. unfold output_fine in Hio. unfold output_turn, valid_output_value, if_cond_fail_with.
  destruct (_ =? _); [done|]. cbn [mbind outcome_bind]. case_bool_decide; [done|].
  assert (Hk : kept_total (acc ++ [io]) = kept_total acc + out_value io.2).
  { unfold kept_total. rewrite fmap_app, Zsum_app. cbn. lia. }
  destruct (kind (out_address io.2)) as [pk|pk account_id|identifier|identifier|s] eqn:Hkind.
  - split; [done|]. intros l' acc' [= <- <-]. split_and!; try done; [lia|]. right. split; [done|].
    split; [apply Hio|by rewrite Hkind].
  - assert (Huo : utxo_output io.2) by (split; [apply Hio|by rewrite Hkind]). destruct (exists_ _ _) eqn:Hex.
    + split; [done|]. intros l' acc' [= <- <-]. split_and!; try done; [lia|by right].
    + pose proof (add_account_no_panic (l_accounts l) account_id value_zero) as Hnp.
      destruct (add_account _ _ _ _) as [a'|e|] eqn:Hacc; [|done|done]. cbn. split; [done|].
      intros l' acc' [= <- <-].
      destruct (accounts_run_step l mu mo (OpAddAccount account_id value_zero ()) a' Hinv) as [Hinv' Ht]; [done..|].
      split_and!; try done; [|by right]. rewrite Ht, Hk. cbn. unfold value_zero. lia.
  - destruct (add_value_or_create_step l mu mo identifier (out_value io.2) Hinv Hio) as [Hnp Hs].
    destruct (add_value_or_create_account l identifier (out_value io.2)) as [l1|e|]; [|done|done]. cbn. split; [done|].
    intros l' acc' [= <- <-]. destruct (Hs l1 eq_refl) as (a' & -> & Hinv' & Ht). split_and!; try done; [lia|by left].
  - unfold multisig_add_value. pose proof (add_value_no_panic (ms_accounts (l_multisig l)) identifier (out_value io.2)) as Hnp.
    destruct (add_value _ _ _) as [a'|e|] eqn:Hadd; [|done|done]. cbn. split; [done|]. intros l' acc' [= <- <-].
    pose proof Hinv as [Hu Ho Hon Ha Hm Hp Hnn].
    destruct (multisig_step blake2b_256 (l_multisig l) (MOpAddValue identifier (out_value io.2)) (mkMultisig a' (ms_declarations (l_multisig l))) Hm)
      as [Hok Ht]; [done|cbn; unfold multisig_add_value; by rewrite Hadd|].
    assert (Hinv' : ledger_inv (set_multisig l (mkMultisig a' (ms_declarations (l_multisig l)))) mu mo) by (by split).
    split_and!; try done; [|by left]. unfold total_value. cbn. cbn in Ht. lia.
  - done.
Qed.

Lemma output_turns l mu mo acc ios :
  ledger_inv l mu mo → Forall output_fine ios →
  foldM output_turn (l, acc) ios ≠ Panic ∧
  ∀ l' acc', foldM output_turn (l, acc) ios = Ok (l', acc') →
    ledger_inv l' mu mo ∧ ledger_rest l' = ledger_rest l ∧ l_pots l' = l_pots l ∧ l_utxos l' = l_utxos l ∧
    total_value l' mu mo + kept_total acc' = total_value l mu mo + kept_total acc + kept_total ios ∧
    ∃ kept, acc' = acc ++ kept ∧ sublist kept ios ∧ Forall (λ io, utxo_output io.2) kept.
Proof using Type.
  intros Hinv Hok. revert l acc Hinv. induction Hok as [|io ios Hio Hok IH]; intros l acc Hinv; cbn [foldM].
  - split; [done|]. intros l' acc' [= <- <-]. split_and!; try done; [unfold kept_total; cbn; lia|].
    exists []. rewrite app_nil_r. done.
  - destruct (output_turn_step l mu mo acc io Hinv Hio) as [Hnp Hstep].
    destruct (output_turn (l, acc) io) as [[l1 acc1]|e|]; [|done|done]. cbn [mbind outcome_bind].
    destruct (Hstep l1 acc1 eq_refl) as (Hinv1 & Hr1 & Hp1 & Hu1 & Ht1 & Ha1).
    destruct (IH l1 acc1 Hinv1) as [Hnp2 Hrun]. split; [done|]. intros l' acc' Hl'.
    destruct (Hrun l' acc' Hl') as (Hinv' & Hr' & Hp' & Hu' & Ht' & kept & -> & Hsub & Hkept).
    split_and!; try done; [congruence..| |].
    + unfold kept_total in *. cbn. lia.
    + destruct Ha1 as [->|[-> Ho]].
      * exists kept. split; [done|]. split; [by constructor|done].
      * exists (io :: kept). rewrite <-app_assoc. split; [done|]. split; [by constructor|by constructor].
Qed.

Lemma enumerate_props {A} (l : list A) :
  (length l ≤ 256)%nat →
  NoDup (enumerate l).*1 ∧ Forall (λ io, (io.1 < length l)%nat) (enumerate l) ∧ (enumerate l).*2 = l ∧
  length (enumerate l) = length l.
Proof using Type.
  intros Hl. unfold enumerate.
  assert (((λ i, (i mod 256)%nat) <$> seq 0 (length l)) = seq 0 (length l)) as ->.
  { rewrite <-(list_fmap_id (seq 0 (length l))) at 2. apply list_fmap_ext. intros j i Hj.
    apply lookup_seq in Hj as [-> Hj]. apply (Nat.mod_small j 256). lia. }
  rewrite fst_zip, snd_zip, length_zip by (rewrite length_seq; lia). split_and!; [apply NoDup_seq| |done|rewrite length_seq; lia].
  apply Forall_forall. intros [i a] Hin. apply elem_of_zip_l, elem_of_seq in Hin. cbn. lia.
Qed.

Lemma utxos_only_insert mu tid outs :
  utxos_only mu → mu !! tid = None → Forall (λ io, utxo_output io.2) outs → NoDup outs.*1 →
  utxos_only (<[tid := spec_outputs outs]> mu).
Proof using Type.
  intros Hm Ht Houts Hnd tid' t i o. rewrite lookup_insert_Some. intros [[<- <-]|[_ ?]] Hi; [|by eapply Hm].
  clear -Houts Hi. revert Hi. induction outs as [|io outs IH] using rev_ind; [by intros ?|].
  apply Forall_app in Houts as [Houts Ho%Forall_inv]. unfold spec_outputs. rewrite foldl_app. cbn [foldl].
  rewrite lookup_insert_Some. intros [[_ <-]|[_ Hi]]; [done|by apply IH].
Qed.

Lemma apply_outputs_run l mu mo fid os :
  ledger_inv l mu mo → (length os ≤ 255)%nat → Forall (λ o, u64_ok (out_value o)) os →
  ((length os ≤ 254)%nat → apply_tx_outputs l fid os ≠ Panic) ∧
  ∀ l', apply_tx_outputs l fid os = Ok l' → ∃ mu', ledger_inv l' mu' mo ∧
    total_value l' mu' mo = total_value l mu mo + Zsum (out_value <$> os) ∧
    ledger_rest l' = ledger_rest l ∧ l_pots l' = l_pots l.
Proof using Type.
  intros Hinv Hl Hos. destruct (enumerate_props os) as (Hnd & Hlt & Hsnd & Hlen); [lia|].
  assert (Hfine : Forall output_fine (enumerate os)).
  { apply Forall_forall. intros io Hio. unfold output_fine. rewrite Forall_forall in Hos. apply Hos.
    rewrite <-Hsnd. by apply list_elem_of_fmap_2. }
  assert (Htot : kept_total (enumerate os) = Zsum (out_value <$> os)).
  { unfold kept_total. rewrite list_fmap_compose, Hsnd. done. }
  destruct (output_turns l mu mo [] (enumerate os) Hinv Hfine) as [Hnp Hrun]. unfold apply_tx_outputs.
  destruct (foldM output_turn (l, []) (enumerate os)) as [[l1 acc]|e|]; [|done|done]. cbn [mbind outcome_bind].
  destruct (Hrun l1 acc eq_refl) as (Hinv1 & Hr1 & Hp1 & Hu1 & Ht1 & kept & -> & Hsub & Hkept). cbn [app] in *.
  pose proof Hinv1 as [Hu Ho Hon Ha Hm Hp Hnn].
  destruct (decide (kept = [])) as [->|Hne].
  { split; [done|]. intros l' <-%Ok_inj. exists mu. split; [done|]. unfold kept_total in *. cbn in Ht1. split; [lia|done]. }
  assert (match kept with [] => Ok l1 | _ => set_utxos l1 <$> map_err EUtxoError (utxo_add (l_utxos l1) fid kept) end =
    set_utxos l1 <$> map_err EUtxoError (utxo_add (l_utxos l1) fid kept)) as -> by (by destruct kept).
  destruct (decide (length kept < 255)%nat) as [Hklen|Hklen].
  2:{ apply sublist_length in Hsub. unfold utxo_add. rewrite bool_decide_false by done. rewrite (proj2 (Nat.ltb_ge _ _)) by lia.
      cbn. split; [lia|done]. }
  assert (Hklt : Forall (λ io, (io.1 < 256)%nat) kept).
  { apply Forall_forall. intros io Hin. rewrite Forall_forall in Hlt. pose proof (elem_of_sublist _ _ _ Hin Hsub) as Hin'.
    apply Hlt in Hin'. lia. }
  assert (Hknd : NoDup kept.*1) by (eapply sublist_NoDup; [exact Hnd|by apply fmap_sublist]).
  pose proof (utxo_add_repr (l_utxos l1) mu fid kept Hu Hne Hklen Hklt) as Hadd.
  destruct (mu !! fid) as [t|] eqn:Hfid; [by rewrite Hadd|]. destruct Hadd as (x & -> & Hx). cbn.
  split; [done|]. intros l' <-%Ok_inj. exists (<[fid := spec_outputs kept]> mu). split.
  - split; try done. by apply utxos_only_insert.
  - split; [|done]. unfold total_value in *. cbn. unfold kept_total in *. cbn in Ht1.
    unfold utxo_total. rewrite map_sum_insert_new by done. rewrite spec_outputs_total by done.
    fold (utxo_total mu). lia.
Qed.

(** *** The whole transaction *)
Context {P : Type} `{PayloadPartial P}.

Lemma strictly_balanced_sums (t : Transaction P) il os ws fee :
  tx_parts t il os ws → 0 ≤ fee →
  verify_strictly_balanced t fee ≠ Panic ∧
  (verify_strictly_balanced t fee = Ok () → Zsum (input_value <$> il) = Zsum (out_value <$> os) + fee).
Proof using Type.
  intros Hp Hf. assert (Hv : values_nonneg il os).
  { split; [eapply Forall_impl; [apply (tp_inputs_ok _ _ _ _ Hp)|]|eapply Forall_impl; [apply (tp_outputs_ok _ _ _ _ Hp)|]];
      cbn; unfold input_ok, in_u; intros; tauto || lia. }
  destruct (sums_spec _ _ Hv) as [Es Eo]. unfold sum_in, sum_out in *.
  unfold verify_strictly_balanced, total_input, total_output. rewrite (tp_inputs _ _ _ _ Hp), (tp_outputs _ _ _ _ Hp).
  cbn [lift mbind outcome_bind]. rewrite Es, Eo. unfold value_add, checked_add64.
  destruct (decide (Zsum (input_value <$> il) ≤ u64_max)); cbn [map_err mbind outcome_bind]; [|done].
  destruct (decide (Zsum (out_value <$> os) ≤ u64_max)); cbn [map_err mbind outcome_bind]; [|done].
  destruct (decide (Zsum (out_value <$> os) + fee ≤ u64_max)); cbn [ok_or map_err mbind outcome_bind]; [|done].
  destruct (Z.eqb_spec (Zsum (input_value <$> il)) (Zsum (out_value <$> os) + fee)); cbn [negb]; (split; [done|]); [by intros _|done].
Qed.
Lemma calculate_fee_ok (t : Transaction P) il os ws dyn :
  tx_parts t il os ws → linear_fee_ok (lp_fees dyn) → ∃ fee, calculate_fee t dyn = Ok fee ∧ u64_ok fee.
Proof using Type.
  intros Hp Hl. unfold calculate_fee. pose proof (tp_payload _ _ _ _ Hp) as Hpl.
  destruct (tx_payload t) as [p| |]; [|done|done]. cbn [mbind outcome_bind]. eexists. split; [done|].
  apply (calculate_ok (ok := linear_fee_ok)); [done|apply (tp_counts _ _ _ _ Hp)..].
Qed.

Lemma apply_transaction_run l mu mo fid (t : Transaction P) il os ws date dyn :
  ledger_inv l mu mo → tx_parts t il os ws → linear_fee_ok (lp_fees dyn) →
  apply_transaction l fid t date dyn ≠ Panic ∧
  ∀ l' fee, apply_transaction l fid t date dyn = Ok (l', fee) →
    ∃ mu' mo', ledger_inv l' mu' mo' ∧ total_value l' mu' mo' = total_value l mu mo ∧
      ledger_rest l' = ledger_rest l ∧ calculate_fee t dyn = Ok fee ∧
      fees (l_pots l') = fees (l_pots l) + fee ∧ treasury (l_pots l') = treasury (l_pots l) ∧
      rewards (l_pots l') = rewards (l_pots l) ∧
      Zsum (input_value <$> il) = Zsum (out_value <$> os) + fee ∧
      valid_transaction_date (l_settings l) (tx_valid_until t) date = Ok ().
Proof using Type.
  intros Hinv Hp Hfees. unfold apply_transaction, valid_transaction_ios_number, if_cond_fail_with.
  destruct (_ <? tx_nb_inputs t); [done|]. cbn [mbind outcome_bind].
  destruct (CHECK_TX_MAXIMUM_OUTPUTS <? tx_nb_outputs t) eqn:Hno; [done|]. cbn [map_err mbind outcome_bind].
  destruct (valid_transaction_date _ _ _) as [[]|e|] eqn:Hdate; cbn [map_err mbind outcome_bind]; [|done|].
  2:{ exfalso. revert Hdate. unfold valid_transaction_date, if_cond_fail_with. repeat case_match; done. }
  destruct (calculate_fee_ok t il os ws dyn Hp Hfees) as (fee & Hfee & Hfu). rewrite Hfee. cbn [lift mbind outcome_bind].
  destruct (strictly_balanced_sums t il os ws fee Hp) as [Hbp Hbal]; [apply Hfu|].
  destruct (verify_strictly_balanced t fee) as [[]|e|]; cbn [map_err mbind outcome_bind]; [|done|done].
  specialize (Hbal eq_refl). unfold apply_tx_inputs, transaction_sign_data_hash.
  pose proof (tp_auth _ _ _ _ Hp) as Hauth. destruct (transaction_auth_data t) as [ad| |]; [|done|done].
  cbn [lift fmap outcome_fmap mbind outcome_bind]. rewrite (tp_pairs _ _ _ _ Hp), (tp_outputs _ _ _ _ Hp).
  cbn [lift mbind outcome_bind].
  assert (Hiws : Forall (λ iw, input_ok iw.1 ∧ counter_ok iw.2) (zip il ws)).
  { apply Forall_forall. intros [i w] Hin. pose proof (tp_inputs_ok _ _ _ _ Hp) as Hi. pose proof (tp_witnesses_ok _ _ _ _ Hp) as Hw.
    rewrite Forall_forall in Hi. rewrite Forall_forall in Hw. split; [eapply Hi, elem_of_zip_l|eapply Hw, elem_of_zip_r]; exact Hin. }
  destruct (apply_inputs_run (blake2b_256 ad) l mu mo (zip il ws) Hinv Hiws) as [Hnp Hrun].
  destruct (foldM _ l (zip il ws)) as [l1|e|]; [|done|done]. cbn [mbind outcome_bind].
  destruct (Hrun l1 eq_refl) as (mu1 & mo1 & Hinv1 & Ht1 & Hr1 & Hp1).
  rewrite fst_zip in Ht1 by (by rewrite (tp_length _ _ _ _ Hp)).
  assert (Hos : (length os ≤ 254)%nat).
  { pose proof (tp_nb_outputs _ _ _ _ Hp). apply Z.ltb_ge in Hno. unfold CHECK_TX_MAXIMUM_OUTPUTS in Hno. lia. }
  destruct (apply_outputs_run l1 mu1 mo1 fid os Hinv1) as [Hnp2 Hrun2]; [lia|apply (tp_outputs_ok _ _ _ _ Hp)|]. specialize (Hnp2 Hos).
  destruct (apply_tx_outputs l1 fid os) as [l2|e|]; [|done|done]. cbn [mbind outcome_bind].
  destruct (Hrun2 l2 eq_refl) as (mu2 & Hinv2 & Ht2 & Hr2 & Hp2). unfold apply_tx_fee.
  destruct (append_fees (l_pots l2) fee) as [p'|e|] eqn:Hap; [|done|].
  2:{ exfalso. revert Hap. unfold append_fees, value_add, checked_add64. by case_decide. }
  cbn. split; [done|]. intros l' fee' [= <- <-].
  destruct (append_fees_Ok _ _ _ (inv_pots _ _ _ Hinv2) Hfu Hap) as [Hpok Hptot].
  exists mu2, mo1. pose proof Hinv2 as [? ? ? ? ? ? ?]. split; [by split|].
  split; [unfold total_value in *; cbn; rewrite Hptot; lia|].
  apply bind_Ok in Hap as (x & [-> _]%map_err_Ok%value_add_Ok & <-%Ok_inj). cbn.
  rewrite Hp2, Hp1. split_and!; try done. etrans; [|exact Hr1]. exact Hr2.
Qed.

(** C3. A transaction that passed the structure check never makes the ledger
    panic: neither the removal of a UTXO, nor the public key of its address,
    nor the assertions on the number of outputs.  Once applied, its inputs pay
    exactly for its outputs and its fee, the total value over UTXOs, legacy
    UTXOs, accounts, multisig accounts and pots is unchanged, the fee is in the
    pot of fees and the other pots are untouched, the invariant still holds,
    and settings, updates, pools, date, era, votes, governance and token totals
    are what they were. *)
Theorem apply_transaction_conserves l mu mo fid data (t : Transaction P) date dyn :
  ledger_inv l mu mo → bytes_ok data → tx_check P data = Ok t → linear_fee_ok (lp_fees dyn) →
  apply_transaction l fid t date dyn ≠ Panic ∧
  ∀ l' fee, apply_transaction l fid t date dyn = Ok (l', fee) →
    ∃ mu' mo', ledger_inv l' mu' mo' ∧ total_value l' mu' mo' = total_value l mu mo ∧
      fees (l_pots l') = fees (l_pots l) + fee ∧ treasury (l_pots l') = treasury (l_pots l) ∧
      rewards (l_pots l') = rewards (l_pots l) ∧ ledger_rest l' = ledger_rest l.
Proof using Type*.
  intros Hinv Hb Ht Hf. destruct (checked_tx_parts data t Hb Ht) as (il & os & ws & Hp).
  destruct (apply_transaction_run l mu mo fid t il os ws date dyn Hinv Hp Hf) as [Hnp Hrun]. split; [done|].
  intros l' fee Hl'. destruct (Hrun l' fee Hl') as (mu' & mo' & ?). exists mu', mo'. tauto.
Qed.

(** The total value the ledger computes for itself, with enough fuel for its
    two iterations over the UTXOs, is the sum over all its parts when that fits
    a [u64] and the error of block 0 otherwise, whatever order the maps are
    walked in. *)
Theorem ledger_total_value_exact l mu mo :
  ledger_inv l mu mo →
  ∃ fuel, ∀ n, ledger_get_total_value (n + fuel) l =
    if decide (total_value l mu mo ≤ u64_max) then Ok (total_value l mu mo) else Err (EBlock0 UtxoTotalValueTooBig).
Proof using Type.
  intros [Hu Ho Hon Ha Hm Hp Hnn].
  destruct (utxo_values_ok (l_utxos l) mu Hu) as (f1 & outs & Hv1 & Hs1 & Hin1).
  destruct (utxo_values_ok (l_oldutxos l) mo Ho) as (f2 & olds & Hv2 & Hs2 & Hin2).
  exists (f1 + f2)%nat. intros n. unfold ledger_get_total_value.
  replace (n + (f1 + f2))%nat with ((n + f1) + f2)%nat at 1 by lia. rewrite Hv2.
  replace (n + (f1 + f2))%nat with ((n + f2) + f1)%nat by lia. rewrite Hv1. cbn [lift mbind outcome_bind].
  assert (Hpos1 : Forall (λ o, 0 ≤ out_value o) outs).
  { apply Forall_forall. intros o Hin. destruct (Hin1 o Hin) as (tid & t & i & Ht & Hi). by apply (Hon tid t i o). }
  assert (Hpos2 : Forall (λ o, 0 ≤ out_value o) olds).
  { apply Forall_forall. intros o Hin. destruct (Hin2 o Hin) as (tid & t & i & Ht & Hi). by apply (Hnn tid t i o). }
  specialize (Hs1 out_value). specialize (Hs2 out_value). 
  change (Zsum (out_value <$> outs) = utxo_total mu) in Hs1. change (Zsum (out_value <$> olds) = utxo_total mo) in Hs2.
  assert (Hz1 : 0 ≤ Zsum (out_value <$> outs)) by (by apply Zsum_nonneg, Forall_fmap).
  assert (Hz2 : 0 ≤ Zsum (out_value <$> olds)) by (by apply Zsum_nonneg, Forall_fmap).
  pose proof (ledger_total_nonneg _ Ha) as Hz3. pose proof (ledger_total_nonneg _ (msok_accounts _ _ Hm)) as Hz4.
  pose proof (pots_total_nonneg _ Hp) as Hz5. unfold total_value, multisig_total.
  unfold multisig_get_total_value. rewrite !account_total_value by (done || apply Hm).
  destruct (decide (ledger_total (l_accounts l) ≤ u64_max)); cbn [map_err mbind outcome_bind];
    [|rewrite decide_False by lia; done].
  destruct (decide (ledger_total (ms_accounts (l_multisig l)) ≤ u64_max)); cbn [map_err mbind outcome_bind];
    [|rewrite decide_False by lia; done].
  rewrite value_sum_spec.
  - rewrite !Zsum_app, Hs1, Hs2. rewrite pots_values_eq. cbn [Zsum]. unfold pots_total, multisig_total.
    match goal with |- context [decide (?a ≤ u64_max)] => match goal with |- _ = (if decide (?b ≤ _) then _ else _) =>
      replace a with b by lia end end.
    by destruct (decide _).
  - rewrite !Forall_app. split_and!; [by apply Forall_fmap..| | |].
    + by constructor.
    + by constructor.
    + rewrite pots_values_eq. destruct Hp as ([? _] & [? _] & [? _]). by repeat constructor.
Qed.
End ledger.

(** ** The empty ledger, and a concrete one *)
Lemma ledger_empty_inv `{Crypto} `{Election} settings static era pots :
  pots_ok pots → ledger_inv (ledger_empty settings static era pots) ∅ ∅ ∧
  total_value (ledger_empty settings static era pots) ∅ ∅ = pots_total pots.
Proof.
  intros Hp. split.
  - split; cbn; [apply utxo_repr_new..|by intros ????|apply map_Forall_empty|apply multisig_new_ok|done|by intros ????].
  - unfold total_value, multisig_total, ledger_total, utxo_total. cbn.
    change (map_sum outputs_total (∅ : gmap FragmentId (gmap TransactionIndex (Output Address)))) with 0.
    change (map_sum outputs_total (∅ : gmap FragmentId (gmap TransactionIndex (Output OldAddress)))) with 0.
    done.
Qed.

#[local] Instance demo_crypto : Crypto := {|
  blake2b_256 := λ l, take 32 (l ++ replicate 32 0); blake2b_224 := λ l, take 28 (l ++ replicate 28 0);
  ed25519_verify := λ _ _ _, true; OldAddress := unit; old_address_try_from := λ _, Ok ();
  old_address_bytes := λ _, []; identical_with_pubkey_raw := λ _ _ _, true |}.
#[local] Existing Instance demo_election.
Definition demo_static : LedgerStaticParameters := mkStatic (demo_key 0) 0 Production 3600.
Definition demo_empty : Ledger :=
  ledger_empty settings_new demo_static (mkEra 0 0 100) (mkPots 0 (mkTreasury 50) 1000).
Definition demo_outputs : list (Output Address) :=
  [mkOutput (demo_address 1) 100; mkOutput (mkAddress Production (Single (demo_key 5))) 40].
Definition demo_chain : Ledger :=
  match apply_tx_outputs demo_empty (demo_key 7) demo_outputs with Ok l => l | _ => demo_empty end.
Lemma demo_chain_inv : ∃ mu, ledger_inv demo_chain mu ∅ ∧ total_value demo_chain mu ∅ = 1190.
Proof.
  destruct (ledger_empty_inv settings_new demo_static (mkEra 0 0 100) (mkPots 0 (mkTreasury 50) 1000)) as [Hinv Ht];
    [repeat split; cbn; lia|].
  destruct (apply_outputs_run demo_empty ∅ ∅ (demo_key 7) demo_outputs Hinv) as [_ Hrun]; [cbn; lia|repeat constructor; cbn; lia|].
  unfold demo_chain. destruct (apply_tx_outputs demo_empty (demo_key 7) demo_outputs) as [l|e|] eqn:Hl;
    [|exfalso; vm_compute in Hl; discriminate Hl..].
  destruct (Hrun l eq_refl) as (mu & Hi & Htot & _). exists mu. split; [done|]. rewrite Htot.
  unfold demo_empty. rewrite Ht. reflexivity.
Qed.
Definition demo_tx_data : list Z :=
  [0; 0; 0; 1; 0; 0; 0; 2; 1; 1] ++ input_bytes (demo_input 10) ++ output_bytes (demo_output 7) ++ witness_bytes demo_wit.
Definition demo_params_of (fee : Z) : LedgerParameters :=
  mkLedgerParameters (linear_fee_new fee 0 0) tax_zero parameters_zero 1000 10 ToRewards [].
Lemma demo_tx_bytes : bytes_ok demo_tx_data.
Proof. refine (bool_decide_unpack (Forall u8_ok demo_tx_data) _). vm_compute. reflexivity. Qed.

Lemma apply_transaction_conserves_witness :
  ∃ (t : Transaction NoExtra_) l' mu mu' mo', tx_check NoExtra_ demo_tx_data = Ok t ∧
    apply_transaction demo_chain (demo_key 3) t (mkDate 1 1) (demo_params_of 3) = Ok (l', 3) ∧
    total_value l' mu' mo' = total_value demo_chain mu ∅ ∧ fees (l_pots l') = 3.
Proof.
  destruct (tx_check NoExtra_ demo_tx_data) as [t|e|] eqn:Ht; [|vm_compute in Ht; discriminate Ht..].
  destruct (apply_transaction demo_chain (demo_key 3) t (mkDate 1 1) (demo_params_of 3)) as [[l' fee]|e|] eqn:Hl;
    [|vm_compute in Ht; apply Ok_inj in Ht; subst t; vm_compute in Hl; discriminate Hl..].
  assert (fee = 3) as ->.
  { vm_compute in Ht; apply Ok_inj in Ht; subst t; vm_compute in Hl. apply Ok_inj in Hl. by injection Hl. }
  destruct demo_chain_inv as (mu & Hinv & _).
  assert (Hf : linear_fee_ok (lp_fees (demo_params_of 3))) by (repeat split; cbn; lia).
  destruct (apply_transaction_conserves demo_chain mu ∅ (demo_key 3) demo_tx_data t (mkDate 1 1) (demo_params_of 3)
    Hinv demo_tx_bytes Ht Hf) as [_ Hc].
  destruct (Hc l' 3 Hl) as (mu' & mo' & _ & Htot & Hfees & _).
  exists t, l', mu, mu', mo'. split; [reflexivity|]. split; [exact Hl|]. split; [exact Htot|].
  rewrite Hfees. reflexivity.
Defined.

Lemma ledger_total_value_exact_witness :
  ∃ mu fuel, ∀ n, ledger_get_total_value (n + fuel) demo_chain = Ok (total_value demo_chain mu ∅).
Proof.
  destruct demo_chain_inv as (mu & Hinv & Ht). exists mu.
  destruct (ledger_total_value_exact demo_chain mu ∅ Hinv) as [fuel Hfuel].
  exists fuel. intros n. rewrite Hfuel. rewrite decide_True; [reflexivity|]. rewrite Ht. vm_compute. discriminate.
Defined.
