(* ===== verification/Fragment.v ===== *)
(** * Fragments and the contents of blocks ([fragment/{mod,raw,content}.rs])

    A fragment is the unit of a block: an initial declaration, or a transaction
    with its certificate.  Its id is the hash of its bytes; a block's contents
    are hashed over the fragments with their sizes. *)
From S2P Require Import Prelude Codec Key Value Addr Input Transaction TransactionSpec Config ConfigSpec Settings PoolCert PoolCertSpec DelegationCert Tokens VoteCert UpdateCert LedgerState LedgerTx VotesSpec LedgerTxSpec.
Local Open Scope Z_scope.

(** ** The transactions of the [evm] feature, which is off: no value, and
    nothing reads as one *)
Inductive EvmTransaction := .
#[export] Instance evm_payload : Payload EvmTransaction := {|
  HAS_DATA := true; HAS_AUTH := false; Auth := unit;
  payload_read := (n ← get_u8; read_fail (UnknownTag n)); auth_read := mret ();
  payload_data := λ t : EvmTransaction, match t with end; payload_auth_data := λ _, Ok [];
  payload_to_certificate_slice := λ _, None |}.

(** ** [transaction/mod.rs] *)
Definition tx_struct_display (e : TransactionStructError) : string :=
  match e with
  | CannotReadNbInputs => "number of inputs is invalid"
  | CannotReadNbOutputs => "number of outputs is invalid"
  | CannotReadExpiryDate => "expiry block date is invalid"
  | PayloadInvalid => "transaction payload is invalid"
  | InputsInvalid => "invalid inputs"
  | OutputsInvalid => "invalid outputs"
  | WitnessesInvalid => "invalid witnesses"
  | SpuriousTrailingData => "spurious trailing data"
  | PayloadAuthMissing => "payload authentication is missing"
  | PayloadAuthInvalid => "payload authentication is invalid"
  end.
Definition tx_read (P : Type) `{Payload P} : Reader (Transaction P) :=
  slice ← get_slice_end;
  reader_of (λ e, StructureInvalid (tx_struct_display e)) (tx_check P slice).

Section fragment.
Context `{Crypto} `{Election} `{GroupEncoding}.

(** ** [mod.rs] *)
Inductive Fragment :=
| FInitial (ents : ConfigParams)
| FOldUtxoDeclaration (decl : UtxoDeclaration)
| FTransaction (tx : Transaction NoExtra_)
| FOwnerStakeDelegation (tx : Transaction OwnerStakeDelegation)
| FStakeDelegation (tx : Transaction StakeDelegation)
| FPoolRegistration (tx : Transaction PoolRegistration)
| FPoolRetirement (tx : Transaction PoolRetirement)
| FPoolUpdate (tx : Transaction PoolUpdate)
| FUpdateProposal (tx : Transaction UpdateProposal)
| FUpdateVote (tx : Transaction UpdateVote)
| FVotePlan (tx : Transaction VotePlan)
| FVoteCast (tx : Transaction VoteCast)
| FVoteTally (tx : Transaction VoteTally)
| FEncryptedVoteTally (tx : Transaction EncryptedVoteTally)
| FMintToken (tx : Transaction MintToken)
| FEvm (tx : Transaction EvmTransaction).
Inductive FragmentTag :=
| FTInitial | FTOldUtxoDeclaration | FTTransaction | FTOwnerStakeDelegation | FTStakeDelegation
| FTPoolRegistration | FTPoolRetirement | FTPoolUpdate | FTUpdateProposal | FTUpdateVote | FTVotePlan
| FTVoteCast | FTVoteTally | FTEncryptedVoteTally | FTMintToken | FTEvm.
Definition fragment_tag_byte (t : FragmentTag) : Z :=
  match t with
  | FTInitial => 0 | FTOldUtxoDeclaration => 1 | FTTransaction => 2 | FTOwnerStakeDelegation => 3
  | FTStakeDelegation => 4 | FTPoolRegistration => 5 | FTPoolRetirement => 6 | FTPoolUpdate => 7
  | FTUpdateProposal => 8 | FTUpdateVote => 9 | FTVotePlan => 10 | FTVoteCast => 11 | FTVoteTally => 12
  | FTEncryptedVoteTally => 13 | FTMintToken => 14 | FTEvm => 15
  end.
Definition fragment_tag_from_u8 (v : Z) : option FragmentTag :=
  match v with
  | 0 => Some FTInitial | 1 => Some FTOldUtxoDeclaration | 2 => Some FTTransaction
  | 3 => Some FTOwnerStakeDelegation | 4 => Some FTStakeDelegation | 5 => Some FTPoolRegistration
  | 6 => Some FTPoolRetirement | 7 => Some FTPoolUpdate | 8 => Some FTUpdateProposal | 9 => Some FTUpdateVote
  | 10 => Some FTVotePlan | 11 => Some FTVoteCast | 12 => Some FTVoteTally | 13 => Some FTEncryptedVoteTally
  | 14 => Some FTMintToken | 15 => Some FTEvm
  | _ => None
  end.
Definition get_tag (f : Fragment) : FragmentTag :=
  match f with
  | FInitial _ => FTInitial | FOldUtxoDeclaration _ => FTOldUtxoDeclaration | FTransaction _ => FTTransaction
  | FOwnerStakeDelegation _ => FTOwnerStakeDelegation | FStakeDelegation _ => FTStakeDelegation
  | FPoolRegistration _ => FTPoolRegistration | FPoolRetirement _ => FTPoolRetirement
  | FPoolUpdate _ => FTPoolUpdate | FUpdateProposal _ => FTUpdateProposal | FUpdateVote _ => FTUpdateVote
  | FVotePlan _ => FTVotePlan | FVoteCast _ => FTVoteCast | FVoteTally _ => FTVoteTally
  | FEncryptedVoteTally _ => FTEncryptedVoteTally | FMintToken _ => FTMintToken | FEvm _ => FTEvm
  end.
(** The body is written after the padding byte and the tag; a body that cannot
    be written is a panic ([unwrap]). *)
Definition fragment_body (f : Fragment) : outcome infallible (list Z) :=
  match f with
  | FInitial ents => unwrap (config_params_serialize ents)
  | FOldUtxoDeclaration decl => utxo_declaration_serialize [] decl
  | FTransaction tx => Ok (tx_data tx) | FOwnerStakeDelegation tx => Ok (tx_data tx)
  | FStakeDelegation tx => Ok (tx_data tx) | FPoolRegistration tx => Ok (tx_data tx)
  | FPoolRetirement tx => Ok (tx_data tx) | FPoolUpdate tx => Ok (tx_data tx)
  | FUpdateProposal tx => Ok (tx_data tx) | FUpdateVote tx => Ok (tx_data tx)
  | FVotePlan tx => Ok (tx_data tx) | FVoteCast tx => Ok (tx_data tx)
  | FVoteTally tx => Ok (tx_data tx) | FEncryptedVoteTally tx => Ok (tx_data tx)
  | FMintToken tx => Ok (tx_data tx) | FEvm tx => Ok (tx_data tx)
  end.
Definition to_raw (f : Fragment) : outcome infallible (list Z) :=
  body ← fragment_body f;
  Ok (codec_put_u8 (codec_put_u8 [] 0) (fragment_tag_byte (get_tag f)) ++ body).
Definition fragment_read : Reader Fragment :=
  padding_tag ← get_u8;
  if negb (padding_tag =? 0)
  then read_fail (StructureInvalid ("fragment padding tag expected at 0 but got " +:+ pretty.pretty padding_tag))
  else
    tag ← get_u8;
    match fragment_tag_from_u8 tag with
    | Some FTInitial => ents ← config_params_read; mret (FInitial ents)
    | Some FTOldUtxoDeclaration => decl ← utxo_declaration_read; mret (FOldUtxoDeclaration decl)
    | Some FTTransaction => tx ← tx_read NoExtra_; mret (FTransaction tx)
    | Some FTOwnerStakeDelegation => tx ← tx_read OwnerStakeDelegation; mret (FOwnerStakeDelegation tx)
    | Some FTStakeDelegation => tx ← tx_read StakeDelegation; mret (FStakeDelegation tx)
    | Some FTPoolRegistration => tx ← tx_read PoolRegistration; mret (FPoolRegistration tx)
    | Some FTPoolRetirement => tx ← tx_read PoolRetirement; mret (FPoolRetirement tx)
    | Some FTPoolUpdate => tx ← tx_read PoolUpdate; mret (FPoolUpdate tx)
    | Some FTUpdateProposal => tx ← tx_read UpdateProposal; mret (FUpdateProposal tx)
    | Some FTUpdateVote => tx ← tx_read UpdateVote; mret (FUpdateVote tx)
    | Some FTVotePlan => tx ← tx_read VotePlan; mret (FVotePlan tx)
    | Some FTVoteCast => tx ← tx_read VoteCast; mret (FVoteCast tx)
    | Some FTVoteTally => tx ← tx_read VoteTally; mret (FVoteTally tx)
    | Some FTEncryptedVoteTally => tx ← tx_read EncryptedVoteTally; mret (FEncryptedVoteTally tx)
    | Some FTMintToken => tx ← tx_read MintToken; mret (FMintToken tx)
    | Some FTEvm => tx ← tx_read EvmTransaction; mret (FEvm tx)
    | None => read_fail (UnknownTag tag)
    end.
(** No check that the bytes are used up. *)
Definition from_raw (raw : list Z) : outcome ReadError Fragment := fst <$> fragment_read (rb_from raw).

(** ** [raw.rs] *)
Definition FRAGMENT_SIZE_BYTES_LEN : nat := 4.
Definition size_bytes_plus_size (raw : list Z) : nat := (FRAGMENT_SIZE_BYTES_LEN + length raw)%nat.
Definition raw_id (raw : list Z) : FragmentId := blake2b_256 raw.
Definition raw_read : Reader (list Z) := size ← get_u32; read_mut_slice (Z.to_nat size).
Definition raw_deserialize (r : list Z) : outcome IoError (list Z * list Z) :=
  '(size, r) ← codec_get_be 4 r; codec_get (Z.to_nat size) r.
Definition raw_serialize (w raw : list Z) : list Z :=
  codec_put_bytes (codec_put_be 4 w (wrap 32 (Z.of_nat (length raw)))) raw.
Definition fragment_hash (f : Fragment) : outcome infallible FragmentId := raw_id <$> to_raw f.
Definition serialized_size (f : Fragment) : outcome infallible nat := size_bytes_plus_size <$> to_raw f.

(** ** [content.rs] *)
Abbreviation Contents := (list Fragment).
Definition contents_bytes (c : Contents) : outcome infallible (list Z) :=
  foldM (λ bytes message, raw ← to_raw message; Ok (raw_serialize bytes raw)) [] c.
Definition compute_hash_size (c : Contents) : outcome infallible (list Z * Z) :=
  bytes ← contents_bytes c; Ok (blake2b_256 bytes, wrap 32 (Z.of_nat (length bytes))).
End fragment.

(** * Fragments read back

    Every fragment is written without a panic and read back from its bytes, so
    that its id names it; the size prefix separates fragments in a block. *)
Local Open Scope Z_scope.

Section spec.
Context `{Crypto} `{Election} `{GroupEncoding}.

Definition old_entry_ok (e : OldAddress * Value) : Prop :=
  old_address_try_from (old_address_bytes e.1) = Ok e.1 ∧ Z.of_nat (length (old_address_bytes e.1)) < 2 ^ 16 ∧ u64_ok e.2.
Definition fragment_ok (f : Fragment) : Prop :=
  match f with
  | FInitial ents => Forall config_ok ents ∧ Z.of_nat (length ents) < 2 ^ 16
  | FOldUtxoDeclaration decl => Forall old_entry_ok (addrs decl) ∧ (length (addrs decl) < 255)%nat
  | FTransaction tx => tx_check _ (tx_data tx) = Ok tx | FOwnerStakeDelegation tx => tx_check _ (tx_data tx) = Ok tx
  | FStakeDelegation tx => tx_check _ (tx_data tx) = Ok tx | FPoolRegistration tx => tx_check _ (tx_data tx) = Ok tx
  | FPoolRetirement tx => tx_check _ (tx_data tx) = Ok tx | FPoolUpdate tx => tx_check _ (tx_data tx) = Ok tx
  | FUpdateProposal tx => tx_check _ (tx_data tx) = Ok tx | FUpdateVote tx => tx_check _ (tx_data tx) = Ok tx
  | FVotePlan tx => tx_check _ (tx_data tx) = Ok tx | FVoteCast tx => tx_check _ (tx_data tx) = Ok tx
  | FVoteTally tx => tx_check _ (tx_data tx) = Ok tx | FEncryptedVoteTally tx => tx_check _ (tx_data tx) = Ok tx
  | FMintToken tx => tx_check _ (tx_data tx) = Ok tx | FEvm tx => tx_check _ (tx_data tx) = Ok tx
  end.

(** What follows a fragment in its buffer is nothing. *)
Definition reads_end {A} (r : Reader A) (a : A) (bs : list Z) : Prop :=
  ∀ pre, r (rb_at pre bs) = Ok (a, rb_at (pre ++ bs) []).
Lemma reads_to_end {A} (r : Reader A) a bs : reads r a bs → reads_end r a bs.
Proof using Type. rewrite reads_at. intros Hr pre. rewrite <-(app_nil_r bs) at 1. apply Hr. Qed.
Lemma reads_end_bind {A B} (r : Reader A) (k : A → Reader B) a b bs1 bs2 :
  reads r a bs1 → reads_end (k a) b bs2 → reads_end (a ← r; k a) b (bs1 ++ bs2).
Proof using Type.
  rewrite reads_at. intros Hr Hk pre. rewrite reader_bind_eq, Hr. cbn. by rewrite Hk, app_assoc.
Qed.
Lemma reads_end_map {A B} (r : Reader A) (f : A → B) a bs :
  reads_end r a bs → reads_end (x ← r; mret (f x)) (f a) bs.
Proof using Type. intros Hr pre. by rewrite reader_bind_eq, Hr. Qed.
Lemma tx_read_end {P} `{Payload P} (tx : Transaction P) :
  tx_check P (tx_data tx) = Ok tx → reads_end (tx_read P) tx (tx_data tx).
Proof using Type.
  intros Ht pre. unfold tx_read. rewrite reader_bind_eq.
  assert (get_slice_end (rb_at pre (tx_data tx)) = Ok (tx_data tx, rb_at (pre ++ tx_data tx) [])) as ->.
  { unfold get_slice_end, slice_range, rb_at. cbn [rb_data rb_offset].
    rewrite decide_True by (rewrite length_app; lia). cbn [mbind outcome_bind].
    rewrite drop_app_length, take_ge by (rewrite length_app; lia). by rewrite app_nil_r. }
  cbn [mbind outcome_bind]. unfold reader_of. by rewrite Ht.
Qed.

Lemma utxo_declaration_ok decl :
  Forall old_entry_ok (addrs decl) → (length (addrs decl) < 255)%nat →
  ∃ bytes, utxo_declaration_serialize (E := infallible) [] decl = Ok bytes ∧ reads utxo_declaration_read decl bytes.
Proof using Type.
  intros Hall Hlen. unfold utxo_declaration_serialize. rewrite (proj2 (Nat.ltb_lt _ _)) by done.
  cbn [assert_that mbind outcome_bind]. eexists. split; [done|].
  set (enc := λ e : OldAddress * Value, be_bytes 8 e.2 ++ be_bytes 2 (Z.of_nat (length (old_address_bytes e.1))) ++ old_address_bytes e.1).
  assert (Hfold : ∀ w l, Forall old_entry_ok l → foldl old_entry_serialize w l = w ++ concat (enc <$> l)).
  { intros w l Hl. revert w. induction Hl as [|e l He Hl IH]; intros w; cbn; [by rewrite app_nil_r|].
    rewrite IH. unfold old_entry_serialize, codec_put_bytes, codec_put_be, value_serialize, codec_put_be, enc.
    destruct He as (_ & He & _). rewrite (wrap_small 16) by (unfold in_u; lia). by rewrite <-!app_assoc. }
  rewrite Hfold by done. unfold codec_put_u8. cbn [app]. change (?x :: ?l) with ([x] ++ l).
  unfold utxo_declaration_read. eapply reads_bind; [apply reads_u8|].
  rewrite (proj2 (Z.leb_gt _ _)) by lia. rewrite Nat2Z.id.
  destruct decl as [l]; cbn [addrs] in *. apply (reads_bind_ret _ mkUtxoDeclaration). apply reads_vec.
  intros [a v] Hin. rewrite Forall_forall in Hall. destruct (Hall _ Hin) as (Ha & Hal & Hv). cbn in Ha, Hal, Hv.
  unfold old_entry_read, enc. cbn [fst snd]. eapply reads_bind; [by apply reads_u64|].
  eapply reads_bind; [apply reads_u16; unfold in_u; lia|]. rewrite Nat2Z.id.
  match goal with |- reads ?r ?x ?bs => cut (reads r x (bs ++ [])); [by rewrite app_nil_r|] end.
  eapply reads_bind; [by apply reads_slice_len|]. unfold reader_of. rewrite Ha. rewrite reads_at. intros pre post.
  rewrite reader_bind_eq. cbn. by rewrite app_nil_r.
Qed.

Lemma fragment_body_reads f :
  fragment_ok f → ∃ body, fragment_body f = Ok body ∧
    reads_end fragment_read f ([0; fragment_tag_byte (get_tag f)] ++ body).
Proof using Type.
  intros Hf. change [0; ?t] with ([0] ++ [t]).
  destruct f as [ents|decl|tx|tx|tx|tx|tx|tx|tx|tx|tx|tx|tx|tx|tx|tx]; cbn [fragment_ok fragment_body get_tag fragment_tag_byte] in *.
  1: destruct Hf as [Hf Hl]; destruct (config_params_bytes _ Hf Hl) as (bs & -> & Hr);
    exists bs; split; [done|]; rewrite <-app_assoc;
    (eapply reads_end_bind; [apply reads_u8|]); cbn [Z.eqb negb];
    (eapply reads_end_bind; [apply reads_u8|]); cbn [fragment_tag_from_u8];
    by apply (reads_end_map _ FInitial), reads_to_end.
  1: destruct Hf as [Hf Hl]; destruct (utxo_declaration_ok _ Hf Hl) as (bs & -> & Hr);
    exists bs; split; [done|]; rewrite <-app_assoc;
    (eapply reads_end_bind; [apply reads_u8|]); cbn [Z.eqb negb];
    (eapply reads_end_bind; [apply reads_u8|]); cbn [fragment_tag_from_u8];
    by apply (reads_end_map _ FOldUtxoDeclaration), reads_to_end.
  all: exists (tx_data tx); split; [done|]; rewrite <-app_assoc;
    (eapply reads_end_bind; [apply reads_u8|]); cbn [Z.eqb negb];
    (eapply reads_end_bind; [apply reads_u8|]); cbn [fragment_tag_from_u8];
    match goal with |- reads_end _ (?c _) _ => apply (reads_end_map _ c) end; by apply tx_read_end.
Qed.

Lemma fragment_back f :
  fragment_ok f → ∃ body, fragment_body f = Ok body ∧
    to_raw f = Ok ([0; fragment_tag_byte (get_tag f)] ++ body) ∧
    from_raw ([0; fragment_tag_byte (get_tag f)] ++ body) = Ok f.
Proof using Type.
  intros Hf. destruct (fragment_body_reads f Hf) as (body & Hbody & Hr). exists body. split; [done|]. split.
  - unfold to_raw. by rewrite Hbody.
  - unfold from_raw. change (rb_from ?x) with (rb_at [] x). by rewrite Hr.
Qed.
Lemma raw_serialize_eq w raw :
  Z.of_nat (length raw) < 2 ^ 32 → raw_serialize w raw = w ++ be_bytes 4 (Z.of_nat (length raw)) ++ raw.
Proof using Type.
  intros Hl. unfold raw_serialize, codec_put_bytes, codec_put_be.
  rewrite wrap_small by (unfold in_u; lia). by rewrite <-app_assoc.
Qed.
Lemma raw_cut raw rest :
  Z.of_nat (length raw) < 2 ^ 32 → raw_deserialize (raw_serialize [] raw ++ rest) = Ok (raw, rest).
Proof using Type.
  intros Hl. rewrite raw_serialize_eq by done. unfold raw_deserialize, codec_get_be, codec_get. cbn [app].
  rewrite <-app_assoc, decide_True by (rewrite !length_app, length_be_bytes; lia). cbn [mbind outcome_bind].
  rewrite take_app_length', drop_app_length' by (by rewrite length_be_bytes).
  rewrite (from_be_bytes 4) by (unfold in_u; change (8 * Z.of_nat 4) with 32; lia).
  cbn [mbind outcome_bind]. rewrite Nat2Z.id, decide_True by (rewrite length_app; lia).
  by rewrite take_app_length, drop_app_length.
Qed.

(** C19. Every well-formed fragment is written without a panic and [from_raw]
    gives it back; its bytes, behind their size, are cut out again whatever
    follows, and the size it reports is what it takes in a block. *)
Theorem fragment_roundtrip f rest :
  fragment_ok f →
  ∃ raw, to_raw f = Ok raw ∧ from_raw raw = Ok f ∧ fragment_hash f = Ok (blake2b_256 raw) ∧
    serialized_size f = Ok (length (raw_serialize [] raw)) ∧
    (Z.of_nat (length raw) < 2 ^ 32 → raw_deserialize (raw_serialize [] raw ++ rest) = Ok (raw, rest)).
Proof using Type.
  intros Hf. destruct (fragment_back f Hf) as (body & _ & Hraw & Hback).
  exists ([0; fragment_tag_byte (get_tag f)] ++ body). split; [done|]. split_and!.
  - done.
  - unfold fragment_hash. by rewrite Hraw.
  - unfold serialized_size. rewrite Hraw. cbn [fmap outcome_fmap]. by f_equal.
  - intros Hl. by apply raw_cut.
Qed.
End spec.

(** ** Witness *)
#[local] Existing Instance demo_election.
#[local] Existing Instance demo_crypto.
Lemma fragment_roundtrip_witness :
  ∃ (t : Transaction NoExtra_) raw, tx_check NoExtra_ demo_tx_data = Ok t ∧ to_raw (FTransaction t) = Ok raw ∧
    from_raw raw = Ok (FTransaction t) ∧ raw_deserialize (raw_serialize [] raw ++ [1]) = Ok (raw, [1]).
Proof.
  destruct (tx_check NoExtra_ demo_tx_data) as [t|e|] eqn:Ht; [|vm_compute in Ht; discriminate Ht..].
  assert (Hd : tx_data t = demo_tx_data) by (vm_compute in Ht; apply Ok_inj in Ht; by subst t).
  assert (Hok : fragment_ok (FTransaction t)) by (cbn [fragment_ok]; by rewrite Hd).
  destruct (fragment_roundtrip (FTransaction t) [1] Hok) as (raw & Hraw & Hback & _ & _ & Hcut).
  exists t, raw. split; [reflexivity|]. split; [exact Hraw|]. split; [exact Hback|]. apply Hcut.
  assert (Hl : to_raw (FTransaction t) = Ok ([0; 2] ++ tx_data t)) by reflexivity.
  rewrite Hl in Hraw. apply Ok_inj in Hraw. subst raw. rewrite Hd. vm_compute. reflexivity.
Defined.
