(* ===== verification/LedgerCert.v ===== *)
(** * Certificates on the ledger ([ledger/ledger.rs])

    What each certificate does once its transaction has been applied: updates,
    vote plans, votes and tallies, stake pools, delegations, native tokens. *)
From S2P Require Import Prelude Hamt HamtSpec Codec Value Rewards Time Spending Account SparseArray Utxo Pots Addr Key Multisig MultisigLedger Input Transaction Stake Config Settings PoolCert DelegationCert Tokens Governance VoteCert Votes LeaderLog LedgerState LedgerTx Distribution.
Local Open Scope Z_scope.

#[export] Instance Ratio_eq_dec : EqDecision Ratio.
Proof. solve_decision. Defined.
#[export] Instance TaxType_eq_dec : EqDecision TaxType.
Proof. solve_decision. Defined.

Section certificates.
Context `{Crypto} `{Election} `{GroupEncoding}.

(** ** Updates *)
Definition apply_update (l : Ledger) (update : UpdateProposal) : outcome Error Ledger :=
  set_settings l <$> map_err EUpdate (try_apply (l_settings l) (changes update)).
Definition ledger_apply_update_proposal (l : Ledger) (proposal_id : UpdateProposalId) (proposal : UpdateProposal)
    (auth_data sig : list Z) (cur_date : BlockDate) : outcome Error Ledger :=
  if negb (ed25519_verify sig (proposer_id proposal) auth_data) then Err UpdateProposalSignatureFailed
  else set_updates l <$> map_err EUpdate (apply_proposal (l_updates l) proposal_id proposal (l_settings l) cur_date).
Definition ledger_apply_update_vote (l : Ledger) (vote : UpdateVote) (auth_data sig : list Z) : outcome Error Ledger :=
  if negb (ed25519_verify sig (voter_id vote) auth_data) then Err UpdateVoteSignatureFailed
  else set_updates l <$> map_err EUpdate (update_apply_vote (l_updates l) vote (l_settings l)).

(** ** Votes *)
Definition plan_committee_turn (committee : gset CommitteeId) (input : Input) : outcome Error (gset CommitteeId) :=
  match to_enum input with
  | UtxoInput _ => Err VoteCastInvalidTransaction
  | AccountInput account_id _ => c ← unwrap_opt (committee_try_from account_id); Ok ({[ c ]} ∪ committee)
  end.
Definition plan_committee (vote_plan : VotePlan) (inputs : list Input) (committees : list CommitteeId) :
    outcome Error (gset CommitteeId) :=
  c ← (if is_governance vote_plan then Ok ∅ else foldM plan_committee_turn ∅ inputs);
  Ok (list_to_set committees ∪ c).
Definition apply_vote_plan (l : Ledger) (tx : Transaction VotePlan) (cur_date : BlockDate) (vote_plan : VotePlan)
    (dyn_params : LedgerParameters) (sig : CommitteeProof) : outcome Error Ledger :=
  bad ← lift (transaction_binding_auth_data tx);
  verified ← lift (committee_proof_verify ed25519_verify sig bad);
  if negb verified then Err VotePlanProofInvalidSignature
  else if negb (check_governance vote_plan (l_governance l)) then Err VotePlanInvalidGovernanceParameters
  else
    inputs ← lift (tx_inputs tx);
    committee ← plan_committee vote_plan inputs (lp_committees dyn_params);
    if negb (bool_decide (cp_id sig ∈ committee)) then Err VotePlanProofInvalidCommittee
    else set_votes l <$> map_err EVotePlan (vl_add_vote_plan blake2b_256 (l_votes l) cur_date vote_plan committee).
Definition apply_vote_cast (l : Ledger) (account_id : Identifier) (vote : VoteCast) : outcome Error Ledger :=
  set_votes l <$> map_err EVotePlan (vl_apply_vote (l_votes l) (l_date l) account_id vote).
(** What an accepted proposal does. *)
Definition apply_action (l : Ledger) (action : VoteAction) : outcome Error Ledger :=
  match action with
  | OffChain | VTreasury TNoOp => Ok l
  | VTreasury (TransferToRewards value) =>
      let '(pots, value) := draw_treasury (l_pots l) value in
      set_pots l <$> map_err of_pot_error (rewards_add pots value)
  | VParameters action =>
      Ok (set_governance l (mkGovernance (gov_treasury (l_governance l))
            (logs_register (gov_parameters (l_governance l)) action)))
  end.
Definition apply_vote_tally (l : Ledger) (tally : VoteTally) (bad : list Z) (sig : TallyProof) :
    outcome Error Ledger :=
  verified ← lift (tally_proof_verify ed25519_verify sig (tally_type tally) bad);
  if negb verified then Err VoteTallyProofFailed
  else
    '(votes, actions) ← map_err EVotePlan
      (vl_apply_committee_result (l_votes l) (l_date l) (token_distribution l) (l_governance l) tally sig);
    foldM apply_action (set_votes l votes) actions.
Definition apply_encrypted_vote_tally (l : Ledger) (tally : EncryptedVoteTally) (bad : list Z) (sig : CommitteeProof) :
    outcome Error Ledger :=
  verified ← lift (committee_proof_verify ed25519_verify sig bad);
  if negb verified then Err VoteTallyProofFailed
  else set_votes l <$> map_err EVotePlan
    (vl_apply_encrypted_vote_tally (l_votes l) (l_date l) (token_distribution l) tally (cp_id sig)).

(** ** Stake pools *)
Definition apply_pool_registration (l : Ledger) (cert : PoolRegistration) : outcome Error Ledger :=
  valid_pool_registration_certificate cert ;;
  id ← unwrap (pool_to_id blake2b_256 cert);
  set_pools l <$> map_err EDelegation (register_stake_pool (λ _, id) (l_delegation l) cert).
Definition apply_pool_registration_signcheck (l : Ledger) (cert : PoolRegistration) (bad : list Z)
    (sig : PoolSignature) : outcome Error Ledger :=
  valid_pool_registration_certificate cert ;;
  valid_pool_signature sig ;;
  if negb (pool_signature_verify ed25519_verify sig cert bad) then Err PoolRetirementSignatureFailed
  else apply_pool_registration l cert.
Definition apply_pool_retirement (l : Ledger) (auth_cert : PoolRetirement) (bad : list Z) (sig : PoolSignature) :
    outcome Error Ledger :=
  valid_pool_signature sig ;;
  reg ← map_err EDelegation (stake_pool_get (l_delegation l) (retired_pool_id auth_cert));
  if negb (pool_signature_verify ed25519_verify sig reg bad) then Err PoolRetirementSignatureFailed
  else set_pools l <$> map_err EDelegation (deregister_stake_pool (l_delegation l) (retired_pool_id auth_cert)).
Definition apply_pool_update (l : Ledger) (auth_cert : PoolUpdate) (bad : list Z) (sig : PoolSignature) :
    outcome Error Ledger :=
  valid_pool_update_certificate auth_cert ;;
  valid_pool_signature sig ;;
  state ← map_err EDelegation (stake_pool_get_state (l_delegation l) (pu_pool_id auth_cert));
  current ← unwrap (pool_to_id blake2b_256 (registration state));
  if bool_decide (last_pool_reg_hash auth_cert ≠ current) then Err PoolUpdateLastHashDoesntMatch
  else if bool_decide (pool_tax (new_pool_reg auth_cert) ≠ pool_tax (registration state))
  then Err PoolUpdateFeesNotAllowedYet
  else if negb (pool_signature_verify ed25519_verify sig (registration state) bad) then Err PoolUpdateSignatureFailed
  else set_pools l <$> map_err EDelegation
    (stake_pool_set_state (l_delegation l) (pu_pool_id auth_cert)
       (mkPoolState (pool_rewards state) (new_pool_reg auth_cert))).

(** ** Delegations *)
Definition apply_stake_delegation (l : Ledger) (auth_cert : StakeDelegation) : outcome Error Ledger :=
  account_key ← ok_or (to_single_account (sd_account_id auth_cert)) AccountIdentifierInvalid;
  set_accounts l <$> map_err EAccount (set_delegation (l_accounts l) account_key (sd_delegation auth_cert)).
Definition apply_owner_stake_delegation (l : Ledger) (account_id : UnspecifiedAccountIdentifier) (witness : Witness)
    (delegation : OwnerStakeDelegation) : outcome Error Ledger :=
  m ← match_identifier_witness account_id witness;
  match m with
  | MSingle account_id _ _ =>
      set_accounts l <$> map_err EAccount (set_delegation (l_accounts l) account_id (osd_delegation delegation))
  | MMulti account_id _ _ =>
      set_multisig l <$> map_err EMultisig (multisig_set_delegation (l_multisig l) account_id (osd_delegation delegation))
  end.

(** ** Tokens *)
Definition mint_token_unchecked (l : Ledger) (mt : MintToken) : outcome Error Ledger :=
  let token := mkToken (minting_policy_hash blake2b_224 (mt_policy mt)) (mt_name mt) in
  accounts ← map_err EAccount (token_add (l_accounts l) (mt_to mt) token (mt_value mt));
  totals ← map_err FeeCalculationError (totals_add (l_token_totals l) token (mt_value mt));
  Ok (set_token_totals (set_accounts l accounts) totals).
Definition mint_token (l : Ledger) (mt : MintToken) : outcome Error Ledger :=
  map_err EMintingPolicyViolation (check_minting_tx (mt_policy mt)) ;; mint_token_unchecked l mt.
End certificates.

(** * The rewards of an epoch ([ledger/ledger.rs])

    Before the first block of an epoch the rewards drawn from their pot, with
    the fees, are taxed for the treasury and shared over the pools by the
    blocks they made, and inside a pool over its owners and its delegators. *)
Local Open Scope Z_scope.

Section rewards.
Context `{Crypto} `{Election} `{GroupEncoding}.
Abbreviation RewardState := (Ledger * EpochRewardsInfo)%type.

(** ** The actions of governance on the pots *)
Definition apply_parameters_action (l : Ledger) (action : ParametersGovernanceAction) : outcome Error Ledger :=
  match action with
  | PNoOp => Ok l
  | RewardAdd value => set_pots l <$> map_err of_pot_error (rewards_add (l_pots l) value)
  end.
Definition apply_protocol_changes (l : Ledger) : outcome Error Ledger :=
  new ← foldM apply_parameters_action l (logs (gov_parameters (l_governance l)));
  Ok (set_governance new
        (mkGovernance (gov_treasury (l_governance new)) (logs_clear (gov_parameters (l_governance new))))).

(** ** One pool *)
Definition reward_account_add (epoch : Z) (st : RewardState) (id : Identifier) (value : Value) :
    outcome Error RewardState :=
  accounts ← map_err FeeCalculationError (add_rewards_to_account (l_accounts st.1) id epoch value ());
  info ← ri_add_to_account st.2 id value;
  Ok (set_accounts st.1 accounts, info).
Definition reward_treasury_add (st : RewardState) (value : Value) : outcome Error RewardState :=
  pots ← map_err of_pot_error (pots_treasury_add (l_pots st.1) value);
  Ok (set_pots st.1 pots, st.2).
(** [unimplemented!()] for a multisig reward account. *)
Definition reward_owners (epoch : Z) (st : RewardState) (reg : PoolRegistration) (taxed : Value) :
    outcome Error RewardState :=
  match reward_account reg with
  | Some (ISingle single_account) => reward_account_add epoch st single_account taxed
  | Some (IMulti _) => Panic
  | None =>
      if (1 <? length (owners reg))%nat then
        splitted ← lift (split_in taxed (wrap 32 (Z.of_nat (length (owners reg)))));
        st ← foldM (λ st owner, reward_account_add epoch st owner (parts splitted)) st (owners reg);
        if value_zero <? remaining splitted
        then id ← unwrap_opt (head (owners reg)); reward_account_add epoch st id (remaining splitted)
        else Ok st
      else id ← unwrap_opt (head (owners reg)); reward_account_add epoch st id taxed
  end.
Definition delegator_turn (epoch : Z) (after_tax : Value) (total : Stake) (acc : RewardState * Value)
    (account_stake : Identifier * Stake) : outcome Error (RewardState * Value) :=
  ps ← lift (percent_new account_stake.2 total);
  r ← lift (scale_value ps after_tax);
  leftover_reward ← unwrap (value_sub acc.2 r);
  st ← reward_account_add epoch acc.1 account_stake.1 r;
  Ok (st, leftover_reward).
Definition reward_delegators (epoch : Z) (st : RewardState) (after_tax : Value) (stake : PoolStakeDistribution) :
    outcome Error (RewardState * Value) :=
  if value_zero <? after_tax
  then foldM (delegator_turn epoch after_tax (psd_total stake)) (st, after_tax) (map_to_list (psd_accounts stake))
  else Ok (st, after_tax).
Definition distribute_poolid_rewards (st : RewardState) (epoch : Z) (pool_id : PoolId) (total_reward : Value)
    (distribution : PoolStakeInformation (Registration := PoolRegistration)) : outcome Error RewardState :=
  match psi_registration distribution with
  | None => reward_treasury_add st total_reward
  | Some reg =>
      distr ← unwrap (tax_cut total_reward (pool_tax reg));
      let info := ri_set_stake_pool st.2 pool_id (taxed distr) (after_tax distr) in
      pools ← map_err EDelegation
        (stake_pool_set_rewards (l_delegation st.1) pool_id epoch (taxed distr) (after_tax distr));
      st ← reward_owners epoch (set_pools st.1 pools, info) reg (taxed distr);
      '(st, leftover_reward) ← reward_delegators epoch st (after_tax distr) (psi_stake distribution);
      if value_zero <? leftover_reward then reward_treasury_add st leftover_reward else Ok st
  end.

(** ** All pools *)
Definition pool_capper (params : LedgerParameters) (leaders_log : LeadersParticipationRecord) (total_reward : Value) :
    outcome infallible (option Value) :=
  match pool_participation_capping (lp_reward_params params) with
  | None => Ok None
  | Some (threshold, expected_nb_pools) =>
      if threshold <=? Z.of_nat (nb_participants leaders_log)
      then Some <$> div_checked total_reward expected_nb_pools else Ok None
  end.
Definition pool_turn (epoch : Z) (distribution : StakeDistribution (PoolId := PoolId) (Registration := PoolRegistration))
    (capper : option Value) (unit_ : Value) (st : RewardState) (pool_blocks : PoolId * Z) : outcome Error RewardState :=
  uncapped ← unwrap (value_scale unit_ pool_blocks.2);
  '(st, pool_total_reward) ←
    match capper with
    | None => Ok (st, uncapped)
    | Some pool_cap =>
        let actual_pool_total := Z.min pool_cap uncapped in
        forfeited ← unwrap (value_sub uncapped actual_pool_total);
        st ← reward_treasury_add st forfeited;
        Ok (st, actual_pool_total)
    end;
  match to_pools distribution !! pool_blocks.1 with
  | Some pool_distribution => distribute_poolid_rewards st epoch pool_blocks.1 pool_total_reward pool_distribution
  | None => reward_treasury_add st pool_total_reward
  end.
Definition distribute_to_pools (epoch : Z)
    (distribution : StakeDistribution (PoolId := PoolId) (Registration := PoolRegistration))
    (ledger_params : LedgerParameters) (leaders_log : LeadersParticipationRecord) (total_reward : Value)
    (st : RewardState) : outcome Error RewardState :=
  if value_zero <? total_reward then
    capper ← lift (pool_capper ledger_params leaders_log total_reward);
    reward_unit ← lift (split_in total_reward (leaders_total leaders_log));
    st ← foldM (pool_turn epoch distribution capper (parts reward_unit)) st (map_to_list (leaders_map leaders_log));
    if value_zero <? remaining reward_unit then reward_treasury_add st (remaining reward_unit) else Ok st
  else Ok st.
(** The fees join the drawn rewards or the treasury. *)
Definition collect_fees (goes_to : FeesGoesTo) (pots : Pots) (drawn : Value) : outcome Error (Pots * Value) :=
  let '(pots, fees) := siphon_fees pots in
  match goes_to with
  | ToRewards => total_reward ← unwrap (value_add drawn fees); Ok (pots, total_reward)
  | ToTreasury => pots ← map_err of_pot_error (pots_treasury_add pots fees); Ok (pots, drawn)
  end.
Definition distribute_rewards (l : Ledger)
    (distribution : StakeDistribution (PoolId := PoolId) (Registration := PoolRegistration))
    (ledger_params : LedgerParameters) (rewards_info_params : RewardsInfoParameters) : outcome Error RewardState :=
  let rewards_info := rewards_info_new rewards_info_params in
  if leaders_total (l_leaders_log l) =? 0 then Ok (l, rewards_info)
  else
    let treasury_initial_value := pots_treasury_value (l_pots l) in
    let epoch := wrap 32 (date_epoch (l_date l) + 1) in
    expected_epoch_reward ← lift (rewards_contribution_calculation epoch (lp_reward_params ledger_params)
      (mkSystemInformation (get_total_stake distribution)));
    '(pots, drawn) ← map_err of_pot_error (draw_reward (l_pots l) expected_epoch_reward);
    let rewards_info := ri_set_basic rewards_info drawn (fees_value pots) in
    '(pots, total_reward) ← collect_fees (lp_fees_goes_to ledger_params) pots drawn;
    treasury_distr ← map_err FeeCalculationError (tax_cut total_reward (lp_treasury_tax ledger_params));
    pots ← map_err of_pot_error (pots_treasury_add pots (taxed treasury_distr));
    let new_ledger := set_leaders_log (set_pots l pots) leaders_new in
    '(new_ledger, rewards_info) ← distribute_to_pools epoch distribution ledger_params (l_leaders_log l)
      (after_tax treasury_distr) (new_ledger, rewards_info);
    treasury_added_value ← unwrap (value_sub (pots_treasury_value (l_pots new_ledger)) treasury_initial_value);
    rewards_info ← ri_set_treasury rewards_info treasury_added_value;
    Ok (new_ledger, rewards_info).
End rewards.
