(* ===== verification/LedgerRewardSpec.v ===== *)
(** * The distribution of rewards conserves value

    Whatever is drawn for an epoch reaches an account or the treasury, the
    report of the distribution adds up, and no step of it can panic on the
    distributions the chain computes. *)
From S2P Require Import Prelude Hamt HamtSpec Codec Value Rewards Time Spending Account SparseArray Utxo Pots Addr Key Multisig MultisigLedger Input Transaction Stake Distribution Config Settings PoolCert PoolCertSpec DelegationCert Tokens Governance VoteCert Votes VotesSpec LeaderLog LedgerState LedgerTx LedgerTxSpec LedgerCert.
Local Open Scope Z_scope.

Section spec.
Context `{Crypto} `{Election} `{GroupEncoding}.
Abbreviation State := (Ledger * EpochRewardsInfo)%type.

(** What a distribution leaves alone. *)
Definition reward_rest (l : Ledger) :=
  (l_utxos l, l_oldutxos l, l_settings l, l_updates l, l_multisig l, l_static_params l, l_date l, l_chain_length l,
   l_era l, l_leaders_log l, l_votes l, l_governance l, l_token_totals l).
Definition info_rest (i : EpochRewardsInfo) := (ri_params i, ri_drawn i, ri_fees i, ri_treasury i).
Definition reported (i : EpochRewardsInfo) : Z := map_sum id (ri_accounts i).
Definition treasury_of (l : Ledger) : Z := treasury_val (treasury (l_pots l)).

Section run.
Context (mu : gmap FragmentId (gmap TransactionIndex (Output Address)))
  (mo : gmap FragmentId (gmap TransactionIndex (Output OldAddress))) (epoch : Z) (Hepoch : 0 ≤ epoch).

(** No account has been rewarded for a later epoch, nor by more than [B] for
    this one. *)
Record reward_ok (s : State) (B : Z) : Prop := {
  rw_inv : ledger_inv s.1 mu mo;
  rw_bound : 0 ≤ B;
  rw_last : map_Forall (λ _ st, lr_epoch (last_rewards st) ≤ epoch ∧
    (lr_epoch (last_rewards st) = epoch → 0 ≤ lr_reward (last_rewards st) ≤ B)) (l_accounts s.1);
  rw_info : map_Forall (λ _ v, 0 ≤ v ≤ B) (ri_accounts s.2) }.
(** [a] went to accounts and [t] to the treasury. *)
Record reward_rel (s s' : State) (a t : Z) : Prop := {
  rel_accounts : ledger_total (l_accounts s'.1) = ledger_total (l_accounts s.1) + a;
  rel_treasury : treasury_of s'.1 = treasury_of s.1 + t;
  rel_fees : fees (l_pots s'.1) = fees (l_pots s.1);
  rel_rewards : rewards (l_pots s'.1) = rewards (l_pots s.1);
  rel_rest : reward_rest s'.1 = reward_rest s.1;
  rel_info : info_rest s'.2 = info_rest s.2;
  rel_reported : report_accounts (ri_params s.2) = true → reported s'.2 = reported s.2 + a }.
Definition moved (s : State) (B v : Z) (s' : State) : Prop :=
  reward_ok s' (B + v) ∧ ∃ a t, 0 ≤ a ∧ 0 ≤ t ∧ a + t = v ∧ reward_rel s s' a t.
Definition pays (m : outcome Error State) (s : State) (B v : Z) : Prop :=
  m ≠ Panic ∧ ∀ s', m = Ok s' → moved s B v s'.

Lemma moved_trans s B v s' w s'' : moved s B v s' → moved s' (B + v) w s'' → moved s B (v + w) s''.
Proof using Type.
  intros (_ & a & t & Ha & Ht & Hv & [A1 T1 F1 R1 S1 I1 P1]) (Hok & a2 & t2 & Ha2 & Ht2 & Hw & [A2 T2 F2 R2 S2 I2 P2]).
  split; [by rewrite Z.add_assoc|]. exists (a + a2), (t + t2). split_and!; try lia.
  assert (Hpar : ri_params s'.2 = ri_params s.2) by (unfold info_rest in I1; congruence).
  split; try congruence; try lia. intros Hrep. rewrite P2 by congruence. rewrite P1 by done. lia.
Qed.
Lemma moved_refl s B : reward_ok s B → moved s B 0 s.
Proof using Type.
  intros Hok. split; [by rewrite Z.add_0_r|]. exists 0, 0. split_and!; try lia. split; try done; intros; lia.
Qed.
Lemma pays_ret s B : reward_ok s B → pays (Ok s) s B 0.
Proof using Type. intros Hok. split; [done|]. intros s' <-%Ok_inj. by apply moved_refl. Qed.
Lemma pays_bind m k s B v w :
  pays m s B v → (∀ s', moved s B v s' → pays (k s') s' (B + v) w) → pays (m ≫= k) s B (v + w).
Proof using Type.
  intros [Hn Hm] Hk. destruct m as [s1|e|]; [|done|done]. specialize (Hm s1 eq_refl).
  destruct (Hk s1 Hm) as [Hn2 Hm2]. split; [done|]. intros s' Hs'. eapply moved_trans; [done|by apply Hm2].
Qed.
Lemma pays_foldM {A} (f : State → A → outcome Error State) (amount : A → Z) l s B :
  reward_ok s B → B + Zsum (amount <$> l) ≤ u64_max → Forall (λ x, 0 ≤ amount x) l →
  (∀ s B x, x ∈ l → reward_ok s B → B + amount x ≤ u64_max → pays (f s x) s B (amount x)) →
  pays (foldM f s l) s B (Zsum (amount <$> l)).
Proof using Type.
  intros Hok HB Hpos Hf. revert s B Hok HB. induction Hpos as [|x l Hx Hpos IH]; intros s B Hok HB; [by apply pays_ret|].
  cbn [foldM fmap list_fmap Zsum] in *. pose proof (Zsum_nonneg (amount <$> l)) as Hn. rewrite Forall_fmap in Hn. specialize (Hn Hpos).
  apply pays_bind; [apply Hf; [by left|done|lia]|]. intros s1 [Hok1 _].
  apply IH; [|done|lia]. intros. apply Hf; [by right|done..].
Qed.

(** *** Paying an account, paying the treasury *)
Lemma add_for_ok {E} r B v :
  lr_epoch r ≤ epoch ∧ (lr_epoch r = epoch → 0 ≤ lr_reward r ≤ B) → 0 ≤ v → 0 ≤ B → B + v ≤ u64_max →
  ∃ r', add_for (E := E) r epoch v = Ok r' ∧ lr_epoch r' = epoch ∧ 0 ≤ lr_reward r' ≤ B + v.
Proof using Type.
  intros [Hle Heq] Hv HB Hmax. unfold add_for. rewrite (proj2 (Z.leb_le _ _)) by done. cbn.
  destruct (Z.eqb_spec (lr_epoch r) epoch) as [He|]; [|exists (mkLastRewards epoch v); cbn; split_and!; done || lia].
  specialize (Heq He). rewrite value_add_small by lia. eexists. split; [done|]. cbn. split; [done|]. lia.
Qed.
Lemma add_rewards_ok (m : gmap Identifier (AccountState PoolId TokenIdentifier unit)) B id v :
  map_Forall (λ _ st, lr_epoch (last_rewards st) ≤ epoch ∧
    (lr_epoch (last_rewards st) = epoch → 0 ≤ lr_reward (last_rewards st) ≤ B)) m →
  0 ≤ v → 0 ≤ B → B + v ≤ u64_max →
  add_rewards_to_account m id epoch v () ≠ Panic ∧
  ∀ m', add_rewards_to_account m id epoch v () = Ok m' →
    map_Forall (λ _ st, lr_epoch (last_rewards st) ≤ epoch ∧
      (lr_epoch (last_rewards st) = epoch → 0 ≤ lr_reward (last_rewards st) ≤ B + v)) m'.
Proof using Hepoch.
  intros Hm Hv HB Hmax. unfold add_rewards_to_account, state_new_reward.
  destruct (state_new_total (E := ValueError) (PoolId := PoolId) (TokenId := TokenIdentifier) v ()) as [st0 Hst0].
  rewrite Hst0. cbn [mbind outcome_bind].
  assert (Hr0 : last_rewards st0 = last_rewards_default).
  { revert Hst0. unfold state_new. destruct spending_default_ok as (sp & -> & _). cbn. by intros <-%Ok_inj. }
  destruct (add_for_ok (E := ValueError) (last_rewards st0) B v) as (r0 & -> & He0 & Hb0); [|done..|].
  { rewrite Hr0. cbn. unfold value_zero. lia. }
  cbn [mbind outcome_bind].
  assert (Hweak : map_Forall (λ _ st, lr_epoch (last_rewards st) ≤ epoch ∧
    (lr_epoch (last_rewards st) = epoch → 0 ≤ lr_reward (last_rewards st) ≤ B + v)) m).
  { eapply map_Forall_impl; [exact Hm|]. cbn. intros i st [? ?]. split; [done|]. intros. intuition lia. }
  unfold hm_insert_or_update. destruct (m !! id) as [st|] eqn:Hst.
  - unfold state_add_rewards. destruct (value_add (st_value st) v) as [nv|e|] eqn:Hadd; [|done|].
    2:{ by apply value_add_not_panic in Hadd. }
    cbn [mbind outcome_bind]. destruct (add_for_ok (E := ValueError) (last_rewards st) B v) as (r & -> & He & Hb); [by eapply Hm|done..|].
    split; [done|]. intros m' <-%Ok_inj. cbn. apply map_Forall_insert_2; [|done]. cbn. split; [lia|done].
  - split; [done|]. intros m' <-%Ok_inj. apply map_Forall_insert_2; [|done]. cbn. split; [lia|done].
Qed.
Lemma ri_add_ok {E} i B id v :
  map_Forall (λ _ v, 0 ≤ v ≤ B) (ri_accounts i) → 0 ≤ v → 0 ≤ B → B + v ≤ u64_max →
  ∃ i', ri_add_to_account (E := E) i id v = Ok i' ∧ info_rest i' = info_rest i ∧
    map_Forall (λ _ w, 0 ≤ w ≤ B + v) (ri_accounts i') ∧
    (report_accounts (ri_params i) = true → reported i' = reported i + v).
Proof using Type.
  intros Hi Hv HB Hmax. unfold ri_add_to_account.
  assert (Hw : map_Forall (λ _ w, 0 ≤ w ≤ B + v) (ri_accounts i)).
  { eapply map_Forall_impl; [exact Hi|]. cbn. intros. lia. }
  destruct (report_accounts (ri_params i)); [|by exists i].
  destruct (ri_accounts i !! id) as [w|] eqn:Hid.
  - change (default value_zero (Some w)) with w. specialize (Hi _ _ Hid) as Hb. cbn in Hb. rewrite value_add_small by lia. eexists. split; [done|]. split; [done|].
    cbn [ri_accounts]. split; [apply map_Forall_insert_2; [lia|done]|].
    intros _. unfold reported. cbn. rewrite (map_sum_insert Datatypes.id _ id w) by done. unfold Datatypes.id. lia.
  - change (default value_zero None) with 0. rewrite value_add_small by lia. eexists. split; [done|]. split; [done|].
    cbn [ri_accounts]. split; [apply map_Forall_insert_2; [lia|done]|].
    intros _. unfold reported. cbn. rewrite map_sum_insert_new by done. unfold Datatypes.id at 1. lia.
Qed.

Lemma account_pays s B id v :
  reward_ok s B → 0 ≤ v → B + v ≤ u64_max → pays (reward_account_add epoch s id v) s B v.
Proof using Hepoch.
  intros [Hinv HB Hl Hi] Hv Hmax. unfold reward_account_add.
  destruct (add_rewards_ok (l_accounts s.1) B id v Hl Hv HB Hmax) as [Hnp Hok].
  destruct (add_rewards_to_account (l_accounts s.1) id epoch v ()) as [m'|e|] eqn:Hm; [|done|done].
  specialize (Hok m' eq_refl). cbn [map_err mbind outcome_bind].
  destruct (ri_add_ok (E := Error) s.2 B id v Hi Hv HB Hmax) as (i' & -> & Hr & Hw & Hrep). cbn [mbind outcome_bind].
  split; [done|]. intros s' <-%Ok_inj.
  assert (Hu : u64_ok v) by (unfold u64_max, in_u in *; lia).
  assert (Hrun : account_run (l_accounts s.1) (OpAddRewards id epoch v ()) = Ok m') by (cbn; by rewrite Hm).
  destruct (accounts_run_step s.1 mu mo (OpAddRewards id epoch v ()) m' Hinv Hu Hrun) as [Hinv' _].
  destruct (account_step (l_accounts s.1) (OpAddRewards id epoch v ()) m' (inv_accounts _ _ _ Hinv) Hu Hrun) as [_ Ht]. cbn in Ht.
  split; [split; try done; cbn; lia|]. exists v, 0. split_and!; try lia. split; try done; unfold treasury_of; cbn; lia.
Qed.
Lemma treasury_pays s B v : reward_ok s B → 0 ≤ v → v ≤ u64_max → pays (reward_treasury_add s v) s B v.
Proof using Type.
  intros [Hinv HB Hl Hi] Hv Hmax. unfold reward_treasury_add, pots_treasury_add, treasury_add.
  pose proof (value_add_not_panic (treasury_val (treasury (l_pots s.1))) v) as Hnp.
  destruct (value_add _ v) as [x|e|] eqn:Hx; [|done|done]. cbn. split; [done|]. intros s' <-%Ok_inj.
  pose proof (inv_pots _ _ _ Hinv) as (Hf & Ht & Hr).
  apply value_add_Ok in Hx as [-> Hx].
  split; [split|].
  - destruct Hinv. split; try done. split; [done|]. split; [|done]. cbn. unfold in_u, u64_max in *. lia.
  - cbn. lia.
  - eapply map_Forall_impl; [exact Hl|]. cbn. intros i st [? Hb]. split; [done|]. intros. specialize (Hb ltac:(done)). lia.
  - eapply map_Forall_impl; [exact Hi|]. cbn. intros. lia.
  - exists 0, v. split_and!; try lia. split; try done; unfold treasury_of; cbn; lia.
Qed.

(** *** One pool *)
Definition pool_reg_payable (reg : PoolRegistration) : Prop :=
  tax_ok (pool_tax reg) ∧ ratio_le_one (Rewards.ratio (pool_tax reg)) ∧
  match reward_account reg with
  | Some (ISingle _) => True
  | Some (IMulti _) => False
  | None => 0 < Z.of_nat (length (owners reg)) < 2 ^ 32
  end.
Definition stake_payable (d : PoolStakeDistribution) : Prop :=
  psd_ok d ∧ psd_total d ≤ u64_max ∧ (psd_accounts d = ∅ ∨ 0 < psd_total d).
Definition psi_payable (psi : PoolStakeInformation (Registration := PoolRegistration)) : Prop :=
  stake_payable (psi_stake psi) ∧ match psi_registration psi with Some reg => pool_reg_payable reg | None => True end.

Lemma Zsum_const {A} (l : list A) c : Zsum ((λ _, c) <$> l) = c * Z.of_nat (length l).
Proof using Type. induction l as [|x l IH]; cbn [fmap list_fmap Zsum length]; lia. Qed.

Lemma owners_pays s B reg v :
  reward_ok s B → pool_reg_payable reg → 0 ≤ v → B + v ≤ u64_max → pays (reward_owners epoch s reg v) s B v.
Proof using Hepoch.
  intros Hok (_ & _ & Hreg) Hv Hmax. unfold reward_owners.
  destruct (reward_account reg) as [[id|id]|]; [by apply account_pays|done|].
  destruct (Nat.ltb_spec 1 (length (owners reg))) as [Hlen|Hlen].
  - rewrite wrap_small by (unfold in_u; lia).
    destruct (split_in_spec v (Z.of_nat (length (owners reg)))) as (p & r & -> & Hsum & Hr & Hp);
      [lia|pose proof (rw_bound _ _ Hok); unfold in_u, u64_max in *; lia|].
    cbn [lift mbind outcome_bind parts remaining]. pose proof (rw_bound _ _ Hok) as HB.
    replace v with (Zsum ((λ _, p) <$> owners reg) + r) by (rewrite Zsum_const; lia).
    apply pays_bind.
    + apply (pays_foldM _ (λ _, p)); [done|rewrite Zsum_const; lia|apply Forall_forall; intros; lia|].
      intros. by apply account_pays; [|lia|].
    + intros s' [Hok' _]. rewrite Zsum_const in *. destruct (Z.ltb_spec value_zero r) as [Hr0|Hr0].
      * destruct (owners reg) as [|o os]; [cbn in Hlen; lia|]. cbn [head unwrap_opt mbind outcome_bind].
        apply account_pays; [done|lia|lia].
      * unfold value_zero in Hr0. replace r with 0 by lia. by apply pays_ret.
  - destruct (owners reg) as [|o os]; [cbn in Hreg; lia|]. cbn [head unwrap_opt mbind outcome_bind]. by apply account_pays.
Qed.

(** The delegators: what is left over is what they did not get. *)
Lemma delegators_fold s B v total accs left :
  reward_ok s B → u64_ok v → 0 < total ≤ u64_max → Forall (λ p : Identifier * Stake, 0 ≤ p.2) accs →
  Zsum accs.*2 ≤ total → left ≤ v → v * Zsum accs.*2 ≤ left * total → B + left ≤ u64_max →
  foldM (delegator_turn epoch v total) (s, left) accs ≠ Panic ∧
  ∀ s' left', foldM (delegator_turn epoch v total) (s, left) accs = Ok (s', left') →
    0 ≤ left' ≤ left ∧ moved s B (left - left') s'.
Proof using Hepoch.
  intros Hok Hv Ht Hpos. revert s B left Hok. induction Hpos as [|[id st] accs Hst Hpos IH]; intros s B left Hok Hsum Hlv Hl HB.
  - cbn [foldM]. split; [done|]. intros s' left' [= <- <-]. cbn in Hl. split; [nia|]. rewrite Z.sub_diag. by apply moved_refl.
  - cbn [foldM fmap list_fmap Zsum snd] in *. pose proof (Zsum_nonneg accs.*2) as Hn. rewrite Forall_fmap in Hn. specialize (Hn Hpos).
    cbn [snd] in Hst. pose proof Hv as [Hv0 _]. destruct (scale_value_Ok st total v) as (r & Hr & Hr0 & Hr1 & _); [lia..|done|]. assert (Hrl : r ≤ left) by nia.
    assert (Hturn : delegator_turn epoch v total (s, left) (id, st) = (s1 ← reward_account_add epoch s id r; Ok (s1, left - r))).
    { unfold delegator_turn, percent_new. cbn [fst snd]. rewrite (proj2 (Z.leb_le _ _)) by lia.
      cbn [assert_that lift mbind outcome_bind]. rewrite Hr. cbn [lift mbind outcome_bind]. by rewrite value_sub_small by lia. }
    rewrite Hturn.
    destruct (account_pays s B id r Hok Hr0 ltac:(lia)) as [Hnp Hpay].
    destruct (reward_account_add epoch s id r) as [s1|e|]; [|done|done]. cbn [mbind outcome_bind].
    specialize (Hpay s1 eq_refl). destruct (IH s1 (B + r) (left - r)) as [Hnp2 Hrun]; [apply Hpay|lia|lia|nia|lia|].
    split; [done|]. intros s' left' Hs'. destruct (Hrun s' left' Hs') as [Hle Hmv]. split; [lia|].
    replace (left - left') with (r + (left - r - left')) by lia. by eapply moved_trans.
Qed.
Lemma delegators_pays s B v d :
  reward_ok s B → 0 ≤ v → B + v ≤ u64_max → stake_payable d →
  pays ('(st, rest) ← reward_delegators epoch s v d; if value_zero <? rest then reward_treasury_add st rest else Ok st) s B v.
Proof using Hepoch.
  intros Hok Hv Hmax ([Hp Ht] & Hmx & Hz). pose proof (rw_bound _ _ Hok) as HB. unfold reward_delegators, value_zero.
  assert (Htail : ∀ s' left, 0 ≤ left ≤ v → moved s B (v - left) s' → pays (if 0 <? left then reward_treasury_add s' left else Ok s') s B v).
  { intros s' left Hl Hmv. destruct (Z.ltb_spec 0 left).
    - destruct (treasury_pays s' (B + (v - left)) left) as [Hn Hpay]; [apply Hmv|lia|lia|].
      split; [done|]. intros s2 Hs2. replace v with (v - left + left) by lia. eapply moved_trans; [done|by apply Hpay].
    - split; [done|]. intros s2 <-%Ok_inj. by replace v with (v - left) by lia. }
  destruct (Z.ltb_spec 0 v) as [Hv0|Hv0].
  2:{ cbn [mbind outcome_bind]. apply Htail; [lia|]. rewrite Z.sub_diag. by apply moved_refl. }
  destruct Hz as [->|Hz].
  { rewrite map_to_list_empty. cbn [foldM mbind outcome_bind]. apply Htail; [lia|]. rewrite Z.sub_diag. by apply moved_refl. }
  destruct (delegators_fold s B v (psd_total d) (map_to_list (psd_accounts d)) v) as [Hnp Hrun]; try done; try lia.
  - unfold in_u, u64_max in *. lia.
  - apply Forall_forall. intros [id st] Hin. apply elem_of_map_to_list in Hin. by apply (Hp id st).
  - rewrite Ht. unfold map_sum. rewrite list_fmap_id. lia.
  - rewrite Ht. unfold map_sum. rewrite list_fmap_id. lia.
  - destruct (foldM _ _ _) as [[s' left']|e|]; [|done|done]. cbn [mbind outcome_bind].
    destruct (Hrun s' left' eq_refl) as [Hl Hmv]. by apply Htail.
Qed.

Lemma poolid_pays s B id v psi :
  reward_ok s B → 0 ≤ v → B + v ≤ u64_max → psi_payable psi →
  pays (distribute_poolid_rewards s epoch id v psi) s B v.
Proof using Hepoch.
  intros Hok Hv Hmax [Hst Hreg]. pose proof (rw_bound _ _ Hok) as HB. unfold distribute_poolid_rewards.
  destruct (psi_registration psi) as [reg|]; [|by apply treasury_pays; [| |lia]].
  pose proof Hreg as (Htax & Hle & _).
  destruct (tax_cut_conserves v (pool_tax reg)) as (d & -> & Hsum & Ht0 & Ha0 & _); [unfold in_u, u64_max in *; lia|done..|].
  cbn [unwrap mbind outcome_bind]. destruct (stake_pool_set_rewards _ _ _ _ _) as [pools|e|] eqn:Hset; [|done|].
  2:{ exfalso. revert Hset. unfold stake_pool_set_rewards, hm_replace_with. by destruct (l_delegation s.1 !! id). }
  cbn [map_err mbind outcome_bind].
  set (s1 := (set_pools s.1 pools, ri_set_stake_pool s.2 id (taxed d) (after_tax d))).
  assert (Hinfo : info_rest s1.2 = info_rest s.2 ∧ ri_accounts s1.2 = ri_accounts s.2).
  { unfold s1, ri_set_stake_pool. cbn. by destruct (report_stake_pools _). }
  assert (Hmv : moved s B 0 s1).
  { split.
    - rewrite Z.add_0_r. destruct Hok as [Hi ? ? ?]. split; [by destruct Hi; split|done|done|by destruct Hinfo as [_ ->]].
    - exists 0, 0. split_and!; try lia. split; try done; unfold treasury_of; cbn; try lia; try apply Hinfo. intros _. unfold reported. rewrite Z.add_0_r. f_equal. apply Hinfo. }
  replace v with (0 + (taxed d + after_tax d)) by lia.
  assert (Hp : pays (st ← reward_owners epoch s1 reg (taxed d);
    '(st, rest) ← reward_delegators epoch st (after_tax d) (psi_stake psi);
    if value_zero <? rest then reward_treasury_add st rest else Ok st) s1 (B + 0) (taxed d + after_tax d)).
  { apply pays_bind; [apply owners_pays; [apply Hmv|done|done|lia]|]. intros s' [Hok' _]. apply delegators_pays; [done|done|lia|done]. }
  destruct Hp as [Hn Hpay]. split; [done|]. intros s' Hs'. eapply moved_trans; [done|by apply Hpay].
Qed.

(** *** All pools *)
Definition distribution_payable (sd : StakeDistribution (PoolId := PoolId) (Registration := PoolRegistration)) : Prop :=
  map_Forall (λ _ psi, psi_payable psi) (to_pools sd).
Definition capping_payable (params : LedgerParameters) : Prop :=
  match pool_participation_capping (lp_reward_params params) with Some (_, n) => 0 < n | None => True end.

Lemma pool_turn_pays sd capper u s B id blocks :
  distribution_payable sd → from_option (λ c, 0 ≤ c) True capper → reward_ok s B → 0 ≤ u → 0 ≤ blocks → B + u * blocks ≤ u64_max →
  pays (pool_turn epoch sd capper u s (id, blocks)) s B (u * blocks).
Proof using Hepoch.
  intros Hsd Hcap Hok Hu Hb Hmax. pose proof (rw_bound _ _ Hok) as HB. unfold pool_turn. cbn [fst snd].
  unfold value_scale, checked_mul64. rewrite decide_True by nia. cbn [ok_or unwrap mbind outcome_bind].
  assert (Hgive : ∀ s B v, reward_ok s B → 0 ≤ v → B + v ≤ u64_max →
    pays (match to_pools sd !! id with
          | Some pool_distribution => distribute_poolid_rewards s epoch id v pool_distribution
          | None => reward_treasury_add s v end) s B v).
  { clear -Hsd Hepoch. intros s B v Hok Hv Hmax. destruct (to_pools sd !! id) as [psi|] eqn:Hpsi.
    - apply poolid_pays; try done. by eapply Hsd.
    - apply treasury_pays; try done. pose proof (rw_bound _ _ Hok). lia. }
  destruct capper as [cap|]; cbn [from_option] in Hcap; [|cbn [mbind outcome_bind]; apply Hgive; [done|nia|done]].
  rewrite value_sub_small by lia. cbn [unwrap mbind outcome_bind].
  destruct (treasury_pays s B (u * blocks - Z.min cap (u * blocks)) Hok) as [Hn Hpay]; [lia|nia|].
  destruct (reward_treasury_add s _) as [s1|e|]; [|done|done]. cbn [mbind outcome_bind].
  specialize (Hpay s1 eq_refl). destruct (Hgive s1 (B + (u * blocks - Z.min cap (u * blocks))) (Z.min cap (u * blocks))) as [Hn2 Hpay2];
    [apply Hpay|nia|lia|].
  split; [done|]. intros s' Hs'. replace (u * blocks) with (u * blocks - Z.min cap (u * blocks) + Z.min cap (u * blocks)) at 1 by lia.
  eapply moved_trans; [done|by apply Hpay2].
Qed.
Lemma pools_pays sd params log s B v :
  distribution_payable sd → capping_payable params → leaders_ok log → 0 < leaders_total log →
  reward_ok s B → 0 ≤ v → B + v ≤ u64_max → pays (distribute_to_pools epoch sd params log v s) s B v.
Proof using Hepoch.
  intros Hsd Hcap (Hlp & Hlt & Hlu) Hl0 Hok Hv Hmax. pose proof (rw_bound _ _ Hok) as HB. unfold distribute_to_pools, value_zero.
  destruct (Z.ltb_spec 0 v) as [Hv0|Hv0]; [|replace v with 0 by lia; by apply pays_ret].
  assert (∃ capper, pool_capper params log v = Ok capper ∧ from_option (λ c, 0 ≤ c) True capper) as (capper & -> & Hc).
  { unfold pool_capper, capping_payable, div_checked in *. destruct (pool_participation_capping _) as [[th n]|]; [|by exists None].
    destruct (_ <=? _); [|by exists None]. rewrite decide_False by lia. eexists. split; [done|]. cbn. apply Z.div_pos; lia. }
  cbn [lift mbind outcome_bind].
  destruct (split_in_spec v (leaders_total log)) as (p & r & -> & Hsum & Hr & Hp); [done|unfold in_u, u64_max in *; lia|].
  cbn [lift mbind outcome_bind parts remaining].
  set (amount := λ pb : PoolId * Z, p * pb.2).
  assert (Ham : Zsum (amount <$> map_to_list (leaders_map log)) = p * leaders_total log).
  { rewrite Hlt. unfold map_sum, amount. rewrite list_fmap_id. clear. induction (map_to_list (leaders_map log)); cbn in *; lia. }
  replace v with (Zsum (amount <$> map_to_list (leaders_map log)) + r) by lia.
  assert (Hpos : Forall (λ pb : PoolId * Z, 0 ≤ pb.2) (map_to_list (leaders_map log))).
  { apply Forall_forall. intros [id b] Hin. apply elem_of_map_to_list in Hin. by apply (Hlp id b). }
  apply pays_bind.
  - apply pays_foldM; [done|lia| |].
    + eapply Forall_impl; [exact Hpos|]. unfold amount. intros. nia.
    + intros s1 B1 [id b] Hin Hok1 Hm1. rewrite Forall_forall in Hpos. specialize (Hpos _ Hin). unfold amount in *. cbn [snd] in *.
      apply pool_turn_pays; done || lia.
  - intros s' [Hok' _]. destruct (Z.ltb_spec 0 r).
    + apply treasury_pays; [done|lia|lia].
    + replace r with 0 by lia. by apply pays_ret.
Qed.
End run.

(** *** The whole distribution *)
Definition reward_epoch (l : Ledger) : Z := wrap 32 (date_epoch (l_date l) + 1).
Definition reward_settings_payable (params : LedgerParameters) (epoch : Z) : Prop :=
  params_ok (lp_reward_params params) epoch ∧ capping_payable params ∧
  tax_ok (lp_treasury_tax params) ∧ ratio_le_one (Rewards.ratio (lp_treasury_tax params)).

Lemma stake_sum_u64 l : u64_ok (stake_sum l).
Proof using Type.
  unfold stake_sum. assert (Hgen : ∀ a, u64_ok a → u64_ok (foldl stake_add a l)); [|apply Hgen; done].
  induction l as [|x l IH]; intros a Ha; [done|]. cbn. apply IH. apply wrap_in_u. lia.
Qed.
Lemma contribution_u64 epoch p i :
  params_ok p epoch → u64_ok (declared_stake i) → ∃ v, rewards_contribution_calculation epoch p i = Ok v ∧ u64_ok v.
Proof using Type.
  intros Hp Hi. destruct (Z.lt_ge_cases epoch (params_epoch_start p)) as [Hlt|Hge].
  - exists 0. split; [|done]. unfold rewards_contribution_calculation. destruct Hp as (_ & Hr & _).
    rewrite (proj2 (Z.eqb_neq _ _)) by lia. cbn. by rewrite (proj2 (Z.ltb_lt _ _)).
  - eexists. split; [by apply contribution_exact|]. pose proof (drawn_bounds p epoch Hp Hge) as Hd.
    destruct Hp as ([_ Hiv] & _ & _ & _ & Hlim). unfold drawn_cap. destruct (reward_drawing_limit_max p) as [|r].
    + unfold in_u. lia.
    + destruct Hlim as [([? _] & _ & ?) _]. destruct Hi. assert (0 ≤ (declared_stake i * numerator r) `div` denominator r) by (apply Z.div_pos; nia).
      unfold in_u. lia.
Qed.
Lemma collect_fees_ok goes_to pots drawn :
  pots_ok pots → 0 ≤ drawn → pots_total pots + drawn ≤ u64_max →
  ∃ pots' v, collect_fees goes_to pots drawn = Ok (pots', v) ∧ pots_ok pots' ∧ fees pots' = 0 ∧ rewards pots' = rewards pots ∧
    0 ≤ v ∧ pots_total pots' + v = pots_total pots + drawn ∧ treasury_val (treasury pots) ≤ treasury_val (treasury pots').
Proof using Type.
  intros ([Hf _] & [Ht Ht'] & [Hr _]) Hd Hmax. unfold pots_total in *. unfold collect_fees. cbn. destruct goes_to.
  - rewrite value_add_small by lia. cbn. eexists _, _. split; [done|]. cbn. unfold pots_ok, value_zero, in_u, u64_max in *. cbn.
    split_and!; lia.
  - unfold pots_treasury_add, treasury_add. cbn. rewrite value_add_small by lia. cbn. eexists _, _. split; [done|].
    unfold pots_ok, value_zero, in_u, u64_max in *. cbn. split_and!; lia.
Qed.

(** What a distribution did, by its report. *)
Record distributed (l l' : Ledger) (info : EpochRewardsInfo) : Prop := {
  di_leaders : l_leaders_log l' = leaders_new;
  di_fees : fees (l_pots l') = 0 ∧ ri_fees info = fees (l_pots l);
  di_drawn : rewards (l_pots l') = rewards (l_pots l) - ri_drawn info;
  di_treasury : treasury_of l' = treasury_of l + ri_treasury info;
  di_given : ri_drawn info + ri_fees info = ri_treasury info + (ledger_total (l_accounts l') - ledger_total (l_accounts l));
  di_reported : report_accounts (ri_params info) = true →
    reported info = ledger_total (l_accounts l') - ledger_total (l_accounts l) }.

Lemma distribute_rewards_run l mu mo sd params ip :
  ledger_inv l mu mo → pots_total (l_pots l) ≤ u64_max →
  map_Forall (λ _ st, lr_epoch (last_rewards st) < reward_epoch l) (l_accounts l) →
  leaders_ok (l_leaders_log l) → distribution_payable sd → reward_settings_payable params (reward_epoch l) →
  distribute_rewards l sd params ip ≠ Panic ∧
  ∀ l' info, distribute_rewards l sd params ip = Ok (l', info) →
    ledger_inv l' mu mo ∧ total_value l' mu mo = total_value l mu mo ∧
    reward_rest l' = reward_rest (set_leaders_log l (l_leaders_log l')) ∧
    if leaders_total (l_leaders_log l) =? 0 then l' = l else distributed l l' info.
Proof using Type*.
  intros Hinv Hmax Hlast Hlog Hsd (Hpar & Hcap & Htax & Hle). unfold distribute_rewards. fold (reward_epoch l).
  assert (Hep : 0 ≤ reward_epoch l) by (apply wrap_in_u; lia).
  destruct (Z.eqb_spec (leaders_total (l_leaders_log l)) 0) as [Hz|Hnz]; [split; [done|]; intros l' info [= <- <-]; by destruct l|].
  destruct (contribution_u64 (reward_epoch l) (lp_reward_params params) (mkSystemInformation (get_total_stake sd)))
    as (ev & -> & Hev); [done|apply stake_sum_u64|]. cbn [lift mbind outcome_bind].
  pose proof (inv_pots _ _ _ Hinv) as Hp.
  destruct (draw_reward_spec (l_pots l) ev Hp Hev) as (p1 & -> & Hp1 & Hf1 & Ht1 & Htot1). cbn [map_err mbind outcome_bind].
  set (drawn := Z.min (rewards (l_pots l)) ev) in *.
  assert (Hd : 0 ≤ drawn) by (destruct Hp as (_ & _ & [? _]), Hev; lia).
  destruct (collect_fees_ok (lp_fees_goes_to params) p1 drawn Hp1 Hd) as (p2 & v & -> & Hp2 & Hf2 & Hr2 & Hv & Htot2 & Htm); [lia|].
  cbn [mbind outcome_bind].
  assert (Hv64 : v ≤ u64_max) by (pose proof (pots_total_nonneg p2 Hp2); lia).
  destruct (tax_cut_conserves v (lp_treasury_tax params)) as (d & -> & Hsum & Ht0 & Ha0 & _); [unfold in_u, u64_max in *; lia|done..|].
  cbn [map_err mbind outcome_bind]. unfold pots_treasury_add, treasury_add.
  destruct (value_add (treasury_val (treasury p2)) (taxed d)) as [tv|e|] eqn:Htv; [|done|by apply value_add_not_panic in Htv].
  apply value_add_Ok in Htv as [-> Htvm]. cbn [map_err mbind outcome_bind].
  set (p3 := mkPots (fees p2) (mkTreasury (treasury_val (treasury p2) + taxed d)) (rewards p2)).
  set (s0 := (set_leaders_log (set_pots l p3) leaders_new, ri_set_basic (rewards_info_new ip) drawn (fees_value p1))).
  assert (Hok : reward_ok mu mo (reward_epoch l) s0 0).
  { destruct Hp2 as (? & [? _] & ?). split; cbn.
    - destruct Hinv. split; try done. unfold p3. split; [done|]. split; [|done]. cbn. unfold in_u, u64_max in *. lia.
    - done.
    - eapply map_Forall_impl; [exact Hlast|]. cbn. intros. lia.
    - apply map_Forall_empty. }
  destruct (pools_pays mu mo (reward_epoch l) Hep sd params (l_leaders_log l) s0 0 (after_tax d)) as [Hnp Hpay]; try done; [|lia|].
  { destruct Hlog as (_ & _ & [? _]). lia. }
  destruct (distribute_to_pools _ _ _ _ _ _) as [[l' info]|e|]; [|done|done]. cbn [mbind outcome_bind fst snd].
  destruct (Hpay _ eq_refl) as ([Hinv' _ _ _] & a & t & Ha & Ht & Hat & Hrel). destruct Hrel as [RA RT RF RR RS RI RP].
  cbn [fst snd] in *. unfold treasury_of in RT. cbn in RT, RA, RF, RR.
  unfold pots_treasury_value, treasury_value. pose proof Hp1 as (_ & [? _] & _).
  rewrite value_sub_small by (rewrite <-Ht1; lia). cbn [unwrap mbind outcome_bind].
  unfold info_rest in RI. cbn in RI. injection RI as RI1 RI2 RI3 RI4. unfold ri_set_treasury. rewrite RI4.
  cbn [Z.eqb assert_that mbind outcome_bind]. split; [done|]. intros l2 info2 [= <- <-].
  unfold reward_rest in RS. cbn in RS. injection RS as RS1 RS2 RS3 RS4 RS5 RS6 RS7 RS8 RS9 RS10 RS11 RS12 RS13.
  split; [done|]. unfold pots_total in *. unfold fees_value in *. unfold value_zero in *. rewrite Ht1 in *.
  split; [unfold total_value, pots_total; rewrite RA, RS5; cbn; lia|].
  split; [unfold reward_rest; cbn; congruence|].
  split; cbn; try done; try lia.
  - unfold treasury_of. lia.
  - rewrite RI1. intros Hrep. unfold reported in *. cbn in *. rewrite RP by done. rewrite map_sum_empty. lia.
Qed.

(** C4. The distribution of an epoch's rewards never panics on the ledgers and stake
    distributions of the chain (no multisig reward account, no pool rewarded
    with an empty total stake), and it conserves the total value: the leaders'
    log and the fees are emptied, the rewards pot pays what the report calls
    drawn, and drawn and fees are what the treasury and the accounts received,
    to the last unit, as the report says. *)
Theorem distribute_rewards_conserves l mu mo sd params ip :
  ledger_inv l mu mo → pots_total (l_pots l) ≤ u64_max →
  map_Forall (λ _ st, lr_epoch (last_rewards st) < reward_epoch l) (l_accounts l) →
  leaders_ok (l_leaders_log l) → distribution_payable sd → reward_settings_payable params (reward_epoch l) →
  distribute_rewards l sd params ip ≠ Panic ∧
  ∀ l' info, distribute_rewards l sd params ip = Ok (l', info) →
    ledger_inv l' mu mo ∧ total_value l' mu mo = total_value l mu mo ∧
    if leaders_total (l_leaders_log l) =? 0 then l' = l else distributed l l' info.
Proof using Type*.
  intros Hinv Hmax Hlast Hlog Hsd Hpar. destruct (distribute_rewards_run l mu mo sd params ip) as [Hnp Hrun]; [done..|].
  split; [done|]. intros l' info Hd. destruct (Hrun l' info Hd) as (? & ? & _ & ?). done.
Qed.

(** A pool registration whose reward account is a multisig one passes every
    check and is accepted, and the first reward of that pool then panics
    ([unimplemented!()]). *)
Theorem multisig_reward_account_panics (l : Ledger) info reg m id epoch v stake :
  reward_account reg = Some (IMulti m) → valid_pool_registration_certificate reg = Ok () →
  pool_to_id blake2b_256 reg = Ok id → l_delegation l !! id = None →
  u64_ok v → tax_ok (pool_tax reg) → ratio_le_one (Rewards.ratio (pool_tax reg)) →
  ∃ l', apply_pool_registration l reg = Ok l' ∧
    distribute_poolid_rewards (l', info) epoch id v (mkPsi (Some reg) stake) = Panic.
Proof using Type*.
  intros Hm Hval Hid Hnew Hv Ht Hle. unfold apply_pool_registration. rewrite Hval, Hid. cbn [unwrap mbind outcome_bind].
  unfold register_stake_pool, hm_insert. rewrite Hnew. eexists. split; [done|].
  unfold distribute_poolid_rewards. cbn [psi_registration].
  destruct (tax_cut_conserves v (pool_tax reg)) as (d & -> & _); [done..|]. cbn [unwrap mbind outcome_bind fst snd].
  unfold stake_pool_set_rewards, hm_replace_with. cbn [l_delegation set_pools]. rewrite lookup_insert_eq.
  cbn [map_err mbind outcome_bind]. unfold reward_owners. by rewrite Hm.
Qed.
End spec.

(** ** Witnesses *)
#[local] Existing Instance demo_election.
#[local] Existing Instance demo_crypto.
Definition demo_reg (account : option AccountIdentifier) : PoolRegistration :=
  mkPoolReg 1 0 1 [demo_key 1; demo_key 2] [] (mkTax 5 (mkRatio 1 10) None) account (mkPraosLeader (demo_key 3) (demo_key 4)).
Definition demo_pool_id : PoolId := demo_key 8.
Definition demo_stake_distribution : StakeDistribution (PoolId := PoolId) (Registration := PoolRegistration) :=
  mkSd 0 0 {[ demo_pool_id := mkPsi (Some (demo_reg None)) (mkPsd 10 {[ demo_key 1 := 7; demo_key 6 := 3 ]}) ]}.
Definition demo_reward_params : LedgerParameters :=
  mkLedgerParameters (linear_fee_new 1 0 0) (mkTax 0 (mkRatio 1 20) None)
    (mkParameters 500 (mkRatio 0 1) Linear 1 0 LimitNone (Some (1, 2))) 1000 10 ToRewards [].
Definition demo_epoch_end : Ledger :=
  set_leaders_log (set_pools demo_chain {[ demo_pool_id := pool_state_new (demo_reg None) ]})
    (increase_for leaders_new demo_pool_id).
Lemma demo_epoch_end_payable :
  distribution_payable demo_stake_distribution ∧ leaders_ok (l_leaders_log demo_epoch_end) ∧
  reward_settings_payable demo_reward_params (reward_epoch demo_epoch_end) ∧
  map_Forall (λ _ st, lr_epoch (last_rewards st) < reward_epoch demo_epoch_end) (l_accounts demo_epoch_end).
Proof.
  split; [|split; [|split]].
  - intros i psi Hi. unfold demo_stake_distribution in Hi. cbn [to_pools] in Hi. apply lookup_singleton_Some in Hi as [_ <-].
    split; [|cbn; split_and!; unfold tax_ok, ratio_ok, ratio_le_one, in_u; cbn; lia].
    unfold stake_payable. cbn [psi_stake psd_total psd_accounts]. split; [split|].
    + intros j s Hj. cbn [psd_accounts] in Hj. apply lookup_insert_Some in Hj as [[_ <-]|[_ Hj]]; [done|].
      apply lookup_singleton_Some in Hj as [_ <-]. done.
    + by vm_compute.
    + split; [done|by right].
  - assert (Hl : foldM log_run leaders_new [LogBlock demo_pool_id] = Ok (increase_for leaders_new demo_pool_id)) by reflexivity.
    destruct (log_step leaders_new (LogBlock demo_pool_id) (increase_for leaders_new demo_pool_id)) as (Hok & _);
      [apply leaders_new_ok|done|done|done|exact Hok].
  - unfold reward_settings_payable, params_ok, capping_payable, tax_ok, ratio_ok, ratio_le_one, in_u.
    change (reward_epoch demo_epoch_end) with 1. unfold demo_reward_params. cbn. split_and!; done || lia.
  - refine (bool_decide_unpack _ _). vm_compute. reflexivity.
Qed.

Lemma distribute_rewards_conserves_witness :
  ∃ mu l' info, distribute_rewards demo_epoch_end demo_stake_distribution demo_reward_params report_all = Ok (l', info) ∧
    total_value l' mu ∅ = total_value demo_epoch_end mu ∅ ∧ ri_drawn info = 500 ∧
    500 = ri_treasury info + reported info.
Proof.
  destruct demo_chain_inv as (mu & Hinv & _).
  assert (Hinv' : ledger_inv demo_epoch_end mu ∅) by (destruct Hinv; by split).
  destruct demo_epoch_end_payable as (H1 & H2 & H3 & H4).
  destruct (distribute_rewards_conserves demo_epoch_end mu ∅ demo_stake_distribution demo_reward_params report_all Hinv')
    as [_ Hc]; [vm_compute; discriminate|exact H4|exact H2|exact H1|exact H3|].
  destruct (distribute_rewards demo_epoch_end demo_stake_distribution demo_reward_params report_all) as [[l' info]|e|] eqn:Hd;
    [|vm_compute in Hd; discriminate Hd..].
  destruct (Hc l' info eq_refl) as (_ & Htot & Hdi).
  change (leaders_total (l_leaders_log demo_epoch_end) =? 0) with false in Hdi.
  assert (Hi : ri_drawn info = 500 ∧ report_accounts (ri_params info) = true).
  { vm_compute in Hd. apply Ok_inj in Hd. injection Hd as _ Hi. subst info. split; reflexivity. }
  destruct Hi as [Hdr Hrep]. exists mu, l', info. split; [reflexivity|]. split; [exact Htot|]. split; [exact Hdr|].
  destruct Hdi as [_ [_ Hf] _ _ Hg Hr]. change (fees (l_pots demo_epoch_end)) with 0 in Hf. rewrite (Hr Hrep). lia.
Defined.

Lemma multisig_reward_account_panics_witness :
  ∃ l', apply_pool_registration demo_chain (demo_reg (Some (IMulti (demo_key 9)))) = Ok l'.
Proof.
  destruct (pool_to_id blake2b_256 (demo_reg (Some (IMulti (demo_key 9))))) as [id|e|] eqn:Hid; [|destruct e|vm_compute in Hid; discriminate Hid].
  destruct (multisig_reward_account_panics demo_chain (rewards_info_new report_none) (demo_reg (Some (IMulti (demo_key 9)))) (demo_key 9)
    id 1 100 (mkPsd 0 ∅)) as (l' & Hl & _).
  - reflexivity.
  - vm_compute. reflexivity.
  - exact Hid.
  - unfold demo_chain. apply lookup_empty.
  - split; vm_compute; [discriminate|reflexivity].
  - repeat split; vm_compute; discriminate || reflexivity.
  - vm_compute. discriminate.
  - exists l'. exact Hl.
Defined.
