(* ===== verification/LedgerBlock.v ===== *)
(** * Blocks on the ledger ([ledger/ledger.rs], [chaineval.rs])

    A fragment is a transaction and what its certificate does.  A block opens
    with its date and length, applies its fragments in order with the
    parameters of that moment, and closes with the date, the nonce and the
    leaders' log.  Block 0 builds the ledger from its initial message. *)
From S2P Require Import Prelude Hamt HamtSpec Codec Value Rewards Time Spending Account SparseArray Utxo Pots Addr Key Multisig MultisigLedger Input Transaction Stake Config Settings PoolCert DelegationCert Tokens Governance VoteCert Votes UpdateCert LeaderLog LedgerState LedgerTx LedgerCert Fragment.
Local Open Scope Z_scope.

(** ** [chaineval.rs] *)
Inductive ConsensusEvalContext := CGenesis | CBft | CPraos (nonce : PraosNonce) (pool_creator : PoolId).
Record HeaderContentEvalContext := mkHeaderContent {
  hc_block_date : BlockDate; hc_chain_length : Z; hc_content_hash : list Z;
  hc_consensus_eval_context : ConsensusEvalContext }.

Section blocks.
Context `{Crypto} `{Election} `{GroupEncoding}.

(** ** One fragment *)
Definition payload_of {P} `{Payload P} (tx : Transaction P) : outcome infallible P :=
  data ← tx_payload tx; into_payload P data.
Definition payload_auth_of {P} (pl : Payload P) (tx : Transaction P) : outcome infallible (Auth P) :=
  data ← tx_payload_auth tx; into_payload_auth P data.
(** The first input of a transaction known to have one. *)
Definition first_input {P} (tx : Transaction P) : outcome infallible InputEnum :=
  inputs ← tx_inputs tx; i ← unwrap_opt (head inputs); Ok (to_enum i).
Definition owner_delegation_account {P} (tx : Transaction P) :
    outcome Error (UnspecifiedAccountIdentifier * Witness) :=
  i ← lift (first_input tx);
  match i with
  | UtxoInput _ => Err OwnerStakeDelegationInvalidTransaction
  | AccountInput account_id _ =>
      ws ← lift (tx_witnesses tx); w ← unwrap_opt (head ws); Ok (account_id, w)
  end.
Definition vote_cast_account {P} (tx : Transaction P) : outcome Error Identifier :=
  inputs ← lift (tx_inputs tx);
  ws ← lift (tx_witnesses tx);
  iw ← unwrap_opt (head (zip inputs ws));
  match to_enum iw.1, iw.2 with
  | AccountInput account_id _, WAccount _ _ => ok_or (to_single_account account_id) AccountIdentifierInvalid
  | _, _ => Err VoteCastInvalidTransaction
  end.
Definition stake_delegation_verified (tx : Transaction StakeDelegation) (payload : StakeDelegation)
    (payload_auth : AccountBindingSignature) : outcome Error bool :=
  match payload_auth with
  | ABSingle signature =>
      account_pk ← ok_or (to_single_account (sd_account_id payload)) AccountIdentifierInvalid;
      bad ← lift (transaction_binding_auth_data tx);
      Ok (ed25519_verify signature account_pk bad)
  | ABMulti _ => Ok false
  end.
Definition apply_fragment (l : Ledger) (ledger_params : LedgerParameters) (content : Fragment)
    (block_date : BlockDate) : outcome Error Ledger :=
  fragment_id ← lift (fragment_hash content);
  match content with
  | FInitial _ | FOldUtxoDeclaration _ => Err Block0OnlyFragmentReceived
  | FTransaction tx => '(l, _) ← apply_transaction l fragment_id tx block_date ledger_params; Ok l
  | FOwnerStakeDelegation tx =>
      valid_stake_owner_delegation_transaction tx ;;
      '(l, _) ← apply_transaction l fragment_id tx block_date ledger_params;
      '(account_id, witness) ← owner_delegation_account tx;
      payload ← lift (payload_of tx);
      apply_owner_stake_delegation l account_id witness payload
  | FStakeDelegation tx =>
      payload ← lift (payload_of tx);
      payload_auth ← lift (payload_auth_of stake_delegation_payload tx);
      verified ← stake_delegation_verified tx payload payload_auth;
      if negb verified then Err StakeDelegationSignatureFailed
      else
        '(l, _) ← apply_transaction l fragment_id tx block_date ledger_params;
        apply_stake_delegation l payload
  | FPoolRegistration tx =>
      '(l, _) ← apply_transaction l fragment_id tx block_date ledger_params;
      payload ← lift (payload_of tx); bad ← lift (transaction_binding_auth_data tx);
      sig ← lift (payload_auth_of pool_registration_payload tx);
      apply_pool_registration_signcheck l payload bad sig
  | FPoolRetirement tx =>
      '(l, _) ← apply_transaction l fragment_id tx block_date ledger_params;
      payload ← lift (payload_of tx); bad ← lift (transaction_binding_auth_data tx);
      sig ← lift (payload_auth_of pool_retirement_payload tx);
      apply_pool_retirement l payload bad sig
  | FPoolUpdate tx =>
      '(l, _) ← apply_transaction l fragment_id tx block_date ledger_params;
      payload ← lift (payload_of tx); bad ← lift (transaction_binding_auth_data tx);
      sig ← lift (payload_auth_of pool_update_payload tx);
      apply_pool_update l payload bad sig
  | FUpdateProposal tx =>
      '(l, _) ← apply_transaction l fragment_id tx block_date ledger_params;
      payload ← lift (payload_of tx); bad ← lift (transaction_binding_auth_data tx);
      sig ← lift (payload_auth_of update_proposal_payload tx);
      ledger_apply_update_proposal l fragment_id payload bad sig block_date
  | FUpdateVote tx =>
      '(l, _) ← apply_transaction l fragment_id tx block_date ledger_params;
      payload ← lift (payload_of tx); bad ← lift (transaction_binding_auth_data tx);
      sig ← lift (payload_auth_of update_vote_payload tx);
      ledger_apply_update_vote l payload bad sig
  | FVotePlan tx =>
      '(l, _) ← apply_transaction l fragment_id tx block_date ledger_params;
      payload ← lift (payload_of tx);
      sig ← lift (payload_auth_of vote_plan_payload tx);
      apply_vote_plan l tx block_date payload ledger_params sig
  | FVoteCast tx =>
      valid_vote_cast tx ;;
      '(l, _) ← apply_transaction l fragment_id tx block_date ledger_params;
      account_id ← vote_cast_account tx;
      payload ← lift (payload_of tx);
      apply_vote_cast l account_id payload
  | FVoteTally tx =>
      '(l, _) ← apply_transaction l fragment_id tx block_date ledger_params;
      payload ← lift (payload_of tx); bad ← lift (transaction_binding_auth_data tx);
      sig ← lift (payload_auth_of vote_tally_payload tx);
      apply_vote_tally l payload bad sig
  | FEncryptedVoteTally tx =>
      '(l, _) ← apply_transaction l fragment_id tx block_date ledger_params;
      payload ← lift (payload_of tx); bad ← lift (transaction_binding_auth_data tx);
      sig ← lift (payload_auth_of encrypted_vote_tally_payload tx);
      apply_encrypted_vote_tally l payload bad sig
  | FMintToken tx =>
      '(l, _) ← apply_transaction l fragment_id tx block_date ledger_params;
      payload ← lift (payload_of tx);
      mint_token l payload
  | FEvm _ => Err DisabledEvmTransactions
  end.

(** ** The opening and the closing of a block *)
Record ApplyBlockLedger := mkApplyBlock {
  ab_ledger : Ledger; ab_ledger_params : LedgerParameters; ab_block_date : BlockDate }.
Definition begin_block (l : Ledger) (chain_length : Z) (block_date : BlockDate) : outcome Error ApplyBlockLedger :=
  expected ← chain_length_increase (l_chain_length l);
  if negb (chain_length =? expected) then Err (WrongChainLength chain_length expected)
  else if date_le block_date (l_date l) then Err (NonMonotonicDate block_date (l_date l))
  else
    assert_that (negb ((date_epoch (l_date l) <? date_epoch block_date) && (0 <? leaders_total (l_leaders_log l)))) ;;
    '(updates, settings) ← lift (process_proposals (l_updates l) (l_settings l) (l_date l) block_date);
    let new_ledger := set_settings (set_updates (set_chain_length l expected) updates) settings in
    Ok (mkApplyBlock new_ledger (get_ledger_parameters new_ledger) block_date).
Definition block_apply_fragment (b : ApplyBlockLedger) (fragment : Fragment) : outcome Error ApplyBlockLedger :=
  ledger ← apply_fragment (ab_ledger b) (ab_ledger_params b) fragment (ab_block_date b);
  Ok (mkApplyBlock ledger (ab_ledger_params b) (ab_block_date b)).
Definition set_consensus_nonce (s : Settings) (n : PraosNonce) : Settings :=
  mkSettings (consensus_version s) n (s_slots_per_epoch s) (s_slot_duration s) (epoch_stability_depth s)
    (active_slots_coeff s) (block_content_max_size s) (bft_leaders s) (linear_fees s) (proposal_expiration s)
    (reward_params s) (treasury_params s) (fees_goes_to s) (rewards_limit s) (s_pool_participation_capping s)
    (committees s) (transaction_max_expiry_epochs s).
Definition block_finish (b : ApplyBlockLedger) (c : ConsensusEvalContext) : Ledger :=
  let new_ledger := set_date (ab_ledger b) (ab_block_date b) in
  match c with
  | CBft | CGenesis => new_ledger
  | CPraos nonce pool_creator =>
      let s := l_settings new_ledger in
      set_leaders_log
        (set_settings new_ledger (set_consensus_nonce s (hash_with blake2b_256 (consensus_nonce s) nonce)))
        (increase_for (l_leaders_log new_ledger) pool_creator)
  end.
Definition apply_block (l : Ledger) (ledger_params : LedgerParameters) (contents : list Fragment)
    (metadata : HeaderContentEvalContext) : outcome Error Ledger :=
  '(content_hash, content_size) ← lift (compute_hash_size contents);
  if lp_block_content_max_size ledger_params <? content_size
  then Err (InvalidContentSize content_size (lp_block_content_max_size ledger_params))
  else if bool_decide (content_hash ≠ hc_content_hash metadata)
  then Err (InvalidContentHash content_hash (hc_content_hash metadata))
  else
    new_block_ledger ← begin_block l (hc_chain_length metadata) (hc_block_date metadata);
    new_block_ledger ← foldM block_apply_fragment new_block_ledger contents;
    Ok (block_finish new_block_ledger (hc_consensus_eval_context metadata)).

(** ** Block 0 *)
Record Block0Params := mkBlock0Params {
  b0_regular : ConfigParams; b0_start_time : option Z; b0_slot_duration : option Z;
  b0_discrimination : option Discrimination; b0_slots_per_epoch : option Z; b0_kes_update_speed : option Z;
  b0_pots : Pots }.
Definition block0_params_new : Block0Params := mkBlock0Params [] None None None None None pots_zero.
Definition block0_param (b : Block0Params) (param : ConfigParam) : Block0Params :=
  let '(mkBlock0Params r st sd di sp ks p) := b in
  match param with
  | PBlock0Date d => mkBlock0Params r (Some d) sd di sp ks p
  | PDiscrimination d => mkBlock0Params r st sd (Some d) sp ks p
  | PSlotDuration d => mkBlock0Params r st (Some d) di sp ks p
  | PSlotsPerEpoch n => mkBlock0Params r st sd di (Some n) ks p
  | PKesUpdateSpeed n => mkBlock0Params r st sd di sp (Some n) p
  | PTreasuryAdd v => mkBlock0Params r st sd di sp ks (mkPots (fees p) (treasury_initial v) (rewards p))
  | PRewardPot v => mkBlock0Params r st sd di sp ks (mkPots (fees p) (treasury p) v)
  | _ => mkBlock0Params (r ++ [param]) st sd di sp ks p
  end.
Definition block0_ledger (block0_initial_hash : list Z) (init_ents : ConfigParams) : outcome Error Ledger :=
  let b := foldl block0_param block0_params_new init_ents in
  block0_start_time ← ok_or (b0_start_time b) (EBlock0 InitialMessageNoDate);
  discrimination ← ok_or (b0_discrimination b) (EBlock0 InitialMessageNoDiscrimination);
  slot_duration ← ok_or (b0_slot_duration b) (EBlock0 InitialMessageNoSlotDuration);
  slots_per_epoch ← ok_or (b0_slots_per_epoch b) (EBlock0 InitialMessageNoSlotsPerEpoch);
  kes_update_speed ← ok_or (b0_kes_update_speed b) (EBlock0 InitialMessageNoKesUpdateSpeed);
  system_time ← lift (systemtime_add 0 (from_secs block0_start_time));
  per_slot ← lift (slot_duration_from_secs slot_duration);
  let tf := timeframe_new (mkTimeline system_time) per_slot in
  let era := time_era_new (slot0 tf) 0 slots_per_epoch in
  settings ← map_err EUpdate (try_apply settings_new (b0_regular b));
  match bft_leaders settings with
  | [] => Err (EBlock0 InitialMessageNoConsensusLeaderId)
  | _ => Ok (ledger_empty settings
           (mkStatic block0_initial_hash block0_start_time discrimination kes_update_speed) era (b0_pots b))
  end.
Definition block0_fragment (params : LedgerParameters) (l : Ledger) (content : Fragment) : outcome Error Ledger :=
  fragment_id ← lift (fragment_hash content);
  match content with
  | FInitial _ => Err (EBlock0 InitialMessageMany)
  | FOldUtxoDeclaration old =>
      set_oldutxos l <$> apply_old_declaration fragment_id (l_oldutxos l) old
  | FTransaction tx =>
      valid_block0_transaction_no_inputs tx ;;
      outputs ← lift (tx_outputs tx);
      apply_tx_outputs l fragment_id outputs
  | FUpdateProposal _ => Err (EBlock0 HasUpdateProposal)
  | FUpdateVote _ => Err (EBlock0 HasUpdateVote)
  | FOwnerStakeDelegation _ => Err (EBlock0 HasOwnerStakeDelegation)
  | FStakeDelegation tx =>
      valid_block0_cert_transaction tx ;; payload ← lift (payload_of tx); apply_stake_delegation l payload
  | FPoolRegistration tx =>
      valid_block0_cert_transaction tx ;; payload ← lift (payload_of tx); apply_pool_registration l payload
  | FPoolRetirement _ | FPoolUpdate _ => Err (EBlock0 HasPoolManagement)
  | FVotePlan tx =>
      valid_block0_cert_transaction tx ;;
      payload ← lift (payload_of tx);
      sig ← lift (payload_auth_of vote_plan_payload tx);
      apply_vote_plan l tx (l_date l) payload params sig
  | FVoteCast _ => Err (EBlock0 HasVoteCast)
  | FVoteTally _ | FEncryptedVoteTally _ => Err (EBlock0 HasVoteTally)
  | FMintToken tx =>
      valid_block0_cert_transaction tx ;; payload ← lift (payload_of tx); mint_token_unchecked l payload
  | FEvm _ => Err DisabledEvmTransactions
  end.
(** The fuel is the one of the total value. *)
Definition ledger_new_block0 (fuel : nat) (block0_initial_hash : list Z) (contents : list Fragment) :
    outcome Error Ledger :=
  match contents with
  | [] => Err (EBlock0 InitialMessageMissing)
  | FInitial init_ents :: contents =>
      ledger ← block0_ledger block0_initial_hash init_ents;
      ledger ← foldM (block0_fragment (get_ledger_parameters ledger)) ledger contents;
      ledger_get_total_value fuel ledger ;;
      Ok ledger
  | _ => Err ExpectingInitialMessage
  end.
End blocks.
