(* ===== verification/LedgerBlockSpec.v ===== *)
(** * Fragments and blocks conserve value

    Every fragment of a block, whatever its certificate does, leaves the total
    value of the ledger as it was and keeps the ledger well-formed; so do whole
    blocks, which also move the chain forward by one block and to a later date. *)
From S2P Require Import Prelude Hamt HamtSpec Codec Key Value Rewards Time Spending Account SparseArray Utxo Pots Addr Multisig MultisigLedger Input Transaction TransactionSpec Stake Config Settings UpdateSpec PoolCert PoolCertSpec DelegationCert Tokens Governance VoteCert Votes VotesSpec UpdateCert Distribution LeaderLog LedgerRanges LedgerState LedgerTx LedgerTxSpec LedgerCert Fragment LedgerRewardSpec LedgerBlock.
Local Open Scope Z_scope.

Section spec.
Context `{Crypto} `{Election} `{!ElectionReads} `{GroupEncoding}.

(** ** What a block keeps *)
Record chain_inv (l : Ledger) (mu : gmap FragmentId (gmap TransactionIndex (Output Address)))
    (mo : gmap FragmentId (gmap TransactionIndex (Output OldAddress))) : Prop := {
  ci_ledger : ledger_inv l mu mo;
  ci_votes : votes_ok (l_votes l);
  ci_updates : updates_ok (l_updates l);
  ci_fees : fees_ok (l_settings l) }.
(** What no fragment changes. *)
Definition block_frame (l : Ledger) :=
  (l_settings l, l_static_params l, l_date l, l_chain_length l, l_era l, l_leaders_log l).
Definition keeps (l l' : Ledger) : Prop := ∀ mu mo, chain_inv l mu mo →
  ∃ mu' mo', chain_inv l' mu' mo' ∧ total_value l' mu' mo' = total_value l mu mo ∧ block_frame l' = block_frame l.

Lemma keeps_refl l : keeps l l.
Proof using Type. intros mu mo Hc. by exists mu, mo. Qed.
Lemma keeps_trans l1 l2 l3 : keeps l1 l2 → keeps l2 l3 → keeps l1 l3.
Proof using Type.
  intros H12 H23 mu mo Hc. destruct (H12 mu mo Hc) as (mu2 & mo2 & Hc2 & Ht2 & Hf2).
  destruct (H23 mu2 mo2 Hc2) as (mu3 & mo3 & Hc3 & Ht3 & Hf3). exists mu3, mo3. split; [done|]. split; congruence.
Qed.

(** Changes of the parts that hold no value. *)
Lemma keeps_pools l x : keeps l (set_pools l x).
Proof using Type. intros mu mo [[] ? ? ?]. exists mu, mo. split; [split; [by split|done..]|done]. Qed.
Lemma keeps_votes l x : (votes_ok (l_votes l) → votes_ok x) → keeps l (set_votes l x).
Proof using Type. intros Hx mu mo [[] Hv ? ?]. exists mu, mo. split; [|done]. split; try done; by apply Hx. Qed.
Lemma keeps_updates l x : (updates_ok (l_updates l) → updates_ok x) → keeps l (set_updates l x).
Proof using Type. intros Hx mu mo [[] Hv ? ?]. exists mu, mo. split; [|done]. split; try done; by apply Hx. Qed.
Lemma keeps_governance l x : keeps l (set_governance l x).
Proof using Type. intros mu mo [[] ? ? ?]. exists mu, mo. split; [split; [by split|done..]|done]. Qed.
Lemma keeps_token_totals l x : keeps l (set_token_totals l x).
Proof using Type. intros mu mo [[] ? ? ?]. exists mu, mo. split; [split; [by split|done..]|done]. Qed.
(** Changes of the accounts that move no value. *)
Lemma keeps_accounts l o a :
  account_op_ok o → op_amount o = 0 → account_run (l_accounts l) o = Ok a → keeps l (set_accounts l a).
Proof using Type.
  intros Ho Hz Hr mu mo [Hinv Hv Hu Hf]. destruct (accounts_run_step l mu mo o a Hinv Ho Hr) as [Hinv' Ht].
  exists mu, mo. split; [by split|]. split; [lia|done].
Qed.
Lemma keeps_multisig l o m :
  multisig_op_ok o → multisig_amount o = 0 → multisig_run blake2b_256 (l_multisig l) o = Ok m → keeps l (set_multisig l m).
Proof using Type.
  intros Ho Hz Hr mu mo [[Hu Ho' Hon Ha Hm Hp Hnn] Hv Hup Hf]. destruct (multisig_step _ _ _ _ Hm Ho Hr) as [Hm' Ht].
  exists mu, mo. split; [split; [by split|done..]|]. split; [|done]. unfold total_value. cbn. lia.
Qed.
Lemma keeps_pots l p : (pots_ok (l_pots l) → pots_ok p ∧ pots_total p = pots_total (l_pots l)) → keeps l (set_pots l p).
Proof using Type.
  intros Hp mu mo [[Hu Ho' Hon Ha Hm Hpo Hnn] Hv Hup Hf]. destruct (Hp Hpo) as [Hp' Ht].
  exists mu, mo. split; [split; [by split|done..]|]. split; [|done]. unfold total_value. cbn. lia.
Qed.

(** ** The transaction of a fragment *)
Lemma keeps_transaction {P} `{PayloadPartial P} l fid (t : Transaction P) date dyn l' fee :
  bytes_ok (tx_data t) → tx_check P (tx_data t) = Ok t → linear_fee_ok (lp_fees dyn) →
  apply_transaction l fid t date dyn = Ok (l', fee) → keeps l l'.
Proof using Type.
  intros Hb Ht Hf Ha mu mo [Hinv Hv Hu Hs]. destruct (checked_tx_parts (tx_data t) t Hb Ht) as (il & os & ws & Hp).
  destruct (apply_transaction_run l mu mo fid t il os ws date dyn Hinv Hp Hf) as [_ Hrun].
  destruct (Hrun l' fee Ha) as (mu' & mo' & Hinv' & Htot & Hrest & _). unfold ledger_rest in Hrest.
  injection Hrest as R1 R2 R3 R4 R5 R6 R7 R8 R9 R10 R11. exists mu', mo'. split; [|split; [done|]].
  - split; [done|by rewrite R9|by rewrite R2|by rewrite R1].
  - unfold block_frame. congruence.
Qed.
Lemma payload_of_ensures {P} `{Payload P} (t : Transaction P) (Q : P → Prop) p :
  bytes_ok (tx_data t) → ensures (payload_read P) Q → payload_of t = Ok p → Q p.
Proof using Type.
  intros Hb Hq (data & Hd & Hp)%bind_Ok. unfold tx_payload, slice_range in Hd. case_decide; [|done]. apply Ok_inj in Hd as <-.
  unfold into_payload in Hp. apply bind_Ok in Hp as ([p' b] & Hr & <-%Ok_inj).
  destruct (payload_read P _) as [[p2 b2]| |] eqn:He in Hr; [|done..]. apply Ok_inj in Hr as [= -> ->].
  change (rb_from ?x) with (rb_at [] x) in He. apply (Hq _ _ _ _) in He as [Hqp _]; [done|].
  by apply Forall_take, Forall_drop.
Qed.

(** ** The certificates *)
Lemma keeps_stake_delegation l c l' : apply_stake_delegation l c = Ok l' → keeps l l'.
Proof using Type.
  intros (k & _ & Ha)%bind_Ok. destruct (map_err _ _) as [a| |] eqn:He in Ha; [|done..]. apply Ok_inj in Ha as <-.
  apply map_err_Ok in He. by apply (keeps_accounts l (OpSetDelegation k (sd_delegation c))).
Qed.
Lemma keeps_owner_delegation l i w c l' : apply_owner_stake_delegation l i w c = Ok l' → keeps l l'.
Proof using Type.
  intros ([k s n|k s n] & _ & Ha)%bind_Ok; (destruct (map_err _ _) as [a| |] eqn:He in Ha; [|done..]);
    apply Ok_inj in Ha as <-; apply map_err_Ok in He.
  - by apply (keeps_accounts l (OpSetDelegation k (osd_delegation c))).
  - by apply (keeps_multisig l (MOpSetDelegation k (osd_delegation c))).
Qed.
Lemma keeps_mint l c l' : u64_ok (mt_value c) → mint_token_unchecked l c = Ok l' → keeps l l'.
Proof using Type.
  intros Hv (a & Ha%map_err_Ok & (t & _ & <-%Ok_inj)%bind_Ok)%bind_Ok.
  eapply keeps_trans; [|apply keeps_token_totals].
  by refine (keeps_accounts l (OpTokenAdd (mt_to c) _ (mt_value c)) a Hv eq_refl Ha).
Qed.
Lemma fmap_keeps {A E} (f : A → Ledger) (m : outcome E A) l l' :
  f <$> m = Ok l' → (∀ a, m = Ok a → keeps l (f a)) → keeps l l'.
Proof using Type. intros Hm Hf. destruct m as [a| |]; [|done..]. apply Ok_inj in Hm as <-. by apply Hf. Qed.
Lemma keeps_pool_registration l c l' : apply_pool_registration l c = Ok l' → keeps l l'.
Proof using Type.
  intros ([] & _ & (id & _ & Ha)%bind_Ok)%bind_Ok. eapply fmap_keeps; [exact Ha|]. intros. apply keeps_pools.
Qed.
Lemma keeps_pool_registration_signcheck l c bad sig l' : apply_pool_registration_signcheck l c bad sig = Ok l' → keeps l l'.
Proof using Type.
  intros ([] & _ & ([] & _ & Ha)%bind_Ok)%bind_Ok. destruct (negb _); [done|]. by eapply keeps_pool_registration.
Qed.
Lemma keeps_pool_retirement l c bad sig l' : apply_pool_retirement l c bad sig = Ok l' → keeps l l'.
Proof using Type.
  intros ([] & _ & (reg & _ & Ha)%bind_Ok)%bind_Ok. destruct (negb _); [done|].
  eapply fmap_keeps; [exact Ha|]. intros. apply keeps_pools.
Qed.
Lemma keeps_pool_update l c bad sig l' : apply_pool_update l c bad sig = Ok l' → keeps l l'.
Proof using Type.
  intros ([] & _ & ([] & _ & (st & _ & (cur & _ & Ha)%bind_Ok)%bind_Ok)%bind_Ok)%bind_Ok.
  do 3 (case_match; [done|]). eapply fmap_keeps; [exact Ha|]. intros. apply keeps_pools.
Qed.
Lemma keeps_update_proposal l id p bad sig date l' :
  Forall fee_change_ok (changes p) → ledger_apply_update_proposal l id p bad sig date = Ok l' → keeps l l'.
Proof using Type.
  intros Hp. unfold ledger_apply_update_proposal. destruct (negb _); [done|]. intros Ha.
  eapply fmap_keeps; [exact Ha|]. intros u Hu%map_err_Ok. apply keeps_updates. intros. by eapply apply_proposal_ok.
Qed.
Lemma keeps_update_vote l v bad sig l' : ledger_apply_update_vote l v bad sig = Ok l' → keeps l l'.
Proof using Type.
  unfold ledger_apply_update_vote. destruct (negb _); [done|]. intros Ha.
  eapply fmap_keeps; [exact Ha|]. intros u Hu%map_err_Ok. apply keeps_updates. intros. by eapply update_vote_ok.
Qed.
Lemma keeps_vote_plan l t date p dyn sig l' :
  plan_actions_ok p → apply_vote_plan l t date p dyn sig = Ok l' → keeps l l'.
Proof using Type.
  intros Hp (bad & _ & (v & _ & Ha)%bind_Ok)%bind_Ok. do 2 (case_match; [done|]).
  apply bind_Ok in Ha as (ins & _ & (c & _ & Ha)%bind_Ok). case_match; [done|].
  eapply fmap_keeps; [exact Ha|]. intros u Hu%map_err_Ok. apply keeps_votes. intros. by eapply vl_add_ok.
Qed.
Lemma keeps_vote_cast l i v l' : apply_vote_cast l i v = Ok l' → keeps l l'.
Proof using Type.
  intros Ha. eapply fmap_keeps; [exact Ha|]. intros u Hu%map_err_Ok. apply keeps_votes. intros. by eapply vl_vote_ok.
Qed.
Lemma keeps_encrypted_tally l t bad sig l' : apply_encrypted_vote_tally l t bad sig = Ok l' → keeps l l'.
Proof using Type.
  intros (v & _ & Ha)%bind_Ok. case_match; [done|].
  eapply fmap_keeps; [exact Ha|]. intros u Hu%map_err_Ok. apply keeps_votes. intros. by eapply vl_encrypted_ok.
Qed.
(** A tally moves value between pots only. *)
Lemma keeps_action l a l' : vote_action_ok a → apply_action l a = Ok l' → keeps l l'.
Proof using Type.
  intros Hok. destruct a as [|[|v]|a]; cbn [apply_action]; [by intros <-%Ok_inj; apply keeps_refl..| |].
  - destruct (draw_treasury (l_pots l) v) as [p d] eqn:Hd. intros Ha.
    eapply fmap_keeps; [exact Ha|]. intros p' Hp'%map_err_Ok. apply keeps_pots. intros Hpots.
    pose proof (draw_treasury_spec (l_pots l) v Hpots Hok) as Hs. rewrite Hd in Hs. destruct Hs as (-> & Hp & _ & _ & Ht).
    apply rewards_add_Ok in Hp' as [Hok' Ht']; [|done|].
    + split; [done|lia].
    + destruct Hpots as (_ & [? ?] & _), Hok as [? ?]. cbn in *. unfold in_u. lia.
  - intros <-%Ok_inj. apply keeps_governance.
Qed.
Lemma keeps_vote_tally l t bad sig l' : apply_vote_tally l t bad sig = Ok l' → keeps l l'.
Proof using Type.
  intros (v & _ & Ha)%bind_Ok. case_match; [done|]. apply bind_Ok in Ha as ([vs acts] & Hr%map_err_Ok & Ha).
  intros mu mo Hc. destruct (vl_result_ok _ _ _ _ _ _ _ _ (ci_votes _ _ _ Hc) Hr) as [Hvs Hacts].
  revert mu mo Hc. change (keeps l l').
  refine (foldM_inv (λ x, keeps l x) _ _ _ _ _ _ Ha).
  - intros x a x' Hin Hx Hap. eapply keeps_trans; [exact Hx|]. eapply keeps_action; [|exact Hap].
    rewrite Forall_forall in Hacts. by apply Hacts.
  - by apply keeps_votes.
Qed.

(** ** Fragments *)
Definition tx_received {P} `{Payload P} (t : Transaction P) : Prop :=
  bytes_ok (tx_data t) ∧ tx_check P (tx_data t) = Ok t.
(** A fragment read from bytes. *)
Definition fragment_received (f : Fragment) : Prop :=
  match f with
  | FInitial _ | FOldUtxoDeclaration _ => True
  | FTransaction tx => tx_received tx | FOwnerStakeDelegation tx => tx_received tx
  | FStakeDelegation tx => tx_received tx | FPoolRegistration tx => tx_received tx
  | FPoolRetirement tx => tx_received tx | FPoolUpdate tx => tx_received tx
  | FUpdateProposal tx => tx_received tx | FUpdateVote tx => tx_received tx
  | FVotePlan tx => tx_received tx | FVoteCast tx => tx_received tx
  | FVoteTally tx => tx_received tx | FEncryptedVoteTally tx => tx_received tx
  | FMintToken tx => tx_received tx | FEvm tx => tx_received tx
  end.

(** The transaction, then the rest. *)
Lemma keeps_tx_then {P} `{PayloadPartial P} l fid (t : Transaction P) date dyn (k : Ledger → outcome Error Ledger) l' :
  tx_received t → linear_fee_ok (lp_fees dyn) →
  ('(l, _) ← apply_transaction l fid t date dyn; k l) = Ok l' → (∀ l1 l2, k l1 = Ok l2 → keeps l1 l2) → keeps l l'.
Proof using Type.
  intros [Hb Ht] Hf ([l1 fee] & Ha & Hk)%bind_Ok Hkeep. eapply keeps_trans; [by eapply keeps_transaction|by apply Hkeep].
Qed.
Lemma lift_payload {P} `{Payload P} (t : Transaction P) p (Q : P → Prop) :
  tx_received t → ensures (payload_read P) Q → lift (payload_of t) = Ok (E := Error) p → Q p.
Proof using Type.
  intros [Hb _] Hq Hp. destruct (payload_of t) as [p'|[]|] eqn:He; [|done]. apply Ok_inj in Hp as <-.
  by eapply payload_of_ensures.
Qed.
Lemma apply_fragment_keeps l params f date l' :
  fragment_received f → linear_fee_ok (lp_fees params) → apply_fragment l params f date = Ok l' → keeps l l'.
Proof using Type*.
  intros Hr Hf (fid & _ & Ha)%bind_Ok.
  destruct f as [e|d|tx|tx|tx|tx|tx|tx|tx|tx|tx|tx|tx|tx|tx|tx]; cbn [fragment_received] in Hr; try discriminate Ha.
  - refine (keeps_tx_then _ _ tx _ _ _ _ Hr Hf Ha _); intros l1 l2 <-%Ok_inj; apply keeps_refl.
  - apply bind_Ok in Ha as ([] & _ & Ha). refine (keeps_tx_then _ _ tx _ _ _ _ Hr Hf Ha _).
    intros l1 l2 ([i w] & _ & (p & _ & Hk)%bind_Ok)%bind_Ok. by eapply keeps_owner_delegation.
  - apply bind_Ok in Ha as (p & _ & (pa & _ & (v & _ & Ha)%bind_Ok)%bind_Ok). destruct (negb v); [done|].
    refine (keeps_tx_then _ _ tx _ _ _ _ Hr Hf Ha _). intros l1 l2. apply keeps_stake_delegation.
  - refine (keeps_tx_then _ _ tx _ _ _ _ Hr Hf Ha _).
    intros l1 l2 (p & _ & (bad & _ & (sig & _ & Hk)%bind_Ok)%bind_Ok)%bind_Ok. by eapply keeps_pool_registration_signcheck.
  - refine (keeps_tx_then _ _ tx _ _ _ _ Hr Hf Ha _).
    intros l1 l2 (p & _ & (bad & _ & (sig & _ & Hk)%bind_Ok)%bind_Ok)%bind_Ok. by eapply keeps_pool_retirement.
  - refine (keeps_tx_then _ _ tx _ _ _ _ Hr Hf Ha _).
    intros l1 l2 (p & _ & (bad & _ & (sig & _ & Hk)%bind_Ok)%bind_Ok)%bind_Ok. by eapply keeps_pool_update.
  - refine (keeps_tx_then _ _ tx _ _ _ _ Hr Hf Ha _).
    intros l1 l2 (p & Hp & (bad & _ & (sig & _ & Hk)%bind_Ok)%bind_Ok)%bind_Ok.
    eapply keeps_update_proposal; [|exact Hk]. by apply (lift_payload tx p _ Hr ensures_update_proposal).
  - refine (keeps_tx_then _ _ tx _ _ _ _ Hr Hf Ha _).
    intros l1 l2 (p & _ & (bad & _ & (sig & _ & Hk)%bind_Ok)%bind_Ok)%bind_Ok. by eapply keeps_update_vote.
  - refine (keeps_tx_then _ _ tx _ _ _ _ Hr Hf Ha _).
    intros l1 l2 (p & Hp & (sig & _ & Hk)%bind_Ok)%bind_Ok.
    eapply keeps_vote_plan; [|exact Hk]. by apply (lift_payload tx p _ Hr ensures_vote_plan).
  - apply bind_Ok in Ha as ([] & _ & Ha). refine (keeps_tx_then _ _ tx _ _ _ _ Hr Hf Ha _).
    intros l1 l2 (i & _ & (p & _ & Hk)%bind_Ok)%bind_Ok. by eapply keeps_vote_cast.
  - refine (keeps_tx_then _ _ tx _ _ _ _ Hr Hf Ha _).
    intros l1 l2 (p & _ & (bad & _ & (sig & _ & Hk)%bind_Ok)%bind_Ok)%bind_Ok. by eapply keeps_vote_tally.
  - refine (keeps_tx_then _ _ tx _ _ _ _ Hr Hf Ha _).
    intros l1 l2 (p & _ & (bad & _ & (sig & _ & Hk)%bind_Ok)%bind_Ok)%bind_Ok. by eapply keeps_encrypted_tally.
  - refine (keeps_tx_then _ _ tx _ _ _ _ Hr Hf Ha _).
    intros l1 l2 (p & Hp & ([] & _ & Hk)%bind_Ok)%bind_Ok.
    eapply keeps_mint; [|exact Hk]. by apply (lift_payload tx p _ Hr ensures_mint_token).
Qed.

(** ** Blocks *)
Lemma begin_block_Ok l n date b :
  begin_block l n date = Ok b ↔
  n = l_chain_length l + 1 ∧ n ≤ u32_max ∧ date_lt (l_date l) date = true ∧
  (date_epoch (l_date l) < date_epoch date → leaders_total (l_leaders_log l) ≤ 0) ∧
  ∃ u s, process_proposals (l_updates l) (l_settings l) (l_date l) date = Ok (u, s) ∧
    b = mkApplyBlock (set_settings (set_updates (set_chain_length l n) u) s)
          (get_ledger_parameters (set_settings (set_updates (set_chain_length l n) u) s)) date.
Proof using Type.
  assert (Hord : date_le date (l_date l) = negb (date_lt (l_date l) date)).
  { unfold date_le, date_lt. destruct (Z.ltb_spec (date_epoch date) (date_epoch (l_date l))),
      (Z.ltb_spec (date_epoch (l_date l)) (date_epoch date)), (Z.eqb_spec (date_epoch date) (date_epoch (l_date l))),
      (Z.eqb_spec (date_epoch (l_date l)) (date_epoch date)), (Z.leb_spec (date_slot_id date) (date_slot_id (l_date l))),
      (Z.ltb_spec (date_slot_id (l_date l)) (date_slot_id date)); cbn; try done; lia. }
  unfold begin_block, chain_length_increase.
  destruct (decide (l_chain_length l + 1 ≤ u32_max)) as [Hm|Hm]; cbn [unwrap_opt mbind outcome_bind]; [|split; [done|lia]].
  destruct (Z.eqb_spec n (l_chain_length l + 1)) as [->|Hne]; cbn [negb]; [|split; [done|naive_solver]].
  rewrite Hord. destruct (date_lt (l_date l) date); cbn [negb]; [|naive_solver].
  destruct (Z.ltb_spec (date_epoch (l_date l)) (date_epoch date)) as [He|He],
    (Z.ltb_spec 0 (leaders_total (l_leaders_log l))) as [Hl|Hl]; cbn [andb negb assert_that mbind outcome_bind].
  1: split; [done|intros (_ & _ & _ & Hc & _); specialize (Hc He); lia].
  all: rewrite bind_Ok; split.
  1, 3, 5: intros ([u s] & Hp & <-%Ok_inj); split_and!; [done..| |]; try lia;
    exists u, s; split; [|done]; by destruct (process_proposals _ _ _ _) as [x|[]|]; [apply Ok_inj in Hp as ->|].
  all: intros (_ & _ & _ & _ & u & s & Hp & ->); exists (u, s); rewrite Hp; done.
Qed.

(** What opening a block keeps of the invariant. *)
Lemma begin_block_inv l n date b mu mo :
  chain_inv l mu mo → begin_block l n date = Ok b →
  chain_inv (ab_ledger b) mu mo ∧ total_value (ab_ledger b) mu mo = total_value l mu mo ∧
  linear_fee_ok (lp_fees (ab_ledger_params b)).
Proof using Type.
  intros [[] Hv Hu Hf] (_ & _ & _ & _ & u & s & Hp & ->)%begin_block_Ok.
  destruct (process_proposals_fees _ _ _ _ _ _ Hf Hu Hp) as [Hs Hu']. split; [|split; [done|exact Hs]].
  split; [by split|exact Hv|exact Hu'|exact Hs].
Qed.
Lemma block_fragments b b' contents :
  Forall fragment_received contents → linear_fee_ok (lp_fees (ab_ledger_params b)) →
  foldM block_apply_fragment b contents = Ok b' →
  keeps (ab_ledger b) (ab_ledger b') ∧ ab_ledger_params b' = ab_ledger_params b ∧ ab_block_date b' = ab_block_date b.
Proof using Type*.
  intros Hc Hf Hr.
  refine (foldM_inv (λ x, keeps (ab_ledger b) (ab_ledger x) ∧ ab_ledger_params x = ab_ledger_params b ∧
    ab_block_date x = ab_block_date b) _ _ _ _ _ _ Hr).
  - intros x f x' Hin (Hk & Hp & Hd) (l1 & Ha & <-%Ok_inj)%bind_Ok. cbn. split; [|done].
    eapply keeps_trans; [exact Hk|]. rewrite Forall_forall in Hc. eapply apply_fragment_keeps; [by apply Hc| |exact Ha].
    by rewrite Hp.
  - split; [apply keeps_refl|done].
Qed.
Lemma block_finish_inv b c mu mo :
  chain_inv (ab_ledger b) mu mo →
  chain_inv (block_finish b c) mu mo ∧ total_value (block_finish b c) mu mo = total_value (ab_ledger b) mu mo.
Proof using Type. intros [[] Hv Hu Hf]. by destruct c; (split; [split; [by split|done..]|]). Qed.

(** A block taken apart. *)
Lemma apply_block_inv l mu mo params contents meta l' :
  chain_inv l mu mo → Forall fragment_received contents → apply_block l params contents meta = Ok l' →
  ∃ size b b' mu' mo', compute_hash_size contents = Ok (hc_content_hash meta, size) ∧
    size ≤ lp_block_content_max_size params ∧
    begin_block l (hc_chain_length meta) (hc_block_date meta) = Ok b ∧
    l' = block_finish b' (hc_consensus_eval_context meta) ∧
    block_frame (ab_ledger b') = block_frame (ab_ledger b) ∧ ab_block_date b' = ab_block_date b ∧
    chain_inv l' mu' mo' ∧ total_value l' mu' mo' = total_value l mu mo.
Proof using Type*.
  intros Hinv Hc. unfold apply_block. intros ([h size] & Hh & Ha)%bind_Ok.
  destruct (Z.ltb_spec (lp_block_content_max_size params) size) as [|Hsz]; [done|].
  case_bool_decide as Hhash; [done|]. subst h.
  apply bind_Ok in Ha as (b & Hb & (b' & Hf & <-%Ok_inj)%bind_Ok).
  destruct (begin_block_inv _ _ _ _ _ _ Hinv Hb) as (Hinv1 & Ht1 & Hfees).
  destruct (block_fragments _ _ _ Hc Hfees Hf) as (Hk & _ & Hd).
  destruct (Hk mu mo Hinv1) as (mu' & mo' & Hinv2 & Ht2 & Hframe).
  destruct (block_finish_inv b' (hc_consensus_eval_context meta) mu' mo' Hinv2) as [Hinv3 Ht3].
  exists size, b, b', mu', mo'. split_and!; try done; [|congruence].
  by destruct (compute_hash_size contents) as [x|[]|]; [apply Ok_inj in Hh as ->|].
Qed.
(** Where the chain is after a block. *)
Lemma block_position l n date b b' c :
  begin_block l n date = Ok b → block_frame (ab_ledger b') = block_frame (ab_ledger b) →
  ab_block_date b' = ab_block_date b →
  l_chain_length (block_finish b' c) = l_chain_length l + 1 ∧ n = l_chain_length l + 1 ∧
  l_date (block_finish b' c) = date ∧ date_lt (l_date l) date = true ∧
  l_leaders_log (block_finish b' c) =
    match c with CPraos _ pool => increase_for (l_leaders_log l) pool | _ => l_leaders_log l end ∧
  l_static_params (block_finish b' c) = l_static_params l ∧ l_era (block_finish b' c) = l_era l.
Proof using Type.
  intros (-> & _ & Hlt & _ & u & s & _ & ->)%begin_block_Ok Hframe Hd. unfold block_frame in Hframe. cbn in Hframe, Hd.
  injection Hframe as F1 F2 F3 F4 F5 F6. unfold block_finish. destruct c; cbn; rewrite ?Hd, ?F6; split_and!; congruence.
Qed.

(** C2. A block that is applied conserves the value of the ledger and its
    invariant whatever its fragments are; its contents have the hash and at
    most the size announced; the chain is one block longer and its date, later
    than the one before, is the block's; the leaders' log counts the block for
    the pool that made it, and for nobody outside of Praos; the parameters
    fixed at block 0 and the era never change. *)
Theorem apply_block_conserves l mu mo params contents meta l' :
  chain_inv l mu mo → Forall fragment_received contents → apply_block l params contents meta = Ok l' →
  (∃ mu' mo', chain_inv l' mu' mo' ∧ total_value l' mu' mo' = total_value l mu mo) ∧
  (∃ size, compute_hash_size contents = Ok (hc_content_hash meta, size) ∧ size ≤ lp_block_content_max_size params) ∧
  l_chain_length l' = l_chain_length l + 1 ∧ hc_chain_length meta = l_chain_length l' ∧
  date_lt (l_date l) (l_date l') = true ∧ hc_block_date meta = l_date l' ∧
  l_leaders_log l' = match hc_consensus_eval_context meta with
                     | CPraos _ pool => increase_for (l_leaders_log l) pool | _ => l_leaders_log l end ∧
  l_static_params l' = l_static_params l ∧ l_era l' = l_era l.
Proof using Type*.
  intros Hinv Hc Ha. destruct (apply_block_inv _ _ _ _ _ _ _ Hinv Hc Ha)
    as (size & b & b' & mu' & mo' & Hh & Hsz & Hb & -> & Hframe & Hd & Hinv' & Ht).
  destruct (block_position _ _ _ _ _ (hc_consensus_eval_context meta) Hb Hframe Hd) as (P1 & P2 & P3 & P4 & P5 & P6 & P7).
  split; [by exists mu', mo'|]. split; [by exists size|]. rewrite P1, P3. split_and!; done.
Qed.

(** *** Chains *)
Definition reward_ready (l : Ledger) (sd : StakeDistribution (PoolId := PoolId) (Registration := PoolRegistration))
    (params : LedgerParameters) : Prop :=
  pots_total (l_pots l) ≤ u64_max ∧
  map_Forall (λ _ st, lr_epoch (last_rewards st) < reward_epoch l) (l_accounts l) ∧
  leaders_ok (l_leaders_log l) ∧ distribution_payable sd ∧ reward_settings_payable params (reward_epoch l).
(** The ledger moves by blocks and by the distributions between epochs. *)
Inductive chain_step : Ledger → Ledger → Prop :=
| step_block l params contents meta l' :
    Forall fragment_received contents → apply_block l params contents meta = Ok l' → chain_step l l'
| step_rewards l sd params ip l' info :
    reward_ready l sd params → distribute_rewards l sd params ip = Ok (l', info) → chain_step l l'.

Lemma chain_step_inv l l' mu mo :
  chain_inv l mu mo → chain_step l l' →
  ∃ mu' mo', chain_inv l' mu' mo' ∧ total_value l' mu' mo' = total_value l mu mo ∧
    l_chain_length l ≤ l_chain_length l' ∧ date_le (l_date l) (l_date l') = true ∧
    l_static_params l' = l_static_params l ∧ l_era l' = l_era l.
Proof using Type*.
  intros Hinv Hs.
  assert (Hle : ∀ a b, date_lt a b = true → date_le a b = true).
  { unfold date_lt, date_le. intros a b. destruct (_ <? _), (_ =? _), (Z.ltb_spec (date_slot_id a) (date_slot_id b)),
      (Z.leb_spec (date_slot_id a) (date_slot_id b)); cbn; done || lia. }
  assert (Hrefl : ∀ a, date_le a a = true) by (intros a; unfold date_le; by rewrite Z.eqb_refl, Z.leb_refl, orb_true_r).
  destruct Hs as [l params contents meta l' Hc Ha|l sd params ip l' info (R1 & R2 & R3 & R4 & R5) Hd].
  - destruct (apply_block_inv _ _ _ _ _ _ _ Hinv Hc Ha)
      as (size & b & b' & mu' & mo' & _ & _ & Hb & -> & Hframe & Hd & Hinv' & Ht).
    destruct (block_position _ _ _ _ _ (hc_consensus_eval_context meta) Hb Hframe Hd) as (P1 & _ & P3 & P4 & _ & P6 & P7).
    exists mu', mo'. rewrite P1, P3. split_and!; try done; [lia|by apply Hle].
  - destruct Hinv as [Hl Hv Hu Hf].
    destruct (distribute_rewards_run l mu mo sd params ip) as [_ Hrun]; [done..|].
    destruct (Hrun l' info Hd) as (Hl' & Ht & Hrest & _). unfold reward_rest in Hrest. cbn in Hrest.
    injection Hrest as Q1 Q2 Q3 Q4 Q5 Q6 Q7 Q8 Q9 Q10 Q11 Q12. exists mu, mo.
    split; [split; [done|by rewrite Q10|by rewrite Q4|by rewrite Q3]|]. split; [done|].
    rewrite Q7, Q8, Q6, Q9. split; [lia|]. split; [apply Hrefl|done].
Qed.

(** C1. Along any chain of blocks and reward distributions the total value never
    changes, the ledger stays well-formed, its length and its date never go
    back, and what block 0 fixed stays fixed. *)
Theorem chain_conserves l0 l mu mo :
  rtc chain_step l0 l → chain_inv l0 mu mo →
  ∃ mu' mo', chain_inv l mu' mo' ∧ total_value l mu' mo' = total_value l0 mu mo ∧
    l_chain_length l0 ≤ l_chain_length l ∧ date_le (l_date l0) (l_date l) = true ∧
    l_static_params l = l_static_params l0 ∧ l_era l = l_era l0.
Proof using Type*.
  assert (Htrans : ∀ a b c, date_le a b = true → date_le b c = true → date_le a c = true).
  { unfold date_le. intros a b c.
    destruct (Z.ltb_spec (date_epoch a) (date_epoch b)), (Z.eqb_spec (date_epoch a) (date_epoch b)),
      (Z.leb_spec (date_slot_id a) (date_slot_id b)), (Z.ltb_spec (date_epoch b) (date_epoch c)),
      (Z.eqb_spec (date_epoch b) (date_epoch c)), (Z.leb_spec (date_slot_id b) (date_slot_id c)),
      (Z.ltb_spec (date_epoch a) (date_epoch c)), (Z.eqb_spec (date_epoch a) (date_epoch c)),
      (Z.leb_spec (date_slot_id a) (date_slot_id c)); cbn; done || lia. }
  intros Hr. revert mu mo. induction Hr as [l|l1 l2 l3 Hs Hr IH]; intros mu mo Hinv.
  - exists mu, mo. split_and!; try done. unfold date_le. by rewrite Z.eqb_refl, Z.leb_refl, orb_true_r.
  - destruct (chain_step_inv _ _ _ _ Hinv Hs) as (mu2 & mo2 & Hinv2 & Ht2 & Hlen2 & Hd2 & Hst2 & He2).
    destruct (IH mu2 mo2 Hinv2) as (mu3 & mo3 & Hinv3 & Ht3 & Hlen3 & Hd3 & Hst3 & He3).
    exists mu3, mo3. split_and!; try done; try congruence; [lia|by eapply Htrans].
Qed.
End spec.

(** ** Witnesses: a block with one transaction on a concrete chain *)
#[local] Existing Instance demo_election.
#[local] Existing Instance demo_crypto.
#[export] Instance demo_election_reads : ElectionReads.
Proof. split. exact (local_ret ()). Defined.
Definition demo_tx_bytes_even : list Z :=
  [0; 0; 0; 1; 0; 0; 0; 2; 1; 1] ++ input_bytes (demo_input 10) ++ output_bytes (demo_output 10) ++ witness_bytes demo_wit.
Definition demo_contents : list Fragment :=
  match tx_check NoExtra_ demo_tx_bytes_even with Ok t => [FTransaction t] | _ => [] end.
Definition demo_meta : HeaderContentEvalContext :=
  mkHeaderContent (mkDate 1 1) 1 (match compute_hash_size demo_contents with Ok (h, _) => h | _ => [] end)
    (CPraos (demo_key 6) demo_pool_id).
Lemma demo_contents_received : Forall fragment_received demo_contents.
Proof.
  assert (Hb : bytes_ok demo_tx_bytes_even).
  { refine (bool_decide_unpack (Forall u8_ok demo_tx_bytes_even) _). vm_compute. reflexivity. }
  unfold demo_contents. destruct (tx_check NoExtra_ demo_tx_bytes_even) as [t|e|] eqn:Ht; [|constructor..].
  constructor; [|constructor]. assert (Hd : tx_data t = demo_tx_bytes_even).
  { vm_compute in Ht. apply Ok_inj in Ht. subst t. reflexivity. }
  cbn. unfold tx_received. rewrite Hd. split; [exact Hb|exact Ht].
Qed.
Lemma demo_chain_ready : ∃ mu, chain_inv demo_chain mu ∅.
Proof.
  destruct demo_chain_inv as (mu & Hinv & _). exists mu. split; [exact Hinv| | |].
  - change (l_votes demo_chain) with (∅ : gmap VotePlanId VotePlanManager). apply map_Forall_empty.
  - change (l_updates demo_chain) with (∅ : UpdateState). apply map_Forall_empty.
  - repeat split; vm_compute; discriminate || reflexivity.
Qed.
Definition demo_next : Ledger :=
  match apply_block demo_chain (demo_params_of 0) demo_contents demo_meta with Ok l => l | _ => demo_chain end.

Lemma apply_block_conserves_witness :
  ∃ mu mu' mo', apply_block demo_chain (demo_params_of 0) demo_contents demo_meta = Ok demo_next ∧
    demo_contents ≠ [] ∧ total_value demo_next mu' mo' = total_value demo_chain mu ∅ ∧
    l_chain_length demo_next = 1 ∧ l_leaders_log demo_next = increase_for leaders_new demo_pool_id.
Proof.
  destruct demo_chain_ready as [mu Hinv].
  assert (Hb : apply_block demo_chain (demo_params_of 0) demo_contents demo_meta = Ok demo_next) by (vm_compute; reflexivity).
  destruct (apply_block_conserves demo_chain mu ∅ (demo_params_of 0) demo_contents demo_meta demo_next Hinv
    demo_contents_received Hb) as ((mu' & mo' & _ & Ht) & _ & Hl & _ & _ & _ & Hll & _).
  exists mu, mu', mo'. split; [exact Hb|]. split; [vm_compute; discriminate|]. split; [exact Ht|]. split; [exact Hl|exact Hll].
Defined.
Lemma chain_conserves_witness :
  ∃ mu mu' mo', rtc chain_step demo_chain demo_next ∧ total_value demo_next mu' mo' = total_value demo_chain mu ∅.
Proof.
  destruct demo_chain_ready as [mu Hinv].
  assert (Hr : rtc chain_step demo_chain demo_next).
  { eapply rtc_l; [|apply rtc_refl]. apply (step_block demo_chain (demo_params_of 0) demo_contents demo_meta).
    - apply demo_contents_received.
    - vm_compute. reflexivity. }
  destruct (chain_conserves demo_chain demo_next mu ∅ Hr Hinv) as (mu' & mo' & _ & Ht & _).
  exists mu, mu', mo'. split; [exact Hr|exact Ht].
Defined.
