(* ===== verification/Block0Spec.v ===== *)
(** * Block 0

    The ledger that block 0 builds is well-formed and everything block 0 gives
    away fits a [u64], so that all later values do; and the fragments block 0
    accepts that make the construction panic instead of being refused. *)
From S2P Require Import Prelude Hamt HamtSpec Codec Key Value Rewards Time Spending Account SparseArray Utxo Pots Addr Multisig MultisigLedger Input Transaction TransactionSpec Stake StakeControl Config Settings UpdateSpec PoolCert PoolCertSpec DelegationCert Tokens Governance VoteCert Votes VotesSpec UpdateCert Distribution LeaderLog LedgerRanges LedgerState LedgerTx LedgerTxSpec LedgerCert Fragment LedgerRewardSpec LedgerBlock LedgerBlockSpec.
Local Open Scope Z_scope.

Section block0.
Context `{Crypto} `{Election} `{!ElectionReads} `{GroupEncoding}.

(** ** What block 0 is read as *)
Definition pot_param_ok (p : ConfigParam) : Prop :=
  match p with PTreasuryAdd v | PRewardPot v => u64_ok v | _ => True end.
Definition block0_received (f : Fragment) : Prop :=
  match f with
  | FInitial ps => Forall (λ p, fee_change_ok p ∧ pot_param_ok p) ps
  | FOldUtxoDeclaration d => (length (addrs d) < 255)%nat ∧ Forall (λ a, u64_ok a.2) (addrs d)
  | f => fragment_received f
  end.

(** ** The initial message *)
Lemma block0_params_spec ps b :
  Forall (λ p, fee_change_ok p ∧ pot_param_ok p) ps → pots_ok (b0_pots b) → Forall fee_change_ok (b0_regular b) →
  pots_ok (b0_pots (foldl block0_param b ps)) ∧ Forall fee_change_ok (b0_regular (foldl block0_param b ps)).
Proof using Type.
  intros Hps. revert b. induction Hps as [|p ps [Hf Hp] Hps IH]; intros b Hb Hr; [done|]. cbn [foldl]. apply IH.
  - destruct b as [? ? ? ? ? ? [? [?] ?]], p; try exact Hb; destruct Hb as (? & ? & ?); cbn in *; by split_and!.
  - destruct b, p; try exact Hr; cbn in *; by apply Forall_app_2, Forall_singleton.
Qed.
Lemma block0_ledger_inv h ps l :
  Forall (λ p, fee_change_ok p ∧ pot_param_ok p) ps → block0_ledger h ps = Ok l →
  chain_inv l ∅ ∅ ∧ l_date l = date_first ∧ l_chain_length l = 0 ∧
  block0_initial_hash (l_static_params l) = h ∧ bft_leaders (l_settings l) ≠ [] ∧
  leaders_total (l_leaders_log l) = 0.
Proof using Type.
  intros Hps Hl. destruct (block0_params_spec ps block0_params_new Hps) as [Hp Hr]; [by repeat split|by constructor|].
  unfold block0_ledger in Hl. cbv zeta in Hl.
  do 5 (apply bind_Ok in Hl as (? & _ & Hl)). do 2 (apply bind_Ok in Hl as (? & _ & Hl)).
  apply bind_Ok in Hl as (s & Hs%map_err_Ok & Hl). destruct (bft_leaders s) as [|k ks] eqn:Hb; [done|].
  apply Ok_inj in Hl as <-. split; [|split_and!; cbn; try done; by rewrite Hb].
  split; [by apply ledger_empty_inv|apply map_Forall_empty|apply map_Forall_empty|].
  refine (try_apply_fees _ _ _ _ Hr Hs). repeat split; cbn; lia.
Qed.

(** ** The fragments of block 0 *)
(** Nothing but outputs and declarations adds value. *)
Definition grows (l l' : Ledger) : Prop := ∀ mu mo, chain_inv l mu mo →
  ∃ mu' mo', chain_inv l' mu' mo' ∧ total_value l mu mo ≤ total_value l' mu' mo' ∧ block_frame l' = block_frame l.
Lemma keeps_grows l l' : keeps l l' → grows l l'.
Proof using Type.
  intros Hk mu mo Hc. destruct (Hk mu mo Hc) as (mu' & mo' & Hc' & Ht & Hf). exists mu', mo'. split; [done|]. split; [lia|done].
Qed.
Lemma grows_outputs l fid os l' :
  (length os ≤ 255)%nat → Forall (λ o, u64_ok (out_value o)) os → apply_tx_outputs l fid os = Ok l' → grows l l'.
Proof using Type.
  intros Hl Hos Ha mu mo [Hinv Hv Hu Hs]. destruct (apply_outputs_run l mu mo fid os Hinv Hl Hos) as [_ Hrun].
  destruct (Hrun l' Ha) as (mu' & Hinv' & Ht & Hrest & _). unfold ledger_rest in Hrest.
  injection Hrest as R1 R2 R3 R4 R5 R6 R7 R8 R9 R10 R11. exists mu', mo. split; [|split].
  - split; [done|by rewrite R9|by rewrite R2|by rewrite R1].
  - assert (0 ≤ Zsum (out_value <$> os)); [|lia]. apply Zsum_nonneg, Forall_fmap. eapply Forall_impl; [exact Hos|].
    cbn. unfold in_u. lia.
  - unfold block_frame. congruence.
Qed.
Lemma old_values_insert mo tid outs :
  old_values mo → Forall (λ io, u64_ok (out_value io.2)) outs → old_values (<[tid := spec_outputs outs]> mo).
Proof using Type.
  intros Hm Houts tid' t i o. rewrite lookup_insert_Some. intros [[<- <-]|[_ ?]] Hi; [|by eapply Hm].
  revert Hi. induction outs as [|io outs IH] using rev_ind; [by intros ?|].
  apply Forall_app in Houts as [Houts Ho%Forall_inv]. unfold spec_outputs. rewrite foldl_app. cbn [foldl].
  rewrite lookup_insert_Some. intros [[_ <-]|[_ Hi]]; [done|by apply IH].
Qed.
Lemma grows_old l fid d l' :
  (length (addrs d) < 255)%nat → Forall (λ a, u64_ok a.2) (addrs d) →
  set_oldutxos l <$> apply_old_declaration fid (l_oldutxos l) d = Ok l' → grows l l'.
Proof using Type.
  intros Hlen Hvals Ha mu mo [[Hu Ho Hon Hac Hm Hp Hnn] Hv Hup Hs]. revert Ha. unfold apply_old_declaration.
  rewrite (proj2 (Nat.ltb_lt _ _)) by done. cbn [assert_that mbind outcome_bind].
  set (outs := (λ a, mkOutput a.1 a.2) <$> addrs d).
  assert (Hlen' : length outs = length (addrs d)) by apply length_fmap.
  destruct (enumerate_props outs) as (Hnd & Hlt & Hsnd & Hlene); [lia|].
  assert (Hok : Forall (λ io, u64_ok (out_value io.2)) (enumerate outs)).
  { apply (Forall_fmap snd (λ o, u64_ok (out_value o))). change (snd <$> enumerate outs) with (enumerate outs).*2.
    rewrite Hsnd. unfold outs. by apply Forall_fmap. }
  destruct (decide (enumerate outs = [])) as [He|He].
  { rewrite He. discriminate. }
  assert (Hidx : Forall (λ io, (io.1 < 256)%nat) (enumerate outs)).
  { eapply Forall_impl; [exact Hlt|]. cbn. lia. }
  pose proof (utxo_add_repr (l_oldutxos l) mo fid (enumerate outs) Ho He ltac:(lia) Hidx) as Hadd.
  destruct (mo !! fid) as [t|] eqn:Hfid; [by rewrite Hadd|]. destruct Hadd as (x & -> & Hx). cbn. intros <-%Ok_inj.
  exists mu, (<[fid := spec_outputs (enumerate outs)]> mo). split.
  - split; try done. split; try done. by apply old_values_insert.
  - split; [|done]. unfold total_value. cbn. unfold utxo_total at 4. rewrite map_sum_insert_new by done.
    rewrite spec_outputs_total by done. fold (utxo_total mo).
    assert (0 ≤ Zsum (out_value ∘ snd <$> enumerate outs)); [|lia]. apply Zsum_nonneg, Forall_fmap.
    eapply Forall_impl; [exact Hok|]. cbn. unfold in_u. lia.
Qed.

Lemma received_outputs {P} `{PayloadPartial P} (t : Transaction P) :
  tx_received t → ∃ os, tx_outputs t = Ok os ∧ (length os ≤ 255)%nat ∧ Forall (λ o, u64_ok (out_value o)) os.
Proof using Type.
  intros [Hb Ht]. destruct (checked_tx_parts (tx_data t) t Hb Ht) as (il & os & ws & Hp).
  exists os. pose proof (tp_counts _ _ _ _ Hp) as Hc. pose proof (tp_nb_outputs _ _ _ _ Hp) as Hn.
  split; [apply (tp_outputs _ _ _ _ Hp)|]. split; [|apply (tp_outputs_ok _ _ _ _ Hp)]. unfold in_u in Hc. lia.
Qed.
Lemma block0_fragment_grows params l f l' :
  block0_received f → block0_fragment params l f = Ok l' → grows l l'.
Proof using Type*.
  intros Hr (fid & _ & Ha)%bind_Ok.
  destruct f as [e|d|tx|tx|tx|tx|tx|tx|tx|tx|tx|tx|tx|tx|tx|tx]; cbn [block0_received fragment_received] in Hr;
    try discriminate Ha.
  - destruct Hr as [Hlen Hv]. by eapply grows_old.
  - apply bind_Ok in Ha as ([] & _ & (os & Hos & Ha)%bind_Ok). destruct (received_outputs tx Hr) as (os' & Ho' & Hl & Hv).
    rewrite Ho' in Hos. apply Ok_inj in Hos as <-. by eapply grows_outputs.
  - apply bind_Ok in Ha as ([] & _ & (p & _ & Hk)%bind_Ok). apply keeps_grows. by eapply keeps_stake_delegation.
  - apply bind_Ok in Ha as ([] & _ & (p & _ & Hk)%bind_Ok). apply keeps_grows. by eapply keeps_pool_registration.
  - apply bind_Ok in Ha as ([] & _ & (p & Hp & (sig & _ & Hk)%bind_Ok)%bind_Ok). apply keeps_grows.
    eapply keeps_vote_plan; [|exact Hk]. by apply (lift_payload tx p _ Hr ensures_vote_plan).
  - apply bind_Ok in Ha as ([] & _ & (p & Hp & Hk)%bind_Ok). apply keeps_grows.
    eapply keeps_mint; [|exact Hk]. by apply (lift_payload tx p _ Hr ensures_mint_token).
Qed.
Lemma block0_contents_grow params l contents l' :
  Forall block0_received contents → foldM (block0_fragment params) l contents = Ok l' → grows l l'.
Proof using Type*.
  intros Hc Hr. refine (foldM_inv (λ x, grows l x) _ _ _ _ _ _ Hr).
  - intros x f x' Hin Hx Hf mu mo Hinv. rewrite Forall_forall in Hc.
    destruct (Hx mu mo Hinv) as (mu1 & mo1 & Hinv1 & Ht1 & Hf1).
    destruct (block0_fragment_grows params x f x' (Hc f Hin) Hf mu1 mo1 Hinv1) as (mu2 & mo2 & Hinv2 & Ht2 & Hf2).
    exists mu2, mo2. split; [done|]. split; [lia|congruence].
  - apply keeps_grows, keeps_refl.
Qed.

(** C5. Block 0, read from bytes: some fuel is enough for it (more changes
    nothing), and a ledger it builds satisfies the invariant of every later
    block, holds at most [u64::MAX] in all, stands at the first date and at
    length 0 with the hash of block 0, has a BFT leader and an empty leaders'
    log; a block 0 that gives away more is refused. *)
Theorem block0_sound h contents :
  Forall block0_received contents →
  ∃ fuel, ∀ n, ledger_new_block0 (n + fuel) h contents = ledger_new_block0 fuel h contents ∧
    ∀ l, ledger_new_block0 fuel h contents = Ok l →
      (∃ mu mo, chain_inv l mu mo ∧ total_value l mu mo ≤ u64_max) ∧
      l_date l = date_first ∧ l_chain_length l = 0 ∧ block0_initial_hash (l_static_params l) = h ∧
      bft_leaders (l_settings l) ≠ [] ∧ leaders_total (l_leaders_log l) = 0.
Proof using Type*.
  intros Hc. destruct contents as [|[ps| | | | | | | | | | | | | | |] contents]; try by exists 0%nat.
  apply Forall_cons_1 in Hc as [Hps Hc]. unfold ledger_new_block0.
  destruct (block0_ledger h ps) as [l0|e|] eqn:Hl0; [|by exists 0%nat..]. cbn [mbind outcome_bind].
  destruct (block0_ledger_inv h ps l0 Hps Hl0) as (Hinv0 & Hd & Hcl & Hh & Hb & Hll).
  destruct (foldM (block0_fragment (get_ledger_parameters l0)) l0 contents) as [l1|e|] eqn:Hl1; [|by exists 0%nat..].
  destruct (block0_contents_grow _ _ _ _ Hc Hl1 ∅ ∅ Hinv0) as (mu & mo & Hinv1 & _ & Hframe).
  destruct (ledger_total_value_exact l1 mu mo (ci_ledger _ _ _ Hinv1)) as [fuel Hfuel].
  exists fuel. intros n. cbn [mbind outcome_bind]. rewrite Hfuel, (Hfuel 0%nat : ledger_get_total_value fuel l1 = _).
  split; [done|]. intros l. case_decide as Ht; cbn [mbind outcome_bind]; [|done]. intros <-%Ok_inj.
  unfold block_frame in Hframe. injection Hframe as F1 F2 F3 F4 F5 F6.
  split; [by exists mu, mo|]. rewrite F1, F2, F3, F4, F6. done.
Qed.

(** ** Panics of block 0 *)
Definition block0_output (l : Ledger) (o : Output Address) : Prop :=
  out_value o ≠ 0 ∧ discrimination (out_address o) = discrimination_ (l_static_params l) ∧
  ∃ pk, kind (out_address o) = Single pk.
Lemma single_turns l acc ios :
  Forall (λ io, block0_output l io.2) ios → foldM output_turn (l, acc) ios = Ok (l, acc ++ ios).
Proof using Type.
  intros Hios. revert acc. induction Hios as [|io ios (Hv & Hd & pk & Hk) Hios IH]; intros acc; cbn [foldM].
  - by rewrite app_nil_r.
  - unfold output_turn at 2, valid_output_value, value_zero. rewrite (proj2 (Z.eqb_neq _ _) Hv). cbn [mbind outcome_bind if_cond_fail_with].
    rewrite bool_decide_false by (intros Hn; done). rewrite Hk. cbn [mbind outcome_bind]. rewrite IH. by rewrite <-app_assoc.
Qed.
(** Block 0 does not limit the outputs of a transaction, so one with 255
    UTXO outputs, the most its count can say, trips the assertion of the UTXO
    ledger; so does the empty declaration of legacy UTXOs: both panic where
    every other malformed block 0 is an error. *)
Theorem block0_assertions_panic params l (tx : Transaction NoExtra_) os :
  tx_nb_inputs tx = 0 → tx_outputs tx = Ok os → length os = 255%nat → Forall (block0_output l) os →
  block0_fragment params l (FTransaction tx) = Panic ∧
  block0_fragment params l (FOldUtxoDeclaration (mkUtxoDeclaration [])) = Panic.
Proof using Type.
  intros Hn Ho Hlen Hos. split.
  - unfold block0_fragment, valid_block0_transaction_no_inputs. rewrite Hn, Ho. cbn [Z.eqb negb if_cond_fail_with].
    destruct (fragment_hash _) as [fid|[]|]; [|done]. cbn [lift mbind outcome_bind]. unfold apply_tx_outputs.
    destruct (enumerate_props os) as (Hnd & Hlt & Hsnd & Hlene); [lia|].
    rewrite (single_turns l [] (enumerate os)).
    + cbn [app mbind outcome_bind]. destruct (enumerate os) as [|io ios] eqn:He; [cbn in Hlene; lia|].
      unfold utxo_add. rewrite (proj2 (Nat.ltb_ge _ _)) by lia. by rewrite bool_decide_false.
    + apply (Forall_fmap snd (block0_output l)). change (snd <$> enumerate os) with (enumerate os).*2. by rewrite Hsnd.
  - unfold block0_fragment. by destruct (fragment_hash _) as [fid|[]|].
Qed.
End block0.

(** ** Witnesses *)
#[local] Existing Instance demo_election.
#[local] Existing Instance demo_crypto.
Definition demo_init : ConfigParams :=
  [PBlock0Date 0; PDiscrimination Production; PSlotDuration 10; PSlotsPerEpoch 100; PKesUpdateSpeed 3600;
   PAddBftLeader (demo_key 2); PTreasuryAdd 50; PRewardPot 1000].
Definition no_input_tx (os : list (Output Address)) : list Z :=
  [0; 0; 0; 1; 0; 0; 0; 2; 0; Z.of_nat (length os)] ++ mjoin (output_bytes <$> os).
Definition demo_block0 : list Fragment :=
  FInitial demo_init ::
  match tx_check NoExtra_ (no_input_tx demo_outputs) with Ok t => [FTransaction t] | _ => [] end.
Lemma demo_block0_received : Forall block0_received demo_block0.
Proof.
  constructor.
  - repeat constructor; vm_compute; discriminate || reflexivity.
  - assert (Hb : bytes_ok (no_input_tx demo_outputs)).
    { refine (bool_decide_unpack (Forall u8_ok (no_input_tx demo_outputs)) _). vm_compute. reflexivity. }
    destruct (tx_check NoExtra_ (no_input_tx demo_outputs)) as [t|e|] eqn:Ht; [|constructor..].
    constructor; [|constructor]. assert (Hd : tx_data t = no_input_tx demo_outputs).
    { vm_compute in Ht. apply Ok_inj in Ht. subst t. reflexivity. }
    cbn [block0_received fragment_received]. unfold tx_received. rewrite Hd. split; [exact Hb|exact Ht].
Qed.
Lemma block0_sound_witness :
  ∃ fuel l mu mo, ledger_new_block0 fuel (demo_key 7) demo_block0 = Ok l ∧ chain_inv l mu mo ∧
    total_value l mu mo ≤ u64_max ∧ rewards (l_pots l) = 1000.
Proof.
  destruct (block0_sound (demo_key 7) demo_block0 demo_block0_received) as [fuel Hf].
  destruct (Hf 100%nat) as [He Hs].
  assert (Hl : ∃ l, ledger_new_block0 (100 + fuel) (demo_key 7) demo_block0 = Ok l ∧ rewards (l_pots l) = 1000).
  { eexists. split; [vm_compute; reflexivity|vm_compute; reflexivity]. }
  destruct Hl as (l & Hl & Hr). rewrite He in Hl.
  destruct (Hs l Hl) as ((mu & mo & Hinv & Ht) & _).
  exists fuel, l, mu, mo. split; [exact Hl|]. split; [exact Hinv|]. split; [exact Ht|exact Hr].
Defined.

Definition demo_many : list (Output Address) :=
  replicate 255 (mkOutput (mkAddress Production (Single (demo_key 5))) 1).
Lemma block0_assertions_panic_witness :
  ∃ t : Transaction NoExtra_, tx_check NoExtra_ (no_input_tx demo_many) = Ok t ∧
    block0_fragment (demo_params_of 0) demo_empty (FTransaction t) = Panic.
Proof.
  assert (Hc : match tx_check NoExtra_ (no_input_tx demo_many) with
               | Ok t => (tx_outputs t, tx_nb_inputs t) | _ => (Panic, 1) end = (Ok demo_many, 0)) by (vm_compute; reflexivity).
  destruct (tx_check NoExtra_ (no_input_tx demo_many)) as [t|e|]; [|discriminate Hc..].
  injection Hc as Ho Hn. exists t. split; [reflexivity|].
  destruct (block0_assertions_panic (demo_params_of 0) demo_empty t demo_many Hn Ho) as [Hp _]; [reflexivity| |exact Hp].
  apply Forall_replicate. split; [discriminate|]. split; [reflexivity|by exists (demo_key 5)].
Defined.
