(* ===== verification/Recovery.v ===== *)
(** * The dump of a ledger and its recovery ([ledger/{recovery,iter}.rs])

    A ledger is dumped by walking over all its entries and packing each behind
    a code; it is recovered by unpacking the entries and collecting them.  A
    packer appends to a [Vec<u8>] (writing never fails, packing may panic); an
    unpacker takes bytes from the front of a slice.  Allocation is not
    modelled: announced sizes only decide how many items are read. *)
From S2P Require Import Prelude Hamt HamtSpec Codec Value Rewards Time Spending Account SparseArray Utxo Pots Addr Key Multisig MultisigLedger Input Transaction Stake Config Settings PoolCert DelegationCert Tokens Governance VoteCert Votes LeaderLog LedgerState.
Local Open Scope Z_scope.

(** ** Errors: the kinds of [std::io] with the reason in the message *)
Inductive DumpReason :=
| NotRecognizeCode (code : Z)
| DigestInvalidSize
| ReadingIdentifier (e : ReadError)
| WrongNumberOfLanes (got : nat)
| BuildingDelegationRatio
| InvalidDelegationTypeCode (code : Z)
| ReadingPoolRegistration (e : ReadError)
| ReadingConfigParam (e : ReadError)
| ConfigPayloadTooBig
| ReadingLeaderId (e : ReadError)
| InvalidPotCode (code : Z)
| InvalidDeclElementCode (code : Z)
| DuplicateVoter
| ReadingAddress (e : AddrError)
| InvalidOptionsLength_ (e : InvalidOptionsLength)
| InvalidPayloadType (e : TryFromIntError)
| InvalidCommitteeKey
| InvalidPolicyHash (e : ReadError)
| InvalidTokenName (len : nat)
| NotRecognizedEntryCode (code : Z).
Inductive DumpError :=
| DumpEof
| DumpInvalidData (why : DumpReason)
| DumpInvalidInput (why : DumpReason)
| DumpOther (why : DumpReason).

(** ** Packers and unpackers *)
Definition Pack : Type := list Z → outcome DumpError (list Z).
Definition Unpack (A : Type) : Type := list Z → outcome DumpError (A * list Z).
#[export] Instance unpack_ret : MRet Unpack := λ A a r, Ok (a, r).
#[export] Instance unpack_bind : MBind Unpack := λ A B f m r, '(a, r) ← m r; f a r.
Definition pack_skip : Pack := λ w, Ok w.
Definition pack_then (p q : Pack) : Pack := λ w, w ← p w; q w.
Infix "▷" := pack_then (at level 62, right associativity).
Definition unpack_fail {A} (e : DumpError) : Unpack A := λ _, Err e.
Definition unpack_of {E A} (f : E → DumpError) (m : outcome E A) : Unpack A := λ r, a ← map_err f m; Ok (a, r).

Definition put_u8 (v : Z) : Pack := λ w, Ok (codec_put_u8 w v).
Definition put_be (n : nat) (v : Z) : Pack := λ w, Ok (codec_put_be n w v).
Definition put_bytes (v : list Z) : Pack := λ w, Ok (codec_put_bytes w v).
Definition get_u8_ : Unpack Z := λ r, map_err (λ _, DumpEof) (codec_get_u8 r).
Definition get_be (n : nat) : Unpack Z := λ r, map_err (λ _, DumpEof) (codec_get_be n r).
Definition get_bytes (n : nat) : Unpack (list Z) := λ r, map_err (λ _, DumpEof) (codec_get n r).

(** [for x in xs] around a packer, [for _ in 0..n] around an unpacker. *)
Definition pack_all {A} (p : A → Pack) (xs : list A) : Pack := λ w, foldM (λ w x, p x w) w xs.
Fixpoint unpack_n {A} (n : nat) (u : Unpack A) : Unpack (list A) :=
  match n with
  | O => mret []
  | S n => x ← u; xs ← unpack_n n u; mret (x :: xs)
  end.
(** [ReadBuf::from(&bytes)] and a reader on it, what follows being ignored. *)
Definition unpack_read {A} (f : ReadError → DumpError) (read : Reader A) (bytes : list Z) : Unpack A :=
  '(a, _) ← unpack_of f (read (rb_from bytes)); mret a.

(** ** Identifiers *)
Definition pack_digestof (d : list Z) : Pack := put_be 8 (wrap 64 (Z.of_nat (length d))) ▷ put_bytes d.
Definition unpack_digestof : Unpack (list Z) :=
  size ← get_be 8;
  bytes ← get_bytes (Z.to_nat size);
  if (length bytes =? HASH_SIZE)%nat then mret bytes else unpack_fail (DumpInvalidData DigestInvalidSize).
Definition pack_pool_id (id : PoolId) : Pack := pack_digestof id.
Definition unpack_pool_id : Unpack PoolId := unpack_digestof.
Definition pack_discrimination (d : Discrimination) : Pack :=
  match d with Production => put_u8 0 | Test_ => put_u8 1 end.
Definition unpack_discrimination : Unpack Discrimination :=
  code ← get_u8_;
  match code with
  | 0 => mret Production
  | 1 => mret Test_
  | _ => unpack_fail (DumpInvalidData (NotRecognizeCode code))
  end.
Definition pack_account_identifier (id : Identifier) : Pack := put_bytes id.
Definition unpack_account_identifier : Unpack Identifier :=
  bytes ← get_bytes PUBLIC_KEY_SIZE;
  unpack_read (λ e, DumpInvalidData (ReadingIdentifier e)) deserialize_public_key bytes.
(** [Hash]: [key.rs]. *)
Definition hash_serialize (h : list Z) : Pack := put_bytes h.
Definition hash_deserialize : Unpack (list Z) := get_bytes HASH_SIZE.
Definition pack_multisig_identifier (id : KeyHash) : Pack := hash_serialize id.
Definition unpack_multisig_identifier : Unpack KeyHash := hash_deserialize.
Definition pack_header_id (id : list Z) : Pack := hash_serialize id.
Definition unpack_header_id : Unpack (list Z) := hash_deserialize.
Definition pack_update_proposal_id (id : UpdateProposalId) : Pack := hash_serialize id.
Definition unpack_update_proposal_id : Unpack UpdateProposalId := hash_deserialize.
(** [BftLeaderId]: [key.rs]. *)
Definition bft_leader_id_serialize (id : BftLeaderId) : Pack := put_bytes id.
Definition bft_leader_id_deserialize : Unpack BftLeaderId :=
  bytes ← get_bytes 32;
  unpack_read (λ e, DumpOther (ReadingLeaderId e)) deserialize_public_key bytes.

(** ** Accounts *)
Definition pack_spending_strategy (s : SpendingCounterIncreasing) : Pack :=
  pack_all (put_be 4) (get_valid_counters s).
Definition unpack_spending_strategy : Unpack SpendingCounterIncreasing :=
  counters ← unpack_n LANES (get_be 4);
  unpack_of (λ e, e)
    (ok_or (new_from_counters counters) (DumpInvalidData (WrongNumberOfLanes (length counters)))).
Definition pack_delegation_ratio (r : DelegationRatio PoolId) : Pack :=
  put_u8 (dr_parts r) ▷ put_be 8 (wrap 64 (Z.of_nat (length (dr_pools r)))) ▷
  pack_all (λ pu, put_u8 pu.2 ▷ pack_pool_id pu.1) (dr_pools r).
Definition unpack_delegation_ratio : Unpack (DelegationRatio PoolId) :=
  parts ← get_u8_;
  pools_size ← get_be 8;
  pools ← unpack_n (Z.to_nat pools_size) (u ← get_u8_; id ← unpack_pool_id; mret (id, u));
  match delegation_ratio_new parts pools with
  | Some r => mret r
  | None => unpack_fail (DumpInvalidData BuildingDelegationRatio)
  end.
Definition pack_delegation_type (d : DelegationType PoolId) : Pack :=
  match d with
  | NonDelegated => put_u8 0
  | DFull id => put_u8 1 ▷ pack_pool_id id
  | DRatio r => put_u8 2 ▷ pack_delegation_ratio r
  end.
Definition unpack_delegation_type : Unpack (DelegationType PoolId) :=
  code ← get_u8_;
  match code with
  | 0 => mret NonDelegated
  | 1 => id ← unpack_pool_id; mret (DFull id)
  | 2 => r ← unpack_delegation_ratio; mret (DRatio r)
  | _ => unpack_fail (DumpInvalidData (InvalidDelegationTypeCode code))
  end.
Definition pack_last_rewards (l : LastRewards) : Pack := put_be 4 (lr_epoch l) ▷ put_be 8 (lr_reward l).
Definition unpack_last_rewards : Unpack LastRewards :=
  epoch ← get_be 4; reward ← get_be 8; mret (mkLastRewards epoch reward).
Abbreviation DumpedAccount := (AccountState PoolId TokenIdentifier unit).
(** The tokens of an account are not packed. *)
Definition pack_account_state (st : DumpedAccount) : Pack :=
  pack_spending_strategy (spending st) ▷ pack_delegation_type (delegation st) ▷ put_be 8 (st_value st) ▷
  pack_last_rewards (last_rewards st).
Definition unpack_account_state : Unpack DumpedAccount :=
  spending ← unpack_spending_strategy;
  delegation ← unpack_delegation_type;
  value ← get_be 8;
  last_rewards ← unpack_last_rewards;
  mret (mkState spending delegation value ∅ last_rewards ()).

(** ** Multisig declarations; the fuel bounds the nesting *)
Fixpoint pack_declaration (d : Declaration) : Pack :=
  match d with
  | mkDecl threshold owners =>
      put_u8 threshold ▷ put_be 8 (wrap 64 (Z.of_nat (length owners))) ▷
      (λ w, (fix go (os : list DeclElement) (w : list Z) : outcome DumpError (list Z) :=
               match os with
               | [] => Ok w
               | o :: os => w ← pack_decl_element o w; go os w
               end) owners w)
  end
with pack_decl_element (o : DeclElement) : Pack :=
  match o with
  | DSub d => put_u8 0 ▷ pack_declaration d
  | DOwner hash => put_u8 1 ▷ hash_serialize hash
  end.
Definition unpack_decl_element_of (unpack_declaration : Unpack Declaration) : Unpack DeclElement :=
  code ← get_u8_;
  match code with
  | 0 => d ← unpack_declaration; mret (DSub d)
  | 1 => hash ← hash_deserialize; mret (DOwner hash)
  | _ => unpack_fail (DumpInvalidData (InvalidDeclElementCode code))
  end.
Fixpoint unpack_declaration_fuel (fuel : nat) : Unpack Declaration :=
  match fuel with
  | O => λ _, Panic
  | S fuel =>
      threshold ← get_u8_;
      size ← get_be 8;
      owners ← unpack_n (Z.to_nat size) (unpack_decl_element_of (unpack_declaration_fuel fuel));
      mret (mkDecl threshold owners)
  end.
(** Every level takes bytes, so their number is enough. *)
Definition unpack_declaration : Unpack Declaration := λ r, unpack_declaration_fuel (S (length r)) r.

(** ** Pools *)
Definition pack_pool_registration (r : PoolRegistration) : Pack := λ w,
  bytes ← lift (pool_reg_serialize r);
  (put_be 8 (wrap 64 (Z.of_nat (length bytes))) ▷ put_bytes bytes) w.
Definition unpack_pool_registration `{GroupEncoding} : Unpack PoolRegistration :=
  size ← get_be 8;
  bytes_buff ← get_bytes (Z.to_nat size);
  unpack_read (λ e, DumpInvalidData (ReadingPoolRegistration e)) pool_reg_read bytes_buff.
Definition pack_pool_last_rewards (l : PoolLastRewards) : Pack :=
  put_be 4 (pr_epoch l) ▷ put_be 8 (value_taxed l) ▷ put_be 8 (value_for_stakers l).
Definition unpack_pool_last_rewards : Unpack PoolLastRewards :=
  epoch ← get_be 4;
  value_taxed ← get_be 8;
  value_for_stakers ← get_be 8;
  mret (mkPoolRewards epoch value_taxed value_for_stakers).
Definition pack_pool_state (st : PoolState PoolRegistration) : Pack :=
  pack_pool_last_rewards (pool_rewards st) ▷ pack_pool_registration (registration st).
Definition unpack_pool_state `{GroupEncoding} : Unpack (PoolState PoolRegistration) :=
  last_rewards ← unpack_pool_last_rewards;
  registration ← unpack_pool_registration;
  mret (mkPoolState last_rewards registration).

(** ** Configuration parameters and update proposals *)
Definition dump_of_config_io (e : ConfigIoError) : DumpError :=
  match e with InitialEntPayloadTooBig => DumpInvalidInput ConfigPayloadTooBig end.
Definition pack_config_param (p : ConfigParam) : Pack := λ w,
  bytes ← map_err dump_of_config_io (config_serialize p); put_bytes bytes w.
Definition dump_of_config_error (e : ConfigDeserializeError) : DumpError :=
  match e with CEof _ => DumpEof | CReading e => DumpOther (ReadingConfigParam e) end.
Definition unpack_config_param : Unpack ConfigParam := λ r, map_err dump_of_config_error (config_deserialize r).
(** [fragment/config.rs] *)
Definition config_params_deserialize : Unpack ConfigParams :=
  size ← get_be 2; unpack_n (Z.to_nat size) unpack_config_param.
(** [certificate/update_proposal.rs] *)
Definition update_proposal_serialize (p : UpdateProposal) : Pack :=
  (λ w, bytes ← map_err dump_of_config_io (config_params_serialize (changes p)); put_bytes bytes w) ▷
  bft_leader_id_serialize (proposer_id p).
Definition update_proposal_deserialize : Unpack UpdateProposal :=
  changes ← config_params_deserialize;
  proposer_id ← bft_leader_id_deserialize;
  mret (Settings.mkProposal changes proposer_id).
Definition pack_update_proposal (p : UpdateProposal) : Pack := update_proposal_serialize p.
Definition unpack_update_proposal : Unpack UpdateProposal := update_proposal_deserialize.
Definition pack_block_date (d : BlockDate) : Pack := put_be 4 (date_epoch d) ▷ put_be 4 (date_slot_id d).
Definition unpack_block_date : Unpack BlockDate :=
  epoch ← get_be 4; slot_id ← get_be 4; mret (mkDate epoch slot_id).
Definition pack_update_proposal_state (st : UpdateProposalState) : Pack :=
  pack_update_proposal (proposal st) ▷ pack_block_date (proposal_date st) ▷
  put_be 8 (wrap 64 (Z.of_nat (size (votes st)))) ▷
  pack_all bft_leader_id_serialize (map_to_list (votes st)).*1.
(** The voters are inserted as they are read. *)
Fixpoint unpack_voters (n : nat) (votes : gmap UpdateVoterId unit) : Unpack (gmap UpdateVoterId unit) :=
  match n with
  | O => mret votes
  | S n =>
      id ← bft_leader_id_deserialize;
      votes ← unpack_of (λ _, DumpInvalidData DuplicateVoter) (hm_insert votes id ());
      unpack_voters n votes
  end.
Definition unpack_update_proposal_state : Unpack UpdateProposalState :=
  proposal ← unpack_update_proposal;
  proposal_date ← unpack_block_date;
  total_votes ← get_be 8;
  votes ← unpack_voters (Z.to_nat total_votes) ∅;
  mret (mkProposalState proposal proposal_date votes).

(** ** Pots *)
Definition pack_pot_entry (e : PotEntry) : Pack :=
  match e with
  | EFees value => put_u8 0 ▷ put_be 8 value
  | ETreasury value => put_u8 1 ▷ put_be 8 value
  | ERewards value => put_u8 2 ▷ put_be 8 value
  end.
Definition unpack_pot_entry : Unpack PotEntry :=
  code ← get_u8_;
  match code with
  | 0 => value ← get_be 8; mret (EFees value)
  | 1 => value ← get_be 8; mret (ETreasury value)
  | 2 => value ← get_be 8; mret (ERewards value)
  | _ => unpack_fail (DumpInvalidData (InvalidPotCode code))
  end.

(** ** UTXOs, with the packer of their addresses *)
Definition pack_output {A} (address_packer : A → Pack) (o : Output A) : Pack :=
  address_packer (out_address o) ▷ put_be 8 (out_value o).
Definition unpack_output {A} (address_unpacker : Unpack A) : Unpack (Output A) :=
  address ← address_unpacker; value ← get_be 8; mret (mkOutput address value).
Abbreviation UtxoEntry A := (FragmentId * TransactionIndex * Output A)%type.
Definition pack_utxo_entry {A} (address_packer : A → Pack) (e : UtxoEntry A) : Pack :=
  put_bytes e.1.1 ▷ put_u8 (Z.of_nat e.1.2) ▷ pack_output address_packer e.2.
Definition unpack_utxo_entry_owned {A} (address_unpacker : Unpack A) : Unpack (UtxoEntry A) :=
  fragment_id ← get_bytes 32;
  output_index ← get_u8_;
  output ← unpack_output address_unpacker;
  mret (fragment_id, Z.to_nat output_index, output).
Definition pack_address (a : Address) : Pack :=
  let bytes := to_bytes a in put_be 8 (wrap 64 (Z.of_nat (length bytes))) ▷ put_bytes bytes.
Definition unpack_address : Unpack Address :=
  size ← get_be 8;
  v ← get_bytes (Z.to_nat size);
  unpack_of (λ e, DumpOther (ReadingAddress e)) (from_bytes v).

Section recovery.
Context `{Crypto} `{Election} `{GroupEncoding}.
(** [OldAddress::new]. *)
Context (old_address_new : list Z → OldAddress).

Definition pack_old_addr (a : OldAddress) : Pack :=
  let bytes := old_address_bytes a in put_be 8 (wrap 64 (Z.of_nat (length bytes))) ▷ put_bytes bytes.
Definition unpack_old_addr : Unpack OldAddress :=
  size ← get_be 8; v ← get_bytes (Z.to_nat size); mret (old_address_new v).

(** ** Globals *)
Definition pack_ledger_static_parameters (p : LedgerStaticParameters) : Pack :=
  pack_header_id (block0_initial_hash p) ▷ put_be 8 (block0_start_time p) ▷
  pack_discrimination (discrimination_ p) ▷ put_be 4 (kes_update_speed p).
Definition unpack_ledger_static_parameters : Unpack LedgerStaticParameters :=
  block0_initial_hash ← unpack_header_id;
  block0_start_time ← get_be 8;
  discrimination ← unpack_discrimination;
  kes_update_speed ← get_be 4;
  mret (mkStatic block0_initial_hash block0_start_time discrimination kes_update_speed).
Record Globals := mkGlobals {
  gl_date : BlockDate; gl_chain_length : Z; gl_static_params : LedgerStaticParameters; gl_era : TimeEra }.
Definition pack_globals (g : Globals) : Pack :=
  pack_block_date (gl_date g) ▷ put_be 4 (gl_chain_length g) ▷
  pack_ledger_static_parameters (gl_static_params g) ▷ (λ w, Ok (pack_time_era (gl_era g) w)).
Definition unpack_globals : Unpack Globals :=
  date ← unpack_block_date;
  chain_length ← get_be 4;
  static_params ← unpack_ledger_static_parameters;
  era ← (λ r, map_err (λ _, DumpEof) (unpack_time_era r)) : Unpack TimeEra;
  mret (mkGlobals date chain_length static_params era).

(** ** Vote plans.  [unpack_vote_action] is a [todo!()]. *)
Definition pack_vote_proposal (p : Proposal) : Pack :=
  pack_digestof (external_id p) ▷ put_u8 (options_as_byte (prop_options p)).
Definition unpack_vote_action : Unpack VoteAction := λ _, Panic.
Definition unpack_proposal : Unpack Proposal :=
  external_id ← unpack_digestof;
  n ← get_u8_;
  options ← unpack_of (λ e, DumpOther (InvalidOptionsLength_ e)) (options_new_length n);
  action ← unpack_vote_action;
  mret (mkProposal external_id options action).
Definition pack_vote_proposals (ps : Proposals) : Pack :=
  put_be 8 (wrap 64 (Z.of_nat (length ps))) ▷ pack_all pack_vote_proposal ps.
(** The result of [push] is dropped. *)
Fixpoint unpack_proposals_loop (n : nat) (ps : Proposals) : Unpack Proposals :=
  match n with
  | O => mret ps
  | S n => p ← unpack_proposal; unpack_proposals_loop n (proposals_push ps p).1
  end.
Definition unpack_proposals : Unpack Proposals :=
  size ← get_be 8; unpack_proposals_loop (Z.to_nat size) [].
Definition pack_payload_type (t : PayloadType) : Pack := put_u8 (payload_type_byte t).
Definition unpack_payload_type : Unpack PayloadType :=
  byte ← get_u8_; unpack_of (λ e, DumpOther (InvalidPayloadType e)) (payload_type_try_from byte).
Definition pack_committee_public_keys (keys : list MemberPublicKey) : Pack := λ w,
  len ← lift (as_u8 (length keys));
  (put_u8 len ▷ pack_all (λ k, put_bytes (member_key_to_bytes k)) keys) w.
Definition unpack_committee_public_keys : Unpack (list MemberPublicKey) :=
  size ← get_u8_;
  unpack_n (Z.to_nat size) (
    buf ← get_bytes MEMBER_KEY_LEN;
    unpack_of (λ e, e) (ok_or (member_key_from_bytes buf) (DumpInvalidData InvalidCommitteeKey))).
Definition pack_voting_token (t : TokenIdentifier) : Pack := put_bytes (token_identifier_bytes t).
Definition unpack_voting_token : Unpack TokenIdentifier :=
  policy_hash_bytes ← get_bytes POLICY_HASH_SIZE;
  '(policy_hash, _) ← unpack_of (λ e, DumpInvalidData (InvalidPolicyHash e))
    (policy_hash_read (rb_from policy_hash_bytes));
  token_name_len ← get_u8_;
  token_name ← get_bytes (Z.to_nat token_name_len);
  token_name ← unpack_of (λ e, DumpInvalidData (InvalidTokenName e)) (token_name_try_from token_name);
  mret (mkToken policy_hash token_name).
Definition pack_vote_plan (p : VotePlan) : Pack :=
  pack_block_date (vote_start p) ▷ pack_block_date (vote_end p) ▷ pack_block_date (committee_end p) ▷
  pack_payload_type (vp_payload_type p) ▷ pack_vote_proposals (proposals p) ▷
  pack_committee_public_keys (committee_public_keys p) ▷ pack_voting_token (voting_token p).
Definition unpack_vote_plan : Unpack VotePlan :=
  vote_start ← unpack_block_date;
  vote_end ← unpack_block_date;
  committee_end ← unpack_block_date;
  payload_type ← unpack_payload_type;
  proposals ← unpack_proposals;
  keys ← unpack_committee_public_keys;
  voting_token ← unpack_voting_token;
  mret (mkVotePlan vote_start vote_end committee_end proposals payload_type keys voting_token).

(** ** [iter.rs]: the entries of a ledger *)
Inductive Entry :=
| EntGlobals (g : Globals)
| EntPot (e : PotEntry)
| EntUtxo (e : UtxoEntry Address)
| EntOldUtxo (e : UtxoEntry OldAddress)
| EntAccount (e : Identifier * DumpedAccount)
| EntConfigParam (p : ConfigParam)
| EntUpdateProposal (e : UpdateProposalId * UpdateProposalState)
| EntMultisigAccount (e : KeyHash * DumpedAccount)
| EntMultisigDeclaration (e : KeyHash * Declaration)
| EntStakePool (e : PoolId * PoolState PoolRegistration)
| EntLeaderParticipation (e : PoolId * Z)
| EntVotePlan (p : VotePlan).
Inductive EntryOwned :=
| OwnGlobals (g : Globals)
| OwnPot (e : PotEntry)
| OwnUtxo (e : UtxoEntry Address)
| OwnOldUtxo (e : UtxoEntry OldAddress)
| OwnAccount (e : Identifier * DumpedAccount)
| OwnConfigParam (p : ConfigParam)
| OwnUpdateProposal (e : UpdateProposalId * UpdateProposalState)
| OwnMultisigAccount (e : KeyHash * DumpedAccount)
| OwnMultisigDeclaration (e : KeyHash * Declaration)
| OwnStakePool (e : PoolId * PoolState PoolRegistration)
| OwnLeaderParticipation (e : PoolId * Z)
| OwnVotePlan (p : VotePlan)
| StopEntry.
Definition to_entry (o : EntryOwned) : option Entry :=
  match o with
  | OwnGlobals g => Some (EntGlobals g)
  | OwnPot e => Some (EntPot e)
  | OwnUtxo e => Some (EntUtxo e)
  | OwnOldUtxo e => Some (EntOldUtxo e)
  | OwnAccount e => Some (EntAccount e)
  | OwnConfigParam p => Some (EntConfigParam p)
  | OwnUpdateProposal e => Some (EntUpdateProposal e)
  | OwnMultisigAccount e => Some (EntMultisigAccount e)
  | OwnMultisigDeclaration e => Some (EntMultisigDeclaration e)
  | OwnStakePool e => Some (EntStakePool e)
  | OwnLeaderParticipation e => Some (EntLeaderParticipation e)
  | OwnVotePlan p => Some (EntVotePlan p)
  | StopEntry => None
  end.

(** [LedgerIterator]: the part being walked over, with the iterator of it. *)
Inductive LedgerIterState :=
| ItInitial
| ItUtxo (it : UIter (FragmentId := FragmentId) (OutAddress := Address))
| ItOldUtxo (it : UIter (FragmentId := FragmentId) (OutAddress := OldAddress))
| ItAccounts (it : list (Identifier * DumpedAccount))
| ItConfigParams (params : ConfigParams)
| ItUpdateProposals (it : list (UpdateProposalId * UpdateProposalState))
| ItMultisigAccounts (it : list (KeyHash * DumpedAccount))
| ItMultisigDeclarations (it : list (KeyHash * Declaration))
| ItStakePools (it : list (PoolId * PoolState PoolRegistration))
| ItPots (it : IterState)
| ItLeaderParticipations (it : list (PoolId * Z))
| ItVotePlan (it : list (VotePlanId * VotePlanManager))
| ItDone.
(** What one turn of [next] does: an item, the next state and [self.next()],
    or [None]. *)
Inductive iter_turn := TurnItem (e : Entry) (st : LedgerIterState) | TurnGo (st : LedgerIterState) | TurnDone.
Definition turn_list {A} (item : A → Entry) (mk : list A → LedgerIterState) (after : LedgerIterState)
    (it : list A) : iter_turn :=
  match it with x :: it => TurnItem (item x) (mk it) | [] => TurnGo after end.
Definition ledger_iter_turn (l : Ledger) (st : LedgerIterState) : outcome infallible iter_turn :=
  match st with
  | ItInitial =>
      Ok (TurnItem (EntGlobals (mkGlobals (l_date l) (l_chain_length l) (l_static_params l) (l_era l)))
            (ItUtxo (utxo_iter (l_utxos l))))
  | ItUtxo it =>
      t ← utxo_iter_turn it;
      Ok match t with
         | UDone => TurnGo (ItOldUtxo (utxo_iter (l_oldutxos l)))
         | UItem e it => TurnItem (EntUtxo e) (ItUtxo it)
         | UGo it => TurnGo (ItUtxo it)
         end
  | ItOldUtxo it =>
      t ← utxo_iter_turn it;
      Ok match t with
         | UDone => TurnGo (ItAccounts (map_to_list (l_accounts l)))
         | UItem e it => TurnItem (EntOldUtxo e) (ItOldUtxo it)
         | UGo it => TurnGo (ItOldUtxo it)
         end
  | ItAccounts it => Ok (turn_list EntAccount ItAccounts (ItConfigParams (to_config_params (l_settings l))) it)
  | ItConfigParams params =>
      Ok match last params with
         | Some param => TurnItem (EntConfigParam param) (ItConfigParams (removelast params))
         | None => TurnGo (ItUpdateProposals (map_to_list (l_updates l)))
         end
  | ItUpdateProposals it =>
      Ok (turn_list EntUpdateProposal ItUpdateProposals
            (ItMultisigAccounts (map_to_list (ms_accounts (l_multisig l)))) it)
  | ItMultisigAccounts it =>
      Ok (turn_list EntMultisigAccount ItMultisigAccounts
            (ItMultisigDeclarations (map_to_list (ms_declarations (l_multisig l)))) it)
  | ItMultisigDeclarations it =>
      Ok (turn_list EntMultisigDeclaration ItMultisigDeclarations (ItStakePools (map_to_list (l_delegation l))) it)
  | ItStakePools it => Ok (turn_list EntStakePool ItStakePools (ItPots SFees) it)
  | ItPots it =>
      Ok match entries_next (l_pots l) it with
         | (Some e, it) => TurnItem (EntPot e) (ItPots it)
         | (None, _) => TurnGo (ItLeaderParticipations (map_to_list (leaders_map (l_leaders_log l))))
         end
  | ItLeaderParticipations it =>
      Ok (turn_list EntLeaderParticipation ItLeaderParticipations (ItVotePlan (map_to_list (l_votes l))) it)
  | ItVotePlan it => Ok (turn_list (λ x, EntVotePlan (vpm_plan x.2)) ItVotePlan ItDone it)
  | ItDone => Ok TurnDone
  end.
(** All the items; the fuel bounds the turns, running out is a [Panic]. *)
Fixpoint ledger_iter_collect (fuel : nat) (l : Ledger) (st : LedgerIterState) : outcome infallible (list Entry) :=
  match fuel with
  | O => Panic
  | S fuel =>
      t ← ledger_iter_turn l st;
      match t with
      | TurnItem e st => cons e <$> ledger_iter_collect fuel l st
      | TurnGo st => ledger_iter_collect fuel l st
      | TurnDone => Ok []
      end
  end.

(** [FromIterator]: what the loop over the entries keeps.  The UTXOs are
    grouped by fragment in a [HashMap], whose order is not specified. *)
Record FromIter := mkFromIter {
  fi_utxos : gmap FragmentId (list (TransactionIndex * Output Address));
  fi_oldutxos : gmap FragmentId (list (TransactionIndex * Output OldAddress));
  fi_accounts : list (Identifier * DumpedAccount);
  fi_config_params : ConfigParams;
  fi_updates : UpdateState;
  fi_multisig_accounts : list (KeyHash * DumpedAccount);
  fi_multisig_declarations : list (KeyHash * Declaration);
  fi_delegation : gmap PoolId (PoolState PoolRegistration);
  fi_globals : option Globals;
  fi_pots : Pots;
  fi_leaders_log : LeadersParticipationRecord;
  fi_votes : gmap VotePlanId VotePlanManager }.
Definition from_iter_init : FromIter :=
  mkFromIter ∅ ∅ [] [] update_new [] [] pools_new None pots_zero leaders_new vote_ledger_new.
Definition push_utxo {A} (m : gmap FragmentId (list (TransactionIndex * Output A))) (e : UtxoEntry A) :
    gmap FragmentId (list (TransactionIndex * Output A)) :=
  <[e.1.1 := default [] (m !! e.1.1) ++ [(e.1.2, e.2)]]> m.
(** The result of inserting a stake pool is unwrapped and dropped: the set of
    pools stays as it was. *)
Definition from_iter_step (a : FromIter) (e : Entry) : outcome infallible FromIter :=
  let '(mkFromIter utxos oldutxos accounts params updates maccounts mdecls delegation globals pots log votes) := a in
  match e with
  | EntGlobals g =>
      Ok (mkFromIter utxos oldutxos accounts params updates maccounts mdecls delegation (Some g) pots log votes)
  | EntUtxo e =>
      Ok (mkFromIter (push_utxo utxos e) oldutxos accounts params updates maccounts mdecls delegation globals pots
            log votes)
  | EntOldUtxo e =>
      Ok (mkFromIter utxos (push_utxo oldutxos e) accounts params updates maccounts mdecls delegation globals pots
            log votes)
  | EntAccount e =>
      Ok (mkFromIter utxos oldutxos (accounts ++ [e]) params updates maccounts mdecls delegation globals pots log votes)
  | EntConfigParam p =>
      Ok (mkFromIter utxos oldutxos accounts (params ++ [p]) updates maccounts mdecls delegation globals pots log votes)
  | EntUpdateProposal (id, st) =>
      updates ← unwrap (hm_insert updates id st);
      Ok (mkFromIter utxos oldutxos accounts params updates maccounts mdecls delegation globals pots log votes)
  | EntMultisigAccount e =>
      Ok (mkFromIter utxos oldutxos accounts params updates (maccounts ++ [e]) mdecls delegation globals pots log votes)
  | EntMultisigDeclaration e =>
      Ok (mkFromIter utxos oldutxos accounts params updates maccounts (mdecls ++ [e]) delegation globals pots log votes)
  | EntStakePool (id, st) =>
      unwrap (hm_insert delegation id st) ;;
      Ok (mkFromIter utxos oldutxos accounts params updates maccounts mdecls delegation globals pots log votes)
  | EntPot e =>
      Ok (mkFromIter utxos oldutxos accounts params updates maccounts mdecls delegation globals
            (set_from_entry pots e) log votes)
  | EntLeaderParticipation (id, n) =>
      log ← unwrap (set_for log id n);
      Ok (mkFromIter utxos oldutxos accounts params updates maccounts mdecls delegation globals pots log votes)
  | EntVotePlan p =>
      id ← vote_plan_to_id blake2b_256 p;
      m ← vpm_new blake2b_256 p ∅;
      votes ← unwrap (hm_insert votes id m);
      Ok (mkFromIter utxos oldutxos accounts params updates maccounts mdecls delegation globals pots log votes)
  end.
Definition ledger_from_entries (es : list Entry) : outcome Error Ledger :=
  a ← lift (foldM from_iter_step from_iter_init es);
  globals ← ok_or (fi_globals a) IncompleteLedger;
  utxos ← lift (utxo_from_iter (map_to_list (fi_utxos a)));
  oldutxos ← lift (utxo_from_iter (map_to_list (fi_oldutxos a)));
  settings ← map_err EUpdate (try_apply settings_new (fi_config_params a));
  Ok (mkLedger utxos oldutxos (ledger_from_iter (fi_accounts a)) settings (fi_updates a)
        (multisig_restore (fi_multisig_accounts a) (fi_multisig_declarations a)) (fi_delegation a)
        (gl_static_params globals) (gl_date globals) (gl_chain_length globals) (gl_era globals) (fi_pots a)
        (fi_leaders_log a) (fi_votes a) governance_default ∅).

(** ** The entries on the wire *)
Inductive EntrySerializeCode :=
| CodeGlobals | CodePot | CodeUtxo | CodeOldUtxo | CodeAccount | CodeConfigParam | CodeUpdateProposal
| CodeMultisigAccount | CodeMultisigDeclaration | CodeStakePool | CodeLeaderParticipation | CodeVotePlan
| CodeSerializationEnd.
Definition code_u8 (c : EntrySerializeCode) : Z :=
  match c with
  | CodeGlobals => 0 | CodePot => 1 | CodeUtxo => 2 | CodeOldUtxo => 3 | CodeAccount => 4 | CodeConfigParam => 5
  | CodeUpdateProposal => 6 | CodeMultisigAccount => 7 | CodeMultisigDeclaration => 8 | CodeStakePool => 9
  | CodeLeaderParticipation => 10 | CodeVotePlan => 11 | CodeSerializationEnd => 99
  end.
Definition code_from_u8 (n : Z) : option EntrySerializeCode :=
  match n with
  | 0 => Some CodeGlobals | 1 => Some CodePot | 2 => Some CodeUtxo | 3 => Some CodeOldUtxo | 4 => Some CodeAccount
  | 5 => Some CodeConfigParam | 6 => Some CodeUpdateProposal | 7 => Some CodeMultisigAccount
  | 8 => Some CodeMultisigDeclaration | 9 => Some CodeStakePool | 10 => Some CodeLeaderParticipation
  | 11 => Some CodeVotePlan | 99 => Some CodeSerializationEnd
  | _ => None
  end.
Definition pack_entry (e : Entry) : Pack :=
  match e with
  | EntGlobals e => put_u8 (code_u8 CodeGlobals) ▷ pack_globals e
  | EntPot e => put_u8 (code_u8 CodePot) ▷ pack_pot_entry e
  | EntUtxo e => put_u8 (code_u8 CodeUtxo) ▷ pack_utxo_entry pack_address e
  | EntOldUtxo e => put_u8 (code_u8 CodeOldUtxo) ▷ pack_utxo_entry pack_old_addr e
  | EntAccount (id, st) => put_u8 (code_u8 CodeAccount) ▷ pack_account_identifier id ▷ pack_account_state st
  | EntConfigParam p => put_u8 (code_u8 CodeConfigParam) ▷ pack_config_param p
  | EntUpdateProposal (id, st) =>
      put_u8 (code_u8 CodeUpdateProposal) ▷ pack_update_proposal_id id ▷ pack_update_proposal_state st
  | EntMultisigAccount (id, st) =>
      put_u8 (code_u8 CodeMultisigAccount) ▷ pack_multisig_identifier id ▷ pack_account_state st
  | EntMultisigDeclaration (id, d) =>
      put_u8 (code_u8 CodeMultisigDeclaration) ▷ pack_multisig_identifier id ▷ pack_declaration d
  | EntStakePool (id, st) => put_u8 (code_u8 CodeStakePool) ▷ pack_digestof id ▷ pack_pool_state st
  | EntLeaderParticipation (id, n) => put_u8 (code_u8 CodeLeaderParticipation) ▷ pack_digestof id ▷ put_be 4 n
  | EntVotePlan p => put_u8 (code_u8 CodeVotePlan) ▷ pack_vote_plan p
  end.
Definition unpack_entry_owned : Unpack EntryOwned :=
  code_u8 ← get_u8_;
  match code_from_u8 code_u8 with
  | None => unpack_fail (DumpInvalidData (NotRecognizedEntryCode code_u8))
  | Some CodeGlobals => g ← unpack_globals; mret (OwnGlobals g)
  | Some CodePot => e ← unpack_pot_entry; mret (OwnPot e)
  | Some CodeUtxo => e ← unpack_utxo_entry_owned unpack_address; mret (OwnUtxo e)
  | Some CodeOldUtxo => e ← unpack_utxo_entry_owned unpack_old_addr; mret (OwnOldUtxo e)
  | Some CodeAccount =>
      identifier ← unpack_account_identifier; account ← unpack_account_state; mret (OwnAccount (identifier, account))
  | Some CodeConfigParam => p ← unpack_config_param; mret (OwnConfigParam p)
  | Some CodeUpdateProposal =>
      proposal_id ← unpack_update_proposal_id;
      proposal_state ← unpack_update_proposal_state;
      mret (OwnUpdateProposal (proposal_id, proposal_state))
  | Some CodeMultisigAccount =>
      identifier ← unpack_multisig_identifier;
      account_state ← unpack_account_state;
      mret (OwnMultisigAccount (identifier, account_state))
  | Some CodeMultisigDeclaration =>
      identifier ← unpack_multisig_identifier;
      declaration ← unpack_declaration;
      mret (OwnMultisigDeclaration (identifier, declaration))
  | Some CodeStakePool =>
      pool_id ← unpack_digestof; pool_state ← unpack_pool_state; mret (OwnStakePool (pool_id, pool_state))
  | Some CodeLeaderParticipation =>
      pool_id ← unpack_digestof; v ← get_be 4; mret (OwnLeaderParticipation (pool_id, v))
  | Some CodeVotePlan => p ← unpack_vote_plan; mret (OwnVotePlan p)
  | Some CodeSerializationEnd => mret StopEntry
  end.
(** The loop ends on the stop entry; every entry takes bytes, so their number
    is enough fuel. *)
Fixpoint unpack_entries_loop (fuel : nat) : Unpack (list EntryOwned) :=
  match fuel with
  | O => λ _, Panic
  | S fuel =>
      e ← unpack_entry_owned;
      match e with
      | StopEntry => mret []
      | _ => res ← unpack_entries_loop fuel; mret (e :: res)
      end
  end.
Definition unpack_entries (reader : list Z) : outcome DumpError (list EntryOwned) :=
  '(res, _) ← unpack_entries_loop (S (length reader)) reader; Ok res.

Definition ledger_serialize (fuel : nat) (l : Ledger) : outcome DumpError (list Z) :=
  entries ← lift (ledger_iter_collect fuel l ItInitial);
  (pack_all pack_entry entries ▷ put_u8 (code_u8 CodeSerializationEnd)) [].
(** An error of the collection becomes one of [std::io] with its message. *)
Inductive RecoverError := RecoverIo (e : DumpError) | RecoverOther (e : Error).
Definition ledger_deserialize (reader : list Z) : outcome RecoverError Ledger :=
  owned_entries ← map_err RecoverIo (unpack_entries reader);
  entries ← unwrap_opt (mapM to_entry owned_entries);
  map_err RecoverOther (ledger_from_entries entries).
End recovery.
