(* ===== verification/RecoverySpec.v ===== *)
(** * Packing and unpacking are inverse ([ledger/recovery.rs])

    [packs p u a]: the packer [p] appends some bytes, whatever was written
    before, from which the unpacker [u] takes [a] and leaves what follows.  It
    composes as packers and unpackers do; one lemma for each pair
    [pack_x]/[unpack_x] gives the values that survive. *)
From S2P Require Import Prelude Hamt HamtSpec Codec Value Rewards Time Spending Account SparseArray Utxo Pots Addr Key Multisig MultisigLedger Input Transaction Stake Config ConfigSpec Settings PoolCert PoolCertSpec DelegationCert Tokens Governance VoteCert Votes LeaderLog LedgerState Recovery.
Local Open Scope Z_scope.

(** Inserting one binding after the other. *)
Lemma foldl_insert `{Countable K} {A V} (key : A → K) (val : A → V) xs (m : gmap K V) :
  foldl (λ m x, <[key x := val x]> m) m xs = list_to_map (reverse ((λ x, (key x, val x)) <$> xs)) ∪ m.
Proof.
  revert m. induction xs as [|x xs IH]; intros m; [symmetry; apply (left_id_L ∅ (∪))|].
  cbn [foldl fmap list_fmap]. rewrite IH, reverse_cons, list_to_map_app. cbn [list_to_map foldr].
  rewrite <-map_union_assoc. cbn [fst snd]. rewrite <-insert_union_l. by rewrite (left_id_L ∅ (∪) m).
Qed.
Lemma foldl_insert_nodup `{Countable K} {A V} (key : A → K) (val : A → V) xs :
  NoDup (key <$> xs) →
  foldl (λ m x, <[key x := val x]> m) ∅ xs = (list_to_map ((λ x, (key x, val x)) <$> xs) : gmap K V).
Proof.
  intros Hnd. rewrite foldl_insert, (right_id_L ∅ (∪)).
  assert (((λ x, (key x, val x)) <$> xs).*1 = key <$> xs) as Hkeys by (by rewrite <-list_fmap_compose).
  apply list_to_map_proper; [|apply reverse_Permutation].
  by rewrite fmap_reverse, reverse_Permutation, Hkeys.
Qed.

Definition packs {A} (p : Pack) (u : Unpack A) (a : A) : Prop :=
  ∃ bs, (∀ w, p w = Ok (w ++ bs)) ∧ ∀ post, u (bs ++ post) = Ok (a, post).

Lemma unpack_bind_ok {A B} (u : Unpack A) (f : A → Unpack B) a r r' :
  u r = Ok (a, r') → (u ≫= f) r = f a r'.
Proof. intros Hu. unfold mbind, unpack_bind. by rewrite Hu. Qed.
Lemma packs_then {A B} (p q : Pack) (u : Unpack A) (f : A → Unpack B) a b :
  packs p u a → packs q (f a) b → packs (p ▷ q) (u ≫= f) b.
Proof.
  intros (bp & Hp & Hu) (bq & Hq & Hf). exists (bp ++ bq). split.
  - intros w. unfold pack_then. rewrite Hp. cbn [mbind outcome_bind]. rewrite Hq. by rewrite <-app_assoc.
  - intros post. unfold mbind, unpack_bind. rewrite <-app_assoc, Hu. apply Hf.
Qed.
Lemma packs_map {A B} (p : Pack) (u : Unpack A) (f : A → Unpack B) a b :
  packs p u a → (∀ r, f a r = Ok (b, r)) → packs p (u ≫= f) b.
Proof.
  intros (bp & Hp & Hu) Hf. exists bp. split; [done|]. intros post. unfold mbind, unpack_bind.
  rewrite Hu. apply Hf.
Qed.
Lemma packs_u8 v : packs (put_u8 v) get_u8_ v.
Proof. by exists [v]. Qed.
Lemma codec_get_app n bs r : length bs = n → codec_get n (bs ++ r) = Ok (bs, r).
Proof.
  intros <-. unfold codec_get. rewrite decide_True by (rewrite length_app; lia).
  by rewrite take_app_length, drop_app_length.
Qed.
Lemma unpack_u8 v r : get_u8_ ([v] ++ r) = Ok (v, r).
Proof. done. Qed.
Lemma unpack_be n v r : in_u (8 * Z.of_nat n) v → get_be n (be_bytes n v ++ r) = Ok (v, r).
Proof.
  intros Hv. unfold get_be, codec_get_be. rewrite codec_get_app by apply length_be_bytes.
  cbn [mbind outcome_bind map_err]. by rewrite from_be_bytes.
Qed.
Lemma packs_bytes v n : length v = n → packs (put_bytes v) (get_bytes n) v.
Proof. intros Hv. exists v. split; [done|]. intros post. unfold get_bytes. by rewrite codec_get_app. Qed.
Lemma packs_be n v : in_u (8 * Z.of_nat n) v → packs (put_be n v) (get_be n) v.
Proof.
  intros Hv. exists (be_bytes n v). split; [done|]. intros post. by apply unpack_be.
Qed.
Lemma packs_u32 v : u32_ok v → packs (put_be 4 v) (get_be 4) v.
Proof. apply (packs_be 4). Qed.
Lemma packs_u64 v : u64_ok v → packs (put_be 8 v) (get_be 8) v.
Proof. apply (packs_be 8). Qed.

(** A length prefix of eight bytes. *)
Definition len_ok {A} (l : list A) : Prop := Z.of_nat (length l) < 2 ^ 64.
Lemma packs_len {A B} (l : list A) (q : Pack) (f : nat → Unpack B) b :
  len_ok l → packs q (f (length l)) b →
  packs (put_be 8 (wrap 64 (Z.of_nat (length l))) ▷ q) (size ← get_be 8; f (Z.to_nat size)) b.
Proof.
  intros Hl Hq. unfold len_ok in Hl. rewrite wrap_small by (split; lia).
  eapply packs_then; [apply packs_u64; split; lia|]. by rewrite Nat2Z.id.
Qed.
Lemma packs_sized {B} (v : list Z) (k : list Z → Unpack B) b :
  len_ok v → (∀ r, k v r = Ok (b, r)) →
  packs (put_be 8 (wrap 64 (Z.of_nat (length v))) ▷ put_bytes v)
    (size ← get_be 8; bytes ← get_bytes (Z.to_nat size); k bytes) b.
Proof.
  intros Hl Hk. apply (packs_len v (put_bytes v) (λ n, bytes ← get_bytes n; k bytes)); [done|].
  eapply packs_map; [by apply packs_bytes|done].
Qed.
Lemma pack_all_nil {A} (p : A → Pack) w : pack_all p [] w = Ok (w ++ []).
Proof. unfold pack_all. cbn. by rewrite app_nil_r. Qed.
Lemma packs_all {A} (p : A → Pack) (u : Unpack A) xs :
  (∀ x, x ∈ xs → packs (p x) u x) → packs (pack_all p xs) (unpack_n (length xs) u) xs.
Proof.
  induction xs as [|x xs IH]; intros Hx.
  { exists []. split; [apply pack_all_nil|done]. }
  assert (packs (p x ▷ pack_all p xs) (unpack_n (length (x :: xs)) u) (x :: xs)) as Hp; [|exact Hp].
  cbn [length unpack_n]. eapply packs_then; [apply Hx; by left|]. eapply packs_map; [|done].
  apply IH. intros y Hy. apply Hx. by right.
Qed.
Lemma reads_front {A} (r : Reader A) a bs : reads r a bs → ∃ b, r (rb_from bs) = Ok (a, b).
Proof.
  intros Hr. eexists. rewrite reads_at in Hr. specialize (Hr [] []). rewrite app_nil_r in Hr. exact Hr.
Qed.
Lemma unpack_read_ok {A} f (read : Reader A) a bs r :
  reads read a bs → unpack_read f read bs r = Ok (a, r).
Proof.
  intros [b Hb]%reads_front. unfold unpack_read, mbind, unpack_bind, unpack_of. by rewrite Hb.
Qed.

Create HintDb dump.
#[export] Hint Resolve packs_u8 packs_u32 packs_u64 packs_bytes : dump.
(** Walks over a sequence of packers and unpackers. *)
Ltac packs_seq :=
  repeat (eapply packs_then; [solve [eauto with dump]|]);
  try (eapply packs_map; [solve [eauto with dump]|by intros ?]).

(** ** Identifiers *)
Lemma packs_digestof d : length d = 32%nat → packs (pack_digestof d) unpack_digestof d.
Proof.
  intros Hd. apply (packs_sized d (λ bytes, if (length bytes =? HASH_SIZE)%nat then mret bytes else _)).
  - unfold len_ok. rewrite Hd. done.
  - intros r. by rewrite Hd.
Qed.
Lemma packs_discrimination d : packs (pack_discrimination d) unpack_discrimination d.
Proof. destruct d; (eapply packs_map; [apply packs_u8|done]). Qed.
Lemma packs_account_identifier id :
  length id = 32%nat → packs (pack_account_identifier id) unpack_account_identifier id.
Proof.
  intros Hid. eapply packs_map; [by apply packs_bytes|]. intros r.
  by apply unpack_read_ok, reads_public_key.
Qed.
Lemma packs_hash h : length h = 32%nat → packs (hash_serialize h) hash_deserialize h.
Proof. intros. by apply packs_bytes. Qed.
Lemma packs_bft_leader id :
  length id = 32%nat → packs (bft_leader_id_serialize id) bft_leader_id_deserialize id.
Proof.
  intros Hid. eapply packs_map; [by apply packs_bytes|]. intros r.
  by apply unpack_read_ok, reads_public_key.
Qed.
#[export] Hint Resolve packs_digestof packs_discrimination packs_account_identifier packs_hash packs_bft_leader : dump.

(** ** Accounts *)
Lemma new_from_counters_back s : spending_ok s → new_from_counters (nexts s) = Some s.
Proof.
  intros [Hlen Hlane]. unfold new_from_counters. rewrite (proj2 (Nat.eqb_eq _ _) Hlen).
  assert (forallb (λ p, (lane p.2 =? p.1)%nat) (imap pair (nexts s)) = true) as ->; [|by destruct s].
  apply forallb_forall. intros [i c] Hin%list_elem_of_In%list_elem_of_lookup_1. destruct Hin as [j Hj].
  rewrite list_lookup_imap in Hj. destruct (nexts s !! j) as [c'|] eqn:Hc; [|done].
  injection Hj as <- <-. apply Nat.eqb_eq. by apply Hlane.
Qed.
Lemma packs_spending s : spending_ok s → packs (pack_spending_strategy s) unpack_spending_strategy s.
Proof.
  intros Hs. eapply packs_map.
  - destruct Hs as [<- Hs]. apply packs_all. intros c [i Hi]%list_elem_of_lookup_1.
    apply packs_u32. by eapply Hs.
  - intros r. unfold unpack_of. by rewrite new_from_counters_back.
Qed.
Definition ratio_dumpable (r : DelegationRatio PoolId) : Prop :=
  delegation_ratio_is_valid r = true ∧ Forall (λ pu, length pu.1 = 32%nat) (dr_pools r).
Definition delegation_dumpable (d : DelegationType PoolId) : Prop :=
  match d with
  | NonDelegated => True
  | DFull id => length id = 32%nat
  | DRatio r => ratio_dumpable r
  end.
Lemma packs_delegation_ratio r :
  ratio_dumpable r → packs (pack_delegation_ratio r) unpack_delegation_ratio r.
Proof.
  destruct r as [parts pools]. intros [Hv Hids]. cbn [dr_pools] in Hids.
  unfold delegation_ratio_is_valid in Hv. cbn [dr_parts dr_pools] in Hv.
  eapply packs_then; [apply packs_u8|]. cbn [dr_parts dr_pools].
  apply (packs_len pools _ (λ n, pools ← unpack_n n _; _)).
  { unfold len_ok. rewrite !andb_true_iff in Hv. destruct Hv as [[_ Hl%Nat.leb_le] _].
    unfold DELEGATION_RATIO_MAX_DECLS in Hl. change (2 ^ 64) with 18446744073709551616. lia. }
  eapply packs_map.
  - apply (packs_all (λ pu : PoolId * Z, put_u8 pu.2 ▷ pack_pool_id pu.1)). intros [id u] Hin.
    rewrite Forall_forall in Hids. specialize (Hids _ Hin).
    eapply packs_then; [apply packs_u8|]. eapply packs_map; [by apply packs_digestof|done].
  - intros r. unfold delegation_ratio_new. by rewrite Hv.
Qed.
Lemma packs_delegation_type d :
  delegation_dumpable d → packs (pack_delegation_type d) unpack_delegation_type d.
Proof.
  destruct d as [|id|r]; intros Hd.
  - eapply packs_map; [apply packs_u8|done].
  - eapply packs_then; [apply packs_u8|]. eapply packs_map; [by apply packs_digestof|done].
  - eapply packs_then; [apply packs_u8|]. eapply packs_map; [by apply packs_delegation_ratio|done].
Qed.
#[export] Hint Resolve packs_spending packs_delegation_type : dump.
Lemma packs_last_rewards l :
  u32_ok (lr_epoch l) → u64_ok (lr_reward l) → packs (pack_last_rewards l) unpack_last_rewards l.
Proof. destruct l. intros He Hr. unfold pack_last_rewards, unpack_last_rewards. packs_seq. Qed.
#[export] Hint Resolve packs_last_rewards : dump.

(** What is in its range in the state of an account, and what is left of it:
    the tokens are not dumped. *)
Definition account_dumpable (st : DumpedAccount) : Prop :=
  spending_ok (spending st) ∧ delegation_dumpable (delegation st) ∧ u64_ok (st_value st) ∧
  u32_ok (lr_epoch (last_rewards st)) ∧ u64_ok (lr_reward (last_rewards st)).
Definition account_kept (st : DumpedAccount) : DumpedAccount :=
  mkState (spending st) (delegation st) (st_value st) ∅ (last_rewards st) ().
(** [packs_as p u a b]: what is packed of [a] is unpacked as [b]. *)
Lemma packs_account_state st :
  account_dumpable st → packs (pack_account_state st) unpack_account_state (account_kept st).
Proof.
  destruct st. intros (Hs & Hd & Hv & He & Hr). cbn in *. unfold pack_account_state, unpack_account_state.
  packs_seq.
Qed.
#[export] Hint Resolve packs_account_state : dump.

(** ** Declarations *)
Fixpoint decl_dumpable (d : Declaration) : Prop :=
  match d with
  | mkDecl _ owners =>
      len_ok owners ∧
      (fix go (os : list DeclElement) : Prop :=
         match os with [] => True | o :: os => decl_element_dumpable o ∧ go os end) owners
  end
with decl_element_dumpable (o : DeclElement) : Prop :=
  match o with DSub d => decl_dumpable d | DOwner hash => length hash = HASH_SIZE end.

Fixpoint decl_nested_ind (P : Declaration → Prop) (Q : DeclElement → Prop)
    (Hd : ∀ t os, Forall Q os → P (mkDecl t os)) (Hs : ∀ d, P d → Q (DSub d)) (Ho : ∀ h, Q (DOwner h))
    (d : Declaration) : P d :=
  match d with
  | mkDecl t os =>
      Hd t os ((fix go (os : list DeclElement) : Forall Q os :=
                  match os with
                  | [] => Forall_nil_2 Q
                  | DSub d :: os => Forall_cons_2 Q (DSub d) os (Hs d (decl_nested_ind P Q Hd Hs Ho d)) (go os)
                  | DOwner h :: os => Forall_cons_2 Q (DOwner h) os (Ho h) (go os)
                  end) os)
  end.

(** The bytes of a declaration, and that fuel above their number is enough. *)
Definition decl_packs (d : Declaration) : Prop :=
  decl_dumpable d → ∃ bs, (∀ w, pack_declaration d w = Ok (w ++ bs)) ∧
    ∀ fuel post, (length bs < fuel)%nat → unpack_declaration_fuel fuel (bs ++ post) = Ok (d, post).
Definition element_packs (o : DeclElement) : Prop :=
  decl_element_dumpable o → ∃ bs, (∀ w, pack_decl_element o w = Ok (w ++ bs)) ∧
    ∀ fuel post, (length bs ≤ fuel)%nat →
      unpack_decl_element_of (unpack_declaration_fuel fuel) (bs ++ post) = Ok (o, post).

Lemma elements_packs os :
  Forall element_packs os → Forall decl_element_dumpable os →
  ∃ bs, (∀ w, pack_all pack_decl_element os w = Ok (w ++ bs)) ∧
    ∀ fuel post, (length bs ≤ fuel)%nat →
      unpack_n (length os) (unpack_decl_element_of (unpack_declaration_fuel fuel)) (bs ++ post) = Ok (os, post).
Proof.
  induction 1 as [|o os Ho Hos IH]; intros Hd.
  { exists []. split; [apply pack_all_nil|done]. }
  apply Forall_cons in Hd as [Hdo Hd]. destruct (Ho Hdo) as (b1 & Hp1 & Hu1).
  destruct (IH Hd) as (b2 & Hp2 & Hu2). exists (b1 ++ b2). split.
  - intros w. unfold pack_all. cbn [foldM]. rewrite Hp1. cbn [mbind outcome_bind].
    unfold pack_all in Hp2. rewrite Hp2. by rewrite app_assoc.
  - intros fuel post Hl. rewrite length_app in Hl. cbn [length unpack_n]. rewrite <-app_assoc.
    erewrite unpack_bind_ok by (apply Hu1; lia). by erewrite unpack_bind_ok by (apply Hu2; lia).
Qed.

Lemma pack_elements_loop os w :
  (fix go (os : list DeclElement) (w : list Z) : outcome DumpError (list Z) :=
     match os with [] => Ok w | o :: os => w ← pack_decl_element o w; go os w end) os w
  = pack_all pack_decl_element os w.
Proof.
  revert w. induction os as [|o os IH]; intros w; [done|]. unfold pack_all. cbn [foldM].
  destruct (pack_decl_element o w); cbn [mbind outcome_bind]; [apply IH|done..].
Qed.
Lemma decl_dumpable_elements os :
  (fix go (os : list DeclElement) : Prop :=
     match os with [] => True | o :: os => decl_element_dumpable o ∧ go os end) os →
  Forall decl_element_dumpable os.
Proof. induction os as [|o os IH]; [constructor|]. intros [? ?]. constructor; auto. Qed.

Lemma decl_packs_all d : decl_packs d.
Proof.
  revert d. apply (decl_nested_ind decl_packs element_packs).
  - intros t os Hos [Hl Hd%decl_dumpable_elements]. destruct (elements_packs os Hos Hd) as (bs & Hp & Hu).
    exists ([t] ++ be_bytes 8 (wrap 64 (Z.of_nat (length os))) ++ bs). split.
    + intros w. cbn [pack_declaration]. unfold pack_then, put_u8, put_be, codec_put_u8, codec_put_be.
      cbn [mbind outcome_bind]. rewrite pack_elements_loop, Hp. by rewrite <-!app_assoc.
    + intros fuel post Hf. rewrite !length_app, length_be_bytes in Hf. destruct fuel as [|fuel]; [lia|].
      unfold len_ok in Hl. rewrite wrap_small by (split; lia). cbn [unpack_declaration_fuel length] in *.
      rewrite <-!app_assoc. erewrite unpack_bind_ok by apply (unpack_u8 t).
      erewrite unpack_bind_ok by (apply unpack_be; split; lia). rewrite Nat2Z.id.
      by erewrite unpack_bind_ok by (apply Hu; lia).
  - intros d Hd Hdump. destruct (Hd Hdump) as (bs & Hp & Hu). exists ([0] ++ bs). split.
    + intros w. cbn [pack_decl_element]. unfold pack_then, put_u8, codec_put_u8.
      cbn [mbind outcome_bind]. rewrite Hp. by rewrite <-app_assoc.
    + intros fuel post Hf. cbn [length app] in Hf. unfold unpack_decl_element_of. rewrite <-app_assoc.
      erewrite unpack_bind_ok by apply (unpack_u8 0). cbv beta iota. by erewrite unpack_bind_ok by (apply Hu; lia).
  - intros h Hh. exists ([1] ++ h). split.
    + intros w. cbn [pack_decl_element]. unfold pack_then, put_u8, codec_put_u8, hash_serialize, put_bytes, codec_put_bytes.
      cbn [mbind outcome_bind]. by rewrite <-app_assoc.
    + intros fuel post _. unfold unpack_decl_element_of. rewrite <-app_assoc.
      erewrite unpack_bind_ok by apply (unpack_u8 1). cbv beta iota. erewrite unpack_bind_ok; [done|].
      unfold hash_deserialize, get_bytes. by rewrite codec_get_app.
Qed.
Lemma packs_declaration d : decl_dumpable d → packs (pack_declaration d) unpack_declaration d.
Proof.
  intros (bs & Hp & Hu)%decl_packs_all. exists bs. split; [done|]. intros post. unfold unpack_declaration.
  apply Hu. rewrite length_app. lia.
Qed.
#[export] Hint Resolve packs_declaration : dump.

(** ** Pools *)
Lemma concat_length_32 (l : list (list Z)) :
  Forall (λ k, length k = 32%nat) l → length (concat l) = (32 * length l)%nat.
Proof. induction 1; [done|]. cbn [concat length]. rewrite length_app. lia. Qed.
Lemma tax_payload_length t : (length (tax_to_payload t) ≤ 32)%nat.
Proof.
  destruct t as [fixed r lim]. unfold tax_to_payload, tax_serialize_in, bb_u64, bb_finalize_as_vec. cbn [bb_buffer].
  destruct lim; cbn; rewrite ?length_app, ?length_be_bytes; cbn; lia.
Qed.

Section pools.
Context `{GroupEncoding}.
Definition pool_dumpable (st : PoolState PoolRegistration) : Prop :=
  pool_reg_ok (registration st) ∧ u32_ok (pr_epoch (pool_rewards st)) ∧
  u64_ok (value_taxed (pool_rewards st)) ∧ u64_ok (value_for_stakers (pool_rewards st)).
Lemma pool_reg_serialize_ok r : pool_reg_ok r → pool_reg_serialize r = Ok (pool_reg_bytes r).
Proof.
  intros Hr. unfold pool_reg_serialize. rewrite pool_reg_serialize_bytes by apply Hr.
  cbn [mbind outcome_bind]. unfold bb_finalize, bb_new, bb_bytes. cbn. done.
Qed.
Lemma pool_reg_bytes_length r : pool_reg_ok r → Z.of_nat (length (pool_reg_bytes r)) ≤ 20000.
Proof.
  intros (_ & _ & _ & [Ho Hol] & [Hp Hpl] & _ & _ & Ha & Hk & Hv & _). unfold pool_reg_bytes.
  rewrite !length_app, !length_be_bytes, !concat_length_32 by done. cbn [length].
  pose proof (tax_payload_length (pool_tax r)).
  assert (length (reward_account_bytes (reward_account r)) ≤ 33)%nat.
  { unfold account_id_ok in Ha. destruct (reward_account r) as [[pk|pk]|]; cbn; rewrite ?Ha; lia. }
  lia.
Qed.
Lemma packs_pool_registration r :
  pool_reg_ok r → packs (pack_pool_registration r) unpack_pool_registration r.
Proof.
  intros Hr. assert (packs (put_be 8 (wrap 64 (Z.of_nat (length (pool_reg_bytes r)))) ▷ put_bytes (pool_reg_bytes r))
    unpack_pool_registration r) as (bs & Hp & Hu).
  { apply packs_sized.
    - unfold len_ok. pose proof (pool_reg_bytes_length r Hr). change (2 ^ 64) with 18446744073709551616. lia.
    - intros post. by apply unpack_read_ok, reads_pool_reg. }
  exists bs. split; [|done]. intros w. unfold pack_pool_registration. rewrite pool_reg_serialize_ok by done.
  cbn [lift mbind outcome_bind]. apply Hp.
Qed.
Hint Resolve packs_pool_registration : dump.
Lemma packs_pool_last_rewards l :
  u32_ok (pr_epoch l) → u64_ok (value_taxed l) → u64_ok (value_for_stakers l) →
  packs (pack_pool_last_rewards l) unpack_pool_last_rewards l.
Proof. destruct l. intros. unfold pack_pool_last_rewards, unpack_pool_last_rewards. packs_seq. Qed.
Hint Resolve packs_pool_last_rewards : dump.
Lemma packs_pool_state st : pool_dumpable st → packs (pack_pool_state st) unpack_pool_state st.
Proof. destruct st. intros (? & ? & ? & ?). unfold pack_pool_state, unpack_pool_state. packs_seq. Qed.
End pools.
#[export] Hint Resolve packs_pool_state : dump.

(** ** Configuration parameters and update proposals *)
Lemma pack_config_param_ok p w : config_ok p → pack_config_param p w = Ok (w ++ config_bytes p).
Proof. intros Hp. unfold pack_config_param. by destruct (config_serialize_ok p Hp) as [-> _]. Qed.
Lemma packs_config_param p : config_ok p → packs (pack_config_param p) unpack_config_param p.
Proof.
  intros Hp. destruct (config_serialize_ok p Hp) as [Hs _]. exists (config_bytes p). split.
  - intros w. by apply pack_config_param_ok.
  - intros post. unfold unpack_config_param.
    destruct (config_params_roundtrip [] p post) as (_ & (bytes & Hb & Hd) & _);
      [by apply Forall_singleton|done|].
    rewrite Hs in Hb. injection Hb as <-. by rewrite Hd.
Qed.
Lemma packs_config_params ps :
  Forall config_ok ps → Z.of_nat (length ps) < 2 ^ 16 →
  packs (λ w, bytes ← map_err dump_of_config_io (config_params_serialize ps); put_bytes bytes w)
    config_params_deserialize ps.
Proof.
  intros Hps Hl.
  assert (packs (put_be 2 (Z.of_nat (length ps)) ▷ pack_all pack_config_param ps)
            config_params_deserialize ps) as (bs & Hp & Hu).
  { eapply packs_then; [apply (packs_be 2); split; lia|]. cbv beta. rewrite Nat2Z.id.
    apply packs_all. intros p Hin. apply packs_config_param. by eapply (proj1 (Forall_forall _ _)). }
  exists bs. split; [|done]. intros w. specialize (Hp []). unfold config_params_serialize.
  rewrite wrap_small by (split; lia). rewrite config_serialize_all by done.
  cbn [map_err mbind outcome_bind]. unfold put_bytes, codec_put_bytes. do 2 f_equal.
  assert (∀ w, pack_all pack_config_param ps w = Ok (w ++ concat (config_bytes <$> ps))) as Hall.
  { clear Hp Hu Hl. induction Hps as [|p ps Hok Hps IH]; intros v; unfold pack_all; cbn [foldM].
    { cbn. by rewrite app_nil_r. }
    rewrite pack_config_param_ok by done. cbn [mbind outcome_bind].
    unfold pack_all in IH. rewrite IH. cbn [fmap list_fmap concat]. by rewrite app_assoc. }
  unfold pack_then, put_be in Hp. cbn [mbind outcome_bind] in Hp. rewrite Hall in Hp. by injection Hp.
Qed.
#[export] Hint Resolve packs_config_params : dump.
(** The payload of a linear fee has no room for the fees per certificate. *)
Definition config_kept (p : ConfigParam) : ConfigParam :=
  match p with
  | PLinearFee f => PLinearFee (linear_fee_new (constant f) (coefficient f) (certificate f))
  | _ => p
  end.
Lemma packs_config_kept p :
  config_ok (config_kept p) → packs (pack_config_param p) unpack_config_param (config_kept p).
Proof.
  intros Hp. destruct (packs_config_param _ Hp) as (bs & Hs & Hu). exists bs. split; [|done].
  intros w. rewrite <-Hs. by destruct p.
Qed.

Definition proposal_dumpable (st : UpdateProposalState) : Prop :=
  Forall config_ok (changes (proposal st)) ∧ Z.of_nat (length (changes (proposal st))) < 2 ^ 16 ∧
  length (proposer_id (proposal st)) = 32%nat ∧
  u32_ok (date_epoch (proposal_date st)) ∧ u32_ok (date_slot_id (proposal_date st)) ∧
  len_ok (map_to_list (votes st)) ∧ map_Forall (λ id _, length id = 32%nat) (votes st).
Lemma packs_block_date d :
  u32_ok (date_epoch d) → u32_ok (date_slot_id d) → packs (pack_block_date d) unpack_block_date d.
Proof. destruct d. intros. unfold pack_block_date, unpack_block_date. packs_seq. Qed.
#[export] Hint Resolve packs_block_date : dump.
Lemma packs_update_proposal p :
  Forall config_ok (changes p) → Z.of_nat (length (changes p)) < 2 ^ 16 → length (proposer_id p) = 32%nat →
  packs (pack_update_proposal p) unpack_update_proposal p.
Proof.
  destruct p. intros. unfold pack_update_proposal, unpack_update_proposal, update_proposal_serialize, update_proposal_deserialize.
  packs_seq.
Qed.
#[export] Hint Resolve packs_update_proposal : dump.

Lemma packs_voters ids m :
  NoDup ids → Forall (λ id, length id = 32%nat ∧ m !! id = None) ids →
  packs (pack_all bft_leader_id_serialize ids) (unpack_voters (length ids) m)
    (foldl (λ m id, <[id := ()]> m) m ids).
Proof.
  intros Hnd. revert m. induction Hnd as [|id ids Hnin Hnd IH]; intros m Hids.
  { exists []. split; [apply pack_all_nil|done]. }
  apply Forall_cons in Hids as [[Hid Hm] Hids].
  assert (packs (bft_leader_id_serialize id ▷ pack_all bft_leader_id_serialize ids)
    (unpack_voters (length (id :: ids)) m) (foldl (λ m id, <[id := ()]> m) (<[id := ()]> m) ids)) as Hp; [|exact Hp].
  cbn [length unpack_voters]. eapply packs_then; [by apply packs_bft_leader|].
  destruct (IH (<[id := ()]> m)) as (bs & Hp & Hu).
  { eapply Forall_impl; [apply Forall_and; split; [exact Hids|]|].
    - apply Forall_forall. intros id' Hin. assert (id' ≠ id) as Hne by (by intros ->). exact Hne.
    - cbn. intros id' [[? ?] Hne]. by rewrite lookup_insert_ne by done. }
  exists bs. split; [done|]. intros post. unfold mbind, unpack_bind, unpack_of, hm_insert. rewrite Hm.
  apply Hu.
Qed.
Lemma voters_back (m : gmap UpdateVoterId unit) :
  foldl (λ m id, <[id := ()]> m) ∅ (map_to_list m).*1 = m.
Proof.
  rewrite (foldl_insert_nodup (λ id, id) (λ _, ())).
  - rewrite <-list_fmap_compose. rewrite <-(list_to_map_to_list m) at 2. f_equal.
    rewrite <-(list_fmap_id (map_to_list m)) at 2. apply list_fmap_ext. by intros _ [? []] _.
  - rewrite list_fmap_id. apply NoDup_fst_map_to_list.
Qed.
Lemma packs_update_proposal_state st :
  proposal_dumpable st → packs (pack_update_proposal_state st) unpack_update_proposal_state st.
Proof.
  destruct st as [p d vs]. intros (Hc & Hcl & Hpid & He & Hs & Hl & Hvs). cbn [proposal proposal_date votes] in *.
  unfold pack_update_proposal_state, unpack_update_proposal_state. cbn [proposal proposal_date votes].
  eapply packs_then; [by apply packs_update_proposal|]. eapply packs_then; [by apply packs_block_date|].
  assert (size vs = length (map_to_list vs).*1) as -> by (by rewrite length_fmap, length_map_to_list).
  apply (packs_len _ _ (λ n, votes ← unpack_voters n ∅; mret (mkProposalState p d votes))).
  { unfold len_ok in *. by rewrite length_fmap. }
  eapply packs_map; [apply packs_voters|].
  - apply NoDup_fst_map_to_list.
  - apply Forall_forall. intros id ([id' []] & -> & Hin%elem_of_map_to_list)%list_elem_of_fmap.
    split; [by eapply (Hvs id' ())|apply lookup_empty].
  - intros r. by rewrite voters_back.
Qed.
#[export] Hint Resolve packs_update_proposal_state : dump.

(** ** Pots, UTXOs, globals *)
Definition pot_entry_dumpable (e : PotEntry) : Prop := u64_ok (entry_value e).
Lemma packs_pot_entry e : pot_entry_dumpable e → packs (pack_pot_entry e) unpack_pot_entry e.
Proof.
  destruct e as [v|v|v]; intros Hv; (eapply packs_then; [apply packs_u8|]);
    (eapply packs_map; [by apply packs_u64|done]).
Qed.

Definition output_dumpable {A} (address_dumpable : A → Prop) (o : Output A) : Prop :=
  address_dumpable (out_address o) ∧ u64_ok (out_value o).
Definition utxo_entry_dumpable {A} (address_dumpable : A → Prop) (e : UtxoEntry A) : Prop :=
  length e.1.1 = 32%nat ∧ output_dumpable address_dumpable e.2.
Lemma packs_utxo_entry {A} (p : A → Pack) (u : Unpack A) (ok : A → Prop) e :
  (∀ a, ok a → packs (p a) u a) → utxo_entry_dumpable ok e →
  packs (pack_utxo_entry p e) (unpack_utxo_entry_owned u) e.
Proof.
  destruct e as [[id i] [a v]]. intros Ha (Hid & Hok & Hv). cbn in *.
  eapply packs_then; [by apply packs_bytes|]. eapply packs_then; [apply packs_u8|].
  eapply (packs_map _ _ _ (mkOutput a v)).
  - eapply packs_then; [by apply Ha|]. eapply packs_map; [by apply packs_u64|done].
  - intros r. unfold mret, unpack_ret. cbn. by rewrite Nat2Z.id.
Qed.
Lemma to_bytes_length a : kind_ok (kind a) → (length (to_bytes a) ≤ 65)%nat.
Proof.
  intros Hk. rewrite to_bytes_eq. unfold kind_ok in Hk. cbn [length].
  destruct (kind a); cbn [kind_bytes]; rewrite ?length_app; lia.
Qed.
Definition address_dumpable (a : Address) : Prop := kind_ok (kind a).
Lemma packs_address a : address_dumpable a → packs (pack_address a) unpack_address a.
Proof.
  intros Hk. apply (packs_sized (to_bytes a) (λ v, unpack_of (λ e, DumpOther (ReadingAddress e)) (from_bytes v))).
  - unfold len_ok. pose proof (to_bytes_length a Hk). change (2 ^ 64) with 18446744073709551616. lia.
  - intros r. unfold unpack_of. by rewrite from_bytes_ok.
Qed.

Section recovery.
Context `{Crypto} `{Election} `{GroupEncoding}.
Context (old_address_new : list Z → OldAddress).
Context (old_address_back : ∀ a, old_address_new (old_address_bytes a) = a).
Set Default Proof Using "Type*".

Definition old_address_dumpable (a : OldAddress) : Prop := len_ok (old_address_bytes a).
Lemma packs_old_addr a : old_address_dumpable a → packs (pack_old_addr a) (unpack_old_addr old_address_new) a.
Proof.
  intros Ha. apply (packs_sized (old_address_bytes a) (λ v, mret (old_address_new v))); [done|].
  intros r. by rewrite old_address_back.
Qed.

Definition static_dumpable (p : LedgerStaticParameters) : Prop :=
  length (block0_initial_hash p) = HASH_SIZE ∧ u64_ok (block0_start_time p) ∧ u32_ok (kes_update_speed p).
Lemma packs_static p :
  static_dumpable p → packs (pack_ledger_static_parameters p) unpack_ledger_static_parameters p.
Proof.
  destruct p. intros (? & ? & ?). unfold pack_ledger_static_parameters, unpack_ledger_static_parameters.
  eapply packs_then; [by apply packs_hash|]. packs_seq.
Qed.
Definition globals_dumpable (g : Globals) : Prop :=
  u32_ok (date_epoch (gl_date g)) ∧ u32_ok (date_slot_id (gl_date g)) ∧ u32_ok (gl_chain_length g) ∧
  static_dumpable (gl_static_params g) ∧ era_ok (gl_era g).
Lemma packs_era e :
  era_ok e → packs (λ w, Ok (pack_time_era e w)) (λ r, map_err (λ _, DumpEof) (unpack_time_era r)) e.
Proof.
  intros He. exists (pack_time_era e []). split.
  - intros w. unfold pack_time_era, codec_put_be. by rewrite !app_nil_l, <-!app_assoc.
  - intros post. by rewrite time_era_codec_roundtrip.
Qed.
Lemma packs_globals g : globals_dumpable g → packs (pack_globals g) unpack_globals g.
Proof.
  destruct g. intros (? & ? & ? & ? & ?). unfold pack_globals, unpack_globals.
  eapply packs_then; [by apply packs_block_date|]. eapply packs_then; [by apply packs_u32|].
  eapply packs_then; [by apply packs_static|]. eapply packs_map; [by apply packs_era|done].
Qed.

(** ** Vote plans *)
Definition token_dumpable (t : TokenIdentifier) : Prop :=
  length (policy_hash t) = POLICY_HASH_SIZE ∧ token_name_ok (token_name t).
Definition member_key_dumpable (k : MemberPublicKey) : Prop :=
  length (member_key_to_bytes k) = MEMBER_KEY_LEN ∧ member_key_from_bytes (member_key_to_bytes k) = Some k.
Definition proposal_header_dumpable (p : Proposal) : Prop :=
  length (external_id p) = 32%nat ∧ 0 < options_end (prop_options p) ≤ NUM_CHOICES_MAX.
Definition plan_dumpable (p : VotePlan) : Prop :=
  (u32_ok (date_epoch (vote_start p)) ∧ u32_ok (date_slot_id (vote_start p))) ∧
  (u32_ok (date_epoch (vote_end p)) ∧ u32_ok (date_slot_id (vote_end p))) ∧
  (u32_ok (date_epoch (committee_end p)) ∧ u32_ok (date_slot_id (committee_end p))) ∧
  len_ok (proposals p) ∧ Forall proposal_header_dumpable (proposals p) ∧
  Z.of_nat (length (committee_public_keys p)) ≤ 255 ∧ Forall member_key_dumpable (committee_public_keys p) ∧
  token_dumpable (voting_token p).
Lemma packs_payload_type t : packs (pack_payload_type t) unpack_payload_type t.
Proof. destruct t; (eapply packs_map; [apply packs_u8|done]). Qed.
Lemma packs_committee_keys ks :
  Z.of_nat (length ks) ≤ 255 → Forall member_key_dumpable ks →
  packs (pack_committee_public_keys ks) unpack_committee_public_keys ks.
Proof.
  intros Hl Hks.
  assert (packs (put_u8 (Z.of_nat (length ks)) ▷ pack_all (λ k, put_bytes (member_key_to_bytes k)) ks)
    unpack_committee_public_keys ks) as (bs & Hp & Hu).
  { eapply packs_then; [apply packs_u8|]. cbv beta. rewrite Nat2Z.id. apply packs_all. intros k Hk.
    rewrite Forall_forall in Hks. destruct (Hks k Hk) as [Hlen Hback].
    eapply packs_map; [by apply packs_bytes|]. intros r. unfold unpack_of. by rewrite Hback. }
  exists bs. split; [|done]. intros w. unfold pack_committee_public_keys.
  assert (as_u8 (length ks) = Ok (Z.of_nat (length ks))) as ->; [|apply Hp].
  unfold as_u8. by rewrite (proj2 (Nat.ltb_lt _ _)) by lia.
Qed.
Lemma packs_voting_token t : token_dumpable t → packs (pack_voting_token t) unpack_voting_token t.
Proof.
  destruct t as [h n]. intros [Hh Hn]. cbn [policy_hash token_name] in *. unfold token_name_ok, TOKEN_NAME_MAX_SIZE in Hn.
  assert (packs (put_bytes h ▷ put_u8 (Z.of_nat (length n)) ▷ put_bytes n) unpack_voting_token (mkToken h n)) as (bs & Hp & Hu).
  { eapply packs_then; [by apply packs_bytes|].
    assert (∀ r, unpack_of (λ e, DumpInvalidData (InvalidPolicyHash e)) (policy_hash_read (rb_from h)) r
      = Ok ((h, mkReadBuf POLICY_HASH_SIZE h), r)) as Hread.
    { intros r. unfold unpack_of. pose proof (reads_policy_hash h Hh) as Hrd. rewrite reads_at in Hrd.
      specialize (Hrd [] []). rewrite app_nil_r in Hrd. unfold rb_at in Hrd. cbn in Hrd.
      change (rb_from h) with (mkReadBuf 0 h). rewrite Hrd, app_nil_r, Hh. done. }
    destruct (packs_then (put_u8 (Z.of_nat (length n))) (put_bytes n) get_u8_
      (λ token_name_len, token_name ← get_bytes (Z.to_nat token_name_len);
         token_name ← unpack_of (λ e, DumpInvalidData (InvalidTokenName e)) (token_name_try_from token_name);
         mret (mkToken h token_name)) (Z.of_nat (length n)) (mkToken h n)) as (bs & Hp & Hu).
    - apply packs_u8.
    - cbv beta. rewrite Nat2Z.id. eapply packs_map; [by apply packs_bytes|]. intros r.
      unfold token_name_try_from, TOKEN_NAME_MAX_SIZE.
      by rewrite (proj2 (Nat.ltb_ge _ _)) by done.
    - exists bs. split; [done|]. intros post. erewrite unpack_bind_ok by apply Hread. apply Hu. }
  exists bs. split; [|done]. intros w. rewrite <-Hp. unfold pack_voting_token, token_identifier_bytes, pack_then.
  unfold put_bytes, put_u8, codec_put_bytes, codec_put_u8, bb_finalize_as_vec, bb_bytes, bb_u8, bb_new.
  cbn [mbind outcome_bind bb_buffer policy_hash token_name]. rewrite wrap8_len by done. by rewrite <-!app_assoc.
Qed.

(** A plan packs its proposals without their actions, which [unpack_proposal]
    cannot read: only a plan without proposals survives. *)
Lemma packs_vote_plan p :
  plan_dumpable p → proposals p = [] → packs (pack_vote_plan p) unpack_vote_plan p.
Proof.
  destruct p as [vs ve ce ps ty ks t].
  intros ([? ?] & [? ?] & [? ?] & _ & _ & ? & ? & ?) Hps. cbn in *. subst ps.
  unfold pack_vote_plan, unpack_vote_plan. cbn [vote_start vote_end committee_end proposals vp_payload_type committee_public_keys voting_token].
  do 3 (eapply packs_then; [by apply packs_block_date|]). eapply packs_then; [by apply packs_payload_type|].
  eapply (packs_then _ _ _ _ []).
  { apply (packs_len [] _ (λ n, unpack_proposals_loop n [])); [done|].
    exists []. split; [apply pack_all_nil|done]. }
  eapply packs_then; [by apply packs_committee_keys|]. eapply packs_map; [by apply packs_voting_token|done].
Qed.

(** [panics p u]: the bytes that [p] appends make [u] panic. *)
Definition writes (p : Pack) : Prop := ∃ bs, ∀ w, p w = Ok (w ++ bs).
Definition panics {A} (p : Pack) (u : Unpack A) : Prop :=
  ∃ bs, (∀ w, p w = Ok (w ++ bs)) ∧ ∀ post, u (bs ++ post) = Panic.
Lemma panics_then {A B} (p q : Pack) (u : Unpack A) (f : A → Unpack B) a :
  packs p u a → panics q (f a) → panics (p ▷ q) (u ≫= f).
Proof.
  intros (bp & Hp & Hu) (bq & Hq & Hf). exists (bp ++ bq). split.
  - intros w. unfold pack_then. rewrite Hp. cbn [mbind outcome_bind]. rewrite Hq. by rewrite <-app_assoc.
  - intros post. rewrite <-app_assoc. by erewrite unpack_bind_ok by apply Hu.
Qed.
Lemma panics_front {A B} (p q : Pack) (u : Unpack A) (f : A → Unpack B) :
  panics p u → writes q → panics (p ▷ q) (u ≫= f).
Proof.
  intros (bp & Hp & Hu) (bq & Hq). exists (bp ++ bq). split.
  - intros w. unfold pack_then. rewrite Hp. cbn [mbind outcome_bind]. rewrite Hq. by rewrite <-app_assoc.
  - intros post. rewrite <-app_assoc. unfold mbind, unpack_bind. by rewrite Hu.
Qed.
Lemma panics_bind {A B} (p : Pack) (u : Unpack A) (f : A → Unpack B) : panics p u → panics p (u ≫= f).
Proof.
  intros (bp & Hp & Hu). exists bp. split; [done|]. intros post. unfold mbind, unpack_bind. by rewrite Hu.
Qed.
Lemma packs_writes {A} (p : Pack) (u : Unpack A) a : packs p u a → writes p.
Proof. intros (bs & Hp & _). by exists bs. Qed.
Lemma writes_then p q : writes p → writes q → writes (p ▷ q).
Proof.
  intros (bp & Hp) (bq & Hq). exists (bp ++ bq). intros w. unfold pack_then. rewrite Hp.
  cbn [mbind outcome_bind]. rewrite Hq. by rewrite <-app_assoc.
Qed.
Lemma writes_all {A} (p : A → Pack) xs : (∀ x, x ∈ xs → writes (p x)) → writes (pack_all p xs).
Proof.
  induction xs as [|x xs IH]; intros Hx; [exists []; apply pack_all_nil|].
  apply (writes_then (p x) (pack_all p xs)); [apply Hx; by left|]. apply IH. intros y Hy. apply Hx. by right.
Qed.
Lemma panics_proposals ps :
  len_ok ps → ps ≠ [] → Forall proposal_header_dumpable ps → panics (pack_vote_proposals ps) unpack_proposals.
Proof.
  intros Hl Hne Hps. destruct ps as [|p ps]; [done|]. apply Forall_cons in Hps as [[Hid Ho] Hps].
  unfold pack_vote_proposals, unpack_proposals. unfold len_ok in Hl. rewrite wrap_small by (split; lia).
  eapply panics_then; [apply packs_u64; split; lia|]. cbv beta. rewrite Nat2Z.id. cbn [length unpack_proposals_loop].
  apply (panics_front (pack_vote_proposal p) (pack_all pack_vote_proposal ps)).
  - eapply panics_then; [by apply packs_digestof|]. exists [options_as_byte (prop_options p)]. split; [done|].
    intros post. erewrite unpack_bind_ok by apply unpack_u8.
    erewrite (unpack_bind_ok _ _ (mkOptions 0 (options_end (prop_options p)))); [done|].
    unfold unpack_of, options_new_length, options_as_byte.
    by rewrite (proj2 (Z.ltb_lt _ _)), (proj2 (Z.leb_le _ _)) by lia.
  - apply writes_all. intros q Hq. rewrite Forall_forall in Hps. destruct (Hps q Hq) as [Hqid _].
    eapply writes_then; [by eapply packs_writes, packs_digestof|]. by eapply packs_writes, packs_u8.
Qed.
Lemma panics_vote_plan p : plan_dumpable p → proposals p ≠ [] → panics (pack_vote_plan p) unpack_vote_plan.
Proof.
  destruct p as [vs ve ce ps ty ks t]. intros ([? ?] & [? ?] & [? ?] & Hl & Hps & ? & ? & ?) Hne. cbn in *.
  unfold pack_vote_plan, unpack_vote_plan. cbn [vote_start vote_end committee_end proposals vp_payload_type committee_public_keys voting_token].
  do 3 (eapply panics_then; [by apply packs_block_date|]). eapply panics_then; [by apply packs_payload_type|].
  apply panics_front; [by apply panics_proposals|].
  eapply writes_then; [by eapply packs_writes, packs_committee_keys|by eapply packs_writes, packs_voting_token].
Qed.

(** ** Entries: what is unpacked for an entry *)
Definition entry_dumpable (e : Entry) : Prop :=
  match e with
  | EntGlobals g => globals_dumpable g
  | EntPot e => pot_entry_dumpable e
  | EntUtxo e => utxo_entry_dumpable address_dumpable e
  | EntOldUtxo e => utxo_entry_dumpable old_address_dumpable e
  | EntAccount (id, st) => length id = 32%nat ∧ account_dumpable st
  | EntConfigParam p => config_ok (config_kept p)
  | EntUpdateProposal (id, st) => length id = HASH_SIZE ∧ proposal_dumpable st
  | EntMultisigAccount (id, st) => length id = HASH_SIZE ∧ account_dumpable st
  | EntMultisigDeclaration (id, d) => length id = HASH_SIZE ∧ decl_dumpable d
  | EntStakePool (id, st) => length id = 32%nat ∧ pool_dumpable st
  | EntLeaderParticipation (id, n) => length id = 32%nat ∧ u32_ok n
  | EntVotePlan p => plan_dumpable p ∧ proposals p = []
  end.
Definition entry_kept (e : Entry) : EntryOwned :=
  match e with
  | EntGlobals g => OwnGlobals g
  | EntPot e => OwnPot e
  | EntUtxo e => OwnUtxo e
  | EntOldUtxo e => OwnOldUtxo e
  | EntAccount (id, st) => OwnAccount (id, account_kept st)
  | EntConfigParam p => OwnConfigParam (config_kept p)
  | EntUpdateProposal e => OwnUpdateProposal e
  | EntMultisigAccount (id, st) => OwnMultisigAccount (id, account_kept st)
  | EntMultisigDeclaration e => OwnMultisigDeclaration e
  | EntStakePool e => OwnStakePool e
  | EntLeaderParticipation e => OwnLeaderParticipation e
  | EntVotePlan p => OwnVotePlan p
  end.
Lemma packs_entry e :
  entry_dumpable e → packs (pack_entry e) (unpack_entry_owned old_address_new) (entry_kept e).
Proof.
  destruct e as [g|e|e|e|[id st]|p|[id st]|[id st]|[id d]|[id st]|[id n]|p]; intros He; cbn [entry_dumpable] in He;
    try done; (eapply packs_then; [apply packs_u8|]); cbn [entry_kept];
    change (code_from_u8 (code_u8 ?c)) with (Some c); cbv beta iota; try destruct He as [Hid He].
  - eapply packs_map; [by apply packs_globals|done].
  - eapply packs_map; [by apply packs_pot_entry|done].
  - eapply packs_map; [apply (packs_utxo_entry _ _ address_dumpable); [apply packs_address|done]|done].
  - eapply packs_map; [apply (packs_utxo_entry _ _ old_address_dumpable); [apply packs_old_addr|done]|done].
  - eapply packs_then; [by apply packs_account_identifier|]. eapply packs_map; [by apply packs_account_state|done].
  - eapply packs_map; [by apply packs_config_kept|done].
  - eapply packs_then; [by apply packs_hash|]. eapply packs_map; [by apply packs_update_proposal_state|done].
  - eapply packs_then; [by apply packs_hash|]. eapply packs_map; [by apply packs_account_state|done].
  - eapply packs_then; [by apply packs_hash|]. eapply packs_map; [by apply packs_declaration|done].
  - eapply packs_then; [by apply packs_digestof|]. eapply packs_map; [by apply packs_pool_state|done].
  - eapply packs_then; [by apply packs_digestof|]. eapply packs_map; [by apply packs_u32|done].
  - eapply packs_map; [by apply packs_vote_plan|done].
Qed.
End recovery.
