(* ===== verification/RecoveryTheorems.v ===== *)
(** * What survives the dump and recovery of a ledger
    ([ledger/{recovery,iter}.rs])

    The walk over a ledger ends and yields every entry; the dump of dumpable
    entries is unpacked into the same entries; collecting them gives back the
    ledger but for what the code leaves out.  The last part shows a ledger with
    a vote plan whose dump cannot be read. *)
From S2P Require Import Prelude Hamt HamtSpec Codec Value Rewards Time Spending Account SparseArray Utxo Pots Addr Key Multisig MultisigLedger Input Transaction Stake Config ConfigSpec Settings UpdateSpec PoolCert PoolCertSpec DelegationCert Tokens Governance VoteCert Votes VotesSpec LeaderLog LedgerState LedgerTxSpec LedgerBlockSpec Recovery RecoverySpec.
Local Open Scope Z_scope.

(** ** The walk over the entries *)
Section walk.
Context `{Crypto} `{Election} `{GroupEncoding}.
Implicit Types (l : Ledger) (es : list Entry).
Set Default Proof Using "Type*".

Definition walks l (st : LedgerIterState) es : Prop := ∃ k, ∀ n, ledger_iter_collect (n + k) l st = Ok es.
Lemma walks_item l st e st' es :
  ledger_iter_turn l st = Ok (TurnItem e st') → walks l st' es → walks l st (e :: es).
Proof.
  intros Ht [k Hk]. exists (S k). intros n. rewrite Nat.add_succ_r. cbn [ledger_iter_collect].
  rewrite Ht. cbn [mbind outcome_bind]. by rewrite Hk.
Qed.
Lemma walks_go l st st' es : ledger_iter_turn l st = Ok (TurnGo st') → walks l st' es → walks l st es.
Proof.
  intros Ht [k Hk]. exists (S k). intros n. rewrite Nat.add_succ_r. cbn [ledger_iter_collect].
  rewrite Ht. cbn [mbind outcome_bind]. by rewrite Hk.
Qed.
Lemma walks_list {A} l (mk : list A → LedgerIterState) (item : A → Entry) after xs es :
  (∀ it, ledger_iter_turn l (mk it) = Ok (turn_list item mk after it)) →
  walks l after es → walks l (mk xs) ((item <$> xs) ++ es).
Proof.
  intros Ht Ha. induction xs as [|x xs IH].
  - by eapply walks_go; [rewrite Ht|].
  - cbn [fmap list_fmap app]. eapply walks_item; [by rewrite Ht|done].
Qed.
Lemma walks_utxo {A} l (mk : UIter (FragmentId := FragmentId) (OutAddress := A) → LedgerIterState)
    (item : UtxoEntry A → Entry) after fuel it items es :
  (∀ it, ledger_iter_turn l (mk it) = (t ← utxo_iter_turn it;
     Ok match t with UDone => TurnGo after | UItem e it => TurnItem (item e) (mk it) | UGo it => TurnGo (mk it) end)) →
  uiter_collect fuel it = Ok items → walks l after es → walks l (mk it) ((item <$> items) ++ es).
Proof.
  intros Ht Hit Ha. revert it items Hit. induction fuel as [|fuel IH]; intros it items; [done|].
  cbn [uiter_collect]. intros (t & Hturn & Hrest)%bind_Ok. destruct t as [|e it'|it'].
  - injection Hrest as <-. eapply walks_go; [by rewrite Ht, Hturn|done].
  - destruct (uiter_collect fuel it') as [items'|e'|] eqn:Hc; cbn in Hrest; [|done..].
    injection Hrest as <-. cbn [fmap list_fmap app]. eapply walks_item; [by rewrite Ht, Hturn|]. by apply IH.
  - eapply walks_go; [by rewrite Ht, Hturn|]. by apply IH.
Qed.
Lemma walks_config l ps es :
  walks l (ItUpdateProposals (map_to_list (l_updates l))) es →
  walks l (ItConfigParams ps) ((EntConfigParam <$> reverse ps) ++ es).
Proof.
  intros Ha. induction ps as [|p ps IH] using rev_ind.
  - by eapply walks_go.
  - rewrite reverse_snoc. cbn [fmap list_fmap app]. eapply walks_item; [|exact IH].
    cbn [ledger_iter_turn]. by rewrite last_snoc, removelast_last.
Qed.

(** The entries of a ledger whose UTXOs are [us] and [olds]: the configuration
    parameters come in reverse. *)
Definition ledger_entries l (us : list (UtxoEntry Address)) (olds : list (UtxoEntry OldAddress)) : list Entry :=
  EntGlobals (mkGlobals (l_date l) (l_chain_length l) (l_static_params l) (l_era l)) ::
  (EntUtxo <$> us) ++ (EntOldUtxo <$> olds) ++ (EntAccount <$> map_to_list (l_accounts l)) ++
  (EntConfigParam <$> reverse (to_config_params (l_settings l))) ++
  (EntUpdateProposal <$> map_to_list (l_updates l)) ++
  (EntMultisigAccount <$> map_to_list (ms_accounts (l_multisig l))) ++
  (EntMultisigDeclaration <$> map_to_list (ms_declarations (l_multisig l))) ++
  (EntStakePool <$> map_to_list (l_delegation l)) ++ (EntPot <$> pots_entries (l_pots l)) ++
  (EntLeaderParticipation <$> map_to_list (leaders_map (l_leaders_log l))) ++
  ((λ x, EntVotePlan (vpm_plan x.2)) <$> map_to_list (l_votes l)).
Lemma ledger_walk l fu us fo olds :
  uiter_collect fu (utxo_iter (l_utxos l)) = Ok us → uiter_collect fo (utxo_iter (l_oldutxos l)) = Ok olds →
  walks l ItInitial (ledger_entries l us olds).
Proof.
  intros Hu Ho. unfold ledger_entries. eapply walks_item; [done|].
  eapply walks_utxo; [done|exact Hu|]. eapply walks_utxo; [done|exact Ho|].
  apply (walks_list l ItAccounts EntAccount (ItConfigParams (to_config_params (l_settings l)))); [done|].
  apply walks_config. eapply walks_list; [done|]. eapply walks_list; [done|]. eapply walks_list; [done|].
  eapply walks_list; [done|]. cbn [pots_entries entries_collect entries_next fmap list_fmap app].
  do 3 (eapply walks_item; [done|]). eapply walks_go; [done|].
  eapply walks_list; [done|]. rewrite <-(app_nil_r (_ <$> map_to_list (l_votes l))).
  apply (walks_list l ItVotePlan (λ x, EntVotePlan (vpm_plan x.2)) ItDone); [done|].
  exists 1%nat. intros n. by rewrite Nat.add_comm.
Qed.
End walk.

(** ** The UTXOs, grouped again *)
Section utxos.
Context {A : Type}.
Abbreviation Items := (list (UtxoEntry A)).
Abbreviation Grouped := (gmap FragmentId (list (TransactionIndex * Output A))).
Implicit Types (m : gmap FragmentId (gmap TransactionIndex (Output A))) (g : Grouped).

(** The outputs of a transaction, in the order of the items. *)
Definition outs_of (tid : FragmentId) (items : Items) : list (TransactionIndex * Output A) :=
  omap (λ e, if decide (e.1.1 = tid) then Some (e.1.2, e.2) else None) items.
Lemma outs_of_elem tid items i o : (i, o) ∈ outs_of tid items ↔ (tid, i, o) ∈ items.
Proof.
  unfold outs_of. rewrite list_elem_of_omap. split.
  - intros ([[t j] p] & Hin & Heq). cbn in Heq. case_decide; [|done]. by simplify_eq.
  - intros Hin. exists (tid, i, o). split; [done|]. cbn. by rewrite decide_True.
Qed.
Lemma outs_of_NoDup tid items : NoDup items.*1 → NoDup (outs_of tid items).*1.
Proof.
  induction items as [|[[t j] p] items IH]; intros Hnd; [constructor|].
  apply NoDup_cons in Hnd as [Hnin Hnd]. unfold outs_of in *. cbn [omap list_omap fst snd].
  case_decide as Ht; [|by apply IH]. subst t. cbn. apply NoDup_cons. split; [|by apply IH].
  intros ([j' p'] & Hj & Hin)%list_elem_of_fmap. cbn in Hj. subst j'.
  apply Hnin, list_elem_of_fmap. exists (tid, j, p'). split; [done|]. by apply (outs_of_elem tid).
Qed.
Lemma push_utxo_lookup items tid :
  foldl push_utxo ∅ items !! tid = (if decide (outs_of tid items = []) then None else Some (outs_of tid items) : option _).
Proof.
  induction items as [|[[t j] p] items IH] using rev_ind; [by rewrite decide_True|].
  rewrite foldl_app. cbn [foldl]. unfold push_utxo at 1. cbn [fst snd].
  unfold outs_of in *. rewrite omap_app. cbn [omap list_omap fst snd].
  destruct (decide (t = tid)) as [->|Hne].
  - rewrite lookup_insert_eq, IH.
    set (outs := omap _ items). rewrite (decide_False (P := outs ++ _ = [])) by (by intros [_ ?]%app_eq_nil).
    clearbody outs. by destruct (decide (outs = [])) as [->|].
  - by rewrite lookup_insert_ne, app_nil_r.
Qed.

Lemma spec_outputs_map (outs : list (TransactionIndex * Output A)) :
  NoDup outs.*1 → spec_outputs outs = list_to_map outs.
Proof.
  intros Hnd. unfold spec_outputs. rewrite (foldl_insert_nodup fst snd) by done. f_equal.
  rewrite <-(list_fmap_id outs) at 2. apply list_fmap_ext. by intros _ [] _.
Qed.

Lemma utxo_from_iter_repr (L : list (FragmentId * list (TransactionIndex * Output A))) l m :
  utxo_repr l m → NoDup L.*1 → Forall (λ x, m !! x.1 = None ∧
    x.2 ≠ [] ∧ (length x.2 < 255)%nat ∧ Forall (λ io, (io.1 < 256)%nat) x.2) L →
  ∃ l', foldM (E := infallible) (λ l x, unwrap (utxo_add l x.1 x.2)) l L = Ok l' ∧
    utxo_repr l' (foldl (λ m x, <[x.1 := spec_outputs x.2]> m) m L).
Proof.
  revert l m. induction L as [|[tid outs] L IH]; intros l m Hr Hnd HL; [by exists l|].
  apply Forall_cons in HL as [(Hnone & Hne & Hlen & Hidx) HL]. apply NoDup_cons in Hnd as [Hnin Hnd].
  cbn [foldM foldl fst snd] in *. pose proof (utxo_add_repr l m tid outs Hr Hne Hlen Hidx) as Hadd.
  rewrite Hnone in Hadd. destruct Hadd as (l1 & -> & Hr1). cbn [unwrap mbind outcome_bind].
  apply IH; [done|done|]. rewrite Forall_forall in HL |- *. intros x Hx.
  destruct (HL x Hx) as (Hx1 & Hrest). split; [|done]. rewrite lookup_insert_ne; [done|].
  intros ->. apply Hnin, list_elem_of_fmap. by exists x.
Qed.

(** The items of a ledger of UTXOs, grouped by fragment and collected, are a
    ledger of the same UTXOs. *)
Lemma utxos_recovered l m items :
  utxo_repr l m → map_Forall (λ _ t, (size t < 255)%nat) m →
  NoDup items.*1 → (∀ tid i o, (tid, i, o) ∈ items ↔ (i < 256)%nat ∧ utxo_get l tid i = Ok (Some o)) →
  ∃ l', utxo_from_iter (map_to_list (foldl push_utxo ∅ items)) = Ok l' ∧ utxo_repr l' m.
Proof.
  intros Hr Hsize Hnd Hitems.
  assert (∀ tid i o, (i, o) ∈ outs_of tid items ↔ m !! tid ≫= (!!) i = Some o) as Helem.
  { intros tid i o. rewrite outs_of_elem, Hitems. split.
    - intros [Hi Hg]. rewrite (utxo_get_repr l m) in Hg by done. by injection Hg.
    - intros Hm. assert (i < 256)%nat as Hi.
      { destruct (m !! tid) as [t|] eqn:Ht; [|done]. cbn in Hm. specialize (Hr tid). rewrite Ht in Hr.
        destruct (l !! tid); [|done]. destruct Hr as [[_ Hc] _]. rewrite Hc in Hm. by case_decide. }
      split; [done|]. rewrite (utxo_get_repr l m) by done. by rewrite Hm. }
  assert (∀ tid, m !! tid = if decide (outs_of tid items = []) then None else Some (spec_outputs (outs_of tid items)))
    as Hm.
  { intros tid. pose proof (Hr tid) as Htid. case_decide as Hnil.
    - destruct (m !! tid) as [t|] eqn:Ht; [|done]. destruct (l !! tid); [|done]. destruct Htid as [_ Hne].
      apply map_choose in Hne as (i & o & Hio). exfalso. apply (not_elem_of_nil (i, o)). rewrite <-Hnil.
      apply Helem. by rewrite Ht.
    - destruct (outs_of tid items) as [|[i o] outs] eqn:Ho; [done|]. rewrite <-Ho in *.
      destruct (m !! tid) as [t|] eqn:Ht.
      + f_equal. rewrite spec_outputs_map by by apply outs_of_NoDup. apply map_eq. intros j.
        apply option_eq. intros p. rewrite <-elem_of_list_to_map by by apply outs_of_NoDup.
        rewrite Helem, Ht. done.
      + exfalso. assert ((i, o) ∈ outs_of tid items) as Hin by (rewrite Ho; by left).
        apply Helem in Hin. by rewrite Ht in Hin. }
  set (g := foldl push_utxo ∅ items).
  assert (∀ tid outs, (tid, outs) ∈ map_to_list g → outs = outs_of tid items ∧ outs ≠ []) as Hg.
  { intros tid outs Hin%elem_of_map_to_list. unfold g in Hin. rewrite push_utxo_lookup in Hin.
    case_decide; [done|]. by injection Hin as <-. }
  destruct (utxo_from_iter_repr (map_to_list g) utxo_new ∅) as (l' & Hl' & Hr').
  - apply utxo_repr_new.
  - apply NoDup_fst_map_to_list.
  - apply Forall_forall. intros [tid outs] Hin. destruct (Hg tid outs Hin) as [-> Hne]. cbn [fst snd].
    split; [apply lookup_empty|]. split; [done|]. split.
    + pose proof (Hm tid) as Ht. rewrite decide_False in Ht by done. specialize (Hsize tid _ Ht). cbn in Hsize.
      rewrite spec_outputs_map in Hsize by by apply outs_of_NoDup.
      rewrite <-length_map_to_list, map_to_list_to_map in Hsize by by apply outs_of_NoDup. done.
    + apply Forall_forall. intros [i o] Hio%outs_of_elem%Hitems. by destruct Hio.
  - exists l'. split; [done|].
    pose proof (foldl_insert_nodup fst (λ x, spec_outputs x.2) (map_to_list g) (NoDup_fst_map_to_list g)) as Hins.
    assert (foldl (λ m x, <[x.1 := spec_outputs x.2]> m) ∅ (map_to_list g) = m) as Heq; [|by rewrite Heq in Hr'].
    rewrite Hins. transitivity (spec_outputs <$> g).
    + by rewrite <-(list_to_map_to_list (spec_outputs <$> g)), map_to_list_fmap.
    + apply map_eq. intros tid. rewrite lookup_fmap. unfold g. rewrite push_utxo_lookup, Hm. by case_decide.
Qed.
End utxos.

(** ** The entries on the wire *)
Section wire.
Context `{Crypto} `{Election} `{GroupEncoding}.
Context (old_address_new : list Z → OldAddress).
Context (old_address_back : ∀ a, old_address_new (old_address_bytes a) = a).
Set Default Proof Using "Type*".
Implicit Types (e : Entry) (es : list Entry).

(** What an entry is read back as. *)
Definition entry_back e : Entry :=
  match e with
  | EntAccount (id, st) => EntAccount (id, account_kept st)
  | EntConfigParam p => EntConfigParam (config_kept p)
  | EntMultisigAccount (id, st) => EntMultisigAccount (id, account_kept st)
  | _ => e
  end.
Lemma to_entries_back es : mapM to_entry (entry_kept <$> es) = Some (entry_back <$> es).
Proof. induction es as [|e es IH]; [done|]. cbn. rewrite IH. by destruct e as [| | | |[]|?|[]|[]|[]|[]|[]|]. Qed.

Abbreviation entries_loop := (unpack_entries_loop old_address_new).
Lemma entries_loop_item n r e r' :
  unpack_entry_owned old_address_new r = Ok (entry_kept e, r') →
  entries_loop (S n) r = ('(res, r) ← entries_loop n r'; Ok (entry_kept e :: res, r)).
Proof.
  intros Hu. cbn [unpack_entries_loop]. erewrite unpack_bind_ok by exact Hu.
  by destruct e as [| | | |[]|?|[]|[]|[]|[]|[]|].
Qed.
Lemma entry_bytes_nonempty e bs :
  (∀ post, unpack_entry_owned old_address_new (bs ++ post) = Ok (entry_kept e, post)) → (1 ≤ length bs)%nat.
Proof. intros Hu. destruct bs; [|cbn; lia]. by specialize (Hu []). Qed.

Lemma entries_packed es :
  Forall entry_dumpable es →
  ∃ bs, (∀ w, pack_all pack_entry es w = Ok (w ++ bs)) ∧ (length es ≤ length bs)%nat ∧
    ∀ n post, entries_loop (length es + n) (bs ++ post) =
      ('(res, r) ← entries_loop n post; Ok ((entry_kept <$> es) ++ res, r)).
Proof.
  induction 1 as [|e es He Hes IH].
  { exists []. split; [apply pack_all_nil|]. split; [done|]. intros n post. cbn [length Nat.add app fmap list_fmap].
    by destruct (entries_loop n post) as [[]| |]. }
  destruct (packs_entry old_address_new old_address_back e He) as (b1 & Hp1 & Hu1).
  destruct IH as (b2 & Hp2 & Hl & Hu2). exists (b1 ++ b2).
  pose proof (entry_bytes_nonempty e b1 Hu1). split; [|split].
  - intros w. unfold pack_all in *. cbn [foldM]. rewrite Hp1. cbn [mbind outcome_bind]. rewrite Hp2. by rewrite app_assoc.
  - rewrite length_app. cbn [length]. lia.
  - intros n post. cbn [length Nat.add]. rewrite <-app_assoc. rewrite (entries_loop_item _ _ e _ (Hu1 _)), Hu2.
    by destruct (entries_loop n post) as [[]| |].
Qed.

(** Dumpable entries, dumped and read back. *)
Lemma entries_read_back es fuel bytes l :
  Forall entry_dumpable es → ledger_iter_collect fuel l ItInitial = Ok es →
  ledger_serialize fuel l = Ok bytes →
  ledger_deserialize old_address_new bytes = map_err RecoverOther (ledger_from_entries (entry_back <$> es)).
Proof.
  intros Hes Hc. destruct (entries_packed es Hes) as (bs & Hp & Hl & Hu).
  unfold ledger_serialize. rewrite Hc. cbn [lift mbind outcome_bind]. unfold pack_then. rewrite Hp.
  cbn [mbind outcome_bind]. unfold put_u8, codec_put_u8. cbn [app code_u8]. intros [= <-].
  unfold ledger_deserialize, unpack_entries.
  replace (S (length (bs ++ [99]))) with (length es + S (S (length bs - length es)))%nat
    by (rewrite length_app; cbn; lia).
  rewrite Hu.
  assert (entries_loop (S (S (length bs - length es))) [99] = Ok ([], [])) as -> by done.
  cbn [mbind outcome_bind map_err]. rewrite app_nil_r, to_entries_back. done.
Qed.
Lemma ledger_serialize_writes es fuel l bs :
  (∀ w, pack_all pack_entry es w = Ok (w ++ bs)) → ledger_iter_collect fuel l ItInitial = Ok es →
  ledger_serialize fuel l = Ok (bs ++ [99]).
Proof.
  intros Hp Hc. unfold ledger_serialize. rewrite Hc. cbn [lift mbind outcome_bind]. unfold pack_then. by rewrite Hp.
Qed.

(** A vote plan with proposals among dumpable entries. *)
Lemma entries_panic es1 p es2 fuel l bytes :
  Forall entry_dumpable es1 → plan_dumpable p → proposals p ≠ [] →
  ledger_iter_collect fuel l ItInitial = Ok (es1 ++ EntVotePlan p :: es2) →
  ledger_serialize fuel l = Ok bytes → writes (pack_all pack_entry es2) →
  ledger_deserialize old_address_new bytes = Panic.
Proof.
  intros Hes1 Hp Hne Hc Hs (b2 & Hb2). destruct (entries_packed es1 Hes1) as (b1 & Hb1 & Hl & Hu).
  destruct (panics_vote_plan p Hp Hne) as (bp & Hbp & Hup).
  assert (∀ w, pack_all pack_entry (es1 ++ EntVotePlan p :: es2) w = Ok (w ++ b1 ++ ([11] ++ bp) ++ b2)) as Hall.
  { intros w. unfold pack_all in *. rewrite foldM_app, Hb1. cbn [mbind outcome_bind foldM pack_entry].
    unfold pack_then at 1, put_u8 at 1, codec_put_u8. cbn [mbind outcome_bind code_u8]. rewrite Hbp.
    cbn [mbind outcome_bind]. rewrite Hb2. by rewrite <-!app_assoc. }
  erewrite ledger_serialize_writes in Hs by done. injection Hs as <-.
  unfold ledger_deserialize, unpack_entries. set (tail := bp ++ b2 ++ [99]).
  replace ((b1 ++ 11 :: bp ++ b2) ++ [99]) with (b1 ++ 11 :: tail)
    by (unfold tail; rewrite <-app_assoc; cbn [app]; by rewrite <-app_assoc).
  rewrite length_app. cbn [length].
  replace (S (length b1 + S (length tail))) with (length es1 + S (S (length b1 - length es1 + length tail)))%nat by lia.
  assert (unpack_entry_owned old_address_new (11 :: tail) = Panic) as Hpanic.
  { unfold unpack_entry_owned. change (11 :: tail) with ([11] ++ tail).
    erewrite unpack_bind_ok by apply unpack_u8. cbv beta. change (code_from_u8 11) with (Some CodeVotePlan).
    cbv beta iota. unfold mbind, unpack_bind. unfold tail. by rewrite Hup. }
  assert (∀ n, entries_loop (S n) (11 :: tail) = Panic) as Hloop; [|by rewrite Hu, Hloop].
  intros n. cbn [unpack_entries_loop]. unfold mbind, unpack_bind. by rewrite Hpanic.
Qed.
End wire.

(** ** The collection of the entries *)
Lemma foldM_hm_insert `{Countable K} {V} (xs : list (K * V)) (m : gmap K V) :
  NoDup xs.*1 → Forall (λ x, m !! x.1 = None) xs →
  foldM (E := infallible) (λ m x, unwrap (hm_insert m x.1 x.2)) m xs = Ok (foldl (λ m x, <[x.1 := x.2]> m) m xs).
Proof.
  revert m. induction xs as [|[k v] xs IH]; intros m; [done|].
  intros [Hnin Hnd]%NoDup_cons [Hk Hxs]%Forall_cons. cbn [foldM foldl fst snd] in *.
  unfold hm_insert. rewrite Hk. cbn [unwrap mbind outcome_bind]. apply IH; [done|].
  rewrite Forall_forall in Hxs |- *. intros x Hx. rewrite lookup_insert_ne; [by apply Hxs|].
  intros ->. apply Hnin, list_elem_of_fmap. by exists x.
Qed.
Lemma foldl_insert_back `{Countable K} {V} (m : gmap K V) :
  foldl (λ m x, <[x.1 := x.2]> m) ∅ (map_to_list m) = m.
Proof.
  rewrite (foldl_insert_nodup fst snd) by apply NoDup_fst_map_to_list.
  rewrite <-(list_to_map_to_list m) at 2. f_equal. rewrite <-(list_fmap_id (map_to_list m)) at 2.
  apply list_fmap_ext. by intros _ [] _.
Qed.
Lemma hm_from_list_back `{Countable K} {V} (m : gmap K V) : hm_from_list (map_to_list m) = m.
Proof.
  rewrite <-(foldl_insert_back m) at 2. unfold hm_from_list.
  assert (∀ (xs : list (K * V)) (acc : gmap K V), NoDup xs.*1 → Forall (λ x, acc !! x.1 = None) xs →
    foldl (λ m kv, match m !! kv.1 with Some _ => m | None => <[kv.1:=kv.2]> m end) acc xs =
    foldl (λ m x, <[x.1 := x.2]> m) acc xs) as Hfold.
  { induction xs as [|[k v] xs IH]; intros acc; [done|].
    intros [Hnin Hnd]%NoDup_cons [Hk Hxs]%Forall_cons. cbn [foldl fst snd] in *. rewrite Hk. apply IH; [done|].
    rewrite Forall_forall in Hxs |- *. intros x Hx. rewrite lookup_insert_ne; [by apply Hxs|].
    intros ->. apply Hnin, list_elem_of_fmap. by exists x. }
  apply Hfold; [apply NoDup_fst_map_to_list|]. apply Forall_forall. intros. apply lookup_empty.
Qed.

(** The leaders: the total is summed up again. *)
Lemma foldM_set_for (xs : list (PoolId * Z)) (t : Z) (m : gmap PoolId Z) :
  NoDup xs.*1 → Forall (λ x, m !! x.1 = None ∧ 0 ≤ x.2) xs → 0 ≤ t → t + Zsum xs.*2 < 2 ^ 32 →
  foldM (E := infallible) (λ l x, unwrap (set_for l x.1 x.2)) (mkLeaders t m) xs =
  Ok (mkLeaders (t + Zsum xs.*2) (foldl (λ m x, <[x.1 := x.2]> m) m xs)).
Proof.
  revert t m. induction xs as [|[k v] xs IH]; intros t m.
  { cbn. by rewrite Z.add_0_r. }
  intros [Hnin Hnd]%NoDup_cons [[Hk Hv] Hxs]%Forall_cons Ht Hb. cbn [foldM foldl fst snd fmap list_fmap] in *.
  change (Zsum (v :: xs.*2)) with (v + Zsum xs.*2) in *.
  assert (0 ≤ Zsum xs.*2).
  { clear -Hxs. induction Hxs as [|x xs [_ Hx] _ IHx]; cbn; [done|]. lia. }
  unfold set_for, hm_insert. cbn [leaders_map leaders_total]. rewrite Hk. cbn [unwrap mbind outcome_bind].
  rewrite wrap_small by (split; lia). rewrite IH; [do 2 f_equal; lia|done| |lia|lia].
  rewrite Forall_forall in Hxs |- *. intros x Hx. destruct (Hxs x Hx). split; [|done]. rewrite lookup_insert_ne; [done|].
  intros ->. apply Hnin, list_elem_of_fmap. by exists x.
Qed.
Lemma leaders_recovered log :
  leaders_ok log →
  foldM (E := infallible) (λ l x, unwrap (set_for l x.1 x.2)) leaders_new (map_to_list (leaders_map log)) = Ok log.
Proof.
  destruct log as [t m]. intros (Hp & Ht & Hu). cbn in *. unfold leaders_new, map_sum, u32_ok, in_u in *.
  rewrite list_fmap_id in Ht. rewrite foldM_set_for.
  - rewrite foldl_insert_back. by rewrite Ht.
  - apply NoDup_fst_map_to_list.
  - apply Forall_forall. intros [k v] Hin%elem_of_map_to_list. split; [apply lookup_empty|]. by eapply Hp.
  - done.
  - lia.
Qed.

(** The settings from their parameters in reverse: where the fees go, the reward
    limit, the participation capping, the nonce and the fees per certificate are reset,
    the BFT leaders are reversed and, so, are the committee. *)
Definition settings_recovered (s : Settings) : Settings :=
  mkSettings (consensus_version s) nonce_zero (s_slots_per_epoch s) (s_slot_duration s)
    (epoch_stability_depth s) (active_slots_coeff s) (block_content_max_size s) (reverse (bft_leaders s))
    (linear_fee_new (constant (linear_fees s)) (coefficient (linear_fees s)) (certificate (linear_fees s)))
    (proposal_expiration s) (reward_params s) (treasury_params s) ToRewards LimitNone None
    (reverse (bft_leaders s)) (transaction_max_expiry_epochs s).
Lemma settings_recovered_ok s :
  milli_zero < active_slots_coeff s ≤ milli_one →
  try_apply settings_new (config_kept <$> reverse (to_config_params s)) = Ok (settings_recovered s).
Proof.
  intros Hasc. unfold to_config_params. rewrite !reverse_app, !fmap_app, <-!(fmap_reverse PAddBftLeader).
  assert (∀ ls, config_kept <$> (PAddBftLeader <$> ls) = PAddBftLeader <$> ls) as ->.
  { intros ls. rewrite <-list_fmap_compose. by apply list_fmap_ext. }
  unfold try_apply, settings_new. rewrite !foldM_app.
  destruct s as [cv cn spe sd esd asc bms bl lf pe rp tp fg rl cap com tme].
  cbn [consensus_version consensus_nonce s_slots_per_epoch s_slot_duration epoch_stability_depth
    active_slots_coeff block_content_max_size bft_leaders linear_fees proposal_expiration reward_params
    treasury_params fees_goes_to rewards_limit s_pool_participation_capping committees
    transaction_max_expiry_epochs] in *.
  assert (active_slots_coeff_try_from asc = Ok asc) as Hcoeff.
  { unfold active_slots_coeff_try_from. by rewrite (proj2 (Z.ltb_lt _ _)), (proj2 (Z.leb_le _ _)) by lia. }
  destruct tp, rp; cbn [reverse rev_append foldM apply_param mbind outcome_bind fmap list_fmap config_kept];
    rewrite apply_bft_leaders; cbn [mbind outcome_bind foldM apply_param]; rewrite Hcoeff; reflexivity.
Qed.

Section collection.
Context `{Crypto} `{Election} `{GroupEncoding}.
Set Default Proof Using "Type*".

(** The entries of one kind change one part of what the loop keeps. *)
Lemma fold_segment {A S} (item : A → Entry) (f : S → A → outcome infallible S) (put : S → FromIter) s xs :
  (∀ s x, from_iter_step (put s) (entry_back (item x)) = put <$> f s x) →
  foldM from_iter_step (put s) (entry_back <$> (item <$> xs)) = put <$> foldM f s xs.
Proof.
  intros Hstep. revert s. induction xs as [|x xs IH]; intros s; [done|]. cbn [foldM fmap list_fmap].
  rewrite Hstep. destruct (f s x) as [s'|e|]; cbn [fmap outcome_fmap mbind outcome_bind]; [apply IH|done..].
Qed.
Lemma foldM_pure {E A S} (f : S → A → S) s xs : foldM (E := E) (λ s x, Ok (f s x)) s xs = Ok (foldl f s xs).
Proof. revert s. induction xs as [|x xs IH]; intros s; [done|apply IH]. Qed.
Lemma fold_items {A S} (item : A → Entry) (f : S → A → S) (put : S → FromIter) s xs :
  (∀ s x, from_iter_step (put s) (entry_back (item x)) = Ok (put (f s x))) →
  foldM from_iter_step (put s) (entry_back <$> (item <$> xs)) = Ok (put (foldl f s xs)).
Proof. intros Hstep. by rewrite (fold_segment item (λ s x, Ok (f s x)) put), foldM_pure. Qed.
Lemma foldl_snoc {A B} (f : A → B) xs (acc : list B) : foldl (λ acc x, acc ++ [f x]) acc xs = acc ++ (f <$> xs).
Proof.
  revert acc. induction xs as [|x xs IH]; intros acc; [by rewrite app_nil_r|]. cbn. by rewrite IH, <-app_assoc.
Qed.

Lemma from_ledger_entries l us olds :
  l_votes l = ∅ → leaders_ok (l_leaders_log l) →
  foldM from_iter_step from_iter_init (entry_back <$> ledger_entries l us olds) =
  Ok (mkFromIter (foldl push_utxo ∅ us) (foldl push_utxo ∅ olds) (map_to_list (account_kept <$> l_accounts l))
        (config_kept <$> reverse (to_config_params (l_settings l))) (l_updates l)
        (map_to_list (account_kept <$> ms_accounts (l_multisig l))) (map_to_list (ms_declarations (l_multisig l)))
        ∅ (Some (mkGlobals (l_date l) (l_chain_length l) (l_static_params l) (l_era l))) (l_pots l)
        (l_leaders_log l) ∅).
Proof.
  intros Hv Hlog. unfold ledger_entries, from_iter_init, update_new. cbn [fmap list_fmap foldM entry_back from_iter_step mbind outcome_bind].
  rewrite Hv, map_to_list_empty, !fmap_app, !foldM_app.
  rewrite (fold_items EntUtxo push_utxo (λ u, mkFromIter u _ _ _ _ _ _ _ _ _ _ _)) by done. cbn [mbind outcome_bind].
  rewrite foldM_app, (fold_items EntOldUtxo push_utxo (λ u, mkFromIter _ u _ _ _ _ _ _ _ _ _ _)) by done.
  cbn [mbind outcome_bind]. rewrite foldM_app,
    (fold_items EntAccount (λ acc x, acc ++ [prod_map id account_kept x]) (λ u, mkFromIter _ _ u _ _ _ _ _ _ _ _ _))
    by by intros ? [].
  cbn [mbind outcome_bind]. rewrite foldM_app,
    (fold_items EntConfigParam (λ acc x, acc ++ [config_kept x]) (λ u, mkFromIter _ _ _ u _ _ _ _ _ _ _ _)) by done.
  cbn [mbind outcome_bind]. rewrite foldM_app, (fold_segment EntUpdateProposal
    (λ m x, unwrap (hm_insert m x.1 x.2)) (λ u, mkFromIter _ _ _ _ u _ _ _ _ _ _ _))
    by (intros m [id st]; cbn; by destruct (hm_insert m id st)).
  rewrite foldM_hm_insert; [|apply NoDup_fst_map_to_list|apply Forall_forall; intros; apply lookup_empty].
  cbn [fmap outcome_fmap mbind outcome_bind]. rewrite foldM_app, (fold_items EntMultisigAccount
    (λ acc x, acc ++ [prod_map id account_kept x]) (λ u, mkFromIter _ _ _ _ _ u _ _ _ _ _ _)) by by intros ? [].
  cbn [mbind outcome_bind]. rewrite foldM_app, (fold_items EntMultisigDeclaration
    (λ acc x, acc ++ [id x]) (λ u, mkFromIter _ _ _ _ _ _ u _ _ _ _ _)) by by intros ? [].
  cbn [mbind outcome_bind]. rewrite foldM_app, (fold_items EntStakePool
    (λ s _, s) (λ _ : unit, mkFromIter _ _ _ _ _ _ _ pools_new _ _ _ _) ()) by by intros ? [].
  cbn [mbind outcome_bind]. rewrite foldM_app. cbn [pots_entries entries_collect entries_next fmap list_fmap foldM
    entry_back from_iter_step set_from_entry mbind outcome_bind].
  rewrite foldM_app, (fold_segment EntLeaderParticipation
    (λ lg x, unwrap (set_for lg x.1 x.2)) (λ u, mkFromIter _ _ _ _ _ _ _ _ _ _ u _))
    by (intros lg [id n]; cbn; by destruct (set_for lg id n)).
  rewrite leaders_recovered by done. cbn [fmap outcome_fmap mbind outcome_bind foldM list_fmap].
  rewrite !foldl_snoc, foldl_insert_back, !map_to_list_fmap, list_fmap_id. cbn [app].
  by destruct (l_pots l) as [? [] ?].
Qed.
End collection.

(** ** The dump read back *)
Section utxos_dump.
Context {A : Type} (ok : A → Prop).
(** UTXOs that can be dumped; their identifiers are hashes. *)
Definition utxos_dumpable (l : gmap FragmentId (FastSparseArray (Output A)))
    (m : gmap FragmentId (gmap TransactionIndex (Output A))) : Prop :=
  utxo_repr l m ∧
  map_Forall (λ tid t, length tid = 32%nat ∧ (size t < 255)%nat ∧ map_Forall (λ _ o, output_dumpable ok o) t) m.
Lemma utxos_walk l m :
  utxos_dumpable l m →
  ∃ fuel items, uiter_collect fuel (utxo_iter l) = Ok items ∧ Forall (utxo_entry_dumpable ok) items ∧
    ∃ l', utxo_from_iter (map_to_list (foldl push_utxo ∅ items)) = Ok l' ∧ utxo_repr l' m.
Proof.
  intros [Hr Hm]. destruct (utxo_iter_enumerates l m Hr) as (fuel & items & Hc & Hnd & Hin).
  exists fuel, items. split; [apply (Hc 0%nat)|]. split.
  - apply Forall_forall. intros [[tid i] o] [Hi Hg]%Hin. rewrite (utxo_get_repr l m) in Hg by done.
    injection Hg as Hg. apply bind_Some in Hg as (t & Ht & Ho). destruct (Hm tid t Ht) as (Htid & _ & Hos).
    split; [done|]. by eapply Hos.
  - eapply utxos_recovered; [done| |done..]. eapply map_Forall_impl; [exact Hm|]. by intros tid t (_ & ? & _).
Qed.
End utxos_dump.

Section dump.
Context `{Crypto} `{Election} `{GroupEncoding}.
Context (old_address_new : list Z → OldAddress).
Implicit Types (l : Ledger) (mu : gmap FragmentId (gmap TransactionIndex (Output Address)))
  (mo : gmap FragmentId (gmap TransactionIndex (Output OldAddress))).
Set Default Proof Using "Type*".

Definition account_entry_dumpable (id : list Z) (st : DumpedAccount) : Prop :=
  length id = 32%nat ∧ account_dumpable st.
(** A ledger whose parts are in the ranges of their types. *)
Record ledger_dumpable l mu mo : Prop := {
  ld_globals : globals_dumpable (mkGlobals (l_date l) (l_chain_length l) (l_static_params l) (l_era l));
  ld_utxos : utxos_dumpable address_dumpable (l_utxos l) mu;
  ld_oldutxos : utxos_dumpable old_address_dumpable (l_oldutxos l) mo;
  ld_accounts : map_Forall account_entry_dumpable (l_accounts l);
  ld_settings : Forall (λ p, config_ok (config_kept p)) (to_config_params (l_settings l));
  ld_slots_coeff : milli_zero < active_slots_coeff (l_settings l) ≤ milli_one;
  ld_updates : map_Forall (λ id st, length id = HASH_SIZE ∧ proposal_dumpable st) (l_updates l);
  ld_multisig : map_Forall account_entry_dumpable (ms_accounts (l_multisig l));
  ld_declarations : map_Forall (λ id d, length id = HASH_SIZE ∧ decl_dumpable d) (ms_declarations (l_multisig l));
  ld_pools : map_Forall (λ id st, length id = 32%nat ∧ pool_dumpable st) (l_delegation l);
  ld_pots : Forall pot_entry_dumpable (pots_entries (l_pots l));
  ld_leaders : leaders_ok (l_leaders_log l) ∧ map_Forall (λ id _, length id = 32%nat) (leaders_map (l_leaders_log l)) }.

(** What a ledger without vote plans is read back as, given its UTXOs: the
    tokens of the accounts, their totals, the stake pools and the treasury and
    parameters governance are not there, and the settings are what their
    parameters leave of them. *)
Definition ledger_recovered l utxos oldutxos : Ledger :=
  mkLedger utxos oldutxos (account_kept <$> l_accounts l) (settings_recovered (l_settings l)) (l_updates l)
    (mkMultisig (account_kept <$> ms_accounts (l_multisig l)) (ms_declarations (l_multisig l))) ∅
    (l_static_params l) (l_date l) (l_chain_length l) (l_era l) (l_pots l) (l_leaders_log l) ∅ governance_default ∅.

Lemma map_entries_dumpable {K} `{Countable K} {V} (P : K → V → Prop) (item : K * V → Entry) (m : gmap K V) :
  (∀ k v, P k v → entry_dumpable (item (k, v))) → map_Forall P m → Forall entry_dumpable (item <$> map_to_list m).
Proof.
  intros Hi Hm. apply Forall_fmap, Forall_forall. intros [k v] Hin%elem_of_map_to_list. by apply Hi, Hm.
Qed.
(** The entries before the vote plans are dumpable. *)
Definition plans (l : Ledger) : list VotePlan := (λ x, vpm_plan x.2) <$> map_to_list (l_votes l).
Lemma ledger_entries_front l mu mo us olds :
  ledger_dumpable l mu mo → Forall (utxo_entry_dumpable address_dumpable) us →
  Forall (utxo_entry_dumpable old_address_dumpable) olds →
  ∃ front, ledger_entries l us olds = front ++ (EntVotePlan <$> plans l) ∧ Forall entry_dumpable front.
Proof.
  intros Hl Hus Holds. unfold plans, ledger_entries. eexists. split.
  { rewrite <-list_fmap_compose. rewrite 9!app_assoc, (app_comm_cons _ _ (EntGlobals _)). reflexivity. }
  constructor; [apply Hl|]. rewrite !Forall_app. split_and!.
  - by apply Forall_fmap.
  - by apply Forall_fmap.
  - eapply map_entries_dumpable, Hl. by intros.
  - apply Forall_fmap, Forall_reverse, Hl.
  - eapply map_entries_dumpable, Hl. by intros.
  - eapply map_entries_dumpable, Hl. by intros.
  - eapply map_entries_dumpable, Hl. by intros.
  - eapply map_entries_dumpable, Hl. by intros.
  - apply Forall_fmap, Hl.
  - destruct (ld_leaders _ _ _ Hl) as [Hlog Hids]. apply Forall_fmap, Forall_forall.
    intros [id n] Hin%elem_of_map_to_list. split; [by eapply (Hids id)|].
    pose proof (leaders_entry_le _ _ _ Hlog Hin). destruct Hlog as (_ & _ & Hu). unfold u32_ok, in_u in *.
    cbn. lia.
Qed.

(** Without vote plans. *)
Lemma dump_without_plans l mu mo :
  (∀ a, old_address_new (old_address_bytes a) = a) → ledger_dumpable l mu mo → l_votes l = ∅ →
  ∃ fuel bytes utxos oldutxos, (∀ n, ledger_serialize (n + fuel) l = Ok bytes) ∧
    ledger_deserialize old_address_new bytes = Ok (ledger_recovered l utxos oldutxos) ∧
    utxo_repr utxos mu ∧ utxo_repr oldutxos mo.
Proof.
  intros Hback Hl Hv. destruct (utxos_walk address_dumpable _ _ (ld_utxos _ _ _ Hl)) as (fu & us & Hcu & Hus & lu & Hlu & Hru).
  destruct (utxos_walk old_address_dumpable _ _ (ld_oldutxos _ _ _ Hl)) as (fo & olds & Hco & Ho & lo & Hlo & Hro).
  destruct (ledger_walk l fu us fo olds Hcu Hco) as [fuel Hwalk].
  destruct (ledger_entries_front l mu mo us olds Hl Hus Ho) as (front & Heq & Hfront).
  unfold plans in Heq. rewrite Hv, map_to_list_empty in Heq. cbn [fmap list_fmap] in Heq.
  rewrite app_nil_r in Heq. rewrite <-Heq in Hfront.
  destruct (entries_packed old_address_new Hback _ Hfront) as (bs & Hbs & _ & _).
  assert (∀ n, ledger_serialize (n + fuel) l = Ok (bs ++ [99])) as Hs.
  { intros n. by eapply ledger_serialize_writes. }
  exists fuel, (bs ++ [99]), lu, lo. split; [done|]. split; [|done].
  rewrite (entries_read_back old_address_new Hback _ (0 + fuel) _ l Hfront (Hwalk 0%nat) (Hs 0%nat)).
  unfold ledger_from_entries. rewrite from_ledger_entries by (done || apply Hl).
  cbn [lift mbind outcome_bind fi_globals fi_utxos fi_oldutxos fi_config_params ok_or].
  rewrite Hlu, Hlo. cbn [lift mbind outcome_bind]. rewrite settings_recovered_ok by apply Hl.
  cbn [map_err mbind outcome_bind fi_accounts fi_updates fi_multisig_accounts fi_multisig_declarations
    fi_delegation fi_pots fi_leaders_log fi_votes gl_static_params gl_date gl_chain_length gl_era].
  unfold ledger_from_iter, multisig_restore, ledger_from_iter. by rewrite !hm_from_list_back.
Qed.

(** The first of the plans that has proposals. *)
Lemma plans_split (ps : list VotePlan) :
  Exists (λ p, proposals p ≠ []) ps →
  ∃ ps1 p ps2, ps = ps1 ++ p :: ps2 ∧ Forall (λ p, proposals p = []) ps1 ∧ proposals p ≠ [].
Proof.
  induction ps as [|p ps IH]; intros Hex; [by inversion Hex|].
  destruct (proposals p) eqn:Hp.
  - apply Exists_cons in Hex as [Hne|Hex]; [done|]. destruct (IH Hex) as (ps1 & q & ps2 & -> & Hnil & Hq).
    exists (p :: ps1), q, ps2. split; [done|]. split; [by constructor|done].
  - exists [], p, ps. split; [done|]. split; [constructor|]. by rewrite Hp.
Qed.
Lemma plan_writes p : plan_dumpable p → writes (pack_entry (EntVotePlan p)).
Proof.
  intros Hp. apply writes_then; [by exists [11]|]. destruct (proposals p) eqn:Hn.
  - eapply packs_writes, packs_vote_plan; [done|done].
  - destruct (panics_vote_plan p Hp) as (bs & Hbs & _); [by rewrite Hn|]. by exists bs.
Qed.

Lemma entries_write front ps :
  (∀ a, old_address_new (old_address_bytes a) = a) → Forall entry_dumpable front → Forall plan_dumpable ps →
  writes (pack_all pack_entry (front ++ (EntVotePlan <$> ps))).
Proof.
  intros Hback Hfront Hps. rewrite Forall_forall in Hfront. rewrite Forall_forall in Hps. apply writes_all. intros e.
  rewrite elem_of_app, list_elem_of_fmap. intros [Hin|(p & -> & Hp)].
  - eapply packs_writes, (packs_entry old_address_new Hback), Hfront, Hin.
  - by apply plan_writes, Hps.
Qed.
Lemma plans_dumpable l :
  map_Forall (λ _ m, plan_dumpable (vpm_plan m)) (l_votes l) → Forall plan_dumpable (plans l).
Proof.
  intros Hplans. apply Forall_fmap, Forall_forall. intros [k x] Hin%elem_of_map_to_list. by apply (Hplans k x).
Qed.
Lemma dump_written l mu mo :
  (∀ a, old_address_new (old_address_bytes a) = a) → ledger_dumpable l mu mo →
  map_Forall (λ _ m, plan_dumpable (vpm_plan m)) (l_votes l) →
  ∃ fuel bytes, ∀ n, ledger_serialize (n + fuel) l = Ok bytes.
Proof.
  intros Hback Hl Hplans.
  destruct (utxos_walk address_dumpable _ _ (ld_utxos _ _ _ Hl)) as (fu & us & Hcu & Hus & _).
  destruct (utxos_walk old_address_dumpable _ _ (ld_oldutxos _ _ _ Hl)) as (fo & olds & Hco & Ho & _).
  destruct (ledger_walk l fu us fo olds Hcu Hco) as [fuel Hwalk].
  destruct (ledger_entries_front l mu mo us olds Hl Hus Ho) as (front & Heq & Hfront).
  destruct (entries_write front (plans l) Hback Hfront (plans_dumpable l Hplans)) as (bs & Hbs).
  rewrite <-Heq in Hbs. exists fuel, (bs ++ [99]). intros n. by eapply ledger_serialize_writes.
Qed.

(** With proposals to vote on. *)
Lemma dump_with_proposals l mu mo id m :
  (∀ a, old_address_new (old_address_bytes a) = a) → ledger_dumpable l mu mo →
  map_Forall (λ _ m, plan_dumpable (vpm_plan m)) (l_votes l) →
  l_votes l !! id = Some m → proposals (vpm_plan m) ≠ [] →
  ∃ fuel bytes, (∀ n, ledger_serialize (n + fuel) l = Ok bytes) ∧ ledger_deserialize old_address_new bytes = Panic.
Proof.
  intros Hback Hl Hplans Hid Hne.
  destruct (utxos_walk address_dumpable _ _ (ld_utxos _ _ _ Hl)) as (fu & us & Hcu & Hus & _).
  destruct (utxos_walk old_address_dumpable _ _ (ld_oldutxos _ _ _ Hl)) as (fo & olds & Hco & Ho & _).
  destruct (ledger_walk l fu us fo olds Hcu Hco) as [fuel Hwalk].
  destruct (ledger_entries_front l mu mo us olds Hl Hus Ho) as (front & Heq & Hfront).
  pose proof (plans_dumpable l Hplans) as Hok.
  pose proof Hok as Hok0. destruct (plans_split (plans l)) as (ps1 & p & ps2 & Hps & Hnil & Hp).
  { apply Exists_exists. exists (vpm_plan m). split; [|done]. apply list_elem_of_fmap. exists (id, m).
    split; [done|]. by apply elem_of_map_to_list. }
  rewrite Hps in Hok. apply Forall_app in Hok as [Hok1 [Hokp Hok2]%Forall_cons].
  assert (Forall entry_dumpable (front ++ (EntVotePlan <$> ps1))) as Hbefore.
  { apply Forall_app. split; [done|]. apply Forall_fmap, Forall_forall. intros q Hq.
    rewrite Forall_forall in Hok1, Hnil. split; [by apply Hok1|by apply Hnil]. }
  assert (writes (pack_all pack_entry (EntVotePlan <$> ps2))) as Hafter.
  { apply writes_all. intros e (q & -> & Hq)%list_elem_of_fmap. rewrite Forall_forall in Hok2.
    by apply plan_writes, Hok2. }
  assert (ledger_entries l us olds = (front ++ (EntVotePlan <$> ps1)) ++ EntVotePlan p :: (EntVotePlan <$> ps2)) as Hes.
  { by rewrite Heq, Hps, fmap_app, <-app_assoc. }
  assert (writes (pack_all pack_entry (ledger_entries l us olds))) as (bs & Hbs).
  { rewrite Heq. eapply entries_write; [exact Hback|exact Hfront|exact Hok0]. }
  exists fuel, (bs ++ [99]). split; [intros n; by eapply ledger_serialize_writes|].
  eapply (entries_panic old_address_new Hback _ p); [exact Hbefore|done|done| | |exact Hafter].
  - rewrite <-Hes. apply (Hwalk 0%nat).
  - by eapply ledger_serialize_writes.
Qed.

(** The settings that their parameters say in full. *)
Definition settings_plain (s : Settings) : Prop :=
  fees_goes_to s = ToRewards ∧ rewards_limit s = LimitNone ∧ s_pool_participation_capping s = None ∧
  committees s = bft_leaders s ∧ consensus_nonce s = nonce_zero.

(** C20. Any ledger whose parts are in their ranges can be dumped.  Without
    vote plans the dump is read back as the same ledger up to the layout of the
    UTXO trees, but for what has no entry or is dropped when the entries are
    collected: the tokens of the accounts and their totals, the stake pools and the
    governance are gone; of the settings, where the fees go, the reward limit, the
    participation capping and the nonce are those of fresh settings, the fees per
    certificate are none, the BFT leaders are in reverse and the committee is these
    leaders, whatever it was.  With a vote plan that has a proposal, reading
    the dump back always panics: the reader of a proposal's action is a
    [todo!()].  (Builds with debug assertions dump only the ledgers whose settings
    have none of those five set: [to_config_params] asserts that the parameters restore them.) *)
Theorem ledger_dump_recovered l mu mo :
  (∀ a, old_address_new (old_address_bytes a) = a) → ledger_dumpable l mu mo →
  map_Forall (λ _ m, plan_dumpable (vpm_plan m)) (l_votes l) →
  ∃ fuel bytes, (∀ n, ledger_serialize (n + fuel) l = Ok bytes) ∧
    (l_votes l = ∅ → ∃ utxos oldutxos,
      ledger_deserialize old_address_new bytes = Ok (ledger_recovered l utxos oldutxos) ∧
      utxo_repr utxos mu ∧ utxo_repr oldutxos mo) ∧
    (∀ id m, l_votes l !! id = Some m → proposals (vpm_plan m) ≠ [] →
      ledger_deserialize old_address_new bytes = Panic) ∧
    (to_config_params_assertion (l_settings l) ↔ settings_plain (l_settings l)).
Proof.
  intros Hback Hl Hplans. destruct (dump_written l mu mo Hback Hl Hplans) as (fuel & bytes & Hs).
  assert (∀ fuel' bytes', (∀ n, ledger_serialize (n + fuel') l = Ok bytes') → bytes' = bytes) as Hsame.
  { intros fuel' bytes' Hs'. specialize (Hs fuel'). rewrite Nat.add_comm, Hs' in Hs. by injection Hs. }
  exists fuel, bytes. split; [done|]. split; [|split].
  - intros Hv. destruct (dump_without_plans l mu mo Hback Hl Hv) as (f & b & lu & lo & Hb%Hsame & Hd). subst b.
    by exists lu, lo.
  - intros id m Hid Hne. by destruct (dump_with_proposals l mu mo id m Hback Hl Hplans Hid Hne) as (f & b & ->%Hsame & ?).
  - destruct (settings_config_params (l_settings l)) as [Hkept Heq]; [apply Hl|].
    unfold to_config_params_assertion. rewrite Hkept. etransitivity; [|exact Heq]. split; [by intros [=]|congruence].
Qed.
End dump.

(** ** Concrete ledgers *)
#[local] Existing Instance demo_election.
#[local] Existing Instance demo_crypto.

Definition dump_outputs : list (TransactionIndex * Output Address) := imap pair demo_outputs.
Definition dump_utxos : gmap FragmentId (FastSparseArray (Output Address)) :=
  match utxo_add utxo_new (demo_key 7) dump_outputs with Ok l => l | _ => ∅ end.
Definition dump_utxos_map : gmap FragmentId (gmap TransactionIndex (Output Address)) :=
  {[ demo_key 7 := spec_outputs dump_outputs ]}.
Lemma dump_utxos_ok : utxos_dumpable address_dumpable dump_utxos dump_utxos_map.
Proof.
  split.
  - destruct (utxo_add_repr utxo_new ∅ (demo_key 7) dump_outputs) as (l & Hl & Hr);
      [apply utxo_repr_new|done|vm_compute; lia|repeat constructor; vm_compute; lia|].
    unfold dump_utxos. by rewrite Hl.
  - apply map_Forall_singleton. split; [reflexivity|]. split; [vm_compute; lia|].
    unfold spec_outputs, dump_outputs. cbn. repeat (apply map_Forall_insert_2; [by repeat split|]). apply map_Forall_empty.
Qed.
Definition dump_account : DumpedAccount :=
  mkState (mkSpending [0; 536870912; 1073741824; 1610612736; 2147483648; 2684354560; 3221225472; 3758096384])
    (DFull (demo_key 4)) 7 {[ demo_token := 5 ]} (mkLastRewards 1 2) ().
Definition dump_settings : Settings :=
  mkSettings Bft nonce_zero 1 10 10 milli_half 102400 [demo_key 1; demo_key 2] (linear_fee_new 2 3 4) 100 None None
    ToRewards LimitNone None [] 1.
(** A ledger with two outputs, an account with tokens, a stake pool, a leader
    log and two BFT leaders. *)
Definition dump_ledger (votes : gmap VotePlanId VotePlanManager) : Ledger :=
  mkLedger dump_utxos utxo_new {[ demo_key 5 := dump_account ]} dump_settings ∅ (mkMultisig ∅ ∅)
    {[ demo_key 4 := mkPoolState (mkPoolRewards 0 0 0) demo_pool ]} demo_static (mkDate 1 2) 9 (mkEra 0 0 100)
    (mkPots 0 (mkTreasury 50) 1000) (mkLeaders 3 {[ demo_key 4 := 3 ]}) votes governance_default {[ demo_token := 5 ]}.
Lemma dump_ledger_ok votes : ledger_dumpable (dump_ledger votes) dump_utxos_map ∅.
Proof.
  split; cbn [dump_ledger l_date l_chain_length l_static_params l_era l_utxos l_oldutxos l_accounts l_settings l_updates
    l_multisig l_delegation l_pots l_leaders_log ms_accounts ms_declarations leaders_map].
  - by repeat split.
  - apply dump_utxos_ok.
  - split; [apply utxo_repr_new|apply map_Forall_empty].
  - apply map_Forall_singleton. split; [reflexivity|]. split; [|by repeat split].
    split; [reflexivity|]. intros i c Hi. cbn in Hi. do 8 (destruct i as [|i]; [by injection Hi as <-|]). done.
  - repeat constructor; done.
  - done.
  - apply map_Forall_empty.
  - apply map_Forall_empty.
  - apply map_Forall_empty.
  - apply map_Forall_singleton. split; [reflexivity|]. split; [|by repeat split]. 
    split_and!; try done; repeat constructor; done.
  - repeat constructor; done.
  - split; [|by apply map_Forall_singleton]. split; [by apply map_Forall_singleton|]. done.
Qed.
Definition dump_votes : VotePlanManager := demo_vpm (PMPublic [demo_manager ∅]) PayPublic.
Definition dump_old_address (bytes : list Z) : @OldAddress demo_crypto := ().
Lemma ledger_dump_recovered_witness :
  (∃ fuel bytes l', ledger_serialize fuel (dump_ledger ∅) = Ok bytes ∧
    ledger_deserialize dump_old_address bytes = Ok l' ∧
    l_delegation l' = ∅ ∧ bft_leaders (l_settings l') = [demo_key 2; demo_key 1] ∧
    committees (l_settings (dump_ledger ∅)) = [] ∧ committees (l_settings l') = [demo_key 2; demo_key 1] ∧
    ¬ to_config_params_assertion (l_settings (dump_ledger ∅))) ∧
  (∃ fuel bytes, ledger_serialize fuel (dump_ledger {[ demo_key 9 := dump_votes ]}) = Ok bytes ∧
    ledger_deserialize dump_old_address bytes = Panic).
Proof.
  split.
  - destruct (ledger_dump_recovered dump_old_address (dump_ledger ∅) dump_utxos_map ∅)
      as (fuel & bytes & Hs & Hd & _ & Hassert); [by intros []|apply dump_ledger_ok|apply map_Forall_empty|].
    destruct (Hd eq_refl) as (lu & lo & Hd' & _).
    exists fuel, bytes, (ledger_recovered (dump_ledger ∅) lu lo). split; [apply (Hs 0%nat)|]. split; [exact Hd'|].
    split_and!; [reflexivity..|]. rewrite Hassert. by intros (_ & _ & _ & Hc & _).
  - destruct (ledger_dump_recovered dump_old_address (dump_ledger {[ demo_key 9 := dump_votes ]}) dump_utxos_map ∅)
      as (fuel & bytes & Hs & _ & Hd & _); [by intros []|apply dump_ledger_ok| |].
    + apply map_Forall_singleton. split_and!; try done; repeat constructor; done.
    + exists fuel, bytes. split; [apply (Hs 0%nat)|]. apply (Hd (demo_key 9) dump_votes); [reflexivity|done].
Defined.
