(* ===== verification/Storage.v ===== *)
(** * The block store ([chain-storage/src])

    Blocks live in a volatile store, a database with the blocks of all
    branches, until they are flushed to the permanent store, a pile of blocks
    in the order of the chain.  The databases are external: [Sled] is the tree
    database and [DataPile] the append-only one, each with the operations that
    the code calls; [StorageSpec] states what their documentation promises.  A
    failed operation leaves its database as it was. *)
From S2P Require Import Prelude Codec.
Local Open Scope Z_scope.

(** ** The databases *)
Class Sled := {
  Tree : Type;
  SledError : Type;
  tree_get : Tree → list Z → outcome SledError (option (list Z));
  tree_contains_key : Tree → list Z → outcome SledError bool;
  tree_insert : Tree → list Z → list Z → outcome SledError (Tree * option (list Z));
  tree_remove : Tree → list Z → outcome SledError (Tree * option (list Z));
  tree_iter : Tree → list (outcome SledError (list Z * list Z));
  tree_scan_prefix : Tree → list Z → list (outcome SledError (list Z * list Z)) }.
Class DataPile := {
  Pile : Type;
  PileError : Type;
  SeqNoIter : Type;
  pile_get_by_seqno : Pile → nat → option (list Z);
  pile_append : Pile → list (list Z) → outcome PileError Pile;
  pile_iter_from_seqno : Pile → nat → option SeqNoIter;
  seqno_iter_next : SeqNoIter → option (list Z) * SeqNoIter }.

(** ** [error.rs] *)
Inductive ConsistencyFailure :=
| MissingParentBlock | ChainLengthFailure | BlockInfoFailure | TaggedBlock | MissingPermanentBlock.
Inductive StoreError {SE PE : Type} :=
| StoreOpen (e : IoError)
| BlockNotFound
| VolatileBackendError (e : SE)
| PermanentBackendError (e : PE)
| BlockAlreadyPresent
| MissingParent
| BranchNotFound
| BlockInfoSerialize (e : IoError)
| BlockInfoDeserialize (e : IoError)
| Inconsistent (c : ConsistencyFailure)
| CannotIterate.
Arguments StoreError : clear implicits.

(** ** [block_info.rs] *)
Record BlockInfo := mkInfo {
  bi_id : list Z; bi_parent_id : list Z; bi_chain_length : Z; bi_parent_ref_count : Z; bi_tags_ref_count : Z }.
Definition block_info_new (id parent_id : list Z) (chain_length : Z) : BlockInfo :=
  mkInfo id parent_id chain_length 0 0.
Definition ref_count (i : BlockInfo) : Z := wrap 32 (bi_parent_ref_count i + bi_tags_ref_count i).
Definition set_parent_refs (i : BlockInfo) (n : Z) : BlockInfo :=
  mkInfo (bi_id i) (bi_parent_id i) (bi_chain_length i) n (bi_tags_ref_count i).
Definition set_tags_refs (i : BlockInfo) (n : Z) : BlockInfo :=
  mkInfo (bi_id i) (bi_parent_id i) (bi_chain_length i) (bi_parent_ref_count i) n.
Definition add_parent_ref (i : BlockInfo) : BlockInfo := set_parent_refs i (wrap 32 (bi_parent_ref_count i + 1)).
Definition remove_parent_ref (i : BlockInfo) : BlockInfo := set_parent_refs i (wrap 32 (bi_parent_ref_count i - 1)).
Definition add_tag_ref (i : BlockInfo) : BlockInfo := set_tags_refs i (wrap 32 (bi_tags_ref_count i + 1)).
Definition remove_tag_ref (i : BlockInfo) : BlockInfo := set_tags_refs i (wrap 32 (bi_tags_ref_count i - 1)).
Definition info_serialize (i : BlockInfo) : list Z :=
  le_bytes 4 (bi_chain_length i) ++ le_bytes 4 (bi_parent_ref_count i) ++ le_bytes 4 (bi_tags_ref_count i) ++
  bi_parent_id i.
Definition info_deserialize_io (r : list Z) (id_size : nat) (id : list Z) : outcome IoError BlockInfo :=
  '(chain_length, r) ← codec_get_le 4 r;
  '(parent_ref_count, r) ← codec_get_le 4 r;
  '(tags_ref_count, r) ← codec_get_le 4 r;
  '(parent_id, _) ← codec_get id_size r;
  Ok (mkInfo id parent_id chain_length parent_ref_count tags_ref_count).

(** ** Keys of the index of chain lengths *)
Definition build_chain_length_index_prefix (chain_length : Z) : list Z := be_bytes 4 chain_length.
Definition build_chain_length_index (chain_length : Z) (block_id : list Z) : list Z :=
  build_chain_length_index_prefix chain_length ++ block_id.
Definition block_id_from_chain_length_index {E} (index : list Z) : outcome E (list Z) :=
  if decide (4 ≤ length index)%nat then Ok (drop 4 index) else Panic.

Section store.
Context `{Sled} `{DataPile}.
Abbreviation Error := (StoreError SledError PileError).
Implicit Types (id block : list Z).

Definition sled {A} (m : outcome SledError A) : outcome Error A := map_err VolatileBackendError m.
Definition info_deserialize (r : list Z) (id_size : nat) (id : list Z) : outcome Error BlockInfo :=
  map_err BlockInfoDeserialize (info_deserialize_io r id_size id).

(** ** [permanent_store.rs] *)
Record PermanentStore := mkPermanent {
  ps_blocks : Pile; ps_chain_length_index : Pile; ps_block_id_index : Tree; ps_root_id : list Z }.
Implicit Types (p : PermanentStore).
Definition get_block_by_chain_length p (chain_length : Z) : option (list Z) :=
  pile_get_by_seqno (ps_blocks p) (Z.to_nat chain_length).
Definition get_chain_length p id : outcome Error (option Z) :=
  found ← sled (tree_get (ps_block_id_index p) id);
  match found with
  | None => Ok None
  | Some slice => if decide (length slice = 4%nat) then Ok (Some (from_le slice)) else Panic
  end.
Definition ps_get_block p id : outcome Error (option (list Z)) :=
  maybe_chain_length ← get_chain_length p id;
  Ok (maybe_chain_length ≫= get_block_by_chain_length p).
(** The parent of a block by its chain length. *)
Definition ps_parent_id p (chain_length : Z) : outcome Error (list Z) :=
  if decide (1 ≤ chain_length)
  then ok_or (pile_get_by_seqno (ps_chain_length_index p) (Z.to_nat (chain_length - 1))) (Inconsistent ChainLengthFailure)
  else Ok (ps_root_id p).
Definition ps_get_block_info p id : outcome Error (option BlockInfo) :=
  chain_length ← get_chain_length p id;
  match chain_length with
  | None => Ok None
  | Some chain_length =>
      parent_id ← ps_parent_id p chain_length;
      Ok (Some (block_info_new id parent_id chain_length))
  end.
Definition get_block_info_by_chain_length p (chain_length : Z) : outcome Error (option BlockInfo) :=
  match pile_get_by_seqno (ps_chain_length_index p) (Z.to_nat chain_length) with
  | None => Ok None
  | Some block_id =>
      parent_id ← ps_parent_id p chain_length;
      Ok (Some (block_info_new block_id parent_id chain_length))
  end.
Definition ps_contains_key p id : outcome Error bool := sled (tree_contains_key (ps_block_id_index p) id).
Definition ps_iter p (chain_length : Z) : outcome Error SeqNoIter :=
  ok_or (pile_iter_from_seqno (ps_blocks p) (Z.to_nat chain_length)) BlockNotFound.

(** ** [block_store.rs]: the state *)
Record BlockStore := mkStore {
  permanent : PermanentStore;
  root_id : list Z;
  id_length : nat;
  blocks_tree : Tree;
  info_tree : Tree;
  chain_length_index_tree : Tree;
  branches_tips_tree : Tree;
  tags_tree : Tree }.
Implicit Types (s : BlockStore).
Definition block_store_new (root : list Z) (p : PermanentStore) (blocks info index tips tags : Tree) : BlockStore :=
  mkStore p root (length root) blocks info index tips tags.
Inductive RemoveTipResult := NextTip (id : list Z) | HitPermanentStore (id : list Z) | Done.

Definition set_permanent s p : BlockStore :=
  mkStore p (root_id s) (id_length s) (blocks_tree s) (info_tree s) (chain_length_index_tree s) (branches_tips_tree s) (tags_tree s).
Definition set_blocks s t : BlockStore :=
  mkStore (permanent s) (root_id s) (id_length s) t (info_tree s) (chain_length_index_tree s) (branches_tips_tree s) (tags_tree s).
Definition set_info s t : BlockStore :=
  mkStore (permanent s) (root_id s) (id_length s) (blocks_tree s) t (chain_length_index_tree s) (branches_tips_tree s) (tags_tree s).
Definition set_length_index s t : BlockStore :=
  mkStore (permanent s) (root_id s) (id_length s) (blocks_tree s) (info_tree s) t (branches_tips_tree s) (tags_tree s).
Definition set_tips s t : BlockStore :=
  mkStore (permanent s) (root_id s) (id_length s) (blocks_tree s) (info_tree s) (chain_length_index_tree s) t (tags_tree s).
Definition set_tags s t : BlockStore :=
  mkStore (permanent s) (root_id s) (id_length s) (blocks_tree s) (info_tree s) (chain_length_index_tree s) (branches_tips_tree s) t.
(** [insert] and [remove] on one of the trees, their old value dropped. *)
Definition insert_in (get : BlockStore → Tree) (set : BlockStore → Tree → BlockStore) (key value : list Z) s :
    outcome Error BlockStore :=
  '(t, _) ← sled (tree_insert (get s) key value); Ok (set s t).
Definition remove_in (get : BlockStore → Tree) (set : BlockStore → Tree → BlockStore) (key : list Z) s :
    outcome Error BlockStore :=
  '(t, _) ← sled (tree_remove (get s) key); Ok (set s t).
Definition insert_block := insert_in blocks_tree set_blocks.
Definition insert_info := insert_in info_tree set_info.
Definition insert_index := insert_in chain_length_index_tree set_length_index.
Definition insert_tip := insert_in branches_tips_tree set_tips.
Definition remove_block := remove_in blocks_tree set_blocks.
Definition remove_info := remove_in info_tree set_info.
Definition remove_index := remove_in chain_length_index_tree set_length_index.
Definition remove_tip := remove_in branches_tips_tree set_tips.

(** ** The operations change the store and may fail half way; a transaction
    that fails changes nothing. *)
Definition StoreM (A : Type) : Type := BlockStore → BlockStore * outcome Error A.
#[export] Instance store_ret : MRet StoreM := λ A a s, (s, Ok a).
#[export] Instance store_bind : MBind StoreM := λ A B f m s,
  match m s with (s, Ok a) => f a s | (s, Err e) => (s, Err e) | (s, Panic) => (s, Panic) end.
Definition reads_store {A} (f : BlockStore → outcome Error A) : StoreM A := λ s, (s, f s).
Definition store_fail {A} (e : Error) : StoreM A := λ s, (s, Err e).
Definition transaction {A} (f : BlockStore → outcome Error (BlockStore * A)) : StoreM A := λ s,
  match f s with Ok (s, a) => (s, Ok a) | Err e => (s, Err e) | Panic => (s, Panic) end.
Definition changes_store (f : BlockStore → outcome Error BlockStore) : StoreM unit :=
  transaction (λ s, s ← f s; Ok (s, ())).

(** ** Reading *)
Definition block_exists_volatile s id : outcome Error bool := sled (tree_contains_key (info_tree s) id).
Definition block_exists s id : outcome Error bool :=
  found ← ps_contains_key (permanent s) id;
  if (found : bool) then Ok true else block_exists_volatile s id.
Definition get_block s id : outcome Error (list Z) :=
  found ← ps_get_block (permanent s) id;
  match found with
  | Some block => Ok block
  | None => maybe_block ← sled (tree_get (blocks_tree s) id); ok_or maybe_block BlockNotFound
  end.
Definition get_block_info_volatile s id : outcome Error BlockInfo :=
  maybe_block ← sled (tree_get (info_tree s) id);
  block_info_bin ← ok_or maybe_block BlockNotFound;
  info_deserialize block_info_bin (id_length s) id.
Definition get_block_info s id : outcome Error BlockInfo :=
  found ← ps_get_block_info (permanent s) id;
  match found with Some info => Ok info | None => get_block_info_volatile s id end.
Definition get_blocks_by_chain_length s (chain_length : Z) : outcome Error (list (list Z)) :=
  match get_block_by_chain_length (permanent s) chain_length with
  | Some block => Ok [block]
  | None =>
      mapM (λ scan_result,
        '(key, _) ← sled scan_result;
        id ← block_id_from_chain_length_index key;
        maybe_block ← sled (tree_get (blocks_tree s) id);
        ok_or maybe_block (Inconsistent ChainLengthFailure))
        (tree_scan_prefix (chain_length_index_tree s) (build_chain_length_index_prefix chain_length))
  end.
Definition store_get_tag s (tag_name : list Z) : outcome Error (option (list Z)) := sled (tree_get (tags_tree s) tag_name).
Definition get_tips_ids s : outcome Error (list (list Z)) :=
  mapM (λ id_result, fst <$> sled id_result) (tree_iter (branches_tips_tree s)).

(** [.map(Some).or_else(..)]: not found is [None]. *)
Definition found_or_none {A} (m : outcome Error A) : outcome Error (option A) :=
  match m with Ok a => Ok (Some a) | Err BlockNotFound => Ok None | Err e => Err e | Panic => Panic end.

(** ** Ancestors; the fuel bounds the walk over parents *)
Fixpoint is_ancestor_loop (fuel : nat) s (ancestor_id : list Z) (current : BlockInfo) (distance : Z) :
    outcome Error (option Z) :=
  match fuel with
  | O => Panic
  | S fuel =>
      parent ← found_or_none (get_block_info_volatile s (bi_parent_id current));
      match parent with
      | Some parent =>
          let distance := wrap 32 (distance + 1) in
          if decide (bi_id parent = ancestor_id) then Ok (Some distance)
          else is_ancestor_loop fuel s ancestor_id parent distance
      | None => Ok None
      end
  end.
Definition is_ancestor (fuel : nat) s (ancestor_id descendant_id : list Z) : outcome Error (option Z) :=
  descendant ← get_block_info s descendant_id;
  if decide (ancestor_id = descendant_id) then Ok (Some 0)
  else if decide (ancestor_id = root_id s) then Ok (Some (bi_chain_length descendant))
  else
    found ← ps_get_block_info (permanent s) ancestor_id;
    match found with
    | Some ancestor =>
        if bi_chain_length ancestor <? bi_chain_length descendant
        then Ok (Some (bi_chain_length descendant - bi_chain_length ancestor))
        else Ok None
    | None =>
        ancestor ← get_block_info_volatile s ancestor_id;
        if bi_chain_length descendant <=? bi_chain_length ancestor then Ok None
        else if decide (bi_parent_id descendant = bi_id ancestor) then Ok (Some 1)
        else
          match tree_scan_prefix (chain_length_index_tree s) (build_chain_length_index_prefix (bi_chain_length ancestor)) with
          | chain_length_res :: rest =>
              sled chain_length_res ;;
              match rest with
              | [] => Ok (Some (bi_chain_length descendant - bi_chain_length ancestor))
              | _ :: _ => is_ancestor_loop fuel s ancestor_id descendant 0
              end
          | [] => is_ancestor_loop fuel s ancestor_id descendant 0
          end
    end.

Fixpoint nth_ancestor_loop (fuel : nat) s (target : Z) (current : BlockInfo) : outcome Error BlockInfo :=
  match fuel with
  | O => Panic
  | S fuel =>
      if target <? bi_chain_length current then
        current ← get_block_info_volatile s (bi_parent_id current);
        nth_ancestor_loop fuel s target current
      else Ok current
  end.
Definition get_nth_ancestor (fuel : nat) s id (distance : Z) : outcome Error BlockInfo :=
  current ← get_block_info s id;
  if bi_chain_length current <? distance then Err CannotIterate
  else
    let target := bi_chain_length current - distance in
    found ← get_block_info_by_chain_length (permanent s) target;
    match found with
    | Some info => Ok info
    | None =>
        match tree_scan_prefix (chain_length_index_tree s) (build_chain_length_index_prefix target) with
        | chain_length_res :: rest =>
            '(chain_length_index_entry, _) ← sled chain_length_res;
            match rest with
            | [] => id ← block_id_from_chain_length_index chain_length_index_entry; get_block_info s id
            | _ :: _ => nth_ancestor_loop fuel s target current
            end
        | [] => nth_ancestor_loop fuel s target current
        end
    end.

Fixpoint lca_loop (fuel : nat) s (current1 current2 : BlockInfo) : outcome Error (BlockInfo * BlockInfo) :=
  match fuel with
  | O => Panic
  | S fuel =>
      if bool_decide (bi_id current2 ≠ bi_id current1) && (0 <? bi_chain_length current1) then
        current1 ← get_block_info s (bi_parent_id current1);
        current2 ← get_block_info s (bi_parent_id current2);
        lca_loop fuel s current1 current2
      else Ok (current1, current2)
  end.
Definition find_lowest_common_ancestor (fuel : nat) s (block1 block2 : list Z) : outcome Error (option BlockInfo) :=
  pstore1 ← ps_get_block_info (permanent s) block1;
  pstore2 ← ps_get_block_info (permanent s) block2;
  match pstore1, pstore2 with
  | Some block1, Some block2 =>
      if bi_chain_length block1 <? bi_chain_length block2 then Ok (Some block1) else Ok (Some block2)
  | Some block, None =>
      found ← block_exists_volatile s block2; if (found : bool) then Ok (Some block) else Err BlockNotFound
  | None, Some block =>
      found ← block_exists_volatile s block1; if (found : bool) then Ok (Some block) else Err BlockNotFound
  | None, None =>
      current1 ← get_block_info_volatile s block1;
      current2 ← get_block_info_volatile s block2;
      let '(current1, current2) :=
        if bi_chain_length current2 <? bi_chain_length current1 then (current2, current1) else (current1, current2) in
      current2 ← get_nth_ancestor fuel s (bi_id current2) (bi_chain_length current2 - bi_chain_length current1);
      '(current1, current2) ← lca_loop fuel s current1 current2;
      if decide (bi_id current1 ≠ bi_id current2) then Ok None else Ok (Some current1)
  end.

(** ** Writing a block *)
Definition put_block_impl block (block_info : BlockInfo) (parent_external : bool) s : outcome Error BlockStore :=
  parent_in_volatile_store ←
    if parent_external || bool_decide (bi_parent_id block_info = root_id s) then Ok false
    else
      found ← sled (tree_get (info_tree s) (bi_parent_id block_info));
      match found with None => Err MissingParent | Some _ => Ok true end;
  s ← if (parent_in_volatile_store : bool) then
        found ← sled (tree_get (info_tree s) (bi_parent_id block_info));
        parent_block_info_bin ← ok_or found (Inconsistent BlockInfoFailure);
        parent_block_info ← info_deserialize parent_block_info_bin (id_length s) (bi_parent_id block_info);
        let parent_block_info := add_parent_ref parent_block_info in
        insert_info (bi_id parent_block_info) (info_serialize parent_block_info) s
      else Ok s;
  s ← remove_tip (bi_parent_id block_info) s;
  s ← insert_tip (bi_id block_info) [] s;
  s ← insert_index (build_chain_length_index (bi_chain_length block_info) (bi_id block_info)) [] s;
  s ← insert_block (bi_id block_info) block s;
  insert_info (bi_id block_info) (info_serialize block_info) s.
Definition put_block block (block_info : BlockInfo) : StoreM unit :=
  found ← reads_store (λ s, block_exists s (bi_id block_info));
  if (found : bool) then store_fail BlockAlreadyPresent
  else
    parent_in_permanent_store ← reads_store (λ s, ps_contains_key (permanent s) (bi_parent_id block_info));
    changes_store (put_block_impl block block_info parent_in_permanent_store).

(** ** Tags *)
Definition put_tag_impl (tag_name id : list Z) s : outcome Error BlockStore :=
  found ← sled (tree_get (info_tree s) id);
  s ← match found with
      | Some info_bin =>
          block_info ← info_deserialize info_bin (id_length s) id;
          insert_info id (info_serialize (add_tag_ref block_info)) s
      | None =>
          found ← sled (tree_get (ps_block_id_index (permanent s)) id);
          match found with None => Err BlockNotFound | Some _ => Ok s end
      end;
  '(tags, maybe_old_block_id) ← sled (tree_insert (tags_tree s) tag_name id);
  let s := set_tags s tags in
  match maybe_old_block_id with
  | Some old_block_id =>
      found ← sled (tree_get (info_tree s) old_block_id);
      info_bin ← ok_or found (Inconsistent TaggedBlock);
      block_info ← info_deserialize info_bin (id_length s) old_block_id;
      let block_info := remove_tag_ref block_info in
      insert_info (bi_id block_info) (info_serialize block_info) s
  | None => Ok s
  end.
Definition put_tag (tag_name id : list Z) : StoreM unit := changes_store (put_tag_impl tag_name id).

(** ** Pruning a branch, from its tip to its fork; the fuel bounds its blocks *)
Definition in_permanent s id : outcome Error bool :=
  found ← sled (tree_get (ps_block_id_index (permanent s)) id);
  Ok match found with Some _ => true | None => false end.
Definition remove_tip_impl id s : outcome Error (BlockStore * RemoveTipResult) :=
  here ← in_permanent s id;
  if (here : bool) then Ok (s, Done)
  else
    found ← sled (tree_get (info_tree s) id);
    block_info_bin ← ok_or found (Inconsistent BlockInfoFailure);
    block_info ← info_deserialize block_info_bin (id_length s) id;
    if negb (ref_count block_info =? 0) then Ok (s, Done)
    else
      s ← remove_info id s;
      s ← remove_block id s;
      s ← remove_index (build_chain_length_index (bi_chain_length block_info) (bi_id block_info)) s;
      s ← remove_tip id s;
      if decide (bi_parent_id block_info = root_id s) then Ok (s, Done)
      else
        parent_permanent ← in_permanent s (bi_parent_id block_info);
        if (parent_permanent : bool) then Ok (s, HitPermanentStore (bi_parent_id block_info))
        else
          found ← sled (tree_get (info_tree s) (bi_parent_id block_info));
          parent_block_info_bin ← ok_or found (Inconsistent MissingParentBlock);
          parent_block_info ← info_deserialize parent_block_info_bin (id_length s) (bi_parent_id block_info);
          let parent_block_info := remove_parent_ref parent_block_info in
          s ← insert_info (bi_id parent_block_info) (info_serialize parent_block_info) s;
          if negb (bi_parent_ref_count parent_block_info =? 0) then Ok (s, Done)
          else
            s ← insert_tip (bi_parent_id block_info) [] s;
            if negb (ref_count parent_block_info =? 0) then Ok (s, Done)
            else Ok (s, NextTip (bi_parent_id block_info)).
Fixpoint prune_loop (fuel : nat) (result : RemoveTipResult) s : outcome Error (BlockStore * RemoveTipResult) :=
  match fuel with
  | O => Panic
  | S fuel =>
      match result with
      | NextTip id => '(s, result) ← remove_tip_impl id s; prune_loop fuel result s
      | _ => Ok (s, result)
      end
  end.
Definition prune_branch (fuel : nat) (tip_id : list Z) : StoreM unit :=
  found ← reads_store (λ s, sled (tree_contains_key (branches_tips_tree s) tip_id));
  if negb found then store_fail BranchNotFound
  else
    result ← transaction (prune_loop fuel (NextTip tip_id));
    match result with
    | HitPermanentStore id =>
        block_info ← reads_store (λ s, map_err (λ e, match e with
          | BlockNotFound => Inconsistent MissingPermanentBlock | e => e end) (get_block_info s id));
        let chain_length := wrap 32 (bi_chain_length block_info + 1) in
        blocks ← reads_store (λ s, get_blocks_by_chain_length s chain_length);
        match blocks with
        | [] => changes_store (insert_tip (bi_id block_info) [])
        | _ :: _ => mret ()
        end
    | _ => mret ()
    end.

(** ** Flushing to the permanent store *)
Definition ps_append_blocks (blocks : list (list Z)) s : outcome Error BlockStore :=
  let p := permanent s in
  pile ← map_err PermanentBackendError (pile_append (ps_blocks p) blocks);
  Ok (set_permanent s (mkPermanent pile (ps_chain_length_index p) (ps_block_id_index p) (ps_root_id p))).
Definition ps_append_ids (ids : list (list Z)) s : outcome Error BlockStore :=
  let p := permanent s in
  pile ← map_err PermanentBackendError (pile_append (ps_chain_length_index p) ids);
  Ok (set_permanent s (mkPermanent (ps_blocks p) pile (ps_block_id_index p) (ps_root_id p))).
Definition ps_index_id (id : list Z) (chain_length : Z) s : outcome Error BlockStore :=
  let p := permanent s in
  '(t, _) ← sled (tree_insert (ps_block_id_index p) id (le_bytes 4 chain_length));
  Ok (set_permanent s (mkPermanent (ps_blocks p) (ps_chain_length_index p) t (ps_root_id p))).
Fixpoint ps_index_ids (i : nat) (start_chain_length : Z) (ids : list (list Z)) : StoreM unit :=
  match ids with
  | [] => mret ()
  | id :: ids =>
      changes_store (ps_index_id id (wrap 32 (start_chain_length + Z.of_nat i))) ;;
      ps_index_ids (S i) start_chain_length ids
  end.
Definition put_blocks (start_chain_length : Z) (ids blocks : list (list Z)) : StoreM unit :=
  reads_store (λ _, assert_that (length ids =? length blocks)%nat) ;;
  changes_store (ps_append_blocks blocks) ;;
  changes_store (ps_append_ids ids) ;;
  ps_index_ids 0 start_chain_length ids.

(** The volatile blocks from one down, each the parent of the one before. *)
Fixpoint gather_infos (fuel : nat) s (current_block_id : list Z) : outcome Error (list BlockInfo) :=
  match fuel with
  | O => Panic
  | S fuel =>
      found ← found_or_none (get_block_info_volatile s current_block_id);
      match found with
      | Some info => cons info <$> gather_infos fuel s (bi_parent_id info)
      | None => Ok []
      end
  end.
Fixpoint flush_remove (i : nat) (start_chain_length : Z) (infos : list BlockInfo) : StoreM unit :=
  match infos with
  | [] => mret ()
  | info :: infos =>
      let key := bi_id info in
      let chain_length := wrap 32 (start_chain_length + Z.of_nat i) in
      changes_store (remove_info key) ;;
      changes_store (remove_block key) ;;
      changes_store (remove_index (build_chain_length_index chain_length key)) ;;
      flush_remove (S i) start_chain_length infos
  end.
(** The blocks go from the lowest up to the permanent store. *)
Definition flush_infos (block_info : BlockInfo) (parents : list BlockInfo) : StoreM nat :=
  let block_infos := block_info :: parents in
  blocks ← reads_store (λ s, mapM (λ info, get_block s (bi_id info)) (reverse block_infos));
  let ids := bi_id <$> reverse block_infos in
  let start_chain_length := bi_chain_length (List.last block_infos block_info) in
  put_blocks start_chain_length ids blocks ;;
  flush_remove 0 start_chain_length block_infos ;;
  mret (length block_infos).
Definition flush_to_permanent_store (fuel : nat) (to_block : list Z) (min_number : nat) : StoreM nat :=
  reads_store (λ _, assert_that (0 <? min_number)%nat) ;;
  maybe_block_info ← reads_store (λ s, found_or_none (get_block_info_volatile s to_block));
  match maybe_block_info with
  | None => mret 0%nat
  | Some block_info =>
      min_length ← reads_store (λ _, if Z.of_nat min_number <? 2 ^ 32 then Ok (Z.of_nat min_number) else Panic);
      if bi_chain_length block_info <? min_length then mret 0%nat
      else
        at_length ← reads_store (λ s, Ok (tree_scan_prefix (chain_length_index_tree s)
          (build_chain_length_index_prefix (bi_chain_length block_info - min_length))));
        match at_length with
        | [] => mret 0%nat
        | first :: _ =>
            reads_store (λ _, sled first) ;;
            parents ← reads_store (λ s, gather_infos fuel s (bi_parent_id block_info));
            if (length (block_info :: parents) <? min_number)%nat then mret 0%nat
            else flush_infos block_info parents
        end
  end.

(** ** [iterator.rs]; the iterator shares the trees of the store *)
Inductive IteratorState :=
| IterPermanent (iter : SeqNoIter) (current_length stop_at_length : Z)
| IterVolatile (ids : list (list Z)).
Record StorageIterator := mkIterator { it_state : IteratorState; it_to : list Z }.
(** The identifiers from [to] down to a length, in the order of [push]. *)
Fixpoint gather_loop (fuel : nat) (block_info : Tree) (id_size : nat) (current_info : BlockInfo) (stop_at_length : Z)
    (ids : list (list Z)) : outcome Error (list (list Z)) :=
  match fuel with
  | O => Panic
  | S fuel =>
      if bi_chain_length current_info <? stop_at_length then Ok ids
      else
        let ids := ids ++ [bi_id current_info] in
        if bi_chain_length current_info =? stop_at_length then Ok ids
        else
          found ← sled (tree_get block_info (bi_parent_id current_info));
          bin ← ok_or found (Inconsistent MissingParentBlock);
          parent ← info_deserialize bin id_size (bi_parent_id current_info);
          gather_loop fuel block_info id_size parent stop_at_length ids
  end.
Definition gather_blocks_ids (fuel : nat) (to : list Z) (block_info : Tree) (stop_at_length : Z) :
    outcome Error (list (list Z)) :=
  let id_size := length to in
  maybe_block_info ← sled (tree_get block_info to);
  match maybe_block_info with
  | None => Ok []
  | Some block_info_bin =>
      current_info ← info_deserialize block_info_bin id_size to;
      gather_loop fuel block_info id_size current_info stop_at_length []
  end.
Definition storage_iterator_new (fuel : nat) s (to : list Z) (distance : Z) : outcome Error StorageIterator :=
  found ← sled (tree_get (info_tree s) to);
  to_info ← match found with
            | Some to_info_bin => info_deserialize to_info_bin (length to) to
            | None => found ← ps_get_block_info (permanent s) to; ok_or found BlockNotFound
            end;
  if wrap 32 (bi_chain_length to_info + 1) <? distance then Err CannotIterate
  else
    let from_length := wrap 32 (bi_chain_length to_info + 1) - distance in
    match get_block_by_chain_length (permanent s) from_length with
    | Some _ =>
        iter ← ps_iter (permanent s) from_length;
        Ok (mkIterator (IterPermanent iter from_length (bi_chain_length to_info)) to)
    | None =>
        ids ← gather_blocks_ids fuel to (info_tree s) from_length;
        Ok (mkIterator (IterVolatile ids) to)
    end.
Definition iter_next_volatile s (it : StorageIterator) (ids : list (list Z)) :
    option (outcome Error (list Z)) * StorageIterator :=
  match last ids with
  | None => (None, it)
  | Some id =>
      (match sled (tree_get (blocks_tree s) id) with
       | Ok (Some block) => Some (Ok block)
       | Ok None => None
       | Err e => Some (Err e)
       | Panic => Some Panic
       end, mkIterator (IterVolatile (removelast ids)) (it_to it))
  end.
Definition iter_next (fuel : nat) s (it : StorageIterator) : option (outcome Error (list Z)) * StorageIterator :=
  match it_state it with
  | IterPermanent iter current_length stop_at_length =>
      if current_length =? stop_at_length then (None, it)
      else
        match seqno_iter_next iter with
        | (Some item, iter) =>
            (Some (Ok item), mkIterator (IterPermanent iter (wrap 32 (current_length + 1)) stop_at_length) (it_to it))
        | (None, iter) =>
            match gather_blocks_ids fuel (it_to it) (info_tree s) current_length with
            | Ok ids => iter_next_volatile s (mkIterator (IterVolatile ids) (it_to it)) ids
            | Err e => (Some (Err e), mkIterator (IterPermanent iter current_length stop_at_length) (it_to it))
            | Panic => (Some Panic, it)
            end
        end
  | IterVolatile ids => iter_next_volatile s it ids
  end.
(** The items of the iterator; the fuel bounds their number. *)
Fixpoint store_iter_collect (n fuel : nat) s (it : StorageIterator) : outcome Error (list (list Z)) :=
  match n with
  | O => Panic
  | S n =>
      match iter_next fuel s it with
      | (None, _) => Ok []
      | (Some item, it) => block ← item; cons block <$> store_iter_collect n fuel s it
      end
  end.
Definition store_iter (fuel : nat) s (to_block : list Z) (distance : Z) : outcome Error StorageIterator :=
  storage_iterator_new fuel s to_block distance.
End store.
