(* ===== verification/StorageSpec.v ===== *)
(** * What the block store keeps ([chain-storage/src])

    [SledLaws] and [DataPileLaws] state what the databases promise: a tree is a
    finite map, a pile is a list.  [store_repr] relates a store to the blocks
    of its branches, the permanent chain and the tags. *)
From S2P Require Import Prelude Codec Storage.
Local Open Scope Z_scope.

(** ** The databases *)
Abbreviation TreeMap := (gmap (list Z) (list Z)).
Class SledLaws `{Sled} := {
  tree_map : Tree → TreeMap;
  tree_get_map t k : tree_get t k = Ok (tree_map t !! k);
  tree_contains_key_map t k : tree_contains_key t k = Ok (bool_decide (is_Some (tree_map t !! k)));
  tree_insert_map t k v :
    ∃ t', tree_insert t k v = Ok (t', tree_map t !! k) ∧ tree_map t' = <[k := v]> (tree_map t);
  tree_remove_map t k :
    ∃ t', tree_remove t k = Ok (t', tree_map t !! k) ∧ tree_map t' = delete k (tree_map t);
  tree_iter_map t : ∃ l, tree_iter t = Ok <$> l ∧ l ≡ₚ map_to_list (tree_map t);
  tree_scan_prefix_map t p :
    ∃ l, tree_scan_prefix t p = Ok <$> l ∧ l ≡ₚ filter (λ kv, p `prefix_of` kv.1) (map_to_list (tree_map t)) }.
Class DataPileLaws `{DataPile} := {
  pile_list : Pile → list (list Z);
  iter_items : SeqNoIter → list (list Z);
  pile_get_list p n : pile_get_by_seqno p n = pile_list p !! n;
  pile_append_list p xs : ∃ p', pile_append p xs = Ok p' ∧ pile_list p' = pile_list p ++ xs;
  pile_iter_from_list p n :
    (n < length (pile_list p))%nat → ∃ it, pile_iter_from_seqno p n = Some it ∧ iter_items it = drop n (pile_list p);
  seqno_iter_next_items it :
    match iter_items it with
    | [] => ∃ it', seqno_iter_next it = (None, it')
    | x :: xs => ∃ it', seqno_iter_next it = (Some x, it') ∧ iter_items it' = xs
    end }.

(** ** Block infos on the wire *)
Definition info_ok (i : BlockInfo) (id_size : nat) : Prop :=
  u32_ok (bi_chain_length i) ∧ u32_ok (bi_parent_ref_count i) ∧ u32_ok (bi_tags_ref_count i) ∧
  length (bi_parent_id i) = id_size.
Lemma codec_get_le_bytes n v r : in_u (8 * Z.of_nat n) v → codec_get_le n (le_bytes n v ++ r) = Ok (v, r).
Proof.
  intros Hv. assert (length (le_bytes n v) = n) as Hl by (unfold le_bytes; by rewrite length_reverse, length_be_bytes).
  unfold codec_get_le, codec_get. rewrite decide_True by (rewrite length_app; lia).
  cbn [mbind outcome_bind]. rewrite take_app_length', drop_app_length' by done.
  by rewrite from_le_bytes.
Qed.
Lemma info_back i n :
  info_ok i n → info_deserialize_io (info_serialize i) n (bi_id i) = Ok i.
Proof.
  destruct i as [id pid len pr tr]. intros (Hl & Hp & Ht & Hpid).
  cbn [bi_chain_length bi_parent_ref_count bi_tags_ref_count bi_parent_id bi_id] in *.
  unfold info_deserialize_io, info_serialize. cbn [bi_chain_length bi_parent_ref_count bi_tags_ref_count bi_parent_id].
  rewrite (codec_get_le_bytes 4) by done. cbn [mbind outcome_bind].
  rewrite (codec_get_le_bytes 4) by done. cbn [mbind outcome_bind].
  rewrite (codec_get_le_bytes 4) by done. cbn [mbind outcome_bind].
  unfold codec_get. rewrite decide_True by lia. cbn [mbind outcome_bind].
  by rewrite take_ge by lia.
Qed.

(** ** Keys of the index *)
Lemma index_key_inj l l' id id' :
  u32_ok l → u32_ok l' → build_chain_length_index l id = build_chain_length_index l' id' → l = l' ∧ id = id'.
Proof.
  unfold build_chain_length_index, build_chain_length_index_prefix. intros Hl Hl' Heq.
  apply app_inj_1 in Heq as [Hb ->]; [|by rewrite !length_be_bytes]. split; [|done].
  rewrite <-(from_be_bytes 4 l), <-(from_be_bytes 4 l') by done. by rewrite Hb.
Qed.
Lemma index_key_prefix l l' id :
  u32_ok l → u32_ok l' → build_chain_length_index_prefix l `prefix_of` build_chain_length_index l' id ↔ l = l'.
Proof.
  intros Hl Hl'. split.
  - intros [k Hk]. unfold build_chain_length_index in Hk.
    assert (build_chain_length_index l' id = build_chain_length_index l k) as Heq by done.
    by apply index_key_inj in Heq as [-> _].
  - intros ->. by exists id.
Qed.
Lemma index_key_drop l id : drop 4 (build_chain_length_index l id) = id.
Proof.
  unfold build_chain_length_index, build_chain_length_index_prefix. by rewrite drop_app_length' by (by rewrite length_be_bytes).
Qed.
Lemma index_key_id {E} l id : block_id_from_chain_length_index (E := E) (build_chain_length_index l id) = Ok id.
Proof.
  unfold block_id_from_chain_length_index, build_chain_length_index, build_chain_length_index_prefix.
  rewrite decide_True by (rewrite length_app, length_be_bytes; lia).
  by rewrite drop_app_length' by (by rewrite length_be_bytes).
Qed.

(** ** The view of a store *)
Record VBlock := mkVBlock { vb_block : list Z; vb_parent : list Z; vb_len : Z }.
Abbreviation Volatile := (gmap (list Z) VBlock).
Abbreviation Chain := (list (list Z * list Z)).
Abbreviation Tags := (gmap (list Z) (list Z)).
Definition children (vol : Volatile) (id : list Z) : nat := size (filter (λ kv, vb_parent kv.2 = id) vol).
Definition tag_refs (tags : Tags) (id : list Z) : nat := size (filter (λ kv, kv.2 = id) tags).
Definition info_of (vol : Volatile) (tags : Tags) (id : list Z) (v : VBlock) : BlockInfo :=
  mkInfo id (vb_parent v) (vb_len v) (Z.of_nat (children vol id)) (Z.of_nat (tag_refs tags id)).
(** The place of a block in the permanent chain. *)
Definition perm_pos (perm : Chain) (id : list Z) : option nat := fst <$> list_find (λ x, x.1 = id) perm.
Definition perm_parent (root : list Z) (perm : Chain) (i : nat) : list Z :=
  match i with O => root | S i => default root (perm.*1 !! i) end.
Definition perm_info (root : list Z) (perm : Chain) (i : nat) (id : list Z) : BlockInfo :=
  block_info_new id (perm_parent root perm i) (Z.of_nat i).
(** The parent of a volatile block is the root, a volatile block or a permanent
    one, and the chain is one longer. *)
Definition linked (root : list Z) (vol : Volatile) (perm : Chain) (v : VBlock) : Prop :=
  (vb_parent v = root ∧ vb_len v = 0) ∨
  (∃ p, vol !! vb_parent v = Some p ∧ vb_len v = vb_len p + 1) ∨
  (∃ i, perm_pos perm (vb_parent v) = Some i ∧ vb_len v = Z.of_nat i + 1).
Definition vol_ok (root : list Z) (n : nat) (vol : Volatile) (perm : Chain) : Prop :=
  map_Forall (λ id v, length (vb_parent v) = n ∧ id ≠ root ∧ perm_pos perm id = None ∧ u32_ok (vb_len v) ∧
    linked root vol perm v) vol.
(** Of a flushed block the index may keep its entry, below the length of the
    permanent chain. *)
Definition index_repr (idx : TreeMap) (vol : Volatile) (perm : Chain) : Prop :=
  map_Forall (λ id v, is_Some (idx !! build_chain_length_index (vb_len v) id)) vol ∧
  map_Forall (λ key _, ∃ len id, key = build_chain_length_index len id ∧ u32_ok len ∧
    (len < Z.of_nat (length perm) ∨ ∃ v, vol !! id = Some v ∧ vb_len v = len)) idx.
Definition tips_repr (tips : TreeMap) (vol : Volatile) (perm : Chain) : Prop :=
  map_Forall (λ id _, is_Some (tips !! id) ↔ children vol id = 0%nat) vol ∧
  map_Forall (λ id _, is_Some (vol !! id) ∨ is_Some (perm_pos perm id)) tips.

(** The trees and the fields of a store that was written. *)
Ltac trees :=
  cbn [set_info set_blocks set_length_index set_tips set_tags set_permanent blocks_tree info_tree chain_length_index_tree
    branches_tips_tree tags_tree permanent root_id id_length] in *.

Section repr.
Context `{Sl : Sled} `{!SledLaws} `{Dp : DataPile} `{!DataPileLaws}.
Set Default Proof Using "Type*".
Implicit Types (s : BlockStore) (vol : Volatile) (perm : Chain) (tags : Tags) (id : list Z).

Record permanent_repr (p : PermanentStore) perm : Prop := {
  pr_blocks : pile_list (ps_blocks p) = perm.*2;
  pr_ids : pile_list (ps_chain_length_index p) = perm.*1;
  pr_index id : tree_map (ps_block_id_index p) !! id = (λ i : nat, le_bytes 4 (Z.of_nat i)) <$> perm_pos perm id;
  pr_nodup : NoDup perm.*1;
  pr_length : Z.of_nat (length perm) < 2 ^ 32 }.
Record store_repr s vol perm tags : Prop := {
  sr_blocks : tree_map (blocks_tree s) = vb_block <$> vol;
  sr_info id : tree_map (info_tree s) !! id = (λ v, info_serialize (info_of vol tags id v)) <$> vol !! id;
  sr_index : index_repr (tree_map (chain_length_index_tree s)) vol perm;
  sr_tips : tips_repr (tree_map (branches_tips_tree s)) vol perm;
  sr_tags : tree_map (tags_tree s) = tags;
  sr_tagged : map_Forall (λ _ id, is_Some (vol !! id) ∨ is_Some (perm_pos perm id)) tags;
  sr_permanent : permanent_repr (permanent s) perm;
  sr_root : ps_root_id (permanent s) = root_id s;
  sr_root_new : perm_pos perm (root_id s) = None;
  sr_vol : vol_ok (root_id s) (id_length s) vol perm;
  sr_size : Z.of_nat (size vol) + Z.of_nat (size tags) < 2 ^ 32 }.

(** *** Counting *)
Lemma children_le vol id : (children vol id ≤ size vol)%nat.
Proof. apply map_size_filter. Qed.
Lemma tag_refs_le tags id : (tag_refs tags id ≤ size tags)%nat.
Proof. apply map_size_filter. Qed.
Lemma children_insert vol id v x :
  vol !! id = None →
  children (<[id := v]> vol) x = (children vol x + if decide (vb_parent v = x) then 1 else 0)%nat.
Proof.
  intros Hid. unfold children. rewrite map_filter_insert. cbn [snd]. case_decide as Hp.
  - rewrite map_size_insert_None; [lia|]. rewrite map_lookup_filter. by rewrite Hid.
  - rewrite delete_id by done. lia.
Qed.
Lemma children_delete vol id v x :
  vol !! id = Some v →
  children vol x = (children (delete id vol) x + if decide (vb_parent v = x) then 1 else 0)%nat.
Proof.
  intros Hid. rewrite <-(insert_delete_id vol id v) at 1 by done.
  by rewrite children_insert by apply lookup_delete_eq.
Qed.
Lemma filter_none_size {V} (P : list Z * V → Prop) `{!∀ x, Decision (P x)} (m : gmap (list Z) V) :
  map_Forall (λ k v, ¬ P (k, v)) m → size (filter P m) = 0%nat.
Proof.
  intros Hm. assert (filter P m = ∅) as ->; [|apply map_size_empty]. apply map_empty. intros k.
  apply map_lookup_filter_None. right. intros v Hv. by apply Hm.
Qed.
(** A block without volatile children. *)
Lemma children_none vol id : map_Forall (λ _ v, vb_parent v ≠ id) vol → children vol id = 0%nat.
Proof.
  intros Hvol. by apply filter_none_size.
Qed.
Lemma children_pos vol id k v : vol !! k = Some v → vb_parent v = id → (1 ≤ children vol id)%nat.
Proof. intros Hk Hp. rewrite (children_delete vol k v) by done. rewrite decide_True by done. lia. Qed.
Lemma tag_refs_insert tags t id x :
  (tag_refs (<[t := id]> tags) x + (if decide (tags !! t = Some x) then 1 else 0) =
   tag_refs tags x + (if decide (id = x) then 1 else 0))%nat.
Proof.
  unfold tag_refs. rewrite map_filter_insert. cbn [snd].
  assert (size (filter (λ kv : list Z * list Z, kv.2 = x) tags) =
    size (filter (λ kv : list Z * list Z, kv.2 = x) (delete t tags)) + (if decide (tags !! t = Some x) then 1 else 0))%nat as ->.
  { destruct (tags !! t) as [y|] eqn:Ht.
    - rewrite <-(insert_delete_id tags t y) at 1 by done. rewrite map_filter_insert. cbn [snd].
      destruct (decide (y = x)) as [->|Hne].
      + rewrite (decide_True (P := Some x = Some x)), map_size_insert_None by (done || by rewrite map_lookup_filter, lookup_delete_eq). lia.
      + rewrite decide_False by congruence. by rewrite delete_delete_eq, Nat.add_0_r.
    - rewrite decide_False, delete_id by done. lia. }
  case_decide as Hid.
  - subst x. assert (size (<[t:=id]> (filter (λ kv : list Z * list Z, kv.2 = id) tags)) =
      S (size (filter (λ kv : list Z * list Z, kv.2 = id) (delete t tags)))) as ->; [|lia].
    rewrite <-insert_delete_eq, map_filter_delete. by rewrite map_size_insert_None by apply lookup_delete_eq.
  - lia.
Qed.
Lemma tag_refs_none tags id : map_Forall (λ _ x, x ≠ id) tags → tag_refs tags id = 0%nat.
Proof. intros Ht. by apply filter_none_size. Qed.

(** *** The permanent chain *)
Lemma perm_pos_Some perm id i :
  NoDup perm.*1 → perm_pos perm id = Some i ↔ perm.*1 !! i = Some id.
Proof.
  intros Hnd. unfold perm_pos. rewrite fmap_Some. split.
  - intros ([j [x b]] & Hf & ->). apply list_find_Some in Hf as (Hj & <- & _). cbn.
    by rewrite list_lookup_fmap, Hj.
  - intros Hi. rewrite list_lookup_fmap in Hi. apply fmap_Some in Hi as ([x b] & Hx & ->). cbn.
    exists (i, (x, b)). split; [|done]. apply list_find_Some. split; [done|]. split; [done|].
    intros j [y c] Hy Hlt Heq. cbn in Heq. subst y. assert (i = j); [|lia].
    apply (NoDup_lookup _ i j x Hnd); by rewrite list_lookup_fmap, ?Hx, ?Hy.
Qed.
Lemma perm_pos_lt perm id i : perm_pos perm id = Some i → (i < length perm)%nat.
Proof.
  unfold perm_pos. rewrite fmap_Some. intros ([j x] & Hf & ->). apply list_find_Some in Hf as (Hj & _).
  by apply lookup_lt_Some in Hj.
Qed.

(** *** Reading *)
Lemma sled_insert t k v :
  ∃ t', sled (tree_insert t k v) = Ok (t', tree_map t !! k) ∧ tree_map t' = <[k := v]> (tree_map t).
Proof. destruct (tree_insert_map t k v) as (t' & Ht & Hm). exists t'. unfold sled. by rewrite Ht. Qed.
Lemma sled_get t k : sled (tree_get t k) = Ok (tree_map t !! k).
Proof. unfold sled. by rewrite tree_get_map. Qed.
Lemma perm_pos_u32 p perm id i : permanent_repr p perm → perm_pos perm id = Some i → u32_ok (Z.of_nat i).
Proof. intros Hp Hi%perm_pos_lt. pose proof (pr_length _ _ Hp). split; lia. Qed.
Lemma get_chain_length_ok p perm id :
  permanent_repr p perm → get_chain_length p id = Ok (Z.of_nat <$> perm_pos perm id).
Proof.
  intros Hp. unfold get_chain_length, sled. rewrite tree_get_map. cbn [map_err mbind outcome_bind].
  rewrite (pr_index _ _ Hp). destruct (perm_pos perm id) as [i|] eqn:Hi; cbn [fmap option_fmap option_map]; [|done].
  rewrite decide_True by (unfold le_bytes; by rewrite length_reverse, length_be_bytes).
  rewrite from_le_bytes; [done|]. by eapply perm_pos_u32.
Qed.
Lemma get_block_by_chain_length_ok p perm n :
  permanent_repr p perm → get_block_by_chain_length p (Z.of_nat n) = perm.*2 !! n.
Proof. intros Hp. unfold get_block_by_chain_length. by rewrite pile_get_list, (pr_blocks _ _ Hp), Nat2Z.id. Qed.
Lemma ps_parent_id_ok p perm root i id :
  permanent_repr p perm → ps_root_id p = root → perm.*1 !! i = Some id →
  ps_parent_id p (Z.of_nat i) = Ok (perm_parent root perm i).
Proof.
  intros Hp Hroot Hi. unfold ps_parent_id, perm_parent. destruct i as [|i].
  - rewrite decide_False by lia. by rewrite Hroot.
  - rewrite decide_True by lia. rewrite pile_get_list, (pr_ids _ _ Hp).
    replace (Z.to_nat (Z.of_nat (S i) - 1)) with i by lia.
    apply lookup_lt_Some in Hi. destruct (lookup_lt_is_Some_2 perm.*1 i) as [x Hx]; [lia|]. by rewrite Hx.
Qed.
Lemma ps_get_block_info_ok p perm root id :
  permanent_repr p perm → ps_root_id p = root →
  ps_get_block_info p id = Ok ((λ i, perm_info root perm i id) <$> perm_pos perm id).
Proof.
  intros Hp Hroot. unfold ps_get_block_info. rewrite (get_chain_length_ok p perm) by done.
  cbn [mbind outcome_bind]. destruct (perm_pos perm id) as [i|] eqn:Hi; cbn [fmap option_fmap option_map]; [|done].
  erewrite ps_parent_id_ok; [done|done|done|]. apply perm_pos_Some; [apply Hp|done].
Qed.
Lemma get_block_info_by_chain_length_ok p perm root n :
  permanent_repr p perm → ps_root_id p = root →
  get_block_info_by_chain_length p (Z.of_nat n) = Ok ((λ id, perm_info root perm n id) <$> perm.*1 !! n).
Proof.
  intros Hp Hroot. unfold get_block_info_by_chain_length. rewrite pile_get_list, (pr_ids _ _ Hp), Nat2Z.id.
  destruct (perm.*1 !! n) as [id|] eqn:Hi; cbn [fmap option_fmap option_map]; [|done].
  by erewrite ps_parent_id_ok by done.
Qed.
Lemma in_permanent_ok s perm id :
  permanent_repr (permanent s) perm → in_permanent s id = Ok (bool_decide (is_Some (perm_pos perm id))).
Proof.
  intros Hp. unfold in_permanent, sled. rewrite tree_get_map, (pr_index _ _ Hp). cbn. by destruct (perm_pos perm id).
Qed.
Lemma ps_contains_key_ok p perm id :
  permanent_repr p perm → ps_contains_key p id = Ok (bool_decide (is_Some (perm_pos perm id))).
Proof.
  intros Hp. unfold ps_contains_key, sled. rewrite tree_contains_key_map, (pr_index _ _ Hp). cbn.
  f_equal. apply bool_decide_ext. by rewrite fmap_is_Some.
Qed.

Lemma vol_info_ok s vol perm tags id v :
  store_repr s vol perm tags → vol !! id = Some v → info_ok (info_of vol tags id v) (id_length s).
Proof.
  intros Hs Hv. destruct (sr_vol _ _ _ _ Hs id v Hv) as (Hn & _ & _ & Hl & _). pose proof (sr_size _ _ _ _ Hs).
  pose proof (children_le vol id). pose proof (tag_refs_le tags id).
  unfold info_ok, u32_ok, in_u in *. cbn. split_and!; lia || done.
Qed.
Lemma info_deserialize_vol s vol perm tags id v :
  store_repr s vol perm tags → vol !! id = Some v →
  info_deserialize (info_serialize (info_of vol tags id v)) (id_length s) id = Ok (info_of vol tags id v).
Proof.
  intros Hs Hv. unfold info_deserialize. change id with (bi_id (info_of vol tags id v)) at 2.
  by rewrite info_back by by eapply vol_info_ok.
Qed.
Lemma get_block_info_volatile_ok s vol perm tags id :
  store_repr s vol perm tags →
  get_block_info_volatile s id =
  match vol !! id with Some v => Ok (info_of vol tags id v) | None => Err BlockNotFound end.
Proof.
  intros Hs. unfold get_block_info_volatile, sled. rewrite tree_get_map, (sr_info _ _ _ _ Hs).
  destruct (vol !! id) as [v|] eqn:Hv; cbn [fmap option_fmap option_map map_err mbind outcome_bind ok_or]; [|done].
  by eapply info_deserialize_vol.
Qed.
Lemma block_exists_volatile_ok s vol perm tags id :
  store_repr s vol perm tags → block_exists_volatile s id = Ok (bool_decide (is_Some (vol !! id))).
Proof.
  intros Hs. unfold block_exists_volatile, sled. rewrite tree_contains_key_map, (sr_info _ _ _ _ Hs). cbn.
  f_equal. apply bool_decide_ext. by rewrite fmap_is_Some.
Qed.
Definition known vol perm id : Prop := is_Some (vol !! id) ∨ is_Some (perm_pos perm id).
#[export] Instance known_dec vol perm id : Decision (known vol perm id).
Proof. unfold known. apply _. Defined.
Lemma block_exists_ok s vol perm tags id :
  store_repr s vol perm tags → block_exists s id = Ok (bool_decide (known vol perm id)).
Proof.
  intros Hs. unfold block_exists. rewrite (ps_contains_key_ok _ perm) by apply Hs. cbn [mbind outcome_bind].
  case_bool_decide as Hp.
  - by rewrite bool_decide_true by by right.
  - rewrite (block_exists_volatile_ok s vol perm tags) by done. f_equal. apply bool_decide_ext. unfold known. tauto.
Qed.

(** *** Writing into the trees *)
Lemma insert_in_ok get set k v s :
  ∃ t, insert_in get set k v s = Ok (set s t) ∧ tree_map t = <[k := v]> (tree_map (get s)).
Proof.
  destruct (tree_insert_map (get s) k v) as (t & Ht & Hm). exists t. split; [|done].
  unfold insert_in, sled. by rewrite Ht.
Qed.
Lemma remove_in_ok get set k s :
  ∃ t, remove_in get set k s = Ok (set s t) ∧ tree_map t = delete k (tree_map (get s)).
Proof.
  destruct (tree_remove_map (get s) k) as (t & Ht & Hm). exists t. split; [|done].
  unfold remove_in, sled. by rewrite Ht.
Qed.

(** *** A new block *)
Lemma linked_parent root vol perm v :
  linked root vol perm v → vb_parent v = root ∨ known vol perm (vb_parent v).
Proof.
  intros [[-> _]|[(p & Hp & _)|(i & Hi & _)]]; [by left|right; left; by exists p|right; right; by exists i].
Qed.
Lemma unknown_counts s vol perm tags id :
  store_repr s vol perm tags → ¬ known vol perm id → id ≠ root_id s → children vol id = 0%nat ∧ tag_refs tags id = 0%nat.
Proof.
  intros Hs Hid Hroot. split.
  - apply children_none. intros k v Hk <-. destruct (sr_vol _ _ _ _ Hs k v Hk) as (_ & _ & _ & _ & Hl).
    by destruct (linked_parent _ _ _ _ Hl).
  - apply tag_refs_none. intros t x Ht <-. by apply Hid, (sr_tagged _ _ _ _ Hs t).
Qed.
Lemma linked_mono root vol vol' perm v : vol ⊆ vol' → linked root vol perm v → linked root vol' perm v.
Proof.
  intros Hsub [H1|[(p & Hp & Hl)|H3]]; [by left| |by right; right].
  right. left. exists p. split; [|done]. by eapply lookup_weaken.
Qed.
Lemma put_block_vol_ok s vol perm tags block id pid len :
  store_repr s vol perm tags → ¬ known vol perm id → id ≠ root_id s → length pid = id_length s → u32_ok len →
  linked (root_id s) vol perm (mkVBlock block pid len) →
  vol_ok (root_id s) (id_length s) (<[id := mkVBlock block pid len]> vol) perm.
Proof.
  intros Hs Hid Hroot Hpid Hlen Hl.
  assert (vol !! id = None ∧ perm_pos perm id = None) as [Hnv Hnp].
  { unfold known in Hid. destruct (vol !! id) eqn:?, (perm_pos perm id) eqn:?; try done; exfalso; apply Hid; eauto. }
  pose proof (insert_subseteq vol id (mkVBlock block pid len) Hnv) as Hsub.
  apply map_Forall_insert_2.
  - split_and!; try done. by eapply linked_mono.
  - intros k v Hk. destruct (sr_vol _ _ _ _ Hs k v Hk) as (? & ? & ? & ? & ?). split_and!; try done. by eapply linked_mono.
Qed.
Lemma put_block_tips vol perm tips id v :
  tips_repr tips vol perm → vol !! id = None → children vol id = 0%nat → vb_parent v ≠ id →
  tips_repr (<[id := []]> (delete (vb_parent v) tips)) (<[id := v]> vol) perm.
Proof.
  intros [Ht Hk] Hid Hc Hp. split.
  - apply map_Forall_insert_2.
    + rewrite lookup_insert_eq, children_insert, Hc, decide_False by done. by split.
    + intros k w Hw. assert (k ≠ id) by congruence. rewrite lookup_insert_ne, children_insert by done.
      case_decide as Hpk.
      * subst k. rewrite lookup_delete_eq. split; [by intros []|lia].
      * rewrite lookup_delete_ne, Nat.add_0_r by done. by apply (Ht k w).
  - apply map_Forall_insert_2; [left; by rewrite lookup_insert_eq|].
    intros k w Hw%lookup_delete_Some. destruct (Hk k w) as [[x Hx]|Hperm]; [by destruct Hw| |by right].
    left. destruct (decide (k = id)) as [->|]; [by rewrite lookup_insert_eq|rewrite lookup_insert_ne by done; by exists x].
Qed.
Lemma put_block_index vol perm idx id v :
  index_repr idx vol perm → vol !! id = None → u32_ok (vb_len v) →
  index_repr (<[build_chain_length_index (vb_len v) id := []]> idx) (<[id := v]> vol) perm.
Proof.
  intros [Hi Hk] Hid Hlen. split.
  - apply map_Forall_insert_2; [by rewrite lookup_insert_eq|]. intros k w Hw.
    destruct (Hi k w Hw) as [x Hx]. destruct (decide (build_chain_length_index (vb_len v) id = build_chain_length_index (vb_len w) k)) as [->|].
    + by rewrite lookup_insert_eq.
    + rewrite lookup_insert_ne by done. by exists x.
  - apply map_Forall_insert_2.
    + exists (vb_len v), id. split; [done|]. split; [done|]. right. exists v. by rewrite lookup_insert_eq.
    + intros key x Hx. destruct (Hk key x Hx) as (len & k & -> & Hu & Hor). exists len, k. split; [done|]. split; [done|].
      destruct Hor as [Hl|(w & Hw & Hl)]; [by left|right]. exists w. split; [|done]. rewrite lookup_insert_ne; congruence.
Qed.
(** The info of the parent counts one child more. *)
Definition parent_info_added (info : TreeMap) vol tags (pid : list Z) : TreeMap :=
  match vol !! pid with
  | Some p => <[pid := info_serialize (add_parent_ref (info_of vol tags pid p))]> info
  | None => info
  end.
Lemma put_block_infos s vol perm tags id v :
  store_repr s vol perm tags → ¬ known vol perm id → id ≠ root_id s → vb_parent v ≠ id →
  Z.of_nat (size vol) + 1 + Z.of_nat (size tags) < 2 ^ 32 →
  ∀ x, (<[id := info_serialize (block_info_new id (vb_parent v) (vb_len v))]>
    (parent_info_added (tree_map (info_tree s)) vol tags (vb_parent v))) !! x =
    (λ w, info_serialize (info_of (<[id := v]> vol) tags x w)) <$> <[id := v]> vol !! x.
Proof.
  intros Hs Hid Hroot Hp Hsize x. destruct (unknown_counts s vol perm tags id Hs Hid Hroot) as [Hc Ht].
  assert (vol !! id = None) as Hnv by (destruct (vol !! id) eqn:?; [exfalso; apply Hid; left; eauto|done]).
  destruct (decide (x = id)) as [->|Hne].
  - rewrite !lookup_insert_eq. cbn [fmap option_fmap option_map]. do 2 f_equal. unfold info_of.
    by rewrite children_insert, Hc, Ht, decide_False by done.
  - rewrite !lookup_insert_ne by done. unfold parent_info_added.
    destruct (decide (x = vb_parent v)) as [->|Hnp].
    + destruct (vol !! vb_parent v) as [p|] eqn:Hpv.
      * rewrite lookup_insert_eq. cbn [fmap option_fmap option_map]. do 2 f_equal. unfold add_parent_ref, set_parent_refs, info_of. cbn.
        rewrite children_insert, decide_True by done. pose proof (children_le vol (vb_parent v)).
        rewrite wrap_small by (unfold in_u; lia). f_equal. lia.
      * rewrite (sr_info _ _ _ _ Hs), Hpv. done.
    + assert (parent_lookup : (match vol !! vb_parent v with
        | Some p => <[vb_parent v := info_serialize (add_parent_ref (info_of vol tags (vb_parent v) p))]> (tree_map (info_tree s))
        | None => tree_map (info_tree s) end) !! x = tree_map (info_tree s) !! x).
      { destruct (vol !! vb_parent v); [by rewrite lookup_insert_ne|done]. }
      rewrite parent_lookup, (sr_info _ _ _ _ Hs). destruct (vol !! x) as [w|]; [|done].
      cbn [fmap option_fmap option_map]. do 2 f_equal. unfold info_of. by rewrite children_insert, decide_False, Nat.add_0_r by done.
Qed.

Lemma vol_not_permanent s vol perm tags id v :
  store_repr s vol perm tags → vol !! id = Some v → perm_pos perm id = None ∧ id ≠ root_id s.
Proof. intros Hs Hv. by destruct (sr_vol _ _ _ _ Hs id v Hv) as (_ & ? & ? & _). Qed.
(** The parent of a new block: where it is, and its info. *)
Lemma put_block_parent s vol perm tags pid :
  store_repr s vol perm tags → pid = root_id s ∨ known vol perm pid →
  (if bool_decide (is_Some (perm_pos perm pid)) || bool_decide (pid = root_id s) then Ok false
   else found ← sled (tree_get (info_tree s) pid);
        match found with None => Err MissingParent | Some _ => Ok true end) =
  Ok (bool_decide (is_Some (vol !! pid))) :> outcome (StoreError SledError PileError) bool.
Proof.
  intros Hs Hk. unfold sled. rewrite tree_get_map, (sr_info _ _ _ _ Hs).
  destruct (vol !! pid) as [v|] eqn:Hv.
  - destruct (vol_not_permanent s vol perm tags pid v Hs Hv) as [-> Hroot].
    by rewrite (bool_decide_false (pid = root_id s)).
  - destruct Hk as [->|[[? ?]|Hperm]]; [|congruence|].
    + by rewrite (bool_decide_true (root_id s = root_id s)), orb_true_r by done.
    + by rewrite bool_decide_true.
Qed.
Lemma put_block_parent_info s vol perm tags pid :
  store_repr s vol perm tags →
  ∃ t, (if bool_decide (is_Some (vol !! pid)) then
          found ← sled (tree_get (info_tree s) pid);
          parent_block_info_bin ← ok_or found (Inconsistent BlockInfoFailure);
          parent_block_info ← info_deserialize parent_block_info_bin (id_length s) pid;
          insert_info (bi_id (add_parent_ref parent_block_info)) (info_serialize (add_parent_ref parent_block_info)) s
        else Ok s) = Ok (set_info s t) ∧ tree_map t = parent_info_added (tree_map (info_tree s)) vol tags pid.
Proof.
  intros Hs. unfold parent_info_added. destruct (vol !! pid) as [v|] eqn:Hv.
  - rewrite bool_decide_true by by exists v. unfold sled. rewrite tree_get_map, (sr_info _ _ _ _ Hs), Hv.
    cbn [fmap option_fmap option_map map_err mbind outcome_bind ok_or].
    erewrite info_deserialize_vol by done. cbn [mbind outcome_bind]. apply insert_in_ok.
  - rewrite bool_decide_false by (by intros []). exists (info_tree s). split; [by destruct s|done].
Qed.

(** The tips, the permanent ones included, and the index of chain lengths once a
    block was stored: it is a tip and its parent, wherever it is, is none. *)
Definition block_added s s' (id pid : list Z) (len : Z) : Prop :=
  tree_map (branches_tips_tree s') = <[id := []]> (delete pid (tree_map (branches_tips_tree s))) ∧
  tree_map (chain_length_index_tree s') = <[build_chain_length_index len id := []]> (tree_map (chain_length_index_tree s)).
Lemma put_block_impl_ok s vol perm tags block id pid len :
  store_repr s vol perm tags → ¬ known vol perm id → id ≠ root_id s → length pid = id_length s → u32_ok len →
  linked (root_id s) vol perm (mkVBlock block pid len) →
  Z.of_nat (size vol) + 1 + Z.of_nat (size tags) < 2 ^ 32 →
  ∃ s', put_block_impl block (block_info_new id pid len) (bool_decide (is_Some (perm_pos perm pid))) s = Ok s' ∧
    root_id s' = root_id s ∧ id_length s' = id_length s ∧
    store_repr s' (<[id := mkVBlock block pid len]> vol) perm tags ∧ block_added s s' id pid len.
Proof.
  intros Hs Hid Hroot Hpid Hlen Hl Hsize. pose proof (linked_parent _ _ _ _ Hl) as Hpar. cbn [vb_parent] in Hpar.
  assert (vol !! id = None) as Hnv by (destruct (vol !! id) eqn:?; [exfalso; apply Hid; left; eauto|done]).
  assert (pid ≠ id) as Hne by (intros ->; by destruct Hpar).
  destruct (unknown_counts s vol perm tags id Hs Hid Hroot) as [Hc _].
  pose proof (put_block_infos s vol perm tags id (mkVBlock block pid len) Hs Hid Hroot Hne Hsize) as Hinfo.
  pose proof (put_block_vol_ok s vol perm tags block id pid len Hs Hid Hroot Hpid Hlen Hl) as Hvol.
  unfold put_block_impl. cbn [bi_parent_id bi_id bi_chain_length block_info_new].
  rewrite (put_block_parent s vol perm tags) by done. cbn [mbind outcome_bind].
  destruct (put_block_parent_info s vol perm tags pid Hs) as (t0 & -> & Ht0). cbn [mbind outcome_bind].
  destruct (remove_in_ok branches_tips_tree set_tips pid (set_info s t0)) as (t1 & Hr1 & Ht1).
  unfold remove_tip. rewrite Hr1. cbn [mbind outcome_bind].
  destruct (insert_in_ok branches_tips_tree set_tips id [] (set_tips (set_info s t0) t1)) as (t2 & Hr2 & Ht2).
  unfold insert_tip. rewrite Hr2. cbn [mbind outcome_bind]. unfold insert_index.
  edestruct (insert_in_ok chain_length_index_tree set_length_index) as (t3 & Hr3 & Ht3). rewrite Hr3. cbn [mbind outcome_bind].
  unfold insert_block. edestruct (insert_in_ok blocks_tree set_blocks) as (t4 & Hr4 & Ht4). rewrite Hr4. cbn [mbind outcome_bind].
  unfold insert_info. edestruct (insert_in_ok info_tree set_info) as (t5 & Hr5 & Ht5). rewrite Hr5.
  eexists. split; [reflexivity|]. split; [done|]. split; [done|]. clear Hr1 Hr2 Hr3 Hr4 Hr5. trees.
  split; [|unfold block_added; trees; by rewrite Ht2, Ht1, Ht3]. split; trees; try apply Hs.
  - by rewrite Ht4, (sr_blocks _ _ _ _ Hs), fmap_insert.
  - intros x. rewrite Ht5, Ht0. apply Hinfo.
  - rewrite Ht3. apply (put_block_index vol perm _ id (mkVBlock block pid len)); [apply Hs|done..].
  - rewrite Ht2, Ht1. apply (put_block_tips vol perm _ id (mkVBlock block pid len)); [apply Hs|done..].
  - intros t x Ht. destruct (sr_tagged _ _ _ _ Hs t x Ht) as [Hx|Hx]; [left|by right].
    destruct (decide (x = id)) as [->|]; [by rewrite lookup_insert_eq|by rewrite lookup_insert_ne].
  - exact Hvol.
  - rewrite map_size_insert_None by done. lia.
Qed.

Lemma put_block_ok s vol perm tags block id pid len :
  store_repr s vol perm tags → ¬ known vol perm id → id ≠ root_id s → length pid = id_length s → u32_ok len →
  linked (root_id s) vol perm (mkVBlock block pid len) →
  Z.of_nat (size vol) + 1 + Z.of_nat (size tags) < 2 ^ 32 →
  ∃ s', put_block block (block_info_new id pid len) s = (s', Ok ()) ∧ root_id s' = root_id s ∧ id_length s' = id_length s ∧
    store_repr s' (<[id := mkVBlock block pid len]> vol) perm tags ∧ block_added s s' id pid len.
Proof.
  intros Hs Hid Hroot Hpid Hlen Hl Hsize. unfold put_block, mbind, store_bind, reads_store. cbn [bi_id bi_parent_id block_info_new].
  rewrite (block_exists_ok s vol perm tags) by done. cbn iota. rewrite bool_decide_false by done.
  rewrite (ps_contains_key_ok _ perm) by apply Hs.
  cbn iota. destruct (put_block_impl_ok s vol perm tags block id pid len) as (s' & Hp & Hs'); [done..|].
  exists s'. split; [|done]. unfold changes_store, transaction. by rewrite Hp.
Qed.

(** *** Tags *)
(** The infos with other counts of tags. *)
Definition info_tagged vol (refs : list Z → Z) id (v : VBlock) : BlockInfo :=
  mkInfo id (vb_parent v) (vb_len v) (Z.of_nat (children vol id)) (refs id).
Definition infos_tagged (info : TreeMap) vol (refs : list Z → Z) : Prop :=
  ∀ id, info !! id = (λ v, info_serialize (info_tagged vol refs id v)) <$> vol !! id.
Lemma tagged_deserialize s vol perm tags refs id v :
  store_repr s vol perm tags → vol !! id = Some v → u32_ok (refs id) →
  info_deserialize (info_serialize (info_tagged vol refs id v)) (id_length s) id = Ok (info_tagged vol refs id v).
Proof.
  intros Hs Hv Hr. unfold info_deserialize. change id with (bi_id (info_tagged vol refs id v)) at 2.
  rewrite info_back; [done|]. destruct (vol_info_ok s vol perm tags id v Hs Hv) as (? & ? & _ & ?). done.
Qed.
Lemma infos_retagged info vol refs id v n :
  infos_tagged info vol refs → vol !! id = Some v →
  infos_tagged (<[id := info_serialize (set_tags_refs (info_tagged vol refs id v) n)]> info) vol
    (λ x, if decide (x = id) then n else refs x).
Proof.
  intros Hi Hv x. destruct (decide (x = id)) as [->|Hne].
  - rewrite lookup_insert_eq, Hv. cbn [fmap option_fmap option_map]. unfold info_tagged, set_tags_refs. by rewrite decide_True.
  - rewrite lookup_insert_ne, Hi by done. destruct (vol !! x); [|done]. cbn [fmap option_fmap option_map].
    unfold info_tagged. by rewrite decide_False.
Qed.

(** What [put_tag_impl] does once the new block has its tag counted. *)
Definition tag_moved (name id : list Z) s : outcome (StoreError SledError PileError) BlockStore :=
  '(tags, maybe_old_block_id) ← sled (tree_insert (tags_tree s) name id);
  let s := set_tags s tags in
  match maybe_old_block_id with
  | Some old_block_id =>
      found ← sled (tree_get (info_tree s) old_block_id);
      info_bin ← ok_or found (Inconsistent TaggedBlock);
      block_info ← info_deserialize info_bin (id_length s) old_block_id;
      let block_info := remove_tag_ref block_info in
      insert_info (bi_id block_info) (info_serialize block_info) s
  | None => Ok s
  end.
Definition refs_added tags id (x : list Z) : Z :=
  if decide (x = id) then Z.of_nat (tag_refs tags x) + 1 else Z.of_nat (tag_refs tags x).
Lemma refs_added_u32 vol tags id x :
  Z.of_nat (size vol) + Z.of_nat (size tags) + 1 < 2 ^ 32 → u32_ok (refs_added tags id x).
Proof. intros Hsize. unfold refs_added. pose proof (tag_refs_le tags x). case_decide; split; lia. Qed.

Lemma put_tag_impl_first s vol perm tags name id :
  store_repr s vol perm tags → Z.of_nat (size vol) + Z.of_nat (size tags) + 1 < 2 ^ 32 → known vol perm id →
  ∃ t, infos_tagged (tree_map t) vol (refs_added tags id) ∧
    put_tag_impl name id s = tag_moved name id (set_info s t).
Proof.
  intros Hs Hsize Hk. set (refs0 x := Z.of_nat (tag_refs tags x)).
  assert (infos_tagged (tree_map (info_tree s)) vol refs0) as Hi0 by (intros x; apply (sr_info _ _ _ _ Hs)).
  assert (∀ x, 0 ≤ refs0 x < 2 ^ 32 - 1) as Hr0 by (intros x; unfold refs0; pose proof (tag_refs_le tags x); lia).
  destruct (vol !! id) as [v|] eqn:Hv.
  - destruct (insert_in_ok info_tree set_info id (info_serialize (add_tag_ref (info_tagged vol refs0 id v))) s) as (t & Ht & Hm).
    exists t. split.
    + rewrite Hm. intros x. unfold add_tag_ref. rewrite (infos_retagged _ vol refs0 id v _ Hi0 Hv). unfold info_tagged, refs_added. cbn [bi_tags_ref_count].
      pose proof (Hr0 id). rewrite wrap_small by (unfold in_u; lia). destruct (vol !! x); [|done].
      cbn [fmap option_fmap option_map]. by destruct (decide (x = id)) as [->|].
    + unfold put_tag_impl. rewrite (sled_get (info_tree s)), Hi0, Hv.
      cbn [fmap option_fmap option_map map_err mbind outcome_bind].
      rewrite (tagged_deserialize s vol perm tags) by (done || (unfold u32_ok, in_u; pose proof (Hr0 id); lia)).
      cbn [mbind outcome_bind]. unfold insert_info. by rewrite Ht.
  - exists (info_tree s). split.
    + intros x. rewrite Hi0. destruct (vol !! x) as [w|] eqn:Hx; [|done]. cbn [fmap option_fmap option_map].
      unfold info_tagged, refs_added. by rewrite decide_False by congruence.
    + unfold put_tag_impl. rewrite (sled_get (info_tree s)), Hi0, Hv.
      cbn [fmap option_fmap option_map map_err mbind outcome_bind].
      rewrite sled_get, (pr_index _ _ (sr_permanent _ _ _ _ Hs)). destruct Hk as [[? ?]|[i ->]]; [congruence|].
      cbn [fmap option_fmap option_map map_err mbind outcome_bind]. by destruct s.
Qed.
(** The store after a tag was set, given its infos. *)
Lemma tag_set_repr s vol perm tags name id tt ti :
  store_repr s vol perm tags → Z.of_nat (size vol) + Z.of_nat (size tags) + 1 < 2 ^ 32 → known vol perm id →
  tree_map tt = <[name := id]> tags →
  infos_tagged (tree_map ti) vol (λ x, Z.of_nat (tag_refs (<[name := id]> tags) x)) →
  store_repr (set_info (set_tags s tt) ti) vol perm (<[name := id]> tags).
Proof.
  intros Hs Hsize Hk Htt Hti. split; trees; try apply Hs.
  - exact Hti.
  - exact Htt.
  - apply map_Forall_insert_2; [exact Hk|apply Hs].
  - assert (size (<[name:=id]> tags) ≤ S (size tags))%nat; [|lia].
    rewrite map_size_insert. destruct (tags !! name); cbn; lia.
Qed.
Lemma tag_moved_ok s vol perm tags name id t :
  store_repr s vol perm tags → Z.of_nat (size vol) + Z.of_nat (size tags) + 1 < 2 ^ 32 → known vol perm id →
  infos_tagged (tree_map t) vol (refs_added tags id) →
  (∀ old, tags !! name = Some old → is_Some (vol !! old)) →
  ∃ s', tag_moved name id (set_info s t) = Ok s' ∧ store_repr s' vol perm (<[name := id]> tags) ∧
    branches_tips_tree s' = branches_tips_tree s.
Proof.
  intros Hs Hsize Hk Hi Hold.
  assert (∀ x, Z.of_nat (tag_refs (<[name := id]> tags) x) =
    refs_added tags id x - if decide (tags !! name = Some x) then 1 else 0) as Hrefs.
  { intros x. pose proof (tag_refs_insert tags name id x) as Ht. unfold refs_added.
    repeat case_decide; try lia; congruence. }
  destruct (sled_insert (tags_tree s) name id) as (tt & Htt & Hm). rewrite (sr_tags _ _ _ _ Hs) in Htt, Hm.
  unfold tag_moved. trees. rewrite Htt. cbn [mbind outcome_bind].
  destruct (tags !! name) as [old|] eqn:Hname.
  - destruct (Hold old eq_refl) as [v Hv]. trees. rewrite sled_get, Hi, Hv.
    cbn [fmap option_fmap option_map map_err mbind outcome_bind ok_or].
    rewrite (tagged_deserialize s vol perm tags) by (done || by eapply refs_added_u32). cbn [mbind outcome_bind].
    edestruct (insert_in_ok info_tree set_info) as (t2 & Ht2 & Hm2). unfold insert_info. rewrite Ht2. eexists. split; [reflexivity|].
    trees. split; [|done]. apply (tag_set_repr s vol perm tags name id tt t2); [done..|]. rewrite Hm2. trees.
    intros x. unfold remove_tag_ref. rewrite (infos_retagged _ vol (refs_added tags id) old v _ Hi Hv). destruct (vol !! x) as [w|]; [|done].
    cbn [fmap option_fmap option_map]. unfold info_tagged. cbn [bi_tags_ref_count]. do 2 f_equal. rewrite Hrefs.
    pose proof (tag_refs_le tags x). destruct (decide (x = old)) as [->|Hne].
    + pose proof (tag_refs_insert tags name id old) as Hins. rewrite Hname, (decide_True (P := Some old = Some old)) in * by done.
      assert (1 ≤ refs_added tags id old). { unfold refs_added. rewrite decide_True in Hins by done. repeat case_decide; lia || congruence. }
      pose proof (refs_added_u32 vol tags id old Hsize) as [_ ?]. rewrite wrap_small; [done|]. split; lia.
    + rewrite decide_False by congruence. f_equal. lia.
  - eexists. split; [reflexivity|]. split; [|done]. apply (tag_set_repr s vol perm tags name id tt t); [done..|].
    intros x. rewrite Hi. destruct (vol !! x) as [w|]; [|done]. cbn [fmap option_fmap option_map]. unfold info_tagged.
    do 2 f_equal. rewrite Hrefs, decide_False by done. f_equal. lia.
Qed.

Lemma put_tag_ok s vol perm tags name id :
  store_repr s vol perm tags → Z.of_nat (size vol) + Z.of_nat (size tags) + 1 < 2 ^ 32 → known vol perm id →
  (∀ old, tags !! name = Some old → is_Some (vol !! old)) →
  ∃ s', put_tag name id s = (s', Ok ()) ∧ store_repr s' vol perm (<[name := id]> tags) ∧
    branches_tips_tree s' = branches_tips_tree s.
Proof.
  intros Hs Hsize Hk Hold. unfold put_tag, changes_store, transaction.
  destruct (put_tag_impl_first s vol perm tags name id Hs Hsize Hk) as (t & Hi & ->).
  destruct (tag_moved_ok s vol perm tags name id t Hs Hsize Hk Hi Hold) as (s' & -> & Hs'). by exists s'.
Qed.

(** *** The chain of parents *)
Section chain.
Context (s : BlockStore) (vol : Volatile) (perm : Chain) (tags : Tags) (Hs : store_repr s vol perm tags).

Definition block_info_of id : option BlockInfo :=
  match vol !! id with
  | Some v => Some (info_of vol tags id v)
  | None => (λ i, perm_info (root_id s) perm i id) <$> perm_pos perm id
  end.
Definition len_of id : option Z := bi_chain_length <$> block_info_of id.
Fixpoint nth_parent (n : nat) id : option (list Z) :=
  match n with
  | O => if decide (is_Some (block_info_of id)) then Some id else None
  | S n => block_info_of id ≫= λ i, nth_parent n (bi_parent_id i)
  end.

Lemma block_info_of_id id i : block_info_of id = Some i → bi_id i = id.
Proof.
  unfold block_info_of. destruct (vol !! id); [by intros [= <-]|]. destruct (perm_pos perm id); [by intros [= <-]|done].
Qed.
Lemma block_info_of_known id : is_Some (block_info_of id) ↔ known vol perm id.
Proof.
  unfold block_info_of, known. destruct (vol !! id) as [v|]; [naive_solver|]. rewrite fmap_is_Some.
  split; [by right|]. by intros [[? ?]|?].
Qed.
Lemma get_block_info_ok id :
  get_block_info s id = match block_info_of id with Some i => Ok i | None => Err BlockNotFound end.
Proof.
  unfold get_block_info, block_info_of. rewrite (ps_get_block_info_ok _ perm (root_id s)) by apply Hs.
  cbn [mbind outcome_bind]. rewrite (get_block_info_volatile_ok s vol perm tags) by done.
  destruct (perm_pos perm id) as [i|] eqn:Hi; cbn [fmap option_fmap option_map].
  - destruct (vol !! id) as [v|] eqn:Hv; [|done]. destruct (vol_not_permanent s vol perm tags id v Hs Hv). congruence.
  - by destruct (vol !! id).
Qed.
Lemma root_unknown : block_info_of (root_id s) = None.
Proof.
  unfold block_info_of. destruct (vol !! root_id s) as [v|] eqn:Hv.
  - by destruct (vol_not_permanent s vol perm tags _ v Hs Hv).
  - by rewrite (sr_root_new _ _ _ _ Hs).
Qed.
Lemma perm_ids_lookup i id : perm.*1 !! i = Some id ↔ perm_pos perm id = Some i.
Proof. symmetry. apply perm_pos_Some, Hs. Qed.
Lemma perm_known i id : perm_pos perm id = Some i → block_info_of id = Some (perm_info (root_id s) perm i id).
Proof.
  intros Hi. unfold block_info_of. destruct (vol !! id) as [v|] eqn:Hv; [|by rewrite Hi].
  destruct (vol_not_permanent s vol perm tags id v Hs Hv). congruence.
Qed.
(** One step down the chain. *)
Lemma parent_len id i :
  block_info_of id = Some i → 0 < bi_chain_length i →
  ∃ p, block_info_of (bi_parent_id i) = Some p ∧ bi_chain_length p = bi_chain_length i - 1.
Proof.
  intros Hi Hpos. unfold block_info_of in Hi. destruct (vol !! id) as [v|] eqn:Hv.
  - injection Hi as <-. cbn in *. destruct (sr_vol _ _ _ _ Hs id v Hv) as (_ & _ & _ & _ & Hl).
    destruct Hl as [[_ Hl]|[(p & Hp & Hl)|(j & Hj & Hl)]]; [lia| |].
    + exists (info_of vol tags (vb_parent v) p). unfold block_info_of. rewrite Hp. cbn. split; [done|lia].
    + eexists. split; [by apply perm_known|]. cbn. lia.
  - destruct (perm_pos perm id) as [[|j]|] eqn:Hj; cbn in Hi; [| |done]; injection Hi as <-; cbn in Hpos; [lia|].
    pose proof (perm_pos_lt _ _ _ Hj). destruct (lookup_lt_is_Some_2 perm.*1 j) as [x Hx]; [rewrite length_fmap; lia|].
    exists (perm_info (root_id s) perm j x). cbn [perm_info block_info_new bi_parent_id perm_parent]. rewrite Hx. cbn [default].
    split; [by apply perm_known, perm_ids_lookup|]. cbn. lia.
Qed.
Lemma len_nonneg id i : block_info_of id = Some i → 0 ≤ bi_chain_length i.
Proof.
  unfold block_info_of. destruct (vol !! id) as [v|] eqn:Hv.
  - intros [= <-]. destruct (sr_vol _ _ _ _ Hs id v Hv) as (_ & _ & _ & [? _] & _). done.
  - destruct (perm_pos perm id); [|done]. intros [= <-]. cbn. lia.
Qed.
Lemma parent_zero id i :
  block_info_of id = Some i → bi_chain_length i = 0 → block_info_of (bi_parent_id i) = None.
Proof.
  intros Hi Hz. unfold block_info_of in Hi. destruct (vol !! id) as [v|] eqn:Hv.
  - injection Hi as <-. cbn in *. destruct (sr_vol _ _ _ _ Hs id v Hv) as (_ & _ & _ & _ & Hl).
    destruct Hl as [[-> _]|[(p & Hp & Hl)|(j & Hj & Hl)]]; [apply root_unknown| |lia].
    destruct (sr_vol _ _ _ _ Hs _ p Hp) as (_ & _ & _ & [? _] & _). lia.
  - destruct (perm_pos perm id) as [[|j]|] eqn:Hj; cbn in Hi; [| |done]; injection Hi as <-; cbn in Hz; [|lia].
    apply root_unknown.
Qed.
(** The parents of a block are at all the lengths up to its own. *)
Lemma nth_parent_len n id i :
  block_info_of id = Some i →
  match nth_parent n id with
  | Some a => Z.of_nat n ≤ bi_chain_length i ∧ len_of a = Some (bi_chain_length i - Z.of_nat n)
  | None => bi_chain_length i < Z.of_nat n
  end.
Proof.
  revert id i. induction n as [|n IH]; intros id i Hi; cbn [nth_parent].
  - rewrite decide_True by (rewrite Hi; by eexists). pose proof (len_nonneg _ _ Hi). split; [lia|].
    unfold len_of. rewrite Hi. cbn. f_equal. lia.
  - rewrite Hi. cbn [mbind option_bind]. destruct (decide (bi_chain_length i = 0)) as [Hz|Hz].
    + destruct n; cbn [nth_parent]; rewrite (parent_zero id i) by done.
      * rewrite decide_False by (by intros []). lia.
      * cbn. lia.
    + pose proof (len_nonneg _ _ Hi). destruct (parent_len id i Hi) as (p & Hp & Hl); [lia|].
      specialize (IH _ _ Hp). destruct (nth_parent n (bi_parent_id i)) as [a|]; [|lia].
      destruct IH as [? ->]. split; [lia|]. f_equal. lia.
Qed.
Lemma nth_parent_known n id a : nth_parent n id = Some a → is_Some (block_info_of a).
Proof.
  revert id. induction n as [|n IH]; intros id; cbn [nth_parent].
  - case_decide; [by intros [= <-]|done].
  - destruct (block_info_of id); [apply IH|done].
Qed.

(** The entries of the index at the length of a volatile block. *)
Lemma scan_entries len :
  u32_ok len → Z.of_nat (length perm) ≤ len →
  ∃ l, tree_scan_prefix (chain_length_index_tree s) (build_chain_length_index_prefix len) = Ok <$> l ∧
    NoDup l.*1 ∧
    ∀ key, key ∈ l.*1 ↔ ∃ id v, key = build_chain_length_index len id ∧ vol !! id = Some v ∧ vb_len v = len.
Proof.
  intros Hu Hl. destruct (tree_scan_prefix_map (chain_length_index_tree s) (build_chain_length_index_prefix len))
    as (l & Hscan & Hperm).
  destruct (sr_index _ _ _ _ Hs) as [Hin Hkeys]. exists l. split; [done|]. split.
  { rewrite Hperm. eapply sublist_NoDup; [apply (NoDup_fst_map_to_list (tree_map (chain_length_index_tree s)))|]. apply fmap_sublist, sublist_filter. }
  intros key. rewrite Hperm, list_elem_of_fmap. split.
  - intros ([k x] & -> & [Hpre Hx%elem_of_map_to_list]%list_elem_of_filter). cbn in *.
    destruct (Hkeys k x Hx) as (len' & id & -> & Hu' & Hor). apply index_key_prefix in Hpre as <-; [|done..].
    destruct Hor as [?|(v & Hv & Hlen)]; [lia|]. by exists id, v.
  - intros (id & v & -> & Hv & <-). destruct (Hin id v Hv) as [x Hx].
    exists (build_chain_length_index (vb_len v) id, x). split; [done|]. apply list_elem_of_filter.
    split; [by apply index_key_prefix|]. by apply elem_of_map_to_list.
Qed.
Lemma len_u32 id i : block_info_of id = Some i → u32_ok (bi_chain_length i).
Proof.
  unfold block_info_of. destruct (vol !! id) as [v|] eqn:Hv.
  - intros [= <-]. by destruct (sr_vol _ _ _ _ Hs id v Hv) as (_ & _ & _ & ? & _).
  - destruct (perm_pos perm id) eqn:Hi; [|done]. intros [= <-]. eapply perm_pos_u32; [apply Hs|done].
Qed.

(** *** Queries on a store without branches below the permanent chain *)
Definition pruned : Prop := map_Forall (λ _ v, Z.of_nat (length perm) ≤ vb_len v) vol.
Context (Hpruned : pruned).

Lemma perm_by_len a i :
  block_info_of a = Some i → bi_chain_length i < Z.of_nat (length perm) →
  perm.*1 !! Z.to_nat (bi_chain_length i) = Some a ∧ i = perm_info (root_id s) perm (Z.to_nat (bi_chain_length i)) a.
Proof.
  intros Ha Hl. unfold block_info_of in Ha. destruct (vol !! a) as [v|] eqn:Hv.
  - injection Ha as <-. specialize (Hpruned _ _ Hv). cbn in *. lia.
  - destruct (perm_pos perm a) as [j|] eqn:Hj; [|done]. injection Ha as <-. cbn. rewrite Nat2Z.id.
    split; [by apply perm_ids_lookup|done].
Qed.
Lemma vol_by_len a i :
  block_info_of a = Some i → Z.of_nat (length perm) ≤ bi_chain_length i →
  ∃ v, vol !! a = Some v ∧ i = info_of vol tags a v ∧ vb_len v = bi_chain_length i.
Proof.
  intros Ha Hl. unfold block_info_of in Ha. destruct (vol !! a) as [v|] eqn:Hv.
  - injection Ha as <-. by exists v.
  - destruct (perm_pos perm a) as [j|] eqn:Hj; [|done]. injection Ha as <-. cbn in Hl.
    pose proof (perm_pos_lt _ _ _ Hj). lia.
Qed.
Lemma scan_single len key x a v :
  u32_ok len → Z.of_nat (length perm) ≤ len →
  tree_scan_prefix (chain_length_index_tree s) (build_chain_length_index_prefix len) = [Ok (key, x)] →
  vol !! a = Some v → vb_len v = len →
  key = build_chain_length_index len a ∧ ∀ b w, vol !! b = Some w → vb_len w = len → b = a.
Proof.
  intros Hu Hl Hscan Ha Hlen. destruct (scan_entries len Hu Hl) as (l & Hl' & _ & Hin). rewrite Hscan in Hl'.
  destruct l as [|[k y] [|]]; cbn in Hl'; try done. injection Hl' as <- <-. cbn in Hin.
  assert (∀ b w, vol !! b = Some w → vb_len w = len → key = build_chain_length_index len b) as Hone.
  { intros b w Hb Hw. assert (build_chain_length_index len b ∈ [key]) as Hk by (apply Hin; eauto).
    by apply list_elem_of_singleton in Hk. }
  pose proof (Hone a v Ha Hlen) as ->. split; [done|]. intros b w Hb Hw. specialize (Hone b w Hb Hw).
  by apply index_key_inj in Hone as [_ ->].
Qed.

Lemma nth_ancestor_loop_ok fuel t m id i :
  block_info_of id = Some i → Z.of_nat (length perm) ≤ t → bi_chain_length i = t + Z.of_nat m → (m < fuel)%nat →
  ∃ a j, nth_parent m id = Some a ∧ block_info_of a = Some j ∧ nth_ancestor_loop fuel s t i = Ok j.
Proof.
  revert m id i. induction fuel as [|fuel IH]; intros m id i Hi Ht Hlen Hf; [lia|]. cbn [nth_ancestor_loop].
  destruct m as [|m].
  - exists id, i. cbn [nth_parent]. rewrite decide_True by (rewrite Hi; by eexists). rewrite (proj2 (Z.ltb_ge _ _)) by lia. done.
  - rewrite (proj2 (Z.ltb_lt _ _)) by lia. destruct (parent_len id i Hi) as (p & Hp & Hpl); [lia|].
    destruct (vol_by_len _ _ Hp) as (v & Hv & -> & _); [lia|].
    rewrite (get_block_info_volatile_ok s vol perm tags), Hv by done. cbn [mbind outcome_bind].
    destruct (IH m _ _ Hp Ht) as (a & j & Ha & Hj & Hloop); [lia..|]. exists a, j. split; [|done].
    cbn [nth_parent]. rewrite Hi. exact Ha.
Qed.
Lemma get_nth_ancestor_ok fuel id i n :
  block_info_of id = Some i → (n < fuel)%nat → Z.of_nat n ≤ bi_chain_length i → u32_ok (bi_chain_length i) →
  ∃ a j, nth_parent n id = Some a ∧ block_info_of a = Some j ∧ get_nth_ancestor fuel s id (Z.of_nat n) = Ok j.
Proof.
  intros Hi Hf Hn Hu. unfold get_nth_ancestor. rewrite get_block_info_ok, Hi. cbn [mbind outcome_bind].
  rewrite (proj2 (Z.ltb_ge _ _)) by done. set (t := bi_chain_length i - Z.of_nat n).
  pose proof (nth_parent_len n id i Hi) as Hnth. destruct (nth_parent n id) as [a|] eqn:Ha; [|lia].
  destruct Hnth as [_ Hla]. unfold len_of in Hla. destruct (block_info_of a) as [j|] eqn:Hj; [|done].
  injection Hla as Hla. fold t in Hla.
  pose proof (get_block_info_by_chain_length_ok (permanent s) perm (root_id s) (Z.to_nat t)
    (sr_permanent _ _ _ _ Hs) (sr_root _ _ _ _ Hs)) as Hby.
  rewrite Z2Nat.id in Hby by lia. rewrite Hby. cbn [mbind outcome_bind].
  destruct (decide (t < Z.of_nat (length perm))) as [Hlt|Hge].
  - destruct (perm_by_len a j Hj) as [Hx Hjeq]; [lia|]. rewrite Hla in *. rewrite Hx. cbn [fmap option_fmap option_map].
    exists a, j. split; [done|]. split; [done|]. by rewrite Hjeq.
  - rewrite lookup_ge_None_2 by (rewrite length_fmap; lia). cbn [fmap option_fmap option_map].
    destruct (vol_by_len a j Hj) as (v & Hv & -> & Hvl); [lia|].
    destruct (nth_ancestor_loop_ok fuel t n id i Hi) as (a' & j' & Ha' & Hj' & Hloop); [lia..|].
    assert (a' = a) as -> by congruence. rewrite Hj in Hj'. injection Hj' as <-.
    assert (u32_ok t) as Hut by (destruct Hu; split; lia).
    destruct (scan_entries t Hut) as (l & Hl & _ & _); [lia|]. rewrite Hl.
    exists a, (info_of vol tags a v). split; [done|]. split; [done|].
    destruct l as [|[key x] [|]]; cbn [fmap list_fmap]; [exact Hloop| |exact Hloop].
    cbn [sled map_err mbind outcome_bind]. destruct (scan_single t key x a v) as [-> _]; [done|lia|done|done|lia|].
    rewrite index_key_id. cbn [mbind outcome_bind]. by rewrite get_block_info_ok, Hj.
Qed.

(** [a] is the ancestor of [d] that lies [len_of d - len_of a] below it. *)
Definition ancestor_at (la ld : Z) a d : Prop := la ≤ ld ∧ nth_parent (Z.to_nat (ld - la)) d = Some a.
#[local] Instance ancestor_at_dec la ld a d : Decision (ancestor_at la ld a d).
Proof. unfold ancestor_at. apply _. Defined.
Lemma ancestor_below la a d i j :
  block_info_of a = Some i → bi_chain_length i = la → block_info_of d = Some j → bi_chain_length j ≤ la → a ≠ d →
  ¬ ancestor_at la (bi_chain_length j) a d.
Proof.
  intros Ha Hla Hd Hle Hne [Hge Hnth]. replace (Z.to_nat (bi_chain_length j - la)) with 0%nat in Hnth by lia.
  cbn [nth_parent] in Hnth. rewrite decide_True in Hnth by (rewrite Hd; by eexists). congruence.
Qed.
Lemma nth_parent_exists a d la ld j :
  block_info_of d = Some j → bi_chain_length j = ld → 0 ≤ la ≤ ld →
  (∀ b i, block_info_of b = Some i → bi_chain_length i = la → b = a) → ancestor_at la ld a d.
Proof.
  intros Hd Hld Hla Honly. split; [lia|]. pose proof (nth_parent_len (Z.to_nat (ld - la)) d j Hd) as Hn.
  destruct (nth_parent _ d) as [b|]; [|lia]. destruct Hn as [_ Hb]. unfold len_of in Hb.
  destruct (block_info_of b) as [i|] eqn:Hi; [|done]. injection Hb as Hb. f_equal. apply (Honly b i Hi). lia.
Qed.

Lemma ancestor_step a la x v u :
  block_info_of x = Some (info_of vol tags x v) → vb_len u = vb_len v - 1 → vb_parent v ≠ a →
  la < vb_len u ∧ ancestor_at la (vb_len u) a (vb_parent v) ↔ la < vb_len v ∧ ancestor_at la (vb_len v) a x.
Proof.
  intros Hx Hl Hne. unfold ancestor_at.
  assert (∀ n, nth_parent (S n) x = nth_parent n (vb_parent v)) as Hstep by (intros n; cbn [nth_parent]; by rewrite Hx).
  destruct (decide (la < vb_len v)) as [Hlt|Hge]; [|split; intros (? & ? & ?); lia].
  replace (Z.to_nat (vb_len v - la)) with (S (Z.to_nat (vb_len u - la))) by lia. rewrite Hstep.
  split; [intros (? & ? & ?); split_and!; done || lia|]. intros (_ & _ & Hn).
  destruct (decide (la = vb_len u)) as [->|]; [|split_and!; done || lia]. exfalso. rewrite Z.sub_diag in Hn.
  change (Z.to_nat 0) with 0%nat in Hn. cbn [nth_parent] in Hn. case_decide; [|done]. congruence.
Qed.
Lemma is_ancestor_loop_ok fuel a la w x v dist :
  vol !! a = Some w → vb_len w = la → vol !! x = Some v → vb_len v < Z.of_nat fuel →
  0 ≤ dist → dist + vb_len v < 2 ^ 32 →
  is_ancestor_loop fuel s a (info_of vol tags x v) dist =
  Ok (if decide (la < vb_len v ∧ ancestor_at la (vb_len v) a x) then Some (dist + (vb_len v - la)) else None).
Proof.
  intros Ha Hla. pose proof (Hpruned a w Ha) as Hpa. cbn in Hpa. revert x v dist.
  induction fuel as [|fuel IH]; intros x v dist Hx Hf Hd Hb.
  { destruct (sr_vol _ _ _ _ Hs x v Hx) as (_ & _ & _ & [? _] & _). lia. }
  assert (block_info_of x = Some (info_of vol tags x v)) as Hxi by (unfold block_info_of; by rewrite Hx).
  destruct (sr_vol _ _ _ _ Hs a w Ha) as (_ & _ & _ & [Hw0 _] & _).
  cbn [is_ancestor_loop]. rewrite (get_block_info_volatile_ok s vol perm tags) by done. cbn [bi_parent_id info_of].
  destruct (vol !! vb_parent v) as [u|] eqn:Hu; cbn [found_or_none mbind outcome_bind].
  - destruct (decide (vb_len v = 0)) as [Hz|Hz].
    { pose proof (parent_zero x _ Hxi Hz) as Hp. cbn in Hp. unfold block_info_of in Hp. by rewrite Hu in Hp. }
    destruct (sr_vol _ _ _ _ Hs x v Hx) as (_ & _ & _ & [Hv0 _] & _).
    destruct (parent_len x _ Hxi) as (p & Hp & Hpl); [cbn; lia|]. cbn in Hp, Hpl. unfold block_info_of in Hp.
    rewrite Hu in Hp. injection Hp as <-. cbn in Hpl.
    assert (∀ n, nth_parent (S n) x = nth_parent n (vb_parent v)) as Hstep by (intros n; cbn [nth_parent]; by rewrite Hxi).
    rewrite wrap_small by (unfold in_u; lia). cbn [bi_id info_of]. case_decide as Hpa'.
    + subst a. assert (u = w) as -> by congruence. rewrite decide_True; [do 2 f_equal; lia|]. split; [lia|].
      split; [lia|]. replace (Z.to_nat (vb_len v - la)) with 1%nat by lia. rewrite Hstep. cbn [nth_parent].
      rewrite decide_True; [done|]. unfold block_info_of. rewrite Hu. by eexists.
    + rewrite (IH (vb_parent v) u) by (done || lia). f_equal.
      assert (la < vb_len u ∧ ancestor_at la (vb_len u) a (vb_parent v) ↔ la < vb_len v ∧ ancestor_at la (vb_len v) a x) as Hiff
        by (by apply ancestor_step).
      destruct (decide (la < vb_len u ∧ _)) as [Hu1|Hu1]; destruct (decide (la < vb_len v ∧ _)) as [Hv1|Hv1]; try tauto. f_equal. lia.
  - rewrite decide_False; [done|]. intros [Hlt [_ Hn]].
    destruct (sr_vol _ _ _ _ Hs x v Hx) as (_ & _ & _ & _ & Hl).
    destruct Hl as [[_ Hl]|[(p & Hp & Hl)|(j & Hj & Hl)]]; [lia|congruence|]. pose proof (perm_pos_lt _ _ _ Hj). lia.
Qed.

Lemma is_ancestor_volatile fuel a w d v :
  vol !! a = Some w → vol !! d = Some v → a ≠ d → vb_len v < Z.of_nat fuel →
  (if vb_len v <=? vb_len w then Ok None
   else if decide (vb_parent v = a) then Ok (Some 1)
   else
     match tree_scan_prefix (chain_length_index_tree s) (build_chain_length_index_prefix (vb_len w)) with
     | chain_length_res :: rest =>
         sled chain_length_res ;;
         match rest with
         | [] => Ok (Some (vb_len v - vb_len w))
         | _ :: _ => is_ancestor_loop fuel s a (info_of vol tags d v) 0
         end
     | [] => is_ancestor_loop fuel s a (info_of vol tags d v) 0
     end) =
  Ok (if decide (ancestor_at (vb_len w) (vb_len v) a d) then Some (vb_len v - vb_len w) else None)
  :> outcome (StoreError SledError PileError) _.
Proof.
  intros Ha Hd Hne Hf. pose proof (Hpruned a w Ha) as Hpw. cbn in Hpw.
  destruct (sr_vol _ _ _ _ Hs a w Ha) as (_ & _ & _ & Huw & _). destruct (sr_vol _ _ _ _ Hs d v Hd) as (_ & _ & _ & Huv & _).
  assert (block_info_of a = Some (info_of vol tags a w)) as Hai by (unfold block_info_of; by rewrite Ha).
  assert (block_info_of d = Some (info_of vol tags d v)) as Hdi by (unfold block_info_of; by rewrite Hd).
  destruct (Z.leb_spec (vb_len v) (vb_len w)) as [Hle|Hlt].
  { rewrite decide_False; [done|]. by apply (ancestor_below _ a d _ _ Hai eq_refl Hdi). }
  assert (is_ancestor_loop fuel s a (info_of vol tags d v) 0 =
    Ok (if decide (ancestor_at (vb_len w) (vb_len v) a d) then Some (vb_len v - vb_len w) else None)) as Hloop.
  { rewrite (is_ancestor_loop_ok fuel a (vb_len w) w d v 0) by (done || (destruct Huv; lia)). f_equal.
    apply decide_ext. split; [by intros [_ ?]|done]. }
  destruct (scan_entries (vb_len w) Huw) as (l & Hl & _ & _); [done|].
  destruct (decide (vb_parent v = a)) as [Hpar|Hpar].
  - rewrite decide_True; [|split; [lia|]].
    + destruct (parent_len d _ Hdi) as (p & Hp & Hpl); [cbn; destruct Huw; lia|]. cbn in Hp, Hpl.
      rewrite Hpar, Hai in Hp. injection Hp as <-. cbn in Hpl. do 2 f_equal. lia.
    + destruct (parent_len d _ Hdi) as (p & Hp & Hpl); [cbn; destruct Huw; lia|]. cbn in Hp, Hpl.
      rewrite Hpar, Hai in Hp. injection Hp as <-. cbn in Hpl.
      replace (Z.to_nat (vb_len v - vb_len w)) with 1%nat by lia. cbn [nth_parent]. rewrite Hdi. cbn [mbind option_bind bi_parent_id info_of].
      rewrite Hpar, decide_True by (rewrite Hai; by eexists). done.
  - rewrite Hl. destruct l as [|[key x] [|]]; cbn [fmap list_fmap]; [exact Hloop| |exact Hloop].
    cbn [sled map_err mbind outcome_bind]. destruct (scan_single (vb_len w) key x a w) as [_ Honly]; [done..|].
    rewrite decide_True; [done|]. apply (nth_parent_exists a d _ _ _ Hdi); [done|destruct Huw; lia|].
    intros b i Hb Hbl. destruct (vol_by_len b i Hb) as (u & Hu & _ & Hul); [lia|]. apply (Honly b u Hu). lia.
Qed.
Lemma is_ancestor_ok fuel a d i j :
  block_info_of a = Some i → block_info_of d = Some j → bi_chain_length j < Z.of_nat fuel →
  is_ancestor fuel s a d = Ok (if decide (ancestor_at (bi_chain_length i) (bi_chain_length j) a d)
                               then Some (bi_chain_length j - bi_chain_length i) else None).
Proof.
  intros Ha Hd Hf. unfold is_ancestor. rewrite get_block_info_ok, Hd. cbn [mbind outcome_bind]. case_decide as Had.
  { subst d. assert (i = j) as -> by congruence. rewrite Z.sub_diag, decide_True; [done|]. split; [lia|].
    rewrite Z.sub_diag. change (Z.to_nat 0) with 0%nat. cbn [nth_parent]. by rewrite decide_True by (rewrite Ha; by eexists). }
  rewrite decide_False by (intros ->; by rewrite root_unknown in Ha).
  rewrite (ps_get_block_info_ok _ perm (root_id s)) by apply Hs. cbn [mbind outcome_bind].
  pose proof (len_nonneg _ _ Ha) as Hi0. pose proof (len_nonneg _ _ Hd) as Hj0.
  destruct (perm_pos perm a) as [k|] eqn:Hk; cbn [fmap option_fmap option_map].
  - rewrite (perm_known k a Hk) in Ha. injection Ha as <-. cbn [perm_info block_info_new bi_chain_length] in *.
    pose proof (perm_pos_lt _ _ _ Hk). destruct (Z.ltb_spec (Z.of_nat k) (bi_chain_length j)) as [Hlt|Hge].
    + rewrite decide_True; [done|]. apply (nth_parent_exists a d _ _ _ Hd); [done|lia|].
      intros b i Hb Hbl. destruct (perm_by_len b i Hb) as [Hx _]; [lia|]. rewrite Hbl, Nat2Z.id in Hx.
      apply perm_ids_lookup in Hk. congruence.
    + rewrite decide_False; [done|]. eapply ancestor_below; [apply (perm_known k a Hk)|done|done|lia|done].
  - unfold block_info_of in Ha. destruct (vol !! a) as [w|] eqn:Hw; [|by rewrite Hk in Ha]. injection Ha as <-.
    rewrite (get_block_info_volatile_ok s vol perm tags), Hw by done. cbn [mbind outcome_bind bi_chain_length bi_id info_of].
    destruct (decide (bi_chain_length j ≤ vb_len w)) as [Hle|Hgt].
    + rewrite (proj2 (Z.leb_le _ _)) by done. rewrite decide_False; [done|].
      apply (ancestor_below (vb_len w) a d (info_of vol tags a w) j); [unfold block_info_of; by rewrite Hw|done..].
    + pose proof (Hpruned a w Hw) as Hpw. cbn in Hpw. destruct (vol_by_len d j Hd) as (v & Hv & -> & _); [lia|].
      by apply is_ancestor_volatile.
Qed.

(** *** The lowest common ancestor *)
Definition ancestor a d : Prop := ∃ n, nth_parent n d = Some a.
Definition lowest_common b1 b2 (r : option BlockInfo) : Prop :=
  match r with
  | Some j => ∃ c, block_info_of c = Some j ∧ ancestor c b1 ∧ ancestor c b2 ∧
      ∀ x i, block_info_of x = Some i → ancestor x b1 → ancestor x b2 → bi_chain_length i ≤ bi_chain_length j
  | None => ∀ x, ancestor x b1 → ancestor x b2 → False
  end.
Lemma nth_parent_add m n id : nth_parent (m + n) id = nth_parent m id ≫= nth_parent n.
Proof.
  revert id. induction m as [|m IH]; intros id; cbn [Nat.add nth_parent].
  - destruct (decide (is_Some (block_info_of id))) as [Hk|Hk]; [done|]. cbn.
    destruct (block_info_of id) eqn:Hid; [exfalso; apply Hk; by eexists|]. destruct n; cbn [nth_parent]; rewrite Hid; [|done].
    by rewrite decide_False by (by intros []).
  - destruct (block_info_of id); [apply IH|done].
Qed.
Lemma ancestor_len x d i j n :
  block_info_of d = Some i → nth_parent n d = Some x → block_info_of x = Some j →
  bi_chain_length j = bi_chain_length i - Z.of_nat n.
Proof.
  intros Hd Hn Hx. pose proof (nth_parent_len n d i Hd) as Hl. rewrite Hn in Hl. destruct Hl as [_ Hl].
  unfold len_of in Hl. rewrite Hx in Hl. by injection Hl.
Qed.
Lemma ancestor_refl d i : block_info_of d = Some i → ancestor d d.
Proof. intros Hd. exists 0%nat. cbn [nth_parent]. by rewrite decide_True by (rewrite Hd; by eexists). Qed.
(** A permanent block is an ancestor of every longer one. *)
Lemma permanent_ancestor b1 b2 i1 i2 :
  block_info_of b1 = Some i1 → block_info_of b2 = Some i2 → bi_chain_length i1 < Z.of_nat (length perm) →
  bi_chain_length i1 ≤ bi_chain_length i2 → lowest_common b1 b2 (Some i1) ∧ lowest_common b2 b1 (Some i1).
Proof.
  intros H1 H2 Hp Hle. destruct (perm_by_len b1 i1 H1 Hp) as [Hx _].
  assert (ancestor b1 b2) as Ha.
  { destruct (nth_parent_exists b1 b2 (bi_chain_length i1) _ i2 H2 eq_refl) as [_ Hn].
    - pose proof (len_nonneg _ _ H1). lia.
    - intros b i Hb Hl. destruct (perm_by_len b i Hb) as [Hy _]; [lia|]. rewrite Hl in Hy. congruence.
    - by eexists. }
  assert (∀ x i, block_info_of x = Some i → ancestor x b1 → bi_chain_length i ≤ bi_chain_length i1) as Hmax.
  { intros x i Hxi [n Hn]. rewrite (ancestor_len x b1 i1 i n H1 Hn Hxi). lia. }
  pose proof (ancestor_refl _ _ H1). split; exists b1; split_and!; eauto.
Qed.
Lemma lca_loop_ok fuel x1 i1 x2 i2 :
  block_info_of x1 = Some i1 → block_info_of x2 = Some i2 → bi_chain_length i1 = bi_chain_length i2 →
  bi_chain_length i1 < Z.of_nat fuel →
  ∃ m c1 j1 c2 j2, nth_parent m x1 = Some c1 ∧ block_info_of c1 = Some j1 ∧ nth_parent m x2 = Some c2 ∧
    block_info_of c2 = Some j2 ∧ lca_loop fuel s i1 i2 = Ok (j1, j2) ∧ (c1 = c2 ∨ bi_chain_length j1 = 0) ∧
    ∀ k, (k < m)%nat → nth_parent k x1 ≠ nth_parent k x2.
Proof.
  revert x1 i1 x2 i2. induction fuel as [|fuel IH]; intros x1 i1 x2 i2 H1 H2 Hl Hf.
  { pose proof (len_nonneg _ _ H1). lia. }
  cbn [lca_loop]. rewrite (block_info_of_id _ _ H1), (block_info_of_id _ _ H2).
  destruct (decide (x2 = x1)) as [->|Hne].
  { rewrite bool_decide_false by (by intros ?). exists 0%nat, x1, i1, x1, i2. cbn [andb nth_parent].
    rewrite decide_True by (rewrite H1; by eexists). split_and!; try done; [by left|lia]. }
  rewrite bool_decide_true by done. pose proof (len_nonneg _ _ H1). destruct (Z.ltb_spec 0 (bi_chain_length i1)) as [Hpos|Hz].
  - cbn [andb]. destruct (parent_len x1 i1 H1 Hpos) as (p1 & Hp1 & Hpl1). destruct (parent_len x2 i2 H2) as (p2 & Hp2 & Hpl2); [lia|].
    rewrite (get_block_info_ok (bi_parent_id i1)), Hp1. cbn [mbind outcome_bind].
    rewrite (get_block_info_ok (bi_parent_id i2)), Hp2. cbn [mbind outcome_bind].
    destruct (IH _ _ _ _ Hp1 Hp2) as (m & c1 & j1 & c2 & j2 & Hm1 & Hj1 & Hm2 & Hj2 & Hloop & Hor & Hbefore); [lia|lia|].
    exists (S m), c1, j1, c2, j2. cbn [nth_parent]. rewrite H1, H2. split_and!; try done.
    intros [|k] Hk; cbn [nth_parent]; rewrite H1, H2; [|apply Hbefore; lia].
    rewrite !decide_True by (by eexists). congruence.
  - cbn [andb]. exists 0%nat, x1, i1, x2, i2. cbn [nth_parent]. rewrite H1, H2, !decide_True by (by eexists).
    split_and!; try done; [right; lia|lia].
Qed.
(** Two blocks of which one is as long as the other's ancestor [x2]. *)
Lemma lca_of_loop b1 i1 b2 i2 x2 m c1 j1 c2 j2 :
  block_info_of b1 = Some i1 → block_info_of b2 = Some i2 → bi_chain_length i1 ≤ bi_chain_length i2 →
  nth_parent (Z.to_nat (bi_chain_length i2 - bi_chain_length i1)) b2 = Some x2 →
  nth_parent m b1 = Some c1 → block_info_of c1 = Some j1 → nth_parent m x2 = Some c2 → block_info_of c2 = Some j2 →
  (c1 = c2 ∨ bi_chain_length j1 = 0) → (∀ k, (k < m)%nat → nth_parent k b1 ≠ nth_parent k x2) →
  lowest_common b1 b2 (if decide (bi_id j1 ≠ bi_id j2) then None else Some j1).
Proof.
  intros H1 H2 Hle Hx2 Hc1 Hj1 Hc2 Hj2 Hor Hbefore.
  assert (∀ x i n1 n2, block_info_of x = Some i → nth_parent n1 b1 = Some x → nth_parent n2 b2 = Some x →
    (m ≤ n1)%nat ∧ nth_parent n1 x2 = Some x) as Hcommon.
  { intros x i n1 n2 Hx Hn1 Hn2. pose proof (ancestor_len _ _ _ _ _ H1 Hn1 Hx). pose proof (ancestor_len _ _ _ _ _ H2 Hn2 Hx).
    assert (nth_parent n1 x2 = Some x) as Hn.
    { replace n2 with (Z.to_nat (bi_chain_length i2 - bi_chain_length i1) + n1)%nat in Hn2 by lia.
      rewrite nth_parent_add, Hx2 in Hn2. exact Hn2. }
    split; [|done]. destruct (decide (m ≤ n1)%nat); [done|]. exfalso. apply (Hbefore n1); [lia|congruence]. }
  rewrite (block_info_of_id _ _ Hj1), (block_info_of_id _ _ Hj2). pose proof (ancestor_len _ _ _ _ _ H1 Hc1 Hj1) as Hlc.
  case_decide as Hne; cbn [lowest_common].
  - intros x [n1 Hn1] [n2 Hn2]. destruct Hor as [->|Hz]; [done|]. destruct (nth_parent_known _ _ _ Hn1) as [i Hx].
    destruct (Hcommon x i n1 n2 Hx Hn1 Hn2) as [Hm Hn]. pose proof (ancestor_len _ _ _ _ _ H1 Hn1 Hx).
    pose proof (len_nonneg _ _ Hx). assert (n1 = m) as -> by lia. congruence.
  - subst c2. exists c1. split; [done|]. split; [by exists m|]. split.
    + exists (Z.to_nat (bi_chain_length i2 - bi_chain_length i1) + m)%nat. by rewrite nth_parent_add, Hx2.
    + intros x i Hx [n1 Hn1] [n2 Hn2]. destruct (Hcommon x i n1 n2 Hx Hn1 Hn2) as [Hm _].
      rewrite (ancestor_len _ _ _ _ _ H1 Hn1 Hx), Hlc. lia.
Qed.

Lemma lowest_common_comm b1 b2 r : lowest_common b1 b2 r → lowest_common b2 b1 r.
Proof.
  destruct r as [j|]; cbn.
  - intros (c & Hc & Ha1 & Ha2 & Hmax). exists c. split_and!; try done. eauto.
  - eauto.
Qed.
(** The case of two volatile blocks, the second at least as long. *)
Lemma lca_volatile fuel b1 i1 b2 i2 :
  block_info_of b1 = Some i1 → block_info_of b2 = Some i2 → bi_chain_length i1 ≤ bi_chain_length i2 →
  bi_chain_length i2 < Z.of_nat fuel → u32_ok (bi_chain_length i2) →
  ∃ r, (current2 ← get_nth_ancestor fuel s (bi_id i2) (bi_chain_length i2 - bi_chain_length i1);
        '(current1, current2) ← lca_loop fuel s i1 current2;
        if decide (bi_id current1 ≠ bi_id current2) then Ok None else Ok (Some current1)) = Ok r ∧
    lowest_common b1 b2 r.
Proof.
  intros H1 H2 Hle Hf Hu. pose proof (len_nonneg _ _ H1).
  destruct (get_nth_ancestor_ok fuel b2 i2 (Z.to_nat (bi_chain_length i2 - bi_chain_length i1)) H2)
    as (x2 & k2 & Hx2 & Hk2 & Hget); [lia|lia|done|].
  rewrite Z2Nat.id in Hget by lia. rewrite (block_info_of_id _ _ H2), Hget. cbn [mbind outcome_bind].
  pose proof (ancestor_len _ _ _ _ _ H2 Hx2 Hk2).
  destruct (lca_loop_ok fuel b1 i1 x2 k2 H1 Hk2) as (m & c1 & j1 & c2 & j2 & Hc1 & Hj1 & Hc2 & Hj2 & Hloop & Hor & Hbefore); [lia|lia|].
  rewrite Hloop. cbn [mbind outcome_bind].
  pose proof (lca_of_loop b1 i1 b2 i2 x2 m c1 j1 c2 j2 H1 H2 Hle Hx2 Hc1 Hj1 Hc2 Hj2 Hor Hbefore) as Hlow.
  case_decide; by eexists.
Qed.
Lemma lca_ok fuel b1 i1 b2 i2 :
  block_info_of b1 = Some i1 → block_info_of b2 = Some i2 →
  bi_chain_length i1 < Z.of_nat fuel → bi_chain_length i2 < Z.of_nat fuel →
  ∃ r, find_lowest_common_ancestor fuel s b1 b2 = Ok r ∧ lowest_common b1 b2 r.
Proof.
  intros H1 H2 Hf1 Hf2. unfold find_lowest_common_ancestor.
  rewrite !(ps_get_block_info_ok _ perm (root_id s)) by apply Hs. cbn [mbind outcome_bind].
  destruct (perm_pos perm b1) as [k1|] eqn:Hk1, (perm_pos perm b2) as [k2|] eqn:Hk2; cbn [fmap option_fmap option_map].
  - pose proof (perm_pos_lt _ _ _ Hk1). pose proof (perm_pos_lt _ _ _ Hk2).
    rewrite (perm_known k1 b1 Hk1) in H1. rewrite (perm_known k2 b2 Hk2) in H2. injection H1 as <-. injection H2 as <-.
    cbn [perm_info block_info_new bi_chain_length].
    destruct (Z.ltb_spec (Z.of_nat k1) (Z.of_nat k2)); eexists; (split; [reflexivity|]).
    + destruct (permanent_ancestor b1 b2 _ _ (perm_known k1 b1 Hk1) (perm_known k2 b2 Hk2)) as [Hlow _]; [cbn; lia|cbn; lia|exact Hlow].
    + destruct (permanent_ancestor b2 b1 _ _ (perm_known k2 b2 Hk2) (perm_known k1 b1 Hk1)) as [_ Hlow]; [cbn; lia|cbn; lia|exact Hlow].
  - pose proof (perm_pos_lt _ _ _ Hk1). pose proof H2 as H2'. unfold block_info_of in H2'.
    destruct (vol !! b2) as [v|] eqn:Hv; [|by rewrite Hk2 in H2']. injection H2' as <-.
    rewrite (block_exists_volatile_ok s vol perm tags), Hv by done. eexists. split; [reflexivity|]. pose proof (Hpruned b2 v Hv) as Hpv.
    destruct (permanent_ancestor b1 b2 _ _ (perm_known k1 b1 Hk1) H2) as [Hlow _]; [cbn; lia|cbn in *; lia|exact Hlow].
  - pose proof (perm_pos_lt _ _ _ Hk2). pose proof H1 as H1'. unfold block_info_of in H1'.
    destruct (vol !! b1) as [v|] eqn:Hv; [|by rewrite Hk1 in H1']. injection H1' as <-.
    rewrite (block_exists_volatile_ok s vol perm tags), Hv by done. eexists. split; [reflexivity|]. pose proof (Hpruned b1 v Hv) as Hpv.
    destruct (permanent_ancestor b2 b1 _ _ (perm_known k2 b2 Hk2) H1) as [_ Hlow]; [cbn; lia|cbn in *; lia|exact Hlow].
  - pose proof H1 as H1'. pose proof H2 as H2'. unfold block_info_of in H1', H2'. rewrite Hk1 in H1'. rewrite Hk2 in H2'.
    destruct (vol !! b1) as [v1|] eqn:Hv1; [|done]. destruct (vol !! b2) as [v2|] eqn:Hv2; [|done].
    injection H1' as <-. injection H2' as <-.
    destruct (sr_vol _ _ _ _ Hs b1 v1 Hv1) as (_ & _ & _ & Hu1 & _). destruct (sr_vol _ _ _ _ Hs b2 v2 Hv2) as (_ & _ & _ & Hu2 & _).
    rewrite !(get_block_info_volatile_ok s vol perm tags), Hv1, Hv2 by done. cbn [mbind outcome_bind].
    destruct (Z.ltb_spec (bi_chain_length (info_of vol tags b2 v2)) (bi_chain_length (info_of vol tags b1 v1))).
    + destruct (lca_volatile fuel b2 _ b1 _ H2 H1) as (r & Hr & Hlow); [lia|done|done|].
      exists r. split; [done|]. by apply lowest_common_comm.
    + by apply (lca_volatile fuel b1 _ b2 _ H1 H2).
Qed.
End chain.

(** *** Pruning *)
(** The volatile blocks that are left when the branch of a tip is removed, up
    to a block that has another child or a tag. *)
Fixpoint prune_vol (n : nat) vol tags id : Volatile :=
  match n with
  | O => vol
  | S n =>
      match vol !! id with
      | Some v =>
          if decide (children vol id = 0%nat ∧ tag_refs tags id = 0%nat)
          then prune_vol n (delete id vol) tags (vb_parent v)
          else vol
      | None => vol
      end
  end.

Lemma delete_linked root vol perm id v :
  children vol id = 0%nat → vb_parent v ≠ id → linked root vol perm v → linked root (delete id vol) perm v.
Proof.
  intros Hc Hne [?|[(p & Hp & Hl)|?]]; [by left| |by right; right]. right. left. exists p. by rewrite lookup_delete_ne.
Qed.
Lemma no_children vol id k v : children vol id = 0%nat → vol !! k = Some v → vb_parent v ≠ id.
Proof. intros Hc Hk Hp. pose proof (children_pos vol id k v Hk Hp). lia. Qed.
Lemma delete_vol_ok root n vol perm id :
  children vol id = 0%nat → vol_ok root n vol perm → vol_ok root n (delete id vol) perm.
Proof.
  intros Hc Hv k w [Hne Hk]%lookup_delete_Some. destruct (Hv k w Hk) as (? & ? & ? & ? & ?). split_and!; try done.
  apply delete_linked; [done|by eapply no_children|done].
Qed.
Lemma delete_index (idx : TreeMap) vol perm id v :
  index_repr idx vol perm → vol !! id = Some v → u32_ok (vb_len v) → map_Forall (λ _ w, u32_ok (vb_len w)) vol →
  index_repr (delete (build_chain_length_index (vb_len v) id) idx) (delete id vol) perm.
Proof.
  intros [Hi Hk] Hv Hu Hall. split.
  - intros k w [Hne Hw]%lookup_delete_Some. rewrite lookup_delete_ne; [by apply Hi|].
    intros Heq. apply index_key_inj in Heq as [_ ->]; [done|done|by apply (Hall k)].
  - intros key x [Hne Hx]%lookup_delete_Some. destruct (Hk key x Hx) as (len & k & -> & Hlu & Hor).
    exists len, k. split; [done|]. split; [done|]. destruct Hor as [?|(w & Hw & Hl)]; [by left|right].
    exists w. split; [|done]. rewrite lookup_delete_ne; [done|]. intros ->. apply Hne. congruence.
Qed.
(** The tips once a tip is gone and its parent may have become one. *)
Lemma delete_tips (tips tips' : TreeMap) vol perm id v :
  tips_repr tips vol perm → vol !! id = Some v → children vol id = 0%nat → vb_parent v ≠ id →
  (∀ x, x ≠ vb_parent v → tips' !! x = delete id tips !! x) →
  (is_Some (vol !! vb_parent v) → is_Some (tips' !! vb_parent v) ↔ children (delete id vol) (vb_parent v) = 0%nat) →
  (is_Some (tips' !! vb_parent v) → known vol perm (vb_parent v)) →
  tips_repr tips' (delete id vol) perm.
Proof.
  intros [Ht Hk] Hv Hc Hne Hsame Hpar Hknown. split.
  - intros x w [Hx Hw]%lookup_delete_Some. destruct (decide (x = vb_parent v)) as [->|Hxp].
    + apply Hpar. by exists w.
    + rewrite Hsame, lookup_delete_ne by done. rewrite (Ht x w Hw), (children_delete vol id v x Hv).
      rewrite decide_False by done. by rewrite Nat.add_0_r.
  - intros x w Hx. destruct (decide (x = vb_parent v)) as [->|Hxp].
    + destruct Hknown as [[u Hu]|Hp]; [by exists w| |by right]. left. by rewrite lookup_delete_ne.
    + rewrite Hsame in Hx by done. apply lookup_delete_Some in Hx as [Hxi Hx].
      destruct (Hk x w Hx) as [[u Hu]|?]; [left|by right]. by rewrite lookup_delete_ne.
Qed.
(** The infos, given those of all but the parent. *)
Lemma delete_infos vol tags (info info' : TreeMap) id v :
  (∀ x, info !! x = (λ w, info_serialize (info_of vol tags x w)) <$> vol !! x) → vol !! id = Some v → vb_parent v ≠ id →
  (∀ x, x ≠ vb_parent v → info' !! x = delete id info !! x) →
  info' !! vb_parent v = (λ w, info_serialize (info_of (delete id vol) tags (vb_parent v) w)) <$> vol !! vb_parent v →
  ∀ x, info' !! x = (λ w, info_serialize (info_of (delete id vol) tags x w)) <$> delete id vol !! x.
Proof.
  intros Hi Hv Hne Hsame Hpar x. destruct (decide (x = vb_parent v)) as [->|Hxp].
  { by rewrite Hpar, lookup_delete_ne. }
  rewrite Hsame by done. destruct (decide (x = id)) as [->|Hxi]; [by rewrite !lookup_delete_eq|].
  rewrite !lookup_delete_ne, Hi by done. destruct (vol !! x) as [w|]; [|done]. cbn [fmap option_fmap option_map].
  do 2 f_equal. unfold info_of. f_equal. f_equal. rewrite (children_delete vol id v x Hv), decide_False by done. lia.
Qed.

Lemma tag_refs_pos tags t id : tags !! t = Some id → (1 ≤ tag_refs tags id)%nat.
Proof.
  intros Ht. pose proof (tag_refs_insert tags t id id) as Hr. rewrite insert_id in Hr by done.
  unfold tag_refs. destruct (size (filter _ tags)) eqn:Hz; [|lia]. exfalso. apply map_size_empty_inv in Hz.
  assert (filter (λ kv : list Z * list Z, kv.2 = id) tags !! t = Some id) as Hf by (by apply map_lookup_filter_Some).
  by rewrite Hz in Hf.
Qed.
Lemma own_parent s vol perm tags id v : store_repr s vol perm tags → vol !! id = Some v → vb_parent v ≠ id.
Proof.
  intros Hs Hv Heq. destruct (sr_vol _ _ _ _ Hs id v Hv) as (_ & Hroot & Hperm & _ & Hl).
  destruct Hl as [[? _]|[(p & Hp & Hlen)|(i & Hi & _)]]; [congruence| |congruence]. rewrite Heq, Hv in Hp. injection Hp as <-. lia.
Qed.
(** A store with a tip removed, from its trees. *)
Lemma removed_repr s s' vol perm tags id v :
  store_repr s vol perm tags → vol !! id = Some v → children vol id = 0%nat → tag_refs tags id = 0%nat →
  permanent s' = permanent s → root_id s' = root_id s → id_length s' = id_length s → tags_tree s' = tags_tree s →
  tree_map (blocks_tree s') = delete id (tree_map (blocks_tree s)) →
  tree_map (chain_length_index_tree s') =
    delete (build_chain_length_index (vb_len v) id) (tree_map (chain_length_index_tree s)) →
  (∀ x, x ≠ vb_parent v → tree_map (info_tree s') !! x = delete id (tree_map (info_tree s)) !! x) →
  tree_map (info_tree s') !! vb_parent v =
    (λ w, info_serialize (info_of (delete id vol) tags (vb_parent v) w)) <$> vol !! vb_parent v →
  (∀ x, x ≠ vb_parent v → tree_map (branches_tips_tree s') !! x = delete id (tree_map (branches_tips_tree s)) !! x) →
  (is_Some (vol !! vb_parent v) →
    is_Some (tree_map (branches_tips_tree s') !! vb_parent v) ↔ children (delete id vol) (vb_parent v) = 0%nat) →
  (is_Some (tree_map (branches_tips_tree s') !! vb_parent v) → known vol perm (vb_parent v)) →
  store_repr s' (delete id vol) perm tags.
Proof.
  intros Hs Hv Hc Ht Hp Hr Hn Htags Hb Hx Hi Hip Htips Htp Htk. pose proof (own_parent s vol perm tags id v Hs Hv) as Hne.
  split; rewrite ?Hp, ?Hr, ?Hn, ?Htags; try apply Hs.
  - by rewrite Hb, (sr_blocks _ _ _ _ Hs), fmap_delete.
  - eapply delete_infos; [apply (sr_info _ _ _ _ Hs)|done..].
  - rewrite Hx. apply delete_index; [apply Hs|done| |].
    + by destruct (sr_vol _ _ _ _ Hs id v Hv) as (_ & _ & _ & ? & _).
    + eapply map_Forall_impl; [apply (sr_vol _ _ _ _ Hs)|]. by intros k w (_ & _ & _ & ? & _).
  - eapply delete_tips; [apply (sr_tips _ _ _ _ Hs)|done..].
  - intros t x Hx'. destruct (sr_tagged _ _ _ _ Hs t x Hx') as [Hk|Hk]; [left|by right].
    rewrite lookup_delete_ne; [done|]. intros <-. pose proof (tag_refs_pos tags t id Hx'). lia.
  - apply delete_vol_ok; [done|apply Hs].
  - pose proof (sr_size _ _ _ _ Hs). rewrite map_size_delete, Hv. lia.
Qed.
(** What the removal of a tip says: where to go on. *)
Definition tip_result vol perm tags (p : list Z) (r : RemoveTipResult) : Prop :=
  match r with
  | NextTip q => q = p ∧ is_Some (vol !! p) ∧ children vol p = 0%nat ∧ tag_refs tags p = 0%nat
  | HitPermanentStore q => q = p ∧ is_Some (perm_pos perm p)
  | Done => perm_pos perm p = None ∧ (vol !! p = None ∨ children vol p ≠ 0%nat ∨ tag_refs tags p ≠ 0%nat)
  end.
Lemma ref_count_zero s vol perm tags id v :
  store_repr s vol perm tags →
  (ref_count (info_of vol tags id v) =? 0) = bool_decide (children vol id = 0%nat ∧ tag_refs tags id = 0%nat).
Proof.
  intros Hs. unfold ref_count, info_of. cbn. pose proof (children_le vol id). pose proof (tag_refs_le tags id).
  pose proof (sr_size _ _ _ _ Hs). rewrite wrap_small by (unfold in_u; lia).
  destruct (Z.eqb_spec (Z.of_nat (children vol id) + Z.of_nat (tag_refs tags id)) 0); symmetry;
    [apply bool_decide_true|apply bool_decide_false]; lia.
Qed.

(** What [remove_tip_impl] does once the tip is gone, with its parent. *)
Definition tip_removed (pid : list Z) s : outcome (StoreError SledError PileError) (BlockStore * RemoveTipResult) :=
  if decide (pid = root_id s) then Ok (s, Done)
  else
    parent_permanent ← in_permanent s pid;
    if (parent_permanent : bool) then Ok (s, HitPermanentStore pid)
    else
      found ← sled (tree_get (info_tree s) pid);
      parent_block_info_bin ← ok_or found (Inconsistent MissingParentBlock);
      parent_block_info ← info_deserialize parent_block_info_bin (id_length s) pid;
      let parent_block_info := remove_parent_ref parent_block_info in
      s ← insert_info (bi_id parent_block_info) (info_serialize parent_block_info) s;
      if negb (bi_parent_ref_count parent_block_info =? 0) then Ok (s, Done)
      else
        s ← insert_tip pid [] s;
        if negb (ref_count parent_block_info =? 0) then Ok (s, Done)
        else Ok (s, NextTip pid).
Lemma remove_tip_first s vol perm tags id v :
  store_repr s vol perm tags → vol !! id = Some v → children vol id = 0%nat → tag_refs tags id = 0%nat →
  ∃ ti tb tx tt, remove_tip_impl id s =
      tip_removed (vb_parent v) (set_tips (set_length_index (set_blocks (set_info s ti) tb) tx) tt) ∧
    tree_map ti = delete id (tree_map (info_tree s)) ∧ tree_map tb = delete id (tree_map (blocks_tree s)) ∧
    tree_map tx = delete (build_chain_length_index (vb_len v) id) (tree_map (chain_length_index_tree s)) ∧
    tree_map tt = delete id (tree_map (branches_tips_tree s)).
Proof.
  intros Hs Hv Hc Ht. unfold remove_tip_impl. rewrite (in_permanent_ok s perm) by apply Hs.
  destruct (vol_not_permanent s vol perm tags id v Hs Hv) as [-> _]. rewrite bool_decide_false by (by intros []).
  cbn [mbind outcome_bind]. rewrite sled_get, (sr_info _ _ _ _ Hs), Hv.
  cbn [fmap option_fmap option_map mbind outcome_bind ok_or]. rewrite (info_deserialize_vol s vol perm tags) by done.
  cbn [mbind outcome_bind]. rewrite (ref_count_zero s vol perm tags) by done. rewrite bool_decide_true by done. cbn [negb].
  destruct (remove_in_ok info_tree set_info id s) as (ti & Hi & Hti). unfold remove_info. rewrite Hi. cbn [mbind outcome_bind].
  destruct (remove_in_ok blocks_tree set_blocks id (set_info s ti)) as (tb & Hb & Htb). unfold remove_block. rewrite Hb.
  cbn [mbind outcome_bind]. unfold remove_index.
  edestruct (remove_in_ok chain_length_index_tree set_length_index) as (tx & Hx & Htx). rewrite Hx. cbn [mbind outcome_bind].
  unfold remove_tip. edestruct (remove_in_ok branches_tips_tree set_tips) as (tt & Htt & Httm). rewrite Htt. cbn [mbind outcome_bind].
  exists ti, tb, tx, tt. clear Hi Hb Hx Htt. trees. done.
Qed.
(** The tips that are not volatile blocks are as they were. *)
Definition other_tips vol s s' : Prop :=
  ∀ x, vol !! x = None → tree_map (branches_tips_tree s') !! x = tree_map (branches_tips_tree s) !! x.
Lemma remove_tip_step s vol perm tags id v :
  store_repr s vol perm tags → vol !! id = Some v → children vol id = 0%nat → tag_refs tags id = 0%nat →
  ∃ s' r, remove_tip_impl id s = Ok (s', r) ∧ store_repr s' (delete id vol) perm tags ∧
    tip_result (delete id vol) perm tags (vb_parent v) r ∧ other_tips vol s s'.
Proof.
  intros Hs Hv Hc Ht. pose proof (own_parent s vol perm tags id v Hs Hv) as Hne.
  destruct (remove_tip_first s vol perm tags id v Hs Hv Hc Ht) as (ti & tb & tx & tt & -> & Hti & Htb & Htx & Htt).
  set (s4 := set_tips (set_length_index (set_blocks (set_info s ti) tb) tx) tt).
  destruct (sr_tips _ _ _ _ Hs) as [Htips Hknown].
  assert (is_Some (tree_map tt !! vb_parent v) → known vol perm (vb_parent v)) as Htk.
  { rewrite Htt. intros [x [_ Hx]%lookup_delete_Some]. by apply (Hknown _ x). }
  assert (vol !! vb_parent v = None → store_repr s4 (delete id vol) perm tags) as Hplain.
  { intros Hnone. apply (removed_repr s s4 vol perm tags id v); try done; unfold s4; trees.
    - intros x _. by rewrite Hti.
    - by rewrite Hti, lookup_delete_ne, (sr_info _ _ _ _ Hs), Hnone by done.
    - intros x _. by rewrite Htt.
    - rewrite Hnone. by intros []. }
  assert (other_tips vol s s4) as Hother.
  { intros x Hx. unfold s4. trees. rewrite Htt, lookup_delete_ne; [done|]. intros <-. congruence. }
  unfold tip_removed. change (root_id s4) with (root_id s). case_decide as Hroot.
  { exists s4, Done. assert (vol !! vb_parent v = None) as Hnone.
    { rewrite Hroot. destruct (vol !! root_id s) as [w|] eqn:Hw; [|done]. by destruct (vol_not_permanent s vol perm tags _ w Hs Hw). }
    split; [done|]. split; [by apply Hplain|]. split; [|done]. split; [rewrite Hroot; apply Hs|]. left. by rewrite lookup_delete_ne. }
  rewrite (in_permanent_ok s4 perm) by apply Hs. cbn [mbind outcome_bind]. case_bool_decide as Hperm.
  { exists s4, (HitPermanentStore (vb_parent v)). split; [done|]. split; [|by split]. apply Hplain.
    destruct (vol !! vb_parent v) as [w|] eqn:Hw; [|done]. destruct (vol_not_permanent s vol perm tags _ w Hs Hw) as [Hp _].
    rewrite Hp in Hperm. by destruct Hperm. }
  destruct (sr_vol _ _ _ _ Hs id v Hv) as (_ & _ & _ & _ & Hl). destruct (linked_parent _ _ _ _ Hl) as [?|[[w Hw]|?]]; [done| |done].
  destruct (vol_not_permanent s vol perm tags _ w Hs Hw) as [Hpn _].
  set (p := vb_parent v) in *. set (i' := info_of (delete id vol) tags p w).
  pose proof (children_le vol p) as Hle. pose proof (sr_size _ _ _ _ Hs) as Hsize.
  pose proof (children_delete vol id v p Hv) as Hcd. rewrite decide_True in Hcd by done.
  assert (remove_parent_ref (info_of vol tags p w) = i') as Hi'.
  { unfold remove_parent_ref, set_parent_refs, i', info_of. cbn. rewrite wrap_small by (unfold in_u; lia). f_equal. lia. }
  change (info_tree s4) with ti. rewrite sled_get, Hti, lookup_delete_ne, (sr_info _ _ _ _ Hs), Hw by done.
  cbn [fmap option_fmap option_map mbind outcome_bind ok_or]. change (id_length s4) with (id_length s).
  rewrite (info_deserialize_vol s vol perm tags) by done. cbn [mbind outcome_bind]. cbn zeta. rewrite Hi'.
  unfold insert_info. destruct (insert_in_ok info_tree set_info (bi_id i') (info_serialize i') s4) as (ti' & -> & Hti').
  cbn [mbind outcome_bind]. change (bi_id i') with p in Hti'. change (info_tree s4) with ti in Hti'.
  assert (∀ tt', (∀ x, x ≠ p → tree_map tt' !! x = tree_map tt !! x) →
      (is_Some (tree_map tt' !! p) ↔ children (delete id vol) p = 0%nat) →
      store_repr (set_tips (set_info s4 ti') tt') (delete id vol) perm tags) as Hrepr.
  { intros tt' Hne' Htip. apply (removed_repr s _ vol perm tags id v); try done; unfold s4; trees; fold p.
    - intros x Hx. by rewrite Hti', lookup_insert_ne, Hti by done.
    - by rewrite Hti', lookup_insert_eq, Hw.
    - intros x Hx. by rewrite Hne', Htt by done.
    - intros _. left. by exists w. }
  change (bi_parent_ref_count i') with (Z.of_nat (children (delete id vol) p)).
  destruct (decide (children (delete id vol) p = 0%nat)) as [Hz|Hz].
  - rewrite (proj2 (Z.eqb_eq _ _)) by lia. cbn [negb].
    destruct (insert_in_ok branches_tips_tree set_tips p [] (set_info s4 ti')) as (tt' & Ht' & Htt').
    unfold insert_tip. rewrite Ht'. cbn [mbind outcome_bind]. change (branches_tips_tree (set_info s4 ti')) with tt in Htt'.
    assert (store_repr (set_tips (set_info s4 ti') tt') (delete id vol) perm tags) as Hs'.
    { apply Hrepr; rewrite Htt'; [intros x Hx; by rewrite lookup_insert_ne|rewrite lookup_insert_eq; by split]. }
    assert (other_tips vol s (set_tips (set_info s4 ti') tt')) as Hother'.
    { intros x Hx. trees. rewrite Htt', lookup_insert_ne by congruence. by apply Hother. }
    unfold i'. rewrite (ref_count_zero _ (delete id vol) perm tags p w Hs'). case_bool_decide as Hb; cbn [negb].
    + eexists _, (NextTip p). split; [done|]. split; [done|]. split; [|exact Hother'].
      split; [done|]. split; [rewrite lookup_delete_ne by done; by exists w|done].
    + eexists _, Done. split; [done|]. split; [done|]. split; [|exact Hother']. split; [done|]. right. tauto.
  - rewrite (proj2 (Z.eqb_neq _ _)) by lia. cbn [negb]. exists (set_info s4 ti'), Done. split; [done|].
    split; [|split; [split; [done|right; left; done]|exact Hother]]. change (set_info s4 ti') with (set_tips (set_info s4 ti') tt). apply Hrepr; [done|].
    rewrite Htt, lookup_delete_ne by done. rewrite (Htips p w Hw). lia.
Qed.
Lemma prune_vol_stop n vol tags id :
  vol !! id = None ∨ children vol id ≠ 0%nat ∨ tag_refs tags id ≠ 0%nat → prune_vol n vol tags id = vol.
Proof.
  intros Hor. destruct n as [|n]; [done|]. cbn [prune_vol]. destruct (vol !! id); [|done].
  rewrite decide_False; [done|]. intros [? ?]. by destruct Hor as [?|[?|?]].
Qed.
(** The other tips and the tagged blocks stay. *)
Lemma prune_vol_keeps n vol tags id x v :
  vol !! x = Some v → (x ≠ id ∧ children vol x = 0%nat) ∨ tag_refs tags x ≠ 0%nat →
  prune_vol n vol tags id !! x = Some v.
Proof.
  revert vol id. induction n as [|n IH]; intros vol id Hx Hor; cbn [prune_vol]; [done|].
  destruct (vol !! id) as [w|] eqn:Hw; [|done]. case_decide as Hd; [|done]. destruct Hd as [Hc Ht].
  assert (x ≠ id) as Hne by (destruct Hor as [[? _]|?]; [done|by intros ->]).
  pose proof (children_delete vol id w x Hw) as Hcd.
  apply IH; [by rewrite lookup_delete_ne|]. destruct Hor as [[_ Hcx]|Hr]; [left|by right].
  case_decide as Hp; [lia|]. split; [congruence|lia].
Qed.
(** Where the loop ends: at a permanent block exactly when it is the parent of a
    block that was removed. *)
Definition lost_child vol vol' (x : list Z) : Prop := ∃ b v, vol !! b = Some v ∧ vol' !! b = None ∧ vb_parent v = x.
Definition prune_result vol vol' perm (r : RemoveTipResult) : Prop :=
  (∀ q, r ≠ NextTip q) ∧ (∀ q, r = HitPermanentStore q → is_Some (perm_pos perm q)) ∧
  ∀ x, is_Some (perm_pos perm x) → lost_child vol vol' x ↔ r = HitPermanentStore x.
Lemma prune_vol_sub n vol tags id : prune_vol n vol tags id ⊆ vol.
Proof.
  revert vol id. induction n as [|n IH]; intros vol id; cbn [prune_vol]; [done|]. destruct (vol !! id); [|done].
  case_decide; [|done]. etrans; [apply IH|apply delete_subseteq].
Qed.
Lemma lost_child_none vol x : ¬ lost_child vol vol x.
Proof. intros (b & v & Hb & Hn & _). congruence. Qed.
Lemma lost_child_delete vol vol' id v x :
  vol !! id = Some v → vol' ⊆ delete id vol → lost_child vol vol' x ↔ vb_parent v = x ∨ lost_child (delete id vol) vol' x.
Proof.
  intros Hv Hsub. assert (vol' !! id = None) as Hn.
  { destruct (vol' !! id) as [w|] eqn:Hw; [|done]. pose proof (lookup_weaken _ _ _ _ Hw Hsub) as Hd. by rewrite lookup_delete_eq in Hd. }
  unfold lost_child. split.
  - intros (b & w & Hb & Hbn & <-). destruct (decide (b = id)) as [->|Hne]; [left; congruence|right].
    exists b, w. by rewrite lookup_delete_ne.
  - intros [<-|(b & w & [Hne Hb]%lookup_delete_Some & Hbn & <-)]; [by exists id, v|by exists b, w].
Qed.
Lemma prune_result_stop vol perm : prune_result vol vol perm Done.
Proof. split; [done|]. split; [done|]. intros x _. split; [by intros ?%lost_child_none|done]. Qed.
Lemma prune_loop_ok fuel n s vol perm tags id v :
  store_repr s vol perm tags → vol !! id = Some v → children vol id = 0%nat → tag_refs tags id = 0%nat →
  (size vol < fuel)%nat → (size vol ≤ n)%nat →
  ∃ s' r, prune_loop fuel (NextTip id) s = Ok (s', r) ∧ store_repr s' (prune_vol n vol tags id) perm tags ∧
    prune_result vol (prune_vol n vol tags id) perm r ∧ other_tips vol s s'.
Proof.
  revert n s vol id v. induction fuel as [|fuel IH]; intros n s vol id v Hs Hv Hc Ht Hf Hn; [lia|].
  assert (size (delete id vol) = size vol - 1)%nat as Hsz by (rewrite map_size_delete, Hv; lia).
  assert (size vol ≠ 0%nat) by (apply (map_size_ne_0_lookup vol); exists id; by rewrite Hv).
  destruct n as [|n]; [lia|]. cbn [prune_vol prune_loop]. rewrite Hv, decide_True by done.
  destruct (remove_tip_step s vol perm tags id v Hs Hv Hc Ht) as (s' & r & -> & Hs' & Hr & Ho). cbn [mbind outcome_bind].
  pose proof (λ x, lost_child_delete vol _ id v x Hv (prune_vol_sub n (delete id vol) tags (vb_parent v))) as Hlost.
  destruct r as [q|q|]; cbn [tip_result] in Hr.
  - destruct Hr as (-> & [w Hw] & Hcp & Htp).
    destruct (IH n s' (delete id vol) (vb_parent v) w) as (s'' & r & Hl & Hs'' & (Hr1 & Hr2 & Hr3) & Ho'); [done..|lia|lia|].
    exists s'', r. split; [done|]. split; [done|]. split.
    + split; [done|]. split; [done|]. intros x Hx. rewrite Hlost, <-(Hr3 x Hx). split; [|by right]. intros [<-|]; [|done].
      destruct (vol_not_permanent s' _ perm tags _ w Hs' Hw) as [Hpn _]. rewrite Hpn in Hx. by destruct Hx.
    + intros x Hx. rewrite Ho', Ho; [done|done|]. by rewrite lookup_delete_None; right.
  - destruct Hr as [-> [k Hk]]. destruct fuel; [lia|]. exists s', (HitPermanentStore (vb_parent v)). split; [done|].
    assert (prune_vol n (delete id vol) tags (vb_parent v) = delete id vol) as Hstop.
    { apply prune_vol_stop. left. destruct (delete id vol !! vb_parent v) as [w|] eqn:Hw; [|done].
      destruct (vol_not_permanent s' _ perm tags _ w Hs' Hw). congruence. }
    rewrite Hstop in *. split; [done|]. split; [|done]. split; [done|]. split; [intros q [= <-]; by eexists|]. intros x _.
    rewrite Hlost. split; [intros [<-|?%lost_child_none]; done|]. intros [= <-]. by left.
  - destruct Hr as [Hpn Hr]. destruct fuel; [lia|]. exists s', Done. rewrite prune_vol_stop in * by done. split; [done|].
    split; [done|]. split; [|done]. split; [done|]. split; [done|]. intros x [k Hx]. rewrite Hlost. split; [|done].
    intros [<-|?%lost_child_none]; [congruence|done].
Qed.
Lemma prune_loop_tip fuel s vol perm tags id :
  store_repr s vol perm tags → is_Some (tree_map (branches_tips_tree s) !! id) → (size vol + 1 < fuel)%nat →
  ∃ s' r, prune_loop fuel (NextTip id) s = Ok (s', r) ∧ store_repr s' (prune_vol (size vol) vol tags id) perm tags ∧
    prune_result vol (prune_vol (size vol) vol tags id) perm r ∧ other_tips vol s s'.
Proof.
  intros Hs [x Hx] Hf. destruct (sr_tips _ _ _ _ Hs) as [Htips Hknown]. destruct fuel as [|[|fuel]]; [lia..|].
  destruct (vol !! id) as [v|] eqn:Hv.
  - assert (children vol id = 0%nat) as Hc by (apply (Htips id v Hv); by eexists).
    destruct (decide (tag_refs tags id = 0%nat)) as [Ht|Ht]; [apply (prune_loop_ok _ _ _ _ _ _ _ v); done || lia|].
    exists s, Done. rewrite prune_vol_stop by tauto. split; [|split; [done|split; [apply prune_result_stop|done]]].
    cbn [prune_loop]. unfold remove_tip_impl.
    rewrite (in_permanent_ok s perm) by apply Hs. destruct (vol_not_permanent s vol perm tags id v Hs Hv) as [-> _].
    rewrite bool_decide_false by (by intros []). cbn [mbind outcome_bind]. rewrite sled_get, (sr_info _ _ _ _ Hs), Hv.
    cbn [fmap option_fmap option_map mbind outcome_bind ok_or]. rewrite (info_deserialize_vol s vol perm tags) by done.
    cbn [mbind outcome_bind]. rewrite (ref_count_zero s vol perm tags) by done. by rewrite bool_decide_false by (by intros []).
  - exists s, Done. rewrite prune_vol_stop by by left. split; [|split; [done|split; [apply prune_result_stop|done]]].
    cbn [prune_loop]. unfold remove_tip_impl.
    rewrite (in_permanent_ok s perm) by apply Hs. destruct (Hknown id x Hx) as [[? ?]|Hp]; [congruence|].
    by rewrite bool_decide_true.
Qed.
(** The blocks at the length after a permanent one. *)
Lemma mapM_all_ok {A B E} (f : A → outcome E B) (l : list A) :
  Forall (λ x, ∃ y, f x = Ok y) l → ∃ l', mapM f l = Ok l' ∧ length l' = length l.
Proof.
  induction 1 as [|x l [y Hy] _ (l' & IH & Hl)]; [by exists []|]. exists (y :: l'). cbn [mapM]. rewrite Hy. cbn. by rewrite IH, Hl.
Qed.
(** No block is higher than the last permanent one, which is at [i]. *)
Definition nothing_above vol perm (i : nat) : Prop :=
  S i = length perm ∧ map_Forall (λ _ v, vb_len v ≠ Z.of_nat (length perm)) vol.
Lemma blocks_after_ok s vol perm tags i :
  store_repr s vol perm tags → (i < length perm)%nat →
  ∃ l, get_blocks_by_chain_length s (Z.of_nat i + 1) = Ok l ∧ (l = [] ↔ nothing_above vol perm i).
Proof.
  intros Hs Hi. unfold get_blocks_by_chain_length. replace (Z.of_nat i + 1) with (Z.of_nat (S i)) by lia.
  rewrite (get_block_by_chain_length_ok _ perm) by apply Hs. destruct (perm.*2 !! S i) as [b|] eqn:Hb.
  { exists [b]. split; [done|]. apply lookup_lt_Some in Hb. rewrite length_fmap in Hb. split; [done|]. intros [? _]. lia. }
  apply lookup_ge_None in Hb. rewrite length_fmap in Hb. pose proof (pr_length _ _ (sr_permanent _ _ _ _ Hs)).
  assert (S i = length perm) as Hlen by lia.
  destruct (scan_entries s vol perm tags Hs (Z.of_nat (S i))) as (l & -> & _ & Hin); [split; lia|lia|].
  destruct (mapM_all_ok (λ scan_result : outcome SledError (list Z * list Z),
      '(key, _) ← sled scan_result; id ← block_id_from_chain_length_index key;
      maybe_block ← sled (tree_get (blocks_tree s) id); ok_or maybe_block (Inconsistent ChainLengthFailure)) (Ok <$> l)) as (l' & -> & Hl').
  { apply Forall_fmap, Forall_forall. intros [key x] Hkx. cbn.
    assert (key ∈ l.*1) as Hkey by (apply list_elem_of_fmap; by exists (key, x)).
    apply Hin in Hkey as (id & v & -> & Hv & _). rewrite index_key_id. cbn [mbind outcome_bind].
    rewrite sled_get, (sr_blocks _ _ _ _ Hs), lookup_fmap, Hv. by eexists. }
  exists l'. split; [done|]. rewrite length_fmap in Hl'. unfold nothing_above. rewrite <-Hlen. split.
  - intros ->. split; [done|]. intros id v Hv Hvl. assert (build_chain_length_index (Z.of_nat (S i)) id ∈ l.*1) as Hk by (apply Hin; by exists id, v).
    destruct l; [by apply elem_of_nil in Hk|done].
  - intros [_ Hnone]. destruct l as [|[key x] l]; [by destruct l'|]. exfalso.
    destruct (proj1 (Hin key)) as (id & v & _ & Hv & Hvl); [by left|]. by apply (Hnone id v).
Qed.
Lemma permanent_tip_ok s vol perm tags id t :
  store_repr s vol perm tags → is_Some (perm_pos perm id) →
  tree_map t = <[id := []]> (tree_map (branches_tips_tree s)) → store_repr (set_tips s t) vol perm tags.
Proof.
  intros Hs Hp Ht. destruct (sr_tips _ _ _ _ Hs) as [Htips Hk]. split; trees; try apply Hs. rewrite Ht. split.
  - intros k v Hv. rewrite lookup_insert_ne; [by apply (Htips k v)|]. intros <-.
    destruct (vol_not_permanent s vol perm tags id v Hs Hv) as [Hn _]. rewrite Hn in Hp. by destruct Hp.
  - apply map_Forall_insert_2; [by right|done].
Qed.

(** The permanent tips after a branch was pruned: as before, and the parent of
    the branch when nothing is left above it. *)
Definition permanent_tips_after vol vol' perm s s' : Prop :=
  ∀ x i, perm_pos perm x = Some i →
    is_Some (tree_map (branches_tips_tree s') !! x) ↔
    is_Some (tree_map (branches_tips_tree s) !! x) ∨ (lost_child vol vol' x ∧ nothing_above vol' perm i).
Lemma prune_branch_ok s vol perm tags fuel id :
  store_repr s vol perm tags → (size vol + 1 < fuel)%nat → is_Some (tree_map (branches_tips_tree s) !! id) →
  ∃ s', prune_branch fuel id s = (s', Ok ()) ∧ store_repr s' (prune_vol (size vol) vol tags id) perm tags ∧
    permanent_tips_after vol (prune_vol (size vol) vol tags id) perm s s'.
Proof.
  intros Hs Hf Htip. unfold prune_branch, mbind, store_bind, reads_store, sled. rewrite tree_contains_key_map.
  cbn [map_err]. rewrite bool_decide_true by done. cbn [negb].
  destruct (prune_loop_tip fuel s vol perm tags id Hs Htip Hf) as (s' & r & Hloop & Hs' & (Hr1 & Hr2 & Hr3) & Ho).
  unfold transaction. rewrite Hloop. set (vol' := prune_vol (size vol) vol tags id) in *.
  assert (∀ x i, perm_pos perm x = Some i → tree_map (branches_tips_tree s') !! x = tree_map (branches_tips_tree s) !! x) as Hperm.
  { intros x i Hx. apply Ho. destruct (vol !! x) as [w|] eqn:Hw; [|done]. destruct (vol_not_permanent s vol perm tags x w Hs Hw). congruence. }
  assert (∀ x i, perm_pos perm x = Some i → (lost_child vol vol' x ∧ nothing_above vol' perm i ↔ r = HitPermanentStore x ∧ nothing_above vol' perm i)) as Hlost.
  { intros x i Hx. by rewrite (Hr3 x) by by eexists. }
  destruct r as [q|q|]; [by destruct (Hr1 q)| |].
  2: { exists s'. split; [done|]. split; [done|]. intros x i Hx. rewrite (Hperm x i Hx), (Hlost x i Hx). naive_solver. }
  destruct (Hr2 q eq_refl) as [i Hi]. rewrite (get_block_info_ok s' _ perm tags Hs'), (perm_known s' _ perm tags Hs' i q Hi).
  cbn [map_err]. cbn [perm_info block_info_new bi_chain_length bi_id]. pose proof (perm_pos_lt _ _ _ Hi) as Hlt.
  pose proof (pr_length _ _ (sr_permanent _ _ _ _ Hs')). rewrite wrap_small by (split; lia).
  destruct (blocks_after_ok s' _ perm tags i Hs' Hlt) as (l & -> & Hnil). destruct l as [|b l].
  - destruct (insert_in_ok branches_tips_tree set_tips q [] s') as (t & Ht & Hm).
    unfold changes_store, transaction, insert_tip. rewrite Ht. eexists. split; [reflexivity|].
    split; [apply (permanent_tip_ok s' _ perm tags q); [done|by eexists|done]|]. intros x j Hx. trees. rewrite Hm, (Hlost x j Hx).
    destruct (decide (x = q)) as [->|Hne].
    + rewrite lookup_insert_eq. split; [|by eexists]. intros _. right. split; [done|]. assert (j = i) as -> by congruence. by apply Hnil.
    + rewrite lookup_insert_ne, (Hperm x j Hx) by done. naive_solver.
  - exists s'. split; [done|]. split; [done|]. intros x j Hx. rewrite (Hperm x j Hx), (Hlost x j Hx). split; [by left|].
    intros [?|[[= <-] Hn]]; [done|]. assert (j = i) as -> by congruence. by apply Hnil in Hn.
Qed.

End repr.
