(* ===== verification/StorageTheorems.v ===== *)
(** * What the operations of the block store do ([chain-storage/src])

    Writing, tagging and pruning, on every branch.  On a store without branches
    below its permanent chain: the ancestor queries are exact, a flush moves the
    volatile blocks under a block to the end of the permanent chain, the
    iterator walks the chain up to a block; what every read returns; and the
    store over finite maps and lists, where the theorems are applied. *)
From S2P Require Import Prelude Codec Storage StorageSpec.
Local Open Scope Z_scope.

Section repr.
Context `{Sl : Sled} `{!SledLaws} `{Dp : DataPile} `{!DataPileLaws}.
Set Default Proof Using "Type*".
Implicit Types (s : BlockStore) (vol : Volatile) (perm : Chain) (tags : Tags) (id : list Z).

(** *** Writing, asking and pruning *)
(** C29. Storing a block: a known block is refused as already present, a block
    whose parent is neither the root nor known as one without parent, both leaving the
    store as it was; a linked new block is added to its branch and its parent counts
    one reference more.  The tips are then those before with the block and without
    its parent, be the parent volatile or permanent, and the index of chain lengths
    is the one before with the block.  (The database itself does not fail.) *)
Theorem put_block_refines s vol perm tags block id pid len :
  store_repr s vol perm tags → id ≠ root_id s → length pid = id_length s → u32_ok len →
  Z.of_nat (size vol) + 1 + Z.of_nat (size tags) < 2 ^ 32 →
  (known vol perm id → put_block block (block_info_new id pid len) s = (s, Err BlockAlreadyPresent)) ∧
  (¬ known vol perm id → pid ≠ root_id s → ¬ known vol perm pid →
    put_block block (block_info_new id pid len) s = (s, Err MissingParent)) ∧
  (¬ known vol perm id → linked (root_id s) vol perm (mkVBlock block pid len) →
    ∃ s', put_block block (block_info_new id pid len) s = (s', Ok ()) ∧
      store_repr s' (<[id := mkVBlock block pid len]> vol) perm tags ∧
      tree_map (branches_tips_tree s') = <[id := []]> (delete pid (tree_map (branches_tips_tree s))) ∧
      tree_map (chain_length_index_tree s') = <[build_chain_length_index len id := []]> (tree_map (chain_length_index_tree s))).
Proof.
  intros Hs Hroot Hpid Hlen Hsize. split_and!; [| |intros Hid Hl; destruct (put_block_ok s vol perm tags block id pid len) as (s' & Hp & _ & _ & Hs' & Ht & Hx); [done..|]; by exists s'].
  all: unfold put_block, mbind, store_bind, reads_store; cbn [bi_id bi_parent_id block_info_new];
    rewrite (block_exists_ok s vol perm tags) by done; cbn iota.
  - intros Hid. by rewrite bool_decide_true.
  - intros Hid Hpr Hpk. rewrite bool_decide_false by done. rewrite (ps_contains_key_ok _ perm) by apply Hs.
    cbn iota. unfold changes_store, transaction, put_block_impl, sled. cbn [bi_parent_id block_info_new].
    unfold known in Hpk. destruct (perm_pos perm pid) eqn:Hpp; [exfalso; apply Hpk; right; by eexists|].
    rewrite bool_decide_false by (by intros []). rewrite bool_decide_false by done. cbn [orb].
    rewrite tree_get_map, (sr_info _ _ _ _ Hs). destruct (vol !! pid) eqn:Hpv; [exfalso; apply Hpk; left; by eexists|done].
Qed.

(** Tagging: an unknown block is refused, a known one takes the tag over from a
    volatile block; a tag whose block has been flushed since cannot be moved any
    more, the code looks for that block among the volatile ones. *)
Theorem put_tag_refines s vol perm tags name id :
  store_repr s vol perm tags → Z.of_nat (size vol) + Z.of_nat (size tags) + 1 < 2 ^ 32 →
  (¬ known vol perm id → put_tag name id s = (s, Err BlockNotFound)) ∧
  (known vol perm id → (∀ old, tags !! name = Some old → is_Some (vol !! old)) →
    ∃ s', put_tag name id s = (s', Ok ()) ∧ store_repr s' vol perm (<[name := id]> tags) ∧
      branches_tips_tree s' = branches_tips_tree s) ∧
  (known vol perm id → (∃ old, tags !! name = Some old ∧ is_Some (perm_pos perm old)) →
    put_tag name id s = (s, Err (Inconsistent TaggedBlock))).
Proof.
  intros Hs Hsize. split_and!; [|by apply put_tag_ok|]; unfold put_tag, changes_store, transaction.
  - intros Hk. unfold put_tag_impl. rewrite (sled_get (info_tree s)), (sr_info _ _ _ _ Hs).
    unfold known in Hk. destruct (vol !! id); [exfalso; apply Hk; left; by eexists|].
    cbn [fmap option_fmap option_map map_err mbind outcome_bind].
    rewrite sled_get, (pr_index _ _ (sr_permanent _ _ _ _ Hs)).
    by destruct (perm_pos perm id); [exfalso; apply Hk; right; eexists|].
  - intros Hk (old & Hold & [i Hp]). destruct (put_tag_impl_first s vol perm tags name id Hs Hsize Hk) as (t & Hi & ->).
    assert (vol !! old = None) as Hnv.
    { destruct (vol !! old) as [v|] eqn:Hv; [|done]. destruct (vol_not_permanent s vol perm tags old v Hs Hv). congruence. }
    destruct (sled_insert (tags_tree s) name id) as (tt & Htt & _). rewrite (sr_tags _ _ _ _ Hs), Hold in Htt.
    unfold tag_moved. trees. rewrite Htt. cbn [mbind outcome_bind]. trees.
    by rewrite sled_get, Hi, Hnv.
Qed.

(** C32. On a store without branches below the permanent chain the shortcuts of
    the ancestor queries are sound: [get_nth_ancestor] is the n-fold parent,
    [is_ancestor] gives the distance exactly when one block is an ancestor of the
    other, and [find_lowest_common_ancestor] the highest common ancestor. *)
Theorem ancestor_queries_exact s vol perm tags fuel a d i j :
  store_repr s vol perm tags → pruned vol perm →
  block_info_of s vol perm tags a = Some i → block_info_of s vol perm tags d = Some j →
  bi_chain_length i < Z.of_nat fuel → bi_chain_length j < Z.of_nat fuel →
  (∀ n, 0 ≤ n →
    if bool_decide (n ≤ bi_chain_length j)
    then ∃ b k, nth_parent s vol perm tags (Z.to_nat n) d = Some b ∧ block_info_of s vol perm tags b = Some k ∧
           get_nth_ancestor fuel s d n = Ok k
    else get_nth_ancestor fuel s d n = Err CannotIterate) ∧
  (is_ancestor fuel s a d =
     let n := bi_chain_length j - bi_chain_length i in
     Ok (if decide (0 ≤ n ∧ nth_parent s vol perm tags (Z.to_nat n) d = Some a) then Some n else None)) ∧
  (∃ r, find_lowest_common_ancestor fuel s a d = Ok r ∧ lowest_common s vol perm tags a d r).
Proof.
  intros Hs Hp Ha Hd Hfa Hfd. split_and!.
  - intros n Hn. pose proof (len_u32 s vol perm tags Hs d j Hd) as Hu. case_bool_decide as Hle.
    + destruct (get_nth_ancestor_ok s vol perm tags Hs Hp fuel d j (Z.to_nat n)) as (b & k & Hb & Hk & Hget); [done|lia|lia|done|].
      rewrite Z2Nat.id in Hget by done. by exists b, k.
    + unfold get_nth_ancestor. rewrite (get_block_info_ok s vol perm tags Hs), Hd. cbn [mbind outcome_bind].
      by rewrite (proj2 (Z.ltb_lt _ _)) by lia.
  - cbn zeta. rewrite (is_ancestor_ok s vol perm tags Hs Hp fuel a d i j Ha Hd Hfd). f_equal. apply decide_ext.
    unfold ancestor_at. by rewrite (Z.le_0_sub (bi_chain_length i)).
  - by apply (lca_ok s vol perm tags Hs Hp fuel a i d j).
Qed.


(** *** Flushing *)
(** The volatile blocks from one down, and what is left without them. *)
Fixpoint vol_chain (n : nat) vol id : list (list Z * VBlock) :=
  match n with
  | O => []
  | S n => match vol !! id with Some v => (id, v) :: vol_chain n vol (vb_parent v) | None => [] end
  end.
Definition flushed (chain : list (list Z * VBlock)) : Chain := reverse ((λ x, (x.1, vb_block x.2)) <$> chain).
Definition unflushed vol (chain : list (list Z * VBlock)) : Volatile := filter (λ kv, kv.1 ∉ chain.*1) vol.

Lemma vol_chain_lookup n vol id x : x ∈ vol_chain n vol id → vol !! x.1 = Some x.2.
Proof.
  revert id. induction n as [|n IH]; intros id; cbn [vol_chain]; [by intros ?%elem_of_nil|].
  destruct (vol !! id) as [v|] eqn:Hv; [|by intros ?%elem_of_nil]. intros [->|Hx]%elem_of_cons; [done|by eapply IH].
Qed.
Section flush.
Context (s : BlockStore) (vol : Volatile) (perm : Chain) (tags : Tags) (Hs : store_repr s vol perm tags).
Context (Hpruned : pruned vol perm).

Lemma vol_parent_len id v p : vol !! id = Some v → vol !! vb_parent v = Some p → vb_len v = vb_len p + 1.
Proof.
  intros Hv Hp. destruct (sr_vol _ _ _ _ Hs id v Hv) as (_ & _ & _ & _ & [[Hr _]|[(q & Hq & Hl)|(i & Hi & _)]]).
  - rewrite Hr in Hp. by destruct (vol_not_permanent s vol perm tags _ p Hs Hp).
  - by rewrite Hp in Hq; injection Hq as <-.
  - destruct (vol_not_permanent s vol perm tags _ p Hs Hp). congruence.
Qed.
Lemma vol_len id v : vol !! id = Some v → Z.of_nat (length perm) ≤ vb_len v.
Proof. apply Hpruned. Qed.
(** The lowest volatile block of a chain is the next permanent one. *)
Lemma vol_bottom id v : vol !! id = Some v → vol !! vb_parent v = None → vb_len v = Z.of_nat (length perm).
Proof.
  intros Hv Hn. pose proof (vol_len id v Hv).
  destruct (sr_vol _ _ _ _ Hs id v Hv) as (_ & _ & _ & _ & [[Hr ?]|[(q & Hq & Hl)|(i & Hi & ?)]]); [lia|congruence|].
  pose proof (perm_pos_lt _ _ _ Hi). lia.
Qed.
Lemma gather_infos_ok fuel id :
  (∀ v, vol !! id = Some v → vb_len v + 1 < Z.of_nat fuel) → (0 < fuel)%nat →
  gather_infos fuel s id = Ok ((λ x, info_of vol tags x.1 x.2) <$> vol_chain fuel vol id).
Proof.
  revert id. induction fuel as [|fuel IH]; intros id Hf Hpos; [lia|]. cbn [gather_infos vol_chain].
  rewrite (get_block_info_volatile_ok s vol perm tags) by done.
  destruct (vol !! id) as [v|] eqn:Hv; cbn [found_or_none mbind outcome_bind]; [|done].
  specialize (Hf v eq_refl). pose proof (vol_len id v Hv). cbn [bi_parent_id info_of]. rewrite IH; [done| |lia].
  intros p Hp. pose proof (vol_parent_len id v p Hv Hp). lia.
Qed.
Lemma vol_chain_len n id v i x :
  vol !! id = Some v → vol_chain n vol id !! i = Some x → vb_len x.2 = vb_len v - Z.of_nat i.
Proof.
  revert id v i. induction n as [|n IH]; intros id v i Hv; cbn [vol_chain]; [done|]. rewrite Hv.
  destruct i as [|i]; cbn; [intros [= <-]; cbn; lia|]. destruct (vol !! vb_parent v) as [p|] eqn:Hp.
  - intros Hx. rewrite (IH _ p i Hp Hx). pose proof (vol_parent_len id v p Hv Hp). lia.
  - destruct n; cbn [vol_chain]; [done|]. by rewrite Hp.
Qed.
Lemma vol_chain_nodup n id : NoDup (vol_chain n vol id).*1.
Proof.
  apply NoDup_alt. intros i j k Hi Hj. apply list_lookup_fmap_Some in Hi as (x & -> & Hi). apply list_lookup_fmap_Some in Hj as (y & Hxy & Hj).
  destruct (vol !! id) as [v|] eqn:Hv; [|destruct n; cbn [vol_chain] in Hi; [done|by rewrite Hv in Hi]].
  pose proof (vol_chain_len n id v i x Hv Hi). pose proof (vol_chain_len n id v j y Hv Hj).
  apply list_elem_of_lookup_2, vol_chain_lookup in Hi. apply list_elem_of_lookup_2, vol_chain_lookup in Hj.
  rewrite Hxy, Hj in Hi. injection Hi as Hi. rewrite Hi in *. lia.
Qed.
Lemma vol_chain_length n id v :
  vol !! id = Some v → vb_len v + 1 < Z.of_nat n →
  Z.of_nat (length (vol_chain n vol id)) = vb_len v + 1 - Z.of_nat (length perm).
Proof.
  revert id v. induction n as [|n IH]; intros id v Hv Hn; [pose proof (vol_len id v Hv); lia|]. cbn [vol_chain]. rewrite Hv. cbn [length].
  pose proof (vol_len id v Hv). destruct (vol !! vb_parent v) as [p|] eqn:Hp.
  - pose proof (vol_parent_len id v p Hv Hp). rewrite Nat2Z.inj_succ, (IH _ p) by (done || lia). lia.
  - rewrite (vol_bottom id v Hv Hp). destruct n; cbn [vol_chain]; [lia|]. rewrite Hp. cbn. lia.
Qed.
(** A block of the chain has its parent in it, or no volatile parent. *)
Lemma vol_chain_parent n id k w p :
  (∀ v, vol !! id = Some v → vb_len v + 1 < Z.of_nat n) →
  (k, w) ∈ vol_chain n vol id → vol !! vb_parent w = Some p → vb_parent w ∈ (vol_chain n vol id).*1.
Proof.
  revert id. induction n as [|n IH]; intros id Hn; cbn [vol_chain]; [by intros ?%elem_of_nil|].
  destruct (vol !! id) as [v|] eqn:Hv; [|by intros ?%elem_of_nil]. specialize (Hn v eq_refl). pose proof (vol_len id v Hv).
  assert (∀ u, vol !! vb_parent v = Some u → vb_len u + 1 < Z.of_nat n) as Hn'.
  { intros u Hu. pose proof (vol_parent_len id v u Hv Hu). lia. }
  intros [[= -> ->]|Hx]%elem_of_cons Hp; cbn [fmap list_fmap fst]; apply elem_of_cons; right.
  - specialize (Hn' p Hp). destruct n as [|n]; [pose proof (vol_len _ _ Hp); lia|]. cbn [vol_chain]. rewrite Hp. by left.
  - by apply (IH (vb_parent v)).
Qed.
End flush.

Definition with_index (p : PermanentStore) t : PermanentStore :=
  mkPermanent (ps_blocks p) (ps_chain_length_index p) t (ps_root_id p).
Lemma ps_index_ids_ok ids i start s :
  NoDup ids →
  ∃ t, ps_index_ids i start ids s = (set_permanent s (with_index (permanent s) t), Ok ()) ∧
    (∀ x, x ∉ ids → tree_map t !! x = tree_map (ps_block_id_index (permanent s)) !! x) ∧
    (∀ j x, ids !! j = Some x → tree_map t !! x = Some (le_bytes 4 (wrap 32 (start + Z.of_nat (i + j))))).
Proof.
  intros Hnd. revert i s. induction Hnd as [|id ids Hid Hnd IH]; intros i s; cbn [ps_index_ids].
  { exists (ps_block_id_index (permanent s)). split; [by destruct s as [[] ? ? ? ? ? ? ?]|]. split; [done|]. by intros []. }
  destruct (sled_insert (ps_block_id_index (permanent s)) id (le_bytes 4 (wrap 32 (start + Z.of_nat i)))) as (t & Ht & Hm).
  unfold mbind, store_bind, changes_store, transaction, ps_index_id. rewrite Ht. cbn [mbind outcome_bind].
  destruct (IH (S i) (set_permanent s (with_index (permanent s) t))) as (t' & Ht' & Hout & Hin). unfold with_index in Ht' at 1.
  rewrite Ht'. exists t'. split; [done|]. split.
  - intros x [Hne Hx]%not_elem_of_cons. rewrite Hout by done. trees. cbn [with_index ps_block_id_index]. by rewrite Hm, lookup_insert_ne.
  - intros [|j] x Hx; cbn in Hx.
    + injection Hx as <-. rewrite Hout by done. trees. cbn [with_index ps_block_id_index].
      by rewrite Hm, lookup_insert_eq, Nat.add_0_r.
    + by rewrite (Hin j x Hx), Nat.add_succ_comm.
Qed.
Lemma perm_pos_None perm id : perm_pos perm id = None ↔ id ∉ perm.*1.
Proof.
  unfold perm_pos. rewrite fmap_None, list_find_None, Forall_forall, list_elem_of_fmap. split.
  - intros Hall ([x b] & -> & Hx). by apply (Hall _ Hx).
  - intros Hid [x b] Hx Heq. cbn in Heq. subst x. apply Hid. by exists (id, b).
Qed.
Lemma perm_pos_app_l perm l id i : perm_pos perm id = Some i → perm_pos (perm ++ l) id = Some i.
Proof.
  unfold perm_pos. rewrite !fmap_Some. intros ([j x] & Hf & ->). exists (j, x). split; [|done].
  by apply list_find_app_l.
Qed.
Lemma put_blocks_ok s perm l :
  permanent_repr (permanent s) perm → NoDup (perm ++ l).*1 → Z.of_nat (length (perm ++ l)) < 2 ^ 32 →
  ∃ p, put_blocks (Z.of_nat (length perm)) l.*1 l.*2 s = (set_permanent s p, Ok ()) ∧
    ps_root_id p = ps_root_id (permanent s) ∧ permanent_repr p (perm ++ l).
Proof.
  intros Hp Hnd Hlen. unfold put_blocks, mbind, store_bind, reads_store.
  assert (assert_that (length l.*1 =? length l.*2)%nat = Ok () :> outcome (StoreError SledError PileError) _) as ->.
  { by rewrite !length_fmap, Nat.eqb_refl. }
  unfold changes_store, transaction, ps_append_blocks, ps_append_ids.
  destruct (pile_append_list (ps_blocks (permanent s)) l.*2) as (b & Hb & Hbl). rewrite Hb. cbn [map_err mbind outcome_bind]. trees.
  destruct (pile_append_list (ps_chain_length_index (permanent s)) l.*1) as (c & Hc & Hcl). cbn [ps_chain_length_index].
  rewrite Hc. cbn [map_err mbind outcome_bind].
  rewrite fmap_app in Hnd. apply NoDup_app in Hnd as (Hnd1 & Hnew & Hnd2). pose proof Hlen as Hlen'. rewrite length_app in Hlen'.
  edestruct (ps_index_ids_ok l.*1 0 (Z.of_nat (length perm))) as (t & Ht & Hout & Hin); [done|]. trees.
  rewrite Ht. eexists. split; [reflexivity|]. split; [done|]. cbn [with_index ps_blocks ps_chain_length_index ps_block_id_index ps_root_id] in *.
  assert (NoDup (perm ++ l).*1) as Hnd by (rewrite fmap_app; by apply NoDup_app). split; try done; cbn.
  - by rewrite Hbl, (pr_blocks _ _ Hp), fmap_app.
  - by rewrite Hcl, (pr_ids _ _ Hp), fmap_app.
  - intros id. destruct (decide (id ∈ l.*1)) as [Hi|Hi].
    + apply list_elem_of_lookup_1 in Hi as [j Hj]. rewrite (Hin j id Hj). cbn [Nat.add].
      assert (perm_pos (perm ++ l) id = Some (length perm + j)%nat) as ->.
      { apply perm_pos_Some; [done|]. rewrite fmap_app, lookup_app_r by (rewrite length_fmap; lia).
        by rewrite length_fmap, Nat.add_comm, Nat.add_sub. }
      cbn. rewrite wrap_small; [by rewrite Nat2Z.inj_add|]. apply lookup_lt_Some in Hj. rewrite length_fmap in Hj. split; lia.
    + rewrite Hout, (pr_index _ _ Hp) by done. f_equal. destruct (perm_pos perm id) as [i|] eqn:Hpos.
      * symmetry. by apply perm_pos_app_l.
      * symmetry. apply perm_pos_None. apply perm_pos_None in Hpos. rewrite fmap_app. by rewrite elem_of_app; intros [?|?].
Qed.
Lemma flush_remove_ok infos i start s :
  ∃ ti tb tx, flush_remove i start infos s = (set_length_index (set_blocks (set_info s ti) tb) tx, Ok ()) ∧
    (∀ x, tree_map ti !! x = if decide (x ∈ bi_id <$> infos) then None else tree_map (info_tree s) !! x) ∧
    (∀ x, tree_map tb !! x = if decide (x ∈ bi_id <$> infos) then None else tree_map (blocks_tree s) !! x) ∧
    tree_map tx ⊆ tree_map (chain_length_index_tree s) ∧
    (∀ key, is_Some (tree_map (chain_length_index_tree s) !! key) → is_Some (tree_map tx !! key) ∨
       ∃ n x, key = build_chain_length_index (wrap 32 n) x ∧ x ∈ bi_id <$> infos).
Proof.
  revert i s. induction infos as [|info infos IH]; intros i s; cbn [flush_remove].
  { exists (info_tree s), (blocks_tree s), (chain_length_index_tree s). split; [by destruct s|]. cbn. split_and!; try done.
    all: intros; try (rewrite decide_False by (by intros ?%elem_of_nil)); auto. }
  unfold mbind, store_bind, changes_store, transaction, remove_info, remove_block, remove_index.
  destruct (remove_in_ok info_tree set_info (bi_id info) s) as (ti & -> & Hti). cbn [mbind outcome_bind].
  destruct (remove_in_ok blocks_tree set_blocks (bi_id info) (set_info s ti)) as (tb & -> & Htb). cbn [mbind outcome_bind].
  edestruct (remove_in_ok chain_length_index_tree set_length_index) as (tx & Hx & Htx). rewrite Hx. cbn [mbind outcome_bind].
  destruct (IH (S i) (set_length_index (set_blocks (set_info s ti) tb) tx)) as (ti' & tb' & tx' & Hr & Hi & Hb & Hsub & Hk).
  unfold mbind, store_bind, changes_store, transaction in Hr. rewrite Hr.
  exists ti', tb', tx'. split; [done|]. clear Hr Hx. trees. cbn [fmap list_fmap]. split_and!.
  - intros x. rewrite Hi, Hti. destruct (decide (x = bi_id info)) as [->|Hne].
    + rewrite lookup_delete_eq, (decide_True (P := bi_id info ∈ bi_id info :: _)) by (by left). by case_decide.
    + rewrite lookup_delete_ne by done. apply decide_ext. rewrite elem_of_cons. tauto.
  - intros x. rewrite Hb, Htb. destruct (decide (x = bi_id info)) as [->|Hne].
    + rewrite lookup_delete_eq, (decide_True (P := bi_id info ∈ bi_id info :: _)) by (by left). by case_decide.
    + rewrite lookup_delete_ne by done. apply decide_ext. rewrite elem_of_cons. tauto.
  - rewrite Htx in Hsub. etrans; [exact Hsub|]. apply delete_subseteq.
  - intros key Hkey. destruct (decide (key = build_chain_length_index (wrap 32 (start + Z.of_nat i)) (bi_id info))) as [->|Hne].
    + right. eexists _, _. split; [done|by left].
    + destruct (Hk key) as [?|(n & x & ? & ?)]; [by rewrite Htx, lookup_delete_ne|by left|].
      right. exists n, x. split; [done|by right].
Qed.

Lemma flushed_ids chain : (flushed chain).*1 = reverse chain.*1.
Proof. unfold flushed. by rewrite fmap_reverse, <-list_fmap_compose. Qed.
Lemma unflushed_lookup vol chain x : unflushed vol chain !! x = if decide (x ∈ chain.*1) then None else vol !! x.
Proof.
  unfold unflushed. rewrite map_lookup_filter. destruct (vol !! x) as [v|]; cbn; [|by case_decide].
  destruct (decide (x ∈ chain.*1)).
  - by rewrite option_guard_False by auto.
  - by rewrite option_guard_True.
Qed.
Section flushed.
Context (s : BlockStore) (vol : Volatile) (perm : Chain) (tags : Tags) (Hs : store_repr s vol perm tags).
Context (Hpruned : pruned vol perm) (n : nat) (to : list Z) (v : VBlock) (Hto : vol !! to = Some v).
Context (Hn : vb_len v + 1 < Z.of_nat n).
Local Abbreviation chain := (vol_chain n vol to).
Local Abbreviation perm' := (perm ++ flushed (vol_chain n vol to)).

Lemma chain_member x : x ∈ chain.*1 → ∃ w, (x, w) ∈ chain ∧ vol !! x = Some w.
Proof.
  intros ([y w] & -> & Hx)%list_elem_of_fmap. exists w. split; [done|]. by apply (vol_chain_lookup n vol to (y, w)).
Qed.
Lemma flushed_nodup : NoDup perm'.*1.
Proof.
  rewrite fmap_app, flushed_ids. apply NoDup_app. split_and!; [apply Hs| |].
  - intros x Hx Hin. rewrite elem_of_reverse in Hin. destruct (chain_member x Hin) as (w & _ & Hw).
    destruct (vol_not_permanent s vol perm tags x w Hs Hw) as [Hp _]. by apply perm_pos_None in Hp.
  - rewrite reverse_Permutation. by apply (vol_chain_nodup s vol perm tags).
Qed.
Lemma flushed_length : Z.of_nat (length perm') = vb_len v + 1.
Proof.
  unfold flushed. rewrite length_app, length_reverse, length_fmap, Nat2Z.inj_add.
  rewrite (vol_chain_length s vol perm tags Hs Hpruned n to v) by done. lia.
Qed.
Lemma flushed_pos x w : (x, w) ∈ chain → perm_pos perm' x = Some (Z.to_nat (vb_len w)).
Proof.
  intros [i Hi]%list_elem_of_lookup_1. apply perm_pos_Some; [apply flushed_nodup|].
  pose proof (vol_chain_len s vol perm tags Hs Hpruned n to v i _ Hto Hi) as Hl. cbn in Hl.
  pose proof (vol_chain_length s vol perm tags Hs Hpruned n to v Hto Hn) as Hk. pose proof (lookup_lt_Some _ _ _ Hi) as Hlt.
  rewrite fmap_app, flushed_ids, lookup_app_r by (rewrite length_fmap; lia).
  rewrite reverse_lookup by (rewrite !length_fmap; lia). rewrite list_lookup_fmap_Some. exists (x, w). split; [done|].
  rewrite <-Hi. f_equal. rewrite !length_fmap. lia.
Qed.
Lemma flushed_known x : known vol perm x → known (unflushed vol chain) perm' x.
Proof.
  unfold known. rewrite unflushed_lookup. intros [Hx|[i Hi]].
  - case_decide as Hc; [|by left]. right. destruct (chain_member x Hc) as (w & Hw & _). rewrite (flushed_pos x w Hw). by eexists.
  - right. exists i. by apply perm_pos_app_l.
Qed.
Lemma unflushed_new x w : unflushed vol chain !! x = Some w → vol !! x = Some w ∧ perm_pos perm' x = None ∧ x ∉ chain.*1.
Proof.
  rewrite unflushed_lookup. case_decide as Hc; [done|]. intros Hx. split; [done|]. split; [|done]. apply perm_pos_None.
  rewrite fmap_app, flushed_ids, elem_of_app, elem_of_reverse. intros [Hp|?]; [|done].
  destruct (vol_not_permanent s vol perm tags x w Hs Hx) as [Hn' _]. by apply perm_pos_None in Hn'.
Qed.
Lemma unflushed_children x w : unflushed vol chain !! x = Some w → children (unflushed vol chain) x = children vol x.
Proof.
  intros (Hx & _ & Hc)%unflushed_new. unfold children, unflushed. f_equal. rewrite map_filter_filter. apply map_filter_ext.
  intros k u Hk. cbn. split; [by intros [? _]|]. intros Hp. split; [done|]. intros (u' & Hu & Hu')%chain_member.
  assert (u' = u) as -> by congruence. apply Hc. rewrite <-Hp in Hx. rewrite <-Hp.
  apply (vol_chain_parent s vol perm tags Hs Hpruned n to k u w); [|done|done]. intros v' Hv'. congruence.
Qed.
Lemma unflushed_vol_ok : vol_ok (root_id s) (id_length s) (unflushed vol chain) perm'.
Proof.
  intros x w Hx. pose proof (unflushed_new x w Hx) as (Hw & Hp & _).
  destruct (sr_vol _ _ _ _ Hs x w Hw) as (? & ? & _ & ? & Hl). split_and!; try done.
  destruct Hl as [[? ?]|[(p & Hpar & Hl)|(i & Hi & Hl)]]; [by left| |right; right; exists i; split; [by apply perm_pos_app_l|done]].
  destruct (decide (vb_parent w ∈ chain.*1)) as [Hc|Hc].
  - right. right. destruct (chain_member _ Hc) as (u & Hu & Hu'). assert (u = p) as -> by congruence.
    exists (Z.to_nat (vb_len p)). split; [by apply flushed_pos|]. destruct (sr_vol _ _ _ _ Hs _ p Hpar) as (_ & _ & _ & [? _] & _). lia.
  - right. left. exists p. split; [|done]. by rewrite unflushed_lookup, decide_False.
Qed.
Lemma unflushed_index (idx idx' : TreeMap) :
  index_repr idx vol perm → idx' ⊆ idx →
  (∀ key, is_Some (idx !! key) →
    is_Some (idx' !! key) ∨ ∃ l x, key = build_chain_length_index (wrap 32 l) x ∧ x ∈ chain.*1) →
  index_repr idx' (unflushed vol chain) perm'.
Proof.
  intros [Hi Hk] Hsub Hkeep. split.
  - intros x w Hx. pose proof (unflushed_new x w Hx) as (Hw & _ & Hc). destruct (Hkeep _ (Hi x w Hw)) as [?|(l & y & Heq & Hy)]; [done|].
    destruct (sr_vol _ _ _ _ Hs x w Hw) as (_ & _ & _ & Hu & _). exfalso. apply Hc.
    apply index_key_inj in Heq as [_ ->]; [done|done|]. by apply wrap_in_u.
  - intros key y Hy. destruct (Hk key y) as (len & x & -> & Hu & Hor); [by eapply lookup_weaken|].
    exists len, x. split; [done|]. split; [done|]. rewrite length_app. destruct Hor as [?|(w & Hw & Hl)]; [left; lia|].
    destruct (decide (x ∈ chain.*1)) as [Hc|Hc].
    + left. destruct (chain_member x Hc) as (u & Hx & Hu'). assert (u = w) as -> by congruence.
      pose proof (perm_pos_lt _ _ _ (flushed_pos x w Hx)) as Hlt. rewrite length_app in Hlt. destruct Hu. lia.
    + right. exists w. split; [|done]. by rewrite unflushed_lookup, decide_False.
Qed.
Lemma flushed_repr p ti tb tx :
  permanent_repr p perm' → ps_root_id p = ps_root_id (permanent s) →
  (∀ x, tree_map ti !! x = if decide (x ∈ chain.*1) then None else tree_map (info_tree s) !! x) →
  (∀ x, tree_map tb !! x = if decide (x ∈ chain.*1) then None else tree_map (blocks_tree s) !! x) →
  tree_map tx ⊆ tree_map (chain_length_index_tree s) →
  (∀ key, is_Some (tree_map (chain_length_index_tree s) !! key) → is_Some (tree_map tx !! key) ∨
     ∃ l x, key = build_chain_length_index (wrap 32 l) x ∧ x ∈ chain.*1) →
  store_repr (set_length_index (set_blocks (set_info (set_permanent s p) ti) tb) tx) (unflushed vol chain) perm' tags.
Proof.
  intros Hp Hroot Hti Htb Hsub Hkeep. destruct (sr_tips _ _ _ _ Hs) as [Htips Hknown]. split; trees; try apply Hs.
  - apply map_eq. intros x. rewrite Htb, (sr_blocks _ _ _ _ Hs), !lookup_fmap, unflushed_lookup. by case_decide.
  - intros x. rewrite Hti, (sr_info _ _ _ _ Hs). destruct (unflushed vol chain !! x) as [w|] eqn:Hw.
    + pose proof (unflushed_new x w Hw) as (Hx & _ & Hc). rewrite decide_False, Hx by done. cbn [fmap option_fmap option_map].
      unfold info_of. by rewrite (unflushed_children x w).
    + rewrite unflushed_lookup in Hw. case_decide; [done|]. by rewrite Hw.
  - by eapply unflushed_index; [apply Hs|..].
  - split.
    + intros x w Hx. rewrite (unflushed_children x w Hx). pose proof (unflushed_new x w Hx) as (Hw & _). by apply (Htips x w).
    + intros x y Hx. apply flushed_known. by apply (Hknown x y).
  - intros t x Hx. apply flushed_known. by apply (sr_tagged _ _ _ _ Hs t).
  - done.
  - by rewrite Hroot, (sr_root _ _ _ _ Hs).
  - apply perm_pos_None. rewrite fmap_app, flushed_ids, elem_of_app, elem_of_reverse. intros [Hr|Hr].
    + by apply perm_pos_None in Hr; [|apply Hs].
    + destruct (chain_member _ Hr) as (w & _ & Hw). by destruct (vol_not_permanent s vol perm tags _ w Hs Hw).
  - apply unflushed_vol_ok.
  - pose proof (sr_size _ _ _ _ Hs). assert (size (unflushed vol chain) ≤ size vol)%nat by apply map_size_filter. lia.
Qed.
End flushed.

Lemma mapM_ok_fmap {A B E} (f : A → outcome E B) (g : A → B) (l : list A) :
  Forall (λ x, f x = Ok (g x)) l → mapM f l = Ok (g <$> l).
Proof. induction 1 as [|x l Hx _ IH]; [done|]. cbn [mapM]. rewrite Hx. cbn [mbind outcome_bind]. by rewrite IH. Qed.
Lemma last_lookup_default {A} (l : list A) d x : l !! pred (length l) = Some x → List.last l d = x.
Proof.
  induction l as [|y l IH]; [done|]. destruct l as [|z l]; [by intros [= ->]|]. intros Hx. apply IH. exact Hx.
Qed.
Lemma get_block_volatile s vol perm tags id v :
  store_repr s vol perm tags → vol !! id = Some v → get_block s id = Ok (vb_block v).
Proof.
  intros Hs Hv. unfold get_block, ps_get_block. rewrite (get_chain_length_ok _ perm) by apply Hs.
  destruct (vol_not_permanent s vol perm tags id v Hs Hv) as [-> _]. cbn [fmap option_fmap option_map mbind outcome_bind option_bind].
  by rewrite sled_get, (sr_blocks _ _ _ _ Hs), lookup_fmap, Hv.
Qed.
Section flush_ok.
Context (s : BlockStore) (vol : Volatile) (perm : Chain) (tags : Tags) (Hs : store_repr s vol perm tags).
Context (Hpruned : pruned vol perm) (fuel : nat) (to : list Z) (v : VBlock) (Hto : vol !! to = Some v).
Context (Hfuel : vb_len v + 1 < Z.of_nat fuel).
Local Abbreviation chain := (vol_chain (S fuel) vol to).
Local Abbreviation parents := ((λ x, info_of vol tags x.1 x.2) <$> vol_chain fuel vol (vb_parent v)).

Lemma chain_infos : info_of vol tags to v :: parents = (λ x, info_of vol tags x.1 x.2) <$> chain.
Proof. cbn [vol_chain]. by rewrite Hto. Qed.
Lemma chain_length : Z.of_nat (length chain) = vb_len v + 1 - Z.of_nat (length perm).
Proof. apply (vol_chain_length s vol perm tags Hs Hpruned); [done|lia]. Qed.
Lemma flush_start : bi_chain_length (List.last (info_of vol tags to v :: parents) (info_of vol tags to v)) = Z.of_nat (length perm).
Proof.
  pose proof chain_length as Hl. pose proof (vol_len s vol perm tags Hs Hpruned to v Hto). rewrite chain_infos.
  destruct (lookup_lt_is_Some_2 chain (pred (length chain))) as [[x w] Hx]; [lia|].
  rewrite (last_lookup_default _ _ (info_of vol tags x w)) by (by rewrite length_fmap, list_lookup_fmap, Hx).
  pose proof (vol_chain_len s vol perm tags Hs Hpruned _ to v _ _ Hto Hx) as Hlen. cbn in *. lia.
Qed.
Lemma flush_infos_ok :
  vb_len v + 1 < 2 ^ 32 →
  ∃ s', flush_infos (info_of vol tags to v) parents s = (s', Ok (length chain)) ∧
    store_repr s' (unflushed vol chain) (perm ++ flushed chain) tags ∧ branches_tips_tree s' = branches_tips_tree s.
Proof.
  intros Hbound. unfold flush_infos. rewrite flush_start, chain_infos. unfold mbind at 1, store_bind at 1, reads_store at 1.
  rewrite (mapM_ok_fmap _ (λ i, default [] (tree_map (blocks_tree s) !! bi_id i))).
  2:{ rewrite Forall_forall. intros i Hi. rewrite elem_of_reverse in Hi. apply list_elem_of_fmap in Hi as ([x w] & -> & Hx). cbn.
      apply vol_chain_lookup in Hx. cbn in Hx. rewrite (get_block_volatile s vol perm tags x w Hs Hx).
      by rewrite (sr_blocks _ _ _ _ Hs), lookup_fmap, Hx. }
  assert ((λ i, default [] (tree_map (blocks_tree s) !! bi_id i)) <$> reverse ((λ x, info_of vol tags x.1 x.2) <$> chain) =
    (flushed chain).*2) as ->.
  { unfold flushed. rewrite !fmap_reverse, <-!list_fmap_compose. f_equal. apply list_fmap_ext. intros i [x w] Hx. cbn.
    apply list_elem_of_lookup_2, vol_chain_lookup in Hx. cbn in Hx. by rewrite (sr_blocks _ _ _ _ Hs), lookup_fmap, Hx. }
  assert (bi_id <$> reverse ((λ x, info_of vol tags x.1 x.2) <$> chain) = (flushed chain).*1) as ->.
  { unfold flushed. by rewrite !fmap_reverse, <-!list_fmap_compose. }
  assert (Hn : vb_len v + 1 < Z.of_nat (S fuel)) by lia.
  pose proof (flushed_length s vol perm tags Hs Hpruned _ to v Hto Hn) as Hlen.
  destruct (put_blocks_ok s perm (flushed chain)) as (p & Hp & Hroot & Hrepr).
  { apply Hs. } { by apply (flushed_nodup s vol perm tags Hs Hpruned _ to v). } { lia. }
  unfold mbind, store_bind. rewrite Hp.
  destruct (flush_remove_ok ((λ x, info_of vol tags x.1 x.2) <$> chain) 0 (Z.of_nat (length perm)) (set_permanent s p))
    as (ti & tb & tx & Hr & Hti & Htb & Hsub & Hkeep).
  rewrite Hr, length_fmap. eexists. split; [reflexivity|]. split; [|done]. rewrite <-list_fmap_compose in Hti, Htb.
  apply (flushed_repr s vol perm tags Hs Hpruned _ to v Hto Hn p ti tb tx); try done.
  intros key Hkey. destruct (Hkeep key Hkey) as [?|(l & x & ? & Hx)]; [by left|right]. exists l, x. split; [done|].
  by rewrite <-list_fmap_compose in Hx.
Qed.
(** The check for a block [min_number] below. *)
Lemma flush_scan t :
  Z.of_nat (length perm) ≤ t → t ≤ vb_len v →
  tree_scan_prefix (chain_length_index_tree s) (build_chain_length_index_prefix t) ≠ [].
Proof.
  intros Hl Hle Hscan. destruct (sr_vol _ _ _ _ Hs to v Hto) as (_ & _ & _ & [_ Hu] & _).
  destruct (scan_entries s vol perm tags Hs t) as (l & Hl' & _ & Hin); [split; lia|done|]. rewrite Hscan in Hl'.
  destruct l; [|done]. pose proof chain_length as Hlen.
  destruct (lookup_lt_is_Some_2 chain (Z.to_nat (vb_len v - t))) as [[x w] Hx]; [lia|].
  pose proof (vol_chain_len s vol perm tags Hs Hpruned _ to v _ _ Hto Hx) as Hw. cbn in Hw.
  apply list_elem_of_lookup_2, vol_chain_lookup in Hx. cbn in Hx.
  assert (build_chain_length_index t x ∈ ([] : list (list Z * list Z)).*1) as ?%elem_of_nil; [|done].
  apply Hin. exists x, w. split; [done|]. split; [done|]. lia.
Qed.
Lemma flush_volatile min_number :
  (0 < min_number)%nat → Z.of_nat min_number < 2 ^ 32 →
  flush_to_permanent_store fuel to min_number s =
  if vb_len v <? Z.of_nat min_number then (s, Ok 0%nat)
  else if bool_decide (tree_scan_prefix (chain_length_index_tree s)
         (build_chain_length_index_prefix (vb_len v - Z.of_nat min_number)) = [])
  then (s, Ok 0%nat)
  else if (length chain <? min_number)%nat then (s, Ok 0%nat) else flush_infos (info_of vol tags to v) parents s.
Proof.
  intros Hpos Hmin. unfold flush_to_permanent_store, mbind, store_bind, reads_store. rewrite (proj2 (Nat.ltb_lt _ _)) by done.
  cbn [assert_that]. rewrite (get_block_info_volatile_ok s vol perm tags), Hto by done. cbn [found_or_none mbind outcome_bind].
  rewrite (proj2 (Z.ltb_lt _ _)) by done. cbn [bi_chain_length bi_parent_id info_of].
  destruct (Z.ltb_spec (vb_len v) (Z.of_nat min_number)); [done|].
  destruct (tree_scan_prefix_map (chain_length_index_tree s) (build_chain_length_index_prefix (vb_len v - Z.of_nat min_number)))
    as (l & -> & _).
  destruct l as [|x l]; cbn [fmap list_fmap sled map_err]; [by rewrite bool_decide_true|]. rewrite bool_decide_false by done.
  rewrite (gather_infos_ok s vol perm tags Hs Hpruned).
  - change (mkInfo _ _ _ _ _) with (info_of vol tags to v). rewrite chain_infos, length_fmap. by case_match.
  - intros p Hp. pose proof (vol_parent_len s vol perm tags Hs Hpruned to v p Hto Hp). lia.
  - pose proof (vol_len s vol perm tags Hs Hpruned to v Hto). lia.
Qed.
Lemma flush_enough min_number :
  (0 < min_number)%nat → (min_number < length chain)%nat → vb_len v + 1 < 2 ^ 32 →
  ∃ s', flush_to_permanent_store fuel to min_number s = (s', Ok (length chain)) ∧
    store_repr s' (unflushed vol chain) (perm ++ flushed chain) tags ∧ branches_tips_tree s' = branches_tips_tree s.
Proof.
  intros Hpos Hlt Hbound. pose proof chain_length as Hlen. rewrite flush_volatile by (done || lia).
  rewrite (proj2 (Z.ltb_ge _ _)), (proj2 (Nat.ltb_ge _ _)) by lia.
  rewrite bool_decide_false by (apply flush_scan; lia). by apply flush_infos_ok.
Qed.
End flush_ok.


(** *** The iterator *)
Section iterator.
Context (s : BlockStore) (vol : Volatile) (perm : Chain) (tags : Tags) (Hs : store_repr s vol perm tags).
Context (Hpruned : pruned vol perm).


End iterator.

Section iterator_ok.
Context (s : BlockStore) (vol : Volatile) (perm : Chain) (tags : Tags) (Hs : store_repr s vol perm tags).
Context (Hpruned : pruned vol perm) (fuel : nat) (to : list Z) (i : BlockInfo) (Hlen : length to = id_length s).
Context (Hto : block_info_of s vol perm tags to = Some i) (Hf : bi_chain_length i + 2 < Z.of_nat fuel).
Context (Hbound : bi_chain_length i + 1 < 2 ^ 32).

End iterator_ok.


(** *** Reading blocks *)
Definition block_of vol perm id : option (list Z) :=
  match vol !! id with Some v => Some (vb_block v) | None => perm_pos perm id ≫= λ i, perm.*2 !! i end.
(** The blocks at a length: the permanent one alone, else those of all branches. *)
Definition blocks_at vol perm (len : Z) : list (list Z) :=
  match perm.*2 !! Z.to_nat len with
  | Some b => [b]
  | None => (λ kv, vb_block kv.2) <$> map_to_list (filter (λ kv, vb_len kv.2 = len) vol)
  end.
Lemma get_block_ok s vol perm tags id :
  store_repr s vol perm tags →
  get_block s id = match block_of vol perm id with Some b => Ok b | None => Err BlockNotFound end.
Proof.
  intros Hs. unfold block_of. destruct (vol !! id) as [v|] eqn:Hv; [by apply (get_block_volatile s vol perm tags)|].
  unfold get_block, ps_get_block. rewrite (get_chain_length_ok _ perm) by apply Hs.
  destruct (perm_pos perm id) as [i|] eqn:Hi; cbn [fmap option_fmap option_map mbind outcome_bind option_bind].
  - rewrite (get_block_by_chain_length_ok _ perm) by apply Hs. pose proof (perm_pos_lt _ _ _ Hi).
    by destruct (lookup_lt_is_Some_2 perm.*2 i) as [b ->]; [rewrite length_fmap|].
  - by rewrite sled_get, (sr_blocks _ _ _ _ Hs), lookup_fmap, Hv.
Qed.
Lemma blocks_at_keys len vol (l : list (list Z * list Z)) :
  u32_ok len → map_Forall (λ _ v, u32_ok (vb_len v)) vol → NoDup l.*1 →
  (∀ key, key ∈ l.*1 ↔ ∃ id v, key = build_chain_length_index len id ∧ vol !! id = Some v ∧ vb_len v = len) →
  l.*1 ≡ₚ (λ kv, build_chain_length_index len kv.1) <$> map_to_list (filter (λ kv, vb_len kv.2 = len) vol).
Proof.
  intros Hu Hall Hnd Hin. apply NoDup_Permutation; [done| |].
  - set (m := map_to_list _). assert ((λ kv, build_chain_length_index len kv.1) <$> m = build_chain_length_index len <$> m.*1) as ->.
    { by rewrite <-list_fmap_compose. }
    apply NoDup_fmap_2_strong.
    + intros x y _ _ Heq. by apply index_key_inj in Heq as [_ ?].
    + apply NoDup_fst_map_to_list.
  - intros key. rewrite Hin, list_elem_of_fmap. split.
    + intros (id & v & -> & Hv & Hl). exists (id, v). split; [done|]. by apply elem_of_map_to_list, map_lookup_filter_Some.
    + intros ([id v] & -> & [Hv Hl]%elem_of_map_to_list%map_lookup_filter_Some). by exists id, v.
Qed.
Lemma get_blocks_by_chain_length_ok s vol perm tags len :
  store_repr s vol perm tags → u32_ok len →
  ∃ l, get_blocks_by_chain_length s len = Ok l ∧ l ≡ₚ blocks_at vol perm len.
Proof.
  intros Hs Hu. unfold get_blocks_by_chain_length, blocks_at. pose proof Hu as [Hu0 _].
  pose proof (get_block_by_chain_length_ok (permanent s) perm (Z.to_nat len) (sr_permanent _ _ _ _ Hs)) as Hby.
  rewrite Z2Nat.id in Hby by done. rewrite Hby. destruct (perm.*2 !! Z.to_nat len) as [b|] eqn:Hb; [by eexists|].
  apply lookup_ge_None in Hb. rewrite length_fmap in Hb.
  destruct (scan_entries s vol perm tags Hs len Hu) as (l & -> & Hnd & Hin); [lia|].
  apply (blocks_at_keys len vol l Hu) in Hnd; [|intros k v Hv; by destruct (sr_vol _ _ _ _ Hs k v Hv) as (_ & _ & _ & ? & _)|done].
  set (g key := default [] (tree_map (blocks_tree s) !! drop 4 key)).
  rewrite (mapM_ok_fmap _ (λ r, match r with Ok (key, _) => g key | _ => [] end)).
  - eexists. split; [reflexivity|]. rewrite <-list_fmap_compose.
    assert (((λ r : outcome SledError (list Z * list Z), match r with Ok (key, _) => g key | _ => [] end) ∘ Ok) <$> l = g <$> l.*1) as ->.
    { rewrite <-list_fmap_compose. apply list_fmap_ext. by intros ? [? ?] _. }
    rewrite Hnd, <-list_fmap_compose. apply Permutation_refl', list_fmap_ext. intros j [id v] Hj%list_elem_of_lookup_2. cbn [compose fst snd].
    apply elem_of_map_to_list, map_lookup_filter_Some in Hj as [Hv _]. unfold compose, g. cbn [fst snd].
    by rewrite index_key_drop, (sr_blocks _ _ _ _ Hs), lookup_fmap, Hv.
  - apply Forall_fmap, Forall_forall. intros [key x] Hkx. cbn.
    assert (key ∈ l.*1) as Hkey by (apply list_elem_of_fmap; by exists (key, x)).
    apply Hin in Hkey as (id & v & -> & Hv & _). rewrite index_key_id. cbn [mbind outcome_bind]. unfold g.
    by rewrite sled_get, index_key_drop, (sr_blocks _ _ _ _ Hs), lookup_fmap, Hv.
Qed.

(** Every read returns what the view says: a block and its info by identifier,
    whether it exists, the blocks at a length (the permanent one alone, else those
    of all branches), a tag, and the tips, among which a volatile block is exactly
    when it has no child. *)
Theorem store_reads_exact s vol perm tags :
  store_repr s vol perm tags →
  (∀ id, get_block s id = match block_of vol perm id with Some b => Ok b | None => Err BlockNotFound end) ∧
  (∀ id, get_block_info s id =
     match block_info_of s vol perm tags id with Some i => Ok i | None => Err BlockNotFound end) ∧
  (∀ id, block_exists s id = Ok (bool_decide (is_Some (block_of vol perm id)))) ∧
  (∀ len, u32_ok len → ∃ l, get_blocks_by_chain_length s len = Ok l ∧ l ≡ₚ blocks_at vol perm len) ∧
  (∀ name, store_get_tag s name = Ok (tags !! name)) ∧
  (∃ tips, get_tips_ids s = Ok tips ∧ NoDup tips ∧
     (∀ id v, vol !! id = Some v → id ∈ tips ↔ children vol id = 0%nat) ∧ ∀ id, id ∈ tips → known vol perm id).
Proof.
  intros Hs. split_and!.
  - intros id. by apply (get_block_ok s vol perm tags).
  - intros id. by apply get_block_info_ok.
  - intros id. rewrite (block_exists_ok s vol perm tags) by done. f_equal. apply bool_decide_ext. unfold known, block_of.
    destruct (vol !! id); [split; [by eexists|by left; eexists]|]. split.
    + intros [[? ?]|[i Hi]]; [done|]. rewrite Hi. cbn. apply perm_pos_lt in Hi. apply lookup_lt_is_Some_2. by rewrite length_fmap.
    + intros [b Hb]. right. destruct (perm_pos perm id); [by eexists|done].
  - intros len Hu. by apply (get_blocks_by_chain_length_ok s vol perm tags).
  - intros name. unfold store_get_tag. by rewrite sled_get, (sr_tags _ _ _ _ Hs).
  - unfold get_tips_ids. destruct (tree_iter_map (branches_tips_tree s)) as (l & -> & Hl).
    rewrite (mapM_ok_fmap _ (λ r, match r with Ok (id, _) => id | _ => [] end)) by (apply Forall_fmap, Forall_forall; by intros [? ?]).
    eexists. split; [reflexivity|]. rewrite <-list_fmap_compose.
    assert (((λ r : outcome SledError (list Z * list Z), match r with Ok (id, _) => id | _ => [] end) ∘ Ok) <$> l = l.*1) as ->.
    { apply list_fmap_ext. by intros ? [? ?] _. }
    assert (∀ id, id ∈ l.*1 ↔ is_Some (tree_map (branches_tips_tree s) !! id)) as Hin.
    { intros id. rewrite Hl, list_elem_of_fmap. split.
      - intros ([k x] & -> & Hx%elem_of_map_to_list). by eexists.
      - intros [x Hx]. exists (id, x). split; [done|by apply elem_of_map_to_list]. }
    destruct (sr_tips _ _ _ _ Hs) as [Htips Hk]. split; [rewrite Hl; apply NoDup_fst_map_to_list|]. split.
    + intros id v Hv. rewrite Hin. by apply (Htips id v).
    + intros id [x Hx]%Hin. by apply (Hk id x).
Qed.
End repr.

(** ** The store over finite maps and lists *)
#[export] Instance map_sled : Sled := {|
  Tree := TreeMap;
  SledError := Empty_set;
  tree_get t k := Ok (t !! k);
  tree_contains_key t k := Ok (bool_decide (is_Some (t !! k)));
  tree_insert t k v := Ok (<[k := v]> t, t !! k);
  tree_remove t k := Ok (delete k t, t !! k);
  tree_iter t := Ok <$> map_to_list t;
  tree_scan_prefix t p := Ok <$> filter (λ kv, p `prefix_of` kv.1) (map_to_list t) |}.
#[export] Program Instance map_sled_laws : SledLaws := {| tree_map t := t |}.
Solve All Obligations with eauto.
#[export] Instance list_pile : DataPile := {|
  Pile := list (list Z);
  PileError := Empty_set;
  SeqNoIter := list (list Z);
  pile_get_by_seqno p n := p !! n;
  pile_append p xs := Ok (p ++ xs);
  pile_iter_from_seqno p n := if decide (n < length p)%nat then Some (drop n p) else None;
  seqno_iter_next it := match it with [] => (None, []) | x :: it => (Some x, it) end |}.
#[export] Program Instance list_pile_laws : DataPileLaws := {| pile_list p := p; iter_items it := it |}.
Next Obligation. done. Qed.
Next Obligation. eauto. Qed.
Next Obligation. intros p n Hn. cbn. rewrite decide_True by done. eauto. Qed.
Next Obligation. intros [|x it]; cbn; eauto. Qed.

(** A store with two permanent blocks, a fork and a tag. *)
Definition demo_store0 : BlockStore := block_store_new [0] (mkPermanent [] [] ∅ [0]) ∅ ∅ ∅ ∅ ∅.
Definition demo_puts : list (list Z * list Z * Z) := [([1], [0], 0); ([2], [1], 1); ([3], [2], 2); ([4], [3], 3); ([5], [3], 3)].
Definition demo_block (id : list Z) : list Z := 7 :: id.
Definition demo_put (x : list Z * list Z * Z) (s : BlockStore) : BlockStore :=
  fst (put_block (demo_block x.1.1) (block_info_new x.1.1 x.1.2 x.2) s).
Definition demo_vol (xs : list (list Z * list Z * Z)) : Volatile :=
  foldl (λ vol x, <[x.1.1 := mkVBlock (demo_block x.1.1) x.1.2 x.2]> vol) ∅ xs.
Definition demo_volatile : BlockStore := foldl (λ s x, demo_put x s) demo_store0 demo_puts.
Definition demo_flushed : BlockStore := fst (flush_to_permanent_store 9 [2] 1 demo_volatile).
Definition demo_store : BlockStore := fst (put_tag [116] [4] demo_flushed).
Definition demo_perm : Chain := [([1], [7; 1]); ([2], [7; 2])].
Definition demo_rest : Volatile := demo_vol [([3], [2], 2); ([4], [3], 3); ([5], [3], 3)].
Definition demo_tags : Tags := {[ [116] := [4] ]}.

Lemma demo_store0_repr : store_repr demo_store0 ∅ [] ∅.
Proof.
  split; try done; try apply map_Forall_empty; try (split; apply map_Forall_empty).
  split; try done. constructor.
Qed.
Lemma demo_put_repr s vol x :
  store_repr s vol [] ∅ ∧ root_id s = [0] ∧ id_length s = 1%nat →
  ¬ known vol [] x.1.1 ∧ x.1.1 ≠ [0] ∧ length x.1.2 = 1%nat ∧ u32_ok x.2 ∧ Z.of_nat (size vol) + 1 < 2 ^ 32 →
  linked [0] vol [] (mkVBlock (demo_block x.1.1) x.1.2 x.2) →
  let s' := demo_put x s in
  store_repr s' (<[x.1.1 := mkVBlock (demo_block x.1.1) x.1.2 x.2]> vol) [] ∅ ∧ root_id s' = [0] ∧ id_length s' = 1%nat.
Proof.
  intros (Hs & Hr & Hn) (Hk & Hne & Hpid & Hu & Hsize) Hl s'.
  destruct (put_block_ok s vol [] ∅ (demo_block x.1.1) x.1.1 x.1.2 x.2) as (s1 & Hp & Hr1 & Hn1 & Hs1 & _); rewrite ?Hr, ?Hn; try done.
  { rewrite map_size_empty. lia. }
  unfold s', demo_put. rewrite Hp. cbn [fst]. by rewrite Hr1, Hn1.
Qed.
Lemma demo_volatile_repr : store_repr demo_volatile (demo_vol demo_puts) [] ∅ ∧ root_id demo_volatile = [0] ∧ id_length demo_volatile = 1%nat.
Proof.
  unfold demo_volatile, demo_vol, demo_puts. cbn [foldl].
  repeat apply demo_put_repr; cbn [fst snd].
  all: lazymatch goal with
    | |- store_repr demo_store0 _ _ _ ∧ _ => split; [apply demo_store0_repr|done]
    | |- linked _ ∅ _ _ => by left
    | |- linked _ _ _ _ => right; left; eexists; split; reflexivity
    | |- _ => split; [by apply (bool_decide_eq_true _); vm_compute|]; split_and!; done
    end.
Qed.
Lemma demo_flushed_repr : store_repr demo_flushed demo_rest demo_perm ∅.
Proof.
  destruct demo_volatile_repr as (Hs & _).
  assert (pruned (demo_vol demo_puts) []) as Hp by (apply (bool_decide_eq_true _); by vm_compute).
  destruct (flush_enough demo_volatile (demo_vol demo_puts) [] ∅ Hs Hp 9 [2] (mkVBlock [7; 2] [1] 1) eq_refl ltac:(done) 1)
    as (s' & Hf & Hs' & _); [lia|apply Nat.ltb_lt; by vm_compute|done|].
  unfold demo_flushed. rewrite Hf. cbn [fst]. apply Hs'.
Qed.
Lemma demo_store_repr : store_repr demo_store demo_rest demo_perm demo_tags.
Proof.
  destruct (put_tag_ok demo_flushed demo_rest demo_perm ∅ [116] [4] demo_flushed_repr) as (s' & Hp & Hs' & _); [by vm_compute| | |].
  - apply (bool_decide_eq_true _). by vm_compute.
  - intros old. by rewrite lookup_empty.
  - unfold demo_store. rewrite Hp. exact Hs'.
Qed.
Lemma demo_pruned : pruned demo_rest demo_perm.
Proof. apply (bool_decide_eq_true _). by vm_compute. Qed.

(** A store whose one tip is permanent, and with one block above it. *)
Definition demo_two : BlockStore := foldl (λ s x, demo_put x s) demo_store0 (take 2 demo_puts).
Definition demo_line : BlockStore := fst (flush_to_permanent_store 9 [2] 1 demo_two).
Lemma demo_line_repr : store_repr demo_line ∅ demo_perm ∅.
Proof.
  assert (store_repr demo_two (demo_vol (take 2 demo_puts)) [] ∅ ∧ root_id demo_two = [0] ∧ id_length demo_two = 1%nat) as (Hs & _).
  { unfold demo_two, demo_vol, demo_puts. cbn [foldl take]. repeat apply demo_put_repr; cbn [fst snd].
    all: lazymatch goal with
      | |- store_repr demo_store0 _ _ _ ∧ _ => split; [apply demo_store0_repr|done]
      | |- linked _ ∅ _ _ => by left
      | |- linked _ _ _ _ => right; left; eexists; split; reflexivity
      | |- _ => split; [by apply (bool_decide_eq_true _); vm_compute|]; split_and!; done
      end. }
  assert (pruned (demo_vol (take 2 demo_puts)) []) as Hp by (apply (bool_decide_eq_true _); by vm_compute).
  destruct (flush_enough demo_two (demo_vol (take 2 demo_puts)) [] ∅ Hs Hp 9 [2] (mkVBlock [7; 2] [1] 1) eq_refl ltac:(done) 1)
    as (s' & Hf & Hs' & _); [lia|apply Nat.ltb_lt; by vm_compute|done|].
  unfold demo_line. rewrite Hf. cbn [fst]. apply Hs'.
Qed.

Lemma demo_root : root_id demo_store = [0].
Proof. by vm_compute. Qed.
Lemma demo_id_length : id_length demo_store = 1%nat.
Proof. by vm_compute. Qed.
(** Decidable side conditions, by evaluation. *)
Local Ltac evaluates :=
  first [apply (bool_decide_eq_true _); by vm_compute | apply (bool_decide_eq_false _); by vm_compute
        | apply Nat.ltb_lt; by vm_compute | apply Z.ltb_lt; by vm_compute | split; evaluates].
(** A branch below the permanent tip: the answers go by the length alone. *)
Definition demo_stale : BlockStore := fst (flush_to_permanent_store 9 [4] 1 (demo_put ([6], [5], 4) demo_volatile)).
Example stale_branch_misjudged :
  is_ancestor 9 demo_stale [4] [6] = Ok (Some 1) ∧
  (bi_parent_id <$> get_block_info demo_stale [6]) = Ok [5] ∧ (bi_parent_id <$> get_block_info demo_stale [5]) = Ok [3] ∧
  (option_map bi_id <$> find_lowest_common_ancestor 9 demo_stale [4] [6]) = Ok (Some [4]).
Proof. by vm_compute. Qed.
(** The entries of flushed blocks stay in the index: the lengths are counted from
    the wrong end. *)
Example flushed_entries_stay :
  tree_map (chain_length_index_tree demo_flushed) = tree_map (chain_length_index_tree demo_volatile).
Proof. by vm_compute. Qed.
(** A distance of 0 is not the empty walk for a permanent block. *)
Example distance_zero_walks_on :
  (it ← store_iter 9 demo_store [1] 0; store_iter_collect 9 9 demo_store it) = Ok [[7; 2]].
Proof. by vm_compute. Qed.
Lemma put_block_refines_witness :
  (∃ s', put_block [7; 6] (block_info_new [6] [4] 4) demo_store = (s', Ok ()) ∧
     store_repr s' (<[[6] := mkVBlock [7; 6] [4] 4]> demo_rest) demo_perm demo_tags ∧
     tree_map (branches_tips_tree s') = {[ [5] := []; [6] := [] ]}) ∧
  (is_Some (tree_map (branches_tips_tree demo_line) !! [2]) ∧
   ∃ s', put_block [7; 6] (block_info_new [6] [2] 2) demo_line = (s', Ok ()) ∧
     store_repr s' (<[[6] := mkVBlock [7; 6] [2] 2]> ∅) demo_perm ∅ ∧ tree_map (branches_tips_tree s') = {[ [6] := [] ]}) ∧
  put_block [7; 2] (block_info_new [2] [1] 1) demo_store = (demo_store, Err BlockAlreadyPresent).
Proof.
  split; [|split].
  - destruct (put_block_refines demo_store demo_rest demo_perm demo_tags [7; 6] [6] [4] 4) as (_ & _ & Hput);
      [apply demo_store_repr|by rewrite demo_root|by rewrite demo_id_length|done|evaluates|].
    destruct Hput as (s' & Hp & Hs' & Ht & _); [evaluates|right; left; eexists; split; by vm_compute|].
    exists s'. split; [exact Hp|]. split; [exact Hs'|]. rewrite Ht. by vm_compute.
  - split; [by eexists; vm_compute|].
    destruct (put_block_refines demo_line ∅ demo_perm ∅ [7; 6] [6] [2] 2) as (_ & _ & Hput);
      [apply demo_line_repr|evaluates|by vm_compute|done|evaluates|].
    destruct Hput as (s' & Hp & Hs' & Ht & _); [evaluates|right; right; exists 1%nat; by vm_compute|].
    exists s'. split; [exact Hp|]. split; [exact Hs'|]. rewrite Ht. by vm_compute.
  - apply (put_block_refines demo_store demo_rest demo_perm demo_tags [7; 2] [2] [1] 1);
      [apply demo_store_repr|by rewrite demo_root|by rewrite demo_id_length|done|evaluates|evaluates].
Defined.
Lemma ancestor_queries_exact_witness :
  get_nth_ancestor 9 demo_store [5] 1 = Ok (info_of demo_rest demo_tags [3] (mkVBlock [7; 3] [2] 2)) ∧
  is_ancestor 9 demo_store [4] [5] = Ok None ∧
  find_lowest_common_ancestor 9 demo_store [4] [5] = Ok (Some (info_of demo_rest demo_tags [3] (mkVBlock [7; 3] [2] 2))).
Proof.
  destruct (ancestor_queries_exact demo_store demo_rest demo_perm demo_tags 9 [4] [5]
    (info_of demo_rest demo_tags [4] (mkVBlock [7; 4] [3] 3)) (info_of demo_rest demo_tags [5] (mkVBlock [7; 5] [3] 3)))
    as (Hnth & Hanc & Hlca); [apply demo_store_repr|apply demo_pruned|reflexivity|reflexivity|done|done|].
  split; [|split].
  - destruct (Hnth 1 ltac:(done)) as (b & k & Hb & Hk & ->). vm_compute in Hb. injection Hb as <-. vm_compute in Hk.
    injection Hk as <-. reflexivity.
  - rewrite Hanc. reflexivity.
  - reflexivity.
Defined.
Lemma put_tag_refines_witness :
  (∃ s', put_tag [116] [2] demo_store = (s', Ok ()) ∧ store_repr s' demo_rest demo_perm {[ [116] := [2] ]} ∧
     branches_tips_tree s' = branches_tips_tree demo_store) ∧
  put_tag [116] [9] demo_store = (demo_store, Err BlockNotFound).
Proof.
  split.
  - apply (put_tag_refines demo_store demo_rest demo_perm demo_tags [116] [2] demo_store_repr); [evaluates|evaluates|].
    intros old [= <-]. by eexists.
  - apply (put_tag_refines demo_store demo_rest demo_perm demo_tags [116] [9] demo_store_repr); evaluates.
Defined.
Lemma store_reads_exact_witness : get_block demo_store [3] = Ok [7; 3] ∧ get_block demo_store [2] = Ok [7; 2].
Proof. split; apply (store_reads_exact demo_store demo_rest demo_perm demo_tags demo_store_repr). Defined.
