(* ===== verification/Sum.v ===== *)
(** * Slices of byte buffers

    [&data[lo..hi]] and [data[lo..hi].copy_from_slice(v)] on a buffer that is
    the concatenation of its fields: the lemmas let the formats that address
    their fields by offset (the headers, the keys and signatures of the MMM
    scheme, the cursors of the storage) be read and written field by field. *)
From S2P Require Import Prelude Codec Bitmap Addr Key.
Local Open Scope Z_scope.

(** [&data[lo..]]. *)
Definition slice_from {E} (l : list Z) (lo : nat) : outcome E (list Z) := slice_range l lo (length l).

(** [data[lo..hi].copy_from_slice(v)]: a range out of the buffer panics, and so
    does a source of another length. *)
Definition write_range {E} (l : list Z) (lo hi : nat) (v : list Z) : outcome E (list Z) :=
  if decide (lo ≤ hi ∧ hi ≤ length l ∧ length v = hi - lo)%nat
  then Ok (take lo l ++ v ++ drop hi l) else Panic.

Section slices.
Context {E : Type}.
Implicit Types a b c v : list Z.

Lemma slice_range_ok l lo hi :
  (lo ≤ hi)%nat → (hi ≤ length l)%nat →
  slice_range (E := E) l lo hi = Ok (take (hi - lo) (drop lo l)).
Proof. intros. unfold slice_range. by rewrite decide_True by lia. Qed.

Lemma slice_range_mid a b c lo hi :
  lo = length a → hi = (length a + length b)%nat →
  slice_range (E := E) (a ++ b ++ c) lo hi = Ok b.
Proof.
  intros -> ->. rewrite slice_range_ok by (rewrite ?length_app; lia).
  rewrite drop_app_length. replace (length a + length b - length a)%nat with (length b) by lia.
  by rewrite take_app_length.
Qed.

Lemma slice_range_head b c hi :
  hi = length b → slice_range (E := E) (b ++ c) 0 hi = Ok b.
Proof. intros ->. apply (slice_range_mid []); done. Qed.

Lemma slice_from_app a b lo :
  lo = length a → slice_from (E := E) (a ++ b) lo = Ok b.
Proof.
  intros ->. unfold slice_from. rewrite slice_range_ok by (rewrite ?length_app; lia).
  rewrite drop_app_length, length_app, take_ge by lia. done.
Qed.

Lemma slice_range_tail a b lo hi :
  lo = length a → hi = (length a + length b)%nat → slice_range (E := E) (a ++ b) lo hi = Ok b.
Proof. intros. rewrite <-(app_nil_r b) at 1. by apply slice_range_mid. Qed.

Lemma write_range_mid a b c lo hi v :
  lo = length a → hi = (length a + length b)%nat → length v = length b →
  write_range (E := E) (a ++ b ++ c) lo hi v = Ok (a ++ v ++ c).
Proof.
  intros -> -> Hv. unfold write_range. rewrite decide_True by (rewrite ?length_app; lia).
  rewrite take_app_length, (app_assoc a b c). by rewrite (drop_app_length' (a ++ b)) by (by rewrite length_app).
Qed.

Lemma write_range_head b c hi v :
  hi = length b → length v = length b → write_range (E := E) (b ++ c) 0 hi v = Ok (v ++ c).
Proof. intros. by apply (write_range_mid []). Qed.

(** Reading back what was written. *)
Lemma write_range_length l lo hi v l' :
  write_range (E := E) l lo hi v = Ok l' → length l' = length l.
Proof.
  unfold write_range. case_decide as Hd; [|done]. intros [= <-].
  rewrite !length_app, length_take, length_drop. lia.
Qed.
End slices.

(** ** Arrays of fixed-size entries, laid out one after the other *)
Lemma length_concat_same {A} n (ls : list (list A)) :
  Forall (λ l, length l = n) ls → length (concat ls) = (length ls * n)%nat.
Proof. induction 1 as [|l ls Hl Hls IH]; [done|]. cbn. rewrite length_app, Hl, IH. lia. Qed.

Lemma concat_split {A} n (ls : list (list A)) i :
  Forall (λ l, length l = n) ls → (i ≤ length ls)%nat →
  ∃ pre post, concat ls = pre ++ post ∧ pre = concat (take i ls) ∧ post = concat (drop i ls)
    ∧ length pre = (i * n)%nat.
Proof.
  intros Hls Hi. exists (concat (take i ls)), (concat (drop i ls)).
  rewrite <-concat_app, take_drop. repeat split.
  rewrite (length_concat_same n) by (by apply Forall_take). rewrite length_take. f_equal. lia.
Qed.

(** ** Buffers as lists of fields: the [i]-th field between its offsets *)
Section fields.
Context {E : Type}.
Implicit Types (fs : list (list Z)) (v : list Z).

Definition field_offset fs (i : nat) : nat := length (concat (take i fs)).

Lemma fields_split fs i old :
  fs !! i = Some old →
  concat fs = concat (take i fs) ++ old ++ concat (drop (S i) fs).
Proof.
  intros Hi. rewrite <-(take_drop_middle fs i old Hi) at 1. by rewrite concat_app.
Qed.

Lemma slice_field fs i old lo hi :
  fs !! i = Some old → lo = field_offset fs i → hi = (lo + length old)%nat →
  slice_range (E := E) (concat fs) lo hi = Ok old.
Proof. intros Hi -> ->. rewrite (fields_split fs i old Hi). by apply slice_range_mid. Qed.

Lemma write_field fs i old lo hi v :
  fs !! i = Some old → lo = field_offset fs i → hi = (lo + length old)%nat → length v = length old →
  write_range (E := E) (concat fs) lo hi v = Ok (concat (<[i := v]> fs)).
Proof.
  intros Hi -> -> Hv. rewrite (fields_split fs i old Hi), write_range_mid by done.
  rewrite insert_take_drop by (by eapply lookup_lt_Some). by rewrite concat_app.
Qed.

Lemma slice_fields_head fs i hi :
  hi = field_offset fs i → slice_range (E := E) (concat fs) 0 hi = Ok (concat (take i fs)).
Proof.
  intros ->. rewrite <-(take_drop i fs) at 1. rewrite concat_app. by apply slice_range_head.
Qed.
End fields.

(** Cutting a buffer of known length into pieces. *)
Lemma cut_list {A} (l : list A) n m :
  length l = (n + m)%nat → ∃ a b, l = a ++ b ∧ length a = n ∧ length b = m.
Proof.
  intros Hl. exists (take n l), (drop n l). rewrite take_drop, length_take, length_drop. split_and!; lia || done.
Qed.

(** * The MMM sum key-evolving signatures
    ([chain-crypto/src/algorithms/sumed25519/common.rs], [sum.rs], [mod.rs])

    A binary tree of depth [d] carries [2^d] Ed25519 key pairs; the secret key
    of period [t] holds the key pair of the leaf [t], the public keys of the
    nodes on the path to it, and the seeds of the right subtrees that the path
    has not entered yet.  A [SecretKey] is the buffer of the code, addressed by
    offset; [USE_TRUNCATE] is [false], and only that branch is modelled.
    Ed25519 and SHA-256 are the class [Ed25519]; what the code relies on of
    them is [Ed25519Laws].  The proofs are in [SumSpec]. *)
Local Open Scope Z_scope.

(** ** The primitives ([ed25519_dalek], [sha2]) *)
Class Ed25519 := {
  EdSecret : Type; EdPublic : Type; EdSignature : Type;
  ed_secret_from_bytes : list Z → option EdSecret;
  ed_public_of_secret : EdSecret → EdPublic;
  ed_public_as_bytes : EdPublic → list Z;
  ed_public_from_bytes : list Z → option EdPublic;
  keypair_to_bytes : EdSecret * EdPublic → list Z;
  keypair_from_bytes : list Z → option (EdSecret * EdPublic);
  ed_sign : EdSecret * EdPublic → list Z → EdSignature;
  ed_verify : EdPublic → list Z → EdSignature → bool;
  ed_signature_to_bytes : EdSignature → list Z;
  ed_signature_from_bytes : list Z → option EdSignature;
  sha256 : list Z → list Z;
}.
Definition Keypair `{Ed25519} : Type := EdSecret * EdPublic.

Class Ed25519Laws `{Ed25519} : Prop := {
  ed_secret_32 : ∀ b, length b = 32%nat → is_Some (ed_secret_from_bytes b);
  ed_public_bytes_32 : ∀ pk, length (ed_public_as_bytes pk) = 32%nat;
  ed_public_roundtrip : ∀ pk, ed_public_from_bytes (ed_public_as_bytes pk) = Some pk;
  keypair_bytes_64 : ∀ kp, length (keypair_to_bytes kp) = 64%nat;
  keypair_roundtrip : ∀ kp, keypair_from_bytes (keypair_to_bytes kp) = Some kp;
  ed_signature_bytes_64 : ∀ s, length (ed_signature_to_bytes s) = 64%nat;
  ed_signature_roundtrip : ∀ s, ed_signature_from_bytes (ed_signature_to_bytes s) = Some s;
  ed_sign_verifies : ∀ s m,
    ed_verify (ed_public_of_secret s) m (ed_sign (s, ed_public_of_secret s) m) = true;
  sha256_32 : ∀ b, length (sha256 b) = 32%nat;
}.

Inductive SumError :=
| Ed25519SignatureError
| InvalidSecretKeySize (n : nat)
| InvalidPublicKeySize (n : nat)
| InvalidSignatureSize (n : nat)
| InvalidSignatureCount (t : Z) (depth : nat)
| DataInZeroArea
| KeyCannotBeUpdatedMore.

(** ** [common.rs] *)
Definition SEED_SIZE : nat := 32.
Abbreviation Seed := (list Z) (only parsing).
Definition seed_zero : Seed := replicate SEED_SIZE 0.
Definition seed_from_slice {E} (b : list Z) : outcome E Seed :=
  assert_that (length b =? SEED_SIZE)%nat;; Ok b.

(** [Depth]: [usize::pow] wraps at 64 bits; [half] and [decr] assert. *)
Definition depth_total (d : nat) : Z := wrap 64 (2 ^ Z.of_nat d).
Definition depth_half {E} (d : nat) : outcome E Z :=
  assert_that (0 <? d)%nat;; Ok (wrap 64 (2 ^ (Z.of_nat d - 1))).
Definition depth_decr {E} (d : nat) : outcome E nat :=
  assert_that (0 <? d)%nat;; Ok (d - 1)%nat.
Definition depth_incr (d : nat) : nat := S d.

(** [usize::count_ones]. *)
Definition count_ones64 (x : Z) : nat := popcount 64 x.

(** [sum::PublicKey], 32 bytes, and [sum::Signature], a buffer. *)
Abbreviation SumPublicKey := (list Z) (only parsing).
Abbreviation SumSignature := (list Z) (only parsing).

Section sum.
Context `{Ed25519}.

Definition split_seed {E} (r : Seed) : outcome E (Seed * Seed) :=
  let o1 := sha256 (1 :: r) in
  let o2 := sha256 (2 :: r) in
  s1 ← seed_from_slice o1;
  s2 ← seed_from_slice o2;
  Ok (s1, s2).

Definition keygen_1 {E} (r : Seed) : outcome E Keypair :=
  sk ← unwrap_opt (ed_secret_from_bytes r);
  Ok (sk, ed_public_of_secret sk).

(** ** [sum.rs]: sizes and offsets *)
Definition PERIOD_SERIALIZE_SIZE : nat := 4.
Definition INDIVIDUAL_SECRET_SIZE : nat := 32.
Definition INDIVIDUAL_PUBLIC_SIZE : nat := 32.
Definition SIGMA_SIZE : nat := 64.
Definition SUM_PUBLIC_KEY_SIZE : nat := 32.

Definition minimum_secret_key_size (d : nat) : nat :=
  PERIOD_SERIALIZE_SIZE + INDIVIDUAL_SECRET_SIZE + INDIVIDUAL_PUBLIC_SIZE
  + d * 2 * SUM_PUBLIC_KEY_SIZE.
Definition maximum_secret_key_size (d : nat) : nat :=
  PERIOD_SERIALIZE_SIZE + INDIVIDUAL_SECRET_SIZE + INDIVIDUAL_PUBLIC_SIZE
  + d * 2 * SUM_PUBLIC_KEY_SIZE + d * SEED_SIZE.
Definition signature_size (d : nat) : nat :=
  PERIOD_SERIALIZE_SIZE + SIGMA_SIZE + INDIVIDUAL_PUBLIC_SIZE + d * SUM_PUBLIC_KEY_SIZE.

Definition KEYPAIR_OFFSET : nat := 0 + PERIOD_SERIALIZE_SIZE.
Definition MERKLE_PKS_OFFSET : nat :=
  KEYPAIR_OFFSET + INDIVIDUAL_SECRET_SIZE + INDIVIDUAL_PUBLIC_SIZE.
Definition seed_offset (d : nat) : nat := MERKLE_PKS_OFFSET + d * SUM_PUBLIC_KEY_SIZE * 2.
Definition seed_offset_index (d i : nat) : nat := seed_offset d + i * SEED_SIZE.

(** ** Public keys *)
Definition from_ed25519_publickey (public : EdPublic) : SumPublicKey := ed_public_as_bytes public.
Definition sum_public_from_bytes (bytes : list Z) : outcome SumError SumPublicKey :=
  if (length bytes =? SUM_PUBLIC_KEY_SIZE)%nat then Ok bytes
  else Err (InvalidPublicKeySize (length bytes)).
Definition sum_hash (pk1 pk2 : SumPublicKey) : SumPublicKey := sha256 (pk1 ++ pk2).

(** ** Iterators over the buffers: [next] and [next_back] *)
Definition merkle_new {E} (data : list Z) : outcome E (list Z) :=
  assert_that (length data mod (SUM_PUBLIC_KEY_SIZE * 2) =? 0)%nat;; Ok data.

Definition merkle_next {E} (data : list Z) :
    outcome E (option ((SumPublicKey * SumPublicKey) * list Z)) :=
  match data with
  | [] => Ok None
  | _ =>
      datl ← slice_range data 0 SUM_PUBLIC_KEY_SIZE;
      datr ← slice_range data SUM_PUBLIC_KEY_SIZE (SUM_PUBLIC_KEY_SIZE * 2);
      rest ← slice_from data (SUM_PUBLIC_KEY_SIZE * 2);
      rest ← merkle_new rest;
      Ok (Some ((datl, datr), rest))
  end.

Definition merkle_next_back {E} (data : list Z) :
    outcome E (option ((SumPublicKey * SumPublicKey) * list Z)) :=
  match data with
  | [] => Ok None
  | _ =>
      let last_offset := (length data - SUM_PUBLIC_KEY_SIZE * 2)%nat in
      datl ← slice_range data last_offset (last_offset + SUM_PUBLIC_KEY_SIZE);
      datr ← slice_range data (last_offset + SUM_PUBLIC_KEY_SIZE)
                              (last_offset + SUM_PUBLIC_KEY_SIZE * 2);
      rest ← slice_range data 0 last_offset;
      rest ← merkle_new rest;
      Ok (Some ((datl, datr), rest))
  end.

Definition sig_pks_next_back {E} (data : list Z) : outcome E (option (SumPublicKey * list Z)) :=
  match data with
  | [] => Ok None
  | _ =>
      let last_offset := (length data - SUM_PUBLIC_KEY_SIZE)%nat in
      dat ← slice_from data last_offset;
      rest ← slice_range data 0 last_offset;
      Ok (Some (dat, rest))
  end.

Definition seeds_next {E} (data : list Z) : outcome E (option (Seed * list Z)) :=
  match data with
  | [] => Ok None
  | _ =>
      s ← slice_range data 0 SEED_SIZE;
      seed ← seed_from_slice s;
      rest ← slice_from data SEED_SIZE;
      Ok (Some (seed, rest))
  end.

(** A [for] loop over an iterator; every item takes at least a byte, so the
    length of the buffer is enough fuel. *)
Fixpoint buffer_collect {E A} (next : list Z → outcome E (option (A * list Z)))
    (fuel : nat) (data : list Z) : outcome E (list A) :=
  match fuel with
  | O => Panic
  | S fuel =>
      r ← next data;
      match r with
      | None => Ok []
      | Some (a, rest) => l ← buffer_collect next fuel rest; Ok (a :: l)
      end
  end.
Definition collect {E A} (next : list Z → outcome E (option (A * list Z))) (data : list Z) :
    outcome E (list A) := buffer_collect next (S (length data)) data.

(** ** [SecretKey] *)
Record SumSecretKey := mkSumSecretKey { sk_depth : nat; sk_data : list Z }.

Definition rs_from_period (d : nat) (t : Z) : Z :=
  wrap 32 (Z.of_nat (count_ones64 (depth_total d - 1)) - Z.of_nat (count_ones64 t)).

Definition sk_t {E} (sk : SumSecretKey) : outcome E Z :=
  t ← slice_range (sk_data sk) 0 PERIOD_SERIALIZE_SIZE; Ok (from_le t).
Definition sk_sk {E} (sk : SumSecretKey) : outcome E Keypair :=
  bytes ← slice_range (sk_data sk) KEYPAIR_OFFSET MERKLE_PKS_OFFSET;
  unwrap_opt (keypair_from_bytes bytes).
Definition merkle_bytes {E} (sk : SumSecretKey) : outcome E (list Z) :=
  slice_range (sk_data sk) MERKLE_PKS_OFFSET (seed_offset (sk_depth sk)).
Definition merkle_pks {E} (sk : SumSecretKey) : outcome E (list Z) :=
  bytes ← merkle_bytes sk; merkle_new bytes.
Definition rs_len {E} (sk : SumSecretKey) : outcome E Z :=
  t ← sk_t sk; Ok (rs_from_period (sk_depth sk) t).
Definition sk_rs {E} (sk : SumSecretKey) : outcome E (list Z) :=
  let start := seed_offset (sk_depth sk) in
  n ← rs_len sk;
  slice_range (sk_data sk) start (start + Z.to_nat n * SEED_SIZE).

Definition with_data (sk : SumSecretKey) (data : list Z) : SumSecretKey :=
  mkSumSecretKey (sk_depth sk) data.
Definition set_t {E} (sk : SumSecretKey) (t : Z) : outcome E SumSecretKey :=
  with_data sk <$> write_range (sk_data sk) 0 PERIOD_SERIALIZE_SIZE (le_bytes 4 (wrap 32 t)).
Definition set_sk {E} (sk : SumSecretKey) (kp : Keypair) : outcome E SumSecretKey :=
  with_data sk <$> write_range (sk_data sk) KEYPAIR_OFFSET MERKLE_PKS_OFFSET (keypair_to_bytes kp).

(** [set_merkle_pks] writes into [&mut data[MERKLE_PKS_OFFSET..seed_offset]]. *)
Definition set_merkle_pks {E} (sk : SumSecretKey) (n : nat) (pks : SumPublicKey * SumPublicKey) :
    outcome E SumSecretKey :=
  bytes ← merkle_bytes sk;
  let startl := (n * SUM_PUBLIC_KEY_SIZE * 2)%nat in
  let startr := (startl + SUM_PUBLIC_KEY_SIZE)%nat in
  let end_ := (startr + SUM_PUBLIC_KEY_SIZE)%nat in
  bytes ← write_range bytes startl startr pks.1;
  bytes ← write_range bytes startr end_ pks.2;
  with_data sk <$> write_range (sk_data sk) MERKLE_PKS_OFFSET (seed_offset (sk_depth sk)) bytes.
Definition get_merkle_pks {E} (sk : SumSecretKey) (n : nat) :
    outcome E (SumPublicKey * SumPublicKey) :=
  bytes ← merkle_bytes sk;
  let startl := (n * SUM_PUBLIC_KEY_SIZE * 2)%nat in
  let startr := (startl + SUM_PUBLIC_KEY_SIZE)%nat in
  let end_ := (startr + SUM_PUBLIC_KEY_SIZE)%nat in
  datl ← slice_range bytes startl startr;
  datr ← slice_range bytes startr end_;
  Ok (datl, datr).

(** One step of the climb from a leaf to the root: bit [i] of the period says
    on which side the node is. *)
Definition climb (t : Z) (s : nat * SumPublicKey) (left_ right_ : SumPublicKey) :
    nat * SumPublicKey :=
  let '(i, got) := s in
  (S i, if Z.testbit t (Z.of_nat i) then sum_hash left_ got else sum_hash got right_).

Definition sk_compute_public {E} (sk : SumSecretKey) : outcome E SumPublicKey :=
  t ← sk_t sk;
  kp ← sk_sk sk;
  bytes ← merkle_pks sk;
  pks ← collect merkle_next_back bytes;
  Ok (foldl (λ s p, climb t s p.1 p.2) (0%nat, from_ed25519_publickey kp.2) pks).2.

Definition sk_create {E} (t : Z) (kp : Keypair) (pks : list (SumPublicKey * SumPublicKey))
    (rs : list Seed) : outcome E SumSecretKey :=
  let d := length pks in
  let out := le_bytes 4 (wrap 32 t) in
  assert_that (length out =? 4)%nat;;
  let out := out ++ keypair_to_bytes kp in
  assert_that (length out =? 68)%nat;;
  let out := foldl (λ out p, out ++ p.1 ++ p.2) out pks in
  assert_that (length out =? 68 + length pks * 64)%nat;;
  let out := foldl (λ out r, out ++ r) out rs in
  assert_that (length out =? maximum_secret_key_size d)%nat;;
  Ok (mkSumSecretKey d out).

(** [rs_pop] (with [USE_TRUNCATE = false]): the last seed, erased. *)
Definition rs_pop {E} (sk : SumSecretKey) : outcome E (option Seed * SumSecretKey) :=
  n ← rs_len sk;
  if n =? 0 then Ok (None, sk)
  else
    let start := seed_offset_index (sk_depth sk) (Z.to_nat n - 1) in
    slice ← slice_range (sk_data sk) start (start + SEED_SIZE);
    seed ← seed_from_slice slice;
    data ← write_range (sk_data sk) start (start + SEED_SIZE) (replicate SEED_SIZE 0);
    Ok (Some seed, with_data sk data).

Definition rs_extend {E} (sk : SumSecretKey) (seed_off : nat) (rs : list Z) :
    outcome E SumSecretKey :=
  let current := wrap 32 (Z.of_nat seed_off) in
  t ← sk_t sk;
  let expect := rs_from_period (sk_depth sk) (t + 1) in
  let diff := wrap 32 (expect - current) in
  let start := seed_offset_index (sk_depth sk) seed_off in
  let end_ := (start + Z.to_nat diff * SEED_SIZE)%nat in
  with_data sk <$> write_range (sk_data sk) start end_ rs.

Definition is_updatable {E} (sk : SumSecretKey) : outcome E bool :=
  t ← sk_t sk; Ok (bool_decide (t + 1 < depth_total (sk_depth sk))).

Definition sk_from_bytes (d : nat) (bytes : list Z) : outcome SumError SumSecretKey :=
  let minimum_size := seed_offset d in
  if decide (length bytes < minimum_size)%nat then Err (InvalidSecretKeySize (length bytes))
  else if decide (0 < (length bytes - minimum_size) mod 32)%nat
  then Err (InvalidSecretKeySize (length bytes))
  else if decide (length bytes ≠ maximum_secret_key_size d)
  then Err (InvalidSecretKeySize (length bytes))
  else
    keypair_slice ← slice_range bytes KEYPAIR_OFFSET MERKLE_PKS_OFFSET;
    _ ← ok_or (keypair_from_bytes keypair_slice) Ed25519SignatureError;
    tbuf ← slice_range bytes 0 PERIOD_SERIALIZE_SIZE;
    let t := from_le tbuf in
    if decide (depth_total d ≤ t) then Err (InvalidSignatureCount t d)
    else
      let expected_rs := rs_from_period d t in
      let start_of_zeroes := seed_offset_index d (Z.to_nat expected_rs) in
      zeroes ← slice_from bytes start_of_zeroes;
      if forallb (λ b, b =? 0) zeroes then Ok (mkSumSecretKey d bytes) else Err DataInZeroArea.

(** ** [Signature] *)
Definition SIGMA_OFFSET : nat := 0 + PERIOD_SERIALIZE_SIZE.
Definition PK_OFFSET : nat := SIGMA_OFFSET + SIGMA_SIZE.
Definition SIG_MERKLE_PKS_OFFSET : nat := PK_OFFSET + INDIVIDUAL_PUBLIC_SIZE.

Definition sig_t {E} (s : SumSignature) : outcome E Z :=
  t ← slice_range s 0 PERIOD_SERIALIZE_SIZE; Ok (from_le t).
Definition sig_sigma {E} (s : SumSignature) : outcome E EdSignature :=
  bytes ← slice_range s SIGMA_OFFSET PK_OFFSET; unwrap_opt (ed_signature_from_bytes bytes).
Definition sig_pk {E} (s : SumSignature) : outcome E EdPublic :=
  bytes ← slice_range s PK_OFFSET SIG_MERKLE_PKS_OFFSET; unwrap_opt (ed_public_from_bytes bytes).
Definition sig_merkle_pks {E} (s : SumSignature) : outcome E (list Z) :=
  slice_from s SIG_MERKLE_PKS_OFFSET.
Definition sig_depth {E} (s : SumSignature) : outcome E nat :=
  bytes ← sig_merkle_pks s; Ok (length bytes / SUM_PUBLIC_KEY_SIZE)%nat.

Definition sig_create {E} (t : Z) (sigma : EdSignature) (pk : EdPublic) (pks : list SumPublicKey) :
    outcome E SumSignature :=
  let out := le_bytes 4 (wrap 32 t) in
  assert_that (length out =? PERIOD_SERIALIZE_SIZE)%nat;;
  let out := out ++ ed_signature_to_bytes sigma in
  assert_that (length out =? PERIOD_SERIALIZE_SIZE + SIGMA_SIZE)%nat;;
  let out := out ++ ed_public_as_bytes pk in
  assert_that (length out =? PERIOD_SERIALIZE_SIZE + SIGMA_SIZE + INDIVIDUAL_PUBLIC_SIZE)%nat;;
  Ok (foldl (λ out p, out ++ p) out pks).

Definition sig_from_bytes (d : nat) (bytes : list Z) : outcome SumError SumSignature :=
  let minimum_size := (96 + PERIOD_SERIALIZE_SIZE)%nat in
  if decide (length bytes < minimum_size)%nat then Err (InvalidSignatureSize (length bytes))
  else if decide (0 < (length bytes - minimum_size) mod 32)%nat
  then Err (InvalidSignatureSize (length bytes))
  else if decide (((length bytes - minimum_size) / 32)%nat ≠ d)
  then Err (InvalidSignatureSize (length bytes))
  else
    t_bytes ← slice_range bytes 0 PERIOD_SERIALIZE_SIZE;
    let t := from_le t_bytes in
    if decide (depth_total d ≤ t) then Err (InvalidSignatureCount t d)
    else
      sigma_slice ← slice_range bytes SIGMA_OFFSET (SIGMA_OFFSET + SIGMA_SIZE);
      pk_slice ← slice_range bytes PK_OFFSET (PK_OFFSET + INDIVIDUAL_PUBLIC_SIZE);
      _ ← ok_or (ed_public_from_bytes pk_slice) Ed25519SignatureError;
      _ ← ok_or (ed_signature_from_bytes sigma_slice) Ed25519SignatureError;
      Ok bytes.

(** ** Key generation *)

(** [generate_leftmost_rs]: the loop runs once per level; a depth of zero
    reaches [depth.decr()], which asserts. *)
Fixpoint generate_leftmost_rs {E} (rs : list Seed) (depth : nat) (r : Seed) :
    outcome E (list Seed * Keypair) :=
  '(r0, r1) ← split_seed r;
  let rs := rs ++ [r1] in
  match depth with
  | O => Panic
  | 1%nat => kp ← keygen_1 r0; Ok (rs, kp)
  | S depth => generate_leftmost_rs rs depth r0
  end.

(** [pkeygen] calls itself on the subtrees; a fuel above the depth is enough
    ([SumSpec.pkeygen_spec]). *)
Fixpoint pkeygen {E} (fuel log_depth : nat) (master : Seed) : outcome E SumPublicKey :=
  match fuel with
  | O => Panic
  | S fuel =>
      if (log_depth =? 0)%nat then
        kp ← keygen_1 master; Ok (from_ed25519_publickey kp.2)
      else
        '(rs, keypair0) ← generate_leftmost_rs [] log_depth master;
        '(_, pk_left) ← foldM (λ s r,
            let '(depth, pk_left) := s in
            pk_right ← (if (depth =? 0)%nat
                        then kp ← keygen_1 r; Ok (from_ed25519_publickey kp.2)
                        else pkeygen fuel depth r);
            Ok (depth_incr depth, sum_hash pk_left pk_right))
          (0%nat, from_ed25519_publickey keypair0.2) (reverse rs);
        Ok pk_left
  end.

Definition keygen_step {E} (fuel : nat)
    (s : nat * list (SumPublicKey * SumPublicKey) * SumPublicKey) (r : Seed) :
    outcome E (nat * list (SumPublicKey * SumPublicKey) * SumPublicKey) :=
  let '(depth, pks, pk_left) := s in
  pk_right ← (if (depth =? 0)%nat
              then kp ← keygen_1 r; Ok (from_ed25519_publickey kp.2)
              else pkeygen fuel depth r);
  let pks := pks ++ [(pk_left, pk_right)] in
  Ok (depth_incr depth, pks, sum_hash pk_left pk_right).

Definition keygen {E} (log_depth : nat) (master : Seed) :
    outcome E (SumSecretKey * SumPublicKey) :=
  if (log_depth =? 0)%nat then
    keypair ← keygen_1 master;
    let pk := from_ed25519_publickey keypair.2 in
    sk ← sk_create 0 keypair [] [];
    Ok (sk, pk)
  else
    '(rs, keypair0) ← generate_leftmost_rs [] log_depth master;
    '(_, pks, pk_left) ← foldM (keygen_step (S log_depth))
        (0%nat, [], from_ed25519_publickey keypair0.2) (reverse rs);
    let pks := reverse pks in
    assert_that (log_depth =? length pks)%nat;;
    sk ← sk_create 0 keypair0 pks rs;
    Ok (sk, pk_left).

(** ** Signing and verifying *)

(** The element of the path that [sign] keeps at level [i]: the sibling. *)
Definition sign_step {E} (depth : nat) (s : nat * Z * list SumPublicKey)
    (p : SumPublicKey * SumPublicKey) : outcome E (nat * Z * list SumPublicKey) :=
  let '(i, t, pks) := s in
  let d := (depth - i)%nat in
  half ← depth_half d;
  if decide (half ≤ t) then
    half ← depth_half d;
    Ok (S i, t - half, pks ++ [p.1])
  else Ok (S i, t, pks ++ [p.2]).

Definition sum_sign {E} (secret : SumSecretKey) (m : list Z) : outcome E SumSignature :=
  sk ← sk_sk secret;
  let sigma := ed_sign sk m in
  t ← sk_t secret;
  bytes ← merkle_pks secret;
  all ← collect merkle_next bytes;
  '(_, _, pks) ← foldM (sign_step (sk_depth secret)) (0%nat, t, []) all;
  sig_create t sigma sk.2 pks.

Definition sum_verify {E} (pk : SumPublicKey) (m : list Z) (sig : SumSignature) : outcome E bool :=
  leaf ← sig_pk sig;
  sigma ← sig_sigma sig;
  if negb (ed_verify leaf m sigma) then Ok false
  else
    t ← sig_t sig;
    bytes ← sig_merkle_pks sig;
    pks ← collect sig_pks_next_back bytes;
    let got := (foldl (λ s p, climb t s p p) (0%nat, from_ed25519_publickey leaf) pks).2 in
    Ok (bool_decide (got = pk)).

(** ** Evolution *)

(** The loop that copies the nodes of the new subtree into the key. *)
Fixpoint copy_merkle_pks {E} (sk : SumSecretKey) (offset i : nat)
    (l : list (SumPublicKey * SumPublicKey)) : outcome E SumSecretKey :=
  match l with
  | [] => Ok sk
  | c :: l => sk ← set_merkle_pks sk (offset + i) c; copy_merkle_pks sk offset (S i) l
  end.

(** The last branch of [update]: the popped seed is expanded into a whole
    subtree, whose public key must be the one that the path already holds. *)
Definition enter_subtree {E} (secret : SumSecretKey) (diff : nat) (seed : Seed) :
    outcome E SumSecretKey :=
  '(sec_child, pub_child) ← keygen (diff - 1) seed;
  own ← get_merkle_pks secret (sk_depth secret - diff);
  assert_that (bool_decide (own.2 = pub_child));;
  n ← rs_len secret;
  let rs_x := (Z.to_nat n - 1)%nat in
  child_rs ← sk_rs sec_child;
  secret ← rs_extend secret rs_x child_rs;
  mine ← merkle_pks secret;
  theirs ← merkle_pks sec_child;
  let offset := (length mine / (SUM_PUBLIC_KEY_SIZE * 2)
                 - length theirs / (SUM_PUBLIC_KEY_SIZE * 2))%nat in
  cs ← collect merkle_next theirs;
  secret ← copy_merkle_pks secret offset 0 cs;
  kp ← sk_sk sec_child;
  set_sk secret kp.

(** [update] returns the key as mutated, also on failure. *)
Definition sum_update {E} (secret : SumSecretKey) :
    outcome E (SumSecretKey * outcome SumError unit) :=
  t ← sk_t secret;
  let diff := count_ones64 (Z.lxor t (t + 1)) in
  assert_that (1 <=? diff)%nat;;
  '(popped, secret) ← rs_pop secret;
  match popped with
  | None => Ok (secret, Err KeyCannotBeUpdatedMore)
  | Some seed =>
      secret ← (if (diff =? 1)%nat then
          keypair ← keygen_1 seed;
          set_sk secret keypair
        else enter_subtree secret diff seed);
      t ← sk_t secret;
      secret ← set_t secret (t + 1);
      Ok (secret, Ok ())
  end.
End sum.

(** ** [mod.rs]: the scheme of depth 12 *)
Definition DEPTH : nat := 12.
Inductive EvolvingStatus := EvolvingSuccess | EvolvingFailed.
Inductive Verification := VerificationSuccess | VerificationFailed.

Section sum12.
Context `{Ed25519}.

Definition kes12_public_from_binary (data : list Z) : outcome PublicKeyError SumPublicKey :=
  map_err (λ e, match e with InvalidPublicKeySize _ => SizeInvalid | _ => KeyStructureInvalid end)
    (sum_public_from_bytes data).
Definition kes12_secret_from_binary (data : list Z) : outcome SecretKeyError SumSecretKey :=
  map_err (λ e, match e with InvalidSecretKeySize _ => SkSizeInvalid | _ => SkStructureInvalid end)
    (sk_from_bytes DEPTH data).
Definition kes12_signature_from_bytes (data : list Z) : outcome SignatureError SumSignature :=
  map_err (λ e, match e with
                | InvalidSignatureSize _ => SigSizeInvalid (signature_size DEPTH) (length data)
                | _ => SigStructureInvalid
                end)
    (sig_from_bytes DEPTH data).
Definition kes12_verify_bytes {E} (pubkey : SumPublicKey) (signature : SumSignature)
    (msg : list Z) : outcome E Verification :=
  ok ← sum_verify pubkey msg signature;
  Ok (if (ok : bool) then VerificationSuccess else VerificationFailed).
Definition kes12_update {E} (key : SumSecretKey) : outcome E (SumSecretKey * EvolvingStatus) :=
  '(key, r) ← sum_update key;
  Ok (key, if is_ok r then EvolvingSuccess else EvolvingFailed).
Definition kes12_get_period {E} (sec : SumSecretKey) : outcome E Z :=
  t ← sk_t sec; Ok (wrap 32 t).
Definition kes12_sig_period {E} (sig : SumSignature) : outcome E Z :=
  t ← sig_t sig; Ok (wrap 32 t).
End sum12.
