(* ===== verification/SumKey.v ===== *)
(** * The tree of the MMM sum scheme
    ([chain-crypto/src/algorithms/sumed25519/sumrec.rs])

    [sumrec.rs] defines the scheme by recursion on the tree; here are its
    [keygen] and what the buffers of [sum.rs] hold as functions of the master
    seed and of the period: the leaf, the nodes on the path to it, the seeds of
    the subtrees still to come.  [tree_step] is what one [update] has to do:
    expand the last pending seed into the subtree that starts at the next
    period.  The second part is the layout of the buffer of a secret key at a
    period, its accessors and their effects.  [SumSpec] proves that the buffers
    follow the tree. *)
From S2P Require Import Prelude Bitmap Codec Sum.
Local Open Scope Z_scope.

(** ** Bits of a period *)
Section bits.
Implicit Types (d : nat) (t : Z).

Lemma testbit_small t i : 0 ≤ t < 2 ^ i → Z.testbit t i = false.
Proof.
  intros Ht. assert (0 ≤ i) by (destruct (Z.lt_ge_cases i 0); [rewrite Z.pow_neg_r in Ht by lia; lia|done]).
  destruct (decide (t = 0)) as [->|]; [apply Z.testbit_0_l|].
  apply Z.bits_above_log2; [lia|]. apply Z.log2_lt_pow2; lia.
Qed.

Lemma land_pow2 t i : 0 ≤ t < 2 ^ i → Z.land t (2 ^ i) = 0.
Proof.
  intros Ht. assert (0 ≤ i) by (destruct (Z.lt_ge_cases i 0); [rewrite Z.pow_neg_r in Ht by lia; lia|done]).
  apply Z.bits_inj'. intros n Hn. rewrite Z.land_spec, Z.pow2_bits_eqb, Z.bits_0 by done.
  destruct (Z.eqb_spec i n) as [->|]; [by rewrite testbit_small|apply andb_false_r].
Qed.

Lemma add_pow2_lxor t i : 0 ≤ t < 2 ^ i → t + 2 ^ i = Z.lxor t (2 ^ i).
Proof. intros. apply Z.add_nocarry_lxor. by apply land_pow2. Qed.

Lemma testbit_add_pow2 t i n :
  0 ≤ t < 2 ^ i → 0 ≤ n → Z.testbit (t + 2 ^ i) n = Z.testbit t n || bool_decide (n = i).
Proof.
  intros Ht Hn. assert (0 ≤ i) by (destruct (Z.lt_ge_cases i 0); [rewrite Z.pow_neg_r in Ht by lia; lia|done]).
  rewrite add_pow2_lxor, Z.lxor_spec, Z.pow2_bits_eqb by done.
  destruct (Z.eqb_spec i n) as [->|].
  - rewrite testbit_small, bool_decide_true by done. done.
  - rewrite bool_decide_false by done. by rewrite xorb_false_r, orb_false_r.
Qed.

Lemma count_ones64_add d t :
  0 ≤ t < 2 ^ Z.of_nat d → (d < 64)%nat →
  count_ones64 (t + 2 ^ Z.of_nat d) = S (count_ones64 t).
Proof.
  intros Ht Hd. unfold count_ones64, popcount.
  rewrite (rank_insert (bit t) _ d).
  - rewrite decide_True by done. lia.
  - by apply testbit_small.
  - intros j Hj. unfold bit. rewrite testbit_add_pow2 by lia. f_equal.
    repeat case_bool_decide; lia || done.
Qed.

Lemma count_ones64_pred d : (d ≤ 64)%nat → count_ones64 (2 ^ Z.of_nat d - 1) = d.
Proof.
  induction d as [|d IH]; intros Hd; [done|].
  rewrite Nat2Z.inj_succ, Z.pow_succ_r by lia.
  replace (2 * 2 ^ Z.of_nat d - 1) with (2 ^ Z.of_nat d - 1 + 2 ^ Z.of_nat d) by lia.
  rewrite count_ones64_add by lia. rewrite IH; lia.
Qed.

(** The number of levels that change between two periods. *)
Definition levels (t : Z) : nat := count_ones64 (Z.lxor t (t + 1)).

Lemma levels_last d : (d < 64)%nat → levels (2 ^ Z.of_nat d - 1) = S d.
Proof.
  intros Hd. unfold levels. replace (2 ^ Z.of_nat d - 1 + 1) with (2 ^ Z.of_nat d) by lia.
  rewrite <-add_pow2_lxor by lia.
  replace (2 ^ Z.of_nat d - 1 + 2 ^ Z.of_nat d) with (2 ^ Z.of_nat (S d) - 1).
  - apply count_ones64_pred. lia.
  - rewrite Nat2Z.inj_succ, Z.pow_succ_r by lia. lia.
Qed.

Lemma levels_add d t :
  0 ≤ t → t + 1 < 2 ^ Z.of_nat d → levels (t + 2 ^ Z.of_nat d) = levels t.
Proof.
  intros Ht Hd. unfold levels. f_equal.
  replace (t + 2 ^ Z.of_nat d + 1) with (t + 1 + 2 ^ Z.of_nat d) by lia.
  rewrite !add_pow2_lxor by lia. rewrite !Z.lxor_assoc, (Z.lxor_comm (2 ^ _) (Z.lxor _ _)).
  by rewrite !Z.lxor_assoc, Z.lxor_nilpotent, Z.lxor_0_r.
Qed.

Lemma levels_bounds d t : 0 ≤ t → t + 1 < 2 ^ Z.of_nat d → (d < 64)%nat →
  (1 ≤ levels t ≤ d)%nat.
Proof.
  revert t. induction d as [|d IH]; intros t Ht Hd H64; [cbn in Hd; lia|].
  rewrite Nat2Z.inj_succ, Z.pow_succ_r in Hd by lia.
  destruct (Z.lt_trichotomy (t + 1) (2 ^ Z.of_nat d)) as [Hlt|[Heq|Hgt]].
  - specialize (IH t). lia.
  - replace t with (2 ^ Z.of_nat d - 1) by lia. rewrite levels_last by lia. lia.
  - replace t with (t - 2 ^ Z.of_nat d + 2 ^ Z.of_nat d) by lia. rewrite levels_add by lia.
    specialize (IH (t - 2 ^ Z.of_nat d)). lia.
Qed.
End bits.

(** ** The tree *)
Section tree.
Context `{Ed25519}.
Implicit Types (d : nat) (s : Seed) (t : Z).

Definition left_seed s : Seed := sha256 (1 :: s).
Definition right_seed s : Seed := sha256 (2 :: s).

(** The secret of a leaf; total because every 32 bytes are a secret. *)
Definition leaf_key s : option Keypair :=
  (λ sk, (sk, ed_public_of_secret sk)) <$> ed_secret_from_bytes s.
Definition leaf_public s : SumPublicKey :=
  from_option (λ kp, from_ed25519_publickey kp.2) [] (leaf_key s).

(** [sumrec::keygen(..).1]: the public key of a subtree. *)
Fixpoint root d s : SumPublicKey :=
  match d with
  | O => leaf_public s
  | S d => sum_hash (root d (left_seed s)) (root d (right_seed s))
  end.

(** The seed of the leaf of period [t]. *)
Fixpoint leaf d s t : Seed :=
  match d with
  | O => s
  | S d => if decide (t < 2 ^ Z.of_nat d) then leaf d (left_seed s) t
           else leaf d (right_seed s) (t - 2 ^ Z.of_nat d)
  end.

(** The two children of each node on the path, from the root down. *)
Fixpoint path d s t : list (SumPublicKey * SumPublicKey) :=
  match d with
  | O => []
  | S d => (root d (left_seed s), root d (right_seed s)) ::
      if decide (t < 2 ^ Z.of_nat d) then path d (left_seed s) t
      else path d (right_seed s) (t - 2 ^ Z.of_nat d)
  end.

(** The seeds of the right subtrees not entered yet, from the root down. *)
Fixpoint pending d s t : list Seed :=
  match d with
  | O => []
  | S d => if decide (t < 2 ^ Z.of_nat d) then right_seed s :: pending d (left_seed s) t
           else pending d (right_seed s) (t - 2 ^ Z.of_nat d)
  end.

(** The siblings on the path, from the root down: what a signature carries. *)
Fixpoint siblings d s t : list SumPublicKey :=
  match d with
  | O => []
  | S d => if decide (t < 2 ^ Z.of_nat d)
           then root d (right_seed s) :: siblings d (left_seed s) t
           else root d (left_seed s) :: siblings d (right_seed s) (t - 2 ^ Z.of_nat d)
  end.

Lemma pow2_S d : 2 ^ Z.of_nat (S d) = 2 ^ Z.of_nat d + 2 ^ Z.of_nat d.
Proof. rewrite Nat2Z.inj_succ, Z.pow_succ_r by lia. lia. Qed.

Lemma length_path d s t : length (path d s t) = d.
Proof. revert s t. induction d; intros; cbn; [done|]. case_decide; cbn; f_equal; auto. Qed.

Lemma length_siblings d s t : length (siblings d s t) = d.
Proof. revert s t. induction d; intros; cbn; [done|]. case_decide; cbn; f_equal; auto. Qed.

Lemma length_pending d s t :
  (d < 64)%nat → 0 ≤ t < 2 ^ Z.of_nat d → (length (pending d s t) + count_ones64 t)%nat = d.
Proof.
  revert s t. induction d as [|d IH]; intros s t Hd Ht.
  - assert (t = 0) as -> by (cbn in Ht; lia). done.
  - rewrite pow2_S in Ht. cbn [pending]. case_decide as Hlt.
    + cbn [length]. specialize (IH (left_seed s) t). lia.
    + replace t with (t - 2 ^ Z.of_nat d + 2 ^ Z.of_nat d) at 2 by lia.
      rewrite count_ones64_add by lia. specialize (IH (right_seed s) (t - 2 ^ Z.of_nat d)). lia.
Qed.

Lemma pending_last d s : pending d s (2 ^ Z.of_nat d - 1) = [].
Proof.
  revert s. induction d as [|d IH]; intros s; [done|]. rewrite pow2_S. cbn [pending].
  rewrite decide_False by lia. replace (2 ^ Z.of_nat d + 2 ^ Z.of_nat d - 1 - 2 ^ Z.of_nat d)
    with (2 ^ Z.of_nat d - 1) by lia. apply IH.
Qed.

(** What [update] has to compute from period [t] to [t + 1]: the last pending
    seed is that of the subtree of [levels t - 1] levels entered next. *)
Lemma tree_step d s t :
  0 ≤ t → t + 1 < 2 ^ Z.of_nat d → (d < 64)%nat →
  let k := (levels t - 1)%nat in
  ∃ rs seed, pending d s t = rs ++ [seed]
    ∧ pending d s (t + 1) = rs ++ pending k seed 0
    ∧ path d s (t + 1) = take (d - k) (path d s t) ++ path k seed 0
    ∧ leaf d s (t + 1) = leaf k seed 0
    ∧ snd <$> path d s t !! (d - levels t)%nat = Some (root k seed).
Proof.
  revert s t. induction d as [|d IH]; intros s t Ht Hd H64; [cbn in Hd; lia|].
  rewrite pow2_S in Hd. cbn zeta.
  destruct (Z.lt_trichotomy (t + 1) (2 ^ Z.of_nat d)) as [Hlt|[Heq|Hgt]].
  - pose proof (levels_bounds d t Ht Hlt ltac:(lia)) as Hk.
    destruct (IH (left_seed s) t Ht Hlt ltac:(lia)) as (rs & seed & H1 & H2 & H3 & H4 & H5).
    exists (right_seed s :: rs), seed. cbn [pending path leaf].
    repeat (case_decide; try (exfalso; lia)). rewrite H1, H2, H3, H4.
    rewrite (Nat.sub_succ_l (levels t - 1)), (Nat.sub_succ_l (levels t)) by lia. by split_and!.
  - assert (t = 2 ^ Z.of_nat d - 1) as -> by lia. rewrite levels_last by lia.
    exists [], (right_seed s). cbn [pending path leaf].
    repeat (case_decide; try (exfalso; lia)). rewrite pending_last.
    replace (2 ^ Z.of_nat d - 1 + 1 - 2 ^ Z.of_nat d) with 0 by lia.
    replace (S d - 1)%nat with d by lia. rewrite Nat.sub_diag, Nat.sub_succ_l, Nat.sub_diag by lia.
    by split_and!.
  - set (u := t - 2 ^ Z.of_nat d).
    assert (levels t = levels u) as -> by (unfold u; rewrite <-(levels_add d (t - 2 ^ Z.of_nat d)) by lia; f_equal; lia).
    pose proof (levels_bounds d u ltac:(lia) ltac:(lia) ltac:(lia)) as Hk.
    destruct (IH (right_seed s) u ltac:(lia) ltac:(lia) ltac:(lia)) as (rs & seed & H1 & H2 & H3 & H4 & H5).
    exists rs, seed. cbn [pending path leaf]. repeat (case_decide; try (exfalso; lia)).
    replace (t + 1 - 2 ^ Z.of_nat d) with (u + 1) by lia. fold u. rewrite H1, H2, H3, H4.
    rewrite (Nat.sub_succ_l (levels u - 1)), (Nat.sub_succ_l (levels u)) by lia. by split_and!.
Qed.

(** ** The climb from the leaf to the root *)
Definition climb_siblings (t : Z) (pk : SumPublicKey) (l : list SumPublicKey) : SumPublicKey :=
  (foldl (λ c p, climb t c p p) (0%nat, pk) l).2.

Lemma climb_index {A} (f : A → SumPublicKey * SumPublicKey) t (l : list A) i pk :
  (foldl (λ c p, climb t c (f p).1 (f p).2) (i, pk) l).1 = (i + length l)%nat.
Proof. revert i pk. induction l as [|p l IH]; intros; cbn; [lia|]. rewrite IH. lia. Qed.

Lemma climb_app {A} (f : A → SumPublicKey * SumPublicKey) t (l : list A) p pk :
  (foldl (λ c p, climb t c (f p).1 (f p).2) (0%nat, pk) (l ++ [p])).2 =
  let got := (foldl (λ c p, climb t c (f p).1 (f p).2) (0%nat, pk) l).2 in
  if Z.testbit t (Z.of_nat (length l)) then sum_hash (f p).1 got else sum_hash got (f p).2.
Proof.
  rewrite foldl_app. pose proof (climb_index f t l 0 pk) as Hi.
  destruct (foldl _ _ l) as [i got]. cbn in *. by rewrite Hi.
Qed.

(** Bit [d] of a period tells the two halves of a tree of depth [d + 1]. *)
Lemma testbit_mod T d t :
  T `mod` 2 ^ Z.of_nat (S d) = t → Z.testbit T (Z.of_nat d) = bool_decide (2 ^ Z.of_nat d ≤ t).
Proof.
  intros <-. rewrite <-(Z.mod_pow2_bits_low T (Z.of_nat (S d))) by lia.
  set (t := T `mod` 2 ^ Z.of_nat (S d)).
  assert (0 ≤ t < 2 ^ Z.of_nat (S d)) as Ht by (apply Z.mod_pos_bound; lia).
  rewrite pow2_S in Ht. case_bool_decide as Hle.
  - replace t with (t - 2 ^ Z.of_nat d + 2 ^ Z.of_nat d) by lia.
    rewrite testbit_add_pow2 by lia. rewrite bool_decide_true by done. apply orb_true_r.
  - apply testbit_small. lia.
Qed.

Lemma mod_pow2_down T d t :
  T `mod` 2 ^ Z.of_nat (S d) = t →
  T `mod` 2 ^ Z.of_nat d = if decide (t < 2 ^ Z.of_nat d) then t else t - 2 ^ Z.of_nat d.
Proof.
  intros <-. assert (0 < 2 ^ Z.of_nat d) by lia.
  pose proof (Z.mod_pos_bound T (2 ^ Z.of_nat (S d)) ltac:(lia)) as Ht.
  rewrite pow2_S in *. set (p := 2 ^ Z.of_nat d) in *.
  rewrite (Z.div_mod T (p + p)) at 1 by lia.
  set (t := T `mod` (p + p)) in *. set (q := T `div` (p + p)).
  replace ((p + p) * q + t) with (t + (2 * q) * p) by lia. rewrite Z.mod_add by lia.
  case_decide; [by apply Z.mod_small; lia|].
  rewrite <-(Z.mod_small (t - p) p) by lia. symmetry.
  replace t with (t - p + 1 * p) at 2 by lia. by rewrite Z.mod_add by lia.
Qed.

(** The climb over the path, whatever list of pairs shows the siblings on
    the sides that it looks at, ends at the root. *)
Lemma climb_root {A} (f : A → SumPublicKey * SumPublicKey) (g : nat → Seed → Z → list A) :
  (∀ s t, g 0%nat s t = []) →
  (∀ d s t, ∃ p, g (S d) s t = p :: (if decide (t < 2 ^ Z.of_nat d) then g d (left_seed s) t
                                     else g d (right_seed s) (t - 2 ^ Z.of_nat d))
     ∧ (t < 2 ^ Z.of_nat d → (f p).2 = root d (right_seed s))
     ∧ (2 ^ Z.of_nat d ≤ t → (f p).1 = root d (left_seed s))) →
  ∀ d s t T, T `mod` 2 ^ Z.of_nat d = t →
    (foldl (λ c p, climb T c (f p).1 (f p).2) (0%nat, leaf_public (leaf d s t))
       (reverse (g d s t))).2 = root d s.
Proof.
  intros H0 HS d. induction d as [|d IH]; intros s t T HT; [by rewrite H0|].
  assert (∀ s t, length (g d s t) = d) as Hlen.
  { clear -H0 HS. induction d as [|d IH]; intros s t; [by rewrite H0|].
    destruct (HS d s t) as (p & -> & _). cbn. case_decide; by rewrite IH. }
  destruct (HS d s t) as (p & -> & Hr & Hl). rewrite reverse_cons, climb_app. cbn zeta.
  rewrite length_reverse. pose proof (mod_pow2_down T d t HT) as Hdown.
  pose proof (testbit_mod T d t HT) as Hbit. cbn [leaf root].
  case_decide as Hlt; rewrite Hlen, Hbit.
  - rewrite bool_decide_false, IH, Hr by (done || lia). done.
  - rewrite bool_decide_true, IH, Hl by (done || lia). done.
Qed.

Lemma climb_path d s t T :
  T `mod` 2 ^ Z.of_nat d = t →
  (foldl (λ c p, climb T c p.1 p.2) (0%nat, leaf_public (leaf d s t)) (reverse (path d s t))).2
  = root d s.
Proof.
  apply (climb_root id path); [done|]. intros d' s' t'. eexists. split; [done|]. done.
Qed.

Lemma climb_siblings_root d s t T :
  T `mod` 2 ^ Z.of_nat d = t →
  climb_siblings T (leaf_public (leaf d s t)) (reverse (siblings d s t)) = root d s.
Proof.
  apply (climb_root (λ p, (p, p)) siblings); [done|]. intros d' s' t'. cbn [siblings].
  case_decide; eexists; (split; [done|]); split; intros; cbn; done || lia.
Qed.

(** Two climbs of the same length at the same period that reach the same root
    start at the same key, or show a collision of SHA-256. *)
Definition sha256_collision : Prop := ∃ x y, x ≠ y ∧ sha256 x = sha256 y.

Lemma climb_siblings_app T l p pk :
  climb_siblings T pk (l ++ [p]) =
  let got := climb_siblings T pk l in
  if Z.testbit T (Z.of_nat (length l)) then sum_hash p got else sum_hash got p.
Proof. exact (climb_app (λ p, (p, p)) T l p pk). Qed.

Lemma climb_binding T l1 l2 pk1 pk2 :
  length l1 = length l2 → length pk1 = 32%nat → length pk2 = 32%nat →
  Forall (λ l, length l = 32%nat) l1 → Forall (λ l, length l = 32%nat) l2 →
  climb_siblings T pk1 l1 = climb_siblings T pk2 l2 → pk1 = pk2 ∨ sha256_collision.
Proof.
  intros Hlen H1 H2 Hl1 Hl2. revert l2 Hlen Hl2.
  induction l1 as [|p1 l1 IH] using rev_ind; intros l2 Hlen Hl2 Heq.
  { destruct l2; [by left|done]. }
  destruct l2 as [|p2 l2 _] using rev_ind; [rewrite length_app in Hlen; cbn in Hlen; lia|].
  rewrite !length_app in Hlen. cbn in Hlen.
  apply Forall_app in Hl1 as [Hl1 Hp1%Forall_inv]. apply Forall_app in Hl2 as [Hl2 Hp2%Forall_inv].
  rewrite !climb_siblings_app in Heq. cbn zeta in Heq.
  replace (length l2) with (length l1) in Heq by lia.
  specialize (IH Hl1 l2 ltac:(lia) Hl2).
  set (g1 := climb_siblings T pk1 l1) in *. set (g2 := climb_siblings T pk2 l2) in *.
  assert (g1 = g2 ∨ sha256_collision) as [Hg|]; [|by apply IH|by right].
  unfold sum_hash in Heq. case_match.
  - destruct (decide (p1 ++ g1 = p2 ++ g2)) as [Happ|]; [|by right; exists (p1 ++ g1), (p2 ++ g2)].
    left. apply app_inj_1 in Happ as [_ ?]; [done|congruence].
  - destruct (decide (g1 ++ p1 = g2 ++ p2)) as [Happ|]; [|by right; exists (g1 ++ p1), (g2 ++ p2)].
    left. apply app_inj_2 in Happ as [? _]; [done|congruence].
Qed.
End tree.

(** * The buffer of a secret key of the MMM sum scheme
    ([chain-crypto/src/algorithms/sumed25519/sum.rs])

    [sk_layout d t kp pks rs] is the buffer of a key of depth [d] at period [t]:
    the period, the key pair of the leaf, the pairs of public keys of the path
    and the stack of pending seeds, the rest zeroed.  Each accessor and each
    in-place modification of [Sum] acts on the layout as on a record. *)
Local Open Scope Z_scope.

Section layout.
Context `{Ed25519Laws} {E : Type}.
Set Default Proof Using "Type*".
Implicit Types (d : nat) (t : Z) (kp : Keypair) (pks : list (SumPublicKey * SumPublicKey)).
Implicit Types (rs : list (list Z)).

Definition pair_bytes (p : SumPublicKey * SumPublicKey) : list Z := p.1 ++ p.2.
Definition pair_ok (p : SumPublicKey * SumPublicKey) : Prop :=
  length p.1 = 32%nat ∧ length p.2 = 32%nat.
Definition seed_ok (s : list Z) : Prop := length s = 32%nat.

Definition sk_layout d t kp pks rs : SumSecretKey := mkSumSecretKey d
  (le_bytes 4 t ++ keypair_to_bytes kp ++ concat (pair_bytes <$> pks) ++ concat rs
   ++ replicate ((d - length rs) * 32) 0).

Definition layout_ok d t pks rs : Prop :=
  in_u 32 t ∧ length pks = d ∧ Forall pair_ok pks ∧ Forall seed_ok rs ∧ (length rs ≤ d)%nat.

Lemma length_le_bytes n v : length (le_bytes n v) = n.
Proof. unfold le_bytes. by rewrite length_reverse, length_be_bytes. Qed.

Lemma length_pairs pks : Forall pair_ok pks → length (concat (pair_bytes <$> pks)) = (length pks * 64)%nat.
Proof.
  intros Hp. rewrite (length_concat_same 64), length_fmap; [done|]. apply Forall_fmap.
  eapply Forall_impl; [exact Hp|]. intros p [H1 H2]. unfold pair_bytes. cbn. rewrite length_app. lia.
Qed.
Lemma length_seeds rs : Forall seed_ok rs → length (concat rs) = (length rs * 32)%nat.
Proof. apply length_concat_same. Qed.

Lemma depth_total_pow d : (d < 64)%nat → depth_total d = 2 ^ Z.of_nat d.
Proof.
  intros. apply wrap_small. split; [lia|]. apply Z.pow_lt_mono_r; lia.
Qed.

(** ** The iterators, forwards and backwards *)
Lemma buffer_collect_fuel {A} (next : list Z → outcome E (option (A * list Z))) fuel fuel' data l :
  buffer_collect next fuel data = Ok l → (fuel ≤ fuel')%nat → buffer_collect next fuel' data = Ok l.
Proof.
  revert fuel' data l. induction fuel as [|fuel IH]; intros fuel' data l Hl Hle; [done|].
  destruct fuel' as [|fuel']; [lia|]. cbn in *. destruct (next data) as [[[a rest]|]| |]; cbn in *; try done.
  apply bind_Ok in Hl as (l' & Hl' & [= <-]). by rewrite (IH fuel' rest l' Hl') by lia.
Qed.

Lemma buffer_collect_S {A} (next : list Z → outcome E (option (A * list Z))) fuel data a rest l :
  next data = Ok (Some (a, rest)) → buffer_collect next fuel rest = Ok l →
  buffer_collect next (S fuel) data = Ok (a :: l).
Proof. intros Hn Hl. cbn. rewrite Hn. cbn. by rewrite Hl. Qed.

Lemma merkle_next_cons p pks :
  Forall pair_ok (p :: pks) →
  merkle_next (E := E) (concat (pair_bytes <$> p :: pks)) = Ok (Some (p, concat (pair_bytes <$> pks))).
Proof.
  intros [[H1 H2] Hp]%Forall_cons. destruct p as [l r]. cbn [fmap list_fmap concat].
  unfold pair_bytes at 1 3. cbn [fst snd] in *. rewrite <-!app_assoc.
  unfold merkle_next. destruct l as [|x l]; [done|]. cbn [app].
  change (x :: l ++ ?y) with ((x :: l) ++ y). set (l' := x :: l) in *. clearbody l'.
  rewrite slice_range_head by done. cbn.
  rewrite slice_range_mid by (rewrite ?H1, ?H2; done). cbn.
  rewrite app_assoc, slice_from_app by (rewrite length_app, H1, H2; done). cbn.
  unfold merkle_new. rewrite length_pairs by done.
  change (SUM_PUBLIC_KEY_SIZE * 2)%nat with 64%nat. by rewrite Nat.Div0.mod_mul.
Qed.

Lemma collect_merkle_next pks :
  Forall pair_ok pks → collect (E := E) merkle_next (concat (pair_bytes <$> pks)) = Ok pks.
Proof.
  intros Hp. unfold collect. apply (buffer_collect_fuel _ (S (length pks))).
  - induction Hp as [|p pks Hp Hps IH]; [done|].
    apply (buffer_collect_S _ _ _ _ _ _ (merkle_next_cons _ _ (Forall_cons_2 _ _ _ Hp Hps)) IH).
  - rewrite length_pairs by done. lia.
Qed.

Lemma merkle_next_back_snoc p pks :
  Forall pair_ok (pks ++ [p]) →
  merkle_next_back (E := E) (concat (pair_bytes <$> pks ++ [p]))
  = Ok (Some (p, concat (pair_bytes <$> pks))).
Proof.
  intros [Hp [H1 H2]%Forall_inv]%Forall_app. destruct p as [l r]. cbn [fst snd] in *.
  rewrite fmap_app, concat_app. cbn [fmap list_fmap concat]. rewrite app_nil_r.
  unfold pair_bytes at 2. cbn [fst snd]. set (c := concat _).
  assert (length (c ++ l ++ r) = (length c + 64)%nat) as Hlen by (rewrite !length_app; lia).
  unfold merkle_next_back. rewrite Hlen.
  replace (length c + 64 - SUM_PUBLIC_KEY_SIZE * 2)%nat with (length c) by (cbn; lia).
  destruct (c ++ l ++ r) as [|x xs] eqn:Hxs; [cbn in Hlen; lia|]. rewrite <-Hxs.
  unfold SUM_PUBLIC_KEY_SIZE.
  rewrite (slice_range_mid c l r (length c) (length c + 32)) by (rewrite ?H1; done).
  cbn [mbind outcome_bind]. rewrite (slice_range_head c (l ++ r)) by done.
  rewrite app_assoc, slice_range_tail by (rewrite ?length_app, ?H1, ?H2; lia).
  cbn [mbind outcome_bind].
  unfold merkle_new, c. rewrite length_pairs by done.
  change (SUM_PUBLIC_KEY_SIZE * 2)%nat with 64%nat. by rewrite Nat.Div0.mod_mul.
Qed.

Lemma collect_merkle_next_back pks :
  Forall pair_ok pks →
  collect (E := E) merkle_next_back (concat (pair_bytes <$> pks)) = Ok (reverse pks).
Proof.
  intros Hp. unfold collect. apply (buffer_collect_fuel _ (S (length pks))).
  - induction pks as [|p pks IH] using rev_ind; [done|]. rewrite length_app, Nat.add_1_r.
    rewrite reverse_snoc. apply (buffer_collect_S _ _ _ _ _ _ (merkle_next_back_snoc _ _ Hp)).
    apply IH. by apply Forall_app in Hp as [Hp _].
  - rewrite length_pairs by done. lia.
Qed.

Lemma sig_pks_next_back_snoc p (pks : list (list Z)) :
  Forall seed_ok (pks ++ [p]) →
  sig_pks_next_back (E := E) (concat (pks ++ [p])) = Ok (Some (p, concat pks)).
Proof.
  intros [Hp H1%Forall_inv]%Forall_app. unfold seed_ok in H1.
  rewrite concat_app. cbn [concat]. rewrite app_nil_r. set (c := concat pks).
  assert (length (c ++ p) = (length c + 32)%nat) as Hlen by (rewrite length_app; lia).
  unfold sig_pks_next_back. rewrite Hlen.
  replace (length c + 32 - SUM_PUBLIC_KEY_SIZE)%nat with (length c) by (unfold SUM_PUBLIC_KEY_SIZE; lia).
  destruct (c ++ p) as [|x xs] eqn:Hxs; [cbn in Hlen; lia|]. rewrite <-Hxs.
  rewrite slice_from_app by done. cbn. by rewrite slice_range_head.
Qed.

Lemma collect_sig_pks_next_back (pks : list (list Z)) :
  Forall seed_ok pks → collect (E := E) sig_pks_next_back (concat pks) = Ok (reverse pks).
Proof.
  intros Hp. unfold collect. apply (buffer_collect_fuel _ (S (length pks))).
  - induction pks as [|p pks IH] using rev_ind; [done|]. rewrite length_app, Nat.add_1_r.
    rewrite reverse_snoc. apply (buffer_collect_S _ _ _ _ _ _ (sig_pks_next_back_snoc _ _ Hp)).
    apply IH. by apply Forall_app in Hp as [Hp _].
  - rewrite length_seeds by done. lia.
Qed.

(** ** Accessors *)
Lemma layout_t d t kp pks rs : layout_ok d t pks rs → sk_t (E := E) (sk_layout d t kp pks rs) = Ok t.
Proof.
  intros (Ht & _). unfold sk_t, sk_layout. cbn [sk_data].
  rewrite slice_range_head by (by rewrite length_le_bytes). cbn [mbind outcome_bind].
  by rewrite from_le_bytes.
Qed.

Lemma layout_sk d t kp pks rs : sk_sk (E := E) (sk_layout d t kp pks rs) = Ok kp.
Proof.
  unfold sk_sk, sk_layout. cbn [sk_data].
  rewrite slice_range_mid by (rewrite length_le_bytes, ?keypair_bytes_64; done). cbn.
  by rewrite keypair_roundtrip.
Qed.

Lemma layout_merkle d t kp pks rs :
  layout_ok d t pks rs → merkle_bytes (E := E) (sk_layout d t kp pks rs) = Ok (concat (pair_bytes <$> pks)).
Proof.
  intros (_ & Hd & Hp & _). unfold merkle_bytes, sk_layout. cbn [sk_data sk_depth].
  rewrite (app_assoc (le_bytes 4 t)). apply slice_range_mid;
    rewrite length_app, length_le_bytes, keypair_bytes_64; [done|].
  rewrite length_pairs, Hd by done. unfold seed_offset, MERKLE_PKS_OFFSET, KEYPAIR_OFFSET, SUM_PUBLIC_KEY_SIZE. cbn -[Nat.mul]. lia.
Qed.

Lemma layout_merkle_pks d t kp pks rs :
  layout_ok d t pks rs → merkle_pks (E := E) (sk_layout d t kp pks rs) = Ok (concat (pair_bytes <$> pks)).
Proof.
  intros Hok. unfold merkle_pks. rewrite layout_merkle by done. cbn [mbind outcome_bind].
  destruct Hok as (_ & _ & Hp & _). unfold merkle_new. rewrite length_pairs by done.
  change (SUM_PUBLIC_KEY_SIZE * 2)%nat with 64%nat. by rewrite Nat.Div0.mod_mul.
Qed.

(** The seeds of a layout whose stack has the length that the period says. *)
Definition rs_exact d t rs : Prop := (length rs + count_ones64 t = d)%nat.

Lemma rs_from_period_spec d t n :
  (d ≤ 32)%nat → (n + count_ones64 t = d)%nat → rs_from_period d t = Z.of_nat n.
Proof.
  intros Hd Hn. unfold rs_from_period. rewrite depth_total_pow by lia.
  rewrite count_ones64_pred by lia. rewrite wrap_small; unfold in_u; lia.
Qed.

Lemma layout_rs_len d t kp pks rs n :
  (d ≤ 32)%nat → layout_ok d t pks rs → (n + count_ones64 t = d)%nat →
  rs_len (E := E) (sk_layout d t kp pks rs) = Ok (Z.of_nat n).
Proof.
  intros Hd Hok Hex. unfold rs_len. rewrite layout_t by done. cbn [mbind outcome_bind sk_depth sk_layout].
  by rewrite (rs_from_period_spec d t n).
Qed.

Lemma layout_rs d t kp pks rs :
  (d ≤ 32)%nat → layout_ok d t pks rs → rs_exact d t rs →
  sk_rs (E := E) (sk_layout d t kp pks rs) = Ok (concat rs).
Proof.
  intros Hd Hok Hex. unfold sk_rs. rewrite (layout_rs_len _ _ _ _ _ (length rs)) by done. cbn [mbind outcome_bind].
  destruct Hok as (_ & Hl & Hp & Hs & _). unfold sk_layout. cbn [sk_data sk_depth].
  rewrite (app_assoc (le_bytes 4 t)), (app_assoc (_ ++ _) (concat (_ <$> _))).
  assert (length ((le_bytes 4 t ++ keypair_to_bytes kp) ++ concat (pair_bytes <$> pks)) = seed_offset d)
    as Hoff.
  { rewrite !length_app, length_le_bytes, keypair_bytes_64, length_pairs by done.
    unfold seed_offset, MERKLE_PKS_OFFSET, KEYPAIR_OFFSET, SUM_PUBLIC_KEY_SIZE. cbn -[Nat.mul]. lia. }
  apply slice_range_mid; [done|]. rewrite Hoff, length_seeds, Nat2Z.id by done. done.
Qed.

(** ** In-place modifications *)
Lemma layout_set_t d t kp pks rs t' :
  in_u 32 t' → set_t (E := E) (sk_layout d t kp pks rs) t' = Ok (sk_layout d t' kp pks rs).
Proof.
  intros Ht. unfold set_t, sk_layout. cbn [sk_data sk_depth]. rewrite wrap_small by done.
  by rewrite write_range_head by (by rewrite ?length_le_bytes).
Qed.

Lemma layout_set_sk d t kp pks rs kp' :
  set_sk (E := E) (sk_layout d t kp pks rs) kp' = Ok (sk_layout d t kp' pks rs).
Proof.
  unfold set_sk, sk_layout. cbn [sk_data sk_depth].
  by rewrite write_range_mid by (by rewrite ?length_le_bytes, ?keypair_bytes_64).
Qed.

Lemma pairs_split pks n p :
  Forall pair_ok pks → pks !! n = Some p →
  ∃ pre post, concat (pair_bytes <$> pks) = pre ++ p.1 ++ p.2 ++ post ∧ length pre = (n * 64)%nat ∧
    ∀ q, concat (pair_bytes <$> <[n := q]> pks) = pre ++ q.1 ++ q.2 ++ post.
Proof.
  intros Hp Hn. exists (concat (pair_bytes <$> take n pks)), (concat (pair_bytes <$> drop (S n) pks)).
  pose proof (lookup_lt_Some _ _ _ Hn). split_and!.
  - rewrite <-(take_drop_middle pks n p Hn) at 1. rewrite fmap_app, concat_app. cbn.
    unfold pair_bytes at 2. by rewrite <-!app_assoc.
  - rewrite length_pairs by (by apply Forall_take). rewrite length_take. lia.
  - intros q. rewrite insert_take_drop by done. rewrite fmap_app, concat_app. cbn.
    unfold pair_bytes at 2. by rewrite <-!app_assoc.
Qed.

Lemma layout_get_merkle d t kp pks rs n p :
  layout_ok d t pks rs → pks !! n = Some p →
  get_merkle_pks (E := E) (sk_layout d t kp pks rs) n = Ok p.
Proof.
  intros Hok Hn. unfold get_merkle_pks. rewrite layout_merkle by done. cbn [mbind outcome_bind].
  destruct Hok as (_ & Hd & Hp & _). destruct (pairs_split pks n p Hp Hn) as (pre & post & -> & Hpre & _).
  rewrite Forall_lookup in Hp. destruct (Hp n p Hn) as [H1 H2].
  unfold SUM_PUBLIC_KEY_SIZE. rewrite (slice_range_mid pre p.1 (p.2 ++ post) (n * 32 * 2)) by (rewrite ?H1, ?Hpre; lia). cbn [mbind outcome_bind].
  rewrite app_assoc, slice_range_mid
    by (rewrite ?length_app, ?H1, ?H2, ?Hpre; lia).
  by destruct p.
Qed.

Lemma layout_set_merkle d t kp pks rs n q :
  layout_ok d t pks rs → (n < d)%nat → pair_ok q →
  set_merkle_pks (E := E) (sk_layout d t kp pks rs) n q = Ok (sk_layout d t kp (<[n := q]> pks) rs).
Proof.
  intros Hok Hn [Hq1 Hq2]. unfold set_merkle_pks. rewrite layout_merkle by done. cbn [mbind outcome_bind].
  destruct Hok as (_ & Hd & Hp & _).
  destruct (lookup_lt_is_Some_2 pks n) as [p Hpn]; [lia|].
  pose proof (length_pairs pks Hp) as Hlp.
  destruct (pairs_split pks n p Hp Hpn) as (pre & post & Heq & Hpre & Hins).
  rewrite Forall_lookup in Hp. destruct (Hp n p Hpn) as [H1 H2].
  unfold SUM_PUBLIC_KEY_SIZE. rewrite Heq.
  rewrite write_range_mid by (rewrite ?H1, ?Hpre, ?Hq1; lia). cbn [mbind outcome_bind].
  rewrite (app_assoc pre), write_range_mid by (rewrite ?length_app, ?Hq1, ?H2, ?Hpre, ?Hq2; lia).
  cbn [mbind outcome_bind]. unfold sk_layout. cbn [sk_data sk_depth].
  rewrite (app_assoc (le_bytes 4 t)).
  rewrite write_range_mid; cbn; [by rewrite Hins, <-!app_assoc|..];
    rewrite ?length_app, ?length_le_bytes, ?keypair_bytes_64, ?Hlp; try done.
  - unfold seed_offset, MERKLE_PKS_OFFSET, KEYPAIR_OFFSET, SUM_PUBLIC_KEY_SIZE. cbn -[Nat.mul]. lia.
  - rewrite <-Hlp, Heq, !length_app. lia.
Qed.

Lemma replicate_split_32 n : (0 < n)%nat → replicate (n * 32) 0 = replicate 32 0 ++ replicate ((n - 1) * 32) 0.
Proof. intros. rewrite <-replicate_add. f_equal. lia. Qed.

Lemma layout_rs_pop d t kp pks rs seed :
  (d ≤ 32)%nat → layout_ok d t pks (rs ++ [seed]) → rs_exact d t (rs ++ [seed]) →
  rs_pop (E := E) (sk_layout d t kp pks (rs ++ [seed])) = Ok (Some seed, sk_layout d t kp pks rs).
Proof.
  intros Hd Hok Hex. unfold rs_pop. rewrite (layout_rs_len _ _ _ _ _ (length (rs ++ [seed]))) by done. cbn [mbind outcome_bind].
  destruct Hok as (_ & Hl & Hp & [Hs Hseed%Forall_inv]%Forall_app & Hle).
  rewrite length_app in *. cbn [length] in *. 
  destruct (Z.eqb_spec (Z.of_nat (length rs + 1)) 0) as [|_]; [lia|].
  unfold sk_layout. cbn [sk_data sk_depth].
  rewrite concat_app. cbn [concat]. rewrite app_nil_r, <-app_assoc.
  set (pre := le_bytes 4 t ++ keypair_to_bytes kp ++ concat (pair_bytes <$> pks) ++ concat rs).
  assert (∀ x, le_bytes 4 t ++ keypair_to_bytes kp ++ concat (pair_bytes <$> pks) ++ concat rs ++ x
               = pre ++ x) as Hpre by (intros; unfold pre; by rewrite <-!app_assoc).
  assert (length pre = seed_offset_index d (Z.to_nat (Z.of_nat (length rs + 1)) - 1)) as Hoff.
  { unfold pre. rewrite !length_app, length_le_bytes, keypair_bytes_64, length_pairs, length_seeds by done.
    unfold seed_offset_index, seed_offset, MERKLE_PKS_OFFSET, KEYPAIR_OFFSET, SUM_PUBLIC_KEY_SIZE, SEED_SIZE.
    cbn -[Nat.mul]. lia. }
  rewrite !Hpre, <-Hoff, slice_range_mid by (rewrite ?Hseed; done). cbn [mbind outcome_bind].
  unfold seed_from_slice. rewrite Hseed. cbn [Nat.eqb SEED_SIZE mbind outcome_bind assert_that].
  rewrite write_range_mid by (rewrite ?Hseed, ?length_replicate; done). cbn [mbind outcome_bind].
  unfold with_data. cbn [sk_depth]. rewrite length_app. cbn [length].
  rewrite (replicate_split_32 (d - length rs)) by lia.
  by replace (d - length rs - 1)%nat with (d - (length rs + 1))%nat by lia.
Qed.

Lemma layout_rs_extend d t kp pks rs new :
  (d ≤ 32)%nat → layout_ok d t pks rs → Forall seed_ok new →
  rs_exact d (t + 1) (rs ++ new) →
  rs_extend (E := E) (sk_layout d t kp pks rs) (length rs) (concat new)
  = Ok (sk_layout d t kp pks (rs ++ new)).
Proof.
  intros Hd Hok Hnew Hex. unfold rs_extend. rewrite layout_t by done. cbn [mbind outcome_bind].
  destruct Hok as (_ & Hl & Hp & Hs & Hle). unfold rs_exact in Hex. rewrite length_app in Hex.
  unfold sk_layout. cbn [sk_data sk_depth].
  rewrite (rs_from_period_spec d (t + 1) (length rs + length new)) by done.
  rewrite (wrap_small 32 (Z.of_nat _)) by (unfold in_u; lia).
  replace (Z.of_nat (length rs + length new) - Z.of_nat (length rs)) with (Z.of_nat (length new)) by lia.
  rewrite wrap_small, Nat2Z.id by (unfold in_u; lia).
  set (pre := le_bytes 4 t ++ keypair_to_bytes kp ++ concat (pair_bytes <$> pks) ++ concat rs).
  assert (∀ x, le_bytes 4 t ++ keypair_to_bytes kp ++ concat (pair_bytes <$> pks) ++ concat rs ++ x
               = pre ++ x) as Hpre by (intros; unfold pre; by rewrite <-!app_assoc).
  assert (length pre = seed_offset_index d (length rs)) as Hoff.
  { unfold pre. rewrite !length_app, length_le_bytes, keypair_bytes_64, length_pairs, length_seeds by done.
    unfold seed_offset_index, seed_offset, MERKLE_PKS_OFFSET, KEYPAIR_OFFSET, SUM_PUBLIC_KEY_SIZE, SEED_SIZE.
    cbn -[Nat.mul]. lia. }
  replace ((d - length rs) * 32)%nat with (length new * 32 + (d - length (rs ++ new)) * 32)%nat
    by (rewrite length_app; lia).
  rewrite Hpre, replicate_add, write_range_mid
    by (rewrite ?Hoff, ?length_replicate, ?length_seeds by done; done).
  cbn [fmap outcome_fmap]. unfold with_data. cbn [sk_depth]. do 2 f_equal.
  unfold pre. by rewrite concat_app, <-!app_assoc.
Qed.
End layout.
