(* ===== verification/SumRec.v ===== *)
(** * The recursive reference of the MMM sum scheme
    ([chain-crypto/src/algorithms/sumed25519/sumrec.rs])

    [sumrec.rs] keeps the tree as a tree and recurses; the crate uses it as the
    reference that the buffers of [sum.rs] are compared to.  [rec_holds] is its
    key at a period, and [rec_flatten] the fields that [sum.rs] lays out: the
    two implementations go through the same keys ([sum_refines_sumrec]). *)
From S2P Require Import Prelude Bitmap Codec Sum SumKey SumSpec.
Local Open Scope Z_scope.

Section sumrec.
Context `{Ed25519}.

Inductive RecPublicKey :=
| RecPkLeaf (pk : EdPublic)
| RecPkNode (h : list Z).

Inductive RecSecretKey :=
| RecLeaf (kp : Keypair)
| RecNode (t : Z) (depth : nat) (sk : RecSecretKey) (r1 : Seed) (pk0 pk1 : RecPublicKey).

Inductive RecSignature :=
| RecSigLeaf (s : EdSignature)
| RecSigNode (t : Z) (depth : nat) (sigma : RecSignature) (pk0 pk1 : RecPublicKey).

Definition rec_as_bytes (pk : RecPublicKey) : list Z :=
  match pk with RecPkLeaf p => ed_public_as_bytes p | RecPkNode h => h end.

Definition rec_hash (pk1 pk2 : RecPublicKey) : list Z :=
  sha256 (rec_as_bytes pk1 ++ rec_as_bytes pk2).

Fixpoint rec_keygen {E} (log_depth : nat) (r : Seed) : outcome E (RecSecretKey * RecPublicKey) :=
  assert_that (log_depth <? 32)%nat;;
  match log_depth with
  | O => sk ← keygen_1 r; Ok (RecLeaf sk, RecPkLeaf sk.2)
  | S d =>
      '(r0, r1) ← split_seed r;
      '(sk0, pk0) ← rec_keygen d r0;
      '(_, pk1) ← rec_keygen d r1;
      let pk := rec_hash pk0 pk1 in
      Ok (RecNode 0 log_depth sk0 r1 pk0 pk1, RecPkNode pk)
  end.

Fixpoint rec_sign (enum_sk : RecSecretKey) (m : list Z) : RecSignature :=
  match enum_sk with
  | RecLeaf s => RecSigLeaf (ed_sign s m)
  | RecNode t depth sk _ pk0 pk1 => RecSigNode t depth (rec_sign sk m) pk0 pk1
  end.

Fixpoint rec_verify {E} (pk : RecPublicKey) (m : list Z) (sig : RecSignature) : outcome E bool :=
  match sig with
  | RecSigLeaf s =>
      match pk with RecPkLeaf pk => Ok (ed_verify pk m s) | RecPkNode _ => Panic end
  | RecSigNode tsig depth sigma pk0 pk1 =>
      match pk with
      | RecPkLeaf _ => Panic
      | RecPkNode pk =>
          if bool_decide (rec_hash pk0 pk1 ≠ pk) then Ok false
          else
            half ← depth_half depth;
            if bool_decide (tsig < half) then rec_verify pk0 m sigma else rec_verify pk1 m sigma
      end
  end.

Fixpoint rec_update {E} (sk : RecSecretKey) : outcome E RecSecretKey :=
  match sk with
  | RecLeaf _ => Panic
  | RecNode t depth skbox r1 pk0 pk1 =>
      t0 ← depth_half depth;
      if decide (t + 1 < t0) then
        skbox ← rec_update skbox; Ok (RecNode (t + 1) depth skbox r1 pk0 pk1)
      else if decide (t + 1 = t0) then
        d ← depth_decr depth;
        '(newsk, _) ← rec_keygen d r1;
        Ok (RecNode (t + 1) depth newsk seed_zero pk0 pk1)
      else
        skbox ← rec_update skbox; Ok (RecNode (t + 1) depth skbox r1 pk0 pk1)
  end.

Fixpoint rec_updates {E} (n : nat) (sk : RecSecretKey) : outcome E RecSecretKey :=
  match n with O => Ok sk | S n => sk ← rec_updates n sk; rec_update sk end.

(** The fields that [sum.rs] keeps: the leaf, the public keys of the path, and
    the seeds of the right subtrees not entered yet. *)
Fixpoint rec_flatten (sk : RecSecretKey) :
    Keypair * list (SumPublicKey * SumPublicKey) * list Seed :=
  match sk with
  | RecLeaf kp => (kp, [], [])
  | RecNode t depth sk r1 pk0 pk1 =>
      let '(kp, pks, rs) := rec_flatten sk in
      (kp, (rec_as_bytes pk0, rec_as_bytes pk1) :: pks,
       if decide (t < 2 ^ (Z.of_nat depth - 1)) then r1 :: rs else rs)
  end.
End sumrec.

Section refinement.
Context `{Ed25519Laws}.
Set Default Proof Using "Type*".
Implicit Types (d : nat) (t : Z) (s : list Z).

Definition rec_pk_holds d s (pk : RecPublicKey) : Prop :=
  match d, pk with
  | O, RecPkLeaf p => ∃ kp, leaf_key s = Some kp ∧ p = kp.2
  | S _, RecPkNode h => h = root d s
  | _, _ => False
  end.

Fixpoint rec_holds d s t (sk : RecSecretKey) : Prop :=
  match d, sk with
  | O, RecLeaf kp => leaf_key s = Some kp
  | S d', RecNode t' depth sk r1 pk0 pk1 =>
      t' = t ∧ depth = d ∧ rec_pk_holds d' (left_seed s) pk0 ∧ rec_pk_holds d' (right_seed s) pk1 ∧
      if decide (t < 2 ^ Z.of_nat d')
      then rec_holds d' (left_seed s) t sk ∧ r1 = right_seed s
      else rec_holds d' (right_seed s) (t - 2 ^ Z.of_nat d') sk ∧ r1 = seed_zero
  | _, _ => False
  end.

Lemma rec_pk_bytes d s pk : rec_pk_holds d s pk → rec_as_bytes pk = root d s.
Proof.
  destruct d, pk; cbn; try done. intros (kp & Hk & ->). unfold leaf_public. by rewrite Hk.
Qed.

Lemma rec_keygen_holds {E} d s :
  (d < 32)%nat → seed_ok s →
  ∃ sk pk, rec_keygen (E := E) d s = Ok (sk, pk) ∧ rec_holds d s 0 sk ∧ rec_pk_holds d s pk.
Proof.
  revert s. induction d as [|d IH]; intros s Hd Hs.
  - destruct (leaf_key_spec (E := E) s Hs) as (kp & Hl & Hk & _).
    exists (RecLeaf kp), (RecPkLeaf kp.2). cbn. rewrite Hk. split_and!; [done|done|by exists kp].
  - destruct (IH (left_seed s) ltac:(lia) (left_seed_ok s)) as (sk0 & pk0 & E0 & H0s & H0p).
    destruct (IH (right_seed s) ltac:(lia) (right_seed_ok s)) as (sk1 & pk1 & E1 & _ & H1p).
    exists (RecNode 0 (S d) sk0 (right_seed s) pk0 pk1), (RecPkNode (rec_hash pk0 pk1)).
    cbn [rec_keygen]. assert ((S d <? 32)%nat = true) as -> by (by apply Nat.ltb_lt).
    cbn [assert_that mbind outcome_bind]. rewrite split_seed_spec. cbn [mbind outcome_bind].
    rewrite E0. cbn [mbind outcome_bind]. rewrite E1. split; [done|]. cbn [rec_holds rec_pk_holds].
    rewrite decide_True by lia. split_and!; try done.
    unfold rec_hash. by rewrite (rec_pk_bytes d _ pk0 H0p), (rec_pk_bytes d _ pk1 H1p).
Qed.

Lemma rec_update_holds {E} d s t sk :
  (d ≤ 32)%nat → 0 ≤ t → t + 1 < 2 ^ Z.of_nat d → rec_holds d s t sk →
  ∃ sk', rec_update (E := E) sk = Ok sk' ∧ rec_holds d s (t + 1) sk'.
Proof.
  revert s t sk. induction d as [|d IH]; intros s t sk Hd Ht Hlt Hh; [cbn in Hlt; lia|].
  destruct sk as [|t' depth sk r1 pk0 pk1]; [done|].
  destruct Hh as (-> & -> & Hp0 & Hp1 & Hh). rewrite pow2_S in Hlt.
  pose proof (pow_le_32 d ltac:(lia)) as Hpow.
  cbn [rec_update]. unfold depth_half, depth_decr. cbn [Nat.ltb Nat.leb assert_that mbind outcome_bind].
  replace (Z.of_nat (S d) - 1) with (Z.of_nat d) by lia. rewrite wrap_small by (unfold in_u; lia).
  replace (S d - 1)%nat with d by lia. cbn [rec_holds].
  destruct (Z.lt_trichotomy (t + 1) (2 ^ Z.of_nat d)) as [Hc|[Hc|Hc]];
    repeat (case_decide; try (exfalso; lia)); destruct Hh as [Hh ->].
  - destruct (IH (left_seed s) t sk) as (sk' & -> & Hh'); [lia..|done|].
    eexists. split; [done|]. done.
  - destruct (rec_keygen_holds (E := E) d (right_seed s)) as (sk' & pk' & -> & Hh' & _);
      [lia|apply right_seed_ok|].
    eexists. split; [done|].
    by replace (t + 1 - 2 ^ Z.of_nat d) with 0 by lia.
  - destruct (IH (right_seed s) (t - 2 ^ Z.of_nat d) sk) as (sk' & -> & Hh'); [lia..|done|].
    eexists. split; [done|].
    by replace (t + 1 - 2 ^ Z.of_nat d) with (t - 2 ^ Z.of_nat d + 1) by lia.
Qed.

Lemma rec_updates_holds {E} d s n sk :
  (d ≤ 32)%nat → Z.of_nat n < 2 ^ Z.of_nat d → rec_holds d s 0 sk →
  ∃ sk', rec_updates (E := E) n sk = Ok sk' ∧ rec_holds d s (Z.of_nat n) sk'.
Proof.
  intros Hd Hn Hsk. induction n as [|n IH]; [by exists sk|].
  destruct IH as (sk1 & Hu & Hat); [lia|]. cbn [rec_updates]. rewrite Hu. cbn [mbind outcome_bind].
  rewrite Nat2Z.inj_succ. apply (rec_update_holds d s); [done|lia|lia|done].
Qed.

Lemma rec_flatten_holds d s t sk :
  rec_holds d s t sk →
  ∃ kp, leaf_key (leaf d s t) = Some kp ∧ rec_flatten sk = (kp, path d s t, pending d s t).
Proof.
  revert s t sk. induction d as [|d IH]; intros s t sk Hh.
  - destruct sk; [|done]. by exists kp.
  - destruct sk as [|t' depth sk r1 pk0 pk1]; [done|]. destruct Hh as (-> & -> & Hp0 & Hp1 & Hh).
    cbn [rec_flatten leaf path pending]. replace (Z.of_nat (S d) - 1) with (Z.of_nat d) by lia.
    rewrite (rec_pk_bytes d _ pk0 Hp0), (rec_pk_bytes d _ pk1 Hp1).
    case_decide; destruct Hh as [Hh ->]; destruct (IH _ _ _ Hh) as (kp & Hl & ->); by exists kp.
Qed.

Lemma rec_sign_verify {E} d s t sk pk m :
  (d ≤ 32)%nat → 0 ≤ t < 2 ^ Z.of_nat d → rec_holds d s t sk → rec_pk_holds d s pk →
  rec_verify (E := E) pk m (rec_sign sk m) = Ok true.
Proof.
  revert s t sk pk. induction d as [|d IH]; intros s t sk pk Hd Ht Hh Hp.
  - destruct sk as [kp|]; [|done]. destruct pk; [|done]. cbn in *. destruct Hp as (kp' & Hk & ->).
    rewrite Hh in Hk. simplify_eq. unfold leaf_key in Hh.
    destruct (ed_secret_from_bytes s) as [sk|]; [|done]. cbn in Hh. simplify_eq. cbn.
    by rewrite ed_sign_verifies.
  - destruct sk as [|t' depth sk r1 pk0 pk1]; [done|]. destruct pk as [|h]; [done|].
    destruct Hh as (-> & -> & Hp0 & Hp1 & Hh). cbn [rec_pk_holds] in Hp. subst h.
    cbn [rec_sign rec_verify root]. unfold rec_hash.
    rewrite (rec_pk_bytes d _ pk0 Hp0), (rec_pk_bytes d _ pk1 Hp1).
    rewrite bool_decide_false by (intros Hne; by apply Hne).
    unfold depth_half. cbn [Nat.ltb Nat.leb assert_that mbind outcome_bind].
    replace (Z.of_nat (S d) - 1) with (Z.of_nat d) by lia. pose proof (pow_le_32 d ltac:(lia)).
    rewrite wrap_small by (unfold in_u; lia). rewrite pow2_S in Ht.
    case_decide; destruct Hh as [Hh _]; case_bool_decide; try lia.
    + apply (IH (left_seed s) t); [lia|lia|done|done].
    + apply (IH (right_seed s) (t - 2 ^ Z.of_nat d)); [lia|lia|done|done].
Qed.
End refinement.
