(* ===== verification/SumTheorems.v ===== *)
(** * What the MMM sum scheme guarantees
    ([chain-crypto/src/algorithms/sumed25519])

    The theorems about keys, updates and signatures, and a concrete instance of
    the primitives on which they are evaluated. *)
From S2P Require Import Prelude Bitmap Codec Sum SumKey SumSpec SumRec.
Local Open Scope Z_scope.

(** ** A concrete instance: keys and signatures are sized byte strings *)
Definition sized (n : nat) : Type := dsig (λ l : list Z, length l = n).
Definition to_sized (n : nat) (l : list Z) : option (sized n) :=
  match decide (length l = n) with left Hl => Some (dexist l Hl) | right _ => None end.

Lemma to_sized_roundtrip n (x : sized n) : to_sized n (`x) = Some x.
Proof.
  unfold to_sized. destruct (decide _) as [Hl|Hn]; [f_equal; by apply dsig_eq|].
  destruct Hn. exact (proj2_dsig x).
Qed.

Lemma to_sized_length n l : length l = n → is_Some (to_sized n l).
Proof. intros Hl. unfold to_sized. by rewrite decide_True_pi with Hl. Qed.

(** A checksum in the place of SHA-256, and signatures that repeat the public
    key and a digest of the message. *)
Definition toy_digest (b : list Z) : list Z := be_bytes 32 (foldl (λ a x, a * 263 + x + 1) 7 b).
Lemma toy_digest_32 b : length (toy_digest b) = 32%nat.
Proof. apply length_be_bytes. Qed.
Definition toy_public (s : sized 32) : sized 32 := dexist (toy_digest (`s)) (toy_digest_32 _).
Lemma toy_sign_64 (pk : sized 32) m : length (`pk ++ toy_digest m) = 64%nat.
Proof. rewrite length_app, toy_digest_32. by rewrite (proj2_dsig pk). Qed.
Definition toy_sign (pk : sized 32) (m : list Z) : sized 64 :=
  dexist (`pk ++ toy_digest m) (toy_sign_64 pk m).

#[export] Instance toy_ed25519 : Ed25519 := {|
  EdSecret := sized 32; EdPublic := sized 32; EdSignature := sized 64;
  ed_secret_from_bytes := to_sized 32;
  ed_public_of_secret := toy_public;
  ed_public_as_bytes := proj1_sig;
  ed_public_from_bytes := to_sized 32;
  keypair_to_bytes kp := `kp.1 ++ `kp.2;
  keypair_from_bytes b :=
    s ← to_sized 32 (take 32 b); p ← to_sized 32 (drop 32 b); Some (s, p);
  ed_sign kp m := toy_sign kp.2 m;
  ed_verify pk m s := bool_decide (proj1_sig s = proj1_sig (toy_sign pk m));
  ed_signature_to_bytes := proj1_sig;
  ed_signature_from_bytes := to_sized 64;
  sha256 := toy_digest;
|}.

#[export] Instance toy_ed25519_laws : Ed25519Laws.
Proof.
  split; cbn.
  - apply to_sized_length.
  - intros pk. apply (proj2_dsig pk).
  - apply to_sized_roundtrip.
  - intros kp. rewrite length_app, (proj2_dsig kp.1), (proj2_dsig kp.2). done.
  - intros [s p]. cbn. pose proof (proj2_dsig s) as Hs. cbn in Hs.
    rewrite take_app_length', drop_app_length' by done. by rewrite !to_sized_roundtrip.
  - intros s. apply (proj2_dsig s).
  - apply to_sized_roundtrip.
  - intros s m. by apply bool_decide_true.
  - apply toy_digest_32.
Qed.

Definition demo_seed : Seed := seed_zero.
Definition demo_message : list Z := [1; 2; 3].

Lemma count_ones64_le d t : (d ≤ 32)%nat → 0 ≤ t < 2 ^ Z.of_nat d → (count_ones64 t ≤ d)%nat.
Proof. intros Hd Ht. pose proof (length_pending d [] t ltac:(lia) Ht). lia. Qed.

Section theorems.
Context `{Ed25519Laws} {E : Type}.
Set Default Proof Using "Type*".
Implicit Types (d : nat) (s m : list Z).

(** ** Signing and verifying at every period *)
Lemma signature_at_verifies d s t kp m :
  (d ≤ 32)%nat → 0 ≤ t < 2 ^ Z.of_nat d → leaf_key (leaf d s t) = Some kp →
  sum_verify (E := E) (root d s) m (signature_at d s t kp m) = Ok true.
Proof.
  intros Hd Ht Hl. pose proof (key_layout_ok d s t Hd Ht) as [Ht32 _].
  destruct (sig_accessors (E := E) t (ed_sign kp m) kp.2 (siblings d s t) Ht32) as (H1 & H2 & H3 & H4).
  unfold sum_verify, signature_at. rewrite H3. cbn [mbind outcome_bind]. rewrite H2.
  cbn [mbind outcome_bind].
  assert (ed_verify kp.2 m (ed_sign kp m) = true) as ->.
  { unfold leaf_key in Hl. destruct (ed_secret_from_bytes (leaf d s t)); [|done]. cbn in Hl.
    simplify_eq. apply ed_sign_verifies. }
  cbn [negb]. rewrite H1. cbn [mbind outcome_bind]. rewrite H4. cbn [mbind outcome_bind].
  rewrite collect_sig_pks_next_back by apply siblings_ok. cbn [mbind outcome_bind].
  change (snd (foldl ?f (0%nat, from_ed25519_publickey kp.2) ?l)) with
    (climb_siblings t (from_ed25519_publickey kp.2) (reverse (siblings d s t))).
  assert (from_ed25519_publickey kp.2 = leaf_public (leaf d s t)) as ->
    by (unfold leaf_public; by rewrite Hl).
  rewrite climb_siblings_root by (apply Z.mod_small; lia). by rewrite bool_decide_true.
Qed.

Lemma key_at_compute_public d s t sk :
  (d ≤ 32)%nat → 0 ≤ t < 2 ^ Z.of_nat d → key_at d s t sk →
  sk_compute_public (E := E) sk = Ok (root d s).
Proof.
  intros Hd Ht (kp & Hl & ->). pose proof (key_layout_ok d s t Hd Ht) as Hok.
  unfold sk_compute_public. rewrite layout_t by done. cbn [mbind outcome_bind].
  rewrite layout_sk. cbn [mbind outcome_bind]. rewrite layout_merkle_pks by done.
  cbn [mbind outcome_bind]. rewrite collect_merkle_next_back by apply path_ok. cbn [mbind outcome_bind].
  assert (from_ed25519_publickey kp.2 = leaf_public (leaf d s t)) as ->
    by (unfold leaf_public; by rewrite Hl).
  by rewrite climb_path by (apply Z.mod_small; lia).
Qed.

Lemma length_signature_at d s t kp m : length (signature_at d s t kp m) = signature_size d.
Proof.
  unfold signature_at. rewrite !length_app, length_le_bytes, ed_signature_bytes_64, ed_public_bytes_32.
  rewrite length_seeds, length_siblings by apply siblings_ok.
  unfold signature_size, SIGMA_SIZE, PERIOD_SERIALIZE_SIZE, INDIVIDUAL_PUBLIC_SIZE, SUM_PUBLIC_KEY_SIZE. lia.
Qed.

(** ** The parsers, in closed form *)
Lemma sig_from_bytes_eq d bytes :
  sig_from_bytes d bytes =
  if decide (length bytes ≠ signature_size d) then Err (InvalidSignatureSize (length bytes))
  else
    let t := from_le (take 4 bytes) in
    if decide (depth_total d ≤ t) then Err (InvalidSignatureCount t d)
    else match ed_public_from_bytes (take 32 (drop 68 bytes)),
               ed_signature_from_bytes (take 64 (drop 4 bytes)) with
         | Some _, Some _ => Ok bytes
         | _, _ => Err Ed25519SignatureError
         end.
Proof.
  unfold sig_from_bytes, signature_size, SIGMA_SIZE, INDIVIDUAL_PUBLIC_SIZE, SUM_PUBLIC_KEY_SIZE.
  change (96 + PERIOD_SERIALIZE_SIZE)%nat with 100%nat. change PERIOD_SERIALIZE_SIZE with 4%nat.
  set (n := length bytes).
  destruct (decide (n ≠ 4 + 64 + 32 + d * 32)%nat) as [Hn|Hn].
  - case_decide as H1; [done|]. case_decide as H2; [done|]. rewrite decide_True; [done|].
    intros Hdiv. pose proof (Nat.div_mod_eq (n - 100) 32). lia.
  - assert (n = 100 + d * 32)%nat as Hlen by lia. rewrite decide_False by lia.
    replace (n - 100)%nat with (d * 32)%nat by lia.
    rewrite Nat.Div0.mod_mul, Nat.div_mul by lia. rewrite !decide_False by lia.
    change PK_OFFSET with 68%nat. change SIGMA_OFFSET with 4%nat.
    rewrite (slice_range_ok bytes 0 4), (slice_range_ok bytes 4 (4 + 64)),
      (slice_range_ok bytes 68 (68 + 32)) by (unfold n in *; lia).
    cbn [mbind outcome_bind drop]. change (4 - 0)%nat with 4%nat.
    change (4 + 64 - 4)%nat with 64%nat. change (68 + 32 - 68)%nat with 32%nat.
    cbn zeta. rewrite drop_0. case_decide; [done|].
    destruct (ed_public_from_bytes _); [|done]. by destruct (ed_signature_from_bytes _).
Qed.

Lemma signature_at_back d s t kp m :
  (d ≤ 32)%nat → 0 ≤ t < 2 ^ Z.of_nat d →
  sig_from_bytes d (signature_at d s t kp m) = Ok (signature_at d s t kp m).
Proof.
  intros Hd Ht. pose proof (key_layout_ok d s t Hd Ht) as [H32 _].
  rewrite sig_from_bytes_eq, length_signature_at. rewrite decide_False by auto. cbn zeta.
  unfold signature_at. rewrite take_app_length' by (by rewrite length_le_bytes).
  rewrite from_le_bytes by done. rewrite depth_total_pow, decide_False by lia.
  rewrite (drop_app_length' (le_bytes 4 t) _ 4) by (by rewrite length_le_bytes).
  rewrite (take_app_length' (ed_signature_to_bytes _) _ 64) by (by rewrite ed_signature_bytes_64).
  rewrite ed_signature_roundtrip, (app_assoc (le_bytes 4 _)), (drop_app_length' (_ ++ _) _ 68)
    by (by rewrite length_app, length_le_bytes, ed_signature_bytes_64).
  by rewrite take_app_length', ed_public_roundtrip by (by rewrite ed_public_bytes_32).
Qed.

(** ** The properties *)

(** C10. Key generation, evolution, signing and verification agree over the
    whole life of a key: for a tree of any depth up to 32 and any seed, after
    [n < 2^d] updates the key is of period [n], it still computes the public
    key that [keygen] returned, it says that it is updatable exactly when a
    period is left, and its signature of any message has the fixed size and the
    period [n], is accepted by the parser unchanged and verifies against that
    public key. *)
Theorem kes_every_period_signs d s m n :
  (d ≤ 32)%nat → length s = 32%nat → Z.of_nat n < 2 ^ Z.of_nat d →
  ∃ sk0 pk sk sig,
    keygen (E := E) d s = Ok (sk0, pk) ∧ updates (E := E) n sk0 = Ok (sk, Ok ()) ∧
    sk_t (E := E) sk = Ok (Z.of_nat n) ∧ sk_compute_public (E := E) sk = Ok pk ∧
    is_updatable (E := E) sk = Ok (bool_decide (Z.of_nat n + 1 < 2 ^ Z.of_nat d)) ∧
    sum_sign (E := E) sk m = Ok sig ∧ length sig = signature_size d ∧
    sig_t (E := E) sig = Ok (Z.of_nat n) ∧ sig_from_bytes d sig = Ok sig ∧
    sum_verify (E := E) pk m sig = Ok true.
Proof.
  intros Hd Hs Hn. destruct (keygen_key_at (E := E) d s Hd Hs) as (sk0 & Hk & H0s).
  destruct (updates_key_at (E := E) d s n sk0 Hd Hn H0s) as (sk & Hu & Hat).
  assert (0 ≤ Z.of_nat n < 2 ^ Z.of_nat d) as Ht by lia.
  pose proof (key_at_compute_public d s _ sk Hd Ht Hat) as Hpub.
  destruct Hat as (kp & Hl & Hsk). pose proof (key_layout_ok d s _ Hd Ht) as Hok.
  exists sk0, (root d s), sk, (signature_at d s (Z.of_nat n) kp m). rewrite Hsk in *.
  assert (in_u 32 (Z.of_nat n)) as H32 by apply Hok.
  destruct (sig_accessors (E := E) (Z.of_nat n) (ed_sign kp m) kp.2 (siblings d s (Z.of_nat n)) H32)
    as (H1 & _).
  do 2 (split; [done|]). split; [by apply layout_t|]. split; [done|].
  split; [|split; [by apply sign_key_at|split; [apply length_signature_at|split; [done|split;
    [|by apply signature_at_verifies]]]]].
  - unfold is_updatable. rewrite layout_t by done. cbn [mbind outcome_bind sk_layout sk_depth].
    by rewrite depth_total_pow by lia.
  - by apply signature_at_back.
Qed.

(** A key is updated exactly [2^d - 1] times: the next update returns
    [KeyCannotBeUpdatedMore] and leaves the key as it was. *)
Theorem kes_update_exhausted d s :
  (d ≤ 32)%nat → length s = 32%nat →
  ∃ sk0 pk sk,
    keygen (E := E) d s = Ok (sk0, pk) ∧
    updates (E := E) (Z.to_nat (2 ^ Z.of_nat d - 1)) sk0 = Ok (sk, Ok ()) ∧
    sum_update (E := E) sk = Ok (sk, Err KeyCannotBeUpdatedMore).
Proof.
  intros Hd Hs. destruct (keygen_key_at (E := E) d s Hd Hs) as (sk0 & Hk & H0s).
  destruct (updates_key_at (E := E) d s (Z.to_nat (2 ^ Z.of_nat d - 1)) sk0 Hd ltac:(lia) H0s)
    as (sk & Hu & Hat).
  rewrite Z2Nat.id in Hat by lia. exists sk0, (root d s), sk. split_and!; [done|done|].
  by eapply update_last.
Qed.

(** C25. The buffers of [sum.rs] refine the trees of [sumrec.rs]: both generate
    the same public key, and after any number of updates below [2^d] the buffer
    holds the period and exactly the key pair, the public keys and the pending
    seeds of the tree; the tree's own signature verifies in its own way. *)
Theorem sum_refines_sumrec d s m n :
  (d < 32)%nat → length s = 32%nat → Z.of_nat n < 2 ^ Z.of_nat d →
  ∃ sk0 pk sk rsk0 rpk rsk,
    keygen (E := E) d s = Ok (sk0, pk) ∧ pkeygen (E := E) (S d) d s = Ok pk ∧
    rec_keygen (E := E) d s = Ok (rsk0, rpk) ∧ rec_as_bytes rpk = pk ∧
    updates (E := E) n sk0 = Ok (sk, Ok ()) ∧ rec_updates (E := E) n rsk0 = Ok rsk ∧
    (let '(kp, pks, rs) := rec_flatten rsk in sk = sk_layout d (Z.of_nat n) kp pks rs) ∧
    rec_verify (E := E) rpk m (rec_sign rsk m) = Ok true.
Proof.
  intros Hd Hs Hn. destruct (keygen_key_at (E := E) d s ltac:(lia) Hs) as (sk0 & Hk & H0s).
  destruct (updates_key_at (E := E) d s n sk0 ltac:(lia) Hn H0s) as (sk & Hu & kp & Hl & Hat).
  destruct (rec_keygen_holds (E := E) d s Hd Hs) as (rsk0 & rpk & Hrk & Hr0 & Hrp).
  destruct (rec_updates_holds (E := E) d s n rsk0 ltac:(lia) Hn Hr0) as (rsk & Hru & Hrat).
  destruct (rec_flatten_holds d s _ rsk Hrat) as (kp' & Hl' & Hf). rewrite Hl in Hl'. simplify_eq.
  eexists sk0, (root d s), _, rsk0, rpk, rsk. rewrite Hf.
  split_and!; try done; [by apply pkeygen_root; [lia|]|by apply (rec_pk_bytes d s)|].
  apply (rec_sign_verify d s (Z.of_nat n)); [lia|lia|done|done].
Qed.

(** C26. A signature binds its leaf key: whatever buffer of the shape of a
    signature of depth [d] verifies at a period [t] under the public key of a
    seed carries the very leaf key that the seed gives to period [t], unless
    its path exhibits a collision of SHA-256. *)
Theorem kes_signature_binds_period d s t sigma pk sibs m :
  (d ≤ 32)%nat → length s = 32%nat → 0 ≤ t < 2 ^ Z.of_nat d →
  length sibs = d → Forall (λ l, length l = 32%nat) sibs →
  sum_verify (E := E) (root d s) m
    (le_bytes 4 t ++ ed_signature_to_bytes sigma ++ ed_public_as_bytes pk ++ concat sibs) = Ok true →
  ed_verify pk m sigma = true ∧
  (ed_public_as_bytes pk = leaf_public (leaf d s t) ∨ sha256_collision).
Proof.
  intros Hd Hs Ht Hlen Hsibs Hv. pose proof (key_layout_ok d s t Hd Ht) as [Ht32 _].
  destruct (sig_accessors (E := E) t sigma pk sibs Ht32) as (H1 & H2 & H3 & H4).
  unfold sum_verify in Hv. rewrite H3 in Hv. cbn [mbind outcome_bind] in Hv. rewrite H2 in Hv.
  cbn [mbind outcome_bind] in Hv. destruct (ed_verify pk m sigma) eqn:Hed; [|done]. split; [done|].
  cbn [negb] in Hv. rewrite H1 in Hv. cbn [mbind outcome_bind] in Hv. rewrite H4 in Hv.
  cbn [mbind outcome_bind] in Hv. rewrite collect_sig_pks_next_back in Hv by done.
  cbn [mbind outcome_bind] in Hv. apply Ok_inj, bool_decide_eq_true in Hv.
  change (snd (foldl ?f (0%nat, from_ed25519_publickey pk) ?l)) with
    (climb_siblings t (from_ed25519_publickey pk) (reverse sibs)) in Hv.
  rewrite <-(climb_siblings_root d s t t) in Hv by (apply Z.mod_small; lia).
  apply climb_binding in Hv; try done.
  - by rewrite !length_reverse, length_siblings.
  - apply ed_public_bytes_32.
  - apply (root_ok 0 (leaf d s t)). by apply leaf_ok.
  - by apply Forall_reverse.
  - apply Forall_reverse, siblings_ok.
Qed.

(** Parsing a secret key never panics and is decided field by field: the
    size is the maximal one, the key pair is one that Ed25519 accepts, the
    period is below [2^d], and the seeds already used at that period are
    zeroed; each failure has its own error, checked in this order. *)
Theorem kes_secret_parse_classified d bytes :
  (d ≤ 32)%nat → bytes_ok bytes →
  sk_from_bytes d bytes =
  if decide (length bytes ≠ maximum_secret_key_size d) then Err (InvalidSecretKeySize (length bytes))
  else match keypair_from_bytes (take 64 (drop 4 bytes)) with
  | None => Err Ed25519SignatureError
  | Some _ =>
      let t := from_le (take 4 bytes) in
      if decide (2 ^ Z.of_nat d ≤ t) then Err (InvalidSignatureCount t d)
      else if forallb (λ b, b =? 0) (drop (68 + d * 64 + (d - count_ones64 t) * 32) bytes)
      then Ok (mkSumSecretKey d bytes) else Err DataInZeroArea
  end.
Proof.
  intros Hd Hb. unfold sk_from_bytes.
  assert (maximum_secret_key_size d = 68 + d * 64 + d * 32)%nat as ->.
  { unfold maximum_secret_key_size, PERIOD_SERIALIZE_SIZE, INDIVIDUAL_SECRET_SIZE,
      INDIVIDUAL_PUBLIC_SIZE, SUM_PUBLIC_KEY_SIZE, SEED_SIZE. lia. }
  assert (seed_offset d = 68 + d * 64)%nat as Hoff.
  { unfold seed_offset, SUM_PUBLIC_KEY_SIZE. change MERKLE_PKS_OFFSET with 68%nat. lia. }
  rewrite Hoff. set (n := length bytes).
  destruct (decide (n ≠ 68 + d * 64 + d * 32)%nat) as [Hn|Hn]; [by repeat case_decide|].
  assert (n = 68 + d * 64 + d * 32)%nat as Hlen by lia. rewrite (decide_False (P := (n < _)%nat)) by lia.
  replace (n - (68 + d * 64))%nat with (d * 32)%nat by lia. rewrite Nat.Div0.mod_mul.
  rewrite (decide_False (P := (0 < 0)%nat)) by lia.
  change MERKLE_PKS_OFFSET with 68%nat. change KEYPAIR_OFFSET with 4%nat.
  rewrite (slice_range_ok bytes 4 68) by (unfold n in *; lia). cbn [mbind outcome_bind].
  change (68 - 4)%nat with 64%nat.
  destruct (keypair_from_bytes _) as [kp|]; [|done]. cbn [ok_or mbind outcome_bind].
  change PERIOD_SERIALIZE_SIZE with 4%nat.
  rewrite (slice_range_ok bytes 0 4) by (unfold n in *; lia). cbn [mbind outcome_bind].
  rewrite drop_0. change (4 - 0)%nat with 4%nat. rewrite depth_total_pow by lia.
  set (t := from_le (take 4 bytes)). case_decide as Ht; [done|].
  assert (0 ≤ t) as Ht0.
  { unfold t, from_le. apply from_be_range, Forall_reverse, Forall_take, Hb. }
  pose proof (count_ones64_le d t Hd ltac:(lia)) as Hc.
  rewrite (rs_from_period_spec d t (d - count_ones64 t)), Nat2Z.id by lia.
  unfold seed_offset_index, SEED_SIZE. rewrite Hoff. unfold slice_from.
  rewrite slice_range_ok by (unfold n in *; lia). cbn [mbind outcome_bind].
  by rewrite take_ge by (rewrite length_drop; unfold n in *; lia).
Qed.
End theorems.

(** ** The theorems at the toy instance *)
Lemma kes_every_period_signs_witness :
  (2 ≤ 32)%nat ∧ Z.of_nat 2 < 2 ^ Z.of_nat 2 ∧
  ∃ sk0 pk sk sig,
    keygen (E := unit) 2 demo_seed = Ok (sk0, pk) ∧ updates (E := unit) 2 sk0 = Ok (sk, Ok ()) ∧
    sk_t (E := unit) sk = Ok 2 ∧ sk_compute_public (E := unit) sk = Ok pk ∧
    is_updatable (E := unit) sk = Ok true ∧
    sum_sign (E := unit) sk demo_message = Ok sig ∧ length sig = signature_size 2 ∧
    sig_t (E := unit) sig = Ok 2 ∧ sig_from_bytes 2 sig = Ok sig ∧
    sum_verify (E := unit) pk demo_message sig = Ok true.
Proof.
  split; [lia|]. split; [lia|].
  exact (kes_every_period_signs (E := unit) 2 demo_seed demo_message 2 ltac:(lia) eq_refl ltac:(lia)).
Defined.

Lemma kes_update_exhausted_witness :
  length demo_seed = 32%nat ∧ ∃ sk0 pk sk,
    keygen (E := unit) 3 demo_seed = Ok (sk0, pk) ∧
    updates (E := unit) 7 sk0 = Ok (sk, Ok ()) ∧
    sum_update (E := unit) sk = Ok (sk, Err KeyCannotBeUpdatedMore).
Proof.
  split; [reflexivity|].
  exact (kes_update_exhausted (E := unit) 3 demo_seed ltac:(lia) eq_refl).
Defined.

Lemma sum_refines_sumrec_witness :
  length demo_seed = 32%nat ∧ ∃ sk0 pk sk rsk0 rpk rsk,
    keygen (E := unit) 2 demo_seed = Ok (sk0, pk) ∧ pkeygen (E := unit) 3 2 demo_seed = Ok pk ∧
    rec_keygen (E := unit) 2 demo_seed = Ok (rsk0, rpk) ∧ rec_as_bytes rpk = pk ∧
    updates (E := unit) 1 sk0 = Ok (sk, Ok ()) ∧ rec_updates (E := unit) 1 rsk0 = Ok rsk ∧
    (let '(kp, pks, rs) := rec_flatten rsk in sk = sk_layout 2 1 kp pks rs) ∧
    rec_verify (E := unit) rpk demo_message (rec_sign rsk demo_message) = Ok true.
Proof.
  split; [reflexivity|].
  exact (sum_refines_sumrec (E := unit) 2 demo_seed demo_message 1 ltac:(lia) eq_refl ltac:(lia)).
Defined.

Definition demo_leaf : sized 32 :=
  toy_public (dexist (leaf 2 demo_seed 1) (leaf_ok 2 demo_seed 1 eq_refl)).

Lemma kes_signature_binds_period_witness :
  sum_verify (E := unit) (root 2 demo_seed) demo_message
    (le_bytes 4 1 ++ proj1_sig (toy_sign demo_leaf demo_message) ++ proj1_sig demo_leaf
     ++ concat (siblings 2 demo_seed 1)) = Ok true ∧
  ed_verify demo_leaf demo_message (toy_sign demo_leaf demo_message) = true ∧
  (proj1_sig demo_leaf = leaf_public (leaf 2 demo_seed 1) ∨ sha256_collision).
Proof.
  split; [vm_compute; reflexivity|].
  apply (@kes_signature_binds_period toy_ed25519 toy_ed25519_laws unit 2 demo_seed 1 (toy_sign demo_leaf demo_message)
           demo_leaf (siblings 2 demo_seed 1) demo_message);
    [lia|reflexivity|lia|reflexivity|repeat constructor|vm_compute; reflexivity].
Defined.

(** A key of one byte too few, and the buffer of period 0 with its period
    overwritten by 2, which is out of a tree of depth 1. *)
Lemma kes_secret_parse_classified_witness :
  sk_from_bytes 1 (replicate 163 0) = Err (InvalidSecretKeySize 163) ∧
  sk_from_bytes 1 (2 :: replicate 163 0) = Err (InvalidSignatureCount 2 1).
Proof.
  split; rewrite (@kes_secret_parse_classified toy_ed25519 _ 1);
    first [lia | vm_compute; reflexivity | vm_compute; repeat constructor; discriminate].
Defined.

(** The two parsers and the whole life of a key, evaluated. *)
Example kes_life_evaluated :
  (let m := fun '(sk0, pk) =>
     match updates (E := unit) 3 sk0 with
     | Ok (sk, _) =>
         match sum_sign (E := unit) sk demo_message with
         | Ok sig => sum_verify (E := unit) pk demo_message sig
         | _ => Panic
         end
     | _ => Panic
     end in keygen (E := unit) 2 demo_seed ≫= m) = Ok true.
Proof. vm_compute. reflexivity. Qed.
