(* ===== verification/Group.v ===== *)
(** * The Ristretto group ([chain-crypto/src/ec/ristretto255.rs])

    [GroupElement] and [Scalar] wrap the points and scalars of
    [curve25519_dalek]: those are the class [Dalek], and what the code relies on
    is [DalekLaws] (a commutative ring acting on a commutative group, canonical
    encodings).  The loops of the file itself, binary exponentiation, double
    and add, sums and the iterator of powers, are proved equal to their
    definitions.  The integers modulo the order of the group are an instance. *)
From Stdlib Require Import Ring.
From S2P Require Import Prelude Codec Sum.
Local Open Scope Z_scope.

Class Dalek := {
  Scalar : Type; Point : Type;
  #[global] scalar_eq_dec :: EqDecision Scalar;
  #[global] point_eq_dec :: EqDecision Point;
  s_zero : Scalar; s_one : Scalar;
  s_add : Scalar → Scalar → Scalar; s_sub : Scalar → Scalar → Scalar;
  s_mul : Scalar → Scalar → Scalar; s_neg : Scalar → Scalar;
  s_of_u64 : Z → Scalar;
  s_to_bytes : Scalar → list Z;
  s_from_canonical_bytes : list Z → option Scalar;
  s_from_bytes_mod_order_wide : list Z → Scalar;
  p_identity : Point; p_basepoint : Point;
  p_add : Point → Point → Point; p_neg : Point → Point;
  p_mul : Scalar → Point → Point;
  p_compress : Point → list Z;
  p_decompress : list Z → option Point;
  p_from_uniform_bytes : list Z → Point;
  p_vartime_multiscalar_mul : list Scalar → list Point → Point;
  blake2b : nat → list Z → list Z;
}.

Class DalekLaws `{Dalek} : Prop := {
  s_ring : ring_theory s_zero s_one s_add s_mul s_sub s_neg eq;
  s_of_u64_0 : s_of_u64 0 = s_zero;
  s_of_u64_S : ∀ n, 0 ≤ n → n + 1 < 2 ^ 64 → s_of_u64 (n + 1) = s_add (s_of_u64 n) s_one;
  p_add_assoc : ∀ a b c, p_add a (p_add b c) = p_add (p_add a b) c;
  p_add_comm : ∀ a b, p_add a b = p_add b a;
  p_add_0 : ∀ a, p_add p_identity a = a;
  p_add_neg : ∀ a, p_add a (p_neg a) = p_identity;
  p_mul_add_s : ∀ x y a, p_mul (s_add x y) a = p_add (p_mul x a) (p_mul y a);
  p_mul_add_p : ∀ x a b, p_mul x (p_add a b) = p_add (p_mul x a) (p_mul x b);
  p_mul_mul : ∀ x y a, p_mul (s_mul x y) a = p_mul x (p_mul y a);
  p_mul_1 : ∀ a, p_mul s_one a = a;
  p_multiscalar : ∀ ss ps, length ss = length ps →
    p_vartime_multiscalar_mul ss ps = foldr p_add p_identity (zip_with p_mul ss ps);
  s_bytes_32 : ∀ s, length (s_to_bytes s) = 32%nat;
  s_bytes_roundtrip : ∀ s, s_from_canonical_bytes (s_to_bytes s) = Some s;
  p_bytes_32 : ∀ p, length (p_compress p) = 32%nat;
  p_bytes_roundtrip : ∀ p, p_decompress (p_compress p) = Some p;
  (** The group is large: small multiples of the base point differ. *)
  p_basepoint_order : ∀ x y, in_u 64 x → in_u 64 y →
    p_mul (s_of_u64 x) p_basepoint = p_mul (s_of_u64 y) p_basepoint → x = y;
}.

Declare Scope group_scope.
Delimit Scope group_scope with G.
Infix "+" := p_add : group_scope.
Notation "- p" := (p_neg p) : group_scope.
Notation "a *· s" := (p_mul s a) (at level 40) : group_scope.

(** ** The file's own operations *)
Section ops.
Context `{Dalek}.

Definition GE_BYTES_LEN : nat := 32.
Definition SCALAR_BYTES_LEN : nat := 32.

Definition ge_generator : Point := p_basepoint.
Definition ge_zero : Point := p_identity.
Definition ge_to_bytes (p : Point) : list Z := p_compress p.
(** [CompressedRistretto::from_slice] panics on another length. *)
Definition ge_from_bytes {E} (bytes : list Z) : outcome E (option Point) :=
  assert_that (length bytes =? GE_BYTES_LEN)%nat;; Ok (p_decompress bytes).
Definition ge_from_hash (buffer : list Z) : Point := p_from_uniform_bytes (blake2b 64 buffer).
Definition ge_add (a b : Point) : Point := p_add a b.
Definition ge_sub (a b : Point) : Point := p_add a (p_neg b).
Definition ge_mul (a : Point) (s : Scalar) : Point := p_mul s a.
Definition ge_sum (l : list Point) : Point := foldl (λ sum v, ge_add sum v) ge_zero l.
Definition ge_multiscalar (scalars : list Scalar) (points : list Point) : Point :=
  p_vartime_multiscalar_mul scalars points.

(** [&GroupElement * u64]: double and add; 64 rounds empty a [u64]. *)
Fixpoint ge_mul_u64_loop (fuel : nat) (q a : Point) (other : Z) : option Point :=
  match fuel with
  | O => None
  | S fuel =>
      if other =? 0 then Some q
      else
        let q := if Z.land other 1 =? 0 then q else p_add q a in
        ge_mul_u64_loop fuel q (p_add a a) (Z.shiftr other 1)
  end.
Definition ge_mul_u64 {E} (p : Point) (other : Z) : outcome E Point :=
  unwrap_opt (ge_mul_u64_loop 65 p_identity p other).

Definition scalar_from_bytes (slice : list Z) : option Scalar :=
  if (length slice =? 32)%nat then s_from_canonical_bytes slice else None.
(** [hash_to_scalar] on the bytes fed to the hash context. *)
Definition hash_to_scalar (b : list Z) : Scalar := s_from_bytes_mod_order_wide (blake2b 64 b).
Definition scalar_negate (s : Scalar) : Scalar := s_neg s.
Definition scalar_from_bool (b : bool) : Scalar := if b then s_one else s_zero.
Definition scalar_increment (s : Scalar) : Scalar := s_add s s_one.

(** [Scalar::power]: binary exponentiation on a [usize]. *)
Fixpoint scalar_power_loop (fuel : nat) (result aux : Scalar) (power : Z) : option Scalar :=
  match fuel with
  | O => None
  | S fuel =>
      if 0 <? power then
        let bit := Z.land power 1 in
        let result := if bit =? 1 then s_mul result aux else result in
        scalar_power_loop fuel result (s_mul aux aux) (Z.shiftr power 1)
      else Some result
  end.
Definition scalar_power {E} (s : Scalar) (n : Z) : outcome E Scalar :=
  unwrap_opt (scalar_power_loop 65 s_one s n).

(** [Scalar::sum]: nothing for an empty iterator. *)
Definition scalar_sum (l : list Scalar) : option Scalar :=
  match l with [] => None | s :: l => Some (foldl s_add s l) end.

(** [exp_iter]: the state of [ScalarExp], and its first items. *)
Record ScalarExp := mkScalarExp { se_x : Scalar; se_next_exp_x : Scalar }.
Definition exp_iter (x : Scalar) : ScalarExp := mkScalarExp x s_one.
Definition scalar_exp_next (e : ScalarExp) : Scalar * ScalarExp :=
  let exp_x := se_next_exp_x e in
  (exp_x, mkScalarExp (se_x e) (s_mul (se_next_exp_x e) (se_x e))).
Fixpoint exp_take (n : nat) (e : ScalarExp) : list Scalar :=
  match n with
  | O => []
  | S n => let '(x, e) := scalar_exp_next e in x :: exp_take n e
  end.
End ops.

(** ** Powers and multiples *)
Section laws.
Context `{DalekLaws}.
Set Default Proof Using "Type*".
Implicit Types (x y z : Scalar) (a b : Point).

Lemma s_ring_theory : ring_theory s_zero s_one s_add s_mul s_sub s_neg eq.
Proof. apply s_ring. Qed.
Add Ring scalar_ring : s_ring_theory.

Fixpoint spow x (n : nat) : Scalar := match n with O => s_one | S n => s_mul (spow x n) x end.

Lemma spow_add x n m : spow x (n + m) = s_mul (spow x n) (spow x m).
Proof. induction m as [|m IH]; rewrite ?Nat.add_0_r, ?Nat.add_succ_r; cbn; [ring|]. rewrite IH. ring. Qed.
Lemma spow_mul x n m : spow x (n * m) = spow (spow x n) m.
Proof. induction m as [|m IH]; rewrite ?Nat.mul_0_r, ?Nat.mul_succ_r; cbn; [done|]. by rewrite spow_add, IH. Qed.
Lemma spow_sq x n : spow (s_mul x x) n = spow x (2 * n).
Proof. rewrite spow_mul. cbn. f_equal. ring. Qed.

Lemma land_1 n : 0 ≤ n → Z.land n 1 = n `mod` 2.
Proof. intros. change 1 with (Z.ones 1). by rewrite Z.land_ones. Qed.
Lemma shiftr_1 n : Z.shiftr n 1 = n `div` 2.
Proof. by rewrite Z.shiftr_div_pow2. Qed.

Lemma scalar_power_loop_S fuel result aux n :
  scalar_power_loop (S fuel) result aux n =
  if 0 <? n
  then scalar_power_loop fuel (if Z.land n 1 =? 1 then s_mul result aux else result)
         (s_mul aux aux) (Z.shiftr n 1)
  else Some result.
Proof. done. Qed.
Lemma scalar_power_loop_spec fuel result aux n :
  0 ≤ n < 2 ^ Z.of_nat fuel →
  scalar_power_loop (S fuel) result aux n = Some (s_mul result (spow aux (Z.to_nat n))).
Proof.
  revert result aux n. induction fuel as [|fuel IH]; intros result aux n Hn.
  - assert (n = 0) as -> by (cbn in Hn; lia). cbn. f_equal. change (Z.to_nat 0) with 0%nat. cbn [spow]. ring.
  - rewrite Nat2Z.inj_succ, Z.pow_succ_r in Hn by lia.
    rewrite scalar_power_loop_S. destruct (Z.ltb_spec 0 n) as [Hpos|Hz].
    + rewrite land_1, shiftr_1 by lia. rewrite IH by (split; [apply Z.div_pos|apply Z.div_lt_upper_bound]; lia). f_equal. rewrite spow_sq.
      destruct (Z.eqb_spec (n `mod` 2) 1) as [H1|H1].
      * replace (Z.to_nat n) with (S (2 * Z.to_nat (n `div` 2))) by dlia. cbn [spow]. ring.
      * replace (Z.to_nat n) with (2 * Z.to_nat (n `div` 2))%nat by dlia. ring.
    + assert (n = 0) as -> by lia. f_equal. change (Z.to_nat 0) with 0%nat. cbn [spow]. ring.
Qed.

(** [Scalar::power] is exponentiation on the whole range of a [usize]. *)
Lemma scalar_power_spec {E} x n :
  in_u 64 n → scalar_power (E := E) x n = Ok (spow x (Z.to_nat n)).
Proof.
  intros Hn. unfold scalar_power. rewrite scalar_power_loop_spec by exact Hn. cbn. f_equal. ring.
Qed.

(** The multiple by a natural number. *)
Fixpoint nmul (n : nat) a : Point := match n with O => p_identity | S n => p_add (nmul n a) a end.

Lemma p_add_0_r a : p_add a p_identity = a.
Proof. by rewrite p_add_comm, p_add_0. Qed.
Lemma p_add_cancel a b c : p_add a b = p_add a c → b = c.
Proof.
  intros Habc. rewrite <-(p_add_0 b), <-(p_add_0 c), <-(p_add_neg a), (p_add_comm a).
  by rewrite <-!p_add_assoc, Habc.
Qed.
Lemma p_add_idem a : p_add a a = a → a = p_identity.
Proof. intros Ha. apply (p_add_cancel a). by rewrite p_add_0_r. Qed.
Lemma p_mul_0 a : p_mul s_zero a = p_identity.
Proof.
  apply p_add_idem. rewrite <-p_mul_add_s. f_equal. ring.
Qed.
Lemma p_mul_identity x : p_mul x p_identity = p_identity.
Proof.
  apply p_add_idem. by rewrite <-p_mul_add_p, p_add_0.
Qed.
Lemma p_neg_unique a b : p_add a b = p_identity → b = p_neg a.
Proof.
  intros Hab. rewrite <-(p_add_0 b), <-(p_add_neg a), (p_add_comm a), <-p_add_assoc, Hab.
  apply p_add_0_r.
Qed.
Lemma p_mul_neg x a : p_mul (s_neg x) a = p_neg (p_mul x a).
Proof.
  apply p_neg_unique. rewrite <-p_mul_add_s. replace (s_add x (s_neg x)) with s_zero by ring.
  apply p_mul_0.
Qed.
Lemma p_neg_add a b : p_neg (p_add a b) = p_add (p_neg a) (p_neg b).
Proof.
  symmetry. apply p_neg_unique.
  rewrite (p_add_comm a b), <-p_add_assoc, (p_add_assoc a), p_add_neg, p_add_0. apply p_add_neg.
Qed.
Lemma p_neg_neg a : p_neg (p_neg a) = a.
Proof. symmetry. apply p_neg_unique. rewrite p_add_comm. apply p_add_neg. Qed.
Lemma p_mul_sub x y a : p_mul (s_sub x y) a = p_add (p_mul x a) (p_neg (p_mul y a)).
Proof. replace (s_sub x y) with (s_add x (s_neg y)) by ring. by rewrite p_mul_add_s, p_mul_neg. Qed.
Lemma p_mul_neg_p x a : p_mul x (p_neg a) = p_neg (p_mul x a).
Proof. apply p_neg_unique. by rewrite <-p_mul_add_p, p_add_neg, p_mul_identity. Qed.
Lemma ge_sub_diag a : ge_sub a a = ge_zero.
Proof. apply p_add_neg. Qed.
Lemma ge_add_sub a b : ge_sub (ge_add a b) b = a.
Proof. unfold ge_sub, ge_add. by rewrite <-p_add_assoc, p_add_neg, p_add_0_r. Qed.
Lemma ge_sub_eq_zero a b : ge_sub a b = ge_zero ↔ a = b.
Proof.
  split; [|intros ->; apply ge_sub_diag]. intros Hs. unfold ge_sub, ge_zero in Hs.
  rewrite p_add_comm in Hs. apply p_neg_unique in Hs. by rewrite p_neg_neg in Hs.
Qed.

Lemma p_sub_add a b : p_add (p_add a (p_neg b)) b = a.
Proof. by rewrite <-p_add_assoc, (p_add_comm (p_neg b)), p_add_neg, p_add_0_r. Qed.
Lemma ge_sub_cross a b c d : ge_sub a b = ge_sub c d → ge_sub a c = ge_sub b d.
Proof.
  unfold ge_sub. intros Heq. apply (p_add_cancel c).
  rewrite (p_add_comm c), p_sub_add. rewrite (p_add_comm b), p_add_assoc, <-Heq. by rewrite p_sub_add.
Qed.

Lemma nmul_add n m a : nmul (n + m) a = p_add (nmul n a) (nmul m a).
Proof.
  induction m as [|m IH]; rewrite ?Nat.add_0_r, ?Nat.add_succ_r; cbn; [by rewrite p_add_0_r|].
  by rewrite IH, p_add_assoc.
Qed.
Lemma nmul_double n a : nmul n (p_add a a) = nmul (2 * n) a.
Proof.
  induction n as [|n IH]; [done|]. replace (2 * S n)%nat with (2 * n + 2)%nat by lia.
  rewrite nmul_add, <-IH. cbn. by rewrite p_add_0.
Qed.
Lemma nmul_of_u64 n a : Z.of_nat n < 2 ^ 64 → p_mul (s_of_u64 (Z.of_nat n)) a = nmul n a.
Proof.
  induction n as [|n IH]; intros Hn; [by rewrite s_of_u64_0, p_mul_0|].
  rewrite Nat2Z.inj_succ. unfold Z.succ. rewrite s_of_u64_S, p_mul_add_s, IH, p_mul_1 by lia. done.
Qed.

Lemma ge_mul_u64_loop_S fuel q a n :
  ge_mul_u64_loop (S fuel) q a n =
  if n =? 0 then Some q
  else ge_mul_u64_loop fuel (if Z.land n 1 =? 0 then q else p_add q a) (p_add a a) (Z.shiftr n 1).
Proof. done. Qed.
Lemma ge_mul_u64_loop_spec fuel q a n :
  0 ≤ n < 2 ^ Z.of_nat fuel →
  ge_mul_u64_loop (S fuel) q a n = Some (p_add q (nmul (Z.to_nat n) a)).
Proof.
  revert q a n. induction fuel as [|fuel IH]; intros q a n Hn.
  - assert (n = 0) as -> by (cbn in Hn; lia). cbn. by rewrite p_add_0_r.
  - rewrite Nat2Z.inj_succ, Z.pow_succ_r in Hn by lia.
    rewrite ge_mul_u64_loop_S. destruct (Z.eqb_spec n 0) as [->|Hz]; [cbn; by rewrite p_add_0_r|].
    rewrite land_1, shiftr_1 by lia. rewrite IH by (split; [apply Z.div_pos|apply Z.div_lt_upper_bound]; lia). f_equal. rewrite nmul_double.
    destruct (Z.eqb_spec (n `mod` 2) 0) as [H1|H1].
    + by replace (Z.to_nat n) with (2 * Z.to_nat (n `div` 2))%nat by dlia.
    + replace (Z.to_nat n) with (1 + 2 * Z.to_nat (n `div` 2))%nat by dlia.
      by rewrite nmul_add, <-p_add_assoc, (p_add_0 a : nmul 1 a = a).
Qed.

(** [GroupElement * u64] is the multiplication by the scalar of the integer. *)
Lemma ge_mul_u64_spec {E} a n : in_u 64 n → ge_mul_u64 (E := E) a n = Ok (p_mul (s_of_u64 n) a).
Proof.
  intros Hn. unfold ge_mul_u64. rewrite ge_mul_u64_loop_spec by exact Hn. cbn. f_equal.
  rewrite p_add_0, <-nmul_of_u64; rewrite Z2Nat.id; try done; apply Hn.
Qed.

Lemma s_of_u64_add n m : 0 ≤ n → 0 ≤ m → n + m < 2 ^ 64 → s_of_u64 (n + m) = s_add (s_of_u64 n) (s_of_u64 m).
Proof.
  intros Hn Hm Hs. revert Hs. pattern m. apply natlike_ind; [| |done].
  - intros _. rewrite Z.add_0_r, s_of_u64_0. ring.
  - intros k Hk IH Hs. unfold Z.succ in *. rewrite Z.add_assoc, s_of_u64_S, IH, s_of_u64_S by lia. ring.
Qed.
Lemma s_of_u64_1 : s_of_u64 1 = s_one.
Proof. change 1 with (0 + 1). rewrite s_of_u64_S, s_of_u64_0 by lia. ring. Qed.
Lemma s_of_u64_mul n m : 0 ≤ n → 0 ≤ m → n * m < 2 ^ 64 → m < 2 ^ 64 →
  s_of_u64 (n * m) = s_mul (s_of_u64 n) (s_of_u64 m).
Proof.
  intros Hn Hm Hs Hm64. revert Hs. pattern n. apply natlike_ind; [| |done].
  - intros _. rewrite Z.mul_0_l, s_of_u64_0. ring.
  - intros k Hk IH Hs. assert (k * m < 2 ^ 64) by nia.
    destruct (decide (m = 0)) as [->|Hm0]; [rewrite Z.mul_0_r, s_of_u64_0; ring|].
    assert (k + 1 ≤ Z.succ k * m) by nia.
    rewrite Z.mul_succ_l, s_of_u64_add, IH by lia. unfold Z.succ. rewrite s_of_u64_S by lia. ring.
Qed.

(** ** Sums and powers *)
Lemma ge_sum_nil : ge_sum [] = p_identity.
Proof. done. Qed.
Lemma ge_sum_cons a l : ge_sum (a :: l) = p_add a (ge_sum l).
Proof.
  unfold ge_sum, ge_zero, ge_add. cbn [foldl]. rewrite p_add_0.
  assert (∀ c, foldl (λ sum v, p_add sum v) c l = p_add c (foldl (λ sum v, p_add sum v) p_identity l)) as Hf;
    [|apply Hf].
  induction l as [|b l IH]; intros c; cbn; [by rewrite p_add_0_r|].
  by rewrite IH, (IH (p_add p_identity b)), p_add_0, p_add_assoc.
Qed.
Lemma ge_sum_app l1 l2 : ge_sum (l1 ++ l2) = p_add (ge_sum l1) (ge_sum l2).
Proof.
  induction l1 as [|a l1 IH]; cbn [app]; [by rewrite ge_sum_nil, p_add_0|].
  by rewrite !ge_sum_cons, IH, p_add_assoc.
Qed.
Lemma ge_sum_mul x l : ge_sum (p_mul x <$> l) = p_mul x (ge_sum l).
Proof.
  induction l as [|a l IH]; cbn [fmap list_fmap]; [by rewrite ge_sum_nil, p_mul_identity|].
  by rewrite !ge_sum_cons, IH, p_mul_add_p.
Qed.
Lemma ge_sum_foldr l : foldr p_add p_identity l = ge_sum l.
Proof. induction l as [|a l IH]; [done|]. by rewrite ge_sum_cons, <-IH. Qed.

(** The sum of scalars, zero for none. *)
Definition s_sum (l : list Scalar) : Scalar := foldr s_add s_zero l.
Lemma s_sum_nil : s_sum [] = s_zero.
Proof. done. Qed.
Lemma s_sum_cons x l : s_sum (x :: l) = s_add x (s_sum l).
Proof. done. Qed.
Ltac s_sum_ring IH :=
  cbn [app fmap list_fmap foldl]; rewrite ?s_sum_nil, ?s_sum_cons, ?IH; ring.
Lemma s_sum_app l1 l2 : s_sum (l1 ++ l2) = s_add (s_sum l1) (s_sum l2).
Proof. induction l1 as [|x l1 IH]; s_sum_ring IH. Qed.
Lemma s_sum_foldl l c : foldl s_add c l = s_add c (s_sum l).
Proof. revert c. induction l as [|x l IH]; intros c; s_sum_ring IH. Qed.
Lemma scalar_sum_spec l : l ≠ [] → scalar_sum l = Some (s_sum l).
Proof. destruct l as [|x l]; [done|]. intros _. unfold scalar_sum. by rewrite s_sum_foldl. Qed.
Lemma s_sum_mul_l x l : s_sum (s_mul x <$> l) = s_mul x (s_sum l).
Proof. induction l as [|y l IH]; s_sum_ring IH. Qed.
Lemma s_sum_add {A} (f g : A → Scalar) l :
  s_sum ((λ i, s_add (f i) (g i)) <$> l) = s_add (s_sum (f <$> l)) (s_sum (g <$> l)).
Proof. induction l as [|y l IH]; s_sum_ring IH. Qed.
Lemma ge_sum_s_sum l a : ge_sum ((λ x, p_mul x a) <$> l) = p_mul (s_sum l) a.
Proof.
  induction l as [|x l IH]; cbn [fmap list_fmap]; [by rewrite ge_sum_nil, s_sum_nil, p_mul_0|].
  by rewrite ge_sum_cons, IH, <-p_mul_add_s.
Qed.

(** The [n] first items of [exp_iter] are the powers, from 0. *)
Lemma exp_take_from n x k :
  exp_take n (mkScalarExp x (spow x k)) = spow x <$> seq k n.
Proof. revert k. induction n as [|n IH]; intros k; [done|]. cbn. f_equal. apply (IH (S k)). Qed.
Lemma exp_take_spec n x : exp_take n (exp_iter x) = spow x <$> seq 0 n.
Proof. apply (exp_take_from n x 0). Qed.
End laws.

(** * An instance of the group: the integers modulo its order

    The residues modulo the order of the Ristretto group, as scalars and as
    points (an additive group generated by one), with a checksum in the place
    of BLAKE2b: [DalekLaws] is consistent, and witnesses evaluate on it. *)
Unset Default Proof Using.
Local Open Scope Z_scope.

Definition ell : Z := 2 ^ 252 + 27742317777372353535851937790883648493.
Definition zp : Type := dsig (λ x : Z, 0 ≤ x < ell).

Lemma ell_pos : 0 < ell.
Proof. done. Qed.
Definition zp_of (x : Z) : zp := dexist (x `mod` ell) (Z.mod_pos_bound x ell ell_pos).
Definition zp_val (x : zp) : Z := proj1_sig x.

Lemma zp_eq (x y : zp) : zp_val x = zp_val y → x = y.
Proof. apply dsig_eq. Qed.
Lemma zp_range (x : zp) : 0 ≤ zp_val x < ell.
Proof. exact (proj2_dsig x). Qed.
Lemma zp_val_of x : zp_val (zp_of x) = x `mod` ell.
Proof. done. Qed.
Lemma zp_mod (x : zp) : zp_val x `mod` ell = zp_val x.
Proof. apply Z.mod_small, zp_range. Qed.

#[export] Instance zp_eq_dec : EqDecision zp.
Proof. intros x y. destruct (decide (zp_val x = zp_val y)) as [Heq|Hne]; [left; by apply zp_eq|right; congruence]. Defined.

Definition zp_from_canonical (l : list Z) : option zp :=
  match decide (0 ≤ from_be l < ell) with left Hl => Some (dexist (from_be l) Hl) | right _ => None end.
Definition checksum (n : nat) (l : list Z) : list Z := be_bytes n (foldl (λ a x, a * 263 + x + 1) 7 l).

#[export] Instance zp_dalek : Dalek := {|
  Scalar := zp; Point := zp;
  s_zero := zp_of 0; s_one := zp_of 1;
  s_add x y := zp_of (zp_val x + zp_val y); s_sub x y := zp_of (zp_val x - zp_val y);
  s_mul x y := zp_of (zp_val x * zp_val y); s_neg x := zp_of (- zp_val x);
  s_of_u64 := zp_of;
  s_to_bytes x := be_bytes 32 (zp_val x);
  s_from_canonical_bytes := zp_from_canonical;
  s_from_bytes_mod_order_wide l := zp_of (from_be l);
  p_identity := zp_of 0; p_basepoint := zp_of 1;
  p_add x y := zp_of (zp_val x + zp_val y); p_neg x := zp_of (- zp_val x);
  p_mul s x := zp_of (zp_val s * zp_val x);
  p_compress x := be_bytes 32 (zp_val x);
  p_decompress := zp_from_canonical;
  p_from_uniform_bytes l := zp_of (from_be l);
  p_vartime_multiscalar_mul ss ps :=
    foldr (λ x y, zp_of (zp_val x + zp_val y)) (zp_of 0)
      (zip_with (λ s x, zp_of (zp_val s * zp_val x)) ss ps);
  blake2b := checksum;
|}.


Lemma zp_ring_theory :
  ring_theory (zp_of 0) (zp_of 1) (λ x y, zp_of (zp_val x + zp_val y))
    (λ x y, zp_of (zp_val x * zp_val y)) (λ x y, zp_of (zp_val x - zp_val y))
    (λ x, zp_of (- zp_val x)) (eq (A := zp)).
Proof.
  split; intros; apply zp_eq; rewrite ?zp_val_of.
  - rewrite Z.mod_0_l, Z.add_0_l by done. apply zp_mod.
  - by rewrite Z.add_comm.
  - rewrite Zplus_mod_idemp_l, Zplus_mod_idemp_r. f_equal. ring.
  - rewrite Zmult_mod_idemp_l, Z.mul_1_l. apply zp_mod.
  - by rewrite Z.mul_comm.
  - rewrite Zmult_mod_idemp_l, Zmult_mod_idemp_r. f_equal. ring.
  - rewrite Zplus_mod_idemp_l, Zplus_mod_idemp_r, Zmult_mod_idemp_l. f_equal. ring.
  - rewrite Zplus_mod_idemp_r. f_equal.
  - rewrite Zplus_mod_idemp_r. f_equal. ring.
Qed.

Lemma ell_lt_256 : ell < 2 ^ 256.
Proof. done. Qed.
Lemma zp_roundtrip (x : zp) : zp_from_canonical (be_bytes 32 (zp_val x)) = Some x.
Proof.
  pose proof (zp_range x) as Hx. pose proof ell_lt_256.
  assert (from_be (be_bytes 32 (zp_val x)) = zp_val x) as Hb.
  { apply from_be_bytes. unfold in_u. change (8 * Z.of_nat 32) with 256. lia. }
  unfold zp_from_canonical. rewrite Hb. destruct (decide _) as [Hl|]; [|done].
  f_equal. by apply zp_eq.
Qed.

#[export] Instance zp_dalek_laws : DalekLaws.
Proof.
  split; cbn [Scalar Point s_zero s_one s_add s_sub s_mul s_neg s_of_u64 s_to_bytes
    s_from_canonical_bytes p_identity p_basepoint p_add p_neg p_mul p_compress p_decompress
    p_vartime_multiscalar_mul zp_dalek].
  - apply zp_ring_theory.
  - done.
  - intros n Hn Hn1. apply zp_eq. rewrite !zp_val_of. rewrite Zplus_mod_idemp_l, Zplus_mod_idemp_r. done.
  - intros a b c. apply zp_eq. rewrite !zp_val_of, Zplus_mod_idemp_l, Zplus_mod_idemp_r. f_equal. ring.
  - intros a b. by rewrite Z.add_comm.
  - intros a. apply zp_eq. rewrite !zp_val_of, Zplus_mod_idemp_l, Z.add_0_l. apply zp_mod.
  - intros a. apply zp_eq. rewrite !zp_val_of, Zplus_mod_idemp_r. f_equal. ring.
  - intros x y a. apply zp_eq. rewrite !zp_val_of, Zmult_mod_idemp_l, Zplus_mod_idemp_l, Zplus_mod_idemp_r.
    f_equal. ring.
  - intros x a b. apply zp_eq. rewrite !zp_val_of, Zmult_mod_idemp_r, Zplus_mod_idemp_l, Zplus_mod_idemp_r.
    f_equal. ring.
  - intros x y a. apply zp_eq. rewrite !zp_val_of, Zmult_mod_idemp_l, Zmult_mod_idemp_r. f_equal. ring.
  - intros a. apply zp_eq. rewrite !zp_val_of, Zmult_mod_idemp_l, Z.mul_1_l. apply zp_mod.
  - done.
  - intros s. apply length_be_bytes.
  - apply zp_roundtrip.
  - intros p. apply length_be_bytes.
  - apply zp_roundtrip.
  - intros x y Hx Hy Heq. apply (f_equal zp_val) in Heq. rewrite !zp_val_of in Heq.
    rewrite !Zmult_mod_idemp_r, !Zmult_mod_idemp_l, !Z.mul_1_r in Heq.
    assert (2 ^ 64 < ell) by done. unfold in_u in *.
    rewrite !Z.mod_small in Heq by lia. done.
Qed.
