(* ===== verification/Lock.v ===== *)
(** * Locks for one and for several recipients ([chain-crypto/src/asymlock.rs],
    [multilock.rs])

    Data encrypted under the shared point of an ephemeral key and the key of
    the recipient, or under a session key that is masked with one such point
    per recipient.  The key derivation and the authenticated cipher are the
    class [Aead]; what is used of them is [AeadLaws].  The draws of the random
    generator are arguments. *)
From S2P Require Import Prelude Codec Sum Group.
Local Open Scope Z_scope.

Class Aead := {
  hkdf_expand : list Z → list Z → nat → list Z;
  (** The encrypted data and its tag, under a key and a nonce. *)
  aead_encrypt : list Z → list Z → list Z → list Z * list Z;
  aead_decrypt : list Z → list Z → list Z → list Z → option (list Z) }.
Class AeadLaws `{Aead} : Prop := {
  aead_lengths key nonce data :
    length (aead_encrypt key nonce data).1 = length data ∧ length (aead_encrypt key nonce data).2 = 16%nat;
  aead_opens key nonce data :
    aead_decrypt key nonce (aead_encrypt key nonce data).1 (aead_encrypt key nonce data).2 = Some data }.

Section locks.
Context `{Dalek} `{Aead}.

(** ** One recipient: [asymlock.rs] *)
Inductive AsymError := AsymDataTooSmall | AsymPointInvalid | AsymTagMismatch.
Definition SCHEME_OVERHEAD : nat := (GE_BYTES_LEN + 16)%nat.
(** A cipher context is its key and its nonce. *)
Definition asym_symmetric_key (app_level_info : list Z) (p : Point) : list Z * list Z :=
  let symkey := hkdf_expand (ge_to_bytes p) app_level_info 44 in (take 32 symkey, drop 32 symkey).
Definition asym_encrypt (app_info : list Z) (receiver_pk : Point) (data : list Z) (r : Scalar) : list Z :=
  let pk := ge_mul ge_generator r in
  let shared := ge_mul receiver_pk r in
  let '(key, nonce) := asym_symmetric_key app_info shared in
  let '(encrypted, tag) := aead_encrypt key nonce data in
  ge_to_bytes pk ++ encrypted ++ tag.
(** The new contents of [out], of which only the length is read. *)
Definition asym_decrypt (app_info : list Z) (sk : Scalar) (data : list Z) (out : nat) : outcome AsymError (list Z) :=
  if decide (length data < SCHEME_OVERHEAD)%nat then Err AsymDataTooSmall
  else
    assert_that (length data - SCHEME_OVERHEAD =? out)%nat ;;
    pk_data ← slice_range data 0 GE_BYTES_LEN;
    payload ← slice_range data GE_BYTES_LEN (length data - 16);
    tag ← slice_range data (length data - 16) (length data);
    pk ← ge_from_bytes pk_data;
    pk ← ok_or pk AsymPointInvalid;
    let '(key, nonce) := asym_symmetric_key app_info (ge_mul pk sk) in
    ok_or (aead_decrypt key nonce payload tag) AsymTagMismatch.

(** ** Several recipients: [multilock.rs] *)
Inductive MultiError :=
| MultiDataNoHeader | MultiDataTooSmall | MultiPointInvalid | MultiTagMismatch | MultiVersionUnknown
| MultiHeaderNotValid | MultiPkNotParticipant.
#[export] Instance MultiError_eq_dec : EqDecision MultiError.
Proof. solve_decision. Defined.
Definition multi_symmetric_key {E} (app_level_info prk : list Z) : outcome E (list Z * list Z) :=
  assert_that (length prk =? 16)%nat ;;
  let symkey := hkdf_expand prk app_level_info 28 in
  Ok (take 16 symkey, drop 16 symkey).
Definition HEADER_SIZE : nat := 4.
Definition EPHEMERAL_PK_SIZE : nat := GE_BYTES_LEN.
Definition TAG_SIZE : nat := 16.
Definition RECIPIENT_KEY_SIZE : nat := GE_BYTES_LEN.
Definition SESSION_KEY_SIZE : nat := 16.
Definition PAD1 : Z := 0x12.
Definition PAD2 : Z := 0x34.
Definition recipient_start {E} (ith : nat) : outcome E nat :=
  assert_that (ith <? 256)%nat ;; Ok (HEADER_SIZE + EPHEMERAL_PK_SIZE + ith * (RECIPIENT_KEY_SIZE + SESSION_KEY_SIZE))%nat.
Definition recipient_public_key_nth {E} (slice : list Z) (ith : nat) : outcome E (list Z) :=
  start ← recipient_start ith; slice_range slice start (start + RECIPIENT_KEY_SIZE).
Definition recipient_public_key_nth_point (slice : list Z) (ith : nat) : outcome MultiError Point :=
  pk_slice ← recipient_public_key_nth slice ith;
  p ← ge_from_bytes pk_slice;
  ok_or p MultiPointInvalid.
Definition recipient_session_key_nth {E} (slice : list Z) (ith : nat) : outcome E (list Z) :=
  start ← recipient_start ith; stop ← recipient_start (S ith); slice_range slice (start + RECIPIENT_KEY_SIZE) stop.
Definition prefix_size (participants : nat) : nat :=
  (HEADER_SIZE + EPHEMERAL_PK_SIZE + participants * (SESSION_KEY_SIZE + RECIPIENT_KEY_SIZE))%nat.
Definition scheme_overhead (participants : nat) : nat := (prefix_size participants + TAG_SIZE)%nat.

(** The bytes of two slices, as far as both go. *)
Definition xor_bytes (a b : list Z) : list Z := zip_with Z.lxor a b.
Definition recipient_data (r : Scalar) (session_key : list Z) (receiver_pk : Point) : list Z :=
  ge_to_bytes receiver_pk ++ xor_bytes session_key (ge_to_bytes (ge_mul receiver_pk r)).
Definition multi_encrypt (app_info : list Z) (receiver_pks : list Point) (data : list Z) (r : Scalar) (session_key : list Z) :
    outcome infallible (list Z) :=
  assert_that (negb (length receiver_pks =? 0) && (length receiver_pks <? 256))%nat ;;
  let pk := ge_mul ge_generator r in
  '(key, nonce) ← multi_symmetric_key app_info session_key;
  let '(encrypted, tag) := aead_encrypt key nonce data in
  Ok ([1; PAD1; PAD2; Z.of_nat (length receiver_pks)] ++ ge_to_bytes pk ++
      concat (recipient_data r session_key <$> receiver_pks) ++ tag ++ encrypted).
Definition lock_nb_participants (data : list Z) : outcome MultiError nat :=
  if decide (length data < HEADER_SIZE)%nat then Err MultiDataTooSmall
  else
    b0 ← unwrap_opt (data !! 0%nat);
    if decide (b0 ≠ 1) then Err MultiVersionUnknown
    else
      b1 ← unwrap_opt (data !! 1%nat);
      b2 ← unwrap_opt (data !! 2%nat);
      if decide (b1 ≠ PAD1 ∨ b2 ≠ PAD2) then Err MultiHeaderNotValid
      else
        b3 ← unwrap_opt (data !! 3%nat);
        if decide (b3 = 0) then Err MultiHeaderNotValid
        else
          let participants := Z.to_nat b3 in
          if decide (length data < scheme_overhead participants)%nat then Err MultiDataTooSmall else Ok participants.
(** The last recipient with this key. *)
Definition find_recipient {E} (data pk_bytes : list Z) (participants : nat) : outcome E (option (list Z)) :=
  foldM (λ found i,
    key ← recipient_public_key_nth data i;
    if decide (key = pk_bytes) then (session ← recipient_session_key_nth data i; Ok (Some session)) else Ok found)
    None (seq 0 participants).
Definition multi_decrypt (app_info : list Z) (sk : Scalar) (data : list Z) (out : nat) : outcome MultiError (list Z) :=
  participants ← lock_nb_participants data;
  assert_that (length data - scheme_overhead participants =? out)%nat ;;
  found ← find_recipient data (ge_to_bytes (ge_mul ge_generator sk)) participants;
  recipient_key ← ok_or found MultiPkNotParticipant;
  pk_data ← slice_range data 4 (GE_BYTES_LEN + 4);
  pk ← ge_from_bytes pk_data;
  pk ← ok_or pk MultiPointInvalid;
  let shared := ge_mul pk sk in
  let session_key := xor_bytes recipient_key (ge_to_bytes shared) in
  let start_payload := prefix_size participants in
  tag ← slice_range data start_payload (start_payload + TAG_SIZE);
  emsg ← slice_range data (start_payload + TAG_SIZE) (length data);
  '(key, nonce) ← multi_symmetric_key app_info session_key;
  ok_or (aead_decrypt key nonce emsg tag) MultiTagMismatch.
Definition participants (data : list Z) : outcome MultiError (list Point) :=
  nb ← lock_nb_participants data;
  mapM (recipient_public_key_nth_point data) (seq 0 nb).
End locks.

(** ** The bytes of a box *)
Lemma blocks_split {A} (es : list (list A)) n i e :
  Forall (λ x, length x = n) es → es !! i = Some e →
  ∃ a b, concat es = a ++ e ++ b ∧ length a = (i * n)%nat.
Proof.
  intros Hn. revert i. induction Hn as [|x es Hx Hn IH]; intros [|i] Hi; [done|done| |].
  - injection Hi as ->. by exists [], (concat es).
  - destruct (IH i Hi) as (a & b & Heq & Hl). exists (x ++ a), b. cbn [concat]. rewrite Heq, <-app_assoc. split; [done|].
    rewrite length_app, Hl. lia.
Qed.
Lemma length_concat_blocks {A} (es : list (list A)) n : Forall (λ x, length x = n) es → length (concat es) = (length es * n)%nat.
Proof. induction 1 as [|x es Hx _ IH]; [done|]. cbn [concat length]. rewrite length_app, IH. lia. Qed.
Lemma xor_bytes_twice a b : (length a ≤ length b)%nat → xor_bytes (xor_bytes a b) b = a.
Proof.
  revert b. induction a as [|x a IH]; intros [|y b] Hl; cbn in *; [done|done|lia|]. unfold xor_bytes in *. rewrite IH by lia.
  by rewrite Z.lxor_assoc, Z.lxor_nilpotent, Z.lxor_0_r.
Qed.

(** Reading the elements of a list by their indices. *)
Lemma mapM_indices {E A} (f : nat → outcome E A) k l :
  (∀ i a, l !! i = Some a → f (k + i)%nat = Ok a) → mapM f (seq k (length l)) = Ok l.
Proof.
  revert k. induction l as [|a l IH]; intros k Hf; [done|]. cbn [length seq mapM]. pose proof (Hf 0%nat a eq_refl) as H0.
  rewrite Nat.add_0_r in H0. rewrite H0. cbn [mbind outcome_bind]. rewrite IH; [done|]. intros i b Hb. specialize (Hf (S i) b Hb).
  by rewrite Nat.add_succ_r in Hf.
Qed.

Section opening.
Context `{DalekLaws} `{AeadLaws}.
Set Default Proof Using "Type*".

(** Diffie and Hellman: both sides have the same point. *)
Lemma shared_point r sk : ge_mul (ge_mul ge_generator r) sk = ge_mul (ge_mul ge_generator sk) r.
Proof. unfold ge_mul. rewrite <-!p_mul_mul. f_equal. apply (Rmul_comm s_ring). Qed.
Lemma to_bytes_32 p : length (ge_to_bytes p) = GE_BYTES_LEN.
Proof. apply p_bytes_32. Qed.
Lemma from_to_bytes {E} p : ge_from_bytes (ge_to_bytes p) = Ok (Some p) :> outcome E _.
Proof. unfold ge_from_bytes. rewrite to_bytes_32. cbn. f_equal. apply p_bytes_roundtrip. Qed.
Lemma to_bytes_inj p q : ge_to_bytes p = ge_to_bytes q → p = q.
Proof. intros Heq. pose proof (p_bytes_roundtrip p) as Hp. unfold ge_to_bytes in Heq. rewrite Heq, p_bytes_roundtrip in Hp. congruence. Qed.

(** The owner of the key opens the box. *)
Theorem asym_lock_opens app_info sk data r :
  asym_decrypt app_info sk (asym_encrypt app_info (ge_mul ge_generator sk) data r) (length data) = Ok data.
Proof.
  unfold asym_encrypt, asym_decrypt. rewrite <-shared_point. destruct (asym_symmetric_key app_info _) as [key nonce] eqn:Hkey.
  pose proof (aead_lengths key nonce data) as [Hle Hlt]. pose proof (aead_opens key nonce data) as Hopen.
  destruct (aead_encrypt key nonce data) as [encrypted tag]. cbn [fst snd] in *.
  pose proof (to_bytes_32 (ge_mul ge_generator r)) as Hpk.
  assert (length (ge_to_bytes (ge_mul ge_generator r) ++ encrypted ++ tag) = (GE_BYTES_LEN + length data + 16)%nat) as Hlen
    by (rewrite !length_app; lia).
  unfold SCHEME_OVERHEAD. rewrite Hlen, decide_False by lia.
  replace (GE_BYTES_LEN + length data + 16 - (GE_BYTES_LEN + 16))%nat with (length data) by lia.
  rewrite Nat.eqb_refl. cbn [assert_that mbind outcome_bind]. rewrite slice_range_head by done. cbn [mbind outcome_bind].
  rewrite (slice_range_mid _ _ _ GE_BYTES_LEN) by lia. cbn [mbind outcome_bind].
  rewrite app_assoc, slice_range_tail by (rewrite ?length_app; lia). cbn [mbind outcome_bind]. rewrite from_to_bytes. cbn [mbind outcome_bind ok_or].
  by rewrite Hkey, Hopen.
Qed.
(** The one panic is a buffer of another length. *)
Theorem asym_decrypt_panics app_info sk data out :
  asym_decrypt app_info sk data out = Panic ↔ (SCHEME_OVERHEAD ≤ length data ∧ length data - SCHEME_OVERHEAD ≠ out)%nat.
Proof.
  unfold asym_decrypt. case_decide as Hl; [split; [done|lia]|]. unfold SCHEME_OVERHEAD, GE_BYTES_LEN in *.
  destruct (Nat.eqb_spec (length data - (32 + 16)) out) as [Heq|Hne]; cbn [assert_that mbind outcome_bind]; [|split; [lia|done]].
  split; [|lia]. rewrite slice_range_ok by lia. cbn [mbind outcome_bind]. rewrite !slice_range_ok by lia. cbn [mbind outcome_bind].
  unfold ge_from_bytes. rewrite length_take, length_drop. unfold GE_BYTES_LEN. replace (32 - 0)%nat with 32%nat by lia.
  rewrite Nat.min_l by lia. cbn [Nat.eqb assert_that mbind outcome_bind].
  destruct (p_decompress _); cbn [ok_or mbind outcome_bind]; [|done]. destruct (asym_symmetric_key _ _) as [key nonce].
  by destruct (aead_decrypt _ _ _ _).
Qed.

(** *** The layout of a box for several *)
Section box.
Context (app_info : list Z) (pks : list Point) (data : list Z) (r : Scalar) (session_key : list Z).
Context (Hpks : (0 < length pks < 256)%nat) (Hkey : length session_key = 16%nat).
Abbreviation lock_entry := (recipient_data r session_key).

Lemma entry_length : Forall (λ x, length x = 48%nat) (lock_entry <$> pks).
Proof.
  apply Forall_fmap, Forall_true. intros pk. cbn. unfold recipient_data, xor_bytes. rewrite length_app, length_zip_with, !to_bytes_32.
  rewrite Hkey. done.
Qed.
Lemma box_layout :
  ∃ key nonce, multi_symmetric_key (E := MultiError) app_info session_key = Ok (key, nonce) ∧
    multi_encrypt app_info pks data r session_key =
    Ok ([1; PAD1; PAD2; Z.of_nat (length pks)] ++ ge_to_bytes (ge_mul ge_generator r) ++ concat (lock_entry <$> pks) ++
        (aead_encrypt key nonce data).2 ++ (aead_encrypt key nonce data).1).
Proof.
  unfold multi_encrypt, multi_symmetric_key. rewrite Hkey. cbn [Nat.eqb assert_that mbind outcome_bind].
  eexists _, _. split; [reflexivity|]. destruct (Nat.eqb_spec (length pks) 0); [lia|]. destruct (Nat.ltb_spec (length pks) 256); [|lia].
  cbn [negb andb assert_that mbind outcome_bind]. by destruct (aead_encrypt _ _ _).
Qed.
Context (tail : list Z) (Htail : (16 ≤ length tail)%nat).
Definition box : list Z :=
  [1; PAD1; PAD2; Z.of_nat (length pks)] ++ ge_to_bytes (ge_mul ge_generator r) ++ concat (lock_entry <$> pks) ++ tail.

Lemma box_entry i pk : pks !! i = Some pk → ∃ a b, box = a ++ lock_entry pk ++ b ∧ length a = (36 + i * 48)%nat.
Proof.
  intros Hi. destruct (blocks_split (lock_entry <$> pks) 48 i (lock_entry pk)) as (a & b & Heq & Hl);
    [apply entry_length|by rewrite list_lookup_fmap, Hi|].
  exists ([1; PAD1; PAD2; Z.of_nat (length pks)] ++ ge_to_bytes (ge_mul ge_generator r) ++ a), (b ++ tail). unfold box. rewrite Heq.
  split; [by rewrite <-!app_assoc|]. rewrite !length_app, to_bytes_32, Hl. unfold GE_BYTES_LEN. cbn [length]. lia.
Qed.
Lemma box_length : length box = (52 + length pks * 48 + (length tail - 16))%nat.
Proof.
  unfold box. rewrite !length_app, to_bytes_32, (length_concat_blocks _ 48) by apply entry_length. rewrite length_fmap.
  unfold GE_BYTES_LEN. cbn [length]. lia.
Qed.
Lemma box_participants : lock_nb_participants box = Ok (length pks).
Proof.
  unfold lock_nb_participants. pose proof box_length as Hl. unfold scheme_overhead, prefix_size, HEADER_SIZE, EPHEMERAL_PK_SIZE, GE_BYTES_LEN,
    SESSION_KEY_SIZE, RECIPIENT_KEY_SIZE, TAG_SIZE, GE_BYTES_LEN.
  rewrite decide_False by lia. change (box !! 0%nat) with (Some 1). change (box !! 1%nat) with (Some PAD1). change (box !! 2%nat) with (Some PAD2).
  change (box !! 3%nat) with (Some (Z.of_nat (length pks))). cbn [unwrap_opt mbind outcome_bind].
  rewrite decide_False by (intros Hn; by apply Hn). rewrite decide_False by (intros [Hn|Hn]; by apply Hn). rewrite decide_False by lia.
  rewrite Nat2Z.id. by rewrite decide_False by lia.
Qed.
Lemma box_public_key {E} i pk : pks !! i = Some pk → recipient_public_key_nth box i = Ok (ge_to_bytes pk) :> outcome E _.
Proof.
  intros Hi. pose proof (lookup_lt_Some _ _ _ Hi). destruct (box_entry i pk Hi) as (a & b & -> & Hl).
  unfold recipient_public_key_nth, recipient_start. destruct (Nat.ltb_spec i 256); [|lia]. cbn [assert_that mbind outcome_bind].
  unfold recipient_data. rewrite <-app_assoc. unfold HEADER_SIZE, EPHEMERAL_PK_SIZE, RECIPIENT_KEY_SIZE, SESSION_KEY_SIZE.
  apply slice_range_mid; rewrite ?to_bytes_32, Hl; unfold GE_BYTES_LEN; lia.
Qed.
Lemma box_session_key {E} i pk :
  pks !! i = Some pk → recipient_session_key_nth box i = Ok (xor_bytes session_key (ge_to_bytes (ge_mul pk r))) :> outcome E _.
Proof.
  intros Hi. pose proof (lookup_lt_Some _ _ _ Hi). destruct (box_entry i pk Hi) as (a & b & -> & Hl).
  unfold recipient_session_key_nth, recipient_start. destruct (Nat.ltb_spec i 256); [|lia]. destruct (Nat.ltb_spec (S i) 256); [|lia].
  cbn [assert_that mbind outcome_bind]. unfold recipient_data. rewrite <-app_assoc, (app_assoc a).
  unfold HEADER_SIZE, EPHEMERAL_PK_SIZE, RECIPIENT_KEY_SIZE, SESSION_KEY_SIZE.
  apply slice_range_mid; rewrite length_app, ?to_bytes_32, Hl; unfold xor_bytes, GE_BYTES_LEN; [lia|].
  rewrite length_zip_with, to_bytes_32, Hkey. unfold GE_BYTES_LEN. lia.
Qed.
Lemma box_find {E} pk :
  find_recipient box (ge_to_bytes pk) (length pks) =
  Ok (if decide (pk ∈ pks) then Some (xor_bytes session_key (ge_to_bytes (ge_mul pk r))) else None) :> outcome E _.
Proof.
  assert (∀ n, (n ≤ length pks)%nat → find_recipient box (ge_to_bytes pk) n =
    Ok (if decide (pk ∈ take n pks) then Some (xor_bytes session_key (ge_to_bytes (ge_mul pk r))) else None) :> outcome E _) as Hall;
    [|specialize (Hall (length pks) ltac:(done)); by rewrite firstn_all in Hall].
  unfold find_recipient. intros n. induction n as [|n IH]; intros Hn.
  { cbn. rewrite decide_False; [done|]. by intros ?%elem_of_nil. }
  destruct (lookup_lt_is_Some_2 pks n ltac:(lia)) as [pn Hpn].
  rewrite seq_S, foldM_app, IH by lia. cbn [Nat.add foldM mbind outcome_bind]. rewrite (box_public_key n pn Hpn). cbn [mbind outcome_bind].
  rewrite (take_S_r _ _ _ Hpn).
  destruct (decide (ge_to_bytes pn = ge_to_bytes pk)) as [Heq|Heq].
  - apply to_bytes_inj in Heq as ->. rewrite (box_session_key n pk Hpn). cbn [mbind outcome_bind]. rewrite (decide_True (P := pk ∈ _ ++ _)); [done|].
    apply elem_of_app. right. by left.
  - cbn [mbind outcome_bind]. f_equal. apply decide_ext. rewrite elem_of_app, list_elem_of_singleton. split; [tauto|]. intros [?| ->]; done.
Qed.
End box.

(** *** Opening a box *)
(** The box of up to 255 recipients lists them, opens for each of them, and is
    refused to anybody else. *)
Theorem multi_lock_opens app_info pks data r session_key sk :
  (0 < length pks < 256)%nat → length session_key = 16%nat →
  ∃ box, multi_encrypt app_info pks data r session_key = Ok box ∧ lock_nb_participants box = Ok (length pks) ∧ participants box = Ok pks ∧
    multi_decrypt app_info sk box (length data) =
    if decide (ge_mul ge_generator sk ∈ pks) then Ok data else Err MultiPkNotParticipant.
Proof.
  intros Hpks Hkey. destruct (box_layout app_info pks data r session_key Hpks Hkey) as (key & nonce & Hk & ->).
  pose proof (aead_lengths key nonce data) as [Hle Hlt]. pose proof (aead_opens key nonce data) as Hopen.
  destruct (aead_encrypt key nonce data) as [encrypted tag]. cbn [fst snd] in *. set (tail := tag ++ encrypted).
  assert (length tail = (16 + length data)%nat) as Htl by (unfold tail; rewrite length_app; lia).
  assert (16 ≤ length tail)%nat as Ht by lia. fold (box pks r session_key tail). eexists. split; [reflexivity|].
  pose proof (box_participants pks r session_key Hpks Hkey tail Ht) as Hnb. split; [done|]. split.
  - unfold participants. rewrite Hnb. cbn [mbind outcome_bind]. apply mapM_indices. intros i pk Hi. cbn [Nat.add].
    unfold recipient_public_key_nth_point. rewrite (box_public_key pks r session_key Hpks Hkey tail Ht i pk Hi).
    cbn [mbind outcome_bind]. rewrite from_to_bytes. done.
  - unfold multi_decrypt. rewrite Hnb. cbn [mbind outcome_bind]. rewrite (box_length pks r session_key Hpks Hkey tail Ht).
    unfold scheme_overhead, prefix_size, HEADER_SIZE, EPHEMERAL_PK_SIZE, SESSION_KEY_SIZE, RECIPIENT_KEY_SIZE, TAG_SIZE.
    set (n := length pks) in *. replace (52 + n * 48 + (length tail - 16))%nat with (52 + n * 48 + length data)%nat by lia.
    unfold GE_BYTES_LEN. destruct (Nat.eqb_spec (52 + n * 48 + length data - (4 + 32 + n * (16 + 32) + 16)) (length data)); [|lia].
    cbn [assert_that mbind outcome_bind]. unfold n. rewrite (box_find pks r session_key Hpks Hkey tail Ht).
    cbn [mbind outcome_bind]. case_decide as Hin; [|done]. cbn [ok_or mbind outcome_bind].
    unfold box. rewrite (slice_range_mid _ _ _ 4) by (rewrite ?to_bytes_32; done). cbn [mbind outcome_bind]. rewrite from_to_bytes.
    cbn [mbind outcome_bind ok_or]. rewrite shared_point, xor_bytes_twice by (rewrite Hkey, to_bytes_32; unfold GE_BYTES_LEN; lia).
    set (pre := [1; PAD1; PAD2; Z.of_nat (length pks)] ++ ge_to_bytes (ge_mul ge_generator r) ++ concat (recipient_data r session_key <$> pks)).
    assert (length pre = 36 + length pks * 48)%nat as Hpre.
    { unfold pre. rewrite !length_app, to_bytes_32, (length_concat_blocks _ 48), length_fmap by (by apply entry_length). done. }
    replace ([1; PAD1; PAD2; Z.of_nat (length pks)] ++ _) with (pre ++ tag ++ encrypted) by (unfold pre, tail; by rewrite <-!app_assoc).
    rewrite (slice_range_mid _ _ _ (4 + 32 + length pks * (16 + 32))) by lia. cbn [mbind outcome_bind].
    rewrite app_assoc, slice_range_tail by (rewrite ?length_app; lia). cbn [mbind outcome_bind]. rewrite Hk. cbn [mbind outcome_bind].
    by rewrite Hopen.
Qed.

(** *** Any bytes *)
Lemma nb_participants_ok data :
  bytes_ok data →
  lock_nb_participants data ≠ Panic ∧
  ∀ n, lock_nb_participants data = Ok n → (0 < n < 256)%nat ∧ (scheme_overhead n ≤ length data)%nat.
Proof.
  intros Hok. unfold lock_nb_participants. case_decide as Hl; [done|]. unfold HEADER_SIZE in Hl.
  destruct data as [|b0 [|b1 [|b2 [|b3 data]]]]; [cbn in Hl; lia..|]. cbn [lookup list_lookup unwrap_opt mbind outcome_bind].
  case_decide; [done|]. case_decide; [done|]. case_decide as Hb; [done|]. case_decide as Hs; [done|].
  assert (u8_ok b3) as Hb3 by (apply (proj1 (Forall_forall _ _) Hok); right; right; right; left).
  unfold in_u in Hb3. change (2 ^ 8) with 256 in Hb3. split; [done|]. intros n [= <-]. split; [lia|lia].
Qed.
Lemma recipient_in_range {E} (data : list Z) n i :
  (n < 256)%nat → (scheme_overhead n ≤ length data)%nat → (i < n)%nat →
  (∃ key, recipient_public_key_nth data i = Ok key :> outcome E _ ∧ length key = 32%nat) ∧
  (∃ session, recipient_session_key_nth data i = Ok session :> outcome E _ ∧ length session = 16%nat).
Proof.
  unfold scheme_overhead, prefix_size, recipient_public_key_nth, recipient_session_key_nth, recipient_start, HEADER_SIZE, EPHEMERAL_PK_SIZE,
    RECIPIENT_KEY_SIZE, SESSION_KEY_SIZE, TAG_SIZE, GE_BYTES_LEN. intros Hn Hl Hi.
  destruct (Nat.ltb_spec i 256); [|lia]. destruct (Nat.ltb_spec (S i) 256); [|lia]. cbn [assert_that mbind outcome_bind].
  rewrite !slice_range_ok by lia. split; eexists; (split; [reflexivity|]); rewrite length_take, length_drop; lia.
Qed.
Lemma find_recipient_ok {E} (data pk_bytes : list Z) n m :
  (n < 256)%nat → (scheme_overhead n ≤ length data)%nat → (m ≤ n)%nat →
  ∃ found, find_recipient data pk_bytes m = Ok found :> outcome E _ ∧ ∀ s, found = Some s → length s = 16%nat.
Proof.
  intros Hn Hl. unfold find_recipient. induction m as [|m IH]; intros Hm; [by exists None|].
  destruct IH as (found & Hf & Hlen); [lia|]. rewrite seq_S, foldM_app, Hf. cbn [Nat.add foldM mbind outcome_bind].
  destruct (recipient_in_range (E := E) data n m Hn Hl) as [(key & -> & _) (s & -> & Hs)]; [lia|]. cbn [mbind outcome_bind].
  case_decide; cbn [mbind outcome_bind]; [|by exists found]. exists (Some s). split; [done|]. by intros ? [= <-].
Qed.
Lemma ge_from_bytes_ok {E} l : length l = GE_BYTES_LEN → ge_from_bytes l = Ok (p_decompress l) :> outcome E _.
Proof. intros Hl. unfold ge_from_bytes. by rewrite Hl. Qed.
(** Whatever the bytes, the one panic is a buffer of another length than that
    of the data; the list of recipients is read without panic. *)
Theorem multi_decrypt_panics app_info sk data out :
  bytes_ok data →
  (multi_decrypt app_info sk data out = Panic ↔ ∃ n, lock_nb_participants data = Ok n ∧ (length data - scheme_overhead n ≠ out)%nat) ∧
  participants data ≠ Panic.
Proof.
  intros Hok. destruct (nb_participants_ok data Hok) as [Hnp Hnb]. unfold multi_decrypt, participants.
  destruct (lock_nb_participants data) as [n|e|]; [|split; [split; [done|by intros (n & ? & _)]|done]|done].
  destruct (Hnb n eq_refl) as [Hn Hl]. cbn [mbind outcome_bind]. split.
  - destruct (Nat.eqb_spec (length data - scheme_overhead n) out) as [Heq|Hne]; cbn [assert_that mbind outcome_bind].
    2: { split; [|done]. by exists n. }
    split; [|by intros (m & [= <-] & ?)].
    destruct (find_recipient_ok (E := MultiError) data (ge_to_bytes (ge_mul ge_generator sk)) n n) as (found & -> & Hf); [lia..|].
    cbn [mbind outcome_bind]. destruct found as [session|]; [|done]. specialize (Hf session eq_refl). cbn [ok_or mbind outcome_bind].
    unfold scheme_overhead, prefix_size, HEADER_SIZE, EPHEMERAL_PK_SIZE, RECIPIENT_KEY_SIZE, SESSION_KEY_SIZE, TAG_SIZE, GE_BYTES_LEN in *.
    rewrite (slice_range_ok _ 4) by lia. cbn [mbind outcome_bind].
    rewrite ge_from_bytes_ok by (rewrite length_take, length_drop; unfold GE_BYTES_LEN; lia). cbn [mbind outcome_bind].
    destruct (p_decompress _) as [pk|]; [|done]. cbn [ok_or mbind outcome_bind]. rewrite !slice_range_ok by lia. cbn [mbind outcome_bind].
    unfold multi_symmetric_key. unfold xor_bytes. rewrite length_zip_with, Hf, to_bytes_32. unfold GE_BYTES_LEN. cbn [Nat.min Nat.eqb assert_that mbind outcome_bind].
    by destruct (aead_decrypt _ _ _ _).
  - assert (∀ k m, (k + m ≤ n)%nat → mapM (recipient_public_key_nth_point data) (seq k m) ≠ Panic) as Hm; [|by apply Hm].
    intros k m. revert k. induction m as [|m IH]; intros k Hkm; [done|]. cbn [seq mapM].
    assert (recipient_public_key_nth_point data k ≠ Panic) as Hk.
    { unfold recipient_public_key_nth_point. destruct (recipient_in_range (E := MultiError) data n k) as [(key & -> & Hk) _]; [lia..|].
      cbn [mbind outcome_bind]. rewrite ge_from_bytes_ok by done. cbn [mbind outcome_bind]. by destruct (p_decompress key). }
    specialize (IH (S k) ltac:(lia)). destruct (recipient_public_key_nth_point data k); [|done|done]. cbn [mbind outcome_bind].
    by destruct (mapM _ (seq (S k) m)).
Qed.
End opening.

(** ** A cipher for the witnesses: the data, with a checksum over the key *)
#[local] Instance toy_aead : Aead := {|
  hkdf_expand prk info n := checksum n (prk ++ info);
  aead_encrypt key nonce data := (data, checksum 16 (key ++ nonce ++ data));
  aead_decrypt key nonce data tag := if decide (tag = checksum 16 (key ++ nonce ++ data)) then Some data else None |}.
#[local] Instance toy_aead_laws : AeadLaws.
Proof. split; intros key nonce data; [split; [done|apply length_be_bytes]|]. cbn [aead_encrypt aead_decrypt toy_aead fst snd]. by rewrite decide_True. Qed.
(** Two recipients open the box, a third key does not, and a changed byte is
    noticed. *)
Example box_of_two :
  let pk x := ge_mul ge_generator (zp_of x) in
  match multi_encrypt [1] [pk 5; pk 7] [10; 20; 30] (zp_of 99) (replicate 16 3) with
  | Ok box =>
      bool_decide (multi_decrypt [1] (zp_of 5) box 3 = Ok [10; 20; 30]) && bool_decide (multi_decrypt [1] (zp_of 7) box 3 = Ok [10; 20; 30]) &&
      is_ok (lock_nb_participants box) && negb (is_ok (multi_decrypt [1] (zp_of 6) box 3)) &&
      negb (is_ok (multi_decrypt [1] (zp_of 5) (<[150%nat := 0]> box) 3))
  | _ => false
  end = true.
Proof. by vm_compute. Qed.
