(* ===== verification/Vrf.v ===== *)
(** * Discrete-logarithm equality and the VRF
    ([chain-crypto/src/algorithms/zkps/], [chain-crypto/src/algorithms/vrf/],
    [chain-crypto/src/vrf.rs])

    A proof of equality of discrete logarithms, its challenge hashed from the
    statement and the announcements, and the verifiable random function built
    on it: the output of a secret key on an input is a point, proven with the
    public key.  A scalar drawn from the random generator is an argument. *)
From Stdlib Require Import Ring.
From S2P Require Import Prelude Codec Sum Addr Group.
Local Open Scope Z_scope.

(** ** [zkps/challenge_context.rs]: the bytes fed to the hash so far *)
Section dleq.
Context `{Dalek}.

Definition ChallengeContext : Type := list Z.
Definition challenge_context_new (base_1 base_2 point_1 point_2 : Point) : ChallengeContext :=
  ge_to_bytes base_1 ++ ge_to_bytes base_2 ++ ge_to_bytes point_1 ++ ge_to_bytes point_2.
Definition first_challenge (c : ChallengeContext) (a1 a2 : Point) : Scalar :=
  hash_to_scalar (c ++ ge_to_bytes a1 ++ ge_to_bytes a2).

(** ** [zkps/dleq.rs] *)
Record DleqZkp := mkDleq { dleq_challenge : Scalar; dleq_response : Scalar }.
Definition DLEQ_BYTES_LEN : nat := 2 * SCALAR_BYTES_LEN.

Definition dleq_generate (base_1 base_2 point_1 point_2 : Point) (dlog w : Scalar) : DleqZkp :=
  let announcement_1 := ge_mul base_1 w in
  let announcement_2 := ge_mul base_2 w in
  let challenge_context := challenge_context_new base_1 base_2 point_1 point_2 in
  let challenge := first_challenge challenge_context announcement_1 announcement_2 in
  let response := s_add (s_mul dlog challenge) w in
  mkDleq challenge response.

Definition dleq_verify (p : DleqZkp) (base_1 base_2 point_1 point_2 : Point) : bool :=
  let r1 := ge_mul base_1 (dleq_response p) in
  let r2 := ge_mul base_2 (dleq_response p) in
  let announcement_1 := ge_sub r1 (ge_mul point_1 (dleq_challenge p)) in
  let announcement_2 := ge_sub r2 (ge_mul point_2 (dleq_challenge p)) in
  let challenge_context := challenge_context_new base_1 base_2 point_1 point_2 in
  let challenge := first_challenge challenge_context announcement_1 announcement_2 in
  bool_decide (challenge = dleq_challenge p).

(** [write_to_bytes] into a buffer of the right length, which it fills. *)
Definition dleq_write_to_bytes {E} (p : DleqZkp) (output : list Z) : outcome E (list Z) :=
  assert_that (length output =? DLEQ_BYTES_LEN)%nat;;
  output ← write_range output 0 SCALAR_BYTES_LEN (s_to_bytes (dleq_challenge p));
  write_range output SCALAR_BYTES_LEN (length output) (s_to_bytes (dleq_response p)).
Definition dleq_to_bytes {E} (p : DleqZkp) : outcome E (list Z) :=
  dleq_write_to_bytes p (replicate DLEQ_BYTES_LEN 0).

Definition dleq_from_bytes {E} (slice : list Z) : outcome E (option DleqZkp) :=
  if negb (length slice =? DLEQ_BYTES_LEN)%nat then Ok None
  else
    s1 ← slice_range slice 0 SCALAR_BYTES_LEN;
    s2 ← slice_from slice SCALAR_BYTES_LEN;
    Ok (challenge ← scalar_from_bytes s1; response ← scalar_from_bytes s2;
        Some (mkDleq challenge response)).
End dleq.

(** ** [vrf/vrf.rs] *)
Section vrf.
Context `{Dalek}.

Record VrfSecretKey := mkVrfSecret { vsk_secret : Scalar; vsk_public : Point; vsk_bytes : list Z }.
Record VrfPublicKey := mkVrfPublic { vpk_point : Point; vpk_bytes : list Z }.
(** [OutputSeed] is a point. *)
Record ProvenOutputSeed := mkProven { pos_u : Point; pos_dleq_proof : DleqZkp }.

Definition PROVEN_BYTES_LEN : nat := DLEQ_BYTES_LEN + GE_BYTES_LEN.

Definition vsk_of_scalar (sk : Scalar) : VrfSecretKey :=
  mkVrfSecret sk (ge_mul ge_generator sk) (s_to_bytes sk).
Definition vsk_from_bytes (bytes : list Z) : option VrfSecretKey :=
  sk ← scalar_from_bytes bytes; Some (mkVrfSecret sk (ge_mul ge_generator sk) bytes).
Definition vrf_secret_from_binary (data : list Z) : outcome SecretKeyError VrfSecretKey :=
  if negb (length data =? SCALAR_BYTES_LEN)%nat then Err SkSizeInvalid
  else ok_or (vsk_from_bytes data) SkStructureInvalid.

Definition verifiable_output (sk : VrfSecretKey) (input : list Z) : Point * Point :=
  let m_point := ge_from_hash input in
  (m_point, ge_mul m_point (vsk_secret sk)).
Definition vrf_prove (sk : VrfSecretKey) (w : Scalar) (m_point output : Point) : ProvenOutputSeed :=
  mkProven output (dleq_generate ge_generator m_point (vsk_public sk) output (vsk_secret sk) w).
Definition vrf_evaluate (sk : VrfSecretKey) (w : Scalar) (input : list Z) : ProvenOutputSeed :=
  let '(m_point, output) := verifiable_output sk input in vrf_prove sk w m_point output.
Definition vrf_public (sk : VrfSecretKey) : VrfPublicKey :=
  mkVrfPublic (vsk_public sk) (ge_to_bytes (vsk_public sk)).

Definition vrf_public_from_bytes (input : list Z) : outcome PublicKeyError VrfPublicKey :=
  if negb (length input =? GE_BYTES_LEN)%nat then Err SizeInvalid
  else
    group_element ← ge_from_bytes input;
    match group_element with
    | None => Err KeyStructureInvalid
    | Some pk => Ok (mkVrfPublic pk (ge_to_bytes pk))
    end.

Definition proven_verify (p : ProvenOutputSeed) (public_key : VrfPublicKey) (input : list Z) : bool :=
  dleq_verify (pos_dleq_proof p) ge_generator (ge_from_hash input) (vpk_point public_key) (pos_u p).

Definition proven_to_buffer {E} (p : ProvenOutputSeed) (output : list Z) : outcome E (list Z) :=
  assert_that (length output =? PROVEN_BYTES_LEN)%nat;;
  output ← write_range output 0 GE_BYTES_LEN (ge_to_bytes (pos_u p));
  rest ← slice_from output GE_BYTES_LEN;
  rest ← dleq_write_to_bytes (pos_dleq_proof p) rest;
  write_range output GE_BYTES_LEN (length output) rest.
Definition proven_bytes {E} (p : ProvenOutputSeed) : outcome E (list Z) :=
  proven_to_buffer p (replicate PROVEN_BYTES_LEN 0).

Definition proven_from_bytes_unverified {E} (bytes : list Z) : outcome E (option ProvenOutputSeed) :=
  if negb (length bytes =? PROVEN_BYTES_LEN)%nat then Ok None
  else
    s ← slice_range bytes 0 GE_BYTES_LEN;
    u ← ge_from_bytes s;
    match u with
    | None => Ok None
    | Some u =>
        s ← slice_from bytes GE_BYTES_LEN;
        proof ← dleq_from_bytes s;
        match proof with None => Ok None | Some proof => Ok (Some (mkProven u proof)) end
    end.
Definition proven_from_bytes {E} (public_key : VrfPublicKey) (bytes input : list Z) :
    outcome E (option ProvenOutputSeed) :=
  pos ← proven_from_bytes_unverified bytes;
  match pos with
  | None => Ok None
  | Some pos => if proven_verify pos public_key input then Ok (Some pos) else Ok None
  end.
Definition to_verifiable_output (p : ProvenOutputSeed) (public_key : VrfPublicKey) (input : list Z) :
    option Point :=
  if proven_verify p public_key input then Some (pos_u p) else None.

(** [OutputSeed::to_output]: the hash of the input, the point and a suffix. *)
Definition output_seed_to_output (u : Point) (input suffix : list Z) : list Z :=
  blake2b 32 (input ++ ge_to_bytes u ++ suffix).

(** ** [chain-crypto/src/vrf.rs], [vrf/mod.rs] *)
Inductive VrfVerification := VrfSuccess | VrfFailed.
Definition vrf_evaluate_and_prove (secret : VrfSecretKey) (input : list Z) (w : Scalar) :
    ProvenOutputSeed := vrf_evaluate secret w input.
Definition vrf_verify (public : VrfPublicKey) (input : list Z) (vrand : ProvenOutputSeed) :
    VrfVerification :=
  if proven_verify vrand public input then VrfSuccess else VrfFailed.
Definition vrf_verified_get_output (vr : ProvenOutputSeed) : Point := pos_u vr.
End vrf.

(** ** Proofs *)
Section laws.
Context `{DalekLaws}.
Set Default Proof Using "Type*".
Add Ring scalar_ring : s_ring_theory.
Implicit Types (x w : Scalar) (b p : Point).

(** The announcement that the verifier recomputes is the prover's. *)
Lemma dleq_announcement b p x c w :
  p = ge_mul b x → ge_sub (ge_mul b (s_add (s_mul x c) w)) (ge_mul p c) = ge_mul b w.
Proof.
  intros ->. unfold ge_sub, ge_mul. rewrite <-p_mul_mul, <-p_mul_neg, <-p_mul_add_s.
  f_equal. ring.
Qed.

Lemma dleq_generate_verifies b1 b2 p1 p2 x w :
  p1 = ge_mul b1 x → p2 = ge_mul b2 x →
  dleq_verify (dleq_generate b1 b2 p1 p2 x w) b1 b2 p1 p2 = true.
Proof.
  intros H1 H2. unfold dleq_verify, dleq_generate. cbn [dleq_challenge dleq_response].
  rewrite (dleq_announcement b1), (dleq_announcement b2) by done. by apply bool_decide_true.
Qed.

Lemma dleq_write_eq {E} z output :
  length output = 64%nat →
  dleq_write_to_bytes (E := E) z output = Ok (s_to_bytes (dleq_challenge z) ++ s_to_bytes (dleq_response z)).
Proof.
  intros Hl. unfold dleq_write_to_bytes. rewrite Hl. cbn [Nat.eqb DLEQ_BYTES_LEN Nat.mul Nat.add SCALAR_BYTES_LEN assert_that mbind outcome_bind].
  rewrite <-(take_drop 32 output), write_range_head
    by (rewrite ?s_bytes_32, length_take, Hl; done). cbn [mbind outcome_bind].
  rewrite <-(app_nil_r (drop 32 output)), write_range_mid; [by rewrite app_nil_r|..];
    rewrite ?length_app, ?s_bytes_32, ?length_drop, ?Hl; done.
Qed.

Lemma dleq_bytes_back {E} z :
  dleq_from_bytes (E := E) (s_to_bytes (dleq_challenge z) ++ s_to_bytes (dleq_response z)) = Ok (Some z).
Proof.
  unfold dleq_from_bytes. rewrite length_app, !s_bytes_32. cbn [Nat.eqb DLEQ_BYTES_LEN Nat.mul Nat.add SCALAR_BYTES_LEN negb].
  rewrite slice_range_head by (by rewrite s_bytes_32). cbn [mbind outcome_bind].
  rewrite slice_from_app by (by rewrite s_bytes_32). cbn [mbind outcome_bind].
  unfold scalar_from_bytes. rewrite !s_bytes_32. cbn [Nat.eqb]. rewrite !s_bytes_roundtrip.
  by destruct z.
Qed.

Lemma proven_bytes_eq {E} pr :
  proven_bytes (E := E) pr = Ok (p_compress (pos_u pr) ++ s_to_bytes (dleq_challenge (pos_dleq_proof pr))
                                 ++ s_to_bytes (dleq_response (pos_dleq_proof pr))).
Proof.
  unfold proven_bytes, proven_to_buffer. rewrite length_replicate. change PROVEN_BYTES_LEN with 96%nat.
  cbn [Nat.eqb assert_that mbind outcome_bind]. change GE_BYTES_LEN with 32%nat.
  change (replicate 96 0) with (replicate 32 0 ++ replicate 64 0).
  rewrite write_range_head by (rewrite ?length_replicate, ?p_bytes_32; done). cbn [mbind outcome_bind].
  rewrite slice_from_app by (unfold ge_to_bytes; by rewrite p_bytes_32). cbn [mbind outcome_bind].
  rewrite dleq_write_eq by (by rewrite length_replicate). cbn [mbind outcome_bind].
  rewrite <-(app_nil_r (replicate 64 0)), write_range_mid; [by rewrite app_nil_r|..];
    unfold ge_to_bytes; rewrite ?length_app, ?p_bytes_32, ?s_bytes_32, ?length_replicate; done.
Qed.

Lemma proven_bytes_back {E} pr :
  proven_from_bytes_unverified (E := E)
    (p_compress (pos_u pr) ++ s_to_bytes (dleq_challenge (pos_dleq_proof pr))
     ++ s_to_bytes (dleq_response (pos_dleq_proof pr))) = Ok (Some pr).
Proof.
  unfold proven_from_bytes_unverified. rewrite !length_app, p_bytes_32, !s_bytes_32.
  change PROVEN_BYTES_LEN with 96%nat. change GE_BYTES_LEN with 32%nat. cbn [Nat.eqb Nat.add negb].
  rewrite slice_range_head by (by rewrite p_bytes_32). cbn [mbind outcome_bind].
  unfold ge_from_bytes. rewrite p_bytes_32. cbn [Nat.eqb GE_BYTES_LEN assert_that mbind outcome_bind].
  rewrite p_bytes_roundtrip, slice_from_app by (by rewrite p_bytes_32). cbn [mbind outcome_bind].
  rewrite dleq_bytes_back. by destruct pr.
Qed.

(** C24. The VRF is complete and its output is a function of the key and the
    input: whatever randomness the proof draws, the proven output verifies
    under the key's public key, it survives its encoding in 96 bytes, the
    public key survives its own, and the output point is the same. *)
Theorem vrf_prove_verify {E} (s w w' : Scalar) (input : list Z) :
  let sk := vsk_of_scalar s in
  let pr := vrf_evaluate sk w input in
  proven_verify pr (vrf_public sk) input = true ∧
  (∃ bytes, proven_bytes (E := E) pr = Ok bytes ∧ length bytes = 96%nat ∧
    proven_from_bytes (E := E) (vrf_public sk) bytes input = Ok (Some pr)) ∧
  vrf_public_from_bytes (vpk_bytes (vrf_public sk)) = Ok (vrf_public sk) ∧
  vsk_from_bytes (vsk_bytes sk) = Some sk ∧
  vrf_verified_get_output pr = vrf_verified_get_output (vrf_evaluate sk w' input).
Proof.
  intros sk pr.
  assert (proven_verify pr (vrf_public sk) input = true) as Hv by (by apply dleq_generate_verifies).
  split_and!; [done| | | |done].
  - eexists. split; [apply proven_bytes_eq|]. split.
    { by rewrite !length_app, p_bytes_32, !s_bytes_32. }
    unfold proven_from_bytes. rewrite proven_bytes_back. cbn [mbind outcome_bind]. by rewrite Hv.
  - unfold vrf_public_from_bytes. cbn [vrf_public vpk_bytes]. unfold ge_to_bytes, ge_from_bytes.
    rewrite p_bytes_32. cbn [Nat.eqb GE_BYTES_LEN negb assert_that mbind outcome_bind].
    by rewrite p_bytes_roundtrip.
  - unfold sk, vsk_from_bytes, scalar_from_bytes. cbn [vsk_of_scalar vsk_bytes]. rewrite s_bytes_32.
    cbn [Nat.eqb]. by rewrite s_bytes_roundtrip.
Qed.

(** The equality proof is sound in the sense of sigma protocols: from two
    answers to two challenges on the same announcements, both recomputed by
    [verify] as the same points, the discrete logarithms agree: the difference
    of the answers scales both bases to the difference of the challenges times
    the points. *)
Theorem dleq_special_soundness b1 b2 p1 p2 z z' :
  ge_sub (ge_mul b1 (dleq_response z)) (ge_mul p1 (dleq_challenge z))
    = ge_sub (ge_mul b1 (dleq_response z')) (ge_mul p1 (dleq_challenge z')) →
  ge_sub (ge_mul b2 (dleq_response z)) (ge_mul p2 (dleq_challenge z))
    = ge_sub (ge_mul b2 (dleq_response z')) (ge_mul p2 (dleq_challenge z')) →
  let dr := s_sub (dleq_response z) (dleq_response z') in
  let dc := s_sub (dleq_challenge z) (dleq_challenge z') in
  (∃ inv, s_mul inv dc = s_one) →
  ∃ dlog, p1 = ge_mul b1 dlog ∧ p2 = ge_mul b2 dlog.
Proof.
  intros H1 H2 dr dc [inv Hinv].
  assert (∀ b p r c r' c', ge_sub (ge_mul b r) (ge_mul p c) = ge_sub (ge_mul b r') (ge_mul p c') →
    p_mul (s_sub r r') b = p_mul (s_sub c c') p) as Hx.
  { intros b p r c r' c' Heq. rewrite !p_mul_sub. by apply ge_sub_cross in Heq. }
  exists (s_mul inv dr). unfold ge_mul, dr.
  rewrite !p_mul_mul, (Hx _ _ _ _ _ _ H1), (Hx _ _ _ _ _ _ H2), <-!p_mul_mul.
  unfold dc in Hinv. rewrite Hinv, !p_mul_1. done.
Qed.
End laws.

(** ** The theorems on the residues *)
Lemma vrf_prove_verify_witness :
  let sk := vsk_of_scalar (zp_of 5) in
  let pr := vrf_evaluate sk (zp_of 77) [1; 2; 3] in
  proven_verify pr (vrf_public sk) [1; 2; 3] = true ∧
  proven_verify pr (vrf_public sk) [1; 2; 4] = false.
Proof.
  split; [|vm_compute; reflexivity].
  exact (proj1 (vrf_prove_verify (E := unit) (zp_of 5) (zp_of 77) (zp_of 0) [1; 2; 3])).
Defined.

(** Two transcripts with the announcements [3 b1], [3 b2] for the logarithm 5,
    with the challenges 1 and 2. *)
Lemma dleq_special_soundness_witness :
  ∃ dlog, zp_of 10 = @ge_mul zp_dalek (zp_of 2) dlog ∧ zp_of 35 = @ge_mul zp_dalek (zp_of 7) dlog.
Proof.
  apply (@dleq_special_soundness zp_dalek _ (zp_of 2) (zp_of 7) (zp_of 10) (zp_of 35)
    (@mkDleq zp_dalek (zp_of 2) (zp_of 13)) (@mkDleq zp_dalek (zp_of 1) (zp_of 8)));
    [apply zp_eq; vm_compute; reflexivity..|].
  exists (zp_of 1). apply zp_eq. vm_compute. reflexivity.
Defined.
