(* ===== verification/Header.v ===== *)
(** * Block headers ([chain-impl-mockchain/src/header/], [chaintypes.rs])

    [cstruct.rs] keeps a header as a union of 82, 178 or 694 bytes, addressed
    by offset, the version in its first two bytes saying which bytes count.
    A [CHeader] is the 694 bytes of the union, a [HeaderSlice] the bytes that
    travel.  [Header] tags a header with its kind; the builder is a chain of
    functions whose order the types of the code enforce.  The proofs are in
    [HeaderSpec]. *)
From S2P Require Import Prelude Codec Sum Time Addr Key Config Settings PoolCert VoteCert LedgerState Fragment LedgerBlock Group Vrf.
Local Open Scope Z_scope.

(** ** [cstruct.rs]: sizes and offsets *)
Definition HEADER_OFFSET_VERSION : nat := 0.
Definition HEADER_OFFSET_CONTENT_SIZE : nat := HEADER_OFFSET_VERSION + 2.
Definition HEADER_OFFSET_DATE_EPOCH : nat := HEADER_OFFSET_CONTENT_SIZE + 4.
Definition HEADER_OFFSET_DATE_SLOTID : nat := HEADER_OFFSET_DATE_EPOCH + 4.
Definition HEADER_OFFSET_HEIGHT : nat := HEADER_OFFSET_DATE_SLOTID + 4.
Definition HEADER_OFFSET_CONTENT_HASH : nat := HEADER_OFFSET_HEIGHT + 4.
Definition HEADER_OFFSET_PARENT_HASH : nat := HEADER_OFFSET_CONTENT_HASH + 32.
Definition HEADER_COMMON_SIZE : nat := HEADER_OFFSET_PARENT_HASH + 32.
Definition HEADER_OFFSET_BFT_LEADER_ID : nat := HEADER_COMMON_SIZE.
Definition HEADER_OFFSET_BFT_SIGNATURE : nat := HEADER_OFFSET_BFT_LEADER_ID + 32.
Definition HEADER_BFT_SIZE : nat := HEADER_OFFSET_BFT_SIGNATURE + 64.
Definition HEADER_BFT_AUTHED_SIZE : nat := HEADER_OFFSET_BFT_SIGNATURE.
Definition HEADER_OFFSET_GP_ID : nat := HEADER_COMMON_SIZE.
Definition HEADER_OFFSET_GP_VRF_PROOF : nat := HEADER_OFFSET_GP_ID + 32.
Definition HEADER_OFFSET_GP_KES_SIG : nat := HEADER_OFFSET_GP_VRF_PROOF + 96.
Definition HEADER_GP_SIZE : nat := HEADER_OFFSET_GP_KES_SIG + 484.
Definition HEADER_GP_AUTHED_SIZE : nat := HEADER_OFFSET_GP_KES_SIG.
Definition HEADER_MIN_KNOWN_SIZE : nat := HEADER_COMMON_SIZE.
Definition HEADER_MAX_KNOWN_SIZE : nat := HEADER_GP_SIZE.

Definition VERSION_UNSIGNED : Z := 0.
Definition VERSION_BFT : Z := 1.
Definition VERSION_GP : Z := 2.

Inductive HeaderError := HInvalidSize | HUnknownVersion | HSizeMismatch (expected got : nat).

(** ** The owned union *)
Abbreviation CHeader := (list Z) (only parsing).
Abbreviation HeaderSlice := (list Z) (only parsing).

Definition ch_version {E} (h : CHeader) : outcome E Z :=
  s ← slice_range h HEADER_OFFSET_VERSION HEADER_OFFSET_CONTENT_SIZE; Ok (from_be s).
(** The bytes of the union that the version makes meaningful. *)
Definition ch_view_size {E} (version : Z) : outcome E nat :=
  if version =? VERSION_UNSIGNED then Ok HEADER_COMMON_SIZE
  else if version =? VERSION_BFT then Ok HEADER_BFT_SIZE
  else if version =? VERSION_GP then Ok HEADER_GP_SIZE
  else Panic.
Definition ch_as_slice {E} (h : CHeader) : outcome E HeaderSlice :=
  v ← ch_version h; n ← ch_view_size v; slice_range h 0 n.
(** [as_slice_mut().copy_from_slice(s)]. *)
Definition ch_as_slice_mut_copy {E} (h : CHeader) (s : list Z) : outcome E CHeader :=
  v ← ch_version h; n ← ch_view_size v; write_range h 0 n s.
Definition ch_set_version {E} (h : CHeader) (s : Z) : outcome E CHeader :=
  write_range h HEADER_OFFSET_VERSION HEADER_OFFSET_CONTENT_SIZE (be_bytes 2 s).
Definition ch_new {E} (version : Z) : outcome E CHeader :=
  ch_set_version (replicate HEADER_GP_SIZE 0) version.
Definition ch_set_content_size {E} (h : CHeader) (s : Z) : outcome E CHeader :=
  write_range h HEADER_OFFSET_CONTENT_SIZE HEADER_OFFSET_DATE_EPOCH (be_bytes 4 s).
Definition ch_set_date_epoch {E} (h : CHeader) (s : Z) : outcome E CHeader :=
  write_range h HEADER_OFFSET_DATE_EPOCH HEADER_OFFSET_DATE_SLOTID (be_bytes 4 s).
Definition ch_set_date_slotid {E} (h : CHeader) (s : Z) : outcome E CHeader :=
  write_range h HEADER_OFFSET_DATE_SLOTID HEADER_OFFSET_HEIGHT (be_bytes 4 s).
Definition ch_set_height {E} (h : CHeader) (s : Z) : outcome E CHeader :=
  write_range h HEADER_OFFSET_HEIGHT HEADER_OFFSET_CONTENT_HASH (be_bytes 4 s).
Definition ch_set_content_hash {E} (h : CHeader) (s : list Z) : outcome E CHeader :=
  write_range h HEADER_OFFSET_CONTENT_HASH HEADER_OFFSET_PARENT_HASH s.
Definition ch_set_parent_hash {E} (h : CHeader) (s : list Z) : outcome E CHeader :=
  write_range h HEADER_OFFSET_PARENT_HASH HEADER_COMMON_SIZE s.
Definition ch_assert_version {E} (h : CHeader) (v : Z) : outcome E unit :=
  version ← ch_version h; assert_that (version =? v).
Definition ch_set_bft_leader_id_slice {E} (h : CHeader) (s : list Z) : outcome E CHeader :=
  ch_assert_version h VERSION_BFT;;
  assert_that (length s =? 32)%nat;;
  write_range h HEADER_OFFSET_BFT_LEADER_ID HEADER_OFFSET_BFT_SIGNATURE s.
Definition ch_set_bft_signature_slice {E} (h : CHeader) (s : list Z) : outcome E CHeader :=
  ch_assert_version h VERSION_BFT;;
  assert_that (length s =? 64)%nat;;
  write_range h HEADER_OFFSET_BFT_SIGNATURE HEADER_BFT_SIZE s.
Definition ch_set_gp_node_id {E} (h : CHeader) (s : list Z) : outcome E CHeader :=
  ch_assert_version h VERSION_GP;;
  write_range h HEADER_OFFSET_GP_ID HEADER_OFFSET_GP_VRF_PROOF s.
Definition ch_set_gp_vrf_proof {E} (h : CHeader) (s : list Z) : outcome E CHeader :=
  ch_assert_version h VERSION_GP;;
  write_range h HEADER_OFFSET_GP_VRF_PROOF HEADER_OFFSET_GP_KES_SIG s.
Definition ch_set_gp_kes_signature_slice {E} (h : CHeader) (s : list Z) : outcome E CHeader :=
  ch_assert_version h VERSION_GP;;
  assert_that (length s =? 484)%nat;;
  write_range h HEADER_OFFSET_GP_KES_SIG HEADER_GP_SIZE s.

(** ** The slice and its accessors *)
Definition hs_version {E} (s : HeaderSlice) : outcome E Z :=
  b ← slice_range s HEADER_OFFSET_VERSION HEADER_OFFSET_CONTENT_SIZE; Ok (from_be b).
Definition hs_from_slice (slice : list Z) : outcome HeaderError HeaderSlice :=
  let len := length slice in
  if decide (len < HEADER_MIN_KNOWN_SIZE)%nat then Err HInvalidSize
  else if decide (HEADER_MAX_KNOWN_SIZE < len)%nat then Err HInvalidSize
  else
    version ← hs_version slice;
    if version =? VERSION_UNSIGNED then
      if decide (len ≠ HEADER_COMMON_SIZE) then Err (HSizeMismatch HEADER_COMMON_SIZE len) else Ok slice
    else if version =? VERSION_BFT then
      if decide (len ≠ HEADER_BFT_SIZE) then Err (HSizeMismatch HEADER_BFT_SIZE len) else Ok slice
    else if version =? VERSION_GP then
      if decide (len ≠ HEADER_GP_SIZE) then Err (HSizeMismatch HEADER_GP_SIZE len) else Ok slice
    else Err HUnknownVersion.
Definition hs_to_owned {E} (s : HeaderSlice) : outcome E CHeader :=
  v ← hs_version s; new ← ch_new v; ch_as_slice_mut_copy new s.

Definition hs_content_size {E} (s : HeaderSlice) : outcome E Z :=
  b ← slice_range s HEADER_OFFSET_CONTENT_SIZE HEADER_OFFSET_DATE_EPOCH; Ok (from_be b).
Definition hs_date_epoch {E} (s : HeaderSlice) : outcome E Z :=
  b ← slice_range s HEADER_OFFSET_DATE_EPOCH HEADER_OFFSET_DATE_SLOTID; Ok (from_be b).
Definition hs_date_slotid {E} (s : HeaderSlice) : outcome E Z :=
  b ← slice_range s HEADER_OFFSET_DATE_SLOTID HEADER_OFFSET_HEIGHT; Ok (from_be b).
Definition hs_height {E} (s : HeaderSlice) : outcome E Z :=
  b ← slice_range s HEADER_OFFSET_HEIGHT HEADER_OFFSET_CONTENT_HASH; Ok (from_be b).
Definition hs_content_hash {E} (s : HeaderSlice) : outcome E (list Z) :=
  slice_range s HEADER_OFFSET_CONTENT_HASH HEADER_OFFSET_PARENT_HASH.
Definition hs_parent_hash {E} (s : HeaderSlice) : outcome E (list Z) :=
  slice_range s HEADER_OFFSET_PARENT_HASH HEADER_COMMON_SIZE.
Definition hs_assert_version {E} (s : HeaderSlice) (v : Z) : outcome E unit :=
  version ← hs_version s; assert_that (version =? v).
Definition hs_bft_leader_id {E} (s : HeaderSlice) : outcome E (list Z) :=
  hs_assert_version s VERSION_BFT;;
  slice_range s HEADER_OFFSET_BFT_LEADER_ID HEADER_OFFSET_BFT_SIGNATURE.
Definition hs_bft_signature {E} (s : HeaderSlice) : outcome E (list Z) :=
  hs_assert_version s VERSION_BFT;; slice_range s HEADER_OFFSET_BFT_SIGNATURE HEADER_BFT_SIZE.
Definition hs_gp_node_id {E} (s : HeaderSlice) : outcome E (list Z) :=
  hs_assert_version s VERSION_GP;; slice_range s HEADER_OFFSET_GP_ID HEADER_OFFSET_GP_VRF_PROOF.
Definition hs_gp_vrf_proof {E} (s : HeaderSlice) : outcome E (list Z) :=
  hs_assert_version s VERSION_GP;; slice_range s HEADER_OFFSET_GP_VRF_PROOF HEADER_OFFSET_GP_KES_SIG.
Definition hs_gp_kes_signature {E} (s : HeaderSlice) : outcome E (list Z) :=
  hs_assert_version s VERSION_GP;; slice_range s HEADER_OFFSET_GP_KES_SIG HEADER_GP_SIZE.
Definition hs_slice_bft_auth {E} (s : HeaderSlice) : outcome E (list Z) :=
  hs_assert_version s VERSION_BFT;; slice_range s 0 HEADER_BFT_AUTHED_SIZE.
Definition hs_slice_gp_auth {E} (s : HeaderSlice) : outcome E (list Z) :=
  hs_assert_version s VERSION_GP;; slice_range s 0 HEADER_GP_AUTHED_SIZE.

(** ** [version.rs] *)
Inductive BlockVersion := BVGenesis | Ed25519Signed | KesVrfproof.
#[export] Instance BlockVersion_eq_dec : EqDecision BlockVersion.
Proof. solve_decision. Defined.
Inductive AnyBlockVersion := Supported (v : BlockVersion) | Unsupported (n : Z).

Definition block_version_from_u16 (v : Z) : option BlockVersion :=
  if v =? VERSION_UNSIGNED then Some BVGenesis
  else if v =? VERSION_BFT then Some Ed25519Signed
  else if v =? VERSION_GP then Some KesVrfproof
  else None.
Definition block_version_to_u16 (v : BlockVersion) : Z :=
  match v with BVGenesis => VERSION_UNSIGNED | Ed25519Signed => VERSION_BFT | KesVrfproof => VERSION_GP end.
(** [SIZE[self as usize]]. *)
Definition get_size (v : BlockVersion) : nat :=
  match v with BVGenesis => HEADER_COMMON_SIZE | Ed25519Signed => HEADER_BFT_SIZE | KesVrfproof => HEADER_GP_SIZE end.
Definition get_auth_size (v : BlockVersion) : nat :=
  match v with
  | BVGenesis => HEADER_COMMON_SIZE
  | Ed25519Signed => HEADER_BFT_AUTHED_SIZE
  | KesVrfproof => HEADER_GP_AUTHED_SIZE
  end.
Definition to_consensus_type (v : BlockVersion) : option ConsensusType :=
  match v with BVGenesis => None | Ed25519Signed => Some Bft | KesVrfproof => Some GenesisPraos end.
Definition any_block_version_from_u16 (n : Z) : AnyBlockVersion :=
  match block_version_from_u16 n with Some supported => Supported supported | None => Unsupported n end.
(** [version as u16]: the discriminant, 0, 1, 2 in the order of the variants. *)
Definition any_block_version_to_u16 (v : AnyBlockVersion) : Z :=
  match v with Supported version => block_version_to_u16 version | Unsupported n => n end.
Definition try_into_block_version (v : AnyBlockVersion) : option BlockVersion :=
  match v with Supported version => Some version | Unsupported _ => None end.

(** ** [header.rs], [deconstruct.rs], [components.rs] *)
Inductive Header :=
| HUnsigned (h : CHeader) | HGenesisPraos (h : CHeader) | HBft (h : CHeader).
Definition header_inner (h : Header) : CHeader :=
  match h with HUnsigned c | HGenesisPraos c | HBft c => c end.

Record BftProof := mkBftProof { bft_leader_id : PublicKey; bft_signature : list Z }.
Record GenesisPraosProof := mkGpProof { gp_node_id : PoolId; gp_vrf_proof : list Z; gp_kes_proof : SumSignature }.
Inductive Proof := ProofNone | ProofBft (p : BftProof) | ProofGenesisPraos (p : GenesisPraosProof).
Record Common := mkCommon {
  c_block_version : BlockVersion; c_block_date : BlockDate; c_block_content_size : Z;
  c_block_content_hash : list Z; c_block_parent_hash : list Z; c_chain_length : Z }.
Record HeaderDesc := mkHeaderDesc { hd_id : list Z; hd_date : BlockDate; hd_height : Z }.

Section header.
Context `{Crypto} `{Ed25519} `{Dalek}.

Definition get_cstruct {E} (h : Header) : outcome E HeaderSlice := ch_as_slice (header_inner h).
Definition header_id {E} (h : Header) : outcome E (list Z) :=
  s ← get_cstruct h; Ok (blake2b_256 s).
Definition header_block_version (h : Header) : BlockVersion :=
  match h with HUnsigned _ => BVGenesis | HGenesisPraos _ => KesVrfproof | HBft _ => Ed25519Signed end.
Definition header_size (h : Header) : nat := get_size (header_block_version h).
Definition header_as_slice {E} (h : Header) : outcome E (list Z) := get_cstruct h.
Definition header_as_auth_slice {E} (h : Header) : outcome E (list Z) :=
  s ← get_cstruct h;
  match h with
  | HUnsigned _ => Ok s
  | HBft _ => hs_slice_bft_auth s
  | HGenesisPraos _ => hs_slice_gp_auth s
  end.
Definition header_block_date {E} (h : Header) : outcome E BlockDate :=
  cs ← get_cstruct h; epoch ← hs_date_epoch cs; slot_id ← hs_date_slotid cs; Ok (mkDate epoch slot_id).
Definition header_block_content_hash {E} (h : Header) : outcome E (list Z) :=
  cs ← get_cstruct h; hs_content_hash cs.
Definition header_block_content_size {E} (h : Header) : outcome E Z :=
  cs ← get_cstruct h; hs_content_size cs.
Definition header_block_parent_hash {E} (h : Header) : outcome E (list Z) :=
  cs ← get_cstruct h; hs_parent_hash cs.
Definition header_chain_length {E} (h : Header) : outcome E Z := cs ← get_cstruct h; hs_height cs.
Definition header_description {E} (h : Header) : outcome E HeaderDesc :=
  id ← header_id h; date ← header_block_date h; height ← header_chain_length h;
  Ok (mkHeaderDesc id date height).

Definition header_from_slice (slice : list Z) : outcome HeaderError Header :=
  hdr_slice ← hs_from_slice slice;
  hdr ← hs_to_owned hdr_slice;
  version ← ch_version hdr;
  v ← unwrap_opt (block_version_from_u16 version);
  match v with
  | BVGenesis => Ok (HUnsigned hdr)
  | Ed25519Signed => Ok (HBft hdr)
  | KesVrfproof => Ok (HGenesisPraos hdr)
  end.

Definition header_common {E} (h : Header) : outcome E Common :=
  date ← header_block_date h; size ← header_block_content_size h;
  hash ← header_block_content_hash h; parent ← header_block_parent_hash h;
  chain_length ← header_chain_length h;
  Ok (mkCommon (header_block_version h) date size hash parent chain_length).

(** [From<[u8; 32]> for BftLeaderId], [From<cstruct::BftSignature>],
    [From<cstruct::GpKesSignature>]: each [expect]s its parser. *)
Definition bft_leader_id_from {E} (v : list Z) : outcome E PublicKey := unwrap (public_from_binary v).
Definition bft_signature_from {E} (b : list Z) : outcome E (list Z) := unwrap (signature_from_bytes b).
Definition kes_signature_from {E} (b : list Z) : outcome E SumSignature :=
  unwrap (kes12_signature_from_bytes b).

Definition header_proof {E} (h : Header) : outcome E Proof :=
  match header_block_version h with
  | BVGenesis => Ok ProofNone
  | Ed25519Signed =>
      cs ← get_cstruct h;
      id ← hs_bft_leader_id cs; leader_id ← bft_leader_id_from id;
      sig ← hs_bft_signature cs; signature ← bft_signature_from sig;
      Ok (ProofBft (mkBftProof leader_id signature))
  | KesVrfproof =>
      cs ← get_cstruct h;
      node_id ← hs_gp_node_id cs;
      vrf_proof ← hs_gp_vrf_proof cs;
      sig ← hs_gp_kes_signature cs; kes_proof ← kes_signature_from sig;
      Ok (ProofGenesisPraos (mkGpProof node_id vrf_proof kes_proof))
  end.
Definition get_stakepool_id {E} (h : Header) : outcome E (option PoolId) :=
  match header_block_version h with
  | KesVrfproof => cs ← get_cstruct h; id ← hs_gp_node_id cs; Ok (Some id)
  | _ => Ok None
  end.
Definition get_bft_leader_id {E} (h : Header) : outcome E (option PublicKey) :=
  match header_block_version h with
  | Ed25519Signed =>
      cs ← get_cstruct h; id ← hs_bft_leader_id cs; leader ← bft_leader_id_from id; Ok (Some leader)
  | _ => Ok None
  end.

(** [vrfeval.rs]: the nonce that a witness carries. *)
Definition DOMAIN_NONCE : list Z := [78; 79; 78; 67; 69].
Definition get_nonce (os : Point) : PraosNonce := output_seed_to_output os [] DOMAIN_NONCE.
Definition witness_to_nonce (witness : ProvenOutputSeed) : PraosNonce :=
  get_nonce (vrf_verified_get_output witness).

Definition to_vrf_proof {E} (vrf_proof : list Z) : outcome E (option ProvenOutputSeed) :=
  proven_from_bytes_unverified vrf_proof.
Definition get_consensus_eval_context {E} (h : Header) : outcome E ConsensusEvalContext :=
  match header_block_version h with
  | KesVrfproof =>
      cs ← get_cstruct h;
      vrf ← hs_gp_vrf_proof cs;
      p ← to_vrf_proof vrf;
      witness ← unwrap_opt p;
      node_id ← hs_gp_node_id cs;
      Ok (CPraos (witness_to_nonce witness) node_id)
  | Ed25519Signed => Ok CBft
  | BVGenesis => Ok CGenesis
  end.
Definition get_content_eval_context {E} (h : Header) : outcome E HeaderContentEvalContext :=
  date ← header_block_date h; chain_length ← header_chain_length h;
  hash ← header_block_content_hash h; ctx ← get_consensus_eval_context h;
  Ok (mkHeaderContent date chain_length hash ctx).

Definition header_serialize {E} (w : list Z) (h : Header) : outcome E (list Z) :=
  s ← header_as_slice h; Ok (w ++ s).
Definition header_read_error (e : HeaderError) : ReadError :=
  match e with
  | HInvalidSize => NotEnoughBytes 0 0
  | HUnknownVersion => UnknownTag 0
  | HSizeMismatch expected got => SizeTooBig expected got
  end.
Definition header_read : Reader Header :=
  s ← get_slice_end; reader_of header_read_error (header_from_slice s).

(** ** [builder.rs]: the steps in the order that the types impose *)
Definition header_builder_raw {E} (version : BlockVersion) (content_hash : list Z) (content_size : Z) :
    outcome E CHeader :=
  hdr ← ch_new (block_version_to_u16 version);
  hdr ← ch_set_content_size hdr content_size;
  ch_set_content_hash hdr content_hash.
Definition header_builder `{Election} `{GroupEncoding} (version : BlockVersion) (contents : list Fragment) :
    outcome infallible CHeader :=
  '(hash, size) ← compute_hash_size contents; header_builder_raw version hash size.
Definition hb_set_genesis {E} (hdr : CHeader) : outcome E CHeader :=
  hdr ← ch_set_height hdr 0; ch_set_parent_hash hdr (replicate 32 0).
Definition hb_set_parent {E} (hdr : CHeader) (parent_hash : list Z) (chain_length : Z) : outcome E CHeader :=
  hdr ← ch_set_height hdr chain_length; ch_set_parent_hash hdr parent_hash.
Definition hb_set_date {E} (hdr : CHeader) (date : BlockDate) : outcome E CHeader :=
  hdr ← ch_set_date_epoch hdr (date_epoch date); ch_set_date_slotid hdr (date_slot_id date).
Definition into_unsigned_header {E} (hdr : CHeader) : outcome E (option Header) :=
  v ← ch_version hdr; Ok (if v =? VERSION_UNSIGNED then Some (HUnsigned hdr) else None).
Definition into_bft_builder {E} (hdr : CHeader) : outcome E (option CHeader) :=
  v ← ch_version hdr; Ok (if v =? VERSION_BFT then Some hdr else None).
Definition into_genesis_praos_builder {E} (hdr : CHeader) : outcome E (option CHeader) :=
  v ← ch_version hdr; Ok (if v =? VERSION_GP then Some hdr else None).
Definition bft_set_consensus_data {E} (hdr : CHeader) (bft_leaderid : PublicKey) : outcome E CHeader :=
  ch_set_bft_leader_id_slice hdr bft_leaderid.
Definition bft_get_authenticated_data {E} (hdr : CHeader) : outcome E (list Z) :=
  s ← ch_as_slice hdr; hs_slice_bft_auth s.
Definition bft_set_signature {E} (hdr : CHeader) (sig : list Z) : outcome E Header :=
  hdr ← ch_set_bft_signature_slice hdr sig; Ok (HBft hdr).
(** [sign_using_keys]: the secret key as its signing function. *)
Definition bft_sign_using_keys {E} (hdr : CHeader) (sign_slice : list Z → list Z) (pk : PublicKey) :
    outcome E Header :=
  sret ← bft_set_consensus_data hdr pk;
  data ← bft_get_authenticated_data sret;
  bft_set_signature sret (sign_slice data).
Definition gp_set_consensus_data {E} (hdr : CHeader) (node_id : PoolId) (vrf_proof : list Z) :
    outcome E CHeader :=
  hdr ← ch_set_gp_node_id hdr node_id; ch_set_gp_vrf_proof hdr vrf_proof.
Definition gp_get_authenticated_data {E} (hdr : CHeader) : outcome E (list Z) :=
  s ← ch_as_slice hdr; hs_slice_gp_auth s.
Definition gp_set_signature {E} (hdr : CHeader) (kes_signature : SumSignature) : outcome E Header :=
  hdr ← ch_set_gp_kes_signature_slice hdr kes_signature; Ok (HGenesisPraos hdr).
Definition gp_sign_using {E} (hdr : CHeader) (kes_signing_key : SumSecretKey) : outcome E Header :=
  data ← gp_get_authenticated_data hdr;
  signature ← sum_sign kes_signing_key data;
  gp_set_signature hdr signature.
End header.
