(* ===== verification/HeaderSpec.v ===== *)
(** * What headers are ([chain-impl-mockchain/src/header/])

    [HeaderFields] is a header as a record; [header_of] lays it out in the
    union of [cstruct.rs].  The builder's steps and the accessors act on the
    record, [header_from_slice] accepts exactly the bytes of a record, and the
    two conversions are inverse of each other. *)
From S2P Require Import Prelude Codec Sum Time Addr Key Config Settings PoolCert VoteCert LedgerState Fragment LedgerBlock SumTheorems Group Vrf Header.
Local Open Scope Z_scope.

Inductive HeaderAuth :=
| AuthNone
| AuthBft (id sig : list Z)
| AuthGp (id vrf kes : list Z).
Record HeaderFields := mkFields {
  hf_content_size : Z; hf_date : BlockDate; hf_height : Z;
  hf_content_hash : list Z; hf_parent_hash : list Z; hf_auth : HeaderAuth }.

Definition auth_version (a : HeaderAuth) : BlockVersion :=
  match a with AuthNone => BVGenesis | AuthBft _ _ => Ed25519Signed | AuthGp _ _ _ => KesVrfproof end.
Definition auth_fields (a : HeaderAuth) : list (list Z) :=
  match a with AuthNone => [] | AuthBft id sig => [id; sig] | AuthGp id vrf kes => [id; vrf; kes] end.
Definition auth_ok (a : HeaderAuth) : Prop :=
  match a with
  | AuthNone => True
  | AuthBft id sig => length id = 32%nat ∧ length sig = 64%nat
  | AuthGp id vrf kes => length id = 32%nat ∧ length vrf = 96%nat ∧ length kes = 484%nat
  end.
Definition fields_ok (f : HeaderFields) : Prop :=
  u32_ok (hf_content_size f) ∧ u32_ok (date_epoch (hf_date f)) ∧ u32_ok (date_slot_id (hf_date f))
  ∧ u32_ok (hf_height f) ∧ length (hf_content_hash f) = 32%nat ∧ length (hf_parent_hash f) = 32%nat
  ∧ auth_ok (hf_auth f).

Definition common_fields (version : Z) (f : HeaderFields) : list (list Z) :=
  [be_bytes 2 version; be_bytes 4 (hf_content_size f); be_bytes 4 (date_epoch (hf_date f));
   be_bytes 4 (date_slot_id (hf_date f)); be_bytes 4 (hf_height f); hf_content_hash f; hf_parent_hash f].
Definition header_version (f : HeaderFields) : Z := block_version_to_u16 (auth_version (hf_auth f)).
Definition slice_fields (f : HeaderFields) : list (list Z) :=
  common_fields (header_version f) f ++ auth_fields (hf_auth f).
(** The bytes that travel. *)
Definition header_bytes (f : HeaderFields) : list Z := concat (slice_fields f).
(** The rest of the union. *)
Definition pad_of (version : BlockVersion) : list Z := replicate (HEADER_GP_SIZE - get_size version) 0.
Definition union_bytes (f : HeaderFields) : CHeader := header_bytes f ++ pad_of (auth_version (hf_auth f)).
Definition header_of (f : HeaderFields) : Header :=
  match hf_auth f with
  | AuthNone => HUnsigned (union_bytes f)
  | AuthBft _ _ => HBft (union_bytes f)
  | AuthGp _ _ _ => HGenesisPraos (union_bytes f)
  end.

(** ** Sizes *)
Lemma length_common v f :
  length (hf_content_hash f) = 32%nat → length (hf_parent_hash f) = 32%nat →
  length (concat (common_fields v f)) = 82%nat.
Proof.
  intros H1 H2. unfold common_fields. cbn [concat]. rewrite !length_app, !length_be_bytes, H1, H2. done.
Qed.

Lemma length_header_bytes f :
  fields_ok f → length (header_bytes f) = get_size (auth_version (hf_auth f)).
Proof.
  intros (_ & _ & _ & _ & H1 & H2 & Ha). unfold header_bytes, slice_fields.
  rewrite concat_app, length_app, length_common by done.
  destruct (hf_auth f) as [|id sig|id vrf kes]; cbn in Ha; cbn [auth_fields concat auth_version];
    rewrite ?length_app.
  - done.
  - destruct Ha as [-> ->]. done.
  - destruct Ha as (-> & -> & ->). done.
Qed.

Ltac field_offsets :=
  unfold field_offset; cbn [take concat app]; rewrite ?length_app, ?length_be_bytes, ?app_nil_r;
  cbn [length]; try congruence; try done; lia.

Section accessors.
Context {E : Type}.
Implicit Types (f : HeaderFields).

(** ** The union of a record *)
Lemma union_version f rest : fields_ok f →
  ch_version (E := E) (header_bytes f ++ rest) = Ok (header_version f).
Proof.
  intros _. unfold ch_version, header_bytes, slice_fields, common_fields. cbn [app concat].
  rewrite <-app_assoc, slice_range_head by (by rewrite length_be_bytes). cbn [mbind outcome_bind].
  rewrite from_be_bytes; [done|]. unfold header_version, in_u. by destruct (hf_auth f).
Qed.
Lemma view_size v : ch_view_size (E := E) (block_version_to_u16 v) = Ok (get_size v).
Proof. by destruct v. Qed.

Lemma union_as_slice f : fields_ok f → ch_as_slice (E := E) (union_bytes f) = Ok (header_bytes f).
Proof.
  intros Hf. unfold ch_as_slice, union_bytes. rewrite union_version by done. cbn [mbind outcome_bind].
  unfold header_version. rewrite view_size. cbn [mbind outcome_bind].
  apply slice_range_head. by rewrite length_header_bytes.
Qed.

Lemma header_inner_of f : header_inner (header_of f) = union_bytes f.
Proof. unfold header_of. by destruct (hf_auth f). Qed.
Lemma header_version_of f : header_block_version (header_of f) = auth_version (hf_auth f).
Proof. unfold header_of. by destruct (hf_auth f). Qed.
Lemma header_cstruct f : fields_ok f → get_cstruct (E := E) (header_of f) = Ok (header_bytes f).
Proof. intros. unfold get_cstruct. rewrite header_inner_of. by apply union_as_slice. Qed.

(** ** The fields of the slice *)
Lemma slice_version f : fields_ok f → hs_version (E := E) (header_bytes f) = Ok (header_version f).
Proof. intros Hf. pose proof (union_version f [] Hf) as Hv. by rewrite app_nil_r in Hv. Qed.

Lemma header_field f i old lo hi :
  fields_ok f → slice_fields f !! i = Some old → lo = field_offset (slice_fields f) i →
  hi = (lo + length old)%nat → slice_range (E := E) (header_bytes f) lo hi = Ok old.
Proof. intros _. apply slice_field. Qed.

Lemma common_offset v f i :
  length (hf_content_hash f) = 32%nat → length (hf_parent_hash f) = 32%nat →
  field_offset (common_fields v f) i = nth i [0; 2; 6; 10; 14; 18; 50; 82]%nat 82%nat.
Proof.
  intros H1 H2. unfold field_offset, common_fields.
  do 7 (destruct i as [|i]; [cbn [take concat app]; rewrite ?length_app, ?length_be_bytes, ?H1, ?H2; done|]).
  cbn [take concat]. rewrite take_nil. cbn [concat].
  rewrite ?length_app, ?length_be_bytes, ?H1, ?H2. by destruct i as [|[|i]].
Qed.
Lemma slice_offset f i :
  fields_ok f → (i ≤ 7)%nat →
  field_offset (slice_fields f) i = nth i [0; 2; 6; 10; 14; 18; 50; 82]%nat 82%nat.
Proof.
  intros (_ & _ & _ & _ & H1 & H2 & _) Hi.
  rewrite <-(common_offset (header_version f) f) by done. unfold field_offset, slice_fields.
  rewrite take_app_le by done. done.
Qed.

Lemma slice_content_size f : fields_ok f → hs_content_size (E := E) (header_bytes f) = Ok (hf_content_size f).
Proof.
  intros Hf. unfold hs_content_size. rewrite (header_field f 1 _ _ _ Hf eq_refl);
    [|by rewrite slice_offset by (done || lia)|by rewrite length_be_bytes].
  cbn [mbind outcome_bind]. rewrite from_be_bytes; [done|apply Hf].
Qed.
Lemma slice_date f : fields_ok f →
  hs_date_epoch (E := E) (header_bytes f) = Ok (date_epoch (hf_date f)) ∧
  hs_date_slotid (E := E) (header_bytes f) = Ok (date_slot_id (hf_date f)).
Proof.
  intros Hf. split.
  - unfold hs_date_epoch. rewrite (header_field f 2 _ _ _ Hf eq_refl);
      [|by rewrite slice_offset by (done || lia)|by rewrite length_be_bytes].
    cbn [mbind outcome_bind]. rewrite from_be_bytes; [done|apply Hf].
  - unfold hs_date_slotid. rewrite (header_field f 3 _ _ _ Hf eq_refl);
      [|by rewrite slice_offset by (done || lia)|by rewrite length_be_bytes].
    cbn [mbind outcome_bind]. rewrite from_be_bytes; [done|apply Hf].
Qed.
Lemma slice_height f : fields_ok f → hs_height (E := E) (header_bytes f) = Ok (hf_height f).
Proof.
  intros Hf. unfold hs_height. rewrite (header_field f 4 _ _ _ Hf eq_refl);
    [|by rewrite slice_offset by (done || lia)|by rewrite length_be_bytes].
  cbn [mbind outcome_bind]. rewrite from_be_bytes; [done|apply Hf].
Qed.
Lemma slice_hashes f : fields_ok f →
  hs_content_hash (E := E) (header_bytes f) = Ok (hf_content_hash f) ∧
  hs_parent_hash (E := E) (header_bytes f) = Ok (hf_parent_hash f).
Proof.
  intros Hf. pose proof Hf as (_ & _ & _ & _ & H1 & H2 & _). split.
  - unfold hs_content_hash. rewrite (header_field f 5 _ _ _ Hf eq_refl); [done| |].
    + by rewrite slice_offset by (done || lia).
    + cbn [nth]. by rewrite H1.
  - unfold hs_parent_hash. rewrite (header_field f 6 _ _ _ Hf eq_refl); [done| |].
    + by rewrite slice_offset by (done || lia).
    + cbn [nth]. by rewrite H2.
Qed.
End accessors.

(** ** The proof of each kind *)
Section proofs.
Context `{HC : Crypto} `{HE : Ed25519} `{HD : Dalek} {E : Type}.
Implicit Types (f : HeaderFields).

Lemma assert_version f v :
  fields_ok f → hs_assert_version (E := E) (header_bytes f) v
  = assert_that (header_version f =? v).
Proof. intros Hf. unfold hs_assert_version. by rewrite slice_version. Qed.

Lemma auth_offset f i j :
  fields_ok f → j = (7 + i)%nat →
  field_offset (slice_fields f) j = (82 + field_offset (auth_fields (hf_auth f)) i)%nat.
Proof.
  intros (_ & _ & _ & _ & H1 & H2 & _) ->. unfold field_offset, slice_fields.
  rewrite take_app_ge by (cbn [common_fields length]; lia). rewrite concat_app, length_app, length_common by done.
  by replace (7 + i - length (common_fields (header_version f) f))%nat with i by (cbn [common_fields length]; lia).
Qed.

Lemma slice_bft f id sig :
  fields_ok f → hf_auth f = AuthBft id sig →
  hs_bft_leader_id (E := E) (header_bytes f) = Ok id ∧ hs_bft_signature (E := E) (header_bytes f) = Ok sig
  ∧ hs_slice_bft_auth (E := E) (header_bytes f)
    = Ok (concat (common_fields VERSION_BFT f) ++ id).
Proof.
  intros Hf Ha. pose proof Hf as (_ & _ & _ & _ & H1 & H2 & Hok). rewrite Ha in Hok. destruct Hok as [Hid Hsig].
  assert (header_version f = VERSION_BFT) as Hv by (unfold header_version; by rewrite Ha).
  assert (slice_fields f = common_fields VERSION_BFT f ++ [id; sig]) as Hs
    by (unfold slice_fields; by rewrite Ha, Hv).
  unfold hs_bft_leader_id, hs_bft_signature, hs_slice_bft_auth. rewrite !assert_version by done.
  rewrite Hv. cbn [Z.eqb assert_that mbind outcome_bind]. split_and!.
  - apply (header_field f 7); [done|by rewrite Hs| |by rewrite Hid].
    rewrite (auth_offset f 0) by done. by rewrite Ha.
  - apply (header_field f 8); [done|by rewrite Hs| |by rewrite Hsig].
    rewrite (auth_offset f 1) by done. rewrite Ha. unfold field_offset. cbn. by rewrite app_nil_r, Hid.
  - unfold header_bytes. rewrite (slice_fields_head _ 8).
    + rewrite Hs. cbn [common_fields app take concat]. by rewrite app_nil_r, <-!app_assoc.
    + rewrite (auth_offset f 1) by done. rewrite Ha. unfold field_offset. cbn. by rewrite app_nil_r, Hid.
Qed.

Lemma slice_gp f id vrf kes :
  fields_ok f → hf_auth f = AuthGp id vrf kes →
  hs_gp_node_id (E := E) (header_bytes f) = Ok id ∧ hs_gp_vrf_proof (E := E) (header_bytes f) = Ok vrf
  ∧ hs_gp_kes_signature (E := E) (header_bytes f) = Ok kes
  ∧ hs_slice_gp_auth (E := E) (header_bytes f) = Ok (concat (common_fields VERSION_GP f) ++ id ++ vrf).
Proof.
  intros Hf Ha. pose proof Hf as (_ & _ & _ & _ & H1 & H2 & Hok). rewrite Ha in Hok.
  destruct Hok as (Hid & Hvrf & Hkes).
  assert (header_version f = VERSION_GP) as Hv by (unfold header_version; by rewrite Ha).
  assert (slice_fields f = common_fields VERSION_GP f ++ [id; vrf; kes]) as Hs
    by (unfold slice_fields; by rewrite Ha, Hv).
  assert (∀ i n, n = length (concat (take i [id; vrf; kes])) →
    field_offset (slice_fields f) (7 + i) = (82 + n)%nat) as Hoff.
  { intros i n ->. rewrite (auth_offset f i) by done. by rewrite Ha. }
  unfold hs_gp_node_id, hs_gp_vrf_proof, hs_gp_kes_signature, hs_slice_gp_auth. rewrite !assert_version by done.
  rewrite Hv. cbn [Z.eqb assert_that mbind outcome_bind]. split_and!.
  - apply (header_field f 7); [done|by rewrite Hs|symmetry; by apply (Hoff 0%nat 0%nat)|by rewrite Hid].
  - apply (header_field f 8); [done|by rewrite Hs| |by rewrite Hvrf].
    symmetry. apply (Hoff 1%nat 32%nat). cbn. by rewrite app_nil_r, Hid.
  - apply (header_field f 9); [done|by rewrite Hs| |by rewrite Hkes].
    symmetry. apply (Hoff 2%nat 128%nat). cbn. by rewrite app_nil_r, length_app, Hid, Hvrf.
  - unfold header_bytes. rewrite (slice_fields_head _ 9).
    + rewrite Hs. cbn [common_fields app take concat]. by rewrite app_nil_r, <-!app_assoc.
    + symmetry. apply (Hoff 2%nat 128%nat). cbn. by rewrite app_nil_r, length_app, Hid, Hvrf.
Qed.

(** ** The accessors of [Header] *)
Definition fields_common f : Common :=
  mkCommon (auth_version (hf_auth f)) (hf_date f) (hf_content_size f) (hf_content_hash f)
    (hf_parent_hash f) (hf_height f).
Definition fields_auth_slice f : list Z :=
  concat (common_fields (header_version f) f) ++
  match hf_auth f with AuthNone => [] | AuthBft id _ => id | AuthGp id vrf _ => id ++ vrf end.

Lemma header_date_of f : fields_ok f → header_block_date (E := E) (header_of f) = Ok (hf_date f).
Proof.
  intros Hf. unfold header_block_date. rewrite header_cstruct by done. cbn [mbind outcome_bind].
  destruct (slice_date (E := E) f Hf) as [-> ->]. cbn [mbind outcome_bind]. by destruct (hf_date f).
Qed.
Lemma header_common_of f : fields_ok f → header_common (E := E) (header_of f) = Ok (fields_common f).
Proof.
  intros Hf. unfold header_common. rewrite header_date_of by done. cbn [mbind outcome_bind].
  unfold header_block_content_size, header_block_content_hash, header_block_parent_hash, header_chain_length.
  rewrite header_cstruct by done. cbn [mbind outcome_bind]. rewrite slice_content_size by done.
  cbn [mbind outcome_bind]. destruct (slice_hashes (E := E) f Hf) as [-> ->]. cbn [mbind outcome_bind].
  rewrite slice_height by done. cbn [mbind outcome_bind]. by rewrite header_version_of.
Qed.
Lemma header_auth_of f : fields_ok f → header_as_auth_slice (E := E) (header_of f) = Ok (fields_auth_slice f).
Proof.
  intros Hf. unfold header_as_auth_slice. rewrite header_cstruct by done. cbn [mbind outcome_bind].
  unfold header_of, fields_auth_slice, header_version. destruct (hf_auth f) as [|id sig|id vrf kes] eqn:Ha.
  - unfold header_bytes, slice_fields, header_version. rewrite Ha. cbn [auth_fields]. by rewrite !app_nil_r.
  - by destruct (slice_bft f id sig Hf Ha) as (_ & _ & ->).
  - by destruct (slice_gp f id vrf kes Hf Ha) as (_ & _ & _ & ->).
Qed.

(** ** The builder *)
Definition set_auth f (a : HeaderAuth) : HeaderFields :=
  mkFields (hf_content_size f) (hf_date f) (hf_height f) (hf_content_hash f) (hf_parent_hash f) a.

(** A header under construction of version [v]: its common fields, the rest zero. *)
Definition building (v : BlockVersion) f : CHeader :=
  concat (common_fields (block_version_to_u16 v) f ++ [replicate 612 0]).

Lemma common_offset' v f l i :
  length (hf_content_hash f) = 32%nat → length (hf_parent_hash f) = 32%nat → (i ≤ 7)%nat →
  field_offset (common_fields v f ++ l) i = nth i [0; 2; 6; 10; 14; 18; 50; 82]%nat 82%nat.
Proof.
  intros H1 H2 Hi. rewrite <-(common_offset v f) by done. unfold field_offset. by rewrite take_app_le.
Qed.

Definition hashes_ok f : Prop := length (hf_content_hash f) = 32%nat ∧ length (hf_parent_hash f) = 32%nat.

Lemma building_write v f i old lo hi new :
  hashes_ok f → (i < 7)%nat → common_fields (block_version_to_u16 v) f !! i = Some old →
  lo = nth i [0; 2; 6; 10; 14; 18; 50; 82]%nat 82%nat → hi = (lo + length old)%nat → length new = length old →
  write_range (E := E) (building v f) lo hi new
  = Ok (concat (<[i := new]> (common_fields (block_version_to_u16 v) f) ++ [replicate 612 0])).
Proof.
  intros [H1 H2] Hi Hold -> Hhi Hnew. unfold building.
  rewrite (write_field _ i old); [|by rewrite lookup_app_l| |done|done].
  - by rewrite insert_app_l.
  - by rewrite common_offset' by (done || lia).
Qed.

(** The record with every common field zero. *)
Definition blank : HeaderFields :=
  mkFields 0 (mkDate 0 0) 0 (replicate 32 0) (replicate 32 0) AuthNone.

Lemma ch_new_building v : ch_new (E := E) (block_version_to_u16 v) = Ok (building v blank).
Proof. by destruct v. Qed.

Lemma building_version v f : ch_version (E := E) (building v f) = Ok (block_version_to_u16 v).
Proof.
  unfold ch_version, building, common_fields. cbn [app concat].
  rewrite slice_range_head by (by rewrite length_be_bytes). cbn [mbind outcome_bind].
  rewrite from_be_bytes; [done|]. by destruct v.
Qed.

Lemma set_content_size_building v f n : hashes_ok f →
  ch_set_content_size (E := E) (building v f) n =
  Ok (building v (mkFields n (hf_date f) (hf_height f) (hf_content_hash f) (hf_parent_hash f) (hf_auth f))).
Proof. intros Hf. unfold ch_set_content_size. rewrite (building_write v f 1 _ _ _ _ Hf ltac:(lia) eq_refl); by rewrite ?length_be_bytes. Qed.
Lemma set_content_hash_building v f h : hashes_ok f → length h = 32%nat →
  ch_set_content_hash (E := E) (building v f) h =
  Ok (building v (mkFields (hf_content_size f) (hf_date f) (hf_height f) h (hf_parent_hash f) (hf_auth f))).
Proof.
  intros Hf Hh. unfold ch_set_content_hash. pose proof Hf as [H1 _].
  rewrite (building_write v f 5 _ _ _ _ Hf ltac:(lia) eq_refl); by rewrite ?Hh, ?H1.
Qed.
Lemma set_height_building v f n : hashes_ok f →
  ch_set_height (E := E) (building v f) n =
  Ok (building v (mkFields (hf_content_size f) (hf_date f) n (hf_content_hash f) (hf_parent_hash f) (hf_auth f))).
Proof. intros Hf. unfold ch_set_height. rewrite (building_write v f 4 _ _ _ _ Hf ltac:(lia) eq_refl); by rewrite ?length_be_bytes. Qed.
Lemma set_parent_hash_building v f h : hashes_ok f → length h = 32%nat →
  ch_set_parent_hash (E := E) (building v f) h =
  Ok (building v (mkFields (hf_content_size f) (hf_date f) (hf_height f) (hf_content_hash f) h (hf_auth f))).
Proof.
  intros Hf Hh. unfold ch_set_parent_hash. pose proof Hf as [_ H2].
  rewrite (building_write v f 6 _ _ _ _ Hf ltac:(lia) eq_refl); by rewrite ?Hh, ?H2.
Qed.
Lemma set_date_building v f d : hashes_ok f →
  hb_set_date (E := E) (building v f) d =
  Ok (building v (mkFields (hf_content_size f) d (hf_height f) (hf_content_hash f) (hf_parent_hash f) (hf_auth f))).
Proof.
  intros Hf. unfold hb_set_date, ch_set_date_epoch, ch_set_date_slotid.
  rewrite (building_write v f 2 _ _ _ _ Hf ltac:(lia) eq_refl) by (by rewrite ?length_be_bytes).
  cbn [mbind outcome_bind].
  set (f' := mkFields (hf_content_size f) (mkDate (date_epoch d) (date_slot_id (hf_date f))) (hf_height f)
               (hf_content_hash f) (hf_parent_hash f) (hf_auth f)).
  change (concat _) with (building v f').
  rewrite (building_write v f' 3 _ _ _ _ Hf ltac:(lia) eq_refl) by (by rewrite ?length_be_bytes).
  by destruct d.
Qed.

(** The whole common part. *)
Lemma builder_raw_building v hash size :
  length hash = 32%nat →
  header_builder_raw (E := E) v hash size
  = Ok (building v (mkFields size (mkDate 0 0) 0 hash (replicate 32 0) AuthNone)).
Proof.
  intros Hh. unfold header_builder_raw. rewrite ch_new_building. cbn [mbind outcome_bind].
  rewrite set_content_size_building by done. cbn [mbind outcome_bind]. by rewrite set_content_hash_building.
Qed.
Lemma set_parent_building v f parent height : hashes_ok f → length parent = 32%nat →
  hb_set_parent (E := E) (building v f) parent height
  = Ok (building v (mkFields (hf_content_size f) (hf_date f) height (hf_content_hash f) parent (hf_auth f))).
Proof.
  intros Hf Hp. unfold hb_set_parent. rewrite set_height_building by done. cbn [mbind outcome_bind].
  by rewrite set_parent_hash_building by (destruct Hf; done).
Qed.
Lemma set_genesis_building v f : hashes_ok f →
  hb_set_genesis (E := E) (building v f)
  = Ok (building v (mkFields (hf_content_size f) (hf_date f) 0 (hf_content_hash f) (replicate 32 0) (hf_auth f))).
Proof. intros Hf. by apply (set_parent_building v f (replicate 32 0) 0). Qed.

(** A buffer whose fields are the common ones and [tl]. *)
Lemma building_tail v f tl i old lo hi new :
  hashes_ok f → tl !! i = Some old → lo = (82 + field_offset tl i)%nat → hi = (lo + length old)%nat →
  length new = length old →
  write_range (E := E) (concat (common_fields v f ++ tl)) lo hi new
  = Ok (concat (common_fields v f ++ <[i := new]> tl)).
Proof.
  intros [H1 H2] Hi -> -> Hnew.
  rewrite (write_field _ (7 + i) old); [|exact Hi| |done|done].
  - done.
  - unfold field_offset. rewrite take_app_ge by (cbn [common_fields length]; lia).
    rewrite concat_app, length_app, length_common by done.
    by replace (7 + i - length (common_fields v f))%nat with i by (cbn [common_fields length]; lia).
Qed.
Lemma tail_version v f tl : ch_version (E := E) (concat (common_fields (block_version_to_u16 v) f ++ tl))
  = Ok (block_version_to_u16 v).
Proof.
  unfold ch_version, common_fields. cbn [app concat].
  rewrite slice_range_head by (by rewrite length_be_bytes). cbn [mbind outcome_bind].
  rewrite from_be_bytes; [done|]. by destruct v.
Qed.

Lemma union_of_tail f tl :
  concat tl = concat (auth_fields (hf_auth f)) ++ pad_of (auth_version (hf_auth f)) →
  concat (common_fields (header_version f) f ++ tl) = union_bytes f.
Proof.
  intros Htl. unfold union_bytes, header_bytes, slice_fields. by rewrite !concat_app, Htl, <-app_assoc.
Qed.
End proofs.

(** ** The last steps of the builder *)
Section finish.
Context `{HC : Crypto} `{HE : Ed25519} `{HD : Dalek} {E : Type}.
Implicit Types (f : HeaderFields).

Lemma set_auth_hashes f a : hashes_ok f → hashes_ok (set_auth f a).
Proof. done. Qed.
Lemma set_auth_ok f a : fields_ok f → auth_ok a → fields_ok (set_auth f a).
Proof. intros (? & ? & ? & ? & ? & ? & _) Ha. by split_and!. Qed.

Lemma building_unsigned f : hf_auth f = AuthNone → building BVGenesis f = union_bytes f.
Proof.
  intros Ha. unfold building. rewrite <-(union_of_tail f [replicate 612 0]).
  - unfold header_version. by rewrite Ha.
  - by rewrite Ha.
Qed.

Lemma unsigned_finish f : hf_auth f = AuthNone →
  into_unsigned_header (E := E) (building BVGenesis f) = Ok (Some (header_of f)).
Proof.
  intros Ha. unfold into_unsigned_header. rewrite building_version. cbn [mbind outcome_bind].
  rewrite building_unsigned by done. unfold header_of. by rewrite Ha.
Qed.

Lemma union_bft f id sig :
  union_bytes (set_auth f (AuthBft id sig))
  = concat (common_fields (block_version_to_u16 Ed25519Signed) f ++ [id; sig; replicate 516 0]).
Proof.
  symmetry. apply (union_of_tail (set_auth f (AuthBft id sig))). cbn [set_auth hf_auth auth_fields concat].
  rewrite !app_nil_r, <-app_assoc. done.
Qed.
Lemma union_gp f id vrf kes :
  union_bytes (set_auth f (AuthGp id vrf kes))
  = concat (common_fields (block_version_to_u16 KesVrfproof) f ++ [id; vrf; kes]).
Proof.
  symmetry. apply (union_of_tail (set_auth f (AuthGp id vrf kes))). cbn [set_auth hf_auth auth_fields concat].
  by rewrite !app_nil_r.
Qed.

Lemma bft_consensus_data f id :
  hashes_ok f → length id = 32%nat →
  bft_set_consensus_data (E := E) (building Ed25519Signed f) id
  = Ok (union_bytes (set_auth f (AuthBft id (replicate 64 0)))).
Proof.
  intros Hf Hid. unfold bft_set_consensus_data, ch_set_bft_leader_id_slice, ch_assert_version.
  rewrite building_version. cbn [mbind outcome_bind block_version_to_u16 Z.eqb assert_that]. rewrite Hid.
  cbn [Nat.eqb assert_that mbind outcome_bind].
  change (building Ed25519Signed f) with
    (concat (common_fields VERSION_BFT f ++ [replicate 32 0; replicate 64 0; replicate 516 0])).
  rewrite (building_tail VERSION_BFT f _ 0 (replicate 32 0)) by done. by rewrite union_bft.
Qed.
Lemma bft_signature_set f id s0 sig :
  hashes_ok f → length id = 32%nat → length s0 = 64%nat → length sig = 64%nat →
  bft_set_signature (E := E) (union_bytes (set_auth f (AuthBft id s0))) sig
  = Ok (header_of (set_auth f (AuthBft id sig))).
Proof.
  intros Hf Hid Hs0 Hsig. unfold bft_set_signature, ch_set_bft_signature_slice, ch_assert_version.
  rewrite union_bft, (tail_version Ed25519Signed). cbn [mbind outcome_bind block_version_to_u16 Z.eqb assert_that].
  rewrite Hsig. cbn [Nat.eqb assert_that mbind outcome_bind].
  rewrite (building_tail VERSION_BFT f _ 1 s0); try done; try congruence.
  - rewrite Z.eqb_refl. unfold header_of. cbn [assert_that set_auth hf_auth mbind outcome_bind].
    by rewrite union_bft.
  - unfold field_offset. cbn [take concat]. by rewrite app_nil_r, Hid.
  - by rewrite Hs0.
Qed.

Lemma bft_authenticated f id s0 :
  fields_ok f → length id = 32%nat → length s0 = 64%nat →
  bft_get_authenticated_data (E := E) (union_bytes (set_auth f (AuthBft id s0)))
  = Ok (fields_auth_slice (set_auth f (AuthBft id s0))).
Proof.
  intros Hf Hid Hs0. assert (fields_ok (set_auth f (AuthBft id s0))) as Hok by (by apply set_auth_ok).
  unfold bft_get_authenticated_data. rewrite union_as_slice by done. cbn [mbind outcome_bind].
  by destruct (slice_bft (E := E) (set_auth f (AuthBft id s0)) id s0 Hok eq_refl) as (_ & _ & ->).
Qed.

Lemma gp_consensus_data f id vrf :
  hashes_ok f → length id = 32%nat → length vrf = 96%nat →
  gp_set_consensus_data (E := E) (building KesVrfproof f) id vrf
  = Ok (union_bytes (set_auth f (AuthGp id vrf (replicate 484 0)))).
Proof.
  intros Hf Hid Hvrf. unfold gp_set_consensus_data, ch_set_gp_node_id, ch_set_gp_vrf_proof, ch_assert_version.
  rewrite building_version. cbn [mbind outcome_bind block_version_to_u16 Z.eqb assert_that].
  change (building KesVrfproof f) with
    (concat (common_fields (block_version_to_u16 KesVrfproof) f ++ [replicate 32 0; replicate 96 0; replicate 484 0])).
  rewrite (building_tail _ f _ 0 (replicate 32 0)) by done. rewrite Z.eqb_refl. cbn [assert_that mbind outcome_bind].
  rewrite (tail_version KesVrfproof). cbn [mbind outcome_bind block_version_to_u16 Z.eqb assert_that].
  rewrite Z.eqb_refl. cbn [assert_that mbind outcome_bind].
  rewrite (building_tail _ f _ 1 (replicate 96 0)); try done.
  - by rewrite union_gp.
  - unfold field_offset. cbn [insert list_insert take concat]. by rewrite app_nil_r, Hid.
Qed.
Lemma gp_signature_set f id vrf s0 kes :
  hashes_ok f → length id = 32%nat → length vrf = 96%nat → length s0 = 484%nat → length kes = 484%nat →
  gp_set_signature (E := E) (union_bytes (set_auth f (AuthGp id vrf s0))) kes
  = Ok (header_of (set_auth f (AuthGp id vrf kes))).
Proof.
  intros Hf Hid Hvrf Hs0 Hkes. unfold gp_set_signature, ch_set_gp_kes_signature_slice, ch_assert_version.
  rewrite union_gp, (tail_version KesVrfproof). cbn [mbind outcome_bind block_version_to_u16 Z.eqb assert_that].
  rewrite Hkes. cbn [Nat.eqb assert_that mbind outcome_bind].
  rewrite (building_tail _ f _ 2 s0); try done; try congruence.
  - rewrite Z.eqb_refl. unfold header_of. cbn [assert_that set_auth hf_auth mbind outcome_bind].
    by rewrite union_gp.
  - unfold field_offset. cbn [take concat]. by rewrite app_nil_r, length_app, Hid, Hvrf.
  - by rewrite Hs0.
Qed.
Lemma gp_authenticated f id vrf s0 :
  fields_ok f → length id = 32%nat → length vrf = 96%nat → length s0 = 484%nat →
  gp_get_authenticated_data (E := E) (union_bytes (set_auth f (AuthGp id vrf s0)))
  = Ok (fields_auth_slice (set_auth f (AuthGp id vrf s0))).
Proof.
  intros Hf Hid Hvrf Hs0. assert (fields_ok (set_auth f (AuthGp id vrf s0))) as Hok by (by apply set_auth_ok).
  unfold gp_get_authenticated_data. rewrite union_as_slice by done. cbn [mbind outcome_bind].
  by destruct (slice_gp (E := E) (set_auth f (AuthGp id vrf s0)) id vrf s0 Hok eq_refl) as (_ & _ & _ & ->).
Qed.
End finish.

(** ** Parsing *)
Section parsing.
Implicit Types (f : HeaderFields).

Lemma get_size_bounds v : (HEADER_MIN_KNOWN_SIZE ≤ get_size v ≤ HEADER_MAX_KNOWN_SIZE)%nat.
Proof. destruct v; cbn; unfold HEADER_MIN_KNOWN_SIZE, HEADER_MAX_KNOWN_SIZE; cbn; lia. Qed.

Lemma version_slice {E} (l : list Z) :
  (HEADER_MIN_KNOWN_SIZE ≤ length l)%nat →
  slice_range (E := E) l HEADER_OFFSET_VERSION HEADER_OFFSET_CONTENT_SIZE = Ok (take 2 l).
Proof.
  change HEADER_MIN_KNOWN_SIZE with 82%nat. change HEADER_OFFSET_VERSION with 0%nat.
  change HEADER_OFFSET_CONTENT_SIZE with 2%nat. intros Hl. by rewrite slice_range_ok by lia.
Qed.

(** [HeaderSlice::from_slice] by the version. *)
Lemma hs_from_slice_eq bytes :
  hs_from_slice bytes =
  if decide (HEADER_MIN_KNOWN_SIZE ≤ length bytes ≤ HEADER_MAX_KNOWN_SIZE)%nat then
    match block_version_from_u16 (from_be (take 2 bytes)) with
    | None => Err HUnknownVersion
    | Some v => if decide (length bytes = get_size v) then Ok bytes else Err (HSizeMismatch (get_size v) (length bytes))
    end
  else Err HInvalidSize.
Proof.
  unfold hs_from_slice. destruct (decide (_ ≤ _ ≤ _)%nat) as [[Hmin Hmax]|Hn].
  - rewrite !decide_False by lia. unfold hs_version.
    rewrite version_slice by done. cbn [mbind outcome_bind].
    unfold block_version_from_u16. repeat case_match; try done; cbn [get_size]; repeat case_decide; done.
  - repeat case_decide; done || lia.
Qed.

Lemma owned_bytes {E} v bytes :
  length bytes = get_size v → from_be (take 2 bytes) = block_version_to_u16 v →
  hs_to_owned (E := E) bytes = Ok (bytes ++ pad_of v).
Proof.
  intros Hlen Hv. pose proof (get_size_bounds v) as [Hb _]. unfold hs_to_owned, hs_version.
  rewrite version_slice by lia. cbn [mbind outcome_bind]. rewrite Hv.
  rewrite ch_new_building. cbn [mbind outcome_bind]. unfold ch_as_slice_mut_copy.
  rewrite building_version. cbn [mbind outcome_bind]. rewrite view_size. cbn [mbind outcome_bind].
  unfold write_range. rewrite decide_True.
  - cbn [take app]. by destruct v.
  - rewrite Hlen. destruct v; vm_compute; lia.
Qed.

Lemma version_back v : block_version_from_u16 (block_version_to_u16 v) = Some v.
Proof. by destruct v. Qed.

Lemma block_version_from_Some n v : block_version_from_u16 n = Some v → n = block_version_to_u16 v.
Proof.
  unfold block_version_from_u16. intros Hv. repeat case_match; simplify_eq;
    match goal with H : (_ =? _) = true |- _ => apply Z.eqb_eq in H; exact H end.
Qed.

Definition tag_header (v : BlockVersion) (c : CHeader) : Header :=
  match v with BVGenesis => HUnsigned c | Ed25519Signed => HBft c | KesVrfproof => HGenesisPraos c end.

Lemma header_from_slice_eq bytes :
  header_from_slice bytes =
  if decide (HEADER_MIN_KNOWN_SIZE ≤ length bytes ≤ HEADER_MAX_KNOWN_SIZE)%nat then
    match block_version_from_u16 (from_be (take 2 bytes)) with
    | None => Err HUnknownVersion
    | Some v => if decide (length bytes = get_size v) then Ok (tag_header v (bytes ++ pad_of v))
                else Err (HSizeMismatch (get_size v) (length bytes))
    end
  else Err HInvalidSize.
Proof.
  unfold header_from_slice. rewrite hs_from_slice_eq. case_decide as Hr; [|done].
  destruct (block_version_from_u16 _) as [v|] eqn:Hv; [|done]. case_decide as Hl; [|done].
  cbn [mbind outcome_bind].
  pose proof (block_version_from_Some _ _ Hv) as Hv'.
  rewrite (owned_bytes v) by done. cbn [mbind outcome_bind].
  unfold ch_version. rewrite version_slice by (rewrite length_app; lia). cbn [mbind outcome_bind].
  rewrite take_app_le by (change HEADER_MIN_KNOWN_SIZE with 82%nat in Hr; lia).
  rewrite Hv', version_back. by destruct v.
Qed.

Lemma header_bytes_take2 f : from_be (take 2 (header_bytes f)) = header_version f.
Proof.
  unfold header_bytes, slice_fields, common_fields. cbn [app concat].
  rewrite take_app_length' by (by rewrite length_be_bytes). apply from_be_bytes.
  unfold header_version. by destruct (hf_auth f).
Qed.

Lemma header_parse_of f : fields_ok f → header_from_slice (header_bytes f) = Ok (header_of f).
Proof.
  intros Hf. rewrite header_from_slice_eq, length_header_bytes by done.
  rewrite decide_True by apply get_size_bounds. rewrite header_bytes_take2. unfold header_version.
  rewrite version_back, decide_True by done. unfold header_of, union_bytes.
  by destruct (hf_auth f).
Qed.

Lemma be_bytes_of (l : list Z) n : bytes_ok l → length l = n → be_bytes n (from_be l) = l.
Proof. intros Hb <-. by apply be_bytes_from_be. Qed.
Lemma from_be_u32 l : bytes_ok l → length l = 4%nat → u32_ok (from_be l).
Proof. intros Hb Hl. pose proof (from_be_range l Hb) as Hr. by rewrite Hl in Hr. Qed.

(** The bytes of a known size and version are those of a record. *)
Lemma header_parse_inv bytes v :
  bytes_ok bytes → length bytes = get_size v → from_be (take 2 bytes) = block_version_to_u16 v →
  ∃ f, fields_ok f ∧ bytes = header_bytes f ∧ auth_version (hf_auth f) = v.
Proof.
  intros Hb Hlen Hv.
  destruct (cut_list bytes 82 (get_size v - 82)) as (c & tl & -> & Hc & Htl).
  { rewrite Hlen. by destruct v. }
  apply Forall_app in Hb as [Hbc Hbt].
  destruct (cut_list c 2 80 Hc) as (b0 & c1 & -> & L0 & Hc1).
  destruct (cut_list c1 4 76 Hc1) as (b1 & c2 & -> & L1 & Hc2).
  destruct (cut_list c2 4 72 Hc2) as (b2 & c3 & -> & L2 & Hc3).
  destruct (cut_list c3 4 68 Hc3) as (b3 & c4 & -> & L3 & Hc4).
  destruct (cut_list c4 4 64 Hc4) as (b4 & c5 & -> & L4 & Hc5).
  destruct (cut_list c5 32 32 Hc5) as (b5 & b6 & -> & L5 & L6).
  apply Forall_app in Hbc as [B0 Hbc]. apply Forall_app in Hbc as [B1 Hbc].
  apply Forall_app in Hbc as [B2 Hbc]. apply Forall_app in Hbc as [B3 Hbc].
  apply Forall_app in Hbc as [B4 Hbc]. apply Forall_app in Hbc as [B5 B6].
  rewrite <-app_assoc, take_app_length' in Hv by done.
  assert (∃ a, auth_ok a ∧ tl = concat (auth_fields a) ∧ auth_version a = v) as (a & Ha & -> & Hav).
  { destruct v; cbn in Htl.
    - exists AuthNone. apply nil_length_inv in Htl. by subst.
    - destruct (cut_list tl 32 64 Htl) as (id & sig & -> & ? & ?). exists (AuthBft id sig).
      cbn. by rewrite app_nil_r.
    - destruct (cut_list tl 32 580 Htl) as (id & r & -> & ? & Hr).
      destruct (cut_list r 96 484 Hr) as (vrf & kes & -> & ? & ?). exists (AuthGp id vrf kes).
      cbn. by rewrite app_nil_r. }
  exists (mkFields (from_be b1) (mkDate (from_be b2) (from_be b3)) (from_be b4) b5 b6 a).
  split; [|split; [|done]].
  - split_and!; try done; by apply from_be_u32.
  - unfold header_bytes, slice_fields, common_fields, header_version.
    cbn [hf_auth hf_content_size hf_date hf_height hf_content_hash hf_parent_hash date_epoch date_slot_id].
    rewrite Hav, <-Hv, !be_bytes_of by done. rewrite concat_app. cbn [concat].
    by rewrite app_nil_r, <-!app_assoc.
Qed.
End parsing.

Lemma tag_header_of f v :
  auth_version (hf_auth f) = v → tag_header v (header_bytes f ++ pad_of v) = header_of f.
Proof. intros <-. unfold header_of, union_bytes. by destruct (hf_auth f). Qed.

(** ** The property *)

(** C15. The parser of headers is exact: it never panics; it accepts a string of
    bytes exactly when it is the layout of a header record, in which case the
    header reads back every field of that record and serializes to the same
    bytes; it rejects on the size when the length is outside 82..694, on the
    version when that is not 0, 1 or 2, and on the mismatch of the two
    otherwise. *)
Theorem header_parse_exact `{Crypto} `{Ed25519} `{Dalek} (bytes : list Z) :
  bytes_ok bytes →
  match header_from_slice bytes with
  | Ok h => ∃ f, fields_ok f ∧ bytes = header_bytes f ∧ h = header_of f ∧
      header_as_slice (E := unit) h = Ok bytes ∧ header_common (E := unit) h = Ok (fields_common f) ∧
      header_as_auth_slice (E := unit) h = Ok (fields_auth_slice f) ∧
      header_size h = length bytes
  | Err HInvalidSize => (length bytes < 82)%nat ∨ (694 < length bytes)%nat
  | Err HUnknownVersion => (82 ≤ length bytes ≤ 694)%nat ∧ 2 < from_be (take 2 bytes)
  | Err (HSizeMismatch expected got) => (82 ≤ length bytes ≤ 694)%nat ∧ got = length bytes ∧ expected ≠ got ∧
      ∃ v, from_be (take 2 bytes) = block_version_to_u16 v ∧ expected = get_size v
  | Panic => False
  end ∧
  (∀ f, fields_ok f → header_bytes f = bytes → header_from_slice bytes = Ok (header_of f)).
Proof.
  intros Hb. split; [|by intros f Hf <-; apply header_parse_of]. rewrite header_from_slice_eq.
  change HEADER_MIN_KNOWN_SIZE with 82%nat. change HEADER_MAX_KNOWN_SIZE with 694%nat.
  case_decide as Hr; [|lia].
  assert (0 ≤ from_be (take 2 bytes)) as Hnn by (apply from_be_range; by apply Forall_take).
  destruct (block_version_from_u16 _) as [v|] eqn:Hv.
  - assert (from_be (take 2 bytes) = block_version_to_u16 v) as Hv' by (by apply block_version_from_Some).
    case_decide as Hl; [|split_and!; [lia|lia|done|done|by exists v]].
    destruct (header_parse_inv bytes v Hb Hl Hv') as (f & Hf & -> & Ha).
    rewrite tag_header_of by done.
    exists f. split_and!; try done.
    + by apply header_cstruct.
    + by apply header_common_of.
    + by apply header_auth_of.
    + unfold header_size. by rewrite header_version_of, Ha.
  - split; [done|]. unfold block_version_from_u16, VERSION_UNSIGNED, VERSION_BFT, VERSION_GP in Hv.
    repeat (destruct (_ =? _) eqn:? in Hv; [done|]). lia.
Qed.

(** The concrete Ed25519 of [SumTheorems] as the signature scheme of the
    ledger. *)
#[local] Instance toy_crypto : Crypto := {|
  blake2b_256 := checksum 32; blake2b_224 := checksum 28;
  ed25519_verify sig pk m :=
    match ed_public_from_bytes pk, ed_signature_from_bytes sig with
    | Some pk, Some sig => ed_verify pk m sig
    | _, _ => false
    end;
  OldAddress := unit;
  old_address_try_from _ := Ok ();
  old_address_bytes _ := [];
  identical_with_pubkey_raw _ _ _ := false |}.

Definition demo_header_fields : HeaderFields :=
  mkFields 7 (mkDate 3 5) 11 (replicate 32 1) (replicate 32 2) (AuthBft (replicate 32 3) (replicate 64 4)).
Lemma demo_header_bytes_ok : bytes_ok (header_bytes demo_header_fields).
Proof. apply (bool_decide_unpack _). vm_compute. exact I. Qed.

Lemma header_parse_exact_witness :
  bytes_ok (header_bytes demo_header_fields) ∧
  header_from_slice (header_bytes demo_header_fields) = Ok (header_of demo_header_fields).
Proof.
  split; [exact demo_header_bytes_ok|].
  apply (@header_parse_exact toy_crypto toy_ed25519 zp_dalek _ demo_header_bytes_ok); [|reflexivity].
  vm_compute. intuition discriminate.
Defined.

(** A version that is not known, a length that is not the version's. *)
Example header_parse_errors :
  header_from_slice (0 :: 9 :: replicate 80 0) = Err HUnknownVersion ∧
  header_from_slice (0 :: 2 :: replicate 80 0) = Err (HSizeMismatch 694 82) ∧
  header_from_slice (replicate 81 0) = Err HInvalidSize.
Proof. by vm_compute. Qed.
