(* ===== verification/Leadership.v ===== *)
(** * Leadership ([chain-impl-mockchain/src/leadership/])

    Who may produce the block of a slot: a round robin over the BFT leaders,
    or the stake pools whose verifiable output on the slot falls below their
    share of the stake.  [verify] is the check of a header against the
    leadership, [is_leader_for_date] the leader's own check.

    A [f64] is a [spec_float] of precision 53 and exponent 1024, with the IEEE
    operations of the standard library; [powf] is the platform's and a
    parameter.  The stake distribution of the ledger is computed in
    [Distribution] and passed to [leadership_new]. *)
From Stdlib Require Import SpecFloat.
From S2P Require Import Prelude Codec Sum Time Value Stake Distribution Addr Key Config Settings PoolCert VoteCert LedgerState Fragment LedgerBlock Group Vrf Header.
Local Open Scope Z_scope.

(** ** 64-bit floats *)
Abbreviation f64 := spec_float (only parsing).
Definition f64_of_u64 (v : Z) : f64 := binary_normalize 53 1024 v 0 false.
Definition f64_div : f64 → f64 → f64 := SFdiv 53 1024.
Definition f64_sub : f64 → f64 → f64 := SFsub 53 1024.
Class Libm := { powf : f64 → f64 → f64 }.

(** ** Errors *)
Inductive ErrorKind :=
| Failure | NoLeaderForThisSlot | IncompatibleBlockVersion | IncompatibleLeadershipMode | InvalidLeader
| InvalidLeaderSignature | InvalidLeaderProof | InvalidBlockMessage | InvalidStateUpdate
| VrfNonceIsEmptyButNotSupposedTo.
(** [GenesisError] and [VrfError], the causes. *)
Inductive ErrorCause :=
| InvalidEpoch (expected actual : Z)
| TotalStakeIsZero
| InvalidProofStructure (bdesc : HeaderDesc) (poolid : PoolId)
| InvalidProofValue (bdesc : HeaderDesc) (poolid : PoolId)
| ThresholdInvalid (bdesc : HeaderDesc) (poolid : PoolId) (pool_stake total_stake : Stake)
    (vrf_value threshold : f64).
Record LeadershipError := mkLeadershipError { le_kind : ErrorKind; le_cause : option ErrorCause }.
Definition leadership_error_new (kind : ErrorKind) : LeadershipError := mkLeadershipError kind None.
Definition leadership_error_new_ (kind : ErrorKind) (cause : ErrorCause) : LeadershipError :=
  mkLeadershipError kind (Some cause).
(** [leadership::Verification]. *)
Inductive HeaderVerification := HvSuccess | HvFailure (e : LeadershipError).
Definition hv_into_error (v : HeaderVerification) : outcome LeadershipError unit :=
  match v with HvSuccess => Ok () | HvFailure err => Err err end.
Definition hv_success (v : HeaderVerification) : bool := match v with HvSuccess => true | _ => false end.
Definition hv_failure (v : HeaderVerification) : bool := negb (hv_success v).

Abbreviation PoolDistribution := (StakeDistribution (PoolId := PoolId) (Registration := PoolRegistration)).

(** ** [leadership/bft.rs] *)
Record BftLeadership := mkBftLeadership { leaders : list BftLeaderId }.

Section leadership.
Context `{Crypto} `{Ed25519} `{Dalek} `{Libm}.

Definition bft_leadership_new (settings : Settings) : option BftLeadership :=
  if (length (bft_leaders settings) =? 0)%nat then None else Some (mkBftLeadership (bft_leaders settings)).
Definition number_of_leaders (d : BftLeadership) : nat := length (leaders d).
(** [block_number % max]: division by zero panics. *)
Definition bft_offset {E} (d : BftLeadership) (block_number : Z) : outcome E Z :=
  let max := Z.of_nat (number_of_leaders d) in
  if max =? 0 then Panic else Ok (block_number `mod` max).
Definition get_leader_at {E} (d : BftLeadership) (date : BlockDate) : outcome E BftLeaderId :=
  ofs ← bft_offset d (date_slot_id date); unwrap_opt (leaders d !! Z.to_nat ofs).
Definition bft_verify {E} (d : BftLeadership) (block_header : Header) : outcome E HeaderVerification :=
  proof ← header_proof block_header;
  match proof with
  | ProofBft bft_proof =>
      date ← header_block_date block_header;
      leader ← get_leader_at d date;
      if decide (bft_leader_id bft_proof ≠ leader) then Ok (HvFailure (leadership_error_new InvalidLeader))
      else
        auth ← header_as_auth_slice block_header;
        if ed25519_verify (bft_signature bft_proof) leader auth then Ok HvSuccess
        else Ok (HvFailure (leadership_error_new InvalidLeaderSignature))
  | _ => Ok (HvFailure (leadership_error_new IncompatibleLeadershipMode))
  end.

(** ** [leadership/genesis/vrfeval.rs] *)
Definition Threshold : Type := f64.
Definition u256_top (v : list Z) : Z :=
  let b i := nth i v 0 in
  Z.lor (Z.shiftl (b 0%nat) 56) (Z.lor (Z.shiftl (b 1%nat) 48) (Z.lor (Z.shiftl (b 2%nat) 40)
    (Z.lor (Z.shiftl (b 3%nat) 32) (Z.lor (Z.shiftl (b 4%nat) 24) (Z.lor (Z.shiftl (b 5%nat) 16)
      (Z.lor (Z.shiftl (b 6%nat) 8) (b 7%nat))))))).
(** The literal 18446744073709551616.0 is [2^64], exactly. *)
Definition two_64 : f64 := binary_normalize 53 1024 1 64 false.
Definition threshold_from_u256 {E} (v : list Z) : outcome E Threshold :=
  assert_that (length v =? 32)%nat;;
  Ok (f64_div (f64_of_u64 (u256_top v)) two_64).

(** [Input::create]: the nonce, then the slot in little endian. *)
Definition input_create (epoch_nonce : PraosNonce) (slotid : Z) : list Z :=
  epoch_nonce ++ le_bytes 4 slotid.

Definition DOMAIN_THRESHOLD : list Z := [84; 69; 83; 84].
Definition get_threshold {E} (input : list Z) (os : Point) : outcome E Threshold :=
  threshold_from_u256 (output_seed_to_output os input DOMAIN_THRESHOLD).

Definition milli_to_float (m : Milli) : f64 := f64_div (f64_of_u64 m) (f64_of_u64 1000).
Definition as_float (p : PercentStake) : f64 := f64_div (f64_of_u64 (p_stake p)) (f64_of_u64 (p_total p)).
Definition phi (active_slots_coeff : Milli) (rs : PercentStake) : Threshold :=
  let t := as_float rs in
  let f := milli_to_float active_slots_coeff in
  f64_sub (f64_of_u64 1) (powf (f64_sub (f64_of_u64 1) f) t).
Definition above_stake_threshold (threshold : Threshold) (stake : PercentStake) (active_slots_coeff : Milli) : bool :=
  SFltb threshold (phi active_slots_coeff stake).

Record VrfEvaluator := mkEvaluator {
  ev_stake : PercentStake; ev_nonce : PraosNonce; ev_slot_id : Z; ev_active_slots_coeff : Milli }.
Inductive VrfEvalFailure := ProofVerificationFailed | ThresholdNotMet (vrf_value stake_threshold : f64).

(** [evaluate]: [w] is what the operating system's generator gave the proof. *)
Definition evaluator_evaluate {E} (e : VrfEvaluator) (key : VrfSecretKey) (w : Scalar) :
    outcome E (option ProvenOutputSeed) :=
  let input := input_create (ev_nonce e) (ev_slot_id e) in
  let vr := vrf_evaluate_and_prove key input w in
  let r := vrf_verified_get_output vr in
  t ← get_threshold input r;
  Ok (if above_stake_threshold t (ev_stake e) (ev_active_slots_coeff e) then Some vr else None).
Definition evaluator_verify (e : VrfEvaluator) (key : VrfPublicKey) (witness : ProvenOutputSeed) :
    outcome VrfEvalFailure PraosNonce :=
  let input := input_create (ev_nonce e) (ev_slot_id e) in
  match vrf_verify key input witness with
  | VrfSuccess =>
      let r := vrf_verified_get_output witness in
      threshold ← get_threshold input r;
      let phi_stake := phi (ev_active_slots_coeff e) (ev_stake e) in
      if SFltb threshold phi_stake then Ok (get_nonce r)
      else Err (ThresholdNotMet threshold phi_stake)
  | VrfFailed => Err ProofVerificationFailed
  end.

(** ** [leadership/genesis/mod.rs] *)
Record GenesisLeadership := mkGenesisLeadership {
  gl_epoch_nonce : PraosNonce; gl_nodes : gmap PoolId (PoolState PoolRegistration);
  gl_distribution : PoolDistribution; gl_epoch : Z; gl_active_slots_coeff : Milli }.
Definition genesis_leadership_new (epoch : Z) (settings : Settings) (delegation : gmap PoolId (PoolState PoolRegistration))
    (stake_distribution : PoolDistribution) : GenesisLeadership :=
  mkGenesisLeadership (consensus_nonce settings) delegation stake_distribution epoch (active_slots_coeff settings).

Definition genesis_leader (d : GenesisLeadership) (pool_id : PoolId) (vrf_key : VrfSecretKey) (date : BlockDate)
    (w : Scalar) : outcome LeadershipError (option ProvenOutputSeed) :=
  if decide (date_epoch date ≠ gl_epoch d) then
    Err (leadership_error_new_ Failure (InvalidEpoch (gl_epoch d) (date_epoch date)))
  else
    match get_stake_for (gl_distribution d) pool_id with
    | None => Ok None
    | Some stake =>
        let total := total_stake (gl_distribution d) in
        if total =? 0 then Err (leadership_error_new_ Failure TotalStakeIsZero)
        else
          evaluator_evaluate
            (mkEvaluator (mkPercent stake total) (gl_epoch_nonce d) (date_slot_id date) (gl_active_slots_coeff d))
            vrf_key w
    end.

(** The registration keeps the bytes of the key that it parsed. *)
Definition pool_vrf_key {E} (keys : GenesisPraosLeader) : outcome E VrfPublicKey :=
  unwrap (vrf_public_from_bytes (vrf_public_key keys)).

(** From the VRF proof on, for a pool with a stake and a registration. *)
Definition genesis_verify_pool {E} (d : GenesisLeadership) (block_header : Header) (p : GenesisPraosProof)
    (stake : Stake) (pool_info : PoolRegistration) : outcome E HeaderVerification :=
  let node_id := gp_node_id p in
  let total := total_stake (gl_distribution d) in
  percent_stake ← unwrap (percent_new stake total);
  vrf_proof ← to_vrf_proof (gp_vrf_proof p);
  match vrf_proof with
  | None =>
      desc ← header_description block_header;
      Ok (HvFailure (leadership_error_new_ InvalidLeaderProof (InvalidProofStructure desc node_id)))
  | Some proof =>
      date ← header_block_date block_header;
      vrf_public_key ← pool_vrf_key (pool_keys pool_info);
      match evaluator_verify
              (mkEvaluator percent_stake (gl_epoch_nonce d) (date_slot_id date) (gl_active_slots_coeff d))
              vrf_public_key proof with
      | Panic => Panic
      | Err ProofVerificationFailed =>
          desc ← header_description block_header;
          Ok (HvFailure (leadership_error_new_ InvalidLeaderProof (InvalidProofValue desc node_id)))
      | Err (ThresholdNotMet vrf_value stake_threshold) =>
          desc ← header_description block_header;
          Ok (HvFailure (leadership_error_new_ InvalidLeaderProof
                (ThresholdInvalid desc node_id stake total vrf_value stake_threshold)))
      | Ok _nonce =>
          auth ← header_as_auth_slice block_header;
          valid ← kes12_verify_bytes (kes_public_key (pool_keys pool_info)) (gp_kes_proof p) auth;
          match valid with
          | VerificationFailed => Ok (HvFailure (leadership_error_new InvalidLeaderSignature))
          | VerificationSuccess => Ok HvSuccess
          end
      end
  end.
Definition genesis_verify {E} (d : GenesisLeadership) (block_header : Header) : outcome E HeaderVerification :=
  date ← header_block_date block_header;
  if decide (date_epoch date ≠ gl_epoch d) then
    Ok (HvFailure (leadership_error_new_ Failure (InvalidEpoch (gl_epoch d) (date_epoch date))))
  else
    proof ← header_proof block_header;
    match proof with
    | ProofGenesisPraos genesis_praos_proof =>
        let node_id := gp_node_id genesis_praos_proof in
        match get_stake_for (gl_distribution d) node_id, lookup_reg (gl_nodes d) node_id with
        | Some stake, Some pool_info => genesis_verify_pool d block_header genesis_praos_proof stake pool_info
        | _, _ => Ok (HvFailure (leadership_error_new InvalidBlockMessage))
        end
    | _ => Ok (HvFailure (leadership_error_new IncompatibleLeadershipMode))
    end.

(** ** [leadership/mod.rs] *)
Record GenesisLeader := mkGenesisLeader { gn_node_id : PoolId; gn_sig_key : SumSecretKey; gn_vrf_key : VrfSecretKey }.
(** [BftLeader] is its signing key. *)
Record Leader := mkLeader { bft_leader : option EdSecret; genesis_leader_ : option GenesisLeader }.
Definition leader_from_secret (secret_key : EdSecret) : Leader := mkLeader (Some secret_key) None.
Inductive LeaderOutput :=
| LONone | LOBft (id : BftLeaderId) | LOGenesisPraos (id : PoolId) (witness : ProvenOutputSeed).
Inductive LeadershipConsensus := LCBft (d : BftLeadership) | LCGenesisPraos (d : GenesisLeadership).
Record Leadership := mkLeadership {
  ls_epoch : Z; ls_era : TimeEra; ls_inner : LeadershipConsensus; ls_parameters : LedgerParameters }.

Definition verify_version (c : LeadershipConsensus) (block_version : BlockVersion) : HeaderVerification :=
  match c, block_version with
  | LCBft _, Ed25519Signed | LCGenesisPraos _, KesVrfproof => HvSuccess
  | _, _ => HvFailure (leadership_error_new IncompatibleBlockVersion)
  end.
Definition verify_leader {E} (c : LeadershipConsensus) (block_header : Header) : outcome E HeaderVerification :=
  match c with
  | LCBft bft => bft_verify bft block_header
  | LCGenesisPraos genesis_praos => genesis_verify genesis_praos block_header
  end.
Definition is_leader {E} (c : LeadershipConsensus) (leader : Leader) (date : BlockDate) (w : Scalar) :
    outcome E LeaderOutput :=
  match c with
  | LCBft bft =>
      match bft_leader leader with
      | Some sig_key =>
          bft_leader_id ← get_leader_at bft date;
          if decide (bft_leader_id = ed_public_as_bytes (ed_public_of_secret sig_key)) then Ok (LOBft bft_leader_id)
          else Ok LONone
      | None => Ok LONone
      end
  | LCGenesisPraos genesis_praos =>
      match genesis_leader_ leader with
      | None => Ok LONone
      | Some gen_leader =>
          match genesis_leader genesis_praos (gn_node_id gen_leader) (gn_vrf_key gen_leader) date w with
          | Ok (Some witness) => Ok (LOGenesisPraos (gn_node_id gen_leader) witness)
          | Panic => Panic
          | _ => Ok LONone
          end
      end
  end.

Definition leadership_new `{Election} {E : Type} (epoch : Z) (ledger : Ledger) (stake_distribution : PoolDistribution) :
    outcome E Leadership :=
  inner ← match consensus_version (l_settings ledger) with
          | Bft => d ← unwrap_opt (bft_leadership_new (l_settings ledger)); Ok (LCBft d)
          | GenesisPraos =>
              Ok (LCGenesisPraos (genesis_leadership_new epoch (l_settings ledger) (l_delegation ledger) stake_distribution))
          end;
  Ok (mkLeadership epoch (l_era ledger) inner (get_ledger_parameters ledger)).
Definition leadership_stake_distribution (l : Leadership) : option PoolDistribution :=
  match ls_inner l with LCBft _ => None | LCGenesisPraos inner => Some (gl_distribution inner) end.
Definition date_at_slot {E} (l : Leadership) (slot_id : Z) : outcome E BlockDate :=
  assert_that (slot_id <? slots_per_epoch (ls_era l));; Ok (mkDate (ls_epoch l) slot_id).
Definition leadership_verify {E} (l : Leadership) (block_header : Header) : outcome E HeaderVerification :=
  let v := verify_version (ls_inner l) (header_block_version block_header) in
  if hv_failure v then Ok v
  else
    v ← verify_leader (ls_inner l) block_header;
    if hv_failure v then Ok v else Ok HvSuccess.
Definition is_leader_for_date {E} (l : Leadership) (leader : Leader) (date : BlockDate) (w : Scalar) :
    outcome E LeaderOutput := is_leader (ls_inner l) leader date w.
End leadership.
