(* ===== verification/LeadershipTheorems.v ===== *)
(** * What the leadership accepts ([chain-impl-mockchain/src/leadership/])

    The check of a header in terms of its record; a leader's own header,
    built by the builder of [header/builder.rs] and signed with its keys, is
    accepted by the leadership that elected it. *)
From Stdlib Require Import SpecFloat.
From S2P Require Import Prelude Codec Sum Time Value Stake Distribution Addr Key Config Settings PoolCert VoteCert LedgerState Fragment LedgerBlock SumKey SumSpec SumTheorems Group Vrf Header HeaderSpec Leadership Rewards.
Local Open Scope Z_scope.

Lemma proof_of `{HC : Crypto} `{HE : Ed25519} `{HD : Dalek} {E : Type} f :
  fields_ok f →
  header_proof (E := E) (header_of f) =
  match hf_auth f with
  | AuthNone => Ok ProofNone
  | AuthBft id sig => Ok (ProofBft (mkBftProof id sig))
  | AuthGp id vrf kes =>
      kes_proof ← kes_signature_from kes; Ok (ProofGenesisPraos (mkGpProof id vrf kes_proof))
  end.
Proof.
  intros Hf. unfold header_proof. rewrite header_version_of. destruct (hf_auth f) as [|id sig|id vrf kes] eqn:Ha.
  - done.
  - cbn [auth_version]. rewrite header_cstruct by done. cbn [mbind outcome_bind].
    destruct (slice_bft (E := E) f id sig Hf Ha) as (-> & -> & _). cbn [mbind outcome_bind].
    destruct Hf as (_ & _ & _ & _ & _ & _ & Hok). rewrite Ha in Hok. destruct Hok as [H1 H2].
    unfold bft_leader_id_from, bft_signature_from, signature_from_bytes. rewrite public_from_binary_ok by done.
    rewrite H2. done.
  - cbn [auth_version]. rewrite header_cstruct by done. cbn [mbind outcome_bind].
    destruct (slice_gp (E := E) f id vrf kes Hf Ha) as (-> & -> & -> & _). done.
Qed.

(** ** The round robin *)
Section bft.
Context `{HC : Crypto} `{HE : Ed25519} `{HD : Dalek} `{HL : Libm} {E : Type}.
Set Default Proof Using "HC HE HD E".

Lemma get_leader_at_spec (d : BftLeadership) date :
  leaders d ≠ [] → 0 ≤ date_slot_id date →
  ∃ id, get_leader_at (E := E) d date = Ok id ∧
    leaders d !! Z.to_nat (date_slot_id date `mod` Z.of_nat (length (leaders d))) = Some id.
Proof.
  intros Hne Hs. unfold get_leader_at, bft_offset, number_of_leaders.
  assert (0 < Z.of_nat (length (leaders d))) as Hpos.
  { destruct (leaders d); [done|cbn [length]; lia]. }
  rewrite (proj2 (Z.eqb_neq _ _)) by lia. cbn [mbind outcome_bind].
  pose proof (Z.mod_pos_bound (date_slot_id date) _ Hpos) as Hm.
  destruct (lookup_lt_is_Some_2 (leaders d)
    (Z.to_nat (date_slot_id date `mod` Z.of_nat (length (leaders d))))) as [id Hid]; [lia|].
  exists id. by rewrite Hid.
Qed.

Lemma bft_verify_of d f id sig leader :
  fields_ok f → hf_auth f = AuthBft id sig → get_leader_at (E := E) d (hf_date f) = Ok leader →
  bft_verify (E := E) d (header_of f) =
  Ok (if decide (id = leader) then
        if ed25519_verify sig leader (fields_auth_slice f) then HvSuccess
        else HvFailure (leadership_error_new InvalidLeaderSignature)
      else HvFailure (leadership_error_new InvalidLeader)).
Proof.
  intros Hf Ha Hl. unfold bft_verify. rewrite proof_of, Ha by done. cbn [mbind outcome_bind].
  rewrite header_date_of by done. cbn [mbind outcome_bind]. rewrite Hl. cbn [mbind outcome_bind bft_leader_id].
  destruct (decide (id = leader)) as [->|Hn].
  - rewrite decide_False by auto. rewrite header_auth_of by done. cbn [mbind outcome_bind bft_signature].
    by destruct (ed25519_verify _ _ _).
  - by rewrite decide_True.
Qed.

(** The builder of a BFT header, from the common part on: what the leader does
    with a header of the contents' hash and size, and the whole. *)
Definition bft_closure (parent : list Z) (height : Z) (date : BlockDate) (sign : list Z → list Z)
    (pk : PublicKey) (hdr : CHeader) : outcome E Header :=
  hdr ← hb_set_parent hdr parent height;
  hdr ← hb_set_date hdr date;
  builder ← into_bft_builder hdr;
  b ← unwrap_opt builder;
  bft_sign_using_keys b sign pk.
Definition forge_bft (content_hash : list Z) (content_size : Z) (parent : list Z) (height : Z) (date : BlockDate)
    (sign : list Z → list Z) (pk : PublicKey) : outcome E Header :=
  hdr ← header_builder_raw Ed25519Signed content_hash content_size;
  bft_closure parent height date sign pk hdr.
Definition common_of (content_hash : list Z) (content_size : Z) (parent : list Z) (height : Z) (date : BlockDate)
    : HeaderFields := mkFields content_size date height content_hash parent AuthNone.

Lemma forge_bft_spec hash size parent height date sign pk :
  fields_ok (common_of hash size parent height date) → length pk = 32%nat →
  (∀ m, length (sign m) = 64%nat) →
  let f := set_auth (common_of hash size parent height date) (AuthBft pk (replicate 64 0)) in
  forge_bft hash size parent height date sign pk
  = Ok (header_of (set_auth f (AuthBft pk (sign (fields_auth_slice f))))).
Proof.
  intros Hf Hpk Hs f. pose proof Hf as (_ & _ & _ & _ & H1 & H2 & _). unfold forge_bft, bft_closure.
  rewrite builder_raw_building by done. cbn [mbind outcome_bind].
  rewrite set_parent_building by done. cbn [mbind outcome_bind].
  rewrite set_date_building by done. cbn [mbind outcome_bind]. unfold into_bft_builder. rewrite building_version.
  cbn [mbind outcome_bind block_version_to_u16]. rewrite Z.eqb_refl. cbn [unwrap_opt mbind outcome_bind].
  unfold bft_sign_using_keys. rewrite bft_consensus_data by done. cbn [mbind outcome_bind].
  rewrite bft_authenticated by done. cbn [mbind outcome_bind].
  by rewrite bft_signature_set.
Qed.
End bft.

(** ** Stake pools *)
Lemma get_threshold_ok `{Dalek} {E1 E2} input os t :
  get_threshold (E := E1) input os = Ok t → get_threshold (E := E2) input os = Ok t.
Proof using Type.
  unfold get_threshold, threshold_from_u256.
  destruct (length _ =? 32)%nat; cbn [assert_that mbind outcome_bind]; [|done]. by intros ->%Ok_inj.
Qed.

Section genesis.
Context `{HC : Crypto} `{HE : Ed25519} `{HD : Dalek} `{HL : Libm} {E : Type}.
Set Default Proof Using "All".

(** What a pool's header must satisfy: the pool is known with a stake and a
    registration, the VRF proof is well formed, verifies with the registered
    key on the epoch's nonce and the slot, and falls below the threshold of
    the stake, and the KES signature of the header is the registered key's. *)
Record pool_elected (d : GenesisLeadership) (slot : Z) (id : PoolId) (stake : Stake) (key : VrfPublicKey)
    (proof : ProvenOutputSeed) : Prop := {
  pe_stake : get_stake_for (gl_distribution d) id = Some stake;
  pe_total : stake ≤ total_stake (gl_distribution d);
  pe_proof : proven_verify proof key (input_create (gl_epoch_nonce d) slot) = true;
  pe_below : ∃ t, get_threshold (E := E) (input_create (gl_epoch_nonce d) slot) (pos_u proof) = Ok t ∧
    SFltb t (phi (gl_active_slots_coeff d) (mkPercent stake (total_stake (gl_distribution d)))) = true }.
Definition pool_header_ok (d : GenesisLeadership) (f : HeaderFields) (id vrf kes : list Z) : Prop :=
  date_epoch (hf_date f) = gl_epoch d ∧
  ∃ stake info key proof sig,
    pool_elected d (date_slot_id (hf_date f)) id stake key proof ∧
    lookup_reg (gl_nodes d) id = Some info ∧
    vrf_public_from_bytes (vrf_public_key (pool_keys info)) = Ok key ∧
    proven_from_bytes_unverified (E := E) vrf = Ok (Some proof) ∧
    kes12_signature_from_bytes kes = Ok sig ∧
    sum_verify (E := E) (kes_public_key (pool_keys info)) (fields_auth_slice f) sig = Ok true.

Lemma genesis_verify_complete d f id vrf kes :
  fields_ok f → hf_auth f = AuthGp id vrf kes → pool_header_ok d f id vrf kes →
  genesis_verify (E := E) d (header_of f) = Ok HvSuccess.
Proof.
  intros Hf Ha (He & stake & info & key & proof & sig & [Hst Htot Hpv (t & Ht & Hlt)] & Hreg & Hkey & Hvrf & Hkes & Hsum).
  unfold genesis_verify. rewrite header_date_of by done. cbn [mbind outcome_bind].
  rewrite decide_False by auto. rewrite proof_of, Ha by done. unfold kes_signature_from. rewrite Hkes.
  cbn [unwrap mbind outcome_bind gp_node_id]. rewrite Hst, Hreg. unfold genesis_verify_pool.
  unfold percent_new. rewrite (proj2 (Z.leb_le _ _)) by done.
  cbn [gp_node_id gp_vrf_proof gp_kes_proof assert_that unwrap mbind outcome_bind]. unfold to_vrf_proof.
  rewrite Hvrf. cbn [mbind outcome_bind]. rewrite header_date_of by done. cbn [mbind outcome_bind].
  unfold pool_vrf_key. rewrite Hkey. cbn [unwrap mbind outcome_bind]. unfold evaluator_verify, vrf_verify.
  cbn [ev_nonce ev_slot_id ev_active_slots_coeff ev_stake]. rewrite Hpv.
  unfold vrf_verified_get_output. rewrite (get_threshold_ok _ _ t Ht). cbn [mbind outcome_bind]. rewrite Hlt.
  rewrite header_auth_of by done. cbn [mbind outcome_bind]. unfold kes12_verify_bytes. rewrite Hsum. done.
Qed.

Lemma genesis_verify_sound d f id vrf kes :
  fields_ok f → hf_auth f = AuthGp id vrf kes →
  genesis_verify (E := E) d (header_of f) = Ok HvSuccess → pool_header_ok d f id vrf kes.
Proof.
  intros Hf Ha. unfold genesis_verify. rewrite header_date_of by done. cbn [mbind outcome_bind].
  case_decide as He; [done|]. rewrite proof_of, Ha by done.
  destruct (kes12_signature_from_bytes kes) as [sig| |] eqn:Hkes; unfold kes_signature_from; rewrite Hkes; [|done|done].
  cbn [unwrap mbind outcome_bind gp_node_id].
  destruct (get_stake_for _ id) as [stake|] eqn:Hst; [|done].
  destruct (lookup_reg _ id) as [info|] eqn:Hreg; [|done]. unfold genesis_verify_pool, percent_new.
  cbn [gp_node_id gp_vrf_proof gp_kes_proof].
  destruct (stake <=? _) eqn:Htot; [|done]. cbn [assert_that unwrap mbind outcome_bind]. unfold to_vrf_proof.
  destruct (proven_from_bytes_unverified (E := E) vrf) as [[proof|]| |] eqn:Hvrf; cbn [mbind outcome_bind];
    [|by unfold header_description; intros ?; inv_ok|done..].
  rewrite header_date_of by done. cbn [mbind outcome_bind]. unfold pool_vrf_key.
  destruct (vrf_public_from_bytes _) as [key| |] eqn:Hkey; [|done|done]. cbn [unwrap mbind outcome_bind].
  unfold evaluator_verify, vrf_verify. cbn [ev_nonce ev_slot_id ev_active_slots_coeff ev_stake].
  destruct (proven_verify _ _ _) eqn:Hpv; [|by intros ?; inv_ok]. unfold vrf_verified_get_output.
  destruct (get_threshold (E := VrfEvalFailure) _ _) as [t|e|] eqn:Ht; cbn [mbind outcome_bind]; [| |done].
  2: { exfalso. revert Ht. unfold get_threshold, threshold_from_u256. by destruct (_ =? _)%nat. }
  destruct (SFltb t _) eqn:Hlt; [|by intros ?; inv_ok].
  rewrite header_auth_of by done. cbn [mbind outcome_bind]. unfold kes12_verify_bytes.
  destruct (sum_verify _ _ _) as [[]| |] eqn:Hsum; try done. intros _.
  split; [done|]. exists stake, info, key, proof, sig. split_and!; try done. split; try done.
  - by apply Z.leb_le.
  - exists t. split; [by eapply get_threshold_ok|done].
Qed.

(** The builder of a pool's header, from the common part on. *)
Definition forge_gp (content_hash : list Z) (content_size : Z) (parent : list Z) (height : Z) (date : BlockDate)
    (node_id vrf_proof : list Z) (kes_key : SumSecretKey) : outcome E Header :=
  hdr ← header_builder_raw KesVrfproof content_hash content_size;
  hdr ← hb_set_parent hdr parent height;
  hdr ← hb_set_date hdr date;
  builder ← into_genesis_praos_builder hdr;
  b ← unwrap_opt builder;
  b ← gp_set_consensus_data b node_id vrf_proof;
  gp_sign_using b kes_key.
Lemma forge_gp_spec hash size parent height date node_id vrf kes_key sig :
  fields_ok (common_of hash size parent height date) → length node_id = 32%nat → length vrf = 96%nat →
  let f := set_auth (common_of hash size parent height date) (AuthGp node_id vrf (replicate 484 0)) in
  sum_sign (E := E) kes_key (fields_auth_slice f) = Ok sig → length sig = 484%nat →
  forge_gp hash size parent height date node_id vrf kes_key
  = Ok (header_of (set_auth f (AuthGp node_id vrf sig))).
Proof.
  intros Hf Hid Hvrf f Hsig Hl. pose proof Hf as (_ & _ & _ & _ & H1 & H2 & _). unfold forge_gp.
  rewrite builder_raw_building by done. cbn [mbind outcome_bind].
  rewrite set_parent_building by done. cbn [mbind outcome_bind].
  rewrite set_date_building by done. cbn [mbind outcome_bind]. unfold into_genesis_praos_builder. rewrite building_version.
  cbn [mbind outcome_bind block_version_to_u16]. rewrite Z.eqb_refl. cbn [unwrap_opt mbind outcome_bind].
  rewrite gp_consensus_data by done. cbn [mbind outcome_bind]. unfold gp_sign_using.
  rewrite gp_authenticated by done. cbn [mbind outcome_bind].
  change (fields_auth_slice (set_auth (mkFields _ _ _ _ _ _) ?a)) with (fields_auth_slice f). rewrite Hsig.
  cbn [mbind outcome_bind]. by rewrite gp_signature_set.
Qed.
End genesis.

(** * The properties of the leadership ([chain-impl-mockchain/src/leadership/]) *)
Unset Default Proof Using.
Local Open Scope Z_scope.

Section theorems.
Context `{HC : Crypto} `{HE : Ed25519} `{HD : Dalek} `{HL : Libm} {E : Type}.

(** The check of a BFT header is exact: a leadership of at least one
    leader has exactly one leader per slot, the one at the slot's number modulo
    their number; it accepts the header of a record exactly when the record
    carries that leader's identifier and a signature of that leader on
    everything before the signature; a foreign identifier and a bad signature
    are told apart. *)
Theorem bft_verify_exact (l : Leadership) (d : BftLeadership) (f : HeaderFields) (id sig : list Z) :
  ls_inner l = LCBft d → leaders d ≠ [] → fields_ok f → hf_auth f = AuthBft id sig →
  ∃ leader,
    leaders d !! Z.to_nat (date_slot_id (hf_date f) `mod` Z.of_nat (length (leaders d))) = Some leader ∧
    get_leader_at (E := E) d (hf_date f) = Ok leader ∧
    leadership_verify (E := E) l (header_of f) =
      Ok (if decide (id = leader) then
            if ed25519_verify sig leader (fields_auth_slice f) then HvSuccess
            else HvFailure (leadership_error_new InvalidLeaderSignature)
          else HvFailure (leadership_error_new InvalidLeader)).
Proof using HC HE HD HL E.
  intros Hl Hne Hf Ha. pose proof Hf as (_ & _ & [Hs _] & _).
  destruct (get_leader_at_spec (E := E) d (hf_date f) Hne Hs) as (leader & Hlead & Hidx).
  exists leader. split_and!; [done|done|]. unfold leadership_verify. rewrite Hl, header_version_of, Ha.
  cbn [auth_version verify_version hv_failure hv_success negb verify_leader].
  rewrite (bft_verify_of d f id sig leader) by done. cbn [mbind outcome_bind].
  by repeat case_match.
Qed.

(** C11. The check of a stake pool's header is exact: of a record of the
    Praos version, the leadership of the epoch accepts the header exactly
    when the pool has a stake within the total and a registration, the VRF
    proof parses, verifies under the registered key on the epoch's nonce and
    the slot and falls below the threshold of the stake, and the KES signature
    parses and verifies under the registered key. *)
Theorem pool_header_accepted_iff (l : Leadership) (d : GenesisLeadership) (f : HeaderFields) (id vrf kes : list Z) :
  ls_inner l = LCGenesisPraos d → fields_ok f → hf_auth f = AuthGp id vrf kes →
  leadership_verify (E := E) l (header_of f) = Ok HvSuccess ↔ pool_header_ok (E := E) d f id vrf kes.
Proof using HC HE HD HL E.
  intros Hl Hf Ha. unfold leadership_verify. rewrite Hl, header_version_of, Ha.
  cbn [auth_version verify_version hv_failure hv_success negb verify_leader]. split.
  - intros Hv. eapply genesis_verify_sound; [done..|].
    destruct (genesis_verify d (header_of f)) as [[|e]| |]; try done.
  - intros Hok. by rewrite (genesis_verify_complete d f id vrf kes).
Qed.

(** C40. A header whose version the leadership does not follow is refused
    before its proof is looked at; but a header of the right version and epoch
    whose KES bytes do not parse makes the check panic, although
    [header_from_slice] accepts its bytes. *)
Theorem malformed_kes_header_panics (l : Leadership) (d : GenesisLeadership) (f : HeaderFields) (id vrf kes : list Z) e :
  ls_inner l = LCGenesisPraos d → fields_ok f → hf_auth f = AuthGp id vrf kes →
  date_epoch (hf_date f) = gl_epoch d → kes12_signature_from_bytes kes = Err e →
  header_from_slice (header_bytes f) = Ok (header_of f) ∧
  leadership_verify (E := E) l (header_of f) = Panic ∧
  (∀ bft, leadership_verify (E := E) (mkLeadership (ls_epoch l) (ls_era l) (LCBft bft) (ls_parameters l)) (header_of f)
    = Ok (HvFailure (leadership_error_new IncompatibleBlockVersion))).
Proof using HC HE HD HL E.
  intros Hl Hf Ha He Hk. split_and!; [by apply header_parse_of| |].
  - unfold leadership_verify. rewrite Hl, header_version_of, Ha.
    cbn [auth_version verify_version hv_failure hv_success negb verify_leader]. unfold genesis_verify.
    rewrite header_date_of by done. cbn [mbind outcome_bind]. rewrite decide_False by auto.
    rewrite proof_of, Ha by done. unfold kes_signature_from. by rewrite Hk.
  - intros bft. unfold leadership_verify. cbn [ls_inner]. by rewrite header_version_of, Ha.
Qed.
End theorems.

(** ** A leader's own header *)
Section leaders.
Context `{HC : Crypto} `{HEL : Ed25519Laws} `{HDL : DalekLaws} `{HL : Libm} {E : Type}.
(** The two views of the same signature scheme: bytes for the ledger, keys
    for the signer. *)
Context (verify_signed : ∀ sk m,
  ed25519_verify (ed_signature_to_bytes (ed_sign (sk, ed_public_of_secret sk) m))
    (ed_public_as_bytes (ed_public_of_secret sk)) m = true).
Set Default Proof Using "Type*".

Lemma vrf_public_back x :
  vrf_public_from_bytes (vpk_bytes (vrf_public (vsk_of_scalar x))) = Ok (vrf_public (vsk_of_scalar x)).
Proof.
  unfold vrf_public_from_bytes. cbn [vrf_public vpk_bytes]. unfold ge_to_bytes, ge_from_bytes.
  rewrite p_bytes_32. cbn [Nat.eqb GE_BYTES_LEN negb assert_that mbind outcome_bind].
  by rewrite p_bytes_roundtrip.
Qed.

(** An elected pool's witness is one that the leadership's check accepts. *)
Lemma pool_elected_witness l d x w id kes_key witness date :
  ls_inner l = LCGenesisPraos d → sd_ok (gl_distribution d) → sd_sum (gl_distribution d) ≤ u64_max →
  is_leader_for_date (E := E) l (mkLeader None (Some (mkGenesisLeader id kes_key (vsk_of_scalar x)))) date w
    = Ok (LOGenesisPraos id witness) →
  ∃ stake, date_epoch date = gl_epoch d ∧
    witness = vrf_evaluate (vsk_of_scalar x) w (input_create (gl_epoch_nonce d) (date_slot_id date)) ∧
    pool_elected (E := E) d (date_slot_id date) id stake (vrf_public (vsk_of_scalar x)) witness.
Proof.
  intros Hl Hsd Hsum. unfold is_leader_for_date, is_leader. rewrite Hl. cbn [genesis_leader_ gn_node_id gn_vrf_key].
  unfold genesis_leader. case_decide as He; [done|].
  destruct (get_stake_for _ id) as [stake|] eqn:Hst; [|done]. destruct (_ =? 0); [done|].
  unfold evaluator_evaluate, above_stake_threshold, vrf_verified_get_output, vrf_evaluate_and_prove.
  cbn [ev_nonce ev_slot_id ev_active_slots_coeff ev_stake].
  destruct (get_threshold _ _) as [t| |] eqn:Ht; cbn [mbind outcome_bind]; [|done|done].
  destruct (SFltb t _) eqn:Hlt; [|done]. intros [= <-].
  exists stake. split_and!; [done|done|]. split; [done| | |].
  - by apply (get_stake_for_le _ id).
  - by apply dleq_generate_verifies.
  - exists t. split; [exact (get_threshold_ok _ _ t Ht)|done].
Qed.

(** A BFT leader that the leadership elects for a date produces a header
    that it accepts: whatever the content, the parent and the height, the
    header that the builder forges and signs with the leader's key carries the
    date and is accepted. *)
Theorem bft_leader_header_accepted (l : Leadership) d sk date w id hash size parent height :
  ls_inner l = LCBft d → fields_ok (common_of hash size parent height date) →
  is_leader_for_date (E := E) l (leader_from_secret sk) date w = Ok (LOBft id) →
  ∃ h, forge_bft hash size parent height date (λ m, ed_signature_to_bytes (ed_sign (sk, ed_public_of_secret sk) m)) id
       = Ok (E := E) h ∧
    leadership_verify (E := E) l h = Ok HvSuccess ∧ header_block_date (E := E) h = Ok date ∧
    (∃ bytes, header_as_slice (E := E) h = Ok bytes ∧ header_from_slice bytes = Ok h).
Proof.
  intros Hl Hf Hlead. unfold is_leader_for_date, is_leader, leader_from_secret in Hlead. rewrite Hl in Hlead.
  cbn [bft_leader] in Hlead. destruct (get_leader_at (E := E) d date) as [lid| |] eqn:Hg; [|done|done].
  cbn [mbind outcome_bind] in Hlead. case_decide as Hid; [|done]. injection Hlead as <-. subst lid.
  pose proof (ed_public_bytes_32 (ed_public_of_secret sk)) as Hpk.
  set (sign := λ m, ed_signature_to_bytes (ed_sign (sk, ed_public_of_secret sk) m)).
  assert (∀ m, length (sign m) = 64%nat) as Hs by (intros m; apply ed_signature_bytes_64).
  pose proof (forge_bft_spec (E := E) hash size parent height date sign _ Hf Hpk Hs) as Hforge. cbn zeta in Hforge.
  set (pk := ed_public_as_bytes (ed_public_of_secret sk)) in *.
  set (f := set_auth (common_of hash size parent height date) (AuthBft pk (replicate 64 0))) in Hforge.
  set (g := set_auth f (AuthBft pk (sign (fields_auth_slice f)))) in Hforge.
  assert (fields_ok g) as Hg' by (apply set_auth_ok; [by apply set_auth_ok; [|by cbn]|by cbn]).
  exists (header_of g). split; [exact Hforge|]. split; [|split].
  - unfold leadership_verify. rewrite Hl, header_version_of. cbn [g set_auth hf_auth auth_version].
    cbn [verify_version hv_failure hv_success negb verify_leader].
    rewrite (bft_verify_of d g _ _ _ Hg' eq_refl Hg), decide_True by done.
    change (fields_auth_slice g) with (fields_auth_slice f). unfold sign. by rewrite verify_signed.
  - by rewrite header_date_of.
  - exists (header_bytes g). split; [by apply header_cstruct|by apply header_parse_of].
Qed.

(** C6. A stake pool that the leadership elects for a date produces a header
    that it accepts: with the registered pool key [root 12 seed] and the key of
    the current period, whatever the randomness of the VRF proof, the content,
    the parent and the height, the header that the builder forges and the KES
    key signs is accepted, and the chain reads back from it the proven nonce
    and the pool. *)
Theorem pool_leader_header_accepted (l : Leadership) d x w info seed t kes_key id witness hash size parent height date :
  ls_inner l = LCGenesisPraos d → sd_ok (gl_distribution d) → sd_sum (gl_distribution d) ≤ u64_max →
  length id = 32%nat → lookup_reg (gl_nodes d) id = Some info →
  pool_keys info = mkPraosLeader (root 12 seed) (vpk_bytes (vrf_public (vsk_of_scalar x))) →
  0 ≤ t < 4096 → key_at 12 seed t kes_key → fields_ok (common_of hash size parent height date) →
  is_leader_for_date (E := E) l (mkLeader None (Some (mkGenesisLeader id kes_key (vsk_of_scalar x)))) date w
    = Ok (LOGenesisPraos id witness) →
  ∃ vrf h, proven_bytes (E := E) witness = Ok vrf ∧
    forge_gp hash size parent height date id vrf kes_key = Ok (E := E) h ∧
    leadership_verify (E := E) l h = Ok HvSuccess ∧
    get_consensus_eval_context (E := E) h = Ok (CPraos (witness_to_nonce witness) id) ∧
    (∃ bytes, header_as_slice (E := E) h = Ok bytes ∧ header_from_slice bytes = Ok h).
Proof.
  intros Hl Hsd Hsum Hid Hreg Hkeys Ht Hkes Hf Hlead.
  destruct (pool_elected_witness l d x w id kes_key witness date Hl Hsd Hsum Hlead) as (stake & Hepoch & -> & Hel).
  set (witness := vrf_evaluate _ w _) in *.
  set (vrf := p_compress (pos_u witness) ++ s_to_bytes (dleq_challenge (pos_dleq_proof witness))
              ++ s_to_bytes (dleq_response (pos_dleq_proof witness))).
  assert (length vrf = 96%nat) as Hvrf by (unfold vrf; by rewrite !length_app, p_bytes_32, !s_bytes_32).
  set (f := set_auth (common_of hash size parent height date) (AuthGp id vrf (replicate 484 0))).
  destruct Hkes as (kp & Hleaf & ->).
  set (sig := signature_at 12 seed t kp (fields_auth_slice f)).
  assert (length sig = 484%nat) as Hsig by (unfold sig; by rewrite length_signature_at).
  assert (0 ≤ t < 2 ^ Z.of_nat 12) as Ht12 by done.
  pose proof (sign_key_at (E := E) 12 seed t kp (fields_auth_slice f) ltac:(lia) Ht12) as Hss. fold sig in Hss.
  pose proof (signature_at_back 12 seed t kp (fields_auth_slice f) ltac:(lia) Ht12) as Hback. fold sig in Hback.
  pose proof (signature_at_verifies (E := E) 12 seed t kp (fields_auth_slice f) ltac:(lia) Ht12 Hleaf) as Hver.
  fold sig in Hver. clearbody sig.
  set (g := set_auth f (AuthGp id vrf sig)).
  assert (fields_ok g) as Hg by (apply set_auth_ok; [by apply set_auth_ok; [|by cbn]|by cbn]).
  exists vrf, (header_of g). split; [apply proven_bytes_eq|]. split_and!.
  - exact (forge_gp_spec hash size parent height date id vrf _ sig Hf Hid Hvrf Hss Hsig).
  - unfold leadership_verify. rewrite Hl, header_version_of. cbn [g set_auth hf_auth auth_version].
    cbn [verify_version hv_failure hv_success negb verify_leader].
    rewrite (genesis_verify_complete d g id vrf sig); [done|done|done|].
    split; [done|]. exists stake, info, (vrf_public (vsk_of_scalar x)), witness, sig.
    split; [exact Hel|]. split; [exact Hreg|]. split; [|split; [|split]].
    + rewrite Hkeys. cbn [vrf_public_key]. apply vrf_public_back.
    + apply proven_bytes_back.
    + unfold kes12_signature_from_bytes. change DEPTH with 12%nat. by rewrite Hback.
    + rewrite Hkeys. exact Hver.
  - unfold get_consensus_eval_context. rewrite header_version_of. cbn [g set_auth hf_auth auth_version].
    rewrite header_cstruct by done. cbn [mbind outcome_bind].
    destruct (slice_gp (E := E) g id vrf sig Hg eq_refl) as (-> & -> & _). cbn [mbind outcome_bind].
    unfold to_vrf_proof, vrf. rewrite proven_bytes_back. done.
  - exists (header_bytes g). split; [by apply header_cstruct|by apply header_parse_of].
Qed.
End leaders.

(** ** The theorems at concrete inputs *)
#[local] Existing Instance toy_crypto.
#[local] Instance flat_powf : Libm := {| powf _ _ := f64_of_u64 0 |}.

Lemma toy_verify_signed (sk : EdSecret) m :
  ed25519_verify (ed_signature_to_bytes (ed_sign (sk, ed_public_of_secret sk) m))
    (ed_public_as_bytes (ed_public_of_secret sk)) m = true.
Proof.
  unfold ed25519_verify, toy_crypto. rewrite ed_public_roundtrip, ed_signature_roundtrip. apply ed_sign_verifies.
Qed.

Definition demo_secret : EdSecret := default (dexist (replicate 32 0) eq_refl) (to_sized 32 (replicate 32 1)).
Definition demo_public : list Z := ed_public_as_bytes (ed_public_of_secret demo_secret).
Definition demo_era : TimeEra := mkEra 0 0 100.
Definition demo_lp : LedgerParameters :=
  mkLedgerParameters (linear_fees settings_new) tax_zero (to_reward_params settings_new) 102400 10 ToRewards [].
Definition demo_bft : BftLeadership := mkBftLeadership [replicate 32 9; demo_public].
Definition demo_bft_leadership : Leadership := mkLeadership 3 demo_era (LCBft demo_bft) demo_lp.
Definition demo_common : HeaderFields := common_of (replicate 32 1) 7 (replicate 32 2) 11 (mkDate 3 5).
Lemma demo_common_ok : fields_ok (common_of (replicate 32 1) 7 (replicate 32 2) 11 (mkDate 3 5)).
Proof. vm_compute. intuition discriminate. Qed.

Lemma bft_verify_exact_witness :
  ls_inner demo_bft_leadership = LCBft demo_bft ∧
  ∃ leader, leaders demo_bft !! 1%nat = Some leader ∧
    leadership_verify (E := unit) demo_bft_leadership
      (header_of (set_auth demo_common (AuthBft demo_public (replicate 64 0))))
    = Ok (if decide (demo_public = leader) then
            if ed25519_verify (replicate 64 0) leader (fields_auth_slice (set_auth demo_common (AuthBft demo_public (replicate 64 0))))
            then HvSuccess else HvFailure (leadership_error_new InvalidLeaderSignature)
          else HvFailure (leadership_error_new InvalidLeader)).
Proof.
  split; [reflexivity|].
  destruct (bft_verify_exact (E := unit) demo_bft_leadership demo_bft
    (set_auth demo_common (AuthBft demo_public (replicate 64 0))) demo_public (replicate 64 0)
    eq_refl ltac:(discriminate) ltac:(apply set_auth_ok; [exact demo_common_ok|split; [apply ed_public_bytes_32|reflexivity]])
    eq_refl) as (leader & Hidx & _ & Hv).
  exists leader. exact (conj Hidx Hv).
Defined.

Lemma demo_bft_elected :
  is_leader_for_date (E := unit) demo_bft_leadership (leader_from_secret demo_secret) (mkDate 3 5) s_zero
  = Ok (LOBft demo_public).
Proof.
  unfold is_leader_for_date, is_leader, demo_bft_leadership, leader_from_secret. cbn [ls_inner bft_leader].
  assert (get_leader_at (E := unit) demo_bft (mkDate 3 5) = Ok demo_public) as -> by (vm_compute; reflexivity).
  cbn [mbind outcome_bind]. by rewrite decide_True.
Qed.

Lemma bft_leader_header_accepted_witness :
  is_leader_for_date (E := unit) demo_bft_leadership (leader_from_secret demo_secret) (mkDate 3 5) s_zero
    = Ok (LOBft demo_public) ∧
  ∃ h, forge_bft (E := unit) (replicate 32 1) 7 (replicate 32 2) 11 (mkDate 3 5)
         (λ m, ed_signature_to_bytes (ed_sign (demo_secret, ed_public_of_secret demo_secret) m)) demo_public
       = Ok h ∧
    leadership_verify (E := unit) demo_bft_leadership h = Ok HvSuccess ∧
    header_block_date (E := unit) h = Ok (mkDate 3 5) ∧
    (∃ bytes, header_as_slice (E := unit) h = Ok bytes ∧ header_from_slice bytes = Ok h).
Proof.
  assert (is_leader_for_date (E := unit) demo_bft_leadership (leader_from_secret demo_secret) (mkDate 3 5) s_zero
    = Ok (LOBft demo_public)) as Hlead by exact demo_bft_elected.
  split; [exact Hlead|].
  exact (@bft_leader_header_accepted toy_crypto toy_ed25519 toy_ed25519_laws zp_dalek zp_dalek_laws flat_powf unit
    toy_verify_signed demo_bft_leadership demo_bft demo_secret (mkDate 3 5)
    s_zero demo_public (replicate 32 1) 7 (replicate 32 2) 11 eq_refl demo_common_ok Hlead).
Defined.

(** A pool that holds all the stake, at the first period of its key. *)
Definition demo_pool_id : PoolId := replicate 32 7.
Definition demo_vrf_secret : Scalar := s_of_u64 5.
Definition demo_pool_keys : GenesisPraosLeader :=
  mkPraosLeader (root 12 demo_seed) (vpk_bytes (vrf_public (vsk_of_scalar demo_vrf_secret))).
Definition demo_pool_info : PoolRegistration := mkPoolReg 1 0 0 [] [] tax_zero None demo_pool_keys.
Definition demo_stake_distribution : PoolDistribution :=
  mkSd 0 0 {[ demo_pool_id := mkPsi None (mkPsd 10 {[ demo_public := 10 ]}) ]}.
Definition demo_nodes : gmap PoolId (PoolState PoolRegistration) :=
  {[ demo_pool_id := mkPoolState pool_last_rewards_default demo_pool_info ]}.
Definition demo_genesis_of (nodes : gmap PoolId (PoolState PoolRegistration)) : GenesisLeadership :=
  mkGenesisLeadership (replicate 32 6) nodes demo_stake_distribution 3 500.
Definition demo_genesis : GenesisLeadership := demo_genesis_of demo_nodes.
Definition demo_genesis_leadership : Leadership :=
  mkLeadership 3 demo_era (LCGenesisPraos demo_genesis) demo_lp.
Definition demo_witness : ProvenOutputSeed :=
  vrf_evaluate (vsk_of_scalar demo_vrf_secret) (s_of_u64 9) (input_create (replicate 32 6) 5).

Lemma demo_elected nodes :
  genesis_leader (demo_genesis_of nodes) demo_pool_id (vsk_of_scalar demo_vrf_secret) (mkDate 3 5) (s_of_u64 9)
  = Ok (Some demo_witness).
Proof.
  unfold genesis_leader. rewrite decide_False by (cbn; auto).
  assert (get_stake_for (gl_distribution (demo_genesis_of nodes)) demo_pool_id = Some 10) as -> by (vm_compute; reflexivity).
  assert (total_stake (gl_distribution (demo_genesis_of nodes)) = 10) as -> by (vm_compute; reflexivity).
  cbn [Z.eqb]. unfold evaluator_evaluate.
  assert (get_threshold (E := LeadershipError) (input_create (replicate 32 6) 5) (pos_u demo_witness)
    = Ok (default two_64 (match get_threshold (E := unit) (input_create (replicate 32 6) 5) (pos_u demo_witness) with
          Ok t => Some t | _ => None end))) as Ht by (vm_compute; reflexivity).
  unfold demo_witness, vrf_evaluate_and_prove, vrf_verified_get_output in *. cbn [ev_nonce ev_slot_id demo_genesis_of gl_epoch_nonce date_slot_id].
  rewrite Ht. cbn [mbind outcome_bind].
  match goal with |- context [above_stake_threshold ?a ?b ?c] => assert (above_stake_threshold a b c = true) as -> by (vm_compute; reflexivity) end.
  done.
Qed.
Lemma demo_registered : lookup_reg demo_nodes demo_pool_id = Some demo_pool_info.
Proof. unfold lookup_reg, demo_nodes. by rewrite lookup_singleton_eq. Qed.
Lemma demo_distribution_ok :
  sd_ok demo_stake_distribution ∧ sd_sum demo_stake_distribution ≤ u64_max.
Proof.
  split; [|vm_compute; discriminate]. split; [done|]. split; [done|]. apply map_Forall_singleton. cbn [psi_stake]. split.
  - apply map_Forall_singleton. lia.
  - vm_compute. reflexivity.
Qed.
Lemma demo_pool_elected kes_key :
  is_leader_for_date (E := unit) demo_genesis_leadership
    (mkLeader None (Some (mkGenesisLeader demo_pool_id kes_key (vsk_of_scalar demo_vrf_secret)))) (mkDate 3 5) (s_of_u64 9)
  = Ok (LOGenesisPraos demo_pool_id demo_witness).
Proof.
  unfold is_leader_for_date, is_leader, demo_genesis_leadership. cbn [ls_inner genesis_leader_ gn_node_id gn_vrf_key].
  unfold demo_genesis. by rewrite demo_elected.
Qed.

Lemma pool_leader_header_accepted_witness :
  ∃ kes_key vrf h, key_at 12 demo_seed 0 kes_key ∧ proven_bytes (E := unit) demo_witness = Ok vrf ∧
    forge_gp (E := unit) (replicate 32 1) 7 (replicate 32 2) 11 (mkDate 3 5) demo_pool_id vrf kes_key = Ok h ∧
    leadership_verify (E := unit) demo_genesis_leadership h = Ok HvSuccess.
Proof.
  destruct (keygen_key_at (E := unit) 12 demo_seed ltac:(lia) eq_refl) as (kes_key & _ & Hk).
  destruct (@pool_leader_header_accepted toy_crypto toy_ed25519 toy_ed25519_laws zp_dalek zp_dalek_laws flat_powf unit
    toy_verify_signed demo_genesis_leadership demo_genesis demo_vrf_secret (s_of_u64 9) demo_pool_info demo_seed 0 kes_key
    demo_pool_id demo_witness (replicate 32 1) 7 (replicate 32 2) 11 (mkDate 3 5) eq_refl (proj1 demo_distribution_ok)
    (proj2 demo_distribution_ok) eq_refl demo_registered eq_refl ltac:(lia) Hk demo_common_ok (demo_pool_elected kes_key))
    as (vrf & h & Hp & Hf & Hv & _).
  exists kes_key, vrf, h. exact (conj Hk (conj Hp (conj Hf Hv))).
Defined.

(** A pool's header whose KES bytes are all 255. *)
Definition demo_bad_kes : HeaderFields :=
  set_auth demo_common (AuthGp demo_pool_id (replicate 96 0) (replicate 484 255)).
Lemma demo_bad_kes_ok : fields_ok demo_bad_kes.
Proof. apply set_auth_ok; [exact demo_common_ok|done]. Qed.

Lemma malformed_kes_header_panics_witness :
  header_from_slice (header_bytes demo_bad_kes) = Ok (header_of demo_bad_kes) ∧
  leadership_verify (E := unit) demo_genesis_leadership (header_of demo_bad_kes) = Panic.
Proof.
  destruct (malformed_kes_header_panics (E := unit) demo_genesis_leadership demo_genesis demo_bad_kes demo_pool_id
    (replicate 96 0) (replicate 484 255) SigStructureInvalid eq_refl demo_bad_kes_ok eq_refl eq_refl
    ltac:(vm_compute; reflexivity)) as (H1 & H2 & _).
  exact (conj H1 H2).
Defined.

Lemma pool_header_accepted_iff_witness :
  hf_auth demo_bad_kes = AuthGp demo_pool_id (replicate 96 0) (replicate 484 255) ∧
  (leadership_verify (E := unit) demo_genesis_leadership (header_of demo_bad_kes) = Ok HvSuccess ↔
   pool_header_ok (E := unit) demo_genesis demo_bad_kes demo_pool_id (replicate 96 0) (replicate 484 255)).
Proof.
  split; [reflexivity|].
  exact (pool_header_accepted_iff (E := unit) demo_genesis_leadership demo_genesis demo_bad_kes demo_pool_id
    (replicate 96 0) (replicate 484 255) eq_refl demo_bad_kes_ok eq_refl).
Defined.
