(* ===== verification/Block.v ===== *)
(** * Blocks ([chain-impl-mockchain/src/block/])

    A block is a header and its contents.  On the wire: the size of the header
    in two bytes, the header, and the fragments behind their sizes, as many as
    fill the content size that the header declares.  [block_deserialize] is the
    parser over a stream, [block_read] the one over a buffer. *)
From S2P Require Import Prelude Codec Sum Time Addr Key Config Settings PoolCert VoteCert LedgerState Fragment LedgerBlock Group Vrf Header.
From stdpp Require Import pretty.
Local Open Scope Z_scope.

(** [Display for ReadError]. *)
Definition read_error_display (e : ReadError) : string :=
  match e with
  | NotEnoughBytes l demanded =>
      "NotEnoughBytes: demanded " +:+ pretty demanded +:+ " bytes but got " +:+ pretty l
  | UnconsumedData len => "Unconsumed data: " +:+ pretty len +:+ " bytes left"
  | SizeTooBig e limit =>
      "Ask for number of elements " +:+ pretty e +:+ " above expected limit value: " +:+ pretty limit
  | StructureInvalid s => "Structure invalid: " +:+ s
  | UnknownTag t => "Unknown tag: " +:+ pretty t
  | InvalidData s => "Invalid data: " +:+ s
  end.
(** [Display for Hash]: lower-case hexadecimal. *)
Definition hex_digit (n : Z) : string :=
  match String.get (Z.to_nat n) "0123456789abcdef" with Some c => String c EmptyString | None => EmptyString end.
Definition hash_display (h : list Z) : string :=
  foldr (λ b s, hex_digit (b `div` 16) +:+ hex_digit (b `mod` 16) +:+ s) EmptyString h.

(** ** [headerraw.rs] *)
Definition header_raw_serialize (w raw : list Z) : list Z :=
  codec_put_bytes (codec_put_be 2 w (wrap 16 (Z.of_nat (length raw)))) raw.
Definition header_raw_deserialize (r : list Z) : outcome IoError (list Z * list Z) :=
  '(header_size, r) ← codec_get_be 2 r; codec_get (Z.to_nat header_size) r.

(** The causes of the [std::io::Error]s of the stream parser. *)
Inductive BlockError :=
| BlockIo (e : IoError)
| BlockHeaderInvalid (e : RawError)
| BlockInvalidData (s : string)
| BlockInvalidInput (e : ReadError).

Definition remaining_error (a b : Z) : string :=
  pretty a +:+ " bytes remaining according to the header but got a fragment of size " +:+ pretty b.
Definition content_hash_error (content_hash header_hash : list Z) : string :=
  "Inconsistent block content hash in header: block " +:+ hash_display content_hash +:+
  " header " +:+ hash_display header_hash.

Section block.
Context `{Crypto} `{Election} `{GroupEncoding} `{Ed25519} `{Dalek}.

Abbreviation Contents := (list Fragment).

(** ** [mod.rs] *)
Record Block := mkBlock { block_header : Header; block_contents : Contents }.
Definition block_eq {E} (a b : Block) : outcome E bool :=
  ha ← header_id (block_header a); hb ← header_id (block_header b); Ok (bool_decide (ha = hb)).
Definition block_fragments (b : Block) : list Fragment := block_contents b.

(** [property::Block]. *)
Definition block_id {E} (b : Block) : outcome E (list Z) := header_id (block_header b).
Definition block_parent_id {E} (b : Block) : outcome E (list Z) := header_block_parent_hash (block_header b).
Definition block_date_ {E} (b : Block) : outcome E BlockDate := header_block_date (block_header b).
Definition block_version (b : Block) : BlockVersion := header_block_version (block_header b).
Definition block_chain_length {E} (b : Block) : outcome E Z := header_chain_length (block_header b).

Definition block_serialize (w : list Z) (b : Block) : outcome infallible (list Z) :=
  v ← header_serialize [] (block_header b);
  let w := header_raw_serialize w v in
  foldM (λ w message, message_raw ← to_raw message; Ok (raw_serialize w message_raw)) w (block_contents b).

(** The loop of [deserialize]; every turn takes four bytes or more of the
    stream, whose length bounds the turns. *)
Fixpoint deserialize_fragments (fuel : nat) (serialized_content_size : Z) (contents : Contents) (r : list Z) :
    outcome BlockError (Contents * list Z) :=
  if 0 <? serialized_content_size then
    match fuel with
    | O => Panic
    | S fuel =>
        '(message_raw, r) ← map_err BlockIo (raw_deserialize r);
        let message_size := wrap 32 (Z.of_nat (size_bytes_plus_size message_raw)) in
        if serialized_content_size <? message_size then
          Err (BlockInvalidData (remaining_error message_size serialized_content_size))
        else
          message ← map_err BlockInvalidInput (from_raw message_raw);
          deserialize_fragments fuel (serialized_content_size - message_size) (contents ++ [message]) r
    end
  else Ok (contents, r).
Definition block_deserialize (r : list Z) : outcome BlockError (Block * list Z) :=
  '(header_raw, r) ← map_err BlockIo (header_raw_deserialize r);
  header ← map_err BlockHeaderInvalid (read_from_raw header_read header_raw);
  serialized_content_size ← header_block_content_size header;
  '(contents, r) ← deserialize_fragments (S (length r)) serialized_content_size [] r;
  '(content_hash, _content_size) ← lift (compute_hash_size contents);
  header_hash ← header_block_content_hash header;
  if decide (content_hash ≠ header_hash) then
    Err (BlockInvalidData (content_hash_error content_hash header_hash))
  else Ok (mkBlock header contents, r).

(** The loop of [read]. *)
Fixpoint read_fragments (fuel : nat) (remaining_content_size : Z) (contents : Contents) : Reader Contents :=
  if 0 <? remaining_content_size then
    match fuel with
    | O => λ _, Panic
    | S fuel =>
        message_raw ← raw_read;
        let message_size := Z.of_nat (size_bytes_plus_size message_raw) in
        if remaining_content_size <? message_size then
          read_fail (StructureInvalid (remaining_error message_size remaining_content_size))
        else
          message ← reader_of (λ e, StructureInvalid (read_error_display e)) (from_raw message_raw);
          read_fragments fuel (remaining_content_size - message_size) (contents ++ [message])
    end
  else mret contents.
Definition block_read : Reader Block :=
  header_size ← get_u16;
  header_buf ← split_to (Z.to_nat header_size);
  header ← read_fun (λ buf, '(h, _) ← header_read header_buf; Ok (h, buf));
  remaining_content_size ← read_fun (λ buf, s ← header_block_content_size header; Ok (s, buf));
  contents ← read_fun (λ buf, read_fragments (S (rb_left buf)) remaining_content_size [] buf);
  '(content_hash, _content_size) ← read_fun (λ buf, x ← lift (compute_hash_size contents); Ok (x, buf));
  header_hash ← read_fun (λ buf, x ← header_block_content_hash header; Ok (x, buf));
  if decide (header_hash ≠ content_hash) then
    read_fail (InvalidData (content_hash_error content_hash header_hash))
  else mret (mkBlock header contents).

(** ** [builder.rs]: the closure that finishes the header is an argument. *)
Definition block_builder {E} (version : BlockVersion) (contents : Contents)
    (hdr_builder : CHeader → outcome E Header) : outcome E Block :=
  hdr ← lift (header_builder version contents);
  header ← hdr_builder hdr;
  Ok (mkBlock header contents).
End block.
