(* ===== verification/BlockTheorems.v ===== *)
(** * The wire format of blocks ([chain-impl-mockchain/src/block/])

    A block written by [serialize] is read back by both parsers; a block that
    the stream parser accepts is laid out as [serialize] lays blocks out, its
    header declares the size that its fragments take and hashes to them.  The
    last part states both as theorems, with a block of one transaction. *)
From S2P Require Import Prelude Codec Sum SumSpec Key Time Addr Config Settings PoolCert VoteCert LedgerState Fragment LedgerBlock SumTheorems Group Vrf Header HeaderSpec Block PoolCertSpec VotesSpec Transaction TransactionSpec LedgerTx LedgerTxSpec Leadership LeadershipTheorems.
Local Open Scope Z_scope.

Section spec.
Context `{HC : Crypto} `{HN : Election} `{HG : GroupEncoding} `{HE : Ed25519} `{HD : Dalek}.
Set Default Proof Using "Type*".
Abbreviation Contents := (list Fragment).

(** The bytes of the fragments, behind their sizes. *)
Definition raws_bytes (raws : list (list Z)) : list Z := concat (raw_serialize [] <$> raws).
Definition raw_small (raw : list Z) : Prop := Z.of_nat (length raw) < 2 ^ 32 - 4.

Lemma raws_cons raw raws : raws_bytes (raw :: raws) = raw_serialize [] raw ++ raws_bytes raws.
Proof. done. Qed.
Lemma length_raw raw : raw_small raw → length (raw_serialize [] raw) = size_bytes_plus_size raw.
Proof.
  intros Hl. unfold raw_small in Hl. rewrite raw_serialize_eq by lia.
  by rewrite !length_app, length_be_bytes.
Qed.
Lemma raw_serialize_app w raw : raw_small raw → raw_serialize w raw = w ++ raw_serialize [] raw.
Proof. intros Hl. unfold raw_small in Hl. by rewrite !raw_serialize_eq by lia. Qed.

Lemma fold_raws (c : Contents) raws w :
  Forall2 (λ f raw, to_raw f = Ok raw) c raws → Forall raw_small raws →
  foldM (λ w message, message_raw ← to_raw message; Ok (raw_serialize w message_raw)) w c
  = Ok (w ++ raws_bytes raws).
Proof.
  intros Hc. revert w. induction Hc as [|f raw c raws Hf Hc IH]; intros w Hs.
  - by rewrite app_nil_r.
  - apply Forall_cons in Hs as [Hs Hss]. cbn [foldM]. rewrite Hf. cbn [mbind outcome_bind].
    rewrite raw_serialize_app, IH by done. by rewrite raws_cons, app_assoc.
Qed.

Lemma deserialize_fragments_S fuel size c r :
  deserialize_fragments (S fuel) size c r =
  if 0 <? size then
    '(message_raw, r) ← map_err BlockIo (raw_deserialize r);
    let message_size := wrap 32 (Z.of_nat (size_bytes_plus_size message_raw)) in
    if size <? message_size then Err (BlockInvalidData (remaining_error message_size size))
    else
      message ← map_err BlockInvalidInput (from_raw message_raw);
      deserialize_fragments fuel (size - message_size) (c ++ [message]) r
  else Ok (c, r).
Proof. done. Qed.

Lemma size_wrap raw : raw_small raw →
  wrap 32 (Z.of_nat (size_bytes_plus_size raw)) = Z.of_nat (length (raw_serialize [] raw)).
Proof.
  intros Hs. rewrite length_raw by done. apply wrap_small. unfold raw_small in Hs.
  unfold in_u, size_bytes_plus_size, FRAGMENT_SIZE_BYTES_LEN. lia.
Qed.
Lemma length_raw_pos raw : raw_small raw → (4 ≤ length (raw_serialize [] raw))%nat.
Proof. intros Hs. rewrite length_raw by done. unfold size_bytes_plus_size, FRAGMENT_SIZE_BYTES_LEN. lia. Qed.

Lemma deserialize_fragments_of (c : Contents) raws acc rest fuel :
  Forall2 (λ f raw, from_raw raw = Ok f) c raws → Forall raw_small raws → (length raws ≤ fuel)%nat →
  deserialize_fragments fuel (Z.of_nat (length (raws_bytes raws))) acc (raws_bytes raws ++ rest)
  = Ok (acc ++ c, rest).
Proof.
  intros Hc. revert acc fuel. induction Hc as [|f raw c raws Hf Hc IH]; intros acc fuel Hs Hfuel.
  - rewrite app_nil_r. by destruct fuel.
  - apply Forall_cons in Hs as [Hs Hss]. destruct fuel as [|fuel]; [cbn in Hfuel; lia|].
    rewrite deserialize_fragments_S, raws_cons, length_app. pose proof (length_raw_pos raw Hs).
    rewrite (proj2 (Z.ltb_lt _ _)) by lia. rewrite <-app_assoc, raw_cut by (unfold raw_small in Hs; lia).
    cbn [map_err mbind outcome_bind]. rewrite size_wrap by done. cbn zeta.
    rewrite (proj2 (Z.ltb_ge _ _)) by lia. rewrite Hf. cbn [map_err mbind outcome_bind].
    replace (_ - _) with (Z.of_nat (length (raws_bytes raws))) by lia.
    rewrite IH by (done || (cbn in Hfuel; lia)). by rewrite <-app_assoc.
Qed.

(** ** Reading from a buffer *)
Lemma reads_raw raw : raw_small raw → reads raw_read raw (raw_serialize [] raw).
Proof.
  intros Hs. unfold raw_small in Hs. rewrite raw_serialize_eq by lia. unfold raw_read. cbn [app].
  eapply reads_bind; [apply reads_u32; unfold in_u; lia|]. rewrite Nat2Z.id. by apply reads_mut_slice.
Qed.
Lemma read_fragments_of (c : Contents) raws acc fuel :
  Forall2 (λ f raw, from_raw raw = Ok f) c raws → Forall raw_small raws → (length raws ≤ fuel)%nat →
  reads (read_fragments fuel (Z.of_nat (length (raws_bytes raws))) acc) (acc ++ c) (raws_bytes raws).
Proof.
  intros Hc. revert acc fuel. induction Hc as [|f raw c raws Hf Hc IH]; intros acc fuel Hs Hfuel.
  - rewrite app_nil_r. destruct fuel; apply reads_ret.
  - apply Forall_cons in Hs as [Hs Hss]. destruct fuel as [|fuel]; [cbn in Hfuel; lia|].
    rewrite raws_cons, length_app. pose proof (length_raw_pos raw Hs). cbn [read_fragments].
    rewrite (proj2 (Z.ltb_lt _ _)) by lia.
    eapply reads_bind; [by apply reads_raw|]. rewrite <-length_raw by done. cbn zeta.
    rewrite (proj2 (Z.ltb_ge _ _)) by lia. rewrite Hf. rewrite <-(app_nil_l (raws_bytes raws)).
    eapply reads_bind; [apply reads_of|].
    replace (_ - _) with (Z.of_nat (length (raws_bytes raws))) by (cbn [app]; lia).
    replace (acc ++ f :: c) with ((acc ++ [f]) ++ c) by (by rewrite <-app_assoc).
    apply IH; [done|]. cbn in Hfuel. lia.
Qed.

(** ** Whole blocks *)
(** A block: the header's record declares the size and the hash of the
    fragments' bytes. *)
Record block_ok (f : HeaderFields) (c : Contents) (raws : list (list Z)) : Prop := {
  bo_fields : fields_ok f;
  bo_small : Forall raw_small raws;
  bo_written : Forall2 (λ m raw, to_raw m = Ok raw) c raws;
  bo_read : Forall2 (λ m raw, from_raw raw = Ok m) c raws;
  bo_size : hf_content_size f = Z.of_nat (length (raws_bytes raws));
  bo_hash : hf_content_hash f = blake2b_256 (raws_bytes raws) }.

Definition block_bytes (f : HeaderFields) (raws : list (list Z)) : list Z :=
  be_bytes 2 (Z.of_nat (length (header_bytes f))) ++ header_bytes f ++ raws_bytes raws.

Lemma header_bytes_u16 f : fields_ok f → in_u 16 (Z.of_nat (length (header_bytes f))).
Proof. intros Hf. rewrite length_header_bytes by done. by destruct (auth_version _). Qed.

Lemma compute_hash_size_of c raws :
  Forall2 (λ m raw, to_raw m = Ok raw) c raws → Forall raw_small raws →
  compute_hash_size c = Ok (blake2b_256 (raws_bytes raws), wrap 32 (Z.of_nat (length (raws_bytes raws)))).
Proof.
  intros Hc Hs. unfold compute_hash_size, contents_bytes. by rewrite (fold_raws c raws) by done.
Qed.
Lemma header_read_of f : fields_ok f →
  header_read (mkReadBuf 0 (header_bytes f)) = Ok (header_of f, mkReadBuf (length (header_bytes f)) (header_bytes f)).
Proof.
  intros Hf. unfold header_read. rewrite reader_bind_eq. unfold get_slice_end. cbn [rb_data rb_offset].
  rewrite slice_range_ok by lia. cbn [mbind outcome_bind]. rewrite Nat.sub_0_r, drop_0, take_ge by lia.
  by rewrite header_parse_of.
Qed.

Lemma block_serialize_of f c raws w : block_ok f c raws →
  block_serialize w (mkBlock (header_of f) c) = Ok (w ++ block_bytes f raws).
Proof.
  intros [Hf Hs Hw _ _ _]. unfold block_serialize, header_serialize. cbn [block_header block_contents].
  unfold header_as_slice. rewrite header_cstruct by done. cbn [mbind outcome_bind app].
  rewrite (fold_raws c raws) by done. unfold header_raw_serialize, codec_put_bytes, codec_put_be, block_bytes.
  rewrite wrap_small by (by apply header_bytes_u16). by rewrite <-!app_assoc.
Qed.

Lemma header_raw_back h rest : in_u 16 (Z.of_nat (length h)) →
  header_raw_deserialize (be_bytes 2 (Z.of_nat (length h)) ++ h ++ rest) = Ok (h, rest).
Proof.
  intros Hl. unfold header_raw_deserialize, codec_get_be, codec_get.
  rewrite decide_True by (rewrite length_app, length_be_bytes; lia). cbn [mbind outcome_bind].
  rewrite take_app_length', drop_app_length' by (by rewrite length_be_bytes).
  rewrite (from_be_bytes 2) by done. cbn [mbind outcome_bind].
  rewrite Nat2Z.id, decide_True by (rewrite length_app; lia). by rewrite take_app_length, drop_app_length.
Qed.

Lemma read_from_raw_header f : fields_ok f → read_from_raw header_read (header_bytes f) = Ok (header_of f).
Proof.
  intros Hf. unfold read_from_raw, rb_from. rewrite header_read_of by done. cbn [map_err mbind outcome_bind].
  unfold expect_end, rb_left. cbn [rb_data rb_offset]. by rewrite Nat.sub_diag.
Qed.

Lemma raws_count raws : Forall raw_small raws → (length raws ≤ length (raws_bytes raws))%nat.
Proof.
  induction 1 as [|raw raws Hs _ IH]; [done|]. rewrite raws_cons, length_app. pose proof (length_raw_pos raw Hs).
  cbn [length]. lia.
Qed.

Lemma block_deserialize_of f c raws rest : block_ok f c raws →
  block_deserialize (block_bytes f raws ++ rest) = Ok (mkBlock (header_of f) c, rest).
Proof.
  intros [Hf Hs Hw Hr Hsize Hhash]. unfold block_deserialize, block_bytes. rewrite <-!app_assoc.
  rewrite header_raw_back by (by apply header_bytes_u16). cbn [map_err mbind outcome_bind].
  rewrite read_from_raw_header by done. cbn [map_err mbind outcome_bind].
  unfold header_block_content_size, header_block_content_hash. rewrite header_cstruct by done. cbn [mbind outcome_bind].
  rewrite slice_content_size by done. cbn [mbind outcome_bind]. rewrite Hsize.
  pose proof (raws_count raws Hs) as Hc. rewrite (deserialize_fragments_of c raws [] rest) by (done || (rewrite length_app; lia)).
  cbn [mbind outcome_bind app]. rewrite (compute_hash_size_of c raws) by done. cbn [lift mbind outcome_bind].
  destruct (slice_hashes (E := BlockError) f Hf) as [-> _].
  cbn [mbind outcome_bind]. rewrite decide_False by (intros Hn; by rewrite Hhash in Hn). done.
Qed.

Lemma reads_pure {A} (m : outcome ReadError A) a :
  m = Ok a → reads (read_fun (λ buf, x ← m; Ok (x, buf))) a [].
Proof. intros -> pre post. cbn. by rewrite Nat.add_0_r. Qed.

Lemma block_reads f c raws : block_ok f c raws →
  reads block_read (mkBlock (header_of f) c) (block_bytes f raws).
Proof.
  intros [Hf Hs Hw Hr Hsize Hhash]. unfold block_read, block_bytes.
  pose proof (header_bytes_u16 f Hf) as H16.
  eapply reads_bind; [by apply reads_u16|]. rewrite Nat2Z.id.
  eapply reads_bind; [by apply (reads_slice_map _ rb_from)|].
  rewrite <-(app_nil_l (raws_bytes raws)).
  eapply (reads_bind _ _ (header_of f)).
  { intros pre post. cbn [read_fun]. unfold rb_from. rewrite header_read_of by done. cbn. by rewrite Nat.add_0_r. }
  cbn beta. unfold header_block_content_size, header_block_content_hash.
  rewrite (header_cstruct (E := ReadError)) by done.
  rewrite <-(app_nil_l (raws_bytes raws)).
  eapply (reads_bind _ _ (hf_content_size f)).
  { apply reads_pure. cbn [mbind outcome_bind]. by rewrite slice_content_size. }
  rewrite Hsize, <-(app_nil_r (raws_bytes raws)).
  eapply (reads_bind _ _ c).
  { intros pre post. cbn [read_fun]. rewrite app_nil_r.
    apply (read_fragments_of c raws [] _ Hr Hs). pose proof (raws_count raws Hs) as Hc.
    unfold rb_left. cbn [rb_data rb_offset]. rewrite !length_app. lia. }
  rewrite <-(app_nil_l []).
  eapply (reads_bind _ _ (_, _)).
  { apply reads_pure. by rewrite (compute_hash_size_of c raws). }
  cbn beta iota. rewrite <-(app_nil_l []). eapply (reads_bind _ _ (hf_content_hash f)).
  { apply reads_pure. cbn [mbind outcome_bind]. by destruct (slice_hashes (E := ReadError) f Hf) as [-> _]. }
  rewrite decide_False by (intros Hn; by rewrite Hhash in Hn). apply reads_ret.
Qed.

(** ** What a parsed block is *)
Lemma codec_get_inv n r b r' : codec_get n r = Ok (b, r') → r = b ++ r' ∧ length b = n.
Proof.
  unfold codec_get. case_decide; [|done]. intros [= <- <-]. by rewrite take_drop, length_take_le.
Qed.
Lemma codec_get_be_inv n r v r' :
  bytes_ok r → codec_get_be n r = Ok (v, r') → r = be_bytes n v ++ r' ∧ in_u (8 * Z.of_nat n) v ∧ bytes_ok r'.
Proof.
  intros Hr. unfold codec_get_be. destruct (codec_get n r) as [[b r1]| |] eqn:Hg; [|done|done].
  cbn [mbind outcome_bind]. intros [= <- <-]. apply codec_get_inv in Hg as [-> <-].
  apply Forall_app in Hr as [Hb Hr]. rewrite be_bytes_from_be by done. split; [done|]. split; [|done].
  by apply from_be_range.
Qed.
Lemma sized_inv n r size r1 raw r' :
  bytes_ok r → codec_get_be n r = Ok (size, r1) → codec_get (Z.to_nat size) r1 = Ok (raw, r') →
  r = be_bytes n (Z.of_nat (length raw)) ++ raw ++ r' ∧ bytes_ok raw ∧ bytes_ok r' ∧
  in_u (8 * Z.of_nat n) (Z.of_nat (length raw)).
Proof.
  intros Hr (-> & Hs & Hr1)%codec_get_be_inv (-> & Hl)%codec_get_inv; [|done].
  apply Forall_app in Hr1 as [Hraw Hr']. rewrite Hl, Z2Nat.id by apply Hs. done.
Qed.
Lemma raw_deserialize_inv r raw r' :
  bytes_ok r → raw_deserialize r = Ok (raw, r') → r = raw_serialize [] raw ++ r' ∧ bytes_ok r'.
Proof.
  intros Hr. unfold raw_deserialize. destruct (codec_get_be 4 r) as [[size r1]| |] eqn:H1; [|done|done].
  cbn [mbind outcome_bind]. intros H2. destruct (sized_inv 4 r size r1 raw r' Hr H1 H2) as (-> & _ & Hr' & Hl).
  rewrite raw_serialize_eq by apply Hl. by rewrite <-!app_assoc.
Qed.

Lemma deserialize_fragments_inv fuel size acc r c rest :
  bytes_ok r → Z.of_nat (length r) < 2 ^ 32 → 0 ≤ size →
  deserialize_fragments fuel size acc r = Ok (c, rest) →
  ∃ c' raws, c = acc ++ c' ∧ Forall2 (λ m raw, from_raw raw = Ok m) c' raws ∧ Forall raw_small raws ∧
    size = Z.of_nat (length (raws_bytes raws)) ∧ r = raws_bytes raws ++ rest.
Proof.
  revert size acc r. induction fuel as [|fuel IH]; intros size acc r Hr Hl Hsz.
  - cbn [deserialize_fragments]. destruct (0 <? size) eqn:Hz; [done|]. intros [= <- <-].
    exists [], []. rewrite app_nil_r. split_and!; try done. change (size = 0). lia.
  - rewrite deserialize_fragments_S. destruct (0 <? size) eqn:Hz.
    2: { intros [= <- <-]. exists [], []. rewrite app_nil_r. split_and!; try done. change (size = 0). lia. }
    destruct (raw_deserialize r) as [[raw r1]| |] eqn:Hraw; cbn [map_err mbind outcome_bind]; [|done|done].
    apply raw_deserialize_inv in Hraw as [-> Hr1]; [|done].
    assert (raw_small raw) as Hs.
    { unfold raw_small. rewrite length_app in Hl. unfold raw_serialize, codec_put_bytes, codec_put_be in Hl.
      rewrite !length_app, length_be_bytes in Hl. cbn [length] in Hl. lia. }
    rewrite size_wrap by done. cbn zeta. destruct (size <? _) eqn:Hlt; [done|].
    destruct (from_raw raw) as [m| |] eqn:Hm; cbn [map_err mbind outcome_bind]; [|done|done].
    rewrite length_app in Hl. intros (c' & raws & -> & Hc & Hss & Hsize & ->)%IH; [|done|lia|lia].
    exists (m :: c'), (raw :: raws). rewrite raws_cons, length_app. split_and!.
    + by rewrite <-app_assoc.
    + by constructor.
    + by constructor.
    + lia.
    + by rewrite <-app_assoc.
Qed.

Lemma read_header_inv raw h :
  bytes_ok raw → read_from_raw header_read raw = Ok h → ∃ f, fields_ok f ∧ raw = header_bytes f ∧ h = header_of f.
Proof.
  intros Hb. unfold read_from_raw, rb_from, header_read. rewrite reader_bind_eq. unfold get_slice_end.
  cbn [rb_data rb_offset]. rewrite slice_range_ok by lia. cbn [mbind outcome_bind]. rewrite Nat.sub_0_r, drop_0, take_ge by lia.
  unfold reader_of. rewrite header_from_slice_eq.
  destruct (decide (_ ≤ length raw ≤ _)%nat) as [Hr|Hr]; [|done]. destruct (block_version_from_u16 _) as [v|] eqn:Hv; [|done].
  case_decide as Hl; [|done].
  destruct (header_parse_inv raw v Hb Hl (block_version_from_Some _ _ Hv)) as (f & Hf & -> & Ha).
  cbn [map_err mbind outcome_bind]. unfold expect_end, rb_left. cbn [rb_data rb_offset]. rewrite Nat.sub_diag.
  cbn [Nat.eqb map_err mbind outcome_bind]. rewrite tag_header_of by done. intros [= <-]. by exists f.
Qed.
End spec.

(** * The properties of blocks ([chain-impl-mockchain/src/block/]) *)
Unset Default Proof Using.
Local Open Scope Z_scope.

Section theorems.
Context `{HC : Crypto} `{HN : Election} `{HG : GroupEncoding} `{HE : Ed25519} `{HD : Dalek}.
Context `{HEL : !Ed25519Laws}.
Context (blake2b_256_32 : ∀ l, length (blake2b_256 l) = 32%nat).
Set Default Proof Using "HC HN HG HE HD blake2b_256_32".
Abbreviation Contents := (list Fragment).

Lemma length_raw_any raw : length (raw_serialize [] raw) = size_bytes_plus_size raw.
Proof using Type.
  unfold raw_serialize, codec_put_bytes, codec_put_be, size_bytes_plus_size, FRAGMENT_SIZE_BYTES_LEN.
  by rewrite !length_app, length_be_bytes.
Qed.
Lemma raws_small raws : Z.of_nat (length (raws_bytes raws)) < 2 ^ 32 → Forall raw_small raws.
Proof using Type.
  induction raws as [|raw raws IH]; intros Hl; [done|].
  change (raws_bytes (raw :: raws)) with (raw_serialize [] raw ++ raws_bytes raws) in Hl.
  rewrite length_app, length_raw_any in Hl. unfold size_bytes_plus_size, FRAGMENT_SIZE_BYTES_LEN in Hl.
  constructor; [unfold raw_small; lia|apply IH; lia].
Qed.
Lemma fragments_raws (c : Contents) : Forall fragment_ok c →
  ∃ raws, Forall2 (λ m raw, to_raw m = Ok raw) c raws ∧ Forall2 (λ m raw, from_raw raw = Ok m) c raws.
Proof using Type.
  induction 1 as [|m c Hm _ (raws & Hw & Hr)]; [by exists []|].
  destruct (fragment_back m Hm) as (body & _ & H1 & H2). eexists (_ :: raws). split; constructor; eauto.
Qed.
Lemma raws_unique (c : Contents) raws raws' :
  Forall2 (λ m raw, to_raw m = Ok raw) c raws → Forall2 (λ m raw, to_raw m = Ok raw) c raws' → raws = raws'.
Proof using Type.
  intros H1. revert raws'. induction H1 as [|m raw c raws Hm _ IH]; intros raws' H2; inversion H2; subst; [done|].
  f_equal; [congruence|by apply IH].
Qed.

(** What the closure given to the builder does with the header: it sets the parent
    and the height, or those of a genesis block, and the date, and finishes it without
    a signature, as a BFT leader or as a stake pool. *)
Inductive HeaderSigner :=
| SignNothing
| SignBft (sign_slice : list Z → list Z) (pk : PublicKey)
| SignPraos (node_id vrf_proof : list Z) (kes_key : SumSecretKey).
Definition signer_version (s : HeaderSigner) : BlockVersion :=
  match s with SignNothing => BVGenesis | SignBft _ _ => Ed25519Signed | SignPraos _ _ _ => KesVrfproof end.
(** Keys, identifiers and proofs have their sizes; the KES key is one of the 4096 that
    [keygen] and [update] make of a seed. *)
Definition signer_ok (s : HeaderSigner) : Prop :=
  match s with
  | SignNothing => True
  | SignBft sign_slice pk => length pk = 32%nat ∧ ∀ m, length (sign_slice m) = 64%nat
  | SignPraos node_id vrf_proof kes_key =>
      length node_id = 32%nat ∧ length vrf_proof = 96%nat ∧ ∃ seed t, 0 ≤ t < 4096 ∧ key_at 12 seed t kes_key
  end.
Definition parenting_ok (p : option (list Z * Z)) : Prop :=
  match p with None => True | Some (parent, height) => length parent = 32%nat ∧ u32_ok height end.
Definition finish_header {E} (p : option (list Z * Z)) (date : BlockDate) (s : HeaderSigner) (hdr : CHeader) : outcome E Header :=
  hdr ← match p with None => hb_set_genesis hdr | Some (parent, height) => hb_set_parent hdr parent height end;
  hdr ← hb_set_date hdr date;
  match s with
  | SignNothing => h ← into_unsigned_header hdr; unwrap_opt h
  | SignBft sign_slice pk => b ← into_bft_builder hdr; b ← unwrap_opt b; bft_sign_using_keys b sign_slice pk
  | SignPraos node_id vrf_proof kes_key =>
      b ← into_genesis_praos_builder hdr; b ← unwrap_opt b;
      b ← gp_set_consensus_data b node_id vrf_proof; gp_sign_using b kes_key
  end.
Definition parent_of (p : option (list Z * Z)) : list Z := match p with None => replicate 32 0 | Some x => x.1 end.
Definition height_of (p : option (list Z * Z)) : Z := match p with None => 0 | Some x => x.2 end.

Lemma sign_with {E} seed t kes_key m : 0 ≤ t < 4096 → key_at 12 seed t kes_key →
  ∃ sig, sum_sign (E := E) kes_key m = Ok sig ∧ length sig = 484%nat.
Proof using HE HEL.
  intros Ht (kp & _ & ->). exists (signature_at 12 seed t kp m). split; [by apply sign_key_at; [lia|]|].
  by rewrite length_signature_at.
Qed.
Lemma finish_header_ok {E} hash size p date s :
  length hash = 32%nat → u32_ok size → parenting_ok p → u32_ok (date_epoch date) → u32_ok (date_slot_id date) → signer_ok s →
  ∃ a, fields_ok (mkFields size date (height_of p) hash (parent_of p) a) ∧ auth_version a = signer_version s ∧
    (hdr ← header_builder_raw (E := E) (signer_version s) hash size; finish_header p date s hdr)
    = Ok (header_of (mkFields size date (height_of p) hash (parent_of p) a)).
Proof using HC HE HEL HD.
  intros Hh Hs Hp He Hd Hsg. set (f := mkFields size date (height_of p) hash (parent_of p) AuthNone).
  assert (hashes_ok f) as Hf by (split; [done|]; destruct p as [[? ?]|]; [apply Hp|done]).
  assert (fields_ok f) as Hfo by (split_and!; try done; [by destruct p as [[? ?]|]; [apply Hp|]|apply Hf]).
  rewrite builder_raw_building by done. cbn [mbind outcome_bind]. unfold finish_header.
  set (g := mkFields size (mkDate 0 0) 0 hash (replicate 32 0) AuthNone).
  assert (hashes_ok g) as Hg by done.
  assert (match p with None => hb_set_genesis (E := E) (building (signer_version s) g)
      | Some (parent, height) => hb_set_parent (building (signer_version s) g) parent height end =
    Ok (building (signer_version s) (mkFields size (mkDate 0 0) (height_of p) hash (parent_of p) AuthNone))) as ->.
  { destruct p as [[parent height]|]; [by rewrite set_parent_building by (done || apply Hp)|by rewrite set_genesis_building]. }
  cbn [mbind outcome_bind]. rewrite set_date_building by (split; [done|apply Hf]). cbn [mbind outcome_bind hf_content_size hf_height hf_content_hash hf_parent_hash hf_auth].
  fold f. destruct s as [|sign_slice pk|node_id vrf kes_key]; cbn [signer_version].
  - exists AuthNone. split; [done|]. split; [done|]. by rewrite unsigned_finish.
  - destruct Hsg as [Hpk Hsign]. eexists (AuthBft pk (sign_slice _)). split; [apply (set_auth_ok f); [done|by cbn]|]. split; [done|].
    unfold into_bft_builder. rewrite building_version. cbn [mbind outcome_bind block_version_to_u16]. rewrite Z.eqb_refl.
    cbn [unwrap_opt mbind outcome_bind]. unfold bft_sign_using_keys. rewrite bft_consensus_data by done. cbn [mbind outcome_bind].
    rewrite bft_authenticated by done. cbn [mbind outcome_bind]. rewrite bft_signature_set by done. reflexivity.
  - destruct Hsg as (Hid & Hvrf & seed & t & Ht & Hkey).
    set (f0 := set_auth f (AuthGp node_id vrf (replicate 484 0))).
    destruct (sign_with (E := E) seed t kes_key (fields_auth_slice f0) Ht Hkey) as (sig & Hsig & Hl).
    exists (AuthGp node_id vrf sig). split; [apply (set_auth_ok f); [done|by cbn]|]. split; [done|].
    unfold into_genesis_praos_builder. rewrite building_version. cbn [mbind outcome_bind block_version_to_u16]. rewrite Z.eqb_refl.
    cbn [unwrap_opt mbind outcome_bind]. rewrite gp_consensus_data by done. cbn [mbind outcome_bind]. unfold gp_sign_using.
    rewrite gp_authenticated by done. cbn [mbind outcome_bind]. fold f0. rewrite Hsig. cbn [mbind outcome_bind]. unfold f0. by rewrite gp_signature_set.
Qed.

(** C16. The block that the builder makes of any well-formed fragments that take less
    than 4 GiB, as a genesis block or on any parent, unsigned, under a BFT leader's
    key or under a stake pool's, is read back unchanged: [serialize] writes it, the
    parser of streams cuts it out of whatever follows and the parser of buffers
    reads exactly its bytes.  Its header says what it was built from. *)
Theorem built_block_roundtrip {E} (c : Contents) p date s :
  Forall fragment_ok c →
  (∀ raws, Forall2 (λ m raw, to_raw m = Ok raw) c raws → Z.of_nat (length (raws_bytes raws)) < 2 ^ 32) →
  parenting_ok p → u32_ok (date_epoch date) → u32_ok (date_slot_id date) → signer_ok s →
  ∃ b bytes hash size,
    block_builder (E := E) (signer_version s) c (finish_header p date s) = Ok b ∧ block_contents b = c ∧
    compute_hash_size c = Ok (hash, size) ∧
    header_common (E := E) (block_header b) = Ok (mkCommon (signer_version s) date size hash (parent_of p) (height_of p)) ∧
    block_serialize [] b = Ok bytes ∧
    (∀ rest, block_deserialize (bytes ++ rest) = Ok (b, rest)) ∧ reads block_read b bytes.
Proof using HC HN HG HE HEL HD blake2b_256_32.
  intros Hc Hsize Hp He Hd Hsg. destruct (fragments_raws c Hc) as (raws & Hw & Hr).
  specialize (Hsize raws Hw). pose proof (raws_small raws Hsize) as Hsm.
  set (hash := blake2b_256 (raws_bytes raws)). set (size := Z.of_nat (length (raws_bytes raws))).
  assert (u32_ok size) as Hu by (unfold u32_ok, in_u, u32_max, size in *; lia).
  assert (compute_hash_size c = Ok (hash, size)) as Hcs.
  { rewrite (compute_hash_size_of c raws) by done. by rewrite wrap_small by (unfold in_u; lia). }
  destruct (finish_header_ok (E := E) hash size p date s (blake2b_256_32 _) Hu Hp He Hd Hsg) as (a & Hf & Ha & Hfin).
  set (f := mkFields size date (height_of p) hash (parent_of p) a) in *.
  assert (block_ok f c raws) as Hok by done.
  exists (mkBlock (header_of f) c), (block_bytes f raws), hash, size. split_and!.
  - unfold block_builder, header_builder. rewrite Hcs. cbn [mbind outcome_bind].
    rewrite builder_raw_building in Hfin by apply blake2b_256_32. rewrite builder_raw_building by apply blake2b_256_32.
    cbn [lift mbind outcome_bind] in Hfin |- *. by rewrite Hfin.
  - done.
  - done.
  - cbn [block_header]. rewrite header_common_of by done. unfold fields_common. by rewrite <-Ha.
  - by rewrite (block_serialize_of f c raws).
  - intros rest. by apply block_deserialize_of.
  - by apply block_reads.
Qed.

(** C17. A block that the stream parser accepts is consistent: its bytes are
    the header of a record behind its size and fragments behind theirs; the
    header declares exactly the size these take, every fragment was parsed from
    its bytes, and the content hash of the header is the hash of the contents. *)
Theorem parsed_block_consistent r b rest :
  bytes_ok r → Z.of_nat (length r) < 2 ^ 32 → block_deserialize r = Ok (b, rest) →
  ∃ f raws size,
    fields_ok f ∧ block_header b = header_of f ∧ r = block_bytes f raws ++ rest ∧
    Forall2 (λ m raw, from_raw raw = Ok m) (block_contents b) raws ∧
    hf_content_size f = Z.of_nat (length (raws_bytes raws)) ∧
    compute_hash_size (block_contents b) = Ok (hf_content_hash f, size).
Proof using HC HN HG HE HD.
  intros Hr Hl. unfold block_deserialize, header_raw_deserialize.
  destruct (codec_get_be 2 r) as [[hsize r1]| |] eqn:H1; cbn [map_err mbind outcome_bind]; [|done|done].
  destruct (codec_get (Z.to_nat hsize) r1) as [[raw r2]| |] eqn:H2; cbn [map_err mbind outcome_bind]; [|done|done].
  destruct (sized_inv 2 r hsize r1 raw r2 Hr H1 H2) as (-> & Hraw & Hr2 & H16).
  destruct (read_from_raw header_read raw) as [h| |] eqn:Hh; cbn [map_err mbind outcome_bind]; [|done|done].
  destruct (read_header_inv raw h Hraw Hh) as (f & Hf & -> & ->).
  unfold header_block_content_size, header_block_content_hash. rewrite header_cstruct by done.
  cbn [mbind outcome_bind]. rewrite slice_content_size by done. cbn [mbind outcome_bind].
  destruct (deserialize_fragments _ _ _ r2) as [[c rest']| |] eqn:Hd; cbn [mbind outcome_bind]; [|done|done].
  rewrite !length_app in Hl.
  apply deserialize_fragments_inv in Hd as (c' & raws & -> & Hc & Hs & Hsize & ->); [|done|lia|apply Hf].
  cbn [app]. destruct (compute_hash_size c') as [[hash size]| |] eqn:Hch; cbn [lift mbind outcome_bind]; [|done|done].
  destruct (slice_hashes (E := BlockError) f Hf) as [-> _]. cbn [mbind outcome_bind].
  case_decide as Hne; [done|]. intros [= <- <-].
  exists f, raws, size. unfold block_bytes. rewrite <-!app_assoc. split_and!; try done.
  cbn [block_contents]. rewrite Hch. do 2 f_equal. by destruct (decide (hash = hf_content_hash f)).
Qed.
End theorems.
Set Default Proof Using "Type".

(** ** A block of one transaction *)
#[local] Existing Instance demo_election.
#[local] Existing Instance toy_crypto.

Definition demo_block_contents : outcome TransactionStructError (list Fragment) :=
  t ← tx_check NoExtra_ demo_tx_data; Ok [FTransaction t].
Definition demo_sign (m : list Z) : list Z := toy_digest m ++ toy_digest m.

Lemma demo_contents_ok : ∃ c, demo_block_contents = Ok c ∧ Forall fragment_ok c ∧
  ∀ raws, Forall2 (λ m raw, to_raw m = Ok raw) c raws → Z.of_nat (length (raws_bytes raws)) < 2 ^ 32.
Proof.
  unfold demo_block_contents.
  destruct (tx_check NoExtra_ demo_tx_data) as [t|e|] eqn:Ht; [|vm_compute in Ht; discriminate Ht..].
  assert (tx_data t = demo_tx_data) as Hd by (vm_compute in Ht; apply Ok_inj in Ht; by subst t).
  exists [FTransaction t]. split; [done|]. split; [constructor; [cbn [fragment_ok]; by rewrite Hd|constructor]|].
  intros raws Hw. inversion Hw as [|? raw ? raws' Hraw Hnil]; subst. inversion Hnil; subst.
  assert (to_raw (FTransaction t) = Ok ([0; 2] ++ tx_data t)) as Hl by reflexivity.
  rewrite Hl in Hraw. apply Ok_inj in Hraw. subst raw. rewrite Hd. vm_compute. reflexivity.
Qed.
Lemma demo_date_ok : u32_ok 3 ∧ u32_ok 5 ∧ u32_ok 11.
Proof. by vm_compute. Qed.
Definition read_back (c : list Fragment) (p : option (list Z * Z)) (s : HeaderSigner) (height : Z) : Prop :=
  ∃ b bytes, block_builder (E := unit) (signer_version s) c (finish_header p (mkDate 3 5) s) = Ok b ∧
    c_chain_length <$> header_common (E := unit) (block_header b) = Ok height ∧
    block_serialize [] b = Ok bytes ∧ block_deserialize (bytes ++ [1; 2]) = Ok (b, [1; 2]) ∧ reads block_read b bytes.
(** One genesis block and one block of each signed version. *)
Lemma built_block_roundtrip_witness :
  ∃ c kes_key, demo_block_contents = Ok c ∧
    read_back c None SignNothing 0 ∧
    read_back c (Some (replicate 32 2, 11)) (SignBft demo_sign (replicate 32 3)) 11 ∧
    read_back c (Some (replicate 32 2, 11)) (SignPraos (replicate 32 7) (replicate 96 8) kes_key) 11.
Proof.
  destruct demo_contents_ok as (c & Hc & Hok & Hraws), demo_date_ok as (H3 & H5 & H11).
  destruct (keygen_key_at (E := unit) 12 demo_seed ltac:(lia) eq_refl) as (kes_key & _ & Hk).
  assert (∀ m, length (demo_sign m) = 64%nat) as Hsign by (intros m; unfold demo_sign; by rewrite length_app, !toy_digest_32).
  assert (parenting_ok (Some (replicate 32 2, 11))) as Hp by (split; [reflexivity|exact H11]).
  pose proof (λ p s, @built_block_roundtrip toy_crypto demo_election demo_group toy_ed25519 zp_dalek toy_ed25519_laws
    (λ l, length_be_bytes 32 _) unit c p (mkDate 3 5) s Hok Hraws) as Hread.
  exists c, kes_key. split; [exact Hc|]. split; [|split].
  - destruct (Hread None SignNothing I H3 H5 I) as (b & bytes & hash & size & Hb & _ & _ & Hcom & Hs & Hback & Hr).
    exists b, bytes. split; [exact Hb|]. split; [by rewrite Hcom|]. exact (conj Hs (conj (Hback [1; 2]) Hr)).
  - destruct (Hread _ (SignBft demo_sign (replicate 32 3)) Hp H3 H5 (conj eq_refl Hsign))
      as (b & bytes & hash & size & Hb & _ & _ & Hcom & Hs & Hback & Hr).
    exists b, bytes. split; [exact Hb|]. split; [by rewrite Hcom|]. exact (conj Hs (conj (Hback [1; 2]) Hr)).
  - assert (signer_ok (SignPraos (replicate 32 7) (replicate 96 8) kes_key)) as Hsg.
    { split; [reflexivity|]. split; [reflexivity|]. exists demo_seed, 0. split; [lia|exact Hk]. }
    destruct (Hread _ _ Hp H3 H5 Hsg) as (b & bytes & hash & size & Hb & _ & _ & Hcom & Hs & Hback & Hr).
    exists b, bytes. split; [exact Hb|]. split; [by rewrite Hcom|]. exact (conj Hs (conj (Hback [1; 2]) Hr)).
Defined.

(** A block without fragments. *)
Definition demo_empty_block : HeaderFields :=
  mkFields 0 (mkDate 3 5) 11 (toy_digest []) (replicate 32 2) (AuthBft (replicate 32 3) (replicate 64 4)).
Lemma demo_empty_block_ok : block_ok demo_empty_block [] [].
Proof. by split. Qed.

Lemma parsed_block_consistent_witness :
  let r := block_bytes demo_empty_block [] ++ [1] in
  block_deserialize r = Ok (mkBlock (header_of demo_empty_block) [], [1]) ∧
  ∃ f raws size, fields_ok f ∧ header_of demo_empty_block = header_of f ∧ r = block_bytes f raws ++ [1] ∧
    hf_content_size f = Z.of_nat (length (raws_bytes raws)) ∧ compute_hash_size [] = Ok (hf_content_hash f, size).
Proof.
  intros r. assert (block_deserialize r = Ok (mkBlock (header_of demo_empty_block) [], [1])) as Hr
    by (exact (block_deserialize_of demo_empty_block [] [] [1] demo_empty_block_ok)).
  split; [exact Hr|].
  assert (bytes_ok r) as Hb by (apply (bool_decide_unpack _); vm_compute; exact I).
  destruct (parsed_block_consistent r _ [1] Hb ltac:(vm_compute; reflexivity) Hr)
    as (f & raws & size & H1 & H2 & H3 & _ & H4 & H5).
  exists f, raws, size. exact (conj H1 (conj H2 (conj H3 (conj H4 H5)))).
Defined.
