(* ===== verification/ElGamal.v ===== *)
(** * Lifted ElGamal and the election keys ([chain-vote/src/cryptography/elgamal.rs],
    [commitment.rs], [chain-vote/src/math/polynomial.rs], [committee.rs])

    A ciphertext of a scalar is an ElGamal encryption of its multiple of the
    generator; ciphertexts add up and scale.  The wrappers [PublicKey],
    [ElectionPublicKey], [MemberPublicKey] and [Crs] are points, [SecretKey] and
    [MemberSecretKey] scalars.  A random generator is the sequence of the
    scalars that it will yield.  The stream cipher ChaCha20 is the class
    [StreamCipher]. *)
From Stdlib Require Import Ring.
From S2P Require Import Prelude Codec Sum Group.
Local Open Scope Z_scope.

Class StreamCipher := { chacha20 : list Z → list Z → list Z → list Z }.
Class StreamCipherLaws `{StreamCipher} : Prop := {
  chacha20_involutive : ∀ k n m, chacha20 k n (chacha20 k n m) = m }.

Section elgamal.
Context `{Dalek}.

Definition Rng : Type := nat → Scalar.
Definition random (rng : Rng) : Scalar * Rng := (rng 0%nat, λ n, rng (S n)).

(** ** [elgamal.rs] *)
Record Ciphertext := mkCiphertext { e1 : Point; e2 : Point }.
#[export] Instance ciphertext_eq_dec : EqDecision Ciphertext.
Proof. intros [a b] [c d]. destruct (decide (a = c)), (decide (b = d)); [left|right..]; congruence. Defined.
Record HybridCiphertext := mkHybrid { h_e1 : Point; h_e2 : list Z }.
Record Keypair := mkKeypair { secret_key : Scalar; public_key : Point }.

Definition CIPHERTEXT_BYTES_LEN : nat := GE_BYTES_LEN * 2.

Definition eg_public_from_bytes {E} (buf : list Z) : outcome E (option Point) := ge_from_bytes buf.
Definition encrypt_point_with_r (pk : Point) (message : Point) (randomness : Scalar) : Ciphertext :=
  mkCiphertext (ge_mul ge_generator randomness) (ge_add message (ge_mul pk randomness)).
Definition encrypt_point (pk : Point) (message : Point) (rng : Rng) : Ciphertext * Rng :=
  let '(r, rng) := random rng in (encrypt_point_with_r pk message r, rng).
Definition encrypt_point_return_r (pk : Point) (message : Point) (rng : Rng) : Ciphertext * Scalar * Rng :=
  let '(r, rng) := random rng in (encrypt_point_with_r pk message r, r, rng).
Definition encrypt (pk : Point) (message : Scalar) (rng : Rng) : Ciphertext * Rng :=
  encrypt_point pk (ge_mul ge_generator message) rng.
Definition encrypt_return_r (pk : Point) (message : Scalar) (rng : Rng) : Ciphertext * Scalar * Rng :=
  encrypt_point_return_r pk (ge_mul ge_generator message) rng.
Definition encrypt_with_r (pk : Point) (message randomness : Scalar) : Ciphertext :=
  encrypt_point_with_r pk (ge_mul ge_generator message) randomness.
Definition decrypt_point (sk : Scalar) (cipher : Ciphertext) : Point :=
  ge_add (ge_mul (e1 cipher) (scalar_negate sk)) (e2 cipher).

(** [SymmetricKey] is its [group_repr]. *)
Definition symmetric_process `{StreamCipher} (group_repr : Point) (m : list Z) : list Z :=
  let out := blake2b 44 (ge_to_bytes group_repr) in
  chacha20 (take 32 out) (drop 32 out) m.
Definition hybrid_encrypt `{StreamCipher} (pk : Point) (message : list Z) (rng : Rng) : HybridCiphertext * Rng :=
  let '(encryption_randomness, rng) := random rng in
  let symmetric_key := ge_mul pk encryption_randomness in
  (mkHybrid (ge_mul ge_generator encryption_randomness) (symmetric_process symmetric_key message), rng).
Definition recover_symmetric_key (sk : Scalar) (ciphertext : HybridCiphertext) : Point :=
  ge_mul (h_e1 ciphertext) sk.
Definition hybrid_decrypt `{StreamCipher} (sk : Scalar) (ciphertext : HybridCiphertext) : list Z :=
  symmetric_process (recover_symmetric_key sk ciphertext) (h_e2 ciphertext).

Definition keypair_from_secretkey (secret_key : Scalar) : Keypair :=
  mkKeypair secret_key (ge_mul ge_generator secret_key).
Definition keypair_generate (rng : Rng) : Keypair * Rng :=
  let '(sk, rng) := random rng in (mkKeypair sk (ge_mul ge_generator sk), rng).

Definition ciphertext_zero : Ciphertext := mkCiphertext ge_zero ge_zero.
Definition ciphertext_to_bytes (c : Ciphertext) : list Z := ge_to_bytes (e1 c) ++ ge_to_bytes (e2 c).
Definition ciphertext_from_bytes {E} (slice : list Z) : outcome E (option Ciphertext) :=
  s1 ← slice_range slice 0 GE_BYTES_LEN;
  p1 ← ge_from_bytes s1;
  match p1 with
  | None => Ok None
  | Some p1 =>
      s2 ← slice_from slice GE_BYTES_LEN;
      p2 ← ge_from_bytes s2;
      Ok (p2 ← p2; Some (mkCiphertext p1 p2))
  end.
Definition hybrid_to_bytes (c : HybridCiphertext) : list Z := ge_to_bytes (h_e1 c) ++ h_e2 c.
Definition hybrid_from_bytes {E} (slice : list Z) : outcome E (option HybridCiphertext) :=
  s1 ← slice_range slice 0 GE_BYTES_LEN;
  p1 ← ge_from_bytes s1;
  match p1 with
  | None => Ok None
  | Some p1 => s2 ← slice_from slice GE_BYTES_LEN; Ok (Some (mkHybrid p1 s2))
  end.

Definition ciphertext_add (a b : Ciphertext) : Ciphertext :=
  mkCiphertext (ge_add (e1 a) (e1 b)) (ge_add (e2 a) (e2 b)).
Definition ciphertext_sub (a b : Ciphertext) : Ciphertext :=
  mkCiphertext (ge_sub (e1 a) (e1 b)) (ge_sub (e2 a) (e2 b)).
Definition ciphertext_mul (a : Ciphertext) (rhs : Scalar) : Ciphertext :=
  mkCiphertext (ge_mul (e1 a) rhs) (ge_mul (e2 a) rhs).
Definition ciphertext_mul_u64 {E} (a : Ciphertext) (rhs : Z) : outcome E Ciphertext :=
  p1 ← ge_mul_u64 (e1 a) rhs; p2 ← ge_mul_u64 (e2 a) rhs; Ok (mkCiphertext p1 p2).

(** ** [commitment.rs]: a commitment key is its point [h] *)
Record Open := mkOpen { open_m : Scalar; open_r : Scalar }.
Definition commit_with_random (h : Point) (m r : Scalar) : Point :=
  ge_add (ge_mul ge_generator m) (ge_mul h r).
Definition commit_with_open (h : Point) (o : Open) : Point := commit_with_random h (open_m o) (open_r o).
Definition commit (h : Point) (m : Scalar) (rng : Rng) : Point * Scalar * Rng :=
  let '(r, rng) := random rng in (commit_with_random h m r, r, rng).
Definition commit_bool (h : Point) (m : bool) (rng : Rng) : Point * Scalar * Rng :=
  let '(r, rng) := random rng in
  if m then (ge_add ge_generator (ge_mul h r), r, rng) else (ge_mul h r, r, rng).
Definition commitment_verify (h commitment : Point) (o : Open) : bool :=
  bool_decide (commitment = commit_with_open h o).

(** ** [polynomial.rs]: the coefficients, from the lowest degree *)
Definition Polynomial : Type := list Scalar.
Definition poly_new (degree : nat) : Polynomial := replicate (degree + 1) s_zero.
Definition poly_degree {E} (p : Polynomial) : outcome E nat :=
  assert_that (negb (length p =? 0)%nat);; Ok (length p - 1)%nat.
Definition poly_set2 {E} (p : Polynomial) (x0 x1 : Scalar) : outcome E Polynomial :=
  d ← poly_degree p; assert_that (1 <=? d)%nat;; Ok (<[1%nat := x1]> (<[0%nat := x0]> p)).
Definition poly_from_vec {E} (elements : list Scalar) : outcome E Polynomial :=
  assert_that (negb (length elements =? 0)%nat);; Ok elements.
Fixpoint draw_scalars (n : nat) (rng : Rng) : list Scalar * Rng :=
  match n with
  | O => ([], rng)
  | S n => let '(r, rng) := random rng in let '(l, rng) := draw_scalars n rng in (r :: l, rng)
  end.
Definition poly_random (rng : Rng) (degree : nat) : Polynomial * Rng := draw_scalars (degree + 1) rng.
Definition poly_evaluate {E} (p : Polynomial) (at_ : Scalar) : outcome E Scalar :=
  unwrap_opt (scalar_sum (zip_with s_mul p (exp_take (length p) (exp_iter at_)))).
Definition poly_at_zero {E} (p : Polynomial) : outcome E Scalar := unwrap_opt (p !! 0%nat).
Definition get_coefficient_at {E} (p : Polynomial) (degree : nat) : outcome E Scalar := unwrap_opt (p !! degree).
Definition poly_add {E} (p q : Polynomial) : outcome E Polynomial :=
  dp ← poly_degree p; dq ← poly_degree q;
  Ok (if (dq <=? dp)%nat then zip_with s_add p q ++ drop (length q) p
      else zip_with s_add q p ++ drop (length p) q).
(** The two loops over the coefficients with their degrees. *)
Definition poly_mul_inner (left_degree : nat) (left_coeff : Scalar) (acc : list Scalar) (q : Polynomial) : list Scalar :=
  foldl (λ acc dr, let degree := (left_degree + dr.1)%nat in alter (λ a, s_add a (s_mul left_coeff dr.2)) degree acc)
    acc (zip (seq 0 (length q)) q).
Definition poly_mul {E} (p q : Polynomial) : outcome E Polynomial :=
  dp ← poly_degree p; dq ← poly_degree q;
  Ok (foldl (λ acc dl, poly_mul_inner dl.1 dl.2 acc q) (replicate (dp + dq + 1) s_zero)
        (zip (seq 0 (length p)) p)).

(** ** [committee.rs] *)
(** [pks[0]] panics without a participant. *)
Definition from_participants {E} (pks : list Point) : outcome E Point :=
  k ← unwrap_opt (pks !! 0%nat); Ok (foldl (λ k pk, ge_add k pk) k (drop 1 pks)).

Record MemberState := mkMemberState {
  ms_sk : Scalar; ms_owner_index : nat; ms_apubs : list Point; ms_es : list Point;
  ms_encrypted : list (HybridCiphertext * HybridCiphertext) }.
(** The shares of the other members, encrypted to their communication keys. *)
Definition member_share `{StreamCipher} {E} (pcomm pshek : Polynomial) (my : nat)
    (acc : list (HybridCiphertext * HybridCiphertext) * Rng) (i_pk : nat * Point) :
    outcome E (list (HybridCiphertext * HybridCiphertext) * Rng) :=
  let '(encrypted, rng) := acc in
  let '(i, pk) := i_pk in
  if (i =? my)%nat then Ok acc
  else
    let idx := s_of_u64 (Z.of_nat (i + 1)) in
    share_comm ← poly_evaluate pcomm idx;
    share_shek ← poly_evaluate pshek idx;
    let '(ecomm, rng) := hybrid_encrypt pk (s_to_bytes share_comm) rng in
    let '(eshek, rng) := hybrid_encrypt pk (s_to_bytes share_shek) rng in
    Ok (encrypted ++ [(ecomm, eshek)], rng).
Definition member_state_new `{StreamCipher} {E} (rng : Rng) (t : nat) (h : Point) (committee_pks : list Point) (my : nat) :
    outcome E (MemberState * Rng) :=
  let n := length committee_pks in
  assert_that (0 <? t)%nat;;
  assert_that (t <=? n)%nat;;
  assert_that (my <? n)%nat;;
  let '(pcomm, rng) := poly_random rng t in
  let '(pshek, rng) := poly_random rng t in
  let apubs := (λ ai, ge_mul ge_generator ai) <$> pshek in
  let es := zip_with (λ ai bi, ge_add (ge_mul ge_generator ai) (ge_mul h bi)) pshek pcomm in
  '(encrypted, rng) ← foldM (member_share pcomm pshek my) ([], rng) (zip (seq 0 n) committee_pks);
  assert_that (length apubs =? t + 1)%nat;;
  assert_that (length es =? t + 1)%nat;;
  assert_that (length encrypted =? n - 1)%nat;;
  sk ← poly_at_zero pshek;
  Ok (mkMemberState sk (my + 1) apubs es encrypted, rng).
Definition member_public_key {E} (m : MemberState) : outcome E Point := unwrap_opt (ms_apubs m !! 0%nat).
Definition member_secret_to_public (sk : Scalar) : Point := ge_mul ge_generator sk.
Definition member_secret_to_bytes (sk : Scalar) : list Z := s_to_bytes sk.
Definition member_secret_from_bytes (bytes : list Z) : option Scalar := scalar_from_bytes bytes.
Definition communication_key_new (rng : Rng) : Scalar * Rng := random rng.
End elgamal.

(** * ElGamal, commitments and polynomials: what they compute

    Points as combinations of two bases, sums over a range, the coefficients
    and the values of the polynomials, and the laws of the ciphertexts. *)
Local Open Scope Z_scope.

Section laws.
Context `{DalekLaws}.
Set Default Proof Using "Type*".
Implicit Types (x y z : Scalar).
Add Ring scalar_ring_eg : s_ring_theory.

(** ** Combinations of two bases *)
Definition comb (a b : Point) x y : Point := p_add (p_mul x a) (p_mul y b).
Lemma p_add_swap a b c d : p_add (p_add a b) (p_add c d) = p_add (p_add a c) (p_add b d).
Proof. by rewrite <-!p_add_assoc, (p_add_assoc b), (p_add_comm b c), !p_add_assoc. Qed.
Lemma comb_add a b x y x' y' :
  p_add (comb a b x y) (comb a b x' y') = comb a b (s_add x x') (s_add y y').
Proof. unfold comb. by rewrite p_add_swap, !p_mul_add_s. Qed.
Lemma comb_mul a b s x y : p_mul s (comb a b x y) = comb a b (s_mul s x) (s_mul s y).
Proof. unfold comb. by rewrite p_mul_add_p, !p_mul_mul. Qed.
Lemma comb_l a b : a = comb a b s_one s_zero.
Proof. unfold comb. by rewrite p_mul_1, p_mul_0, p_add_0_r. Qed.
Lemma comb_r a b : b = comb a b s_zero s_one.
Proof. unfold comb. by rewrite p_mul_1, p_mul_0, p_add_0. Qed.
Lemma comb_0 a b : comb a b s_zero s_zero = p_identity.
Proof. unfold comb. by rewrite !p_mul_0, p_add_0. Qed.
Lemma comb_neg a b x y : p_neg (comb a b x y) = comb a b (s_neg x) (s_neg y).
Proof. unfold comb. by rewrite p_neg_add, !p_mul_neg. Qed.
Lemma comb_mul_l a b x : p_mul x a = comb a b x s_zero.
Proof. unfold comb. by rewrite p_mul_0, p_add_0_r. Qed.
Lemma comb_mul_r a b x : p_mul x b = comb a b s_zero x.
Proof. unfold comb. by rewrite p_mul_0, p_add_0. Qed.

(** ** Sums over a range *)
Definition ssum (n : nat) (f : nat → Scalar) : Scalar := s_sum (f <$> seq 0 n).
Lemma ssum_0 f : ssum 0 f = s_zero.
Proof. done. Qed.
Lemma ssum_S n f : ssum (S n) f = s_add (ssum n f) (f n).
Proof. unfold ssum. rewrite seq_S, fmap_app, s_sum_app. cbn. f_equal. ring. Qed.
Lemma ssum_ext n f g : (∀ i, (i < n)%nat → f i = g i) → ssum n f = ssum n g.
Proof.
  intros Hfg. induction n as [|n IH]; [done|]. rewrite !ssum_S, IH by (intros; apply Hfg; lia).
  by rewrite Hfg by lia.
Qed.
Lemma ssum_add n f g : ssum n (λ i, s_add (f i) (g i)) = s_add (ssum n f) (ssum n g).
Proof. apply s_sum_add. Qed.
Lemma ssum_mul_l n x f : ssum n (λ i, s_mul x (f i)) = s_mul x (ssum n f).
Proof. induction n as [|n IH]; [rewrite !ssum_0|rewrite !ssum_S, IH]; ring. Qed.
Lemma ssum_zero n f : (∀ i, (i < n)%nat → f i = s_zero) → ssum n f = s_zero.
Proof.
  intros Hf. rewrite (ssum_ext n f (λ _, s_zero)) by done. clear Hf.
  induction n as [|n IH]; [done|]. rewrite ssum_S, IH. ring.
Qed.
Lemma ssum_delta n k f : (k < n)%nat → ssum n (λ i, if (k =? i)%nat then f i else s_zero) = f k.
Proof.
  induction n as [|n IH]; intros Hk; [lia|]. rewrite ssum_S. destruct (decide (k = n)) as [->|Hne].
  - rewrite Nat.eqb_refl, ssum_zero; [ring|]. intros i Hi. by rewrite (proj2 (Nat.eqb_neq _ _)) by lia.
  - rewrite IH by lia. rewrite (proj2 (Nat.eqb_neq _ _)) by lia. ring.
Qed.
Lemma ssum_delta_out n k f : (n ≤ k)%nat → ssum n (λ i, if (k =? i)%nat then f i else s_zero) = s_zero.
Proof. intros Hk. apply ssum_zero. intros i Hi. by rewrite (proj2 (Nat.eqb_neq _ _)) by lia. Qed.
Lemma ssum_swap n m (f : nat → nat → Scalar) :
  ssum n (λ i, ssum m (λ j, f i j)) = ssum m (λ j, ssum n (λ i, f i j)).
Proof.
  induction n as [|n IH].
  - rewrite ssum_0. symmetry. by apply ssum_zero.
  - rewrite ssum_S, IH, <-ssum_add. apply ssum_ext. intros j _. by rewrite ssum_S.
Qed.
Lemma ssum_first n f : ssum (S n) f = s_add (f 0%nat) (ssum n (λ i, f (S i))).
Proof.
  induction n as [|n IH]; [rewrite ssum_S, !ssum_0; ring|]. rewrite ssum_S, IH, ssum_S. ring.
Qed.
Lemma ssum_app n m f : ssum (n + m) f = s_add (ssum n f) (ssum m (λ i, f (n + i)%nat)).
Proof.
  induction m as [|m IH]; [rewrite Nat.add_0_r, ssum_0; ring|].
  rewrite Nat.add_succ_r, !ssum_S, IH. ring.
Qed.

(** ** Polynomials *)
Definition coeff (p : list Scalar) (n : nat) : Scalar := nth n p s_zero.
Definition value (p : list Scalar) (x : Scalar) : Scalar := ssum (length p) (λ i, s_mul (coeff p i) (spow x i)).

Lemma coeff_lookup p n (a : Scalar) : p !! n = Some a → coeff p n = a.
Proof. unfold coeff. rewrite nth_lookup. by intros ->. Qed.
Lemma coeff_out p n : (length p ≤ n)%nat → coeff p n = s_zero.
Proof. apply nth_overflow. Qed.

Lemma value_cons c p x : value (c :: p) x = s_add c (s_mul x (value p x)).
Proof.
  unfold value. cbn [length]. rewrite ssum_first. rewrite <-ssum_mul_l. f_equal; [cbn [coeff nth spow]; ring|].
  apply ssum_ext. intros i _. unfold coeff. cbn [nth spow]. ring.
Qed.

Lemma exp_zip_sum p x :
  s_sum (zip_with s_mul p (spow x <$> seq 0 (length p))) = value p x.
Proof.
  unfold value, ssum. f_equal. apply list_eq. intros i. rewrite lookup_zip_with, !list_lookup_fmap.
  destruct (p !! i) as [a|] eqn:Ha.
  - pose proof (lookup_lt_Some _ _ _ Ha) as Hi. rewrite lookup_seq_lt by done. cbn.
    by rewrite (coeff_lookup _ _ _ Ha).
  - apply lookup_ge_None_1 in Ha. by rewrite lookup_seq_ge by done.
Qed.

Lemma poly_evaluate_value {E} p x : p ≠ [] → poly_evaluate (E := E) p x = Ok (value p x).
Proof.
  intros Hp. unfold poly_evaluate. rewrite exp_take_spec, scalar_sum_spec.
  - by rewrite exp_zip_sum.
  - destruct p; [done|]. cbn. done.
Qed.

(** One more at a degree. *)
Lemma coeff_alter acc d c n : (d < length acc)%nat →
  coeff (alter (λ a, s_add a c) d acc) n = s_add (coeff acc n) (if (n =? d)%nat then c else s_zero).
Proof.
  intros Hd. unfold coeff. rewrite !nth_lookup. destruct (decide (n = d)) as [->|Hne].
  - rewrite Nat.eqb_refl, list_lookup_alter_eq. by destruct (lookup_lt_is_Some_2 acc d Hd) as [a ->].
  - rewrite (proj2 (Nat.eqb_neq _ _)) by done. rewrite list_lookup_alter_ne by done. ring.
Qed.
Lemma value_coeff p q x : length p = length q → (∀ n, coeff p n = coeff q n) → value p x = value q x.
Proof. intros Hl Hc. unfold value. rewrite Hl. apply ssum_ext. intros i _. by rewrite Hc. Qed.
Lemma value_alter acc d c x : (d < length acc)%nat →
  value (alter (λ a, s_add a c) d acc) x = s_add (value acc x) (s_mul c (spow x d)).
Proof.
  intros Hd. unfold value. rewrite length_alter.
  rewrite (ssum_ext _ _ (λ i, s_add (s_mul (coeff acc i) (spow x i))
    (if (d =? i)%nat then s_mul c (spow x i) else s_zero))).
  - by rewrite ssum_add, (ssum_delta _ d (λ i, s_mul c (spow x i))).
  - intros i _. rewrite coeff_alter by done. rewrite (Nat.eqb_sym d). destruct (i =? d)%nat; ring.
Qed.

Lemma enum_cons {A} k (x : A) l : zip (seq k (length (x :: l))) (x :: l) = (k, x) :: zip (seq (S k) (length l)) l.
Proof using Type. done. Qed.

(** The inner loop: [c] times the coefficients of [q], shifted by [left]. *)
Lemma mul_inner_gen k left c q acc :
  (left + k + length q ≤ length acc)%nat →
  let acc' := foldl (λ acc dr, alter (λ a, s_add a (s_mul c dr.2)) (left + dr.1)%nat acc) acc (zip (seq k (length q)) q) in
  length acc' = length acc ∧
  (∀ n, coeff acc' n = s_add (coeff acc n)
     (ssum (length q) (λ j, if (n =? left + (k + j))%nat then s_mul c (coeff q j) else s_zero))) ∧
  (∀ x, value acc' x = s_add (value acc x) (s_mul (s_mul c (spow x (left + k))) (value q x))).
Proof.
  revert k acc. induction q as [|r q IH]; intros k acc Hl.
  - cbn [length seq zip zip_with foldl]. split_and!; [done| |]; intros; [rewrite ssum_0; ring|].
    unfold value at 3. cbn [length]. rewrite ssum_0. ring.
  - rewrite enum_cons. cbn [foldl fst snd]. cbn [length] in Hl.
    destruct (IH (S k) (alter (λ a, s_add a (s_mul c r)) (left + k)%nat acc)) as (H1 & H2 & H3).
    { rewrite length_alter. lia. }
    rewrite length_alter in H1. split_and!; [done| |].
    + intros n. rewrite H2, coeff_alter by lia. cbn [length]. rewrite ssum_first, Nat.add_0_r.
      rewrite (ssum_ext (length q) _ (λ j, if (n =? left + (k + S j))%nat then s_mul c (coeff (r :: q) (S j)) else s_zero)).
      { destruct (n =? left + k)%nat; cbn [coeff nth]; ring. }
      intros j _. by rewrite <-Nat.add_succ_comm.
    + intros x. rewrite H3, value_alter, value_cons, Nat.add_succ_r by lia. cbn [spow]. ring.
Qed.

Lemma mul_outer_gen k p q acc :
  (k + length p + length q ≤ S (length acc))%nat → q ≠ [] →
  let acc' := foldl (λ acc dl, poly_mul_inner dl.1 dl.2 acc q) acc (zip (seq k (length p)) p) in
  length acc' = length acc ∧
  (∀ n, coeff acc' n = s_add (coeff acc n)
     (ssum (length p) (λ i, ssum (length q) (λ j,
        if (n =? k + i + j)%nat then s_mul (coeff p i) (coeff q j) else s_zero)))) ∧
  (∀ x, value acc' x = s_add (value acc x) (s_mul (spow x k) (s_mul (value p x) (value q x)))).
Proof.
  intros Hl Hq. revert k acc Hl. induction p as [|c p IH]; intros k acc Hl.
  - cbn [length seq zip zip_with foldl]. split_and!; [done| |]; intros; [rewrite ssum_0; ring|].
    unfold value at 3. cbn [length]. rewrite ssum_0. ring.
  - rewrite enum_cons. cbn [foldl fst snd]. cbn [length] in Hl.
    destruct (mul_inner_gen 0 k c q acc ltac:(lia)) as (I1 & I2 & I3).
    change (foldl _ acc (zip (seq 0 (length q)) q)) with (poly_mul_inner k c acc q) in I1, I2, I3.
    assert (0 < length q)%nat as Hq0 by (destruct q; [done|cbn; lia]).
    destruct (IH (S k) (poly_mul_inner k c acc q)) as (H1 & H2 & H3); [lia|].
    split_and!; [congruence| |].
    + intros n. rewrite H2, I2. cbn [length]. rewrite ssum_first.
      rewrite (ssum_ext (length q) (λ j, if (n =? k + (0 + j))%nat then _ else _)
        (λ j, if (n =? k + 0 + j)%nat then s_mul (coeff (c :: p) 0) (coeff q j) else s_zero)).
      2: { intros j _. by rewrite Nat.add_0_r. }
      rewrite (ssum_ext (length p) _ (λ i, ssum (length q) (λ j,
        if (n =? k + S i + j)%nat then s_mul (coeff (c :: p) (S i)) (coeff q j) else s_zero))); [ring|].
      intros i _. apply ssum_ext. intros j _. by rewrite <-Nat.add_succ_comm.
    + intros x. rewrite H3, I3, Nat.add_0_r, value_cons. cbn [spow]. ring.
Qed.

Lemma coeff_zeros n i : coeff (replicate n s_zero) i = s_zero.
Proof. unfold coeff. rewrite nth_lookup. destruct (_ !! i) as [c|] eqn:Hc; [|done]. by apply lookup_replicate in Hc as [-> _]. Qed.
Lemma value_zeros n x : value (replicate n s_zero) x = s_zero.
Proof. unfold value. apply ssum_zero. intros i _. rewrite coeff_zeros. ring. Qed.

(** The product: its length, its coefficients and its values. *)
Lemma poly_mul_spec {E} p q : p ≠ [] → q ≠ [] →
  ∃ r, poly_mul (E := E) p q = Ok r ∧ length r = (length p + length q - 1)%nat ∧
    (∀ n, coeff r n = ssum (length p) (λ i, ssum (length q) (λ j,
        if (n =? i + j)%nat then s_mul (coeff p i) (coeff q j) else s_zero))) ∧
    (∀ x, value r x = s_mul (value p x) (value q x)).
Proof.
  intros Hp Hq. assert (0 < length p)%nat as Hp0 by (destruct p; [done|cbn; lia]).
  assert (0 < length q)%nat as Hq0 by (destruct q; [done|cbn; lia]).
  unfold poly_mul, poly_degree. rewrite !(proj2 (Nat.eqb_neq _ _)) by lia.
  cbn [negb assert_that mbind outcome_bind]. eexists. split; [done|].
  destruct (mul_outer_gen 0 p q (replicate (length p - 1 + (length q - 1) + 1) s_zero)) as (H1 & H2 & H3).
  { rewrite length_replicate. lia. }
  { done. }
  rewrite length_replicate in H1. split_and!; [lia| |].
  - intros n. rewrite H2, coeff_zeros. cbn [Nat.add]. ring.
  - intros x. rewrite H3, value_zeros. cbn [spow]. ring.
Qed.
End laws.
