(* ===== verification/UnitVector.v ===== *)
(** * Encrypted votes and their proofs ([chain-vote/src/encrypted_vote.rs],
    [chain-vote/src/cryptography/zkps/])

    A vote is a unit vector, encrypted entry by entry; the proof shows that
    the entries encrypt a unit vector with as many announcements as the index
    has bits.  [unit_generate] is the prover and [unit_verify] the verifier
    with its two batched checks; the random coefficient that the verifier
    draws from [thread_rng] is an argument.  The proofs of equality of discrete
    logarithms of [dl_equality] are those of [Vrf], whose code they repeat. *)
From Stdlib Require Import Ring.
From S2P Require Import Prelude Codec Sum Key Group Vrf ElGamal.
Local Open Scope Z_scope.

(** ** [encrypted_vote.rs] *)
Record UnitVector := mkUnitVector { uv_ith : nat; uv_size : nat }.
Definition unit_vector_new {E} (size ith : nat) : outcome E UnitVector :=
  assert_that (0 <? size)%nat;; assert_that (ith <? size)%nat;; Ok (mkUnitVector ith size).
Definition unit_vector_len (v : UnitVector) : nat := uv_size v.
Definition is_jth {E} (v : UnitVector) (j : nat) : outcome E bool :=
  if (uv_size v <=? j)%nat then Panic else Ok (j =? uv_ith v)%nat.

(** [UnitVectorIter]: the position and the vector. *)
Definition unit_vector_next (it : nat * UnitVector) : option (bool * (nat * UnitVector)) :=
  let '(i, v) := it in
  if (i =? uv_size v)%nat then None else Some ((i =? uv_ith v)%nat, (S i, v)).
Fixpoint unit_vector_collect (fuel : nat) (it : nat * UnitVector) : list bool :=
  match fuel with
  | O => []
  | S fuel => match unit_vector_next it with None => [] | Some (b, it) => b :: unit_vector_collect fuel it end
  end.
(** [iter]: one turn per entry and the last. *)
Definition unit_vector_iter (v : UnitVector) : list bool := unit_vector_collect (S (uv_size v)) (0%nat, v).

Definition binrep {E} (n digits : nat) : outcome E (list bool) :=
  assert_that (Z.of_nat n <? 2 ^ Z.of_nat digits);;
  Ok ((λ i, negb (Z.land (Z.of_nat n) (Z.shiftl 1 (Z.of_nat i)) =? 0)) <$> reverse (seq 0 digits)).

(** [usize::next_power_of_two]: one for zero. *)
Definition next_power_of_two (n : nat) : nat := (2 ^ Nat.log2_up n)%nat.
Record Ptp (A : Type) := mkPtp { ptp_elements : list A; ptp_orig_len : nat }.
Arguments mkPtp {A} _ _.
Arguments ptp_elements {A} _.
Arguments ptp_orig_len {A} _.
Definition ptp_len {A} (p : Ptp A) : nat := length (ptp_elements p).
Definition ptp_bits {A E} (p : Ptp A) : outcome E nat :=
  let len := length (ptp_elements p) in
  assert_that ((0 <? len)%nat && (2 ^ Nat.log2 len =? len)%nat);; Ok (Nat.log2 len).
Definition ptp_new {A} (vec : list A) (extended_value : A) : Ptp A :=
  let orig_len := length vec in
  let expected_len := next_power_of_two orig_len in
  mkPtp (if (orig_len <? expected_len)%nat then vec ++ replicate (expected_len - orig_len) extended_value else vec)
    orig_len.

Section votes.
Context `{Dalek}.

Definition jth {E} (v : UnitVector) (j : nat) : outcome E Scalar :=
  if (uv_size v <=? j)%nat then Panic else Ok (if (j =? uv_ith v)%nat then s_one else s_zero).

(** ** [unit_vector/messages.rs] *)
Record BlindingRandomness := mkBlinding { alpha : Scalar; beta : Scalar; gamma : Scalar; delta : Scalar }.
Record Announcement := mkAnnouncement { ann_i : Point; ann_b : Point; ann_a : Point }.
Record ResponseRandomness := mkResponse { resp_z : Scalar; resp_w : Scalar; resp_v : Scalar }.

Definition gen_and_commit (ck : Point) (index : bool) (rng : Rng) : BlindingRandomness * Announcement * Rng :=
  let '(i, alpha, rng) := commit_bool ck index rng in
  let '(beta, rng) := random rng in
  let '(b, gamma, rng) := commit ck beta rng in
  let '(a, delta, rng) := if index then commit ck beta rng else commit ck s_zero rng in
  (mkBlinding alpha beta gamma delta, mkAnnouncement i b a, rng).
Definition gen_response (r : BlindingRandomness) (challenge : Scalar) (index : bool) : ResponseRandomness :=
  let z := s_add (s_mul (scalar_from_bool index) challenge) (beta r) in
  let w := s_add (s_mul (alpha r) challenge) (gamma r) in
  let v := s_add (s_mul (alpha r) (s_sub challenge z)) (delta r) in
  mkResponse z w v.

Definition ANNOUNCEMENT_BYTES_LEN : nat := GE_BYTES_LEN * 3.
Definition announcement_to_bytes (a : Announcement) : list Z :=
  ge_to_bytes (ann_i a) ++ ge_to_bytes (ann_b a) ++ ge_to_bytes (ann_a a).
Definition announcement_from_bytes {E} (bytes : list Z) : outcome E (option Announcement) :=
  if negb (length bytes =? ANNOUNCEMENT_BYTES_LEN)%nat then Ok None
  else
    s ← slice_range bytes 0 GE_BYTES_LEN; i ← ge_from_bytes s;
    match i with
    | None => Ok None
    | Some i =>
        s ← slice_range bytes GE_BYTES_LEN (GE_BYTES_LEN * 2); b ← ge_from_bytes s;
        match b with
        | None => Ok None
        | Some b =>
            s ← slice_from bytes (GE_BYTES_LEN * 2); a ← ge_from_bytes s;
            Ok (a ← a; Some (mkAnnouncement i b a))
        end
    end.
Definition RESPONSE_BYTES_LEN : nat := SCALAR_BYTES_LEN * 3.
Definition response_to_bytes (r : ResponseRandomness) : list Z :=
  s_to_bytes (resp_z r) ++ s_to_bytes (resp_w r) ++ s_to_bytes (resp_v r).
Definition response_from_bytes {E} (bytes : list Z) : outcome E (option ResponseRandomness) :=
  if negb (length bytes =? RESPONSE_BYTES_LEN)%nat then Ok None
  else
    s1 ← slice_range bytes 0 SCALAR_BYTES_LEN;
    s2 ← slice_range bytes SCALAR_BYTES_LEN (SCALAR_BYTES_LEN * 2);
    s3 ← slice_from bytes (SCALAR_BYTES_LEN * 2);
    Ok (z ← scalar_from_bytes s1; w ← scalar_from_bytes s2; v ← scalar_from_bytes s3; Some (mkResponse z w v)).

(** The linear polynomials of each bit, for a bit unset and for a bit set. *)
Definition bit_polys {E} (bits : nat) (ix : bool) (abcd : BlindingRandomness) : outcome E (Polynomial * Polynomial) :=
  z1 ← poly_set2 (poly_new bits) (beta abcd) (scalar_from_bool ix);
  z0 ← poly_set2 (poly_new bits) (scalar_negate (beta abcd)) (scalar_from_bool (negb ix));
  Ok (z0, z1).
Definition pick_poly {E} (polys : list (Polynomial * Polynomial)) (j : list bool) (k : nat) : outcome E Polynomial :=
  jk ← unwrap_opt (j !! k); pk ← unwrap_opt (polys !! k); Ok (if jk : bool then pk.2 else pk.1).
Definition generate_poly {E} (bits : nat) (polys : list (Polynomial * Polynomial)) (i : nat) : outcome E Polynomial :=
  j ← binrep i bits;
  acc ← pick_poly polys j 0;
  foldM (λ acc k, t ← pick_poly polys j k; poly_mul acc t) acc (seq 1 (bits - 1)).
Definition generate_polys {E} (ciphers_len : nat) (idx_binary_rep : list bool) (bits : nat)
    (blinding_randomness_vec : list BlindingRandomness) : outcome E (list Polynomial) :=
  polys ← foldM (λ acc ib, p ← bit_polys bits ib.1 ib.2; Ok (acc ++ [p])) []
            (zip idx_binary_rep blinding_randomness_vec);
  foldM (λ pjs i, p ← generate_poly bits polys i; Ok (pjs ++ [p])) [] (seq 0 ciphers_len).

(** ** [unit_vector/challenge_context.rs]: the bytes fed to the hash *)
Definition unit_context_new (commitment_key public_key : Point) (ciphers : list Ciphertext) : list Z :=
  ge_to_bytes commitment_key ++ ge_to_bytes public_key ++ concat (ciphertext_to_bytes <$> ciphers).
Definition unit_first_challenge (cc : list Z) (ibas : list Announcement) : Scalar * list Z :=
  let cc := cc ++ concat (announcement_to_bytes <$> ibas) in (hash_to_scalar cc, cc).
Definition unit_second_challenge (cc : list Z) (ds : list Ciphertext) : Scalar * list Z :=
  let cc := cc ++ concat (ciphertext_to_bytes <$> ds) in (hash_to_scalar cc, cc).

(** ** [unit_vector/zkp.rs] *)
Record UnitZkp := mkUnitZkp {
  ibas : list Announcement; ds : list Ciphertext; zwvs : list ResponseRandomness; zkp_r : Scalar }.

(** The first loop of the prover: one commitment for each bit. *)
Definition commit_bits (ck : Point) (idx_binary_rep : list bool) (rng : Rng) :
    list BlindingRandomness * list Announcement * Rng :=
  foldl (λ '(bs, anns, rng) i, let '(b_rand, ann, rng) := gen_and_commit ck i rng in (bs ++ [b_rand], anns ++ [ann], rng))
    ([], [], rng) idx_binary_rep.
(** The coefficients of degree [i] of the polynomials, in the powers of [cy]. *)
Definition coefficient_sum {E} (cy : Scalar) (pjs : list Polynomial) (i : nat) : outcome E Scalar :=
  foldM (λ sum cp, c ← get_coefficient_at cp.2 i; Ok (s_add sum (s_mul cp.1 c))) s_zero
    (zip (exp_take (length pjs) (exp_iter cy)) pjs).
Definition encrypt_coefficients {E} (public_key : Point) (cy : Scalar) (pjs : list Polynomial) (bits : nat) (rng : Rng) :
    outcome E (list Ciphertext * list Scalar * Rng) :=
  foldM (λ '(ds, rs, rng) i,
           sum ← coefficient_sum cy pjs i;
           let '(d, r, rng) := encrypt_return_r public_key sum rng in Ok (ds ++ [d], rs ++ [r], rng))
    ([], [], rng) (seq 0 bits).
Definition unit_response {E} (cipher_randoms : Ptp Scalar) (rs : list Scalar) (cx cy : Scalar) : outcome E Scalar :=
  bits ← ptp_bits cipher_randoms;
  cx_pow ← scalar_power cx (Z.of_nat bits);
  let p1 := foldl (λ acc rc, s_add (s_mul (s_mul rc.1 cx_pow) rc.2) acc) s_zero
              (zip (ptp_elements cipher_randoms) (exp_take (ptp_len cipher_randoms) (exp_iter cy))) in
  let p2 := foldl (λ acc rc, s_add (s_mul rc.1 rc.2) acc) s_zero (zip rs (exp_take (length rs) (exp_iter cx))) in
  Ok (s_add p1 p2).
Definition unit_generate {E} (rng : Rng) (crs public_key : Point) (unit_vector : UnitVector)
    (encryption_randomness : list Scalar) (ciphertexts : list Ciphertext) : outcome E (UnitZkp * Rng) :=
  let ciphers := ptp_new ciphertexts ciphertext_zero in
  let cipher_randoms := ptp_new encryption_randomness s_zero in
  bits ← ptp_bits ciphers;
  rbits ← ptp_bits cipher_randoms;
  assert_that (bits =? rbits)%nat;;
  idx_binary_rep ← binrep (uv_ith unit_vector) bits;
  let '(blinding_randomness_vec, first_announcement_vec, rng) := commit_bits crs idx_binary_rep rng in
  let cc := unit_context_new crs public_key (ptp_elements ciphers) in
  let '(cy, cc) := unit_first_challenge cc first_announcement_vec in
  pjs ← generate_polys (ptp_len ciphers) idx_binary_rep bits blinding_randomness_vec;
  '(poly_coeff_enc, rs, rng) ← encrypt_coefficients public_key cy pjs bits rng;
  let '(cx, cc) := unit_second_challenge cc poly_coeff_enc in
  let randomness_response_vec := zip_with (λ abcd index, gen_response abcd cx index) blinding_randomness_vec idx_binary_rep in
  response ← unit_response cipher_randoms rs cx cy;
  Ok (mkUnitZkp first_announcement_vec poly_coeff_enc randomness_response_vec response, rng).

Definition powers_z_encs {E} (z : list ResponseRandomness) (challenge_x : Scalar) (index bit_size : nat) : outcome E Scalar :=
  idx ← binrep index bit_size;
  foldM (λ acc jz,
           b ← unwrap_opt (idx !! jz.1);
           Ok (s_mul acc (if b : bool then resp_z jz.2 else s_sub challenge_x (resp_z jz.2))))
    s_one (zip (seq 0 (length z)) z).
(** The first [n] items of [ZPowExp]. *)
Definition powers_z_take {E} (z : list ResponseRandomness) (challenge_x : Scalar) (bit_size n : nat) : outcome E (list Point) :=
  foldM (λ l index, z_pow ← powers_z_encs z challenge_x index bit_size;
                    Ok (l ++ [ge_mul ge_generator (scalar_negate z_pow)])) [] (seq 0 n).

(** The batched check of one bit. *)
Definition bit_check (h : Point) (challenge_x batch_challenge : Scalar) (zwv : ResponseRandomness) (iba : Announcement) : bool :=
  bool_decide (ge_multiscalar
    [resp_z zwv; s_add (resp_w zwv) (s_mul batch_challenge (resp_v zwv));
     s_sub (s_mul batch_challenge (s_sub (resp_z zwv) challenge_x)) challenge_x;
     scalar_negate s_one; scalar_negate batch_challenge]
    [ge_generator; h; ann_i iba; ann_b iba; ann_a iba] = ge_zero).
Definition verify_statements {E} (p : UnitZkp) (public_key h : Point) (ciphertexts : Ptp Ciphertext)
    (challenge_x challenge_y batch_challenge : Scalar) : outcome E bool :=
  bits ← ptp_bits ciphertexts;
  let length := ptp_len ciphertexts in
  cx_pow ← scalar_power challenge_x (Z.of_nat bits);
  let powers_cx := exp_take bits (exp_iter challenge_x) in
  let powers_cy := exp_take length (exp_iter challenge_y) in
  let zero := encrypt_with_r public_key s_zero (zkp_r p) in
  if negb (forallb (λ zi, bit_check h challenge_x batch_challenge zi.1 zi.2) (zip (zwvs p) (ibas p))) then Ok false
  else
    powers_z ← powers_z_take (zwvs p) challenge_x bits length;
    let mega_check := ge_multiscalar
      (((λ s, s_mul s cx_pow) <$> powers_cy) ++ ((λ s, s_mul s cx_pow) <$> powers_cy) ++ powers_cy ++
       powers_cx ++ powers_cx ++ [scalar_negate s_one; scalar_negate s_one])
      ((e2 <$> ptp_elements ciphertexts) ++ (e1 <$> ptp_elements ciphertexts) ++ powers_z ++
       (e1 <$> ds p) ++ (e2 <$> ds p) ++ [e1 zero; e2 zero]) in
    Ok (bool_decide (mega_check = ge_zero)).
Definition unit_verify {E} (p : UnitZkp) (crs public_key : Point) (ciphertexts : list Ciphertext) (batch_challenge : Scalar) :
    outcome E bool :=
  let ciphertexts := ptp_new ciphertexts ciphertext_zero in
  bits ← ptp_bits ciphertexts;
  let cc := unit_context_new crs public_key (ptp_elements ciphertexts) in
  let '(cy, cc) := unit_first_challenge cc (ibas p) in
  let '(cx, cc) := unit_second_challenge cc (ds p) in
  if negb (length (ibas p) =? bits)%nat then Ok false
  else if negb (length (zwvs p) =? bits)%nat then Ok false
  else verify_statements p public_key crs ciphertexts cx cy batch_challenge.

(** [from_parts] panics on lengths that differ. *)
Definition unit_from_parts {E} (ibas : list Announcement) (ds : list Ciphertext) (zwvs : list ResponseRandomness) (r : Scalar) :
    outcome E UnitZkp :=
  assert_that (length ibas =? length ds)%nat;; assert_that (length ibas =? length zwvs)%nat;;
  Ok (mkUnitZkp ibas ds zwvs r).
(** [n] slices of [len] bytes, each parsed by [f]. *)
Fixpoint read_parts {A} (f : list Z → outcome ReadError (option A)) (len : nat) (error : string) (n : nat) : Reader (list A) :=
  match n with
  | O => mret []
  | S n =>
      elem_buf ← get_slice len;
      a ← read_fun (λ buf, o ← f elem_buf; x ← ok_or o (StructureInvalid error); Ok (x, buf));
      l ← read_parts f len error n;
      mret (a :: l)
  end.
Definition unit_from_buffer : Reader UnitZkp :=
  bits ← get_u8;
  ibas ← read_parts announcement_from_bytes ANNOUNCEMENT_BYTES_LEN "Invalid IBA component" (Z.to_nat bits);
  bs ← read_parts ciphertext_from_bytes CIPHERTEXT_BYTES_LEN "Invalid encoded ciphertext" (Z.to_nat bits);
  zwvs ← read_parts response_from_bytes RESPONSE_BYTES_LEN "Invalid ZWV component" (Z.to_nat bits);
  r_buf ← get_slice SCALAR_BYTES_LEN;
  r ← read_fun (λ buf, x ← ok_or (scalar_from_bytes r_buf) (StructureInvalid "Invalid Proof encoded R scalar"); Ok (x, buf));
  read_fun (λ buf, p ← unit_from_parts ibas bs zwvs r; Ok (p, buf)).
End votes.
