(* ===== verification/UnitComplete.v ===== *)
(** * The proof of a unit vector is complete
    ([chain-vote/src/cryptography/zkps/unit_vector/])

    The bits of an index, the polynomials of the prover, the two batched
    checks.  The verifier's last check only looks at the sum of the two halves
    of each ciphertext, and the main lemma [prover_accepted] is stated at that
    generality. *)
From Stdlib Require Import Ring.
From S2P Require Import Prelude Codec Sum Group Vrf ElGamal UnitVector.
Local Open Scope Z_scope.

(** ** Bits *)
Definition bits_of (n d : nat) : list bool := (λ i, Z.testbit (Z.of_nat n) (Z.of_nat i)) <$> reverse (seq 0 d).

Lemma land_testbit n i : 0 ≤ n → 0 ≤ i → negb (Z.land n (Z.shiftl 1 i) =? 0) = Z.testbit n i.
Proof.
  intros Hn Hi. rewrite Z.shiftl_1_l. destruct (Z.testbit n i) eqn:Hb.
  - apply negb_true_iff, Z.eqb_neq. intros Hz. apply (f_equal (λ k, Z.testbit k i)) in Hz.
    by rewrite Z.land_spec, Hb, Z.pow2_bits_true, Z.bits_0 in Hz by done.
  - apply negb_false_iff, Z.eqb_eq. apply Z.bits_inj'. intros k Hk. rewrite Z.land_spec, Z.bits_0.
    destruct (decide (k = i)) as [->|Hne]; [by rewrite Hb|]. rewrite Z.pow2_bits_false by done. by rewrite andb_false_r.
Qed.
Lemma binrep_spec {E} n d : Z.of_nat n < 2 ^ Z.of_nat d → binrep (E := E) n d = Ok (bits_of n d).
Proof.
  intros Hn. unfold binrep. rewrite (proj2 (Z.ltb_lt _ _)) by done. cbn [assert_that mbind outcome_bind].
  f_equal. apply list_fmap_ext. intros k i _. apply land_testbit; lia.
Qed.
Lemma length_bits_of n d : length (bits_of n d) = d.
Proof. unfold bits_of. by rewrite length_fmap, length_reverse, length_seq. Qed.
Lemma bits_of_inj n m d :
  Z.of_nat n < 2 ^ Z.of_nat d → Z.of_nat m < 2 ^ Z.of_nat d → bits_of n d = bits_of m d → n = m.
Proof.
  intros Hn Hm Heq. apply Nat2Z.inj. apply Z.bits_inj'. intros k Hk.
  destruct (decide (k < Z.of_nat d)) as [Hkd|Hkd].
  - unfold bits_of in Heq. apply (f_equal reverse) in Heq. rewrite <-!fmap_reverse, !reverse_involutive in Heq.
    apply (f_equal (λ l, l !! Z.to_nat k)) in Heq. rewrite !list_lookup_fmap, lookup_seq_lt in Heq by lia.
    cbn in Heq. injection Heq as Heq. by rewrite Z2Nat.id in Heq by lia.
  - assert (∀ a, 0 ≤ a < 2 ^ Z.of_nat d → Z.testbit a k = false) as Hb.
    { intros a Ha. destruct (decide (a = 0)) as [->|]; [apply Z.bits_0|].
      apply Z.bits_above_log2; [lia|]. apply Z.log2_lt_pow2; [lia|].
      eapply Z.lt_le_trans; [apply Ha|]. apply Z.pow_le_mono_r; lia. }
    rewrite !Hb by lia. done.
Qed.

(** ** Padding *)
Lemma next_power_of_two_ge n : (n ≤ next_power_of_two n)%nat.
Proof.
  unfold next_power_of_two. destruct (decide (n ≤ 1)%nat); [destruct n as [|[]]; cbn; lia|].
  apply Nat.log2_up_spec. lia.
Qed.
Lemma ptp_elements_eq {A} (l : list A) a :
  ptp_elements (ptp_new l a) = l ++ replicate (next_power_of_two (length l) - length l) a.
Proof.
  unfold ptp_new. cbn [ptp_elements]. destruct (_ <? _)%nat eqn:Hl; [done|]. apply Nat.ltb_ge in Hl.
  replace (next_power_of_two (length l) - length l)%nat with 0%nat by lia. by rewrite app_nil_r.
Qed.
Lemma ptp_len_eq {A} (l : list A) a : ptp_len (ptp_new l a) = (2 ^ Nat.log2_up (length l))%nat.
Proof.
  unfold ptp_len. rewrite ptp_elements_eq, length_app, length_replicate.
  pose proof (next_power_of_two_ge (length l)). unfold next_power_of_two in *. lia.
Qed.
Lemma ptp_bits_eq {A E} (l : list A) a : ptp_bits (E := E) (ptp_new l a) = Ok (Nat.log2_up (length l)).
Proof.
  pose proof (ptp_len_eq l a) as Hl. unfold ptp_len in Hl. unfold ptp_bits. rewrite Hl, Nat.log2_pow2 by lia.
  rewrite Nat.eqb_refl. rewrite (proj2 (Nat.ltb_lt _ _)); [done|].
  pose proof (Nat.pow_nonzero 2 (Nat.log2_up (length l))). lia.
Qed.

Section spec.
Context `{DalekLaws}.
Set Default Proof Using "Type*".
Implicit Types (x y z : Scalar).
Add Ring scalar_ring_uv : s_ring_theory.

(** ** Products and powers *)
Definition sprod (l : list Scalar) : Scalar := foldr s_mul s_one l.
Lemma sprod_foldl l c : foldl s_mul c l = s_mul c (sprod l).
Proof. revert c. induction l as [|x l IH]; intros c; cbn [foldl sprod foldr]; [ring|]. rewrite IH. unfold sprod. ring. Qed.
Lemma sprod_app l1 l2 : sprod (l1 ++ l2) = s_mul (sprod l1) (sprod l2).
Proof. induction l1 as [|x l1 IH]; cbn [app]; unfold sprod in *; cbn [foldr]; [ring|]. rewrite IH. ring. Qed.

(** ** The linear polynomials *)
Definition linear (p : list Scalar) (b a : Scalar) : Prop :=
  (2 ≤ length p)%nat ∧ ∀ n, coeff p n = match n with O => b | 1%nat => a | _ => s_zero end.

Lemma poly_set2_linear {E} bits b a : (1 ≤ bits)%nat →
  ∃ p, poly_set2 (E := E) (poly_new bits) b a = Ok p ∧ linear p b a ∧ length p = S bits.
Proof.
  intros Hb. unfold poly_set2, poly_degree, poly_new. rewrite length_replicate.
  rewrite (proj2 (Nat.eqb_neq _ _)) by lia. cbn [negb assert_that mbind outcome_bind].
  rewrite (proj2 (Nat.leb_le _ _)) by lia. cbn [assert_that mbind outcome_bind]. eexists. split; [done|].
  unfold Polynomial. rewrite !length_insert, length_replicate. split; [|lia].
  destruct bits as [|bits]; [lia|]. rewrite Nat.add_1_r. split; [cbn; lia|].
  intros [|[|n]]; try done. apply (coeff_zeros bits n).
Qed.
Lemma linear_value p b a x : linear p b a → value p x = s_add (s_mul a x) b.
Proof.
  intros [Hl Hc]. unfold value. replace (length p) with (2 + (length p - 2))%nat by lia.
  rewrite ssum_app, (ssum_zero (length p - 2)).
  - rewrite !ssum_S, ssum_0, !Hc. cbn [spow]. ring.
  - intros i Hi. rewrite Hc. cbn [Nat.add]. ring.
Qed.
Lemma linear_mul {E} p q b a : p ≠ [] → linear q b a →
  ∃ r, poly_mul (E := E) p q = Ok r ∧ (length p < length r)%nat ∧
    (∀ n, coeff r n = s_add (s_mul b (coeff p n)) (match n with O => s_zero | S n => s_mul a (coeff p n) end)) ∧
    (∀ x, value r x = s_mul (value p x) (s_add (s_mul a x) b)).
Proof.
  intros Hp [Hl Hc]. assert (q ≠ []) as Hq by (by intros ->; cbn in Hl; lia).
  destruct (poly_mul_spec (E := E) p q Hp Hq) as (r & Hr & Hlen & Hco & Hv).
  exists r. split_and!; [done|lia| |].
  - intros n. rewrite Hco.
    rewrite (ssum_ext _ _ (λ i, s_add (if (n =? i)%nat then s_mul (coeff p i) b else s_zero)
      (if (n =? S i)%nat then s_mul (coeff p i) a else s_zero))).
    2: { intros i _. replace (length q) with (2 + (length q - 2))%nat by lia. rewrite ssum_app, (ssum_zero (length q - 2)).
      - rewrite !ssum_S, ssum_0, !Hc, Nat.add_0_r, Nat.add_1_r.
        destruct (n =? i)%nat, (n =? S i)%nat; ring.
      - intros j _. rewrite Hc. cbn [Nat.add]. destruct (_ =? _)%nat; ring. }
    rewrite ssum_add. f_equal.
    + destruct (decide (n < length p)%nat) as [Hn|Hn].
      * rewrite (ssum_delta _ n (λ i, s_mul (coeff p i) b)) by done. ring.
      * rewrite (ssum_delta_out _ n (λ i, s_mul (coeff p i) b)), coeff_out by lia. ring.
    + destruct n as [|n]; [by apply ssum_zero|]. cbn [Nat.eqb].
      destruct (decide (n < length p)%nat) as [Hn|Hn].
      * rewrite (ssum_delta _ n (λ i, s_mul (coeff p i) a)) by done. ring.
      * rewrite (ssum_delta_out _ n (λ i, s_mul (coeff p i) a)), coeff_out by lia. ring.
  - intros x. by rewrite Hv, (linear_value q b a).
Qed.
End spec.

(** * What the prover of a unit vector computes
    ([chain-vote/src/cryptography/zkps/unit_vector/])

    Closed forms of the prover's loops: the announcements, the polynomials of
    the indices (leading coefficient, value), the encrypted coefficients, the
    response, and the verifier's products of responses. *)
Unset Default Proof Using.
Local Open Scope Z_scope.

(** A loop that pushes what it computes. *)
Lemma foldM_push {E A B} (f : A → outcome E B) (g : A → B) l acc :
  (∀ a, a ∈ l → f a = Ok (g a)) →
  foldM (λ acc a, b ← f a; Ok (acc ++ [b])) acc l = Ok (acc ++ (g <$> l)).
Proof.
  revert acc. induction l as [|a l IH]; intros acc Hf; cbn [foldM]; [by rewrite app_nil_r|].
  rewrite Hf by left. cbn [mbind outcome_bind]. rewrite IH by (intros; apply Hf; by right).
  cbn [fmap list_fmap]. by rewrite <-app_assoc.
Qed.
Lemma seq_map_ext {A} (f g : nat → A) k n :
  (∀ i, (k ≤ i < k + n)%nat → f i = g i) → f <$> seq k n = g <$> seq k n.
Proof.
  intros Hfg. apply list_fmap_ext. intros j i Hi. apply lookup_seq in Hi as [-> Hj]. apply Hfg. lia.
Qed.
Lemma list_as_seq {A} (d : A) l : l = (λ i, nth i l d) <$> seq 0 (length l).
Proof.
  apply list_eq. intros i. rewrite list_lookup_fmap. destruct (l !! i) as [a|] eqn:Ha.
  - pose proof (lookup_lt_Some _ _ _ Ha). rewrite lookup_seq_lt by done. cbn. by rewrite nth_lookup, Ha.
  - apply lookup_ge_None_1 in Ha. by rewrite lookup_seq_ge by done.
Qed.
Lemma zip_with_fmap_same {A B C D} (h : B → C → D) (f : A → B) (g : A → C) l :
  zip_with h (f <$> l) (g <$> l) = (λ a, h (f a) (g a)) <$> l.
Proof. induction l as [|a l IH]; [done|]. cbn. by rewrite IH. Qed.

Section prover.
Context `{DalekLaws}.
Set Default Proof Using "Type*".
Implicit Types (x y : Scalar).
Add Ring scalar_ring_up : s_ring_theory.

Lemma s_mul_one x : s_mul s_one x = x.
Proof. ring. Qed.
Lemma s_mul_zero x : s_mul s_zero x = s_zero.
Proof. ring. Qed.

(** ** Products over a range *)
Definition nprod (n : nat) (f : nat → Scalar) : Scalar := sprod (f <$> seq 0 n).
Lemma nprod_0 f : nprod 0 f = s_one.
Proof. done. Qed.
Lemma nprod_S n f : nprod (S n) f = s_mul (nprod n f) (f n).
Proof. unfold nprod. rewrite seq_S, fmap_app, sprod_app. cbn. f_equal. ring. Qed.
Lemma nprod_ext n f g : (∀ i, (i < n)%nat → f i = g i) → nprod n f = nprod n g.
Proof. intros Hfg. unfold nprod. f_equal. apply seq_map_ext. intros i Hi. apply Hfg. lia. Qed.
Lemma nprod_zero n f k : (k < n)%nat → f k = s_zero → nprod n f = s_zero.
Proof.
  intros Hk Hf. induction n as [|n IH]; [lia|]. rewrite nprod_S. destruct (decide (k = n)) as [->|Hne].
  - rewrite Hf. ring.
  - rewrite IH by lia. ring.
Qed.
Lemma nprod_one n f : (∀ i, (i < n)%nat → f i = s_one) → nprod n f = s_one.
Proof. induction n as [|n IH]; intros Hf; [done|]. rewrite nprod_S, IH, Hf by (intros; try apply Hf; lia). ring. Qed.

(** Two indices agree on all their bits exactly when the product of the
    agreements is one. *)
Definition s_bool (b : bool) : Scalar := scalar_from_bool b.
Lemma agree_product (l1 l2 : list bool) n : length l1 = n → length l2 = n →
  nprod n (λ k, s_bool (eqb (nth k l1 false) (nth k l2 false))) = s_bool (bool_decide (l1 = l2)).
Proof.
  intros H1 H2. case_bool_decide as Heq.
  - subst l2. apply nprod_one. intros i _. by rewrite eqb_reflx.
  - assert (∃ k, (k < n)%nat ∧ nth k l1 false ≠ nth k l2 false) as (k & Hk & Hne).
    { destruct (decide (Exists (λ k, nth k l1 false ≠ nth k l2 false) (seq 0 n))) as [(k & Hk & Hne)%Exists_exists|Hno].
      { exists k. apply elem_of_seq in Hk. split; [lia|done]. }
      exfalso. apply Heq, (nth_ext _ _ false false); [congruence|]. intros k Hk. apply dec_stable. intros Hne.
      apply Hno, Exists_exists. exists k. split; [|done]. apply elem_of_seq. lia. }
    apply (nprod_zero _ _ k); [done|]. by rewrite (proj2 (eqb_false_iff _ _) Hne).
Qed.

(** ** The announcements *)
Definition announce (ck : Point) (i : bool) (b : BlindingRandomness) : Announcement :=
  mkAnnouncement (comb ge_generator ck (s_bool i) (alpha b)) (comb ge_generator ck (beta b) (gamma b))
    (comb ge_generator ck (s_mul (s_bool i) (beta b)) (delta b)).
Lemma gen_and_commit_spec ck i rng :
  ∃ b rng', gen_and_commit ck i rng = (b, announce ck i b, rng').
Proof.
  unfold gen_and_commit, commit_bool, commit, random, commit_with_random, announce, comb, s_bool, ge_add, ge_mul, ge_generator.
  destruct i; cbn [scalar_from_bool]; do 2 eexists; (f_equal; f_equal); cbn [alpha beta gamma delta].
  - by rewrite p_mul_1, s_mul_one.
  - by rewrite s_mul_zero, !p_mul_0, !p_add_0.
Qed.
Lemma commit_bits_gen ck l bs0 anns0 rng :
  ∃ bs rng', foldl (λ '(bs, anns, rng) i, let '(b_rand, ann, rng) := gen_and_commit ck i rng in (bs ++ [b_rand], anns ++ [ann], rng))
      (bs0, anns0, rng) l = (bs0 ++ bs, anns0 ++ zip_with (announce ck) l bs, rng') ∧ length bs = length l.
Proof.
  revert bs0 anns0 rng. induction l as [|i l IH]; intros bs0 anns0 rng; cbn [foldl].
  - exists [], rng. split; [|done]. cbn [zip_with]. by rewrite !app_nil_r.
  - destruct (gen_and_commit_spec ck i rng) as (b & rng' & ->).
    destruct (IH (bs0 ++ [b]) (anns0 ++ [announce ck i b]) rng') as (bs & rng2 & -> & Hl).
    exists (b :: bs), rng2. cbn [length zip_with]. rewrite <-!app_assoc, Hl. done.
Qed.
Lemma commit_bits_spec ck l rng :
  ∃ bs rng', commit_bits ck l rng = (bs, zip_with (announce ck) l bs, rng') ∧ length bs = length l.
Proof. exact (commit_bits_gen ck l [] [] rng). Qed.

(** The verifier's check of a bit holds of the prover's response. *)
Lemma bit_check_honest h cx bc i b :
  bit_check h cx bc (gen_response b cx i) (announce h i b) = true.
Proof.
  apply bool_decide_true. unfold ge_multiscalar. rewrite p_multiscalar by done.
  cbn [zip_with foldr gen_response resp_z resp_w resp_v announce ann_i ann_b ann_a].
  rewrite (comb_mul_l ge_generator h _), (comb_mul_r ge_generator h _), !comb_mul, <-(comb_0 ge_generator h), !comb_add.
  unfold ge_zero. rewrite <-(comb_0 ge_generator h). unfold scalar_negate, s_bool.
  f_equal; destruct i; cbn [scalar_from_bool]; ring.
Qed.

(** ** The polynomials of the indices *)
Definition no_blinding : BlindingRandomness := mkBlinding s_zero s_zero s_zero s_zero.
Definition bit_at (l : list bool) (k : nat) : bool := nth k l false.
Definition beta_at (bs : list BlindingRandomness) (k : nat) : Scalar := beta (nth k bs no_blinding).
(** The linear factor of the bit [k] of the index whose bits are [j]. *)
Definition lead (ib j : list bool) (k : nat) : Scalar := s_bool (eqb (bit_at j k) (bit_at ib k)).
Definition const (bs : list BlindingRandomness) (j : list bool) (k : nat) : Scalar :=
  if bit_at j k then beta_at bs k else s_neg (beta_at bs k).

Lemma bit_polys_spec {E} bits i b : (1 ≤ bits)%nat →
  ∃ z0 z1, bit_polys (E := E) bits i b = Ok (z0, z1) ∧ length z0 = S bits ∧ length z1 = S bits ∧
    linear z1 (beta b) (s_bool i) ∧ linear z0 (s_neg (beta b)) (s_bool (negb i)).
Proof.
  intros Hb. destruct (poly_set2_linear (E := E) bits (beta b) (scalar_from_bool i) Hb) as (z1 & H1 & L1 & N1).
  destruct (poly_set2_linear (E := E) bits (s_neg (beta b)) (scalar_from_bool (negb i)) Hb) as (z0 & Hz0 & L0 & N0).
  exists z0, z1. unfold bit_polys, scalar_negate. rewrite H1. cbn [mbind outcome_bind]. rewrite Hz0. done.
Qed.

Definition polys_of (ib : list bool) (bs : list BlindingRandomness) (bits : nat) (polys : list (Polynomial * Polynomial)) : Prop :=
  ∀ (E : Type) j k, length j = bits → (k < bits)%nat →
    ∃ q, pick_poly (E := E) polys j k = Ok q ∧ linear q (const bs j k) (lead ib j k) ∧ length q = S bits.

Lemma collect_polys {E} ib bs bits : length ib = bits → length bs = bits → (1 ≤ bits)%nat →
  ∃ polys, foldM (λ acc ib, p ← bit_polys (E := E) bits ib.1 ib.2; Ok (acc ++ [p])) [] (zip ib bs) = Ok polys ∧
    polys_of ib bs bits polys.
Proof.
  intros Hi Hb Hbits.
  set (g := λ ib : bool * BlindingRandomness, match bit_polys (E := E) bits ib.1 ib.2 with Ok p => p | _ => ([], []) end).
  exists (g <$> zip ib bs). split.
  { rewrite (foldM_push _ g); [done|]. intros [i b] _. unfold g. cbn [fst snd].
    by destruct (bit_polys_spec (E := E) bits i b Hbits) as (z0 & z1 & -> & _). }
  intros E' j k Hj Hk.
  destruct (lookup_lt_is_Some_2 j k) as [jk Hjk]; [lia|]. destruct (lookup_lt_is_Some_2 ib k) as [ik Hik]; [lia|].
  destruct (lookup_lt_is_Some_2 bs k) as [bk Hbk]; [lia|].
  unfold pick_poly. rewrite Hjk, list_lookup_fmap. cbn [unwrap_opt mbind outcome_bind].
  assert (zip ib bs !! k = Some (ik, bk)) as -> by (apply lookup_zip_with_Some; eauto). cbn [fmap option_fmap option_map unwrap_opt mbind outcome_bind].
  destruct (bit_polys_spec (E := E) bits ik bk Hbits) as (z0 & z1 & Hz & N0 & N1 & L1 & L0).
  unfold g, const, lead, bit_at, beta_at. cbn [fst snd]. rewrite Hz. rewrite !nth_lookup, Hjk, Hik, Hbk. cbn [default from_option].
  destruct jk; cbn [fst snd]; eexists; (split; [done|]); split; try done; by destruct ik.
Qed.

(** The product of the factors of an index: its leading coefficient and its
    values. *)
Definition index_poly (ib j : list bool) (bs : list BlindingRandomness) (bits n : nat) (r : list Scalar) : Prop :=
  (bits < length r)%nat ∧ coeff r n = nprod n (lead ib j) ∧ (∀ m, (n < m)%nat → coeff r m = s_zero) ∧
  ∀ x, value r x = nprod n (λ k, s_add (s_mul (lead ib j k) x) (const bs j k)).

Lemma index_poly_mul {E} ib j bs bits n r q :
  index_poly ib j bs bits n r → linear q (const bs j n) (lead ib j n) →
  ∃ r', poly_mul (E := E) r q = Ok r' ∧ index_poly ib j bs bits (S n) r'.
Proof.
  intros (Hl & Hc & Ho & Hv) Hq. destruct (linear_mul (E := E) r q (const bs j n) (lead ib j n)) as (r' & Hr & Hlen & Hco & Hva).
  { by intros ->; cbn in Hl; lia. }
  { done. }
  exists r'. split; [done|]. split_and!.
  - lia.
  - rewrite Hco, Hc, (Ho (S n)), nprod_S by lia. ring.
  - intros [|m] Hm; [lia|]. rewrite Hco, (Ho (S m)), (Ho m) by lia. ring.
  - intros x. rewrite Hva, Hv, nprod_S. ring.
Qed.

Lemma index_poly_fold {E} ib j bs bits polys r :
  polys_of ib bs bits polys → length j = bits → index_poly ib j bs bits 1 r →
  ∀ n, (S n ≤ bits)%nat →
  ∃ r', foldM (λ acc k, t ← pick_poly (E := E) polys j k; poly_mul acc t) r (seq 1 n) = Ok r' ∧
    index_poly ib j bs bits (S n) r'.
Proof.
  intros Hp Hj Hr. induction n as [|n IH]; intros Hn; [by exists r|].
  destruct IH as (r1 & H1 & Hi1); [lia|]. rewrite seq_S, foldM_app, H1. cbn [mbind outcome_bind foldM Nat.add].
  destruct (Hp E j (S n) Hj) as (q & -> & Hq & _); [lia|]. cbn [mbind outcome_bind].
  destruct (index_poly_mul (E := E) ib j bs bits (S n) r1 q Hi1 Hq) as (r2 & -> & Hi2). by exists r2.
Qed.

Lemma generate_poly_spec {E} ib bs bits polys i :
  polys_of ib bs bits polys → (1 ≤ bits)%nat → Z.of_nat i < 2 ^ Z.of_nat bits →
  ∃ r, generate_poly (E := E) bits polys i = Ok r ∧ index_poly ib (bits_of i bits) bs bits bits r.
Proof.
  intros Hp Hb Hi. unfold generate_poly. rewrite binrep_spec by done. cbn [mbind outcome_bind].
  destruct (Hp E (bits_of i bits) 0%nat (length_bits_of _ _)) as (q & -> & Hq & Hl); [lia|]. cbn [mbind outcome_bind].
  destruct (index_poly_fold (E := E) ib (bits_of i bits) bs bits polys q Hp (length_bits_of _ _)) with (n := (bits - 1)%nat) as (r & Hr & Hix).
  - split_and!; [lia| | |].
    + rewrite nprod_S, nprod_0, (proj2 Hq 1%nat). ring.
    + intros [|[|m]] Hm; [lia..|]. apply (proj2 Hq).
    + intros x. rewrite nprod_S, nprod_0, (linear_value _ _ _ _ Hq). ring.
  - lia.
  - exists r. replace (S (bits - 1)) with bits in Hix by lia. done.
Qed.
End prover.

(** * Honest ballots are accepted, and more
    ([chain-vote/src/cryptography/zkps/unit_vector/zkp.rs])

    [prover_accepted]: the verifier accepts what the prover makes for any
    ciphertexts whose halves add up to those of an encryption of the unit
    vector with the randomness given.  Honest ciphertexts are such; so are
    ciphertexts of which the halves are shifted against one another. *)
Unset Default Proof Using.
Local Open Scope Z_scope.

Lemma foldM_fmap {E A B S} (f : S → B → outcome E S) (g : A → B) s l :
  foldM f s (g <$> l) = foldM (λ s a, f s (g a)) s l.
Proof.
  revert s. induction l as [|a l IH]; intros s; [done|]. cbn [fmap list_fmap foldM].
  destruct (f s (g a)); cbn [mbind outcome_bind]; auto.
Qed.
Lemma foldM_ext {E A S} (f g : S → A → outcome E S) s l : (∀ s a, f s a = g s a) → foldM f s l = foldM g s l.
Proof.
  intros Hfg. revert s. induction l as [|a l IH]; intros s; [done|]. cbn [foldM]. rewrite Hfg.
  destruct (g s a); cbn [mbind outcome_bind]; auto.
Qed.
Lemma ok_bind {E A B} (a : A) (f : A → outcome E B) : (Ok a ≫= f) = f a.
Proof. done. Qed.
Lemma nth_replicate {A} n k (d : A) : nth k (replicate n d) d = d.
Proof. rewrite nth_lookup. destruct (_ !! k) as [a|] eqn:Ha; [|done]. by apply lookup_replicate in Ha as [-> _]. Qed.
(** A loop over a range that accumulates a value known in closed form. *)
Lemma foldM_range {E S} (f : S → nat → outcome E S) (v : nat → S) n :
  (∀ i, (i < n)%nat → f (v i) i = Ok (v (1 + i)%nat)) → foldM f (v 0%nat) (seq 0 n) = Ok (v n).
Proof.
  induction n as [|n IH]; intros Hf; [done|]. rewrite seq_S, foldM_app, IH by (intros; apply Hf; lia).
  cbn [mbind outcome_bind foldM Nat.add]. by rewrite Hf by lia.
Qed.

Section complete.
Context `{DalekLaws}.
Set Default Proof Using "Type*".
Implicit Types (x y : Scalar).
Add Ring scalar_ring_uc : s_ring_theory.

(** ** The halves of a ciphertext *)
Definition halves (c : Ciphertext) : Point := p_add (e2 c) (e1 c).
Definition key_base (pk : Point) : Point := p_add ge_generator pk.
Lemma halves_encrypt pk m r : halves (encrypt_with_r pk m r) = comb ge_generator (key_base pk) m r.
Proof.
  unfold halves, encrypt_with_r, encrypt_point_with_r, comb, key_base, ge_add, ge_mul. cbn [e1 e2].
  by rewrite <-p_add_assoc, p_mul_add_p, (p_add_comm (p_mul r pk)).
Qed.
Lemma halves_zero pk : halves ciphertext_zero = comb ge_generator (key_base pk) s_zero s_zero.
Proof. by rewrite comb_0; apply p_add_0. Qed.

(** ** Sums of points over a range *)
Definition psum (n : nat) (f : nat → Point) : Point := ge_sum (f <$> seq 0 n).
Lemma psum_S n f : psum (S n) f = p_add (psum n f) (f n).
Proof. unfold psum. rewrite seq_S, fmap_app, ge_sum_app. cbn [fmap list_fmap]. by rewrite ge_sum_cons, ge_sum_nil, p_add_0_r. Qed.
Lemma psum_add n f g : p_add (psum n f) (psum n g) = psum n (λ i, p_add (f i) (g i)).
Proof. induction n as [|n IH]; [apply p_add_0|]. by rewrite !psum_S, p_add_swap, IH. Qed.
Lemma psum_ext n f g : (∀ i, (i < n)%nat → f i = g i) → psum n f = psum n g.
Proof. intros Hfg. unfold psum. f_equal. apply seq_map_ext. intros i Hi. apply Hfg. lia. Qed.
Lemma psum_comb a b n s t : psum n (λ i, comb a b (s i) (t i)) = comb a b (ssum n s) (ssum n t).
Proof. induction n as [|n IH]; [by rewrite !ssum_0, comb_0|]. by rewrite psum_S, IH, comb_add, !ssum_S. Qed.

(** One block of a multiscalar multiplication. *)
Lemma multi_block (s : nat → Scalar) (p : nat → Point) n ss ps :
  foldr p_add p_identity (zip_with p_mul ((s <$> seq 0 n) ++ ss) ((p <$> seq 0 n) ++ ps))
  = p_add (psum n (λ i, p_mul (s i) (p i))) (foldr p_add p_identity (zip_with p_mul ss ps)).
Proof.
  rewrite zip_with_app by (by rewrite !length_fmap). rewrite !ge_sum_foldr, ge_sum_app, zip_with_fmap_same. done.
Qed.

(** ** The encrypted coefficients *)
Lemma get_coefficient_spec {E} (p : list Scalar) i : (i < length p)%nat → get_coefficient_at (E := E) p i = Ok (coeff p i).
Proof.
  intros Hi. destruct (lookup_lt_is_Some_2 p i Hi) as [c Hc]. unfold get_coefficient_at, Polynomial.
  by rewrite Hc, (coeff_lookup _ _ _ Hc).
Qed.
Lemma coefficient_sum_spec {E} cy (g : nat → list Scalar) N i : (∀ j, (j < N)%nat → (i < length (g j))%nat) →
  coefficient_sum (E := E) cy (g <$> seq 0 N) i = Ok (ssum N (λ j, s_mul (spow cy j) (coeff (g j) i))).
Proof.
  intros Hg. unfold coefficient_sum. rewrite length_fmap, length_seq, exp_take_spec.
  unfold zip. rewrite (zip_with_fmap_same pair (spow cy) g), foldM_fmap.
  rewrite (foldM_range _ (λ n, ssum n (λ j, s_mul (spow cy j) (coeff (g j) i)))); [done|].
  intros j Hj. cbn [fst snd]. rewrite get_coefficient_spec by auto. cbn [mbind outcome_bind Nat.add]. by rewrite ssum_S.
Qed.
(** The generator after [n] draws. *)
Definition shift (rng : Rng) : Rng := (random rng).2.
Lemma iter_shift n rng k : Nat.iter n shift rng k = rng (n + k)%nat.
Proof. revert k. induction n as [|n IH]; intros k; [done|].
  change (Nat.iter n shift rng (S k) = rng (S n + k)%nat). by rewrite IH, Nat.add_succ_r. Qed.
Lemma encrypt_coefficients_spec {E} pk cy pjs bits rng s :
  (∀ i, (i < bits)%nat → coefficient_sum (E := E) cy pjs i = Ok (s i)) →
  encrypt_coefficients (E := E) pk cy pjs bits rng =
    Ok ((λ i, encrypt_with_r pk (s i) (rng i)) <$> seq 0 bits, rng <$> seq 0 bits, Nat.iter bits shift rng).
Proof.
  intros Hs. unfold encrypt_coefficients.
  refine (foldM_range _ (λ n, ((λ i, encrypt_with_r pk (s i) (rng i)) <$> seq 0 n, rng <$> seq 0 n, Nat.iter n shift rng)) bits _).
  intros i Hi. rewrite Hs by done. cbn [mbind outcome_bind]. unfold encrypt_return_r, encrypt_point_return_r, random.
  rewrite iter_shift, Nat.add_0_r. cbn [Nat.add]. by rewrite (seq_S i), !fmap_app.
Qed.

(** ** The response and the products of responses *)
Lemma s_add_zero x : s_add s_zero x = x.
Proof. ring. Qed.
Lemma foldl_sum {A} (f : A → Scalar) l c : foldl (λ acc a, s_add (f a) acc) c l = s_add c (s_sum (f <$> l)).
Proof.
  revert c. induction l as [|a l IH]; intros c; cbn [foldl fmap list_fmap]; [rewrite s_sum_nil; ring|].
  rewrite IH, s_sum_cons. ring.
Qed.
Lemma zip_powers {A} (g : nat → A) x n :
  zip (g <$> seq 0 n) (exp_take n (exp_iter x)) = (λ i, (g i, spow x i)) <$> seq 0 n.
Proof. rewrite exp_take_spec. apply zip_with_fmap_same. Qed.
Lemma unit_response_spec {E} randoms (r rs : nat → Scalar) cx cy bits :
  ptp_bits (E := E) randoms = Ok bits → ptp_elements randoms = r <$> seq 0 (2 ^ bits) → in_u 64 (Z.of_nat bits) →
  unit_response (E := E) randoms (rs <$> seq 0 bits) cx cy =
    Ok (s_add (ssum (2 ^ bits) (λ j, s_mul (s_mul (r j) (spow cx bits)) (spow cy j)))
          (ssum bits (λ i, s_mul (rs i) (spow cx i)))).
Proof.
  intros Hb Hr Hu. unfold unit_response, ptp_len. rewrite Hb, Hr, ok_bind.
  rewrite scalar_power_spec, Nat2Z.id, ok_bind by done.
  rewrite !length_fmap, !length_seq, !zip_powers.
  rewrite (foldl_sum (λ rc, s_mul (s_mul rc.1 (spow cx bits)) rc.2)), (foldl_sum (λ rc, s_mul rc.1 rc.2)).
  by rewrite <-!list_fmap_compose, !s_add_zero.
Qed.

Definition z_factor (cx : Scalar) (j : list bool) (z : nat → ResponseRandomness) (k : nat) : Scalar :=
  if bit_at j k then resp_z (z k) else s_sub cx (resp_z (z k)).
Lemma powers_z_encs_spec {E} (z : nat → ResponseRandomness) cx i bits : Z.of_nat i < 2 ^ Z.of_nat bits →
  powers_z_encs (E := E) (z <$> seq 0 bits) cx i bits = Ok (nprod bits (z_factor cx (bits_of i bits) z)).
Proof.
  intros Hi. unfold powers_z_encs. rewrite binrep_spec by done. cbn [mbind outcome_bind].
  rewrite length_fmap, length_seq.
  assert (zip (seq 0 bits) (z <$> seq 0 bits) = (λ k, (k, z k)) <$> seq 0 bits) as ->.
  { unfold zip. rewrite <-(list_fmap_id (seq 0 bits)) at 1. apply (zip_with_fmap_same pair (λ k, k) z). }
  rewrite foldM_fmap. refine (foldM_range _ (λ n, nprod n (z_factor cx (bits_of i bits) z)) bits _).
  intros k Hk. cbn [fst snd]. destruct (lookup_lt_is_Some_2 (bits_of i bits) k) as [b Hb]; [by rewrite length_bits_of|].
  rewrite Hb. cbn [unwrap_opt mbind outcome_bind Nat.add]. rewrite nprod_S. unfold z_factor, bit_at.
  by rewrite nth_lookup, Hb.
Qed.
Lemma powers_z_take_spec {E} (z : nat → ResponseRandomness) cx bits n : Z.of_nat n ≤ 2 ^ Z.of_nat bits →
  powers_z_take (E := E) (z <$> seq 0 bits) cx bits n =
    Ok ((λ i, p_mul (s_neg (nprod bits (z_factor cx (bits_of i bits) z))) ge_generator) <$> seq 0 n).
Proof.
  intros Hn. unfold powers_z_take.
  refine (eq_trans _ (foldM_push (λ i, p ← powers_z_encs (E := E) (z <$> seq 0 bits) cx i bits; Ok (ge_mul ge_generator (scalar_negate p))) _ (seq 0 n) [] _)).
  - apply foldM_ext. intros acc i. by destruct (powers_z_encs _ _ _ _).
  - intros i Hi. apply elem_of_seq in Hi. rewrite powers_z_encs_spec by lia. done.
Qed.

(** ** The batched check *)
Lemma psum_halves bits (s : nat → Scalar) (c : nat → Ciphertext) pk (m r : nat → Scalar) :
  (∀ j, (j < bits)%nat → halves (c j) = comb ge_generator (key_base pk) (m j) (r j)) →
  p_add (psum bits (λ j, p_mul (s j) (e2 (c j)))) (psum bits (λ j, p_mul (s j) (e1 (c j))))
  = comb ge_generator (key_base pk) (ssum bits (λ j, s_mul (s j) (m j))) (ssum bits (λ j, s_mul (s j) (r j))).
Proof.
  intros Hc. rewrite psum_add, <-psum_comb. apply psum_ext. intros j Hj.
  rewrite <-p_mul_add_p. change (p_add (e2 (c j)) (e1 (c j))) with (halves (c j)). by rewrite Hc, comb_mul.
Qed.
Lemma psum_generator n (s t : nat → Scalar) pk :
  psum n (λ j, p_mul (s j) (p_mul (t j) ge_generator))
  = comb ge_generator (key_base pk) (ssum n (λ j, s_mul (s j) (t j))) s_zero.
Proof.
  rewrite <-(ssum_zero n (λ _, s_zero)) by done. rewrite <-psum_comb. apply psum_ext. intros j _.
  by rewrite <-p_mul_mul, (comb_mul_l ge_generator (key_base pk)).
Qed.
Lemma regroup a b c d e f g :
  p_add a (p_add b (p_add c (p_add d (p_add e (p_add f (p_add g p_identity))))))
  = p_add (p_add a b) (p_add c (p_add (p_add e d) (p_add g f))).
Proof. by rewrite p_add_0_r, (p_add_comm g f), (p_add_comm e d), !p_add_assoc. Qed.
Lemma forallb_zip_same {A B} (f : A * B → bool) (g : nat → A) (h : nat → B) n :
  (∀ k, (k < n)%nat → f (g k, h k) = true) → forallb f (zip (g <$> seq 0 n) (h <$> seq 0 n)) = true.
Proof.
  intros Hf. unfold zip. rewrite (zip_with_fmap_same pair g h). apply forallb_forall. intros x Hx.
  apply list_elem_of_In, list_elem_of_fmap in Hx as (k & -> & Hk). apply elem_of_seq in Hk. apply Hf. lia.
Qed.

(** What the ciphertexts, the encrypted coefficients and the responses must
    satisfy for the verifier to accept. *)
Lemma verify_statements_accepts {E} p pk h cts cx cy bc bits c m r (z : nat → ResponseRandomness) anns sm rs :
  in_u 64 (Z.of_nat bits) → ptp_bits (E := E) cts = Ok bits → ptp_elements cts = c <$> seq 0 (2 ^ bits) →
  (∀ j, (j < 2 ^ bits)%nat → halves (c j) = comb ge_generator (key_base pk) (m j) (r j)) →
  ds p = (λ i, encrypt_with_r pk (sm i) (rs i)) <$> seq 0 bits →
  zwvs p = z <$> seq 0 bits → ibas p = anns <$> seq 0 bits →
  (∀ k, (k < bits)%nat → bit_check h cx bc (z k) (anns k) = true) →
  s_add (ssum (2 ^ bits) (λ j, s_mul (spow cy j)
           (s_add (s_mul (spow cx bits) (m j)) (s_neg (nprod bits (z_factor cx (bits_of j bits) z))))))
        (ssum bits (λ i, s_mul (spow cx i) (sm i))) = s_zero →
  zkp_r p = s_add (ssum (2 ^ bits) (λ j, s_mul (s_mul (spow cy j) (spow cx bits)) (r j)))
        (ssum bits (λ i, s_mul (spow cx i) (rs i))) →
  verify_statements (E := E) p pk h cts cx cy bc = Ok true.
Proof.
  intros Hu Hb Hc Hh Hd Hz Ha Hbits Hg Hr. unfold verify_statements. rewrite Hb, ok_bind.
  rewrite scalar_power_spec, Nat2Z.id, ok_bind by done. unfold ptp_len. rewrite Hc, Hd, Hz, Ha.
  rewrite forallb_zip_same by done. cbn [negb]. rewrite length_fmap, length_seq, powers_z_take_spec, ok_bind.
  2: { by rewrite Nat2Z.inj_pow. }
  f_equal. apply bool_decide_true. unfold ge_multiscalar. rewrite p_multiscalar.
  2: { rewrite !exp_take_spec, !length_app, !length_fmap, !length_seq. done. }
  rewrite !exp_take_spec, <-!list_fmap_compose. rewrite !multi_block. cbn [zip_with foldr]. unfold compose.
  rewrite regroup, (psum_halves _ _ c pk m r Hh), psum_generator with (pk := pk).
  rewrite (psum_halves bits _ (λ i, encrypt_with_r pk (sm i) (rs i)) pk sm rs) by (intros; apply halves_encrypt).
  rewrite <-p_mul_add_p. change (p_add (e2 ?c) (e1 ?c)) with (halves c).
  rewrite halves_encrypt, comb_mul, !comb_add, Hr. unfold ge_zero. rewrite <-(comb_0 ge_generator (key_base pk)).
  f_equal; [|unfold scalar_negate; ring].
  rewrite (ssum_ext (2 ^ bits) _ (λ j, s_add (s_mul (s_mul (spow cy j) (spow cx bits)) (m j))
    (s_mul (spow cy j) (s_neg (nprod bits (z_factor cx (bits_of j bits) z)))))), ssum_add in Hg by (intros; ring).
  etransitivity; [|exact Hg]. unfold scalar_negate. ring.
Qed.

(** ** The equations hold of what the prover makes *)
Lemma value_upto r b x : (b < length r)%nat → (∀ m, (b < m)%nat → coeff r m = s_zero) →
  value r x = s_add (ssum b (λ i, s_mul (coeff r i) (spow x i))) (s_mul (coeff r b) (spow x b)).
Proof.
  intros Hl Ho. unfold value. replace (length r) with (S b + (length r - S b))%nat by lia.
  rewrite ssum_app, ssum_S, (ssum_zero (length r - S b)); [ring|].
  intros i Hi. rewrite Ho by lia. ring.
Qed.
Definition z_of (idx : list bool) (bs : list BlindingRandomness) (cx : Scalar) (k : nat) : ResponseRandomness :=
  gen_response (nth k bs no_blinding) cx (bit_at idx k).
Definition ann_of (ck : Point) (idx : list bool) (bs : list BlindingRandomness) (k : nat) : Announcement :=
  announce ck (bit_at idx k) (nth k bs no_blinding).
Lemma z_factor_lead idx bs cx j k :
  z_factor cx j (z_of idx bs cx) k = s_add (s_mul (lead idx j k) cx) (const bs j k).
Proof.
  unfold z_factor, z_of, lead, const, beta_at, s_bool. cbn [gen_response resp_z].
  destruct (bit_at j k), (bit_at idx k); cbn [eqb scalar_from_bool]; ring.
Qed.
Lemma index_value bits i j bs cx r :
  Z.of_nat i < 2 ^ Z.of_nat bits → Z.of_nat j < 2 ^ Z.of_nat bits →
  index_poly (bits_of i bits) (bits_of j bits) bs bits bits r →
  nprod bits (z_factor cx (bits_of j bits) (z_of (bits_of i bits) bs cx)) =
  s_add (ssum bits (λ k, s_mul (coeff r k) (spow cx k))) (s_mul (s_bool (j =? i)%nat) (spow cx bits)).
Proof.
  intros Hi Hj (Hl & Hc & Ho & Hv).
  rewrite (nprod_ext bits _ (λ k, s_add (s_mul (lead (bits_of i bits) (bits_of j bits) k) cx) (const bs (bits_of j bits) k)))
    by (intros; apply z_factor_lead).
  rewrite <-Hv, (value_upto r bits), Hc by done. f_equal. f_equal. unfold lead, bit_at.
  rewrite agree_product by apply length_bits_of. f_equal. case_bool_decide as Heq.
  - apply bits_of_inj in Heq as ->; [|done..]. symmetry. apply Nat.eqb_refl.
  - symmetry. apply Nat.eqb_neq. by intros ->.
Qed.
Lemma generator_equation bits i bs cx cy (g : nat → list Scalar) :
  Z.of_nat i < 2 ^ Z.of_nat bits →
  (∀ j, (j < 2 ^ bits)%nat → index_poly (bits_of i bits) (bits_of j bits) bs bits bits (g j)) →
  s_add (ssum (2 ^ bits) (λ j, s_mul (spow cy j)
           (s_add (s_mul (spow cx bits) (s_bool (j =? i)%nat))
              (s_neg (nprod bits (z_factor cx (bits_of j bits) (z_of (bits_of i bits) bs cx)))))))
        (ssum bits (λ k, s_mul (spow cx k) (ssum (2 ^ bits) (λ j, s_mul (spow cy j) (coeff (g j) k))))) = s_zero.
Proof.
  intros Hi Hg.
  rewrite (ssum_ext bits _ (λ k, ssum (2 ^ bits) (λ j, s_mul (spow cx k) (s_mul (spow cy j) (coeff (g j) k)))))
    by (intros; symmetry; apply ssum_mul_l).
  rewrite ssum_swap, <-ssum_add. apply ssum_zero. intros j Hj.
  rewrite (index_value bits i j bs cx (g j)); [|done|by rewrite <-(Nat2Z.inj_pow 2); lia|by apply Hg].
  rewrite (ssum_ext bits (λ k, s_mul (spow cx k) _) (λ k, s_mul (spow cy j) (s_mul (coeff (g j) k) (spow cx k))))
    by (intros; ring).
  rewrite ssum_mul_l. ring.
Qed.

(** ** The prover and the verifier together *)
Lemma generate_polys_spec {E} idx bits bs : length idx = bits → length bs = bits → (1 ≤ bits)%nat →
  ∃ g, generate_polys (E := E) (2 ^ bits) idx bits bs = Ok (g <$> seq 0 (2 ^ bits)) ∧
    ∀ j, (j < 2 ^ bits)%nat → index_poly idx (bits_of j bits) bs bits bits (g j).
Proof.
  intros Hi Hb Hbits. destruct (collect_polys (E := E) idx bs bits Hi Hb Hbits) as (polys & Hp & Hpo).
  assert (∀ j, (j < 2 ^ bits)%nat → Z.of_nat j < 2 ^ Z.of_nat bits) as Hr.
  { intros j Hj. rewrite <-(Nat2Z.inj_pow 2). lia. }
  exists (λ j, match generate_poly (E := E) bits polys j with Ok r => r | _ => [] end). split.
  - unfold generate_polys. rewrite Hp, ok_bind. apply (foldM_push (generate_poly (E := E) bits polys) _ _ []).
    intros j Hj. apply elem_of_seq in Hj.
    by destruct (generate_poly_spec (E := E) idx bs bits polys j Hpo Hbits (Hr j ltac:(lia))) as (r & -> & _).
  - intros j Hj. by destruct (generate_poly_spec (E := E) idx bs bits polys j Hpo Hbits (Hr j Hj)) as (r & -> & ?).
Qed.

Lemma log2_up_bounds size : (2 ≤ size)%nat →
  (1 ≤ Nat.log2_up size)%nat ∧ (size ≤ 2 ^ Nat.log2_up size)%nat ∧ (Nat.log2_up size ≤ size)%nat.
Proof.
  intros Hs. pose proof (Nat.log2_up_spec size ltac:(lia)). pose proof (Nat.log2_up_pos size ltac:(lia)).
  pose proof (Nat.log2_up_lt_lin size ltac:(lia)). lia.
Qed.
Lemma zip_with_as_seq {A B C} (f : A → B → C) la lb da db n : length la = n → length lb = n →
  zip_with f la lb = (λ k, f (nth k la da) (nth k lb db)) <$> seq 0 n.
Proof.
  intros Ha Hb. rewrite (list_as_seq da la), (list_as_seq db lb), Ha, Hb, zip_with_fmap_same at 1.
  apply seq_map_ext. intros i Hi. done.
Qed.

(** The halves of every ciphertext are those of an encryption of the vector. *)
Definition halves_ok (pk : Point) (i : nat) (rands : list Scalar) (cts : list Ciphertext) : Prop :=
  length rands = length cts ∧ ∀ j c r, cts !! j = Some c → rands !! j = Some r →
    halves c = halves (encrypt_with_r pk (s_bool (j =? i)%nat) r).

Lemma padded_halves pk i rands cts : (i < length cts)%nat → halves_ok pk i rands cts →
  ∀ j, halves (nth j (ptp_elements (ptp_new cts ciphertext_zero)) ciphertext_zero) =
    comb ge_generator (key_base pk) (s_bool (j =? i)%nat) (nth j (ptp_elements (ptp_new rands s_zero)) s_zero).
Proof.
  intros Hi [Hl Hh] j. rewrite !ptp_elements_eq. destruct (decide (j < length cts)%nat) as [Hj|Hj].
  - rewrite !app_nth1 by lia. destruct (lookup_lt_is_Some_2 cts j Hj) as [c Hc].
    destruct (lookup_lt_is_Some_2 rands j) as [r Hr]; [lia|].
    rewrite !nth_lookup, Hc, Hr. cbn [default from_option id]. by rewrite (Hh j c r Hc Hr), halves_encrypt.
  - rewrite !app_nth2, !nth_replicate by lia. rewrite (proj2 (Nat.eqb_neq _ _)) by lia. apply halves_zero.
Qed.

Lemma prover_accepted {E E'} rng crs pk i size rands cts :
  (2 ≤ size)%nat → (i < size)%nat → Z.of_nat size < 2 ^ 64 → length cts = size → halves_ok pk i rands cts →
  ∃ p rng', unit_generate (E := E) rng crs pk (mkUnitVector i size) rands cts = Ok (p, rng') ∧
    ∀ bc, unit_verify (E := E') p crs pk cts bc = Ok true.
Proof.
  intros Hs Hi Hu Hl Hh. pose proof (proj1 Hh) as Hlr. rewrite Hl in Hlr.
  destruct (log2_up_bounds size Hs) as (Hb1 & Hb2 & Hb3). set (bits := Nat.log2_up size) in *.
  assert (Z.of_nat i < 2 ^ Z.of_nat bits) as Hi2 by (rewrite <-(Nat2Z.inj_pow 2); lia).
  assert (in_u 64 (Z.of_nat bits)) as Hub by (unfold in_u; lia).
  pose proof (ptp_bits_eq (E := E) cts ciphertext_zero) as Bc. pose proof (ptp_bits_eq (E := E) rands s_zero) as Br.
  pose proof (ptp_bits_eq (E := E') cts ciphertext_zero) as Bc'.
  pose proof (ptp_len_eq cts ciphertext_zero) as Lc. pose proof (ptp_len_eq rands s_zero) as Lr.
  rewrite Hl in Bc, Bc', Lc. rewrite Hlr in Br, Lr. fold bits in Bc, Bc', Br, Lc, Lr.
  set (C := ptp_elements (ptp_new cts ciphertext_zero)) in *. set (R := ptp_elements (ptp_new rands s_zero)) in *.
  unfold ptp_len in Lc, Lr. fold C in Lc. fold R in Lr.
  pose proof (list_as_seq ciphertext_zero C) as Hc. pose proof (list_as_seq s_zero R) as Hr.
  rewrite Lc in Hc. rewrite Lr in Hr.
  set (idx := bits_of i bits). pose proof (length_bits_of i bits) as Hix. fold idx in Hix.
  unfold unit_generate. cbn [uv_ith].
  rewrite Bc, ok_bind, Br, ok_bind, Nat.eqb_refl. cbn [assert_that]. rewrite ok_bind, binrep_spec, ok_bind by done. fold idx.
  destruct (commit_bits_spec crs idx rng) as (bs & rng1 & -> & Hbs). rewrite Hix in Hbs.
  set (anns := zip_with (announce crs) idx bs). unfold unit_first_challenge. fold C.
  set (cy := hash_to_scalar _). unfold ptp_len. fold C. rewrite Lc.
  destruct (generate_polys_spec (E := E) idx bits bs Hix Hbs Hb1) as (g & -> & Hg). rewrite ok_bind.
  set (sm := λ k, ssum (2 ^ bits) (λ j, s_mul (spow cy j) (coeff (g j) k))).
  rewrite (encrypt_coefficients_spec pk cy _ bits rng1 sm).
  2: { intros k Hk. apply coefficient_sum_spec. intros j Hj. destruct (Hg j Hj) as [Hlen _]. lia. }
  rewrite ok_bind. unfold unit_second_challenge. set (cx := hash_to_scalar _).
  rewrite (unit_response_spec (ptp_new rands s_zero) (λ j, nth j R s_zero) rng1 cx cy bits) by done.
  rewrite ok_bind. eexists _, _. split; [done|]. intros bc.
  unfold unit_verify. rewrite Bc', ok_bind. cbn [ibas ds zwvs]. unfold unit_first_challenge, unit_second_challenge. fold C anns cy cx.
  assert (length anns = bits) as -> by (unfold anns; rewrite length_zip_with; lia).
  assert (length (zip_with (λ abcd index, gen_response abcd cx index) bs idx) = bits) as -> by (rewrite length_zip_with; lia).
  rewrite Nat.eqb_refl. cbn [negb].
  apply (verify_statements_accepts _ pk crs _ cx cy bc bits (λ j, nth j C ciphertext_zero)
    (λ j, s_bool (j =? i)%nat) (λ j, nth j R s_zero) (z_of idx bs cx) (ann_of crs idx bs) sm rng1); try done.
  - intros j _. apply padded_halves; [lia|done].
  - exact (zip_with_as_seq (λ b ix, gen_response b cx ix) bs idx no_blinding false bits Hbs Hix).
  - exact (zip_with_as_seq (announce crs) idx bs false no_blinding bits Hix Hbs).
  - intros k _. apply bit_check_honest.
  - by apply generator_equation.
  - cbn [zkp_r]. f_equal; apply ssum_ext; intros; ring.
Qed.
End complete.
