(* ===== verification/BabyStep.v ===== *)
(** * Discrete logarithms by baby and giant steps ([chain-vote/src/math/babystep.rs])

    The table of the first multiples of the generator and the search through
    it, over the Ristretto backend.  The step size is computed in 64-bit
    floats ([spec_float] with the IEEE operations of the standard library).
    The search of a point has no bound of its own: [fuel] counts its turns, and
    [bsgs_exact] gives the number that is enough.  The points are searched
    independently of one another, so the parallel iterator is a [mapM]. *)
From Stdlib Require Import SpecFloat Ring.
From stdpp Require Import gmap.
From S2P Require Import Prelude Codec Sum Group.
Local Open Scope Z_scope.

(** ** [f64]: square root, [ceil] and the saturating cast to [u64] *)
Definition float_of_u64 (v : Z) : spec_float := binary_normalize 53 1024 v 0 false.
Definition float_sqrt (f : spec_float) : spec_float := SFsqrt 53 1024 f.
Definition float_ceil (f : spec_float) : spec_float :=
  match f with
  | S754_finite s m e =>
      if 0 <=? e then f
      else binary_normalize 53 1024 (- (- cond_Zopp s (Zpos m) / 2 ^ (- e))) 0 s
  | _ => f
  end.
Definition float_to_u64 (f : spec_float) : Z :=
  match f with
  | S754_infinity false => 2 ^ 64 - 1
  | S754_finite false m e => Z.min (2 ^ 64 - 1) (if 0 <=? e then Zpos m * 2 ^ e else Zpos m / 2 ^ (- e))
  | _ => 0
  end.

Definition DEFAULT_BALANCE : Z := 2.

Section babystep.
Context `{Dalek}.

Record BabyStepsTable := mkTable { bs_table : gmap (list Z) Z; baby_step_size : Z; giant_step : Point }.

(** [for i in 0..=baby_step_size]: from [i], [n] turns. *)
Fixpoint fill_table (n : nat) (i : Z) (e : Point) (bs : gmap (list Z) Z) : gmap (list Z) Z :=
  match n with
  | O => bs
  | S n => fill_table n (i + 1) (ge_add e ge_generator) (<[ge_to_bytes e := i]> bs)
  end.
Definition sqrt_step_size (max_value : Z) : Z := float_to_u64 (float_ceil (float_sqrt (float_of_u64 max_value))).
Definition generate_with_balance {E} (max_value balance : Z) : outcome E BabyStepsTable :=
  let baby_step_size := wrap 64 (sqrt_step_size max_value * balance) in
  let bs := fill_table (S (Z.to_nat baby_step_size)) 0 ge_zero ∅ in
  assert_that (negb (bool_decide (bs = ∅)));;
  assert_that (0 <? baby_step_size);;
  Ok (mkTable bs baby_step_size (ge_mul ge_generator (scalar_negate (s_of_u64 baby_step_size)))).
Definition table_generate {E} (max_value : Z) : outcome E BabyStepsTable :=
  generate_with_balance max_value DEFAULT_BALANCE.

Inductive LogError := MaxLogExceeded.
(** The search of one point; nothing when the fuel runs out. *)
Fixpoint bsgs_loop (fuel : nat) (max_log : Z) (table : BabyStepsTable) (point : Point) (a : Z) :
    option (outcome LogError Z) :=
  match fuel with
  | O => None
  | S fuel =>
      match bs_table table !! ge_to_bytes point with
      | Some x => Some (Ok (wrap 64 (wrap 64 (a * baby_step_size table) + x)))
      | None =>
          if max_log <? wrap 64 (a * baby_step_size table) then Some (Err MaxLogExceeded)
          else bsgs_loop fuel max_log table (ge_add point (giant_step table)) (wrap 64 (a + 1))
      end
  end.
Definition baby_step_giant_step (fuel : nat) (points : list Point) (max_log : Z) (table : BabyStepsTable) :
    option (outcome LogError (list Z)) :=
  rs ← mapM (M := option) (λ point, bsgs_loop fuel max_log table point 0) points;
  Some (mapM (M := outcome LogError) (λ r, r) rs).
End babystep.

Section laws.
Context `{DalekLaws}.
Set Default Proof Using "Type*".
Implicit Types (x y : Scalar).
Add Ring scalar_ring_bs : s_ring_theory.

(** The multiple of the generator by a [u64]. *)
Definition multiple (v : Z) : Point := p_mul (s_of_u64 v) ge_generator.
Lemma multiple_0 : multiple 0 = ge_zero.
Proof. unfold multiple. by rewrite s_of_u64_0, p_mul_0. Qed.
Lemma multiple_add v w : 0 ≤ v → 0 ≤ w → v + w < 2 ^ 64 → multiple (v + w) = p_add (multiple v) (multiple w).
Proof. intros. unfold multiple. by rewrite s_of_u64_add, p_mul_add_s by done. Qed.
Lemma multiple_S v : 0 ≤ v → v + 1 < 2 ^ 64 → ge_add (multiple v) ge_generator = multiple (v + 1).
Proof. intros. rewrite multiple_add by lia. unfold multiple at 3. by rewrite s_of_u64_1, p_mul_1. Qed.
Lemma multiple_inj v w : in_u 64 v → in_u 64 w → multiple v = multiple w → v = w.
Proof. apply p_basepoint_order. Qed.
Lemma ge_to_bytes_inj a b : ge_to_bytes a = ge_to_bytes b → a = b.
Proof.
  intros Hab. apply (f_equal p_decompress) in Hab. unfold ge_to_bytes in Hab.
  rewrite !p_bytes_roundtrip in Hab. congruence.
Qed.

(** The table holds the multiples up to the step size, and nothing else. *)
Definition table_upto (bs : gmap (list Z) Z) (n : Z) : Prop :=
  ∀ v, in_u 64 v → bs !! ge_to_bytes (multiple v) = if v <? n then Some v else None.
Lemma fill_table_upto n i bs : 0 ≤ i → i + Z.of_nat n < 2 ^ 64 → table_upto bs i →
  table_upto (fill_table n i (multiple i) bs) (i + Z.of_nat n).
Proof.
  revert i bs. induction n as [|n IH]; intros i bs Hi Hn Hbs; cbn [fill_table]; [by rewrite Z.add_0_r|].
  rewrite multiple_S, Nat2Z.inj_succ by lia. replace (i + Z.succ (Z.of_nat n)) with (i + 1 + Z.of_nat n) by lia.
  apply IH; [lia..|]. intros v Hv. destruct (decide (v = i)) as [->|Hne].
  - rewrite lookup_insert_eq. by rewrite (proj2 (Z.ltb_lt _ _)) by lia.
  - rewrite lookup_insert_ne.
    2: { intros Heq. apply ge_to_bytes_inj, multiple_inj in Heq; [done|unfold in_u; lia|done]. }
    rewrite Hbs by done. destruct (Z.ltb_spec v i), (Z.ltb_spec v (i + 1)); try done; lia.
Qed.
Lemma fill_table_spec baby : 0 ≤ baby → baby + 1 < 2 ^ 64 →
  table_upto (fill_table (S (Z.to_nat baby)) 0 ge_zero ∅) (baby + 1).
Proof.
  intros Hb Hs. rewrite <-multiple_0. replace (baby + 1) with (0 + Z.of_nat (S (Z.to_nat baby))) by lia.
  apply fill_table_upto; [lia|lia|]. intros v Hv. rewrite lookup_empty.
  unfold in_u in Hv. by rewrite (proj2 (Z.ltb_ge _ _)) by lia.
Qed.

(** What [generate_with_balance] makes. *)
Definition table_ok (t : BabyStepsTable) : Prop :=
  0 < baby_step_size t ∧ table_upto (bs_table t) (baby_step_size t + 1) ∧
  giant_step t = p_neg (multiple (baby_step_size t)).
Lemma generate_ok {E} max_value balance t : generate_with_balance (E := E) max_value balance = Ok t →
  baby_step_size t + 1 < 2 ^ 64 → table_ok t.
Proof.
  unfold generate_with_balance. set (baby := wrap 64 _).
  destruct (negb _); cbn [assert_that mbind outcome_bind]; [|done].
  destruct (Z.ltb_spec 0 baby); cbn [assert_that mbind outcome_bind]; [|done].
  intros [= <-] Hs. cbn [baby_step_size bs_table giant_step] in *. split_and!; [done|refine (fill_table_spec baby _ Hs); lia|].
  unfold ge_mul, scalar_negate, multiple. apply p_mul_neg.
Qed.

Lemma giant_step_back v b : 0 ≤ b → b ≤ v → v < 2 ^ 64 → ge_add (multiple v) (p_neg (multiple b)) = multiple (v - b).
Proof.
  intros. replace v with ((v - b) + b) at 1 by lia. rewrite multiple_add by lia.
  apply (ge_add_sub (multiple (v - b)) (multiple b)).
Qed.

(** The search of a multiple of the generator: found on the turn of its
    quotient, refused when the turns reach beyond [max_log] first. *)
Lemma bsgs_loop_exact fuel max_log t v a :
  table_ok t → 0 ≤ max_log → max_log + baby_step_size t + 1 < 2 ^ 64 → in_u 64 v →
  0 ≤ a → a ≤ max_log / baby_step_size t + 1 → a * baby_step_size t ≤ v →
  max_log / baby_step_size t + 2 ≤ a + Z.of_nat fuel →
  bsgs_loop fuel max_log t (multiple (v - a * baby_step_size t)) a =
    Some (if v <=? (max_log / baby_step_size t + 2) * baby_step_size t then Ok v else Err MaxLogExceeded).
Proof.
  intros (Hb & Ht & Hg) Hm Hs Hv. set (b := baby_step_size t) in *. set (q := max_log / b).
  assert (q * b ≤ max_log < q * b + b) as Hq by (unfold q; pose proof (Z.div_mod max_log b ltac:(lia)); pose proof (Z.mod_pos_bound max_log b Hb); lia).
  revert a. induction fuel as [|fuel IH]; intros a Ha Haq Hav Hf; [lia|]. cbn [bsgs_loop].
  unfold in_u in Hv. assert (a * b ≤ q * b + b) as Hab by nia.
  rewrite Ht by (unfold in_u; lia). fold b.
  rewrite (wrap_small 64 (a * b)) by (unfold in_u; nia).
  destruct (Z.ltb_spec (v - a * b) (b + 1)) as [Hlt|Hge].
  - replace (a * b + (v - a * b)) with v by lia. rewrite wrap_small by done. rewrite (proj2 (Z.leb_le _ _)) by nia. done.
  - destruct (Z.ltb_spec max_log (a * b)) as [Hend|Hgo].
    + assert (a = q + 1) as -> by nia. rewrite (proj2 (Z.leb_gt _ _)) by nia. done.
    + assert (a ≤ q) as Haq2 by nia. rewrite wrap_small by (unfold in_u; nia).
      rewrite Hg, giant_step_back by lia. replace (v - a * b - b) with (v - (a + 1) * b) by lia.
      apply IH; nia.
Qed.

Lemma mapM_bsgs fuel max_log t vs (f : Z → outcome LogError Z) :
  (∀ v, v ∈ vs → bsgs_loop fuel max_log t (multiple v) 0 = Some (f v)) →
  baby_step_giant_step fuel (multiple <$> vs) max_log t = Some (mapM (M := outcome LogError) f vs).
Proof.
  intros Hf. unfold baby_step_giant_step.
  assert (mapM (M := option) (λ point, bsgs_loop fuel max_log t point 0) (multiple <$> vs) = Some (f <$> vs)) as ->.
  - induction vs as [|v vs IH]; [done|]. cbn [fmap list_fmap mapM]. rewrite Hf by left. cbn [mbind option_bind].
    rewrite IH by (intros; apply Hf; by right). done.
  - cbn [mbind option_bind]. f_equal. clear Hf. induction vs as [|v vs IH]; [done|].
    cbn [fmap list_fmap mapM]. by rewrite IH.
Qed.
Lemma mapM_exact (b : Z) vs :
  mapM (M := outcome LogError) (λ v, if v <=? b then Ok v else Err MaxLogExceeded) vs
  = if forallb (λ v, v <=? b) vs then Ok vs else Err MaxLogExceeded.
Proof.
  induction vs as [|v vs IH]; [done|]. cbn [mapM forallb]. rewrite IH.
  destruct (v <=? b), (forallb _ vs); done.
Qed.

Lemma reach_beyond max_log b : 0 < b → 0 ≤ max_log → max_log < (max_log / b + 2) * b.
Proof. intros Hb Hm. pose proof (Z.div_mod max_log b ltac:(lia)). pose proof (Z.mod_pos_bound max_log b Hb). lia. Qed.
Lemma bsgs_points fuel max_log t vs :
  table_ok t → 0 ≤ max_log → max_log + baby_step_size t + 1 < 2 ^ 64 → Forall (in_u 64) vs →
  max_log / baby_step_size t + 2 ≤ Z.of_nat fuel →
  baby_step_giant_step fuel (multiple <$> vs) max_log t =
    Some (if forallb (λ v, v <=? (max_log / baby_step_size t + 2) * baby_step_size t) vs then Ok vs else Err MaxLogExceeded).
Proof.
  intros Ht Hm Hs Hvs Hf. pose proof (proj1 Ht) as Hb.
  rewrite <-mapM_exact. apply mapM_bsgs. intros v Hv. rewrite Forall_forall in Hvs. specialize (Hvs v Hv).
  assert (0 ≤ max_log / baby_step_size t) by (apply Z.div_pos; lia). unfold in_u in Hvs.
  rewrite <-(Z.sub_0_r v) at 1. apply (bsgs_loop_exact fuel max_log t v 0); try done; lia.
Qed.
Lemma bsgs_within fuel max_log t vs :
  table_ok t → 0 ≤ max_log → max_log + baby_step_size t + 1 < 2 ^ 64 → Forall (λ v, 0 ≤ v ≤ max_log) vs →
  max_log / baby_step_size t + 2 ≤ Z.of_nat fuel →
  baby_step_giant_step fuel (multiple <$> vs) max_log t = Some (Ok vs).
Proof.
  intros Ht Hm Hs Hvs Hf. pose proof (proj1 Ht) as Hb. rewrite bsgs_points; try done.
  - assert (forallb (λ v, v <=? (max_log / baby_step_size t + 2) * baby_step_size t) vs = true) as ->; [|done].
    apply forallb_forall. intros v Hv%list_elem_of_In. rewrite Forall_forall in Hvs. specialize (Hvs v Hv).
    pose proof (reach_beyond max_log _ Hb Hm). apply Z.leb_le. lia.
  - eapply Forall_impl; [exact Hvs|]. intros v Hv. unfold in_u. cbn in *. lia.
Qed.

(** C23. The search for discrete logarithms is exact, and it ends: on multiples
    of the generator by 64-bit integers, with a table made by
    [generate_with_balance], [max_log / baby_step_size + 2] turns are enough,
    and the result is the list of the integers in order, or [MaxLogExceeded]
    when one of them is beyond the reach of these turns (which is further than
    [max_log], so no integer up to [max_log] is refused). *)
Theorem bsgs_exact {E} fuel max_value balance max_log t vs :
  generate_with_balance (E := E) max_value balance = Ok t →
  0 ≤ max_log → max_log + baby_step_size t + 1 < 2 ^ 64 →
  Forall (in_u 64) vs →
  max_log / baby_step_size t + 2 ≤ Z.of_nat fuel →
  let reach := (max_log / baby_step_size t + 2) * baby_step_size t in
  max_log < reach ∧
  baby_step_giant_step fuel (multiple <$> vs) max_log t =
    Some (if forallb (λ v, v <=? reach) vs then Ok vs else Err MaxLogExceeded).
Proof.
  intros Ht Hm Hs Hvs Hf reach. apply generate_ok in Ht; [|lia].
  split; [by apply reach_beyond; [apply Ht|]|by apply bsgs_points].
Qed.

(** The table of no values is refused: its step would be zero. *)
Lemma generate_zero {E} balance : generate_with_balance (E := E) 0 balance = Panic.
Proof.
  unfold generate_with_balance. change (sqrt_step_size 0) with 0. rewrite Z.mul_0_l.
  change (wrap 64 0) with 0. cbn [Z.ltb Z.compare]. by destruct (negb _).
Qed.
End laws.

Example sqrt_step_size_examples :
  sqrt_step_size <$> [1; 2; 20; 25; 26; 1000000; 2 ^ 64 - 1] = [1; 2; 5; 5; 6; 1000; 2 ^ 32].
Proof. vm_compute. reflexivity. Qed.

(** A table of the step size 5, and three integers up to 20. *)
Definition table_20 : @BabyStepsTable zp_dalek :=
  mkTable (fill_table 6 0 ge_zero ∅) 5 (ge_mul ge_generator (scalar_negate (s_of_u64 5))).
Lemma table_20_ok : generate_with_balance (E := unit) 20 1 = Ok table_20.
Proof.
  unfold generate_with_balance. change (wrap 64 (sqrt_step_size 20 * 1)) with 5.
  assert (bool_decide (@fill_table zp_dalek (S (Z.to_nat 5)) 0 (@ge_zero zp_dalek) ∅ = ∅) = false) as -> by (vm_compute; reflexivity).
  reflexivity.
Qed.
Lemma bsgs_exact_witness :
  baby_step_giant_step 6 (@multiple zp_dalek <$> [0; 7; 20]) 20 table_20 = Some (Ok [0; 7; 20]).
Proof.
  refine (proj2 (@bsgs_exact zp_dalek zp_dalek_laws unit 6 20 1 20 table_20 [0; 7; 20] table_20_ok _ _ _ _));
    [done|done| |done].
  repeat (apply Forall_cons; split; [done|]). by apply Forall_nil.
Defined.
