(* ===== verification/Tally.v ===== *)
(** * Ballots and the tally ([chain-vote/src/tally.rs], [encrypted_vote.rs],
    [committee.rs], [chain-vote/src/cryptography/zkps/])

    A ballot is an encrypted vote whose proof was checked against the election
    key and the common reference string; the tally adds ballots with their
    weights; each committee member turns it into a proven share; the validated
    shares decrypt it to points, whose logarithms are the result.  A
    fingerprint of the key and the reference string ties a ballot to its
    tally.  A [TallyDecryptShare] is the list of its elements and a [Tally] the
    list of its votes. *)
From Stdlib Require Import Ring.
From S2P Require Import Prelude Codec Sum Group ElGamal UnitVector BabyStep.
Local Open Scope Z_scope.

(** [slice::chunks]: the last one may be shorter. *)
Fixpoint chunks_fuel {A} (fuel n : nat) (l : list A) : list (list A) :=
  match fuel, l with
  | S fuel, _ :: _ => take n l :: chunks_fuel fuel n (drop n l)
  | _, _ => []
  end.
Definition chunks {A} (n : nat) (l : list A) : list (list A) := chunks_fuel (length l) n l.
(** [collect::<Option<Vec<_>>>]: stops at the first [None]. *)
Fixpoint collect_options {E A B} (f : A → outcome E (option B)) (l : list A) : outcome E (option (list B)) :=
  match l with
  | [] => Ok (Some [])
  | a :: l =>
      b ← f a;
      match b with
      | None => Ok None
      | Some b => bs ← collect_options f l; Ok (bs ← bs; Some (b :: bs))
      end
  end.

Section tally.
Context `{Dalek}.

(** ** [dl_equality]: the same proof as that of [Vrf], drawing its randomness *)
Definition dl_context_new (base_1 base_2 point_1 point_2 : Point) : list Z :=
  ge_to_bytes base_1 ++ ge_to_bytes base_2 ++ ge_to_bytes point_1 ++ ge_to_bytes point_2.
Definition dl_first_challenge (ctx : list Z) (a1 a2 : Point) : Scalar :=
  hash_to_scalar (ctx ++ ge_to_bytes a1 ++ ge_to_bytes a2).
Record DlZkp := mkDl { dl_challenge : Scalar; dl_response : Scalar }.
Definition DL_BYTES_LEN : nat := 2 * SCALAR_BYTES_LEN.
Definition dl_generate (base_1 base_2 point_1 point_2 : Point) (dlog : Scalar) (rng : Rng) : DlZkp * Rng :=
  let '(w, rng) := random rng in
  let announcement_1 := ge_mul base_1 w in
  let announcement_2 := ge_mul base_2 w in
  let challenge_context := dl_context_new base_1 base_2 point_1 point_2 in
  let challenge := dl_first_challenge challenge_context announcement_1 announcement_2 in
  let response := s_add (s_mul dlog challenge) w in
  (mkDl challenge response, rng).
Definition dl_verify (p : DlZkp) (base_1 base_2 point_1 point_2 : Point) : bool :=
  let r1 := ge_mul base_1 (dl_response p) in
  let r2 := ge_mul base_2 (dl_response p) in
  let announcement_1 := ge_sub r1 (ge_mul point_1 (dl_challenge p)) in
  let announcement_2 := ge_sub r2 (ge_mul point_2 (dl_challenge p)) in
  let challenge_context := dl_context_new base_1 base_2 point_1 point_2 in
  let challenge := dl_first_challenge challenge_context announcement_1 announcement_2 in
  bool_decide (challenge = dl_challenge p).
Definition dl_write_to_bytes {E} (p : DlZkp) (output : list Z) : outcome E (list Z) :=
  assert_that (length output =? DL_BYTES_LEN)%nat;;
  output ← write_range output 0 SCALAR_BYTES_LEN (s_to_bytes (dl_challenge p));
  write_range output SCALAR_BYTES_LEN (length output) (s_to_bytes (dl_response p)).
Definition dl_to_bytes {E} (p : DlZkp) : outcome E (list Z) := dl_write_to_bytes p (replicate DL_BYTES_LEN 0).
Definition dl_from_bytes {E} (slice : list Z) : outcome E (option DlZkp) :=
  if negb (length slice =? DL_BYTES_LEN)%nat then Ok None
  else
    s1 ← slice_range slice 0 SCALAR_BYTES_LEN;
    s2 ← slice_from slice SCALAR_BYTES_LEN;
    Ok (challenge ← scalar_from_bytes s1; response ← scalar_from_bytes s2; Some (mkDl challenge response)).

(** ** The proofs of decryption: wrappers of [DlZkp] *)
Definition share_zkp_generate (c : Ciphertext) (pk share : Point) (sk : Scalar) (rng : Rng) : DlZkp * Rng :=
  dl_generate ge_generator (e1 c) pk share sk rng.
Definition share_zkp_verify (z : DlZkp) (c : Ciphertext) (share pk : Point) : bool :=
  dl_verify z ge_generator (e1 c) pk share.
Definition share_zkp_to_bytes {E} (z : DlZkp) : outcome E (list Z) := dl_to_bytes z.
Definition share_zkp_write {E} (z : DlZkp) (output : list Z) : outcome E (list Z) :=
  assert_that (length output =? DL_BYTES_LEN)%nat;; dl_write_to_bytes z output.
Definition share_zkp_from_bytes {E} (slice : list Z) : outcome E (option DlZkp) :=
  if negb (length slice =? DL_BYTES_LEN)%nat then Ok None else dl_from_bytes slice.

Definition hybrid_zkp_generate (c : HybridCiphertext) (pk symmetric_key : Point) (sk : Scalar) (rng : Rng) : DlZkp * Rng :=
  dl_generate ge_generator (h_e1 c) pk symmetric_key sk rng.
Definition hybrid_zkp_verify (z : DlZkp) (c : HybridCiphertext) (symmetric_key pk : Point) : bool :=
  dl_verify z ge_generator (h_e1 c) pk symmetric_key.
Definition hybrid_zkp_write {E} (z : DlZkp) (output : list Z) : outcome E (list Z) :=
  assert_that (length output =? DL_BYTES_LEN)%nat;; dl_write_to_bytes z output.
Definition hybrid_zkp_to_bytes {E} (z : DlZkp) : outcome E (list Z) := hybrid_zkp_write z (replicate DL_BYTES_LEN 0).
Definition hybrid_zkp_from_bytes {E} (slice : list Z) : outcome E (option DlZkp) :=
  if negb (length slice =? DL_BYTES_LEN)%nat then Ok None else dl_from_bytes slice.

Definition decr_zkp_generate (c : Ciphertext) (pk message : Point) (sk : Scalar) (rng : Rng) : DlZkp * Rng :=
  let point_2 := ge_sub (e2 c) message in dl_generate ge_generator (e1 c) pk point_2 sk rng.
Definition decr_zkp_verify (z : DlZkp) (c : Ciphertext) (m pk : Point) : bool :=
  let point_2 := ge_sub (e2 c) m in dl_verify z ge_generator (e1 c) pk point_2.
Definition decr_zkp_write {E} (z : DlZkp) (output : list Z) : outcome E (list Z) :=
  assert_that (length output =? DL_BYTES_LEN)%nat;; dl_write_to_bytes z output.
Definition decr_zkp_to_bytes {E} (z : DlZkp) : outcome E (list Z) := decr_zkp_write z (replicate DL_BYTES_LEN 0).
Definition decr_zkp_from_bytes {E} (slice : list Z) : outcome E (option DlZkp) :=
  if negb (length slice =? DL_BYTES_LEN)%nat then Ok None else dl_from_bytes slice.

(** ** Votes and ballots *)
(** [vec![x; n]] clones one draw. *)
Definition encrypt_and_prove_vote {E} (pk : Point) (rng : Rng) (crs : Point) (vote : UnitVector) :
    outcome E (list Ciphertext * UnitZkp * Rng) :=
  let '(r, rng) := random rng in
  let encryption_randomness := replicate (unit_vector_len vote) r in
  let ciphertexts := zip_with (λ r v, encrypt_with_r pk (scalar_from_bool v) r) encryption_randomness (unit_vector_iter vote) in
  '(proof, rng) ← unit_generate rng crs pk vote encryption_randomness ciphertexts;
  Ok (ciphertexts, proof, rng).

Definition FINGERPRINT_LEN : nat := 32.
Definition election_fingerprint (election_pk crs : Point) : list Z :=
  blake2b 32 (ge_to_bytes crs ++ ge_to_bytes election_pk).
Record Ballot := mkBallot { ballot_vote : list Ciphertext; ballot_fingerprint : list Z }.
Inductive BallotVerificationError := InvalidVoteProof.
Definition try_from_vote_and_proof (vote : list Ciphertext) (proof : UnitZkp) (crs pk : Point) (batch_challenge : Scalar) :
    outcome BallotVerificationError Ballot :=
  ok ← unit_verify proof crs pk vote batch_challenge;
  if negb ok then Err InvalidVoteProof else Ok (mkBallot vote (election_fingerprint pk crs)).

(** ** The encrypted tally *)
Record ProvenDecryptShare := mkShare { r1 : Point; pi : DlZkp }.
Definition TallyDecryptShare : Type := list ProvenDecryptShare.
Record EncryptedTally := mkTally { et_r : list Ciphertext; et_fingerprint : list Z }.
Record ValidatedTally := mkValidated { vt_r : list Ciphertext; decrypt_shares : list TallyDecryptShare }.
Inductive DecryptionError := IncorrectShares.
Inductive TallyError := InvalidTallyData.

Definition encrypted_tally_new (options : nat) (election_pk crs : Point) : EncryptedTally :=
  mkTally (replicate options ciphertext_zero) (election_fingerprint election_pk crs).
Definition encrypted_tally_add {E} (t : EncryptedTally) (ballot : Ballot) (weight : Z) : outcome E EncryptedTally :=
  assert_that (length (ballot_vote ballot) =? length (et_r t))%nat;;
  assert_that (bool_decide (ballot_fingerprint ballot = et_fingerprint t));;
  r ← mapM (M := outcome E) (λ rc, c ← ciphertext_mul_u64 rc.2 weight; Ok (ciphertext_add rc.1 c))
        (zip (et_r t) (ballot_vote ballot));
  Ok (mkTally r (et_fingerprint t)).
Definition partial_decrypt (t : EncryptedTally) (sk : Scalar) (rng : Rng) : TallyDecryptShare * Rng :=
  foldl (λ '(dshares, rng) r,
      let decrypted_share := ge_mul (e1 r) sk in
      let '(proof, rng) := share_zkp_generate r (member_secret_to_public sk) decrypted_share sk rng in
      (dshares ++ [mkShare decrypted_share proof], rng)) ([], rng) (et_r t).
Definition share_verify (share : TallyDecryptShare) (t : EncryptedTally) (pk : Point) : bool :=
  if negb (length share =? length (et_r t))%nat then false
  else forallb (λ er, share_zkp_verify (pi er.1) er.2 (r1 er.1) pk) (zip share (et_r t)).
Definition validate_partial_decryptions (t : EncryptedTally) (pks : list Point) (shares : list TallyDecryptShare) :
    outcome DecryptionError ValidatedTally :=
  if forallb (λ ps, share_verify ps.2 t ps.1) (zip pks shares) then Ok (mkValidated (et_r t) shares)
  else Err IncorrectShares.
Definition tally_to_bytes (t : EncryptedTally) : list Z :=
  et_fingerprint t ++ concat (ciphertext_to_bytes <$> et_r t).
(** The subtraction of lengths wraps on a shorter slice. *)
Definition tally_from_bytes {E} (bytes : list Z) : outcome E (option EncryptedTally) :=
  if negb (wrap 64 (Z.of_nat (length bytes) - Z.of_nat FINGERPRINT_LEN) `mod` Z.of_nat CIPHERTEXT_BYTES_LEN =? 0) then Ok None
  else
    fingerprint ← slice_range bytes 0 FINGERPRINT_LEN;
    rest ← slice_from bytes FINGERPRINT_LEN;
    r ← collect_options ciphertext_from_bytes (chunks CIPHERTEXT_BYTES_LEN rest);
    Ok (r ← r; Some (mkTally r fingerprint)).
Definition encrypted_tally_plus {E} (a b : EncryptedTally) : outcome E EncryptedTally :=
  assert_that (length (et_r a) =? length (et_r b))%nat;;
  Ok (mkTally (zip_with ciphertext_add (et_r a) (et_r b)) (et_fingerprint a)).

(** ** Shares *)
Definition PROVEN_SHARE_SIZE : nat := DL_BYTES_LEN + GE_BYTES_LEN.
Definition proven_share_from_bytes {E} (bytes : list Z) : outcome E (option ProvenDecryptShare) :=
  if negb (length bytes =? PROVEN_SHARE_SIZE)%nat then Ok None
  else
    s ← slice_range bytes 0 GE_BYTES_LEN; r1 ← ge_from_bytes s;
    match r1 with
    | None => Ok None
    | Some r1 =>
        s ← slice_from bytes GE_BYTES_LEN; proof ← share_zkp_from_bytes s;
        Ok (proof ← proof; Some (mkShare r1 proof))
    end.
Definition proven_share_to_bytes {E} (s : ProvenDecryptShare) : outcome E (list Z) :=
  output ← write_range (replicate PROVEN_SHARE_SIZE 0) 0 GE_BYTES_LEN (ge_to_bytes (r1 s));
  z ← share_zkp_to_bytes (pi s);
  write_range output GE_BYTES_LEN (length output) z.
Definition share_options (s : TallyDecryptShare) : nat := length s.
Definition share_bytes_len {E} (options : Z) : outcome E Z :=
  let n := Z.of_nat (DL_BYTES_LEN + GE_BYTES_LEN) * options in
  if decide (in_u 64 n) then Ok n else Panic.
Definition tally_share_to_bytes {E} (s : TallyDecryptShare) : outcome E (list Z) :=
  foldM (λ out element, b ← proven_share_to_bytes element; Ok (out ++ b)) [] s.
Definition tally_share_from_bytes {E} (bytes : list Z) : outcome E (option TallyDecryptShare) :=
  if negb (length bytes mod PROVEN_SHARE_SIZE =? 0)%nat then Ok None
  else collect_options proven_share_from_bytes (chunks PROVEN_SHARE_SIZE bytes).

(** ** The result *)
(** [ds.elements[i]] panics on a share of fewer options. *)
Definition tally_decrypt {E} (v : ValidatedTally) : outcome E (list Point) :=
  mapM (M := outcome E) (λ ic,
      ris ← mapM (M := outcome E) (λ ds : TallyDecryptShare, el ← unwrap_opt (ds !! ic.1); Ok (r1 el)) (decrypt_shares v);
      Ok (ge_sub (e2 ic.2) (ge_sum ris))) (zip (seq 0 (length (vt_r v))) (vt_r v)).
Definition decrypt_tally (fuel : nat) (v : ValidatedTally) (max_votes : Z) (table : BabyStepsTable) :
    option (outcome TallyError (list Z)) :=
  match tally_decrypt (E := TallyError) v with
  | Ok r_results =>
      votes ← baby_step_giant_step fuel r_results max_votes table;
      Some (match votes with Ok votes => Ok votes | Err _ => Err InvalidTallyData | Panic => Panic end)
  | Err e => Some (Err e)
  | Panic => Some Panic
  end.
Fixpoint verify_votes {E} (i : nat) (votes : list Z) (r_results : list Point) : outcome E bool :=
  match votes with
  | [] => Ok true
  | w :: votes =>
      p ← ge_mul_u64 ge_generator w;
      r ← unwrap_opt (r_results !! i);
      if bool_decide (p ≠ r) then Ok false else verify_votes (S i) votes r_results
  end.
Definition tally_verify {E} (votes : list Z) (t : EncryptedTally) (pks : list Point) (shares : list TallyDecryptShare) :
    outcome E bool :=
  match validate_partial_decryptions t pks shares with
  | Ok validated => r_results ← tally_decrypt validated; verify_votes 0 votes r_results
  | Err _ => Ok false
  | Panic => Panic
  end.
End tally.
