(* ===== verification/TallyTheorems.v ===== *)
(** * The election, end to end ([chain-vote/src/tally.rs])

    Honest ciphertexts, the state of the tally (each entry an encryption of the
    count of its option), the shares of the members and what they decrypt to;
    then the theorems on elections, and on what a dishonest party can do. *)
From Stdlib Require Import Ring.
From S2P Require Import Prelude Codec Sum Group Vrf ElGamal UnitVector UnitComplete BabyStep Tally.
Local Open Scope Z_scope.

Lemma unit_vector_collect_spec fuel k n i : (k + fuel = S n)%nat →
  unit_vector_collect fuel (k, mkUnitVector i n) = (λ j, (j =? i)%nat) <$> seq k (fuel - 1).
Proof.
  revert k. induction fuel as [|fuel IH]; intros k Hk; [done|]. cbn [unit_vector_collect unit_vector_next uv_size uv_ith].
  destruct (Nat.eqb_spec k n) as [->|Hne].
  - by replace (S fuel - 1)%nat with 0%nat by lia.
  - rewrite IH by lia. replace (S fuel - 1)%nat with (S (fuel - 1)) by lia. done.
Qed.
Lemma unit_vector_iter_spec i n : unit_vector_iter (mkUnitVector i n) = (λ j, (j =? i)%nat) <$> seq 0 n.
Proof. unfold unit_vector_iter. cbn [uv_size]. rewrite unit_vector_collect_spec by lia. f_equal. f_equal. lia. Qed.

Section spec.
Context `{DalekLaws}.
Set Default Proof Using "Type*".
Implicit Types (x y : Scalar).
Add Ring scalar_ring_ts : s_ring_theory.

(** ** Honest ballots *)
Definition honest_ciphertexts (pk : Point) (r : Scalar) (i n : nat) : list Ciphertext :=
  (λ j, encrypt_with_r pk (s_bool (j =? i)%nat) r) <$> seq 0 n.

Lemma replicate_as_seq {A} (a : A) n : replicate n a = (λ _, a) <$> seq 0 n.
Proof. rewrite (list_as_seq a (replicate n a)), length_replicate. apply seq_map_ext. intros. by rewrite nth_replicate. Qed.
Lemma honest_halves pk r i n : halves_ok pk i (replicate n r) (honest_ciphertexts pk r i n).
Proof.
  split; [unfold honest_ciphertexts; by rewrite length_replicate, length_fmap, length_seq|].
  intros j c r' Hc Hr. apply lookup_replicate in Hr as [-> Hj]. unfold honest_ciphertexts in Hc.
  rewrite list_lookup_fmap, lookup_seq_lt in Hc by done. cbn in Hc. congruence.
Qed.
Lemma encrypt_and_prove_spec {E} pk rng crs i n :
  (2 ≤ n)%nat → (i < n)%nat → Z.of_nat n < 2 ^ 64 →
  ∃ proof rng', encrypt_and_prove_vote (E := E) pk rng crs (mkUnitVector i n)
      = Ok (honest_ciphertexts pk (rng 0%nat) i n, proof, rng') ∧
    ∀ bc, try_from_vote_and_proof (honest_ciphertexts pk (rng 0%nat) i n) proof crs pk bc
      = Ok (mkBallot (honest_ciphertexts pk (rng 0%nat) i n) (election_fingerprint pk crs)).
Proof.
  intros Hn Hi Hu. set (cts := honest_ciphertexts pk (rng 0%nat) i n).
  assert (length cts = n) as Hl by (unfold cts, honest_ciphertexts; by rewrite length_fmap, length_seq).
  destruct (prover_accepted (E := E) (E' := BallotVerificationError) (λ k, rng (S k)) crs pk i n (replicate n (rng 0%nat)) cts
    Hn Hi Hu Hl (honest_halves pk (rng 0%nat) i n)) as (p & rng' & Hp & Hv).
  exists p, rng'. unfold encrypt_and_prove_vote, random, unit_vector_len. cbn [uv_size].
  rewrite unit_vector_iter_spec, replicate_as_seq, zip_with_fmap_same, <-replicate_as_seq.
  change ((λ a, encrypt_with_r pk (scalar_from_bool (a =? i)%nat) (rng 0%nat)) <$> seq 0 n) with cts.
  rewrite Hp. split; [done|]. intros bc. unfold try_from_vote_and_proof. by rewrite Hv.
Qed.

(** ** The tally *)
(** An encryption of the multiple of the generator by [count]. *)
Definition count_ciphertext (pk : Point) (rho : Scalar) (count : Z) : Ciphertext :=
  mkCiphertext (p_mul rho ge_generator) (p_add (multiple count) (p_mul rho pk)).
Definition tally_of (pk crs : Point) (options : nat) (counts : nat → Z) (t : EncryptedTally) : Prop :=
  et_fingerprint t = election_fingerprint pk crs ∧
  ∃ rho, et_r t = (λ j, count_ciphertext pk (rho j) (counts j)) <$> seq 0 options.

Lemma tally_new_of pk crs options : tally_of pk crs options (λ _, 0) (encrypted_tally_new options pk crs).
Proof.
  split; [done|]. exists (λ _, s_zero). cbn [encrypted_tally_new et_r]. rewrite replicate_as_seq.
  apply seq_map_ext. intros j _. unfold count_ciphertext. by rewrite multiple_0, !p_mul_0, p_add_0.
Qed.

Lemma multiple_weight b w : in_u 64 w → p_mul (s_of_u64 w) (p_mul (s_bool b) ge_generator) = multiple (if b then w else 0).
Proof.
  intros Hw. unfold s_bool, multiple. destruct b; cbn [scalar_from_bool]; [by rewrite p_mul_1|].
  by rewrite s_of_u64_0, !p_mul_0, p_mul_identity.
Qed.
Lemma add_weighted pk rho c r (b : bool) (w : Z) : 0 ≤ c → in_u 64 w → c + (if b then w else 0) < 2 ^ 64 →
  ∀ E, (c' ← ciphertext_mul_u64 (E := E) (encrypt_with_r pk (s_bool b) r) w; Ok (ciphertext_add (count_ciphertext pk rho c) c'))
  = Ok (count_ciphertext pk (s_add rho (s_mul (s_of_u64 w) r)) (c + if b then w else 0)).
Proof.
  intros Hc Hw Hs E. unfold ciphertext_mul_u64. rewrite !ge_mul_u64_spec by done. cbn [mbind outcome_bind].
  unfold encrypt_with_r, encrypt_point_with_r, ciphertext_add, count_ciphertext, ge_add, ge_mul. cbn [e1 e2].
  rewrite p_mul_add_p, multiple_weight by done. unfold in_u in Hw.
  rewrite multiple_add, p_add_swap, !p_mul_add_s, !p_mul_mul by (destruct b; lia). done.
Qed.

Lemma mapM_seq {E B} (f : nat → outcome E B) (g : nat → B) l :
  (∀ i, i ∈ l → f i = Ok (g i)) → mapM (M := outcome E) f l = Ok (g <$> l).
Proof.
  intros Hf. induction l as [|i l IH]; [done|]. cbn [mapM fmap list_fmap]. rewrite Hf by left.
  cbn [mbind outcome_bind]. rewrite IH by (intros; apply Hf; by right). done.
Qed.
Lemma mapM_fmap {E A B C} (f : B → outcome E C) (g : A → B) l :
  mapM (M := outcome E) f (g <$> l) = mapM (M := outcome E) (λ a, f (g a)) l.
Proof. induction l as [|a l IH]; [done|]. cbn [fmap list_fmap mapM]. by rewrite IH. Qed.

Lemma tally_add_of {E} pk crs options counts t i r w :
  tally_of pk crs options counts t → in_u 64 w →
  (∀ j, (j < options)%nat → 0 ≤ counts j ∧ counts j + w < 2 ^ 64) →
  ∃ t', encrypted_tally_add (E := E) t (mkBallot (honest_ciphertexts pk r i options) (election_fingerprint pk crs)) w = Ok t' ∧
    tally_of pk crs options (λ j, counts j + if (j =? i)%nat then w else 0) t'.
Proof.
  intros [Hf [rho Hr]] Hw Hc. unfold encrypted_tally_add. cbn [ballot_vote ballot_fingerprint].
  rewrite Hr, Hf. unfold honest_ciphertexts. rewrite !length_fmap, Nat.eqb_refl, bool_decide_true by done.
  cbn [assert_that mbind outcome_bind]. unfold zip.
  rewrite (zip_with_fmap_same pair (λ j, count_ciphertext pk (rho j) (counts j)) (λ j, encrypt_with_r pk (s_bool (j =? i)%nat) r)), mapM_fmap.
  rewrite (mapM_seq _ (λ j, count_ciphertext pk (s_add (rho j) (s_mul (s_of_u64 w) r)) (counts j + if (j =? i)%nat then w else 0))).
  - eexists. split; [done|]. split; [done|]. by exists (λ j, s_add (rho j) (s_mul (s_of_u64 w) r)).
  - intros j Hj. apply elem_of_seq in Hj. cbn [fst snd]. destruct (Hc j) as [H1 H2]; [lia|]. unfold in_u in Hw.
    apply add_weighted; [done..|]. destruct (j =? i)%nat; lia.
Qed.

(** ** Casting the votes *)
Record CastVote := mkCast { cv_option : nat; cv_weight : Z; cv_rng : Rng; cv_challenge : Scalar }.
Definition cast (ek crs : Point) (options : nat) (v : CastVote) : outcome BallotVerificationError Ballot :=
  vote ← unit_vector_new options (cv_option v);
  '(ciphertexts, proof, _) ← encrypt_and_prove_vote ek (cv_rng v) crs vote;
  try_from_vote_and_proof ciphertexts proof crs ek (cv_challenge v).
Definition run_votes (ek crs : Point) (options : nat) (votes : list CastVote) : outcome BallotVerificationError EncryptedTally :=
  foldM (λ t v, ballot ← cast ek crs options v; encrypted_tally_add t ballot (cv_weight v))
    (encrypted_tally_new options ek crs) votes.
(** The weight given to an option. *)
Definition count_for (j : nat) (votes : list CastVote) : Z :=
  Zsum ((λ v, if (j =? cv_option v)%nat then cv_weight v else 0) <$> votes).
Definition votes_ok (options : nat) (votes : list CastVote) : Prop :=
  Forall (λ v, (cv_option v < options)%nat ∧ in_u 64 (cv_weight v)) votes.

Lemma cast_spec ek crs options v : (2 ≤ options)%nat → Z.of_nat options < 2 ^ 64 → (cv_option v < options)%nat →
  cast ek crs options v
  = Ok (mkBallot (honest_ciphertexts ek (cv_rng v 0%nat) (cv_option v) options) (election_fingerprint ek crs)).
Proof.
  intros Hn Hu Hi. unfold cast, unit_vector_new.
  rewrite !(proj2 (Nat.ltb_lt _ _)) by lia. cbn [assert_that]. rewrite !ok_bind.
  destruct (encrypt_and_prove_spec (E := BallotVerificationError) ek (cv_rng v) crs (cv_option v) options) as (p & rng' & -> & Hv);
    [done..|]. rewrite ok_bind. apply Hv.
Qed.
Lemma weight_cases (b : bool) v : in_u 64 (cv_weight v) → 0 ≤ (if b then cv_weight v else 0) ≤ cv_weight v.
Proof. unfold in_u. destruct b; lia. Qed.
Lemma count_for_bounds options j votes : votes_ok options votes →
  0 ≤ count_for j votes ≤ Zsum (cv_weight <$> votes).
Proof.
  unfold count_for. induction 1 as [|v votes [_ Hw] Hvs IH]; [done|]. cbn [fmap list_fmap Zsum].
  pose proof (weight_cases (j =? cv_option v)%nat v Hw). lia.
Qed.
Lemma run_votes_spec ek crs options votes :
  (2 ≤ options)%nat → Z.of_nat options < 2 ^ 64 → votes_ok options votes → Zsum (cv_weight <$> votes) < 2 ^ 64 →
  ∃ t, run_votes ek crs options votes = Ok t ∧ tally_of ek crs options (λ j, count_for j votes) t.
Proof.
  intros Hn Hu Hv Hs. unfold run_votes.
  apply (foldM_prefix (λ pre t, tally_of ek crs options (λ j, count_for j pre) t)); [apply tally_new_of|].
  intros pre v post t -> Ht. unfold votes_ok in Hv.
  apply Forall_app in Hv as [Hpre Hpost]. apply Forall_cons in Hpost as [[Hi Hw] Hpost].
  rewrite fmap_app, fmap_cons, Zsum_app in Hs. cbn [Zsum] in Hs.
  assert (0 ≤ Zsum (cv_weight <$> post)) as Hp0.
  { apply Zsum_nonneg, Forall_fmap. eapply Forall_impl; [exact Hpost|]. intros w [_ Hw']. cbn. unfold in_u in Hw'. lia. }
  rewrite cast_spec, ok_bind by done.
  destruct (tally_add_of (E := BallotVerificationError) ek crs options _ t (cv_option v) (cv_rng v 0%nat) (cv_weight v) Ht Hw)
    as (t' & Hadd & Ht').
  { intros j _. pose proof (count_for_bounds options j pre Hpre). lia. }
  exists t'. split; [done|]. destruct Ht' as [Hf [rho Hr]]. split; [done|]. exists rho. rewrite Hr. apply seq_map_ext. intros j _.
  f_equal. unfold count_for. rewrite fmap_app, Zsum_app. cbn [fmap list_fmap Zsum]. lia.
Qed.

(** ** Shares *)
(** The proof of equality is that of [Vrf], under its own names. *)
Definition as_dleq (p : DlZkp) : DleqZkp := mkDleq (dl_challenge p) (dl_response p).
Lemma dl_verify_dleq p b1 b2 p1 p2 : dl_verify p b1 b2 p1 p2 = dleq_verify (as_dleq p) b1 b2 p1 p2.
Proof. done. Qed.
Lemma dl_generate_verifies b1 b2 p1 p2 x rng : p1 = ge_mul b1 x → p2 = ge_mul b2 x →
  dl_verify (dl_generate b1 b2 p1 p2 x rng).1 b1 b2 p1 p2 = true.
Proof. intros. rewrite dl_verify_dleq. by apply (dleq_generate_verifies b1 b2 p1 p2 x (rng 0%nat)). Qed.

Definition good_share (sk : Scalar) (c : Ciphertext) (el : ProvenDecryptShare) : Prop :=
  r1 el = p_mul sk (e1 c) ∧ share_zkp_verify (pi el) c (r1 el) (member_secret_to_public sk) = true.
Lemma partial_decrypt_spec t sk rng : Forall2 (good_share sk) (et_r t) (partial_decrypt t sk rng).1.
Proof.
  unfold partial_decrypt.
  assert (∀ l pre acc rng, Forall2 (good_share sk) pre acc →
    Forall2 (good_share sk) (pre ++ l) (foldl (λ '(dshares, rng) r,
      let decrypted_share := ge_mul (e1 r) sk in
      let '(proof, rng) := share_zkp_generate r (member_secret_to_public sk) decrypted_share sk rng in
      (dshares ++ [mkShare decrypted_share proof], rng)) (acc, rng) l).1) as Hgen.
  { induction l as [|c l IH]; intros pre acc rng' Hp; cbn [foldl]; [by rewrite app_nil_r|].
    rewrite (cons_middle c pre l), app_assoc. unfold share_zkp_generate, dl_generate, random. apply IH.
    apply Forall2_app; [done|]. constructor; [|done]. split; [done|]. cbn [r1 pi].
    by apply (dl_generate_verifies _ _ _ _ _ rng'). }
  apply (Hgen (et_r t) [] [] rng). done.
Qed.
Lemma good_share_verify t sk share : Forall2 (good_share sk) (et_r t) share →
  share_verify share t (member_secret_to_public sk) = true.
Proof.
  intros Hs. unfold share_verify. rewrite (Forall2_length _ _ _ Hs), Nat.eqb_refl. cbn [negb].
  apply forallb_forall. intros [el c] Hin. apply list_elem_of_In, list_elem_of_lookup in Hin as [i Hi].
  apply lookup_zip_with_Some in Hi as (el' & c' & [= -> ->] & Hel & Hc). cbn [fst snd].
  by apply (Forall2_lookup_lr _ _ _ _ _ _ Hs Hc Hel).
Qed.

(** What the shares of all the members decrypt to. *)
Lemma tally_decrypt_spec {E} r shares sks : Forall2 (λ sk share, Forall2 (good_share sk) r share) sks shares →
  tally_decrypt (E := E) (mkValidated r shares) = Ok ((λ c, ge_sub (e2 c) (p_mul (s_sum sks) (e1 c))) <$> r).
Proof.
  intros Hs. unfold tally_decrypt. cbn [vt_r decrypt_shares].
  rewrite (list_as_seq ciphertext_zero r) at 2 3. rewrite <-list_fmap_compose.
  assert (zip (seq 0 (length r)) ((λ i, nth i r ciphertext_zero) <$> seq 0 (length r))
    = (λ i, (i, nth i r ciphertext_zero)) <$> seq 0 (length r)) as ->.
  { unfold zip. rewrite <-(list_fmap_id (seq 0 (length r))) at 1.
    apply (zip_with_fmap_same pair (λ i, i) (λ i, nth i r ciphertext_zero)). }
  rewrite mapM_fmap. apply mapM_seq. intros i Hi. apply elem_of_seq in Hi. cbn [fst snd compose].
  destruct (lookup_lt_is_Some_2 r i) as [c Hc]; [lia|]. rewrite nth_lookup, Hc. cbn [default from_option id].
  assert (mapM (M := outcome E) (λ ds : TallyDecryptShare, el ← unwrap_opt (ds !! i); Ok (r1 el)) shares
    = Ok ((λ sk, p_mul sk (e1 c)) <$> sks)) as ->.
  - induction Hs as [|sk share sks shares Hsk Hs IH]; [done|]. cbn [mapM fmap list_fmap].
    destruct (Forall2_lookup_l _ _ _ _ _ Hsk Hc) as (el & Hel & [Hr _]). unfold TallyDecryptShare. rewrite Hel. cbn [unwrap_opt].
    rewrite ok_bind, ok_bind. unfold TallyDecryptShare in IH. rewrite IH, Hr. done.
  - rewrite ok_bind. f_equal. f_equal. apply ge_sum_s_sum.
Qed.

(** The election key is the product of the sum of the secrets. *)
Lemma from_participants_spec {E} sks : sks ≠ [] →
  from_participants (E := E) (member_secret_to_public <$> sks) = Ok (p_mul (s_sum sks) ge_generator).
Proof.
  destruct sks as [|sk sks]; [done|]. intros _. unfold from_participants. cbn [fmap list_fmap lookup list_lookup unwrap_opt drop].
  rewrite drop_0, ok_bind, <-ge_sum_s_sum. cbn [fmap list_fmap]. rewrite ge_sum_cons. f_equal.
  unfold member_secret_to_public, ge_mul. generalize (p_mul sk ge_generator). induction sks as [|x sks IH]; intros k.
  - cbn [fmap list_fmap foldl]. by rewrite ge_sum_nil, p_add_0_r.
  - cbn [fmap list_fmap foldl]. rewrite IH. rewrite ge_sum_cons. unfold ge_add. by rewrite p_add_assoc.
Qed.
End spec.

(** * Theorems on the election ([chain-vote])

    What an election of honest voters and members gives, and what the checks of
    the ballots and of the result let through. *)
Unset Default Proof Using.
Local Open Scope Z_scope.

Section theorems.
Context `{DalekLaws}.
Set Default Proof Using "Type*".
Implicit Types (x y : Scalar).
Add Ring scalar_ring_tt : s_ring_theory.

Lemma validate_good t sks shares :
  Forall2 (λ sk share, Forall2 (good_share sk) (et_r t) share) sks shares →
  validate_partial_decryptions t (member_secret_to_public <$> sks) shares = Ok (mkValidated (et_r t) shares).
Proof.
  intros Hs. unfold validate_partial_decryptions.
  match goal with |- context [forallb ?f ?l] => assert (forallb f l = true) as ->; [|done] end.
  induction Hs as [|sk share sks shares Hsk Hs IH]; [done|]. cbn [fmap list_fmap zip zip_with forallb fst snd].
  rewrite good_share_verify by done. exact IH.
Qed.

Lemma verify_votes_multiples {E} pre vs : Forall (in_u 64) vs →
  verify_votes (E := E) (length pre) vs (pre ++ (multiple <$> vs)) = Ok true.
Proof.
  intros Hv. revert pre. induction Hv as [|v vs Hv Hvs IH]; intros pre; [done|]. cbn [verify_votes].
  rewrite ge_mul_u64_spec, ok_bind by done. cbn [fmap list_fmap]. rewrite list_lookup_middle by done. cbn [unwrap_opt]. rewrite ok_bind.
  rewrite bool_decide_false by (intros Hne; by apply Hne).
  specialize (IH (pre ++ [multiple v])). rewrite length_app, Nat.add_1_r, <-app_assoc in IH. exact IH.
Qed.

Lemma members_shares t sks (rngs : list Rng) : length rngs = length sks →
  Forall2 (λ sk share, Forall2 (good_share sk) (et_r t) share) sks
    (zip_with (λ sk rng, (partial_decrypt t sk rng).1) sks rngs).
Proof.
  revert rngs. induction sks as [|sk sks IH]; intros [|rng rngs] Hl; try done. cbn [zip_with].
  constructor; [apply partial_decrypt_spec|]. apply IH. by injection Hl.
Qed.

Lemma p_mul_swap x y a : p_mul x (p_mul y a) = p_mul y (p_mul x a).
Proof. rewrite <-!p_mul_mul. f_equal. ring. Qed.
Lemma decrypt_counts sks crs options counts t :
  tally_of (p_mul (s_sum sks) ge_generator) crs options counts t →
  (λ c, ge_sub (e2 c) (p_mul (s_sum sks) (e1 c))) <$> et_r t = multiple <$> (counts <$> seq 0 options).
Proof.
  intros [_ [rho ->]]. rewrite <-!list_fmap_compose. apply seq_map_ext. intros j _.
  unfold compose, count_ciphertext. cbn [e1 e2].
  rewrite (p_mul_swap (s_sum sks) (rho j)). apply ge_add_sub.
Qed.

(** C7. An election of honest voters and members gives the weighted counts of
    the votes: for any committee, with the key combined from its public keys,
    every ballot is accepted with its proof and added, every member's shares
    are validated, the decrypted tally is the sum of the weights given to each
    option, and [Tally::verify] confirms it.  The sum of the weights may be
    anything up to [max_votes]. *)
Theorem election_counts_votes {E} sks rngs crs options votes max_value max_votes balance fuel table :
  sks ≠ [] → length rngs = length sks →
  (2 ≤ options)%nat → Z.of_nat options < 2 ^ 64 → votes_ok options votes →
  generate_with_balance (E := E) max_value balance = Ok table →
  Zsum (cv_weight <$> votes) ≤ max_votes → max_votes + baby_step_size table + 1 < 2 ^ 64 →
  max_votes / baby_step_size table + 2 ≤ Z.of_nat fuel →
  let pks := member_secret_to_public <$> sks in
  let counts := (λ j, count_for j votes) <$> seq 0 options in
  ∃ ek t validated,
    from_participants (E := E) pks = Ok ek ∧ run_votes ek crs options votes = Ok t ∧
    let shares := zip_with (λ sk rng, (partial_decrypt t sk rng).1) sks rngs in
    validate_partial_decryptions t pks shares = Ok validated ∧
    decrypt_tally fuel validated max_votes table = Some (Ok counts) ∧
    tally_verify (E := E) counts t pks shares = Ok true.
Proof.
  intros Hsk Hrng Hn Hu Hv Ht Hsum Hmax Hf pks counts.
  pose proof (count_for_bounds options 0 votes Hv) as H0'. pose proof (generate_ok _ _ _ Ht ltac:(lia)) as Htab.
  pose proof (proj1 Htab) as Hb.
  destruct (run_votes_spec (p_mul (s_sum sks) ge_generator) crs options votes Hn Hu Hv ltac:(lia)) as (t & Hrun & Htally).
  pose proof (members_shares t sks rngs Hrng) as Hgood.
  exists (p_mul (s_sum sks) ge_generator), t, (mkValidated (et_r t) (zip_with (λ sk rng, (partial_decrypt t sk rng).1) sks rngs)).
  cbv zeta. split_and!; [by apply from_participants_spec|done|by apply validate_good| |].
  - unfold decrypt_tally. rewrite (tally_decrypt_spec _ _ sks Hgood), (decrypt_counts sks crs options (λ j, count_for j votes) t Htally).
    rewrite bsgs_within; try done; [lia|]. apply Forall_fmap, Forall_forall. intros j _. cbn.
    pose proof (count_for_bounds options j votes Hv). lia.
  - unfold tally_verify, pks. rewrite validate_good by done.
    rewrite (tally_decrypt_spec _ _ sks Hgood), ok_bind, (decrypt_counts sks crs options (λ j, count_for j votes) t Htally).
    apply (verify_votes_multiples []). apply Forall_fmap, Forall_forall. intros j _. unfold in_u. cbn.
    pose proof (count_for_bounds options j votes Hv). lia.
Qed.

(** ** What the checks let through *)
Lemma replace_share_sum a l b : ge_sum (l ++ [ge_sub a b]) = p_add (ge_sum l) (ge_sub a b).
Proof. by rewrite ge_sum_app, ge_sum_cons, ge_sum_nil, p_add_0_r. Qed.
Lemma forged_point e s v : ge_sub e (p_add s (ge_sub (ge_sub e s) v)) = v.
Proof.
  unfold ge_sub. rewrite (p_add_assoc s), (p_add_comm s), p_sub_add, p_neg_add, p_neg_neg, p_add_assoc, p_add_neg.
  apply p_add_0.
Qed.

(** A share that completes the sum of the others to any result. *)
Definition column (shares : list TallyDecryptShare) (i : nat) : list Point :=
  (λ ds : TallyDecryptShare, match ds !! i with Some el => r1 el | None => ge_zero end) <$> shares.
Definition forged_share (t : EncryptedTally) (shares : list TallyDecryptShare) (target : list Z) (z : DlZkp) : TallyDecryptShare :=
  (λ i, mkShare (ge_sub (ge_sub (e2 (nth i (et_r t) ciphertext_zero)) (ge_sum (column shares i))) (multiple (nth i target 0))) z)
    <$> seq 0 (length (et_r t)).

Lemma column_mapM {E} (shares : list TallyDecryptShare) i n : Forall (λ s : TallyDecryptShare, length s = n) shares → (i < n)%nat →
  mapM (M := outcome E) (λ ds : TallyDecryptShare, el ← unwrap_opt (ds !! i); Ok (r1 el)) shares = Ok (column shares i).
Proof.
  intros Hs Hi. unfold column. induction Hs as [|s shares Hs Hss IH]; [done|]. cbn [mapM fmap list_fmap].
  unfold TallyDecryptShare in *. destruct (lookup_lt_is_Some_2 s i) as [el Hel]; [lia|]. rewrite Hel. cbn [unwrap_opt].
  rewrite !ok_bind, IH. done.
Qed.

Lemma column_forged t shares target z i : (i < length (et_r t))%nat →
  column (shares ++ [forged_share t shares target z]) i = column shares i ++
    [ge_sub (ge_sub (e2 (nth i (et_r t) ciphertext_zero)) (ge_sum (column shares i))) (multiple (nth i target 0))].
Proof.
  intros Hi. unfold column at 1. rewrite fmap_app. f_equal. cbn [fmap list_fmap]. f_equal.
  assert (∀ (l : list ProvenDecryptShare) el, l !! i = Some el →
    match (l : TallyDecryptShare) !! i with Some el => r1 el | None => ge_zero end = r1 el) as Hm.
  { intros l el Hl. unfold TallyDecryptShare. by rewrite Hl. }
  by erewrite Hm by (unfold forged_share; rewrite list_lookup_fmap, lookup_seq_lt by lia; done).
Qed.
Lemma zip_extra {A B} (l : list A) (k e : list B) : length l = length k → zip l (k ++ e) = zip l k.
Proof.
  revert k. induction l as [|a l IH]; intros [|b k] Hl; try done. cbn [app]. cbn. f_equal. apply IH. by injection Hl.
Qed.
Lemma map_nth_seq {A B} (f : A → B) d l n : length l = n → (λ i, f (nth i l d)) <$> seq 0 n = f <$> l.
Proof. intros <-. symmetry. rewrite (list_as_seq d l) at 1. by rewrite <-list_fmap_compose. Qed.

Lemma forged_decrypt {E} t shares target z :
  Forall (λ s : TallyDecryptShare, length s = length (et_r t)) shares → length target = length (et_r t) →
  tally_decrypt (E := E) (mkValidated (et_r t) (shares ++ [forged_share t shares target z])) = Ok (multiple <$> target).
Proof.
  intros Hs Ht. unfold tally_decrypt. cbn [vt_r decrypt_shares].
  assert (zip (seq 0 (length (et_r t))) (et_r t) = (λ i, (i, nth i (et_r t) ciphertext_zero)) <$> seq 0 (length (et_r t))) as ->.
  { rewrite (list_as_seq ciphertext_zero (et_r t)) at 2. unfold zip. rewrite <-(list_fmap_id (seq 0 (length (et_r t)))) at 1.
    apply (zip_with_fmap_same pair (λ i, i) (λ i, nth i (et_r t) ciphertext_zero)). }
  rewrite mapM_fmap, <-(map_nth_seq multiple 0 target _ Ht). apply mapM_seq.
  intros i Hi. apply elem_of_seq in Hi. cbn [fst snd].
  rewrite (column_mapM _ i (length (et_r t))); [|apply Forall_app; split; [done|]|lia].
  - rewrite ok_bind, column_forged, replace_share_sum by lia. f_equal. apply forged_point.
  - constructor; [|done]. unfold forged_share. by rewrite length_fmap, length_seq.
Qed.

(** C37. [Tally::verify] accepts any result at all from who appends a share of
    its own to valid ones: [validate_partial_decryptions] pairs the shares with
    the members' keys by [zip] and drops what is left, but decrypts with every
    share.  The ledger passes the shares of the tally certificate as they are. *)
Theorem extra_share_forges_result {E} t pks shares validated target z :
  validate_partial_decryptions t pks shares = Ok validated → length pks = length shares →
  length target = length (et_r t) → Forall (in_u 64) target →
  tally_verify (E := E) target t pks (shares ++ [forged_share t shares target z]) = Ok true.
Proof.
  unfold validate_partial_decryptions, tally_verify. intros Hv Hl Ht Hu.
  destruct (forallb _ _) eqn:Hall; [|done].
  assert (Forall (λ s : TallyDecryptShare, length s = length (et_r t)) shares) as Hs.
  { apply Forall_lookup_2. intros i s Hi. destruct (lookup_lt_is_Some_2 pks i) as [pk Hpk].
    { rewrite Hl. by eapply lookup_lt_Some. }
    rewrite forallb_forall in Hall. specialize (Hall (pk, s)).
    assert (share_verify s t pk = true) as Hsv.
    { apply Hall, list_elem_of_In, (list_elem_of_lookup_2 _ i), lookup_zip_with_Some. eauto. }
    unfold share_verify in Hsv. destruct (Nat.eqb_spec (length s) (length (et_r t))); [done|discriminate Hsv]. }
  assert (zip pks (shares ++ [forged_share t shares target z]) = zip pks shares) as Hzip.
  { by apply zip_extra. }
  unfold validate_partial_decryptions. rewrite Hzip, Hall, forged_decrypt, ok_bind by done.
  by apply (verify_votes_multiples []).
Qed.

(** A result of fewer votes than options is accepted as well. *)
Lemma verify_votes_prefix {E} i votes rest rs : verify_votes (E := E) i (votes ++ rest) rs = Ok true →
  verify_votes (E := E) i votes rs = Ok true.
Proof.
  revert i. induction votes as [|v votes IH]; intros i; [done|]. cbn [app verify_votes].
  destruct (ge_mul_u64 _ v) as [p| |]; cbn [mbind outcome_bind]; [|done..].
  destruct (unwrap_opt _) as [r| |]; cbn [mbind outcome_bind]; [|done..].
  case_bool_decide; [done|]. apply IH.
Qed.

(** ** Ciphertexts that are not encryptions of the vote *)
Definition shift_ciphertext (d : Point) (c : Ciphertext) : Ciphertext :=
  mkCiphertext (ge_add (e1 c) d) (ge_sub (e2 c) d).
Lemma shift_halves d c : halves (shift_ciphertext d c) = halves c.
Proof.
  unfold halves, shift_ciphertext, ge_add, ge_sub. cbn [e1 e2].
  by rewrite p_add_swap, (p_add_comm (p_neg d)), p_add_neg, p_add_0_r.
Qed.
Lemma shift_decrypt sk d c :
  decrypt_point sk (shift_ciphertext d c) = ge_sub (decrypt_point sk c) (p_mul (s_add s_one sk) d).
Proof.
  unfold decrypt_point, shift_ciphertext, ge_add, ge_sub, ge_mul, scalar_negate. cbn [e1 e2].
  rewrite p_mul_add_p, p_add_swap, p_mul_add_s, p_mul_1, p_neg_add, !p_mul_neg, (p_add_comm (p_neg d)). done.
Qed.
Lemma encrypt_decrypt sk m r :
  decrypt_point sk (encrypt_with_r (p_mul sk ge_generator) m r) = p_mul m ge_generator.
Proof.
  unfold decrypt_point, encrypt_with_r, encrypt_point_with_r, ge_add, ge_mul, scalar_negate. cbn [e1 e2].
  rewrite (p_mul_swap r sk), p_mul_neg, p_add_comm. apply ge_add_sub.
Qed.

Lemma shifted_halves_ok pk i rands cts d : halves_ok pk i rands cts → halves_ok pk i rands (shift_ciphertext d <$> cts).
Proof.
  intros [Hl Hh]. split; [by rewrite length_fmap|]. intros j c r Hc Hr. rewrite list_lookup_fmap in Hc.
  destruct (cts !! j) as [c0|] eqn:Hc0; [|done]. injection Hc as <-. rewrite shift_halves. by apply Hh.
Qed.

(** C38. The proof of a ballot does not prove that it encrypts a unit vector.
    The verifier adds the equation of the first halves of the ciphertexts to
    that of the second halves, so a shift of the one against the other goes
    unseen: for every point, the prover makes an accepted proof for ciphertexts
    shifted by it, each of which decrypts to its entry of the vote minus the
    point's multiple by one more than the secret key. *)
Theorem shifted_ballot_accepted {E} d sk rng crs i n r :
  (2 ≤ n)%nat → (i < n)%nat → Z.of_nat n < 2 ^ 64 →
  let pk := p_mul sk ge_generator in
  let cts := shift_ciphertext d <$> honest_ciphertexts pk r i n in
  (∃ proof rng', unit_generate (E := E) rng crs pk (mkUnitVector i n) (replicate n r) cts = Ok (proof, rng') ∧
    ∀ bc, try_from_vote_and_proof cts proof crs pk bc = Ok (mkBallot cts (election_fingerprint pk crs))) ∧
  (λ c, decrypt_point sk c) <$> cts
    = (λ j, ge_sub (p_mul (s_bool (j =? i)%nat) ge_generator) (p_mul (s_add s_one sk) d)) <$> seq 0 n.
Proof.
  intros Hn Hi Hu pk cts. split.
  - assert (length cts = n) as Hl by (unfold cts, honest_ciphertexts; by rewrite !length_fmap, length_seq).
    destruct (prover_accepted (E := E) (E' := BallotVerificationError) rng crs pk i n (replicate n r) cts Hn Hi Hu Hl) as (p & rng' & Hp & Hv).
    { apply shifted_halves_ok, honest_halves. }
    exists p, rng'. split; [done|]. intros bc. unfold try_from_vote_and_proof. by rewrite Hv.
  - unfold cts, honest_ciphertexts. rewrite <-!list_fmap_compose. apply seq_map_ext. intros j _. unfold compose.
    by rewrite shift_decrypt, encrypt_decrypt.
Qed.

(** The choice, read off the ciphertexts of a ballot: the entry that is one
    generator above another. *)
Definition reveal_vote (cts : list Ciphertext) : option nat :=
  fst <$> list_find (λ c, Exists (λ c', e2 c = ge_add (e2 c') ge_generator) cts) cts.

Lemma bool_above a b r : p_add (p_mul (s_bool a) ge_generator) r = ge_add (p_add (p_mul (s_bool b) ge_generator) r) ge_generator ↔
  a = true ∧ b = false.
Proof.
  assert (∀ c : bool, p_mul (s_bool c) ge_generator = multiple (if c then 1 else 0)) as Hm.
  { intros c. rewrite <-(multiple_weight c 1) by done. by rewrite s_of_u64_1, p_mul_1. }
  rewrite !Hm. unfold ge_add. rewrite <-p_add_assoc, (p_add_comm r), p_add_assoc.
  assert (∀ p q, p_add p r = p_add q r ↔ p = q) as Hcancel.
  { intros p q. split; [|by intros ->]. rewrite !(p_add_comm _ r). apply p_add_cancel. }
  rewrite Hcancel. change (p_add (multiple ?v) ge_generator) with (ge_add (multiple v) ge_generator).
  rewrite multiple_S by (destruct b; lia). split.
  - intros Heq. apply multiple_inj in Heq; [|by destruct a|by destruct b]. destruct a, b; done.
  - by intros [-> ->].
Qed.
Lemma reveal_honest pk r i n : (2 ≤ n)%nat → (i < n)%nat → reveal_vote (honest_ciphertexts pk r i n) = Some i.
Proof.
  intros Hn Hi. unfold reveal_vote.
  assert (∀ j, (j < n)%nat → honest_ciphertexts pk r i n !! j = Some (encrypt_with_r pk (s_bool (j =? i)%nat) r)) as Hlook.
  { intros j Hj. unfold honest_ciphertexts. by rewrite list_lookup_fmap, lookup_seq_lt. }
  rewrite (proj2 (list_find_Some _ _ i (encrypt_with_r pk (s_bool (i =? i)%nat) r))); [done|]. split_and!.
  - by apply Hlook.
  - set (k := if decide (i = 0)%nat then 1%nat else 0%nat).
    assert (k < n ∧ k ≠ i)%nat as [Hk Hki] by (unfold k; case_decide; lia).
    apply Exists_exists. exists (encrypt_with_r pk (s_bool (k =? i)%nat) r). split.
    + apply list_elem_of_lookup. exists k. by apply Hlook.
    + apply bool_above. by rewrite Nat.eqb_refl, (proj2 (Nat.eqb_neq _ _)).
  - intros j c Hc Hj Hex. rewrite Hlook in Hc by lia. injection Hc as <-.
    apply Exists_exists in Hex as (c' & Hin & Heq). apply list_elem_of_lookup in Hin as [k Hk].
    pose proof (lookup_lt_Some _ _ _ Hk) as Hlt. unfold honest_ciphertexts in Hlt. rewrite length_fmap, length_seq in Hlt.
    rewrite Hlook in Hk by done. injection Hk as <-. apply bool_above in Heq as [Htrue _].
    apply Nat.eqb_eq in Htrue. lia.
Qed.

(** C39. A private vote is not private: [encrypt_and_prove_vote] draws one
    randomness and clones it for all the options, so whoever sees the
    ciphertexts of a ballot reads the choice off them, without any key. *)
Theorem ballot_reveals_vote {E} pk rng crs i n cts proof rng' :
  (2 ≤ n)%nat → (i < n)%nat → Z.of_nat n < 2 ^ 64 →
  encrypt_and_prove_vote (E := E) pk rng crs (mkUnitVector i n) = Ok (cts, proof, rng') →
  reveal_vote cts = Some i.
Proof.
  intros Hn Hi Hu Henc. destruct (encrypt_and_prove_spec (E := E) pk rng crs i n Hn Hi Hu) as (p & rng2 & Hok & _).
  rewrite Hok in Henc. injection Henc as <- _ _. by apply reveal_honest.
Qed.

(** A vote over a single option, which [UnitVector::new] allows, cannot be
    encrypted: its index has no bits and the prover indexes the first. *)
Theorem single_option_vote_panics {E} pk rng crs :
  unit_vector_new (E := E) 1 0 = Ok (mkUnitVector 0 1) ∧
  encrypt_and_prove_vote (E := E) pk rng crs (mkUnitVector 0 1) = Panic.
Proof. split; reflexivity. Qed.
End theorems.

(** ** The theorems on the residues *)
Definition w_rng : @Rng zp_dalek := λ n, zp_of (Z.of_nat n * 7 + 3).
Definition w_votes : list (@CastVote zp_dalek) :=
  [@mkCast zp_dalek 0 6 w_rng (zp_of 1); @mkCast zp_dalek 2 5 w_rng (zp_of 2); @mkCast zp_dalek 0 4 w_rng (zp_of 3)].
Lemma election_counts_votes_witness :
  let pks := @member_secret_to_public zp_dalek <$> [zp_of 5; zp_of 9] in
  ∃ ek t validated,
    @from_participants zp_dalek unit pks = Ok ek ∧ @run_votes zp_dalek ek (zp_of 77) 3 w_votes = Ok t ∧
    let shares := zip_with (λ sk rng, (@partial_decrypt zp_dalek t sk rng).1) [zp_of 5; zp_of 9] [w_rng; w_rng] in
    validate_partial_decryptions t pks shares = Ok validated ∧
    decrypt_tally 6 validated 20 table_20 = Some (Ok [10; 0; 5]) ∧
    @tally_verify zp_dalek unit [10; 0; 5] t pks shares = Ok true.
Proof.
  refine (@election_counts_votes zp_dalek zp_dalek_laws unit [zp_of 5; zp_of 9] [w_rng; w_rng] (zp_of 77) 3 w_votes 20 20 1 6 table_20
    _ _ _ _ _ table_20_ok _ _ _); try done; try lia.
  repeat (apply Forall_cons; split; [split; [cbn; lia|done]|]). by apply Forall_nil.
Defined.

Definition w_tally : @EncryptedTally zp_dalek := encrypted_tally_new 2 (zp_of 5) (zp_of 77).
Definition w_shares : list (@TallyDecryptShare zp_dalek) :=
  zip_with (λ sk rng, (@partial_decrypt zp_dalek w_tally sk rng).1) [zp_of 5] [w_rng].
Lemma extra_share_forges_result_witness :
  let pks := @member_secret_to_public zp_dalek <$> [zp_of 5] in
  @tally_verify zp_dalek unit [1000; 7] w_tally pks
    (w_shares ++ [forged_share w_tally w_shares [1000; 7] (@mkDl zp_dalek (zp_of 0) (zp_of 0))]) = Ok true.
Proof.
  refine (@extra_share_forges_result zp_dalek zp_dalek_laws unit w_tally (@member_secret_to_public zp_dalek <$> [zp_of 5]) w_shares
    (mkValidated (et_r w_tally) w_shares) [1000; 7] (@mkDl zp_dalek (zp_of 0) (zp_of 0)) _ _ _ _); [|done|done|].
  - apply (@validate_good zp_dalek zp_dalek_laws w_tally [zp_of 5] w_shares).
    by apply (@members_shares zp_dalek zp_dalek_laws w_tally [zp_of 5] [w_rng]).
  - repeat (apply Forall_cons; split; [done|]). by apply Forall_nil.
Defined.

(** Shifted by the generator: the entries decrypt to -5 and -6 times it. *)
Lemma shifted_ballot_accepted_witness :
  let cts := @shift_ciphertext zp_dalek (zp_of 1) <$> honest_ciphertexts (@p_mul zp_dalek (zp_of 5) ge_generator) (zp_of 3) 0 2 in
  (∃ proof rng', @unit_generate zp_dalek unit w_rng (zp_of 77) (@p_mul zp_dalek (zp_of 5) ge_generator) (mkUnitVector 0 2)
      (replicate 2 (zp_of 3)) cts = Ok (proof, rng') ∧
    ∀ bc, try_from_vote_and_proof cts proof (zp_of 77) (@p_mul zp_dalek (zp_of 5) ge_generator) bc
      = Ok (mkBallot cts (election_fingerprint (@p_mul zp_dalek (zp_of 5) ge_generator) (zp_of 77)))) ∧
  zp_val <$> ((λ c, @decrypt_point zp_dalek (zp_of 5) c) <$> cts) = [ell - 5; ell - 6].
Proof.
  intros cts. split; [|vm_compute; reflexivity].
  refine (proj1 (@shifted_ballot_accepted zp_dalek zp_dalek_laws unit (zp_of 1) (zp_of 5) w_rng (zp_of 77) 0 2 (zp_of 3) _ _ _));
    [lia|lia|done].
Defined.

Lemma ballot_reveals_vote_witness :
  ∃ cts proof rng', @encrypt_and_prove_vote zp_dalek unit (zp_of 35) w_rng (zp_of 77) (mkUnitVector 1 3) = Ok (cts, proof, rng') ∧
    @reveal_vote zp_dalek cts = Some 1%nat.
Proof.
  destruct (@encrypt_and_prove_spec zp_dalek zp_dalek_laws unit (zp_of 35) w_rng (zp_of 77) 1 3) as (p & rng' & Hok & _);
    [lia|lia|done|].
  exists (@honest_ciphertexts zp_dalek (zp_of 35) (w_rng 0%nat) 1 3), p, rng'. split; [exact Hok|].
  refine (@ballot_reveals_vote zp_dalek zp_dalek_laws unit (zp_of 35) w_rng (zp_of 77) 1 3 _ p rng' _ _ _ Hok); [lia|lia|done].
Defined.
